(* ===== verification/_CoqProject ===== *)
-Q . S2P
Prelude.v
Text.v
Json.v
ImageRef.v
Posture.v
PetGraph.v
Attack.v
Behavior.v
Classify.v
Asn.v
Graph.v
Snapshot.v
Adapters.v
HostCredential.v
PeerIndex.v
AdapterFacts.v
Enrich.v
EnrichFacts.v
SignalFacts.v
ObserveFacts.v
Chain.v
ChainFacts.v
PathEnum.v
Objective.v
Corroborate.v
Boundary.v
Prove.v
Cluster.v
Respond.v
Ledger.v
Actuator.v
ActuatorFacts.v
Render.v
NodeContainment.v
Backoff.v
AgentLiveness.v
Ingest.v
IngestFacts.v
Auth.v
Verdicts.v
VerdictFacts.v
Incident.v
Evidence.v
EvidenceFacts.v
Feeds.v
Redact.v
Findings.v
Readiness.v
Guards.v
GuardsFacts.v
AdjPass.v
Prompt.v
PromptFacts.v
AdjFacts.v
Divergence.v
PolicyLog.v
Journal.v
SigningBaseline.v
SigningDrift.v
Continuity.v
Admission.v
AdmissionFacts.v
SigningSweep.v
Engine.v
Restore.v
EngineFacts.v
Judged.v
View.v
SigningInventory.v
Report.v
Mcp.v
Dashboard.v
Agent.v
Model.v
AgentFacts.v
Preflight.v
Reports.v
Boot.v
Kube.v
RunLoop.v
