(* ===== verification/Prelude.v ===== *)
(** * protector: a verification library

    protector watches a Kubernetes cluster, proves which internet-facing
    workloads an attacker can walk from to something valuable, asks a language
    model to judge each such entry, and, where armed, applies reversible network
    cuts that it lifts again as soon as their reasons are gone. Beside that
    engine an admission webhook refuses pods whose images lost their signature
    or that run outside the mesh. This library models both (src/engine/src,
    src/behavior) as executable definitions and proves what they promise.

    ** How the parts interact

    An observation ([Enrich.build_pass], observe/adapter/mod.rs) runs the
    adapters over a snapshot of the cluster: structure first, then exposure, then
    the evidence of scanners, sensors and the audit log. What they build is the
    graph of the pass.

    One pass ([Engine.process], engine/mod.rs) takes the observed graph, health
    and fleet. [Prove.prove] enumerates the attack chains of the graph.
    [AdjPass.run_adjudication_pass] decides which entries the model is asked
    about, folds its answers into the verdict store and the standing decisions,
    and stamps the chains. [Respond.reconcile] turns chains and decisions into
    the ledger of justified mitigations. [Engine.actuate] applies what passes
    every gate, and lifts what lost its reason. What a pass decided goes to the
    decision journal ([Journal]); on boot [Restore.replay_journal] turns the
    journal's tail into the memory the first pass starts from.

    In the same loop [SigningSweep.run_sweeps] observes the signatures of the
    running images ([Posture]), compares them with what each repository always
    did ([SigningBaseline], [SigningDrift]), learns, and publishes a snapshot.
    The webhook ([Admission.engine_evaluate], policy.rs) runs its policies in
    order over each request; the signature policy reads that snapshot through
    the continuity gate ([Continuity]). Every decision is a row of the bounded
    admission log ([PolicyLog]) and a line of the journal.

    The pass of Engine.v leaves the prompt, the evidence coverage and the answers
    open; [Judged.judged_pass] fills them in with [Prompt.delta_prompt],
    [Evidence.entry_coverage] and [Guards.judge], so that a cut can be traced to
    the evidence of the graph. Around the loop stand what feeds it ([Feeds],
    [Ingest], [AgentLiveness]), what it sends out ([Redact]) and who may look at
    it ([Auth]).

    ** Files

    - Prelude: hint database, tactics, the ordered map and set iterations of
      Rust's BTreeMap and BTreeSet, [sort_dedup], list and option lemmas.
    - Text: the byte-level string operations of Rust's str; Json: the values
      the code reads and writes.
    - PetGraph: petgraph's StableGraph as the interface [StableGraph] with its
      laws [StableGraphLaws], and the concrete [list_graph] that satisfies it.
    - Attack, Behavior, Classify: the ATT&CK catalogue (graph/attack.rs), the
      behaviours an agent reports (behavior/src/lib.rs) and which executions,
      writes and peers alarm (observe/exec_class.rs, alarm_class.rs,
      peer_class.rs).
    - Asn: the provider table of internet peers (observe/asn.rs) and the lines it
      groups them into (peer_class.rs).
    - Graph: the security graph (graph/mod.rs) and its delta (graph/delta.rs).
    - Snapshot: the Kubernetes objects and reports a pass reads, as far as the
      adapters look at them (observe/mod.rs).
    - Adapters, AdapterFacts: the structural and exposure adapters
      (observe/adapter), the edges the objects declare ([declared]), which pods
      face the internet ([internet_facing]) and that the adapters build exactly
      these.
    - HostCredential, PeerIndex: which file reads are of credentials
      (observe/host_credential_class.rs) and the address index with its memo
      (observe/ip_index.rs, ip_index/memo.rs).
    - Enrich: the evidence adapters and the whole pass (adapter/enrich.rs,
      findings.rs, audit_secret.rs); EnrichFacts, SignalFacts, ObserveFacts: what
      each of them changes, and the evidence of a pass ([evidence_read]).
    - Chain, ChainFacts, PathEnum: the breadth-first movement tree, shortest
      paths, the cut test and the bounded path enumeration
      (reason/proof/chain.rs).
    - Objective, Corroborate, Boundary: what is worth attacking
      (reason/objective.rs), when runtime evidence corroborates it
      (reason/proof/corroborate.rs) and when a workload has left its pod
      (reason/proof/boundary_break.rs).
    - Prove: the proof itself (reason/proof/mod.rs).
    - Cluster: observation and proof together: the chains of a pass are the
      attack paths the cluster's objects declare ([attack_path]).
    - Respond, Ledger: proposed actions, containment and the ledger
      (respond/mod.rs), with its refinement of a per-chain specification.
    - Actuator, ActuatorFacts: arming, scope, blast radius, the decision, the
      action log and the scope preview (respond/actuator).
    - Render: the manifests (respond/actuator/render.rs) over an arbitrary hash.
    - NodeContainment: cordoning a node (respond/actuator/node_containment.rs
      and live.rs, observe/adapter/node_fact.rs, node_containment_revert.rs).
    - Backoff, Verdicts, VerdictFacts: the retry delay and breaker
      (reason/backoff.rs), verdicts, the judged surface, recency and the verdict
      store (reason/adjudicate, state/verdict_store.rs, state/recency.rs).
    - AgentLiveness: the beacons of the agents, the coverage of a pass and the
      stall edge (state/agent_liveness.rs, stall.rs).
    - Agent, AgentFacts: the node agent (src/agent): what the kernel programs put
      in the ring for the answers of the kernel's helpers, its decoding and
      attribution to a pod, the linkage of an executable (behavior/src/elf.rs),
      coalescing, the reporter and the flush loop; the directory walk runs on the
      size of the tree, which is enough ([scan_enough]).
    - Preflight: the table of kernel offsets, the reader of a node's type
      information and the probes it lets attach (agent/common/src/offsets.rs,
      preflight, observer/ebpf/preflight_gate.rs); the reader runs on the bytes
      it is given, which is enough ([parse_types_enough]).
    - Reports: what scanner reports and mesh policies become (observe/trivy.rs,
      trivy_config.rs, trivy_rbac.rs, trivy_secret.rs, linkerd.rs, mod.rs) and
      the health of a workload (observe/health.rs).
    - Boot: the posture, the notifier, the registry credentials and the
      transparency-log lane read from the environment, and what they arm (main.rs,
      notify.rs, policies/signature/auth.rs, rekor.rs).
    - Kube: the live actuators (respond/actuator/kube.rs) and the objects in the
      cluster against the log of applied cuts.
    - RunLoop: the loop that wakes the engine, with its channels, its stores and
      the poller of the break-glass flag (run_loop.rs, break_glass.rs); once every ping is
      sent, and while every channel is open, it rests within [turns_left] turns.
    - Model: the call to the model, what of its answer is read and the endpoint
      gate (model.rs).
    - Ingest, IngestFacts: the endpoints that take behaviour reports and audit
      events, their windows and their guard (observe/runtime.rs, audit.rs,
      ingest_guard.rs).
    - Auth: who reads the dashboard (dashboard/auth): tiers, tokens,
      the issuer's key store and the enforcing layer.
    - Incident: the cut-choice menu, reading a reply and the
      replay lock (reason/adjudicate/incident).
    - Evidence, EvidenceFacts: sanitized, capped and budgeted evidence lines
      (reason/adjudicate/evidence.rs, redact/sanitize.rs).
    - Feeds: exploit intelligence and its hot reload (observe/feed_reload.rs,
      exploit_intel.rs, epss.rs), over the interface [Feed].
    - Redact: the scrubbers and the payloads of the notifier
      (redact/, notify.rs).
    - Findings: the rows a pass publishes, their shared handle
      and the pushes its coverage register causes (state/findings.rs,
      evidence.rs, reach.rs).
    - Readiness: what each input of a decision is worth, the status strip and
      the tokens decided from it (state/readiness.rs, dashboard/view_model/strip.rs,
      readiness.rs, props/status.rs).
    - Guards, GuardsFacts: the guards on a reply and the judge around the model
      (reason/adjudicate/guards.rs, incident/guards.rs, model_call.rs).
    - Prompt, PromptFacts: the prompt, byte for byte, the downstream blocks and
      the delta build (reason/adjudicate/prompt.rs, downstream.rs).
    - AdjPass, AdjFacts: the adjudication pass (adj_gate.rs, adj_pass.rs).
    - Divergence: the comparator (cut_divergence.rs).
    - ImageRef: image references, their registry aliases and repository keys
      (policies/signature/cosign.rs, mod.rs and the continuity identity of
      posture.rs).
    - Posture: signing and provenance postures and their caching observers
      (policies/signature/posture.rs, provenance.rs).
    - PolicyLog: the admission log (policy_log.rs) and the rings of state/.
    - Journal: the durable journal (journal/mod.rs) with its codec contract
      [LineFormat] and a concrete instance, [BitCodec].
    - SigningBaseline, SigningDrift: what a repository always did
      (state/signing_baseline.rs) and what departs from it
      (supply_chain/signing_drift.rs, provenance_drift.rs, signing_rekor.rs,
      signing_trust.rs).
    - Continuity, Admission, AdmissionFacts: exceptions, pins and the gate
      (policies/signature/continuity.rs), the policy engine and both policies
      (policy.rs, policies/mesh.rs, policies/signature/mod.rs), proved against
      the interface [PolicyStable] that each policy implements.
    - SigningSweep: the sweeps of a pass and what they publish (supply_chain).
    - Engine, Restore, EngineFacts: the pass as a whole (mod.rs), the boot
      (restore.rs) and every engine reachable from any journal; Judged: the
      engine with its own prompt and judge.
    - View: the rows as they are shown: posture, alerts, the collapse of
      replicas and fan-out, the order by urgency (dashboard/view_model/posture.rs,
      alerts.rs, findings.rs, mod.rs).
    - SigningInventory: the admission log read back into
      repositories, images, banners and the enforcement column
      (view_model/signing_inventory.rs, props/signing.rs), against the rows the
      sweep records and the gate.
    - Report: the would-have-acted report (state/report.rs).
    - Mcp: the disclosure tiers, the redacting renderer, the tools and
      their audit (mcp/).
    - Dashboard: the handles and the view of each tab
      (dashboard/mod.rs, view_model/admission.rs, action.rs, access.rs,
      scope_preview.rs), and what its all-clear means.

    ** Conventions

    Node keys are strings, as in the source; BTreeMap and HashMap are [gmap],
    and an iteration whose order the code relies on goes through [btree_iter].
    Machine-width integers are [Z] with their wrap-around or saturation written
    out. A panic is [None]; floats are their IEEE bits. Clocks, hashes, the JSON
    reader and the replies of the model are arguments. What is written to the cluster or the journal is a list of
    effects, in order. Loops that are not structural carry fuel: the walks use
    the number of nodes and edges ([Chain.bfs_fuel], [Chain.walk_fuel]), and
    the theorems show that it never runs out; the path enumeration's budget is
    the code's own.

    ** What the theorems show

    End to end (EngineFacts): no cut is applied unless a chain proved on the
    very graph, from an internet-facing entry, is corroborated and affirmed or
    promoted by the model in that pass, and every gate holds; break-glass lifts
    everything; every reachable engine is well formed and its next pass
    completes. With its own judge (Judged): a cut of this pass rests on an attack
    that the menu offered and the evidence of the graph supports. Judge and
    prompt: what the judge answers on every branch; nothing a report says closes
    a fence or forges the benign tag; the nodes shown as evidenced are those the
    guard accepts; every loaded vulnerability is shown, whatever the budget; the
    cache key depends on the state alone. Observation (ObserveFacts, Cluster): the graph of a pass is well
    typed, its edges are exactly the declared ones, evidence changes no edge and
    no exposure, each node's evidence is what the reports say, the ingress loop
    settles, and the proven chains are the declared attack paths. Proof:
    enumeration is sound and complete, cuts and paths exact,
    on every graph. Ledger: which cuts stand and why, exactly. Adjudication:
    the gate never replays a positive, a reply only names what its menu
    offered, decisions change only on a fresh decisive answer, a restored one
    needs both locks. Actuation: the decision, the blast radius, the closed loop
    and the node rails, exactly. Admission: which request the webhook refuses,
    in terms of its images alone, each answered by the cache while it is young
    and by the registry otherwise; what is recorded beside it; and that the
    sweep's inventory and the gate agree. Supply chain:
    the invariant of every baseline store, learned or read back from the
    journal with the lines of older engines, what one observation
    learns, and what a full pass publishes, including that a signer seen
    running is admitted afterwards if the repositories fit. Durability: rotation never loses the recent
    lines, a compacted baseline and a staged decision survive a restart, and
    what a torn write costs. Edges: which requests the dashboard and the evidence
    endpoints let in, what a report changes, what the coverage of a pass says,
    that a feed serves its last good contents, and that the verdict of a payload
    names no target. Readers: what a call of the MCP server gets at each tier
    and what is recorded of it, that the redacted tier tells nothing of names and
    five fields of the forensic one no secret's, what the report says of an entry, that the
    inventory reads back what the sweep wrote and agrees with the gate, that
    pushes of lost and restored coverage alternate, and what an all-clear
    promises. The agent: what a hook senses, what its linkage means, and that
    what the loop receives reaches the engine; which probes attach, in terms of
    the fields the kernel programs read and the offsets compiled into them; which
    endpoints, IPv6 ones included, may be given the graph. The cluster: that it holds exactly the
    objects of the cuts that stand, and what a refused call costs. The loop: that
    no change is left unread, but for a list swapped in without a ping, and when
    it does not rest. The start: what a posture arms and refuses, whom an
    image's credentials go to, and that a scanned secret reaches no finding. Bounds: the retry delay, the caches, the logs.

    ** Not modelled

    Network and cluster transport, metrics and logs, the HTTP of the model and
    the notifier; the registry, TUF and transparency-log clients behind an
    image's posture; the reflectors that fill a snapshot; the
    routing, page and serialization of the dashboard, the transport and schemas
    of the MCP server, process wiring; the loading of the
    kernel programs. SHA-256, the decoding of a JWT, the Unicode digits of
    a regular expression and the floating-point token bucket are arguments. Their results enter as arguments, over which every
    theorem quantifies. Locks are taken as held for a whole operation: the
    interleavings of two concurrent requests inside one cache are not modelled. *)

From Stdlib Require Import Sorting.Sorted.
From Stdlib Require Export Lia.
From stdpp Require Export base option pretty strings fin_maps gmap list.

#[export] Set Default Goal Selector "!".

Declare Scope prot_scope.
Delimit Scope prot_scope with prot.

(** ** Hint databases and tactics *)

Create HintDb prot discriminated.
#[export] Hint Constants Opaque : prot.
#[export] Hint Variables Transparent : prot.

(** Split every boolean conjunction/disjunction hypothesis and every stdpp
    bool_decide into its proposition. *)
Ltac bools :=
  repeat match goal with
  | H : andb _ _ = true |- _ => apply andb_true_iff in H as [? ?]
  | H : andb _ _ = false |- _ => apply andb_false_iff in H
  | H : orb _ _ = true |- _ => apply orb_true_iff in H
  | H : orb _ _ = false |- _ => apply orb_false_iff in H as [? ?]
  | H : negb _ = true |- _ => apply negb_true_iff in H
  | H : negb _ = false |- _ => apply negb_false_iff in H
  | H : bool_decide _ = true |- _ => apply bool_decide_eq_true in H
  | H : bool_decide _ = false |- _ => apply bool_decide_eq_false in H
  end.

(** Case on the scrutinee of the first match/if of the goal or a hypothesis. *)
Ltac split_match :=
  match goal with
  | |- context [match ?x with _ => _ end] => destruct x eqn:?
  | H : context [match ?x with _ => _ end] |- _ => destruct x eqn:?
  end.

Ltac crush := repeat (first [progress simplify_eq/= | split_match]); try done.

(** ** Ordering of Rust strings: bytewise lexicographic *)

Definition str_leb (a b : string) : bool := String.leb a b.

Definition str_ltb (a b : string) : bool := String.ltb a b.

(** ** Stable sorting, as [slice::sort_by] promises it *)

Section Sorting.
Context {A : Type} (leb : A -> A -> bool).

Fixpoint sort_insert (x : A) (l : list A) : list A :=
  match l with
  | [] => [x]
  | y :: l' => if leb x y then x :: y :: l' else y :: sort_insert x l'
  end.

Definition sort_by (l : list A) : list A := foldr sort_insert [] l.

(** [Vec::dedup_by]: drop an element equal to the last kept one. *)
Fixpoint dedup_from (eqb : A -> A -> bool) (prev : A) (l : list A) : list A :=
  match l with
  | [] => []
  | y :: l' =>
      if eqb y prev then dedup_from eqb prev l' else y :: dedup_from eqb y l'
  end.

Definition dedup_by (eqb : A -> A -> bool) (l : list A) : list A :=
  match l with
  | [] => []
  | x :: l' => x :: dedup_from eqb x l'
  end.

End Sorting.

(** [BTreeMap::iter]: the entries in ascending key order. *)
Definition btree_iter {V} (m : gmap string V) : list (string * V) :=
  sort_by (fun a b => str_leb a.1 b.1) (map_to_list m).

(** [BTreeMap::values]. *)
Definition btree_values {V} (m : gmap string V) : list V := (btree_iter m).*2.

(** [BTreeSet::iter]. *)
Definition bset_iter (s : gset string) : list string := sort_by str_leb (elements s).

(** [Iterator::filter] with a predicate that may panic. *)
Fixpoint filterM {A} (f : A -> option bool) (l : list A) : option (list A) :=
  match l with
  | [] => Some []
  | x :: l' =>
      match f x, filterM f l' with
      | Some true, Some kept => Some (x :: kept)
      | Some false, Some kept => Some kept
      | _, _ => None
      end
  end.

(** A loop whose body may panic. *)
Definition foldM {S A} (f : S -> A -> option S) (s : S) (l : list A) : option S :=
  foldl (fun acc a => acc ≫= fun s => f s a) (Some s) l.

(** ** Lemmas: string order *)

Lemma ascii_compare_N a b : Ascii.compare a b = N.compare (Ascii.N_of_ascii a) (Ascii.N_of_ascii b).
Proof. done. Qed.

Lemma str_leb_refl a : str_leb a a = true.
Proof. unfold str_leb. destruct (String.leb_total a a); done. Qed.

Lemma str_leb_total a b : str_leb a b = true \/ str_leb b a = true.
Proof. apply String.leb_total. Qed.

Lemma str_leb_antisym a b : str_leb a b = true -> str_leb b a = true -> a = b.
Proof. apply String.leb_antisym. Qed.

Lemma str_compare_trans a b c :
  String.compare a b <> Gt -> String.compare b c <> Gt -> String.compare a c <> Gt.
Proof.
  revert b c. induction a as [|x a IH]; intros [|y b] [|z c]; simpl; try done.
  rewrite !ascii_compare_N.
  destruct (N.compare_spec (Ascii.N_of_ascii x) (Ascii.N_of_ascii y)) as [Hxy|Hxy|Hxy];
    destruct (N.compare_spec (Ascii.N_of_ascii y) (Ascii.N_of_ascii z)) as [Hyz|Hyz|Hyz];
    destruct (N.compare_spec (Ascii.N_of_ascii x) (Ascii.N_of_ascii z)) as [Hxz|Hxz|Hxz];
    try done; try lia; eauto.
Qed.

Lemma str_leb_compare a b : str_leb a b = true <-> String.compare a b <> Gt.
Proof. unfold str_leb, String.leb. destruct (String.compare a b); naive_solver. Qed.

Lemma str_leb_trans a b c : str_leb a b = true -> str_leb b c = true -> str_leb a c = true.
Proof. rewrite !str_leb_compare. apply str_compare_trans. Qed.

(** ** Lemmas: sorting *)

Section SortingLemmas.
Context {A : Type} (leb : A -> A -> bool).

Lemma sort_insert_perm x l : sort_insert leb x l ≡ₚ x :: l.
Proof.
  induction l as [|y l IH]; simpl; [done|].
  destruct (leb x y); [done|]. rewrite IH. constructor.
Qed.

Lemma sort_by_perm l : sort_by leb l ≡ₚ l.
Proof.
  induction l as [|x l IH]; simpl; [done|]. by rewrite sort_insert_perm, IH.
Qed.

Lemma elem_of_sort_by x l : x ∈ sort_by leb l <-> x ∈ l.
Proof. by rewrite sort_by_perm. Qed.

Lemma length_sort_by l : length (sort_by leb l) = length l.
Proof. apply Permutation_length, sort_by_perm. Qed.

Lemma sort_by_nil l : sort_by leb l = [] <-> l = [].
Proof.
  split; [|by intros ->]. intros H. apply Permutation_nil. by rewrite <- H, sort_by_perm.
Qed.

Context (Htot : forall x y, leb x y = true \/ leb y x = true)
  (Htrans : forall x y z, leb x y = true -> leb y z = true -> leb x z = true).

Lemma sort_insert_sorted x l :
  StronglySorted (fun a b => leb a b = true) l ->
  StronglySorted (fun a b => leb a b = true) (sort_insert leb x l).
Proof.
  induction 1 as [|y l Hs IH Hall]; simpl; [repeat constructor|].
  destruct (leb x y) eqn:E.
  - constructor; [by constructor|]. constructor; [done|].
    eapply Forall_impl; [exact Hall|]. simpl; eauto.
  - assert (leb y x = true) as Hyx by (destruct (Htot x y); congruence).
    constructor; [done|]. rewrite sort_insert_perm. by constructor.
Qed.

Lemma sort_by_sorted l : StronglySorted (fun a b => leb a b = true) (sort_by leb l).
Proof. induction l; simpl; [constructor|]. by apply sort_insert_sorted. Qed.

End SortingLemmas.

(** Two sorted permutations of each other are equal when the order is
    antisymmetric: the canonical-form argument for rendered lists. *)
Lemma sorted_perm_eq {A} (R : A -> A -> Prop) (l1 l2 : list A) :
  (forall a b, R a b -> R b a -> a = b) ->
  StronglySorted R l1 -> StronglySorted R l2 -> l1 ≡ₚ l2 -> l1 = l2.
Proof.
  intros Hanti Hs1. revert l2.
  induction Hs1 as [|x l1 Hs1 IH Hx]; intros l2 Hs2 Hp.
  - symmetry. by apply Permutation_nil.
  - destruct Hs2 as [|y l2 Hs2 Hy]; [symmetry in Hp; by apply Permutation_nil_cons in Hp|].
    assert (x = y) as ->.
    { assert (x ∈ y :: l2) as Hin1 by (rewrite <- Hp; set_solver).
      assert (y ∈ x :: l1) as Hin2 by (rewrite Hp; set_solver).
      apply elem_of_cons in Hin1 as [?|Hin1]; [done|].
      apply elem_of_cons in Hin2 as [?|Hin2]; [done|].
      rewrite Forall_forall in Hx, Hy.
      apply Hanti; [by apply Hx|by apply Hy]. }
    f_equal. apply IH; [assumption|]. by eapply Permutation.Permutation_cons_inv.
Qed.

Lemma ssorted_app {A} (R : A -> A -> Prop) l1 l2 :
  StronglySorted R l1 -> StronglySorted R l2 ->
  (forall x y, x ∈ l1 -> y ∈ l2 -> R x y) -> StronglySorted R (l1 ++ l2).
Proof.
  induction 1 as [|x l1 Hs IH Hall]; simpl; intros Hs2 H; [done|].
  constructor; [apply IH; [done|]; set_solver|].
  apply Forall_app. split; [done|]. apply Forall_forall. set_solver.
Qed.

Lemma ssorted_impl {A} (R R' : A -> A -> Prop) l :
  StronglySorted R l -> (forall x y, x ∈ l -> y ∈ l -> R x y -> R' x y) -> StronglySorted R' l.
Proof.
  induction 1 as [|x l Hs IH Hall]; intros H; [constructor|].
  constructor; [apply IH; set_solver|]. rewrite Forall_forall in *. set_solver.
Qed.

Section Dedup.
Context {A : Type} (eqb : A -> A -> bool).

Lemma elem_of_dedup_from prev x l : x ∈ dedup_from eqb prev l -> x ∈ l.
Proof.
  revert prev. induction l as [|y l IH]; intros prev; simpl; [done|].
  destruct (eqb y prev); rewrite ?elem_of_cons; naive_solver.
Qed.

Lemma elem_of_dedup_by x l : x ∈ dedup_by eqb l -> x ∈ l.
Proof.
  destruct l as [|y l]; simpl; [done|].
  rewrite !elem_of_cons. intros [->|H]; eauto using elem_of_dedup_from.
Qed.

Lemma dedup_by_nil l : dedup_by eqb l = [] <-> l = [].
Proof. by destruct l. Qed.

(** Nothing is lost up to the test: every element is represented. *)
Lemma dedup_from_repr (Hrefl : forall x, eqb x x = true) prev x l :
  x ∈ l -> exists y, (y = prev \/ y ∈ dedup_from eqb prev l) /\ eqb x y = true.
Proof.
  revert prev. induction l as [|y l IH]; intros prev; simpl; [by intros ?%not_elem_of_nil|].
  intros [->|Hx]%elem_of_cons; destruct (eqb y prev) eqn:E.
  - exists prev. by split; [left|].
  - exists y. split; [right; by left|done].
  - destruct (IH prev Hx) as (z & Hz & Hxz). eauto.
  - destruct (IH y Hx) as (z & Hz & Hxz). exists z. split; [|done]. right.
    destruct Hz as [->|Hz]; by constructor.
Qed.

Lemma dedup_by_repr (Hrefl : forall x, eqb x x = true) x l :
  x ∈ l -> exists y, y ∈ dedup_by eqb l /\ eqb x y = true.
Proof.
  destruct l as [|y l]; simpl; [by intros ?%not_elem_of_nil|].
  intros [->|Hx]%elem_of_cons; [exists y; split; [by left|done]|].
  destruct (dedup_from_repr Hrefl y x l Hx) as (z & Hz & Hxz). exists z.
  split; [|done]. destruct Hz as [->|Hz]; by constructor.
Qed.

(** On a sorted list, where equal keys are adjacent, no two kept elements
    pass the test. *)
Lemma dedup_from_sorted (R : A -> A -> Prop) prev l :
  (forall x y, eqb x y = true <-> eqb y x = true) ->
  (forall x y z, R x y -> R y z -> eqb z x = true -> eqb y x = true) ->
  StronglySorted R l -> Forall (R prev) l ->
  StronglySorted (fun x y => R x y /\ eqb y x = false) (prev :: dedup_from eqb prev l).
Proof.
  intros Hsym Hmid Hs. revert prev.
  induction Hs as [|y l Hs IH Hall]; intros prev Hp; simpl; [repeat constructor|].
  inversion_clear Hp as [|? ? Hpy Hpl].
  destruct (eqb y prev) eqn:E; [by apply IH|].
  pose proof (IH y Hall) as Hy. constructor; [done|].
  constructor; [done|].
  apply Forall_forall. intros z Hz.
  apply elem_of_dedup_from in Hz. rewrite Forall_forall in Hpl, Hall.
  split; [by apply Hpl|].
  destruct (eqb z prev) eqn:Ez; [|done].
  rewrite (Hmid prev y z) in E; [done|done|by apply Hall|done].
Qed.

Lemma dedup_by_sorted (R : A -> A -> Prop) l :
  (forall x y, eqb x y = true <-> eqb y x = true) ->
  (forall x y z, R x y -> R y z -> eqb z x = true -> eqb y x = true) ->
  StronglySorted R l ->
  StronglySorted (fun x y => R x y /\ eqb y x = false) (dedup_by eqb l).
Proof.
  intros Hsym Hmid Hs. destruct l as [|x l]; simpl; [constructor|].
  inversion_clear Hs. by apply dedup_from_sorted.
Qed.

End Dedup.

(** ** Lemmas: ordered map iteration *)

Lemma btree_iter_elem {V} (m : gmap string V) k v : (k, v) ∈ btree_iter m <-> m !! k = Some v.
Proof. unfold btree_iter. by rewrite elem_of_sort_by, elem_of_map_to_list. Qed.

Lemma btree_values_elem {V} (m : gmap string V) v : v ∈ btree_values m <-> exists k, m !! k = Some v.
Proof.
  unfold btree_values. rewrite list_elem_of_fmap. split.
  - intros ([k w] & -> & H). exists k. by apply btree_iter_elem.
  - intros [k H]. exists (k, v). split; [done|]. by apply btree_iter_elem.
Qed.

Lemma btree_iter_empty {V} : btree_iter (∅ : gmap string V) = [].
Proof. done. Qed.

Lemma bset_iter_elem (s : gset string) x : x ∈ bset_iter s <-> x ∈ s.
Proof. unfold bset_iter. by rewrite elem_of_sort_by, elem_of_elements. Qed.

Lemma bset_iter_sorted (s : gset string) :
  StronglySorted (fun a b => str_leb a b = true) (bset_iter s).
Proof. apply sort_by_sorted; eauto using str_leb_total, str_leb_trans. Qed.

(** ** Lemmas: boolean quantifiers over lists *)

Lemma existsb_elem {A} (f : A -> bool) l : existsb f l = true <-> exists x, x ∈ l /\ f x = true.
Proof. rewrite existsb_exists. by setoid_rewrite <- list_elem_of_In. Qed.

Lemma existsb_false {A} (f : A -> bool) l : existsb f l = false <-> forall x, x ∈ l -> f x = false.
Proof.
  rewrite <- not_true_iff_false, existsb_elem. split.
  - intros H x Hx. apply not_true_iff_false. intros Hf. eauto.
  - intros H (x & Hx & Hf). rewrite H in Hf by done. done.
Qed.

Lemma forallb_elem {A} (f : A -> bool) l : forallb f l = true <-> forall x, x ∈ l -> f x = true.
Proof. rewrite forallb_forall. by setoid_rewrite <- list_elem_of_In. Qed.

Lemma find_elem {A} (f : A -> bool) l x : List.find f l = Some x -> x ∈ l /\ f x = true.
Proof. intros [H1 H2]%List.find_some. by rewrite list_elem_of_In. Qed.

Lemma find_none_elem {A} (f : A -> bool) l x : List.find f l = None -> x ∈ l -> f x = false.
Proof. intros H Hx. eapply List.find_none; [done|]. by rewrite <- list_elem_of_In. Qed.

Lemma elem_of_filter_b {A} (f : A -> bool) l x : x ∈ List.filter f l <-> f x = true /\ x ∈ l.
Proof. rewrite !list_elem_of_In, List.filter_In. naive_solver. Qed.

(** [mapM] in the option monad succeeds when every element does. *)
Lemma mapM_total {A B} (f : A -> option B) l :
  (forall x, x ∈ l -> is_Some (f x)) -> is_Some (mapM f l).
Proof.
  intros H. apply mapM_is_Some. rewrite Forall_forall.
  intros x Hx. by apply H.
Qed.

Lemma elem_of_omap_id {A} (l : list (option A)) x : x ∈ omap id l <-> Some x ∈ l.
Proof. rewrite list_elem_of_omap. naive_solver. Qed.

Lemma mapM_elem {A B} (f : A -> option B) l k y :
  mapM f l = Some k -> y ∈ k <-> exists x, x ∈ l /\ f x = Some y.
Proof.
  rewrite mapM_Some. induction 1 as [|x y' l k Hxy _ IH].
  - split; [by intros ?%not_elem_of_nil|]. intros (x & Hx & _). by apply not_elem_of_nil in Hx.
  - rewrite elem_of_cons, IH. setoid_rewrite elem_of_cons. naive_solver.
Qed.

Lemma elem_of_concat {A} (x : A) (ls : list (list A)) : x ∈ concat ls <-> exists l, l ∈ ls /\ x ∈ l.
Proof. setoid_rewrite list_elem_of_In. rewrite List.in_concat. naive_solver. Qed.

Lemma filterM_spec {A} (f : A -> option bool) l :
  (forall x, x ∈ l -> is_Some (f x)) ->
  exists kept, filterM f l = Some kept /\ forall x, x ∈ kept <-> x ∈ l /\ f x = Some true.
Proof.
  induction l as [|y l IH]; intros H; simpl.
  - exists []. split; [done|]. intros x. rewrite elem_of_nil. tauto.
  - destruct IH as (kept & -> & Hk); [intros; apply H; by right|].
    destruct (H y ltac:(by left)) as [[] Hy]; rewrite Hy; eexists; (split; [done|]); intros x;
      rewrite ?elem_of_cons, Hk; naive_solver.
Qed.

#[export] Hint Resolve str_leb_refl : prot.

(** Elements of a list without repeated images are told apart by their image. *)
Lemma NoDup_fmap_eq {A B} (f : A -> B) (l : list A) a b :
  NoDup (f <$> l) -> a ∈ l -> b ∈ l -> f a = f b -> a = b.
Proof.
  intros Hn (i & Hi)%list_elem_of_lookup (j & Hj)%list_elem_of_lookup Heq.
  assert (i = j) as ->.
  { eapply NoDup_lookup; [exact Hn| |]; rewrite list_lookup_fmap; [by rewrite Hi|]. rewrite Hj. simpl. by rewrite Heq. }
  congruence.
Qed.

Lemma NoDup_fmap_filter {A B} (f : A -> B) (p : A -> bool) l :
  NoDup (f <$> l) -> NoDup (f <$> List.filter p l).
Proof.
  induction l as [|x l IH]; simpl; [done|]. intros [Hx Hl]%NoDup_cons. destruct (p x); simpl; [|auto].
  apply NoDup_cons. split; [|auto]. intros (y & Hy & Hin)%list_elem_of_fmap. apply Hx.
  rewrite Hy. apply elem_of_filter_b in Hin as [_ Hin]. by apply list_elem_of_fmap_2.
Qed.

(** ** Sorting by a string key and dropping repeated keys *)

Definition sort_dedup {A} (key : A -> string) (l : list A) : list A :=
  dedup_by (fun a b => bool_decide (key a = key b)) (sort_by (fun a b => str_leb (key a) (key b)) l).

(** Ascending keys, each once. *)
Definition keys_ascend {A} (key : A -> string) : list A -> Prop :=
  StronglySorted (fun a b => str_leb (key a) (key b) = true /\ key a <> key b).

Section SortDedup.
Context {A : Type} (key : A -> string).

Lemma sort_dedup_in l x : x ∈ sort_dedup key l -> x ∈ l.
Proof. intros Hx%elem_of_dedup_by. by apply elem_of_sort_by in Hx. Qed.

Lemma sort_dedup_key l k : k ∈ key <$> sort_dedup key l <-> k ∈ key <$> l.
Proof.
  rewrite !list_elem_of_fmap. split.
  - intros (x & -> & Hx%sort_dedup_in). eauto.
  - intros (x & -> & Hx). destruct (dedup_by_repr (fun a b => bool_decide (key a = key b))
      (fun x => bool_decide_eq_true_2 _ eq_refl) x (sort_by (fun a b => str_leb (key a) (key b)) l))
      as (y & Hy & Hk); [by apply elem_of_sort_by|]. apply bool_decide_eq_true in Hk. eauto.
Qed.

Lemma sort_dedup_ascend l : keys_ascend key (sort_dedup key l).
Proof.
  unfold keys_ascend, sort_dedup. set (eqb := fun a b : A => bool_decide (key a = key b)).
  eapply ssorted_impl; [apply (dedup_by_sorted eqb (fun a b => str_leb (key a) (key b) = true))|].
  - intros x y. unfold eqb. rewrite !bool_decide_eq_true. naive_solver.
  - intros x y z Hxy Hyz Hzx. unfold eqb in *. rewrite bool_decide_eq_true in *. rewrite Hzx in *.
    by apply str_leb_antisym.
  - apply sort_by_sorted; eauto using str_leb_total, str_leb_trans.
  - intros x y _ _ [H1 H2]. split; [done|]. unfold eqb in H2. apply bool_decide_eq_false in H2. congruence.
Qed.

Lemma keys_ascend_nodup l : keys_ascend key l -> NoDup (key <$> l).
Proof.
  induction 1 as [|x l Hs IH Hall]; simpl; [constructor|]. apply NoDup_cons. split; [|done].
  intros (y & Hy & Hin)%list_elem_of_fmap. rewrite Forall_forall in Hall. destruct (Hall y Hin) as [_ Hne]. done.
Qed.

End SortDedup.

(** Deduplicated keys are a set in ascending order. *)
Lemma sort_dedup_id_elem l (x : string) : x ∈ sort_dedup id l <-> x ∈ l.
Proof. pose proof (sort_dedup_key id l x) as H. by rewrite !list_fmap_id in H. Qed.

(** ** Loops that may panic *)

Lemma foldM_none {S A} (f : S -> A -> option S) l : foldl (fun acc a => acc ≫= fun s => f s a) None l = None.
Proof. induction l; simpl; done. Qed.

Lemma foldM_cons {S A} (f : S -> A -> option S) s a l : foldM f s (a :: l) = f s a ≫= fun s => foldM f s l.
Proof. unfold foldM. simpl. destruct (f s a); simpl; [done|apply foldM_none]. Qed.

Lemma foldM_snoc {S A} (f : S -> A -> option S) s l a : foldM f s (l ++ [a]) = foldM f s l ≫= fun s => f s a.
Proof. unfold foldM. by rewrite foldl_app. Qed.

(** A relation the body keeps and composes is kept by the loop. *)
Lemma foldM_rel {S A} (R : S -> S -> Prop) (f : S -> A -> option S) l :
  (forall s, R s s) -> (forall a b c, R a b -> R b c -> R a c) ->
  (forall s a s', a ∈ l -> f s a = Some s' -> R s s') ->
  forall s s', foldM f s l = Some s' -> R s s'.
Proof.
  intros Hr Ht. induction l as [|a l IH]; intros Hf s s'; [by intros [= ->]|]. rewrite foldM_cons.
  intros (s1 & H1 & H2)%bind_Some. eapply Ht; [by eapply Hf; [left|]|]. eapply IH; [|done]. intros. eapply Hf; [by right|done].
Qed.

Lemma omap_snoc {A B} (f : A -> option B) l x : omap f (l ++ [x]) = omap f l ++ option_list (f x).
Proof. by rewrite omap_app. Qed.

(** Timed events by a clock that does not run backwards. *)
Definition in_order {A} (hist : list (Z * A)) : Prop := StronglySorted (fun a b => (a.1 <= b.1)%Z) hist.

Lemma in_order_snoc {A} (hist : list (Z * A)) b : in_order (hist ++ [b]) -> in_order hist /\ forall c, c ∈ hist -> (c.1 <= b.1)%Z.
Proof.
  unfold in_order. induction hist as [|x hist IH]; simpl.
  - intros _. split; [constructor|]. intros c Hc. by apply not_elem_of_nil in Hc.
  - intros [Hs Hall]%StronglySorted_inv. destruct (IH Hs) as [Hs' Hle]. rewrite Forall_app, Forall_singleton in Hall. destruct Hall as [Hall Hb].
    split; [by constructor|]. by intros c [->|Hc]%elem_of_cons; [|apply Hle].
Qed.
