(* ===== verification/Text.v ===== *)
(** * The string operations of Rust's [str] that protector's code calls.

    A Rust [String] is its UTF-8 byte sequence, one [ascii] per byte. Splitting,
    prefix and suffix tests and comparison are bytewise, as they are in Rust
    for the ASCII separators and literals the sources use; [trim] strips the
    byte encodings of the characters with the Unicode White_Space property. *)

From S2P Require Import Prelude.

(** [str::split(c)]: always at least one piece. *)
Fixpoint split (c : Ascii.ascii) (s : string) : list string :=
  match s with
  | EmptyString => [EmptyString]
  | String a s' =>
      if Ascii.eqb a c then EmptyString :: split c s'
      else match split c s' with
           | [] => [String a EmptyString]
           | p :: ps => String a p :: ps
           end
  end.

Definition slash : Ascii.ascii := Ascii.ascii_of_nat 47.

(** [str::starts_with(&str)] / [str::strip_prefix(&str)]. *)
Fixpoint strip_prefix (p s : string) : option string :=
  match p, s with
  | EmptyString, _ => Some s
  | String a p', String b s' => if Ascii.eqb a b then strip_prefix p' s' else None
  | String _ _, EmptyString => None
  end.

Definition starts_with (p s : string) : bool :=
  match strip_prefix p s with Some _ => true | None => false end.

Fixpoint str_rev_app (s acc : string) : string :=
  match s with
  | EmptyString => acc
  | String a s' => str_rev_app s' (String a acc)
  end.

Definition str_rev (s : string) : string := str_rev_app s EmptyString.

(** [str::strip_suffix(&str)]. *)
Definition strip_suffix (p s : string) : option string :=
  str_rev <$> strip_prefix (str_rev p) (str_rev s).

(** [str::split_once(c)]: the parts around the first [c]. *)
Fixpoint split_once (c : Ascii.ascii) (s : string) : option (string * string) :=
  match s with
  | EmptyString => None
  | String a s' =>
      if Ascii.eqb a c then Some (EmptyString, s')
      else match split_once c s' with
           | Some (l, r) => Some (String a l, r)
           | None => None
           end
  end.

(** [path.rsplit('/').next().unwrap_or(path)]: the last segment. *)
Definition last_segment (c : Ascii.ascii) (s : string) : string :=
  default s (last (split c s)).

(** [[T]::join(sep)] on strings. *)
Fixpoint join (sep : string) (l : list string) : string :=
  match l with
  | [] => EmptyString
  | [s] => s
  | s :: l' => s +:+ sep +:+ join sep l'
  end.

Definition bytes (l : list nat) : string :=
  foldr (fun n s => String (Ascii.ascii_of_nat n) s) EmptyString l.

(** The UTF-8 encodings of the White_Space characters. *)
Definition white_space : list string :=
  map (fun n => bytes [n]) [9; 10; 11; 12; 13; 32] ++
  [bytes [194; 133]; bytes [194; 160]; bytes [225; 154; 128]] ++
  map (fun n => bytes [226; 128; n]) [128; 129; 130; 131; 132; 133; 134; 135; 136; 137; 138; 168; 169; 175] ++
  [bytes [226; 129; 159]; bytes [227; 128; 128]].

(** One leading character out of [cs], if there is one. *)
Fixpoint strip_one (cs : list string) (s : string) : option string :=
  match cs with
  | [] => None
  | c :: cs' => match strip_prefix c s with Some r => Some r | None => strip_one cs' s end
  end.

(** Each step strips at least a byte, so [String.length s] rounds are enough. *)
Fixpoint strip_all (fuel : nat) (cs : list string) (s : string) : string :=
  match fuel with
  | 0 => s
  | S f => match strip_one cs s with Some r => strip_all f cs r | None => s end
  end.

Definition trim_start (s : string) : string := strip_all (String.length s) white_space s.

Definition trim_end (s : string) : string :=
  str_rev (strip_all (String.length s) (map str_rev white_space) (str_rev s)).

Definition trim (s : string) : string := trim_end (trim_start s).

(** The bytes of [s] never include [c]: what makes a segment a segment. *)
Fixpoint no_char (c : Ascii.ascii) (s : string) : bool :=
  match s with
  | EmptyString => true
  | String a s' => negb (Ascii.eqb a c) && no_char c s'
  end.

(** [str::parse] of an unsigned integer below [bound]: an optional plus sign and
    at least one digit. *)
Fixpoint digits_value (bound : N) (s : string) (acc : N) : option N :=
  match s with
  | EmptyString => Some acc
  | String c s =>
      let d := (Ascii.N_of_ascii c - 48)%N in
      if (48 <=? Ascii.N_of_ascii c)%N && (d <? 10)%N
      then let acc := (acc * 10 + d)%N in if (acc <? bound)%N then digits_value bound s acc else None
      else None
  end.

Definition parse_uint (bound : N) (s : string) : option N :=
  match (match strip_prefix "+" s with Some r => r | None => s end) with
  | EmptyString => None
  | digits => digits_value bound digits 0
  end.

Definition parse_u64 : string -> option N := parse_uint (2 ^ 64).
Definition parse_u32 : string -> option N := parse_uint (2 ^ 32).

(** [s.chars().take(n)] and [s.chars().count()] on the bytes of a UTF-8 string: a
    continuation byte belongs to the character before it. *)
Definition continuation (c : Ascii.ascii) : bool := (N.land (Ascii.N_of_ascii c) 192 =? 128)%N.

Fixpoint take_chars (n : nat) (s : string) : string :=
  match s with
  | EmptyString => EmptyString
  | String c s' =>
      if continuation c then String c (take_chars n s')
      else match n with 0 => EmptyString | S n => String c (take_chars n s') end
  end.

Fixpoint chars (s : string) : nat :=
  match s with EmptyString => 0 | String c s => (if continuation c then 0 else 1) + chars s end.

(** [str::lines]. *)
Definition newline_char : Ascii.ascii := Ascii.ascii_of_nat 10.
Definition lines (s : string) : list string :=
  let parts := split newline_char s in
  let parts := match last parts with Some EmptyString => removelast parts | _ => parts end in
  map (fun l => match strip_suffix (bytes [13]) l with Some r => r | None => l end) parts.

(** ** Lemmas *)

#[local] Arguments String.append : simpl nomatch.

Lemma app_str_assoc a b c : (a +:+ b) +:+ c = a +:+ (b +:+ c).
Proof. induction a as [|x a IH]; simpl; congruence. Qed.

Lemma str_length_app a b : String.length (a +:+ b) = String.length a + String.length b.
Proof. induction a as [|c a IH]; simpl; [done|]. by rewrite IH. Qed.

Lemma app_str_nil_r a : a +:+ "" = a.
Proof. induction a as [|x a IH]; simpl; congruence. Qed.

Lemma split_no_char c s : no_char c s = true -> split c s = [s].
Proof.
  induction s as [|a s IH]; simpl; [done|]. intros H. bools.
  rewrite (IH ltac:(done)). by destruct (Ascii.eqb a c).
Qed.

Lemma split_app c s t : no_char c s = true -> split c (s +:+ String c t) = s :: split c t.
Proof.
  induction s as [|a s IH]; simpl.
  - intros _. by rewrite Ascii.eqb_refl.
  - intros H. bools. destruct (Ascii.eqb a c) eqn:E; [congruence|]. by rewrite IH.
Qed.

Lemma split_once_app c s t : no_char c s = true -> split_once c (s +:+ String c t) = Some (s, t).
Proof.
  induction s as [|a s IH]; simpl.
  - by rewrite Ascii.eqb_refl.
  - intros H. bools. destruct (Ascii.eqb a c); [congruence|]. by rewrite IH.
Qed.

Lemma split_nonempty c s : split c s <> [].
Proof. destruct s as [|a s]; simpl; [done|]. destruct (Ascii.eqb a c); [done|]. by destruct (split c s). Qed.

(** Joining the pieces with the separator restores the string. *)
Lemma join_split c s : join (String c "") (split c s) = s.
Proof.
  induction s as [|a s IH]; simpl; [done|].
  destruct (Ascii.eqb_spec a c) as [->|Hne].
  - destruct (split c s) as [|p ps] eqn:E; [by apply split_nonempty in E|].
    change (join (String c "") ("" :: p :: ps)) with (String c (join (String c "") (p :: ps))).
    by rewrite IH.
  - destruct (split c s) as [|p ps] eqn:E; [by apply split_nonempty in E|].
    destruct ps as [|q ps]; simpl in *; by rewrite <- IH.
Qed.

Lemma strip_prefix_app p s r : strip_prefix p s = Some r <-> s = p +:+ r.
Proof.
  revert s. induction p as [|a p IH]; intros s; simpl; [naive_solver|].
  destruct s as [|b s]; [done|].
  destruct (Ascii.eqb_spec a b) as [->|Hne]; [rewrite IH; naive_solver|naive_solver].
Qed.

Lemma starts_with_app p s : starts_with p s = true <-> exists r, s = p +:+ r.
Proof.
  unfold starts_with. destruct (strip_prefix p s) as [r|] eqn:E.
  - apply strip_prefix_app in E. naive_solver.
  - split; [done|]. intros [r Hr]. apply strip_prefix_app in Hr. congruence.
Qed.

Lemma starts_with_refl p r : starts_with p (p +:+ r) = true.
Proof. apply starts_with_app. eauto. Qed.

Lemma no_char_app c a b : no_char c (a +:+ b) = no_char c a && no_char c b.
Proof. induction a; simpl; [done|]. by rewrite IHa, andb_assoc. Qed.

(** Appending a segment that holds no separator is injective in both parts. *)
Lemma app_sep_inj c a b a' b' :
  no_char c a = true -> no_char c a' = true ->
  a +:+ String c b = a' +:+ String c b' -> a = a' /\ b = b'.
Proof.
  intros Ha Ha' H. apply (f_equal (split_once c)) in H.
  rewrite !split_once_app in H by done. naive_solver.
Qed.

#[export] Hint Resolve split_nonempty : prot.

Lemma take_chars_spec n s : exists rest, s = take_chars n s +:+ rest /\ chars (take_chars n s) = Nat.min n (chars s) /\
  (chars s <= n -> rest = "").
Proof.
  revert n. induction s as [|c s IH]; intros n.
  - exists "". simpl. by rewrite Nat.min_0_r.
  - simpl. destruct (continuation c) eqn:Hc.
    + destruct (IH n) as (rest & H1 & H2 & H3). exists rest. simpl. rewrite Hc, H2. split; [by rewrite <- H1|done].
    + destruct n as [|n]; [exists (String c s); simpl; split; [done|split; [done|lia]]|].
      destruct (IH n) as (rest & H1 & H2 & H3). exists rest. simpl. rewrite Hc, H2. split; [by rewrite <- H1|]. split; [done|]. intros. apply H3. lia.
Qed.
