(* ===== verification/Json.v ===== *)
(** * JSON values

    The data [serde_json::Value] holds and the accessors the code reads it
    with, shared by the manifests (Render), the model's replies (Incident), the
    attestation predicates (Posture) and the admission requests (Admission). *)

From S2P Require Import Prelude Text.

Inductive Json :=
  | JNull
  | JBool (b : bool)
  | JNum (n : Z)
  | JStr (s : string)
  | JArr (l : list Json)
  | JObj (fields : list (string * Json)).

(** [value.get(key)], [value[key]], [value.as_str()], [value.as_array()]. *)
Definition json_get (j : Json) (key : string) : option Json :=
  match j with
  | JObj fields => snd <$> List.find (fun kv => bool_decide (kv.1 = key)) fields
  | _ => None
  end.

Definition json_index (j : Json) (key : string) : Json := default JNull (json_get j key).

Definition as_str (j : Json) : option string := match j with JStr s => Some s | _ => None end.

Definition as_array (j : Json) : option (list Json) := match j with JArr l => Some l | _ => None end.

(** [value.pointer("/a/b/0")]: a member of an object or an element of an array
    at each step. The pointers of the program are literals, given here as their
    tokens. *)
Inductive token := Key (k : string) | Elem (i : nat).

Fixpoint pointer (path : list token) (j : Json) : option Json :=
  match path with
  | [] => Some j
  | Key k :: path => json_get j k ≫= pointer path
  | Elem i :: path => (as_array j ≫= fun l => l !! i) ≫= pointer path
  end.
