(* ===== verification/ImageRef.v ===== *)
(** * Image references and signer identities

    engine/src/policies/signature/mod.rs (the registry host, the repository
    key), signature/posture.rs (the continuity identity of a signer). *)

From S2P Require Import Prelude Text.

#[local] Arguments String.append : simpl nomatch.

Definition colon_char : Ascii.ascii := Ascii.ascii_of_nat 58.
Definition dot_char : Ascii.ascii := Ascii.ascii_of_nat 46.
Definition at_char : Ascii.ascii := Ascii.ascii_of_nat 64.

(** [str::contains(c)], [str::rsplit_once(c)], [str::to_ascii_lowercase] and
    [str::rfind(&str)] as the parts around the last occurrence. *)
Definition contains_char (c : Ascii.ascii) (s : string) : bool := negb (no_char c s).

Definition lower_char (a : Ascii.ascii) : Ascii.ascii :=
  let n := Ascii.nat_of_ascii a in
  if (65 <=? n) && (n <=? 90) then Ascii.ascii_of_nat (n + 32) else a.

Fixpoint to_ascii_lowercase (s : string) : string :=
  match s with EmptyString => EmptyString | String a s' => String (lower_char a) (to_ascii_lowercase s') end.

Definition eq_ignore_ascii_case (a b : string) : bool := bool_decide (to_ascii_lowercase a = to_ascii_lowercase b).

Definition to_upper_char (a : Ascii.ascii) : Ascii.ascii :=
  let n := Ascii.nat_of_ascii a in
  if (97 <=? n) && (n <=? 122) then Ascii.ascii_of_nat (n - 32) else a.

Fixpoint to_ascii_uppercase (s : string) : string :=
  match s with EmptyString => EmptyString | String a s' => String (to_upper_char a) (to_ascii_uppercase s') end.

(** [str::contains(&str)]. *)
Fixpoint str_contains (sub s : string) : bool :=
  starts_with sub s || match s with EmptyString => false | String _ s => str_contains sub s end.

Fixpoint rsplit_once (c : Ascii.ascii) (s : string) : option (string * string) :=
  match s with
  | EmptyString => None
  | String a s' =>
      match rsplit_once c s' with
      | Some (l, r) => Some (String a l, r)
      | None => if Ascii.eqb a c then Some (EmptyString, s') else None
      end
  end.

Fixpoint rsplit_str (p s : string) : option (string * string) :=
  match s with
  | EmptyString => (fun r => (EmptyString, r)) <$> strip_prefix p EmptyString
  | String a s' =>
      match rsplit_str p s' with
      | Some (l, r) => Some (String a l, r)
      | None => (fun r => (EmptyString, r)) <$> strip_prefix p s
      end
  end.

(** ** The registry host *)

Definition canonical_host (host : string) : string :=
  let host := to_ascii_lowercase host in
  let without_port :=
    match rsplit_once colon_char host with
    | Some (h, port) => if bool_decide (port = "443") || bool_decide (port = "80") then h else host
    | None => host
    end in
  default without_port (strip_suffix "." without_port).

Definition normalize_registry_host (image : string) : string :=
  match split_once slash image with
  | Some (host, rest) =>
      if contains_char dot_char host || contains_char colon_char host
      then canonical_host host +:+ "/" +:+ rest else image
  | None => image
  end.

(** ** The repository key *)

Definition repo_key (image : string) : string :=
  let normalized := normalize_registry_host image in
  let without_digest := match split_once at_char normalized with Some (before, _) => before | None => normalized end in
  match rsplit_once slash without_digest with
  | Some (path, seg) =>
      path +:+ "/" +:+ match rsplit_once colon_char seg with Some (name, _) => name | None => seg end
  | None => match rsplit_once colon_char without_digest with Some (name, _) => name | None => without_digest end
  end.

(** ** The continuity identity *)

Definition TAG_REF_MARKER : string := "@refs/tags/".

Definition canonical_identity (identity : string) : string :=
  match rsplit_str TAG_REF_MARKER identity with
  | Some (keep, _) => keep +:+ TAG_REF_MARKER +:+ "*"
  | None => identity
  end.

(** ** Splitting lemmas *)

Lemma rsplit_once_none c s : rsplit_once c s = None <-> no_char c s = true.
Proof.
  induction s as [|a s IH]; simpl; [done|]. destruct (rsplit_once c s) as [[l r]|] eqn:E.
  - split; [done|]. intros H. bools. by apply IH in H0.
  - rewrite andb_true_iff, negb_true_iff. destruct (Ascii.eqb a c); [|naive_solver]. split; [done|]. by intros [? _].
Qed.

Lemma rsplit_once_app c l r : no_char c r = true -> rsplit_once c (l +:+ String c r) = Some (l, r).
Proof.
  intros Hr. induction l as [|a l IH]; simpl.
  - apply rsplit_once_none in Hr. by rewrite Hr, Ascii.eqb_refl.
  - by rewrite IH.
Qed.

Lemma split_once_none c s : split_once c s = None <-> no_char c s = true.
Proof.
  induction s as [|a s IH]; simpl; [done|]. destruct (Ascii.eqb a c) eqn:E; simpl; [done|].
  destruct (split_once c s) as [[l r]|]; [|naive_solver]. split; [done|]. intros H. by apply IH in H.
Qed.

Lemma split_once_spec c s l r : split_once c s = Some (l, r) <-> s = l +:+ String c r /\ no_char c l = true.
Proof.
  split; [|intros [-> H]; by apply split_once_app].
  revert l r. induction s as [|a s IH]; simpl; [done|]. intros l r.
  destruct (Ascii.eqb_spec a c) as [->|Hne]; [by intros [= <- <-]|].
  destruct (split_once c s) as [[l' r']|] eqn:E; [|done]. intros [= <- <-].
  destruct (IH l' r' eq_refl) as [-> Hn]. simpl. split; [done|]. rewrite Hn. by apply Ascii.eqb_neq in Hne as ->.
Qed.

Lemma rsplit_str_some p s l r : rsplit_str p s = Some (l, r) -> s = l +:+ p +:+ r.
Proof.
  revert l r. induction s as [|a s IH]; intros l r H; cbn [rsplit_str] in H.
  - apply fmap_Some in H as (r' & Hp & [= -> ->]). by apply strip_prefix_app in Hp.
  - destruct (rsplit_str p s) as [[l' r']|].
    + injection H as <- <-. simpl. f_equal. by apply IH.
    + apply fmap_Some in H as (r' & Hp & [= -> ->]). by apply strip_prefix_app in Hp.
Qed.

Lemma rsplit_str_app p l s l' r : rsplit_str p s = Some (l', r) -> rsplit_str p (l +:+ s) = Some (l +:+ l', r).
Proof. intros H. induction l as [|a l IH]; [done|]. simpl. by rewrite IH. Qed.

Lemma str_rev_app_spec s acc : str_rev_app s acc = str_rev s +:+ acc.
Proof.
  unfold str_rev. revert acc. induction s as [|a s IH]; intros acc; simpl; [done|].
  rewrite (IH (String a acc)), (IH (String a "")), app_str_assoc. done.
Qed.

Lemma str_rev_cons a s : str_rev (String a s) = str_rev s +:+ String a "".
Proof. unfold str_rev at 1. simpl. by rewrite str_rev_app_spec. Qed.

Lemma str_rev_append a b : str_rev (a +:+ b) = str_rev b +:+ str_rev a.
Proof.
  induction a as [|x a IH]; simpl; [by rewrite app_str_nil_r|]. by rewrite !str_rev_cons, IH, app_str_assoc.
Qed.

Lemma str_rev_involutive s : str_rev (str_rev s) = s.
Proof. induction s as [|a s IH]; [done|]. by rewrite str_rev_cons, str_rev_append, IH. Qed.

Lemma strip_suffix_app p s r : strip_suffix p s = Some r <-> s = r +:+ p.
Proof.
  unfold strip_suffix. rewrite fmap_Some. split.
  - intros (x & Hx & ->). apply strip_prefix_app in Hx.
    by rewrite <- (str_rev_involutive s), Hx, str_rev_append, str_rev_involutive.
  - intros ->. exists (str_rev r). rewrite strip_prefix_app, str_rev_append, str_rev_involutive. done.
Qed.

(** Lowering keeps the separators where they are. *)
Lemma lower_char_separator a c :
  c ∈ [slash; colon_char; dot_char; at_char] -> Ascii.eqb (lower_char a) c = Ascii.eqb a c.
Proof.
  intros Hc. repeat (apply elem_of_cons in Hc as [->|Hc]); [..|by apply not_elem_of_nil in Hc];
    destruct a as [[] [] [] [] [] [] [] []]; reflexivity.
Qed.

Lemma no_char_lower c s :
  c ∈ [slash; colon_char; dot_char; at_char] -> no_char c (to_ascii_lowercase s) = no_char c s.
Proof. intros Hc. induction s as [|a s IH]; simpl; [done|]. by rewrite IH, lower_char_separator. Qed.

Lemma lower_append a b : to_ascii_lowercase (a +:+ b) = to_ascii_lowercase a +:+ to_ascii_lowercase b.
Proof. induction a as [|x a IH]; simpl; congruence. Qed.

(** ** Host variants *)

(** A registry host as it is meant: lower case, one domain, no port, no root
    dot. *)
Record plain_host (h : string) : Prop := {
  ph_lower : to_ascii_lowercase h = h;
  ph_domain : contains_char dot_char h = true;
  ph_port : no_char colon_char h = true;
  ph_slash : no_char slash h = true;
  ph_root : strip_suffix "." h = None
}.

(** The spellings a container runtime resolves to the same registry. *)
Definition host_variants (h' : string) : list string :=
  [h'; h' +:+ "."; h' +:+ ":443"; h' +:+ ":80"; h' +:+ ".:443"; h' +:+ ".:80"].

Lemma canonical_host_variant h h' v :
  plain_host h -> to_ascii_lowercase h' = h -> v ∈ host_variants h' -> canonical_host v = h.
Proof.
  intros [Hl _ Hc _ Hr] <- Hv. set (h := to_ascii_lowercase h') in *.
  assert (no_char colon_char (h +:+ ".") = true) as Hd by (by rewrite no_char_app, Hc).
  assert (strip_suffix "." (h +:+ ".") = Some h) as Hs by (by apply strip_suffix_app).
  unfold host_variants in Hv.
  repeat (apply elem_of_cons in Hv as [->|Hv]); [..|by apply not_elem_of_nil in Hv];
    unfold canonical_host; rewrite ?lower_append; fold h.
  - rewrite (proj2 (rsplit_once_none _ _) Hc). by rewrite Hr.
  - change (to_ascii_lowercase ".") with ".". rewrite (proj2 (rsplit_once_none _ _) Hd). by rewrite Hs.
  - change (to_ascii_lowercase ":443") with (String colon_char "443"). rewrite rsplit_once_app by done. simpl. by rewrite Hr.
  - change (to_ascii_lowercase ":80") with (String colon_char "80"). rewrite rsplit_once_app by done. simpl. by rewrite Hr.
  - change (to_ascii_lowercase ".:443") with ("." +:+ String colon_char "443").
    rewrite <- app_str_assoc, rsplit_once_app by done. simpl. by rewrite Hs.
  - change (to_ascii_lowercase ".:80") with ("." +:+ String colon_char "80").
    rewrite <- app_str_assoc, rsplit_once_app by done. simpl. by rewrite Hs.
Qed.

Lemma variant_chars h h' v :
  plain_host h -> to_ascii_lowercase h' = h -> v ∈ host_variants h' ->
  no_char slash v = true /\ contains_char dot_char v = true.
Proof.
  intros [_ Hd _ Hs _] <- Hv. rewrite no_char_lower in Hs by set_solver.
  unfold contains_char in *. rewrite no_char_lower in Hd by set_solver. apply negb_true_iff in Hd.
  unfold host_variants in Hv.
  repeat (apply elem_of_cons in Hv as [->|Hv]); [..|by apply not_elem_of_nil in Hv];
    rewrite ?no_char_app, ?Hs, ?Hd; done.
Qed.

(** No spelling of a registry host slips past a prefix that names it. Upper
    case, the root dot and the default ports, in any combination, normalize to
    the one plain host, and what follows the host is kept as it is. *)
Theorem host_variants_fold h h' v rest :
  plain_host h -> to_ascii_lowercase h' = h -> v ∈ host_variants h' ->
  normalize_registry_host (v +:+ "/" +:+ rest) = h +:+ "/" +:+ rest.
Proof.
  intros Hh Hl Hv. destruct (variant_chars h h' v Hh Hl Hv) as [Hs Hd].
  unfold normalize_registry_host. change (v +:+ "/" +:+ rest) with (v +:+ String slash rest).
  rewrite split_once_app by done. rewrite Hd. simpl. by rewrite (canonical_host_variant h h' v).
Qed.

Lemma host_variants_fold_witness :
  plain_host "ghcr.io" /\ normalize_registry_host "GHCR.io.:443/org/app:1" = "ghcr.io/org/app:1".
Proof.
  assert (plain_host "ghcr.io") as H by (split; reflexivity). split; [exact H|].
  apply (host_variants_fold "ghcr.io" "GHCR.io" "GHCR.io.:443" "org/app:1" H eq_refl).
  unfold host_variants. do 4 right. left.
Defined.

(** ** The repository key *)

(** What may follow a repository in a reference. *)
Inductive version_suffix : string -> Prop :=
  | no_version : version_suffix ""
  | with_tag t : no_char slash t = true -> no_char colon_char t = true -> no_char at_char t = true ->
      version_suffix (":" +:+ t)
  | with_digest d : no_char slash d = true -> version_suffix ("@" +:+ d)
  | with_both t d : no_char slash t = true -> no_char colon_char t = true -> no_char at_char t = true ->
      no_char slash d = true -> version_suffix (":" +:+ t +:+ "@" +:+ d).

(** A repository: a registry host or a bare path, a path, and a name that holds
    neither a tag nor a digest. *)
Record plain_repo (path name : string) : Prop := {
  pr_path : no_char at_char path = true;
  pr_name_slash : no_char slash name = true;
  pr_name_colon : no_char colon_char name = true;
  pr_name_at : no_char at_char name = true
}.

(** The key of a normalized reference. *)
Definition key_of_normalized (path name suffix : string) : Prop :=
  forall pre, no_char at_char pre = true ->
    let normalized := pre +:+ "/" +:+ name +:+ suffix in
    let without_digest := match split_once at_char normalized with Some (before, _) => before | None => normalized end in
    match rsplit_once slash without_digest with
    | Some (p, seg) => p +:+ "/" +:+ match rsplit_once colon_char seg with Some (n, _) => n | None => seg end
    | None => match rsplit_once colon_char without_digest with Some (n, _) => n | None => without_digest end
    end = pre +:+ "/" +:+ name.

Lemma key_of_suffix path name suffix :
  plain_repo path name -> version_suffix suffix -> key_of_normalized path name suffix.
Proof.
  intros [_ Hs Hc Ha] Hv pre Hpre. cbv zeta.
  assert (forall t, no_char slash t = true -> no_char colon_char t = true ->
    match rsplit_once slash (pre +:+ "/" +:+ name +:+ ":" +:+ t) with
    | Some (p, seg) => p +:+ "/" +:+ match rsplit_once colon_char seg with Some (n, _) => n | None => seg end
    | None => match rsplit_once colon_char (pre +:+ "/" +:+ name +:+ ":" +:+ t) with Some (n, _) => n
              | None => pre +:+ "/" +:+ name +:+ ":" +:+ t end
    end = pre +:+ "/" +:+ name) as Htag.
  { intros t Ht Htc. change ("/" +:+ name +:+ ":" +:+ t) with (String slash (name +:+ ":" +:+ t)).
    rewrite rsplit_once_app by (rewrite !no_char_app, Hs, Ht; done).
    change (name +:+ ":" +:+ t) with (name +:+ String colon_char t). by rewrite rsplit_once_app. }
  assert (match rsplit_once slash (pre +:+ "/" +:+ name) with
    | Some (p, seg) => p +:+ "/" +:+ match rsplit_once colon_char seg with Some (n, _) => n | None => seg end
    | None => match rsplit_once colon_char (pre +:+ "/" +:+ name) with Some (n, _) => n | None => pre +:+ "/" +:+ name end
    end = pre +:+ "/" +:+ name) as Hplain.
  { change ("/" +:+ name) with (String slash name). rewrite rsplit_once_app by done.
    by rewrite (proj2 (rsplit_once_none _ _) Hc). }
  assert (no_char at_char (pre +:+ "/" +:+ name) = true) as Hat by (by rewrite !no_char_app, Hpre, Ha).
  assert (forall x, no_char at_char x = true -> split_once at_char x = None) as Hnone by (intros; by apply split_once_none).
  assert (forall x d, no_char at_char x = true -> split_once at_char (x +:+ "@" +:+ d) = Some (x, d)) as Hsome
    by (intros; by apply split_once_app).
  destruct Hv as [|t Ht Htc Hta|d Hd|t d Ht Htc Hta Hd].
  - rewrite app_str_nil_r, Hnone by done. exact Hplain.
  - rewrite Hnone by (rewrite !no_char_app, Hpre, Ha, Hta; done). by apply Htag.
  - replace (pre +:+ "/" +:+ name +:+ "@" +:+ d) with ((pre +:+ "/" +:+ name) +:+ "@" +:+ d)
      by (by rewrite !app_str_assoc). rewrite Hsome by done. exact Hplain.
  - replace (pre +:+ "/" +:+ name +:+ ":" +:+ t +:+ "@" +:+ d)
      with ((pre +:+ "/" +:+ name +:+ ":" +:+ t) +:+ "@" +:+ d) by (by rewrite !app_str_assoc).
    rewrite Hsome by (rewrite !no_char_app, Hpre, Ha, Hta; done). by apply Htag.
Qed.

Lemma canonical_host_no_at h : no_char at_char h = true -> no_char at_char (canonical_host h) = true.
Proof.
  intros Hh. unfold canonical_host. cbv zeta.
  assert (no_char at_char (to_ascii_lowercase h) = true) as Hl by (rewrite no_char_lower; [done|set_solver]).
  set (w := match rsplit_once _ _ with Some _ => _ | None => _ end).
  assert (no_char at_char w = true) as Hw.
  { unfold w. destruct (rsplit_once colon_char (to_ascii_lowercase h)) as [[l r]|] eqn:E; [|done].
    destruct (_ || _); [|done]. destruct (no_char colon_char (to_ascii_lowercase h)) eqn:Hc.
    - apply rsplit_once_none in Hc. congruence.
    - clear -E Hl. revert l r E. induction (to_ascii_lowercase h) as [|a s IH]; intros l r E; [done|].
      simpl in *. bools. destruct (rsplit_once colon_char s) as [[l' r']|].
      + injection E as <- <-. simpl. rewrite H. simpl. by eapply IH.
      + destruct (Ascii.eqb a colon_char); [by injection E as <- <-|done]. }
  destruct (strip_suffix "." w) as [s|] eqn:E; simpl; [|done]. apply strip_suffix_app in E. rewrite E, no_char_app in Hw.
  by bools.
Qed.

(** Normalizing touches the host only. *)
Lemma normalize_prefix path :
  no_char at_char path = true ->
  exists pre, no_char at_char pre = true /\
    forall x, normalize_registry_host (path +:+ "/" +:+ x) = pre +:+ "/" +:+ x.
Proof.
  intros Hp. destruct (split_once slash path) as [[h p]|] eqn:E.
  - apply split_once_spec in E as [-> Hs]. rewrite no_char_app in Hp. simpl in Hp. apply andb_true_iff in Hp as [Hh Hp].
    assert (forall x, split_once slash ((h +:+ String slash p) +:+ "/" +:+ x) = Some (h, p +:+ "/" +:+ x)) as Hx
      by (intros x; rewrite app_str_assoc; by apply (split_once_app slash h (p +:+ "/" +:+ x))).
    destruct (contains_char dot_char h || contains_char colon_char h) eqn:Ec.
    + exists (canonical_host h +:+ String slash p). split; [rewrite no_char_app; simpl; by rewrite canonical_host_no_at|].
      intros x. unfold normalize_registry_host. rewrite Hx, Ec. by rewrite app_str_assoc.
    + exists (h +:+ String slash p). split; [rewrite no_char_app; simpl; by rewrite Hh|].
      intros x. unfold normalize_registry_host. by rewrite Hx, Ec.
  - apply split_once_none in E.
    assert (forall x, split_once slash (path +:+ "/" +:+ x) = Some (path, x)) as Hx
      by (intros x; by apply (split_once_app slash path x)).
    destruct (contains_char dot_char path || contains_char colon_char path) eqn:Ec.
    + exists (canonical_host path). split; [by apply canonical_host_no_at|]. intros x. unfold normalize_registry_host.
      by rewrite Hx, Ec.
    + exists path. split; [done|]. intros x. unfold normalize_registry_host. by rewrite Hx, Ec.
Qed.

(** A repository has one key. Whatever tag, digest or both follow it, a
    reference's key is its repository's normalized name, with a registry port
    kept; and a bare name's key is the name. *)
Theorem repo_key_version_agnostic path name suffix :
  plain_repo path name -> version_suffix suffix ->
  repo_key (path +:+ "/" +:+ name +:+ suffix) = normalize_registry_host (path +:+ "/" +:+ name) /\
  repo_key (name +:+ suffix) = name.
Proof.
  intros Hr Hv. split.
  - destruct (normalize_prefix path (pr_path _ _ Hr)) as (pre & Hpre & Hn).
    unfold repo_key. rewrite !Hn. by apply (key_of_suffix path name suffix).
  - destruct Hr as [_ Hs Hc Ha].
    assert (no_char slash suffix = true) as Hss
      by (destruct Hv; rewrite ?no_char_app; simpl; rewrite ?no_char_app; simpl; by repeat match goal with H : no_char slash _ = true |- _ => rewrite H; clear H end).
    unfold repo_key, normalize_registry_host.
    rewrite (proj2 (split_once_none slash (name +:+ suffix))) by (by rewrite no_char_app, Hs, Hss).
    assert (forall x, no_char slash x = true -> rsplit_once slash x = None) as Hnone by (intros; by apply rsplit_once_none).
    destruct Hv as [|t Ht Htc Hta|d Hd|t d Ht Htc Hta Hd].
    + rewrite app_str_nil_r, (proj2 (split_once_none at_char name) Ha), Hnone by done.
      by rewrite (proj2 (rsplit_once_none _ _) Hc).
    + rewrite (proj2 (split_once_none at_char (name +:+ ":" +:+ t))) by (by rewrite !no_char_app, Ha, Hta).
      rewrite Hnone by (by rewrite !no_char_app, Hs, Ht).
      change (name +:+ ":" +:+ t) with (name +:+ String colon_char t). by rewrite rsplit_once_app.
    + change ("@" +:+ d) with (String at_char d). rewrite (split_once_app at_char name d) by done. rewrite Hnone by done. by rewrite (proj2 (rsplit_once_none _ _) Hc).
    + assert (split_once at_char ((name +:+ ":" +:+ t) +:+ String at_char d) = Some (name +:+ ":" +:+ t, d)) as Hsp
        by (apply split_once_app; by rewrite !no_char_app, Ha, Hta).
      replace (name +:+ ":" +:+ t +:+ "@" +:+ d) with ((name +:+ ":" +:+ t) +:+ String at_char d)
        by (by rewrite !app_str_assoc).
      rewrite Hsp. rewrite Hnone by (by rewrite !no_char_app, Hs, Ht).
      change (name +:+ ":" +:+ t) with (name +:+ String colon_char t). by rewrite rsplit_once_app.
Qed.

Lemma repo_key_version_agnostic_witness :
  repo_key "GHCR.io:443/org/app:v1@sha256:ab" = "ghcr.io/org/app" /\ repo_key "app:v1@sha256:ab" = "app".
Proof.
  destruct (repo_key_version_agnostic "GHCR.io:443/org" "app" (":" +:+ "v1" +:+ "@" +:+ "sha256:ab")) as [H1 H2].
  - split; reflexivity.
  - apply with_both; reflexivity.
  - split; [exact H1|exact H2].
Defined.

(** ** The continuity identity *)

Lemma marker_split l : rsplit_str TAG_REF_MARKER (l +:+ TAG_REF_MARKER +:+ "*") = Some (l, "*").
Proof.
  rewrite (rsplit_str_app TAG_REF_MARKER l (TAG_REF_MARKER +:+ "*") "" "*") by reflexivity. by rewrite app_str_nil_r.
Qed.

Lemma canonical_marked identity keep v :
  rsplit_str TAG_REF_MARKER identity = Some (keep, v) ->
  canonical_identity identity = keep +:+ TAG_REF_MARKER +:+ "*".
Proof. unfold canonical_identity. by intros ->. Qed.

Lemma canonical_idempotent a : canonical_identity (canonical_identity a) = canonical_identity a.
Proof.
  unfold canonical_identity at 2 3. destruct (rsplit_str TAG_REF_MARKER a) as [[k v]|] eqn:Ea.
  - by rewrite (canonical_marked _ k "*") by (apply marker_split).
  - unfold canonical_identity. by rewrite Ea.
Qed.

(** Two signers have the same continuity identity exactly when they are the
    same, or differ only in the value of their last release tag: the
    repository, the workflow and the kind of ref are never folded. Taking it
    twice changes nothing. *)
Theorem canonical_identity_exact a b :
  (canonical_identity a = canonical_identity b <->
     a = b \/ exists keep v w, rsplit_str TAG_REF_MARKER a = Some (keep, v) /\
       rsplit_str TAG_REF_MARKER b = Some (keep, w) /\
       a = keep +:+ TAG_REF_MARKER +:+ v /\ b = keep +:+ TAG_REF_MARKER +:+ w) /\
  canonical_identity (canonical_identity a) = canonical_identity a /\
  (rsplit_str TAG_REF_MARKER a = None -> canonical_identity a = a).
Proof.
  assert (forall k l, k +:+ TAG_REF_MARKER +:+ "*" = l +:+ TAG_REF_MARKER +:+ "*" -> k = l) as Hinj.
  { intros k l H. apply (f_equal (rsplit_str TAG_REF_MARKER)) in H. rewrite !marker_split in H.
    by injection H. }
  split; [|split].
  - destruct (rsplit_str TAG_REF_MARKER a) as [[k v]|] eqn:Ea, (rsplit_str TAG_REF_MARKER b) as [[l w]|] eqn:Eb;
      unfold canonical_identity; rewrite Ea, Eb.
    + pose proof (rsplit_str_some _ _ _ _ Ea) as Ha. pose proof (rsplit_str_some _ _ _ _ Eb) as Hb. split.
      * intros H%Hinj. subst l. right. exists k, v, w. done.
      * intros [H|(k' & v' & w' & H1 & H2 & _)]; [|congruence]. subst b. congruence.
    + split; [|naive_solver]. intros H. exfalso. rewrite <- H, marker_split in Eb. done.
    + split; [|naive_solver]. intros H. exfalso. rewrite H, marker_split in Ea. done.
    + naive_solver.
  - apply canonical_idempotent.
  - intros Ha. unfold canonical_identity. by rewrite Ha.
Qed.
