(* ===== verification/Posture.v ===== *)
(** * Signing and provenance postures, and their bounded observation

    engine/src/policies/signature/posture.rs (postures, the TTL cache and the
    capped sweep), cosign.rs (reading a posture off fetched layers),
    provenance.rs (the same two for build provenance). What a registry answers
    and what the clock reads are arguments. *)

From S2P Require Import Prelude Text Json ImageRef.

(** ** Signing postures *)

(** Weakest first: the derived order of the source. *)
Inductive PostureRank := Unsigned | Unverifiable | KeyBased | Keyless.

#[global] Instance PostureRank_eq_dec : EqDecision PostureRank.
Proof. solve_decision. Defined.

Definition rank_index (r : PostureRank) : nat :=
  match r with Unsigned => 0 | Unverifiable => 1 | KeyBased => 2 | Keyless => 3 end.

Definition rank_ltb (a b : PostureRank) : bool := rank_index a <? rank_index b.

Definition rank_default : PostureRank := Keyless.

Record Signer := mkSigner { sg_identity : string; sg_issuer : option string }.

#[global] Instance Signer_eq_dec : EqDecision Signer.
Proof. solve_decision. Defined.

Definition signer_canonical_identity (s : Signer) : string := canonical_identity (sg_identity s).

Inductive SigningPosture :=
  | Signed (s : Signer)
  | SignedKeyBased
  | UnverifiableHere
  | InvalidSignature
  | NotSigned
  | Checking.

#[global] Instance SigningPosture_eq_dec : EqDecision SigningPosture.
Proof. solve_decision. Defined.

Definition posture_status (p : SigningPosture) : string :=
  match p with
  | Signed _ => "signed"
  | SignedKeyBased => "signed-key-based"
  | UnverifiableHere => "unverifiable"
  | InvalidSignature => "invalid-signature"
  | NotSigned => "not-signed"
  | Checking => "checking"
  end.

Definition posture_signer (p : SigningPosture) : option Signer :=
  match p with Signed s => Some s | _ => None end.

Definition posture_rank (p : SigningPosture) : option PostureRank :=
  match p with
  | Signed _ => Some Keyless
  | SignedKeyBased => Some KeyBased
  | UnverifiableHere => Some Unverifiable
  | NotSigned => Some Unsigned
  | InvalidSignature | Checking => None
  end.

Definition posture_is_resting (p : SigningPosture) : bool :=
  match p with Checking => false | _ => true end.

(** ** Reading a posture off fetched layers (cosign.rs) *)

Record LayerFacts := mkLayer {
  lf_signer : option Signer;
  lf_has_verified_bundle : bool;
  lf_has_signature : bool
}.

(** [Iterator::find_map]. *)
Fixpoint find_map {A B} (f : A -> option B) (l : list A) : option B :=
  match l with [] => None | x :: l' => match f x with Some y => Some y | None => find_map f l' end end.

Definition classify_facts (facts : list LayerFacts) : SigningPosture :=
  match find_map lf_signer facts with
  | Some signer => Signed signer
  | None =>
      if existsb lf_has_verified_bundle facts then SignedKeyBased
      else if existsb lf_has_signature facts then UnverifiableHere
      else match facts with [] => NotSigned | _ => InvalidSignature end
  end.

(** ** Build provenance (provenance.rs) *)

Definition SLSA_PROVENANCE_V02 : string := "https://slsa.dev/provenance/v0.2".
Definition SLSA_PROVENANCE_V1 : string := "https://slsa.dev/provenance/v1".

Definition is_slsa_predicate_type (predicate_type : string) : bool :=
  bool_decide (predicate_type = SLSA_PROVENANCE_V02) || bool_decide (predicate_type = SLSA_PROVENANCE_V1).

Record Provenance := mkProvenance { pv_source_repo : string; pv_builder : string }.

#[global] Instance Provenance_eq_dec : EqDecision Provenance.
Proof. solve_decision. Defined.

Inductive ProvenancePosture :=
  | PVerified (p : Provenance)
  | PUnverifiable
  | PAbsent
  | PChecking.

Definition provenance_of (p : ProvenancePosture) : option Provenance :=
  match p with PVerified p => Some p | _ => None end.

Definition provenance_is_resting (p : ProvenancePosture) : bool :=
  match p with PChecking => false | _ => true end.

Record ProvenanceFacts := mkFacts {
  pf_predicate_type : string;
  pf_predicate : option Json;
  pf_keyless_verified : bool
}.

(** [str::trim_end_matches(c)]. *)
Fixpoint trim_end_matches (c : Ascii.ascii) (s : string) : string :=
  match s with
  | EmptyString => EmptyString
  | String a s' =>
      match trim_end_matches c s' with
      | EmptyString => if Ascii.eqb a c then EmptyString else String a EmptyString
      | t => String a t
      end
  end.

Definition clean_source_uri (uri : string) : string :=
  let without_git := default uri (strip_prefix "git+" uri) in
  let without_scheme :=
    match strip_prefix "https://" without_git with
    | Some s => s
    | None => default without_git (strip_prefix "http://" without_git)
    end in
  trim_end_matches slash
    (match split_once at_char without_scheme with Some (before, _) => before | None => without_scheme end).

Definition nonempty (s : string) : bool := negb (bool_decide (s = "")).

(** [Option::filter]. *)
Definition opt_filter {A} (f : A -> bool) (o : option A) : option A :=
  match o with Some x => if f x then Some x else None | None => None end.

Definition str_at (path : list token) (j : Json) : option string := pointer path j ≫= as_str.

Definition or_else {A} (a b : option A) : option A := match a with Some _ => a | None => b end.

Definition parse_slsa_predicate (predicate_type : string) (predicate : Json) : option Provenance :=
  let '(builder, source_uri) :=
    if bool_decide (predicate_type = SLSA_PROVENANCE_V1) then
      (str_at [Key "runDetails"; Key "builder"; Key "id"] predicate,
       or_else (str_at [Key "buildDefinition"; Key "externalParameters"; Key "workflow"; Key "repository"] predicate)
               (str_at [Key "buildDefinition"; Key "resolvedDependencies"; Elem 0; Key "uri"] predicate))
    else if bool_decide (predicate_type = SLSA_PROVENANCE_V02) then
      (str_at [Key "builder"; Key "id"] predicate,
       or_else (str_at [Key "invocation"; Key "configSource"; Key "uri"] predicate)
               (str_at [Key "materials"; Elem 0; Key "uri"] predicate))
    else (None, None) in
  builder ← opt_filter nonempty builder;
  Some (mkProvenance (default (clean_source_uri builder) (opt_filter nonempty (clean_source_uri <$> source_uri))) builder).

Definition classify_provenance (facts : list ProvenanceFacts) : ProvenancePosture :=
  match find_map (fun f => if negb (pf_keyless_verified f) then None
                           else pf_predicate f ≫= parse_slsa_predicate (pf_predicate_type f)) facts with
  | Some provenance => PVerified provenance
  | None => match facts with [] => PAbsent | _ => PUnverifiable end
  end.

(** ** Bounded observation: the TTL cache and the capped sweep

    [SigningObserver] and [ProvenanceScanner] are the same code over their two
    kinds of posture. The [n]-th outbound call is answered by [ask n]; the
    [n]-th reading of the clock is [clock n], in nanoseconds. *)

Section Observation.
Context {P : Type} (is_resting : P -> bool).
Variables (ask : nat -> string -> P) (clock : nat -> Z).
Variables (max_images : nat) (cache_ttl : Z).

Record ObsState := mkObs {
  os_cache : gmap string (P * Z);
  os_calls : list string;
  os_ticks : nat
}.

Definition obs_new : ObsState := mkObs ∅ [] 0.

(** [Instant::now] and [Instant::elapsed], which saturates at zero. *)
Definition tick (s : ObsState) : Z * ObsState := (clock (os_ticks s), mkObs (os_cache s) (os_calls s) (S (os_ticks s))).

Definition elapsed (since now : Z) : Z := Z.max 0 (now - since).

(** The uncached half: ask, and keep a resting answer. *)
Definition observe_fresh (image : string) (s : ObsState) : P * ObsState :=
  let posture := ask (length (os_calls s)) image in
  let s := mkObs (os_cache s) (os_calls s ++ [image]) (os_ticks s) in
  if is_resting posture then
    let '(now, s) := tick s in
    (posture, mkObs (<[image := (posture, now)]> (os_cache s)) (os_calls s) (os_ticks s))
  else (posture, s).

Definition observe (image : string) (s : ObsState) : P * ObsState :=
  match os_cache s !! image with
  | Some (posture, cached_at) =>
      let '(now, s) := tick s in
      if (elapsed cached_at now <? cache_ttl)%Z then (posture, s) else observe_fresh image s
  | None => observe_fresh image s
  end.

(** The distinct images of a sweep, in order of first appearance. *)
Definition distinct_images (images : list string) : list string :=
  foldl (fun acc i => if existsb (fun d => bool_decide (d = i)) acc then acc else acc ++ [i]) [] images.

Fixpoint sweep_loop (images : list string) (m : gmap string P) (s : ObsState) : gmap string P * ObsState :=
  match images with
  | [] => (m, s)
  | image :: images =>
      let '(posture, s) := observe image s in
      sweep_loop images (<[image := posture]> m) s
  end.

Definition sweep (images : list string) (s : ObsState) : gmap string P * ObsState :=
  sweep_loop (take max_images (distinct_images images)) ∅ s.
End Observation.

Arguments ObsState : clear implicits.
Arguments os_cache {P}.
Arguments os_calls {P}.
Arguments os_ticks {P}.

(** The two instances. *)
Definition signing_observe := observe posture_is_resting.
Definition signing_sweep_images := sweep posture_is_resting.
Definition provenance_observe := observe provenance_is_resting.
Definition provenance_sweep_images := sweep provenance_is_resting.

(** ** The tally of a sweep *)

Record PostureSummary := mkTally {
  ps_signed : nat; ps_signed_key_based : nat; ps_unverifiable : nat;
  ps_invalid : nat; ps_not_signed : nat; ps_checking : nat
}.

Definition tally_one (s : PostureSummary) (p : SigningPosture) : PostureSummary :=
  let '(mkTally a b c d e f) := s in
  match p with
  | Signed _ => mkTally (S a) b c d e f
  | SignedKeyBased => mkTally a (S b) c d e f
  | UnverifiableHere => mkTally a b (S c) d e f
  | InvalidSignature => mkTally a b c (S d) e f
  | NotSigned => mkTally a b c d (S e) f
  | Checking => mkTally a b c d e (S f)
  end.

Definition posture_summary (m : gmap string SigningPosture) : PostureSummary :=
  foldl tally_one (mkTally 0 0 0 0 0 0) (map_to_list m).*2.

Definition summary_total (s : PostureSummary) : nat :=
  ps_signed s + ps_signed_key_based s + ps_unverifiable s + ps_invalid s + ps_not_signed s + ps_checking s.

(** ** Lemmas *)

Lemma find_map_some {A B} (f : A -> option B) l y :
  find_map f l = Some y -> exists x, x ∈ l /\ f x = Some y.
Proof.
  induction l as [|x l IH]; simpl; [done|]. destruct (f x) as [z|] eqn:E.
  - intros [= ->]. exists x. split; [left|done].
  - intros H. destruct (IH H) as (x' & Hx & Hf). exists x'. split; [by right|done].
Qed.

Lemma find_map_none {A B} (f : A -> option B) l : find_map f l = None <-> forall x, x ∈ l -> f x = None.
Proof.
  induction l as [|x l IH]; simpl; [set_solver|]. destruct (f x) eqn:E; [|rewrite IH; set_solver].
  split; [done|]. intros H. rewrite (H x) in E; [done|left].
Qed.

Lemma list_filter_ext_in {A} (P Q : A -> Prop) `{forall x, Decision (P x)} `{forall x, Decision (Q x)} (l : list A) :
  (forall x, x ∈ l -> (P x <-> Q x)) -> filter P l = filter Q l.
Proof.
  induction l as [|x l IH]; intros H1; [done|]. rewrite !filter_cons, IH by (intros y Hy; apply H1; by right).
  specialize (H1 x ltac:(left)). destruct (decide (P x)), (decide (Q x)); tauto || done.
Qed.

Lemma NoDup_taken {A} n (l : list A) : NoDup l -> NoDup (take n l).
Proof. intros H. eapply sublist_NoDup; [|apply sublist_take]. done. Qed.

Lemma posture_rank_signer p : posture_rank p = Some Keyless <-> is_Some (posture_signer p).
Proof. destruct p; simpl; split; intros H; try done; try (by destruct H); eauto. Qed.

Lemma distinct_loop (images acc : list string) :
  NoDup acc ->
  let r := foldl (fun acc i => if existsb (fun d => bool_decide (d = i)) acc then acc else acc ++ [i]) acc images in
  NoDup r /\ forall x, x ∈ r <-> x ∈ acc \/ x ∈ images.
Proof.
  revert acc. induction images as [|i images IH]; intros acc Hnd; simpl; [set_solver|].
  destruct (existsb _ acc) eqn:E.
  - apply existsb_elem in E as (d & Hd & Hdi). apply bool_decide_eq_true in Hdi as ->.
    destruct (IH acc Hnd) as [H1 H2]. split; [done|]. intros x. rewrite H2. set_solver.
  - assert (i ∉ acc) as Hi.
    { intros Hi. apply not_true_iff_false in E. apply E, existsb_elem. exists i. split; [done|]. by apply bool_decide_eq_true. }
    assert (NoDup (acc ++ [i])) as Hnd' by (apply NoDup_app; split; [done|split; [set_solver|apply NoDup_singleton]]).
    destruct (IH _ Hnd') as [H1 H2]. split; [done|]. intros x. rewrite H2. set_solver.
Qed.

Lemma distinct_images_NoDup images : NoDup (distinct_images images).
Proof. apply (distinct_loop images []). constructor. Qed.

Lemma distinct_images_elem images x : x ∈ distinct_images images <-> x ∈ images.
Proof. destruct (distinct_loop images [] (NoDup_nil_2)) as [_ H]. rewrite H. set_solver. Qed.

(** ** What one observation does *)

Section ObservationFacts.
Context {P : Type} (is_resting : P -> bool).
Variables (ask : nat -> string -> P) (clock : nat -> Z) (max_images : nat) (cache_ttl : Z).

Local Notation observe := (observe is_resting ask clock cache_ttl).
Local Notation sweep_loop := (sweep_loop is_resting ask clock cache_ttl).
Local Notation sweep := (sweep is_resting ask clock max_images cache_ttl).

(** Only resting postures are kept. *)
Definition cache_resting (s : ObsState P) : Prop :=
  forall i p c, os_cache s !! i = Some (p, c) -> is_resting p = true.

Lemma observe_frame image s p s' :
  observe image s = (p, s') ->
  (os_calls s' = os_calls s \/ os_calls s' = os_calls s ++ [image]) /\
  (forall j, j <> image -> os_cache s' !! j = os_cache s !! j) /\
  (cache_resting s -> cache_resting s').
Proof.
  assert (forall s, observe_fresh is_resting ask clock image s = (p, s') ->
    os_calls s' = os_calls s ++ [image] /\ (forall j, j <> image -> os_cache s' !! j = os_cache s !! j) /\
    (cache_resting s -> cache_resting s')) as Hfresh.
  { intros s0. unfold observe_fresh. simpl. destruct (is_resting _) eqn:E; intros [= <- <-]; simpl; (split; [done|]).
    - split; [intros j Hj; by rewrite lookup_insert_ne|]. intros Hc i q c. simpl.
      rewrite lookup_insert_Some. intros [(_ & [= <- _])|(_ & Hi)]; [done|by eapply Hc].
    - done. }
  unfold Posture.observe. destruct (os_cache s !! image) as [[q c]|]; [simpl; destruct (_ <? _)%Z|].
  - intros [= <- <-]. simpl. auto.
  - intros H. destruct (Hfresh _ H) as (H1 & H2 & H3). auto.
  - intros H. destruct (Hfresh _ H) as (H1 & H2 & H3). auto.
Qed.

Lemma sweep_loop_frame images : forall m s m' s',
  sweep_loop images m s = (m', s') ->
  (exists cs, os_calls s' = os_calls s ++ cs /\ cs `sublist_of` images) /\
  dom m' = dom m ∪ list_to_set images /\
  (forall j, j ∉ images -> os_cache s' !! j = os_cache s !! j) /\
  (forall j, j ∉ images -> m' !! j = m !! j) /\
  (cache_resting s -> cache_resting s').
Proof.
  induction images as [|i images IH]; intros m s m' s'; simpl.
  - intros [= <- <-]. split; [exists []; split; [by rewrite app_nil_r|done]|]. set_solver.
  - destruct (observe i s) as [p s1] eqn:E. intros H. destruct (observe_frame _ _ _ _ E) as (Hc & Hj & Hr).
    destruct (IH _ _ _ _ H) as ((cs & Hcs & Hsub) & Hd & Hk & Hm & Hr').
    split; [|split; [rewrite Hd, dom_insert_L; set_solver|split; [|split; [|auto]]]].
    + destruct Hc as [Hc|Hc]; rewrite Hcs, Hc.
      * exists cs. split; [done|]. by constructor.
      * exists (i :: cs). split; [by rewrite <- app_assoc|]. by constructor.
    + intros j Hn. rewrite Hk, Hj by set_solver. done.
    + intros j Hn. rewrite Hm by set_solver. rewrite lookup_insert_ne by set_solver. done.
Qed.

(** ** Inside one TTL window *)

(** Everything happens, and was cached, inside a window shorter than the TTL. *)
Record window (t0 t1 : Z) (s : ObsState P) : Prop := {
  wi_clock : forall n, (t0 <= clock n <= t1)%Z;
  wi_short : (t1 - t0 < cache_ttl)%Z;
  wi_cached : forall i p c, os_cache s !! i = Some (p, c) -> (t0 <= c <= t1)%Z
}.

Lemma observe_window t0 t1 image s p s' :
  window t0 t1 s -> observe image s = (p, s') ->
  window t0 t1 s' /\
  match os_cache s !! image with
  | Some (q, _) => p = q /\ os_calls s' = os_calls s /\ os_cache s' = os_cache s
  | None => os_calls s' = os_calls s ++ [image] /\
      (fst <$> os_cache s' !! image) = (if is_resting p then Some p else None)
  end.
Proof.
  intros [Hc Hs Hw]. unfold Posture.observe. destruct (os_cache s !! image) as [[q c]|] eqn:E.
  - simpl. assert (elapsed c (clock (os_ticks s)) <? cache_ttl = true)%Z as ->.
    { apply Z.ltb_lt. unfold elapsed. specialize (Hw _ _ _ E). specialize (Hc (os_ticks s)). lia. }
    intros [= <- <-]. done.
  - unfold observe_fresh. simpl. destruct (is_resting _) eqn:Er; intros [= <- <-]; simpl.
    + rewrite Er, lookup_insert_eq. split; [|done]. split; [done|done|]. intros i q c. simpl.
      rewrite lookup_insert_Some. intros [(_ & [= _ <-])|(_ & Hi)]; [apply Hc|by eapply Hw].
    + rewrite Er, E. done.
Qed.

Lemma sweep_loop_window t0 t1 images : forall m s m' s',
  NoDup images -> window t0 t1 s -> sweep_loop images m s = (m', s') ->
  window t0 t1 s' /\
  os_calls s' = os_calls s ++ filter (fun i => os_cache s !! i = None) images /\
  forall i, i ∈ images -> exists p, m' !! i = Some p /\
    match os_cache s !! i with
    | Some (q, _) => p = q /\ os_cache s' !! i = os_cache s !! i
    | None => (fst <$> os_cache s' !! i) = (if is_resting p then Some p else None)
    end.
Proof.
  induction images as [|i images IH]; intros m s m' s' Hnd Hw; simpl.
  - intros [= <- <-]. split; [done|]. split; [by rewrite app_nil_r|set_solver].
  - apply NoDup_cons in Hnd as [Hi Hnd]. destruct (observe i s) as [p s1] eqn:E. intros H.
    destruct (observe_window _ _ _ _ _ _ Hw E) as [Hw1 Hp]. destruct (observe_frame _ _ _ _ E) as (_ & Hj & _).
    destruct (IH _ _ _ _ Hnd Hw1 H) as (Hw' & Hcs & Hall).
    destruct (sweep_loop_frame _ _ _ _ _ H) as (_ & _ & Hk & Hm & _).
    assert (filter (fun j => os_cache s1 !! j = None) images = filter (fun j => os_cache s !! j = None) images) as Hf.
    { apply list_filter_ext_in. intros j Hjn. rewrite Hj; [done|]. by intros ->. }
    split; [done|]. split.
    + rewrite Hcs, Hf, filter_cons. destruct (os_cache s !! i) as [[q c]|].
      * destruct Hp as (_ & -> & _). by rewrite decide_False.
      * destruct Hp as (-> & _). rewrite decide_True by done. by rewrite <- app_assoc.
    + intros j Hjn. destruct (decide (j = i)) as [->|Hne].
      * exists p. rewrite Hm, lookup_insert_eq by done. split; [done|]. rewrite Hk by done.
        destruct (os_cache s !! i) as [[q c]|] eqn:Ei; [|by destruct Hp].
        destruct Hp as (-> & _ & ->). done.
      * apply elem_of_cons in Hjn as [|Hjn]; [done|]. destruct (Hall j Hjn) as (q & Hq & Hqs). exists q. split; [done|].
        rewrite Hj in Hqs by done. done.
Qed.

(** One sweep observes exactly the first [max_images] distinct images, asks
    the registry about each of them at most once and about no other, and keeps
    in its cache only resting postures. *)
Theorem sweep_bounded images s m s' :
  sweep images s = (m, s') ->
  let taken := take max_images (distinct_images images) in
  dom m = list_to_set taken /\
  (exists cs, os_calls s' = os_calls s ++ cs /\ cs `sublist_of` taken /\ NoDup cs /\
    length cs <= max_images /\ forall i, i ∈ cs -> i ∈ images) /\
  (cache_resting s -> cache_resting s').
Proof.
  intros H taken. destruct (sweep_loop_frame _ _ _ _ _ H) as ((cs & Hcs & Hsub) & Hd & _ & _ & Hr).
  split; [rewrite Hd; set_solver|]. split; [|done]. exists cs. split; [done|]. split; [done|].
  split; [eapply sublist_NoDup; [apply NoDup_taken, distinct_images_NoDup|exact Hsub]|]. split.
  - apply sublist_length in Hsub. rewrite length_take in Hsub. lia.
  - intros i Hi. apply distinct_images_elem. eapply elem_of_sublist, sublist_take. by eapply elem_of_sublist.
Qed.

(** Sweeping the same images again inside a TTL window asks the registry
    about exactly the images still unresolved, and repeats every resolved
    posture: a steady cluster is re-observed for free, a blip is retried. *)
Theorem resweep_asks_unresolved t0 t1 images s m1 s1 m2 s2 :
  window t0 t1 s -> cache_resting s -> sweep images s = (m1, s1) -> sweep images s1 = (m2, s2) ->
  os_calls s2 = os_calls s1 ++
    filter (fun i => (is_resting <$> m1 !! i) = Some false) (take max_images (distinct_images images)) /\
  forall i p, m1 !! i = Some p -> is_resting p = true -> m2 !! i = Some p.
Proof.
  intros Hw Hr H1 H2. unfold Posture.sweep in *. set (taken := take max_images (distinct_images images)) in *.
  assert (NoDup taken) as Hnd by (apply NoDup_taken, distinct_images_NoDup).
  destruct (sweep_loop_window _ _ _ _ _ _ _ Hnd Hw H1) as (Hw1 & _ & Ha1).
  destruct (sweep_loop_window _ _ _ _ _ _ _ Hnd Hw1 H2) as (_ & Hc2 & Ha2).
  destruct (sweep_loop_frame _ _ _ _ _ H1) as (_ & Hd1 & _ & _ & Hr1). specialize (Hr1 Hr).
  assert (forall i p, i ∈ taken -> m1 !! i = Some p ->
    (fst <$> os_cache s1 !! i) = (if is_resting p then Some p else None)) as Hcache.
  { intros i p Hi Hp. destruct (Ha1 i Hi) as (q & Hq & Hs). rewrite Hp in Hq. injection Hq as <-.
    destruct (os_cache s !! i) as [[q c]|] eqn:E; [|done]. destruct Hs as [<- ->]. simpl. by rewrite (Hr _ _ _ E). }
  split.
  - rewrite Hc2. f_equal. apply list_filter_ext_in. intros i Hi. destruct (Ha1 i Hi) as (p & Hp & _).
    specialize (Hcache i p Hi Hp). rewrite Hp. simpl. destruct (os_cache s1 !! i) as [[q c]|], (is_resting p); simpl in *; naive_solver.
  - intros i p Hp Hres. assert (i ∈ taken) as Hi.
    { assert (i ∈ dom m1) as Hi by (by apply elem_of_dom_2 in Hp). rewrite Hd1 in Hi. set_solver. }
    specialize (Hcache i p Hi Hp). rewrite Hres in Hcache. destruct (Ha2 i Hi) as (q & Hq & Hs).
    destruct (os_cache s1 !! i) as [[q' c]|]; simplify_eq/=. destruct Hs as [-> _]. done.
Qed.
End ObservationFacts.

(** A registry that has one keyless image and is down for the other. *)
Definition half_down (_ : nat) (image : string) : SigningPosture :=
  if bool_decide (image = "ghcr.io/org/app:1") then Signed (mkSigner "ci" None) else Checking.

Lemma sweep_bounded_witness :
  let r := sweep posture_is_resting half_down Z.of_nat 1 100 ["ghcr.io/org/app:1"; "ghcr.io/org/app:1"; "ghcr.io/org/job:1"] obs_new in
  dom r.1 = {["ghcr.io/org/app:1"]}.
Proof.
  intros r. destruct (sweep_bounded posture_is_resting half_down Z.of_nat 1 100
    ["ghcr.io/org/app:1"; "ghcr.io/org/app:1"; "ghcr.io/org/job:1"] obs_new r.1 r.2 (surjective_pairing _)) as [H _].
  rewrite H. vm_compute. reflexivity.
Defined.

Lemma resweep_asks_unresolved_witness :
  let images := ["ghcr.io/org/app:1"; "ghcr.io/org/job:1"] in
  let sw := sweep posture_is_resting half_down (fun _ => 0%Z) 32 100 images in
  os_calls (sw (sw obs_new).2).2 = ["ghcr.io/org/app:1"; "ghcr.io/org/job:1"; "ghcr.io/org/job:1"].
Proof.
  intros images sw.
  assert (window (fun _ => 0%Z) 100 0 0 (@obs_new SigningPosture)) as Hw.
  { split; [intros; lia|lia|]. intros i p c H. simpl in H. by rewrite lookup_empty in H. }
  assert (cache_resting posture_is_resting obs_new) as Hr by (intros i p c H; simpl in H; by rewrite lookup_empty in H).
  destruct (resweep_asks_unresolved posture_is_resting half_down (fun _ => 0%Z) 32 100 0 0 images obs_new
    _ _ _ _ Hw Hr (surjective_pairing _) (surjective_pairing _)) as [H _].
  etransitivity; [exact H|]. vm_compute. reflexivity.
Defined.

(** ** What the postures promise *)

(** A signer is read only off a layer whose certificate and log inclusion
    verified: [classify_facts] is [Signed s] exactly when [s] is the first such
    signer, and every image below that is ranked below keyless. *)
Theorem classify_facts_trust facts s :
  (classify_facts facts = Signed s <-> find_map lf_signer facts = Some s) /\
  (posture_rank (classify_facts facts) = Some Keyless <-> exists f, f ∈ facts /\ is_Some (lf_signer f)) /\
  (classify_facts facts = NotSigned <-> facts = []) /\
  (classify_facts facts = InvalidSignature <->
    facts <> [] /\ forall f, f ∈ facts -> f = mkLayer None false false) /\
  classify_facts facts <> Checking.
Proof.
  unfold classify_facts. destruct (find_map lf_signer facts) as [g|] eqn:E.
  - apply find_map_some in E as Hg. destruct Hg as (f & Hf & Hfg). split; [naive_solver|]. simpl.
    split; [naive_solver|]. split; [split; [done|intros ->; by apply not_elem_of_nil in Hf]|].
    split; [|done]. split; [done|]. intros [_ H]. rewrite (H f Hf) in Hfg. done.
  - pose proof (proj1 (find_map_none _ _) E) as Hn.
    assert (~ exists f, f ∈ facts /\ is_Some (lf_signer f)) as Hk.
    { intros (f & Hf & [x Hx]). rewrite Hn in Hx; done. }
    destruct (existsb lf_has_verified_bundle facts) eqn:Eb; [|destruct (existsb lf_has_signature facts) eqn:Es].
    + apply existsb_elem in Eb as (f & Hf & Hb). repeat (split; try done).
      * intros ->; by apply not_elem_of_nil in Hf.
      * intros [_ H]. rewrite (H f Hf) in Hb. done.
    + apply existsb_elem in Es as (f & Hf & Hb). repeat (split; try done).
      * intros ->; by apply not_elem_of_nil in Hf.
      * intros [_ H]. rewrite (H f Hf) in Hb. done.
    + rewrite existsb_false in Eb, Es. destruct facts as [|f facts].
      * repeat (split; try done). intros [H _]. done.
      * repeat (split; try done). intros g Hg. specialize (Hn g Hg). specialize (Eb g Hg). specialize (Es g Hg).
        destruct g. simpl in *. congruence.
Qed.

(** The builder a predicate yields is never empty. *)
Lemma parse_slsa_builder ty j p : parse_slsa_predicate ty j = Some p -> pv_builder p <> "" /\ is_slsa_predicate_type ty = true.
Proof.
  unfold parse_slsa_predicate, is_slsa_predicate_type.
  assert (forall o b, opt_filter nonempty o = Some b -> b <> "") as Hb.
  { intros [b'|] b; [|done]. simpl. unfold nonempty. case_bool_decide; simpl; [done|]. by intros [= <-]. }
  destruct (bool_decide (ty = SLSA_PROVENANCE_V1)) eqn:E1; [|destruct (bool_decide (ty = SLSA_PROVENANCE_V02)) eqn:E2; [|done]];
    intros (b & Hbo & [= <-])%bind_Some; simpl; rewrite ?orb_true_r; split; eauto.
Qed.

(** A build is trusted only on a keyless-verified attestation whose SLSA
    predicate names a builder; no attestation at all is [PAbsent], anything
    else [PUnverifiable]. *)
Theorem classify_provenance_trust facts :
  (forall p, classify_provenance facts = PVerified p ->
    pv_builder p <> "" /\ exists f j, f ∈ facts /\ pf_keyless_verified f = true /\ pf_predicate f = Some j /\
      is_slsa_predicate_type (pf_predicate_type f) = true /\ parse_slsa_predicate (pf_predicate_type f) j = Some p) /\
  (classify_provenance facts = PAbsent <-> facts = []) /\
  classify_provenance facts <> PChecking.
Proof.
  unfold classify_provenance. destruct (find_map _ facts) as [q|] eqn:E; [|destruct facts; naive_solver].
  apply find_map_some in E as (f & Hf & Hq). destruct (pf_keyless_verified f) eqn:Ek; [|done]. simpl in Hq.
  apply bind_Some in Hq as (j & Hj & Hp). destruct (parse_slsa_builder _ _ _ Hp) as [Hb Ht].
  split; [intros p [= <-]; split; [done|]; by exists f, j|]. split; [|done]. split; [done|].
  intros ->. by apply not_elem_of_nil in Hf.
Qed.
