(* ===== verification/PetGraph.v ===== *)
(** * The graph container protector stores its observations in.

    [petgraph::stable_graph::StableGraph] is a dependency, so it enters the
    development as an interface: the operations [SecurityGraph] and the proof
    layer call, and the documented behaviour they rely on. Every component is
    proved against the interface. [list_graph] is a container that satisfies
    it, used to evaluate the definitions on concrete clusters; like petgraph
    it yields a node's edges most recently added first. *)

From S2P Require Import Prelude.

(** A reference to an edge, as iterators yield it. *)
Record edge_ref (E : Type) := mkRef {
  er_source : nat;
  er_target : nat;
  er_id : nat;
  er_weight : E
}.
Arguments mkRef {E} _ _ _ _.
Arguments er_source {E} _.
Arguments er_target {E} _.
Arguments er_id {E} _.
Arguments er_weight {E} _.

(** The operations. [sg_add_edge] is [None] where [add_edge] panics (an
    endpoint that is not in the graph); [sg_set_node] is the assignment
    [graph[idx] = weight]. *)
Class StableGraph (G N E : Type) := {
  sg_new : G;
  sg_add_node : G -> N -> G * nat;
  sg_set_node : G -> nat -> N -> G;
  sg_add_edge : G -> nat -> nat -> E -> option G;
  sg_node_weight : G -> nat -> option N;
  sg_edge_weight : G -> nat -> option E;
  sg_node_indices : G -> list nat;
  sg_node_weights : G -> list N;
  sg_edge_references : G -> list (edge_ref E);
  sg_edges : G -> nat -> list (edge_ref E);
  sg_edges_in : G -> nat -> list (edge_ref E)
}.

Class StableGraphLaws (G N E : Type) `{SG : !StableGraph G N E} : Prop := {
  sg_new_node i : sg_node_weight sg_new i = None;
  sg_new_refs : sg_edge_references sg_new = [];
  sg_indices_NoDup g : NoDup (sg_node_indices g);
  sg_indices_spec g i : i ∈ sg_node_indices g <-> is_Some (sg_node_weight g i);
  sg_weights_spec g w : w ∈ sg_node_weights g <-> exists i, sg_node_weight g i = Some w;
  sg_ids_NoDup g : NoDup (er_id <$> sg_edge_references g);
  sg_edge_weight_spec g e w :
    sg_edge_weight g e = Some w <->
    exists r, r ∈ sg_edge_references g /\ er_id r = e /\ er_weight r = w;
  sg_edges_spec g i r : r ∈ sg_edges g i <-> r ∈ sg_edge_references g /\ er_source r = i;
  sg_edges_NoDup g i : NoDup (sg_edges g i);
  sg_edges_in_spec g i r : r ∈ sg_edges_in g i <-> r ∈ sg_edge_references g /\ er_target r = i;
  sg_edge_ends g r :
    r ∈ sg_edge_references g ->
    is_Some (sg_node_weight g (er_source r)) /\ is_Some (sg_node_weight g (er_target r));
  sg_add_node_fresh g w : sg_node_weight g (sg_add_node g w).2 = None;
  sg_add_node_weight g w j :
    sg_node_weight (sg_add_node g w).1 j =
    if decide (j = (sg_add_node g w).2) then Some w else sg_node_weight g j;
  sg_add_node_refs g w : sg_edge_references (sg_add_node g w).1 = sg_edge_references g;
  sg_set_node_weight g i w j :
    is_Some (sg_node_weight g i) ->
    sg_node_weight (sg_set_node g i w) j = if decide (j = i) then Some w else sg_node_weight g j;
  sg_set_node_refs g i w :
    is_Some (sg_node_weight g i) ->
    sg_edge_references (sg_set_node g i w) = sg_edge_references g;
  sg_add_edge_some g a b w :
    is_Some (sg_node_weight g a) -> is_Some (sg_node_weight g b) ->
    exists g' e, sg_add_edge g a b w = Some g' /\
      (forall j, sg_node_weight g' j = sg_node_weight g j) /\
      sg_edge_references g' ≡ₚ mkRef a b e w :: sg_edge_references g;
  sg_add_edge_panic g a b w :
    sg_node_weight g a = None \/ sg_node_weight g b = None -> sg_add_edge g a b w = None
}.

Lemma NoDup_fmap_inj_on {A B} (f : A -> B) (l : list A) x y :
  NoDup (f <$> l) -> x ∈ l -> y ∈ l -> f x = f y -> x = y.
Proof.
  induction l as [|a l IH]; intros Hnd Hx Hy Hf; [by apply not_elem_of_nil in Hx|].
  simpl in Hnd. apply NoDup_cons in Hnd as [Hni Hnd].
  apply elem_of_cons in Hx as [->|Hx]; apply elem_of_cons in Hy as [->|Hy]; auto.
  - exfalso. apply Hni. rewrite Hf. by apply list_elem_of_fmap_2.
  - exfalso. apply Hni. rewrite <- Hf. by apply list_elem_of_fmap_2.
Qed.

Section Derived.
Context {G N E : Type} `{SGL : StableGraphLaws G N E}.

(** Two edges with one id are one edge. *)
Lemma ref_id_inj g r1 r2 :
  r1 ∈ sg_edge_references g -> r2 ∈ sg_edge_references g -> er_id r1 = er_id r2 -> r1 = r2.
Proof. apply NoDup_fmap_inj_on, sg_ids_NoDup. Qed.

Lemma edge_weight_ref g r : r ∈ sg_edge_references g -> sg_edge_weight g (er_id r) = Some (er_weight r).
Proof. intros H. apply sg_edge_weight_spec. eauto. Qed.

Lemma edges_ref g i r : r ∈ sg_edges g i -> r ∈ sg_edge_references g.
Proof. by intros [? ?]%sg_edges_spec. Qed.

Lemma edges_source g i r : r ∈ sg_edges g i -> er_source r = i.
Proof. by intros [? ?]%sg_edges_spec. Qed.

Lemma edges_target_node g i r : r ∈ sg_edges g i -> is_Some (sg_node_weight g (er_target r)).
Proof. intros H%edges_ref. by apply sg_edge_ends in H as [_ ?]. Qed.

End Derived.

(** ** A concrete container *)

(** Edges by id; a vacant slot holds no edge. *)
Record list_graph (N E : Type) := mkLG {
  lg_nodes : list N;
  lg_edges : list (option (nat * nat * E))
}.
Arguments mkLG {N E} _ _.
Arguments lg_nodes {N E} _.
Arguments lg_edges {N E} _.

Section ListGraph.
Context {N E : Type}.
Implicit Types g : list_graph N E.

Definition lg_has g (i : nat) : bool := bool_decide (i < length (lg_nodes g)).

(** The edge of a slot: it counts when both its ends are nodes. *)
Definition lg_live g (o : option (nat * nat * E)) : option (nat * nat * E) :=
  match o with
  | Some (a, b, w) => if lg_has g a && lg_has g b then Some (a, b, w) else None
  | None => None
  end.

Fixpoint lg_refs_from g (n : nat) (l : list (option (nat * nat * E))) : list (edge_ref E) :=
  match l with
  | [] => []
  | o :: l' =>
      match lg_live g o with
      | Some (a, b, w) => mkRef a b n w :: lg_refs_from g (S n) l'
      | None => lg_refs_from g (S n) l'
      end
  end.

Definition lg_refs g : list (edge_ref E) := lg_refs_from g 0 (lg_edges g).

#[export] Instance list_graph_ops : StableGraph (list_graph N E) N E := {|
  sg_new := mkLG [] [];
  sg_add_node g w := (mkLG (lg_nodes g ++ [w]) (lg_live g <$> lg_edges g), length (lg_nodes g));
  sg_set_node g i w := mkLG (<[i:=w]> (lg_nodes g)) (lg_edges g);
  sg_add_edge g a b w :=
    if lg_has g a && lg_has g b
    then Some (mkLG (lg_nodes g) (lg_edges g ++ [Some (a, b, w)])) else None;
  sg_node_weight g i := lg_nodes g !! i;
  sg_edge_weight g e :=
    er_weight <$> List.find (fun r => bool_decide (er_id r = e)) (lg_refs g);
  sg_node_indices g := seq 0 (length (lg_nodes g));
  sg_node_weights g := lg_nodes g;
  sg_edge_references := lg_refs;
  sg_edges g i := reverse (List.filter (fun r => bool_decide (er_source r = i)) (lg_refs g));
  sg_edges_in g i := reverse (List.filter (fun r => bool_decide (er_target r = i)) (lg_refs g))
|}.

Lemma lg_has_iff g i : lg_has g i = true <-> is_Some (lg_nodes g !! i).
Proof. unfold lg_has. by rewrite bool_decide_eq_true, lookup_lt_is_Some. Qed.

Lemma lg_live_Some g o a b w :
  lg_live g o = Some (a, b, w) <->
  o = Some (a, b, w) /\ is_Some (lg_nodes g !! a) /\ is_Some (lg_nodes g !! b).
Proof.
  unfold lg_live. rewrite <- !lg_has_iff. destruct o as [[[a' b'] w']|]; [|naive_solver].
  destruct (lg_has g a') eqn:Ea, (lg_has g b') eqn:Eb; simpl;
    (split; [by intros [= <- <- <-]|intros (? & ? & ?); simplify_eq; congruence]).
Qed.

Lemma lg_refs_from_elem g n l r :
  r ∈ lg_refs_from g n l <->
  exists i o, l !! i = Some o /\ er_id r = n + i /\
    lg_live g o = Some (er_source r, er_target r, er_weight r).
Proof.
  revert n. induction l as [|o l IH]; intros n; simpl.
  - rewrite elem_of_nil. naive_solver.
  - assert ((exists i o', (o :: l) !! i = Some o' /\ er_id r = n + i /\
        lg_live g o' = Some (er_source r, er_target r, er_weight r)) <->
      (er_id r = n /\ lg_live g o = Some (er_source r, er_target r, er_weight r)) \/
      r ∈ lg_refs_from g (S n) l) as ->.
    { rewrite IH. split.
      - intros ([|i] & o' & Hl & Hid & Hv); simplify_eq/=; [left; split; [lia|done]|].
        right. exists i, o'. repeat split; [done|lia|done].
      - intros [[Hid Hv]|(i & o' & Hl & Hid & Hv)].
        + exists 0, o. repeat split; [lia|done].
        + exists (S i), o'. repeat split; [done|lia|done]. }
    destruct (lg_live g o) as [[[a b] w]|] eqn:EL; [|naive_solver].
    rewrite elem_of_cons. destruct r as [s t e v]; simpl. naive_solver.
Qed.

Lemma lg_refs_elem g r :
  r ∈ lg_refs g <->
  exists o, lg_edges g !! er_id r = Some o /\
            lg_live g o = Some (er_source r, er_target r, er_weight r).
Proof. unfold lg_refs. rewrite lg_refs_from_elem. naive_solver. Qed.

Lemma lg_ids_NoDup g n l : NoDup (er_id <$> lg_refs_from g n l).
Proof.
  revert n. induction l as [|o l IH]; intros n; simpl; [constructor|].
  destruct (lg_live g o) as [[[a b] w]|]; [|done]. simpl. constructor; [|done].
  intros ([s t e v] & He & (i & o' & _ & Hid & _)%lg_refs_from_elem)%list_elem_of_fmap.
  simpl in *. lia.
Qed.

Lemma lg_refs_from_live g g' n l :
  (forall o, o ∈ l -> lg_live g' (lg_live g o) = lg_live g o) ->
  lg_refs_from g' n (lg_live g <$> l) = lg_refs_from g n l.
Proof.
  revert n. induction l as [|o l IH]; intros n H; simpl; [done|].
  rewrite H by set_solver. rewrite IH by set_solver. done.
Qed.

Lemma lg_refs_from_ext g g' n l :
  length (lg_nodes g') = length (lg_nodes g) -> lg_refs_from g' n l = lg_refs_from g n l.
Proof.
  intros Hlen. revert n. induction l as [|o l IH]; intros n; simpl; [done|].
  assert (lg_live g' o = lg_live g o) as ->; [|by rewrite IH].
  unfold lg_live, lg_has. by rewrite Hlen.
Qed.

Lemma lg_refs_from_app g n l1 l2 :
  lg_refs_from g n (l1 ++ l2) = lg_refs_from g n l1 ++ lg_refs_from g (n + length l1) l2.
Proof.
  revert n. induction l1 as [|o l1 IH]; intros n; simpl; [by rewrite Nat.add_0_r|].
  rewrite IH. replace (n + S (length l1)) with (S n + length l1) by lia.
  by destruct (lg_live g o) as [[[a b] w]|].
Qed.

Lemma lg_add_node_refs g w :
  lg_refs (sg_add_node g w).1 = lg_refs g.
Proof.
  unfold lg_refs; simpl. apply lg_refs_from_live. intros o _.
  destruct (lg_live g o) as [[[a b] v]|] eqn:EL; [|done].
  apply lg_live_Some in EL as (_ & [x Ha] & [y Hb]).
  apply lg_live_Some. simpl. split; [done|].
  split; rewrite lookup_app_l by (by eapply lookup_lt_Some); eauto.
Qed.

Lemma lg_add_edge_some g a b w :
  is_Some (lg_nodes g !! a) -> is_Some (lg_nodes g !! b) ->
  exists g' e, sg_add_edge g a b w = Some g' /\
    (forall j, sg_node_weight g' j = sg_node_weight g j) /\
    sg_edge_references g' ≡ₚ mkRef a b e w :: sg_edge_references g.
Proof.
  intros Ha Hb. simpl. apply lg_has_iff in Ha, Hb. rewrite Ha, Hb. simpl.
  eexists _, (length (lg_edges g)). split; [done|]. split; [done|].
  unfold lg_refs. simpl. rewrite lg_refs_from_app. simpl. unfold lg_live.
  unfold lg_has in *. simpl. rewrite Ha, Hb. simpl.
  rewrite (lg_refs_from_ext g) by done. by rewrite Permutation_app_comm.
Qed.

#[export] Instance list_graph_laws : StableGraphLaws (list_graph N E) N E.
Proof.
  split; simpl.
  - done.
  - done.
  - intros g. apply NoDup_seq.
  - intros g i. rewrite elem_of_seq, lookup_lt_is_Some. lia.
  - intros g w. apply list_elem_of_lookup.
  - intros g. apply lg_ids_NoDup.
  - intros g e w. rewrite fmap_Some. split.
    + intros (r & [Hr He]%find_elem & ->). bools. eauto.
    + intros (r & Hr & <- & <-).
      destruct (List.find _ _) as [r'|] eqn:F.
      * exists r'. split; [done|]. apply find_elem in F as [Hr' He]. bools.
        by rewrite (NoDup_fmap_inj_on er_id (lg_refs g) r' r (lg_ids_NoDup g 0 _)).
      * apply (find_none_elem _ _ r) in F; [|done]. cbn beta in F. by rewrite bool_decide_eq_true_2 in F.
  - intros g i r. rewrite elem_of_reverse, elem_of_filter_b, bool_decide_eq_true. tauto.
  - intros g i. rewrite reverse_Permutation. apply NoDup_ListNoDup, List.NoDup_filter, NoDup_ListNoDup.
    apply (NoDup_fmap_1 er_id), lg_ids_NoDup.
  - intros g i r. rewrite elem_of_reverse, elem_of_filter_b, bool_decide_eq_true. tauto.
  - intros g r (o & _ & Hv)%lg_refs_elem. by apply lg_live_Some in Hv as (_ & ? & ?).
  - intros g w. by apply lookup_ge_None.
  - intros g w j. case_decide as Hj.
    + subst. by apply list_lookup_middle.
    + destruct (decide (j < length (lg_nodes g))); [by apply lookup_app_l|].
      rewrite !lookup_ge_None_2; [done|lia|rewrite length_app; simpl; lia].
  - intros g w. apply lg_add_node_refs.
  - intros g i w j Hi. case_decide as Hj.
    + subst. apply list_lookup_insert_eq. by apply lookup_lt_is_Some.
    + by apply list_lookup_insert_ne.
  - intros g i w _. unfold lg_refs. simpl. apply lg_refs_from_ext. simpl. apply length_insert.
  - apply lg_add_edge_some.
  - intros g a b w H. destruct (lg_has g a) eqn:Ha, (lg_has g b) eqn:Hb; simpl; [|done..].
    apply lg_has_iff in Ha, Hb. destruct Ha, Hb. naive_solver.
Qed.

End ListGraph.
