(* ===== verification/Attack.v ===== *)
(** * MITRE ATT&CK vocabulary (engine/src/engine/graph/attack.rs) *)

From S2P Require Import Prelude.

Inductive Tactic :=
  | InitialAccess
  | Execution
  | Persistence
  | PrivilegeEscalation
  | CredentialAccess
  | Discovery
  | LateralMovement
  | Collection
  | Exfiltration
  | Impact.

#[export] Instance Tactic_eq_dec : EqDecision Tactic.
Proof. solve_decision. Defined.

Definition tactic_id (t : Tactic) : string :=
  match t with
  | InitialAccess => "TA0001"
  | Execution => "TA0002"
  | Persistence => "TA0003"
  | PrivilegeEscalation => "TA0004"
  | CredentialAccess => "TA0006"
  | Discovery => "TA0007"
  | LateralMovement => "TA0008"
  | Collection => "TA0009"
  | Exfiltration => "TA0010"
  | Impact => "TA0040"
  end.

Definition tactic_name (t : Tactic) : string :=
  match t with
  | InitialAccess => "Initial Access"
  | Execution => "Execution"
  | Persistence => "Persistence"
  | PrivilegeEscalation => "Privilege Escalation"
  | CredentialAccess => "Credential Access"
  | Discovery => "Discovery"
  | LateralMovement => "Lateral Movement"
  | Collection => "Collection"
  | Exfiltration => "Exfiltration"
  | Impact => "Impact"
  end.

Record AttackRef := mkAttack {
  tactic : Tactic;
  technique_id : string;
  technique : string
}.

#[export] Instance AttackRef_eq_dec : EqDecision AttackRef.
Proof. solve_decision. Defined.

Definition EXPLOIT_PUBLIC_FACING : AttackRef :=
  mkAttack InitialAccess "T1190" "Exploit Public-Facing Application".

Definition CREDENTIAL_ACCESS : AttackRef :=
  mkAttack CredentialAccess "T1552" "Unsecured Credentials".

Definition ESCAPE_TO_HOST : AttackRef :=
  mkAttack PrivilegeEscalation "T1611" "Escape to Host".

Definition EXFILTRATION : AttackRef :=
  mkAttack Exfiltration "T1041" "Exfiltration Over C2 Channel".

Definition DATA_FROM_REPOSITORY : AttackRef :=
  mkAttack Collection "T1213" "Data from Information Repositories".

Definition DEPLOY_CONTAINER : AttackRef :=
  mkAttack Execution "T1610" "Deploy Container".

Definition CONTAINER_ADMIN_COMMAND : AttackRef :=
  mkAttack Execution "T1609" "Container Administration Command".

Definition RBAC_ESCALATION : AttackRef :=
  mkAttack PrivilegeEscalation "T1098.006"
    "Account Manipulation: Additional Container Cluster Roles".

Definition DATA_DESTRUCTION : AttackRef :=
  mkAttack Impact "T1485" "Data Destruction".

Definition PERSISTENCE_SCHEDULED : AttackRef :=
  mkAttack Persistence "T1053.007" "Scheduled Task/Job: Container Orchestration Job".

(** A verb-on-resource grant that is itself an attacker objective. *)
Record DangerousCapability := mkDanger {
  dc_group : string;
  dc_resource : string;
  dc_verb : string;
  dc_attack : AttackRef
}.

Definition CAPABILITY_CATALOG : list DangerousCapability := [
  mkDanger "" "pods" "create" DEPLOY_CONTAINER;
  mkDanger "" "pods/exec" "create" CONTAINER_ADMIN_COMMAND;
  mkDanger "" "pods/attach" "create" CONTAINER_ADMIN_COMMAND;
  mkDanger "rbac.authorization.k8s.io" "rolebindings" "create" RBAC_ESCALATION;
  mkDanger "rbac.authorization.k8s.io" "clusterrolebindings" "create" RBAC_ESCALATION;
  mkDanger "rbac.authorization.k8s.io" "*" "bind" RBAC_ESCALATION;
  mkDanger "rbac.authorization.k8s.io" "*" "escalate" RBAC_ESCALATION;
  mkDanger "" "persistentvolumeclaims" "delete" DATA_DESTRUCTION;
  mkDanger "batch" "cronjobs" "create" PERSISTENCE_SCHEDULED
].

Definition capability_technique (verb resource : string) : option AttackRef :=
  dc_attack <$> List.find (fun c => bool_decide (dc_verb c = verb) && bool_decide (dc_resource c = resource))
    CAPABILITY_CATALOG.

(** ** Lemmas *)

#[export] Instance tactic_id_inj : Inj (=) (=) tactic_id.
Proof. intros [] []; by vm_compute. Qed.

(** The tags the recognizers give are the catalogue's, so a capability never
    claims the foothold or credential techniques. *)
Lemma capability_technique_elem v r a :
  capability_technique v r = Some a ->
  exists c, c ∈ CAPABILITY_CATALOG /\ dc_verb c = v /\ dc_resource c = r /\ dc_attack c = a.
Proof.
  unfold capability_technique. intros (c & [Hc Hb]%find_elem & ->)%fmap_Some. bools. eauto.
Qed.
