(* ===== verification/Behavior.v ===== *)
(** * The behavioral wire vocabulary (behavior/src/lib.rs)

    What a sensor reports about a workload, the labels, summaries and cache
    keys derived from it, and the per-node liveness beacon. *)

From S2P Require Import Prelude Text.

Inductive SecretReadSource := Mounted | Api | HostPath.

#[export] Instance SecretReadSource_eq_dec : EqDecision SecretReadSource.
Proof. solve_decision. Defined.

(** UIDs are [u32]: kept as [N], with the width where it matters. *)
Inductive Behavior :=
  | Alert (rule : string)
  | NetworkConnection (peer : string) (internet : bool)
  | SecretRead (secret : string) (source : SecretReadSource)
  | LibraryLoaded (name : string)
  | FileRead (path : string)
  | PrivilegeChange (from_uid to_uid : N)
  | ProcessExec (path : string) (exe_anon_inode : bool)
  | FileWrite (path : string)
  | ImageLinkage (static_linkage : bool)
  | PtraceAttach
  | ModuleLoad.

#[export] Instance Behavior_eq_dec : EqDecision Behavior.
Proof. solve_decision. Defined.

Definition is_mounted (s : SecretReadSource) : bool :=
  match s with Mounted => true | _ => false end.

Definition basename (path : string) : string := last_segment slash path.

(** [path.rfind('/')]. *)
Fixpoint rfind (c : Ascii.ascii) (s : string) : option nat :=
  match s with
  | EmptyString => None
  | String a s' =>
      match rfind c s' with
      | Some i => Some (S i)
      | None => if Ascii.eqb a c then Some 0 else None
      end
  end.

Definition dirname (path : string) : string :=
  match rfind slash path with
  | Some 0 => "/"
  | Some i => String.substring 0 i path
  | None => "/"
  end.

Definition is_alert (b : Behavior) : bool :=
  match b with Alert _ => true | _ => false end.

Definition variant_label (b : Behavior) : string :=
  match b with
  | Alert _ => "alert"
  | NetworkConnection _ _ => "connection"
  | SecretRead _ _ => "secret-read"
  | LibraryLoaded _ => "library-load"
  | FileRead _ => "file-read"
  | PrivilegeChange _ _ => "priv-change"
  | ProcessExec _ _ => "exec"
  | FileWrite _ => "file-write"
  | ImageLinkage _ => "image-linkage"
  | PtraceAttach => "ptrace-attach"
  | ModuleLoad => "module-load"
  end.

Definition summary (b : Behavior) : string :=
  match b with
  | Alert rule => "alert: " +:+ rule
  | NetworkConnection peer internet =>
      "connects to " +:+ peer +:+ (if internet then " (INTERNET egress)" else "")
  | SecretRead secret Mounted => "reads secret " +:+ secret
  | SecretRead secret Api => "reads secret " +:+ secret +:+ " (via Kubernetes API)"
  | SecretRead secret HostPath => "reads secret " +:+ secret +:+ " (on-host filesystem)"
  | LibraryLoaded name => "loaded library " +:+ name
  | FileRead path => "opened file " +:+ path
  | PrivilegeChange from_uid to_uid =>
      "privilege change uid " +:+ pretty from_uid +:+ " -> " +:+ pretty to_uid
  | ProcessExec path exe_anon_inode =>
      if exe_anon_inode
      then "executed " +:+ path +:+ " (anonymous-inode: memfd/unlinked backing, no on-disk file)"
      else "executed " +:+ path
  | FileWrite path => "wrote file " +:+ path
  | ImageLinkage static_linkage =>
      if static_linkage then "entrypoint is a statically linked binary"
      else "entrypoint is a dynamically linked binary"
  | PtraceAttach => "ptrace attach (process injection primitive)"
  | ModuleLoad => "loaded a kernel module"
  end.

Definition fingerprint_key (b : Behavior) : string :=
  match b with
  | Alert rule => "alert:" +:+ rule
  | NetworkConnection _ true => "egress:internet"
  | NetworkConnection _ false => "egress:cluster"
  | SecretRead secret Mounted => "read:" +:+ secret
  | SecretRead secret Api => "read-api:" +:+ secret
  | SecretRead secret HostPath => "read-host:" +:+ secret
  | LibraryLoaded name => "lib:" +:+ name
  | FileRead path => "file:" +:+ path
  | PrivilegeChange _ to_uid => "priv:" +:+ pretty to_uid
  | ProcessExec path exe_anon_inode =>
      "exec:" +:+ basename path +:+ (if exe_anon_inode then ":anon-inode" else "")
  | FileWrite path => "write:" +:+ dirname path
  | ImageLinkage static_linkage => "linkage:" +:+ (if static_linkage then "true" else "false")
  | PtraceAttach => "ptrace-attach"
  | ModuleLoad => "module-load"
  end.

(** ** Attribution and reports *)

Inductive Attribution :=
  | ByPodUid (pod_uid : string)
  | ByNamespacedName (namespace pod : string).

Definition resolves_in (a : Attribution) (pod_uid_known : string -> bool) : bool :=
  match a with
  | ByNamespacedName _ _ => true
  | ByPodUid pod_uid => pod_uid_known pod_uid
  end.

Record RuntimeObservation := mkObs {
  ob_attribution : Attribution;
  ob_source : option string;
  ob_observed_at_ms : option N;
  ob_node : option string;
  ob_behavior : Behavior
}.

Record AgentReport := mkAgentReport {
  ar_node : string;
  ar_probes_loaded : N;
  ar_probes_total : N;
  ar_signals_emitted : N;
  ar_observed_at_ms : option N
}.

Definition is_blind (r : AgentReport) : bool := (ar_probes_loaded r =? 0)%N.

Definition is_partial (r : AgentReport) : bool :=
  (0 <? ar_probes_loaded r)%N && (0 <? ar_probes_total r)%N &&
  (ar_probes_loaded r <? ar_probes_total r)%N.

Record RuntimeReport := mkRuntimeReport {
  rr_observations : list RuntimeObservation;
  rr_liveness : option AgentReport
}.

(** ** Properties *)

(** Two behaviors with one cache key are of one kind: no observation can hide
    behind the key of another variant. *)
Theorem fingerprint_key_variant b1 b2 :
  fingerprint_key b1 = fingerprint_key b2 -> variant_label b1 = variant_label b2.
Proof.
  destruct b1 as [| |? []| | | | | | | |], b2 as [| |? []| | | | | | | |];
    repeat match goal with b : bool |- _ => destruct b end; try done.
Qed.

(** A liveness report is in exactly one of the three states blind, partial,
    or fully loaded (with the declared total a bound on what loaded). *)
Lemma agent_report_states r :
  (ar_probes_loaded r <= ar_probes_total r)%N ->
  (is_blind r = true /\ is_partial r = false) \/
  (is_blind r = false /\ is_partial r = true) \/
  (is_blind r = false /\ is_partial r = false /\ ar_probes_loaded r = ar_probes_total r).
Proof.
  unfold is_blind, is_partial.
  destruct (N.eqb_spec (ar_probes_loaded r) 0), (N.ltb_spec 0 (ar_probes_loaded r)),
    (N.ltb_spec 0 (ar_probes_total r)), (N.ltb_spec (ar_probes_loaded r) (ar_probes_total r));
    simpl; intuition lia.
Qed.
