(* ===== verification/Classify.v ===== *)
(** * Engine-side classification of behaviors

    [ExecClass] (observe/exec_class.rs), [AlarmClass] (observe/alarm_class.rs)
    and [PeerClass] (observe/peer_class.rs): which observed behaviors are
    notable, alarming now, or high-signal peers. *)

From S2P Require Import Prelude Text Behavior.

(** ** observe/exec_class.rs *)
Module ExecClass.

Definition INTERACTIVE_SHELLS : list string := ["sh"; "bash"; "zsh"; "ash"; "dash"].

Definition PACKAGE_MANAGERS : list string :=
  ["apt"; "apt-get"; "apk"; "yum"; "dnf"; "pip"; "pip3"; "gem"; "npm"].

Definition is_interactive_shell (b : Behavior) : bool :=
  match b with
  | ProcessExec path _ => bool_decide (basename path ∈ INTERACTIVE_SHELLS)
  | _ => false
  end.

Definition is_package_manager (b : Behavior) : bool :=
  match b with
  | ProcessExec path _ => bool_decide (basename path ∈ PACKAGE_MANAGERS)
  | _ => false
  end.

Definition notable_exec (b : Behavior) : option string :=
  if is_interactive_shell b then Some "interactive shell in container"
  else if is_package_manager b then Some "package manager in container"
  else None.

Definition annotated_summary (b : Behavior) : string :=
  match notable_exec b with
  | Some label => summary b +:+ " (" +:+ label +:+ ")"
  | None => summary b
  end.

End ExecClass.

(** ** observe/alarm_class.rs *)
Module AlarmClass.

Definition SENSITIVE_DIRS : list string :=
  ["/etc"; "/bin"; "/sbin"; "/usr/bin"; "/usr/sbin"; "/usr/local/bin"; "/usr/local/sbin";
   "/lib"; "/lib32"; "/lib64"; "/libx32"; "/usr/lib"; "/usr/lib32"; "/usr/lib64"; "/usr/libx32";
   "/usr/local/lib"; "/usr/local/lib64"].

Definition under (path dir : string) : bool :=
  bool_decide (path = dir) ||
  match strip_prefix dir path with
  | Some rest => starts_with "/" rest
  | None => false
  end.

Definition is_cron_path (path : string) : bool :=
  starts_with "/etc/cron" path || under path "/var/spool/cron".

Definition is_service_account_path (path : string) : bool :=
  under path "/var/run/secrets/kubernetes.io" || under path "/run/secrets/kubernetes.io".

Definition is_ssh_key_path (path : string) : bool :=
  bool_decide (basename path = "authorized_keys") ||
  existsb (fun seg => bool_decide (seg = ".ssh")) (split slash path).

Definition alarming_write (b : Behavior) : option string :=
  match b with
  | FileWrite path =>
      if is_cron_path path then Some "drift write to a cron path (persistence)"
      else if is_service_account_path path then
        Some "drift write to a service-account token path (credential tamper)"
      else if is_ssh_key_path path then Some "drift write to an SSH key path (persistence)"
      else if existsb (under path) SENSITIVE_DIRS then
        Some "drift write to a sensitive system path (drop-and-execute / config tamper)"
      else None
  | _ => None
  end.

Definition is_alarming_now (b : Behavior) : bool :=
  is_alert b || bool_decide (is_Some (ExecClass.notable_exec b)) ||
  bool_decide (is_Some (alarming_write b)).

End AlarmClass.

(** ** observe/peer_class.rs: the peers that corroborate *)
Module PeerClass.

Definition CLOUD_METADATA_IPS : list string := ["169.254.169.254"; "fd00:ec2::254"].

Definition API_SERVER_LABEL : string := "default/kubernetes".

Definition colon : Ascii.ascii := Ascii.ascii_of_nat 58.
Definition rbracket : Ascii.ascii := Ascii.ascii_of_nat 93.

(** [str::rsplit_once(':')]'s left part. *)
Definition before_last (c : Ascii.ascii) (s : string) : option string :=
  match rfind c s with
  | Some i => Some (String.substring 0 i s)
  | None => None
  end.

Definition nonempty (s : string) : option string :=
  if bool_decide (s = "") then None else Some s.

Definition raw_peer_host (peer : string) : option string :=
  match strip_prefix "[" peer with
  | Some rest => '(addr, _) ← split_once rbracket rest; nonempty addr
  | None =>
      if no_char slash peer then before_last colon peer ≫= nonempty else None
  end.

Definition is_cloud_metadata (peer : string) : bool :=
  match raw_peer_host peer with
  | Some ip => bool_decide (ip ∈ CLOUD_METADATA_IPS)
  | None => false
  end.

(** [peer.split(':').next()]. *)
Definition first_segment (c : Ascii.ascii) (s : string) : option string := head (split c s).

Definition is_api_server (peer : string) : bool :=
  bool_decide (first_segment colon peer = Some API_SERVER_LABEL).

Definition foothold_peer (b : Behavior) : option string :=
  match b with
  | NetworkConnection peer _ =>
      if is_cloud_metadata peer then Some "cloud instance-metadata (IMDS) endpoint"
      else if is_api_server peer then Some "Kubernetes API server"
      else None
  | _ => None
  end.

Definition resolved_peer_namespace (peer : string) : option string :=
  label ← first_segment colon peer;
  '(ns, _) ← split_once slash label;
  nonempty ns.

Definition is_cross_tenant (source_ns peer : string) : bool :=
  match resolved_peer_namespace peer with
  | Some peer_ns => negb (bool_decide (peer_ns = source_ns))
  | None => false
  end.

End PeerClass.

(** ** Properties *)

#[local] Arguments String.append : simpl nomatch.

(** The directory match is segment aligned: at the directory itself or below a
    slash after it, and nowhere else ([/etc] is not a prefix of [/etcd]). *)
Lemma under_spec path dir :
  AlarmClass.under path dir = true <-> path = dir \/ exists r, path = dir +:+ "/" +:+ r.
Proof.
  unfold AlarmClass.under. rewrite orb_true_iff, bool_decide_eq_true.
  apply or_iff_compat_l. destruct (strip_prefix dir path) as [rest|] eqn:E.
  - apply strip_prefix_app in E as ->. rewrite starts_with_app.
    split; intros [r Hr]; exists r; [by subst|].
    apply (strip_prefix_app dir) in Hr.
    assert (strip_prefix dir (dir +:+ rest) = Some rest) as E by by apply strip_prefix_app. congruence.
  - split; [done|]. intros [r Hr]. apply strip_prefix_app in Hr. congruence.
Qed.

(** Only a write can be an alarming write, only an exec a notable one. *)
Lemma alarming_write_is_write b l :
  AlarmClass.alarming_write b = Some l -> exists p, b = FileWrite p.
Proof. destruct b; naive_solver. Qed.

Lemma notable_exec_is_exec b l :
  ExecClass.notable_exec b = Some l -> exists p a, b = ProcessExec p a.
Proof. destruct b; naive_solver. Qed.

Lemma alarming_write_spec p :
  is_Some (AlarmClass.alarming_write (FileWrite p)) <->
  AlarmClass.is_cron_path p = true \/ AlarmClass.is_service_account_path p = true \/
  AlarmClass.is_ssh_key_path p = true \/
  exists d, d ∈ AlarmClass.SENSITIVE_DIRS /\ AlarmClass.under p d = true.
Proof.
  rewrite <- existsb_elem. unfold AlarmClass.alarming_write.
  destruct (AlarmClass.is_cron_path p); [naive_solver|].
  destruct (AlarmClass.is_service_account_path p); [naive_solver|].
  destruct (AlarmClass.is_ssh_key_path p); [naive_solver|].
  destruct (existsb (AlarmClass.under p) AlarmClass.SENSITIVE_DIRS); naive_solver.
Qed.

Lemma notable_exec_spec p a :
  is_Some (ExecClass.notable_exec (ProcessExec p a)) <->
  basename p ∈ ExecClass.INTERACTIVE_SHELLS \/ basename p ∈ ExecClass.PACKAGE_MANAGERS.
Proof.
  unfold ExecClass.notable_exec, ExecClass.is_interactive_shell, ExecClass.is_package_manager.
  repeat case_bool_decide; naive_solver.
Qed.

(** The blanket gate is exactly its three documented sources; in particular no
    read, connection, library load, linkage fact, privilege change, ptrace
    attach or module load is alarming on its own. *)
Lemma is_alarming_now_spec b :
  AlarmClass.is_alarming_now b = true <->
  (exists r, b = Alert r) \/
  (exists p a, b = ProcessExec p a /\
     (basename p ∈ ExecClass.INTERACTIVE_SHELLS \/ basename p ∈ ExecClass.PACKAGE_MANAGERS)) \/
  (exists p, b = FileWrite p /\
     (AlarmClass.is_cron_path p = true \/ AlarmClass.is_service_account_path p = true \/
      AlarmClass.is_ssh_key_path p = true \/
      exists d, d ∈ AlarmClass.SENSITIVE_DIRS /\ AlarmClass.under p d = true)).
Proof.
  unfold AlarmClass.is_alarming_now. rewrite !orb_true_iff, !bool_decide_eq_true. split.
  - intros [[H|[l H]]|[l H]].
    + destruct b; naive_solver.
    + right; left. destruct (notable_exec_is_exec _ _ H) as (p & a & ->).
      exists p, a. split; [done|]. by eapply notable_exec_spec, mk_is_Some.
    + right; right. destruct (alarming_write_is_write _ _ H) as (p & ->).
      exists p. split; [done|]. by eapply alarming_write_spec, mk_is_Some.
  - intros [(r & ->)|[(p & a & -> & H)|(p & -> & H)]]; [by left; left|left; right|right].
    + by apply notable_exec_spec.
    + by apply alarming_write_spec.
Qed.

(** A cross-tenant peer is a resolved [namespace/name] label in another,
    nonempty namespace. *)
Lemma is_cross_tenant_spec src peer :
  PeerClass.is_cross_tenant src peer = true <->
  exists ns, PeerClass.resolved_peer_namespace peer = Some ns /\ ns <> "" /\ ns <> src.
Proof.
  unfold PeerClass.is_cross_tenant.
  assert (forall ns, PeerClass.resolved_peer_namespace peer = Some ns -> ns <> "") as Hne.
  { intros ns H. unfold PeerClass.resolved_peer_namespace in H.
    destruct (PeerClass.first_segment _ _); [|done]. simpl in H.
    destruct (split_once _ _) as [[a b]|]; [|done]. simpl in H.
    unfold PeerClass.nonempty in H. by case_bool_decide; simplify_eq. }
  destruct (PeerClass.resolved_peer_namespace peer) as [ns|] eqn:E; [|naive_solver].
  rewrite negb_true_iff, bool_decide_eq_false. naive_solver.
Qed.
