(* ===== verification/Asn.v ===== *)
(** * Internet providers

    engine/src/engine/observe/asn.rs: the offline table of address ranges, and the
    provider line it gives for internet peers (observe/peer_class.rs). *)

From Stdlib Require Import Sorting.Sorted.
From stdpp Require Import sorting.
From S2P Require Import Prelude Text ImageRef Classify.

#[local] Arguments String.append : simpl nomatch.

Definition MAX_LINE_LEN : nat := 512.
Definition MAX_ORG_LEN : nat := 128.

Record AsnHit := mkHit { ah_asn : N; ah_org : string }.

Record AsnRange := mkRange { as_start : N; as_end : N; as_asn : N; as_org : string }.

Abbreviation AsnDb := (list AsnRange).

(** [partition_point] on a partitioned slice. *)
Fixpoint partition_point {A} (p : A -> bool) (l : list A) : nat :=
  match l with [] => 0 | x :: l => if p x then S (partition_point p l) else 0 end.

Definition asn_lookup (db : AsnDb) (key : N) : option AsnHit :=
  match partition_point (fun r => as_start r <=? key)%N db with
  | 0 => None
  | S idx => range ← db !! idx; if (key <=? as_end range)%N then Some (mkHit (as_asn range) (as_org range)) else None
  end.

(** [str::parse::<Ipv4Addr>]: four octets in decimal, without a sign or a
    leading zero. *)
Definition parse_octet (s : string) : option N :=
  match s with
  | EmptyString => None
  | String c rest =>
      if (3 <? String.length s)%nat || (Ascii.eqb c (Ascii.ascii_of_nat 48) && negb (bool_decide (rest = ""))) then None
      else digits_value 256 s 0
  end.

Definition parse_ipv4 (s : string) : option N :=
  match split dot_char s with
  | [a; b; c; d] =>
      a ← parse_octet a; b ← parse_octet b; c ← parse_octet c; d ← parse_octet d;
      Some (((a * 256 + b) * 256 + c) * 256 + d)%N
  | _ => None
  end.

Definition bounded_org (raw : string) : string := take_chars MAX_ORG_LEN (trim raw).

Definition tab : Ascii.ascii := Ascii.ascii_of_nat 9.

(** One line: tab-separated start, end, number, country and name. *)
Definition asn_line (line : string) : option AsnRange :=
  if bool_decide (line = "") || (MAX_LINE_LEN <? String.length line)%nat then None
  else match split tab line with
  | start :: end_ :: asn :: _ :: org :: _ =>
      start ← parse_ipv4 (trim start); end_ ← parse_ipv4 (trim end_); asn ← parse_u32 (trim asn);
      if (end_ <? start)%N || (asn =? 0)%N then None
      else let org := bounded_org org in if bool_decide (org = "") then None else Some (mkRange start end_ asn org)
  | _ => None
  end.

(** [trim_end_matches(['\r', '\n'])]. *)
Fixpoint strip_line_end (s : string) : string :=
  match s with
  | EmptyString => EmptyString
  | String c s =>
      match strip_line_end s with
      | EmptyString => if bool_decide (Ascii.nat_of_ascii c = 13 \/ Ascii.nat_of_ascii c = 10) then EmptyString else String c EmptyString
      | s => String c s
      end
  end.

Definition range_leb (a b : AsnRange) : bool := (as_start a <=? as_start b)%N.

Definition asn_parse (contents : string) : AsnDb := sort_by range_leb (omap (fun l => asn_line (strip_line_end l)) (lines contents)).

(** ** The provider line *)

Definition INTERNET_EGRESS_PREFIX : string := "INTERNET egress: ".

Definition attribute_internet_peer (peer : string) (asn : AsnDb) : string :=
  match (host ← PeerClass.raw_peer_host peer; ip ← parse_ipv4 host; asn_lookup asn ip) with
  | Some hit => ah_org hit +:+ " [AS" +:+ pretty (ah_asn hit) +:+ "]"
  | None => peer
  end.

Definition internet_egress_line (peers : list string) (asn : AsnDb) : option string :=
  let providers : gset string := list_to_set ((fun p => attribute_internet_peer p asn) <$> peers) in
  if bool_decide (providers = ∅) then None else Some (INTERNET_EGRESS_PREFIX +:+ join ", " (bset_iter providers)).

(** ** What a lookup finds *)

Lemma partition_point_le {A} (p : A -> bool) l : partition_point p l <= length l.
Proof. induction l as [|x l IH]; simpl; [done|]. destruct (p x); simpl; lia. Qed.

Lemma partition_point_spec {A} (p : A -> bool) (R : A -> A -> Prop) l :
  StronglySorted R l -> (forall x y, R x y -> p y = true -> p x = true) ->
  l = List.filter p l ++ List.filter (fun x => negb (p x)) l /\ partition_point p l = length (List.filter p l).
Proof.
  intros Hs HR. induction Hs as [|x l Hs IH Hall]; [done|]. simpl. destruct (p x) eqn:Hx; simpl.
  - destruct IH as [H1 H2]. split; [f_equal; exact H1|by rewrite H2].
  - assert (List.filter p l = []) as ->.
    { destruct (List.filter p l) as [|y ys] eqn:E; [done|]. assert (y ∈ y :: ys) as Hy by (by left). rewrite <- E in Hy. apply elem_of_filter_b in Hy as [Hp Hy].
      rewrite Forall_forall in Hall. by rewrite (HR x y (Hall y Hy) Hp) in Hx. }
    split; [|done]. simpl. f_equal. symmetry. clear Hs IH. induction Hall as [|y l Hxy Hall IH]; [done|]. simpl.
    destruct (p y) eqn:Hpy; [by rewrite (HR x y Hxy Hpy) in Hx|]. simpl. by f_equal.
Qed.

(** A table, whatever file it was read from, is sorted by start, its ranges are
    not empty and its names neither empty nor long; and a lookup finds the last of
    the ranges that start no later than the address, if that contains it. In a
    table whose ranges do not overlap this is the one range that contains it. *)
Theorem asn_lookup_exact contents key :
  let db := asn_parse contents in
  StronglySorted (fun a b => (as_start a <= as_start b)%N) db /\
  (forall r, r ∈ db -> (as_start r <= as_end r)%N /\ as_asn r <> 0%N /\ as_org r <> "" /\ (chars (as_org r) <= MAX_ORG_LEN)%nat) /\
  asn_lookup db key = (r ← last (List.filter (fun r => (as_start r <=? key)%N) db);
                       if (key <=? as_end r)%N then Some (mkHit (as_asn r) (as_org r)) else None) /\
  (StronglySorted (fun a b => (as_end a < as_start b)%N) db -> forall hit,
     asn_lookup db key = Some hit <-> exists r, r ∈ db /\ (as_start r <= key <= as_end r)%N /\ hit = mkHit (as_asn r) (as_org r)).
Proof.
  intros db. assert (StronglySorted (fun a b => (as_start a <= as_start b)%N) db) as Hs.
  { eapply ssorted_impl; [apply (sort_by_sorted range_leb); unfold range_leb|intros x y _ _ H; by apply N.leb_le].
    - intros a b. rewrite !N.leb_le. lia.
    - intros a b c. rewrite !N.leb_le. lia. }
  assert (asn_lookup db key = (r ← last (List.filter (fun r => (as_start r <=? key)%N) db);
                       if (key <=? as_end r)%N then Some (mkHit (as_asn r) (as_org r)) else None)) as Hl.
  { destruct (partition_point_spec (fun r => (as_start r <=? key)%N) _ db Hs) as [Hsplit Hpp]; [intros x y H1 H2%N.leb_le; apply N.leb_le; lia|].
    unfold asn_lookup. rewrite Hpp. set (f := List.filter (fun r => (as_start r <=? key)%N) db) in *. rewrite last_lookup.
    destruct (length f) as [|n] eqn:Hn; simpl; [by apply nil_length_inv in Hn as ->|].
    assert (db !! n = f !! n) as ->; [|done]. rewrite Hsplit. apply (lookup_app_l f). rewrite Hn. apply Nat.lt_succ_diag_r. }
  split; [done|]. split; [|split; [done|]].
  - intros r [l Hr]%elem_of_sort_by%list_elem_of_omap. destruct Hr as [_ Hr]. unfold asn_line in Hr. destruct (_ || _); [done|].
    destruct (split tab (strip_line_end l)) as [|a [|b [|c [|d [|o rest]]]]]; try done.
    apply bind_Some in Hr as (s & _ & Hr). apply bind_Some in Hr as (e & _ & Hr). apply bind_Some in Hr as (n & _ & Hr).
    destruct ((e <? s)%N || (n =? 0)%N) eqn:Hc; [done|]. case_bool_decide as Ho; [done|]. injection Hr as <-. simpl.
    apply orb_false_iff in Hc as [H1%N.ltb_ge H2%N.eqb_neq]. split; [done|]. split; [done|]. split; [done|].
    unfold bounded_org. destruct (take_chars_spec MAX_ORG_LEN (trim o)) as (_ & _ & -> & _). apply Nat.le_min_l.
  - intros Hno hit. rewrite Hl. destruct (last (List.filter (fun r => (as_start r <=? key)%N) db)) as [r|] eqn:Hr; cbn [mbind option_bind].
    + assert (r ∈ List.filter (fun r => (as_start r <=? key)%N) db) as [Hk%N.leb_le Hin]%elem_of_filter_b.
      { apply last_Some in Hr as [l' ->]. apply elem_of_app. right. by left. }
      assert (forall x, x ∈ db -> (as_start x <= key <= as_end x)%N -> x = r) as Huniq.
      { intros x Hx Hkx. assert (x ∈ List.filter (fun r => (as_start r <=? key)%N) db) as Hxf by (apply elem_of_filter_b; split; [apply N.leb_le; lia|done]).
        apply last_Some in Hr as [l' Hl']. rewrite Hl' in Hxf. apply elem_of_app in Hxf as [Hxf| ->%list_elem_of_singleton]; [|done]. exfalso.
        assert (StronglySorted (fun a b => (as_end a < as_start b)%N) (l' ++ [r])) as Hsr.
        { rewrite <- Hl'. clear -Hno. induction Hno as [|y db Hno IH Hall]; [constructor|]. simpl. destruct (_ <=? _)%N; [|done]. constructor; [done|].
          rewrite Forall_forall in *. intros z [_ Hz]%elem_of_filter_b. by apply Hall. }
        pose proof (StronglySorted_app_1_elem_of _ _ _ x r Hsr Hxf ltac:(by left)) as H. cbv beta in H. lia. }
      destruct (N.leb_spec key (as_end r)); split.
      * intros [= <-]. by exists r.
      * intros (x & Hx & Hkx & ->). by rewrite (Huniq x Hx Hkx).
      * done.
      * intros (x & Hx & Hkx & ->). rewrite (Huniq x Hx Hkx) in Hkx. lia.
    + split; [done|]. intros (x & Hx & Hkx & _). apply last_None in Hr. assert (x ∈ List.filter (fun r => (as_start r <=? key)%N) db) as Hf.
      { apply elem_of_filter_b. split; [apply N.leb_le; lia|done]. }
      rewrite Hr in Hf. by apply not_elem_of_nil in Hf.
Qed.

(** The order and the addresses of a provider's peers do not change the line. *)
Theorem egress_line_stable peers peers' asn :
  (forall p, p ∈ (fun p => attribute_internet_peer p asn) <$> peers <-> p ∈ (fun p => attribute_internet_peer p asn) <$> peers') ->
  internet_egress_line peers asn = internet_egress_line peers' asn.
Proof.
  intros H. unfold internet_egress_line. assert ((list_to_set ((fun p => attribute_internet_peer p asn) <$> peers) : gset string) =
    list_to_set ((fun p => attribute_internet_peer p asn) <$> peers')) as ->; [|done].
  apply set_eq. intros p. by rewrite !elem_of_list_to_set.
Qed.

(** Two addresses of one provider give one name; the addresses between its ranges
    give none, and neither do unrouted, inverted or nameless rows. *)
Example asn_demo :
  let row a b n o := a +:+ String tab b +:+ String tab n +:+ String tab "US" +:+ String tab o +:+ String (Ascii.ascii_of_nat 10) "" in
  let db := asn_parse (row "140.82.112.0" "140.82.127.255" "36459" "GitHub" +:+ row "13.32.0.0" "13.35.255.255" "16509" "Amazon" +:+
                       row "0.0.0.0" "0.255.255.255" "0" "Not routed" +:+ row "9.0.0.9" "9.0.0.1" "9" "Inverted" +:+ row "10.0.0.0" "10.0.0.9" "7" " ") in
  internet_egress_line ["140.82.113.3:443"; "13.33.1.1:443"; "140.82.120.9:443"; "8.8.8.8:53"] db =
    Some "INTERNET egress: 8.8.8.8:53, Amazon [AS16509], GitHub [AS36459]" /\
  (fun i => (ah_org <$> (k ← parse_ipv4 i; asn_lookup db k))) <$> ["140.82.128.0"; "0.1.2.3"; "9.0.0.5"; "10.0.0.1"; "13.35.255.255"; "013.33.1.1"] =
    [None; None; None; None; Some "Amazon"; None].
Proof. by vm_compute. Qed.
