(* ===== verification/Graph.v ===== *)
(** * The cluster security graph (engine/src/engine/graph/mod.rs, graph/delta.rs)

    The typed nodes, edges and facts, the key scheme that identifies nodes, the
    upsert/ensure/update operations over the stored graph, the evidence reads,
    and the threat delta between two snapshots. A [NodeKey] is its string. *)

From S2P Require Import Prelude Text PetGraph Attack Behavior.

(** ** Vocabulary *)

(** [SystemTime], in nanoseconds relative to the epoch. *)
Abbreviation SystemTime := Z.

Record Provenance := mkProv { pv_source : string; pv_observed_at : SystemTime }.

Inductive Scope := ScopeCluster | ScopeNamespace (ns : string).

Definition scope_label (s : Scope) : string :=
  match s with
  | ScopeCluster => "cluster"
  | ScopeNamespace ns => "ns:" +:+ ns
  end.

Inductive Exposure := Internal | ClusterExposed | Internet.

#[export] Instance Exposure_eq_dec : EqDecision Exposure.
Proof. solve_decision. Defined.

Inductive Trust := TrustUnknown | Untrusted | Signed (p : Provenance).

Inductive Severity := Low | Medium | High | Critical.

#[export] Instance Severity_eq_dec : EqDecision Severity.
Proof. solve_decision. Defined.

Definition severity_label (s : Severity) : string :=
  match s with Low => "low" | Medium => "medium" | High => "high" | Critical => "critical" end.

Inductive Reachability := ReachUnknown | LoadedAtRuntime | NotObserved | PresentStaticBinary.

#[export] Instance Reachability_eq_dec : EqDecision Reachability.
Proof. solve_decision. Defined.

Definition reachability_label (r : Reachability) : string :=
  match r with
  | ReachUnknown => "unknown"
  | LoadedAtRuntime => "loaded-at-runtime"
  | NotObserved => "not-observed"
  | PresentStaticBinary => "present-static-binary"
  end.

(** Floats are their IEEE bit patterns: [epss] the 32 bits of an [f32], [score]
    the 64 of an [f64]. *)
Record Vulnerability := mkVuln {
  v_id : string;
  v_severity : Severity;
  v_exploited_in_wild : bool;
  v_epss : option Z;
  v_sources : list Provenance;
  v_reachability : Reachability;
  v_pkg_name : option string;
  v_installed_version : option string;
  v_fixed_version : option string;
  v_title : option string;
  v_primary_link : option string;
  v_score : option Z
}.

Record ScanFinding := mkScan {
  sf_id : string;
  sf_severity : Severity;
  sf_category : option string;
  sf_title : option string;
  sf_target : option string;
  sf_sources : list Provenance
}.

Record RuntimeSignal := mkSignal { rs_behavior : Behavior; rs_provenance : Provenance }.

Record Workload := mkWorkload {
  w_namespace : string;
  w_name : string;
  w_kind : string;
  w_labels : gmap string string;
  w_meshed : bool;
  w_exposure : Exposure;
  w_runtime : list RuntimeSignal;
  w_persistent : bool;
  w_misconfigs : list ScanFinding;
  w_rbac_findings : list ScanFinding
}.

Record Identity := mkIdentity { id_namespace : string; id_name : string }.

Record SecretRef := mkSecretRef { sr_namespace : string; sr_name : string }.

Record Endpoint := mkEndpoint { ep_address : string }.

Record Image := mkImage {
  im_digest : string;
  im_reference : option string;
  im_trust : Trust;
  im_vulnerabilities : list Vulnerability;
  im_exposed_secrets : list ScanFinding;
  im_static_binary : option bool
}.

Record Host := mkHost { h_name : string }.

Record Capability := mkCapability { c_verb : string; c_resource : string; c_scope : Scope }.

Inductive Node :=
  | NWorkload (w : Workload)
  | NIdentity (i : Identity)
  | NSecret (s : SecretRef)
  | NEndpoint (e : Endpoint)
  | NImage (im : Image)
  | NHost (h : Host)
  | NCapability (c : Capability).

(** ** Keys *)

Abbreviation NodeKey := string.

Definition key_workload (namespace kind name : string) : NodeKey :=
  "workload/" +:+ namespace +:+ "/" +:+ kind +:+ "/" +:+ name.

Definition key_image (digest : string) : NodeKey := "image/" +:+ digest.

Definition node_key (n : Node) : NodeKey :=
  match n with
  | NWorkload w => key_workload (w_namespace w) (w_kind w) (w_name w)
  | NIdentity i => "identity/" +:+ id_namespace i +:+ "/" +:+ id_name i
  | NSecret s => "secret/" +:+ sr_namespace s +:+ "/" +:+ sr_name s
  | NEndpoint e => "endpoint/" +:+ ep_address e
  | NImage im => key_image (im_digest im)
  | NHost h => "host/" +:+ h_name h
  | NCapability c =>
      "capability/" +:+ scope_label (c_scope c) +:+ "/" +:+ c_verb c +:+ "/" +:+ c_resource c
  end.

Definition kind_of (key : string) : string := default key (head (split slash key)).

Definition key_namespace (key : NodeKey) : option string :=
  match split slash key with
  | k :: rest =>
      if bool_decide (k ∈ ["workload"; "secret"; "identity"; "capability"]) then head rest else None
  | [] => None
  end.

Definition key_name (key : NodeKey) : option string :=
  let parts := split slash key in
  match parts with
  | k :: _ =>
      if bool_decide (k = "workload") && bool_decide (length parts = 4) then parts !! 3
      else if bool_decide (k ∈ ["secret"; "identity"]) && bool_decide (length parts = 3) then parts !! 2
      else None
  | [] => None
  end.

Definition short_of (key : string) : string :=
  match split_once slash key with
  | Some (_, rest) => rest
  | None => key
  end.

(** *** Image references

    [sigstore::registry::OciReference] parses references; its accessors are
    the fields of [OciReference] here. *)
Record OciReference := mkOci {
  oci_registry : string;
  oci_repository : string;
  oci_digest : option string;
  oci_tag : option string
}.

Definition canonical_image (parse : string -> option OciReference) (reference : string) : string :=
  match parse reference with
  | Some r =>
      let base := oci_registry r +:+ "/" +:+ oci_repository r in
      match oci_digest r, oci_tag r with
      | Some digest, _ => base +:+ "@" +:+ digest
      | None, Some tag => base +:+ ":" +:+ tag
      | None, None => base +:+ ":latest"
      end
  | None => reference
  end.

(** ** Edges *)

Inductive Protocol := Tcp | Udp.

(** A port is a [u16]. *)
Inductive Relation :=
  | Reaches (port : option N) (protocol : Protocol)
  | CanDo (verb resource : string)
  | CanRead
  | EscapesTo (via : string)
  | CanEgress (via : string)
  | RunsAs
  | RunsImage
  | ScheduledOn.

Record Edge := mkEdge { e_relation : Relation; e_provenance : Provenance }.

Definition is_structural (r : Relation) : bool :=
  match r with RunsAs | RunsImage | ScheduledOn => true | _ => false end.

Definition protocol_debug (p : Protocol) : string :=
  match p with Tcp => "Tcp" | Udp => "Udp" end.

Definition relation_label (r : Relation) : string :=
  match r with
  | Reaches (Some p) protocol => "reaches/" +:+ protocol_debug protocol +:+ "/" +:+ pretty p
  | Reaches None protocol => "reaches/" +:+ protocol_debug protocol
  | CanDo verb resource => "can-do/" +:+ verb +:+ "/" +:+ resource
  | CanRead => "can-read"
  | EscapesTo via => "escapes-to/" +:+ via
  | CanEgress via => "can-egress/" +:+ via
  | RunsAs => "runs-as"
  | RunsImage => "runs-image"
  | ScheduledOn => "scheduled-on"
  end.

Definition relation_technique (r : Relation) : option AttackRef :=
  match r with
  | CanRead => Some CREDENTIAL_ACCESS
  | CanDo verb resource =>
      if bool_decide (verb ∈ ["get"; "list"; "watch"]) && bool_decide (resource = "secrets")
      then Some CREDENTIAL_ACCESS
      else capability_technique verb resource
  | EscapesTo _ => Some ESCAPE_TO_HOST
  | CanEgress _ => Some EXFILTRATION
  | _ => None
  end.

(** ** The graph *)

Record SecurityGraph (G : Type) := mkGraph {
  inner : G;
  index : gmap NodeKey nat;
  reachability_incomplete : bool
}.
Arguments mkGraph {G} _ _ _.
Arguments inner {G} _.
Arguments index {G} _.
Arguments reachability_incomplete {G} _.

Section Graph.
Context {G : Type} `{SG : !StableGraph G Node Edge}.
Implicit Types sg : SecurityGraph G.

Definition graph_new : SecurityGraph G := mkGraph sg_new ∅ false.

Definition mark_reachability_incomplete sg : SecurityGraph G :=
  mkGraph (inner sg) (index sg) true.

Definition upsert_node sg (node : Node) : SecurityGraph G * nat :=
  let key := node_key node in
  match index sg !! key with
  | Some idx =>
      (mkGraph (sg_set_node (inner sg) idx node) (index sg) (reachability_incomplete sg), idx)
  | None =>
      let '(g', idx) := sg_add_node (inner sg) node in
      (mkGraph g' (<[key:=idx]> (index sg)) (reachability_incomplete sg), idx)
  end.

Definition ensure_node sg (node : Node) : SecurityGraph G * nat :=
  let key := node_key node in
  match index sg !! key with
  | Some idx => (sg, idx)
  | None =>
      let '(g', idx) := sg_add_node (inner sg) node in
      (mkGraph g' (<[key:=idx]> (index sg)) (reachability_incomplete sg), idx)
  end.

(** [graph[idx]] panics on a vacant index. *)
Definition update_node sg (key : NodeKey) (update : Node -> Node) : option (SecurityGraph G) :=
  match index sg !! key with
  | Some idx =>
      n ← sg_node_weight (inner sg) idx;
      Some (mkGraph (sg_set_node (inner sg) idx (update n)) (index sg) (reachability_incomplete sg))
  | None => Some sg
  end.

Definition index_of sg (key : NodeKey) : option nat := index sg !! key.

Definition add_edge sg (source target : nat) (edge : Edge) : option (SecurityGraph G) :=
  g' ← sg_add_edge (inner sg) source target edge;
  Some (mkGraph g' (index sg) (reachability_incomplete sg)).

Definition node sg (idx : nat) : option Node := sg_node_weight (inner sg) idx.

Definition key_of sg (idx : nat) : option NodeKey := node_key <$> sg_node_weight (inner sg) idx.

(** *** Evidence on an entry *)

Definition runs_image_targets sg (i : nat) : list Image :=
  omap (fun r => match e_relation (er_weight r), sg_node_weight (inner sg) (er_target r) with
                 | RunsImage, Some (NImage im) => Some im
                 | _, _ => None
                 end) (sg_edges (inner sg) i).

(** KEV or critical: the foothold bar. *)
Definition foothold_relevant (v : Vulnerability) : bool :=
  v_exploited_in_wild v || bool_decide (v_severity v = Critical).

Definition entry_evidence sg (entry_key : NodeKey) : list Vulnerability * list Behavior :=
  match index_of sg entry_key with
  | None => ([], [])
  | Some entry =>
      let behaviors :=
        match sg_node_weight (inner sg) entry with
        | Some (NWorkload w) => rs_behavior <$> w_runtime w
        | _ => []
        end in
      let cves :=
        concat ((fun im => List.filter foothold_relevant (im_vulnerabilities im)) <$>
                runs_image_targets sg entry) in
      (cves, behaviors)
  end.

Definition entry_findings sg (entry_key : NodeKey)
    : list ScanFinding * list ScanFinding * list ScanFinding :=
  match index_of sg entry_key with
  | None => ([], [], [])
  | Some entry =>
      match sg_node_weight (inner sg) entry with
      | Some (NWorkload w) =>
          (concat (im_exposed_secrets <$> runs_image_targets sg entry),
           w_misconfigs w, w_rbac_findings w)
      | _ => ([], [], [])
      end
  end.

(** ** Threat delta (graph/delta.rs) *)

Record GraphSnapshot := mkSnapshot { gs_nodes : gset string; gs_edges : gset string }.

Definition edge_signature (src label dst : string) : string :=
  src +:+ " -[" +:+ label +:+ "]-> " +:+ dst.

Definition snapshot_of sg : GraphSnapshot :=
  mkSnapshot
    (list_to_set (omap (key_of sg) (sg_node_indices (inner sg))))
    (list_to_set (omap (fun r =>
       src ← key_of sg (er_source r);
       dst ← key_of sg (er_target r);
       Some (edge_signature src (relation_label (e_relation (er_weight r))) dst))
       (sg_edge_references (inner sg)))).

Record ThreatDelta := mkDelta {
  added_nodes : list string;
  removed_nodes : list string;
  added_edges : list string;
  removed_edges : list string
}.

Definition diff (prev next : GraphSnapshot) : ThreatDelta :=
  let difference (a b : gset string) := bset_iter (a ∖ b) in
  mkDelta (difference (gs_nodes next) (gs_nodes prev)) (difference (gs_nodes prev) (gs_nodes next))
          (difference (gs_edges next) (gs_edges prev)) (difference (gs_edges prev) (gs_edges next)).

Definition delta_is_empty (d : ThreatDelta) : bool :=
  bool_decide (added_nodes d = []) && bool_decide (removed_nodes d = []) &&
  bool_decide (added_edges d = []) && bool_decide (removed_edges d = []).

(** ** Invariant: the index is exactly the keys of the stored nodes *)

Definition graph_ok sg : Prop :=
  forall k i, index sg !! k = Some i <->
    exists n, sg_node_weight (inner sg) i = Some n /\ node_key n = k.

(** Every way the engine changes the graph; [update_node]'s closure layers a
    fact onto a node and leaves its identity alone. *)
Inductive graph_step : SecurityGraph G -> SecurityGraph G -> Prop :=
  | step_mark sg : graph_step sg (mark_reachability_incomplete sg)
  | step_upsert sg n : graph_step sg (upsert_node sg n).1
  | step_ensure sg n : graph_step sg (ensure_node sg n).1
  | step_update sg sg' k f :
      (forall n, node_key (f n) = node_key n) ->
      update_node sg k f = Some sg' -> graph_step sg sg'
  | step_edge sg sg' a b e : add_edge sg a b e = Some sg' -> graph_step sg sg'.

Definition graph_reachable (sg : SecurityGraph G) : Prop := rtc graph_step graph_new sg.

End Graph.

(** The kind label each constructor's key starts with. *)
Definition node_kind (n : Node) : string :=
  match n with
  | NWorkload _ => "workload"
  | NIdentity _ => "identity"
  | NSecret _ => "secret"
  | NEndpoint _ => "endpoint"
  | NImage _ => "image"
  | NHost _ => "host"
  | NCapability _ => "capability"
  end.

(** ** Key lemmas *)

Lemma split_kind p rest : no_char slash p = true -> split slash (p +:+ "/" +:+ rest) = p :: split slash rest.
Proof. apply (split_app slash). Qed.

Lemma node_key_tail n : exists rest, node_key n = node_kind n +:+ "/" +:+ rest.
Proof. destruct n; simpl; unfold key_workload, key_image; eexists; reflexivity. Qed.

(** A key's kind segment is its node's constructor, whatever the names hold. *)
Lemma kind_of_node_key n : kind_of (node_key n) = node_kind n.
Proof.
  destruct (node_key_tail n) as [rest ->]. unfold kind_of.
  rewrite split_kind; [done|]. by destruct n.
Qed.

Lemma short_of_node_key n : exists rest, node_key n = node_kind n +:+ "/" +:+ rest /\ short_of (node_key n) = rest.
Proof.
  destruct (node_key_tail n) as [rest Hr]. exists rest. split; [done|]. rewrite Hr.
  unfold short_of. change (node_kind n +:+ "/" +:+ rest) with (node_kind n +:+ String slash rest).
  rewrite split_once_app; [done|]. by destruct n.
Qed.

Lemma key_workload_parts ns k n :
  no_char slash ns = true -> no_char slash k = true -> no_char slash n = true ->
  split slash (key_workload ns k n) = ["workload"; ns; k; n].
Proof.
  intros Hns Hk Hn. unfold key_workload.
  change ("workload/" +:+ ns +:+ "/" +:+ k +:+ "/" +:+ n)
    with ("workload" +:+ "/" +:+ (ns +:+ "/" +:+ (k +:+ "/" +:+ n))).
  by rewrite !split_kind, split_no_char.
Qed.

(** ** Store lemmas *)

Section GraphLemmas.
Context {G : Type} `{SGL : StableGraphLaws G Node Edge}.
Implicit Types sg : SecurityGraph G.

Lemma graph_ok_node sg i n :
  graph_ok sg -> sg_node_weight (inner sg) i = Some n -> index sg !! node_key n = Some i.
Proof. intros Hok Hn. apply Hok. eauto. Qed.

Lemma graph_ok_index sg k i :
  graph_ok sg -> index sg !! k = Some i -> key_of sg i = Some k.
Proof. intros Hok Hi. apply Hok in Hi as (n & Hn & <-). unfold key_of. by rewrite Hn. Qed.

Lemma graph_ok_key_of sg i k : graph_ok sg -> key_of sg i = Some k -> index sg !! k = Some i.
Proof. unfold key_of. intros Hok (n & Hn & ->)%fmap_Some. by apply graph_ok_node. Qed.

(** Nodes of an intact graph are identified by their keys. *)
Lemma graph_ok_inj sg i j k : graph_ok sg -> key_of sg i = Some k -> key_of sg j = Some k -> i = j.
Proof.
  intros Hok Hi Hj. pose proof (graph_ok_key_of _ _ _ Hok Hi).
  pose proof (graph_ok_key_of _ _ _ Hok Hj). congruence.
Qed.

Lemma graph_new_ok : graph_ok (G:=G) graph_new.
Proof.
  intros k i. simpl. rewrite lookup_empty. split; [done|]. intros (n & Hn & _).
  by rewrite sg_new_node in Hn.
Qed.

(** Storing [node] at the index of its key. *)
Lemma set_node_ok sg n i b :
  graph_ok sg -> index sg !! node_key n = Some i ->
  graph_ok (mkGraph (sg_set_node (inner sg) i n) (index sg) b).
Proof.
  intros Hok Hi k j. simpl. pose proof Hi as (m & Hm & Hmk)%Hok.
  rewrite sg_set_node_weight by eauto. case_decide as Hj.
  - subst j. split.
    + intros Hk. exists n. split; [done|]. apply Hok in Hk as (m' & ? & <-). congruence.
    + intros (n' & [= <-] & <-). done.
  - rewrite (Hok k j). done.
Qed.

(** Appending a node whose key is new. *)
Lemma add_node_ok sg n b :
  graph_ok sg -> index sg !! node_key n = None ->
  graph_ok (mkGraph (sg_add_node (inner sg) n).1
              (<[node_key n:=(sg_add_node (inner sg) n).2]> (index sg)) b).
Proof.
  intros Hok Hi k j. simpl. rewrite sg_add_node_weight.
  pose proof (sg_add_node_fresh (inner sg) n) as Hfresh.
  set (idx := (sg_add_node (inner sg) n).2) in *.
  rewrite lookup_insert. case_decide as Hk.
  - subst k. case_decide as Hj; [naive_solver|]. split; [naive_solver|].
    intros (m & Hm & Hmk). apply graph_ok_node in Hm; [|done]. congruence.
  - case_decide as Hj.
    + subst j. split; [|naive_solver]. intros (m & Hm & _)%Hok. congruence.
    + apply Hok.
Qed.

Lemma upsert_node_ok sg n : graph_ok sg -> graph_ok (upsert_node sg n).1.
Proof.
  intros Hok. unfold upsert_node. destruct (index sg !! node_key n) as [i|] eqn:Hi.
  - by apply set_node_ok.
  - pose proof (add_node_ok sg n (reachability_incomplete sg) Hok Hi) as H.
    by destruct (sg_add_node (inner sg) n).
Qed.

Lemma ensure_node_ok sg n : graph_ok sg -> graph_ok (ensure_node sg n).1.
Proof.
  intros Hok. unfold ensure_node. destruct (index sg !! node_key n) as [i|] eqn:Hi; [done|].
  pose proof (add_node_ok sg n (reachability_incomplete sg) Hok Hi) as H.
  by destruct (sg_add_node (inner sg) n).
Qed.

Lemma update_node_ok sg sg' k f :
  graph_ok sg -> (forall n, node_key (f n) = node_key n) ->
  update_node sg k f = Some sg' -> graph_ok sg'.
Proof.
  intros Hok Hf. unfold update_node.
  destruct (index sg !! k) as [i|] eqn:Hi; [|naive_solver].
  intros (n & Hn & [= <-])%bind_Some. apply set_node_ok; [done|].
  rewrite Hf. by apply graph_ok_node.
Qed.

Lemma add_edge_ok sg sg' a b e : graph_ok sg -> add_edge sg a b e = Some sg' -> graph_ok sg'.
Proof.
  intros Hok (g' & Hg & [= <-])%bind_Some k i. simpl.
  destruct (decide (is_Some (sg_node_weight (inner sg) a) /\ is_Some (sg_node_weight (inner sg) b)))
    as [[Ha Hb]|Hn].
  - destruct (sg_add_edge_some (inner sg) a b e Ha Hb) as (g'' & ? & Hg'' & Hw & _).
    rewrite Hg'' in Hg. injection Hg as <-. rewrite Hw. apply Hok.
  - rewrite sg_add_edge_panic in Hg; [done|].
    rewrite !eq_None_not_Some.
    destruct (decide (is_Some (sg_node_weight (inner sg) a))); tauto.
Qed.

Lemma graph_step_ok sg sg' : graph_step sg sg' -> graph_ok sg -> graph_ok sg'.
Proof.
  destruct 1; eauto using upsert_node_ok, ensure_node_ok, update_node_ok, add_edge_ok.
Qed.

(** What is stored where after an upsert. *)
Lemma upsert_node_node sg n :
  graph_ok sg ->
  node (upsert_node sg n).1 (upsert_node sg n).2 = Some n /\
  forall j, j <> (upsert_node sg n).2 -> node (upsert_node sg n).1 j = node sg j.
Proof.
  intros Hok. unfold upsert_node, node. destruct (index sg !! node_key n) as [i|] eqn:Hi; simpl.
  - apply Hok in Hi as (m & Hm & _). split.
    + rewrite sg_set_node_weight by eauto. by case_decide.
    + intros j Hj. rewrite sg_set_node_weight by eauto. by case_decide.
  - destruct (sg_add_node (inner sg) n) as [g' idx] eqn:E; simpl.
    pose proof (sg_add_node_weight (inner sg) n) as Hw. rewrite E in Hw. simpl in Hw.
    split; [rewrite Hw; by case_decide|]. intros j Hj. rewrite Hw. by case_decide.
Qed.

End GraphLemmas.

(** ** Properties of the store *)

Section GraphProperties.
Context {G : Type} `{SGL : StableGraphLaws G Node Edge}.
Implicit Types sg : SecurityGraph G.

Lemma rtc_graph_ok sg : graph_reachable sg -> graph_ok sg.
Proof.
  unfold graph_reachable. intros H. pose proof graph_new_ok as H0. revert H0.
  induction H as [|x y z Hstep _ IH]; intros H0; [done|]. by eapply IH, graph_step_ok.
Qed.

(** However the engine folds observations into the graph, the index stays
    exactly the keys of the stored nodes, so two observations with one key are
    one node and every key resolves to the node that carries it. *)
Theorem reachable_graph_ok sg : graph_reachable sg -> graph_ok sg.
Proof. apply rtc_graph_ok. Qed.

(** Layering a fact never panics, and an observation folded twice lands on the
    same node. *)
Lemma update_node_total sg k f : graph_ok sg -> is_Some (update_node sg k f).
Proof.
  intros Hok. unfold update_node. destruct (index sg !! k) as [i|] eqn:Hi; [|eauto].
  apply Hok in Hi as (n & -> & _). simpl. eauto.
Qed.

(** Upserting stores the observation under its key, keeps every other
    node, and a second observation with the same key lands on the same index
    with the same edges; [ensure_node] then leaves what is stored untouched. *)
Theorem upsert_ensure_identity sg n m :
  graph_ok sg -> node_key m = node_key n ->
  let '(sg1, i) := upsert_node sg n in
  let '(sg2, j) := upsert_node sg1 m in
  j = i /\ node sg2 i = Some m /\
  (forall l, l <> i -> node sg2 l = node sg l) /\
  sg_edge_references (inner sg2) = sg_edge_references (inner sg) /\
  ensure_node sg1 m = (sg1, i).
Proof.
  intros Hok Hk.
  pose proof (upsert_node_node sg n Hok) as [H1 H1'].
  pose proof (upsert_node_ok sg n Hok) as Hok1.
  assert (sg_edge_references (inner (upsert_node sg n).1) = sg_edge_references (inner sg)) as Hrefs.
  { unfold upsert_node. destruct (index sg !! node_key n) as [i|] eqn:Hi; simpl.
    - apply Hok in Hi as (m' & ? & ?). by apply sg_set_node_refs.
    - pose proof (sg_add_node_refs (inner sg) n). by destruct (sg_add_node (inner sg) n). }
  destruct (upsert_node sg n) as [sg1 i]; simpl in *.
  assert (index sg1 !! node_key m = Some i) as Hi.
  { rewrite Hk. by apply graph_ok_node. }
  unfold upsert_node at 1. unfold ensure_node. rewrite Hi. simpl.
  unfold node in *. split; [done|]. split; [|split; [|split]].
  - simpl. rewrite sg_set_node_weight by eauto. by case_decide.
  - intros l Hl. simpl. rewrite sg_set_node_weight by eauto. case_decide; [done|]. by apply H1'.
  - simpl. rewrite sg_set_node_refs by eauto. done.
  - done.
Qed.

End GraphProperties.

(** The threat delta is exact: removing what it removed and adding what it
    added turns the previous snapshot into the next one, and it is empty just
    when nothing changed. *)
Theorem diff_exact prev next :
  gs_nodes next = (gs_nodes prev ∖ list_to_set (removed_nodes (diff prev next))) ∪
                  list_to_set (added_nodes (diff prev next)) /\
  gs_edges next = (gs_edges prev ∖ list_to_set (removed_edges (diff prev next))) ∪
                  list_to_set (added_edges (diff prev next)) /\
  (delta_is_empty (diff prev next) = true <-> prev = next).
Proof.
  assert (forall s : gset string, list_to_set (bset_iter s) = s) as Hs.
  { intros s. apply set_eq. intros x. by rewrite elem_of_list_to_set, bset_iter_elem. }
  assert (forall a b : gset string, b = (a ∖ (a ∖ b)) ∪ (b ∖ a)) as Hd.
  { intros a b. apply set_eq. intros x. destruct (decide (x ∈ a)), (decide (x ∈ b)); set_solver. }
  assert (forall s : gset string, bset_iter s = [] <-> s = ∅) as He.
  { intros s. unfold bset_iter. rewrite sort_by_nil. rewrite elements_empty_iff. by rewrite leibniz_equiv_iff. }
  unfold diff, delta_is_empty. simpl. rewrite !Hs.
  split; [apply Hd|]. split; [apply Hd|].
  rewrite !andb_true_iff, !bool_decide_eq_true, !He.
  destruct prev as [n1 e1], next as [n2 e2]. simpl. split.
  - intros [[[H1 H2] H3] H4]. f_equal; apply set_eq; intros x; destruct (decide (x ∈ n1)), (decide (x ∈ n2)), (decide (x ∈ e1)), (decide (x ∈ e2)); set_solver.
  - intros [= -> ->]. set_solver.
Qed.

(** A workload key is parsed back into the kind, namespace and name it was
    formatted from (Kubernetes names hold no slash). *)
Theorem workload_key_roundtrip ns k n :
  no_char slash ns = true -> no_char slash k = true -> no_char slash n = true ->
  kind_of (key_workload ns k n) = "workload" /\
  key_namespace (key_workload ns k n) = Some ns /\
  key_name (key_workload ns k n) = Some n /\
  short_of (key_workload ns k n) = ns +:+ "/" +:+ k +:+ "/" +:+ n.
Proof.
  intros Hns Hk Hn. unfold kind_of, key_namespace, key_name.
  rewrite key_workload_parts by done. by repeat split.
Qed.

Lemma workload_key_roundtrip_witness :
  kind_of (key_workload "app" "Pod" "web") = "workload" /\
  key_namespace (key_workload "app" "Pod" "web") = Some "app" /\
  key_name (key_workload "app" "Pod" "web") = Some "web" /\
  short_of (key_workload "app" "Pod" "web") = "app" +:+ "/" +:+ "Pod" +:+ "/" +:+ "web".
Proof. apply (workload_key_roundtrip "app" "Pod" "web"); reflexivity. Defined.

(** ** Concrete clusters *)

Definition cluster := SecurityGraph (list_graph Node Edge).

(** Observe the nodes, then relate them by the positions they got. *)
Definition observe_all (sg : cluster) (nodes : list Node) : cluster :=
  foldl (fun sg n => (upsert_node sg n).1) sg nodes.

Definition relate_all (sg : cluster) (edges : list (nat * nat * Relation)) : option cluster :=
  foldl (fun acc e => acc ≫= fun sg => add_edge sg e.1.1 e.1.2 (mkEdge e.2 (mkProv "test" 0)))
    (Some sg) edges.

Definition build (nodes : list Node) (edges : list (nat * nat * Relation)) : option cluster :=
  relate_all (observe_all graph_new nodes) edges.

Lemma observe_all_steps sg nodes : rtc graph_step sg (observe_all sg nodes).
Proof.
  revert sg. induction nodes as [|n nodes IH]; intros sg; [apply rtc_refl|].
  eapply rtc_l; [apply (step_upsert sg n)|]. apply IH.
Qed.

Lemma relate_all_steps sg sg' edges : relate_all sg edges = Some sg' -> rtc graph_step sg sg'.
Proof.
  revert sg'. induction edges as [|e edges IH] using rev_ind; intros sg'; [intros [= <-]; apply rtc_refl|].
  unfold relate_all. rewrite foldl_app. intros (g & Hg & He)%bind_Some.
  eapply rtc_r; [by apply IH|]. by eapply step_edge.
Qed.

Lemma build_reachable nodes edges sg : build nodes edges = Some sg -> graph_reachable sg.
Proof. intros H. unfold graph_reachable. etrans; [apply observe_all_steps|by eapply relate_all_steps]. Qed.

(** A front-door workload that can assume two identities, both of which read
    one secret. *)
Definition sample_workload (name : string) (exposure : Exposure) : Workload :=
  mkWorkload "app" name "Pod" ∅ false exposure [] false [] [].

Definition sample_nodes : list Node :=
  [NWorkload (sample_workload "web" Internet);
   NIdentity (mkIdentity "app" "a");
   NIdentity (mkIdentity "app" "b");
   NSecret (mkSecretRef "app" "db")].

Definition two_paths : cluster :=
  default graph_new (build sample_nodes [(0, 1, RunsAs); (0, 2, RunsAs); (1, 3, CanRead); (2, 3, CanRead)]).

(** The same cluster with only one way to the secret. *)
Definition one_path : cluster :=
  default graph_new (build sample_nodes [(0, 1, RunsAs); (1, 3, CanRead)]).

Lemma two_paths_ok : graph_reachable two_paths.
Proof.
  apply (build_reachable sample_nodes [(0, 1, RunsAs); (0, 2, RunsAs); (1, 3, CanRead); (2, 3, CanRead)]).
  vm_compute. reflexivity.
Qed.

Lemma reachable_graph_ok_witness : graph_reachable two_paths /\ graph_ok two_paths.
Proof. split; [apply two_paths_ok|apply (reachable_graph_ok two_paths), two_paths_ok]. Defined.

Lemma upsert_ensure_identity_witness :
  let n := NWorkload (sample_workload "web" Internet) in
  let m := NWorkload (sample_workload "web" Internal) in
  let '(sg1, i) := upsert_node (graph_new : cluster) n in
  let '(sg2, j) := upsert_node sg1 m in
  j = i /\ node sg2 i = Some m /\
  (forall l, l <> i -> node sg2 l = node (graph_new : cluster) l) /\
  sg_edge_references (inner sg2) = sg_edge_references (inner (graph_new : cluster)) /\
  ensure_node sg1 m = (sg1, i).
Proof.
  exact (upsert_ensure_identity (graph_new : cluster) (NWorkload (sample_workload "web" Internet))
           (NWorkload (sample_workload "web" Internal)) graph_new_ok eq_refl).
Defined.
