(* ===== verification/Snapshot.v ===== *)
(** * What a pass observes

    The Kubernetes objects the adapters read, with the fields they read, as
    k8s-openapi types them, and [Snapshot] (observe/mod.rs) which gathers them.
    The Linkerd inputs are the typed form of observe/linkerd.rs. *)

From S2P Require Import Prelude Text Attack Behavior Graph.

Record ObjectMeta := mkMeta {
  om_name : option string;
  om_namespace : option string;
  om_labels : option (gmap string string);
  om_annotations : option (gmap string string);
  om_uid : option string
}.

(** ** Pods *)

Record SecurityContext := mkSecCtx { sx_privileged : option bool; sx_capabilities_add : option (list string) }.

(** [ev_secret]: the name of [valueFrom.secretKeyRef]. *)
Record Container := mkContainer {
  ct_name : string;
  ct_image : option string;
  ct_env : option (list (option string));
  ct_env_from : option (list (option string));
  ct_security_context : option SecurityContext;
  ct_volume_mounts : option (list (string * string))
}.

(** A volume: the secret it mounts (its name is optional), whether it is a
    claim, the host path it exposes, and the sources of a projected volume (each
    naming the secret it projects, if it is one). *)
Record KVolume := mkKVolume {
  vo_name : string;
  vo_secret : option (option string);
  vo_persistent_volume_claim : bool;
  vo_host_path : option string;
  vo_projected : option (option (list (option string)))
}.

Record PodSpec := mkPodSpec {
  sp_containers : list Container;
  sp_init_containers : option (list Container);
  sp_service_account_name : option string;
  sp_volumes : option (list KVolume);
  sp_node_name : option string;
  sp_host_pid : option bool;
  sp_host_ipc : option bool
}.

Record PodStatus := mkPodStatus { st_pod_ip : option string; st_pod_ips : option (list string) }.

Record Pod := mkPod { pod_meta : ObjectMeta; pod_spec : option PodSpec; pod_status : option PodStatus }.

(** ** Network policies *)

Record Requirement := mkRequirement { rq_key : string; rq_operator : string; rq_values : option (list string) }.

Record LabelSelector := mkSelector {
  ls_match_labels : option (gmap string string);
  ls_match_expressions : option (list Requirement)
}.

(** [Int] is an [i32]. *)
Inductive IntOrString := Int (n : Z) | Str (s : string).

Record NetworkPolicyPort := mkNpPort { np_protocol : option string; np_port : option IntOrString }.

(** [peer_ip_block]: the CIDR of the block. *)
Record NetworkPolicyPeer := mkPeer {
  peer_pod_selector : option LabelSelector;
  peer_namespace_selector : option LabelSelector;
  peer_ip_block : option string
}.

Record IngressRule := mkIngressRule { ir_from : option (list NetworkPolicyPeer); ir_ports : option (list NetworkPolicyPort) }.

Record EgressRule := mkEgressRule { er_to : option (list NetworkPolicyPeer) }.

Record NetworkPolicySpec := mkNpSpec {
  nps_pod_selector : option LabelSelector;
  nps_ingress : option (list IngressRule);
  nps_egress : option (list EgressRule);
  nps_policy_types : option (list string)
}.

Record NetworkPolicy := mkNetpol { npl_meta : ObjectMeta; npl_spec : option NetworkPolicySpec }.

(** ** Services and ingresses *)

(** An address a load balancer publishes. *)
Record LbIngress := mkLb { lb_ip : option string; lb_hostname : option string }.

Record ServicePort := mkSvcPort { svp_port : Z }.

Record ServiceSpec := mkSvcSpec {
  svs_selector : option (gmap string string);
  svs_type : option string;
  svs_external_ips : option (list string);
  svs_cluster_ip : option string;
  svs_cluster_ips : option (list string)
}.

(** [svc_load_balancer]: [status.loadBalancer.ingress]. *)
Record Service := mkService { svc_meta : ObjectMeta; svc_spec : option ServiceSpec; svc_load_balancer : option (list LbIngress) }.

(** A backend names a service, or is another resource. *)
Record IngressHttp := mkHttp { hp_backends : list (option string) }.

Record IngressSpec := mkIngressSpec {
  is_class_name : option string;
  is_default_backend : option (option string);
  is_rules : option (list (option IngressHttp))
}.

Record Ingress := mkIngress { ing_meta : ObjectMeta; ing_spec : option IngressSpec; ing_load_balancer : option (list LbIngress) }.

(** [icl_controller]: [spec.controller]. *)
Record IngressClass := mkIngressClass { icl_meta : ObjectMeta; icl_controller : option string }.

(** ** RBAC *)

Record PolicyRule := mkRule {
  pr_api_groups : option (list string);
  pr_resources : option (list string);
  pr_resource_names : option (list string);
  pr_verbs : list string
}.

Record RoleRef := mkRoleRef { rr_kind : string; rr_name : string }.

Record Subject := mkSubject { sj_kind : string; sj_name : string; sj_namespace : option string }.

(** A Role or a ClusterRole. *)
Record Role := mkRole { ro_meta : ObjectMeta; ro_rules : option (list PolicyRule) }.

(** A RoleBinding or a ClusterRoleBinding. *)
Record RoleBinding := mkBinding { rb_meta : ObjectMeta; rb_subjects : option (list Subject); rb_role_ref : RoleRef }.

Record SecretMeta := mkSecretMeta { sm_namespace : string; sm_name : string }.

(** ** Linkerd *)

Record LinkerdServer := mkServer {
  lsv_namespace : string; lsv_name : string; lsv_pod_selector : LabelSelector; lsv_port : option N
}.

Record ServiceAccountRef := mkSaRef { sa_namespace : string; sa_name : string }.

Inductive AuthClient := MeshTls (name : string) | AuthServiceAccount (namespace name : string).

Record LinkerdAuthzPolicy := mkAuthz { la_namespace : string; la_target_server : option string; la_clients : list AuthClient }.

Record LinkerdMeshTlsAuth := mkMtls { lm_namespace : string; lm_name : string; lm_identities : list ServiceAccountRef }.

(** ** Scanner and sensor inputs *)

Record ImageVulnerabilities := mkImageVulns { iv_image : string; iv_vulnerabilities : list Vulnerability }.

Record ImageScanFindings := mkImageScan { isf_image : string; isf_findings : list ScanFinding }.

Record WorkloadRef := mkWorkloadRef { wr_namespace : string; wr_kind : string; wr_name : string }.

Record WorkloadFindings := mkWorkloadFindings { wf_resource : WorkloadRef; wf_findings : list ScanFinding }.

Record RbacFindings := mkRbacFindings { rf_namespace : string; rf_findings : list ScanFinding }.

(** An allowed API secret read of the audit log (observe/audit.rs). *)
Record AuditSecretRead := mkAuditRead {
  asr_sa_namespace : string; asr_sa_name : string;
  asr_secret_namespace : option string; asr_secret_name : option string; asr_verb : string
}.

Definition secret_display (r : AuditSecretRead) : string :=
  match asr_secret_namespace r, asr_secret_name r with
  | Some ns, Some name => ns +:+ "/" +:+ name
  | Some ns, None => ns +:+ "/*"
  | None, Some name => name
  | None, None => "*"
  end.

(** ** The snapshot *)

Record Snapshot := mkClusterSnapshot {
  sn_pods : list Pod;
  sn_network_policies : list NetworkPolicy;
  sn_services : list Service;
  sn_secrets : list SecretMeta;
  sn_roles : list Role;
  sn_role_bindings : list RoleBinding;
  sn_cluster_roles : list Role;
  sn_cluster_role_bindings : list RoleBinding;
  sn_ingresses : list Ingress;
  sn_ingress_classes : list IngressClass;
  sn_linkerd_servers : list LinkerdServer;
  sn_linkerd_authz_policies : list LinkerdAuthzPolicy;
  sn_linkerd_mtls_auths : list LinkerdMeshTlsAuth;
  sn_image_vulns : list ImageVulnerabilities;
  sn_image_secrets : list ImageScanFindings;
  sn_config_audits : list WorkloadFindings;
  sn_rbac_assessments : list RbacFindings;
  sn_runtime_events : list RuntimeObservation;
  sn_audit_secret_reads : list AuditSecretRead
}.

(** ** Readings the adapters share (observe/adapter/mod.rs) *)

Definition pod_namespace (p : Pod) : string := default "default" (om_namespace (pod_meta p)).

Definition pod_labels (p : Pod) : gmap string string := default ∅ (om_labels (pod_meta p)).

(** Every pair of [want] is in [labels]. *)
Definition labels_match (want labels : gmap string string) : bool :=
  forallb (fun kv => bool_decide (labels !! kv.1 = Some kv.2)) (btree_iter want).

Definition selector_matches (s : LabelSelector) (labels : gmap string string) : bool :=
  match ls_match_labels s with Some want => labels_match want labels | None => true end.

Definition has_match_expressions (s : LabelSelector) : bool :=
  match ls_match_expressions s with Some e => negb (bool_decide (length e = 0)) | None => false end.

Definition selector_matches_opt (s : option LabelSelector) (labels : gmap string string) : bool :=
  match s with Some s => selector_matches s labels | None => true end.

(** [Option::iter().flatten()] over an optional list. *)
Definition flat {A} (o : option (list A)) : list A := default [] o.

(** The containers of a pod, then its init containers. *)
Definition all_containers (s : PodSpec) : list Container := sp_containers s ++ flat (sp_init_containers s).

Lemma labels_match_spec want labels : labels_match want labels = true <-> want ⊆ labels.
Proof.
  unfold labels_match. rewrite forallb_elem, map_subseteq_spec. split.
  - intros H k v Hk. by apply btree_iter_elem in Hk; apply H in Hk; bools.
  - intros H [k v] Hk%btree_iter_elem%H. by apply bool_decide_eq_true.
Qed.
