(* ===== verification/Adapters.v ===== *)
(** * The adapters: from cluster objects to the graph

    engine/src/engine/observe/adapter: mod.rs, workload.rs, secret_mount.rs,
    network.rs, linkerd.rs, rbac.rs, escape.rs, placement.rs, egress.rs,
    exposure.rs and ingress_exposure.rs. Each contribution is a function on the
    graph that may panic. The image parser, the clock (read once per edge) and
    the order of a [HashSet] are arguments. *)

From S2P Require Import Prelude Text ImageRef PetGraph Attack Behavior Graph Snapshot.

#[local] Arguments String.append : simpl nomatch.

Definition MESH_PROXY : string := "linkerd-proxy".
Definition EXPOSURE_ANNOTATION : string := "protector.jeffl.es/exposure".
Definition EGRESS_ANNOTATION : string := "protector.jeffl.es/egress".
Definition DEFAULT_INGRESS_CLASS_ANNOTATION : string := "ingressclass.kubernetes.io/is-default-class".
Definition ESCAPE_CAPABILITIES : list string := ["SYS_ADMIN"; "SYS_MODULE"; "SYS_PTRACE"; "DAC_READ_SEARCH"].

Definition workload_node (namespace name : string) : Node :=
  NWorkload (mkWorkload namespace name "Pod" ∅ false Internal [] false [] []).

(** ** What each adapter reads in an object *)

Definition is_meshed (s : PodSpec) : bool :=
  existsb (fun c => bool_decide (ct_name c = MESH_PROXY)) (sp_containers s) ||
  match sp_init_containers s with Some ics => existsb (fun c => bool_decide (ct_name c = MESH_PROXY)) ics | None => false end.

Definition is_persistent (s : PodSpec) : bool := existsb vo_persistent_volume_claim (flat (sp_volumes s)).

Definition workload_of (pod : Pod) (name : string) : Workload :=
  mkWorkload (pod_namespace pod) name "Pod" (pod_labels pod)
    (match pod_spec pod with Some s => is_meshed s | None => false end) Internal []
    (match pod_spec pod with Some s => is_persistent s | None => false end) [] [].

Definition service_account (pod : Pod) : string := default "default" (pod_spec pod ≫= sp_service_account_name).

Definition mounted_secrets (pod : Pod) : list string :=
  match pod_spec pod with
  | None => []
  | Some s =>
      sort_dedup id
        (omap (fun v => vo_secret v ≫= id) (flat (sp_volumes s)) ++
         (all_containers s ≫= fun c => omap id (flat (ct_env c)) ++ omap id (flat (ct_env_from c))))
  end.

Definition capability_via (host_pid : bool) (cap : string) : option string :=
  if bool_decide (cap = "SYS_PTRACE") && negb host_pid then None
  else if bool_decide (cap ∈ ESCAPE_CAPABILITIES) then Some ("cap:" +:+ cap) else None.

Definition container_vias (host_pid : bool) (c : Container) : list string :=
  match ct_security_context c with
  | None => []
  | Some sc =>
      (if bool_decide (sx_privileged sc = Some true) then ["privileged"] else []) ++
      omap (capability_via host_pid) (flat (sx_capabilities_add sc))
  end.

Definition path_via (path : string) : string :=
  if str_contains "docker.sock" path || str_contains "containerd.sock" path || str_contains "crio.sock" path
  then "runtime-socket" else "hostPath".

Definition escape_vias (pod : Pod) : list string :=
  match pod_spec pod with
  | None => []
  | Some s =>
      let host_pid := bool_decide (sp_host_pid s = Some true) in
      sort_dedup id
        ((if host_pid then ["hostPID"] else []) ++
         (if bool_decide (sp_host_ipc s = Some true) then ["hostIPC"] else []) ++
         (all_containers s ≫= container_vias host_pid) ++
         omap (fun v => path_via <$> vo_host_path v) (flat (sp_volumes s)))
  end.

(** *** Network policies *)

Definition ingress_active (p : NetworkPolicy) : bool :=
  match npl_spec p with
  | None => false
  | Some spec =>
      match nps_policy_types spec with
      | Some types => bool_decide ("Ingress" ∈ types)
      | None => bool_decide (is_Some (nps_ingress spec))
      end
  end.

(** [u16::try_from] of an [i32]. *)
Definition u16_of (n : Z) : option N := if (0 <=? n)%Z && (n <? 65536)%Z then Some (Z.to_N n) else None.

Definition ports (rule_ports : option (list NetworkPolicyPort)) : list (option N * Protocol) :=
  match rule_ports with
  | None | Some [] => [(None, Tcp)]
  | Some ps =>
      (fun p => (match np_port p with Some (Int n) => u16_of n | _ => None end,
                 if bool_decide (np_protocol p = Some "UDP") then Udp else Tcp)) <$> ps
  end.

Definition declares_egress (annotations : option (gmap string string)) : bool :=
  match annotations ≫= (fun a => a !! EGRESS_ANNOTATION) with
  | Some v => eq_ignore_ascii_case v "internet" | None => false end.

Definition is_open_cidr (cidr : string) : bool := bool_decide (cidr = "0.0.0.0/0") || bool_decide (cidr = "::/0").

Definition open_egress (sn : Snapshot) (ns : string) (labels : gmap string string) : bool :=
  existsb (fun policy =>
    if negb (bool_decide (om_namespace (npl_meta policy) = Some ns)) then false
    else match npl_spec policy with
    | None => false
    | Some spec =>
        let egress_active := match nps_policy_types spec with
          | Some types => bool_decide ("Egress" ∈ types) | None => bool_decide (is_Some (nps_egress spec)) end in
        if negb egress_active || negb (selector_matches_opt (nps_pod_selector spec) labels) then false
        else existsb (fun rule => existsb (fun peer => match peer_ip_block peer with Some b => is_open_cidr b | None => false end)
                        (flat (er_to rule))) (flat (nps_egress spec))
    end) (sn_network_policies sn).

Definition egress_via (sn : Snapshot) (pod : Pod) : option string :=
  if declares_egress (om_annotations (pod_meta pod)) then Some "annotation"
  else if open_egress sn (pod_namespace pod) (pod_labels pod) then Some "egress-0.0.0.0/0" else None.

(** *** RBAC *)

Definition reads_secrets (rule : PolicyRule) : bool :=
  match pr_api_groups rule with Some gs => existsb (fun g => bool_decide (g = "") || bool_decide (g = "*")) gs | None => false end &&
  match pr_resources rule with Some rs => existsb (fun r => bool_decide (r = "secrets") || bool_decide (r = "*")) rs | None => false end &&
  existsb (fun v => bool_decide (v ∈ ["get"; "list"; "watch"; "*"])) (pr_verbs rule).

Definition names_secret (rule : PolicyRule) (name : string) : bool :=
  match pr_resource_names rule with
  | Some (n :: names) => bool_decide (name ∈ n :: names)
  | _ => true
  end.

Definition cluster_rules (name : string) (sn : Snapshot) : list PolicyRule :=
  flat (List.find (fun cr => bool_decide (om_name (ro_meta cr) = Some name)) (sn_cluster_roles sn) ≫= ro_rules).

Definition rules_for (ref : RoleRef) (namespace : string) (sn : Snapshot) : list PolicyRule :=
  if bool_decide (rr_kind ref = "Role") then
    flat (List.find (fun r => bool_decide (om_name (ro_meta r) = Some (rr_name ref)) &&
                              bool_decide (om_namespace (ro_meta r) = Some namespace)) (sn_roles sn) ≫= ro_rules)
  else if bool_decide (rr_kind ref = "ClusterRole") then cluster_rules (rr_name ref) sn
  else [].

Definition service_accounts (subjects : option (list Subject)) (default_ns : string) : list (string * string) :=
  (fun s => (default default_ns (sj_namespace s), sj_name s)) <$>
  List.filter (fun s => bool_decide (sj_kind s = "ServiceAccount")) (flat subjects).

Definition grants (rule : PolicyRule) (cap : DangerousCapability) : bool :=
  match pr_api_groups rule with Some gs => existsb (fun g => bool_decide (g = dc_group cap) || bool_decide (g = "*")) gs | None => false end &&
  (bool_decide (dc_resource cap = "*") ||
   match pr_resources rule with Some rs => existsb (fun r => bool_decide (r = dc_resource cap) || bool_decide (r = "*")) rs | None => false end) &&
  existsb (fun v => bool_decide (v = dc_verb cap) || bool_decide (v = "*")) (pr_verbs rule).

Abbreviation SecretGrant := (string * string * string * string)%type.
Abbreviation CapGrant := (string * string * option string * string * string)%type.

Definition scope_of (ns : option string) : Scope := match ns with Some ns => ScopeNamespace ns | None => ScopeCluster end.

(** The secrets in reach of a rule: of its namespace, or of every one. *)
Definition secret_grants_of (sn : Snapshot) (ns : option string) (subjects : list (string * string)) (rule : PolicyRule) : list SecretGrant :=
  if reads_secrets rule then
    List.filter (fun s => match ns with Some ns => bool_decide (sm_namespace s = ns) | None => true end && names_secret rule (sm_name s))
      (sn_secrets sn) ≫= fun s => (fun id => (id.1, id.2, sm_namespace s, sm_name s)) <$> subjects
  else [].

(** The scope of a grant: its namespace, or the cluster. *)
Definition cap_grants_of (ns : option string) (subjects : list (string * string)) (rule : PolicyRule) : list CapGrant :=
  List.filter (grants rule) CAPABILITY_CATALOG ≫= fun cap =>
    (fun id => (id.1, id.2, ns, dc_verb cap, dc_resource cap)) <$> subjects.

(** Each binding with its subjects, its scope and the rules it carries. *)
Definition bound_rules (sn : Snapshot) : list (list (string * string) * option string * PolicyRule) :=
  (sn_role_bindings sn ≫= fun rb =>
     let ns := default "default" (om_namespace (rb_meta rb)) in
     let subjects := service_accounts (rb_subjects rb) ns in
     if bool_decide (subjects = []) then []
     else (fun rule => (subjects, Some ns, rule)) <$> rules_for (rb_role_ref rb) ns sn) ++
  (sn_cluster_role_bindings sn ≫= fun crb =>
     let subjects := service_accounts (rb_subjects crb) "default" in
     if bool_decide (subjects = []) then []
     else (fun rule => (subjects, None, rule)) <$> cluster_rules (rr_name (rb_role_ref crb)) sn).

Definition secret_grants (sn : Snapshot) : gset SecretGrant :=
  list_to_set (bound_rules sn ≫= fun b => secret_grants_of sn b.1.2 b.1.1 b.2).

Definition cap_grants (sn : Snapshot) : gset CapGrant :=
  list_to_set (bound_rules sn ≫= fun b => cap_grants_of b.1.2 b.1.1 b.2).

(** *** Exposure *)

Definition declares_internet (annotations : option (gmap string string)) : bool :=
  match annotations ≫= (fun a => a !! EXPOSURE_ANNOTATION) with
  | Some v => eq_ignore_ascii_case v "internet" | None => false end.

Definition exposure_rank (e : Exposure) : nat := match e with Internal => 0 | ClusterExposed => 1 | Internet => 2 end.

Definition service_exposure (s : Service) : Exposure :=
  if declares_internet (om_annotations (svc_meta s)) then Internet
  else
    let kind := default "ClusterIP" (svc_spec s ≫= svs_type) in
    let has_external_ips := match svc_spec s ≫= svs_external_ips with Some ips => negb (bool_decide (ips = [])) | None => false end in
    if bool_decide (kind = "LoadBalancer") || bool_decide (kind = "NodePort") || has_external_ips then Internet
    else ClusterExposed.

(** A selecting service; an empty selector selects nothing. *)
Definition selects_pod (s : Service) (namespace : string) (labels : gmap string string) : bool :=
  bool_decide (om_namespace (svc_meta s) = Some namespace) &&
  match svc_spec s ≫= svs_selector with
  | Some selector => negb (bool_decide (selector = ∅)) && labels_match selector labels
  | None => false
  end.

Definition raise_exposure (namespace : string) (labels : gmap string string) (e : Exposure) (s : Service) : Exposure :=
  if selects_pod s namespace labels then
    let e' := service_exposure s in if exposure_rank e <? exposure_rank e' then e' else e
  else e.

Definition pod_exposure (sn : Snapshot) (pod : Pod) : Exposure :=
  let e := foldl (raise_exposure (pod_namespace pod) (pod_labels pod)) Internal (sn_services sn) in
  if declares_internet (om_annotations (pod_meta pod)) then Internet else e.

Definition with_exposure (e : Exposure) (w : Workload) : Workload :=
  mkWorkload (w_namespace w) (w_name w) (w_kind w) (w_labels w) (w_meshed w) e (w_runtime w) (w_persistent w)
    (w_misconfigs w) (w_rbac_findings w).

Definition set_exposure (e : Exposure) (n : Node) : Node :=
  match n with NWorkload w => NWorkload (with_exposure e w) | _ => n end.

(** *** Ingress routing *)

Definition lb_addresses_overlap (ingress_lb svc_lb : list LbIngress) : bool :=
  existsb (fun il => existsb (fun sl =>
    (bool_decide (is_Some (lb_ip il)) && bool_decide (lb_ip il = lb_ip sl)) ||
    (bool_decide (is_Some (lb_hostname il)) && bool_decide (lb_hostname il = lb_hostname sl))) svc_lb) ingress_lb.

Definition resolve_ingress_class (sn : Snapshot) (i : Ingress) : option IngressClass :=
  match ing_spec i ≫= is_class_name with
  | Some name => List.find (fun c => bool_decide (om_name (icl_meta c) = Some name)) (sn_ingress_classes sn)
  | None => List.find (fun c => bool_decide ((om_annotations (icl_meta c) ≫= fun a => a !! DEFAULT_INGRESS_CLASS_ANNOTATION) = Some "true"))
              (sn_ingress_classes sn)
  end.

Definition ingress_backend_service_names (i : Ingress) : list string :=
  match ing_spec i with
  | None => []
  | Some spec =>
      option_list (is_default_backend spec ≫= id) ++
      (flat (is_rules spec) ≫= fun rule => match rule with Some http => omap id (hp_backends http) | None => [] end)
  end.

Definition selected_pods (sn : Snapshot) (namespace : string) (selector : gmap string string) : list Pod :=
  List.filter (fun pod => negb (bool_decide (selector = ∅)) && bool_decide (pod_namespace pod = namespace) &&
                          labels_match selector (pod_labels pod)) (sn_pods sn).

(** The service an ingress backend of [namespace] names. *)
Definition backend_service (sn : Snapshot) (namespace name : string) : option Service :=
  List.find (fun s => bool_decide (om_namespace (svc_meta s) = Some namespace) && bool_decide (om_name (svc_meta s) = Some name))
    (sn_services sn).

Section Adapters.
Context {G : Type} `{SG : !StableGraph G Node Edge}.
Implicit Types sg : SecurityGraph G.
Variable oci : string -> option OciReference.
Variable clock : nat -> SystemTime.
Variable secret_iter : gset SecretGrant -> list SecretGrant.
Variable cap_iter : gset CapGrant -> list CapGrant.

(** [add_edge] of an [observed] edge. *)
Definition connect (source : string) (rel : Relation) sg (a b : nat) : option (SecurityGraph G) :=
  add_edge sg a b (mkEdge rel (mkProv source (clock (length (sg_edge_references (inner sg)))))).

(** ** Contributions *)

(** Every pod with a name. *)
Definition each_pod (f : SecurityGraph G -> Pod -> string -> option (SecurityGraph G)) (sn : Snapshot) sg : option (SecurityGraph G) :=
  foldM (fun sg pod => match om_name (pod_meta pod) with Some name => f sg pod name | None => Some sg end) sg (sn_pods sn).

Definition add_image wl sg (image : string) : option (SecurityGraph G) :=
  let '(sg, img) := upsert_node sg (NImage (mkImage (canonical_image oci image) (Some image) TrustUnknown [] [] None)) in
  connect "workload" RunsImage sg wl img.

Definition workload_pod sg (pod : Pod) (name : string) : option (SecurityGraph G) :=
  let '(sg, wl) := upsert_node sg (NWorkload (workload_of pod name)) in
  let '(sg, id) := upsert_node sg (NIdentity (mkIdentity (pod_namespace pod) (service_account pod))) in
  sg ← connect "workload" RunsAs sg wl id;
  match pod_spec pod with
  | None => Some sg
  | Some spec => foldM (add_image wl) sg (omap ct_image (all_containers spec))
  end.

Definition workload_adapter : Snapshot -> SecurityGraph G -> option (SecurityGraph G) := each_pod workload_pod.

Definition secret_mount_adapter : Snapshot -> SecurityGraph G -> option (SecurityGraph G) :=
  each_pod (fun sg pod name =>
    match mounted_secrets pod with
    | [] => Some sg
    | secrets =>
        let '(sg, wl) := ensure_node sg (workload_node (pod_namespace pod) name) in
        foldM (fun sg secret =>
          let '(sg, sec) := upsert_node sg (NSecret (mkSecretRef (pod_namespace pod) secret)) in
          connect "secret-mount" CanRead sg wl sec) sg secrets
    end).

(** The pods as the reachability adapter indexes them. *)
Definition pod_index (sn : Snapshot) : list (string * string * gmap string string) :=
  omap (fun p => (fun n => (pod_namespace p, n, pod_labels p)) <$> om_name (pod_meta p)) (sn_pods sn).

(** An edge per port from every source to every other target. *)
Definition link_all (source : string) (port_specs : list (option N * Protocol)) (sources targets : list (string * string)) sg :
    option (SecurityGraph G) :=
  foldM (fun sg s => foldM (fun sg t =>
    if bool_decide (s = t) then Some sg
    else
      let '(sg, src) := ensure_node sg (workload_node s.1 s.2) in
      let '(sg, tgt) := ensure_node sg (workload_node t.1 t.2) in
      foldM (fun sg pp => connect source (Reaches pp.1 pp.2) sg src tgt) sg port_specs) sg targets) sg sources.

Definition peer_links (pods : list (string * string * gmap string string)) (ns : string) (targets : list (string * string))
    (port_specs : list (option N * Protocol)) sg (peer : NetworkPolicyPeer) : option (SecurityGraph G) :=
  if bool_decide (is_Some (peer_namespace_selector peer)) || bool_decide (is_Some (peer_ip_block peer))
  then Some (mark_reachability_incomplete sg)
  else match peer_pod_selector peer with
  | None => Some sg
  | Some selector =>
      let sg := if has_match_expressions selector then mark_reachability_incomplete sg else sg in
      let sources := (fun p => p.1) <$> List.filter (fun p => bool_decide (p.1.1 = ns) && selector_matches selector p.2) pods in
      link_all "networkpolicy" port_specs sources targets sg
  end.

Definition policy_links (pods : list (string * string * gmap string string)) sg (policy : NetworkPolicy) : option (SecurityGraph G) :=
  if negb (ingress_active policy) then Some sg
  else match npl_spec policy with
  | None => Some sg
  | Some spec =>
      let sg := match nps_pod_selector spec with
                | Some s => if has_match_expressions s then mark_reachability_incomplete sg else sg | None => sg end in
      let ns := default "default" (om_namespace (npl_meta policy)) in
      let targets := (fun p => p.1) <$>
        List.filter (fun p => bool_decide (p.1.1 = ns) && selector_matches_opt (nps_pod_selector spec) p.2) pods in
      if bool_decide (targets = []) then Some sg
      else foldM (fun sg rule => foldM (peer_links pods ns targets (ports (ir_ports rule))) sg (flat (ir_from rule))) sg
             (flat (nps_ingress spec))
  end.

Definition reachability_adapter (sn : Snapshot) sg : option (SecurityGraph G) :=
  foldM (policy_links (pod_index sn)) sg (sn_network_policies sn).

(** *** Linkerd *)

Record PodInfo := mkPodInfo { pi_namespace : string; pi_name : string; pi_labels : gmap string string; pi_service_account : string }.

Definition pod_infos (sn : Snapshot) : list PodInfo :=
  omap (fun p => (fun n => mkPodInfo (pod_namespace p) n (pod_labels p) (service_account p)) <$> om_name (pod_meta p)) (sn_pods sn).

Definition client_sas (sn : Snapshot) (policy : LinkerdAuthzPolicy) : list (string * string) :=
  la_clients policy ≫= fun client =>
    match client with
    | AuthServiceAccount ns name => [(ns, name)]
    | MeshTls auth =>
        match List.find (fun a => bool_decide (lm_namespace a = la_namespace policy) && bool_decide (lm_name a = auth))
                (sn_linkerd_mtls_auths sn) with
        | Some a => (fun sa => (sa_namespace sa, sa_name sa)) <$> lm_identities a
        | None => []
        end
    end.

Definition target_server (sn : Snapshot) (policy : LinkerdAuthzPolicy) : option LinkerdServer :=
  server_name ← la_target_server policy;
  List.find (fun s => bool_decide (lsv_namespace s = la_namespace policy) && bool_decide (lsv_name s = server_name))
    (sn_linkerd_servers sn).

Definition pair_of (p : PodInfo) : string * string := (pi_namespace p, pi_name p).

Definition authz_links (sn : Snapshot) (pods : list PodInfo) sg (policy : LinkerdAuthzPolicy) : option (SecurityGraph G) :=
  match target_server sn policy with
  | None => Some sg
  | Some server =>
      let sg := if has_match_expressions (lsv_pod_selector server) then mark_reachability_incomplete sg else sg in
      let targets := List.filter (fun p => bool_decide (pi_namespace p = lsv_namespace server) &&
                                           selector_matches (lsv_pod_selector server) (pi_labels p)) pods in
      if bool_decide (pair_of <$> targets = []) then Some sg
      else
        let sas := client_sas sn policy in
        let sources := List.filter (fun p => bool_decide ((pi_namespace p, pi_service_account p) ∈ sas)) pods in
        link_all "linkerd" [(lsv_port server, Tcp)] (pair_of <$> sources) (pair_of <$> targets) sg
  end.

Definition linkerd_adapter (sn : Snapshot) sg : option (SecurityGraph G) :=
  foldM (authz_links sn (pod_infos sn)) sg (sn_linkerd_authz_policies sn).

(** *** Privilege, escape, placement, egress *)

Definition add_secret_grant sg (g : SecretGrant) : option (SecurityGraph G) :=
  let '(id_ns, id_name, sec_ns, sec_name) := g in
  let '(sg, id) := upsert_node sg (NIdentity (mkIdentity id_ns id_name)) in
  let '(sg, secret) := upsert_node sg (NSecret (mkSecretRef sec_ns sec_name)) in
  connect "rbac" (CanDo "get" "secrets") sg id secret.

Definition add_cap_grant sg (g : CapGrant) : option (SecurityGraph G) :=
  let '(id_ns, id_name, ns, verb, resource) := g in
  let '(sg, id) := upsert_node sg (NIdentity (mkIdentity id_ns id_name)) in
  let '(sg, cap) := upsert_node sg (NCapability (mkCapability verb resource (scope_of ns))) in
  connect "rbac" (CanDo verb resource) sg id cap.

Definition privilege_adapter (sn : Snapshot) sg : option (SecurityGraph G) :=
  sg ← foldM add_secret_grant sg (secret_iter (secret_grants sn));
  foldM add_cap_grant sg (cap_iter (cap_grants sn)).

Definition host_escape_adapter : Snapshot -> SecurityGraph G -> option (SecurityGraph G) :=
  each_pod (fun sg pod name =>
    match escape_vias pod with
    | [] => Some sg
    | vias =>
        match pod_spec pod ≫= sp_node_name with
        | None => Some sg
        | Some node_name =>
            let '(sg, wl) := ensure_node sg (workload_node (pod_namespace pod) name) in
            let '(sg, host) := upsert_node sg (NHost (mkHost node_name)) in
            foldM (fun sg via => connect "host-escape" (EscapesTo via) sg wl host) sg vias
        end
    end).

Definition placement_adapter : Snapshot -> SecurityGraph G -> option (SecurityGraph G) :=
  each_pod (fun sg pod name =>
    match pod_spec pod ≫= sp_node_name with
    | None => Some sg
    | Some node_name =>
        let '(sg, wl) := ensure_node sg (workload_node (pod_namespace pod) name) in
        let '(sg, host) := upsert_node sg (NHost (mkHost node_name)) in
        connect "placement" ScheduledOn sg wl host
    end).

Definition egress_adapter (sn : Snapshot) : SecurityGraph G -> option (SecurityGraph G) :=
  each_pod (fun sg pod name =>
    match egress_via sn pod with
    | None => Some sg
    | Some via =>
        let '(sg, wl) := ensure_node sg (workload_node (pod_namespace pod) name) in
        let '(sg, net) := ensure_node sg (NEndpoint (mkEndpoint "internet")) in
        connect "egress" (CanEgress via) sg wl net
    end) sn.

(** *** Exposure *)

Definition exposure_adapter (sn : Snapshot) : SecurityGraph G -> option (SecurityGraph G) :=
  each_pod (fun sg pod name =>
    let e := pod_exposure sn pod in
    if bool_decide (e = Internal) then Some sg
    else update_node sg (key_workload (pod_namespace pod) "Pod" name) (set_exposure e)) sn.

Definition key_is_internet sg (key : NodeKey) : bool :=
  match index_of sg key ≫= node sg with
  | Some (NWorkload w) => bool_decide (w_exposure w = Internet)
  | _ => false
  end.

Definition workload_is_internet sg (namespace : string) (pod : Pod) : bool :=
  match om_name (pod_meta pod) with
  | Some name => key_is_internet sg (key_workload namespace "Pod" name)
  | None => false
  end.

Definition controller_is_live (sn : Snapshot) sg (i : Ingress) : bool :=
  match ing_load_balancer i with
  | None | Some [] => false
  | Some ingress_lb =>
      match resolve_ingress_class sn i with
      | None => false
      | Some class =>
          if bool_decide (icl_controller class = None) then false
          else existsb (fun svc =>
            match svc_load_balancer svc, om_namespace (svc_meta svc), svc_spec svc ≫= svs_selector with
            | Some svc_lb, Some ns, Some selector =>
                lb_addresses_overlap ingress_lb svc_lb && existsb (workload_is_internet sg ns) (selected_pods sn ns selector)
            | _, _, _ => false
            end) (sn_services sn)
      end
  end.

(** Promote one pod; the flag is whether anything changed. *)
Definition promote (namespace : string) (acc : SecurityGraph G * bool) (pod : Pod) : option (SecurityGraph G * bool) :=
  let '(sg, changed) := acc in
  match om_name (pod_meta pod) with
  | None => Some (sg, changed)
  | Some name =>
      let key := key_workload namespace "Pod" name in
      let promoted := match index_of sg key ≫= node sg with
                      | Some (NWorkload w) => negb (bool_decide (w_exposure w = Internet)) | _ => false end in
      sg ← update_node sg key (fun n => if promoted then set_exposure Internet n else n);
      Some (sg, changed || promoted)
  end.

(** The pods an ingress's backends select. *)
Definition routed_pods (sn : Snapshot) (namespace : string) (i : Ingress) : list Pod :=
  ingress_backend_service_names i ≫= fun service_name =>
    match (backend_service sn namespace service_name ≫= svc_spec) ≫= svs_selector with
    | Some selector => selected_pods sn namespace selector
    | None => []
    end.

Definition route_ingress (sn : Snapshot) (acc : SecurityGraph G * bool) (i : Ingress) : option (SecurityGraph G * bool) :=
  match om_namespace (ing_meta i) with
  | None => Some acc
  | Some namespace =>
      if negb (controller_is_live sn acc.1 i) then Some acc
      else foldM (promote namespace) acc (routed_pods sn namespace i)
  end.

(** The bounded loop: at most [rounds], and one round past the last change. *)
Fixpoint ingress_rounds (rounds : nat) (sn : Snapshot) sg : option (SecurityGraph G) :=
  match rounds with
  | 0 => Some sg
  | S rounds =>
      '(sg, changed) ← foldM (route_ingress sn) (sg, false) (sn_ingresses sn);
      if (changed : bool) then ingress_rounds rounds sn sg else Some sg
  end.

Definition node_count sg : nat := length (sg_node_indices (inner sg)).

Definition ingress_exposure_adapter (sn : Snapshot) sg : option (SecurityGraph G) :=
  ingress_rounds (Nat.max (node_count sg) 1) sn sg.

(** ** The graph of a snapshot *)

Definition build_graph (sn : Snapshot) (adapters : list (Snapshot -> SecurityGraph G -> option (SecurityGraph G))) :
    option (SecurityGraph G) :=
  foldM (fun sg contribute => contribute sn sg) graph_new adapters.

(** The structural adapters, then the exposure facts. *)
Definition structural_adapters : list (Snapshot -> SecurityGraph G -> option (SecurityGraph G)) :=
  [workload_adapter; secret_mount_adapter; reachability_adapter; linkerd_adapter; privilege_adapter; host_escape_adapter;
   placement_adapter; egress_adapter].

Definition exposure_adapters : list (Snapshot -> SecurityGraph G -> option (SecurityGraph G)) :=
  [exposure_adapter; ingress_exposure_adapter].

End Adapters.
