(* ===== verification/HostCredential.v ===== *)
(** * On-host credential paths

    engine/src/engine/observe/host_credential_class.rs: which file reads of a
    container are reads of credentials, on the lexically normalized path. *)

From S2P Require Import Prelude Text.

#[local] Arguments String.append : simpl nomatch.

Definition EXACT_HOST_PATHS : list string := ["/etc/shadow"; "/etc/gshadow"; "/etc/sudoers"].
Definition SSH_DIR_SEGMENT : string := ".ssh".
Definition SSH_NON_CREDENTIAL_BASENAME : string := "known_hosts".

Definition CLOUD_CREDENTIAL_FILES : list (string * string) :=
  [(".aws", "credentials"); ("gcloud", "application_default_credentials.json"); ("gcloud", "credentials.db");
   (".azure", "azureProfile.json"); (".azure", "accessTokens.json"); (".azure", "msal_token_cache.json")].

(** One step over [Path::components]: empty and [.] components vanish, [..]
    takes the last one back. *)
Definition push_component (out : list string) (c : string) : list string :=
  if bool_decide (c = "") || bool_decide (c = ".") then out
  else if bool_decide (c = "..") then removelast out
  else out ++ [c].

Definition normalized_components (path : string) : list string := foldl push_component [] (split slash path).

Definition ssh_key_material_path (components : list string) : bool :=
  let rest := match components with
    | root :: seg :: rest =>
        if bool_decide (root = "root") && bool_decide (seg = SSH_DIR_SEGMENT) then Some rest
        else match rest with
             | seg2 :: rest2 => if bool_decide (root = "home") && bool_decide (seg2 = SSH_DIR_SEGMENT) then Some rest2 else None
             | [] => None
             end
    | _ => None
    end in
  match rest with
  | Some rest => negb (bool_decide (rest = [])) && negb (bool_decide (rest = [SSH_NON_CREDENTIAL_BASENAME]))
  | None => false
  end.

Definition cloud_credential_path (components : list string) : bool :=
  match last components with
  | None => false
  | Some name => existsb (fun df => bool_decide (df.2 = name) && bool_decide (df.1 ∈ components)) CLOUD_CREDENTIAL_FILES
  end.

Definition host_credential_path (path : string) : option string :=
  let components := normalized_components path in
  let normalized := "/" +:+ join "/" components in
  if bool_decide (normalized ∈ EXACT_HOST_PATHS) || ssh_key_material_path components || cloud_credential_path components
  then Some normalized else None.

(** ** Lemmas *)

(** A component as the normalization leaves it. *)
Definition plain_component (c : string) : Prop := no_char slash c = true /\ c <> "" /\ c <> "." /\ c <> "..".

Lemma push_plain out c : plain_component c -> push_component out c = out ++ [c].
Proof. intros (_ & H1 & H2 & H3). unfold push_component. by rewrite !bool_decide_false. Qed.

Lemma split_pieces s c : c ∈ split slash s -> no_char slash c = true.
Proof.
  revert c. induction s as [|a s IH]; intros c; simpl; [by intros ->%list_elem_of_singleton|].
  destruct (Ascii.eqb a slash) eqn:Ea; [intros [->|Hc]%elem_of_cons; [done|by apply IH]|].
  destruct (split slash s) as [|p ps] eqn:Es; [intros ->%list_elem_of_singleton; simpl; by rewrite Ea|].
  intros [->|Hc]%elem_of_cons; [|apply IH; by right]. simpl. rewrite Ea. apply IH. left.
Qed.

Lemma normalized_plain path : Forall plain_component (normalized_components path).
Proof.
  unfold normalized_components. assert (forall l out, Forall plain_component out -> (forall c, c ∈ l -> no_char slash c = true) ->
    Forall plain_component (foldl push_component out l)) as H.
  { induction l as [|c l IH]; intros out Hout Hl; [done|]. simpl. apply IH; [|intros; apply Hl; by right].
    unfold push_component. destruct (bool_decide (c = "") || bool_decide (c = ".")) eqn:E1; [done|].
    destruct (bool_decide (c = "..")) eqn:E2.
    - destruct out as [|x out _] using rev_ind; [done|]. rewrite removelast_last. by apply Forall_app in Hout as [? _].
    - apply Forall_app. split; [done|]. bools. constructor; [|done]. split; [apply Hl; by left|]. done. }
  apply H; [constructor|apply split_pieces].
Qed.

Lemma split_join cs : cs <> [] -> Forall plain_component cs -> split slash (join "/" cs) = cs.
Proof.
  induction cs as [|c cs IH]; [done|]. intros _ [Hc Hcs]%Forall_cons. destruct cs as [|d cs].
  - simpl. apply split_no_char, Hc.
  - change (join "/" (c :: d :: cs)) with (c +:+ String slash (join "/" (d :: cs))). rewrite split_app by apply Hc. by rewrite IH.
Qed.

Lemma foldl_plain cs out : Forall plain_component cs -> foldl push_component out cs = out ++ cs.
Proof.
  revert out. induction cs as [|c cs IH]; intros out H; simpl; [by rewrite app_nil_r|]. apply Forall_cons in H as [Hc Hcs].
  by rewrite push_plain, IH, <- app_assoc.
Qed.

(** A normalized path has the components it was made from. *)
Lemma normalized_render cs : Forall plain_component cs -> normalized_components ("/" +:+ join "/" cs) = cs.
Proof.
  intros H. unfold normalized_components. change ("/" +:+ join "/" cs) with (String slash (join "/" cs)). cbn [split].
  rewrite Ascii.eqb_refl. destruct cs as [|c cs]; [done|]. rewrite split_join by done.
  exact (foldl_plain (c :: cs) [] H).
Qed.

Lemma ssh_spec cs :
  ssh_key_material_path cs = true <-> exists rest, rest <> [] /\ rest <> ["known_hosts"] /\
    (cs = "root" :: ".ssh" :: rest \/ exists user, cs = "home" :: user :: ".ssh" :: rest).
Proof.
  unfold ssh_key_material_path, SSH_DIR_SEGMENT, SSH_NON_CREDENTIAL_BASENAME.
  destruct cs as [|r [|s rest]]; [split; [done|naive_solver]..|].
  destruct (decide (r = "root" /\ s = ".ssh")) as [[-> ->]|Hroot].
  - simpl. rewrite andb_true_iff, !negb_true_iff, !bool_decide_eq_false. naive_solver.
  - rewrite <- bool_decide_and, bool_decide_false by done. destruct rest as [|s2 rest]; [split; [done|naive_solver]|].
    destruct (decide (r = "home" /\ s2 = ".ssh")) as [[-> ->]|Hhome].
    + simpl. rewrite andb_true_iff, !negb_true_iff, !bool_decide_eq_false. split; [|naive_solver]. intros [H1 H2]. exists rest. naive_solver.
    + rewrite <- bool_decide_and, bool_decide_false by done. split; [done|]. naive_solver.
Qed.

(** Spelling a path differently neither forges a credential read nor hides
    one: two spellings of one normal form classify alike, and the reported path
    is itself that normal form, classified as itself. A read is of credentials
    exactly when its normal form is one of the shadow files, a file under a
    home's [.ssh] other than [known_hosts], or a cloud credential file below its
    provider's directory. *)
Theorem host_credential_exact path :
  (forall path', normalized_components path' = normalized_components path -> host_credential_path path' = host_credential_path path) /\
  (forall p, host_credential_path path = Some p -> normalized_components p = normalized_components path /\ host_credential_path p = Some p) /\
  (is_Some (host_credential_path path) <->
   let cs := normalized_components path in
   cs ∈ [["etc"; "shadow"]; ["etc"; "gshadow"]; ["etc"; "sudoers"]] \/
   (exists rest, rest <> [] /\ rest <> ["known_hosts"] /\
      (cs = "root" :: ".ssh" :: rest \/ exists user, cs = "home" :: user :: ".ssh" :: rest)) \/
   (exists dir file, (dir, file) ∈ CLOUD_CREDENTIAL_FILES /\ dir ∈ cs /\ last cs = Some file)).
Proof.
  pose proof (normalized_plain path) as Hp. split; [|split].
  - intros path' H. unfold host_credential_path. by rewrite H.
  - intros p H. unfold host_credential_path in H. destruct (_ || _) eqn:E; [|done]. apply (inj Some) in H as <-.
    rewrite normalized_render by done. split; [done|]. unfold host_credential_path. rewrite normalized_render by done. by rewrite E.
  - unfold host_credential_path. set (cs := normalized_components path) in *.
    assert (bool_decide ("/" +:+ join "/" cs ∈ EXACT_HOST_PATHS) = true <-> cs ∈ [["etc"; "shadow"]; ["etc"; "gshadow"]; ["etc"; "sudoers"]]) as Hexact.
    { rewrite bool_decide_eq_true. unfold EXACT_HOST_PATHS. split.
      - intros H. rewrite <- (normalized_render cs Hp). exact (list_elem_of_fmap_2 normalized_components _ _ H).
      - rewrite !elem_of_cons. intros [->|[->|[->|H]]]; [left|right; left|right; right; left|by apply not_elem_of_nil in H]; done. }
    assert (ssh_key_material_path cs = true <-> exists rest, rest <> [] /\ rest <> ["known_hosts"] /\
      (cs = "root" :: ".ssh" :: rest \/ exists user, cs = "home" :: user :: ".ssh" :: rest)) as Hssh by apply ssh_spec.
    assert (cloud_credential_path cs = true <-> exists dir file, (dir, file) ∈ CLOUD_CREDENTIAL_FILES /\ dir ∈ cs /\ last cs = Some file) as Hcloud.
    { unfold cloud_credential_path. destruct (last cs) as [f|]; [|split; [done|naive_solver]]. rewrite existsb_elem. split.
      - intros ([d f'] & Hin & Hb). bools. simpl in *. subst. eauto.
      - intros (d & f' & Hin & Hd & [= ->]). exists (d, f'). simpl. by rewrite !bool_decide_true. }
    rewrite <- Hexact, <- Hssh, <- Hcloud. destruct (bool_decide _), (ssh_key_material_path cs), (cloud_credential_path cs); simpl; naive_solver.
Qed.
