(* ===== verification/PeerIndex.v ===== *)
(** * Connection peers

    engine/src/engine/observe/ip_index.rs and ip_index/memo.rs: which cluster
    object an address belongs to, and the memo that keeps a peer's rendering
    stable while the index misses it. *)

From Stdlib Require Import Sorting.Sorted.
From S2P Require Import Prelude Text ImageRef Attack Behavior Graph Snapshot.

#[local] Arguments String.append : simpl nomatch.

Inductive PeerKind := KPod | KService.

Record ResolvedPeer := mkPeerRef { rp_namespace : string; rp_name : string; rp_kind : PeerKind }.

Definition peer_label (p : ResolvedPeer) : string := rp_namespace p +:+ "/" +:+ rp_name p.

Abbreviation IpIndex := (gmap string ResolvedPeer).

Definition is_resolvable_ip (ip : string) : bool := negb (bool_decide (ip = "")) && negb (bool_decide (ip = "None")).

Definition index_ips (meta : ObjectMeta) (kind : PeerKind) (by_ip : IpIndex) (ips : list string) : IpIndex :=
  match om_namespace meta, om_name meta with
  | Some ns, Some name => foldl (fun m ip => if is_resolvable_ip ip then <[ip := mkPeerRef ns name kind]> m else m) by_ip ips
  | _, _ => by_ip
  end.

Definition index_service (by_ip : IpIndex) (s : Service) : IpIndex :=
  match svc_spec s with
  | Some spec => index_ips (svc_meta s) KService by_ip (option_list (svs_cluster_ip spec) ++ flat (svs_cluster_ips spec))
  | None => by_ip
  end.

(** [podIPs] entries always carry an address. *)
Definition index_pod (by_ip : IpIndex) (p : Pod) : IpIndex :=
  match pod_status p with
  | Some st => index_ips (pod_meta p) KPod by_ip (option_list (st_pod_ip st) ++ flat (st_pod_ips st))
  | None => by_ip
  end.

Definition from_snapshot (sn : Snapshot) : IpIndex :=
  foldl index_pod (foldl index_service ∅ (sn_services sn)) (sn_pods sn).

Definition colon_c : Ascii.ascii := Ascii.ascii_of_nat 58.
Definition close_bracket : Ascii.ascii := Ascii.ascii_of_nat 93.

Definition split_ip_port (peer : string) : option (string * string) :=
  match strip_prefix "[" peer with
  | Some rest =>
      '(addr, after) ← split_once close_bracket rest;
      port ← strip_prefix ":" after;
      if bool_decide (addr = "") || bool_decide (port = "") then None else Some (addr, port)
  | None =>
      '(ip, port) ← rsplit_once colon_c peer;
      if bool_decide (ip = "") || bool_decide (port = "") then None else Some (ip, port)
  end.

(** ** The memo *)

Definition GRACE_TTL : Z := 300 * 1000000000.

(** What an address last resolved to, and when. *)
Abbreviation PeerMemo := (gmap string (ResolvedPeer * Z)).

Definition render_peer (resolved : ResolvedPeer) (port ip : string) : string :=
  peer_label resolved +:+ ":" +:+ port +:+ " (" +:+ ip +:+ ")".

(** [saturating_duration_since] within the grace. *)
Definition in_grace (now seen : Z) : bool := (Z.max 0 (now - seen) <=? GRACE_TTL)%Z.

Definition resolve_peer (memo : PeerMemo) (index : IpIndex) (peer : string) (internet : bool) (now : Z) : string * PeerMemo :=
  if internet then (peer, memo)
  else match split_ip_port peer with
  | None => (peer, memo)
  | Some (ip, port) =>
      match index !! ip with
      | Some resolved => (render_peer resolved port ip, <[ip := (resolved, now)]> memo)
      | None =>
          match memo !! ip with
          | Some (resolved, seen) => if in_grace now seen then (render_peer resolved port ip, memo) else (peer, memo)
          | None => (peer, memo)
          end
      end
  end.

Definition prune (memo : PeerMemo) (now : Z) : PeerMemo := filter (fun e => in_grace now e.2.2 = true) memo.

(** ** What the memo promises *)

(** A pass prunes, then resolves the peers it saw, all at one instant. *)
Record Pass := mkMemoPass { mp_now : Z; mp_index : IpIndex; mp_peers : list (string * bool) }.

Definition memo_pass (memo : PeerMemo) (p : Pass) : PeerMemo :=
  foldl (fun m pi => (resolve_peer m (mp_index p) pi.1 pi.2 (mp_now p)).2) (prune memo (mp_now p)) (mp_peers p).

Definition memo_run (passes : list Pass) : PeerMemo := foldl memo_pass ∅ passes.

(** The last resolution of an address over some passes: of the passes that saw
    it as an in-cluster peer and whose index knew it, the last. *)
Definition pass_sees (p : Pass) (ip : string) : Prop :=
  exists peer port, (peer, false) ∈ mp_peers p /\ split_ip_port peer = Some (ip, port).

#[global] Instance pass_sees_dec p ip : Decision (pass_sees p ip).
Proof.
  destruct (decide (Exists (fun pi : string * bool => pi.2 = false /\ fst <$> split_ip_port pi.1 = Some ip) (mp_peers p))) as [H|H];
    [left|right].
  - apply Exists_exists in H as ([peer i] & Hin & Hi & Hs). simpl in *. subst i. apply fmap_Some in Hs as ([ip' port] & Hs & ->).
    by exists peer, port.
  - intros (peer & port & Hin & Hs). apply H, Exists_exists. exists (peer, false). simpl. by rewrite Hs.
Defined.

Definition confirms (ip : string) (p : Pass) : option (ResolvedPeer * Z) :=
  if decide (pass_sees p ip) then (fun r => (r, mp_now p)) <$> mp_index p !! ip else None.

Lemma memo_pass_lookup memo p ip :
  memo_pass memo p !! ip = match confirms ip p with Some c => Some c | None => prune memo (mp_now p) !! ip end.
Proof.
  unfold memo_pass, confirms. set (m0 := prune memo (mp_now p)).
  assert (forall l, foldl (fun m pi => (resolve_peer m (mp_index p) pi.1 pi.2 (mp_now p)).2) m0 l !! ip =
    if decide (Exists (fun pi : string * bool => pi.2 = false /\ fst <$> split_ip_port pi.1 = Some ip) l)
    then match mp_index p !! ip with Some r => Some (r, mp_now p) | None => m0 !! ip end else m0 !! ip) as H.
  { induction l as [|[peer i] l IH] using rev_ind; [by rewrite decide_False by (by intros ?%Exists_nil)|].
    rewrite foldl_snoc. unfold resolve_peer at 1. cbn [fst snd].
    assert (forall (P : Prop) `{Decision P} (Q : Prop) `{Decision Q} (x y : option (ResolvedPeer * Z)), (P <-> Q) ->
      (if decide P then x else y) = if decide Q then x else y) as Hdec.
    { intros P ? Q ? x y HPQ. destruct (decide P), (decide Q); tauto. }
    destruct i; cbn [snd].
    { rewrite IH. apply Hdec. rewrite Exists_app, Exists_cons, Exists_nil. simpl. naive_solver. }
    destruct (split_ip_port peer) as [[ip' port]|] eqn:Hs; cbn [snd].
    2: { rewrite IH. apply Hdec. rewrite Exists_app, Exists_cons, Exists_nil. simpl. rewrite Hs. simpl. naive_solver. }
    destruct (decide (ip' = ip)) as [->|Hne].
    - match goal with |- _ = if decide ?P then _ else _ => destruct (decide P) as [_|Hno] end.
      2: { exfalso. apply Hno, Exists_app. right. apply Exists_cons. left. simpl. by rewrite Hs. }
      destruct (mp_index p !! ip) as [r|] eqn:Hr; cbn [snd]; [by rewrite lookup_insert_eq|].
      assert (foldl (fun m pi => (resolve_peer m (mp_index p) pi.1 pi.2 (mp_now p)).2) m0 l !! ip = m0 !! ip) as Hl
        by (rewrite IH; by destruct (decide _)).
      destruct (foldl _ m0 l !! ip) as [[r seen]|] eqn:E; [destruct (in_grace _ _)|]; cbn [snd]; by rewrite E.
    - etrans; [|apply (Hdec (Exists (fun pi : string * bool => pi.2 = false /\ fst <$> split_ip_port pi.1 = Some ip) l))].
      2: { rewrite Exists_app, Exists_cons, Exists_nil. simpl. rewrite Hs. simpl. naive_solver. }
      rewrite <- IH. destruct (mp_index p !! ip') as [r|]; cbn [snd]; [by rewrite lookup_insert_ne|].
      destruct (foldl _ m0 l !! ip') as [[r seen]|]; [destruct (in_grace _ _)|]; done. }
  rewrite H. destruct (decide (pass_sees p ip)) as [Hsee|Hsee], (decide _) as [Hex|Hex].
  - by destruct (mp_index p !! ip).
  - exfalso. apply Hex. destruct Hsee as (peer & port & Hin & Hs). apply Exists_exists. exists (peer, false). simpl. by rewrite Hs.
  - exfalso. apply Hsee. apply Exists_exists in Hex as ([peer i] & Hin & Hi & Hs). simpl in *. subst i.
    apply fmap_Some in Hs as ([ip' port] & Hs & ->). by exists peer, port.
  - done.
Qed.

Lemma in_grace_mono now now' seen : (now <= now')%Z -> in_grace now seen = false -> in_grace now' seen = false.
Proof. unfold in_grace. rewrite !Z.leb_gt. lia. Qed.

Lemma ssorted_app_inv {A} (R : A -> A -> Prop) l1 l2 :
  StronglySorted R (l1 ++ l2) ->
  StronglySorted R l1 /\ (forall x y, x ∈ l1 -> y ∈ l2 -> R x y).
Proof.
  induction l1 as [|z l1 IH]; simpl; intros H; [split; [constructor|set_solver]|].
  apply StronglySorted_inv in H as [H Hall]. destruct (IH H) as [H1 H2]. rewrite Forall_app, !Forall_forall in Hall.
  split; [constructor; [done|apply Forall_forall; tauto]|]. intros x y [->|Hx]%elem_of_cons Hy; [by apply Hall|by apply H2].
Qed.

(** What the memo holds for an address after some passes: its last confirmation,
    unless that had already expired. *)
Lemma memo_run_lookup passes ip now :
  StronglySorted Z.le (mp_now <$> passes ++ [mkMemoPass now ∅ []]) ->
  memo_run passes !! ip = last (omap (confirms ip) passes) \/
  (memo_run passes !! ip = None /\ exists r t, last (omap (confirms ip) passes) = Some (r, t) /\ in_grace now t = false).
Proof.
  revert now. induction passes as [|p passes IH] using rev_ind; intros now Hs; [by left|].
  unfold memo_run. rewrite foldl_snoc, memo_pass_lookup, omap_app. fold (memo_run passes).
  rewrite fmap_app in Hs. apply ssorted_app_inv in Hs as (Hs1 & Hle).
  assert (mp_now p <= now)%Z as Hp.
  { apply (Hle (mp_now p) now); [apply list_elem_of_fmap_2, elem_of_app; right; by left|by left]. }
  cbn [omap list_omap]. destruct (confirms ip p) as [c|]; [left; by rewrite last_snoc|]. rewrite app_nil_r.
  destruct (IH (mp_now p)) as [Hl|(Hn & r & t & Hr & Hg)]; [by rewrite fmap_app in *|..].
  - unfold prune. rewrite <- Hl. destruct (memo_run passes !! ip) as [[r t]|] eqn:E.
    + destruct (in_grace (mp_now p) t) eqn:Hg.
      * left. by apply map_lookup_filter_Some.
      * right. split; [apply map_lookup_filter_None; right; intros [r' t'] H; simpl; rewrite E in H; injection H as <- <-; by rewrite Hg|].
        exists r, t. split; [done|]. by eapply in_grace_mono.
    + left. apply map_lookup_filter_None. by left.
  - right. split; [apply map_lookup_filter_None; by left|]. exists r, t. split; [done|]. by eapply in_grace_mono.
Qed.

(** A peer's rendering does not flip on a transient miss, and is never made up.
    After any passes with clocks that do not run backwards, an in-cluster peer
    renders as the object the index knows for its address; failing that, as the
    object the last pass that could confirm it named, for [GRACE_TTL] after that
    pass and no longer; and otherwise raw, as is every external peer. *)
Theorem peer_stable passes index ip port peer now :
  StronglySorted Z.le (mp_now <$> passes ++ [mkMemoPass now ∅ []]) ->
  split_ip_port peer = Some (ip, port) ->
  let memo := prune (memo_run passes) now in
  (resolve_peer memo index peer true now).1 = peer /\
  (resolve_peer memo index peer false now).1 =
    match index !! ip with
    | Some r => render_peer r port ip
    | None => match last (omap (confirms ip) passes) with
              | Some (r, seen) => if in_grace now seen then render_peer r port ip else peer
              | None => peer
              end
    end.
Proof.
  intros Hs Hp memo. split; [done|]. unfold resolve_peer. rewrite Hp. destruct (index !! ip) as [r|]; [done|].
  destruct (memo_run_lookup passes ip now Hs) as [Hl|(Hn & r & t & Hr & Hg)].
  - rewrite <- Hl. destruct (memo_run passes !! ip) as [[r t]|] eqn:E.
    + destruct (in_grace now t) eqn:Hg.
      * assert (memo !! ip = Some (r, t)) as -> by (by apply map_lookup_filter_Some). by rewrite Hg.
      * assert (memo !! ip = None) as ->; [|done]. apply map_lookup_filter_None. right. intros [r' t'] H. simpl.
        rewrite E in H. injection H as <- <-. by rewrite Hg.
    + assert (memo !! ip = None) as ->; [|done]. apply map_lookup_filter_None. by left.
  - assert (memo !! ip = None) as -> by (apply map_lookup_filter_None; by left). by rewrite Hr, Hg.
Qed.

Lemma peer_stable_witness :
  let influx := mkPeerRef "analytics" "influxdb" KPod in
  let known := mkMemoPass 0 {["10.42.1.159" := influx]} [("10.42.1.159:8086", false)] in
  let missed := mkMemoPass 5000000000 ∅ [("10.42.1.159:8086", false)] in
  (resolve_peer (prune (memo_run [known; missed]) 6000000000) ∅ "10.42.1.159:8086" false 6000000000).1 =
    "analytics/influxdb:8086 (10.42.1.159)".
Proof.
  intros influx known missed.
  destruct (peer_stable [known; missed] ∅ "10.42.1.159" "8086" "10.42.1.159:8086" 6000000000) as [_ H].
  - repeat constructor; vm_compute; discriminate.
  - reflexivity.
  - rewrite H. reflexivity.
Defined.
