(* ===== verification/AdapterFacts.v ===== *)
(** * What the built graph says

    The graph of a snapshot holds exactly the edges its objects declare, keeps
    one node per pod, and a pod is internet-facing exactly when its services,
    its annotations or the routes of live controllers make it so. *)

From S2P Require Import Prelude Text ImageRef PetGraph Attack Behavior Graph Snapshot Adapters.

(** ** Growing a graph *)

Section Growth.
Context {G : Type} `{SGL : StableGraphLaws G Node Edge}.
Implicit Types sg : SecurityGraph G.

(** An edge between two keys. *)
Definition edge_in sg (a : NodeKey) (r : Relation) (b : NodeKey) : Prop :=
  exists e, e ∈ sg_edge_references (inner sg) /\ key_of sg (er_source e) = Some a /\
    key_of sg (er_target e) = Some b /\ e_relation (er_weight e) = r.

Definition keys_kept sg sg' : Prop := forall i k, key_of sg i = Some k -> key_of sg' i = Some k.

Abbreviation Edges := (NodeKey -> Relation -> NodeKey -> Prop).

Definition no_edges : Edges := fun _ _ _ => False.
Definition both (E F : Edges) : Edges := fun a r b => E a r b \/ F a r b.
Definition one_edge (a0 : NodeKey) (r0 : Relation) (b0 : NodeKey) : Edges := fun a r b => a = a0 /\ r = r0 /\ b = b0.
Definition any_of {A} (l : list A) (E : A -> Edges) : Edges := fun a r b => exists x, x ∈ l /\ E x a r b.

(** The nodes that may be stored. *)
Variable allowed : Node -> Prop.

(** [sg'] adds the edges [E] to [sg]; only workloads under [W] may change. *)
Record grows sg sg' (W : NodeKey -> Prop) (E : Edges) : Prop := {
  gr_ok : graph_ok sg';
  gr_keys : keys_kept sg sg';
  gr_edges : forall a r b, edge_in sg' a r b <-> edge_in sg a r b \/ E a r b;
  gr_kept : forall i w, node sg i = Some (NWorkload w) -> ~ W (node_key (NWorkload w)) -> node sg' i = Some (NWorkload w);
  gr_from : forall i n, node sg' i = Some n -> node sg i = Some n \/ allowed n
}.

Definition contrib (o : option (SecurityGraph G)) sg (W : NodeKey -> Prop) (E : Edges) : Prop :=
  exists sg', o = Some sg' /\ grows sg sg' W E.

Lemma key_of_node sg i n : node sg i = Some n -> key_of sg i = Some (node_key n).
Proof. unfold node, key_of. by intros ->. Qed.

Lemma keys_kept_refl sg : keys_kept sg sg.
Proof. by intros i k. Qed.

Lemma keys_kept_trans a b c : keys_kept a b -> keys_kept b c -> keys_kept a c.
Proof. intros H1 H2 i k Hk. by apply H2, H1. Qed.

Lemma grows_refl sg W : graph_ok sg -> grows sg sg W no_edges.
Proof. intros Hok. split; [done|apply keys_kept_refl|unfold no_edges; tauto|done|by left]. Qed.

Lemma grows_trans a b c W E F : grows a b W E -> grows b c W F -> grows a c W (both E F).
Proof.
  intros [_ K1 E1 P1 F1] [O2 K2 E2 P2 F2]. split; [done|by eapply keys_kept_trans|..].
  - intros x r y. rewrite E2, E1. unfold both. tauto.
  - intros i w Hi HW. eauto.
  - intros i w Hi. apply F2 in Hi as [Hi|]; [|by right]. by apply F1.
Qed.

Lemma grows_iff a b W E F : (forall x r y, E x r y <-> F x r y) -> grows a b W E -> grows a b W F.
Proof. intros H [O K E1 P F1]. split; [done..| |done|done]. intros x r y. by rewrite E1, H. Qed.

(** The same edges between nodes that keep their keys are the same edges. *)
Lemma edge_in_same sg sg' :
  keys_kept sg sg' -> sg_edge_references (inner sg') = sg_edge_references (inner sg) ->
  forall a r b, edge_in sg' a r b <-> edge_in sg a r b.
Proof.
  intros Hk Hr a r b. unfold edge_in. rewrite Hr. split; intros (e & He & Ha & Hb & Hrel); exists e; [|by eauto 6].
  apply sg_edge_ends in He as Hends. destruct Hends as [[n Hn] [m Hm]]. split; [done|].
  assert (key_of sg (er_source e) = Some (node_key n)) as H1 by (unfold key_of; by rewrite Hn).
  assert (key_of sg (er_target e) = Some (node_key m)) as H2 by (unfold key_of; by rewrite Hm).
  apply Hk in H1 as H1', H2 as H2'. rewrite H1' in Ha. rewrite H2' in Hb. by simplify_eq.
Qed.

Lemma mark_grows sg W : graph_ok sg -> grows sg (mark_reachability_incomplete sg) W no_edges.
Proof. intros Hok. by destruct (grows_refl sg W Hok) as [O K E1 P F1]. Qed.

(** ** The operations *)

Lemma upsert_grows sg n W :
  graph_ok sg -> allowed n -> (forall w, n = NWorkload w -> W (node_key n)) ->
  grows sg (upsert_node sg n).1 W no_edges /\ key_of (upsert_node sg n).1 (upsert_node sg n).2 = Some (node_key n).
Proof.
  intros Hok Hs HW. pose proof (upsert_node_node sg n Hok) as [Hn Hother].
  assert (keys_kept sg (upsert_node sg n).1) as Hk.
  { intros i k Hi. destruct (decide (i = (upsert_node sg n).2)) as [->|Hne].
    - unfold key_of, node in *. rewrite Hn. simpl. apply graph_ok_key_of in Hi as Hix; [|done].
      destruct (index sg !! node_key n) as [j|] eqn:Hj.
      + assert ((upsert_node sg n).2 = j) as E by (unfold upsert_node; by rewrite Hj). rewrite E in Hi, Hix.
        apply graph_ok_index in Hj; [|done]. unfold key_of in Hj. congruence.
      + exfalso. unfold upsert_node in Hi. rewrite Hj in Hi. destruct (sg_add_node (inner sg) n) eqn:E. simpl in Hi.
        pose proof (sg_add_node_fresh (inner sg) n) as Hf. rewrite E in Hf. simpl in Hf. by rewrite Hf in Hi.
    - unfold key_of, node in *. by rewrite Hother. }
  split; [|by apply key_of_node]. split; [by apply upsert_node_ok|done|..].
  - intros a r b. rewrite (edge_in_same sg); [unfold no_edges; tauto|done|].
    unfold upsert_node. destruct (index sg !! node_key n) as [i|] eqn:Hi; simpl.
    + apply Hok in Hi as (m & ? & ?). by apply sg_set_node_refs.
    + pose proof (sg_add_node_refs (inner sg) n). by destruct (sg_add_node (inner sg) n).
  - intros i w Hi HnW. destruct (decide (i = (upsert_node sg n).2)) as [->|Hne]; [|by rewrite Hother]. exfalso.
    apply key_of_node in Hi as Hki. apply Hk in Hki. rewrite (key_of_node _ _ _ Hn) in Hki. injection Hki as Hki.
    destruct n as [w'| | | | | |]; try (pose proof (f_equal kind_of Hki) as Hkk; rewrite !kind_of_node_key in Hkk; done).
    apply HnW. change (W (key_workload (w_namespace w) (w_kind w) (w_name w))). rewrite <- Hki. by eapply HW.
  - intros i w Hi. destruct (decide (i = (upsert_node sg n).2)) as [->|Hne]; [|left; by rewrite <- Hother].
    right. rewrite Hn in Hi. injection Hi as ->. exact Hs.
Qed.

Lemma ensure_grows sg n W :
  graph_ok sg -> allowed n ->
  grows sg (ensure_node sg n).1 W no_edges /\ key_of (ensure_node sg n).1 (ensure_node sg n).2 = Some (node_key n).
Proof.
  intros Hok Hs. unfold ensure_node. destruct (index sg !! node_key n) as [i|] eqn:Hi; simpl.
  - split; [by apply grows_refl|by apply graph_ok_index].
  - assert (upsert_node sg n = ensure_node sg n) as Hu by (unfold upsert_node, ensure_node; by rewrite Hi).
    pose proof (upsert_grows sg n (fun _ => True) Hok Hs (fun _ _ => I)) as [[O K E _ F] Hk]. rewrite Hu in *.
    unfold ensure_node in *. rewrite Hi in *. pose proof (sg_add_node_fresh (inner sg) n) as Hf.
    pose proof (sg_add_node_weight (inner sg) n) as Hw. destruct (sg_add_node (inner sg) n) as [g' idx]. simpl in *.
    split; [|done]. split; [done..| |done]. intros j w Hj _. unfold node in *. simpl. rewrite Hw. case_decide; [congruence|done].
Qed.

Lemma connect_grows clock sg source rel a b ka kb W :
  graph_ok sg -> key_of sg a = Some ka -> key_of sg b = Some kb ->
  contrib (connect clock source rel sg a b) sg W (one_edge ka rel kb).
Proof.
  intros Hok Ha Hb. unfold connect, contrib. set (e := mkEdge rel _).
  assert (is_Some (sg_node_weight (inner sg) a)) as Hla by (unfold key_of in Ha; apply fmap_Some in Ha as (? & -> & _); eauto).
  assert (is_Some (sg_node_weight (inner sg) b)) as Hlb by (unfold key_of in Hb; apply fmap_Some in Hb as (? & -> & _); eauto).
  destruct (sg_add_edge_some (inner sg) a b e Hla Hlb) as (g' & id & Hg & Hw & Hr).
  assert (add_edge sg a b e = Some (mkGraph g' (index sg) (reachability_incomplete sg))) as Hadd by (unfold add_edge; by rewrite Hg).
  exists (mkGraph g' (index sg) (reachability_incomplete sg)). split; [done|].
  assert (forall i, key_of (mkGraph g' (index sg) (reachability_incomplete sg)) i = key_of sg i) as Hkey
    by (intros i; unfold key_of; simpl; by rewrite Hw).
  split; [by eapply add_edge_ok|..].
  - intros i k Hi. by rewrite Hkey.
  - intros x r y. unfold edge_in, one_edge. simpl. setoid_rewrite Hkey. setoid_rewrite Hr. setoid_rewrite elem_of_cons. split.
    + intros (r0 & [->|Hr0] & Hx & Hy & Hrel); [right|left; eauto 6]. simpl in *. split; [congruence|]. split; [done|congruence].
    + intros [(r0 & Hr0 & Hx & Hy & Hrel)|(-> & -> & ->)]; [eauto 7|]. eexists. split; [by left|]. done.
  - intros i w Hi _. unfold node in *. simpl. by rewrite Hw.
  - intros i w Hi. unfold node in *. simpl in Hi. rewrite Hw in Hi. by left.
Qed.

(** Layering a fact onto a node. *)
Lemma update_grows sg k f (W : NodeKey -> Prop) :
  graph_ok sg -> (forall n, node_key (f n) = node_key n) -> W k -> (forall n, node_key n = k -> allowed (f n)) ->
  contrib (update_node sg k f) sg W no_edges.
Proof.
  intros Hok Hf HW Hnm. unfold update_node, contrib. destruct (index sg !! k) as [i|] eqn:Hi.
  2: { exists sg. split; [done|by apply grows_refl]. }
  apply Hok in Hi as Hn. destruct Hn as (n & Hn & <-). rewrite Hn. simpl.
  set (sg' := mkGraph _ _ _). exists sg'. split; [done|].
  assert (forall j, node sg' j = if decide (j = i) then Some (f n) else node sg j) as Hnode.
  { intros j. unfold node, sg'. simpl. rewrite sg_set_node_weight by eauto. done. }
  assert (forall j, key_of sg' j = key_of sg j) as Hkey.
  { intros j. change (node_key <$> node sg' j = node_key <$> node sg j). rewrite Hnode. case_decide; [subst j|done].
    unfold node. rewrite Hn. simpl. by rewrite Hf. }
  split.
  - apply set_node_ok; [done|]. rewrite Hf. by apply graph_ok_node.
  - intros j x Hj. by rewrite Hkey.
  - intros a r b. rewrite (edge_in_same sg); [unfold no_edges; tauto|intros j x Hj; by rewrite Hkey|].
    unfold sg'. simpl. apply sg_set_node_refs. eauto.
  - intros j w Hj HnW. rewrite Hnode. case_decide; [subst j|done]. unfold node in Hj. rewrite Hn in Hj. injection Hj as ->. done.
  - intros j w Hj. rewrite Hnode in Hj. case_decide; [|by left]. right. injection Hj as <-. by apply Hnm.
Qed.

(** ** Composition *)

Lemma contrib_done sg W : graph_ok sg -> contrib (Some sg) sg W no_edges.
Proof. intros Hok. exists sg. split; [done|by apply grows_refl]. Qed.

Lemma contrib_iff o sg W E F : (forall a r b, E a r b <-> F a r b) -> contrib o sg W E -> contrib o sg W F.
Proof. intros H (sg' & -> & Hg). exists sg'. split; [done|by eapply grows_iff]. Qed.

Lemma contrib_after sg sg1 o W E F : grows sg sg1 W E -> contrib o sg1 W F -> contrib o sg W (both E F).
Proof. intros Hg (sg' & -> & Hg'). exists sg'. split; [done|by eapply grows_trans]. Qed.

Lemma contrib_bind (o : option (SecurityGraph G)) k sg W E F :
  contrib o sg W E -> (forall sg1, grows sg sg1 W E -> contrib (k sg1) sg1 W F) -> contrib (o ≫= k) sg W (both E F).
Proof. intros (sg1 & -> & Hg) Hk. simpl. by eapply contrib_after; [|apply Hk]. Qed.

Lemma contrib_silent sg sg1 o W E : grows sg sg1 W no_edges -> contrib o sg1 W E -> contrib o sg W E.
Proof. intros Hg Ho. eapply contrib_iff; [|by eapply contrib_after]. unfold both, no_edges. tauto. Qed.

Lemma contrib_upsert sg n k W E :
  graph_ok sg -> allowed n -> (forall w, n = NWorkload w -> W (node_key n)) ->
  (forall sg1 i, grows sg sg1 W no_edges -> key_of sg1 i = Some (node_key n) -> contrib (k sg1 i) sg1 W E) ->
  contrib (let '(sg1, i) := upsert_node sg n in k sg1 i) sg W E.
Proof.
  intros Hok Hs HW Hk. destruct (upsert_grows sg n W Hok Hs HW) as [Hg Hi]. destruct (upsert_node sg n) as [sg1 i].
  eapply contrib_silent; [done|]. by apply Hk.
Qed.

Lemma contrib_ensure sg n k W E :
  graph_ok sg -> allowed n ->
  (forall sg1 i, grows sg sg1 W no_edges -> key_of sg1 i = Some (node_key n) -> contrib (k sg1 i) sg1 W E) ->
  contrib (let '(sg1, i) := ensure_node sg n in k sg1 i) sg W E.
Proof.
  intros Hok Hs Hk. destruct (ensure_grows sg n W Hok Hs) as [Hg Hi]. destruct (ensure_node sg n) as [sg1 i].
  eapply contrib_silent; [done|]. by apply Hk.
Qed.

Lemma contrib_foldM {A} (f : SecurityGraph G -> A -> option (SecurityGraph G)) l sg W (E : A -> Edges) :
  graph_ok sg ->
  (forall x sg1, x ∈ l -> graph_ok sg1 -> keys_kept sg sg1 -> contrib (f sg1 x) sg1 W (E x)) ->
  contrib (foldM f sg l) sg W (any_of l E).
Proof.
  intros Hok Hf. induction l as [|x l IH] using rev_ind.
  - eapply contrib_iff; [|by apply contrib_done]. intros a r b. unfold no_edges, any_of. split; [done|].
    intros (x & Hx & _). by apply not_elem_of_nil in Hx.
  - rewrite foldM_snoc. eapply contrib_iff; [|apply contrib_bind with (E := any_of l E) (F := E x)].
    + intros a r b. unfold both, any_of. setoid_rewrite elem_of_app. setoid_rewrite list_elem_of_singleton. naive_solver.
    + apply IH. intros y sg1 Hy. apply Hf. apply elem_of_app. by left.
    + intros sg1 Hg. apply Hf; [apply elem_of_app; right; by left|apply Hg|apply Hg].
Qed.
End Growth.

(** ** What the objects of a snapshot declare *)

Definition pod_at (sn : Snapshot) (ns name : string) (pod : Pod) : Prop :=
  pod ∈ sn_pods sn /\ pod_namespace pod = ns /\ om_name (pod_meta pod) = Some name.

Definition pod_key (ns name : string) : NodeKey := key_workload ns "Pod" name.

Definition pod_keyed (sn : Snapshot) (k : NodeKey) : Prop := exists ns name pod, pod_at sn ns name pod /\ k = pod_key ns name.

(** A node stored under a pod's key is a workload. *)
Lemma pod_key_workload n ns name : node_key n = pod_key ns name -> exists w, n = NWorkload w.
Proof.
  intros H%(f_equal kind_of). change (pod_key ns name) with (node_key (workload_node ns name)) in H.
  rewrite !kind_of_node_key in H. destruct n; try done. eauto.
Qed.

(** What the structural adapters can put in the graph: pods, images without
    evidence, the internet, and of the capabilities only catalogued ones. *)
Definition observed_node (sn : Snapshot) (n : Node) : Prop :=
  match n with
  | NWorkload _ => pod_keyed sn (node_key n)
  | NCapability c => exists cap, cap ∈ CAPABILITY_CATALOG /\ c_verb c = dc_verb cap /\ c_resource c = dc_resource cap
  | NEndpoint e => ep_address e = "internet"
  | NImage im => im_vulnerabilities im = [] /\ im_exposed_secrets im = [] /\ im_static_binary im = None
  | _ => True
  end.

(** A service account a binding gives a rule to, in a namespace or cluster-wide. *)
Inductive bound (sn : Snapshot) : string * string -> option string -> PolicyRule -> Prop :=
  | bound_role rb id rule :
      let ns := default "default" (om_namespace (rb_meta rb)) in
      rb ∈ sn_role_bindings sn -> id ∈ service_accounts (rb_subjects rb) ns -> rule ∈ rules_for (rb_role_ref rb) ns sn ->
      bound sn id (Some ns) rule
  | bound_cluster crb id rule :
      crb ∈ sn_cluster_role_bindings sn -> id ∈ service_accounts (rb_subjects crb) "default" ->
      rule ∈ cluster_rules (rr_name (rb_role_ref crb)) sn -> bound sn id None rule.

(** The edges, by the objects that declare them. *)
Inductive declared (oci : string -> option OciReference) (sn : Snapshot) : NodeKey -> Relation -> NodeKey -> Prop :=
  | decl_runs_as ns name pod :
      pod_at sn ns name pod ->
      declared oci sn (pod_key ns name) RunsAs (node_key (NIdentity (mkIdentity ns (service_account pod))))
  | decl_runs_image ns name pod spec c image :
      pod_at sn ns name pod -> pod_spec pod = Some spec -> c ∈ all_containers spec -> ct_image c = Some image ->
      declared oci sn (pod_key ns name) RunsImage (key_image (canonical_image oci image))
  | decl_mounts ns name pod secret :
      pod_at sn ns name pod -> secret ∈ mounted_secrets pod ->
      declared oci sn (pod_key ns name) CanRead (node_key (NSecret (mkSecretRef ns secret)))
  | decl_netpol ns s src t tgt policy spec rule peer selector port protocol :
      pod_at sn ns s src -> pod_at sn ns t tgt -> s <> t ->
      policy ∈ sn_network_policies sn -> ingress_active policy = true -> npl_spec policy = Some spec ->
      default "default" (om_namespace (npl_meta policy)) = ns -> selector_matches_opt (nps_pod_selector spec) (pod_labels tgt) = true ->
      rule ∈ flat (nps_ingress spec) -> peer ∈ flat (ir_from rule) ->
      peer_namespace_selector peer = None -> peer_ip_block peer = None -> peer_pod_selector peer = Some selector ->
      selector_matches selector (pod_labels src) = true -> (port, protocol) ∈ ports (ir_ports rule) ->
      declared oci sn (pod_key ns s) (Reaches port protocol) (pod_key ns t)
  | decl_linkerd ns s src t tgt policy server :
      pod_at sn ns s src -> pod_at sn (lsv_namespace server) t tgt -> (ns, s) <> (lsv_namespace server, t) ->
      policy ∈ sn_linkerd_authz_policies sn -> target_server sn policy = Some server ->
      selector_matches (lsv_pod_selector server) (pod_labels tgt) = true ->
      (ns, service_account src) ∈ client_sas sn policy ->
      declared oci sn (pod_key ns s) (Reaches (lsv_port server) Tcp) (pod_key (lsv_namespace server) t)
  | decl_reads_secret id scope rule secret :
      bound sn id scope rule -> reads_secrets rule = true -> secret ∈ sn_secrets sn ->
      (forall ns, scope = Some ns -> sm_namespace secret = ns) -> names_secret rule (sm_name secret) = true ->
      declared oci sn (node_key (NIdentity (mkIdentity id.1 id.2))) (CanDo "get" "secrets")
        (node_key (NSecret (mkSecretRef (sm_namespace secret) (sm_name secret))))
  | decl_can_do id scope rule cap :
      bound sn id scope rule -> cap ∈ CAPABILITY_CATALOG -> grants rule cap = true ->
      declared oci sn (node_key (NIdentity (mkIdentity id.1 id.2))) (CanDo (dc_verb cap) (dc_resource cap))
        (node_key (NCapability (mkCapability (dc_verb cap) (dc_resource cap) (scope_of scope))))
  | decl_escapes ns name pod host via :
      pod_at sn ns name pod -> pod_spec pod ≫= sp_node_name = Some host -> via ∈ escape_vias pod ->
      declared oci sn (pod_key ns name) (EscapesTo via) (node_key (NHost (mkHost host)))
  | decl_scheduled ns name pod host :
      pod_at sn ns name pod -> pod_spec pod ≫= sp_node_name = Some host ->
      declared oci sn (pod_key ns name) ScheduledOn (node_key (NHost (mkHost host)))
  | decl_egress ns name pod via :
      pod_at sn ns name pod -> egress_via sn pod = Some via ->
      declared oci sn (pod_key ns name) (CanEgress via) (node_key (NEndpoint (mkEndpoint "internet"))).

(** A live controller of an ingress: its class resolves to a controller, and a
    service publishing an address of the ingress selects a pod under [P]. *)
Definition live (sn : Snapshot) (P : NodeKey -> Prop) (i : Ingress) : Prop :=
  exists class svc svc_lb cns selector ctl cname,
    resolve_ingress_class sn i = Some class /\ icl_controller class <> None /\ svc ∈ sn_services sn /\
    svc_load_balancer svc = Some svc_lb /\ om_namespace (svc_meta svc) = Some cns /\ svc_spec svc ≫= svs_selector = Some selector /\
    lb_addresses_overlap (flat (ing_load_balancer i)) svc_lb = true /\ ctl ∈ selected_pods sn cns selector /\
    om_name (pod_meta ctl) = Some cname /\ P (pod_key cns cname).

(** What faces the internet: what its services or annotations expose, and what
    an ingress of a live controller routes to, however long the chain. *)
Inductive internet_facing (sn : Snapshot) : NodeKey -> Prop :=
  | if_direct ns name pod :
      pod_at sn ns name pod -> pod_exposure sn pod = Internet -> internet_facing sn (pod_key ns name)
  | if_routed ns name pod i :
      pod_at sn ns name pod -> i ∈ sn_ingresses sn -> om_namespace (ing_meta i) = Some ns -> pod ∈ routed_pods sn ns i ->
      live sn (internet_facing sn) i -> internet_facing sn (pod_key ns name).

(** ** The structural adapters *)

Section Structural.
Context {G : Type} `{SGL : StableGraphLaws G Node Edge}.
Implicit Types sg : SecurityGraph G.
Variable oci : string -> option OciReference.
Variable clock : nat -> SystemTime.
Variable secret_iter : gset SecretGrant -> list SecretGrant.
Variable cap_iter : gset CapGrant -> list CapGrant.
Hypothesis secret_iter_spec : forall s, secret_iter s ≡ₚ elements s.
Hypothesis cap_iter_spec : forall s, cap_iter s ≡ₚ elements s.
Variable sn : Snapshot.

Abbreviation Edges := (NodeKey -> Relation -> NodeKey -> Prop).
Local Notation contrib := (contrib (observed_node sn)).
Local Notation grows := (grows (observed_node sn)).

Definition no_pod : NodeKey -> Prop := fun _ => False.

(** Loops over the pods with a name. *)
Definition over_pods (E : Pod -> string -> string -> Edges) : Edges :=
  fun a r b => exists ns name pod, pod_at sn ns name pod /\ E pod ns name a r b.

Lemma contrib_each_pod f sg W (E : Pod -> string -> string -> Edges) :
  graph_ok sg ->
  (forall ns name pod sg1, pod_at sn ns name pod -> graph_ok sg1 -> contrib (f sg1 pod name) sg1 W (E pod ns name)) ->
  contrib (each_pod f sn sg) sg W (over_pods E).
Proof.
  intros Hok Hf. unfold each_pod. eapply contrib_iff; [|apply contrib_foldM with (E := fun pod a r b =>
    exists name, om_name (pod_meta pod) = Some name /\ E pod (pod_namespace pod) name a r b)]; [|done|].
  - intros a r b. unfold any_of, over_pods, pod_at. split.
    + intros (pod & Hp & name & Hn & HE). eauto 10.
    + intros (ns & name & pod & (Hp & <- & Hn) & HE). eauto.
  - intros pod sg1 Hp Hok1 _. destruct (om_name (pod_meta pod)) as [name|] eqn:Hn.
    + eapply contrib_iff; [|apply (Hf (pod_namespace pod)); [done|done]]. intros a r b. split; [eauto|by intros (? & [= <-] & ?)].
    + eapply contrib_iff; [|by apply contrib_done]. intros a r b. unfold no_edges. split; [done|by intros (? & ? & _)].
Qed.

Lemma pod_storable ns name pod : pod_at sn ns name pod -> observed_node sn (workload_node ns name).
Proof. intros Hp. exists ns, name, pod. done. Qed.

Definition workload_edges (pod : Pod) (ns name : string) : Edges := fun a r b =>
  a = pod_key ns name /\
  ((r = RunsAs /\ b = node_key (NIdentity (mkIdentity ns (service_account pod)))) \/
   exists spec c image, pod_spec pod = Some spec /\ c ∈ all_containers spec /\ ct_image c = Some image /\
     r = RunsImage /\ b = key_image (canonical_image oci image)).


Lemma grows_weaken sg sg' W E : grows sg sg' no_pod E -> grows sg sg' W E.
Proof. intros [O K Ed P F]. split; [done..| |done]. intros i w Hi _. apply P; [done|by intros []]. Qed.

(** What one pod contributes: its node, as read, and its edges. *)
Lemma workload_step sg1 ns name pod :
  pod_at sn ns name pod -> graph_ok sg1 ->
  contrib (workload_pod oci clock sg1 pod name) sg1 (eq (pod_key ns name)) (workload_edges pod ns name) /\
  forall sg2, workload_pod oci clock sg1 pod name = Some sg2 -> exists i, node sg2 i = Some (NWorkload (workload_of pod name)).
Proof.
  intros Hp Hok1. destruct (Hp) as (_ & Hns & Hn).
  assert (node_key (NWorkload (workload_of pod name)) = pod_key ns name) as Hkey by (simpl; by rewrite Hns).
  destruct (upsert_grows (observed_node sn) sg1 (NWorkload (workload_of pod name)) (eq (pod_key ns name))) as [Hg2 Hwl];
    [done|by exists ns, name, pod|intros w _; symmetry; exact Hkey|].
  pose proof (upsert_node_node sg1 (NWorkload (workload_of pod name)) Hok1) as [Hnode _].
  unfold workload_pod. destruct (upsert_node sg1 (NWorkload (workload_of pod name))) as [sg2 wl]. simpl in Hg2, Hwl, Hnode.
  set (rest := let '(_, _) := upsert_node sg2 _ in _).
  assert (contrib rest sg2 no_pod (workload_edges pod ns name)) as (sg' & Hrest & Hg').
  { subst rest. apply contrib_upsert; [apply Hg2|done|done|]. intros sg3 id Hg3 Hid.
    eapply contrib_iff; [|eapply contrib_bind; [apply connect_grows; [apply Hg3|apply Hg3, Hwl|done]|]].
    2: { intros sg4 Hg4. instantiate (1 := fun a r b => exists spec c image, a = pod_key ns name /\ pod_spec pod = Some spec /\
           c ∈ all_containers spec /\ ct_image c = Some image /\ r = RunsImage /\ b = key_image (canonical_image oci image)).
      destruct (pod_spec pod) as [spec|] eqn:Hs.
      2: { eapply contrib_iff; [|apply contrib_done, Hg4]. intros a r b. unfold no_edges. naive_solver. }
      eapply contrib_iff; [|apply contrib_foldM with (E := fun image =>
        one_edge (pod_key ns name) RunsImage (key_image (canonical_image oci image)))].
      - intros a r b. unfold any_of, one_edge. split.
        + intros (image & Him & -> & -> & ->). apply list_elem_of_omap in Him as (c & Hc & Him). eauto 10.
        + intros (spec' & c & image & -> & [= <-] & Hc & Him & -> & ->). exists image. rewrite list_elem_of_omap. split; [by exists c|done].
      - apply Hg4.
      - intros image sg5 _ Hok5 Hk5. apply contrib_upsert; [done|done|done|]. intros sg6 img Hg6 Himg.
        apply connect_grows; [apply Hg6| |done]. rewrite <- Hkey. apply Hg6, Hk5, Hg4, Hg3, Hwl. }
    intros a r b. unfold both, one_edge, workload_edges. simpl. rewrite Hns. naive_solver. }
  split.
  - eapply contrib_silent; [exact Hg2|]. exists sg'. split; [exact Hrest|]. by apply grows_weaken.
  - intros sg'' Hsg''. replace sg'' with sg' by congruence. exists wl. apply (gr_kept _ _ _ _ _ Hg'); [done|by intros []].
Qed.

Lemma workload_contrib sg :
  graph_ok sg -> contrib (workload_adapter oci clock sn sg) sg (pod_keyed sn) (over_pods workload_edges).
Proof.
  intros Hok. apply contrib_each_pod; [done|]. intros ns name pod sg1 Hp Hok1.
  destruct (workload_step sg1 ns name pod Hp Hok1) as [(sg2 & -> & [O K E P F]) _]. exists sg2. split; [done|].
  split; [done..| |done]. intros i w Hi Hw. apply P; [done|]. intros Hk. apply Hw. exists ns, name, pod. done.
Qed.

Lemma secret_mount_contrib sg :
  graph_ok sg -> contrib (secret_mount_adapter clock sn sg) sg no_pod
    (over_pods (fun pod ns name => any_of (mounted_secrets pod) (fun secret =>
       one_edge (pod_key ns name) CanRead (node_key (NSecret (mkSecretRef ns secret)))))).
Proof.
  intros Hok. apply contrib_each_pod; [done|]. intros ns name pod sg1 Hp Hok1. destruct (Hp) as (_ & Hns & Hn). rewrite Hns.
  destruct (mounted_secrets pod) as [|s l].
  { eapply contrib_iff; [|by apply contrib_done]. intros a r b. unfold no_edges, any_of. split; [done|].
    intros (? & ?%not_elem_of_nil & _). done. }
  generalize (s :: l) as secrets. intros secrets. apply contrib_ensure; [done|by eapply pod_storable|]. intros sg2 wl Hg2 Hwl.
  apply contrib_foldM; [apply Hg2|]. intros secret sg3 _ Hok3 Hk3. apply contrib_upsert; [done|done|done|]. intros sg4 sec Hg4 Hsec.
  apply connect_grows; [apply Hg4|by apply Hg4, Hk3|done].
Qed.

(** *** Reachability *)

Lemma link_all_contrib source specs sources targets sg :
  graph_ok sg -> (forall s, s ∈ sources ++ targets -> exists pod, pod_at sn s.1 s.2 pod) ->
  contrib (link_all clock source specs sources targets sg) sg no_pod
    (any_of sources (fun s => any_of targets (fun t a r b => s <> t /\
       any_of specs (fun pp => one_edge (pod_key s.1 s.2) (Reaches pp.1 pp.2) (pod_key t.1 t.2)) a r b))).
Proof.
  intros Hok Hpods. apply contrib_foldM; [done|]. intros s sg1 Hs Hok1 _. apply contrib_foldM; [done|]. intros t sg2 Ht Hok2 _.
  destruct (Hpods s) as [ps Hps]; [apply elem_of_app; by left|]. destruct (Hpods t) as [pt Hpt]; [apply elem_of_app; by right|].
  case_bool_decide as Hst.
  { eapply contrib_iff; [|by apply contrib_done]. unfold no_edges. naive_solver. }
  apply contrib_ensure; [done|by eapply pod_storable|]. intros sg3 src Hg3 Hsrc.
  apply contrib_ensure; [apply Hg3|by eapply pod_storable|]. intros sg4 tgt Hg4 Htgt.
  eapply contrib_iff; [|apply contrib_foldM; [apply Hg4|]].
  2: { intros pp sg5 _ Hok5 Hk5. apply connect_grows; [done|by apply Hk5, Hg4|by apply Hk5]. }
  intros a r b. simpl. tauto.
Qed.

Lemma contrib_mark (b : bool) o sg W E :
  graph_ok sg -> (forall sg1, graph_ok sg1 -> contrib (o sg1) sg1 W E) ->
  contrib (o (if b then mark_reachability_incomplete sg else sg)) sg W E.
Proof. intros Hok Ho. destruct b; [|by apply Ho]. eapply contrib_silent; [by apply mark_grows|]. by apply Ho. Qed.

Lemma pod_index_elem ns name labels :
  (ns, name, labels) ∈ pod_index sn <-> exists pod, pod_at sn ns name pod /\ pod_labels pod = labels.
Proof.
  unfold pod_index, pod_at. rewrite list_elem_of_omap. split.
  - intros (pod & Hp & (n & Hn & [= -> -> ->])%fmap_Some). eauto 6.
  - intros (pod & (Hp & <- & Hn) & <-). exists pod. rewrite Hn. done.
Qed.

(** The pods of a namespace whose labels pass a test. *)
Lemma indexed_pods ns (f : gmap string string -> bool) s :
  s ∈ (fun p => p.1) <$> List.filter (fun p => bool_decide (p.1.1 = ns) && f p.2) (pod_index sn) <->
  s.1 = ns /\ exists pod, pod_at sn ns s.2 pod /\ f (pod_labels pod) = true.
Proof.
  rewrite list_elem_of_fmap. split.
  - intros ([[ns' name] labels] & -> & [Hf Hin]%elem_of_filter_b). bools. simpl in *. subst.
    apply pod_index_elem in Hin as (pod & Hp & <-). eauto.
  - destruct s as [ns' name]. intros (Hns & pod & Hp & Hf). simpl in *. subst ns'. exists (ns, name, pod_labels pod).
    split; [done|]. apply elem_of_filter_b. simpl. rewrite bool_decide_true, Hf by done. split; [done|]. apply pod_index_elem. eauto.
Qed.

Definition policy_edges (policy : NetworkPolicy) : Edges := fun a r b =>
  exists ns s src t tgt spec rule peer selector port protocol,
    pod_at sn ns s src /\ pod_at sn ns t tgt /\ s <> t /\ ingress_active policy = true /\ npl_spec policy = Some spec /\
    default "default" (om_namespace (npl_meta policy)) = ns /\ selector_matches_opt (nps_pod_selector spec) (pod_labels tgt) = true /\
    rule ∈ flat (nps_ingress spec) /\ peer ∈ flat (ir_from rule) /\ peer_namespace_selector peer = None /\
    peer_ip_block peer = None /\ peer_pod_selector peer = Some selector /\ selector_matches selector (pod_labels src) = true /\
    (port, protocol) ∈ ports (ir_ports rule) /\ a = pod_key ns s /\ r = Reaches port protocol /\ b = pod_key ns t.

Definition peer_edges (ns : string) (targets : list (string * string)) (specs : list (option N * Protocol)) (peer : NetworkPolicyPeer) :
    Edges := fun a r b =>
  exists s src t selector port protocol, pod_at sn ns s src /\ (ns, t) ∈ targets /\ s <> t /\
    peer_namespace_selector peer = None /\ peer_ip_block peer = None /\ peer_pod_selector peer = Some selector /\
    selector_matches selector (pod_labels src) = true /\ (port, protocol) ∈ specs /\
    a = pod_key ns s /\ r = Reaches port protocol /\ b = pod_key ns t.

Lemma peer_contrib ns targets specs peer sg :
  graph_ok sg -> (forall t, t ∈ targets -> t.1 = ns /\ exists pod, pod_at sn ns t.2 pod) ->
  contrib (peer_links clock (pod_index sn) ns targets specs sg peer) sg no_pod (peer_edges ns targets specs peer).
Proof.
  intros Hok Ht. unfold peer_links.
  destruct (decide (peer_namespace_selector peer = None /\ peer_ip_block peer = None)) as [[Hn Hi]|Hno].
  2: { assert (bool_decide (is_Some (peer_namespace_selector peer)) || bool_decide (is_Some (peer_ip_block peer)) = true) as ->.
    { rewrite orb_true_iff, !bool_decide_eq_true, <- !not_eq_None_Some. destruct (peer_namespace_selector peer), (peer_ip_block peer); naive_solver. }
    eapply contrib_silent; [by apply mark_grows|]. eapply contrib_iff; [|apply contrib_done, Hok].
    unfold no_edges, peer_edges. naive_solver. }
  rewrite Hn, Hi. simpl. destruct (peer_pod_selector peer) as [selector|] eqn:Hsel.
  2: { eapply contrib_iff; [|apply contrib_done, Hok]. unfold no_edges, peer_edges. naive_solver. }
  apply contrib_mark; [done|]. intros sg1 Hok1. set (sources := _ <$> _).
  assert (forall s, s ∈ sources <-> s.1 = ns /\ exists pod, pod_at sn ns s.2 pod /\ selector_matches selector (pod_labels pod) = true)
    as Hsrc by (intros s; apply indexed_pods).
  eapply contrib_iff; [|apply link_all_contrib; [done|]].
  - intros a r b. unfold any_of, one_edge, peer_edges. split.
    + intros ([s1 s] & Hs & [t1 t] & Htt & Hst & [port protocol] & Hpp & -> & -> & ->).
      apply Hsrc in Hs as (Hs1 & src & Hps & Hm). destruct (Ht _ Htt) as (Ht1 & _). simpl in *. subst.
      exists s, src, t, selector, port, protocol. repeat (split; [done|]). split; [congruence|]. by repeat (split; [done|]).
    + intros (s & src & t & sel & port & protocol & Hs & Htt & Hst & _ & _ & Hsl & Hm & Hpp & -> & -> & ->). simplify_eq.
      exists (ns, s). split; [apply Hsrc; eauto|]. exists (ns, t). split; [done|]. split; [congruence|]. exists (port, protocol). done.
  - intros x [Hx|Hx]%elem_of_app; [apply Hsrc in Hx as (<- & pod & Hp & _)|apply Ht in Hx as (<- & pod & Hp)]; eauto.
Qed.

Lemma policy_contrib policy sg : graph_ok sg -> contrib (policy_links clock (pod_index sn) sg policy) sg no_pod (policy_edges policy).
Proof.
  intros Hok. unfold policy_links. destruct (ingress_active policy) eqn:Hact; simpl.
  2: { eapply contrib_iff; [|by apply contrib_done]. intros a r b. split; [done|].
    intros (ns & s & src & t & tgt & spec & rule & peer & sel & port & pr & _ & _ & _ & Ha & _). congruence. }
  destruct (npl_spec policy) as [spec|] eqn:Hspec.
  2: { eapply contrib_iff; [|by apply contrib_done]. intros a r b. split; [done|].
    intros (ns & s & src & t & tgt & spec & rule & peer & sel & port & pr & _ & _ & _ & _ & Ha & _). congruence. }
  set (ns := default _ _). set (targets := _ <$> _).
  match goal with |- contrib (if bool_decide _ then Some ?g else foldM _ ?g _) _ _ _ => set (sg0 := g) end.
  assert (grows sg sg0 no_pod no_edges) as Hg0.
  { unfold sg0. destruct (nps_pod_selector spec) as [s|]; [destruct (has_match_expressions s)|]; eauto using mark_grows, grows_refl. }
  eapply contrib_silent; [done|]. destruct Hg0 as [Hok0 _ _ _ _]. clearbody sg0.
  assert (forall t, t ∈ targets <-> t.1 = ns /\ exists pod, pod_at sn ns t.2 pod /\
    selector_matches_opt (nps_pod_selector spec) (pod_labels pod) = true) as Htargets by (intros t; apply indexed_pods).
  case_bool_decide as Hnil.
  { eapply contrib_iff; [|by apply contrib_done]. intros a r b. split; [done|].
    intros (ns' & s & src & t & tgt & spec' & rule & peer & sel & port & pr & _ & Ht & _ & _ & Hs' & Hns & Hm & _).
    simplify_eq. destruct (not_elem_of_nil (ns, t)). rewrite <- Hnil. apply Htargets. eauto. }
  eapply contrib_iff; [|apply contrib_foldM with (E := fun rule =>
    any_of (flat (ir_from rule)) (peer_edges ns targets (ports (ir_ports rule)))); [done|]].
  - intros a r b. unfold any_of, policy_edges, peer_edges. split.
    + intros (rule & Hrule & peer & Hpeer & s & src & t & selector & port & protocol & Hs & Ht & Hst & H).
      apply Htargets in Ht as (_ & tgt & Ht & Hm). simpl in *. destruct_and! H.
      exists ns, s, src, t, tgt, spec, rule, peer, selector, port, protocol. by repeat (split; [done|]).
    + intros (ns' & s & src & t & tgt & spec' & rule & peer & selector & port & protocol & H). destruct_and! H. simplify_eq.
      exists rule. split; [done|]. exists peer. split; [done|]. exists s, src, t, selector, port, protocol.
      split; [done|]. split; [apply Htargets; eauto|]. by repeat (split; [done|]).
  - intros rule sg1 Hrule Hok1 _. apply contrib_foldM; [done|]. intros peer sg2 Hpeer Hok2 _. apply peer_contrib; [done|].
    intros t (Ht & pod & Hp & _)%Htargets. eauto.
Qed.

Lemma reachability_contrib sg :
  graph_ok sg -> contrib (reachability_adapter clock sn sg) sg no_pod (any_of (sn_network_policies sn) policy_edges).
Proof. intros Hok. apply contrib_foldM; [done|]. intros policy sg1 _ Hok1 _. by apply policy_contrib. Qed.

(** *** Linkerd *)

Lemma infos_pods (f : PodInfo -> bool) s :
  s ∈ pair_of <$> List.filter f (pod_infos sn) <->
  exists pod, pod_at sn s.1 s.2 pod /\ f (mkPodInfo s.1 s.2 (pod_labels pod) (service_account pod)) = true.
Proof.
  rewrite list_elem_of_fmap. split.
  - intros (p & -> & [Hf Hin]%elem_of_filter_b). unfold pod_infos in Hin. apply list_elem_of_omap in Hin as (pod & Hp & Hn).
    apply fmap_Some in Hn as (n & Hn & ->). exists pod. split; [done|done].
  - intros (pod & (Hp & Hns & Hn) & Hf). eexists. split; [|apply elem_of_filter_b; split; [exact Hf|]].
    + by destruct s.
    + unfold pod_infos. apply list_elem_of_omap. exists pod. split; [done|]. by rewrite Hn, <- Hns.
Qed.

Definition authz_edges (policy : LinkerdAuthzPolicy) : Edges := fun a r b =>
  exists ns s src t tgt server, pod_at sn ns s src /\ pod_at sn (lsv_namespace server) t tgt /\
    (ns, s) <> (lsv_namespace server, t) /\ target_server sn policy = Some server /\
    selector_matches (lsv_pod_selector server) (pod_labels tgt) = true /\ (ns, service_account src) ∈ client_sas sn policy /\
    a = pod_key ns s /\ r = Reaches (lsv_port server) Tcp /\ b = pod_key (lsv_namespace server) t.

Lemma authz_contrib policy sg : graph_ok sg -> contrib (authz_links clock sn (pod_infos sn) sg policy) sg no_pod (authz_edges policy).
Proof.
  intros Hok. unfold authz_links. destruct (target_server sn policy) as [server|] eqn:Hserver.
  2: { eapply contrib_iff; [|by apply contrib_done]. intros a r b. split; [done|].
    intros (ns & s & src & t & tgt & server & _ & _ & _ & H & _). congruence. }
  set (targets := pair_of <$> _). set (sources := pair_of <$> _).
  assert (forall t, t ∈ targets <-> t.1 = lsv_namespace server /\ exists pod, pod_at sn t.1 t.2 pod /\
    selector_matches (lsv_pod_selector server) (pod_labels pod) = true) as Ht.
  { intros t. unfold targets. rewrite infos_pods. simpl. setoid_rewrite andb_true_iff. setoid_rewrite bool_decide_eq_true. naive_solver. }
  assert (forall s, s ∈ sources <-> exists pod, pod_at sn s.1 s.2 pod /\ (s.1, service_account pod) ∈ client_sas sn policy) as Hs.
  { intros s. unfold sources. rewrite infos_pods. simpl. by setoid_rewrite bool_decide_eq_true. }
  clearbody targets sources.
  apply (contrib_mark (has_match_expressions (lsv_pod_selector server))
    (fun sg => if bool_decide (targets = []) then Some sg else link_all clock "linkerd" [(lsv_port server, Tcp)] sources targets sg)); [done|].
  intros sg1 Hok1. case_bool_decide as Hnil.
  { eapply contrib_iff; [|by apply contrib_done]. intros a r b. split; [done|].
    intros (ns & s & src & t & tgt & server' & _ & Hpt & _ & Hsv & Hm & _). simplify_eq.
    destruct (not_elem_of_nil (lsv_namespace server, t)). apply Ht. eauto. }
  eapply contrib_iff; [|apply link_all_contrib; [done|]].
  - intros a r b. unfold any_of, one_edge, authz_edges. split.
    + intros ([ns s] & (src & Hps & Hsa)%Hs & [nt t] & (Hnt & tgt & Hpt & Hm)%Ht & Hst & pp & ->%list_elem_of_singleton & -> & -> & ->).
      simpl in *. subst nt. exists ns, s, src, t, tgt, server. by repeat (split; [done|]).
    + intros (ns & s & src & t & tgt & server' & Hps & Hpt & Hst & Hsv & Hm & Hsa & -> & -> & ->). simplify_eq.
      exists (ns, s). split; [apply Hs; eauto|]. exists (lsv_namespace server, t). split; [apply Ht; eauto|]. split; [done|].
      exists (lsv_port server, Tcp). split; [by apply list_elem_of_singleton|done].
  - intros x [Hx|Hx]%elem_of_app; [apply Hs in Hx as (pod & Hp & _)|apply Ht in Hx as (_ & pod & Hp & _)]; eauto.
Qed.

Lemma linkerd_contrib sg :
  graph_ok sg -> contrib (linkerd_adapter clock sn sg) sg no_pod (any_of (sn_linkerd_authz_policies sn) authz_edges).
Proof. intros Hok. apply contrib_foldM; [done|]. intros policy sg1 _ Hok1 _. by apply authz_contrib. Qed.

(** *** Privilege *)

Lemma bound_spec id scope rule :
  bound sn id scope rule <-> exists subjects, (subjects, scope, rule) ∈ bound_rules sn /\ id ∈ subjects.
Proof.
  unfold bound_rules. setoid_rewrite elem_of_app. setoid_rewrite list_elem_of_bind. split.
  - destruct 1 as [rb id rule ns Hrb Hid Hrule|crb id rule Hcrb Hid Hrule]; eexists; (split; [|exact Hid]); [left|right];
      eexists; (split; [|eassumption]); simpl; try fold ns;
      rewrite bool_decide_false by (intros E; rewrite E in Hid; by apply not_elem_of_nil in Hid);
      apply list_elem_of_fmap; by exists rule.
  - intros (subjects & [(rb & Hin & Hrb)|(crb & Hin & Hcrb)] & Hid);
      (case_bool_decide; [by apply not_elem_of_nil in Hin|]); apply list_elem_of_fmap in Hin as (rule' & [= -> -> ->] & Hrule);
      by econstructor.
Qed.

Lemma secret_grants_spec id_ns id_name sec_ns sec_name :
  (id_ns, id_name, sec_ns, sec_name) ∈ secret_grants sn <->
  exists scope rule secret, bound sn (id_ns, id_name) scope rule /\ reads_secrets rule = true /\ secret ∈ sn_secrets sn /\
    (forall ns, scope = Some ns -> sm_namespace secret = ns) /\ names_secret rule (sm_name secret) = true /\
    sec_ns = sm_namespace secret /\ sec_name = sm_name secret.
Proof.
  unfold secret_grants. rewrite elem_of_list_to_set, list_elem_of_bind. setoid_rewrite bound_spec. split.
  - intros ([[subjects scope] rule] & Hin & Hb). unfold secret_grants_of in Hin. simpl in Hin.
    destruct (reads_secrets rule) eqn:Hr; [|by apply not_elem_of_nil in Hin].
    apply list_elem_of_bind in Hin as (secret & Hin & [Hf Hsec]%elem_of_filter_b). apply list_elem_of_fmap in Hin as ([i1 i2] & [= -> -> -> ->] & Hid).
    bools. exists scope, rule, secret. split; [eauto|]. split; [done|]. split; [done|]. split; [|done].
    intros ns ->. by apply bool_decide_eq_true in H.
  - intros (scope & rule & secret & (subjects & Hb & Hid) & Hr & Hsec & Hns & Hn & -> & ->).
    exists (subjects, scope, rule). split; [|done]. unfold secret_grants_of. simpl. rewrite Hr. apply list_elem_of_bind.
    exists secret. split; [apply list_elem_of_fmap; by exists (id_ns, id_name)|]. apply elem_of_filter_b. split; [|done].
    rewrite Hn, andb_true_r. destruct scope; [|done]. apply bool_decide_eq_true. by apply Hns.
Qed.

Lemma cap_grants_spec id_ns id_name scope verb resource :
  (id_ns, id_name, scope, verb, resource) ∈ cap_grants sn <->
  exists rule cap, bound sn (id_ns, id_name) scope rule /\ cap ∈ CAPABILITY_CATALOG /\ grants rule cap = true /\
    verb = dc_verb cap /\ resource = dc_resource cap.
Proof.
  unfold cap_grants. rewrite elem_of_list_to_set, list_elem_of_bind. setoid_rewrite bound_spec. split.
  - intros ([[subjects scope'] rule] & Hin & Hb). unfold cap_grants_of in Hin. cbn [fst snd] in Hin.
    apply list_elem_of_bind in Hin as (cap & Hin & [Hg Hcap]%elem_of_filter_b).
    apply list_elem_of_fmap in Hin as ([i1 i2] & [= -> -> -> -> ->] & Hid). exists rule, cap. eauto 8.
  - intros (rule & cap & (subjects & Hb & Hid) & Hcap & Hg & -> & ->). exists (subjects, scope, rule). split; [|done].
    unfold cap_grants_of. cbn [fst snd]. apply list_elem_of_bind. exists cap.
    split; [apply list_elem_of_fmap; by exists (id_ns, id_name)|by apply elem_of_filter_b].
Qed.

Definition grant_edges : Edges := fun a r b =>
  (exists id scope rule secret, bound sn id scope rule /\ reads_secrets rule = true /\ secret ∈ sn_secrets sn /\
     (forall ns, scope = Some ns -> sm_namespace secret = ns) /\ names_secret rule (sm_name secret) = true /\
     a = node_key (NIdentity (mkIdentity id.1 id.2)) /\ r = CanDo "get" "secrets" /\
     b = node_key (NSecret (mkSecretRef (sm_namespace secret) (sm_name secret)))) \/
  (exists id scope rule cap, bound sn id scope rule /\ cap ∈ CAPABILITY_CATALOG /\ grants rule cap = true /\
     a = node_key (NIdentity (mkIdentity id.1 id.2)) /\ r = CanDo (dc_verb cap) (dc_resource cap) /\
     b = node_key (NCapability (mkCapability (dc_verb cap) (dc_resource cap) (scope_of scope)))).

Lemma privilege_contrib sg :
  graph_ok sg -> contrib (privilege_adapter clock secret_iter cap_iter sn sg) sg no_pod grant_edges.
Proof.
  intros Hok. eapply contrib_iff; [|eapply contrib_bind; [apply contrib_foldM with (E := fun g : SecretGrant =>
    one_edge (node_key (NIdentity (mkIdentity g.1.1.1 g.1.1.2))) (CanDo "get" "secrets") (node_key (NSecret (mkSecretRef g.1.2 g.2)))); [done|]
    |intros sg1 Hg1; apply contrib_foldM with (E := fun g : CapGrant =>
    one_edge (node_key (NIdentity (mkIdentity g.1.1.1.1 g.1.1.1.2))) (CanDo g.1.2 g.2)
      (node_key (NCapability (mkCapability g.1.2 g.2 (scope_of g.1.1.2))))); [apply Hg1|]]].
  - intros a r b. unfold both, any_of, one_edge, grant_edges. setoid_rewrite secret_iter_spec. setoid_rewrite cap_iter_spec.
    setoid_rewrite elem_of_elements. f_equiv; split.
    + intros ([[[i1 i2] s1] s2] & Hin & -> & -> & ->). apply secret_grants_spec in Hin as (scope & rule & secret & H). destruct_and! H. subst.
      exists (i1, i2), scope, rule, secret. by repeat (split; [done|]).
    + intros ([i1 i2] & scope & rule & secret & H). destruct_and! H. subst. exists (i1, i2, sm_namespace secret, sm_name secret).
      split; [apply secret_grants_spec; eauto 12|done].
    + intros ([[[[i1 i2] scope] v] res] & Hin & -> & -> & ->). apply cap_grants_spec in Hin as (rule & cap & H). destruct_and! H. subst.
      exists (i1, i2), scope, rule, cap. by repeat (split; [done|]).
    + intros ([i1 i2] & scope & rule & cap & H). destruct_and! H. subst. exists (i1, i2, scope, dc_verb cap, dc_resource cap).
      split; [apply cap_grants_spec; eauto 8|done].
  - intros [[[i1 i2] s1] s2] sg1 _ Hok1 _. apply contrib_upsert; [done|done|done|]. intros sg2 id Hg2 Hid.
    apply contrib_upsert; [apply Hg2|done|done|]. intros sg3 sec Hg3 Hsec. apply connect_grows; [apply Hg3|by apply Hg3|done].
  - intros [[[[i1 i2] scope] v] res] sg2 Hin Hok2 _. rewrite cap_iter_spec, elem_of_elements in Hin.
    apply cap_grants_spec in Hin as (rule & c & _ & Hc & _ & -> & ->).
    apply contrib_upsert; [done|done|done|]. intros sg3 id Hg3 Hid. apply contrib_upsert; [apply Hg3|by exists c|done|]. intros sg4 cap Hg4 Hcap. apply connect_grows; [apply Hg4|by apply Hg4|done].
Qed.

(** *** Escape, placement, egress *)

Definition host_edges (rels : Pod -> list Relation) (pod : Pod) (ns name : string) : Edges := fun a r b =>
  exists host, pod_spec pod ≫= sp_node_name = Some host /\ r ∈ rels pod /\ a = pod_key ns name /\ b = node_key (NHost (mkHost host)).

Lemma escape_contrib sg :
  graph_ok sg -> contrib (host_escape_adapter clock sn sg) sg no_pod (over_pods (host_edges (fun pod => EscapesTo <$> escape_vias pod))).
Proof.
  intros Hok. apply contrib_each_pod; [done|]. intros ns name pod sg1 Hp Hok1. destruct (Hp) as (_ & Hns & Hn).
  destruct (escape_vias pod) as [|v l] eqn:Hv.
  { eapply contrib_iff; [|by apply contrib_done]. intros a r b. unfold no_edges, host_edges. rewrite Hv. split; [done|].
    intros (? & _ & ?%not_elem_of_nil & _). done. }
  destruct (pod_spec pod ≫= sp_node_name) as [host|] eqn:Hh.
  2: { eapply contrib_iff; [|by apply contrib_done]. intros a r b. unfold no_edges, host_edges. split; [done|].
    intros (? & ? & _). congruence. }
  rewrite <- Hv. rewrite Hns. apply contrib_ensure; [done|by eapply pod_storable|]. intros sg2 wl Hg2 Hwl.
  apply contrib_upsert; [apply Hg2|done|done|]. intros sg3 h Hg3 Hh3.
  eapply contrib_iff; [|apply contrib_foldM with (E := fun via => one_edge (pod_key ns name) (EscapesTo via) (node_key (NHost (mkHost host))));
    [apply Hg3|]].
  - intros a r b. unfold any_of, one_edge, host_edges. split.
    + intros (via & Hvia & -> & -> & ->). exists host. rewrite list_elem_of_fmap. split; [done|]. split; [by exists via|done].
    + intros (host' & Hh' & (via & -> & Hvia)%list_elem_of_fmap & -> & ->). simplify_eq. by exists via.
  - intros via sg4 _ Hok4 Hk4. apply connect_grows; [done|by apply Hk4, Hg3|by apply Hk4].
Qed.

Lemma placement_contrib sg :
  graph_ok sg -> contrib (placement_adapter clock sn sg) sg no_pod (over_pods (host_edges (fun _ => [ScheduledOn]))).
Proof.
  intros Hok. apply contrib_each_pod; [done|]. intros ns name pod sg1 Hp Hok1. destruct (Hp) as (_ & Hns & Hn).
  destruct (pod_spec pod ≫= sp_node_name) as [host|] eqn:Hh.
  2: { eapply contrib_iff; [|by apply contrib_done]. intros a r b. unfold no_edges, host_edges. split; [done|].
    intros (? & ? & _). congruence. }
  rewrite Hns. apply contrib_ensure; [done|by eapply pod_storable|]. intros sg2 wl Hg2 Hwl.
  apply contrib_upsert; [apply Hg2|done|done|]. intros sg3 h Hg3 Hh3.
  eapply contrib_iff; [|apply connect_grows; [apply Hg3|by apply Hg3|done]].
  intros a r b. unfold one_edge, host_edges. setoid_rewrite list_elem_of_singleton. naive_solver.
Qed.

Lemma egress_contrib sg :
  graph_ok sg -> contrib (egress_adapter clock sn sg) sg no_pod (over_pods (fun pod ns name a r b =>
    exists via, egress_via sn pod = Some via /\
      one_edge (pod_key ns name) (CanEgress via) (node_key (NEndpoint (mkEndpoint "internet"))) a r b)).
Proof.
  intros Hok. apply contrib_each_pod; [done|]. intros ns name pod sg1 Hp Hok1. destruct (Hp) as (_ & Hns & Hn).
  destruct (egress_via sn pod) as [via|] eqn:Hv.
  2: { eapply contrib_iff; [|by apply contrib_done]. unfold no_edges. naive_solver. }
  rewrite Hns. apply contrib_ensure; [done|by eapply pod_storable|]. intros sg2 wl Hg2 Hwl.
  apply contrib_ensure; [apply Hg2|done|]. intros sg3 net Hg3 Hnet.
  eapply contrib_iff; [|apply connect_grows; [apply Hg3|by apply Hg3|done]]. naive_solver.
Qed.

(** *** All of them *)

Lemma declared_split a r b :
  (over_pods workload_edges a r b \/
   over_pods (fun pod ns name => any_of (mounted_secrets pod) (fun secret =>
     one_edge (pod_key ns name) CanRead (node_key (NSecret (mkSecretRef ns secret))))) a r b \/
   any_of (sn_network_policies sn) policy_edges a r b \/ any_of (sn_linkerd_authz_policies sn) authz_edges a r b \/
   grant_edges a r b \/ over_pods (host_edges (fun pod => EscapesTo <$> escape_vias pod)) a r b \/
   over_pods (host_edges (fun _ => [ScheduledOn])) a r b \/
   over_pods (fun pod ns name a r b => exists via, egress_via sn pod = Some via /\
     one_edge (pod_key ns name) (CanEgress via) (node_key (NEndpoint (mkEndpoint "internet"))) a r b) a r b \/ False) <->
  declared oci sn a r b.
Proof.
  unfold over_pods, workload_edges, any_of, one_edge, host_edges. split.
  - intros [(ns & name & pod & Hp & -> & [[-> ->]|(spec & c & image & H)])|[H|[H|[H|[H|[H|[H|[H|[]]]]]]]]].
    + by eapply decl_runs_as.
    + destruct_and! H. subst. by eapply decl_runs_image.
    + destruct H as (ns & name & pod & Hp & secret & Hs & -> & -> & ->). by eapply decl_mounts.
    + destruct H as (policy & Hpol & ns & s & src & t & tgt & spec & rule & peer & selector & port & protocol & H).
      destruct_and! H. subst. by eapply decl_netpol.
    + destruct H as (policy & Hpol & ns & s & src & t & tgt & server & H). destruct_and! H. subst. by eapply decl_linkerd.
    + destruct H as [(id & scope & rule & secret & H)|(id & scope & rule & cap & H)]; destruct_and! H; subst;
        [by eapply decl_reads_secret|by eapply decl_can_do].
    + destruct H as (ns & name & pod & Hp & host & Hh & (via & -> & Hv)%list_elem_of_fmap & -> & ->). by eapply decl_escapes.
    + destruct H as (ns & name & pod & Hp & host & Hh & ->%list_elem_of_singleton & -> & ->). by eapply decl_scheduled.
    + destruct H as (ns & name & pod & Hp & via & Hv & -> & -> & ->). by eapply decl_egress.
  - destruct 1.
    + left. exists ns, name, pod. eauto.
    + left. exists ns, name, pod. split; [done|]. split; [done|]. right. exists spec, c, image. done.
    + right; left. exists ns, name, pod. eauto 6.
    + do 2 right; left. exists policy. split; [done|]. exists ns, s, src, t, tgt, spec, rule, peer, selector, port, protocol. done.
    + do 3 right; left. exists policy. split; [done|]. exists ns, s, src, t, tgt, server. done.
    + do 4 right; left; left. exists id, scope, rule, secret. done.
    + do 4 right; left; right. exists id, scope, rule, cap. done.
    + do 5 right; left. exists ns, name, pod. split; [done|]. exists host. rewrite list_elem_of_fmap.
      split; [done|]. split; [by exists via|done].
    + do 6 right; left. exists ns, name, pod. split; [done|]. by exists host; rewrite list_elem_of_singleton.
    + do 7 right; left. exists ns, name, pod. split; [done|]. exists via. done.
Qed.

Lemma build_cons sg (c : Snapshot -> SecurityGraph G -> option (SecurityGraph G)) cs :
  foldM (fun sg contribute => contribute sn sg) sg (c :: cs) = c sn sg ≫= fun sg => foldM (fun sg contribute => contribute sn sg) sg cs.
Proof. exact (foldM_cons (fun sg contribute => contribute sn sg) sg c cs). Qed.

(** Everything after the workloads keeps them as they are. *)
Lemma structural_contrib sg :
  graph_ok sg -> exists sg1 sg', workload_adapter oci clock sn sg = Some sg1 /\
    grows sg sg1 (pod_keyed sn) (over_pods workload_edges) /\
    foldM (fun sg contribute => contribute sn sg) sg (structural_adapters oci clock secret_iter cap_iter) = Some sg' /\
    (exists E, grows sg1 sg' no_pod E /\
       forall a r b, (over_pods workload_edges a r b \/ E a r b) <-> declared oci sn a r b).
Proof.
  intros Hok. destruct (workload_contrib sg Hok) as (sg1 & H1 & Hg1). exists sg1.
  assert (contrib (foldM (fun sg contribute => contribute sn sg) sg1
    [secret_mount_adapter clock; reachability_adapter clock; linkerd_adapter clock; privilege_adapter clock secret_iter cap_iter;
     host_escape_adapter clock; placement_adapter clock; egress_adapter clock]) sg1 no_pod
    (both (over_pods (fun pod ns name => any_of (mounted_secrets pod) (fun secret =>
       one_edge (pod_key ns name) CanRead (node_key (NSecret (mkSecretRef ns secret))))))
    (both (any_of (sn_network_policies sn) policy_edges) (both (any_of (sn_linkerd_authz_policies sn) authz_edges)
    (both grant_edges (both (over_pods (host_edges (fun pod => EscapesTo <$> escape_vias pod)))
    (both (over_pods (host_edges (fun _ => [ScheduledOn])))
    (both (over_pods (fun pod ns name a r b => exists via, egress_via sn pod = Some via /\
      one_edge (pod_key ns name) (CanEgress via) (node_key (NEndpoint (mkEndpoint "internet"))) a r b)) no_edges)))))))) as (sg' & Hf & Hg').
  { rewrite build_cons. apply contrib_bind; [apply secret_mount_contrib, Hg1|intros sg2 Hg2].
    rewrite build_cons. apply contrib_bind; [apply reachability_contrib, Hg2|intros sg3 Hg3].
    rewrite build_cons. apply contrib_bind; [apply linkerd_contrib, Hg3|intros sg4 Hg4].
    rewrite build_cons. apply contrib_bind; [apply privilege_contrib, Hg4|intros sg5 Hg5].
    rewrite build_cons. apply contrib_bind; [apply escape_contrib, Hg5|intros sg6 Hg6].
    rewrite build_cons. apply contrib_bind; [apply placement_contrib, Hg6|intros sg7 Hg7].
    rewrite build_cons. apply contrib_bind; [apply egress_contrib, Hg7|intros sg8 Hg8].
    apply contrib_done, Hg8. }
  exists sg'. split; [done|]. split; [done|]. split; [unfold structural_adapters; by rewrite build_cons, H1|].
  eexists. split; [exact Hg'|]. intros a r b. unfold both, no_edges. apply declared_split.
Qed.

(** ** Exposure *)

(** Pods with distinct keys, as the API server guarantees. *)
Hypothesis pods_distinct : forall ns name p ns' name' q,
  pod_at sn ns name p -> pod_at sn ns' name' q -> pod_key ns name = pod_key ns' name' -> p = q.

(** Every pod has its workload, as read but for the exposure. *)
Definition stored sg (exposure : Pod -> Exposure -> Prop) : Prop :=
  forall ns name pod, pod_at sn ns name pod ->
    exists i e, node sg i = Some (NWorkload (with_exposure e (workload_of pod name))) /\ exposure pod e.

Lemma workload_key e ns name pod :
  pod_at sn ns name pod -> node_key (NWorkload (with_exposure e (workload_of pod name))) = pod_key ns name.
Proof. intros (_ & Hns & _). simpl. by rewrite Hns. Qed.

Lemma same_pod ns name pod name' q :
  pod_at sn ns name pod -> om_name (pod_meta q) = Some name' -> pod = q -> name' = name.
Proof. intros (_ & _ & Hn) Hq ->. congruence. Qed.

(** The workloads of a prefix of the pods. *)
Lemma workloads_stored sg sg' :
  graph_ok sg -> workload_adapter oci clock sn sg = Some sg' -> stored sg' (fun _ e => e = Internal).
Proof.
  intros Hok Hf. unfold workload_adapter, each_pod in Hf.
  assert (forall l sg', (forall p, p ∈ l -> p ∈ sn_pods sn) ->
    foldM (fun sg pod => match om_name (pod_meta pod) with Some name => workload_pod oci clock sg pod name | None => Some sg end) sg l = Some sg' ->
    graph_ok sg' /\ forall ns name pod, pod_at sn ns name pod -> pod ∈ l -> exists i, node sg' i = Some (NWorkload (workload_of pod name))) as H.
  { clear Hf sg'. induction l as [|q l IH] using rev_ind; intros sg' Hl Hf.
    - injection Hf as <-. split; [done|]. intros ns name pod _ H. by apply not_elem_of_nil in H.
    - rewrite foldM_snoc in Hf. apply bind_Some in Hf as (sg1 & Hf & Hq). destruct (IH sg1) as [Hok1 Hin]; [|done|].
      { intros p Hp. apply Hl, elem_of_app. by left. }
      destruct (om_name (pod_meta q)) as [qn|] eqn:Hqn.
      2: { injection Hq as <-. split; [done|]. intros ns name pod Hp [Hpl| ->%list_elem_of_singleton]%elem_of_app; [by eapply Hin|].
        destruct Hp as (_ & _ & ?). congruence. }
      assert (pod_at sn (pod_namespace q) qn q) as Hqat by (split; [apply Hl, elem_of_app; right; by left|done]).
      destruct (workload_step sg1 _ _ _ Hqat Hok1) as [(sg2 & Hs2 & Hg2) Hnode]. rewrite Hq in Hs2. injection Hs2 as <-.
      split; [apply Hg2|]. intros ns name pod Hp Hpl. destruct (decide (pod_key ns name = pod_key (pod_namespace q) qn)) as [Hk|Hk].
      + assert (pod = q) as -> by (by eapply pods_distinct). destruct Hp as (_ & _ & Hn). simplify_eq. by apply Hnode.
      + apply elem_of_app in Hpl as [Hpl| ->%list_elem_of_singleton].
        * destruct (Hin _ _ _ Hp Hpl) as [i Hi]. exists i. apply (gr_kept _ _ _ _ _ Hg2); [done|]. intros E. apply Hk.
          rewrite E. simpl. by destruct Hp as (_ & -> & _).
        * exfalso. by destruct Hp as (_ & Hns & Hn); simplify_eq. }
  destruct (H (sn_pods sn) sg' (fun _ Hp => Hp) Hf) as [_ Hs]. intros ns name pod Hp. destruct (Hs ns name pod Hp) as [i Hi]; [apply Hp|].
  exists i, Internal. split; [|done]. rewrite Hi. by destruct pod.
Qed.

Lemma stored_grows sg sg' X E : grows sg sg' no_pod E -> stored sg X -> stored sg' X.
Proof.
  intros Hg Hs ns name pod Hp. destruct (Hs _ _ _ Hp) as (i & e & Hi & He). exists i, e. split; [|done].
  apply (gr_kept _ _ _ _ _ Hg); [done|by intros []].
Qed.

(** Rewriting one pod's exposure. *)
Lemma expose_spec sg (e0 : Exposure) ns name pod X :
  graph_ok sg -> stored sg X -> pod_at sn ns name pod -> X pod e0 ->
  exists sg', update_node sg (pod_key ns name) (set_exposure e0) = Some sg' /\
    grows sg sg' (eq (pod_key ns name)) no_edges /\ stored sg' X /\
    exists i, node sg' i = Some (NWorkload (with_exposure e0 (workload_of pod name))).
Proof.
  intros Hok Hs Hp HX.
  destruct (update_grows (observed_node sn) sg (pod_key ns name) (set_exposure e0) (eq (pod_key ns name))) as (sg' & Hu & Hg);
    [done|by intros []|done| |].
  { intros n Hn. destruct (pod_key_workload _ _ _ Hn) as [w ->]. by exists ns, name, pod. }
  exists sg'. split; [done|]. split; [done|]. destruct (Hs _ _ _ Hp) as (i & e & Hi & _).
  assert (node sg' i = Some (NWorkload (with_exposure e0 (workload_of pod name)))) as Hi'.
  { unfold update_node in Hu. pose proof (graph_ok_node sg i _ Hok Hi) as Hix. rewrite (workload_key _ _ _ _ Hp) in Hix.
    rewrite Hix in Hu. unfold node in Hi. rewrite Hi in Hu. simpl in Hu. injection Hu as <-. unfold node. simpl.
    rewrite sg_set_node_weight by eauto. by rewrite decide_True. }
  split; [|by exists i]. intros ns' name' q Hq. destruct (decide (pod_key ns name = pod_key ns' name')) as [Hk|Hk].
  - assert (pod = q) as <- by (by eapply pods_distinct). destruct Hp as (_ & ? & Hn), Hq as (_ & ? & Hn'). simplify_eq. eauto.
  - destruct (Hs _ _ _ Hq) as (j & e' & Hj & He'). exists j, e'. split; [|done]. apply (gr_kept _ _ _ _ _ Hg); [done|].
    by rewrite (workload_key _ _ _ _ Hq).
Qed.

Lemma exposure_contrib sg :
  graph_ok sg -> stored sg (fun _ e => e = Internal) ->
  exists sg', exposure_adapter sn sg = Some sg' /\ grows sg sg' (pod_keyed sn) no_edges /\ stored sg' (fun pod e => e = pod_exposure sn pod).
Proof.
  intros Hok Hs. unfold exposure_adapter, each_pod.
  assert (forall l, (forall p, p ∈ l -> p ∈ sn_pods sn) ->
    exists sg', foldM (fun sg pod => match om_name (pod_meta pod) with
        | Some name => let e := pod_exposure sn pod in
                       if bool_decide (e = Internal) then Some sg
                       else update_node sg (key_workload (pod_namespace pod) "Pod" name) (set_exposure e)
        | None => Some sg end) sg l = Some sg' /\
      grows sg sg' (pod_keyed sn) no_edges /\ stored sg' (fun pod e => e = Internal \/ e = pod_exposure sn pod) /\
      forall ns name pod, pod_at sn ns name pod -> pod ∈ l -> exists i, node sg' i = Some (NWorkload (with_exposure (pod_exposure sn pod) (workload_of pod name)))) as H.
  { induction l as [|q l IH] using rev_ind; intros Hl.
    - exists sg. split; [done|]. split; [by apply grows_refl|]. split; [|intros ???? H; by apply not_elem_of_nil in H].
      intros ns name pod Hp. destruct (Hs _ _ _ Hp) as (i & e & Hi & ->). eauto.
    - destruct IH as (sg1 & Hf1 & Hg1 & Hs1 & Hin); [intros p Hp; apply Hl, elem_of_app; by left|]. rewrite foldM_snoc, Hf1. simpl.
      destruct (om_name (pod_meta q)) as [qn|] eqn:Hqn.
      2: { exists sg1. split; [done|]. split; [done|]. split; [done|]. intros ns name pod Hp [Hpl| ->%list_elem_of_singleton]%elem_of_app; [by eapply Hin|].
        destruct Hp as (_ & _ & ?). congruence. }
      assert (pod_at sn (pod_namespace q) qn q) as Hqat by (split; [apply Hl, elem_of_app; right; by left|done]).
      assert (exists sg2, (if bool_decide (pod_exposure sn q = Internal) then Some sg1
          else update_node sg1 (key_workload (pod_namespace q) "Pod" qn) (set_exposure (pod_exposure sn q))) = Some sg2 /\
        grows sg1 sg2 (eq (pod_key (pod_namespace q) qn)) no_edges /\ stored sg2 (fun pod e => e = Internal \/ e = pod_exposure sn pod) /\
        exists i, node sg2 i = Some (NWorkload (with_exposure (pod_exposure sn q) (workload_of q qn)))) as (sg2 & -> & Hg2 & Hs2 & Hi2).
      { case_bool_decide as Hint; [|apply expose_spec; [apply Hg1|done|done|by right]].
        exists sg1. split; [done|]. split; [apply grows_refl, Hg1|]. split; [done|]. destruct (Hs1 _ _ _ Hqat) as (i & e & Hi & He).
        exists i. by destruct He as [->| ->]; rewrite Hi, ?Hint. }
      exists sg2. split; [done|]. split.
      { apply (grows_iff _ sg sg2 _ (both no_edges no_edges)); [unfold both, no_edges; tauto|]. eapply grows_trans; [exact Hg1|].
        destruct Hg2 as [O K E P F]. split; [done..| |done]. intros i w Hi Hw. apply P; [done|]. intros Ek. apply Hw. rewrite <- Ek.
        by exists (pod_namespace q), qn, q. }
      split; [done|]. intros ns name pod Hp Hpl. destruct (decide (pod_key ns name = pod_key (pod_namespace q) qn)) as [Hk|Hk].
      + assert (pod = q) as -> by (by eapply pods_distinct). destruct Hp as (_ & _ & Hn). by simplify_eq.
      + apply elem_of_app in Hpl as [Hpl| ->%list_elem_of_singleton].
        * destruct (Hin _ _ _ Hp Hpl) as [i Hi]. exists i. apply (gr_kept _ _ _ _ _ Hg2); [done|]. intros E. apply Hk.
          by rewrite E, (workload_key _ _ _ _ Hp).
        * exfalso. by destruct Hp as (_ & Hns & Hn); simplify_eq. }
  destruct (H (sn_pods sn) (fun _ Hp => Hp)) as (sg' & Hf & Hg & _ & Hin). exists sg'. split; [done|]. split; [done|].
  intros ns name pod Hp. destruct (Hin _ _ _ Hp) as [i Hi]; [apply Hp|]. eauto.
Qed.

(** *** Routing *)

Definition inet sg (k : NodeKey) : Prop := key_is_internet sg k = true.

Lemma live_mono (P Q : NodeKey -> Prop) i : (forall k, P k -> Q k) -> live sn P i -> live sn Q i.
Proof. intros H (c & s & lb & ns & sel & ctl & cn & Hl). exists c, s, lb, ns, sel, ctl, cn. naive_solver. Qed.

Lemma live_spec sg i : controller_is_live sn sg i = true <-> live sn (inet sg) i.
Proof.
  unfold controller_is_live, live. destruct (ing_load_balancer i) as [[|l lb]|] eqn:Hlb; simpl.
  1,3: split; [done|]; intros (c & s & slb & ns & sel & ctl & cn & _ & _ & _ & _ & _ & _ & H & _); done.
  destruct (resolve_ingress_class sn i) as [class|] eqn:Hc; [|split; [done|naive_solver]].
  case_bool_decide as Hcc; [split; [done|naive_solver]|]. rewrite existsb_elem. split.
  - intros (svc & Hsvc & Hm). destruct (svc_load_balancer svc) as [slb|] eqn:Hslb; [|done].
    destruct (om_namespace (svc_meta svc)) as [ns|] eqn:Hns; [|done].
    destruct (svc_spec svc ≫= svs_selector) as [sel|] eqn:Hsel; [|done]. apply andb_true_iff in Hm as [Hov Hctl].
    apply existsb_elem in Hctl as (ctl & Hctl & Hw). unfold workload_is_internet in Hw.
    destruct (om_name (pod_meta ctl)) as [cn|] eqn:Hcn; [|done]. exists class, svc, slb, ns, sel, ctl, cn. done.
  - intros (class' & svc & slb & ns & sel & ctl & cn & [= <-] & _ & Hsvc & Hslb & Hns & Hsel & Hov & Hctl & Hcn & Hi).
    exists svc. split; [done|]. rewrite Hslb, Hns, Hsel, Hov. simpl. apply existsb_elem. exists ctl. split; [done|].
    unfold workload_is_internet. by rewrite Hcn.
Qed.

Lemma routed_pods_ns ns i pod : pod ∈ routed_pods sn ns i -> pod ∈ sn_pods sn /\ pod_namespace pod = ns.
Proof.
  unfold routed_pods. intros (svc & Hin & _)%list_elem_of_bind. destruct (_ ≫= svs_selector) as [sel|]; [|by apply not_elem_of_nil in Hin].
  apply elem_of_filter_b in Hin as [Hf Hin]. by bools.
Qed.

(** While routing, a workload's exposure is its own or the internet's. *)
Abbreviation own_or_internet := (fun pod e => e = Internet \/ e = pod_exposure sn pod).

(** From [sg] to [sg']: more workloads face the internet, all of them rightly;
    [changed] tells whether there are any. *)
Record routed sg sg' (changed : bool) : Prop := {
  rt_grows : grows sg sg' (pod_keyed sn) no_edges;
  rt_stored : stored sg' own_or_internet;
  rt_mono : forall k, inet sg k -> inet sg' k;
  rt_sound : (forall k, inet sg k -> internet_facing sn k) -> forall k, inet sg' k -> internet_facing sn k;
  rt_same : changed = false -> forall k, inet sg' k -> inet sg k;
  rt_more : changed = true -> exists k, pod_keyed sn k /\ inet sg' k /\ ~ inet sg k
}.

Lemma routed_refl sg : graph_ok sg -> stored sg own_or_internet -> routed sg sg false.
Proof. intros Hok Hs. split; [by apply grows_refl|done..]. Qed.

Lemma routed_trans a b c x y : routed a b x -> routed b c y -> routed a c (x || y).
Proof.
  intros [G1 S1 M1 O1 E1 N1] [G2 S2 M2 O2 E2 N2]. split.
  - apply (grows_iff _ a c _ (both no_edges no_edges)); [unfold both, no_edges; tauto|]. by eapply grows_trans.
  - done.
  - eauto.
  - eauto.
  - intros [-> ->]%orb_false_iff. eauto.
  - destruct x; simpl; intros Hy.
    + destruct (N1 eq_refl) as (k & Hk & Hb & Ha). eauto.
    + destruct (N2 Hy) as (k & Hk & Hc & Hb). exists k. split; [done|]. split; [done|]. intros Ha. by apply Hb, M1.
Qed.

Lemma inet_node sg i w : graph_ok sg -> node sg i = Some (NWorkload w) -> inet sg (node_key (NWorkload w)) <-> w_exposure w = Internet.
Proof.
  intros Hok Hi. unfold inet, key_is_internet, index_of. rewrite (graph_ok_node sg i _ Hok Hi). cbn [mbind option_bind]. rewrite Hi.
  by rewrite bool_decide_eq_true.
Qed.

(** An update only touches the node under its key. *)
Lemma update_inet sg sg' key f k :
  graph_ok sg -> update_node sg key f = Some sg' -> k <> key -> key_is_internet sg' k = key_is_internet sg k.
Proof.
  intros Hok Hu Hk. unfold update_node in Hu. destruct (index sg !! key) as [j|] eqn:Hj; [|by injection Hu as <-].
  apply bind_Some in Hu as (n & Hn & [= <-]). unfold key_is_internet, index_of. simpl.
  destruct (index sg !! k) as [i|] eqn:Hi; [|done]. simpl. unfold node. simpl. rewrite sg_set_node_weight by eauto.
  rewrite decide_False; [done|]. intros ->. apply Hk. pose proof (graph_ok_index sg k j Hok Hi).
  pose proof (graph_ok_index sg key j Hok Hj). congruence.
Qed.

Lemma update_ext sg key f g :
  (forall i n, index sg !! key = Some i -> node sg i = Some n -> f n = g n) -> update_node sg key f = update_node sg key g.
Proof.
  intros H. unfold update_node. destruct (index sg !! key) as [i|]; [|done].
  destruct (sg_node_weight (inner sg) i) as [n|] eqn:Hn; [|done]. simpl. by rewrite (H i n).
Qed.

Lemma promote_routed sg ch i ns name pod :
  graph_ok sg -> stored sg own_or_internet -> i ∈ sn_ingresses sn -> om_namespace (ing_meta i) = Some ns ->
  pod ∈ routed_pods sn ns i -> live sn (inet sg) i -> om_name (pod_meta pod) = Some name ->
  exists sg' p, promote ns (sg, ch) pod = Some (sg', ch || p) /\ routed sg sg' p /\ inet sg' (pod_key ns name).
Proof.
  intros Hok Hs Hi Hins Hpod Hlive Hname. destruct (routed_pods_ns _ _ _ Hpod) as [Hin Hns].
  assert (pod_at sn ns name pod) as Hp by done. destruct (Hs _ _ _ Hp) as (j & e & Hj & He).
  pose proof (inet_node sg j _ Hok Hj) as Hij. rewrite (workload_key _ _ _ _ Hp) in Hij. cbn [w_exposure with_exposure] in Hij.
  pose proof (graph_ok_node sg j _ Hok Hj) as Hix. rewrite (workload_key _ _ _ _ Hp) in Hix.
  destruct (expose_spec sg Internet ns name pod own_or_internet Hok Hs Hp (or_introl eq_refl)) as (sg' & Hu & Hg & Hs' & j' & Hj').
  assert (inet sg' (pod_key ns name)) as Hin'.
  { rewrite <- (workload_key Internet ns name pod Hp). apply (inet_node sg' j'); [apply Hg|done|done]. }
  set (p := negb (bool_decide (e = Internet))). exists sg', p. split; [|split; [|done]].
  - unfold promote. rewrite Hname. fold (pod_key ns name). unfold index_of. rewrite Hix. cbn [mbind option_bind]. rewrite Hj.
    cbn [w_exposure with_exposure]. fold p. rewrite (update_ext sg _ _ (set_exposure Internet)); [by rewrite Hu|].
    intros j0 n Hj0 Hn. assert (j0 = j) as -> by congruence. rewrite Hj in Hn. injection Hn as <-. subst p.
    case_bool_decide as Hint; simpl; [by rewrite Hint|done].
  - assert (forall k, inet sg' k -> k = pod_key ns name \/ inet sg k) as Hor.
    { intros k Hk. destruct (decide (k = pod_key ns name)) as [|Hne]; [by left|right]. unfold inet in *.
      by rewrite <- (update_inet _ _ _ _ k Hok Hu Hne). }
    split.
    + destruct Hg as [O K E P F]. split; [done..| |done]. intros j0 w Hj0 Hw. apply P; [done|]. intros Ek. apply Hw.
      rewrite <- Ek. by exists ns, name, pod.
    + done.
    + intros k Hk. destruct (decide (k = pod_key ns name)) as [->|Hne]; [done|]. unfold inet in *. by rewrite (update_inet _ _ _ _ k Hok Hu Hne).
    + intros H k [->|Hk]%Hor; [|by apply H]. apply (if_routed sn ns name pod i); [done..|]. by eapply live_mono.
    + subst p. case_bool_decide as Hint; [|done]. intros _ k [->|Hk]%Hor; [by apply Hij|done].
    + subst p. case_bool_decide as Hint; [done|]. intros _. exists (pod_key ns name). split; [by exists ns, name, pod|].
      split; [done|]. by rewrite Hij.
Qed.

(** An ingress's own promise to the pods it routes to. *)
Definition served (P : NodeKey -> Prop) (i : Ingress) : Prop :=
  forall ns pod name, om_namespace (ing_meta i) = Some ns -> live sn P i -> pod ∈ routed_pods sn ns i ->
    om_name (pod_meta pod) = Some name -> P (pod_key ns name).

Lemma route_ingress_routed sg ch i :
  graph_ok sg -> stored sg own_or_internet -> i ∈ sn_ingresses sn ->
  exists sg' p, route_ingress sn (sg, ch) i = Some (sg', ch || p) /\ routed sg sg' p /\ (p = false -> served (inet sg) i).
Proof.
  intros Hok Hs Hi. unfold route_ingress. destruct (om_namespace (ing_meta i)) as [ns|] eqn:Hns.
  2: { exists sg, false. rewrite orb_false_r. split; [done|]. split; [by apply routed_refl|]. intros _ ns pod name H. congruence. }
  cbn [fst]. destruct (controller_is_live sn sg i) eqn:Hl; cbn [negb].
  2: { exists sg, false. rewrite orb_false_r. split; [done|]. split; [by apply routed_refl|]. intros _ ns' pod name _ Hlive.
    apply live_spec in Hlive. congruence. }
  apply live_spec in Hl.
  assert (forall l, (forall p, p ∈ l -> p ∈ routed_pods sn ns i) -> exists sg' p,
    foldM (promote ns) (sg, ch) l = Some (sg', ch || p) /\ routed sg sg' p /\
    forall pod name, pod ∈ l -> om_name (pod_meta pod) = Some name -> inet sg' (pod_key ns name)) as H.
  { induction l as [|q l IH] using rev_ind; intros Hl0.
    - exists sg, false. rewrite orb_false_r. split; [done|]. split; [by apply routed_refl|]. intros pod name H. by apply not_elem_of_nil in H.
    - destruct IH as (sg1 & p1 & Hf & R1 & Hin); [intros p Hp; apply Hl0, elem_of_app; by left|]. rewrite foldM_snoc, Hf.
      cbn [mbind option_bind]. destruct (om_name (pod_meta q)) as [qn|] eqn:Hqn.
      + destruct (promote_routed sg1 (ch || p1) i ns qn q) as (sg2 & p2 & Hpr & R2 & Hq); [apply R1|apply R1|done|done| |by eapply live_mono, Hl; apply R1|done|].
        { apply Hl0, elem_of_app. right. by left. }
        exists sg2, (p1 || p2). rewrite Hpr, orb_assoc. split; [done|]. split; [by eapply routed_trans|].
        intros pod name [Hpl| ->%list_elem_of_singleton]%elem_of_app Hn; [apply R2; by eapply Hin|]. by simplify_eq.
      + exists sg1, p1. unfold promote. rewrite Hqn. split; [done|]. split; [done|].
        intros pod name [Hpl| ->%list_elem_of_singleton]%elem_of_app Hn; [by eapply Hin|]. congruence. }
  destruct (H (routed_pods sn ns i) (fun _ Hp => Hp)) as (sg' & p & Hf & R & Hin). exists sg', p. split; [done|]. split; [done|].
  intros -> ns' pod name Hns' _ Hpod Hn. assert (ns' = ns) as -> by congruence. apply (rt_same _ _ _ R eq_refl). by eapply Hin.
Qed.

Lemma round_routed sg :
  graph_ok sg -> stored sg own_or_internet ->
  exists sg' p, foldM (route_ingress sn) (sg, false) (sn_ingresses sn) = Some (sg', p) /\ routed sg sg' p /\
    (p = false -> forall i, i ∈ sn_ingresses sn -> served (inet sg) i).
Proof.
  intros Hok Hs.
  assert (forall l, (forall i, i ∈ l -> i ∈ sn_ingresses sn) -> exists sg' p,
    foldM (route_ingress sn) (sg, false) l = Some (sg', p) /\ routed sg sg' p /\ (p = false -> forall i, i ∈ l -> served (inet sg) i)) as H.
  { induction l as [|i l IH] using rev_ind; intros Hl.
    - exists sg, false. split; [done|]. split; [by apply routed_refl|]. intros _ i H. by apply not_elem_of_nil in H.
    - destruct IH as (sg1 & p1 & Hf & R1 & Hin); [intros j Hj; apply Hl, elem_of_app; by left|]. rewrite foldM_snoc, Hf.
      cbn [mbind option_bind]. destruct (route_ingress_routed sg1 p1 i) as (sg2 & p2 & Hr & R2 & Hserved); [apply R1|apply R1|apply Hl, elem_of_app; right; by left|].
      exists sg2, (p1 || p2). split; [done|]. split; [by eapply routed_trans|]. intros [-> ->]%orb_false_iff j [Hj| ->%list_elem_of_singleton]%elem_of_app;
        [by apply Hin|]. intros ns pod name Hns Hlive Hpod Hn. apply (rt_same _ _ _ R1 eq_refl). apply (Hserved eq_refl ns pod name Hns); [|done|done].
      eapply live_mono, Hlive. apply R1. }
  by apply H.
Qed.

(** *** The bounded loop reaches its fixpoint *)

Definition pod_keys : gset string := list_to_set (omap (fun p => pod_key (pod_namespace p) <$> om_name (pod_meta p)) (sn_pods sn)).

Lemma pod_keys_spec k : k ∈ pod_keys <-> pod_keyed sn k.
Proof.
  unfold pod_keys. rewrite elem_of_list_to_set, list_elem_of_omap. split.
  - intros (p & Hp & (name & Hn & ->)%fmap_Some). by exists (pod_namespace p), name, p.
  - intros (ns & name & p & (Hp & <- & Hn) & ->). exists p. by rewrite Hn.
Qed.

(** The pods not facing the internet yet. *)
Definition outside sg : gset string := filter (fun k => key_is_internet sg k = false) pod_keys.

Lemma outside_spec sg k : k ∈ outside sg <-> pod_keyed sn k /\ ~ inet sg k.
Proof. unfold outside, inet. rewrite elem_of_filter, pod_keys_spec, not_true_iff_false. tauto. Qed.

Lemma outside_bound sg X : graph_ok sg -> stored sg X -> size (outside sg) <= node_count sg.
Proof.
  intros Hok Hs. assert (outside sg ⊆ list_to_set (omap (key_of sg) (sg_node_indices (inner sg)))) as Hsub.
  { intros k Hk. apply outside_spec in Hk as [(ns & name & pod & Hp & ->) _]. apply elem_of_list_to_set, list_elem_of_omap.
    destruct (Hs _ _ _ Hp) as (i & e & Hi & _). exists i. split; [apply sg_indices_spec; unfold node in Hi; eauto|].
    rewrite (key_of_node _ _ _ Hi). by rewrite (workload_key _ _ _ _ Hp). }
  apply subseteq_size in Hsub. unfold node_count. etrans; [exact Hsub|]. clear.
  assert (forall l : list string, size (list_to_set l : gset string) <= length l) as Hsize.
  { induction l as [|x l IH]; [done|]. rewrite list_to_set_cons, size_union_alt, size_singleton.
    assert ((list_to_set l : gset string) ∖ {[x]} ⊆ list_to_set l) as H%subseteq_size by set_solver. simpl. lia. }
  etrans; [apply Hsize|]. induction (sg_node_indices (inner sg)) as [|i l IH]; [done|].
  change (omap (key_of sg) (i :: l)) with (match key_of sg i with Some k => k :: omap (key_of sg) l | None => omap (key_of sg) l end).
  destruct (key_of sg i); cbn [length]; lia.
Qed.

Lemma rounds_spec n : forall sg,
  graph_ok sg -> stored sg own_or_internet -> size (outside sg) <= n ->
  exists sg', ingress_rounds n sn sg = Some sg' /\ grows sg sg' (pod_keyed sn) no_edges /\ stored sg' own_or_internet /\
    (forall k, inet sg k -> inet sg' k) /\
    ((forall k, inet sg k -> internet_facing sn k) -> forall k, inet sg' k -> internet_facing sn k) /\
    forall i, i ∈ sn_ingresses sn -> served (inet sg') i.
Proof.
  induction n as [|n IH]; intros sg Hok Hs Hn.
  - exists sg. split; [done|]. split; [by apply grows_refl|]. split; [done|]. split; [done|]. split; [done|].
    intros i _ ns pod name Hns _ Hpod Hname. destruct (key_is_internet sg (pod_key ns name)) eqn:E; [done|].
    assert (pod_key ns name ∈ outside sg) as Hin.
    { apply outside_spec. split; [|unfold inet; by rewrite E]. destruct (routed_pods_ns _ _ _ Hpod). by exists ns, name, pod. }
    assert (outside sg ≡ ∅) as H0 by (apply size_empty_iff; lia). set_solver.
  - destruct (round_routed sg Hok Hs) as (sg1 & p & Hr & [Hg1 Hs1 Hm1 Ho1 He1 Hp1] & Hserved). cbn [ingress_rounds]. rewrite Hr.
    cbn [mbind option_bind]. destruct p.
    + destruct (IH sg1) as (sg' & Hf & Hg' & Hs' & Hm' & Ho' & Hc'); [apply Hg1|done| |].
      { destruct (Hp1 eq_refl) as (k & Hk & Hin & Hout). assert (outside sg1 ⊂ outside sg) as Hlt%subset_size; [|lia].
        split; [intros k' [Hk' Hni]%outside_spec; apply outside_spec; eauto|]. intros Hsub.
        assert (k ∈ outside sg) as Hko by (by apply outside_spec). apply Hsub, outside_spec in Hko as [_ ?]. done. }
      exists sg'. split; [done|]. split; [|split; [done|split; [by eauto|split; [by eauto|done]]]].
      apply (grows_iff _ sg sg' _ (both no_edges no_edges)); [unfold both, no_edges; tauto|]. by eapply grows_trans.
    + exists sg1. split; [done|]. split; [done|]. split; [done|]. split; [done|]. split; [done|].
      intros i Hi ns pod name Hns Hlive Hpod Hname. apply Hm1. apply (Hserved eq_refl i Hi ns pod name Hns); [|done|done].
      eapply live_mono, Hlive. by apply He1.
Qed.

(** ** The built graph *)

Lemma new_empty (a : NodeKey) r b : ~ edge_in (graph_new : SecurityGraph G) a r b.
Proof. intros (e & He & _). cbn [inner graph_new] in He. rewrite sg_new_refs in He. by apply not_elem_of_nil in He. Qed.

Record built sg : Prop := {
  bt_ok : graph_ok sg;
  bt_edges : forall a r b, edge_in sg a r b <-> declared oci sn a r b;
  bt_pods : forall ns name pod, pod_at sn ns name pod -> exists i e,
    node sg i = Some (NWorkload (with_exposure e (workload_of pod name))) /\
    (e = Internet <-> internet_facing sn (pod_key ns name)) /\ (e <> Internet -> e = pod_exposure sn pod);
  bt_observed : forall i n, node sg i = Some n -> observed_node sn n
}.

Lemma direct_only X sg : graph_ok sg -> stored sg X -> (forall pod e, X pod e -> e = pod_exposure sn pod) ->
  (forall i n, node sg i = Some n -> observed_node sn n) ->
  forall k, inet sg k -> internet_facing sn k.
Proof.
  intros Hok Hs HX Hnamed k Hk. unfold inet, key_is_internet, index_of in Hk. destruct (index sg !! k) as [i|] eqn:Hi; [|done].
  cbn [mbind option_bind] in Hk. destruct (node sg i) as [[w| | | | | |]|] eqn:Hn; try done. apply bool_decide_eq_true in Hk.
  pose proof (graph_ok_index sg k i Hok Hi) as Hki. rewrite (key_of_node _ _ _ Hn) in Hki. injection Hki as Hki.
  destruct (Hnamed i _ Hn) as (ns & name & pod & Hp & Hkey). destruct (Hs _ _ _ Hp) as (j & e & Hj & He).
  pose proof (graph_ok_node sg j _ Hok Hj) as Hjx. rewrite (workload_key _ _ _ _ Hp), <- Hkey in Hjx.
  pose proof (graph_ok_node sg i _ Hok Hn) as Hix. rewrite Hix in Hjx. injection Hjx as <-. rewrite Hn in Hj. injection Hj as ->.
  rewrite <- Hki. change (internet_facing sn (node_key (NWorkload (with_exposure e (workload_of pod name))))).
  rewrite (workload_key _ _ _ _ Hp). apply if_direct with (pod := pod); [done|]. rewrite <- (HX pod e He). done.
Qed.

(** The graph before the ingress routes are followed: every pod has its own
    exposure, and the edges are those the objects declare. *)
Lemma before_routing :
  exists sg1 sg2 sg3, workload_adapter oci clock sn graph_new = Some sg1 /\
    foldM (fun sg contribute => contribute sn sg) graph_new (structural_adapters oci clock secret_iter cap_iter) = Some sg2 /\
    exposure_adapter sn sg2 = Some sg3 /\ graph_ok sg3 /\ stored sg3 (fun pod e => e = pod_exposure sn pod) /\
    (forall a r b, edge_in sg3 a r b <-> declared oci sn a r b) /\ (forall i n, node sg3 i = Some n -> observed_node sn n).
Proof.
  destruct (structural_contrib graph_new graph_new_ok) as (sg1 & sg2 & Hw & Hg1 & Hf & E & Hg2 & Hdecl).
  pose proof (workloads_stored _ _ graph_new_ok Hw) as Hs1. pose proof (stored_grows _ _ _ _ Hg2 Hs1) as Hs2.
  destruct (exposure_contrib sg2) as (sg3 & He & Hg3 & Hs3); [apply Hg2|done|].
  exists sg1, sg2, sg3. do 3 (split; [done|]). split; [apply Hg3|]. split; [done|]. split.
  - intros a r b. rewrite (gr_edges _ _ _ _ _ Hg3), (gr_edges _ _ _ _ _ Hg2), (gr_edges _ _ _ _ _ Hg1), <- Hdecl.
    pose proof (new_empty a r b). unfold no_edges. tauto.
  - intros i n Hi. apply (gr_from _ _ _ _ _ Hg3) in Hi as [Hi|]; [|done]. apply (gr_from _ _ _ _ _ Hg2) in Hi as [Hi|]; [|done].
    apply (gr_from _ _ _ _ _ Hg1) in Hi as [Hi|]; [|done]. unfold node in Hi. cbn [inner graph_new] in Hi. by rewrite sg_new_node in Hi.
Qed.

(** Enough rounds make exactly the pods the routes reach face the internet. *)
Lemma routing_spec sg n :
  graph_ok sg -> stored sg (fun pod e => e = pod_exposure sn pod) -> (forall i m, node sg i = Some m -> observed_node sn m) ->
  size (outside sg) <= n ->
  exists sg', ingress_rounds n sn sg = Some sg' /\ grows sg sg' (pod_keyed sn) no_edges /\ stored sg' own_or_internet /\
    forall k, inet sg' k <-> internet_facing sn k.
Proof.
  intros Hok Hs Hnamed Hn. destruct (rounds_spec n sg) as (sg4 & Hr & Hg4 & Hs4 & Hm4 & Ho4 & Hc4); [done| |done|].
  { intros ns name pod Hp. destruct (Hs _ _ _ Hp) as (i & e & Hi & ->). eauto. }
  exists sg4. split; [done|]. split; [done|]. split; [done|]. intros k. split.
  - revert k. apply Ho4. by eapply (direct_only (fun pod e => e = pod_exposure sn pod)).
  - revert k. fix IH 2. intros k [ns name pod Hp Hd|ns name pod i Hp Hi Hns Hpod Hl].
    + apply Hm4. destruct (Hs _ _ _ Hp) as (j & e & Hj & ->). rewrite <- (workload_key (pod_exposure sn pod) _ _ _ Hp).
      by apply (inet_node sg j).
    + apply (Hc4 i Hi ns pod name Hns); [|done|by destruct Hp as (_ & _ & ?)].
      destruct Hl as (c & s & lb & cns & sel & ctl & cn & H1 & H2 & H3 & H4 & H5 & H6 & H7 & H8 & H9 & H10).
      exists c, s, lb, cns, sel, ctl, cn. do 9 (split; [assumption|]). by apply IH.
Qed.

Lemma built_spec :
  exists sg, build_graph sn (structural_adapters oci clock secret_iter cap_iter ++ exposure_adapters) = Some sg /\ built sg.
Proof.
  destruct before_routing as (sg1 & sg2 & sg3 & _ & Hf & He & Hok3 & Hs3 & Hedges3 & Hnamed3).
  destruct (routing_spec sg3 (Nat.max (node_count sg3) 1)) as (sg4 & Hr & Hg4 & Hs4 & Hin4); [done..| |].
  { pose proof (outside_bound _ _ Hok3 Hs3). lia. }
  exists sg4. split.
  { unfold build_graph. unfold foldM. rewrite foldl_app. fold (foldM (fun sg contribute => contribute sn sg) graph_new
      (structural_adapters oci clock secret_iter cap_iter)). rewrite Hf. cbn [foldl exposure_adapters mbind option_bind].
    rewrite He. exact Hr. }
  split.
  - apply Hg4.
  - intros a r b. rewrite (gr_edges _ _ _ _ _ Hg4), Hedges3. unfold no_edges. tauto.
  - intros ns name pod Hp. destruct (Hs4 _ _ _ Hp) as (i & e & Hi & He'). exists i, e. split; [done|]. split; [|naive_solver].
    pose proof (inet_node sg4 i _ (gr_ok _ _ _ _ _ Hg4) Hi) as Hin. rewrite (workload_key _ _ _ _ Hp) in Hin. cbn [w_exposure with_exposure] in Hin.
    by rewrite <- Hin, Hin4.
  - intros i n Hi. apply (gr_from _ _ _ _ _ Hg4) in Hi as [Hi|]; [|done]. by apply (Hnamed3 i).
Qed.

(** C18: The loop over the ingress routes settles. Following one route can make
    another's controller live, so the routes are followed round after round; a
    pass bounds the rounds by its nodes. Any bound from the number of pods that
    do not face the internet yet gives a result, whatever order the ingresses
    are listed in, and in each such result exactly the pods face the internet
    that a service, an annotation or a chain of live routes exposes: no further
    round would promote another pod. *)
Theorem ingress_rounds_settle :
  exists sg, build_graph sn (structural_adapters oci clock secret_iter cap_iter ++ [exposure_adapter]) = Some sg /\
    size (outside sg) <= Nat.max (node_count sg) 1 /\
    forall n, size (outside sg) <= n -> exists sg', ingress_rounds n sn sg = Some sg' /\
      (forall k, inet sg' k <-> internet_facing sn k) /\ (forall a r b, edge_in sg' a r b <-> edge_in sg a r b).
Proof.
  destruct before_routing as (sg1 & sg2 & sg3 & _ & Hf & He & Hok3 & Hs3 & _ & Hnamed3). exists sg3. split.
  { unfold build_graph, foldM. rewrite foldl_app. fold (foldM (fun sg contribute => contribute sn sg) graph_new
      (structural_adapters oci clock secret_iter cap_iter)). rewrite Hf. cbn [foldl mbind option_bind]. exact He. }
  split; [pose proof (outside_bound _ _ Hok3 Hs3); lia|]. intros n Hn.
  destruct (routing_spec sg3 n) as (sg4 & Hr & Hg4 & _ & Hin); [done..|]. exists sg4. split; [done|]. split; [done|].
  intros a r b. rewrite (gr_edges _ _ _ _ _ Hg4). unfold no_edges. tauto.
Qed.
End Structural.
