(* ===== verification/Enrich.v ===== *)
(** * Layering evidence onto the graph

    engine/src/engine/observe/adapter/{enrich,findings,audit_secret}.rs: the
    adapters that run after the structural ones and write scanner findings,
    runtime signals and audit reads into the nodes those created, and
    [default_adapters] (observe/adapter/mod.rs), the whole pass. *)

From S2P Require Import Prelude Text ImageRef Posture.
From S2P Require Import PetGraph Attack Behavior Graph Snapshot Adapters HostCredential PeerIndex.

#[local] Arguments String.append : simpl nomatch.

(** ** Updates of one kind of node *)

Definition on_image (f : Image -> Image) (n : Node) : Node := match n with NImage im => NImage (f im) | _ => n end.
Definition on_workload (f : Workload -> Workload) (n : Node) : Node := match n with NWorkload w => NWorkload (f w) | _ => n end.

Definition set_vulnerabilities (vs : list Vulnerability) (im : Image) : Image :=
  mkImage (im_digest im) (im_reference im) (im_trust im) vs (im_exposed_secrets im) (im_static_binary im).
Definition set_exposed_secrets (fs : list ScanFinding) (im : Image) : Image :=
  mkImage (im_digest im) (im_reference im) (im_trust im) (im_vulnerabilities im) fs (im_static_binary im).
Definition set_static_binary (b : bool) (im : Image) : Image :=
  mkImage (im_digest im) (im_reference im) (im_trust im) (im_vulnerabilities im) (im_exposed_secrets im) (Some b).
Definition set_misconfigs (fs : list ScanFinding) (w : Workload) : Workload :=
  mkWorkload (w_namespace w) (w_name w) (w_kind w) (w_labels w) (w_meshed w) (w_exposure w) (w_runtime w) (w_persistent w)
    fs (w_rbac_findings w).
Definition set_rbac_findings (fs : list ScanFinding) (w : Workload) : Workload :=
  mkWorkload (w_namespace w) (w_name w) (w_kind w) (w_labels w) (w_meshed w) (w_exposure w) (w_runtime w) (w_persistent w)
    (w_misconfigs w) fs.
Definition set_runtime (rs : list RuntimeSignal) (w : Workload) : Workload :=
  mkWorkload (w_namespace w) (w_name w) (w_kind w) (w_labels w) (w_meshed w) (w_exposure w) rs (w_persistent w)
    (w_misconfigs w) (w_rbac_findings w).
Definition push_signal (s : RuntimeSignal) (w : Workload) : Workload := set_runtime (w_runtime w ++ [s]) w.

(** ** The secret a path reads (enrich.rs) *)

Definition under (path mount_path : string) : option string :=
  let mp := trim_end_matches slash mount_path in
  if bool_decide (path = mp) then Some ""
  else rest ← strip_prefix mp path; strip_prefix "/" rest.

(** The secret a volume exposes: its own, or the first a projected volume's
    sources name. *)
Definition volume_secret (v : KVolume) : option string :=
  or_else (vo_secret v ≫= id)
    (sources ← vo_projected v; find_map id (flat sources)).

(** The longest mount path wins, the first of equals. *)
Definition mount_best (secret_vols : gmap string string) (path : string) (best : option (nat * string)) (m : string * string) :
    option (nat * string) :=
  match secret_vols !! m.1 with
  | None => best
  | Some secret_name =>
      match under path m.2 with
      | None => best
      | Some sub =>
          let len := String.length m.2 in
          if match best with None => true | Some (l, _) => l <? len end
          then Some (len, if bool_decide (sub = "") then secret_name else secret_name +:+ "/" +:+ sub)
          else best
      end
  end.

(** Collecting into the map, a later volume of the same name wins. *)
Definition secret_volumes (spec : PodSpec) : gmap string string :=
  foldl (fun (m : gmap string string) v => match volume_secret v with Some s => <[vo_name v := s]> m | None => m end)
    ∅ (flat (sp_volumes spec)).

(** A mount is its volume's name and its path. *)
Definition secret_for_path (pod : Pod) (path : string) : option string :=
  spec ← pod_spec pod;
  let secret_vols := secret_volumes spec in
  if bool_decide (secret_vols = ∅) then None
  else snd <$> foldl (mount_best secret_vols path) None (all_containers spec ≫= fun c => flat (ct_volume_mounts c)).

(** ** Library names (enrich.rs) *)

Definition backslash : Ascii.ascii := Ascii.ascii_of_nat 92.

(** [str::find(&str)]: the byte offset of the first occurrence. *)
Fixpoint find_str (needle s : string) : option nat :=
  if starts_with needle s then Some 0
  else match s with EmptyString => None | String _ s' => S <$> find_str needle s' end.

(** [String::truncate] at an offset within the string. *)
Definition truncate (s : string) (pos : nat) : string := String.substring 0 pos s.

Definition is_ascii_digit (a : Ascii.ascii) : bool :=
  let n := Ascii.nat_of_ascii a in (48 <=? n) && (n <=? 57).

Fixpoint dash_version_start (s : string) : option nat :=
  match s with
  | String a (String b _ as s') =>
      if Ascii.eqb a (Ascii.ascii_of_nat 45) && is_ascii_digit b then Some 0 else S <$> dash_version_start s'
  | _ => None
  end.

Definition LIB_EXTENSIONS : list string := [".so"; ".jar"; ".dll"; ".dylib"; ".a"].

Definition normalize_lib_name (name : string) : string :=
  let base := last_segment backslash (last_segment slash name) in
  let s := to_ascii_lowercase base in
  let s := match find_map (fun ext => find_str ext s) LIB_EXTENSIONS with Some pos => truncate s pos | None => s end in
  let s := match dash_version_start s with Some pos => truncate s pos | None => s end in
  let s := default s (strip_prefix "lib" s) in
  if bool_decide (s = "openssl") then "ssl" else s.

Definition library_matches (loaded pkg_name : string) : bool :=
  let loaded := normalize_lib_name loaded in
  negb (bool_decide (loaded = "")) && bool_decide (loaded = normalize_lib_name pkg_name).

(** ** The signal an observation carries (enrich.rs) *)

Definition is_by_uid (e : RuntimeObservation) : bool := match ob_attribution e with ByPodUid _ => true | _ => false end.

Definition pods_by_uid (sn : Snapshot) : gmap string Pod :=
  if existsb is_by_uid (sn_runtime_events sn)
  then foldl (fun (m : gmap string Pod) p => match om_uid (pod_meta p) with Some u => <[u := p]> m | None => m end) ∅ (sn_pods sn)
  else ∅.

(** The namespace, the name and, for a UID, the pod an observation is about. *)
Definition attributed (by_uid : gmap string Pod) (a : Attribution) : option (string * string * option Pod) :=
  if negb (resolves_in a (fun uid => bool_decide (is_Some (by_uid !! uid)))) then None
  else match a with
       | ByPodUid pod_uid => (fun p => (pod_namespace p, default "" (om_name (pod_meta p)), Some p)) <$> by_uid !! pod_uid
       | ByNamespacedName namespace pod => Some (namespace, pod, None)
       end.

(** A file read becomes a secret read or is dropped; a connection's peer is
    named; anything else is kept. *)
Definition refine_behavior (index : IpIndex) (now : Z) (pod : option Pod) (memo : PeerMemo) (b : Behavior) :
    option Behavior * PeerMemo :=
  match b with
  | FileRead path =>
      (match pod ≫= (fun p => secret_for_path p path) with
       | Some secret => Some (SecretRead secret Mounted)
       | None => (fun secret => SecretRead secret HostPath) <$> host_credential_path path
       end, memo)
  | NetworkConnection peer internet =>
      let '(peer, memo) := resolve_peer memo index peer internet now in (Some (NetworkConnection peer internet), memo)
  | other => (Some other, memo)
  end.

(** [Duration::from_millis] after the epoch. *)
Definition from_millis (ms : N) : SystemTime := (Z.of_N ms * 1000000)%Z.

Section Enrich.
Context {G : Type} `{SG : !StableGraph G Node Edge}.
Implicit Types sg : SecurityGraph G.
Variable oci : string -> option OciReference.
(** [SystemTime::now()], by the event or the read it stamps. *)
Variable event_clock : nat -> SystemTime.
Variable audit_clock : nat -> nat -> SystemTime.

(** ** Scanner findings (enrich.rs, findings.rs) *)

Definition vulnerability_adapter (sn : Snapshot) sg : option (SecurityGraph G) :=
  foldM (fun sg finding => update_node sg (key_image (canonical_image oci (iv_image finding)))
    (on_image (set_vulnerabilities (iv_vulnerabilities finding)))) sg (sn_image_vulns sn).

Definition exposed_secret_adapter (sn : Snapshot) sg : option (SecurityGraph G) :=
  foldM (fun sg finding => update_node sg (key_image (canonical_image oci (isf_image finding)))
    (on_image (set_exposed_secrets (isf_findings finding)))) sg (sn_image_secrets sn).

Definition workloads_in_namespace sg (namespace : string) : list NodeKey :=
  omap (fun idx => match node sg idx with
                   | Some (NWorkload w) => if bool_decide (w_namespace w = namespace) then Some (node_key (NWorkload w)) else None
                   | _ => None
                   end) (sg_node_indices (inner sg)).

Definition matching_workloads sg (namespace : string) (resource : WorkloadRef) : list NodeKey :=
  if bool_decide (wr_kind resource = "Pod") then
    let key := key_workload namespace "Pod" (wr_name resource) in
    if bool_decide (is_Some (index_of sg key)) then [key] else []
  else
    let prefix := wr_name resource +:+ "-" in
    List.filter (fun k => match key_name k with Some n => starts_with prefix n | None => false end) (workloads_in_namespace sg namespace).

Definition attach_misconfigs (findings : list ScanFinding) sg (key : NodeKey) : option (SecurityGraph G) :=
  update_node sg key (on_workload (set_misconfigs findings)).

Definition config_audit_adapter (sn : Snapshot) sg : option (SecurityGraph G) :=
  foldM (fun sg report => foldM (attach_misconfigs (wf_findings report)) sg
    (matching_workloads sg (wr_namespace (wf_resource report)) (wf_resource report))) sg (sn_config_audits sn).

Definition rbac_assessment_adapter (sn : Snapshot) sg : option (SecurityGraph G) :=
  foldM (fun sg report => foldM (fun sg key => update_node sg key (on_workload (set_rbac_findings (rf_findings report)))) sg
    (workloads_in_namespace sg (rf_namespace report))) sg (sn_rbac_assessments sn).

(** ** Runtime signals (enrich.rs) *)

(** The graph, the peer memo and the linkage reported per workload. *)
Abbreviation RuntimeState := (SecurityGraph G * PeerMemo * gmap NodeKey bool)%type.

Definition runtime_event (by_uid : gmap string Pod) (index : IpIndex) (now : Z) (st : RuntimeState) (ne : nat * RuntimeObservation) :
    option RuntimeState :=
  let '(sg, memo, linkage) := st in
  let '(n, event) := ne in
  match attributed by_uid (ob_attribution event) with
  | None => Some st
  | Some (ns, name, pod) =>
      let key := key_workload ns "Pod" name in
      match ob_behavior event with
      | ImageLinkage static_linkage =>
          Some (sg, memo, <[key := match linkage !! key with Some s => s && static_linkage | None => static_linkage end]> linkage)
      | behavior =>
          match refine_behavior index now pod memo behavior with
          | (None, memo) => Some (sg, memo, linkage)
          | (Some behavior, memo) =>
              let observed_at := match ob_observed_at_ms event with Some ms => from_millis ms | None => event_clock n end in
              let signal := mkSignal behavior (mkProv (default "runtime" (ob_source event)) observed_at) in
              sg ← update_node sg key (on_workload (push_signal signal));
              Some (sg, memo, linkage)
          end
      end
  end.

(** The images a workload runs: the targets of its [RunsImage] edges. *)
Definition run_image_keys sg (idx : nat) : list NodeKey :=
  omap (fun r => match e_relation (er_weight r) with RunsImage => key_of sg (er_target r) | _ => None end) (sg_edges (inner sg) idx).

Definition images_to_link sg (linkage : gmap NodeKey bool) : list (NodeKey * bool) :=
  sg_node_indices (inner sg) ≫= fun idx =>
    match node sg idx with
    | Some (NWorkload w) =>
        match linkage !! node_key (NWorkload w) with
        | Some is_static => (fun k => (k, is_static)) <$> run_image_keys sg idx
        | None => []
        end
    | _ => []
    end.

Definition link_images sg (linkage : gmap NodeKey bool) : option (SecurityGraph G) :=
  if bool_decide (linkage = ∅) then Some sg
  else foldM (fun sg kb => update_node sg kb.1 (on_image (set_static_binary kb.2))) sg (images_to_link sg linkage).

(** [now] is the one instant of the pass; the memo lives as long as the adapter. *)
Definition runtime_adapter (now : Z) (sn : Snapshot) (st : SecurityGraph G * PeerMemo) : option (SecurityGraph G * PeerMemo) :=
  if bool_decide (length (sn_runtime_events sn) = 0) then Some st
  else
    '(sg, memo, linkage) ← foldM (runtime_event (pods_by_uid sn) (from_snapshot sn) now)
      (st.1, prune st.2 now, ∅) (imap pair (sn_runtime_events sn));
    sg ← link_images sg linkage;
    Some (sg, memo).

(** ** API secret reads (audit_secret.rs) *)

Definition running_as sg (id_idx : nat) : list NodeKey :=
  omap (fun r => match e_relation (er_weight r) with RunsAs => key_of sg (er_source r) | _ => None end) (sg_edges_in (inner sg) id_idx).

Definition audit_read (sn : Snapshot) sg (nr : nat * AuditSecretRead) : option (SecurityGraph G) :=
  let '(n, read) := nr in
  match index_of sg (node_key (NIdentity (mkIdentity (asr_sa_namespace read) (asr_sa_name read)))) with
  | None => Some sg
  | Some id_idx =>
      let behavior := SecretRead (secret_display read) Api in
      foldM (fun sg mk => update_node sg mk.2 (on_workload (push_signal (mkSignal behavior (mkProv "k8s-audit" (audit_clock n mk.1))))))
        sg (imap pair (running_as sg id_idx))
  end.

Definition audit_secret_read_adapter (sn : Snapshot) sg : option (SecurityGraph G) :=
  foldM (audit_read sn) sg (imap pair (sn_audit_secret_reads sn)).

(** ** Reachability of vulnerabilities (enrich.rs) *)

Definition loaded_library (s : RuntimeSignal) : option string :=
  match rs_behavior s with LibraryLoaded name => Some name | _ => None end.

(** [entry(k).or_default().extend(vs)]. *)
Definition extend_at (m : gmap NodeKey (list string)) (k : NodeKey) (vs : list string) : gmap NodeKey (list string) :=
  <[k := default [] (m !! k) ++ vs]> m.

Definition loads_by_image sg : gmap NodeKey (list string) :=
  foldl (fun m idx =>
    match node sg idx with
    | Some (NWorkload w) =>
        let loaded := omap loaded_library (w_runtime w) in
        if bool_decide (length loaded = 0) then m else foldl (fun m k => extend_at m k loaded) m (run_image_keys sg idx)
    | _ => m
    end) ∅ (sg_node_indices (inner sg)).

Definition image_keys sg : list NodeKey :=
  omap (fun idx => match node sg idx with Some (NImage im) => Some (node_key (NImage im)) | _ => None end) (sg_node_indices (inner sg)).

Definition set_reachability (r : Reachability) (v : Vulnerability) : Vulnerability :=
  mkVuln (v_id v) (v_severity v) (v_exploited_in_wild v) (v_epss v) (v_sources v) r (v_pkg_name v) (v_installed_version v)
    (v_fixed_version v) (v_title v) (v_primary_link v) (v_score v).

Definition tag_vulnerability (loads : list string) (is_static : bool) (v : Vulnerability) : Vulnerability :=
  match v_pkg_name v with
  | None => v
  | Some pkg =>
      set_reachability (if existsb (fun lib => library_matches lib pkg) loads then LoadedAtRuntime
                        else if is_static then PresentStaticBinary else NotObserved) v
  end.

Definition tag_image (loads : list string) (im : Image) : Image :=
  set_vulnerabilities (tag_vulnerability loads (bool_decide (im_static_binary im = Some true)) <$> im_vulnerabilities im) im.

(** The packages the vulnerabilities of each image name, where there are any. *)
Definition cve_pkgs_by_image sg : gmap NodeKey (list string) :=
  foldl (fun (m : gmap NodeKey (list string)) idx =>
    match node sg idx with
    | Some (NImage im) =>
        let pkgs := omap v_pkg_name (im_vulnerabilities im) in
        if bool_decide (length pkgs = 0) then m else <[node_key (NImage im) := pkgs]> m
    | _ => m
    end) ∅ (sg_node_indices (inner sg)).

Definition pkgs_by_workload sg : gmap NodeKey (list string) :=
  foldl (fun (m : gmap NodeKey (list string)) idx =>
    match node sg idx with
    | Some (NWorkload w) =>
        let pkgs := run_image_keys sg idx ≫= fun k => default [] (cve_pkgs_by_image sg !! k) in
        if bool_decide (length pkgs = 0) then m else <[node_key (NWorkload w) := pkgs]> m
    | _ => m
    end) ∅ (sg_node_indices (inner sg)).

Definition workload_keys sg : list NodeKey :=
  omap (fun idx => match node sg idx with Some (NWorkload w) => Some (node_key (NWorkload w)) | _ => None end) (sg_node_indices (inner sg)).

(** A library load is kept only where it names a vulnerable package. *)
Definition keep_signal (pkgs : option (list string)) (s : RuntimeSignal) : bool :=
  match rs_behavior s with
  | LibraryLoaded name => match pkgs with Some ps => existsb (library_matches name) ps | None => false end
  | _ => true
  end.

Definition retain_signals (pkgs : option (list string)) (w : Workload) : Workload :=
  set_runtime (List.filter (keep_signal pkgs) (w_runtime w)) w.

Definition cve_reachability_adapter (sn : Snapshot) sg : option (SecurityGraph G) :=
  let loads := loads_by_image sg in
  sg ← foldM (fun sg key => update_node sg key (on_image (tag_image (default [] (loads !! key))))) sg (image_keys sg);
  let pkgs := pkgs_by_workload sg in
  foldM (fun sg key => update_node sg key (on_workload (retain_signals (pkgs !! key)))) sg (workload_keys sg).

(** ** A pass of every adapter (mod.rs) *)

Variable clock : nat -> SystemTime.
Variable secret_iter : gset SecretGrant -> list SecretGrant.
Variable cap_iter : gset CapGrant -> list CapGrant.

(** [RuntimeAdapter] alone keeps something between passes. *)
Definition stateless (contribute : Snapshot -> SecurityGraph G -> option (SecurityGraph G)) :
    Snapshot -> SecurityGraph G * PeerMemo -> option (SecurityGraph G * PeerMemo) :=
  fun sn st => sg ← contribute sn st.1; Some (sg, st.2).

Definition default_adapters (now : Z) : list (Snapshot -> SecurityGraph G * PeerMemo -> option (SecurityGraph G * PeerMemo)) :=
  (stateless <$> structural_adapters oci clock secret_iter cap_iter ++ exposure_adapters ++
    [vulnerability_adapter; exposed_secret_adapter; config_audit_adapter; rbac_assessment_adapter]) ++
  [runtime_adapter now; stateless audit_secret_read_adapter; stateless cve_reachability_adapter].

Definition build_pass (memo : PeerMemo) (now : Z) (sn : Snapshot) : option (SecurityGraph G * PeerMemo) :=
  foldM (fun st contribute => contribute sn st) (graph_new, memo) (default_adapters now).

End Enrich.
