(* ===== verification/EnrichFacts.v ===== *)
(** * What the evidence adapters change, and what they cannot

    They rewrite nodes in place and touch no edge: a graph keeps its shape
    through them, and each node's evidence is a function of the snapshot. *)

From S2P Require Import Prelude Text ImageRef Posture.
From S2P Require Import PetGraph Attack Behavior Graph Snapshot Adapters HostCredential PeerIndex AdapterFacts Enrich.

(** ** Rewriting nodes in place *)

(** A node without its evidence. *)
Definition bare (n : Node) : Node :=
  match n with
  | NWorkload w => NWorkload (set_runtime [] (set_misconfigs [] (set_rbac_findings [] w)))
  | NImage im => NImage (mkImage (im_digest im) (im_reference im) (im_trust im) [] [] None)
  | n => n
  end.

Lemma bare_key n : node_key (bare n) = node_key n.
Proof. by destruct n. Qed.

Lemma same_bare_key n m : bare n = bare m -> node_key n = node_key m.
Proof. intros H%(f_equal node_key). by rewrite !bare_key in H. Qed.

Section Mapped.
Context {G : Type} `{SGL : StableGraphLaws G Node Edge}.
Implicit Types sg : SecurityGraph G.

(** [sg'] is [sg] with every node rewritten by [F], its evidence only. *)
Record mapped sg sg' (F : Node -> Node) : Prop := {
  mp_refs : sg_edge_references (inner sg') = sg_edge_references (inner sg);
  mp_index : index sg' = index sg;
  mp_node : forall i, node sg' i = F <$> node sg i;
  mp_bare : forall n, bare (F n) = bare n
}.

Definition maps (o : option (SecurityGraph G)) sg (F : Node -> Node) : Prop := exists sg', o = Some sg' /\ mapped sg sg' F.

Lemma mapped_id sg : mapped sg sg id.
Proof. split; try done. intros i. by rewrite option_fmap_id. Qed.

Lemma mapped_comp a b c F F' : mapped a b F -> mapped b c F' -> mapped a c (fun n => F' (F n)).
Proof.
  intros [R1 I1 N1 B1] [R2 I2 N2 B2]. split; [congruence|congruence|..].
  - intros i. rewrite N2, N1. by destruct (node a i).
  - intros n. by rewrite B2, B1.
Qed.

Lemma mapped_ext sg sg' F F' : (forall n, F n = F' n) -> mapped sg sg' F -> mapped sg sg' F'.
Proof.
  intros H [R I N B]. split; [done|done|intros i; rewrite N; destruct (node sg i); simpl; by rewrite ?H|intros n; by rewrite <- H].
Qed.

Lemma mapped_ext_in sg sg' F F' :
  (forall i n, node sg i = Some n -> F n = F' n) -> (forall n, bare (F' n) = bare n) -> mapped sg sg' F -> mapped sg sg' F'.
Proof.
  intros H HB [R I N B]. split; [done|done| |done]. intros i. rewrite N. destruct (node sg i) as [n|] eqn:Hn; [|done].
  simpl. f_equal. by eapply H.
Qed.

Lemma mapped_key sg sg' F i : mapped sg sg' F -> key_of sg' i = key_of sg i.
Proof.
  intros [_ _ N B]. change (node_key <$> node sg' i = node_key <$> node sg i). rewrite N.
  destruct (node sg i) as [n|]; simpl; [|done]. f_equal. by apply same_bare_key.
Qed.

Lemma mapped_ok sg sg' F : mapped sg sg' F -> graph_ok sg -> graph_ok sg'.
Proof.
  intros Hm Hok k i. rewrite (mp_index _ _ _ Hm), (Hok k i). pose proof (mapped_key sg sg' F i Hm) as Hk.
  assert (forall g, (exists n, sg_node_weight (inner g) i = Some n /\ node_key n = k) <-> key_of g i = Some k) as H.
  { intros g. unfold key_of. rewrite fmap_Some. naive_solver. }
  by rewrite !H, Hk.
Qed.

Lemma mapped_edges sg sg' F a r b : mapped sg sg' F -> edge_in sg' a r b <-> edge_in sg a r b.
Proof. intros Hm. apply edge_in_same; [intros i k; by rewrite (mapped_key _ _ _ _ Hm)|apply Hm]. Qed.

Lemma maps_id sg : maps (Some sg) sg id.
Proof. exists sg. split; [done|apply mapped_id]. Qed.

Lemma maps_ext o sg F F' : (forall n, F n = F' n) -> maps o sg F -> maps o sg F'.
Proof. intros H (sg' & -> & Hm). exists sg'. split; [done|by eapply mapped_ext]. Qed.

Lemma maps_ext_in o sg F F' :
  (forall i n, node sg i = Some n -> F n = F' n) -> (forall n, bare (F' n) = bare n) -> maps o sg F -> maps o sg F'.
Proof. intros H HB (sg' & -> & Hm). exists sg'. split; [done|by eapply mapped_ext_in]. Qed.

Lemma maps_bind (o : option (SecurityGraph G)) k sg F F' :
  maps o sg F -> (forall sg1, mapped sg sg1 F -> maps (k sg1) sg1 F') -> maps (o ≫= k) sg (fun n => F' (F n)).
Proof.
  intros (sg1 & -> & Hm) Hk. destruct (Hk sg1 Hm) as (sg2 & Hs & Hm2). exists sg2. split; [done|by eapply mapped_comp].
Qed.

(** The update of one node, wherever it is. *)
Definition at_key (k : NodeKey) (f : Node -> Node) (n : Node) : Node := if decide (node_key n = k) then f n else n.

Lemma maps_update sg k f : graph_ok sg -> (forall n, bare (f n) = bare n) -> maps (update_node sg k f) sg (at_key k f).
Proof.
  intros Hok Hf. unfold update_node, maps. destruct (index sg !! k) as [i|] eqn:Hi.
  - apply Hok in Hi as Hn. destruct Hn as (n & Hn & Hk). rewrite Hn. simpl. eexists. split; [done|].
    split; [apply sg_set_node_refs; eauto|done|..].
    + intros j. unfold node. simpl. rewrite sg_set_node_weight by eauto. case_decide as Hj.
      * subst j. rewrite Hn. simpl. unfold at_key. by rewrite decide_True.
      * destruct (sg_node_weight (inner sg) j) as [m|] eqn:Hm; simpl; [|done]. unfold at_key. rewrite decide_False; [done|].
        intros Hkm. apply Hj. pose proof (graph_ok_node _ _ _ Hok Hm). congruence.
    + intros m. unfold at_key. by case_decide.
  - exists sg. split; [done|]. split; [done|done|..].
    + intros j. unfold node. destruct (sg_node_weight (inner sg) j) as [m|] eqn:Hm; simpl; [|done]. unfold at_key.
      rewrite decide_False; [done|]. intros Hkm. pose proof (graph_ok_node _ _ _ Hok Hm). congruence.
    + intros m. unfold at_key. by case_decide.
Qed.

Lemma maps_foldM {A} (f : SecurityGraph G -> A -> option (SecurityGraph G)) (F : A -> Node -> Node) l sg :
  graph_ok sg ->
  (forall x sg1 F1, x ∈ l -> graph_ok sg1 -> mapped sg sg1 F1 -> maps (f sg1 x) sg1 (F x)) ->
  maps (foldM f sg l) sg (fun n => foldl (fun n x => F x n) n l).
Proof.
  intros Hok Hf. induction l as [|x l IH] using rev_ind; [apply maps_id|]. rewrite foldM_snoc.
  eapply maps_ext; [|apply (maps_bind _ _ _ (fun n => foldl (fun n x => F x n) n l) (F x))].
  - intros n. by rewrite foldl_snoc.
  - apply IH. intros y sg1 F1 Hy. apply Hf, elem_of_app. by left.
  - intros sg1 Hm. eapply Hf; [apply elem_of_app; right; by left|by eapply mapped_ok|done].
Qed.

(** Updates of nodes that are each named once. *)
Lemma at_keys (f : NodeKey -> Node -> Node) ks n :
  NoDup ks -> (forall k n, node_key (f k n) = node_key n) ->
  foldl (fun n k => at_key k (f k) n) n ks = if decide (node_key n ∈ ks) then f (node_key n) n else n.
Proof.
  intros Hnd Hf. revert n. induction ks as [|k ks IH]; intros n; [by rewrite decide_False by apply not_elem_of_nil|].
  apply NoDup_cons in Hnd as [Hk Hnd]. simpl. rewrite IH by done. destruct (decide (node_key n = k)) as [<-|Hne].
  - assert (at_key (node_key n) (f (node_key n)) n = f (node_key n) n) as -> by (unfold at_key; by rewrite decide_True).
    rewrite Hf, decide_False by done. by rewrite decide_True by (by left).
  - assert (at_key k (f k) n = n) as -> by (unfold at_key; by rewrite decide_False).
    destruct (decide (node_key n ∈ ks)); [by rewrite decide_True by (by right)|by rewrite decide_False by (rewrite elem_of_cons; tauto)].
Qed.

Lemma maps_each_key (f : NodeKey -> Node -> Node) ks sg :
  graph_ok sg -> NoDup ks -> (forall k n, bare (f k n) = bare n) ->
  maps (foldM (fun sg k => update_node sg k (f k)) sg ks) sg (fun n => if decide (node_key n ∈ ks) then f (node_key n) n else n).
Proof.
  intros Hok Hnd Hf. eapply maps_ext; [|apply maps_foldM with (F := fun k => at_key k (f k)); [done|]].
  - intros n. exact (at_keys f ks n Hnd (fun k m => same_bare_key _ _ (Hf k m))).
  - intros k sg1 _ _ Hok1 _. by apply maps_update.
Qed.

(** The keys of the nodes of one kind. *)
Definition keys_where (pick : Node -> bool) sg : list NodeKey :=
  omap (fun i => match node sg i with Some n => if pick n then Some (node_key n) else None | None => None end) (sg_node_indices (inner sg)).

Lemma keys_where_spec pick sg k : k ∈ keys_where pick sg <-> exists i n, node sg i = Some n /\ pick n = true /\ node_key n = k.
Proof.
  unfold keys_where. rewrite list_elem_of_omap. split.
  - intros (i & _ & Hi). destruct (node sg i) as [n|] eqn:Hn; [|done]. destruct (pick n) eqn:Hp; [|done]. simplify_eq. eauto.
  - intros (i & n & Hn & Hp & <-). exists i. split; [apply sg_indices_spec; unfold node in Hn; eauto|]. by rewrite Hn, Hp.
Qed.

Lemma keys_where_NoDup pick sg : graph_ok sg -> NoDup (keys_where pick sg).
Proof.
  intros Hok. unfold keys_where. pose proof (sg_indices_NoDup (inner sg)) as Hnd. induction (sg_node_indices (inner sg)) as [|i l IH]; [constructor|].
  apply NoDup_cons in Hnd as [Hi Hnd]. cbn [omap list_omap]. destruct (node sg i) as [n|] eqn:Hn; [|by apply IH].
  destruct (pick n); [|by apply IH]. apply NoDup_cons. split; [|by apply IH]. intros (j & Hj & Hk)%list_elem_of_omap.
  destruct (node sg j) as [m|] eqn:Hm; [|done]. destruct (pick m); [|done]. simplify_eq. apply Hi.
  pose proof (graph_ok_node _ _ _ Hok Hn). pose proof (graph_ok_node _ _ _ Hok Hm). congruence.
Qed.

Lemma keys_where_node pick sg i n : graph_ok sg -> node sg i = Some n -> node_key n ∈ keys_where pick sg <-> pick n = true.
Proof.
  intros Hok Hn. rewrite keys_where_spec. split; [|by eauto]. intros (j & m & Hm & Hp & Hk).
  pose proof (graph_ok_node _ _ _ Hok Hn). pose proof (graph_ok_node _ _ _ Hok Hm). congruence.
Qed.

(** A rewriting keeps which nodes there are, of which kind and under which key. *)
Lemma mapped_bare_node sg sg' F i n' : mapped sg sg' F -> node sg' i = Some n' -> exists n, node sg i = Some n /\ n' = F n /\ bare n = bare n'.
Proof. intros Hm Hn'. rewrite (mp_node _ _ _ Hm) in Hn'. apply fmap_Some in Hn' as (n & Hn & ->). exists n. by rewrite (mp_bare _ _ _ Hm). Qed.
End Mapped.

(** ** Evidence of a node *)

Definition node_vulnerabilities (n : Node) : list Vulnerability := match n with NImage im => im_vulnerabilities im | _ => [] end.
Definition node_secrets (n : Node) : list ScanFinding := match n with NImage im => im_exposed_secrets im | _ => [] end.
Definition node_static (n : Node) : option bool := match n with NImage im => im_static_binary im | _ => None end.
Definition node_misconfigs (n : Node) : list ScanFinding := match n with NWorkload w => w_misconfigs w | _ => [] end.
Definition node_rbac (n : Node) : list ScanFinding := match n with NWorkload w => w_rbac_findings w | _ => [] end.
Definition node_runtime (n : Node) : list RuntimeSignal := match n with NWorkload w => w_runtime w | _ => [] end.

Definition is_image (n : Node) : bool := match n with NImage _ => true | _ => false end.
Definition is_workload_node (n : Node) : bool := match n with NWorkload _ => true | _ => false end.

(** The last element a test selects. *)
Definition last_where {A} (p : A -> bool) (l : list A) : option A := last (List.filter p l).

(** Overwrites leave the last of them. *)
Lemma last_write {A B} (F : Node -> A -> Node) (get : Node -> B) (p : A -> bool) (val : A -> B) n l :
  (forall m x, bare m = bare n -> bare (F m x) = bare m /\ get (F m x) = if p x then val x else get m) ->
  get (foldl F n l) = match last_where p l with Some x => val x | None => get n end.
Proof.
  intros HF. unfold last_where. assert (forall l, bare (foldl F n l) = bare n) as Hb.
  { clear l. intros l. induction l as [|x l IH] using rev_ind; [done|]. rewrite foldl_snoc. by rewrite (proj1 (HF _ x IH)). }
  induction l as [|x l IH] using rev_ind; [done|]. rewrite foldl_snoc, List.filter_app. rewrite (proj2 (HF _ x (Hb l))). cbn [List.filter].
  destruct (p x); [by rewrite last_snoc|]. by rewrite app_nil_r.
Qed.

Record Evidence := mkEvidence {
  ev_vulns : list Vulnerability; ev_secrets : list ScanFinding; ev_static : option bool;
  ev_misconfigs : list ScanFinding; ev_rbac : list ScanFinding; ev_runtime : list RuntimeSignal
}.

Definition evidence (n : Node) : Evidence :=
  mkEvidence (node_vulnerabilities n) (node_secrets n) (node_static n) (node_misconfigs n) (node_rbac n) (node_runtime n).

(** What rewriting does not write stays. *)
Lemma foldl_keep {A B} (F : Node -> A -> Node) (get : Node -> B) n l : (forall m x, get (F m x) = get m) -> get (foldl F n l) = get n.
Proof. intros HF. induction l as [|x l IH] using rev_ind; [done|]. by rewrite foldl_snoc, HF. Qed.

(** Only images, only workloads. *)
Definition if_image {A} (n : Node) (x y : A) : A := if is_image n then x else y.
Definition if_workload {A} (n : Node) (x y : A) : A := if is_workload_node n then x else y.

Lemma bare_image n m : bare m = bare n -> is_image m = is_image n.
Proof. by destruct n, m. Qed.

Lemma bare_workload n m : bare m = bare n -> is_workload_node m = is_workload_node n.
Proof. by destruct n, m. Qed.

Lemma not_image n : is_image n = false -> node_vulnerabilities n = [] /\ node_secrets n = [] /\ node_static n = None.
Proof. by destruct n. Qed.

Lemma not_workload n : is_workload_node n = false -> node_misconfigs n = [] /\ node_rbac n = [] /\ node_runtime n = [].
Proof. by destruct n. Qed.

(** ** Scanner findings *)

Section Findings.
Context {G : Type} `{SGL : StableGraphLaws G Node Edge}.
Implicit Types sg : SecurityGraph G.
Variable oci : string -> option OciReference.
Variable sn : Snapshot.

Definition scans (key : NodeKey) (image : string) : bool := bool_decide (key_image (canonical_image oci image) = key).

(** What the scanners report of an image: the last report of it. *)
Definition scanned_vulns (key : NodeKey) : option (list Vulnerability) :=
  iv_vulnerabilities <$> last_where (fun f => scans key (iv_image f)) (sn_image_vulns sn).
Definition scanned_secrets (key : NodeKey) : option (list ScanFinding) :=
  isf_findings <$> last_where (fun f => scans key (isf_image f)) (sn_image_secrets sn).

Ltac keep_evidence := apply foldl_keep; intros m x; unfold at_key; case_decide; [by destruct m|done].

(** Overwriting a field of the images the reports name. *)
Lemma image_write {A B} (image : A -> string) (set : B -> Image -> Image) (val : A -> B) (get : Node -> B) n l :
  (forall b im, bare (NImage (set b im)) = bare (NImage im)) ->
  (forall b im, get (NImage (set b im)) = b) -> is_image n = true ->
  get (foldl (fun n f => at_key (key_image (canonical_image oci (image f))) (on_image (set (val f))) n) n l) =
  default (get n) (val <$> last_where (fun f => scans (node_key n) (image f)) l).
Proof.
  intros Hbare Hget Hn. etrans; [apply (last_write _ get (fun f => scans (node_key n) (image f)) val)|].
  - intros m x Hm. unfold at_key, scans. rewrite <- (same_bare_key _ _ Hm). rewrite <- (bare_image _ _ Hm) in Hn. destruct m; try done.
    case_decide as H; [rewrite bool_decide_true by done|rewrite bool_decide_false by (intros E; by symmetry in E)]; [|done].
    split; [apply Hbare|apply Hget].
  - by destruct (last_where _ l).
Qed.

Lemma vulnerability_maps sg :
  graph_ok sg -> exists F, maps (vulnerability_adapter oci sn sg) sg F /\
    forall n, evidence (F n) = mkEvidence (if_image n (default (node_vulnerabilities n) (scanned_vulns (node_key n))) [])
      (node_secrets n) (node_static n) (node_misconfigs n) (node_rbac n) (node_runtime n).
Proof.
  intros Hok. eexists. split; [apply maps_foldM; [done|]; intros f sg1 _ _ Hok1 _; apply maps_update; [done|by intros []]|].
  intros n. unfold evidence. f_equal; [|keep_evidence..]. unfold if_image. destruct (is_image n) eqn:Hn.
  - apply (image_write iv_image set_vulnerabilities iv_vulnerabilities node_vulnerabilities n); [done|done|done].
  - apply not_image. rewrite <- Hn. keep_evidence.
Qed.

Lemma exposed_secret_maps sg :
  graph_ok sg -> exists F, maps (exposed_secret_adapter oci sn sg) sg F /\
    forall n, evidence (F n) = mkEvidence (node_vulnerabilities n) (if_image n (default (node_secrets n) (scanned_secrets (node_key n))) [])
      (node_static n) (node_misconfigs n) (node_rbac n) (node_runtime n).
Proof.
  intros Hok. eexists. split; [apply maps_foldM; [done|]; intros f sg1 _ _ Hok1 _; apply maps_update; [done|by intros []]|].
  intros n. unfold evidence. f_equal; [keep_evidence| |keep_evidence..]. unfold if_image. destruct (is_image n) eqn:Hn.
  - apply (image_write isf_image set_exposed_secrets isf_findings node_secrets n); [done|done|done].
  - apply not_image. rewrite <- Hn. keep_evidence.
Qed.

(** Whether a report names a workload: a pod by its key, a controller by its
    namespace and the prefix of its pods' names. *)
Definition node_in_namespace (ns : string) (n : Node) : bool :=
  match n with NWorkload w => bool_decide (w_namespace w = ns) | _ => false end.

Definition audits (n : Node) (r : WorkloadRef) : bool :=
  if bool_decide (wr_kind r = "Pod") then bool_decide (node_key n = key_workload (wr_namespace r) "Pod" (wr_name r))
  else node_in_namespace (wr_namespace r) n &&
       match key_name (node_key n) with Some nm => starts_with (wr_name r +:+ "-") nm | None => false end.

Lemma in_namespace_keys sg ns : workloads_in_namespace sg ns = keys_where (node_in_namespace ns) sg.
Proof. unfold workloads_in_namespace, keys_where. apply list_omap_ext, Forall_Forall2_diag, Forall_true. intros i. by destruct (node sg i) as [[]|]. Qed.

Lemma NoDup_filter_bool {A} (p : A -> bool) (l : list A) : NoDup l -> NoDup (List.filter p l).
Proof. intros H. pose proof (NoDup_fmap_filter id p l) as Hf. rewrite !list_fmap_id in Hf. auto. Qed.

Lemma matching_NoDup sg ns r : graph_ok sg -> NoDup (matching_workloads sg ns r).
Proof.
  intros Hok. unfold matching_workloads. case_bool_decide; [case_bool_decide; [apply NoDup_singleton|constructor]|].
  rewrite in_namespace_keys. apply NoDup_filter_bool. by apply keys_where_NoDup.
Qed.

Lemma matching_node sg r i n :
  graph_ok sg -> node sg i = Some n -> node_key n ∈ matching_workloads sg (wr_namespace r) r <-> audits n r = true.
Proof.
  intros Hok Hn. unfold matching_workloads, audits. case_bool_decide.
  - rewrite bool_decide_eq_true. pose proof (graph_ok_node _ _ _ Hok Hn) as Hi. case_bool_decide as Hk.
    + by rewrite list_elem_of_singleton.
    + split; [by intros ?%not_elem_of_nil|]. intros Hkey. exfalso. apply Hk. rewrite <- Hkey. unfold index_of. rewrite Hi. eauto.
  - rewrite elem_of_filter_b, in_namespace_keys, (keys_where_node _ _ _ _ Hok Hn), andb_true_iff. tauto.
Qed.

(** Overwriting a field of the workloads under some keys. *)
Lemma workload_keys_write ks (set : Workload -> Workload) (p : Node -> bool) sg :
  graph_ok sg -> NoDup ks -> (forall w, bare (NWorkload (set w)) = bare (NWorkload w)) ->
  (forall i n, node sg i = Some n -> node_key n ∈ ks <-> p n = true) ->
  maps (foldM (fun sg k => update_node sg k (on_workload set)) sg ks) sg (fun n => if p n then on_workload set n else n).
Proof.
  intros Hok Hnd Hset Hp. assert (forall n, bare (on_workload set n) = bare n) as Hb by (intros []; [apply Hset|done..]).
  eapply maps_ext_in; [| |apply (maps_each_key (fun _ => on_workload set)); done].
  - intros i n Hn. specialize (Hp i n Hn). destruct (p n); [by rewrite decide_True by tauto|rewrite decide_False by naive_solver; done].
  - intros n. by destruct (p n).
Qed.

Definition reported_misconfigs (n : Node) : option (list ScanFinding) :=
  wf_findings <$> last_where (fun r => audits n (wf_resource r)) (sn_config_audits sn).
Definition reported_rbac (n : Node) : option (list ScanFinding) :=
  rf_findings <$> last_where (fun r => node_in_namespace (rf_namespace r) n) (sn_rbac_assessments sn).

Lemma in_namespace_bare ns n m : bare m = bare n -> node_in_namespace ns m = node_in_namespace ns n.
Proof. intros H. destruct n, m; try done. simpl in *. by injection H as ->. Qed.

Lemma audits_bare n m r : bare m = bare n -> audits m r = audits n r.
Proof. intros H. unfold audits. by rewrite (same_bare_key _ _ H), (in_namespace_bare _ _ _ H). Qed.

Ltac keep_workload_evidence := apply foldl_keep; intros m x; cbn beta; case_match; [by destruct m|done].

Lemma config_audit_maps sg :
  graph_ok sg -> exists F, maps (config_audit_adapter sn sg) sg F /\
    forall n, evidence (F n) = mkEvidence (node_vulnerabilities n) (node_secrets n) (node_static n)
      (if_workload n (default (node_misconfigs n) (reported_misconfigs n)) []) (node_rbac n) (node_runtime n).
Proof.
  intros Hok. eexists. split.
  { apply maps_foldM with (F := fun r n => if audits n (wf_resource r) then on_workload (set_misconfigs (wf_findings r)) n else n); [done|].
    intros r sg1 _ _ Hok1 _. apply workload_keys_write; [done|by apply matching_NoDup|done|]. intros i n. by apply matching_node. }
  intros n. unfold evidence. f_equal; [keep_workload_evidence..| |keep_workload_evidence|keep_workload_evidence].
  unfold if_workload. destruct (is_workload_node n) eqn:Hn.
  - etrans; [apply (last_write _ node_misconfigs (fun r => audits n (wf_resource r)) wf_findings)|].
    + intros m x Hm. rewrite (audits_bare _ _ _ Hm). rewrite <- (bare_workload _ _ Hm) in Hn. by destruct m, (audits n (wf_resource x)).
    + unfold reported_misconfigs. by destruct (last_where _ _).
  - apply not_workload. rewrite <- Hn. keep_workload_evidence.
Qed.

Lemma rbac_assessment_maps sg :
  graph_ok sg -> exists F, maps (rbac_assessment_adapter sn sg) sg F /\
    forall n, evidence (F n) = mkEvidence (node_vulnerabilities n) (node_secrets n) (node_static n) (node_misconfigs n)
      (if_workload n (default (node_rbac n) (reported_rbac n)) []) (node_runtime n).
Proof.
  intros Hok. eexists. split.
  { apply maps_foldM with (F := fun r n => if node_in_namespace (rf_namespace r) n then on_workload (set_rbac_findings (rf_findings r)) n else n); [done|].
    intros r sg1 _ _ Hok1 _. rewrite in_namespace_keys. apply workload_keys_write; [done|by apply keys_where_NoDup|done|].
    intros i n. by apply keys_where_node. }
  intros n. unfold evidence. f_equal; [keep_workload_evidence..| |keep_workload_evidence].
  unfold if_workload. destruct (is_workload_node n) eqn:Hn.
  - etrans; [apply (last_write _ node_rbac (fun r => node_in_namespace (rf_namespace r) n) rf_findings)|].
    + intros m x Hm. rewrite <- (bare_workload _ _ Hm) in Hn.
      rewrite (in_namespace_bare _ _ _ Hm). by destruct m, (node_in_namespace (rf_namespace x) n).
    + unfold reported_rbac. by destruct (last_where _ _).
  - apply not_workload. rewrite <- Hn. keep_workload_evidence.
Qed.
End Findings.

(** ** The secret a path reads *)

(** The mounts of secret volumes a path lies under, in order: the length of the
    mount path and what the read is reported as. *)
Definition covering_mounts (pod : Pod) (path : string) : list (nat * string) :=
  match pod_spec pod with
  | None => []
  | Some spec => omap (fun m => secret ← secret_volumes spec !! m.1; sub ← under path m.2;
      Some (String.length m.2, if bool_decide (sub = "") then secret else secret +:+ "/" +:+ sub))
      (all_containers spec ≫= fun c => flat (ct_volume_mounts c))
  end.

(** The first of the longest. *)
Definition first_longest (l : list (nat * string)) (best : option (nat * string)) : Prop :=
  match best with
  | None => l = []
  | Some b => exists l1 l2, l = l1 ++ b :: l2 /\ (forall x, x ∈ l1 -> x.1 < b.1) /\ (forall x, x ∈ l2 -> x.1 <= b.1)
  end.

Lemma first_longest_snoc l best x :
  first_longest l best ->
  first_longest (l ++ [x]) (if match best with None => true | Some b => b.1 <? x.1 end then Some x else best).
Proof.
  destruct best as [b|]; simpl.
  - intros (l1 & l2 & -> & H1 & H2). destruct (Nat.ltb_spec (b.1) (x.1)).
    + exists (l1 ++ b :: l2), []. split; [done|]. split; [|by intros y ?%not_elem_of_nil].
      intros y [Hy|[->|Hy]%elem_of_cons]%elem_of_app; [apply H1 in Hy; lia|done|apply H2 in Hy; lia].
    + exists l1, (l2 ++ [x]). split; [by rewrite <- app_assoc|]. split; [done|].
      intros y [Hy| ->%list_elem_of_singleton]%elem_of_app; [by apply H2|lia].
  - intros ->. exists [], []. split; [done|]. by split; intros y ?%not_elem_of_nil.
Qed.

Lemma mount_best_longest vols path ms :
  first_longest (omap (fun m => secret ← vols !! m.1; sub ← under path m.2;
      Some (String.length m.2, if bool_decide (sub = "") then secret else secret +:+ "/" +:+ sub)) ms)
    (foldl (mount_best vols path) None ms).
Proof.
  induction ms as [|m ms IH] using rev_ind; [done|]. rewrite foldl_snoc, omap_snoc. unfold mount_best at 1.
  destruct (vols !! m.1) as [secret|]; cbn [mbind option_bind]; [|by rewrite app_nil_r].
  destruct (under path m.2) as [sub|]; cbn [mbind option_bind]; [|by rewrite app_nil_r].
  apply (first_longest_snoc _ _ (String.length m.2, if bool_decide (sub = "") then secret else secret +:+ "/" +:+ sub)) in IH.
  by destruct (foldl (mount_best vols path) None ms) as [[l i]|].
Qed.

(** A file read is reported as a read of a secret exactly when the path lies
    under the mount of a secret volume of the pod, and then under the longest
    such mount path, the first among equals. *)
Theorem secret_for_path_exact pod path :
  exists best, first_longest (covering_mounts pod path) best /\ secret_for_path pod path = snd <$> best.
Proof.
  unfold secret_for_path, covering_mounts. destruct (pod_spec pod) as [spec|]; [|by exists None]. cbn [mbind option_bind].
  eexists. split; [apply mount_best_longest|]. case_bool_decide as He; [|done].
  assert (forall ms, foldl (mount_best (secret_volumes spec) path) None ms = None) as ->; [|done].
  intros ms. induction ms as [|m ms IH] using rev_ind; [done|]. rewrite foldl_snoc, IH. unfold mount_best. by rewrite He, lookup_empty.
Qed.

(** A path lies under a mount when it is the mount or continues it with a slash:
    [/etc/foo] does not cover [/etc/foobar]. *)
Lemma under_exact path mount sub :
  under path mount = Some sub <->
  let mp := trim_end_matches slash mount in path = mp /\ sub = "" \/ path <> mp /\ path = mp +:+ "/" +:+ sub.
Proof.
  unfold under. cbn zeta. case_bool_decide as H; [naive_solver|]. rewrite bind_Some. setoid_rewrite strip_prefix_app. naive_solver.
Qed.
