(* ===== verification/SignalFacts.v ===== *)
(** * The runtime evidence of a pass

    What the runtime, audit and reachability adapters (Enrich) write, as a
    function of the observations: which signals a workload carries, which
    linkage an image, and how each vulnerability is tagged. *)

From S2P Require Import Prelude Text ImageRef Posture.
From S2P Require Import PetGraph Attack Behavior Graph Snapshot Adapters HostCredential PeerIndex AdapterFacts Enrich EnrichFacts.

Definition with_ev_runtime (rs : list RuntimeSignal) (e : Evidence) : Evidence :=
  mkEvidence (ev_vulns e) (ev_secrets e) (ev_static e) (ev_misconfigs e) (ev_rbac e) rs.

Definition with_ev_static (b : option bool) (e : Evidence) : Evidence :=
  mkEvidence (ev_vulns e) (ev_secrets e) b (ev_misconfigs e) (ev_rbac e) (ev_runtime e).

Definition with_ev_vulns (vs : list Vulnerability) (e : Evidence) : Evidence :=
  mkEvidence vs (ev_secrets e) (ev_static e) (ev_misconfigs e) (ev_rbac e) (ev_runtime e).

(** ** Peers within a pass *)

(** [m] says of every address the index misses what [m0] says. *)
Definition memo_known (index : IpIndex) (m0 m : PeerMemo) : Prop := forall ip, m !! ip = m0 !! ip \/ is_Some (index !! ip).

Lemma resolve_known index now m0 m peer internet :
  memo_known index m0 m ->
  (resolve_peer m index peer internet now).1 = (resolve_peer m0 index peer internet now).1 /\
  memo_known index m0 (resolve_peer m index peer internet now).2.
Proof.
  intros Hm. unfold resolve_peer. destruct internet; [done|]. destruct (split_ip_port peer) as [[ip port]|]; [|done].
  destruct (index !! ip) as [r|] eqn:Hi.
  - split; [done|]. intros ip'. cbn [snd]. rewrite lookup_insert. case_decide as H; [subst; eauto|apply Hm].
  - destruct (Hm ip) as [->|[? ?]]; [|congruence]. destruct (m0 !! ip) as [[r seen]|]; [|done]. by destruct (in_grace now seen).
Qed.

(** ** Runtime observations *)

Section Runtime.
Context {G : Type} `{SGL : StableGraphLaws G Node Edge}.
Implicit Types sg : SecurityGraph G.
Variable event_clock : nat -> SystemTime.
Variables (by_uid : gmap string Pod) (index : IpIndex) (now : Z).
(** The memo as the pass found it, pruned. *)
Variable m0 : PeerMemo.

(** The signal of an observation, and the workload it lands on: the memo of the
    start of the pass decides it, whatever came before in the batch. *)
Definition signal_of (ne : nat * RuntimeObservation) : option (NodeKey * RuntimeSignal) :=
  '(ns, name, pod) ← attributed by_uid (ob_attribution ne.2);
  match ob_behavior ne.2 with
  | ImageLinkage _ => None
  | b =>
      behavior ← (refine_behavior index now pod m0 b).1;
      let at_time := match ob_observed_at_ms ne.2 with Some ms => from_millis ms | None => event_clock ne.1 end in
      Some (key_workload ns "Pod" name, mkSignal behavior (mkProv (default "runtime" (ob_source ne.2)) at_time))
  end.

Definition linkage_of (ne : nat * RuntimeObservation) : option (NodeKey * bool) :=
  '(ns, name, _) ← attributed by_uid (ob_attribution ne.2);
  match ob_behavior ne.2 with ImageLinkage b => Some (key_workload ns "Pod" name, b) | _ => None end.

(** The element of a keyed report under one key. *)
Definition under_key {A} (k : NodeKey) (o : option (NodeKey * A)) : option A :=
  '(k', a) ← o; if decide (k' = k) then Some a else None.

(** Every report of a workload says static. *)
Definition all_static (l : list bool) : option bool :=
  match l with [] => None | _ => Some (forallb id l) end.

Lemma all_static_snoc l b : all_static (l ++ [b]) = Some (match all_static l with Some s => s && b | None => b end).
Proof. destruct l as [|x l]; simpl; [by rewrite andb_true_r|]. rewrite forallb_app. simpl. by rewrite andb_true_r, andb_assoc. Qed.

Lemma push_evidence n s :
  evidence (on_workload (push_signal s) n) = with_ev_runtime (if_workload n (node_runtime n ++ [s]) []) (evidence n).
Proof. by destruct n. Qed.

(** What the events so far made of the graph, the memo and the linkage. *)
Record events_done sg0 (l : list (nat * RuntimeObservation)) (st : SecurityGraph G * PeerMemo * gmap NodeKey bool) : Prop := {
  ed_graph : exists F, mapped sg0 st.1.1 F /\ forall n, evidence (F n) = with_ev_runtime
      (node_runtime n ++ if_workload n (omap (fun ne => under_key (node_key n) (signal_of ne)) l) []) (evidence n);
  ed_memo : memo_known index m0 st.1.2;
  ed_linkage : forall k, st.2 !! k = all_static (omap (fun ne => under_key k (linkage_of ne)) l)
}.

Lemma events_none sg0 : events_done sg0 [] (sg0, m0, ∅).
Proof.
  split; cbn [fst snd]; [|by left|by intros k; rewrite lookup_empty]. exists id. split; [apply mapped_id|].
  intros n. simpl. unfold if_workload. destruct (is_workload_node n); by rewrite app_nil_r.
Qed.

Lemma event_dropped sg0 l sg m m' linkage ne :
  events_done sg0 l (sg, m, linkage) -> signal_of ne = None -> linkage_of ne = None -> memo_known index m0 m' ->
  events_done sg0 (l ++ [ne]) (sg, m', linkage).
Proof.
  intros [(F & Hm & He) Hk Hl] Hs Hn Hm'. split; cbn [fst snd] in *; [|done|].
  - exists F. split; [done|]. intros n. rewrite omap_snoc, Hs. simpl. by rewrite app_nil_r.
  - intros k. rewrite omap_snoc, Hn. simpl. by rewrite app_nil_r.
Qed.

Lemma event_linked sg0 l sg m linkage ne key b :
  events_done sg0 l (sg, m, linkage) -> signal_of ne = None -> linkage_of ne = Some (key, b) ->
  events_done sg0 (l ++ [ne]) (sg, m, <[key := match linkage !! key with Some s => s && b | None => b end]> linkage).
Proof.
  intros [(F & Hm & He) Hk Hl] Hs Hn. split; cbn [fst snd] in *; [|done|].
  - exists F. split; [done|]. intros n. rewrite omap_snoc, Hs. simpl. by rewrite app_nil_r.
  - intros k. rewrite omap_snoc, Hn, lookup_insert. cbn [under_key mbind option_bind]. case_decide; simpl.
    + subst k. by rewrite all_static_snoc, Hl.
    + by rewrite app_nil_r, Hl.
Qed.

Lemma event_signal sg0 l sg m m' linkage ne key s :
  graph_ok sg0 -> events_done sg0 l (sg, m, linkage) -> signal_of ne = Some (key, s) -> linkage_of ne = None -> memo_known index m0 m' ->
  exists sg', update_node sg key (on_workload (push_signal s)) = Some sg' /\ events_done sg0 (l ++ [ne]) (sg', m', linkage).
Proof.
  intros Hok [(F & Hm & He) Hk Hl] Hs Hn Hm'. cbn [fst snd] in *.
  destruct (maps_update sg key (on_workload (push_signal s)) (mapped_ok _ _ _ Hm Hok)) as (sg' & Hu & Hm2); [by intros []|].
  exists sg'. split; [done|]. split; cbn [fst snd]; [|done|intros k; rewrite omap_snoc, Hn; simpl; by rewrite app_nil_r].
  eexists. split; [by eapply mapped_comp|]. intros n. unfold at_key.
  assert (node_key (F n) = node_key n) as Hkn by (apply same_bare_key, Hm).
  assert (is_workload_node (F n) = is_workload_node n) as Hwn by (apply bare_workload, Hm).
  assert (node_runtime (F n) = ev_runtime (evidence (F n))) as Hrt by done. rewrite He in Hrt. cbn [ev_runtime with_ev_runtime] in Hrt.
  rewrite Hkn, omap_snoc, Hs. cbn [under_key mbind option_bind]. case_decide as Hd.
  - rewrite decide_True by done. rewrite push_evidence, He, Hrt. unfold if_workload. rewrite Hwn.
    destruct (is_workload_node n) eqn:Hw; simpl; [by rewrite app_assoc|]. by destruct n.
  - rewrite decide_False by (intros E; by symmetry in E). simpl. by rewrite app_nil_r, He.
Qed.

Lemma refine_known pod m b :
  memo_known index m0 m ->
  (refine_behavior index now pod m b).1 = (refine_behavior index now pod m0 b).1 /\
  memo_known index m0 (refine_behavior index now pod m b).2.
Proof.
  intros Hk. destruct b; try done. cbn [refine_behavior]. pose proof (resolve_known index now m0 m peer internet Hk) as [H1 H2].
  destruct (resolve_peer m index peer internet now), (resolve_peer m0 index peer internet now). simpl in *. by subst.
Qed.

Lemma runtime_event_step sg0 l st ne :
  graph_ok sg0 -> events_done sg0 l st ->
  exists st', runtime_event event_clock by_uid index now st ne = Some st' /\ events_done sg0 (l ++ [ne]) st'.
Proof.
  intros Hok Hd. destruct st as [[sg m] linkage], ne as [k event]. pose proof (ed_memo _ _ _ Hd) as Hk. cbn [fst snd] in Hk.
  unfold runtime_event.
  assert (Hs : signal_of (k, event) = signal_of (k, event)) by done. assert (Hn : linkage_of (k, event) = linkage_of (k, event)) by done.
  unfold signal_of in Hs at 2. unfold linkage_of in Hn at 2. cbn [fst snd] in Hs, Hn.
  destruct (attributed by_uid (ob_attribution event)) as [[[ns name] pod]|]; cbn [mbind option_bind] in Hs, Hn.
  2: { eexists. split; [done|]. by eapply event_dropped. }
  destruct (ob_behavior event) as [| | | | | | | |b| |]; try (eexists; split; [done|]; by eapply event_linked).
  all: match goal with |- context [refine_behavior _ _ _ _ ?b] => pose proof (refine_known pod m b Hk) as [Hr Hmk] end.
  all: rewrite <- Hr in Hs; destruct (refine_behavior index now pod m _) as [[b'|] m']; cbn [fst snd mbind option_bind] in *.
  all: try (eexists; split; [done|]; by eapply event_dropped).
  all: edestruct event_signal as (sg' & Hu & Hd'); [done|exact Hd|exact Hs|exact Hn|exact Hmk|].
  all: rewrite Hu; cbn [mbind option_bind]; eexists; split; [done|exact Hd'].
Qed.

Lemma runtime_events_spec l sg0 :
  graph_ok sg0 -> exists st, foldM (runtime_event event_clock by_uid index now) (sg0, m0, ∅) l = Some st /\ events_done sg0 l st.
Proof.
  intros Hok. induction l as [|ne l IH] using rev_ind; [eexists; split; [done|apply events_none]|].
  destruct IH as (st & Hf & Hd). rewrite foldM_snoc, Hf. by apply runtime_event_step.
Qed.
End Runtime.

(** ** Edges between keys, as the adapters walk them *)

Section Walks.
Context {G : Type} `{SGL : StableGraphLaws G Node Edge}.
Implicit Types sg : SecurityGraph G.

Lemma run_image_keys_spec sg i n k :
  graph_ok sg -> node sg i = Some n -> k ∈ run_image_keys sg i <-> edge_in sg (node_key n) RunsImage k.
Proof.
  intros Hok Hn. pose proof (key_of_node _ _ _ Hn) as Hi. unfold run_image_keys, edge_in. rewrite list_elem_of_omap. split.
  - intros (r & [Hr Hsrc]%sg_edges_spec & Hk). destruct (e_relation (er_weight r)) eqn:Hrel; try done. exists r. by rewrite Hsrc.
  - intros (r & Hr & Hsrc & Hk & Hrel). exists r. rewrite Hrel. split; [|done]. apply sg_edges_spec. split; [done|].
    by eapply graph_ok_inj.
Qed.

Lemma running_as_spec sg i n k :
  graph_ok sg -> node sg i = Some n -> k ∈ running_as sg i <-> edge_in sg k RunsAs (node_key n).
Proof.
  intros Hok Hn. pose proof (key_of_node _ _ _ Hn) as Hi. unfold running_as, edge_in. rewrite list_elem_of_omap. split.
  - intros (r & [Hr Htgt]%sg_edges_in_spec & Hk). destruct (e_relation (er_weight r)) eqn:Hrel; try done. exists r. by rewrite Htgt.
  - intros (r & Hr & Hk & Htgt & Hrel). exists r. rewrite Hrel. split; [|done]. apply sg_edges_in_spec. split; [done|].
    by eapply graph_ok_inj.
Qed.

Lemma edge_source_node sg a r b : edge_in sg a r b -> exists i n, node sg i = Some n /\ node_key n = a.
Proof. intros (e & He & Ha & _). unfold key_of in Ha. apply fmap_Some in Ha as (n & Hn & ->). eauto. Qed.

Lemma edge_target_node sg a r b : edge_in sg a r b -> exists i n, node sg i = Some n /\ node_key n = b.
Proof. intros (e & He & _ & Hb & _). unfold key_of in Hb. apply fmap_Some in Hb as (n & Hn & ->). eauto. Qed.

(** *** Linkage *)

Definition links_to (k : NodeKey) (kb : NodeKey * bool) : bool := bool_decide (kb.1 = k).

Lemma images_to_link_elem sg linkage k b :
  graph_ok sg ->
  (k, b) ∈ images_to_link sg linkage <->
  exists i w, node sg i = Some (NWorkload w) /\ edge_in sg (node_key (NWorkload w)) RunsImage k /\ linkage !! node_key (NWorkload w) = Some b.
Proof.
  intros Hok. unfold images_to_link. rewrite list_elem_of_bind. split.
  - intros (i & Hi & _). destruct (node sg i) as [[w| | | | | |]|] eqn:Hn; try by apply not_elem_of_nil in Hi.
    destruct (linkage !! node_key (NWorkload w)) as [s|] eqn:Hl; [|by apply not_elem_of_nil in Hi].
    apply list_elem_of_fmap in Hi as (k' & [= <- <-] & Hk). exists i, w. split; [done|]. split; [|done]. by eapply run_image_keys_spec.
  - intros (i & w & Hn & He & Hl). exists i. rewrite Hn, Hl. split; [|apply sg_indices_spec; unfold node in Hn; eauto].
    apply list_elem_of_fmap. exists k. split; [done|]. by eapply run_image_keys_spec.
Qed.

Lemma static_write n l :
  evidence (foldl (fun n kb => at_key kb.1 (on_image (set_static_binary kb.2)) n) n l) =
  with_ev_static (if_image n (match last_where (links_to (node_key n)) l with Some kb => Some kb.2 | None => node_static n end) None) (evidence n).
Proof.
  unfold evidence, with_ev_static. cbn [ev_vulns ev_secrets ev_misconfigs ev_rbac ev_runtime].
  f_equal; try (apply foldl_keep; intros m x; unfold at_key; case_decide; [by destruct m|done]).
  unfold if_image. destruct (is_image n) eqn:Hn.
  - apply (last_write _ node_static (links_to (node_key n)) (fun kb => Some kb.2)). intros m [k b] Hm. unfold at_key, links_to. cbn [fst snd].
    rewrite <- (same_bare_key _ _ Hm). rewrite <- (bare_image _ _ Hm) in Hn. destruct m; try done.
    case_decide as H; [by rewrite bool_decide_true|rewrite bool_decide_false; [done|intros E; by symmetry in E]].
  - apply not_image. rewrite <- Hn. apply foldl_keep. intros m x. unfold at_key. case_decide; [by destruct m|done].
Qed.

Lemma link_images_spec sg linkage :
  graph_ok sg -> exists F, maps (link_images sg linkage) sg F /\
    forall n, evidence (F n) = with_ev_static (if_image n
      (match last_where (links_to (node_key n)) (images_to_link sg linkage) with Some kb => Some kb.2 | None => node_static n end) None) (evidence n).
Proof.
  intros Hok. unfold link_images. case_bool_decide as Hl.
  - exists id. split; [apply maps_id|]. intros n. assert (images_to_link sg linkage = []) as ->.
    { apply elem_of_nil_inv. intros [k b] (i & w & _ & _ & H)%images_to_link_elem; [|done]. by rewrite Hl, lookup_empty in H. }
    by destruct n.
  - eexists. split; [apply maps_foldM; [done|]; intros kb sg1 _ _ Hok1 _; apply maps_update; [done|by intros []]|].
    intros n. apply static_write.
Qed.
End Walks.

(** ** API secret reads *)

Section Audit.
Context {G : Type} `{SGL : StableGraphLaws G Node Edge}.
Implicit Types sg : SecurityGraph G.
Variable audit_clock : nat -> nat -> SystemTime.

Definition audit_signal (read : AuditSecretRead) (t : SystemTime) : RuntimeSignal :=
  mkSignal (SecretRead (secret_display read) Api) (mkProv "k8s-audit" t).

Definition audit_identity (read : AuditSecretRead) : NodeKey :=
  node_key (NIdentity (mkIdentity (asr_sa_namespace read) (asr_sa_name read))).

(** The signals an audit read adds to a workload: one per edge on which it runs
    as the identity that read. *)
Definition audited (sg0 : SecurityGraph G) (nrs : list (nat * AuditSecretRead)) (k : NodeKey) (ss : list RuntimeSignal) : Prop :=
  (forall s, s ∈ ss -> exists j read m, (j, read) ∈ nrs /\ edge_in sg0 k RunsAs (audit_identity read) /\ s = audit_signal read (audit_clock j m)) /\
  (forall j read, (j, read) ∈ nrs -> edge_in sg0 k RunsAs (audit_identity read) -> exists m, audit_signal read (audit_clock j m) ∈ ss).

Lemma audited_app sg0 l l' k ss ss' : audited sg0 l k ss -> audited sg0 l' k ss' -> audited sg0 (l ++ l') k (ss ++ ss').
Proof.
  intros [S1 C1] [S2 C2]. split.
  - intros s [H|H]%elem_of_app; [apply S1 in H|apply S2 in H]; destruct H as (j & read & m & Hin & He & ->); exists j, read, m;
      (split; [apply elem_of_app; by (left + right)|done]).
  - intros j read [H|H]%elem_of_app He; [destruct (C1 _ _ H He) as [m Hm]|destruct (C2 _ _ H He) as [m Hm]]; exists m;
      apply elem_of_app; by (left + right).
Qed.

Lemma pushes_spec (s : nat -> RuntimeSignal) l n :
  evidence (foldl (fun n mk => at_key mk.2 (on_workload (push_signal (s mk.1))) n) n l) =
  with_ev_runtime (node_runtime n ++ if_workload n (omap (fun mk => if decide (mk.2 = node_key n) then Some (s mk.1) else None) l) []) (evidence n) /\
  bare (foldl (fun n mk => at_key mk.2 (on_workload (push_signal (s mk.1))) n) n l) = bare n.
Proof.
  induction l as [|[m k] l [IH IHb]] using rev_ind.
  - split; [|done]. simpl. unfold if_workload. destruct (is_workload_node n); by rewrite app_nil_r.
  - rewrite foldl_snoc, omap_snoc. set (n1 := foldl _ n l) in *. cbn [fst snd]. unfold at_key.
    rewrite (same_bare_key _ _ IHb). case_decide as H.
    + rewrite decide_True by done. split; [|by rewrite <- IHb; destruct n1]. rewrite push_evidence, IH.
      assert (node_runtime n1 = ev_runtime (evidence n1)) as Hrt by done. rewrite IH in Hrt. cbn [ev_runtime with_ev_runtime] in Hrt. rewrite Hrt.
      unfold if_workload. rewrite (bare_workload _ _ IHb). destruct (is_workload_node n) eqn:Hw; simpl; [by rewrite app_assoc|]. by destruct n.
    + rewrite decide_False by (intros E; by symmetry in E). simpl. by rewrite app_nil_r, IH.
Qed.

(** One read, on a graph whose edges are those of [sg0]. *)
Lemma audit_read_maps sn sg0 sg j read :
  graph_ok sg -> (forall a r b, edge_in sg a r b <-> edge_in sg0 a r b) ->
  exists F, maps (audit_read audit_clock sn sg (j, read)) sg F /\
    forall i n, node sg i = Some n -> exists ss, evidence (F n) = with_ev_runtime (node_runtime n ++ if_workload n ss []) (evidence n) /\
      audited sg0 [(j, read)] (node_key n) ss.
Proof.
  intros Hok He. unfold audit_read, index_of. fold (audit_identity read). destruct (index sg !! audit_identity read) as [id|] eqn:Hid.
  2: { exists Datatypes.id. split; [apply maps_id|]. intros i n Hn. exists []. split.
       - unfold if_workload. destruct (is_workload_node n); by rewrite app_nil_r.
       - split; [by intros s ?%not_elem_of_nil|]. intros j' read' [= -> ->]%list_elem_of_singleton (i' & n' & Hn' & Hk)%He%edge_target_node.
         pose proof (graph_ok_node _ _ _ Hok Hn') as H. by rewrite Hk, Hid in H. }
  apply Hok in Hid as Hidn. destruct Hidn as (nid & Hnid & Hkid).
  eexists. split; [apply maps_foldM; [done|]; intros mk sg1 _ _ Hok1 _; apply maps_update; [done|by intros []]|].
  intros i n Hn. eexists. split; [apply (pushes_spec (fun m => audit_signal read (audit_clock j m)))|].
  assert (forall k, k ∈ running_as sg id <-> edge_in sg0 k RunsAs (audit_identity read)) as Hrun.
  { intros k. rewrite <- He, <- Hkid. by apply running_as_spec. }
  split.
  - intros s ([m k] & Hin & Hs)%list_elem_of_omap. cbn [fst snd] in Hs. case_decide; [|done]. simplify_eq.
    exists j, read, m. split; [by left|]. split; [|done]. apply Hrun. apply elem_of_lookup_imap in Hin as (m' & k' & [= -> ->] & Hin).
    by eapply list_elem_of_lookup_2.
  - intros j' read' [= -> ->]%list_elem_of_singleton Hedge. apply Hrun, list_elem_of_lookup in Hedge as [m Hm]. exists m.
    apply list_elem_of_omap. exists (m, node_key n). split; [|by rewrite decide_True]. apply elem_of_lookup_imap. eauto.
Qed.

Lemma audit_maps sn sg :
  graph_ok sg -> exists F, maps (audit_secret_read_adapter audit_clock sn sg) sg F /\
    forall i n, node sg i = Some n -> exists ss, evidence (F n) = with_ev_runtime (node_runtime n ++ if_workload n ss []) (evidence n) /\
      audited sg (imap pair (sn_audit_secret_reads sn)) (node_key n) ss.
Proof.
  intros Hok. unfold audit_secret_read_adapter. induction (imap pair (sn_audit_secret_reads sn)) as [|[j read] l IH] using rev_ind.
  { exists id. split; [apply maps_id|]. intros i n Hn. exists []. split; [unfold if_workload; destruct (is_workload_node n); by rewrite app_nil_r|].
    split; [by intros s ?%not_elem_of_nil|by intros j read ?%not_elem_of_nil]. }
  destruct IH as (F & (sg1 & Hf & Hm) & IH). rewrite foldM_snoc, Hf. cbn [mbind option_bind].
  destruct (audit_read_maps sn sg sg1 j read) as (F2 & (sg2 & Hr & Hm2) & H2); [by eapply mapped_ok|intros; by eapply mapped_edges|].
  exists (fun n => F2 (F n)). split; [exists sg2; split; [done|by eapply mapped_comp]|]. intros i n Hn.
  destruct (IH i n Hn) as (ss & Hs & Ha). destruct (H2 i (F n)) as (ss2 & Hs2 & Ha2); [by rewrite (mp_node _ _ _ Hm), Hn|].
  pose proof (mp_bare _ _ _ Hm n) as Hb. rewrite (same_bare_key _ _ Hb) in Ha2. exists (ss ++ ss2). split; [|by apply audited_app].
  rewrite Hs2, Hs. assert (node_runtime (F n) = ev_runtime (evidence (F n))) as Hrt by done. rewrite Hs in Hrt. cbn [ev_runtime with_ev_runtime] in Hrt.
  rewrite Hrt. unfold if_workload. rewrite (bare_workload _ _ Hb). destruct (is_workload_node n); simpl; [by rewrite app_assoc|by rewrite !app_nil_r].
Qed.
End Audit.

(** ** Reachability *)

Section Reachability.
Context {G : Type} `{SGL : StableGraphLaws G Node Edge}.
Implicit Types sg : SecurityGraph G.

(** A workload that runs the image under [k], and what its signals say it loaded. *)
Definition loads_library sg (k : NodeKey) (lib : string) : Prop :=
  exists i w, node sg i = Some (NWorkload w) /\ edge_in sg (node_key (NWorkload w)) RunsImage k /\
    LibraryLoaded lib ∈ rs_behavior <$> w_runtime w.

(** A vulnerability of an image the workload under [k] runs names [pkg]. *)
Definition runs_package sg (k : NodeKey) (pkg : string) : Prop :=
  exists i im, node sg i = Some (NImage im) /\ edge_in sg k RunsImage (node_key (NImage im)) /\ Some pkg ∈ v_pkg_name <$> im_vulnerabilities im.

Lemma loaded_library_elem lib (rs : list RuntimeSignal) : lib ∈ omap loaded_library rs <-> LibraryLoaded lib ∈ rs_behavior <$> rs.
Proof.
  rewrite list_elem_of_omap, list_elem_of_fmap. split.
  - intros (s & Hs & Hl). exists s. split; [|done]. unfold loaded_library in Hl. destruct (rs_behavior s); by simplify_eq.
  - intros (s & Hb & Hs). exists s. split; [done|]. unfold loaded_library. by rewrite <- Hb.
Qed.

Lemma pkg_elem pkg (vs : list Vulnerability) : pkg ∈ omap v_pkg_name vs <-> Some pkg ∈ v_pkg_name <$> vs.
Proof. rewrite list_elem_of_omap, list_elem_of_fmap. naive_solver. Qed.

Lemma extend_elem m ks vs k x :
  x ∈ default [] (foldl (fun m k => extend_at m k vs) m ks !! k) <-> x ∈ default [] (m !! k) \/ (k ∈ ks /\ x ∈ vs).
Proof.
  induction ks as [|k' ks IH] using rev_ind; [simpl; rewrite elem_of_nil; tauto|]. rewrite foldl_snoc. unfold extend_at at 1.
  rewrite lookup_insert, elem_of_app, list_elem_of_singleton. case_decide as Hk; simpl.
  - subst k'. rewrite elem_of_app, IH. tauto.
  - rewrite IH. assert (k <> k') by done. tauto.
Qed.

Lemma loads_by_image_spec sg k lib : graph_ok sg -> lib ∈ default [] (loads_by_image sg !! k) <-> loads_library sg k lib.
Proof.
  intros Hok. unfold loads_by_image, loads_library.
  assert (forall ids, lib ∈ default [] (foldl (fun m idx => match node sg idx with
      | Some (NWorkload w) => if bool_decide (length (omap loaded_library (w_runtime w)) = 0) then m
          else foldl (fun m k => extend_at m k (omap loaded_library (w_runtime w))) m (run_image_keys sg idx)
      | _ => m end) ∅ ids !! k) <->
    exists i w, i ∈ ids /\ node sg i = Some (NWorkload w) /\ k ∈ run_image_keys sg i /\ lib ∈ omap loaded_library (w_runtime w)) as H.
  { induction ids as [|i ids IH] using rev_ind.
    - simpl. rewrite lookup_empty. simpl. split; [by intros ?%not_elem_of_nil|]. by intros (i & w & ?%not_elem_of_nil & _).
    - rewrite foldl_snoc. setoid_rewrite elem_of_app. setoid_rewrite list_elem_of_singleton.
      destruct (node sg i) as [[w| | | | | |]|] eqn:Hn; try (rewrite IH; split;
        [intros (j & w & H1 & H2 & H3 & H4); eauto 8|intros (j & w & [Hj|Hj] & H2 & H3 & H4); [eauto 8|subst; congruence]]).
      case_bool_decide as Hl.
      + apply nil_length_inv in Hl. rewrite IH. split; [intros (j & w' & H1 & H2 & H3 & H4); eauto 8|].
        intros (j & w' & [Hj|Hj] & Hn' & Hk & Hlib); [eauto 6|]. subst j. rewrite Hn in Hn'. simplify_eq. rewrite Hl in Hlib. by apply not_elem_of_nil in Hlib.
      + rewrite extend_elem, IH. split; [intros [(j & w' & H1 & H2 & H3 & H4)|[Hk Hlib]]; eauto 8|].
        intros (j & w' & [Hj|Hj] & Hn' & Hk & Hlib); [left; eauto 6|]. subst j. rewrite Hn in Hn'. simplify_eq. by right. }
  rewrite H. split.
  - intros (i & w & _ & Hn & Hk & Hlib). exists i, w. split; [done|]. split; [by eapply run_image_keys_spec|by apply loaded_library_elem].
  - intros (i & w & Hn & He & Hlib). exists i, w. split; [apply sg_indices_spec; unfold node in Hn; eauto|]. split; [done|].
    split; [by eapply run_image_keys_spec|by apply loaded_library_elem].
Qed.

(** A map built by inserting, per node under its own key, a non-empty list. *)
Definition insert_own sg (val : nat -> Node -> list string) (m : gmap NodeKey (list string)) (idx : nat) : gmap NodeKey (list string) :=
  match node sg idx with
  | Some n => if bool_decide (length (val idx n) = 0) then m else <[node_key n := val idx n]> m
  | None => m
  end.

Lemma insert_own_spec sg val i n :
  graph_ok sg -> node sg i = Some n ->
  default [] (foldl (insert_own sg val) ∅ (sg_node_indices (inner sg)) !! node_key n) = val i n.
Proof.
  intros Hok Hn. assert (forall ids, default [] (foldl (insert_own sg val) ∅ ids !! node_key n) = if decide (i ∈ ids) then val i n else []) as H.
  { induction ids as [|j ids IH] using rev_ind; [cbn [foldl]; rewrite lookup_empty; case_decide as Hi; [by apply not_elem_of_nil in Hi|done]|].
    rewrite foldl_snoc. unfold insert_own at 1. destruct (decide (j = i)) as [->|Hj].
    - rewrite Hn, (decide_True (P := i ∈ ids ++ [i])) by (apply elem_of_app; right; by left). case_bool_decide as Hl.
      + apply nil_length_inv in Hl. rewrite IH, Hl. by case_decide.
      + by rewrite lookup_insert_eq.
    - transitivity (default [] (foldl (insert_own sg val) ∅ ids !! node_key n)).
      + destruct (node sg j) as [m|] eqn:Hm; [|done]. case_bool_decide; [done|]. rewrite lookup_insert_ne; [done|]. intros Hk.
        apply Hj. pose proof (graph_ok_node _ _ _ Hok Hn). pose proof (graph_ok_node _ _ _ Hok Hm). congruence.
      + rewrite IH. destruct (decide (i ∈ ids)); [by rewrite decide_True by (apply elem_of_app; by left)|].
        rewrite decide_False; [done|]. intros [?|?%list_elem_of_singleton]%elem_of_app; congruence. }
  rewrite H, decide_True; [done|]. apply sg_indices_spec. unfold node in Hn. eauto.
Qed.

Lemma insert_own_none sg val k ids : (forall i n, node sg i = Some n -> node_key n <> k) -> foldl (insert_own sg val) ∅ ids !! k = None.
Proof.
  intros H. induction ids as [|i ids IH] using rev_ind; [done|]. rewrite foldl_snoc. unfold insert_own at 1.
  destruct (node sg i) as [n|] eqn:Hn; [|done]. case_bool_decide; [done|]. rewrite lookup_insert_ne by eauto. done.
Qed.

Definition own_pkgs (_ : nat) (n : Node) : list string := match n with NImage im => omap v_pkg_name (im_vulnerabilities im) | _ => [] end.

Lemma foldl_ext_in {A B} (f g : A -> B -> A) a l : (forall a b, f a b = g a b) -> foldl f a l = foldl g a l.
Proof. intros H. revert a. induction l as [|x l IH]; intros a; [done|]. simpl. by rewrite H. Qed.

Lemma cve_pkgs_spec sg i n : graph_ok sg -> node sg i = Some n -> default [] (cve_pkgs_by_image sg !! node_key n) = own_pkgs i n.
Proof.
  intros Hok Hn. rewrite <- (insert_own_spec sg own_pkgs i n Hok Hn). unfold cve_pkgs_by_image. do 2 f_equal. apply foldl_ext_in.
  intros m j. unfold insert_own. by destruct (node sg j) as [[]|].
Qed.

Lemma pkgs_by_workload_spec sg i w pkg :
  graph_ok sg -> node sg i = Some (NWorkload w) ->
  pkg ∈ default [] (pkgs_by_workload sg !! node_key (NWorkload w)) <-> runs_package sg (node_key (NWorkload w)) pkg.
Proof.
  intros Hok Hn.
  set (val := fun (j : nat) (n : Node) => match n with
    NWorkload _ => run_image_keys sg j ≫= (fun k => default [] (cve_pkgs_by_image sg !! k)) | _ => [] end).
  assert (pkgs_by_workload sg = foldl (insert_own sg val) ∅ (sg_node_indices (inner sg))) as ->.
  { apply foldl_ext_in. intros m j. unfold insert_own. by destruct (node sg j) as [[]|]. }
  rewrite (insert_own_spec sg val i _ Hok Hn). cbn [val]. rewrite list_elem_of_bind. unfold runs_package. split.
  - intros (k & Hp & Hk). apply (run_image_keys_spec sg i _ k Hok Hn) in Hk as He. destruct (edge_target_node _ _ _ _ He) as (j & m & Hm & <-).
    rewrite (cve_pkgs_spec sg j m Hok Hm) in Hp. destruct m as [| | | |im| |]; try by apply not_elem_of_nil in Hp.
    exists j, im. split; [done|]. split; [done|by apply pkg_elem].
  - intros (j & im & Him & He & Hp). exists (node_key (NImage im)). rewrite (cve_pkgs_spec sg j _ Hok Him).
    split; [by apply pkg_elem|]. by eapply run_image_keys_spec.
Qed.
End Reachability.

(** ** The reachability adapter *)

Section Cve.
Context {G : Type} `{SGL : StableGraphLaws G Node Edge}.
Implicit Types sg : SecurityGraph G.

(** Rewriting every node of one kind, by its key, is rewriting every node where
    the others are left alone. *)
Lemma maps_kind (pick : Node -> bool) (f : NodeKey -> Node -> Node) sg :
  graph_ok sg -> (forall k n, bare (f k n) = bare n) -> (forall k n, pick n = false -> f k n = n) ->
  maps (foldM (fun sg k => update_node sg k (f k)) sg (keys_where pick sg)) sg (fun n => f (node_key n) n).
Proof.
  intros Hok Hb Hp. eapply maps_ext_in; [|intros n; apply Hb|apply maps_each_key; [done|by apply keys_where_NoDup|done]].
  intros i n Hn. pose proof (keys_where_node pick sg i n Hok Hn) as Hk. destruct (pick n) eqn:E.
  - by rewrite decide_True by tauto.
  - rewrite decide_False by naive_solver. by rewrite Hp.
Qed.

Lemma image_keys_where sg : image_keys sg = keys_where is_image sg.
Proof. unfold image_keys, keys_where. apply list_omap_ext, Forall_Forall2_diag, Forall_true. intros i. by destruct (node sg i) as [[]|]. Qed.

Lemma workload_keys_where sg : workload_keys sg = keys_where is_workload_node sg.
Proof. unfold workload_keys, keys_where. apply list_omap_ext, Forall_Forall2_diag, Forall_true. intros i. by destruct (node sg i) as [[]|]. Qed.

Lemma tag_pkg loads b v : v_pkg_name (tag_vulnerability loads b v) = v_pkg_name v.
Proof. unfold tag_vulnerability. by destruct (v_pkg_name v) eqn:E; simpl. Qed.

(** Tagging keeps which packages the images name. *)
Lemma tagged_packages sg sg1 (loads : gmap NodeKey (list string)) k pkg :
  mapped sg sg1 (fun n => on_image (tag_image (default [] (loads !! node_key n))) n) -> runs_package sg1 k pkg <-> runs_package sg k pkg.
Proof.
  intros Hm. assert (forall ls im, v_pkg_name <$> im_vulnerabilities (tag_image ls im) = v_pkg_name <$> im_vulnerabilities im) as Hv.
  { intros ls im. cbn [tag_image im_vulnerabilities set_vulnerabilities]. rewrite <- list_fmap_compose. apply list_fmap_ext. intros i v _. apply tag_pkg. }
  unfold runs_package. split.
  - intros (i & im & Hi & He & Hp). rewrite (mp_node _ _ _ Hm) in Hi. apply fmap_Some in Hi as ([w|x|x|x|im0|x|x] & Hi & Hx); try done.
    assert (im = tag_image (default [] (loads !! node_key (NImage im0))) im0) as -> by (by inversion Hx). exists i, im0. rewrite Hv in Hp. split; [done|]. split; [|done]. by apply (mapped_edges _ _ _ _ _ _ Hm).
  - intros (i & im & Hi & He & Hp). exists i, (tag_image (default [] (loads !! node_key (NImage im))) im).
    rewrite (mp_node _ _ _ Hm), Hi, Hv. split; [done|]. split; [|done]. by apply (mapped_edges _ _ _ _ _ _ Hm).
Qed.

Lemma keep_default pkgs s : keep_signal pkgs s = keep_signal (Some (default [] pkgs)) s.
Proof. unfold keep_signal. destruct (rs_behavior s); try done. by destruct pkgs. Qed.

(** What the adapter makes of the evidence of a node, given the libraries loaded
    where its image runs and the vulnerable packages its images name. *)
Definition correlated (e : Evidence) (loads pkgs : list string) : Evidence :=
  mkEvidence (tag_vulnerability loads (bool_decide (ev_static e = Some true)) <$> ev_vulns e) (ev_secrets e) (ev_static e)
    (ev_misconfigs e) (ev_rbac e) (List.filter (keep_signal (Some pkgs)) (ev_runtime e)).

Lemma cve_maps sn sg :
  graph_ok sg -> exists F, maps (cve_reachability_adapter sn sg) sg F /\
    forall i n, node sg i = Some n -> exists loads pkgs, evidence (F n) = correlated (evidence n) loads pkgs /\
      (forall lib, lib ∈ loads <-> loads_library sg (node_key n) lib) /\
      (is_workload_node n = true -> forall pkg, pkg ∈ pkgs <-> runs_package sg (node_key n) pkg).
Proof.
  intros Hok. unfold cve_reachability_adapter. set (loads := loads_by_image sg).
  destruct (maps_kind is_image (fun k => on_image (tag_image (default [] (loads !! k)))) sg) as (sg1 & Hf1 & Hm1);
    [done|by intros k []|by intros k []|].
  rewrite image_keys_where, Hf1. cbn [mbind option_bind]. pose proof (mapped_ok _ _ _ Hm1 Hok) as Hok1. set (pkgs := pkgs_by_workload sg1).
  destruct (maps_kind is_workload_node (fun k => on_workload (retain_signals (pkgs !! k))) sg1) as (sg2 & Hf2 & Hm2);
    [done|by intros k []|by intros k []|].
  rewrite workload_keys_where, Hf2. eexists. split; [eexists; split; [done|by eapply mapped_comp]|].
  intros i n Hn. exists (default [] (loads !! node_key n)), (default [] (pkgs !! node_key n)). split; [|split].
  - destruct n; try done. simpl. unfold evidence, correlated. simpl. f_equal. apply filter_ext. intros s. apply keep_default.
  - intros lib. by apply loads_by_image_spec.
  - intros Hw pkg. destruct n as [w| | | | | |]; try done. rewrite <- (tagged_packages _ _ _ _ _ Hm1). apply (pkgs_by_workload_spec sg1 i); [done|].
    by rewrite (mp_node _ _ _ Hm1), Hn.
Qed.
End Cve.

(** ** The runtime adapter *)

Section RuntimeAdapter.
Context {G : Type} `{SGL : StableGraphLaws G Node Edge}.
Implicit Types sg : SecurityGraph G.
Variable event_clock : nat -> SystemTime.

Definition observations (sn : Snapshot) : list (nat * RuntimeObservation) := imap pair (sn_runtime_events sn).

(** The signals a pass adds to the workload under a key, in batch order. *)
Definition pass_signals (memo : PeerMemo) (now : Z) (sn : Snapshot) (k : NodeKey) : list RuntimeSignal :=
  omap (fun ne => under_key k (signal_of event_clock (pods_by_uid sn) (from_snapshot sn) now (prune memo now) ne)) (observations sn).

(** The linkage a pass reports for the workload under a key. *)
Definition pass_linkage (sn : Snapshot) (k : NodeKey) : option bool :=
  all_static (omap (fun ne => under_key k (linkage_of (pods_by_uid sn) ne)) (observations sn)).

(** The linkage [b] of the image under [k]: one of its workloads' reports, or
    what it was if none is reported. *)
Definition linked_as sg sn (k : NodeKey) (before b : option bool) : Prop :=
  (exists i w, node sg i = Some (NWorkload w) /\ edge_in sg (node_key (NWorkload w)) RunsImage k /\
     is_Some b /\ pass_linkage sn (node_key (NWorkload w)) = b) \/
  (b = before /\ forall i w, node sg i = Some (NWorkload w) -> edge_in sg (node_key (NWorkload w)) RunsImage k ->
     pass_linkage sn (node_key (NWorkload w)) = None).

Lemma last_linked sg sn linkage k before :
  graph_ok sg -> (forall k, linkage !! k = pass_linkage sn k) ->
  linked_as sg sn k before (match last_where (links_to k) (images_to_link sg linkage) with Some kb => Some kb.2 | None => before end).
Proof.
  intros Hok Hl. unfold last_where. destruct (last (List.filter (links_to k) (images_to_link sg linkage))) as [[k' b]|] eqn:E.
  - apply last_Some_elem_of, elem_of_filter_b in E as [Hk Hin]. unfold links_to in Hk. apply bool_decide_eq_true in Hk. simpl in Hk. subst k'.
    apply images_to_link_elem in Hin as (i & w & Hi & He & Hb); [|done]. left. exists i, w. rewrite <- Hl, Hb. cbn [snd]. by eauto.
  - right. split; [done|]. intros i w Hi He. rewrite <- Hl. destruct (linkage !! node_key (NWorkload w)) as [b|] eqn:Hb; [|done]. exfalso.
    apply last_None in E. assert ((k, b) ∈ List.filter (links_to k) (images_to_link sg linkage)) as Hin; [|rewrite E in Hin; by apply not_elem_of_nil in Hin].
    apply elem_of_filter_b. split; [by apply bool_decide_eq_true|]. apply images_to_link_elem; [done|]. eauto.
Qed.

Lemma runtime_maps memo now sn sg :
  graph_ok sg -> exists sg' memo' F, runtime_adapter event_clock now sn (sg, memo) = Some (sg', memo') /\ mapped sg sg' F /\
    (sn_runtime_events sn = [] -> memo' = memo) /\
    (sn_runtime_events sn <> [] -> memo_known (from_snapshot sn) (prune memo now) memo') /\
    forall i n, node sg i = Some n -> exists b, evidence (F n) = with_ev_static b (with_ev_runtime
        (node_runtime n ++ if_workload n (pass_signals memo now sn (node_key n)) []) (evidence n)) /\
      if is_image n then linked_as sg sn (node_key n) (node_static n) b else b = None.
Proof.
  intros Hok. unfold runtime_adapter. case_bool_decide as He.
  - apply nil_length_inv in He. exists sg, memo, id. split; [done|]. split; [apply mapped_id|]. split; [done|]. split; [done|].
    intros i n Hn. exists (node_static n). unfold pass_signals, observations, linked_as, pass_linkage, observations. rewrite He. simpl. split.
    + unfold if_workload. destruct (is_workload_node n); by rewrite app_nil_r.
    + destruct n; try done. right. done.
  - destruct (runtime_events_spec event_clock (pods_by_uid sn) (from_snapshot sn) now (prune memo now) (observations sn) sg Hok)
      as ([[sg1 m1] linkage] & Hf & [(F1 & Hm1 & He1) Hk1 Hl1]). cbn [fst snd] in *. unfold observations in Hf. rewrite Hf. cbn [mbind option_bind].
    pose proof (mapped_ok _ _ _ Hm1 Hok) as Hok1. destruct (link_images_spec sg1 linkage Hok1) as (F2 & (sg2 & Hf2 & Hm2) & He2). rewrite Hf2.
    cbn [mbind option_bind]. exists sg2, m1, (fun n => F2 (F1 n)). split; [done|]. split; [by eapply mapped_comp|].
    split; [by intros E; rewrite E in He|]. split; [done|]. intros i n Hn. eexists. rewrite He2, He1. split; [done|].
    pose proof (mp_bare _ _ _ Hm1 n) as Hb. unfold if_image. rewrite (bare_image _ _ Hb), (same_bare_key _ _ Hb). destruct (is_image n); [|done].
    assert (node_static (F1 n) = node_static n) as -> by (change (ev_static (evidence (F1 n)) = node_static n); by rewrite He1).
    destruct (last_linked sg1 sn linkage (node_key n) (node_static n) Hok1 Hl1) as [(j & w & Hj & Hw & Hs)|[Hb' Hnone]].
    + left. destruct (mapped_bare_node _ _ _ _ _ Hm1 Hj) as (m & Hm & _ & Hbm). pose proof (bare_workload _ _ Hbm) as Hwm.
      destruct m as [w0| | | | | |]; try done. exists j, w0. rewrite (same_bare_key _ _ Hbm). split; [done|]. split; [by apply (mapped_edges _ _ _ _ _ _ Hm1)|done].
    + right. split; [done|]. intros j w0 Hj Hw. pose proof (mp_bare _ _ _ Hm1 (NWorkload w0)) as Hbw. pose proof (bare_workload _ _ Hbw) as Hww.
      destruct (F1 (NWorkload w0)) as [w'| | | | | |] eqn:EF; try done. rewrite <- (same_bare_key _ _ Hbw). apply (Hnone j w').
      * by rewrite (mp_node _ _ _ Hm1), Hj, <- EF.
      * rewrite (same_bare_key _ _ Hbw). by apply (mapped_edges _ _ _ _ _ _ Hm1).
Qed.
End RuntimeAdapter.
