(* ===== verification/ObserveFacts.v ===== *)
(** * The graph a pass observes

    All of [default_adapters] (observe/adapter/mod.rs) over one snapshot: the
    edges and exposures are the structural reading of the cluster, whatever
    scanners, sensors and the audit log say; and the evidence on each node is
    exactly what they say of it. *)

From S2P Require Import Prelude Text ImageRef Posture.
From S2P Require Import PetGraph Attack Behavior Graph Snapshot Adapters HostCredential PeerIndex AdapterFacts Enrich EnrichFacts SignalFacts.

Section Observe.
Context {G : Type} `{SGL : StableGraphLaws G Node Edge}.
Implicit Types sg : SecurityGraph G.
Variable oci : string -> option OciReference.
Variable event_clock : nat -> SystemTime.
Variable audit_clock : nat -> nat -> SystemTime.
Variable clock : nat -> SystemTime.
Variable secret_iter : gset SecretGrant -> list SecretGrant.
Variable cap_iter : gset CapGrant -> list CapGrant.
Hypothesis secret_iter_spec : forall s, secret_iter s ≡ₚ elements s.
Hypothesis cap_iter_spec : forall s, cap_iter s ≡ₚ elements s.
Variable sn : Snapshot.
Hypothesis pods_distinct : forall ns name p ns' name' q,
  pod_at sn ns name p -> pod_at sn ns' name' q -> pod_key ns name = pod_key ns' name' -> p = q.

Definition no_evidence : Evidence := mkEvidence [] [] None [] [] [].

(** The structural adapters and the exposures leave every node without evidence. *)
Lemma built_no_evidence sg i n : built oci sn sg -> node sg i = Some n -> evidence n = no_evidence.
Proof.
  intros [Hok _ Hpods Hobs] Hn. pose proof (Hobs i n Hn) as Ho. destruct n as [w| | | |im| |]; try done.
  - destruct Ho as (ns & name & pod & Hp & Hk). destruct (Hpods _ _ _ Hp) as (j & e & Hj & _).
    assert (node_key (NWorkload (with_exposure e (workload_of pod name))) = pod_key ns name) as Hkj by (by eapply workload_key).
    assert (i = j) as <- by (eapply graph_ok_inj; [exact Hok|by apply key_of_node|rewrite Hk, <- Hkj; by apply key_of_node]).
    rewrite Hj in Hn. by injection Hn as <-.
  - destruct Ho as (H1 & H2 & H3). unfold evidence, node_vulnerabilities, node_secrets, node_static. by rewrite H1, H2, H3.
Qed.

(** What a pass reads of a node before it correlates: the scanners' reports and
    the runtime signals. *)
Definition gathered (memo : PeerMemo) (now : Z) (n : Node) (static : option bool) (ss : list RuntimeSignal) : Evidence :=
  mkEvidence (if_image n (default [] (scanned_vulns oci sn (node_key n))) []) (if_image n (default [] (scanned_secrets oci sn (node_key n))) [])
    static (if_workload n (default [] (reported_misconfigs sn n)) []) (if_workload n (default [] (reported_rbac sn n)) [])
    (if_workload n (pass_signals event_clock memo now sn (node_key n) ++ ss) []).

Lemma if_same {A} (n : Node) (x y : A) : if_image n (if_image n x y) y = if_image n x y.
Proof. by destruct n. Qed.

Definition scanner_adapters : list (Snapshot -> SecurityGraph G -> option (SecurityGraph G)) :=
  [vulnerability_adapter oci; exposed_secret_adapter oci; config_audit_adapter; rbac_assessment_adapter].

(** The scanner adapters, on a graph without evidence. *)
Lemma scanner_maps sg :
  graph_ok sg -> exists F,
    maps (foldM (fun sg contribute => contribute sn sg) sg scanner_adapters) sg F /\
    forall n, evidence n = no_evidence -> evidence (F n) =
      mkEvidence (if_image n (default [] (scanned_vulns oci sn (node_key n))) []) (if_image n (default [] (scanned_secrets oci sn (node_key n))) [])
        None (if_workload n (default [] (reported_misconfigs sn n)) []) (if_workload n (default [] (reported_rbac sn n)) []) [].
Proof.
  intros Hok. unfold scanner_adapters. rewrite !foldM_cons.
  destruct (vulnerability_maps oci sn sg Hok) as (F1 & (sg1 & -> & H1) & E1). cbn [mbind option_bind]. rewrite !foldM_cons.
  destruct (exposed_secret_maps oci sn sg1 (mapped_ok _ _ _ H1 Hok)) as (F2 & (sg2 & -> & H2) & E2). cbn [mbind option_bind]. rewrite !foldM_cons.
  pose proof (mapped_comp _ _ _ _ _ H1 H2) as H12.
  destruct (config_audit_maps sn sg2 (mapped_ok _ _ _ H12 Hok)) as (F3 & (sg3 & -> & H3) & E3). cbn [mbind option_bind]. rewrite !foldM_cons.
  pose proof (mapped_comp _ _ _ _ _ H12 H3) as H123.
  destruct (rbac_assessment_maps sn sg3 (mapped_ok _ _ _ H123 Hok)) as (F4 & (sg4 & -> & H4) & E4). pose proof (mapped_comp _ _ _ _ _ H123 H4) as Hall.
  eexists. split; [exists sg4; split; [done|exact Hall]|]. intros n Hn. cbn beta. set (n1 := F1 n). set (n2 := F2 n1). set (n3 := F3 n2).
  pose proof (mp_bare _ _ _ H1 n) as B1. pose proof (mp_bare _ _ _ H12 n) as B2. pose proof (mp_bare _ _ _ H123 n) as B3. cbn beta in B2, B3. fold n1 in B1, B2, B3. fold n2 in B2, B3. fold n3 in B3.
  assert (forall m, evidence m = mkEvidence (node_vulnerabilities m) (node_secrets m) (node_static m) (node_misconfigs m) (node_rbac m) (node_runtime m)) as Hdef by done.
  specialize (E1 n). specialize (E2 n1). specialize (E3 n2). fold n1 in E1. fold n2 in E2. fold n3 in E3. rewrite (E4 n3).
  unfold if_image, if_workload in *. rewrite (bare_image _ _ B1), (same_bare_key _ _ B1) in E2. rewrite (bare_workload _ _ B2) in E3. rewrite (bare_workload _ _ B3).
  assert (reported_misconfigs sn n2 = reported_misconfigs sn n) as R3.
  { unfold reported_misconfigs, last_where. do 2 f_equal. apply filter_ext. intros r. by apply audits_bare. }
  assert (reported_rbac sn n3 = reported_rbac sn n) as R4.
  { unfold reported_rbac, last_where. do 2 f_equal. apply filter_ext. intros r. by apply in_namespace_bare. }
  rewrite R3 in E3. rewrite R4. injection E1 as V1 S1 T1 M1 C1 R1. injection E2 as V2 S2 T2 M2 C2 R2. injection E3 as V3 S3 T3 M3 C3 R3'.
  injection Hn as V0 S0 T0 M0 C0 R0. rewrite V3, V2, V1, S3, S2, S1, T3, T2, T1, M3, M2, M1, C3, C2, C1, R3', R2, R1, V0, S0, T0, M0, C0, R0. done.
Qed.

(** ** The whole pass *)

Lemma foldM_app {S A} (f : S -> A -> option S) s l l' : foldM f s (l ++ l') = foldM f s l ≫= fun s => foldM f s l'.
Proof. revert s. induction l as [|x l IH]; intros s; [done|]. rewrite <- app_comm_cons, !foldM_cons. by destruct (f s x); simpl. Qed.

Lemma foldM_stateless (l : list (Snapshot -> SecurityGraph G -> option (SecurityGraph G))) sg (memo : PeerMemo) :
  foldM (fun st contribute => contribute sn st) (sg, memo) (stateless <$> l) =
  (fun sg => (sg, memo)) <$> foldM (fun sg contribute => contribute sn sg) sg l.
Proof.
  revert sg. induction l as [|a l IH]; intros sg; [done|]. rewrite fmap_cons, !foldM_cons.
  change (stateless a sn (sg, memo)) with (sg ← a sn sg; Some (sg, memo)).
  destruct (a sn sg) as [s|]; [exact (IH s)|done].
Qed.

(** The structural reading of the snapshot. *)
Record structure_read sg : Prop := {
  sr_ok : graph_ok sg;
  sr_edges : forall a r b, edge_in sg a r b <-> declared oci sn a r b;
  sr_pods : forall ns name pod, pod_at sn ns name pod -> exists i w,
    node sg i = Some (NWorkload w) /\
    bare (NWorkload w) = bare (NWorkload (with_exposure (w_exposure w) (workload_of pod name))) /\
    (w_exposure w = Internet <-> internet_facing sn (pod_key ns name)) /\
    (w_exposure w <> Internet -> w_exposure w = pod_exposure sn pod);
  sr_nodes : forall i n, node sg i = Some n -> observed_node sn (bare n)
}.

(** The linkage of an image: a report of a workload that runs it, if there is one. *)
Definition static_of (k : NodeKey) (static : option bool) : Prop :=
  (exists wk, declared oci sn wk RunsImage k /\ is_Some static /\ pass_linkage sn wk = static) \/
  (static = None /\ forall wk, declared oci sn wk RunsImage k -> pass_linkage sn wk = None).

(** The evidence on a node, read off the snapshot. *)
Record evidence_read (memo : PeerMemo) (now : Z) (n : Node) (static : option bool) (ss : list RuntimeSignal) (loads pkgs : list string) : Prop := {
  er_evidence : evidence n = correlated (gathered memo now n static ss) loads pkgs;
  er_static : if is_image n then static_of (node_key n) static else static = None;
  er_audit_sound : forall s, s ∈ ss -> exists j read m, sn_audit_secret_reads sn !! j = Some read /\
    declared oci sn (node_key n) RunsAs (audit_identity read) /\ s = audit_signal read (audit_clock j m);
  er_audit_complete : forall j read, sn_audit_secret_reads sn !! j = Some read -> declared oci sn (node_key n) RunsAs (audit_identity read) ->
    exists m, audit_signal read (audit_clock j m) ∈ ss;
  er_loads : forall lib, lib ∈ loads <-> exists wk, declared oci sn wk RunsImage (node_key n) /\
    LibraryLoaded lib ∈ rs_behavior <$> pass_signals event_clock memo now sn wk;
  er_pkgs : is_workload_node n = true -> forall pkg, pkg ∈ pkgs <-> exists k, declared oci sn (node_key n) RunsImage k /\
    Some pkg ∈ v_pkg_name <$> default [] (scanned_vulns oci sn k)
}.

(** A workload runs images, and only workloads do. *)
Lemma declared_runs_image a b : declared oci sn a RunsImage b -> pod_keyed sn a /\ exists digest, b = key_image digest.
Proof. inversion 1; subst. split; [|eauto]. by eexists _, _, _. Qed.

Lemma key_image_node n digest : node_key n = key_image digest -> is_image n = true.
Proof.
  intros H%(f_equal kind_of). change (key_image digest) with (node_key (NImage (mkImage digest None TrustUnknown [] [] None))) in H.
  rewrite !kind_of_node_key in H. by destruct n.
Qed.

Lemma imap_pair_elem {A} (l : list A) j x : (j, x) ∈ imap pair l <-> l !! j = Some x.
Proof.
  rewrite elem_of_lookup_imap. split; [by intros (i & y & [= -> ->] & H)|]. intros H. by exists j, x.
Qed.

(** Rewriting evidence keeps the structural reading. *)
Lemma structure_kept sg sg' F : built oci sn sg -> mapped sg sg' F -> structure_read sg'.
Proof.
  intros [Hok Hedges Hpods Hobs] Hm. split.
  - by eapply mapped_ok.
  - intros a r b. by rewrite (mapped_edges _ _ _ _ _ _ Hm).
  - intros ns name pod Hp. destruct (Hpods _ _ _ Hp) as (i & e & Hi & He & Hd).
    pose proof (mp_bare _ _ _ Hm (NWorkload (with_exposure e (workload_of pod name)))) as Hb.
    destruct (F (NWorkload (with_exposure e (workload_of pod name)))) as [w| | | | | |] eqn:EF; try done.
    assert (w_exposure w = e) as Hwe by (by injection Hb). exists i, w. rewrite Hwe.
    split; [by rewrite (mp_node _ _ _ Hm), Hi, <- EF|]. done.
  - intros i n Hn. destruct (mapped_bare_node _ _ _ _ _ Hm Hn) as (m & Hm' & -> & Hb). rewrite <- Hb. pose proof (Hobs i m Hm') as Ho. by destruct m.
Qed.

(** An image's libraries, from a graph whose signals are the pass's and the audit log's. *)
Lemma loads_read sg memo now k lib :
  graph_ok sg -> (forall a r b, edge_in sg a r b <-> declared oci sn a r b) ->
  (forall i n, node sg i = Some n -> is_workload_node n = true -> exists ss, node_runtime n = pass_signals event_clock memo now sn (node_key n) ++ ss /\
     forall s, s ∈ ss -> exists read t, s = audit_signal read t) ->
  loads_library sg k lib <-> exists wk, declared oci sn wk RunsImage k /\ LibraryLoaded lib ∈ rs_behavior <$> pass_signals event_clock memo now sn wk.
Proof.
  intros Hok He Hr. assert (forall i w, node sg i = Some (NWorkload w) -> LibraryLoaded lib ∈ rs_behavior <$> w_runtime w <->
    LibraryLoaded lib ∈ rs_behavior <$> pass_signals event_clock memo now sn (node_key (NWorkload w))) as Hsig.
  { intros i w Hi. destruct (Hr i _ Hi eq_refl) as (ss & Hw & Haudit). cbn [node_runtime] in Hw. rewrite Hw, fmap_app, elem_of_app.
    split; [|by left]. intros [H|H]; [done|]. apply list_elem_of_fmap in H as (s & Hs & Hin). apply Haudit in Hin as (read & t & ->). done. }
  split.
  - intros (i & w & Hi & Hrun & Hl). exists (node_key (NWorkload w)). rewrite <- He. split; [done|]. by rewrite <- Hsig.
  - intros (wk & Hd & Hl). apply He in Hd as Hrun. destruct (edge_source_node _ _ _ _ Hrun) as (i & n & Hi & <-).
    destruct (declared_runs_image _ _ Hd) as [(ns & name & pod & _ & Hk) _]. destruct (pod_key_workload _ _ _ Hk) as [w ->].
    exists i, w. split; [done|]. split; [done|]. by rewrite Hsig.
Qed.

(** A workload's packages, from a graph whose images carry the scanners' reports. *)
Lemma pkgs_read sg k pkg :
  graph_ok sg -> (forall a r b, edge_in sg a r b <-> declared oci sn a r b) ->
  (forall i n, node sg i = Some n -> is_image n = true -> node_vulnerabilities n = default [] (scanned_vulns oci sn (node_key n))) ->
  runs_package sg k pkg <-> exists ik, declared oci sn k RunsImage ik /\ Some pkg ∈ v_pkg_name <$> default [] (scanned_vulns oci sn ik).
Proof.
  intros Hok He Hv. split.
  - intros (i & im & Hi & Hrun & Hp). exists (node_key (NImage im)). rewrite <- He. split; [done|].
    pose proof (Hv i _ Hi eq_refl) as H. cbn [node_vulnerabilities] in H. by rewrite <- H.
  - intros (ik & Hd & Hp). apply He in Hd as Hrun. destruct (edge_target_node _ _ _ _ Hrun) as (i & n & Hi & <-).
    destruct (declared_runs_image _ _ Hd) as [_ [digest Hk]]. pose proof (key_image_node _ _ Hk) as Hn.
    rewrite <- (Hv i n Hi Hn) in Hp. destruct n as [| | | |im| |]; try done. by exists i, im.
Qed.

(** The linkage of an image, likewise. *)
Lemma static_read sg k b :
  graph_ok sg -> (forall a r b, edge_in sg a r b <-> declared oci sn a r b) -> linked_as sg sn k None b -> static_of k b.
Proof.
  intros Hok He [(i & w & Hi & Hrun & Hb)|[-> Hnone]].
  - left. exists (node_key (NWorkload w)). by rewrite <- He.
  - right. split; [done|]. intros wk Hd. apply He in Hd as Hrun. destruct (edge_source_node _ _ _ _ Hrun) as (i & n & Hi & <-).
    destruct (declared_runs_image _ _ Hd) as [(ns & name & pod & _ & Hk) _]. destruct (pod_key_workload _ _ _ Hk) as [w ->]. eauto.
Qed.

Lemma gathered_bare memo now n m b ss : bare m = bare n -> gathered memo now m b ss = gathered memo now n b ss.
Proof.
  intros H. unfold gathered, if_image, if_workload. rewrite (bare_image _ _ H), (bare_workload _ _ H), (same_bare_key _ _ H).
  assert (reported_misconfigs sn m = reported_misconfigs sn n) as ->.
  { unfold reported_misconfigs, last_where. do 2 f_equal. apply filter_ext. intros r. by apply audits_bare. }
  assert (reported_rbac sn m = reported_rbac sn n) as ->; [|done].
  unfold reported_rbac, last_where. do 2 f_equal. apply filter_ext. intros r. by apply in_namespace_bare.
Qed.

(** The audit signals of a node, read off the snapshot. *)
Definition audit_read_of (n : Node) (ss : list RuntimeSignal) : Prop :=
  (forall s, s ∈ ss -> exists j read m, sn_audit_secret_reads sn !! j = Some read /\
    declared oci sn (node_key n) RunsAs (audit_identity read) /\ s = audit_signal read (audit_clock j m)) /\
  (forall j read, sn_audit_secret_reads sn !! j = Some read -> declared oci sn (node_key n) RunsAs (audit_identity read) ->
    exists m, audit_signal read (audit_clock j m) ∈ ss).

Lemma audited_read sg n ss :
  (forall a r b, edge_in sg a r b <-> declared oci sn a r b) ->
  audited audit_clock sg (imap pair (sn_audit_secret_reads sn)) (node_key n) ss -> audit_read_of n ss.
Proof.
  intros He [Hs Hc]. split.
  - intros s (j & read & m & Hin & Hr & ->)%Hs. exists j, read, m. rewrite <- He. by apply imap_pair_elem in Hin.
  - intros j read Hin Hr. apply (Hc j read); [by apply imap_pair_elem|by apply He].
Qed.

(** Everything but the correlation, on the built graph. *)
Lemma gathered_maps sg memo now :
  built oci sn sg -> exists sg' memo' F,
    foldM (fun st contribute => contribute sn st) (sg, memo)
      ((stateless <$> scanner_adapters) ++ [runtime_adapter event_clock now; stateless (audit_secret_read_adapter audit_clock)]) =
      Some (sg', memo') /\
    mapped sg sg' F /\
    (sn_runtime_events sn = [] -> memo' = memo) /\
    (sn_runtime_events sn <> [] -> memo_known (from_snapshot sn) (prune memo now) memo') /\
    forall i n, node sg' i = Some n -> exists b ss, evidence n = gathered memo now n b ss /\
      (if is_image n then static_of (node_key n) b else b = None) /\ audit_read_of n ss.
Proof.
  intros Hb. pose proof (bt_ok _ _ _ Hb) as Hok. pose proof (bt_edges _ _ _ Hb) as Hedges.
  destruct (scanner_maps sg Hok) as (F1 & (sg1 & Hf1 & H1) & E1). rewrite foldM_app, foldM_stateless, Hf1.
  pose proof (mapped_ok _ _ _ H1 Hok) as Hok1. cbn [fmap option_fmap option_map mbind option_bind]. rewrite !foldM_cons.
  destruct (runtime_maps event_clock memo now sn sg1 Hok1) as (sg2 & memo' & F2 & Hf2 & H2 & M1 & M2 & E2). rewrite Hf2. cbn [mbind option_bind].
  pose proof (mapped_comp _ _ _ _ _ H1 H2) as H12. pose proof (mapped_ok _ _ _ H12 Hok) as Hok2. rewrite foldM_cons.
  destruct (audit_maps audit_clock sn sg2 Hok2) as (F3 & (sg3 & Hf3 & H3) & E3). unfold stateless. cbn [fst snd]. rewrite Hf3. cbn [mbind option_bind].
  pose proof (mapped_comp _ _ _ _ _ H12 H3) as H123.
  exists sg3, memo', (fun n => F3 (F2 (F1 n))). do 4 (split; [done|]). intros i n Hn.
  destruct (mapped_bare_node _ _ _ _ _ H123 Hn) as (n0 & Hn0 & -> & B3). cbn beta in *. set (n1 := F1 n0) in *. set (n2 := F2 n1) in *.
  assert (node sg1 i = Some n1) as Hn1 by (by rewrite (mp_node _ _ _ H1), Hn0).
  assert (node sg2 i = Some n2) as Hn2 by (by rewrite (mp_node _ _ _ H2), Hn1).
  destruct (E2 i n1 Hn1) as (b & Ev2 & Hb2). destruct (E3 i n2 Hn2) as (ss & Ev3 & Ha).
  pose proof (mp_bare _ _ _ H1 n0) as B1. fold n1 in B1. pose proof (mp_bare _ _ _ H12 n0) as B2. cbn beta in B2. fold n1 n2 in B2.
  pose proof (E1 n0 (built_no_evidence sg i n0 Hb Hn0)) as Ev1. fold n1 in Ev1. fold n2 in Ev2.
  exists b, ss. split; [|split].
  - rewrite (gathered_bare memo now n0 _ b ss) by done. rewrite Ev3.
    assert (node_runtime n2 = ev_runtime (evidence n2)) as -> by done. rewrite Ev2. assert (node_runtime n1 = ev_runtime (evidence n1)) as -> by done.
    rewrite Ev1. unfold gathered, if_image, if_workload. rewrite (bare_workload _ _ B1), (bare_workload _ _ B2), (same_bare_key _ _ B1). simpl.
    by destruct (is_workload_node n0).
  - rewrite (bare_image _ _ (eq_sym B3)), (same_bare_key _ _ (eq_sym B3)). rewrite (bare_image _ _ B1), (same_bare_key _ _ B1) in Hb2.
    destruct (is_image n0); [|done]. apply (static_read sg1); [done|by intros; rewrite (mapped_edges _ _ _ _ _ _ H1)|].
    assert (node_static n1 = ev_static (evidence n1)) as Hs by done. rewrite Ev1 in Hs. cbn [ev_static] in Hs. by rewrite <- Hs.
  - apply (audited_read sg2); [by intros; rewrite (mapped_edges _ _ _ _ _ _ H12)|].
    rewrite (same_bare_key _ _ (eq_sym B3)), <- (same_bare_key _ _ B2). done.
Qed.

(** The adapters in their order, by stages. *)
Lemma default_adapters_stages now :
  default_adapters oci event_clock audit_clock clock secret_iter cap_iter now =
  (stateless <$> structural_adapters oci clock secret_iter cap_iter ++ exposure_adapters) ++
  ((stateless <$> scanner_adapters) ++ [runtime_adapter event_clock now; stateless (audit_secret_read_adapter audit_clock)]) ++
  [stateless cve_reachability_adapter].
Proof. unfold default_adapters, scanner_adapters. by rewrite !fmap_app, <- !app_assoc. Qed.

Lemma build_pass_spec memo now :
  exists sg memo', build_pass oci event_clock audit_clock clock secret_iter cap_iter memo now sn = Some (sg, memo') /\
    structure_read sg /\
    (sn_runtime_events sn = [] -> memo' = memo) /\
    (sn_runtime_events sn <> [] -> memo_known (from_snapshot sn) (prune memo now) memo') /\
    forall i n, node sg i = Some n -> exists static ss loads pkgs, evidence_read memo now n static ss loads pkgs.
Proof.
  destruct (built_spec oci clock secret_iter cap_iter secret_iter_spec cap_iter_spec sn pods_distinct) as (sg0 & Hb0 & Hb).
  destruct (gathered_maps sg0 memo now Hb) as (sg3 & memo' & F & Hf & H3 & M1 & M2 & E3).
  pose proof (mapped_ok _ _ _ H3 (bt_ok _ _ _ Hb)) as Hok3. destruct (cve_maps sn sg3 Hok3) as (F4 & (sg4 & Hf4 & H4) & E4).
  exists sg4, memo'. split; [|split; [|split; [done|split; [done|]]]].
  - unfold build_pass. rewrite default_adapters_stages, foldM_app, foldM_stateless. unfold build_graph in Hb0. rewrite Hb0.
    cbn [fmap option_fmap option_map mbind option_bind]. rewrite foldM_app, Hf. cbn [mbind option_bind]. rewrite foldM_cons.
    unfold stateless at 1. cbn [fst snd]. by rewrite Hf4.
  - eapply structure_kept; [exact Hb|by eapply mapped_comp].
  - assert (forall a r b, edge_in sg3 a r b <-> declared oci sn a r b) as He.
    { intros a r b. rewrite (mapped_edges _ _ _ _ _ _ H3). apply Hb. }
    intros i n Hn. destruct (mapped_bare_node _ _ _ _ _ H4 Hn) as (n3 & Hn3 & -> & B4).
    destruct (E3 i n3 Hn3) as (b & ss & Ev3 & Hs & Ha1 & Ha2). destruct (E4 i n3 Hn3) as (loads & pkgs & Ev4 & Hl & Hp).
    rewrite (same_bare_key _ _ B4) in Ha1, Ha2, Hl, Hp, Hs. rewrite (bare_workload _ _ B4) in Hp. rewrite (bare_image _ _ B4) in Hs.
    exists b, ss, loads, pkgs. split; [|exact Hs|exact Ha1|exact Ha2|..].
    + by rewrite Ev4, Ev3, (gathered_bare _ _ _ _ _ _ B4).
    + intros lib. rewrite Hl. apply (loads_read sg3); [done|done|]. intros j m Hm Hw. destruct (E3 j m Hm) as (b' & ss' & Ev & _ & Ha & _).
      exists ss'. split; [|by intros s (j' & read & t & _ & _ & ->)%Ha; eauto].
      change (ev_runtime (evidence m) = pass_signals event_clock memo now sn (node_key m) ++ ss'). rewrite Ev. unfold gathered, if_workload. by rewrite Hw.
    + intros Hw pkg. rewrite (Hp Hw). apply (pkgs_read sg3); [done|done|]. intros j m Hm Hi. destruct (E3 j m Hm) as (b' & ss' & Ev & _).
      change (ev_vulns (evidence m) = default [] (scanned_vulns oci sn (node_key m))). rewrite Ev. unfold gathered, if_image. by rewrite Hi.
Qed.

(** *** The graph is well typed *)

(** What each relation connects. *)
Definition edge_typed (n : Node) (r : Relation) (m : Node) : bool :=
  match r, n, m with
  | Reaches _ _, NWorkload _, NWorkload _
  | CanRead, NWorkload _, NSecret _
  | EscapesTo _, NWorkload _, NHost _
  | RunsAs, NWorkload _, NIdentity _
  | RunsImage, NWorkload _, NImage _
  | ScheduledOn, NWorkload _, NHost _
  | CanDo _ _, NIdentity _, NCapability _ => true
  | CanDo verb resource, NIdentity _, NSecret _ => bool_decide ((verb, resource) = ("get", "secrets"))
  | CanEgress _, NWorkload _, NEndpoint e => bool_decide (ep_address e = "internet")
  | _, _, _ => false
  end.

Lemma kind_of_pod ns name : kind_of (pod_key ns name) = "workload".
Proof. exact (kind_of_node_key (workload_node ns name)). Qed.

Lemma kind_of_image digest : kind_of (key_image digest) = "image".
Proof. exact (kind_of_node_key (NImage (mkImage digest None TrustUnknown [] [] None))). Qed.

Lemma declared_typed n r m :
  declared oci sn (node_key n) r (node_key m) -> (forall e, m = NEndpoint e -> ep_address e = "internet") -> edge_typed n r m = true.
Proof.
  intros Hd He. remember (node_key n) as a eqn:Ha. remember (node_key m) as b eqn:Hb.
  apply (f_equal kind_of) in Ha, Hb. rewrite kind_of_node_key in Ha, Hb.
  destruct Hd; rewrite ?kind_of_pod, ?kind_of_image, ?kind_of_node_key in Ha, Hb; destruct n, m; try done.
  simpl. by rewrite (He _ eq_refl).
Qed.

(** C17: The observed graph is well typed, whatever the objects hold: a pass never
    fails, each edge of its graph relates the kinds of node its relation is
    about, a workload reaches workloads, reads secrets, escapes to and runs on
    hosts, runs as identities and runs images, an identity acts on capabilities
    or, for [get secrets], on a secret, and egress leads to the internet; and
    every workload stands for a pod, every capability for a catalogued one. *)
Theorem graph_well_typed memo now :
  exists sg memo', build_pass oci event_clock audit_clock clock secret_iter cap_iter memo now sn = Some (sg, memo') /\
    (forall e, e ∈ sg_edge_references (inner sg) -> exists n m,
      node sg (er_source e) = Some n /\ node sg (er_target e) = Some m /\ edge_typed n (e_relation (er_weight e)) m = true) /\
    forall i n, node sg i = Some n -> observed_node sn (bare n).
Proof.
  destruct (build_pass_spec memo now) as (sg & memo' & Hb & Hs & _). exists sg, memo'. split; [done|]. split; [|apply Hs].
  intros e He. destruct (sg_edge_ends _ _ He) as [[n Hn] [m Hm]]. exists n, m. split; [done|]. split; [done|].
  apply declared_typed.
  - apply (sr_edges _ Hs). exists e. split; [done|]. by rewrite (key_of_node _ _ _ Hn), (key_of_node _ _ _ Hm).
  - intros ep ->. exact (sr_nodes _ Hs _ _ Hm).
Qed.

(** C16: The evidence of a pass is what the snapshot's scanners, sensors and audit
    log say, node by node. An image carries the last scan of its reference, each
    named vulnerability tagged loaded exactly when a workload running the image
    reported a matching library, and otherwise absent or, in a static binary,
    indeterminate; a workload carries the last findings naming it, its
    observations in order with peers named as the memo stood at the start of the
    pass, and the API reads of its service account, less the library loads that
    match no vulnerable package of its images. *)
Theorem evidence_exact memo now :
  exists sg memo', build_pass oci event_clock audit_clock clock secret_iter cap_iter memo now sn = Some (sg, memo') /\
    forall i n, node sg i = Some n -> exists static ss loads pkgs, evidence_read memo now n static ss loads pkgs.
Proof. destruct (build_pass_spec memo now) as (sg & memo' & Hb & _ & _ & _ & He). by exists sg, memo'. Qed.
End Observe.

(** ** Evidence moves nothing *)

(** The same cluster under other reports of scanners, sensors and the audit log. *)
Definition with_evidence (sn : Snapshot) vulns secrets audits rbac events reads : Snapshot :=
  mkClusterSnapshot (sn_pods sn) (sn_network_policies sn) (sn_services sn) (sn_secrets sn) (sn_roles sn) (sn_role_bindings sn)
    (sn_cluster_roles sn) (sn_cluster_role_bindings sn) (sn_ingresses sn) (sn_ingress_classes sn) (sn_linkerd_servers sn)
    (sn_linkerd_authz_policies sn) (sn_linkerd_mtls_auths sn) vulns secrets audits rbac events reads.

(** Two snapshots of one cluster. *)
Definition same_cluster (sn sn' : Snapshot) : Prop :=
  sn' = with_evidence sn (sn_image_vulns sn') (sn_image_secrets sn') (sn_config_audits sn') (sn_rbac_assessments sn')
    (sn_runtime_events sn') (sn_audit_secret_reads sn').

Lemma same_cluster_sym sn sn' : same_cluster sn sn' -> same_cluster sn' sn.
Proof. unfold same_cluster. intros ->. by destruct sn. Qed.

Lemma with_evidence_same sn vulns secrets audits rbac events reads : same_cluster sn (with_evidence sn vulns secrets audits rbac events reads).
Proof. done. Qed.

Lemma bound_same sn sn' id scope rule : same_cluster sn sn' -> bound sn id scope rule -> bound sn' id scope rule.
Proof. intros -> [rb id' rule' ns H1 H2 H3|crb id' rule' H1 H2 H3]; [by eapply (bound_role (with_evidence sn _ _ _ _ _ _) rb)|by eapply (bound_cluster (with_evidence sn _ _ _ _ _ _) crb)]. Qed.

Lemma declared_same oci sn sn' a r b : same_cluster sn sn' -> declared oci sn a r b -> declared oci sn' a r b.
Proof.
  intros Hs Hd. assert (forall id scope rule, bound sn id scope rule -> bound sn' id scope rule) as Hb by (intros; by eapply bound_same).
  rewrite Hs in Hb |- *. destruct Hd.
  - by eapply decl_runs_as.
  - by eapply decl_runs_image.
  - by eapply decl_mounts.
  - by eapply decl_netpol.
  - by eapply decl_linkerd.
  - eapply decl_reads_secret; by eauto.
  - eapply decl_can_do; by eauto.
  - by eapply decl_escapes.
  - by eapply decl_scheduled.
  - by eapply decl_egress.
Qed.

Lemma facing_same sn sn' k : same_cluster sn sn' -> internet_facing sn k -> internet_facing sn' k.
Proof.
  intros ->. revert k. fix IH 2. intros k [ns name pod Hp He|ns name pod i Hp Hi Hns Hr Hl].
  - by apply (if_direct (with_evidence sn _ _ _ _ _ _) ns name pod).
  - apply (if_routed (with_evidence sn _ _ _ _ _ _) ns name pod i); [done|done|done|done|].
    destruct Hl as (c & s & lb & cns & sel & ctl & cn & H1 & H2 & H3 & H4 & H5 & H6 & H7 & H8 & H9 & H10).
    exists c, s, lb, cns, sel, ctl, cn. do 9 (split; [assumption|]). by apply IH.
Qed.

Section Moves.
Context {G : Type} `{SGL : StableGraphLaws G Node Edge}.
Variable oci : string -> option OciReference.
Variable event_clock : nat -> SystemTime.
Variable audit_clock : nat -> nat -> SystemTime.
Variable clock : nat -> SystemTime.
Variable secret_iter : gset SecretGrant -> list SecretGrant.
Variable cap_iter : gset CapGrant -> list CapGrant.
Hypothesis secret_iter_spec : forall s, secret_iter s ≡ₚ elements s.
Hypothesis cap_iter_spec : forall s, cap_iter s ≡ₚ elements s.
Variable sn : Snapshot.
Hypothesis pods_distinct : forall ns name p ns' name' q,
  pod_at sn ns name p -> pod_at sn ns' name' q -> pod_key ns name = pod_key ns' name' -> p = q.

#[local] Abbreviation pass := (build_pass (G:=G) oci event_clock audit_clock clock secret_iter cap_iter).

(** C10: Only deterministic topology moves privilege. A pass never fails; its edges
    are exactly those the cluster's objects declare and its internet-facing
    workloads exactly those the services, annotations and live ingress routes
    make so; and whatever the scanners, the sensors and the audit log report
    instead, however long the pass before it ran, the edges and every pod's
    exposure are the same. *)
Theorem evidence_mints_no_edge memo now sn' memo' now' :
  same_cluster sn sn' ->
  exists sg m sg' m', pass memo now sn = Some (sg, m) /\ pass memo' now' sn' = Some (sg', m') /\
    (forall a r b, edge_in sg a r b <-> declared oci sn a r b) /\
    (forall a r b, edge_in sg' a r b <-> edge_in sg a r b) /\
    forall ns name pod, pod_at sn ns name pod -> exists i w j w',
      node sg i = Some (NWorkload w) /\ key_of sg i = Some (pod_key ns name) /\
      node sg' j = Some (NWorkload w') /\ key_of sg' j = Some (pod_key ns name) /\
      (w_exposure w = Internet <-> internet_facing sn (pod_key ns name)) /\ w_exposure w' = w_exposure w.
Proof.
  intros Hsame. assert (forall ns name pod, pod_at sn' ns name pod <-> pod_at sn ns name pod) as Hpods by (by rewrite Hsame).
  destruct (build_pass_spec oci event_clock audit_clock clock secret_iter cap_iter secret_iter_spec cap_iter_spec sn pods_distinct memo now)
    as (sg & m & Hb & Hs & _).
  destruct (build_pass_spec oci event_clock audit_clock clock secret_iter cap_iter secret_iter_spec cap_iter_spec sn') with (memo := memo') (now := now')
    as (sg' & m' & Hb' & Hs' & _); [intros ns name p ns' name' q Hp Hq; by apply (pods_distinct ns name p ns' name' q); apply Hpods|].
  exists sg, m, sg', m'. do 2 (split; [done|]). split; [apply Hs|]. split.
  { intros a r b. rewrite (sr_edges _ _ _ Hs), (sr_edges _ _ _ Hs'). split; [apply declared_same; by apply same_cluster_sym|by apply declared_same]. }
  intros ns name pod Hp. destruct (sr_pods _ _ _ Hs _ _ _ Hp) as (i & w & Hi & Hbare & Hint & Hother).
  destruct (sr_pods _ _ _ Hs' ns name pod) as (j & w' & Hj & Hbare' & Hint' & Hother'); [by apply Hpods|].
  assert (forall w, bare (NWorkload w) = bare (NWorkload (with_exposure (w_exposure w) (workload_of pod name))) -> node_key (NWorkload w) = pod_key ns name) as Hkey.
  { intros w0 H. rewrite (same_bare_key _ _ H). destruct Hp as (_ & Hns & _). simpl. by rewrite Hns. }
  exists i, w, j, w'. rewrite (key_of_node _ _ _ Hi), (key_of_node _ _ _ Hj), (Hkey w), (Hkey w') by done.
  do 5 (split; [done|]). assert (internet_facing sn' (pod_key ns name) <-> internet_facing sn (pod_key ns name)) as Hf.
  { split; [apply facing_same; by apply same_cluster_sym|by apply facing_same]. }
  assert (pod_exposure sn' pod = pod_exposure sn pod) as Hpe by (by rewrite Hsame).
  destruct (decide (w_exposure w = Internet)) as [He|He]; [rewrite He; tauto|].
  rewrite (Hother He), <- Hpe. apply Hother'. tauto.
Qed.
End Moves.

(** ** A small cluster *)

Definition demo_meta (name : string) : ObjectMeta := mkMeta (Some name) (Some "app") (Some {["app" := name]}) None None.

(** A pod declared internet-facing that mounts a secret, and one behind it. *)
Definition demo_pod (name image : string) (secret : option string) (annotations : option (gmap string string)) : Pod :=
  mkPod (mkMeta (Some name) (Some "app") (Some {["app" := name]}) annotations (Some ("uid-" +:+ name)))
    (Some (mkPodSpec [mkContainer "main" (Some image) None None None (Some [("creds", "/etc/creds")])] None None
      (Some [mkKVolume "creds" (Some secret) false None None]) None None None)) None.

Definition demo_web : Pod := demo_pod "web" "ghcr.io/app/web:1" (Some "db-creds") (Some {["protector.jeffl.es/exposure" := "internet"]}).
Definition demo_db : Pod := demo_pod "db" "ghcr.io/app/db:1" None None.

Definition demo_vuln : Vulnerability := mkVuln "CVE-2024-0001" Critical false None [] ReachUnknown (Some "openssl") None None None None None.

Definition demo_quiet : Snapshot := mkClusterSnapshot [demo_web; demo_db] [] [] [] [] [] [] [] [] [] [] [] [] [] [] [] [] [] [].

Definition demo_cluster : Snapshot :=
  with_evidence demo_quiet [mkImageVulns "ghcr.io/app/web:1" [demo_vuln]] [] [] []
    [mkObs (ByPodUid "uid-web") None (Some 1000%N) None (LibraryLoaded "libssl.so.3");
     mkObs (ByPodUid "uid-web") None (Some 1000%N) None (FileRead "/etc/creds/password")]
    [mkAuditRead "app" "default" (Some "app") (Some "db-creds") "get"].

Definition demo_oci (_ : string) : option OciReference := None.
Definition demo_pass (sn : Snapshot) : option (cluster * PeerMemo) :=
  build_pass demo_oci (fun _ => 0%Z) (fun _ _ => 0%Z) (fun _ => 0%Z) elements elements ∅ 0%Z sn.

Lemma demo_distinct sn : sn_pods sn = [demo_web; demo_db] -> forall ns name p ns' name' q,
  pod_at sn ns name p -> pod_at sn ns' name' q -> pod_key ns name = pod_key ns' name' -> p = q.
Proof.
  intros Hpods ns name p ns' name' q (Hp & Hns & Hn) (Hq & Hns' & Hn') Hk. rewrite Hpods in Hp, Hq.
  assert (forall x, x ∈ [demo_web; demo_db] -> x = demo_web \/ x = demo_db) as Hcase.
  { intros x. rewrite !elem_of_cons, elem_of_nil. tauto. }
  destruct (Hcase p Hp) as [->| ->], (Hcase q Hq) as [->| ->]; try done; vm_compute in Hn, Hn', Hns, Hns'; simplify_eq; by vm_compute in Hk.
Qed.

(** What the pass finds: the mounted read and the API read on the pod, the
    library load matched to the vulnerable package, and the exposure. *)
Lemma demo_pass_runs :
  (fun st => (evidence <$> (index_of st.1 (pod_key "app" "web") ≫= node st.1), evidence <$> (index_of st.1 (key_image "ghcr.io/app/web:1") ≫= node st.1)))
    <$> demo_pass demo_cluster =
  Some (Some (mkEvidence [] [] None [] [] [
      mkSignal (LibraryLoaded "libssl.so.3") (mkProv "runtime" 1000000000);
      mkSignal (SecretRead "db-creds/password" Mounted) (mkProv "runtime" 1000000000);
      mkSignal (SecretRead "app/db-creds" Api) (mkProv "k8s-audit" 0)]),
    Some (mkEvidence [set_reachability LoadedAtRuntime demo_vuln] [] None [] [] [])).
Proof. vm_compute. reflexivity. Qed.

Lemma graph_well_typed_witness :
  exists sg m, demo_pass demo_cluster = Some (sg, m) /\ (forall e, e ∈ sg_edge_references (inner sg) -> exists n m,
    node sg (er_source e) = Some n /\ node sg (er_target e) = Some m /\ edge_typed n (e_relation (er_weight e)) m = true).
Proof.
  destruct (graph_well_typed (G := list_graph Node Edge) demo_oci (fun _ => 0%Z) (fun _ _ => 0%Z) (fun _ => 0%Z) elements elements
    (fun _ => reflexivity _) (fun _ => reflexivity _) demo_cluster (demo_distinct demo_cluster eq_refl) ∅ 0%Z) as (sg & m & H1 & H2 & _).
  exists sg, m. exact (conj H1 H2).
Defined.

(** The routes of the demo settle in any number of rounds from its pods on. *)
Lemma ingress_rounds_settle_witness :
  exists sg : SecurityGraph (list_graph Node Edge),
    build_graph demo_cluster (structural_adapters demo_oci (fun _ => 0%Z) elements elements ++ [exposure_adapter]) = Some sg /\
    exists sg', ingress_rounds (Nat.max (node_count sg) 1) demo_cluster sg = Some sg' /\
      (forall k, inet sg' k <-> internet_facing demo_cluster k).
Proof.
  destruct (ingress_rounds_settle (G := list_graph Node Edge) demo_oci (fun _ => 0%Z) elements elements
    (fun _ => reflexivity _) (fun _ => reflexivity _) demo_cluster (demo_distinct demo_cluster eq_refl)) as (sg & H1 & H2 & H3).
  exists sg. split; [exact H1|]. destruct (H3 _ H2) as (sg' & H4 & H5 & _). exists sg'. exact (conj H4 H5).
Defined.

Lemma evidence_mints_no_edge_witness :
  same_cluster demo_quiet demo_cluster /\
  exists sg m sg' m', demo_pass demo_quiet = Some (sg, m) /\ demo_pass demo_cluster = Some (sg', m') /\
    (forall a r b, edge_in sg' a r b <-> edge_in sg a r b).
Proof.
  split; [done|].
  destruct (evidence_mints_no_edge (G := list_graph Node Edge) demo_oci (fun _ => 0%Z) (fun _ _ => 0%Z) (fun _ => 0%Z) elements elements
    (fun _ => reflexivity _) (fun _ => reflexivity _) demo_quiet (demo_distinct demo_quiet eq_refl) ∅ 0%Z demo_cluster ∅ 0%Z eq_refl)
    as (sg & m & sg' & m' & H1 & H2 & _ & H4 & _).
  exists sg, m, sg', m'. exact (conj H1 (conj H2 H4)).
Defined.

Lemma evidence_exact_witness :
  exists sg m, demo_pass demo_cluster = Some (sg, m) /\ forall i n, node sg i = Some n -> exists static ss loads pkgs,
    evidence_read demo_oci (fun _ => 0%Z) (fun _ _ => 0%Z) demo_cluster ∅ 0%Z n static ss loads pkgs.
Proof.
  exact (evidence_exact (G := list_graph Node Edge) demo_oci (fun _ => 0%Z) (fun _ _ => 0%Z) (fun _ => 0%Z) elements elements
    (fun _ => reflexivity _) (fun _ => reflexivity _) demo_cluster (demo_distinct demo_cluster eq_refl) ∅ 0%Z).
Defined.
