(* ===== verification/Chain.v ===== *)
(** * The deterministic chain walk (engine/src/engine/reason/proof/chain.rs,
    and the data of reason/proof/mod.rs)

    The movement-edge breadth-first search behind the compromise gate, path
    reconstruction, the bounded enumeration of simple paths on an explicit
    stack, and the quarantine targets of a path. Loops carry fuel and return
    [None] if it runs out, as does every [expect]/index that would panic; the
    theorems of [ChainFacts] and [PathEnum] show that neither ever happens. *)

From S2P Require Import Prelude Text PetGraph Attack Behavior Classify Graph.

(** ** reason/proof/mod.rs: links, targets *)

Record Link := mkLink {
  l_from : NodeKey;
  l_to : NodeKey;
  l_relation : string;
  l_technique : option AttackRef;
  l_from_labels : gmap string string;
  l_to_labels : gmap string string
}.

#[export] Instance Link_eq_dec : EqDecision Link.
Proof. solve_decision. Defined.

Inductive QuarantineReason := RemotelyExploitable | ActivelyExploited.

#[export] Instance QuarantineReason_eq_dec : EqDecision QuarantineReason.
Proof. solve_decision. Defined.

Definition disposition (r : QuarantineReason) : string :=
  match r with
  | RemotelyExploitable => "quarantine — remotely exploitable"
  | ActivelyExploited => "quarantine — actively exploited"
  end.

Record QuarantineTarget := mkTarget {
  qt_node : NodeKey;
  qt_labels : gmap string string;
  qt_reason : QuarantineReason
}.

(** One step of a path: (from, to, edge id). *)
Abbreviation step := (nat * nat * nat)%type.
Abbreviation PathSteps := (list (nat * nat * nat)).

Definition MAX_PROVEN_PATHS : nat := 6.
Definition PATH_ENUM_BUDGET : nat := N.to_nat 50000.

Section Chain.
Context {G : Type} `{SG : !StableGraph G Node Edge}.
Implicit Types sg : SecurityGraph G.

Definition is_movement (r : Relation) : bool :=
  match r with RunsImage | ScheduledOn => false | _ => true end.

Definition compromisable sg (n : nat) : bool :=
  existsb (fun r =>
    match e_relation (er_weight r), sg_node_weight (inner sg) (er_target r) with
    | RunsImage, Some (NImage im) =>
        existsb (fun v => v_exploited_in_wild v || bool_decide (v_severity v = Critical))
          (im_vulnerabilities im)
    | _, _ => false
    end) (sg_edges (inner sg) n).

Definition entry_exposed sg (entry : nat) : bool :=
  match sg_node_weight (inner sg) entry with
  | Some (NWorkload w) => bool_decide (w_exposure w = Internet)
  | _ => false
  end.

Definition entry_foothold sg (entry : nat) : option AttackRef :=
  let exposed :=
    match sg_node_weight (inner sg) entry with
    | Some (NWorkload w) => bool_decide (w_exposure w = Internet)
    | _ => false
    end in
  if exposed && compromisable sg entry then Some EXPLOIT_PUBLIC_FACING else None.

Definition is_workload sg (n : nat) : bool :=
  match sg_node_weight (inner sg) n with Some (NWorkload _) => true | _ => false end.

(** The compromise gate: one acts only from the start or a workload one controls. *)
Definition blocked sg (start u : nat) : bool :=
  is_workload sg u && negb (bool_decide (u = start)) && negb (compromisable sg u).

(** *** movement_tree *)

Record bfs_state := mkBfs {
  came : gmap nat (nat * nat);
  seen : gset nat;
  queue : list nat
}.

(** The body of the edge loop. *)
Definition relax_edge (excluded : option nat) (u : nat) (st : bfs_state) (r : edge_ref Edge)
    : bfs_state :=
  if bool_decide (Some (er_id r) = excluded) then st
  else if negb (is_movement (e_relation (er_weight r))) then st
  else
    let v := er_target r in
    if bool_decide (v ∈ seen st) then st
    else mkBfs (<[v:=(u, er_id r)]> (came st)) ({[v]} ∪ seen st) (queue st ++ [v]).

Fixpoint bfs_loop (fuel : nat) sg (start : nat) (excluded : option nat) (st : bfs_state)
    : option (gmap nat (nat * nat)) :=
  match fuel with
  | 0 => None
  | S fuel' =>
      match queue st with
      | [] => Some (came st)
      | u :: q =>
          let st1 := mkBfs (came st) (seen st) q in
          if blocked sg start u then bfs_loop fuel' sg start excluded st1
          else bfs_loop fuel' sg start excluded
                 (foldl (relax_edge excluded u) st1 (sg_edges (inner sg) u))
      end
  end.

(** Every iteration pops a node and a node is queued once: one more than the
    nodes (and the start) is enough. *)
Definition bfs_fuel sg : nat := S (S (length (sg_node_indices (inner sg)))).

Definition movement_tree sg (start : nat) (excluded : option nat) : option (gmap nat (nat * nat)) :=
  bfs_loop (bfs_fuel sg) sg start excluded (mkBfs ∅ {[start]} [start]).

Definition is_cuttable_edge sg (e : nat) : bool :=
  match sg_edge_weight (inner sg) e with
  | Some edge => negb (is_structural (e_relation edge))
  | None => false
  end.

Definition reachable_without sg (start target excluded : nat) : option bool :=
  tree ← movement_tree sg start (Some excluded);
  Some (bool_decide (is_Some (tree !! target))).

(** *** path_steps *)

(** The loop, yielding the steps in the order they are pushed. *)
Fixpoint path_loop (fuel : nat) (came : gmap nat (nat * nat)) (entry cur : nat) : option PathSteps :=
  if bool_decide (cur = entry) then Some []
  else match fuel with
       | 0 => None
       | S fuel' =>
           '(prev, edge) ← came !! cur;
           rest ← path_loop fuel' came entry prev;
           Some ((prev, cur, edge) :: rest)
       end.

Definition path_steps (came : gmap nat (nat * nat)) (entry target : nat) : option PathSteps :=
  steps ← path_loop (size came) came entry target;
  Some (reverse steps).

(** *** proven_paths: the bounded depth-first enumeration *)

(** A frame: the node being expanded and its edges from the cursor on, each
    (target, id, is it a movement edge). *)
Record frame := mkFrame { fr_node : nat; fr_edges : list (nat * nat * bool) }.

Record path_enum := mkEnum {
  pe_on_path : gset nat;
  pe_steps : PathSteps;
  pe_found : list PathSteps;
  pe_budget : nat;
  pe_truncated : bool
}.

(** [open]: the checks at the top of a visit, and the frame to expand if any. *)
Definition open_node sg (entry objective cap u : nat) (st : path_enum) : path_enum * option frame :=
  if bool_decide (cap < length (pe_found st)) then (st, None)
  else if bool_decide (u = objective) then
    (mkEnum (pe_on_path st) (pe_steps st) (pe_found st ++ [pe_steps st]) (pe_budget st)
       (pe_truncated st), None)
  else if is_workload sg u && negb (bool_decide (u = entry)) && negb (compromisable sg u) then (st, None)
  else (st, Some (mkFrame u
         ((fun r => (er_target r, er_id r, is_movement (e_relation (er_weight r)))) <$>
          sg_edges (inner sg) u))).

(** One iteration of the loop over a nonempty stack (top first): the next state
    and stack, or [inr] when the walk returns. *)
Definition walk_step sg (entry objective cap : nat) (st : path_enum) (top : frame)
    (below : list frame) : path_enum * list frame + path_enum :=
  match fr_edges top with
  | (v, e, valid) :: rest =>
      match pe_budget st with
      | 0 => inr (mkEnum (pe_on_path st) (pe_steps st) (pe_found st) 0 true)
      | S b =>
          let st1 := mkEnum (pe_on_path st) (pe_steps st) (pe_found st) b (pe_truncated st) in
          let top1 := mkFrame (fr_node top) rest in
          if negb valid then inl (st1, top1 :: below)
          else if bool_decide (v ∈ pe_on_path st) then inl (st1, top1 :: below)
          else
            let st2 := mkEnum ({[v]} ∪ pe_on_path st) (pe_steps st ++ [(fr_node top, v, e)])
                         (pe_found st) b (pe_truncated st) in
            match open_node sg entry objective cap v st2 with
            | (st3, Some child) => inl (st3, child :: top1 :: below)
            | (st3, None) =>
                let st4 := mkEnum (pe_on_path st3 ∖ {[v]}) (take (pred (length (pe_steps st3))) (pe_steps st3))
                             (pe_found st3) (pe_budget st3) (pe_truncated st3) in
                if bool_decide (cap < length (pe_found st4)) then inr st4
                else inl (st4, top1 :: below)
            end
      end
  | [] =>
      match below with
      | [] => inl (st, [])
      | _ =>
          let st1 := mkEnum (pe_on_path st ∖ {[fr_node top]}) (take (pred (length (pe_steps st))) (pe_steps st))
                       (pe_found st) (pe_budget st) (pe_truncated st) in
          if bool_decide (cap < length (pe_found st1)) then inr st1 else inl (st1, below)
      end
  end.

Fixpoint walk_loop (fuel : nat) sg (entry objective cap : nat) (st : path_enum) (stack : list frame)
    : option path_enum :=
  match stack with
  | [] => Some st
  | top :: below =>
      match fuel with
      | 0 => None
      | S fuel' =>
          match walk_step sg entry objective cap st top below with
          | inl (st', stack') => walk_loop fuel' sg entry objective cap st' stack'
          | inr st' => Some st'
          end
      end
  end.

(** Each iteration spends budget or pops a frame, and a frame costs budget. *)
Definition walk_fuel (st : path_enum) : nat := 2 * pe_budget st + 1.

Definition walk sg (entry objective cap : nat) (st : path_enum) : option path_enum :=
  match open_node sg entry objective cap entry st with
  | (st', None) => Some st'
  | (st', Some root) => walk_loop (walk_fuel st') sg entry objective cap st' [root]
  end.

(** Lexicographic [Vec] comparison of the (source, target) sequences. *)
Fixpoint steps_key_leb (a b : list (nat * nat)) : bool :=
  match a, b with
  | [], _ => true
  | _ :: _, [] => false
  | (a1, a2) :: a', (b1, b2) :: b' =>
      if a1 <? b1 then true else if b1 <? a1 then false
      else if a2 <? b2 then true else if b2 <? a2 then false
      else steps_key_leb a' b'
  end.

Definition path_leb (a b : PathSteps) : bool :=
  if length a <? length b then true
  else if length b <? length a then false
  else steps_key_leb a.*1 b.*1.

Definition proven_paths_budget sg (budget entry objective cap : nat) : option (list PathSteps * bool) :=
  st ← walk sg entry objective cap (mkEnum {[entry]} [] [] budget false);
  let found := sort_by path_leb (pe_found st) in
  Some (if bool_decide (cap < length found) then (take cap found, true) else (found, pe_truncated st)).

Definition proven_paths sg (entry objective cap : nat) : option (list PathSteps * bool) :=
  proven_paths_budget sg PATH_ENUM_BUDGET entry objective cap.

(** *** Quarantine targets *)

Definition actively_exploited sg (n : nat) : bool :=
  match sg_node_weight (inner sg) n with
  | Some (NWorkload w) => existsb (fun s => AlarmClass.is_alarming_now (rs_behavior s)) (w_runtime w)
  | _ => false
  end.

Definition is_network_hop sg (e : nat) : bool :=
  match sg_edge_weight (inner sg) e with
  | Some edge => match e_relation edge with Reaches _ _ | CanEgress _ => true | _ => false end
  | None => false
  end.

Definition net_reachable_step sg (m : gmap nat bool) (s : step) : gmap nat bool :=
  let '(from, to, edge) := s in
  <[to := default false (m !! from) && is_network_hop sg edge]> m.

(** The body of the target loop for one node of the path. *)
Definition target_of_node sg (entry : nat) (net_reachable : gmap nat bool) (n : nat)
    : option (option QuarantineTarget) :=
  match sg_node_weight (inner sg) n with
  | Some (NWorkload w) =>
      let push reason :=
        k ← key_of sg n;
        Some (Some (mkTarget k (w_labels w) reason)) in
      if actively_exploited sg n then push ActivelyExploited
      else if negb (bool_decide (n = entry)) && default false (net_reachable !! n) && compromisable sg n
      then push RemotelyExploitable
      else Some None
  | _ => Some None
  end.

Fixpoint targets_loop sg (entry : nat) (net_reachable : gmap nat bool) (seen : gset nat)
    (nodes : list nat) : option (list QuarantineTarget) :=
  match nodes with
  | [] => Some []
  | n :: nodes' =>
      if bool_decide (n ∈ seen) then targets_loop sg entry net_reachable seen nodes'
      else
        t ← target_of_node sg entry net_reachable n;
        rest ← targets_loop sg entry net_reachable ({[n]} ∪ seen) nodes';
        Some (option_list t ++ rest)
  end.

Definition quarantine_targets_on_path sg (entry : nat) (steps : PathSteps) (exposed_entry : bool)
    : option (list QuarantineTarget) :=
  let net_reachable := foldl (net_reachable_step sg) {[entry := exposed_entry]} steps in
  targets_loop sg entry net_reachable ∅ (entry :: ((fun s => s.1.2) <$> steps)).

Definition workload_labels sg (idx : nat) : gmap string string :=
  match sg_node_weight (inner sg) idx with
  | Some (NWorkload w) => w_labels w
  | _ => ∅
  end.

Definition link_of sg (from to edge : nat) : option Link :=
  e ← sg_edge_weight (inner sg) edge;
  kf ← key_of sg from;
  kt ← key_of sg to;
  Some (mkLink kf kt (relation_label (e_relation e)) (relation_technique (e_relation e))
          (workload_labels sg from) (workload_labels sg to)).

(** ** What the walk is meant to compute *)

(** A gated movement edge of the attack walk from [start], with one edge
    removed if [excluded] is set. *)
Definition gedge sg (start : nat) (excluded : option nat) (s : step) : Prop :=
  let '(u, v, e) := s in
  blocked sg start u = false /\ Some e <> excluded /\
  exists r, r ∈ sg_edges (inner sg) u /\ er_target r = v /\ er_id r = e /\
            is_movement (e_relation (er_weight r)) = true.

(** A gated path from [start], as the list of its steps. *)
Inductive gpath sg (start : nat) (excluded : option nat) : PathSteps -> nat -> Prop :=
  | gpath_nil : gpath sg start excluded [] start
  | gpath_snoc p u v e :
      gpath sg start excluded p u -> gedge sg start excluded (u, v, e) ->
      gpath sg start excluded (p ++ [(u, v, e)]) v.

Definition greach sg (start : nat) (excluded : option nat) (v : nat) : Prop :=
  exists p, gpath sg start excluded p v.

(** A path that visits no node twice. *)
Definition simple_path (start : nat) (p : PathSteps) : Prop :=
  NoDup (start :: ((fun s => s.1.2) <$> p)).

End Chain.
