(* ===== verification/ChainFacts.v ===== *)
(** * The movement tree is the shortest-path tree of gated reachability

    The breadth-first search terminates, reaches exactly the nodes a gated
    attack path reaches, and [path_steps] rebuilds a shortest such path from
    it; excluding an edge decides whether the edge is a cut. *)

From S2P Require Import Prelude Text PetGraph Attack Behavior Classify Graph Chain.
From Stdlib Require Import Sorting.Sorted.

Section Bfs.
Context {G : Type} `{SGL : StableGraphLaws G Node Edge}.
Variables (sg : SecurityGraph G) (start : nat) (excluded : option nat).

#[local] Abbreviation GE := (gedge sg start excluded).
#[local] Abbreviation GP := (gpath sg start excluded).

(** Nodes the search can ever see. *)
Definition universe : gset nat := {[start]} ∪ list_to_set (sg_node_indices (inner sg)).

(** The search invariant, with ghost depths [d]. [done] are nodes already
    expanded or gated. *)
Record bfs_inv (d : nat -> nat) (st : bfs_state) (pending : nat -> Prop) : Prop := {
  bi_start : start ∈ seen st /\ came st !! start = None /\ d start = 0;
  bi_came v u e : came st !! v = Some (u, e) ->
    v ∈ seen st /\ u ∈ seen st /\ GE (u, v, e) /\ d v = S (d u);
  bi_seen v : v ∈ seen st -> v = start \/ is_Some (came st !! v);
  bi_universe : seen st ⊆ universe;
  bi_queue x : x ∈ queue st -> x ∈ seen st;
  bi_sorted : StronglySorted (fun x y => d x <= d y) (queue st);
  bi_front x y : x ∈ queue st -> y ∈ seen st -> d y <= S (d x);
  bi_size v : v ∈ seen st -> d v <= size (came st);
  bi_closed u v e : u ∈ seen st -> ~ pending u -> GE (u, v, e) -> v ∈ seen st /\ d v <= S (d u)
}.

Lemma gedge_target u v e : GE (u, v, e) -> v ∈ universe.
Proof.
  intros (_ & _ & r & Hr & <- & _). apply elem_of_union_r, elem_of_list_to_set, sg_indices_spec.
  by eapply edges_target_node.
Qed.

(** While [u]'s edges are relaxed: the invariant holds with [u] pending, and
    the edges already visited lead to seen nodes. *)
Definition relax_inv (u : nat) (visited : list (edge_ref Edge)) (d : nat -> nat) (st : bfs_state) : Prop :=
  bfs_inv d st (fun x => x ∈ queue st \/ x = u) /\
  u ∈ seen st /\
  (forall y, y ∈ seen st -> d y <= S (d u)) /\
  (forall x, x ∈ queue st -> d u <= d x) /\
  (forall r, r ∈ visited -> Some (er_id r) <> excluded -> is_movement (e_relation (er_weight r)) = true ->
     er_target r ∈ seen st).

(** A newly reached node keeps the invariant, at one more than [u]'s depth. *)
Lemma relax_new u visited d st r :
  blocked sg start u = false -> r ∈ sg_edges (inner sg) u ->
  Some (er_id r) <> excluded -> is_movement (e_relation (er_weight r)) = true ->
  er_target r ∉ seen st ->
  relax_inv u visited d st ->
  relax_inv u (r :: visited) (fun x => if decide (x = er_target r) then S (d u) else d x)
    (mkBfs (<[er_target r := (u, er_id r)]> (came st)) ({[er_target r]} ∪ seen st)
       (queue st ++ [er_target r])).
Proof.
  intros Hb Hr Hex Hmov Hnew (Hinv & Hu & Hmax & Hmin & Hvis).
  set (v := er_target r) in *.
  assert (GE (u, v, er_id r)) as Hge by (split; [done|]; split; [done|]; eauto).
  assert (u <> v) as Huv by (intros ->; done).
  assert (v <> start) as Hvs by (intros ->; apply Hnew, Hinv).
  assert (forall x, x ∈ seen st -> x <> v) as Hne by (intros x Hx ->; done).
  assert (came st !! v = None) as Hcv.
  { destruct (came st !! v) as [[p e]|] eqn:E; [|done]. apply Hinv in E. naive_solver. }
  destruct Hinv as [(Hs1 & Hs2 & Hs3) Hc Hsn Huni Hq Hso Hfr Hsz Hcl].
  split; [split; simpl|split; [|split; [|split]]]; simpl.
  - split; [set_solver|]. rewrite lookup_insert_ne by done. split; [done|]. by rewrite decide_False.
  - intros x p e. rewrite lookup_insert. case_decide as Hx.
    + intros [= <- <-]. subst x. split; [set_solver|]. split; [set_solver|]. split; [done|].
      rewrite decide_True, decide_False by done. done.
    + intros Hp. pose proof (Hc _ _ _ Hp) as (H1 & H2 & H3 & H4).
      split; [set_solver|]. split; [set_solver|]. split; [done|].
      rewrite !decide_False by auto. done.
  - intros x Hx. destruct (decide (x = v)) as [->|Hxv].
    + right. rewrite lookup_insert_eq. eauto.
    + rewrite lookup_insert_ne by done. apply Hsn. set_solver.
  - pose proof (gedge_target _ _ _ Hge). set_solver.
  - intros x. rewrite elem_of_app, list_elem_of_singleton. set_solver.
  - apply ssorted_app.
    + eapply ssorted_impl; [exact Hso|]. intros x y Hx Hy Hxy. by rewrite !decide_False by auto.
    + repeat constructor.
    + intros x y Hx Hy%list_elem_of_singleton. subst y. rewrite (decide_True (P:=v = v)) by done.
      rewrite decide_False by auto. auto.
  - intros x y Hx Hy. apply elem_of_app in Hx. rewrite list_elem_of_singleton in Hx.
    apply elem_of_union in Hy. rewrite elem_of_singleton in Hy.
    destruct (decide (x = v)) as [Hxv|Hxv], (decide (y = v)) as [Hyv|Hyv]; [lia| | |].
    + destruct Hy as [?|Hy]; [done|]. specialize (Hmax y Hy). lia.
    + destruct Hx as [Hx|?]; [|done]. specialize (Hmin x Hx). lia.
    + destruct Hx as [Hx|?]; [|done]. destruct Hy as [?|Hy]; [done|]. auto.
  - intros x Hx. rewrite map_size_insert_None by done. pose proof (Hsz u Hu).
    case_decide; [lia|]. apply elem_of_union in Hx as [?%elem_of_singleton|Hx]; [done|].
    specialize (Hsz x Hx). lia.
  - intros x y e Hx Hp Hxy. rewrite elem_of_app, list_elem_of_singleton in Hp.
    apply elem_of_union in Hx as [->%elem_of_singleton|Hx]; [naive_solver|].
    destruct (Hcl x y e Hx) as [H1 H2]; [naive_solver|done|].
    split; [set_solver|]. rewrite !decide_False by auto. done.
  - set_solver.
  - intros y Hy. rewrite (decide_False (P:=u = v)) by done. case_decide; [done|].
    apply Hmax. set_solver.
  - intros x Hx%elem_of_app. rewrite (decide_False (P:=u = v)) by done.
    case_decide; [lia|]. apply Hmin. rewrite list_elem_of_singleton in Hx. naive_solver.
  - intros r' [->|Hr']%elem_of_cons He Hm; [set_solver|]. apply elem_of_union_r. auto.
Qed.

Lemma relax_visited u visited d st r :
  relax_inv u visited d st ->
  (Some (er_id r) <> excluded -> is_movement (e_relation (er_weight r)) = true ->
   er_target r ∈ seen st) ->
  relax_inv u (r :: visited) d st.
Proof.
  intros (H1 & H2 & H3 & H4 & Hv) H.
  split; [done|]. split; [done|]. split; [done|]. split; [done|].
  intros r' [->|Hr']%elem_of_cons; eauto.
Qed.

Lemma relax_edges u d0 st0 :
  blocked sg start u = false ->
  forall rest visited d st,
  (forall r, r ∈ rest -> r ∈ sg_edges (inner sg) u) ->
  relax_inv u visited d st ->
  (forall x, x ∈ seen st0 -> d x = d0 x) -> seen st0 ⊆ seen st ->
  exists d', relax_inv u (reverse rest ++ visited) d' (foldl (relax_edge excluded u) st rest) /\
    (forall x, x ∈ seen st0 -> d' x = d0 x).
Proof.
  intros Hb. induction rest as [|r rest IH]; intros visited d st Hrest Hinv Hd Hsub; simpl.
  - exists d. done.
  - rewrite reverse_cons, <- (assoc_L (++)). simpl.
    assert (relax_inv u (r :: visited) d (relax_edge excluded u st r) \/
      relax_inv u (r :: visited) (fun x => if decide (x = er_target r) then S (d u) else d x)
        (relax_edge excluded u st r) /\ er_target r ∉ seen st) as Hstep.
    { unfold relax_edge. case_bool_decide as Hex.
      { left. apply relax_visited; [done|]. intros He. congruence. }
      destruct (is_movement (e_relation (er_weight r))) eqn:Hm; simpl.
      2: { left. apply relax_visited; [done|]. intros _ Hm'. congruence. }
      case_bool_decide as Hs; [left; by apply relax_visited|].
      right. split; [|done]. apply relax_new; auto. apply Hrest. by left. }
    assert (seen st ⊆ seen (relax_edge excluded u st r)) as Hmono.
    { unfold relax_edge. case_bool_decide; [done|]. destruct (is_movement _); simpl; [|done].
      case_bool_decide; [done|]. simpl. set_solver. }
    destruct Hstep as [Hstep|[Hstep Hnew]].
    + eapply IH; [intros; apply Hrest; by right|exact Hstep|done|set_solver].
    + eapply IH; [intros; apply Hrest; by right|exact Hstep| |set_solver].
      intros x Hx. simpl. case_decide as Hxr; [|auto]. subst x. set_solver.
Qed.

(** Popping [u]: gated nodes are skipped, others relax all their edges. *)
Lemma bfs_pop_gated d st u q :
  queue st = u :: q -> blocked sg start u = true ->
  bfs_inv d st (fun x => x ∈ u :: q) ->
  bfs_inv d (mkBfs (came st) (seen st) q) (fun x => x ∈ q).
Proof.
  intros Hq Hb [Hs Hc Hsn Huni Hqs Hso Hfr Hsz Hcl]. rewrite Hq in *.
  split; simpl; try done.
  - intros x Hx. apply Hqs. by right.
  - by inversion_clear Hso.
  - intros x y Hx Hy. apply Hfr; [by right|done].
  - intros x v e Hx Hp Hxv. destruct (decide (x = u)) as [->|Hne].
    + destruct Hxv as (Hb' & _). congruence.
    + apply (Hcl x v e); [done| |done]. rewrite elem_of_cons. naive_solver.
Qed.

Lemma bfs_pop_open d st u q :
  queue st = u :: q -> blocked sg start u = false ->
  bfs_inv d st (fun x => x ∈ u :: q) ->
  let st' := foldl (relax_edge excluded u) (mkBfs (came st) (seen st) q) (sg_edges (inner sg) u) in
  exists d', bfs_inv d' st' (fun x => x ∈ queue st').
Proof.
  intros Hq Hb [Hs Hc Hsn Huni Hqs Hso Hfr Hsz Hcl]. rewrite Hq in *.
  inversion Hso as [|? ? Hso' Hall]; subst. rewrite Forall_forall in Hall.
  destruct (relax_edges u d (mkBfs (came st) (seen st) q) Hb (sg_edges (inner sg) u) [] d
              (mkBfs (came st) (seen st) q)) as (d' & Hinv & _); [done| |done|done|].
  - split; [split; simpl; try done|split; [|split; [|split]]]; simpl.
    + intros x Hx. apply Hqs. by right.
    + intros x y Hx Hy. apply Hfr; [by right|done].
    + intros x v e Hx Hp. apply Hcl; [done|]. rewrite elem_of_cons. naive_solver.
    + apply Hqs. by left.
    + intros y Hy. apply Hfr; [by left|done].
    + done.
    + by intros r ?%not_elem_of_nil.
  - simpl. exists d'. rewrite app_nil_r in Hinv.
    destruct Hinv as (Hinv & Hu & Hmax & _ & Hvis).
    set (st' := foldl _ _ _) in *.
    destruct Hinv as [Hs' Hc' Hsn' Huni' Hq' Hso'' Hfr' Hsz' Hcl']. split; try done.
    intros x v e Hx Hp Hxv. destruct (decide (x = u)) as [->|Hne].
    + destruct Hxv as (_ & Hex & r & Hr & <- & <- & Hm).
      assert (er_target r ∈ seen st') by (apply Hvis; [by rewrite elem_of_reverse|done|done]).
      auto.
    + apply (Hcl' x v e); [done| |done]. naive_solver.
Qed.

(** Every pop pays for itself: the queue and the unseen nodes bound the loop. *)
Definition bfs_measure (st : bfs_state) : nat := length (queue st) + size (universe ∖ seen st).

Lemma relax_edge_measure u st r :
  r ∈ sg_edges (inner sg) u -> bfs_measure (relax_edge excluded u st r) <= bfs_measure st.
Proof.
  intros Hr. unfold relax_edge. case_bool_decide; [done|].
  destruct (is_movement _); simpl; [|done]. case_bool_decide as Hs; [done|].
  unfold bfs_measure; simpl. rewrite length_app; simpl.
  assert (er_target r ∈ universe) as Hu.
  { apply elem_of_union_r, elem_of_list_to_set, sg_indices_spec. by eapply edges_target_node. }
  assert (universe ∖ ({[er_target r]} ∪ seen st) = (universe ∖ seen st) ∖ {[er_target r]}) as -> by set_solver.
  rewrite size_difference by set_solver. rewrite size_singleton.
  assert (size (universe ∖ seen st) <> 0); [|lia]. rewrite size_non_empty_iff. set_solver.
Qed.

Lemma relax_edges_measure u rest st :
  (forall r, r ∈ rest -> r ∈ sg_edges (inner sg) u) ->
  bfs_measure (foldl (relax_edge excluded u) st rest) <= bfs_measure st.
Proof.
  revert st. induction rest as [|r rest IH]; intros st H; simpl; [done|].
  etrans; [apply IH; set_solver|]. apply relax_edge_measure. set_solver.
Qed.

Lemma bfs_loop_total fuel st :
  bfs_measure st < fuel -> is_Some (bfs_loop fuel sg start excluded st).
Proof.
  revert st. induction fuel as [|fuel IH]; intros st Hf; [lia|]. simpl.
  destruct (queue st) as [|u q] eqn:Hq; [eauto|].
  assert (bfs_measure (mkBfs (came st) (seen st) q) < fuel) as Hlt.
  { unfold bfs_measure in *. rewrite Hq in Hf. simpl in *. lia. }
  destruct (blocked sg start u); apply IH; [done|].
  eapply Nat.le_lt_trans; [apply relax_edges_measure|done]. done.
Qed.

Lemma bfs_loop_inv fuel st tree d :
  bfs_inv d st (fun x => x ∈ queue st) -> bfs_loop fuel sg start excluded st = Some tree ->
  exists d' st', came st' = tree /\ bfs_inv d' st' (fun _ => False).
Proof.
  revert st d. induction fuel as [|fuel IH]; intros st d Hinv; simpl; [done|].
  destruct (queue st) as [|u q] eqn:Hq.
  - intros [= <-]. exists d, st. split; [done|]. destruct Hinv as [? ? ? ? ? ? ? ? Hcl]. split; try done.
    intros u v e Hu _. apply Hcl; [done|]. apply not_elem_of_nil.
  - destruct (blocked sg start u) eqn:Hb; intros H.
    + eapply IH; [|exact H]. by eapply bfs_pop_gated.
    + destruct (bfs_pop_open d st u q Hq Hb Hinv) as [d' Hinv']. by eapply IH.
Qed.

Lemma bfs_init : bfs_inv (fun _ => 0) (mkBfs ∅ {[start]} [start]) (fun x => x ∈ [start]).
Proof.
  split; simpl.
  - split; [set_solver|]. by rewrite lookup_empty.
  - intros v u e. by rewrite lookup_empty.
  - intros v ->%elem_of_singleton. by left.
  - unfold universe. set_solver.
  - intros x ->%list_elem_of_singleton. set_solver.
  - repeat constructor.
  - lia.
  - lia.
  - intros u v e ->%elem_of_singleton. by rewrite list_elem_of_singleton.
Qed.

Lemma movement_tree_total : is_Some (movement_tree sg start excluded).
Proof.
  apply bfs_loop_total. unfold bfs_measure, bfs_fuel; simpl.
  assert (size (universe ∖ {[start]}) <= length (sg_node_indices (inner sg))); [|lia].
  etrans; [apply subseteq_size with (Y := list_to_set (C:=gset nat) (sg_node_indices (inner sg)))|].
  - unfold universe. set_solver.
  - rewrite size_list_to_set by apply sg_indices_NoDup. done.
Qed.

(** The finished search, with its depths. *)
Lemma movement_tree_inv tree :
  movement_tree sg start excluded = Some tree ->
  exists d st, came st = tree /\ bfs_inv d st (fun _ => False).
Proof. intros H. eapply bfs_loop_inv; [|exact H]. apply bfs_init. Qed.

(** Depths bound every gated path from below, so the tree is complete. *)
Lemma bfs_inv_path d st p v :
  bfs_inv d st (fun _ => False) -> GP p v -> v ∈ seen st /\ d v <= length p.
Proof.
  intros Hinv. induction 1 as [|p u v e Hp [IHs IHd] He].
  - destruct (bi_start _ _ _ Hinv) as (? & ? & ->). done.
  - destruct (bi_closed _ _ _ Hinv u v e) as [Hs Hd]; [done|tauto|done|].
    split; [done|]. rewrite length_app; simpl. lia.
Qed.

(** [path_loop] follows the tree up to the start, one step per depth level. *)
Lemma path_loop_spec d st v fuel :
  bfs_inv d st (fun _ => False) -> v ∈ seen st -> d v <= fuel ->
  exists p, path_loop fuel (came st) start v = Some (reverse p) /\ GP p v /\ length p = d v.
Proof.
  intros Hinv. revert v. induction fuel as [|fuel IH]; intros v Hv Hd; simpl.
  - destruct (bi_seen _ _ _ Hinv v Hv) as [->|[[u e] Hu]].
    + rewrite bool_decide_eq_true_2 by done. exists []. split; [done|]. split; [constructor|].
      by destruct (bi_start _ _ _ Hinv) as (_ & _ & ->).
    + apply (bi_came _ _ _ Hinv) in Hu as (_ & _ & _ & Hdu). lia.
  - case_bool_decide as Hvs.
    + subst v. exists []. split; [done|]. split; [constructor|].
      by destruct (bi_start _ _ _ Hinv) as (_ & _ & ->).
    + destruct (bi_seen _ _ _ Hinv v Hv) as [->|[[u e] Hu]]; [done|].
      pose proof (bi_came _ _ _ Hinv _ _ _ Hu) as (_ & Hsu & He & Hdu).
      destruct (IH u Hsu ltac:(lia)) as (p & Hp & HGP & Hlen).
      exists (p ++ [(u, v, e)]). rewrite Hu. simpl. rewrite Hp. simpl.
      split; [by rewrite reverse_snoc|]. split; [by constructor|].
      rewrite length_app; simpl. lia.
Qed.

Lemma tree_dom_seen d st v :
  bfs_inv d st (fun _ => False) -> is_Some (came st !! v) <-> v ∈ seen st /\ v <> start.
Proof.
  intros Hinv. destruct (bi_start _ _ _ Hinv) as (_ & Hnone & _). split.
  - intros [[u e] Hv]. apply (bi_came _ _ _ Hinv) in Hv as Hv'. split; [tauto|]. intros ->. congruence.
  - intros [Hs Hne]. destruct (bi_seen _ _ _ Hinv v Hs); [done|done].
Qed.

End Bfs.


(** ** Properties of the walk *)

Section WalkProperties.
Context {G : Type} `{SGL : StableGraphLaws G Node Edge}.
Implicit Types sg : SecurityGraph G.

(** Removing an edge leaves exactly the gated paths that avoid it. *)
Lemma gpath_excluded sg start e p v :
  gpath sg start (Some e) p v <-> gpath sg start None p v /\ e ∉ p.*2.
Proof.
  split.
  - induction 1 as [|p u v e' Hp [IH Hni] He]; [split; [constructor|apply not_elem_of_nil]|].
    destruct He as (Hb & Hne & Hr). split.
    + constructor; [done|]. by repeat split.
    + rewrite fmap_app. simpl. rewrite elem_of_app, list_elem_of_singleton. naive_solver.
  - intros [Hp Hni]. induction Hp as [|p u v e' Hp IH He]; [constructor|].
    rewrite fmap_app in Hni. simpl in Hni. rewrite elem_of_app, list_elem_of_singleton in Hni.
    destruct He as (Hb & _ & Hr). constructor; [apply IH; tauto|].
    repeat split; [done| |done]. intros [= ->]. tauto.
Qed.

Lemma movement_tree_dom sg start excluded tree v :
  movement_tree sg start excluded = Some tree ->
  is_Some (tree !! v) <-> v <> start /\ greach sg start excluded v.
Proof.
  intros (d & st & <- & Hinv)%movement_tree_inv. rewrite (tree_dom_seen sg start excluded d) by done.
  split.
  - intros [Hs Hne]. split; [done|].
    destruct (path_loop_spec sg start excluded d st v (d v) Hinv Hs) as (p & _ & Hp & _); [done|].
    by exists p.
  - intros [Hne [p Hp]]. split; [|done]. by eapply bfs_inv_path.
Qed.

(** The attack walk terminates on every graph and finds exactly the nodes
    an attacker can move to: those on a path of movement edges whose every
    departure is from the entry, a compromisable workload or a non-workload. *)
Theorem movement_tree_correct sg start excluded :
  exists tree, movement_tree sg start excluded = Some tree /\
    forall v, is_Some (tree !! v) <-> v <> start /\ greach sg start excluded v.
Proof.
  destruct (movement_tree_total sg start excluded) as [tree Htree].
  exists tree. split; [done|]. intros v. by apply movement_tree_dom.
Qed.

Lemma path_steps_spec sg start excluded tree v :
  movement_tree sg start excluded = Some tree -> is_Some (tree !! v) ->
  exists p, path_steps tree start v = Some p /\ gpath sg start excluded p v /\
    forall q, gpath sg start excluded q v -> length p <= length q.
Proof.
  intros (d & st & <- & Hinv)%movement_tree_inv Hv.
  apply (tree_dom_seen sg start excluded d) in Hv as [Hs _]; [|done].
  destruct (path_loop_spec sg start excluded d st v (size (came st)) Hinv Hs) as (p & Hl & Hp & Hd).
  { by eapply bi_size. }
  exists p. split; [|split; [done|]].
  - unfold path_steps. rewrite Hl. simpl. by rewrite reverse_involutive.
  - intros q Hq. rewrite Hd. by eapply bfs_inv_path.
Qed.

(** For every node of the tree, the reconstructed path never panics, is a
    gated path from the entry to it, and no gated path to it is shorter. *)
Theorem path_steps_shortest sg start excluded tree v :
  movement_tree sg start excluded = Some tree -> is_Some (tree !! v) ->
  exists p, path_steps tree start v = Some p /\ gpath sg start excluded p v /\
    forall q, gpath sg start excluded q v -> length p <= length q.
Proof. apply path_steps_spec. Qed.

Lemma reachable_without_total sg start target e :
  exists b, reachable_without sg start target e = Some b /\
    (b = true <-> target <> start /\ greach sg start (Some e) target).
Proof.
  unfold reachable_without. destruct (movement_tree_total sg start (Some e)) as [tree Ht].
  rewrite Ht. simpl. eexists. split; [done|]. rewrite bool_decide_eq_true.
  by apply movement_tree_dom.
Qed.

(** The cut test is exact: an edge on which the reachability test fails is
    on every gated path from the entry to the objective, and only then. *)
Theorem cut_test_exact sg start target e :
  target <> start ->
  reachable_without sg start target e = Some false <->
  forall p, gpath sg start None p target -> e ∈ p.*2.
Proof.
  intros Hne. destruct (reachable_without_total sg start target e) as (b & -> & Hb).
  split.
  - intros [= ->] p Hp. destruct (decide (e ∈ p.*2)) as [|Hni]; [done|].
    exfalso. assert (false = true) as H; [|done]. apply Hb. split; [done|].
    exists p. by apply gpath_excluded.
  - intros H. destruct b; [|done]. destruct Hb as [[_ [p Hp]] _]; [done|].
    apply gpath_excluded in Hp as [Hp Hni]. exfalso. by apply Hni, H.
Qed.

End WalkProperties.

(** ** Witnesses on the sample cluster *)

Lemma path_steps_shortest_witness :
  exists p, path_steps (default ∅ (movement_tree two_paths 0 None)) 0 3 = Some p /\
    gpath two_paths 0 None p 3 /\ forall q, gpath two_paths 0 None q 3 -> length p <= length q.
Proof.
  apply (path_steps_shortest two_paths 0 None (default ∅ (movement_tree two_paths 0 None)) 3).
  - vm_compute. reflexivity.
  - vm_compute. eauto.
Defined.

Lemma cut_test_exact_witness :
  3 <> 0 /\ reachable_without one_path 0 3 1 = Some false /\
  (forall p, gpath one_path 0 None p 3 -> 1 ∈ p.*2).
Proof.
  split; [done|]. split; [vm_compute; reflexivity|].
  apply (proj1 (cut_test_exact one_path 0 3 1 ltac:(done))). vm_compute. reflexivity.
Defined.

Lemma movement_tree_correct_witness :
  exists tree, movement_tree two_paths 0 None = Some tree /\
    forall v, is_Some (tree !! v) <-> v <> 0 /\ greach two_paths 0 None v.
Proof. apply (movement_tree_correct two_paths 0 None). Defined.
