(* ===== verification/PathEnum.v ===== *)
(** * The bounded enumeration of simple paths

    [proven_paths] walks an explicit stack. The walk terminates, records only
    gated simple paths to the objective, never the same one twice, and when
    neither the cap nor the budget stopped it, records all of them. *)

From S2P Require Import Prelude Text PetGraph Attack Behavior Classify Graph Chain.
From Stdlib Require Import Sorting.Sorted.
From stdpp Require Import sorting.

(** ** Order on paths *)

Lemma steps_key_leb_total a b : steps_key_leb a b = true \/ steps_key_leb b a = true.
Proof.
  revert b. induction a as [|[a1 a2] a IH]; intros [|[b1 b2] b]; simpl; [by left..|by right|].
  destruct (a1 <? b1) eqn:E1; [by left|]. destruct (b1 <? a1) eqn:E2; [by right|].
  destruct (a2 <? b2) eqn:E3; [by left|]. destruct (b2 <? a2) eqn:E4; [by right|]. apply IH.
Qed.

Lemma steps_key_leb_trans a b c :
  steps_key_leb a b = true -> steps_key_leb b c = true -> steps_key_leb a c = true.
Proof.
  revert b c. induction a as [|[a1 a2] a IH]; intros [|[b1 b2] b] [|[c1 c2] c]; simpl; try done.
  repeat match goal with |- context [?x <? ?y] => destruct (Nat.ltb_spec x y) end;
    try done; try lia. apply IH.
Qed.

Lemma path_leb_total a b : path_leb a b = true \/ path_leb b a = true.
Proof.
  unfold path_leb. destruct (length a <? length b) eqn:E1; [by left|].
  destruct (length b <? length a) eqn:E2; [by right|]. apply steps_key_leb_total.
Qed.

Lemma path_leb_trans a b c : path_leb a b = true -> path_leb b c = true -> path_leb a c = true.
Proof.
  unfold path_leb.
  repeat match goal with |- context [?x <? ?y] => destruct (Nat.ltb_spec x y) end;
    try done; try lia. apply steps_key_leb_trans.
Qed.

Lemma path_leb_length a b : path_leb a b = true -> length a <= length b.
Proof.
  unfold path_leb. destruct (Nat.ltb_spec (length a) (length b)); [lia|].
  destruct (Nat.ltb_spec (length b) (length a)); [done|lia].
Qed.

(** The steps without the last: [Vec::pop]. *)
Abbreviation init steps := (take (pred (length steps)) steps).

Lemma init_snoc {A} (l : list A) x : init (l ++ [x]) = l.
Proof. rewrite length_app, Nat.add_1_r. simpl. by rewrite take_app_length. Qed.

Lemma NoDup_snoc {A} (l : list A) x : NoDup l -> x ∉ l -> NoDup (l ++ [x]).
Proof. intros Hl Hx. rewrite (Permutation_app_comm l [x]). by constructor. Qed.

Section Walk.
Context {G : Type} `{SGL : StableGraphLaws G Node Edge}.
Variables (sg : SecurityGraph G) (entry objective cap : nat).

#[local] Abbreviation GE := (gedge sg entry None).
#[local] Abbreviation GP := (gpath sg entry None).

Definition targets (p : PathSteps) : list nat := (fun s : step => s.1.2) <$> p.

Lemma targets_snoc p u v e : targets (p ++ [(u, v, e)]) = targets p ++ [v].
Proof. unfold targets. by rewrite fmap_app. Qed.

(** A path the enumeration is meant to find. *)
Definition attack_path (p : PathSteps) : Prop := GP p objective /\ simple_path entry p.

(** The edges a frame still has to visit are edges of its node, each once. *)
Definition frame_ok (f : frame) : Prop :=
  blocked sg entry (fr_node f) = false /\ fr_node f <> objective /\ NoDup (fr_edges f) /\
  forall v e, (v, e, true) ∈ fr_edges f -> GE (fr_node f, v, e).

(** The stack spells the path under construction; each child was opened over
    an edge its parent no longer has to visit. *)
Inductive stack_ok : list frame -> PathSteps -> Prop :=
  | so_root f : fr_node f = entry -> frame_ok f -> stack_ok [f] []
  | so_push f f' below steps e :
      stack_ok (f' :: below) steps -> GE (fr_node f', fr_node f, e) ->
      fr_node f ∉ entry :: targets steps -> (fr_node f, e, true) ∉ fr_edges f' ->
      frame_ok f -> stack_ok (f :: f' :: below) (steps ++ [(fr_node f', fr_node f, e)]).

(** [p] is still to come: it leaves the current path at some open frame over
    an edge that frame has yet to visit. *)
Fixpoint covers (stack : list frame) (steps p : PathSteps) : Prop :=
  match stack with
  | [] => False
  | f :: below =>
      (exists v e q, p = steps ++ (fr_node f, v, e) :: q /\ (v, e, true) ∈ fr_edges f) \/
      covers below (init steps) p
  end.

Lemma simple_path_snoc p u v e :
  simple_path entry p -> v ∉ entry :: targets p -> simple_path entry (p ++ [(u, v, e)]).
Proof. unfold simple_path. rewrite fmap_app, app_comm_cons. apply NoDup_snoc. Qed.

Lemma stack_ok_path stack steps :
  stack_ok stack steps ->
  exists f below, stack = f :: below /\ GP steps (fr_node f) /\ simple_path entry steps /\ frame_ok f.
Proof.
  induction 1 as [f He Hf|f f' below steps e Hs IH He Hn _ Hf].
  - exists f, []. split; [done|]. split; [rewrite He; constructor|]. split; [|done].
    unfold simple_path. simpl. apply NoDup_singleton.
  - destruct IH as (? & ? & [= <- <-] & Hp & Hsm & _). exists f, (f' :: below).
    split; [done|]. split; [by constructor|]. split; [|done].
    by apply simple_path_snoc.
Qed.

Lemma stack_ok_advance f x rest below steps :
  fr_edges f = x :: rest -> stack_ok (f :: below) steps ->
  stack_ok (mkFrame (fr_node f) rest :: below) steps.
Proof.
  intros Hx H.
  assert (frame_ok f -> frame_ok (mkFrame (fr_node f) rest)) as Hf.
  { intros (H1 & H2 & H3 & H4). rewrite Hx in H3. apply NoDup_cons in H3 as [_ H3].
    split; [done|]. split; [done|]. split; [done|]. simpl. intros v e Hv. apply H4.
    rewrite Hx. by right. }
  inversion H; subst.
  - apply so_root; auto.
  - apply (so_push (mkFrame (fr_node f) rest) f' below0 steps0 e); auto.
Qed.

(** No path through the current one is still to come below the top frame. *)
Lemma covers_below f below steps q :
  stack_ok (f :: below) steps -> ~ covers below (init steps) (steps ++ q).
Proof.
  intros H. remember (f :: below) as stack eqn:E. revert f below E q.
  induction H as [f He Hf|f f' below steps e Hs IH He Hn Hni Hf]; intros f0 below0 [= <- <-] q.
  - simpl. tauto.
  - rewrite init_snoc. simpl. rewrite <- (assoc_L (++)). intros [(v & e' & q' & Hq & Hin)|H].
    + apply app_inv_head in Hq. simpl in Hq. injection Hq as <- <- _. done.
    + by eapply IH.
Qed.

(** Advancing past an edge gives up exactly the paths that leave over it. *)
Lemma covers_advance f v e b rest below steps p :
  fr_edges f = (v, e, b) :: rest ->
  covers (f :: below) steps p ->
  covers (mkFrame (fr_node f) rest :: below) steps p \/
  (b = true /\ exists q, p = steps ++ (fr_node f, v, e) :: q).
Proof.
  intros Hf [(v' & e' & q & -> & Hin)|H]; [|left; right; done].
  rewrite Hf in Hin. apply elem_of_cons in Hin as [[= -> -> <-]|Hin].
  - right. split; [done|]. by exists q.
  - left. left. by exists v', e', q.
Qed.

Lemma covers_retreat f x rest below steps p :
  fr_edges f = x :: rest -> covers (mkFrame (fr_node f) rest :: below) steps p -> covers (f :: below) steps p.
Proof.
  intros Hf [(v' & e' & q & -> & Hin)|H]; [left|by right].
  exists v', e', q. split; [done|]. rewrite Hf. by right.
Qed.

Record walk_inv (st : path_enum) (stack : list frame) : Prop := {
  wi_stack : stack = [] \/ stack_ok stack (pe_steps st);
  wi_on_path : stack <> [] -> pe_on_path st = list_to_set (entry :: targets (pe_steps st));
  wi_found p : p ∈ pe_found st -> attack_path p;
  wi_fresh p : p ∈ pe_found st -> ~ covers stack (pe_steps st) p;
  wi_NoDup : NoDup (pe_found st);
  wi_cap : length (pe_found st) <= cap;
  wi_cover p : attack_path p -> p ∈ pe_found st \/ covers stack (pe_steps st) p;
  wi_trunc : pe_truncated st = false
}.

(** What a finished walk guarantees. *)
Record walk_done (st : path_enum) : Prop := {
  wd_found p : p ∈ pe_found st -> attack_path p;
  wd_NoDup : NoDup (pe_found st);
  wd_cap : length (pe_found st) <= S cap;
  wd_complete p : pe_truncated st = false -> length (pe_found st) <= cap -> attack_path p -> p ∈ pe_found st;
  wd_budget : pe_truncated st = true -> pe_budget st = 0
}.

(** The frame [open_node] makes: every edge of the node, once. *)
Definition frame_of (u : nat) : frame :=
  mkFrame u ((fun r => (er_target r, er_id r, is_movement (e_relation (er_weight r)))) <$>
             sg_edges (inner sg) u).

Lemma frame_of_edges u v e :
  blocked sg entry u = false -> (v, e, true) ∈ fr_edges (frame_of u) <-> GE (u, v, e).
Proof.
  intros Hb. simpl. rewrite list_elem_of_fmap. split.
  - intros (r & [= -> -> Hm] & Hr). split; [done|]. split; [done|]. eauto.
  - intros (_ & _ & r & Hr & <- & <- & Hm). exists r. by rewrite Hm.
Qed.

Lemma frame_of_ok u : blocked sg entry u = false -> u <> objective -> frame_ok (frame_of u).
Proof.
  intros Hb Hu. split; [done|]. split; [done|]. split.
  - simpl. apply NoDup_fmap_2_strong; [|apply sg_edges_NoDup].
    intros r1 r2 H1%edges_ref H2%edges_ref [= _ Hid _]. by eapply ref_id_inj.
  - intros v e. by apply frame_of_edges.
Qed.

Lemma gpath_end_unique p u v : GP p u -> GP p v -> u = v.
Proof.
  destruct 1 as [|p a b f Hp He]; intros Hv; inversion Hv as [Heq|? ? ? ? ? ? Heq]; subst.
  - done.
  - by destruct p.
  - by destruct p.
  - apply app_inj_2 in Heq as [_ [= _ -> _]]; done.
Qed.

(** A longer gated path continues over an edge of the node it stands at. *)
Lemma gpath_app_inv p q v :
  GP (p ++ q) v -> q <> [] -> forall u, GP p u ->
  exists w e q', q = (u, w, e) :: q' /\ GE (u, w, e).
Proof.
  intros H Hq u Hu. destruct q as [|[[u' w] e] q']; [done|].
  assert (forall p v, GP p v -> forall a u' w e b, p = a ++ (u', w, e) :: b -> GP a u' /\ GE (u', w, e)) as Hcut.
  { clear. induction 1 as [|p u v e Hp IH He]; intros a u' w e' b Heq; [by destruct a|].
    destruct b as [|y b] using rev_ind.
    - apply app_inj_2 in Heq as [-> [= -> -> ->]]; [done|done].
    - rewrite app_comm_cons, (assoc_L (++)) in Heq. apply app_inj_2 in Heq as [Heq _]; [|done]. eauto. }
  destruct (Hcut _ _ H p u' w e q' eq_refl) as [Hp He].
  assert (u' = u) as -> by (by eapply gpath_end_unique). by exists w, e, q'.
Qed.

(** A path ends at the last target of any nonempty suffix. *)
Lemma gpath_app_last p q v : GP (p ++ q) v -> q <> [] -> v ∈ targets q.
Proof.
  intros Hg Hq. destruct q as [|y q _] using rev_ind; [done|].
  rewrite (assoc_L (++)) in Hg. inversion Hg as [Hn|? ? ? ? ? ? Heq]; [by destruct (p ++ q)|].
  apply app_inj_2 in Heq as [_ [= <-]]; [|done]. unfold targets. rewrite fmap_app. simpl.
  apply elem_of_app. right. by apply list_elem_of_singleton.
Qed.

(** *** One iteration of the loop *)

(** The enumeration state between iterations differs only in its budget. *)
Definition with_budget (st : path_enum) (b : nat) : path_enum :=
  mkEnum (pe_on_path st) (pe_steps st) (pe_found st) b (pe_truncated st).

Lemma inv_stack st top below :
  walk_inv st (top :: below) ->
  stack_ok (top :: below) (pe_steps st) /\ GP (pe_steps st) (fr_node top) /\
  simple_path entry (pe_steps st) /\ frame_ok top.
Proof.
  intros [[?|Hs] _ _ _ _ _ _ _]; [done|].
  destruct (stack_ok_path _ _ Hs) as (? & ? & [= <- <-] & ? & ? & ?). done.
Qed.

(** Passing over an edge no wanted path uses next. *)
Lemma inv_skip st top below v e b rest budget :
  walk_inv st (top :: below) -> fr_edges top = (v, e, b) :: rest ->
  (forall q, b = true -> attack_path (pe_steps st ++ (fr_node top, v, e) :: q) -> False) ->
  walk_inv (with_budget st budget) (mkFrame (fr_node top) rest :: below).
Proof.
  intros Hinv Hf Hno. destruct (inv_stack _ _ _ Hinv) as (Hs & _).
  destruct Hinv as [_ Hon Hfd Hfr Hnd Hcap Hcov Htr]. split; simpl; try done.
  - right. by eapply stack_ok_advance.
  - intros _. by apply Hon.
  - intros p Hp Hc. apply (Hfr p Hp). by eapply covers_retreat.
  - intros p Hp. destruct (Hcov p Hp) as [?|Hc]; [by left|].
    destruct (covers_advance _ _ _ _ _ _ _ _ Hf Hc) as [?|[-> [q ->]]]; [by right|].
    exfalso. by eapply Hno.
Qed.

Lemma edge_step_simple st top below v e rest :
  walk_inv st (top :: below) -> fr_edges top = (v, e, true) :: rest -> v ∉ pe_on_path st ->
  GE (fr_node top, v, e) /\ v ∉ entry :: targets (pe_steps st) /\ (v, e, true) ∉ rest /\
  GP (pe_steps st ++ [(fr_node top, v, e)]) v.
Proof.
  intros Hinv Hf Hv. destruct (inv_stack _ _ _ Hinv) as (Hs & Hp & _ & (_ & _ & Hnd & He)).
  rewrite (wi_on_path _ _ Hinv), elem_of_list_to_set in Hv by done.
  rewrite Hf in *. assert (GE (fr_node top, v, e)) by (apply He; by left).
  apply NoDup_cons in Hnd as [Hni _]. split; [done|]. split; [done|]. split; [done|]. by constructor.
Qed.

(** Descending into a fresh, open node. *)
Lemma inv_descend st top below v e rest budget :
  walk_inv st (top :: below) -> fr_edges top = (v, e, true) :: rest -> v ∉ pe_on_path st ->
  v <> objective -> blocked sg entry v = false ->
  walk_inv (mkEnum ({[v]} ∪ pe_on_path st) (pe_steps st ++ [(fr_node top, v, e)])
              (pe_found st) budget (pe_truncated st))
    (frame_of v :: mkFrame (fr_node top) rest :: below).
Proof.
  intros Hinv Hf Hv Hobj Hb.
  destruct (edge_step_simple _ _ _ _ _ _ Hinv Hf Hv) as (He & Hv' & Hni & Hgp).
  destruct (inv_stack _ _ _ Hinv) as (Hs & _).
  destruct Hinv as [_ Hon Hfd Hfr Hnd Hcap Hcov Htr].
  split; cbn [pe_on_path pe_steps pe_found pe_budget pe_truncated]; try done.
  - right. apply (so_push (frame_of v) (mkFrame (fr_node top) rest) below (pe_steps st) e); auto.
    + by eapply stack_ok_advance.
    + by apply frame_of_ok.
  - intros _. rewrite Hon by done. unfold targets. rewrite fmap_app. simpl.
    apply set_eq. intros x. rewrite !elem_of_union, !elem_of_list_to_set, elem_of_app. set_solver.
  - intros p Hp Hc. apply (Hfr p Hp). cbn [covers] in Hc. rewrite init_snoc in Hc.
    destruct Hc as [(w & e' & q & -> & _)|Hc].
    + left. exists v, e, ((v, w, e') :: q). rewrite <- (assoc_L (++)). rewrite Hf. split; [done|by left].
    + by eapply covers_retreat.
  - intros p Hp. destruct (Hcov p Hp) as [?|Hc]; [by left|]. right. cbn [covers]. rewrite init_snoc.
    destruct (covers_advance _ _ _ _ _ _ _ _ Hf Hc) as [?|[_ [q ->]]]; [by right|]. left.
    destruct Hp as [Hp _]. rewrite cons_middle, (assoc_L (++)) in Hp.
    destruct q as [|x q].
    + rewrite app_nil_r in Hp. by destruct Hobj; eapply gpath_end_unique.
    + destruct (gpath_app_inv _ _ _ Hp ltac:(done) v Hgp) as (w & e' & q' & [= -> ->] & Hge).
      exists w, e', q'. split; [by rewrite <- (assoc_L (++))|]. by apply frame_of_edges.
Qed.

(** Recording a path on reaching the objective. *)
Lemma record_path st top below v e rest budget :
  walk_inv st (top :: below) -> fr_edges top = (v, e, true) :: rest -> v ∉ pe_on_path st ->
  v = objective ->
  let p := pe_steps st ++ [(fr_node top, v, e)] in
  let st' := mkEnum (pe_on_path st) (pe_steps st) (pe_found st ++ [p]) budget (pe_truncated st) in
  attack_path p /\ NoDup (pe_found st') /\
  (length (pe_found st') <= cap -> walk_inv st' (mkFrame (fr_node top) rest :: below)).
Proof.
  intros Hinv Hf Hv Hobj p st'.
  destruct (edge_step_simple _ _ _ _ _ _ Hinv Hf Hv) as (He & Hv' & Hni & Hgp).
  destruct (inv_stack _ _ _ Hinv) as (Hs & _ & Hsm & _).
  destruct Hinv as [_ Hon Hfd Hfr Hnd Hcap Hcov Htr].
  assert (attack_path p) as Hap.
  { split; [by rewrite <- Hobj|]. by apply simple_path_snoc. }
  assert (p ∉ pe_found st) as Hnew.
  { intros Hp. apply (Hfr p Hp). left. exists v, e, []. split; [done|]. rewrite Hf. by left. }
  split; [done|]. split; [by apply NoDup_snoc|].
  intros Hlen. split; simpl; try done.
  - right. by eapply stack_ok_advance.
  - intros _. by apply Hon.
  - intros q. rewrite elem_of_app, list_elem_of_singleton. intros [Hq| ->]; auto.
  - intros q. rewrite elem_of_app, list_elem_of_singleton. intros [Hq| ->] Hc.
    + apply (Hfr q Hq). by eapply covers_retreat.
    + destruct Hc as [(v' & e' & q' & Hq & Hin)|Hc].
      * apply app_inv_head in Hq. injection Hq as <- <- _. done.
      * by eapply covers_below.
  - by apply NoDup_snoc.
  - intros q Hq. rewrite elem_of_app, list_elem_of_singleton.
    destruct (Hcov q Hq) as [?|Hc]; [tauto|].
    destruct (covers_advance _ _ _ _ _ _ _ _ Hf Hc) as [?|[_ [q' ->]]]; [by right|]. left. right.
    destruct q' as [|x q']; [done|]. exfalso.
    destruct Hq as [Hg Hsq]. rewrite cons_middle, (assoc_L (++)) in Hg, Hsq.
    unfold simple_path in Hsq. rewrite fmap_app, app_comm_cons, NoDup_app in Hsq.
    destruct Hsq as (_ & Hdis & _). apply (Hdis v).
    + right. rewrite fmap_app. simpl. apply elem_of_app. right. by apply list_elem_of_singleton.
    + rewrite Hobj. by eapply (gpath_app_last _ (x :: q')).
Qed.

(** Leaving an exhausted frame. *)
Lemma inv_pop st top f below :
  walk_inv st (top :: f :: below) -> fr_edges top = [] ->
  walk_inv (mkEnum (pe_on_path st ∖ {[fr_node top]}) (init (pe_steps st)) (pe_found st)
              (pe_budget st) (pe_truncated st)) (f :: below).
Proof.
  intros Hinv Hf. destruct (inv_stack _ _ _ Hinv) as (Hs & _).
  destruct Hinv as [_ Hon Hfd Hfr Hnd Hcap Hcov Htr].
  assert (exists s e, pe_steps st = s ++ [(fr_node f, fr_node top, e)] /\ stack_ok (f :: below) s /\
            fr_node top ∉ entry :: targets s) as (s & e & Heq & Hs' & Hn).
  { inversion Hs; subst. eauto. }
  split; cbn [pe_on_path pe_steps pe_found pe_budget pe_truncated]; try done.
  - right. by rewrite Heq, init_snoc.
  - intros _. rewrite Hon by done. rewrite Heq, init_snoc.
    unfold targets in *. rewrite fmap_app, app_comm_cons. simpl.
    apply set_eq. intros x.
    rewrite elem_of_difference, !elem_of_union, !elem_of_list_to_set, elem_of_app, !elem_of_singleton,
      list_elem_of_singleton. rewrite elem_of_cons in Hn. naive_solver.
  - intros p Hp Hc. apply (Hfr p Hp). by right.
  - intros p Hp. destruct (Hcov p Hp) as [?|[(v & e' & q & _ & Hin)|Hc]]; [by left| |by right].
    rewrite Hf in Hin. by apply not_elem_of_nil in Hin.
Qed.

Lemma inv_done st stack :
  walk_inv st stack -> stack = [] \/ pe_truncated st = true ->
  walk_done st.
Proof.
  intros [_ _ Hfd Hfr Hnd Hcap Hcov Htr] Hst. split; [done|done|lia| |congruence].
  intros p _ _ Hp. destruct Hst as [->|?]; [|congruence]. by destruct (Hcov p Hp).
Qed.

Lemma inv_exhausted st stack :
  walk_inv st stack -> walk_done (mkEnum (pe_on_path st) (pe_steps st) (pe_found st) 0 true).
Proof. intros [_ _ Hfd Hfr Hnd Hcap Hcov Htr]. split; simpl; try done. lia. Qed.

Definition walk_measure (st : path_enum) (stack : list frame) : nat :=
  2 * pe_budget st + length stack.

(** An iteration keeps the invariant and gets closer to the end, or returns. *)
Lemma walk_step_inv st top below :
  walk_inv st (top :: below) ->
  match walk_step sg entry objective cap st top below with
  | inl (st', stack') => walk_inv st' stack' /\ walk_measure st' stack' < walk_measure st (top :: below)
  | inr st' => walk_done st'
  end.
Proof.
  intros Hinv. pose proof (wi_cap _ _ Hinv) as Hcap. unfold walk_step, walk_measure.
  destruct (fr_edges top) as [|[[v e] b] rest] eqn:Hf.
  { destruct below as [|f below].
    - split; [|simpl; lia]. destruct Hinv as [_ Hon Hfd Hfr Hnd Hc Hcov Htr].
      split; try done; [by left|naive_solver|]. intros p Hp.
      destruct (Hcov p Hp) as [?|[(v & e' & q & _ & Hin)|?]]; [by left| |by right].
      rewrite Hf in Hin. by apply not_elem_of_nil in Hin.
    - simpl. rewrite bool_decide_eq_false_2 by lia. split; [|simpl; lia]. by apply inv_pop. }
  destruct (pe_budget st) as [|bud] eqn:Hbud; [by eapply inv_exhausted|].
  destruct b; simpl.
  2: { split; [|simpl; lia]. eapply (inv_skip _ _ _ _ _ _ _ bud); [done|done|done]. }
  case_bool_decide as Hon.
  { split; [|simpl; lia]. eapply (inv_skip _ _ _ _ _ _ _ bud); [done|done|].
    intros q _ [_ Hsm]. rewrite (wi_on_path _ _ Hinv), elem_of_list_to_set in Hon by done.
    unfold simple_path in Hsm. rewrite fmap_app, app_comm_cons, NoDup_app in Hsm.
    destruct Hsm as (_ & Hd & _). apply (Hd v Hon). by left. }
  unfold open_node. simpl. rewrite bool_decide_eq_false_2 by lia.
  assert (({[v]} ∪ pe_on_path st) ∖ {[v]} = pe_on_path st) as Hset by set_solver.
  case_bool_decide as Hobj.
  { simpl. rewrite Hset, init_snoc.
    destruct (record_path st top below v e rest bud Hinv Hf Hon Hobj) as (Hap & Hnd & Hrec).
    case_bool_decide as Hlen.
    - split; simpl.
      + intros p. rewrite elem_of_app, list_elem_of_singleton. intros [Hq| ->]; [by eapply wi_found|done].
      + done.
      + rewrite length_app. simpl. lia.
      + intros p _ Hle. lia.
      + rewrite (wi_trunc _ _ Hinv). done.
    - split; [|simpl; lia]. apply Hrec. simpl. lia. }
  fold (blocked sg entry v). destruct (blocked sg entry v) eqn:Hb; simpl.
  - rewrite Hset, init_snoc, bool_decide_eq_false_2 by lia. split; [|simpl; lia].
    eapply (inv_skip _ _ _ _ _ _ _ bud); [done|done|]. intros q _ [Hg _].
    destruct (edge_step_simple _ _ _ _ _ _ Hinv Hf Hon) as (_ & _ & _ & Hgp).
    rewrite cons_middle, (assoc_L (++)) in Hg. destruct q as [|x q].
    + rewrite app_nil_r in Hg. by destruct Hobj; eapply gpath_end_unique.
    + destruct (gpath_app_inv _ _ _ Hg ltac:(done) v Hgp) as (w & e' & q' & _ & Hge).
      destruct Hge as [Hb' _]. congruence.
  - split; [|simpl; lia]. by apply inv_descend.
Qed.

Lemma walk_loop_spec fuel st stack :
  walk_inv st stack -> walk_measure st stack <= fuel ->
  exists st', walk_loop fuel sg entry objective cap st stack = Some st' /\ walk_done st'.
Proof.
  revert st stack. induction fuel as [|fuel IH]; intros st [|top below] Hinv Hm; simpl.
  - exists st. split; [done|]. eapply inv_done; [done|by left].
  - unfold walk_measure in Hm. simpl in Hm. lia.
  - exists st. split; [done|]. eapply inv_done; [done|by left].
  - pose proof (walk_step_inv st top below Hinv) as Hstep.
    destruct (walk_step _ _ _ _ _ _ _) as [[st' stack']|st']; [|eauto].
    destruct Hstep as [Hinv' Hlt]. apply IH; [done|lia].
Qed.

End Walk.

(** ** The enumeration as a whole *)

Section Enumeration.
Context {G : Type} `{SGL : StableGraphLaws G Node Edge}.
Implicit Types sg : SecurityGraph G.

(** The walk from the entry returns, with everything it guarantees. *)
Lemma walk_spec sg budget entry objective cap :
  exists st, walk sg entry objective cap (mkEnum {[entry]} [] [] budget false) = Some st /\
    walk_done sg entry objective cap st.
Proof.
  unfold walk, open_node. simpl.
  assert (simple_path entry []) as Hnil by apply NoDup_singleton.
  case_bool_decide as Hobj.
  { subst objective. eexists. split; [done|]. split; simpl.
    - intros p ->%list_elem_of_singleton. split; [constructor|done].
    - apply NoDup_singleton.
    - lia.
    - intros p _ _ [Hp Hsm]. apply list_elem_of_singleton. destruct p as [|x p]; [done|exfalso].
      apply (gpath_app_last _ _ []) in Hp; [|done]. by inversion Hsm.
    - done. }
  rewrite bool_decide_eq_true_2 by done. rewrite andb_false_r. simpl.
  assert (blocked sg entry entry = false) as Hb.
  { unfold blocked. rewrite bool_decide_eq_true_2 by done. by rewrite andb_false_r. }
  apply walk_loop_spec; [|unfold walk_measure, walk_fuel; cbn [pe_budget length]; lia].
  split; simpl; try done; try lia.
  - right. apply (so_root _ _ _ (frame_of sg entry)); [done|]. by apply frame_of_ok.
  - intros _. set_solver.
  - by intros p ?%not_elem_of_nil.
  - by intros p ?%not_elem_of_nil.
  - constructor.
  - intros p [Hp Hsm]. right. left. destruct p as [|x p].
    + inversion Hp as [|? ? ? ? ? ? Heq]; [done|]. by destruct p.
    + destruct (gpath_app_inv _ _ [] _ _ Hp ltac:(done) entry (gpath_nil _ _ _)) as (w & e & q & -> & He).
      exists w, e, q. split; [done|]. by apply (frame_of_edges sg entry entry w e).
Qed.

(** Truncating a sorted, duplicate-free list drops some element. *)
Lemma take_drops {A} `{EqDecision A} (l : list A) n :
  NoDup l -> n < length l -> exists x, x ∈ l /\ x ∉ take n l.
Proof.
  intros Hnd Hn. destruct (lookup_lt_is_Some_2 l n Hn) as [x Hx]. exists x.
  split; [by eapply list_elem_of_lookup_2|]. intros (i & Hi)%list_elem_of_lookup.
  apply lookup_take_Some in Hi as [Hi Hlt]. pose proof (NoDup_lookup l i n x Hnd Hi Hx). lia.
Qed.

Lemma proven_paths_spec sg budget entry objective cap :
  exists paths truncated st,
    walk sg entry objective cap (mkEnum {[entry]} [] [] budget false) = Some st /\
    proven_paths_budget sg budget entry objective cap = Some (paths, truncated) /\
    (forall p, p ∈ paths -> gpath sg entry None p objective /\ simple_path entry p) /\
    NoDup paths /\ length paths <= cap /\
    StronglySorted (fun a b => path_leb a b = true /\ length a <= length b) paths /\
    (truncated = false ->
     forall p, gpath sg entry None p objective -> simple_path entry p -> p ∈ paths) /\
    (truncated = true ->
     pe_budget st = 0 \/
     exists p, gpath sg entry None p objective /\ simple_path entry p /\ p ∉ paths).
Proof.
  destruct (walk_spec sg budget entry objective cap) as (st & Hst & [Hfd Hnd Hcap Hcomp Hbud]).
  unfold proven_paths_budget. rewrite Hst. simpl.
  set (found := sort_by path_leb (pe_found st)).
  assert (NoDup found) as Hnd' by (unfold found; by rewrite sort_by_perm).
  assert (forall p, p ∈ found <-> p ∈ pe_found st) as Hin by (intros; apply elem_of_sort_by).
  assert (length found = length (pe_found st)) as Hlen by apply length_sort_by.
  assert (StronglySorted (fun a b => path_leb a b = true /\ length a <= length b) found) as Hsort.
  { eapply ssorted_impl; [apply sort_by_sorted; eauto using path_leb_total, path_leb_trans|].
    simpl. eauto using path_leb_length. }
  case_bool_decide as Hc; eexists _, _, st; (split; [done|]); (split; [done|]).
  - destruct (take_drops found cap Hnd' Hc) as (x & Hx & Hdrop).
    split; [|split; [|split; [|split; [|split; [done|]]]]].
    + intros p (i & Hi & _)%elem_of_take. apply Hfd, Hin. by eapply list_elem_of_lookup_2.
    + eapply sublist_NoDup; [exact Hnd'|apply sublist_take].
    + rewrite length_take. lia.
    + rewrite <- (take_drop cap found) in Hsort. by apply StronglySorted_app_1_l in Hsort.
    + intros _. right. exists x. apply Hin, Hfd in Hx as [? ?]. done.
  - split; [|split; [done|split; [lia|split; [done|split]]]].
    + intros p Hp. apply Hfd, Hin, Hp.
    + intros Ht p Hp Hs. apply Hin, Hcomp; [done|lia|by split].
    + intros Ht. left. auto.
Qed.

(** The path enumeration always returns (whatever the graph's depth or
    breadth), and what it returns are distinct gated simple paths to the
    objective, at most [cap] of them, shortest first; when it does not report
    truncation it has found every such path, and it reports truncation only
    when a path is missing or the relaxation budget ran out. *)
Theorem proven_paths_correct sg budget entry objective cap :
  exists paths truncated st,
    walk sg entry objective cap (mkEnum {[entry]} [] [] budget false) = Some st /\
    proven_paths_budget sg budget entry objective cap = Some (paths, truncated) /\
    (forall p, p ∈ paths -> gpath sg entry None p objective /\ simple_path entry p) /\
    NoDup paths /\ length paths <= cap /\
    StronglySorted (fun a b => path_leb a b = true /\ length a <= length b) paths /\
    (truncated = false ->
     forall p, gpath sg entry None p objective -> simple_path entry p -> p ∈ paths) /\
    (truncated = true ->
     pe_budget st = 0 \/
     exists p, gpath sg entry None p objective /\ simple_path entry p /\ p ∉ paths).
Proof. apply proven_paths_spec. Qed.

(** Every step of a gated path is a gated edge, and its prefixes are paths. *)
Lemma gpath_step sg entry ex p v s : gpath sg entry ex p v -> s ∈ p -> gedge sg entry ex s.
Proof.
  induction 1 as [|p u v e Hp IH He]; [by intros ?%not_elem_of_nil|].
  rewrite elem_of_app, list_elem_of_singleton. intros [?| ->]; auto.
Qed.

Lemma gpath_node sg entry ex p v n :
  gpath sg entry ex p v -> n ∈ entry :: targets p ->
  exists q r, p = q ++ r /\ gpath sg entry ex q n.
Proof.
  induction 1 as [|p u v e Hp IH He].
  - intros ->%list_elem_of_singleton. exists [], []. split; [done|constructor].
  - rewrite targets_snoc, app_comm_cons, elem_of_app, list_elem_of_singleton. intros [Hn| ->].
    + destruct (IH Hn) as (q & r & -> & Hq). exists q, (r ++ [(u, v, e)]). by rewrite (assoc_L (++)).
    + exists (p ++ [(u, v, e)]), []. rewrite app_nil_r. split; [done|]. by constructor.
Qed.

(** A path that visits a node twice can be shortened, so shortest paths are
    simple. *)
Lemma gpath_shorten sg entry ex p v :
  gpath sg entry ex p v -> simple_path entry p \/
  exists q, gpath sg entry ex q v /\ length q < length p.
Proof.
  induction 1 as [|p u v e Hp IH He]; [left; apply NoDup_singleton|].
  destruct (decide (v ∈ entry :: targets p)) as [Hv|Hv].
  - right. destruct (gpath_node _ _ _ _ _ _ Hp Hv) as (q & r & -> & Hq).
    exists q. split; [done|]. rewrite !length_app. simpl. lia.
  - destruct IH as [Hs|(q & Hq & Hlen)].
    + left. by apply simple_path_snoc.
    + right. exists (q ++ [(u, v, e)]). split; [by constructor|]. rewrite !length_app. simpl. lia.
Qed.

Lemma shortest_simple sg entry ex p v :
  gpath sg entry ex p v -> (forall q, gpath sg entry ex q v -> length p <= length q) ->
  simple_path entry p.
Proof.
  intros Hp Hmin. destruct (gpath_shorten _ _ _ _ _ Hp) as [?|(q & Hq & Hlt)]; [done|].
  apply Hmin in Hq. lia.
Qed.

End Enumeration.

Lemma proven_paths_correct_witness :
  exists paths truncated,
    proven_paths_budget two_paths 50 0 3 6 = Some (paths, truncated) /\
    length paths = 2 /\ NoDup paths /\
    (forall p, p ∈ paths -> gpath two_paths 0 None p 3 /\ simple_path 0 p).
Proof.
  destruct (proven_paths_correct two_paths 50 0 3 6) as (paths & tr & st & _ & H & Hs & Hnd & _).
  exists paths, tr. split; [exact H|]. split; [|split; [exact Hnd|exact Hs]].
  assert ((fun x => length x.1) <$> proven_paths_budget two_paths 50 0 3 6 = Some 2) as Hl
    by (vm_compute; reflexivity).
  rewrite H in Hl. injection Hl as Hl. exact Hl.
Defined.
