(* ===== verification/Objective.v ===== *)
(** * Objectives (engine/src/engine/reason/objective.rs)

    The adversary goals a proven chain ends in: each recognizer scans the graph
    and marks the nodes that are goals of one technique class. *)

From S2P Require Import Prelude Text PetGraph Attack Behavior Graph.

Record Objective := mkObjective { ob_node : NodeKey; ob_attack : AttackRef }.

Section Recognizers.
Context {G : Type} `{SG : !StableGraph G Node Edge}.
Implicit Types sg : SecurityGraph G.

(** The trait: what a recognizer does with a graph. *)
Definition ObjectiveRecognizer := SecurityGraph G -> list Objective.

(** Mark the nodes [attack_of] tags, with the tag. *)
Definition recognize_by (attack_of : Node -> option AttackRef) : ObjectiveRecognizer := fun sg =>
  omap (fun n => a ← attack_of n; Some (mkObjective (node_key n) a)) (sg_node_weights (inner sg)).

Definition SecretObjective : ObjectiveRecognizer :=
  recognize_by (fun n => match n with NSecret _ => Some CREDENTIAL_ACCESS | _ => None end).

Definition HostObjective : ObjectiveRecognizer :=
  recognize_by (fun n => match n with NHost _ => Some ESCAPE_TO_HOST | _ => None end).

Definition CapabilityObjective : ObjectiveRecognizer :=
  recognize_by (fun n => match n with
    | NCapability c => capability_technique (c_verb c) (c_resource c)
    | _ => None
    end).

Definition ExfiltrationObjective : ObjectiveRecognizer :=
  recognize_by (fun n => match n with
    | NEndpoint e => if bool_decide (ep_address e = "internet") then Some EXFILTRATION else None
    | _ => None
    end).

Definition DataStoreObjective : ObjectiveRecognizer :=
  recognize_by (fun n => match n with
    | NWorkload w => if w_persistent w then Some DATA_FROM_REPOSITORY else None
    | _ => None
    end).

Definition default_recognizers : list ObjectiveRecognizer :=
  [SecretObjective; HostObjective; CapabilityObjective; ExfiltrationObjective; DataStoreObjective].

End Recognizers.

(** The technique a node is a goal of, if it is one: the default recognizers
    taken together. *)
Definition objective_technique (n : Node) : option AttackRef :=
  match n with
  | NSecret _ => Some CREDENTIAL_ACCESS
  | NHost _ => Some ESCAPE_TO_HOST
  | NCapability c => capability_technique (c_verb c) (c_resource c)
  | NEndpoint e => if bool_decide (ep_address e = "internet") then Some EXFILTRATION else None
  | NWorkload w => if w_persistent w then Some DATA_FROM_REPOSITORY else None
  | NIdentity _ | NImage _ => None
  end.

Section RecognizerLemmas.
Context {G : Type} `{SGL : StableGraphLaws G Node Edge}.

Lemma recognize_by_elem attack_of (sg : SecurityGraph G) o :
  o ∈ recognize_by attack_of sg <->
  exists i n, sg_node_weight (inner sg) i = Some n /\ attack_of n = Some (ob_attack o) /\
    ob_node o = node_key n.
Proof.
  unfold recognize_by. rewrite list_elem_of_omap. split.
  - intros (n & Hn & Ho). apply sg_weights_spec in Hn as [i Hi].
    destruct (attack_of n) eqn:E; simplify_eq/=. eauto.
  - intros (i & n & Hi & Ha & Hk). exists n. split; [apply sg_weights_spec; eauto|].
    rewrite Ha. destruct o; simplify_eq/=. done.
Qed.

(** The registry marks each node at most by the technique its kind realizes. *)
Lemma default_recognizers_elem (sg : SecurityGraph G) o :
  o ∈ concat ((fun r => r sg) <$> default_recognizers) <->
  exists i n, sg_node_weight (inner sg) i = Some n /\ objective_technique n = Some (ob_attack o) /\
    ob_node o = node_key n.
Proof.
  unfold default_recognizers, SecretObjective, HostObjective, CapabilityObjective,
    ExfiltrationObjective, DataStoreObjective. cbn [fmap list_fmap concat].
  rewrite !elem_of_app, !recognize_by_elem. split.
  - intros [H|[H|[H|[H|[H|H]]]]]; [..|by apply not_elem_of_nil in H];
      destruct H as (i & n & Hi & Ha & Hk); exists i, n; (split; [done|]); by destruct n.
  - intros (i & n & Hi & Ha & Hk). destruct n; try done.
    + do 4 right. left. exact (ex_intro _ i (ex_intro _ _ (conj Hi (conj Ha Hk)))).
    + left. exact (ex_intro _ i (ex_intro _ _ (conj Hi (conj Ha Hk)))).
    + do 3 right. left. exact (ex_intro _ i (ex_intro _ _ (conj Hi (conj Ha Hk)))).
    + do 1 right. left. exact (ex_intro _ i (ex_intro _ _ (conj Hi (conj Ha Hk)))).
    + do 2 right. left. exact (ex_intro _ i (ex_intro _ _ (conj Hi (conj Ha Hk)))).
Qed.

End RecognizerLemmas.
