(* ===== verification/Corroborate.v ===== *)
(** * Corroboration (engine/src/engine/reason/proof/corroborate.rs)

    Whether a live runtime signal on the entry evidences a proven chain: the
    context-free relation on one behavior and one technique, and the shapes
    scoped to a proven internet-facing foothold. *)

From S2P Require Import Prelude Text PetGraph Attack Behavior Classify Graph.

Record EntryContext := mkCtx { source_ns : string; is_foothold : bool }.

Definition corroborates (behavior : Behavior) (attack : AttackRef) : bool :=
  match behavior with
  | Alert _ => true
  | NetworkConnection _ internet =>
      (internet && bool_decide (tactic attack = Exfiltration)) ||
      (bool_decide (tactic attack = InitialAccess) &&
       bool_decide (is_Some (PeerClass.foothold_peer behavior)))
  | SecretRead _ source =>
      bool_decide (tactic attack = CredentialAccess) && negb (bool_decide (source = HostPath))
  | LibraryLoaded _ => bool_decide (tactic attack = InitialAccess)
  | FileRead _ => false
  | ProcessExec _ _ => false
  | PrivilegeChange _ _ => false
  | FileWrite _ => bool_decide (is_Some (AlarmClass.alarming_write behavior))
  | ImageLinkage _ => false
  | PtraceAttach => false
  | ModuleLoad => false
  end.

Definition cross_tenant_lateral (runtime : list RuntimeSignal) (entry : EntryContext) : bool :=
  if negb (is_foothold entry) then false
  else existsb (fun s => match rs_behavior s with
         | NetworkConnection peer _ => PeerClass.is_cross_tenant (source_ns entry) peer
         | _ => false
         end) runtime.

(** Durations are nanoseconds. *)
Definition secs (n : Z) : Z := n * 1000000000.
Definition DROP_EXEC_WINDOW : Z := secs 300.
Definition REVERSE_SHELL_WINDOW : Z := secs 60.

(** [SystemTime::duration_since]: an error when the argument is later. *)
Definition duration_since (self earlier : SystemTime) : option Z :=
  if bool_decide (earlier <= self)%Z then Some (self - earlier)%Z else None.

Definition observed_at (s : RuntimeSignal) : SystemTime := pv_observed_at (rs_provenance s).

Definition drop_then_execute (runtime : list RuntimeSignal) (entry : EntryContext) : bool :=
  if negb (is_foothold entry) then false
  else existsb (fun exec => match rs_behavior exec with
         | ProcessExec exec_path _ =>
             existsb (fun write => match rs_behavior write with
               | FileWrite write_path =>
                   bool_decide (write_path = exec_path) &&
                   match duration_since (observed_at exec) (observed_at write) with
                   | Some elapsed => bool_decide (elapsed <= DROP_EXEC_WINDOW)%Z
                   | None => false
                   end
               | _ => false
               end) runtime
         | _ => false
         end) runtime.

Definition privilege_escalation_on_foothold (runtime : list RuntimeSignal) (attack : AttackRef)
    (entry : EntryContext) : bool :=
  if negb (is_foothold entry) || negb (bool_decide (tactic attack = PrivilegeEscalation)) then false
  else existsb (fun s => match rs_behavior s with
         | PrivilegeChange from_uid to_uid => negb (from_uid =? 0)%N && (to_uid =? 0)%N
         | _ => false
         end) runtime.

Definition host_credential_read_on_foothold (runtime : list RuntimeSignal) (attack : AttackRef)
    (entry : EntryContext) : bool :=
  if negb (is_foothold entry) || negb (bool_decide (tactic attack = CredentialAccess)) then false
  else existsb (fun s => match rs_behavior s with
         | SecretRead _ source => bool_decide (source = HostPath)
         | _ => false
         end) runtime.

Definition anon_inode_exec_on_foothold (runtime : list RuntimeSignal) (attack : AttackRef)
    (entry : EntryContext) : bool :=
  if negb (is_foothold entry) || negb (bool_decide (tactic attack = Execution)) then false
  else existsb (fun s => match rs_behavior s with
         | ProcessExec _ exe_anon_inode => exe_anon_inode
         | _ => false
         end) runtime.

Definition ptrace_attach_on_foothold (runtime : list RuntimeSignal) (attack : AttackRef)
    (entry : EntryContext) : bool :=
  if negb (is_foothold entry) || negb (bool_decide (tactic attack = PrivilegeEscalation)) then false
  else existsb (fun s => match rs_behavior s with PtraceAttach => true | _ => false end) runtime.

Definition module_load_on_foothold (runtime : list RuntimeSignal) (attack : AttackRef)
    (entry : EntryContext) : bool :=
  if negb (is_foothold entry) || negb (bool_decide (tactic attack = PrivilegeEscalation)) then false
  else existsb (fun s => match rs_behavior s with ModuleLoad => true | _ => false end) runtime.

(** [Result::or_else]: the gap whichever signal came first. *)
Definition gap (a b : SystemTime) : option Z :=
  match duration_since a b with Some d => Some d | None => duration_since b a end.

Definition reverse_shell_on_foothold (runtime : list RuntimeSignal) (entry : EntryContext) : bool :=
  if negb (is_foothold entry) then false
  else
    let shells :=
      observed_at <$> List.filter (fun s => ExecClass.is_interactive_shell (rs_behavior s)) runtime in
    match shells with
    | [] => false
    | _ =>
        existsb (fun s => match rs_behavior s with
          | NetworkConnection _ true =>
              existsb (fun shell_at =>
                match gap (observed_at s) shell_at with
                | Some g => bool_decide (g <= REVERSE_SHELL_WINDOW)%Z
                | None => false
                end) shells
          | _ => false
          end) runtime
    end.

Definition corroborated_for (runtime : list RuntimeSignal) (attack : AttackRef)
    (foothold : option AttackRef) (entry : EntryContext) : bool :=
  existsb (fun s =>
    corroborates (rs_behavior s) attack ||
    match foothold with Some f => corroborates (rs_behavior s) f | None => false end) runtime
  || cross_tenant_lateral runtime entry
  || privilege_escalation_on_foothold runtime attack entry
  || drop_then_execute runtime entry
  || host_credential_read_on_foothold runtime attack entry
  || anon_inode_exec_on_foothold runtime attack entry
  || ptrace_attach_on_foothold runtime attack entry
  || module_load_on_foothold runtime attack entry
  || reverse_shell_on_foothold runtime entry.

Section Entry.
Context {G : Type} `{SG : !StableGraph G Node Edge}.

Definition entry_runtime (sg : SecurityGraph G) (entry : nat) : list RuntimeSignal :=
  match sg_node_weight (inner sg) entry with
  | Some (NWorkload w) => w_runtime w
  | _ => []
  end.

Definition entry_namespace (sg : SecurityGraph G) (entry : nat) : string :=
  match sg_node_weight (inner sg) entry with
  | Some (NWorkload w) => w_namespace w
  | _ => ""
  end.

End Entry.

(** ** What corroborates, as propositions *)

Implicit Types (runtime : list RuntimeSignal) (ctx : EntryContext).

(** A signal of the entry with behavior [b] at time [t]. *)
Definition signal_at runtime (b : Behavior) (t : SystemTime) : Prop :=
  exists s, s ∈ runtime /\ rs_behavior s = b /\ observed_at s = t.

Definition observed runtime (b : Behavior) : Prop := exists t, signal_at runtime b t.

(** The eight shapes a proven foothold adds to the flat relation. *)
Inductive foothold_shape runtime (attack : AttackRef) (ns : string) : Prop :=
  | shape_lateral peer i pns :
      observed runtime (NetworkConnection peer i) ->
      PeerClass.resolved_peer_namespace peer = Some pns -> pns <> "" -> pns <> ns ->
      foothold_shape runtime attack ns
  | shape_privesc u :
      observed runtime (PrivilegeChange u 0) -> u <> 0%N -> tactic attack = PrivilegeEscalation ->
      foothold_shape runtime attack ns
  | shape_drop_exec p a tw te :
      signal_at runtime (FileWrite p) tw -> signal_at runtime (ProcessExec p a) te ->
      (tw <= te <= tw + secs 300)%Z -> foothold_shape runtime attack ns
  | shape_host_credential s :
      observed runtime (SecretRead s HostPath) -> tactic attack = CredentialAccess ->
      foothold_shape runtime attack ns
  | shape_anon_inode p :
      observed runtime (ProcessExec p true) -> tactic attack = Execution ->
      foothold_shape runtime attack ns
  | shape_ptrace :
      observed runtime PtraceAttach -> tactic attack = PrivilegeEscalation ->
      foothold_shape runtime attack ns
  | shape_module_load :
      observed runtime ModuleLoad -> tactic attack = PrivilegeEscalation ->
      foothold_shape runtime attack ns
  | shape_reverse_shell p a peer ts tc :
      signal_at runtime (ProcessExec p a) ts -> basename p ∈ ExecClass.INTERACTIVE_SHELLS ->
      signal_at runtime (NetworkConnection peer true) tc ->
      (Z.abs (ts - tc) <= secs 60)%Z -> foothold_shape runtime attack ns.

Lemma existsb_signal runtime (f : Behavior -> bool) :
  existsb (fun s => f (rs_behavior s)) runtime = true <-> exists b, observed runtime b /\ f b = true.
Proof.
  rewrite existsb_elem. unfold observed, signal_at. split; [intros (s & ? & ?)|intros (b & (t & s & ? & <- & ?) & ?)]; eauto 10.
Qed.

Lemma gap_spec a b w : match gap a b with Some g => bool_decide (g <= w)%Z | None => false end = true <->
  (Z.abs (a - b) <= w)%Z.
Proof.
  unfold gap, duration_since. repeat case_bool_decide; lia.
Qed.

Lemma duration_within a b w :
  match duration_since a b with Some g => bool_decide (g <= w)%Z | None => false end = true <->
  (b <= a <= b + w)%Z.
Proof. unfold duration_since. repeat case_bool_decide; lia. Qed.

Lemma cross_tenant_lateral_spec runtime ctx :
  cross_tenant_lateral runtime ctx = true <->
  is_foothold ctx = true /\ exists peer i pns, observed runtime (NetworkConnection peer i) /\
    PeerClass.resolved_peer_namespace peer = Some pns /\ pns <> "" /\ pns <> source_ns ctx.
Proof.
  unfold cross_tenant_lateral. destruct (is_foothold ctx); simpl; [|naive_solver].
  rewrite (existsb_signal _ (fun b => match b with NetworkConnection peer _ => _ | _ => _ end)).
  split.
  - intros ([| peer i| | | | | | | | |] & Ho & Hb); try done. apply is_cross_tenant_spec in Hb. naive_solver.
  - intros [_ (peer & i & pns & Ho & Hr & Hn & Hs)]. exists (NetworkConnection peer i). split; [done|].
    apply is_cross_tenant_spec. eauto.
Qed.

Lemma drop_then_execute_spec runtime ctx :
  drop_then_execute runtime ctx = true <->
  is_foothold ctx = true /\ exists p a tw te,
    signal_at runtime (FileWrite p) tw /\ signal_at runtime (ProcessExec p a) te /\
    (tw <= te <= tw + secs 300)%Z.
Proof.
  unfold drop_then_execute. destruct (is_foothold ctx); simpl; [|naive_solver].
  rewrite existsb_elem. split.
  - intros (e & He & Hb). destruct (rs_behavior e) as [| | | | | |p a| | | |] eqn:Ee; try done.
    apply existsb_elem in Hb as (w & Hw & Hb). destruct (rs_behavior w) as [| | | | | | |q| | |] eqn:Ew; try done.
    apply andb_true_iff in Hb as [Hp Hd]. apply bool_decide_eq_true in Hp as ->.
    apply duration_within in Hd. split; [done|]. exists p, a, (observed_at w), (observed_at e).
    unfold signal_at. eauto 10.
  - intros [_ (p & a & tw & te & (w & Hw & Ew & <-) & (e & He & Ee & <-) & Ht)].
    exists e. split; [done|]. rewrite Ee. apply existsb_elem. exists w. split; [done|].
    rewrite Ew, bool_decide_eq_true_2 by done. simpl. by apply duration_within.
Qed.

Lemma reverse_shell_spec runtime ctx :
  reverse_shell_on_foothold runtime ctx = true <->
  is_foothold ctx = true /\ exists p a peer ts tc,
    signal_at runtime (ProcessExec p a) ts /\ basename p ∈ ExecClass.INTERACTIVE_SHELLS /\
    signal_at runtime (NetworkConnection peer true) tc /\ (Z.abs (ts - tc) <= secs 60)%Z.
Proof.
  unfold reverse_shell_on_foothold. destruct (is_foothold ctx); simpl; [|naive_solver].
  set (shells := _ <$> _).
  assert (forall t, t ∈ shells <-> exists p a, signal_at runtime (ProcessExec p a) t /\
            basename p ∈ ExecClass.INTERACTIVE_SHELLS) as Hsh.
  { intros t. unfold shells. rewrite list_elem_of_fmap. split.
    - intros (s & -> & [Hs Hin]%elem_of_filter_b).
      destruct (rs_behavior s) as [| | | | | |p a| | | |] eqn:E; try done.
      apply bool_decide_eq_true in Hs. exists p, a. split; [|done]. by exists s.
    - intros (p & a & (s & Hs & E & <-) & Hp). exists s. split; [done|].
      apply elem_of_filter_b. split; [|done]. rewrite E. by apply bool_decide_eq_true. }
  assert (match shells with [] => false | _ =>
      existsb (fun s => match rs_behavior s with
        | NetworkConnection _ true => existsb (fun shell_at =>
            match gap (observed_at s) shell_at with
            | Some g => bool_decide (g <= REVERSE_SHELL_WINDOW)%Z | None => false end) shells
        | _ => false end) runtime end = true <->
    exists s peer t, s ∈ runtime /\ rs_behavior s = NetworkConnection peer true /\ t ∈ shells /\
      (Z.abs (observed_at s - t) <= secs 60)%Z) as ->.
  { destruct shells as [|t0 shells'] eqn:E.
    - split; [done|]. intros (? & ? & ? & ? & ? & H & _). by apply not_elem_of_nil in H.
    - rewrite <- E in *. rewrite existsb_elem. split.
      + intros (s & Hs & Hb). destruct (rs_behavior s) as [|peer []| | | | | | | | |] eqn:Es; try done.
        apply existsb_elem in Hb as (t & Ht & Hg). apply gap_spec in Hg. eauto 10.
      + intros (s & peer & t & Hs & Es & Ht & Hg). exists s. split; [done|]. rewrite Es.
        apply existsb_elem. exists t. split; [done|]. by apply gap_spec. }
  split.
  - intros (s & peer & t & Hs & Es & (p & a & Hp & Hb)%Hsh & Hg). split; [done|].
    exists p, a, peer, t, (observed_at s). split; [done|]. split; [done|].
    split; [by exists s|lia].
  - intros [_ (p & a & peer & ts & tc & Hp & Hb & (s & Hs & Es & <-) & Hg)].
    exists s, peer, ts. split; [done|]. split; [done|]. split; [apply Hsh; eauto|lia].
Qed.

(** The shapes that ask for one behavior and one tactic. *)
Lemma tactic_shape_spec runtime attack ctx t (f : Behavior -> bool) :
  (if negb (is_foothold ctx) || negb (bool_decide (tactic attack = t)) then false
   else existsb (fun s => f (rs_behavior s)) runtime) = true <->
  is_foothold ctx = true /\ tactic attack = t /\ exists b, observed runtime b /\ f b = true.
Proof.
  destruct (is_foothold ctx); simpl; [|naive_solver].
  case_bool_decide; simpl; [|naive_solver]. rewrite existsb_signal. naive_solver.
Qed.

Lemma shapes_spec runtime attack ctx :
  cross_tenant_lateral runtime ctx || privilege_escalation_on_foothold runtime attack ctx ||
  drop_then_execute runtime ctx || host_credential_read_on_foothold runtime attack ctx ||
  anon_inode_exec_on_foothold runtime attack ctx || ptrace_attach_on_foothold runtime attack ctx ||
  module_load_on_foothold runtime attack ctx || reverse_shell_on_foothold runtime ctx = true <->
  is_foothold ctx = true /\ foothold_shape runtime attack (source_ns ctx).
Proof.
  rewrite !orb_true_iff, cross_tenant_lateral_spec, drop_then_execute_spec, reverse_shell_spec.
  unfold privilege_escalation_on_foothold, host_credential_read_on_foothold,
    anon_inode_exec_on_foothold, ptrace_attach_on_foothold, module_load_on_foothold.
  rewrite (tactic_shape_spec _ _ _ _ (fun b => match b with PrivilegeChange f t => _ | _ => _ end)),
    (tactic_shape_spec _ _ _ _ (fun b => match b with SecretRead _ s => _ | _ => _ end)),
    (tactic_shape_spec _ _ _ _ (fun b => match b with ProcessExec _ s => _ | _ => _ end)),
    (tactic_shape_spec _ _ _ _ (fun b => match b with PtraceAttach => _ | _ => _ end)),
    (tactic_shape_spec _ _ _ _ (fun b => match b with ModuleLoad => _ | _ => _ end)).
  split.
  - intros [[[[[[[H|H]|H]|H]|H]|H]|H]|H]; destruct H as [Hf H]; (split; [done|]).
    + destruct H as (? & ? & ? & ? & ? & ? & ?). by eapply shape_lateral.
    + destruct H as (? & [| | | | |u v| | | | |] & ? & Hb); try done. bools.
      apply N.eqb_neq in H1. apply N.eqb_eq in H2 as ->. by eapply shape_privesc.
    + destruct H as (? & ? & ? & ? & ? & ? & ?). by eapply shape_drop_exec.
    + destruct H as (? & [| |s src| | | | | | | |] & ? & Hb); try done. bools. subst.
      by eapply shape_host_credential.
    + destruct H as (? & [| | | | | |p []| | | |] & ? & Hb); try done. by eapply shape_anon_inode.
    + destruct H as (? & [] & ? & Hb); try done. by eapply shape_ptrace.
    + destruct H as (? & [] & ? & Hb); try done. by eapply shape_module_load.
    + destruct H as (? & ? & ? & ? & ? & ? & ? & ? & ?). by eapply shape_reverse_shell.
  - intros [Hf [peer i pns ? ? ? ?|u ? Hu ?|p a tw te ? ? ?|s ? ?|p ? ?|? ?|? ?|p a peer ts tc ? ? ? ?]].
    + do 7 left. eauto 10.
    + do 6 left. right. split; [done|]. split; [done|]. eexists. split; [done|]. simpl.
      apply N.eqb_neq in Hu. by rewrite Hu.
    + do 5 left. right. eauto 10.
    + do 4 left. right. split; [done|]. split; [done|]. by eexists.
    + do 3 left. right. split; [done|]. split; [done|]. by eexists.
    + do 2 left. right. split; [done|]. split; [done|]. by eexists.
    + do 1 left. right. split; [done|]. split; [done|]. by eexists.
    + right. eauto 12.
Qed.

Lemma corroborated_for_spec runtime attack foothold ctx :
  corroborated_for runtime attack foothold ctx = true <->
  (exists b, observed runtime b /\
     (corroborates b attack = true \/ exists f, foothold = Some f /\ corroborates b f = true)) \/
  (is_foothold ctx = true /\ foothold_shape runtime attack (source_ns ctx)).
Proof.
  unfold corroborated_for. rewrite <- shapes_spec, <- !orb_assoc.
  rewrite orb_true_iff. apply or_iff_compat_r.
  rewrite (existsb_signal _ (fun b => corroborates b attack ||
    match foothold with Some f => corroborates b f | None => false end)).
  setoid_rewrite orb_true_iff. destruct foothold; naive_solver.
Qed.

(** A chain is corroborated exactly when some signal on its entry evidences
    the objective's or the foothold's technique by the flat relation, or the
    entry is a proven foothold and one of the eight documented shapes occurred,
    with the drop-then-execute window one-directional and at most 300 s and
    the reverse-shell window symmetric and at most 60 s. *)
Theorem corroborated_for_exact runtime attack foothold ctx :
  corroborated_for runtime attack foothold ctx = true <->
  (exists b, observed runtime b /\
     (corroborates b attack = true \/ exists f, foothold = Some f /\ corroborates b f = true)) \/
  (is_foothold ctx = true /\ foothold_shape runtime attack (source_ns ctx)).
Proof. apply corroborated_for_spec. Qed.

(** Off a proven foothold the conservative behaviors corroborate nothing:
    execs (shells included), root escalations, ptrace attaches, module loads,
    on-host credential reads, linkage facts, raw file reads, writes outside the
    sensitive paths, and in-cluster connections to ordinary peers. *)
Theorem mundane_never_corroborates runtime attack ctx :
  is_foothold ctx = false ->
  (forall b, observed runtime b ->
     match b with
     | ProcessExec _ _ | PrivilegeChange _ _ | PtraceAttach | ModuleLoad | ImageLinkage _
     | FileRead _ | SecretRead _ HostPath => True
     | FileWrite _ => AlarmClass.alarming_write b = None
     | NetworkConnection _ internet => internet = false /\ PeerClass.foothold_peer b = None
     | _ => False
     end) ->
  corroborated_for runtime attack None ctx = false.
Proof.
  intros Hf Hm. rewrite <- not_true_iff_false, corroborated_for_spec.
  intros [(b & Hb & [Hc|(f & ? & _)])|[? _]]; [|done|congruence].
  apply Hm in Hb. destruct b as [|peer internet|? []| | | | | | | |]; simpl in Hc; try done.
  - destruct Hb as [-> Hp]. simpl in Hp. rewrite Hp in Hc. by rewrite andb_false_r in Hc.
  - by rewrite andb_false_r in Hc.
  - simpl in Hb. by rewrite Hb in Hc.
Qed.

Lemma mundane_never_corroborates_witness :
  corroborated_for
    [mkSignal (ProcessExec "/bin/bash" false) (mkProv "agent" 0%Z);
     mkSignal (NetworkConnection "app/db:5432" false) (mkProv "agent" 1%Z);
     mkSignal (FileWrite "/tmp/x") (mkProv "agent" 2%Z)]
    CREDENTIAL_ACCESS None (mkCtx "app" false) = false.
Proof.
  apply (mundane_never_corroborates _ CREDENTIAL_ACCESS (mkCtx "app" false) eq_refl).
  intros b (t & s & Hs & <- & _). rewrite !elem_of_cons in Hs.
  destruct Hs as [->|[->|[->|?%not_elem_of_nil]]]; [done|by split; vm_compute|by vm_compute|done].
Defined.
