(* ===== verification/Boundary.v ===== *)
(** * The pod-boundary break (engine/src/engine/reason/proof/boundary_break.rs)

    The typed evidence that an attacker on a workload acts in the host
    namespace, which turns a pod-scoped cut into a node-scoped one. *)

From S2P Require Import Prelude Text PetGraph Attack Behavior Classify Graph Chain Corroborate.

Section Boundary.
Context {G : Type} `{SG : !StableGraph G Node Edge}.
Implicit Types (sg : SecurityGraph G) (model_attack : gset NodeKey).

Definition host_path_secret_read sg (x : nat) : bool :=
  existsb (fun s => match rs_behavior s with
    | SecretRead _ source => bool_decide (source = HostPath)
    | _ => false
    end) (entry_runtime sg x).

Definition has_outgoing_escape sg (x : nat) : bool :=
  existsb (fun r => match e_relation (er_weight r) with EscapesTo _ => true | _ => false end)
    (sg_edges (inner sg) x).

Definition root_escalation_with_escape sg (x : nat) : bool :=
  let escalated_to_root :=
    existsb (fun s => match rs_behavior s with
      | PrivilegeChange from_uid to_uid => negb (from_uid =? 0)%N && (to_uid =? 0)%N
      | _ => false
      end) (entry_runtime sg x) in
  escalated_to_root && has_outgoing_escape sg x.

Definition kernel_tamper sg (x : nat) : bool :=
  existsb (fun s => match rs_behavior s with PtraceAttach | ModuleLoad => true | _ => false end)
    (entry_runtime sg x).

Definition is_decisive_attack_and_exploited sg (n : nat) model_attack : bool :=
  actively_exploited sg n &&
  match key_of sg n with Some k => bool_decide (k ∈ model_attack) | None => false end.

Definition is_scheduled_on (r : Relation) : bool :=
  match r with ScheduledOn => true | _ => false end.

Definition scheduled_host sg (x : nat) : option nat :=
  er_target <$> List.find (fun r => is_scheduled_on (e_relation (er_weight r))) (sg_edges (inner sg) x).

Definition co_resident_dual_compromise sg (x : nat) model_attack : bool :=
  if negb (is_decisive_attack_and_exploited sg x model_attack) then false
  else match scheduled_host sg x with
       | None => false
       | Some host =>
           existsb (fun n => is_decisive_attack_and_exploited sg n model_attack)
             (List.filter (fun n => negb (bool_decide (n = x)))
               (er_source <$> List.filter (fun r => is_scheduled_on (e_relation (er_weight r)))
                 (sg_edges_in (inner sg) host)))
       end.

Definition boundary_break sg (x : nat) model_attack : bool :=
  host_path_secret_read sg x || root_escalation_with_escape sg x || kernel_tamper sg x ||
  co_resident_dual_compromise sg x model_attack.

(** ** The four triggers, as propositions *)

(** [x] carries live evidence and the model named it an attack. *)
Definition confirmed_compromise sg model_attack (x : nat) : Prop :=
  (exists b, observed (entry_runtime sg x) b /\ AlarmClass.is_alarming_now b = true) /\
  exists k, key_of sg x = Some k /\ k ∈ model_attack.

Definition edge_from sg (x : nat) (rel : Relation) (y : nat) : Prop :=
  exists r, r ∈ sg_edge_references (inner sg) /\ er_source r = x /\ er_target r = y /\
    e_relation (er_weight r) = rel.

Inductive pod_boundary_broken sg model_attack (x : nat) : Prop :=
  | break_host_read s :
      observed (entry_runtime sg x) (SecretRead s HostPath) -> pod_boundary_broken sg model_attack x
  | break_root_escape u via h :
      observed (entry_runtime sg x) (PrivilegeChange u 0) -> u <> 0%N ->
      edge_from sg x (EscapesTo via) h -> pod_boundary_broken sg model_attack x
  | break_ptrace : observed (entry_runtime sg x) PtraceAttach -> pod_boundary_broken sg model_attack x
  | break_module : observed (entry_runtime sg x) ModuleLoad -> pod_boundary_broken sg model_attack x
  | break_dual h y :
      confirmed_compromise sg model_attack x -> scheduled_host sg x = Some h ->
      y <> x -> edge_from sg y ScheduledOn h -> confirmed_compromise sg model_attack y ->
      pod_boundary_broken sg model_attack x.

End Boundary.

Section BoundaryLemmas.
Context {G : Type} `{SGL : StableGraphLaws G Node Edge}.
Implicit Types (sg : SecurityGraph G) (model_attack : gset NodeKey).

Lemma confirmed_compromise_spec sg x model_attack :
  is_decisive_attack_and_exploited sg x model_attack = true <-> confirmed_compromise sg model_attack x.
Proof.
  unfold is_decisive_attack_and_exploited, confirmed_compromise, actively_exploited, entry_runtime.
  rewrite andb_true_iff. f_equiv.
  - destruct (sg_node_weight (inner sg) x) as [[w| | | | | |]|].
    1: by apply (existsb_signal _ AlarmClass.is_alarming_now).
    all: split; [done|]; intros (? & (? & ? & Hs & _) & _); by apply not_elem_of_nil in Hs.
  - destruct (key_of sg x); [|naive_solver]. rewrite bool_decide_eq_true. naive_solver.
Qed.

Lemma has_outgoing_escape_spec sg x :
  has_outgoing_escape sg x = true <-> exists via h, edge_from sg x (EscapesTo via) h.
Proof.
  unfold has_outgoing_escape, edge_from. rewrite existsb_elem. split.
  - intros (r & [Hr Hs]%sg_edges_spec & Hm). destruct (e_relation (er_weight r)) eqn:E; try done. eauto 10.
  - intros (via & h & r & Hr & Hs & _ & E). exists r. rewrite E. split; [|done]. by apply sg_edges_spec.
Qed.

Lemma co_resident_spec sg x model_attack :
  co_resident_dual_compromise sg x model_attack = true <->
  confirmed_compromise sg model_attack x /\ exists h y, scheduled_host sg x = Some h /\ y <> x /\
    edge_from sg y ScheduledOn h /\ confirmed_compromise sg model_attack y.
Proof.
  unfold co_resident_dual_compromise. rewrite <- confirmed_compromise_spec.
  destruct (is_decisive_attack_and_exploited sg x model_attack); simpl; [|naive_solver].
  destruct (scheduled_host sg x) as [h|]; [|naive_solver]. rewrite existsb_elem. split.
  - intros (y & [Hy (r & -> & [Hr Hin]%elem_of_filter_b)%list_elem_of_fmap]%elem_of_filter_b & Hd).
    bools. apply confirmed_compromise_spec in Hd. apply sg_edges_in_spec in Hin as [Hin Ht].
    split; [done|]. exists h, (er_source r). split; [done|]. split; [done|]. split; [|done].
    exists r. destruct (e_relation (er_weight r)); done.
  - intros [_ (h' & y & [= <-] & Hne & (r & Hr & <- & Ht & Hrel) & Hd)]. exists (er_source r).
    split; [|by apply confirmed_compromise_spec]. apply elem_of_filter_b.
    rewrite bool_decide_eq_false_2 by done. split; [done|]. apply list_elem_of_fmap_2.
    apply elem_of_filter_b. rewrite Hrel. split; [done|]. by apply sg_edges_in_spec.
Qed.

(** A workload counts as having broken the pod boundary exactly on one of
    the four typed triggers: an on-host credential read, a root escalation
    together with an escape edge, a ptrace attach or module load, or a second,
    distinct co-resident workload when both are live-exploited and both were
    named attacks by the model. *)
Theorem boundary_break_exact sg x model_attack :
  boundary_break sg x model_attack = true <-> pod_boundary_broken sg model_attack x.
Proof.
  unfold boundary_break, host_path_secret_read, root_escalation_with_escape, kernel_tamper.
  rewrite !orb_true_iff, andb_true_iff, co_resident_spec, has_outgoing_escape_spec.
  rewrite (existsb_signal _ (fun b => match b with SecretRead _ s => _ | _ => _ end)),
    (existsb_signal _ (fun b => match b with PrivilegeChange _ s => _ | _ => _ end)),
    (existsb_signal _ (fun b => match b with PtraceAttach | ModuleLoad => _ | _ => _ end)).
  split.
  - intros [[[(b & Ho & Hb)|[(b & Ho & Hb) (via & h & He)]]|(b & Ho & Hb)]|(Hx & h & y & ? & ? & ? & ?)].
    + destruct b; try done. bools. subst. by eapply break_host_read.
    + destruct b as [| | | | |u v| | | | |]; try done. bools. apply N.eqb_neq in H. apply N.eqb_eq in H0 as ->.
      by eapply break_root_escape.
    + destruct b; try done; [by apply break_ptrace|by apply break_module].
    + by eapply break_dual.
  - intros [s ?|u via h ? Hu ?|?|?|h y ? ? ? ? ?].
    + do 3 left. eexists. split; [done|]. by apply bool_decide_eq_true.
    + left. left. right. split; [|eauto]. eexists. split; [done|]. apply N.eqb_neq in Hu. simpl. by rewrite Hu.
    + left. right. by eexists.
    + left. right. by eexists.
    + right. eauto 10.
Qed.

End BoundaryLemmas.

(** A web pod that took root and can escape to its node. *)
Definition escaping_pod : cluster :=
  default graph_new (build
    [NWorkload (mkWorkload "app" "web" "Pod" ∅ false Internet
       [mkSignal (PrivilegeChange 1000 0) (mkProv "agent" 0)] false [] []);
     NHost (mkHost "node-1")]
    [(0, 1, ScheduledOn); (0, 1, EscapesTo "privileged")]).

Lemma boundary_break_exact_witness :
  boundary_break escaping_pod 0 ∅ = true /\ pod_boundary_broken escaping_pod ∅ 0.
Proof.
  split; [vm_compute; reflexivity|].
  apply (proj1 (boundary_break_exact escaping_pod 0 ∅)). vm_compute. reflexivity.
Defined.
