(* ===== verification/Prove.v ===== *)
(** * Proven chains (engine/src/engine/reason/proof/mod.rs)

    [prove_with] pairs every workload entry with every recognized objective it
    can reach and reports, for each, the shortest path, the bounded set of
    paths, the single-edge cuts and the quarantine targets. An [expect] that
    would panic is [None]; [prove_with_total] shows none fires. Then
    what it proves: every chain it reports, and no other. *)

From S2P Require Import Prelude Text PetGraph Attack Behavior Classify Graph Chain ChainFacts PathEnum Objective Corroborate.

Record ProvenChain := mkChain {
  pc_entry : NodeKey;
  pc_objective : NodeKey;
  pc_attack : AttackRef;
  pc_foothold : option AttackRef;
  pc_corroborated : bool;
  pc_adjudicated : bool;
  pc_promoted : bool;
  pc_exposed_entry : bool;
  pc_verdict : option string;
  pc_links : list Link;
  pc_paths : list (list Link);
  pc_paths_truncated : bool;
  pc_single_edge_cuts : list Link;
  pc_quarantine_targets : list QuarantineTarget
}.

Definition entry_quarantine_reason (c : ProvenChain) : option QuarantineReason :=
  qt_reason <$> List.find (fun t => bool_decide (qt_node t = pc_entry c)) (pc_quarantine_targets c).

Definition strength (c : ProvenChain) : nat := length (pc_links c).

Definition is_latent_foothold (c : ProvenChain) : bool :=
  bool_decide (is_Some (pc_foothold c)) && negb (pc_corroborated c).

Definition is_breach_relevant (c : ProvenChain) : bool := pc_exposed_entry c.

Definition meets_action_bar (c : ProvenChain) : bool :=
  is_breach_relevant c && (pc_corroborated c || pc_promoted c).

Section Prove.
Context {G : Type} `{SG : !StableGraph G Node Edge}.
Implicit Types sg : SecurityGraph G.

Definition step_link sg (s : step) : option Link := let '(u, v, e) := s in link_of sg u v e.

(** The filter of the cut loop. *)
Definition is_cut sg (entry objective : nat) (s : step) : option bool :=
  if is_cuttable_edge sg s.2
  then r ← reachable_without sg entry objective s.2; Some (negb r)
  else Some false.

(** The body of the objective loop: [Some None] is the [continue]. *)
Definition chain_for sg (entry : nat) (tree : gmap nat (nat * nat)) (foothold : option AttackRef)
    (exposed_entry : bool) (runtime : list RuntimeSignal) (entry_ctx : EntryContext)
    (o : nat * AttackRef) : option (option ProvenChain) :=
  let '(objective, attack) := o in
  if bool_decide (objective = entry) || negb (bool_decide (is_Some (tree !! objective))) then Some None
  else
    let corroborated := corroborated_for runtime attack foothold entry_ctx in
    steps ← path_steps tree entry objective;
    links ← mapM (step_link sg) steps;
    cut_steps ← filterM (is_cut sg entry objective) steps;
    single_edge_cuts ← mapM (step_link sg) cut_steps;
    '(path_steps_all, paths_truncated) ← proven_paths sg entry objective MAX_PROVEN_PATHS;
    paths ← mapM (mapM (step_link sg)) path_steps_all;
    quarantine_targets ← quarantine_targets_on_path sg entry steps exposed_entry;
    entry_key ← key_of sg entry;
    objective_key ← key_of sg objective;
    Some (Some (mkChain entry_key objective_key attack foothold corroborated true false exposed_entry
            None links paths paths_truncated single_edge_cuts quarantine_targets)).

(** The body of the entry loop. *)
Definition chains_from sg (objectives : list (nat * AttackRef)) (entry : nat) : option (list ProvenChain) :=
  tree ← movement_tree sg entry None;
  let foothold := entry_foothold sg entry in
  let exposed_entry := entry_exposed sg entry in
  let runtime := entry_runtime sg entry in
  let entry_ctx := mkCtx (entry_namespace sg entry) (bool_decide (is_Some foothold)) in
  cs ← mapM (chain_for sg entry tree foothold exposed_entry runtime entry_ctx) objectives;
  Some (omap id cs).

Definition prove_entries sg : list nat := List.filter (is_workload sg) (sg_node_indices (inner sg)).

Definition prove_objectives sg (recognizers : list (ObjectiveRecognizer (G:=G))) : list (nat * AttackRef) :=
  omap (fun o => i ← index_of sg (ob_node o); Some (i, ob_attack o))
    (concat ((fun r => r sg) <$> recognizers)).

Definition prove_with sg (recognizers : list (ObjectiveRecognizer (G:=G))) : option (list ProvenChain) :=
  css ← mapM (chains_from sg (prove_objectives sg recognizers)) (prove_entries sg);
  Some (concat css).

Definition prove sg : option (list ProvenChain) := prove_with sg default_recognizers.

End Prove.

Section ProveFacts.
Context {G : Type} `{SGL : StableGraphLaws G Node Edge}.
Implicit Types sg : SecurityGraph G.

(** ** No panic *)

Lemma key_of_Some sg i : is_Some (sg_node_weight (inner sg) i) -> is_Some (key_of sg i).
Proof. unfold key_of. intros [n ->]. simpl. eauto. Qed.

Lemma step_link_total sg entry ex s : gedge sg entry ex s -> is_Some (step_link sg s).
Proof.
  destruct s as [[u v] e]. intros (_ & _ & r & Hr & <- & <- & _). unfold step_link, link_of.
  apply sg_edges_spec in Hr as [Hr <-].
  rewrite (edge_weight_ref _ _ Hr). simpl.
  destruct (sg_edge_ends _ _ Hr) as [Hs Ht].
  destruct (key_of_Some _ _ Hs) as [ks ->], (key_of_Some _ _ Ht) as [kt ->]. simpl. eauto.
Qed.

Lemma gpath_links_total sg entry ex p v :
  gpath sg entry ex p v -> is_Some (mapM (step_link sg) p).
Proof. intros Hp. apply mapM_total. intros s Hs. eapply step_link_total, gpath_step; eauto. Qed.

Lemma gpath_target_node sg entry ex p v :
  gpath sg entry ex p v -> is_Some (sg_node_weight (inner sg) entry) ->
  is_Some (sg_node_weight (inner sg) v).
Proof.
  destruct 1 as [|p u v e Hp (_ & _ & r & Hr & <- & _ & _)]; [done|]. intros _.
  by eapply edges_target_node.
Qed.

(** ** Cuts *)

(** An edge every gated path from [entry] to [objective] crosses, and which a
    response could sever. *)
Definition severs sg (entry objective e : nat) : Prop :=
  is_cuttable_edge sg e = true /\ forall p, gpath sg entry None p objective -> e ∈ p.*2.

Lemma is_cut_spec sg entry objective s :
  objective <> entry ->
  exists b, is_cut sg entry objective s = Some b /\ (b = true <-> severs sg entry objective s.2).
Proof.
  intros Hne. unfold is_cut, severs. destruct (is_cuttable_edge sg s.2) eqn:Hc.
  2: { exists false. naive_solver. }
  destruct (reachable_without_total sg entry objective s.2) as (r & -> & Hr). simpl.
  exists (negb r). split; [done|]. rewrite negb_true_iff. split.
  - intros ->. split; [done|]. intros p Hp. destruct (decide (s.2 ∈ p.*2)) as [|Hni]; [done|].
    exfalso. assert (false = true) as H; [|done]. apply Hr. split; [done|].
    exists p. by apply gpath_excluded.
  - intros [_ H]. destruct r; [|done]. destruct Hr as [[_ [p Hp]] _]; [done|].
    apply gpath_excluded in Hp as [Hp Hni]. exfalso. by apply Hni, H.
Qed.

Lemma cut_steps_spec sg entry objective p :
  objective <> entry -> gpath sg entry None p objective ->
  exists cs, filterM (is_cut sg entry objective) p = Some cs /\
    (forall s, s ∈ cs -> s ∈ p) /\
    (forall e, e ∈ cs.*2 <-> severs sg entry objective e).
Proof.
  intros Hne Hp. destruct (filterM_spec (is_cut sg entry objective) p) as (cs & Hcs & Hin).
  { intros s _. destruct (is_cut_spec sg entry objective s Hne) as (b & -> & _). eauto. }
  exists cs. split; [done|]. split; [intros s Hs; by apply Hin|].
  intros e. rewrite list_elem_of_fmap. split.
  - intros (s & -> & [_ Hs]%Hin). destruct (is_cut_spec sg entry objective s Hne) as (b & Hb & Hsev).
    apply Hsev. congruence.
  - intros Hsev. pose proof (proj2 Hsev p Hp) as (s & -> & Hs)%list_elem_of_fmap.
    exists s. split; [done|]. apply Hin. split; [done|].
    destruct (is_cut_spec sg entry objective s Hne) as (b & Hb & Hb'). rewrite Hb. f_equal. by apply Hb'.
Qed.

(** ** Quarantine targets *)

(** The hop-by-hop network reachability of a node of the path. *)
Lemma net_reachable_spec sg entry exposed p v :
  gpath sg entry None p v -> simple_path entry p ->
  forall q r n, p = q ++ r -> gpath sg entry None q n ->
  foldl (net_reachable_step sg) {[entry := exposed]} p !! n =
    Some (exposed && forallb (is_network_hop sg) q.*2).
Proof.
  induction 1 as [|p u v e Hp IH He]; intros Hs q r n Heq Hq.
  - destruct q; [|done]. inversion Hq as [|? ? ? ? ? ? Hn]; [|by destruct p].
    simpl. by rewrite lookup_singleton_eq, andb_true_r.
  - assert (simple_path entry p /\ v ∉ entry :: targets p) as [Hsp Hv].
    { unfold simple_path in *. rewrite fmap_app, app_comm_cons in Hs. apply NoDup_app in Hs as (? & Hd & _).
      split; [done|]. intros Hin. apply (Hd _ Hin). simpl. by left. }
    rewrite foldl_app. simpl. rewrite (IH Hsp p [] u) by (rewrite ?app_nil_r; done). simpl.
    destruct r as [|x r _] using rev_ind.
    + rewrite app_nil_r in Heq. subst q.
      assert (n = v) as -> by (eapply gpath_end_unique; [exact Hq|by constructor]).
      rewrite lookup_insert_eq, fmap_app, forallb_app. simpl. by rewrite andb_true_r, andb_assoc.
    + rewrite (assoc_L (++)) in Heq. apply app_inj_2 in Heq as [Heq _]; [|done].
      rewrite lookup_insert_ne; [by eapply IH|]. intros <-. apply Hv. subst p.
      destruct q as [|y q _] using rev_ind; [inversion Hq as [|? ? ? ? ? ? Hn]; [by left|by destruct p]|].
      right. unfold targets. rewrite fmap_app. apply elem_of_app. left.
      eapply (gpath_app_last _ _ []); [done|by destruct q].
Qed.

Lemma target_of_node_total sg entry net n : is_Some (target_of_node sg entry net n).
Proof.
  unfold target_of_node.
  destruct (sg_node_weight (inner sg) n) as [[w| | | | | |]|] eqn:E; try (by eauto).
  destruct (key_of_Some sg n) as [k ->]; [eauto|]. simpl.
  destruct (actively_exploited sg n); [eauto|]. destruct (_ && _); eauto.
Qed.

(** On distinct nodes the [seen] guard never drops one. *)
Lemma targets_loop_spec sg entry net nodes seen :
  NoDup nodes -> (forall n, n ∈ nodes -> n ∉ seen) ->
  exists ts, targets_loop sg entry net seen nodes = Some ts /\
    forall t, t ∈ ts <-> exists n, n ∈ nodes /\ target_of_node sg entry net n = Some (Some t).
Proof.
  revert seen. induction nodes as [|n nodes IH]; intros seen Hnd Hseen; simpl.
  - exists []. split; [done|]. intros t. split; [by intros ?%not_elem_of_nil|].
    intros (n & Hn & _). by apply not_elem_of_nil in Hn.
  - apply NoDup_cons in Hnd as [Hni Hnd]. rewrite bool_decide_eq_false_2 by (apply Hseen; by left).
    destruct (target_of_node_total sg entry net n) as [t Ht]. rewrite Ht. simpl.
    destruct (IH ({[n]} ∪ seen) Hnd) as (ts & -> & Hts).
    { intros m Hm. assert (m <> n) by (intros ->; done). pose proof (Hseen m). set_solver. }
    simpl. eexists. split; [done|]. intros t'. rewrite elem_of_app, Hts.
    assert (t' ∈ option_list t <-> t = Some t') as ->.
    { destruct t; simpl; [rewrite list_elem_of_singleton; naive_solver|]. rewrite elem_of_nil. naive_solver. }
    split.
    + intros [->|(m & ? & ?)]; [exists n|exists m]; set_solver.
    + intros (m & [->|Hm]%elem_of_cons & Hm'); [left; congruence|right; eauto].
Qed.

(** A workload of the path with its own exploitation evidence: live evidence,
    or, off the entry, a critical or known-exploited vulnerability behind
    network hops all the way from an internet-exposed entry. *)
Definition exploited_on_path sg (entry : nat) (exposed : bool) (p : PathSteps) (t : QuarantineTarget) : Prop :=
  exists n w q r, p = q ++ r /\ gpath sg entry None q n /\
    sg_node_weight (inner sg) n = Some (NWorkload w) /\
    key_of sg n = Some (qt_node t) /\ qt_labels t = w_labels w /\
    ((qt_reason t = ActivelyExploited /\ actively_exploited sg n = true) \/
     (qt_reason t = RemotelyExploitable /\ actively_exploited sg n = false /\ n <> entry /\
      exposed = true /\ (forall e, e ∈ q.*2 -> is_network_hop sg e = true) /\
      compromisable sg n = true)).

Lemma quarantine_targets_spec sg entry exposed p v :
  gpath sg entry None p v -> simple_path entry p ->
  exists ts, quarantine_targets_on_path sg entry p exposed = Some ts /\
    forall t, t ∈ ts <-> exploited_on_path sg entry exposed p t.
Proof.
  intros Hp Hs. unfold quarantine_targets_on_path.
  set (net := foldl _ _ _).
  destruct (targets_loop_spec sg entry net (entry :: targets p) ∅) as (ts & Hts & Hin); [done|set_solver|].
  exists ts. split; [done|]. intros t. rewrite Hin. unfold exploited_on_path, target_of_node. split.
  - intros (n & Hn & Ht). destruct (gpath_node _ _ _ _ _ _ Hp Hn) as (q & r & Hqr & Hq).
    pose proof (net_reachable_spec sg entry exposed p v Hp Hs q r n Hqr Hq) as Hnet. fold net in Hnet.
    destruct (sg_node_weight (inner sg) n) as [[w| | | | | |]|] eqn:E; try done.
    exists n, w, q, r. split; [done|]. split; [done|]. split; [done|].
    rewrite Hnet in Ht. simpl in Ht.
    destruct (key_of sg n) as [k|] eqn:Hk; simpl in Ht; [|by destruct (actively_exploited sg n), (_ && _)].
    destruct (actively_exploited sg n) eqn:Ha; simplify_eq/=; [auto|].
    destruct (_ && _) eqn:Hb; simplify_eq/=. bools.
    do 2 (split; [done|]). right. do 3 (split; [done|]). split; [done|]. split; [|done].
    by apply forallb_elem.
  - intros (n & w & q & r & Hqr & Hq & Hw & Hk & Hl & Hr). exists n. split.
    { subst p. unfold targets. rewrite fmap_app, app_comm_cons. apply elem_of_app. left.
      destruct q as [|x q]; [inversion Hq as [|? ? ? ? ? ? Hnil]; [by left|by destruct p]|].
      right. by eapply (gpath_app_last _ _ []). }
    pose proof (net_reachable_spec sg entry exposed p v Hp Hs q r n Hqr Hq) as Hnet. fold net in Hnet.
    rewrite Hw, Hnet, Hk. simpl. destruct t as [tn tl tr]; simpl in *.
    destruct Hr as [(-> & ->)|(-> & -> & Hne & -> & Hhop & ->)]; [by rewrite Hl|].
    apply forallb_elem in Hhop. rewrite Hhop, bool_decide_eq_false_2 by done. simpl. by rewrite Hl.
Qed.

(** ** Chains *)

(** What a reported chain from [entry] to [objective] asserts of the graph:
    [p] is the representative path and [cs] the steps of its cuts. *)
Record chain_justified sg (entry objective : nat) (attack : AttackRef) (p cs : PathSteps)
    (c : ProvenChain) : Prop := {
  cj_entry : key_of sg entry = Some (pc_entry c);
  cj_objective : key_of sg objective = Some (pc_objective c);
  cj_attack : pc_attack c = attack;
  cj_foothold : pc_foothold c = entry_foothold sg entry;
  cj_exposed : pc_exposed_entry c = entry_exposed sg entry;
  cj_corroborated : pc_corroborated c =
    corroborated_for (entry_runtime sg entry) attack (entry_foothold sg entry)
      (mkCtx (entry_namespace sg entry) (bool_decide (is_Some (entry_foothold sg entry))));
  cj_unjudged : pc_adjudicated c = true /\ pc_promoted c = false /\ pc_verdict c = None;
  cj_path : gpath sg entry None p objective /\ simple_path entry p /\
    forall q, gpath sg entry None q objective -> length p <= length q;
  cj_links : mapM (step_link sg) p = Some (pc_links c);
  cj_cuts : mapM (step_link sg) cs = Some (pc_single_edge_cuts c) /\
    forall e, e ∈ cs.*2 <-> severs sg entry objective e;
  cj_targets t : t ∈ pc_quarantine_targets c <-> exploited_on_path sg entry (entry_exposed sg entry) p t;
  cj_paths : exists ps, proven_paths sg entry objective MAX_PROVEN_PATHS = Some (ps, pc_paths_truncated c) /\
    mapM (mapM (step_link sg)) ps = Some (pc_paths c)
}.

(** The enumeration's steps can always be rendered. *)
Lemma paths_links_total sg entry objective cap :
  exists ps tr lss, proven_paths sg entry objective cap = Some (ps, tr) /\
    mapM (mapM (step_link sg)) ps = Some lss.
Proof.
  unfold proven_paths, proven_paths_budget.
  destruct (walk_spec sg PATH_ENUM_BUDGET entry objective cap) as (st & -> & Hdone). simpl.
  assert (forall ps, (forall q, q ∈ ps -> q ∈ pe_found st) -> is_Some (mapM (mapM (step_link sg)) ps)) as Hm.
  { intros ps Hps. apply mapM_total. intros q Hq%Hps. apply (wd_found _ _ _ _ _ Hdone) in Hq as [Hq _].
    by eapply gpath_links_total. }
  case_bool_decide.
  - destruct (Hm (take cap (sort_by path_leb (pe_found st)))) as [lss Hl]; [|eauto].
    intros q (i & Hi & _)%elem_of_take. apply (elem_of_sort_by path_leb). by eapply list_elem_of_lookup_2.
  - destruct (Hm (sort_by path_leb (pe_found st))) as [lss Hl]; [|eauto].
    intros q. by rewrite elem_of_sort_by.
Qed.

Lemma chain_for_spec sg entry tree objective attack :
  is_Some (sg_node_weight (inner sg) entry) -> movement_tree sg entry None = Some tree ->
  let foothold := entry_foothold sg entry in
  exists oc, chain_for sg entry tree foothold (entry_exposed sg entry) (entry_runtime sg entry)
      (mkCtx (entry_namespace sg entry) (bool_decide (is_Some foothold))) (objective, attack) = Some oc /\
    match oc with
    | None => objective = entry \/ ~ greach sg entry None objective
    | Some c => objective <> entry /\ exists p cs, chain_justified sg entry objective attack p cs c
    end.
Proof.
  intros Hen Ht foothold. pose proof (movement_tree_dom sg entry None tree objective Ht) as Hdom.
  unfold chain_for. case_bool_decide as Hoe; simpl; [by eexists; split; [done|left]|].
  case_bool_decide as Htree; simpl.
  2: { eexists. split; [done|]. right. intros Hr. by apply Htree, Hdom. }
  destruct (path_steps_spec sg entry None tree objective Ht Htree) as (p & -> & Hp & Hmin). simpl.
  pose proof (shortest_simple _ _ _ _ _ Hp Hmin) as Hs.
  destruct (gpath_links_total _ _ _ _ _ Hp) as [links Hl]. rewrite Hl. simpl.
  destruct (cut_steps_spec sg entry objective p Hoe Hp) as (cs & Hcs & Hsub & Hsev). rewrite Hcs. simpl.
  destruct (mapM_total (step_link sg) cs) as [cuts Hcuts].
  { intros s Hs'%Hsub. eapply step_link_total, gpath_step; eauto. }
  rewrite Hcuts. simpl.
  destruct (paths_links_total sg entry objective MAX_PROVEN_PATHS) as (ps & tr & lss & Hps & Hlss).
  rewrite Hps. cbn [mbind option_bind]. rewrite Hlss. simpl.
  destruct (quarantine_targets_spec sg entry (entry_exposed sg entry) p objective Hp Hs) as (ts & -> & Hts).
  simpl. destruct (key_of_Some sg entry Hen) as [ke Hke].
  destruct (key_of_Some sg objective) as [ko Hko]; [by eapply gpath_target_node|].
  rewrite Hke. simpl. rewrite Hko. simpl. eexists. split; [done|]. split; [done|].
  exists p, cs. split; simpl; eauto.
Qed.

Lemma prove_entries_elem sg i :
  i ∈ prove_entries sg <-> exists w, sg_node_weight (inner sg) i = Some (NWorkload w).
Proof.
  unfold prove_entries, is_workload. rewrite elem_of_filter_b, sg_indices_spec. split.
  - intros [H [n Hn]]. rewrite Hn in H. destruct n; try done. eauto.
  - intros [w ->]. eauto.
Qed.

Lemma prove_objectives_elem sg recognizers i a :
  (i, a) ∈ prove_objectives sg recognizers <->
  exists o, o ∈ concat ((fun r => r sg) <$> recognizers) /\ index_of sg (ob_node o) = Some i /\ ob_attack o = a.
Proof.
  unfold prove_objectives. rewrite list_elem_of_omap. split.
  - intros (o & Ho & H). exists o. destruct (index_of sg (ob_node o)); naive_solver.
  - intros (o & Ho & Hi & <-). exists o. rewrite Hi. done.
Qed.

Lemma chains_from_spec sg objectives entry :
  is_Some (sg_node_weight (inner sg) entry) ->
  exists cs, chains_from sg objectives entry = Some cs /\
    (forall c, c ∈ cs -> exists objective attack p es, (objective, attack) ∈ objectives /\
       objective <> entry /\ chain_justified sg entry objective attack p es c) /\
    (forall objective attack, (objective, attack) ∈ objectives -> objective <> entry ->
       greach sg entry None objective ->
       exists c p es, c ∈ cs /\ chain_justified sg entry objective attack p es c).
Proof.
  intros Hen. unfold chains_from. destruct (movement_tree_total sg entry None) as [tree Ht].
  rewrite Ht. simpl. set (f := chain_for _ _ _ _ _ _ _).
  assert (forall o, exists oc, f o = Some oc /\
    match oc with
    | None => o.1 = entry \/ ~ greach sg entry None o.1
    | Some c => o.1 <> entry /\ exists p cs, chain_justified sg entry o.1 o.2 p cs c
    end) as Hf.
  { intros [objective attack]. by apply chain_for_spec. }
  destruct (mapM_total f objectives) as [ocs Hocs].
  { intros o _. destruct (Hf o) as (oc & -> & _). eauto. }
  rewrite Hocs. simpl. eexists. split; [done|]. split.
  - intros c Hc%elem_of_omap_id. apply (mapM_elem f _ _ _ Hocs) in Hc as ([ob at'] & Ho & Hfo).
    destruct (Hf (ob, at')) as (oc & Hoc & Hspec). rewrite Hoc in Hfo. simplify_eq/=. naive_solver.
  - intros ob at' Ho Hne Hr. destruct (Hf (ob, at')) as ([c|] & Hoc & Hspec); simpl in Hspec; [|naive_solver].
    destruct Hspec as (_ & p & es & Hc). exists c, p, es. split; [|done].
    apply elem_of_omap_id, (mapM_elem f _ _ _ Hocs). eauto.
Qed.

(** The whole enumeration: total, sound and complete. *)
Lemma prove_with_spec sg recognizers :
  exists chains, prove_with sg recognizers = Some chains /\
    (forall c, c ∈ chains -> exists entry w objective attack p es,
       sg_node_weight (inner sg) entry = Some (NWorkload w) /\
       (objective, attack) ∈ prove_objectives sg recognizers /\ objective <> entry /\
       chain_justified sg entry objective attack p es c) /\
    (forall entry w objective attack,
       sg_node_weight (inner sg) entry = Some (NWorkload w) ->
       (objective, attack) ∈ prove_objectives sg recognizers -> objective <> entry ->
       greach sg entry None objective ->
       exists c p es, c ∈ chains /\ chain_justified sg entry objective attack p es c).
Proof.
  unfold prove_with. set (f := chains_from sg (prove_objectives sg recognizers)).
  assert (forall e, e ∈ prove_entries sg -> is_Some (sg_node_weight (inner sg) e)) as Hen.
  { intros e [w Hw]%prove_entries_elem. eauto. }
  destruct (mapM_total f (prove_entries sg)) as [css Hcss].
  { intros e He. destruct (chains_from_spec sg (prove_objectives sg recognizers) e) as (cs & Hcs & _); [auto|].
    unfold f. rewrite Hcs. eauto. }
  rewrite Hcss. simpl. eexists. split; [done|]. split.
  - intros c (cs & Hcs & Hc)%elem_of_concat.
    apply (mapM_elem f _ _ _ Hcss) in Hcs as (e & He & Hfe).
    destruct (chains_from_spec sg (prove_objectives sg recognizers) e) as (cs' & Hcs' & Hsound & _); [auto|].
    unfold f in Hfe. rewrite Hcs' in Hfe. simplify_eq.
    apply Hsound in Hc as (ob & at' & p & es & ? & ? & ?).
    apply prove_entries_elem in He as [w Hw]. exists e, w, ob, at', p, es. done.
  - intros e w ob at' Hw Ho Hne Hr.
    destruct (chains_from_spec sg (prove_objectives sg recognizers) e) as (cs' & Hcs' & _ & Hcomp); [eauto|].
    destruct (Hcomp ob at' Ho Hne Hr) as (c & p & es & Hc & Hj). exists c, p, es. split; [|done].
    apply elem_of_concat. exists cs'. split; [|done]. apply (mapM_elem f _ _ _ Hcss).
    exists e. split; [|done]. apply prove_entries_elem. eauto.
Qed.

(** *** The claims *)

(** Proving never panics or diverges, every chain reported rests on a real
    workload entry, a recognized objective and a shortest gated attack path
    between them, and every recognized objective an entry can reach is reported. *)
Theorem prove_with_sound_complete sg recognizers :
  exists chains, prove_with sg recognizers = Some chains /\
    (forall c, c ∈ chains -> exists entry w objective attack p es,
       sg_node_weight (inner sg) entry = Some (NWorkload w) /\
       (objective, attack) ∈ prove_objectives sg recognizers /\ objective <> entry /\
       chain_justified sg entry objective attack p es c) /\
    (forall entry w objective attack,
       sg_node_weight (inner sg) entry = Some (NWorkload w) ->
       (objective, attack) ∈ prove_objectives sg recognizers -> objective <> entry ->
       greach sg entry None objective ->
       exists c p es, c ∈ chains /\ chain_justified sg entry objective attack p es c).
Proof. apply prove_with_spec. Qed.

(** The default recognizers. *)
Lemma prove_spec sg :
  graph_ok sg ->
  exists chains, prove sg = Some chains /\
    forall ek ok a,
      (exists c, c ∈ chains /\ pc_entry c = ek /\ pc_objective c = ok /\ pc_attack c = a) <->
      (exists entry objective w n,
         sg_node_weight (inner sg) entry = Some (NWorkload w) /\
         sg_node_weight (inner sg) objective = Some n /\
         key_of sg entry = Some ek /\ key_of sg objective = Some ok /\
         objective_technique n = Some a /\ objective <> entry /\ greach sg entry None objective).
Proof.
  intros Hok. unfold prove. destruct (prove_with_spec sg default_recognizers) as (chains & Hp & Hs & Hc).
  exists chains. split; [done|]. intros ek ok a. split.
  - intros (c & Hin & <- & <- & <-).
    destruct (Hs c Hin) as (e & w & ob & at' & p & es & Hw & Ho & Hne & Hj).
    destruct Hj as [Hke Hko <- _ _ _ _ (Hgp & _) _ _ _ _].
    apply prove_objectives_elem in Ho as (o & Ho & Hi & Hat).
    apply default_recognizers_elem in Ho as (i & n & Hn & Ht & Hk).
    assert (i = ob) as ->.
    { unfold index_of in Hi. rewrite Hk in Hi. pose proof (graph_ok_node _ _ _ Hok Hn). congruence. }
    exists e, ob, w, n. rewrite Hat in Ht. split; [done|]. split; [done|]. split; [done|]. split; [done|].
    split; [done|]. split; [done|]. by exists p.
  - intros (e & ob & w & n & Hw & Hn & Hke & Hko & Ht & Hne & Hr).
    destruct (Hc e w ob a Hw) as (c & p & es & Hin & Hj); [|done|done|].
    + apply prove_objectives_elem. exists (mkObjective (node_key n) a). split; [|split; [|done]].
      * apply default_recognizers_elem. by exists ob, n.
      * simpl. by apply graph_ok_node.
    + exists c. destruct Hj as [Hke' Hko' ? _ _ _ _ _ _ _ _ _]. split; [done|].
      split; [congruence|]. split; [congruence|done].
Qed.

(** C8: over the default recognizers a chain exists exactly for each pair of a
    workload and another node it can reach that is a secret, a host, a
    dangerous capability, the internet endpoint or a persistent workload, and
    it carries that node's technique. *)
Theorem prove_exact sg :
  graph_ok sg ->
  exists chains, prove sg = Some chains /\
    forall ek ok a,
      (exists c, c ∈ chains /\ pc_entry c = ek /\ pc_objective c = ok /\ pc_attack c = a) <->
      (exists entry objective w n,
         sg_node_weight (inner sg) entry = Some (NWorkload w) /\
         sg_node_weight (inner sg) objective = Some n /\
         key_of sg entry = Some ek /\ key_of sg objective = Some ok /\
         objective_technique n = Some a /\ objective <> entry /\ greach sg entry None objective).
Proof. apply prove_spec. Qed.

(** The reported cuts of a chain are exactly the non-structural edges that
    every gated attack path from its entry to its objective crosses, so an
    empty list means each cuttable edge can be routed around. *)
Theorem prove_cuts_exact sg recognizers chains c :
  prove_with sg recognizers = Some chains -> c ∈ chains ->
  exists entry objective cs,
    key_of sg entry = Some (pc_entry c) /\ key_of sg objective = Some (pc_objective c) /\
    mapM (step_link sg) cs = Some (pc_single_edge_cuts c) /\
    (forall e, e ∈ cs.*2 <-> severs sg entry objective e) /\
    (pc_single_edge_cuts c = [] <->
     forall e, is_cuttable_edge sg e = true ->
       ~ forall p, gpath sg entry None p objective -> e ∈ p.*2).
Proof.
  intros Hp Hin. destruct (prove_with_spec sg recognizers) as (chains' & Hp' & Hs & _).
  rewrite Hp in Hp'. simplify_eq. destruct (Hs c Hin) as (e & w & ob & at' & p & es & _ & _ & _ & Hj).
  exists e, ob, es. destruct Hj as [Hke Hko _ _ _ _ _ _ _ [Hm Hsev] _ _].
  split; [done|]. split; [done|]. split; [done|]. split; [done|].
  assert (pc_single_edge_cuts c = [] <-> es = []) as ->.
  { apply mapM_Some_1, Forall2_length in Hm. split; intros H; rewrite H in Hm; [|by apply nil_length_inv].
    by apply nil_length_inv. }
  split.
  - intros -> x Hx Hall. assert (x ∈ ([] : PathSteps).*2) as H by (apply Hsev; by split).
    by apply not_elem_of_nil in H.
  - intros H. destruct es as [|s es]; [done|exfalso].
    assert (s.2 ∈ (s :: es).*2) as [Hc Hall]%Hsev by (left; done). by apply (H s.2).
Qed.

(** The quarantine targets of a chain are exactly the workloads on its path
    with their own exploitation evidence: live alarming activity, or off the
    entry a critical or known-exploited vulnerability behind network hops all
    the way from an internet-exposed entry. A merely reached node never is one. *)
Theorem prove_targets_exact sg recognizers chains c :
  prove_with sg recognizers = Some chains -> c ∈ chains ->
  exists entry objective p,
    key_of sg entry = Some (pc_entry c) /\ key_of sg objective = Some (pc_objective c) /\
    gpath sg entry None p objective /\ mapM (step_link sg) p = Some (pc_links c) /\
    forall t, t ∈ pc_quarantine_targets c <-> exploited_on_path sg entry (entry_exposed sg entry) p t.
Proof.
  intros Hp Hin. destruct (prove_with_spec sg recognizers) as (chains' & Hp' & Hs & _).
  rewrite Hp in Hp'. simplify_eq. destruct (Hs c Hin) as (e & w & ob & at' & p & es & _ & _ & _ & Hj).
  exists e, ob, p. by destruct Hj as [Hke Hko _ _ _ _ _ [? _] ? _ ? _].
Qed.

(** When the path list is not marked truncated it is complete and its first
    path is as short as the representative one. *)
Theorem prove_paths_complete sg recognizers chains c :
  prove_with sg recognizers = Some chains -> c ∈ chains -> pc_paths_truncated c = false ->
  exists entry objective ps,
    key_of sg entry = Some (pc_entry c) /\ key_of sg objective = Some (pc_objective c) /\
    mapM (mapM (step_link sg)) ps = Some (pc_paths c) /\
    (forall p, p ∈ ps <-> gpath sg entry None p objective /\ simple_path entry p) /\
    exists l, head (pc_paths c) = Some l /\ length l = length (pc_links c).
Proof.
  intros Hp Hin Htr. destruct (prove_with_spec sg recognizers) as (chains' & Hp' & Hs & _).
  rewrite Hp in Hp'. simplify_eq. destruct (Hs c Hin) as (e & w & ob & at' & p & es & _ & _ & _ & Hj).
  destruct Hj as [Hke Hko _ _ _ _ _ (Hgp & Hsm & Hmin) Hl _ _ (ps & Hps & Hm)]. rewrite Htr in Hps.
  destruct (proven_paths_spec sg PATH_ENUM_BUDGET e ob MAX_PROVEN_PATHS)
    as (ps' & tr & st & _ & Hps' & Hsound & _ & _ & Hsorted & Hcomp & _).
  unfold proven_paths in Hps. rewrite Hps' in Hps. injection Hps as -> ->.
  exists e, ob, ps. split; [done|]. split; [done|]. split; [done|].
  assert (forall q, q ∈ ps <-> gpath sg e None q ob /\ simple_path e q) as Hiff.
  { intros q. split; [apply Hsound|]. intros [? ?]. by apply Hcomp. }
  split; [done|]. assert (p ∈ ps) as Hpin by by apply Hiff.
  destruct ps as [|q ps]; [by apply not_elem_of_nil in Hpin|].
  apply mapM_Some_1 in Hm. inversion Hm as [|? l ? ls Hql _ Heq1 Heq2]. exists l. split; [done|].
  apply mapM_Some_1, Forall2_length in Hql. apply mapM_Some_1, Forall2_length in Hl.
  rewrite <- Hql, <- Hl. apply Nat.le_antisymm; [|apply Hmin, Hsound; by left].
  apply elem_of_cons in Hpin as [->|Hpin]; [done|].
  inversion Hsorted as [|? ? _ Hall]. rewrite Forall_forall in Hall. by apply Hall.
Qed.

End ProveFacts.

(** ** Witnesses on the sample clusters *)

(** The one chain of each sample: the web pod to the secret. *)
Definition sample_chain (sg : cluster) : option ProvenChain := prove sg ≫= head.

(** Its cuts, its paths, and whether they are all and start with the links. *)
Definition chain_shape (c : ProvenChain) : nat * nat * bool * bool :=
  (length (pc_single_edge_cuts c), length (pc_paths c), pc_paths_truncated c,
   bool_decide (head (pc_paths c) = Some (pc_links c))).

Lemma sample_chain_shape sg x :
  chain_shape <$> sample_chain sg = Some x ->
  exists c chains, prove sg = Some chains /\ c ∈ chains /\ sample_chain sg = Some c /\ chain_shape c = x.
Proof.
  unfold sample_chain. intros (c & (chains & Hp & Hc)%bind_Some & ->)%fmap_Some.
  exists c, chains. split; [done|]. split; [|split; [|done]].
  - destruct chains; simplify_eq/=. by left.
  - rewrite Hp. done.
Qed.

Lemma prove_exact_witness :
  exists chains, prove two_paths = Some chains /\
    forall ek ok a,
      (exists c, c ∈ chains /\ pc_entry c = ek /\ pc_objective c = ok /\ pc_attack c = a) <->
      (exists entry objective w n,
         sg_node_weight (inner two_paths) entry = Some (NWorkload w) /\
         sg_node_weight (inner two_paths) objective = Some n /\
         key_of two_paths entry = Some ek /\ key_of two_paths objective = Some ok /\
         objective_technique n = Some a /\ objective <> entry /\ greach two_paths entry None objective).
Proof. apply (prove_exact two_paths). eapply rtc_graph_ok, two_paths_ok. Defined.

Lemma prove_cuts_exact_witness :
  exists c entry objective cs, sample_chain one_path = Some c /\
    mapM (step_link one_path) cs = Some (pc_single_edge_cuts c) /\
    (forall e, e ∈ cs.*2 <-> severs one_path entry objective e) /\
    length (pc_single_edge_cuts c) = 1.
Proof.
  destruct (sample_chain_shape one_path (1, 1, false, true)) as (c & chains & Hp & Hin & Hc & Hs).
  { vm_compute. reflexivity. }
  destruct (prove_cuts_exact one_path default_recognizers chains c Hp Hin)
    as (entry & objective & cs & _ & _ & H1 & H2 & _).
  exists c, entry, objective, cs. split; [exact Hc|]. split; [exact H1|]. split; [exact H2|].
  unfold chain_shape in Hs. injection Hs as Hn _. exact Hn.
Defined.

Lemma prove_targets_exact_witness :
  exists c entry p, sample_chain two_paths = Some c /\
    mapM (step_link two_paths) p = Some (pc_links c) /\
    forall t, t ∈ pc_quarantine_targets c <->
      exploited_on_path two_paths entry (entry_exposed two_paths entry) p t.
Proof.
  destruct (sample_chain_shape two_paths (0, 2, false, false)) as (c & chains & Hp & Hin & Hc & _).
  { vm_compute. reflexivity. }
  destruct (prove_targets_exact two_paths default_recognizers chains c Hp Hin)
    as (entry & objective & p & _ & _ & _ & H1 & H2).
  exists c, entry, p. split; [exact Hc|]. split; [exact H1|exact H2].
Defined.

Lemma prove_paths_complete_witness :
  exists c l, sample_chain two_paths = Some c /\ length (pc_paths c) = 2 /\
    head (pc_paths c) = Some l /\ length l = length (pc_links c).
Proof.
  destruct (sample_chain_shape two_paths (0, 2, false, false)) as (c & chains & Hp & Hin & Hc & Hs).
  { vm_compute. reflexivity. }
  unfold chain_shape in Hs. injection Hs as _ Hlen Ht _.
  destruct (prove_paths_complete two_paths default_recognizers chains c Hp Hin Ht)
    as (_ & _ & _ & _ & _ & _ & _ & l & H1 & H2).
  exists c, l. split; [exact Hc|]. split; [exact Hlen|]. split; [exact H1|exact H2].
Defined.

(** The first enumerated path need not be the representative path: on two
    equally short paths the tree keeps the one over the edge visited first, the
    enumeration sorts by node index. *)
Theorem first_path_may_differ_from_links :
  exists c, sample_chain two_paths = Some c /\ pc_paths_truncated c = false /\
    pc_paths c <> [] /\ head (pc_paths c) <> Some (pc_links c).
Proof.
  destruct (sample_chain_shape two_paths (0, 2, false, false)) as (c & chains & _ & _ & Hc & Hs).
  { vm_compute. reflexivity. }
  unfold chain_shape in Hs. injection Hs as _ Hlen Ht Hd. exists c.
  split; [exact Hc|]. split; [exact Ht|]. apply bool_decide_eq_false in Hd. split; [|exact Hd].
  intros Hn. by rewrite Hn in Hlen.
Qed.

Lemma prove_with_sound_complete_witness :
  exists chains, prove_with two_paths default_recognizers = Some chains /\ length chains = 1 /\
    (forall c, c ∈ chains -> exists entry w objective attack p es,
       sg_node_weight (inner two_paths) entry = Some (NWorkload w) /\
       (objective, attack) ∈ prove_objectives two_paths default_recognizers /\ objective <> entry /\
       chain_justified two_paths entry objective attack p es c).
Proof.
  destruct (prove_with_sound_complete two_paths default_recognizers) as (chains & Hp & Hs & _).
  exists chains. split; [exact Hp|]. split; [|exact Hs].
  assert (length <$> prove_with two_paths default_recognizers = Some 1) as Hl by (vm_compute; reflexivity).
  rewrite Hp in Hl. injection Hl as Hl. exact Hl.
Defined.
