(* ===== verification/Cluster.v ===== *)
(** * From cluster objects to proven chains

    The observation adapters and the prover together: the chains a pass proves
    are the gated attack paths the cluster's objects declare. *)

From S2P Require Import Prelude Text ImageRef Posture.
From S2P Require Import PetGraph Attack Behavior Classify Graph Snapshot Adapters HostCredential PeerIndex AdapterFacts Enrich EnrichFacts SignalFacts ObserveFacts.
From S2P Require Import Chain ChainFacts PathEnum Objective Corroborate Prove.

(** ** Attack paths of a snapshot *)

Section Paths.
Variable oci : string -> option OciReference.
Variable sn : Snapshot.

(** A pod running an image a scanner found exploited or critical. *)
Definition compromised (k : NodeKey) : Prop :=
  exists ik, declared oci sn k RunsImage ik /\ existsb foothold_relevant (default [] (scanned_vulns oci sn ik)) = true.

(** A path of movement edges the objects declare; from a pod other than the
    start one moves on only if it is compromised. *)
Inductive attack_path (start : NodeKey) : NodeKey -> Prop :=
  | ap_start : attack_path start start
  | ap_step u r v :
      attack_path start u -> declared oci sn u r v -> is_movement r = true ->
      (u = start \/ ~ pod_keyed sn u \/ compromised u) -> attack_path start v.

(** What is worth reaching, and under which technique. *)
Inductive objective_key : NodeKey -> AttackRef -> Prop :=
  | ok_secret s : objective_key (node_key (NSecret s)) CREDENTIAL_ACCESS
  | ok_host h : objective_key (node_key (NHost h)) ESCAPE_TO_HOST
  | ok_internet : objective_key (node_key (NEndpoint (mkEndpoint "internet"))) EXFILTRATION
  | ok_capability cap scope a :
      cap ∈ CAPABILITY_CATALOG -> capability_technique (dc_verb cap) (dc_resource cap) = Some a ->
      objective_key (node_key (NCapability (mkCapability (dc_verb cap) (dc_resource cap) scope))) a
  | ok_store ns name pod spec :
      pod_at sn ns name pod -> pod_spec pod = Some spec -> is_persistent spec = true ->
      objective_key (pod_key ns name) DATA_FROM_REPOSITORY.
End Paths.

(** ** A capability's key names its verb and resource *)

Definition cap_tail (c : DangerousCapability) : list Ascii.ascii := String.list_ascii_of_string ("/" +:+ dc_verb c +:+ "/" +:+ dc_resource c).

Lemma list_ascii_app a b : String.list_ascii_of_string (a +:+ b) = String.list_ascii_of_string a ++ String.list_ascii_of_string b.
Proof. induction a as [|x a IH]; [done|]. simpl. by f_equal. Qed.

Lemma list_ascii_inj a b : String.list_ascii_of_string a = String.list_ascii_of_string b -> a = b.
Proof. intros H%(f_equal String.string_of_list_ascii). by rewrite !String.string_of_list_ascii_of_string in H. Qed.

(** No catalogued tail is the end of another's. *)
Definition tails_apart : bool :=
  forallb (fun c => forallb (fun c' => bool_decide (cap_tail c = cap_tail c') || negb (bool_decide (cap_tail c `suffix_of` cap_tail c'))) CAPABILITY_CATALOG)
    CAPABILITY_CATALOG.

Lemma tails_apart_true : tails_apart = true.
Proof. vm_compute. reflexivity. Qed.

Lemma tails_equal_spec c c' :
  c ∈ CAPABILITY_CATALOG -> c' ∈ CAPABILITY_CATALOG -> cap_tail c `suffix_of` cap_tail c' -> cap_tail c = cap_tail c'.
Proof.
  intros Hc Hc' Hs. pose proof tails_apart_true as H. unfold tails_apart in H. rewrite forallb_elem in H. specialize (H c Hc).
  cbn beta in H. rewrite forallb_elem in H. specialize (H c' Hc'). bools. destruct H; bools; done.
Qed.

Lemma suffix_or {A} (a a' t t' : list A) : a ++ t = a' ++ t' -> t `suffix_of` t' \/ t' `suffix_of` t.
Proof.
  intros H. destruct (app_eq_inv _ _ _ _ H) as [(k & -> & ->)|(k & -> & ->)]; [left|right]; by exists k.
Qed.

Lemma capability_key_tail c c' s s' :
  c ∈ CAPABILITY_CATALOG -> c' ∈ CAPABILITY_CATALOG ->
  node_key (NCapability (mkCapability (dc_verb c) (dc_resource c) s)) = node_key (NCapability (mkCapability (dc_verb c') (dc_resource c') s')) ->
  cap_tail c = cap_tail c'.
Proof.
  intros Hc Hc' H%(f_equal String.list_ascii_of_string). cbn [node_key c_scope c_verb c_resource] in H.
  rewrite !(list_ascii_app "capability/") in H. apply app_inv_head in H. rewrite !list_ascii_app in H.
  assert (String.list_ascii_of_string (scope_label s) ++ cap_tail c = String.list_ascii_of_string (scope_label s') ++ cap_tail c') as H'.
  { unfold cap_tail. by rewrite !list_ascii_app. }
  destruct (suffix_or _ _ _ _ H'); [|symmetry]; by apply tails_equal_spec.
Qed.

(** Equal tails have equal techniques. *)
Definition tails_agree : bool :=
  forallb (fun c => forallb (fun c' => negb (bool_decide (cap_tail c = cap_tail c')) ||
    bool_decide (capability_technique (dc_verb c) (dc_resource c) = capability_technique (dc_verb c') (dc_resource c'))) CAPABILITY_CATALOG)
    CAPABILITY_CATALOG.

Lemma tails_agree_true : tails_agree = true.
Proof. vm_compute. reflexivity. Qed.

Lemma capability_key_technique c c' s s' :
  c ∈ CAPABILITY_CATALOG -> c' ∈ CAPABILITY_CATALOG ->
  node_key (NCapability (mkCapability (dc_verb c) (dc_resource c) s)) = node_key (NCapability (mkCapability (dc_verb c') (dc_resource c') s')) ->
  capability_technique (dc_verb c) (dc_resource c) = capability_technique (dc_verb c') (dc_resource c').
Proof.
  intros Hc Hc' H. pose proof (capability_key_tail _ _ _ _ Hc Hc' H) as Ht. pose proof tails_agree_true as Ha. unfold tails_agree in Ha.
  rewrite forallb_elem in Ha. specialize (Ha c Hc). cbn beta in Ha. rewrite forallb_elem in Ha. specialize (Ha c' Hc'). bools. destruct Ha; bools; done.
Qed.

(** ** The observed graph's walks *)

Section Walk.
Context {G : Type} `{SGL : StableGraphLaws G Node Edge}.
Implicit Types sg : SecurityGraph G.
Variable oci : string -> option OciReference.
Variable event_clock : nat -> SystemTime.
Variable audit_clock : nat -> nat -> SystemTime.
Variable sn : Snapshot.
Variables (memo : PeerMemo) (now : Z) (sg : SecurityGraph G).
Hypothesis Hstructure : structure_read oci sn sg.
Hypothesis Hevidence : forall i n, node sg i = Some n -> exists static ss loads pkgs,
  evidence_read oci event_clock audit_clock sn memo now n static ss loads pkgs.

Lemma tag_foothold loads b v : foothold_relevant (tag_vulnerability loads b v) = foothold_relevant v.
Proof. unfold tag_vulnerability. by destruct (v_pkg_name v). Qed.

Lemma existsb_fmap {A B} (p : B -> bool) (f : A -> B) (l : list A) : existsb p (f <$> l) = existsb (fun x => p (f x)) l.
Proof. induction l as [|x l IH]; [done|]. rewrite fmap_cons. simpl. by rewrite IH. Qed.

Lemma existsb_ext_all {A} (p q : A -> bool) l : (forall x, p x = q x) -> existsb p l = existsb q l.
Proof. intros H. induction l as [|x l IH]; simpl; [done|]. by rewrite H, IH. Qed.

(** An image carries what the scanners report of it. *)
Lemma image_foothold i im :
  node sg i = Some (NImage im) ->
  existsb foothold_relevant (im_vulnerabilities im) = existsb foothold_relevant (default [] (scanned_vulns oci sn (node_key (NImage im)))).
Proof.
  intros Hi. destruct (Hevidence i _ Hi) as (static & ss & loads & pkgs & [Hev _ _ _ _ _]).
  apply (f_equal ev_vulns) in Hev. cbn [evidence ev_vulns node_vulnerabilities correlated gathered if_image is_image] in Hev.
  unfold if_image in Hev. cbn [is_image] in Hev. rewrite Hev. etrans; [apply existsb_fmap|]. apply existsb_ext_all. intros v. apply tag_foothold.
Qed.

Lemma compromisable_spec i n : node sg i = Some n -> compromisable sg i = true <-> compromised oci sn (node_key n).
Proof.
  intros Hn. pose proof (sr_ok _ _ _ Hstructure) as Hok. pose proof (key_of_node _ _ _ Hn) as Hk.
  unfold compromisable, compromised. rewrite existsb_exists. setoid_rewrite <- list_elem_of_In. split.
  - intros (r & [Hr Hsrc]%sg_edges_spec & Hc). destruct (e_relation (er_weight r)) eqn:Hrel; try done.
    destruct (sg_node_weight (inner sg) (er_target r)) as [[| | | |im| |]|] eqn:Ht; try done. exists (node_key (NImage im)).
    rewrite <- (image_foothold _ _ Ht). split; [|done]. apply (sr_edges _ _ _ Hstructure). exists r. rewrite Hsrc. split; [done|]. split; [done|].
    split; [by apply key_of_node|done].
  - intros (ik & Hd & Hc). apply (sr_edges _ _ _ Hstructure) in Hd as He. destruct He as (r & Hr & Hsrc & Htgt & Hrel).
    exists r. split; [apply sg_edges_spec; split; [done|by eapply graph_ok_inj]|]. rewrite Hrel.
    unfold key_of in Htgt. apply fmap_Some in Htgt as (m & Hm & ->). destruct (declared_runs_image oci sn _ _ Hd) as [_ [digest Hkey]].
    pose proof (key_image_node _ _ Hkey) as Himg. destruct m as [| | | |im| |]; try done. rewrite Hm. change (existsb foothold_relevant (im_vulnerabilities im) = true).
    by rewrite (image_foothold _ _ Hm).
Qed.

Lemma workload_spec i n : node sg i = Some n -> is_workload sg i = true <-> pod_keyed sn (node_key n).
Proof.
  intros Hn. unfold is_workload. unfold node in Hn. rewrite Hn. split.
  - intros Hw. destruct n as [w| | | | | |]; try done. exact (sr_nodes _ _ _ Hstructure i _ Hn).
  - intros (ns & name & pod & _ & Hk). by destruct (pod_key_workload _ _ _ Hk) as [w ->].
Qed.

Lemma blocked_spec start u ns nu :
  node sg start = Some ns -> node sg u = Some nu ->
  blocked sg start u = false <-> (node_key nu = node_key ns \/ ~ pod_keyed sn (node_key nu) \/ compromised oci sn (node_key nu)).
Proof.
  intros Hs Hu. unfold blocked. rewrite !andb_false_iff, !negb_false_iff, bool_decide_eq_true, (compromisable_spec u nu Hu).
  rewrite <- (workload_spec u nu Hu), not_true_iff_false.
  assert (u = start <-> node_key nu = node_key ns) as ->; [|tauto]. split; [intros ->; congruence|]. intros Hk.
  eapply graph_ok_inj; [apply Hstructure|by apply key_of_node|rewrite Hk; by apply key_of_node].
Qed.

(** The prover's gated walks are the declared attack paths. *)
Lemma walk_declared start nstart v :
  node sg start = Some nstart -> greach sg start None v -> exists nv, node sg v = Some nv /\ attack_path oci sn (node_key nstart) (node_key nv).
Proof.
  intros Hs [p Hp]. induction Hp as [|p u v e Hp (nu & Hu & Hpath) (Hb & _ & r & Hr & <- & _ & Hm)]; [exists nstart; split; [done|constructor]|].
  apply sg_edges_spec in Hr as [Hr Hsrc]. destruct (sg_edge_ends _ _ Hr) as [_ [nv Hv]]. exists nv. split; [done|].
  apply ap_step with (u := node_key nu) (r := e_relation (er_weight r)); [done| |done|by eapply blocked_spec].
  apply (sr_edges _ _ _ Hstructure). exists r. rewrite Hsrc. split; [done|]. by rewrite (key_of_node _ _ _ Hu), (key_of_node _ _ _ Hv).
Qed.

Lemma declared_walk start nstart k :
  node sg start = Some nstart -> attack_path oci sn (node_key nstart) k -> exists v nv, node sg v = Some nv /\ node_key nv = k /\ greach sg start None v.
Proof.
  intros Hs Hp. induction Hp as [|u r v Hp (i & nu & Hi & <- & Hreach) Hd Hm Hgate]; [exists start, nstart; do 2 (split; [done|]); by exists []; constructor|].
  apply (sr_edges _ _ _ Hstructure) in Hd as (e & He & Hsrc & Htgt & Hrel).
  assert (er_source e = i) as Hei by (eapply graph_ok_inj; [apply Hstructure|exact Hsrc|by apply key_of_node]).
  unfold key_of in Htgt. apply fmap_Some in Htgt as (nv & Hv & ->). exists (er_target e), nv. split; [done|]. split; [done|].
  destruct Hreach as [p Hreach]. exists (p ++ [(i, er_target e, er_id e)]). constructor; [done|]. split; [by eapply blocked_spec|]. split; [done|].
  exists e. split; [by apply sg_edges_spec|]. rewrite Hrel. done.
Qed.

(** The workload stored under a pod's key is the pod as read. *)
Lemma pod_workload ns name pod i n :
  pod_at sn ns name pod -> node sg i = Some n -> node_key n = pod_key ns name ->
  exists w, n = NWorkload w /\ w_persistent w = w_persistent (workload_of pod name) /\ (w_exposure w = Internet <-> internet_facing sn (pod_key ns name)).
Proof.
  intros Hp Hn Hk. destruct (sr_pods _ _ _ Hstructure _ _ _ Hp) as (j & w & Hj & Hb & Hexp & _).
  assert (node_key (NWorkload w) = pod_key ns name) as Hkw.
  { rewrite (same_bare_key _ _ Hb). destruct Hp as (_ & Hns & _). simpl. by rewrite Hns. }
  assert (i = j) as <- by (eapply graph_ok_inj; [apply Hstructure|by apply key_of_node|rewrite Hk, <- Hkw; by apply key_of_node]).
  exists w. split; [congruence|]. split; [by injection Hb|done].
Qed.

(** A node's technique is its key's. *)
Lemma technique_to_key i n a : node sg i = Some n -> objective_technique n = Some a -> objective_key sn (node_key n) a.
Proof.
  intros Hn Ht. pose proof (sr_nodes _ _ _ Hstructure i n Hn) as Ho. destruct n as [w|d|s|e|im|h|c]; simpl in Ht; try done.
  - destruct (w_persistent w) eqn:Hpers; [|done]. injection Ht as <-. destruct Ho as (ns & name & pod & Hp & Hk).
    change (node_key (NWorkload w) = pod_key ns name) in Hk. destruct (pod_workload _ _ _ _ _ Hp Hn Hk) as (w' & [= <-] & Hw & _).
    rewrite Hpers in Hw. cbn [workload_of w_persistent] in Hw. rewrite Hk. destruct (pod_spec pod) as [spec|] eqn:Hspec; [|done]. by eapply ok_store.
  - injection Ht as <-. constructor.
  - case_bool_decide as He; [|done]. injection Ht as <-. destruct e as [addr]. simpl in He. subst. constructor.
  - injection Ht as <-. constructor.
  - destruct Ho as (cap & Hc & Hv & Hr). destruct c as [v r scope]. simpl in *. subst. by constructor.
Qed.

Lemma key_to_technique i n a : node sg i = Some n -> objective_key sn (node_key n) a -> objective_technique n = Some a.
Proof.
  intros Hn Hk. pose proof (sr_nodes _ _ _ Hstructure i n Hn) as Ho. remember (node_key n) as k eqn:Ek. symmetry in Ek.
  assert (forall m, node_key m = k -> node_kind n = node_kind m) as Hkind.
  { intros m Hm. rewrite <- !kind_of_node_key. congruence. }
  destruct Hk as [s|h| |cap scope a Hc Ha|ns name pod spec Hp Hspec Hpers].
  - pose proof (Hkind _ eq_refl) as H. by destruct n.
  - pose proof (Hkind _ eq_refl) as H. by destruct n.
  - pose proof (Hkind _ eq_refl) as H. destruct n as [| | |e| | |]; try done. simpl in Ho |- *. by rewrite bool_decide_true.
  - pose proof (Hkind _ eq_refl) as H. destruct n as [| | | | | |[v r s]]; try done. destruct Ho as (cap' & Hc' & Hv & Hr). simpl in Hv, Hr. subst.
    simpl. rewrite <- Ha. by eapply capability_key_technique.
  - destruct (pod_workload _ _ _ _ _ Hp Hn Ek) as (w & -> & Hw & _). simpl. rewrite Hw. simpl. by rewrite Hspec, Hpers.
Qed.

Lemma exposed_spec i w : node sg i = Some (NWorkload w) -> entry_exposed sg i = true <-> internet_facing sn (node_key (NWorkload w)).
Proof.
  intros Hi. unfold entry_exposed. unfold node in Hi. rewrite Hi, bool_decide_eq_true.
  destruct (sr_nodes _ _ _ Hstructure i _ Hi) as (ns & name & pod & Hp & Hk). change (node_key (NWorkload w) = pod_key ns name) in Hk.
  destruct (pod_workload _ _ _ _ _ Hp Hi Hk) as (w' & [= <-] & _ & He). by rewrite Hk.
Qed.

Lemma foothold_spec i w :
  node sg i = Some (NWorkload w) ->
  entry_foothold sg i = Some EXPLOIT_PUBLIC_FACING <-> internet_facing sn (node_key (NWorkload w)) /\ compromised oci sn (node_key (NWorkload w)).
Proof.
  intros Hi. rewrite <- (exposed_spec i w Hi), <- (compromisable_spec i _ Hi). unfold entry_foothold, entry_exposed.
  destruct (match sg_node_weight (inner sg) i with Some (NWorkload w) => _ | _ => _ end), (compromisable sg i); simpl; split; naive_solver.
Qed.
End Walk.

(** ** The chains of a pass *)

Section Chains.
Context {G : Type} `{SGL : StableGraphLaws G Node Edge}.
Variable oci : string -> option OciReference.
Variable event_clock : nat -> SystemTime.
Variable audit_clock : nat -> nat -> SystemTime.
Variable clock : nat -> SystemTime.
Variable secret_iter : gset SecretGrant -> list SecretGrant.
Variable cap_iter : gset CapGrant -> list CapGrant.
Hypothesis secret_iter_spec : forall s, secret_iter s ≡ₚ elements s.
Hypothesis cap_iter_spec : forall s, cap_iter s ≡ₚ elements s.
Variable sn : Snapshot.
Hypothesis pods_distinct : forall ns name p ns' name' q,
  pod_at sn ns name p -> pod_at sn ns' name' q -> pod_key ns name = pod_key ns' name' -> p = q.

(** C9: A pass over a cluster whose pods have distinct keys proves a chain exactly
    for each pod and each objective a gated path of declared movement edges
    leads it to; the chain's entry counts as exposed exactly when the pod faces
    the internet, and as a foothold exactly when it is also compromised. *)
Theorem chains_are_declared_paths memo now :
  exists (sg : SecurityGraph G) memo' chains,
    build_pass oci event_clock audit_clock clock secret_iter cap_iter memo now sn = Some (sg, memo') /\
    prove sg = Some chains /\
    (forall ek ok a, (exists c, c ∈ chains /\ pc_entry c = ek /\ pc_objective c = ok /\ pc_attack c = a) <->
      pod_keyed sn ek /\ objective_key sn ok a /\ ok <> ek /\ attack_path oci sn ek ok) /\
    (forall c, c ∈ chains -> (pc_exposed_entry c = true <-> internet_facing sn (pc_entry c)) /\
      (pc_foothold c = Some EXPLOIT_PUBLIC_FACING <-> internet_facing sn (pc_entry c) /\ compromised oci sn (pc_entry c))).
Proof.
  destruct (build_pass_spec oci event_clock audit_clock clock secret_iter cap_iter secret_iter_spec cap_iter_spec sn pods_distinct memo now)
    as (sg & memo' & Hb & Hstr & _ & _ & Hev). pose proof (sr_ok _ _ _ Hstr) as Hok.
  destruct (prove_spec sg Hok) as (chains & Hp & Hspec). exists sg, memo', chains. split; [done|]. split; [done|]. split.
  - intros ek ok a. rewrite Hspec. split.
    + intros (i & j & w & n & Hi & Hj & Hek & Hok' & Ht & Hne & Hr). unfold key_of in Hek, Hok'. rewrite Hi in Hek. rewrite Hj in Hok'. simplify_eq/=.
      destruct (walk_declared oci event_clock audit_clock sn memo now sg Hstr Hev i _ j Hi Hr) as (n' & Hn' & Hpath).
      assert (n' = n) as -> by (unfold node in Hn'; congruence).
      split; [exact (sr_nodes _ _ _ Hstr i _ Hi)|]. split; [by eapply technique_to_key|]. split; [|done].
      intros Hk. apply Hne. eapply graph_ok_inj; [exact Hok|by apply key_of_node|]. rewrite Hk. by apply key_of_node in Hi.
    + intros ((ns & name & pod & Hpod & Hek) & Ho & Hne & Hpath). destruct (sr_pods _ _ _ Hstr _ _ _ Hpod) as (i & w & Hi & Hbare & _).
      assert (node_key (NWorkload w) = ek) as Hkw.
      { rewrite Hek, (same_bare_key _ _ Hbare). destruct Hpod as (_ & Hns & _). simpl. by rewrite Hns. }
      rewrite <- Hkw in Hpath. destruct (declared_walk oci event_clock audit_clock sn memo now sg Hstr Hev i _ ok Hi Hpath) as (j & n & Hj & Hkn & Hr).
      exists i, j, w, n. split; [done|]. split; [done|]. split; [by rewrite (key_of_node _ _ _ Hi), Hkw|]. split; [by rewrite (key_of_node _ _ _ Hj), Hkn|].
      split; [rewrite <- Hkn in Ho; by eapply key_to_technique|]. split; [|done].
      intros ->. apply Hne. congruence.
  - intros c Hc. unfold prove in Hp. destruct (prove_with_spec sg default_recognizers) as (chains' & Hp' & Hs & _). rewrite Hp' in Hp. simplify_eq.
    destruct (Hs c Hc) as (i & w & o & at' & p & es & Hi & _ & _ & Hj). pose proof (cj_entry _ _ _ _ _ _ _ Hj) as Hek.
    rewrite (key_of_node _ _ _ Hi) in Hek. injection Hek as <-. rewrite (cj_exposed _ _ _ _ _ _ _ Hj), (cj_foothold _ _ _ _ _ _ _ Hj).
    split; [by eapply exposed_spec|by eapply foothold_spec].
Qed.
End Chains.

Lemma demo_web_at : pod_at demo_cluster "app" "web" demo_web.
Proof. repeat split. by left. Qed.

Lemma chains_are_declared_paths_witness :
  exists sg m chains, demo_pass demo_cluster = Some (sg, m) /\ prove sg = Some chains /\
    exists c, c ∈ chains /\ pc_entry c = pod_key "app" "web" /\ pc_objective c = "secret/app/db-creds" /\ pc_attack c = CREDENTIAL_ACCESS.
Proof.
  destruct (chains_are_declared_paths (G := list_graph Node Edge) demo_oci (fun _ => 0%Z) (fun _ _ => 0%Z) (fun _ => 0%Z) elements elements
    (fun _ => reflexivity _) (fun _ => reflexivity _) demo_cluster (demo_distinct demo_cluster eq_refl) ∅ 0%Z)
    as (sg & m & chains & H1 & H2 & H3 & _).
  exists sg, m, chains. split; [exact H1|]. split; [exact H2|]. apply H3.
  split; [exact (ex_intro _ "app" (ex_intro _ "web" (ex_intro _ demo_web (conj demo_web_at eq_refl))))|].
  split; [exact (ok_secret _ (mkSecretRef "app" "db-creds"))|]. split; [intros H; vm_compute in H; discriminate H|].
  apply (ap_step _ _ _ (pod_key "app" "web") CanRead); [constructor| |reflexivity|by left].
  apply (decl_mounts demo_oci demo_cluster "app" "web" demo_web "db-creds" demo_web_at). vm_compute. left.
Defined.
