(* ===== verification/Respond.v ===== *)
(** * The response layer (engine/src/engine/respond/mod.rs)

    Proposed actions, the containment ladder, and the mitigation ledger that
    reconciles standing cuts with this cycle's chains and decisions. The
    decision types are those of reason/adjudicate/incident/mod.rs. *)

From S2P Require Import Prelude Text PetGraph Attack Behavior Classify Graph Chain Prove Boundary.

Inductive ProposedAction :=
  | DenyNetworkPath
  | RevokeRbacGrant
  | RemoveSecretMount
  | RemoveEscapePrimitive
  | RebindIdentity
  | QuarantineEntry
  | QuarantineWorkload
  | ContainNode
  | Unclassified.

#[export] Instance ProposedAction_eq_dec : EqDecision ProposedAction.
Proof. solve_decision. Defined.

Definition for_cut (cut : Link) : ProposedAction :=
  let r := l_relation cut in
  if starts_with "reaches" r || starts_with "can-egress" r then DenyNetworkPath
  else if starts_with "can-do" r then RevokeRbacGrant
  else if bool_decide (r = "can-read") then RemoveSecretMount
  else if starts_with "escapes-to" r then RemoveEscapePrimitive
  else if bool_decide (r = "runs-as") then RebindIdentity
  else Unclassified.

Definition is_reversible (a : ProposedAction) : bool :=
  match a with RemoveEscapePrimitive => false | _ => true end.

Definition is_additive_live (a : ProposedAction) : bool :=
  match a with DenyNetworkPath | QuarantineEntry | QuarantineWorkload => true | _ => false end.

Definition describe (a : ProposedAction) : string :=
  match a with
  | DenyNetworkPath => "add a scoped deny NetworkPolicy/AuthorizationPolicy"
  | RevokeRbacGrant => "remove the RBAC binding granting this verb"
  | RemoveSecretMount => "remove the secret mount/reference"
  | RemoveEscapePrimitive => "remove the container-escape primitive"
  | RebindIdentity => "rebind to a least-privilege ServiceAccount"
  | QuarantineEntry => "quarantine the internet-facing entry with a default-deny NetworkPolicy"
  | QuarantineWorkload => "quarantine the compromised workload with a default-deny NetworkPolicy"
  | ContainNode =>
      "cordon the node and default-deny its co-resident pods (proven pod-boundary break — a pod-scoped policy can no longer contain this workload)"
  | Unclassified => "manual remediation (no automatic action mapped)"
  end.

Record Justification := mkJust {
  j_entry : string;
  j_objective : string;
  j_attack : AttackRef;
  j_foothold : bool;
  j_corroborated : bool;
  j_adjudicated : bool;
  j_promoted : bool;
  j_breach_relevant : bool
}.

Definition justification_of (c : ProvenChain) : Justification :=
  mkJust (pc_entry c) (pc_objective c) (pc_attack c) (bool_decide (is_Some (pc_foothold c)))
    (pc_corroborated c) (pc_adjudicated c) (pc_promoted c) (is_breach_relevant c).

Record Mitigation := mkMitigation {
  m_cut : Link;
  m_action : ProposedAction;
  m_justifications : list Justification
}.

Definition cut_signature (cut : Link) : string :=
  l_from cut +:+ " -[" +:+ l_relation cut +:+ "]-> " +:+ l_to cut.

Definition live_corroborating_entries (m : Mitigation) : list string :=
  j_entry <$> List.filter (fun j =>
    (j_corroborated j || j_promoted j) && j_adjudicated j && j_breach_relevant j) (m_justifications m).

Definition is_live_corroborated (m : Mitigation) : bool :=
  bool_decide (live_corroborating_entries m <> []).

(** ** reason/adjudicate/incident/mod.rs: the decision the ledger consumes *)

Inductive Assessment := AAttack | ANoAttack | AUncertain.

#[export] Instance Assessment_eq_dec : EqDecision Assessment.
Proof. solve_decision. Defined.

Record ChosenCut := mkChosen {
  cc_node : NodeKey;
  cc_action : ProposedAction;
  cc_cut : Link;
  cc_cut_signature : string
}.

Record IncidentDecision := mkDecision {
  d_assessment : Assessment;
  d_reason : string;
  d_cuts : list ChosenCut
}.

#[export] Instance ChosenCut_eq_dec : EqDecision ChosenCut.
Proof. solve_decision. Defined.

#[export] Instance IncidentDecision_eq_dec : EqDecision IncidentDecision.
Proof. solve_decision. Defined.

Definition uncertain (reason : string) : IncidentDecision := mkDecision AUncertain reason [].

(** ** Cut builders *)

Definition QUARANTINE_RELATION : string := "quarantine-entry".
Definition QUARANTINE_WORKLOAD_RELATION : string := "quarantine-workload".
Definition CONTAIN_NODE_RELATION : string := "contain-node".

Definition quarantine_link (c : ProvenChain) : option Link :=
  first ← head (pc_links c);
  if bool_decide (l_from_labels first = ∅) then None
  else Some (mkLink (pc_entry c) (pc_entry c) QUARANTINE_RELATION None
               (l_from_labels first) (l_from_labels first)).

Definition quarantine_workload_link (node : NodeKey) (labels : gmap string string) : option Link :=
  if bool_decide (labels = ∅) then None
  else Some (mkLink node node QUARANTINE_WORKLOAD_RELATION None labels labels).

Section Hosts.
Context {G : Type} `{SG : !StableGraph G Node Edge}.
Implicit Types sg : SecurityGraph G.

Definition contain_node_link sg (x : NodeKey) : option Link :=
  x_idx ← index_of sg x;
  host_idx ← er_target <$>
    List.find (fun r => is_scheduled_on (e_relation (er_weight r))) (sg_edges (inner sg) x_idx);
  host ← key_of sg host_idx;
  Some (mkLink host host CONTAIN_NODE_RELATION None ∅ ∅).

Definition is_protector_component (n : Node) : bool :=
  match n with
  | NWorkload w =>
      bool_decide (w_labels w !! "app.kubernetes.io/component" = Some "agent") ||
      bool_decide (w_labels w !! "app.kubernetes.io/name" = Some "protector")
  | _ => false
  end.

Definition scheduled_on_host sg (host_idx : nat) : list (nat * Node) :=
  omap (fun r => n ← node sg (er_source r); Some (er_source r, n))
    (List.filter (fun r => is_scheduled_on (e_relation (er_weight r))) (sg_edges_in (inner sg) host_idx)).

Definition self_severance sg (host : NodeKey) : bool :=
  match index_of sg host with
  | None => false
  | Some host_idx => existsb (fun x => is_protector_component x.2) (scheduled_on_host sg host_idx)
  end.

Definition co_resident_workloads sg (host : NodeKey) : list (NodeKey * gmap string string) :=
  match index_of sg host with
  | None => []
  | Some host_idx =>
      sort_by (fun a b => str_leb a.1 b.1)
        (omap (fun '(idx, n) => match n with
           | NWorkload w => k ← key_of sg idx; Some (k, w_labels w)
           | _ => None
           end) (scheduled_on_host sg host_idx))
  end.

End Hosts.

(** ** The containment ladder *)

Definition containment_for (c : ProvenChain) : option (Link * ProposedAction) :=
  match List.find (fun l => is_additive_live (for_cut l) && is_reversible (for_cut l))
          (pc_single_edge_cuts c) with
  | Some cut => Some (cut, DenyNetworkPath)
  | None =>
      let durable := (fun cut => (cut, for_cut cut)) <$> head (pc_single_edge_cuts c) in
      if is_breach_relevant c
      then match quarantine_link c with
           | Some cut => Some (cut, QuarantineEntry)
           | None => durable
           end
      else durable
  end.

(** ** The ledger *)

Abbreviation Ledger := (gmap string Mitigation).

(** [desired.entry(sig).or_insert_with(..).justifications.push(j)]. *)
Definition push_justification (sig : string) (cut : Link) (action : ProposedAction)
    (j : Justification) (desired : Ledger) : Ledger :=
  let m := default (mkMitigation cut action []) (desired !! sig) in
  <[sig := mkMitigation (m_cut m) (m_action m) (m_justifications m ++ [j])]> desired.

Definition unadjudicated (j : Justification) : Justification :=
  mkJust (j_entry j) (j_objective j) (j_attack j) (j_foothold j) (j_corroborated j) false
    (j_promoted j) (j_breach_relevant j).

Definition fallback_proposal (c : ProvenChain) (desired : Ledger) : Ledger :=
  match containment_for c with
  | None => desired
  | Some (cut, action) =>
      push_justification (cut_signature cut) cut action (unadjudicated (justification_of c)) desired
  end.

Definition standing_for (c : ProvenChain) (active : Ledger) : list Mitigation :=
  List.filter (fun m => existsb (fun j => bool_decide (j_entry j = pc_entry c)) (m_justifications m))
    (btree_values active).

Definition carry_forward_or_fallback (c : ProvenChain) (active desired : Ledger) : Ledger :=
  match standing_for c active with
  | [] => fallback_proposal c desired
  | standing =>
      foldl (fun desired m =>
        push_justification (cut_signature (m_cut m)) (m_cut m) (m_action m) (justification_of c) desired)
        desired standing
  end.

Record LedgerDelta := mkLedgerDelta {
  ld_proposed : list Mitigation;
  ld_retired : list Mitigation;
  ld_unsevered : list Justification
}.

Definition ledger_delta_is_empty (d : LedgerDelta) : bool :=
  match ld_proposed d, ld_retired d, ld_unsevered d with [], [], [] => true | _, _, _ => false end.

(** The two branches of the chain loop. *)
Definition reconcile_breach (decisions : gmap string IncidentDecision) (active desired : Ledger)
    (c : ProvenChain) : Ledger :=
  match decisions !! pc_entry c with
  | Some d =>
      match d_assessment d, d_cuts d with
      | AAttack, _ :: _ =>
          foldl (fun desired cut =>
            push_justification (cc_cut_signature cut) (cc_cut cut) (cc_action cut)
              (justification_of c) desired) desired (d_cuts d)
      | ANoAttack, _ => desired
      | AUncertain, _ => carry_forward_or_fallback c active desired
      | AAttack, [] => fallback_proposal c desired
      end
  | None => carry_forward_or_fallback c active desired
  end.

Definition reconcile_internal (desired : Ledger) (c : ProvenChain) : Ledger :=
  let primary := containment_for c in
  let desired1 :=
    match primary with
    | Some (cut, action) => push_justification (cut_signature cut) cut action (justification_of c) desired
    | None => desired
    end in
  let entry_additively_contained :=
    match primary with Some (_, action) => is_additive_live action | None => false end in
  foldl (fun desired t =>
    if bool_decide (qt_node t = pc_entry c) && entry_additively_contained then desired
    else match quarantine_workload_link (qt_node t) (qt_labels t) with
         | None => desired
         | Some cut =>
             push_justification (cut_signature cut) cut QuarantineWorkload (justification_of c) desired
         end) desired1 (pc_quarantine_targets c).

Definition reconcile_chain (decisions : gmap string IncidentDecision) (active desired : Ledger)
    (c : ProvenChain) : Ledger :=
  if is_breach_relevant c then reconcile_breach decisions active desired c
  else reconcile_internal desired c.

(** [MitigationLedger::reconcile]: the new ledger and what changed. *)
Definition reconcile (active : Ledger) (chains : list ProvenChain)
    (decisions : gmap string IncidentDecision) : Ledger * LedgerDelta :=
  let desired := foldl (reconcile_chain decisions active) ∅ chains in
  let unsevered :=
    justification_of <$> List.filter (fun c => bool_decide (containment_for c = None)) chains in
  let proposed :=
    (List.filter (fun kv => negb (bool_decide (is_Some (active !! kv.1)))) (btree_iter desired)).*2 in
  let retired :=
    (List.filter (fun kv => negb (bool_decide (is_Some (desired !! kv.1)))) (btree_iter active)).*2 in
  (desired, mkLedgerDelta proposed retired unsevered).
