(* ===== verification/Ledger.v ===== *)
(** * The ledger keeps exactly the justified cuts

    [asks] says which cuts one chain asks for under this cycle's decisions.
    The reconciled ledger is the asks of all chains, grouped by signature: a
    cut stands exactly when a proven chain asks for it, an undecided entry
    keeps what it has, and nothing becomes auto-actionable without either a
    decisive attack or a cut that already stood. *)

From S2P Require Import Prelude Text PetGraph Attack Behavior Classify Graph Chain ChainFacts PathEnum.
From S2P Require Import Objective Corroborate Boundary Prove Respond.
From Stdlib Require Import Sorting.Sorted.

(** ** What a chain asks for *)

(** A request: the signature it is filed under, the cut, the action, why. *)
Record request := mkRequest {
  rq_sig : string;
  rq_cut : Link;
  rq_action : ProposedAction;
  rq_just : Justification
}.

Definition request_for (cut : Link) (action : ProposedAction) (j : Justification) : request :=
  mkRequest (cut_signature cut) cut action j.

Definition fallback_asks (c : ProvenChain) : list request :=
  match containment_for c with
  | None => []
  | Some (cut, action) => [request_for cut action (unadjudicated (justification_of c))]
  end.

Definition undecided_asks (active : Ledger) (c : ProvenChain) : list request :=
  match standing_for c active with
  | [] => fallback_asks c
  | standing => (fun m => request_for (m_cut m) (m_action m) (justification_of c)) <$> standing
  end.

Definition chosen_asks (c : ProvenChain) (cuts : list ChosenCut) : list request :=
  (fun cut => mkRequest (cc_cut_signature cut) (cc_cut cut) (cc_action cut) (justification_of c)) <$> cuts.

Definition target_asks (c : ProvenChain) : list request :=
  let contained := match containment_for c with Some (_, a) => is_additive_live a | None => false end in
  omap (fun t =>
    if bool_decide (qt_node t = pc_entry c) && contained then None
    else cut ← quarantine_workload_link (qt_node t) (qt_labels t);
         Some (request_for cut QuarantineWorkload (justification_of c))) (pc_quarantine_targets c).

Definition asks (decisions : gmap string IncidentDecision) (active : Ledger) (c : ProvenChain)
    : list request :=
  if is_breach_relevant c then
    match decisions !! pc_entry c with
    | None => undecided_asks active c
    | Some d =>
        match d_assessment d with
        | AUncertain => undecided_asks active c
        | ANoAttack => []
        | AAttack => if bool_decide (d_cuts d = []) then fallback_asks c else chosen_asks c (d_cuts d)
        end
    end
  else
    option_list ((fun '(cut, action) => request_for cut action (justification_of c)) <$> containment_for c)
    ++ target_asks c.

(** ** Filing requests *)

Definition file (desired : Ledger) (r : request) : Ledger :=
  push_justification (rq_sig r) (rq_cut r) (rq_action r) (rq_just r) desired.

Definition under_sig (sig : string) (rs : list request) : list request :=
  List.filter (fun r => bool_decide (rq_sig r = sig)) rs.

Lemma foldl_ext' {A B} (f g : A -> B -> A) a l :
  (forall a b, f a b = g a b) -> foldl f a l = foldl g a l.
Proof. intros H. revert a. induction l as [|b l IH]; intros a; simpl; [done|]. by rewrite H, IH. Qed.

Lemma foldl_fmap' {A B C} (f : A -> B -> A) (g : C -> B) a l :
  foldl f a (g <$> l) = foldl (fun a c => f a (g c)) a l.
Proof. revert a. induction l as [|c l IH]; intros a; simpl; [done|]. apply IH. Qed.

Lemma carry_forward_files c active desired :
  carry_forward_or_fallback c active desired = foldl file desired (undecided_asks active c).
Proof.
  unfold carry_forward_or_fallback, undecided_asks, fallback_asks, fallback_proposal.
  destruct (standing_for c active) as [|m ms].
  - by destruct (containment_for c) as [[cut action]|].
  - by rewrite foldl_fmap'.
Qed.

Lemma target_files c desired :
  foldl (fun desired t =>
    if bool_decide (qt_node t = pc_entry c) &&
       match containment_for c with Some (_, action) => is_additive_live action | None => false end
    then desired
    else match quarantine_workload_link (qt_node t) (qt_labels t) with
         | None => desired
         | Some cut =>
             push_justification (cut_signature cut) cut QuarantineWorkload (justification_of c) desired
         end) desired (pc_quarantine_targets c) =
  foldl file desired (target_asks c).
Proof.
  unfold target_asks. revert desired.
  induction (pc_quarantine_targets c) as [|t ts IH]; intros desired; simpl; [done|].
  destruct (_ && _); simpl; [apply IH|].
  destruct (quarantine_workload_link _ _) as [cut|]; simpl; apply IH.
Qed.

(** The loop body of the code files exactly what the chain asks for. *)
Lemma reconcile_chain_files decisions active desired c :
  reconcile_chain decisions active desired c = foldl file desired (asks decisions active c).
Proof.
  unfold reconcile_chain, asks. destruct (is_breach_relevant c).
  - unfold reconcile_breach. destruct (decisions !! pc_entry c) as [d|]; [|apply carry_forward_files].
    destruct (d_assessment d), (d_cuts d) as [|cut cuts] eqn:Ec.
    + unfold fallback_proposal, fallback_asks. by destruct (containment_for c) as [[? ?]|].
    + rewrite bool_decide_eq_false_2 by done. unfold chosen_asks. by rewrite foldl_fmap'.
    + done.
    + done.
    + apply carry_forward_files.
    + apply carry_forward_files.
  - unfold reconcile_internal. rewrite target_files, foldl_app.
    by destruct (containment_for c) as [[cut action]|].
Qed.

Definition all_asks (decisions : gmap string IncidentDecision) (active : Ledger)
    (chains : list ProvenChain) : list request :=
  concat (asks decisions active <$> chains).

Lemma reconcile_files active chains decisions :
  (reconcile active chains decisions).1 = foldl file ∅ (all_asks decisions active chains).
Proof.
  simpl. unfold all_asks. generalize (∅ : Ledger).
  induction chains as [|c chains IH]; intros desired; simpl; [done|].
  by rewrite foldl_app, <- reconcile_chain_files, IH.
Qed.

(** What filing a list of requests leaves under a signature. *)
Lemma file_lookup rs desired sig :
  foldl file desired rs !! sig =
  match desired !! sig, under_sig sig rs with
  | Some m, ys => Some (mkMitigation (m_cut m) (m_action m) (m_justifications m ++ (rq_just <$> ys)))
  | None, [] => None
  | None, y :: ys => Some (mkMitigation (rq_cut y) (rq_action y) (rq_just <$> y :: ys))
  end.
Proof.
  revert desired. induction rs as [|r rs IH]; intros desired; simpl.
  - destruct (desired !! sig) as [[cut action js]|]; simpl; [by rewrite app_nil_r|done].
  - rewrite IH. unfold file, push_justification. rewrite lookup_insert.
    case_bool_decide as Hs; simpl; [rewrite decide_True by done|rewrite decide_False by done].
    + subst sig. destruct (desired !! rq_sig r) as [m|]; simpl; [|done].
      by rewrite <- (assoc_L (++)).
    + destruct (desired !! sig); done.
Qed.

Lemma reconcile_lookup active chains decisions sig :
  (reconcile active chains decisions).1 !! sig =
  match under_sig sig (all_asks decisions active chains) with
  | [] => None
  | y :: ys => Some (mkMitigation (rq_cut y) (rq_action y) (rq_just <$> y :: ys))
  end.
Proof. rewrite reconcile_files, file_lookup, lookup_empty. done. Qed.

Lemma under_sig_elem sig rs r : r ∈ under_sig sig rs <-> rq_sig r = sig /\ r ∈ rs.
Proof. unfold under_sig. by rewrite elem_of_filter_b, bool_decide_eq_true. Qed.

Lemma all_asks_elem decisions active chains r :
  r ∈ all_asks decisions active chains <-> exists c, c ∈ chains /\ r ∈ asks decisions active c.
Proof.
  unfold all_asks. rewrite elem_of_concat. setoid_rewrite list_elem_of_fmap. naive_solver.
Qed.

(** ** Requests and their chains *)

Lemma asks_just decisions active c r :
  r ∈ asks decisions active c ->
  rq_just r = justification_of c \/ (rq_just r = unadjudicated (justification_of c) /\ is_breach_relevant c = true).
Proof.
  assert (forall r, r ∈ fallback_asks c -> rq_just r = unadjudicated (justification_of c)) as Hf.
  { intros x. unfold fallback_asks. destruct (containment_for c) as [[? ?]|].
    - by intros ->%list_elem_of_singleton.
    - by intros ?%not_elem_of_nil. }
  assert (forall r, r ∈ undecided_asks active c ->
    rq_just r = justification_of c \/ rq_just r = unadjudicated (justification_of c)) as Hu.
  { intros x. unfold undecided_asks. destruct (standing_for c active) as [|m ms]; [auto|].
    intros (y & -> & _)%list_elem_of_fmap. by left. }
  unfold asks. destruct (is_breach_relevant c).
  - destruct (decisions !! pc_entry c) as [d|]; [|naive_solver].
    destruct (d_assessment d); [case_bool_decide|..].
    + intros Hr%Hf. auto.
    + intros (y & -> & _)%list_elem_of_fmap. by left.
    + by intros ?%not_elem_of_nil.
    + naive_solver.
  - intros [H|H]%elem_of_app.
    + destruct (containment_for c) as [[cut action]|]; simpl in H; [|by apply not_elem_of_nil in H].
      apply list_elem_of_singleton in H as ->. by left.
    + apply list_elem_of_omap in H as (t & _ & Ht). destruct (_ && _); [done|].
      destruct (quarantine_workload_link _ _); simplify_eq/=. by left.
Qed.

Lemma asks_entry decisions active c r :
  r ∈ asks decisions active c -> j_entry (rq_just r) = pc_entry c /\ j_objective (rq_just r) = pc_objective c.
Proof. by intros [->|[-> _]]%asks_just. Qed.

(** A standing mitigation's justification comes from a request. *)
Lemma reconcile_just active chains decisions sig m j :
  (reconcile active chains decisions).1 !! sig = Some m -> j ∈ m_justifications m ->
  exists c r, c ∈ chains /\ r ∈ asks decisions active c /\ rq_sig r = sig /\ rq_just r = j.
Proof.
  rewrite reconcile_lookup. destruct (under_sig sig _) as [|y ys] eqn:E; [done|].
  intros [= <-] Hj. simpl in Hj. rewrite <- fmap_cons, <- E in Hj.
  apply list_elem_of_fmap in Hj as (r & -> & [Hs Hr]%under_sig_elem).
  apply all_asks_elem in Hr as (c & Hc & Hr). eauto 10.
Qed.

Lemma reconcile_active active chains decisions sig :
  is_Some ((reconcile active chains decisions).1 !! sig) <->
  exists c r, c ∈ chains /\ r ∈ asks decisions active c /\ rq_sig r = sig.
Proof.
  rewrite reconcile_lookup. split.
  - destruct (under_sig sig _) as [|y ys] eqn:E; [by intros [? ?]|]. intros _.
    assert (y ∈ under_sig sig (all_asks decisions active chains)) as Hy by (rewrite E; by left).
    apply under_sig_elem in Hy as [Hs Hy]. apply all_asks_elem in Hy as (c & ? & ?). eauto.
  - intros (c & r & Hc & Hr & Hs).
    assert (r ∈ under_sig sig (all_asks decisions active chains)) as Hy.
    { apply under_sig_elem. split; [done|]. apply all_asks_elem. eauto. }
    destruct (under_sig sig _); [by apply not_elem_of_nil in Hy|]. eauto.
Qed.

(** ** Claims on one reconciliation *)

(** C14: the active set after a reconciliation is exactly the cuts some proven
    chain asks for under this cycle's decisions; each carries at least one
    justification, and every justification is a chain proven this cycle. *)
Theorem ledger_exact active chains decisions sig :
  let ledger := (reconcile active chains decisions).1 in
  (is_Some (ledger !! sig) <->
     exists c r, c ∈ chains /\ r ∈ asks decisions active c /\ rq_sig r = sig) /\
  (forall m, ledger !! sig = Some m ->
     m_justifications m <> [] /\
     m_justifications m = rq_just <$> under_sig sig (all_asks decisions active chains) /\
     forall j, j ∈ m_justifications m ->
       exists c, c ∈ chains /\ j_entry j = pc_entry c /\ j_objective j = pc_objective c).
Proof.
  intros ledger. unfold ledger. split; [apply reconcile_active|]. intros m Hm.
  pose proof Hm as Hm'. rewrite reconcile_lookup in Hm'.
  destruct (under_sig sig _) as [|y ys] eqn:E; [done|]. injection Hm' as <-.
  split; [done|]. split; [done|]. intros j Hj.
  destruct (reconcile_just _ _ _ _ _ _ Hm Hj) as (c & r & Hc & Hr & _ & <-).
  exists c. split; [done|]. by apply asks_entry in Hr.
Qed.

(** What a reconciliation reports is what it did: the proposed mitigations
    are those whose signature was not active before, the retired ones those
    whose signature is not active any more, and the unsevered report lists the
    chains with no containment at all. *)
Theorem ledger_delta_exact active chains decisions :
  let '(ledger, delta) := reconcile active chains decisions in
  (forall m, m ∈ ld_proposed delta <-> exists sig, ledger !! sig = Some m /\ active !! sig = None) /\
  (forall m, m ∈ ld_retired delta <-> exists sig, active !! sig = Some m /\ ledger !! sig = None) /\
  (forall j, j ∈ ld_unsevered delta <->
     exists c, c ∈ chains /\ containment_for c = None /\ j = justification_of c).
Proof.
  assert (forall (a b : Ledger) m,
    m ∈ (List.filter (fun kv => negb (bool_decide (is_Some (a !! kv.1)))) (btree_iter b)).*2 <->
    exists sig, b !! sig = Some m /\ a !! sig = None) as H.
  { intros a b m. rewrite list_elem_of_fmap. split.
    - intros ([k v] & -> & [Hn Hk]%elem_of_filter_b). apply btree_iter_elem in Hk.
      bools. simpl in *. exists k. split; [done|]. by apply eq_None_not_Some.
    - intros (k & Hb & Ha). exists (k, m). split; [done|]. apply elem_of_filter_b. simpl. rewrite Ha.
      split; [by rewrite bool_decide_eq_false_2 by (by intros [? ?])|]. by apply btree_iter_elem. }
  simpl. split; [apply H|]. split; [apply H|]. intros j. rewrite list_elem_of_fmap. split.
  - intros (c & -> & [Hc Hin]%elem_of_filter_b). bools. eauto.
  - intros (c & Hin & Hc & ->). exists c. split; [done|]. apply elem_of_filter_b. by rewrite bool_decide_eq_true.
Qed.

(** ** The ledger across cycles *)

(** The decisions the menu resolver hands out carry their cut's signature. *)
Definition decisions_ok (decisions : gmap string IncidentDecision) : Prop :=
  forall e d cut, decisions !! e = Some d -> cut ∈ d_cuts d -> cc_cut_signature cut = cut_signature (cc_cut cut).

(** Every cut is filed under its own signature and justified. *)
Definition ledger_ok (l : Ledger) : Prop :=
  forall sig m, l !! sig = Some m -> cut_signature (m_cut m) = sig /\ m_justifications m <> [].

Inductive ledger_step : Ledger -> Ledger -> Prop :=
  | ledger_cycle l chains decisions :
      decisions_ok decisions -> ledger_step l (reconcile l chains decisions).1.

Lemma asks_sig decisions active c r :
  decisions_ok decisions -> r ∈ asks decisions active c -> rq_sig r = cut_signature (rq_cut r).
Proof.
  intros Hd.
  assert (forall r, r ∈ fallback_asks c -> rq_sig r = cut_signature (rq_cut r)) as Hf.
  { intros x. unfold fallback_asks. destruct (containment_for c) as [[? ?]|].
    - by intros ->%list_elem_of_singleton.
    - by intros ?%not_elem_of_nil. }
  assert (forall r, r ∈ undecided_asks active c -> rq_sig r = cut_signature (rq_cut r)) as Hu.
  { intros x. unfold undecided_asks. destruct (standing_for c active) as [|m ms]; [auto|].
    by intros (y & -> & _)%list_elem_of_fmap. }
  unfold asks. destruct (is_breach_relevant c).
  - destruct (decisions !! pc_entry c) as [d|] eqn:E; [|auto].
    destruct (d_assessment d); [case_bool_decide|..]; auto.
    + intros (y & -> & Hy)%list_elem_of_fmap. simpl. by eapply Hd.
    + by intros ?%not_elem_of_nil.
  - intros [H|H]%elem_of_app.
    + destruct (containment_for c) as [[cut action]|]; simpl in H; [|by apply not_elem_of_nil in H].
      by apply list_elem_of_singleton in H as ->.
    + apply list_elem_of_omap in H as (t & _ & Ht). destruct (_ && _); [done|].
      by destruct (quarantine_workload_link _ _); simplify_eq/=.
Qed.

Lemma reconcile_ledger_ok active chains decisions :
  decisions_ok decisions -> ledger_ok (reconcile active chains decisions).1.
Proof.
  intros Hd sig m. rewrite reconcile_lookup. destruct (under_sig sig _) as [|y ys] eqn:E; [done|].
  intros [= <-]. split; [|done]. simpl.
  assert (y ∈ under_sig sig (all_asks decisions active chains)) as [Hs Hy]%under_sig_elem by (rewrite E; by left).
  apply all_asks_elem in Hy as (c & _ & Hy). by rewrite <- (asks_sig _ _ _ _ Hd Hy).
Qed.

(** However many cycles the engine runs, whatever chains and decisions they
    bring, the ledger files every cut under that cut's own signature and never
    keeps one without a justification. *)
Theorem ledger_reachable_ok l : rtc ledger_step ∅ l -> ledger_ok l.
Proof.
  intros H. assert (ledger_ok ∅) as H0 by (intros ? ? Hl; by rewrite lookup_empty in Hl). revert H0.
  induction H as [|x y z [l' chains decisions Hd] _ IH]; intros H0; [done|].
  apply IH. by apply reconcile_ledger_ok.
Qed.

(** No decision that settles the entry: none at all, or an inconclusive one. *)
Definition undecided (decisions : gmap string IncidentDecision) (entry : string) : Prop :=
  match decisions !! entry with None => True | Some d => d_assessment d = AUncertain end.

Lemma undecided_asks_eq decisions active c :
  is_breach_relevant c = true -> undecided decisions (pc_entry c) ->
  asks decisions active c = undecided_asks active c.
Proof.
  unfold asks, undecided. intros ->. by destruct (decisions !! pc_entry c) as [d|]; [intros ->|].
Qed.

(** Whether a mitigation is justified by a chain from [entry]. *)
Definition justified_by (m : Mitigation) (entry : string) : Prop :=
  exists j, j ∈ m_justifications m /\ j_entry j = entry.

Lemma standing_for_elem c active m :
  m ∈ standing_for c active <-> (exists sig, active !! sig = Some m) /\ justified_by m (pc_entry c).
Proof.
  unfold standing_for, justified_by. rewrite elem_of_filter_b, existsb_elem, btree_values_elem.
  setoid_rewrite bool_decide_eq_true. naive_solver.
Qed.

(** An undecided cycle never drops a standing cut: if the entry's chain is
    still proven and internet-facing, and the model gave no decision or an
    inconclusive one, every cut already active for that entry stays active. *)
Theorem undecided_keeps_standing active chains decisions c sig m :
  ledger_ok active -> c ∈ chains -> is_breach_relevant c = true ->
  undecided decisions (pc_entry c) ->
  active !! sig = Some m -> justified_by m (pc_entry c) ->
  is_Some ((reconcile active chains decisions).1 !! sig).
Proof.
  intros Hok Hc Hb Hu Hm Hj. apply reconcile_active.
  exists c, (request_for (m_cut m) (m_action m) (justification_of c)). split; [done|].
  split; [|by apply Hok]. rewrite undecided_asks_eq by done. unfold undecided_asks.
  assert (m ∈ standing_for c active) as Hs by (apply standing_for_elem; eauto).
  destruct (standing_for c active) as [|m' ms]; [by apply not_elem_of_nil in Hs|].
  apply (list_elem_of_fmap_2 (fun m => request_for (m_cut m) (m_action m) (justification_of c))). done.
Qed.

(** C40: a decisive "no attack" retires: once the model clears an internet-facing
    entry, no active cut is justified by a chain from it, so a cut only that
    entry justified is gone. *)
Theorem no_attack_retires active chains decisions entry d :
  decisions !! entry = Some d -> d_assessment d = ANoAttack ->
  (forall c, c ∈ chains -> pc_entry c = entry -> is_breach_relevant c = true) ->
  forall sig m, (reconcile active chains decisions).1 !! sig = Some m -> ~ justified_by m entry.
Proof.
  intros Hd Ha Hb sig m Hm (j & Hj & He).
  destruct (reconcile_just _ _ _ _ _ _ Hm Hj) as (c & r & Hc & Hr & _ & <-).
  pose proof (asks_entry _ _ _ _ Hr) as [He' _]. rewrite He in He'. symmetry in He'.
  unfold asks in Hr. rewrite (Hb c Hc He'), He', Hd, Ha in Hr. by apply not_elem_of_nil in Hr.
Qed.

(** An entry that makes a mitigation live: where its justification comes from. *)
Lemma live_entry_provenance active chains decisions sig m e :
  ledger_ok active ->
  (reconcile active chains decisions).1 !! sig = Some m -> e ∈ live_corroborating_entries m ->
  exists c, c ∈ chains /\ pc_entry c = e /\ is_breach_relevant c = true /\ pc_adjudicated c = true /\
    (pc_corroborated c = true \/ pc_promoted c = true) /\
    ((exists d cut, decisions !! pc_entry c = Some d /\ d_assessment d = AAttack /\
        cut ∈ d_cuts d /\ cc_cut_signature cut = sig) \/
     (undecided decisions (pc_entry c) /\
        exists m0, active !! sig = Some m0 /\ justified_by m0 (pc_entry c))).
Proof.
  intros Hok Hm (j & -> & [Hb Hj]%elem_of_filter_b)%list_elem_of_fmap.
  destruct (reconcile_just _ _ _ _ _ _ Hm Hj) as (c & r & Hc & Hr & Hs & <-).
  destruct (asks_just _ _ _ _ Hr) as [Hju|[Hju _]]; rewrite Hju in Hb; simpl in Hb;
    [|by rewrite andb_false_r in Hb].
  apply andb_true_iff in Hb as [[Hcp Had]%andb_true_iff Hbr]. apply orb_true_iff in Hcp.
  exists c. split; [done|]. split; [by destruct (asks_just _ _ _ _ Hr) as [->|[-> _]]|].
  do 3 (split; [done|]).
  unfold asks in Hr. rewrite Hbr in Hr.
  assert (forall r, r ∈ undecided_asks active c -> rq_just r = justification_of c -> rq_sig r = sig ->
    exists m0, active !! sig = Some m0 /\ justified_by m0 (pc_entry c)) as Hund.
  { clear -Hok Had. intros r Hr Hju Hs. unfold undecided_asks in Hr.
    destruct (standing_for c active) as [|m ms] eqn:E.
    - exfalso. unfold fallback_asks in Hr. destruct (containment_for c) as [[? ?]|];
        [|by apply not_elem_of_nil in Hr]. apply list_elem_of_singleton in Hr as ->.
      apply (f_equal j_adjudicated) in Hju. simpl in Hju. congruence.
    - rewrite <- E in Hr. apply list_elem_of_fmap in Hr as (m' & -> & Hm').
      apply standing_for_elem in Hm' as [[sig' Hsig'] Hj']. exists m'. split; [|done].
      destruct (Hok _ _ Hsig') as [Heq _]. simpl in Hs. congruence. }
  unfold undecided. destruct (decisions !! pc_entry c) as [d|] eqn:Ed; [|right; eauto].
  destruct (d_assessment d) eqn:Ea; [case_bool_decide as Hn| |right; eauto].
  - exfalso. unfold fallback_asks in Hr. destruct (containment_for c) as [[? ?]|];
      [|by apply not_elem_of_nil in Hr]. apply list_elem_of_singleton in Hr as ->.
    apply (f_equal j_adjudicated) in Hju. simpl in Hju. congruence.
  - apply list_elem_of_fmap in Hr as (cut & -> & Hcut). left. by exists d, cut.
  - by apply not_elem_of_nil in Hr.
Qed.

(** A cut is auto-actionable after a cycle only through a proven,
    internet-facing, corroborated or promoted, unvetoed chain, and then only
    if a decisive attack named that very cut or the cut already stood for that
    entry: fallback proposals of this cycle and internal chains never qualify. *)
Theorem auto_action_provenance active chains decisions sig m :
  ledger_ok active ->
  (reconcile active chains decisions).1 !! sig = Some m -> is_live_corroborated m = true ->
  exists c, c ∈ chains /\ is_breach_relevant c = true /\ pc_adjudicated c = true /\
    (pc_corroborated c = true \/ pc_promoted c = true) /\
    ((exists d cut, decisions !! pc_entry c = Some d /\ d_assessment d = AAttack /\
        cut ∈ d_cuts d /\ cc_cut_signature cut = sig) \/
     (undecided decisions (pc_entry c) /\
        exists m0, active !! sig = Some m0 /\ justified_by m0 (pc_entry c))).
Proof.
  intros Hok Hm Hl. unfold is_live_corroborated in Hl. apply bool_decide_eq_true in Hl.
  destruct (live_corroborating_entries m) as [|e es] eqn:E; [done|].
  destruct (live_entry_provenance active chains decisions sig m e Hok Hm ltac:(rewrite E; by left)) as (c & H).
  exists c. tauto.
Qed.

(** ** The containment ladder against the proof *)

(** The label of a relation decides its action, and only network relations get
    the network deny. *)
Lemma for_cut_relation l r :
  l_relation l = relation_label r ->
  for_cut l = match r with
              | Reaches _ _ | CanEgress _ => DenyNetworkPath
              | CanDo _ _ => RevokeRbacGrant
              | CanRead => RemoveSecretMount
              | EscapesTo _ => RemoveEscapePrimitive
              | RunsAs => RebindIdentity
              | RunsImage | ScheduledOn => Unclassified
              end.
Proof. unfold for_cut. intros ->. by destruct r as [[p|] ?| | | | | | |]. Qed.

Section Containment.
Context {G : Type} `{SGL : StableGraphLaws G Node Edge}.
Implicit Types sg : SecurityGraph G.

Lemma step_link_relation sg s l :
  step_link sg s = Some l ->
  exists e, sg_edge_weight (inner sg) s.2 = Some e /\ l_relation l = relation_label (e_relation e).
Proof.
  destruct s as [[u v] e]. unfold step_link, link_of.
  intros (w & Hw & (ku & _ & (kv & _ & [= <-])%bind_Some)%bind_Some)%bind_Some. simpl. eauto.
Qed.

Lemma containment_cases c cut action :
  containment_for c = Some (cut, action) -> is_additive_live action = true ->
  (cut ∈ pc_single_edge_cuts c /\ for_cut cut = DenyNetworkPath /\ action = DenyNetworkPath) \/
  (is_breach_relevant c = true /\ quarantine_link c = Some cut /\ action = QuarantineEntry).
Proof.
  assert (forall l, is_additive_live (for_cut l) = true -> for_cut l = DenyNetworkPath) as Hadd.
  { intros l. unfold for_cut. repeat case_match; done. }
  unfold containment_for. destruct (List.find _ _) as [l|] eqn:E.
  - intros [= <- <-] _. apply find_elem in E as [Hin Hb]. bools. left. auto.
  - assert (forall cut action, (fun cut => (cut, for_cut cut)) <$> head (pc_single_edge_cuts c) = Some (cut, action) ->
      is_additive_live action = true ->
      cut ∈ pc_single_edge_cuts c /\ for_cut cut = DenyNetworkPath /\ action = DenyNetworkPath) as Hdur.
    { intros cut' a'. destruct (pc_single_edge_cuts c) as [|l ls]; simpl; [done|].
      intros [= <- <-] Ha. split; [by left|]. split; by apply Hadd. }
    destruct (is_breach_relevant c) eqn:Eb; [|intros; left; by apply Hdur].
    destruct (quarantine_link c) as [l|] eqn:El; [|intros; left; by apply Hdur].
    intros [= <- <-] _. by right.
Qed.

(** A containment the engine could apply on its own really contains: a
    network deny is on a [reaches] or [can-egress] edge that every gated attack
    path of the chain crosses, and an entry quarantine selects the chain's own
    internet-facing entry by its nonempty labels, never another workload. *)
Theorem additive_containment_sound sg recognizers chains c cut action :
  prove_with sg recognizers = Some chains -> c ∈ chains ->
  containment_for c = Some (cut, action) -> is_additive_live action = true ->
  exists entry objective w,
    sg_node_weight (inner sg) entry = Some (NWorkload w) /\
    key_of sg entry = Some (pc_entry c) /\ key_of sg objective = Some (pc_objective c) /\
    ((action = DenyNetworkPath /\ exists e edge, sg_edge_weight (inner sg) e = Some edge /\
        (exists u v, step_link sg (u, v, e) = Some cut) /\ is_network_hop sg e = true /\
        forall p, gpath sg entry None p objective -> e ∈ p.*2) \/
     (action = QuarantineEntry /\ entry_exposed sg entry = true /\ w_labels w <> ∅ /\
        l_from cut = pc_entry c /\ l_to cut = pc_entry c /\ l_from_labels cut = w_labels w)).
Proof.
  intros Hp Hin Hc Ha. destruct (prove_with_spec sg recognizers) as (chains' & Hp' & Hs & _).
  rewrite Hp in Hp'. injection Hp' as <-.
  destruct (Hs c Hin) as (entry & w & ob & at' & p & cs & Hw & _ & Hne & Hj).
  destruct Hj as [Hke Hko _ _ Hex _ _ (Hgp & _) Hl [Hm Hsev] _ _].
  exists entry, ob, w. split; [done|]. split; [done|]. split; [done|].
  destruct (containment_cases _ _ _ Hc Ha) as [(Hcut & Hfor & ->)|(Hb & Hq & ->)]; [left|right]; (split; [done|]).
  - apply (mapM_elem _ _ _ _ Hm) in Hcut as ([[u v] e] & Hs' & Hlink).
    destruct (step_link_relation _ _ _ Hlink) as (edge & Hedge & Hrel). exists e, edge.
    split; [done|]. split; [by exists u, v|]. split.
    + rewrite (for_cut_relation _ _ Hrel) in Hfor. unfold is_network_hop. simpl in Hedge. rewrite Hedge.
      by destruct (e_relation edge).
    + apply Hsev. apply list_elem_of_fmap. by exists (u, v, e).
  - split; [by rewrite <- Hex|]. unfold quarantine_link in Hq.
    destruct p as [|[[u v] e] p]; [inversion Hgp as [|? ? ? ? ? ? Hn]; [done|by destruct p]|].
    destruct (gpath_app_inv _ _ [] _ _ Hgp ltac:(done) entry (gpath_nil _ _ _)) as (? & ? & ? & [= -> -> -> ->] & _).
    apply mapM_Some_1 in Hl. destruct (pc_links c) as [|l ls]; [by inversion Hl|].
    apply Forall2_cons in Hl as [Hlink _]. simpl in Hq. case_bool_decide as Hlab; [done|]. injection Hq as <-. simpl.
    assert (l_from_labels l = w_labels w) as Heq; [|by rewrite Heq in *].
    unfold step_link, link_of in Hlink.
    apply bind_Some in Hlink as (? & _ & (? & _ & (? & _ & [= <-])%bind_Some)%bind_Some). simpl.
    unfold workload_labels. by rewrite Hw.
Qed.

End Containment.

(** ** Witnesses *)

(** An internet-facing, corroborated chain over one network hop. *)
Definition sample_link : Link :=
  mkLink "workload/app/Pod/web" "workload/app/Pod/db" "reaches/Tcp" None
    {["app" := "web"]} {["app" := "db"]}.

Definition sample_proven (exposed : bool) : ProvenChain :=
  mkChain "workload/app/Pod/web" "workload/app/Pod/db" DATA_FROM_REPOSITORY None true true false exposed
    None [sample_link] [[sample_link]] false [sample_link] [].

Definition sample_sig : string := cut_signature sample_link.

Definition attack_decision : IncidentDecision :=
  mkDecision AAttack "live" [mkChosen "workload/app/Pod/web" DenyNetworkPath sample_link sample_sig].

Definition sample_decisions : gmap string IncidentDecision :=
  {["workload/app/Pod/web" := attack_decision]}.

Lemma sample_decisions_ok : decisions_ok sample_decisions.
Proof.
  intros e d cut. unfold sample_decisions. rewrite lookup_singleton_Some. intros [<- <-].
  simpl. by intros ->%list_elem_of_singleton.
Qed.

(** The ledger after one cycle with that decision. *)
Definition sample_ledger : Ledger := (reconcile ∅ [sample_proven true] sample_decisions).1.

Lemma ledger_reachable_ok_witness :
  rtc ledger_step ∅ sample_ledger /\ ledger_ok sample_ledger /\ is_Some (sample_ledger !! sample_sig).
Proof.
  assert (rtc ledger_step ∅ sample_ledger) as H by (apply rtc_once, ledger_cycle, sample_decisions_ok).
  split; [exact H|]. split; [apply (ledger_reachable_ok _ H)|]. vm_compute. eauto.
Defined.

Lemma sample_ledger_ok : ledger_ok sample_ledger.
Proof. apply reconcile_ledger_ok, sample_decisions_ok. Qed.

Lemma sample_standing :
  exists m, sample_ledger !! sample_sig = Some m /\ justified_by m "workload/app/Pod/web".
Proof.
  eexists. split; [vm_compute; reflexivity|]. eexists. split; [by left|]. done.
Qed.

Lemma undecided_keeps_standing_witness :
  is_Some ((reconcile sample_ledger [sample_proven true] ∅).1 !! sample_sig).
Proof.
  destruct sample_standing as (m & Hm & Hj).
  apply (undecided_keeps_standing sample_ledger [sample_proven true] ∅ (sample_proven true) sample_sig m);
    [apply sample_ledger_ok|by left|reflexivity|exact I|exact Hm|exact Hj].
Defined.

(** The same cut asked for by a second front door. *)
Definition api_proven : ProvenChain :=
  mkChain "workload/app/Pod/api" "workload/app/Pod/db" DATA_FROM_REPOSITORY None true true false true
    None [sample_link] [[sample_link]] false [sample_link] [].

Definition web_cleared : gmap string IncidentDecision :=
  {["workload/app/Pod/web" := mkDecision ANoAttack "cleared" []]}.

Lemma no_attack_retires_witness :
  exists m, (reconcile sample_ledger [sample_proven true; api_proven] web_cleared).1 !! sample_sig = Some m /\
    justified_by m "workload/app/Pod/api" /\ ~ justified_by m "workload/app/Pod/web".
Proof.
  destruct ((reconcile sample_ledger [sample_proven true; api_proven] web_cleared).1 !! sample_sig) as [m|] eqn:E;
    [|vm_compute in E; discriminate E].
  exists m. split; [reflexivity|]. split.
  - vm_compute in E. injection E as <-. eexists. split; [left|reflexivity].
  - apply (no_attack_retires sample_ledger [sample_proven true; api_proven] web_cleared "workload/app/Pod/web"
      (mkDecision ANoAttack "cleared" []) eq_refl eq_refl) with sample_sig; [|exact E].
    intros c [->| ->%list_elem_of_singleton]%elem_of_cons _; reflexivity.
Defined.

Lemma auto_action_provenance_witness :
  exists c, c ∈ [sample_proven true] /\ is_breach_relevant c = true /\ pc_adjudicated c = true /\
    (pc_corroborated c = true \/ pc_promoted c = true) /\
    ((exists d cut, sample_decisions !! pc_entry c = Some d /\ d_assessment d = AAttack /\
        cut ∈ d_cuts d /\ cc_cut_signature cut = sample_sig) \/
     (undecided sample_decisions (pc_entry c) /\
        exists m0, (∅ : Ledger) !! sample_sig = Some m0 /\ justified_by m0 (pc_entry c))).
Proof.
  destruct (sample_ledger !! sample_sig) as [m|] eqn:E; [|vm_compute in E; discriminate].
  apply (auto_action_provenance ∅ [sample_proven true] sample_decisions sample_sig m).
  - intros sig m' H. discriminate.
  - exact E.
  - vm_compute in E. injection E as <-. vm_compute. reflexivity.
Defined.

(** A fallback proposal is stamped unadjudicated so that it stays with a
    human, but the stamp lasts one cycle: with no decision again, the proposal
    now counts as a standing cut, is carried forward under the chain's own
    justification, and becomes auto-actionable without any decision. *)
Theorem fallback_live_on_second_undecided_cycle :
  let first := (reconcile ∅ [sample_proven true] ∅).1 in
  let second := (reconcile first [sample_proven true] ∅).1 in
  (exists m, first !! sample_sig = Some m /\ is_live_corroborated m = false) /\
  (exists m, second !! sample_sig = Some m /\ is_live_corroborated m = true).
Proof.
  split; (eexists; split; [vm_compute; reflexivity|vm_compute; reflexivity]).
Qed.

(** A labelled front door next to a database. *)
Definition web_and_db : cluster :=
  default graph_new (build
    [NWorkload (mkWorkload "app" "web" "Pod" {["app" := "web"]} false Internet [] false [] []);
     NWorkload (mkWorkload "app" "db" "Pod" {["app" := "db"]} false Internal [] true [] [])]
    [(0, 1, Reaches None Tcp)]).

Lemma additive_containment_sound_witness :
  exists c cut entry objective w,
    containment_for c = Some (cut, DenyNetworkPath) /\
    sg_node_weight (inner web_and_db) entry = Some (NWorkload w) /\
    ((DenyNetworkPath = DenyNetworkPath /\ exists e edge, sg_edge_weight (inner web_and_db) e = Some edge /\
        (exists u v, step_link web_and_db (u, v, e) = Some cut) /\ is_network_hop web_and_db e = true /\
        forall p, gpath web_and_db entry None p objective -> e ∈ p.*2) \/
     (DenyNetworkPath = QuarantineEntry /\ entry_exposed web_and_db entry = true /\ w_labels w <> ∅ /\
        l_from cut = pc_entry c /\ l_to cut = pc_entry c /\ l_from_labels cut = w_labels w)).
Proof.
  assert ((fun c => snd <$> containment_for c) <$> sample_chain web_and_db = Some (Some DenyNetworkPath)) as H
    by (vm_compute; reflexivity).
  apply fmap_Some in H as (c & (chains & Hp & Hc)%bind_Some & Ha).
  symmetry in Ha. apply fmap_Some in Ha as ([cut action] & Hcut & Hact). simpl in Hact. subst action.
  assert (c ∈ chains) as Hin by (destruct chains; [discriminate|injection Hc as <-; by left]).
  destruct (additive_containment_sound web_and_db default_recognizers chains c cut DenyNetworkPath
              Hp Hin Hcut eq_refl) as (entry & objective & w & Hw & _ & _ & Hres).
  exists c, cut, entry, objective, w. split; [exact Hcut|]. split; [exact Hw|exact Hres].
Defined.
