(* ===== verification/Actuator.v ===== *)
(** * Deciding, applying and reverting cuts

    engine/src/engine/observe/health.rs (the report), respond/actuator/mod.rs
    (arming, scope, blast radius, the decision), arming_ladder.rs, log.rs (the
    applied-action log) and scope_preview.rs. *)

From S2P Require Import Prelude Text PetGraph Attack Behavior Classify Graph Chain Prove Boundary Respond.

(** ** observe/health.rs *)

Inductive Health := Alive | Degraded | Halted.

#[export] Instance Health_eq_dec : EqDecision Health.
Proof. solve_decision. Defined.

Definition health_label (h : Health) : string :=
  match h with Alive => "alive" | Degraded => "degraded" | Halted => "halted" end.

Abbreviation HealthReport := (gmap NodeKey Health).

(** No signal means alive. *)
Definition health_of (r : HealthReport) (key : NodeKey) : Health := default Alive (r !! key).

Definition alive_workloads (r : HealthReport) : list string :=
  (List.filter (fun kv => bool_decide (kv.2 = Alive)) (btree_iter r)).*1.

(** ** Arming *)

Definition action_code (a : ProposedAction) : nat :=
  match a with
  | DenyNetworkPath => 0 | RevokeRbacGrant => 1 | RemoveSecretMount => 2 | RemoveEscapePrimitive => 3
  | RebindIdentity => 4 | QuarantineEntry => 5 | QuarantineWorkload => 6 | ContainNode => 7
  | Unclassified => 8
  end.

Definition code_action (n : nat) : ProposedAction :=
  match n with
  | 0 => DenyNetworkPath | 1 => RevokeRbacGrant | 2 => RemoveSecretMount | 3 => RemoveEscapePrimitive
  | 4 => RebindIdentity | 5 => QuarantineEntry | 6 => QuarantineWorkload | 7 => ContainNode
  | _ => Unclassified
  end.

#[export] Instance ProposedAction_countable : Countable ProposedAction.
Proof. apply (inj_countable' action_code code_action). by intros []. Defined.

Definition actions_from_name (name : string) : list ProposedAction :=
  if bool_decide (trim name = "network")
  then [DenyNetworkPath; QuarantineEntry; QuarantineWorkload] else [].

Record EnabledActions := mkEnabled { ea_enabled : gset ProposedAction; ea_judgement : bool }.

Definition enabled_none : EnabledActions := mkEnabled ∅ false.

Definition enable (e : EnabledActions) (a : ProposedAction) : EnabledActions :=
  mkEnabled ({[a]} ∪ ea_enabled e) (ea_judgement e).

Definition from_names (names : list string) : EnabledActions :=
  foldl (fun policy name =>
    if bool_decide (trim name = "judgement") then mkEnabled (ea_enabled policy) true
    else foldl enable policy (actions_from_name name)) enabled_none names.

Definition is_enabled (e : EnabledActions) (a : ProposedAction) : bool := bool_decide (a ∈ ea_enabled e).

Definition enabled_is_empty (e : EnabledActions) : bool := bool_decide (ea_enabled e = ∅).

(** *** arming_ladder.rs *)

Inductive ArmingRung := EdgeCut | Quarantine | NodeRung.

Definition rung_from_name (name : string) : ArmingRung :=
  let n := trim name in
  if bool_decide (n = "quarantine") then Quarantine
  else if bool_decide (n = "node") then NodeRung
  else EdgeCut.

Definition enabled_actions (r : ArmingRung) : EnabledActions :=
  let armed := enable enabled_none DenyNetworkPath in
  let quarantines := fun armed => enable (enable armed QuarantineEntry) QuarantineWorkload in
  match r with
  | EdgeCut => armed
  | Quarantine => quarantines armed
  | NodeRung => enable (quarantines armed) ContainNode
  end.

(** ** Scope *)

Definition workload_namespace (key : NodeKey) : option string :=
  if bool_decide (kind_of key = "workload") then key_namespace key else None.

Record ActuationScope := mkScope { as_namespaces : gset string; as_labels : list (string * string) }.

Definition is_unscoped (s : ActuationScope) : bool :=
  bool_decide (as_namespaces s = ∅) && bool_decide (as_labels s = []).

Definition endpoint_in_scope (s : ActuationScope) (namespace : string) (labels : gmap string string) : bool :=
  bool_decide (namespace ∈ as_namespaces s) ||
  existsb (fun '(k, v) => bool_decide (labels !! k = Some v)) (as_labels s).

Definition endpoints_within (s : ActuationScope) (m : Mitigation) : bool :=
  forallb (fun '(ns, labels) => endpoint_in_scope s ns labels)
    (omap (fun '(key, labels) => ns ← workload_namespace key; Some (ns, labels))
      [(l_from (m_cut m), l_from_labels (m_cut m)); (l_to (m_cut m), l_to_labels (m_cut m))]).

Definition in_scope (s : ActuationScope) (m : Mitigation) : bool :=
  if bool_decide (as_namespaces s = ∅) && bool_decide (as_labels s = []) then true
  else endpoints_within s m.

(** ** Blast radius *)

Record BlastRadius := mkBlast { br_alive_collateral : list string; br_reachability_incomplete : bool }.

Section Blast.
Context {G : Type} `{SG : !StableGraph G Node Edge}.

Definition is_reaches (r : Relation) : bool := match r with Reaches _ _ => true | _ => false end.

Definition predict_blast_radius (m : Mitigation) (sg : SecurityGraph G) (health : HealthReport) : BlastRadius :=
  let target := l_to (m_cut m) in
  match index_of sg (l_from (m_cut m)) with
  | None => mkBlast [] (reachability_incomplete sg)
  | Some src_idx =>
      let peers :=
        omap (fun r =>
          match node sg (er_target r) with
          | Some (NWorkload _) => key_of sg (er_target r)
          | _ => None
          end)
          (List.filter (fun r => is_reaches (e_relation (er_weight r))) (sg_edges (inner sg) src_idx)) in
      let collateral :=
        List.filter (fun peer => bool_decide (health_of health peer = Alive))
          (List.filter (fun peer => negb (bool_decide (peer = target))) peers) in
      mkBlast (dedup_by (fun a b => bool_decide (a = b)) (sort_by str_leb collateral))
        (reachability_incomplete sg)
  end.

End Blast.

(** ** The decision *)

Inductive CutDecision := AutoApply | Propose (why : string) | Forbidden (why : string).

#[export] Instance CutDecision_eq_dec : EqDecision CutDecision.
Proof. solve_decision. Defined.

Definition decide_cut (m : Mitigation) (active : EnabledActions) (scope : ActuationScope)
    (blast : BlastRadius) : CutDecision :=
  if negb (is_reversible (m_action m)) then Forbidden "irreversible action is never auto-enabled"
  else if negb (is_additive_live (m_action m)) then
    Forbidden "subtractive remediation — durable-fix PR only, not live-actuatable"
  else if br_reachability_incomplete blast then
    Propose "reachability is not fully modeled (unmodeled NetworkPolicy peers/selectors), so blast radius may be under-counted; needs approval"
  else if negb (bool_decide (br_alive_collateral blast = [])) then
    Propose ("would affect " +:+ pretty (length (br_alive_collateral blast)) +:+
             " currently-alive workload(s); needs approval")
  else if negb (is_live_corroborated m) then
    Propose "no justifying chain is live-corroborated and adjudicator-confirmed"
  else if negb (is_enabled active (m_action m)) then Propose "action class not enabled"
  else if negb (in_scope scope m) then
    Propose "cut's namespace is outside the engine actuation allowlist (PROTECTOR_ENGINE_ENFORCE_NAMESPACES); needs approval"
  else AutoApply.

(** ** Verification and the action log (log.rs) *)

Inductive VerifyVerdict := Hold | RevertFor (why : string).

Fixpoint verify (predicted_alive : list string) (observed : HealthReport) : VerifyVerdict :=
  match predicted_alive with
  | [] => Hold
  | key :: rest =>
      if bool_decide (health_of observed key = Alive) then verify rest observed
      else RevertFor ("workload " +:+ key +:+ " is no longer alive after the action")
  end.

Record ActiveAction := mkActive { aa_mitigation : Mitigation; aa_baseline_alive : list string }.

Record Reversion := mkReversion { rv_mitigation : Mitigation; rv_reason : string }.

Abbreviation ActionLog := (list ActiveAction).

Definition m_signature (m : Mitigation) : string := cut_signature (m_cut m).

Definition log_record (log : ActionLog) (m : Mitigation) (baseline_alive : list string) : ActionLog :=
  List.filter (fun a => negb (bool_decide (m_signature (aa_mitigation a) = m_signature m))) log
  ++ [mkActive m baseline_alive].

Definition log_is_active (log : ActionLog) (m : Mitigation) : bool :=
  existsb (fun a => bool_decide (m_signature (aa_mitigation a) = m_signature m)) log.

(** Why an action reverts this cycle, if it does. *)
Definition revert_reason (health : HealthReport) (justified_cuts : gset string) (active : EnabledActions)
    (a : ActiveAction) : option string :=
  match verify (aa_baseline_alive a) health with
  | RevertFor reason => Some reason
  | Hold =>
      if negb (is_enabled active (m_action (aa_mitigation a))) then
        Some "action class no longer armed (mode/enforceScope narrowed, or break-glass engaged)"
      else if negb (bool_decide (m_signature (aa_mitigation a) ∈ justified_cuts)) then
        Some "no proven chain still justifies this control"
      else None
  end.

Fixpoint log_reconcile (log : ActionLog) (health : HealthReport) (justified_cuts : gset string)
    (active : EnabledActions) : ActionLog * list Reversion :=
  match log with
  | [] => ([], [])
  | a :: log' =>
      let '(keep, reversions) := log_reconcile log' health justified_cuts active in
      match revert_reason health justified_cuts active a with
      | Some reason => (keep, mkReversion (aa_mitigation a) reason :: reversions)
      | None => (a :: keep, reversions)
      end
  end.

(** ** scope_preview.rs *)

Record FiringCut := mkFiring {
  fc_cut : string;
  fc_action : ProposedAction;
  fc_alive_collateral : list string;
  fc_collateral_unknown : bool
}.

Record HeldCut := mkHeld { hc_cut : string; hc_action : ProposedAction }.

Record ScopePreview := mkPreview { sp_would_fire : list FiringCut; sp_held_out_of_scope : list HeldCut }.

Definition would_ever_act (m : Mitigation) : bool :=
  is_reversible (m_action m) && is_additive_live (m_action m) && is_live_corroborated m.

Definition preview_scope (standing : list (Mitigation * BlastRadius)) (candidate : ActuationScope)
    : ScopePreview :=
  let eligible := List.filter (fun mb => would_ever_act mb.1) standing in
  mkPreview
    (sort_by (fun a b => str_leb (fc_cut a) (fc_cut b))
      ((fun mb => mkFiring (m_signature mb.1) (m_action mb.1) (br_alive_collateral mb.2)
                    (br_reachability_incomplete mb.2)) <$>
       List.filter (fun mb => endpoints_within candidate mb.1) eligible))
    (sort_by (fun a b => str_leb (hc_cut a) (hc_cut b))
      ((fun mb => mkHeld (m_signature mb.1) (m_action mb.1)) <$>
       List.filter (fun mb => negb (endpoints_within candidate mb.1)) eligible)).
