(* ===== verification/ActuatorFacts.v ===== *)
(** * What may act, and when it stops acting

    The decision auto-applies only through all its gates, the blast radius is
    exact, the arming ladder is monotone, the action log keeps one entry per
    cut and reverts exactly what lost its reason to stand, and the scope
    preview agrees with the decision. *)

From S2P Require Import Prelude Text PetGraph Attack Behavior Classify Graph Chain Prove Boundary Respond Actuator.
From Stdlib Require Import Sorting.Sorted.

(** ** The decision *)

(** Everything an automatic application requires. *)
Record auto_gates (m : Mitigation) (active : EnabledActions) (scope : ActuationScope)
    (blast : BlastRadius) : Prop := {
  ag_class : m_action m = DenyNetworkPath \/ m_action m = QuarantineEntry \/ m_action m = QuarantineWorkload;
  ag_modelled : br_reachability_incomplete blast = false;
  ag_no_collateral : br_alive_collateral blast = [];
  ag_live : exists j, j ∈ m_justifications m /\ (j_corroborated j = true \/ j_promoted j = true) /\
    j_adjudicated j = true /\ j_breach_relevant j = true;
  ag_armed : m_action m ∈ ea_enabled active;
  ag_scope : in_scope scope m = true
}.

Lemma is_live_corroborated_spec m :
  is_live_corroborated m = true <->
  exists j, j ∈ m_justifications m /\ (j_corroborated j = true \/ j_promoted j = true) /\
    j_adjudicated j = true /\ j_breach_relevant j = true.
Proof.
  unfold is_live_corroborated, live_corroborating_entries. rewrite bool_decide_eq_true.
  set (f := fun j => _). split.
  - destruct (List.filter f (m_justifications m)) as [|j js] eqn:E; [done|]. intros _.
    assert (j ∈ List.filter f (m_justifications m)) as [Hf Hj]%elem_of_filter_b by (rewrite E; by left).
    unfold f in Hf. bools. eauto 10.
  - intros (j & Hj & Hc & Ha & Hb) Hn. apply fmap_nil_inv in Hn.
    assert (j ∈ List.filter f (m_justifications m)) as Hin.
    { apply elem_of_filter_b. split; [|done]. unfold f. rewrite Ha, Hb, !andb_true_r. by apply orb_true_iff. }
    rewrite Hn in Hin. by apply not_elem_of_nil in Hin.
Qed.

Lemma decide_auto_spec m active scope blast :
  decide_cut m active scope blast = AutoApply <-> auto_gates m active scope blast.
Proof.
  unfold decide_cut. split.
  - intros H. destruct (is_reversible (m_action m)) eqn:Hr; [|done].
    destruct (is_additive_live (m_action m)) eqn:Ha; [|done].
    destruct (br_reachability_incomplete blast) eqn:Hi; [done|]. simpl in H.
    case_bool_decide as Hc; [|done]. simpl in H.
    destruct (is_live_corroborated m) eqn:Hl; [|done]. destruct (is_enabled active (m_action m)) eqn:He; [|done].
    destruct (in_scope scope m) eqn:Hs; [|done]. split; [|done|done| | |done].
    + destruct (m_action m); try done; auto.
    + by apply is_live_corroborated_spec.
    + by apply bool_decide_eq_true in He.
  - intros [Hc Hm Hn Hl He Hs]. apply is_live_corroborated_spec in Hl.
    assert (is_reversible (m_action m) = true /\ is_additive_live (m_action m) = true) as [-> ->]
      by (by destruct Hc as [->|[->| ->]]).
    unfold is_enabled. rewrite Hm, Hl, Hs, !bool_decide_eq_true_2 by done. done.
Qed.

(** A cut is applied automatically only when every gate holds at once: an
    additive and reversible network class, fully modelled reachability, no
    living bystander, an unvetoed corroborated or promoted internet-facing
    chain, an armed class and an in-scope cut; and then it always is. Node
    containment and subtractive or irreversible remediation never are. *)
Theorem decide_auto_exact m active scope blast :
  (decide_cut m active scope blast = AutoApply <-> auto_gates m active scope blast) /\
  (decide_cut m active scope blast = AutoApply -> m_action m <> ContainNode).
Proof.
  split; [apply decide_auto_spec|]. intros [Hc _ _ _ _ _]%decide_auto_spec Heq. rewrite Heq in Hc. naive_solver.
Qed.

(** ** Blast radius *)

Section BlastFacts.
Context {G : Type} `{SGL : StableGraphLaws G Node Edge}.

(** The predicted collateral is exactly the living workloads the cut's
    source reaches over the network, other than the endpoint it means to sever,
    each listed once in order; unmodelled reachability is always passed on. *)
Theorem blast_radius_exact m (sg : SecurityGraph G) health :
  let blast := predict_blast_radius m sg health in
  (forall key, key ∈ br_alive_collateral blast <->
     exists src r w, index_of sg (l_from (m_cut m)) = Some src /\ r ∈ sg_edges (inner sg) src /\
       is_reaches (e_relation (er_weight r)) = true /\ node sg (er_target r) = Some (NWorkload w) /\
       key_of sg (er_target r) = Some key /\ key <> l_to (m_cut m) /\ health_of health key = Alive) /\
  StronglySorted (fun a b => str_leb a b = true /\ a <> b) (br_alive_collateral blast) /\
  br_reachability_incomplete blast = reachability_incomplete sg.
Proof.
  intros blast. unfold blast, predict_blast_radius.
  destruct (index_of sg (l_from (m_cut m))) as [src|] eqn:Hs; simpl.
  2: { split; [|split; [constructor|done]]. intros key. rewrite elem_of_nil. naive_solver. }
  split; [|split; [|done]].
  - intros key. etrans; [apply sort_dedup_id_elem|]. rewrite !elem_of_filter_b, list_elem_of_omap. split.
    + intros [Ha [Hne (r & [Hr Hin]%elem_of_filter_b & Hk)]]. bools.
      destruct (node sg (er_target r)) as [[w| | | | | |]|] eqn:Hn; try done. exists src, r, w. done.
    + intros (src' & r & w & [= <-] & Hin & Hr & Hn & Hk & Hne & Ha).
      rewrite bool_decide_eq_true_2, bool_decide_eq_false_2 by done. split; [done|]. split; [done|].
      exists r. rewrite Hn. split; [|done]. by apply elem_of_filter_b.
  - apply (sort_dedup_ascend id).
Qed.

End BlastFacts.

(** ** The arming ladder *)

Definition rung_leb (a b : ArmingRung) : bool :=
  match a, b with
  | EdgeCut, _ => true
  | Quarantine, (Quarantine | NodeRung) => true
  | NodeRung, NodeRung => true
  | _, _ => false
  end.

(** The ladder is one ordered position: a higher rung arms everything a
    lower one does, no rung arms a subtractive or irreversible class, only the
    top rung arms node containment, and an unrecognized name is the lowest
    rung. *)
Theorem ladder_monotone a b :
  (rung_leb a b = true <-> ea_enabled (enabled_actions a) ⊆ ea_enabled (enabled_actions b)) /\
  (forall x, x ∈ ea_enabled (enabled_actions a) ->
     is_reversible x = true /\ (is_additive_live x = true \/ (x = ContainNode /\ a = NodeRung))) /\
  (forall name, rung_from_name name = EdgeCut <-> trim name <> "quarantine" /\ trim name <> "node").
Proof.
  split; [|split].
  - destruct a, b; (split; [intros H|]); try (by vm_compute in H); try done;
      try (intros _; vm_compute; done); try set_solver.
    + intros H. assert (QuarantineEntry ∈ ea_enabled (enabled_actions EdgeCut)); set_solver.
    + intros H. assert (ContainNode ∈ ea_enabled (enabled_actions EdgeCut)); set_solver.
    + intros H. assert (ContainNode ∈ ea_enabled (enabled_actions Quarantine)); set_solver.
  - intros x Hx. destruct a; simpl in Hx; set_unfold in Hx; naive_solver.
  - intros name. unfold rung_from_name. repeat case_bool_decide; naive_solver.
Qed.

(** ** The action log *)

Lemma verify_hold alive health :
  verify alive health = Hold <-> forall key, key ∈ alive -> health_of health key = Alive.
Proof.
  induction alive as [|k alive IH]; simpl.
  - split; [by intros _ k ?%not_elem_of_nil|done].
  - case_bool_decide as Hk.
    + rewrite IH. setoid_rewrite elem_of_cons. naive_solver.
    + split; [done|]. intros H. exfalso. apply Hk, H. by left.
Qed.

(** What keeps an applied action standing. *)
Definition still_stands (health : HealthReport) (justified : gset string) (active : EnabledActions)
    (a : ActiveAction) : Prop :=
  (forall key, key ∈ aa_baseline_alive a -> health_of health key = Alive) /\
  m_action (aa_mitigation a) ∈ ea_enabled active /\ m_signature (aa_mitigation a) ∈ justified.

Lemma revert_reason_none health justified active a :
  revert_reason health justified active a = None <-> still_stands health justified active a.
Proof.
  unfold revert_reason, still_stands, is_enabled. rewrite <- verify_hold.
  destruct (verify (aa_baseline_alive a) health); [|naive_solver].
  repeat case_bool_decide; naive_solver.
Qed.

Lemma log_reconcile_spec log health justified active :
  let '(keep, reversions) := log_reconcile log health justified active in
  keep = List.filter (fun a => bool_decide (revert_reason health justified active a = None)) log /\
  reversions = omap (fun a => mkReversion (aa_mitigation a) <$> revert_reason health justified active a) log.
Proof.
  induction log as [|a log IH]; simpl; [done|].
  destruct (log_reconcile log health justified active) as [keep reversions]. destruct IH as [-> ->].
  by destruct (revert_reason health justified active a).
Qed.

(** One entry per cut. *)
Definition log_ok (log : ActionLog) : Prop := NoDup (m_signature ∘ aa_mitigation <$> log).

Lemma log_record_ok log m alive : log_ok log -> log_ok (log_record log m alive).
Proof.
  intros Hl. unfold log_ok, log_record. rewrite fmap_app. simpl.
  rewrite (Permutation_app_comm _ [_]). simpl. apply NoDup_cons. split.
  - intros (a & Ha & [Hf _]%elem_of_filter_b)%list_elem_of_fmap. bools. by apply Hf.
  - by apply NoDup_fmap_filter.
Qed.

(** Each cycle the closed loop splits the applied actions exactly: an
    action is kept just when every workload it promised to keep alive still is,
    its class is still armed and a proven chain still justifies its cut; every
    other one is reverted with a reason, and nothing is lost or duplicated. *)
Theorem log_reconcile_exact log health justified active :
  log_ok log ->
  let '(keep, reversions) := log_reconcile log health justified active in
  log_ok keep /\
  (forall a, a ∈ keep <-> a ∈ log /\ still_stands health justified active a) /\
  (forall m, (exists why, mkReversion m why ∈ reversions) <->
     exists a, a ∈ log /\ aa_mitigation a = m /\ ~ still_stands health justified active a) /\
  length keep + length reversions = length log.
Proof.
  intros Hok. pose proof (log_reconcile_spec log health justified active) as H.
  destruct (log_reconcile log health justified active) as [keep reversions]. destruct H as [-> ->].
  split; [by apply NoDup_fmap_filter|]. split; [|split].
  - intros a. rewrite elem_of_filter_b, bool_decide_eq_true, revert_reason_none. tauto.
  - intros m. setoid_rewrite list_elem_of_omap. split.
    + intros (why & a & Ha & (r & Hr & [= -> ->])%fmap_Some). exists a. split; [done|]. split; [done|].
      rewrite <- revert_reason_none. congruence.
    + intros (a & Ha & <- & Hn). rewrite <- revert_reason_none in Hn.
      destruct (revert_reason health justified active a) as [why|] eqn:E; [|done].
      exists why, a. by rewrite E.
  - induction log as [|a log IH]; simpl; [done|].
    assert (log_ok log) as Hl by (unfold log_ok in *; simpl in Hok; by inversion Hok).
    destruct (revert_reason health justified active a); simpl; [rewrite Nat.add_succ_r|]; f_equal; auto.
Qed.

(** ** The scope preview *)

(** The pre-arm preview is faithful to the gate: every standing cut that
    could ever act is listed exactly once, as firing when the candidate scope
    covers both ends and held otherwise, and a cut the decision would apply
    under a configured scope is among the firing ones, shown with no collateral
    and no unknowns. *)
Theorem preview_scope_faithful standing candidate :
  let p := preview_scope standing candidate in
  (forall f, f ∈ sp_would_fire p <-> exists m b, (m, b) ∈ standing /\ would_ever_act m = true /\
     endpoints_within candidate m = true /\
     f = mkFiring (m_signature m) (m_action m) (br_alive_collateral b) (br_reachability_incomplete b)) /\
  (forall h, h ∈ sp_held_out_of_scope p <-> exists m b, (m, b) ∈ standing /\ would_ever_act m = true /\
     endpoints_within candidate m = false /\ h = mkHeld (m_signature m) (m_action m)) /\
  length (sp_would_fire p) + length (sp_held_out_of_scope p) =
    length (List.filter (fun mb => would_ever_act mb.1) standing) /\
  (forall m b active, (m, b) ∈ standing -> is_unscoped candidate = false ->
     decide_cut m active candidate b = AutoApply ->
     mkFiring (m_signature m) (m_action m) [] false ∈ sp_would_fire p).
Proof.
  intros p. unfold p, preview_scope. cbn [sp_would_fire sp_held_out_of_scope].
  assert (forall f, f ∈ sp_would_fire (preview_scope standing candidate) <->
    exists m b, (m, b) ∈ standing /\ would_ever_act m = true /\ endpoints_within candidate m = true /\
     f = mkFiring (m_signature m) (m_action m) (br_alive_collateral b) (br_reachability_incomplete b)) as Hfire.
  { intros f. unfold preview_scope. cbn [sp_would_fire]. rewrite elem_of_sort_by, list_elem_of_fmap. split.
    - intros ([m b] & -> & [He [Hw Hin]%elem_of_filter_b]%elem_of_filter_b). eauto 10.
    - intros (m & b & Hin & Hw & He & ->). exists (m, b). split; [done|]. by rewrite !elem_of_filter_b. }
  split; [exact Hfire|]. split; [|split].
  - intros h. rewrite elem_of_sort_by, list_elem_of_fmap. split.
    + intros ([m b] & -> & [He [Hw Hin]%elem_of_filter_b]%elem_of_filter_b). bools. eauto 10.
    + intros (m & b & Hin & Hw & He & ->). exists (m, b). split; [done|]. rewrite !elem_of_filter_b. simpl.
      by rewrite He.
  - rewrite !length_sort_by, !length_fmap.
    induction (List.filter _ standing) as [|[m b] l IH]; simpl; [done|].
    destruct (endpoints_within candidate m); simpl; lia.
  - intros m b active Hin Hu Hd. apply Hfire. pose proof Hd as [Hc Hm Hn Hl Ha Hs]%decide_auto_spec.
    exists m, b. rewrite Hm, Hn. split; [done|]. split; [|split; [|done]].
    + unfold would_ever_act. apply is_live_corroborated_spec in Hl. rewrite Hl.
      by destruct Hc as [->|[->| ->]].
    + unfold in_scope, is_unscoped in *. by rewrite Hu in Hs.
Qed.

(** ** Instances *)

(** A cut of the public workload's path to the database. *)
Definition db_cut : Mitigation :=
  mkMitigation (mkLink "workload/app/Pod/web" "workload/app/Pod/db" "reaches/Tcp/5432" None
    {["app" := "web"]} {["app" := "db"]}) DenyNetworkPath [].

(** The public workload reaches the database it is cut from, and a cache. *)
Definition web_with_neighbours : cluster :=
  default graph_new (build
    [NWorkload (mkWorkload "app" "web" "Pod" ∅ false Internet [] false [] []);
     NWorkload (mkWorkload "app" "db" "Pod" ∅ false Internal [] false [] []);
     NWorkload (mkWorkload "app" "cache" "Pod" ∅ false Internal [] false [] [])]
    [(0, 1, Reaches (Some 5432%N) Tcp); (0, 2, Reaches (Some 6379%N) Tcp)]).

Lemma blast_radius_exact_witness :
  br_alive_collateral (predict_blast_radius db_cut web_with_neighbours ∅) = ["workload/app/Pod/cache"] /\
  exists src r w, index_of web_with_neighbours "workload/app/Pod/web" = Some src /\
    r ∈ sg_edges (inner web_with_neighbours) src /\ is_reaches (e_relation (er_weight r)) = true /\
    node web_with_neighbours (er_target r) = Some (NWorkload w) /\
    key_of web_with_neighbours (er_target r) = Some "workload/app/Pod/cache" /\
    "workload/app/Pod/cache" <> l_to (m_cut db_cut) /\ health_of ∅ "workload/app/Pod/cache" = Alive.
Proof.
  assert (br_alive_collateral (predict_blast_radius db_cut web_with_neighbours ∅) =
          ["workload/app/Pod/cache"]) as H by (vm_compute; reflexivity).
  split; [exact H|].
  apply (proj1 (blast_radius_exact db_cut web_with_neighbours ∅) "workload/app/Pod/cache").
  rewrite H. by left.
Defined.

Lemma log_reconcile_exact_witness :
  let log := log_record [] db_cut ["workload/app/Pod/db"] in
  log_ok log /\
  length (log_reconcile log ∅ ∅ enabled_none).1 + length (log_reconcile log ∅ ∅ enabled_none).2 = 1.
Proof.
  assert (log_ok (log_record [] db_cut ["workload/app/Pod/db"])) as H by (apply log_record_ok; constructor).
  split; [exact H|].
  pose proof (log_reconcile_exact _ ∅ ∅ enabled_none H) as Hr.
  destruct (log_reconcile _ ∅ ∅ enabled_none) as [keep reversions]. apply Hr.
Defined.
