(* ===== verification/Render.v ===== *)
(** * Rendering a cut as a Kubernetes object

    engine/src/engine/respond/actuator/render.rs: the manifests the network
    actuators apply, with the object names and selectors they carry. The
    64-bit string hash the names are built from is a parameter: Rust's default
    hasher leaves its algorithm open. *)

From S2P Require Import Prelude Text Json PetGraph Attack Behavior Classify Graph Chain Prove Boundary Respond Actuator.

(** A label map serialized as an object. *)
Definition label_object (labels : gmap string string) : Json :=
  JObj ((fun kv => (kv.1, JStr kv.2)) <$> btree_iter labels).

(** [{:016x}] of a 64-bit value. *)
Definition hex_digit (d : Z) : Ascii.ascii :=
  Ascii.ascii_of_nat (Z.to_nat (if d <? 10 then 48 + d else 87 + d)%Z).

Fixpoint hex_digits (width : nat) (h : Z) : string :=
  match width with
  | O => EmptyString
  | S w => String (hex_digit (Z.land (Z.shiftr h (4 * Z.of_nat w)) 15)) (hex_digits w h)
  end.

Section Names.
Variable default_hash : string -> Z.

Definition object_name (prefix : string) (m : Mitigation) : string :=
  prefix +:+ "-" +:+ hex_digits 16 (default_hash (m_signature m)).

Definition selector (namespace : string) (labels : gmap string string) : Json :=
  let namespace_selector :=
    JObj [("matchLabels", JObj [("kubernetes.io/metadata.name", JStr namespace)])] in
  if bool_decide (labels = ∅) then JObj [("namespaces", namespace_selector)]
  else JObj [("pods", JObj [("namespaceSelector", namespace_selector);
                            ("podSelector", JObj [("matchLabels", label_object labels)])])].

Definition managed_labels : Json := JObj [("app.kubernetes.io/managed-by", JStr "protector")].

Definition render_deny (m : Mitigation) : option Json :=
  if negb (bool_decide (m_action m = DenyNetworkPath)) then None
  else
    source_ns ← workload_namespace (l_from (m_cut m));
    target_ns ← workload_namespace (l_to (m_cut m));
    Some (JObj [
      ("apiVersion", JStr "policy.networking.k8s.io/v1alpha1");
      ("kind", JStr "AdminNetworkPolicy");
      ("metadata", JObj [("name", JStr (object_name "protector-deny" m)); ("labels", managed_labels)]);
      ("spec", JObj [
        ("priority", JNum 1000);
        ("subject", selector target_ns (l_to_labels (m_cut m)));
        ("ingress", JArr [JObj [
          ("action", JStr "Deny");
          ("from", JArr [selector source_ns (l_from_labels (m_cut m))])]])])]).

Definition isolates (a : ProposedAction) : bool :=
  match a with DenyNetworkPath | QuarantineEntry | QuarantineWorkload => true | _ => false end.

Definition render_isolation (m : Mitigation) : option Json :=
  if negb (isolates (m_action m)) then None
  else
    source_ns ← workload_namespace (l_from (m_cut m));
    if bool_decide (l_from_labels (m_cut m) = ∅) then None
    else Some (JObj [
      ("apiVersion", JStr "networking.k8s.io/v1");
      ("kind", JStr "NetworkPolicy");
      ("metadata", JObj [
        ("name", JStr (object_name "protector-isolate" m));
        ("namespace", JStr source_ns);
        ("labels", managed_labels)]);
      ("spec", JObj [
        ("podSelector", JObj [("matchLabels", label_object (l_from_labels (m_cut m)))]);
        ("policyTypes", JArr [JStr "Ingress"; JStr "Egress"])])]).

End Names.

(** ** Names *)

Lemma hex_digit_inj a b : (0 <= a < 16)%Z -> (0 <= b < 16)%Z -> hex_digit a = hex_digit b -> a = b.
Proof.
  intros Ha Hb H. unfold hex_digit in H. apply (f_equal Ascii.nat_of_ascii) in H.
  rewrite !Ascii.nat_ascii_embedding in H by (repeat case_match; lia). repeat case_match; lia.
Qed.

Lemma nibble_range h w : (0 <= Z.land (Z.shiftr h (4 * Z.of_nat w)) 15 < 16)%Z.
Proof. rewrite (Z.land_ones _ 4) by lia. apply Z.mod_pos_bound. lia. Qed.

(** The digits determine the low [4 * width] bits. *)
Lemma hex_digits_inj width a b :
  hex_digits width a = hex_digits width b ->
  (a mod 2 ^ (4 * Z.of_nat width) = b mod 2 ^ (4 * Z.of_nat width))%Z.
Proof.
  induction width as [|w IH]; [by rewrite !Z.mod_1_r|]. intros H.
  change (String (hex_digit (Z.land (Z.shiftr a (4 * Z.of_nat w)) 15)) (hex_digits w a) =
          String (hex_digit (Z.land (Z.shiftr b (4 * Z.of_nat w)) 15)) (hex_digits w b)) in H.
  apply String.eqb_eq in H. simpl in H. destruct (Ascii.eqb _ _) eqn:He in H; [|done].
  apply Ascii.eqb_eq, hex_digit_inj in He; try apply nibble_range.
  apply String.eqb_eq, IH in H. revert He. rewrite !(Z.land_ones _ 4), !Z.shiftr_div_pow2 by lia. intros He.
  replace (2 ^ (4 * Z.of_nat (S w)))%Z with (2 ^ (4 * Z.of_nat w) * 2 ^ 4)%Z
    by (rewrite <- Z.pow_add_r by lia; f_equal; lia).
  rewrite !Z.rem_mul_r by lia. by rewrite H, He.
Qed.

Lemma hex_digits_length width h : String.length (hex_digits width h) = width.
Proof. induction width; simpl; congruence. Qed.

(** The characters Kubernetes allows inside an object name. *)
Definition dns_char (c : Ascii.ascii) : bool :=
  let n := Ascii.nat_of_ascii c in
  ((97 <=? n) && (n <=? 122)) || ((48 <=? n) && (n <=? 57)) || (n =? 45).

Fixpoint str_forallb (p : Ascii.ascii -> bool) (s : string) : bool :=
  match s with EmptyString => true | String c s' => p c && str_forallb p s' end.

Lemma str_forallb_app p a b : str_forallb p (a +:+ b) = str_forallb p a && str_forallb p b.
Proof. induction a as [|c a IH]; simpl; [done|]. by rewrite IH, andb_assoc. Qed.

Lemma hex_digits_dns width h : str_forallb dns_char (hex_digits width h) = true.
Proof.
  induction width as [|w IH]; simpl; [done|]. rewrite IH, andb_true_r. pose proof (nibble_range h w) as Hr.
  set (d := Z.land _ _) in *. unfold dns_char, hex_digit.
  rewrite Ascii.nat_ascii_embedding by (destruct (Z.ltb_spec d 10); lia).
  destruct (Z.ltb_spec d 10); rewrite ?orb_true_iff, ?andb_true_iff, ?Nat.leb_le, ?Nat.eqb_eq; lia.
Qed.

(** ** What the objects select

    A label selector matches a pod of the namespace that carries every label
    it lists; an empty or absent one matches all of them. *)

(** The labels a [matchLabels] object lists. *)
Definition match_labels (sel : Json) : option (list (string * string)) :=
  match json_get sel "matchLabels" with
  | Some (JObj fields) => mapM (fun kv => v ← as_str kv.2; Some (kv.1, v)) fields
  | _ => None
  end.

Definition selects (sel : Json) (labels : gmap string string) : Prop :=
  exists l, match_labels sel = Some l /\ forall k v, (k, v) ∈ l -> labels !! k = Some v.

Lemma match_label_object labels :
  match_labels (JObj [("matchLabels", label_object labels)]) = Some (btree_iter labels).
Proof.
  unfold match_labels, json_get, label_object. simpl. apply mapM_fmap_Some. by intros [k v].
Qed.

Lemma selects_label_object labels pod :
  selects (JObj [("matchLabels", label_object labels)]) pod <-> labels ⊆ pod.
Proof.
  unfold selects. rewrite match_label_object, map_subseteq_spec. setoid_rewrite <- btree_iter_elem. naive_solver.
Qed.

(** A member of the rendered document, by path. *)
Definition json_path (path : list string) (j : Json) : option Json :=
  foldl (fun j key => j ← j; json_get j key) (Some j) path.

Section RenderFacts.
Variable default_hash : string -> Z.

(** The isolation object always quarantines the workload the cut starts from
    and cannot reach further: it is rendered exactly for the three isolating
    classes on a labelled workload, it lives in that workload's own namespace,
    its pod selector matches a pod just when the pod carries all of the
    workload's labels (never the whole namespace), and it lists both policy
    types and no allow rule. *)
Theorem render_isolation_exact m :
  match render_isolation default_hash m with
  | Some policy =>
      isolates (m_action m) = true /\ l_from_labels (m_cut m) <> ∅ /\
      (exists ns, workload_namespace (l_from (m_cut m)) = Some ns /\
         json_path ["metadata"; "namespace"] policy = Some (JStr ns)) /\
      (exists sel, json_path ["spec"; "podSelector"] policy = Some sel /\
         (forall pod, selects sel pod <-> l_from_labels (m_cut m) ⊆ pod) /\
         selects sel (l_from_labels (m_cut m)) /\ ~ selects sel ∅) /\
      json_path ["spec"; "policyTypes"] policy = Some (JArr [JStr "Ingress"; JStr "Egress"]) /\
      json_path ["spec"; "ingress"] policy = None /\ json_path ["spec"; "egress"] policy = None
  | None =>
      isolates (m_action m) = false \/ workload_namespace (l_from (m_cut m)) = None \/
      l_from_labels (m_cut m) = ∅
  end.
Proof.
  unfold render_isolation. destruct (isolates (m_action m)) eqn:Hi; simpl; [|by left].
  destruct (workload_namespace (l_from (m_cut m))) as [ns|] eqn:Hn; simpl; [|by auto].
  case_bool_decide as Hl; [by auto|]. split; [done|]. split; [done|]. split; [by exists ns|].
  split; [|done]. eexists. split; [reflexivity|]. setoid_rewrite selects_label_object.
  split; [done|]. split; [done|]. intros H. apply Hl, (anti_symm (⊆)); [done|apply map_empty_subseteq].
Qed.

(** The name of a rendered object identifies its cut: two cuts get the same
    name exactly when their signatures hash alike, so re-applying a cut touches
    the same object, reverting it finds that object, and, where the hash
    separates two signatures, one cut's object never replaces the other's; the
    name is always a legal object name. *)
Theorem object_name_identity prefix m m' :
  (forall s, (0 <= default_hash s < 2 ^ 64)%Z) ->
  (object_name default_hash prefix m = object_name default_hash prefix m' <->
     default_hash (m_signature m) = default_hash (m_signature m')) /\
  String.length (object_name default_hash prefix m) = String.length prefix + 17 /\
  (str_forallb dns_char prefix = true -> str_forallb dns_char (object_name default_hash prefix m) = true).
Proof.
  intros Hh. split; [|split].
  - unfold object_name. split; [|by intros ->]. intros H. apply (inj (String.append prefix)) in H.
    apply (inj (String.append "-")) in H. apply hex_digits_inj in H. change (4 * Z.of_nat 16)%Z with 64%Z in H.
    by rewrite !Z.mod_small in H by apply Hh.
  - unfold object_name. rewrite !str_length_app, hex_digits_length. done.
  - intros Hp. unfold object_name. by rewrite !str_forallb_app, Hp, hex_digits_dns.
Qed.

End RenderFacts.

(** ** Instances *)

(** A toy hash: the length of the string. *)
Definition length_hash (s : string) : Z := Z.of_nat (String.length s) mod 2 ^ 64.

Definition web_db_deny : Mitigation :=
  mkMitigation (mkLink "workload/app/Pod/web" "workload/app/Pod/db" "reaches/Tcp" None ∅ ∅) DenyNetworkPath [].

Lemma object_name_identity_witness :
  (forall s, (0 <= length_hash s < 2 ^ 64)%Z) /\
  object_name length_hash "protector-deny" web_db_deny = "protector-deny-0000000000000039" /\
  str_forallb dns_char (object_name length_hash "protector-deny" web_db_deny) = true.
Proof.
  assert (forall s, (0 <= length_hash s < 2 ^ 64)%Z) as H by (intros s; apply Z.mod_pos_bound; lia).
  split; [exact H|]. split; [vm_compute; reflexivity|].
  apply (object_name_identity length_hash "protector-deny" web_db_deny web_db_deny H). reflexivity.
Defined.
