(* ===== verification/NodeContainment.v ===== *)
(** * Node containment

    engine/src/engine/respond/actuator/node_containment.rs: the cordon manifests,
    the co-resident deny sweep and its scope, the deterministic rails and the
    proposal gate; observe/adapter/node_fact.rs: the observed fleet; and
    node_containment_revert.rs with live.rs: when a node is uncordoned. *)

From S2P Require Import Prelude Text Json PetGraph Attack Behavior Classify Graph Chain Prove Boundary.
From S2P Require Import Respond Actuator Render.

Definition CORDON_OWNER_ANNOTATION : string := "protector.jeffl.es/cordoned-by".
Definition CORDON_OWNER_VALUE : string := "protector".

Definition render_cordon (m : Mitigation) : option Json :=
  if negb (bool_decide (m_action m = ContainNode)) then None
  else Some (JObj [
    ("apiVersion", JStr "v1"); ("kind", JStr "Node");
    ("metadata", JObj [("name", JStr (short_of (l_from (m_cut m))));
                       ("annotations", JObj [(CORDON_OWNER_ANNOTATION, JStr CORDON_OWNER_VALUE)])]);
    ("spec", JObj [("unschedulable", JBool true)])]).

Definition render_uncordon (m : Mitigation) : option Json :=
  if negb (bool_decide (m_action m = ContainNode)) then None
  else Some (JObj [
    ("apiVersion", JStr "v1"); ("kind", JStr "Node");
    ("metadata", JObj [("name", JStr (short_of (l_from (m_cut m))))]);
    ("spec", JObj [("unschedulable", JBool false)])]).

(** ** The co-resident sweep *)

Section Sweep.
Context {G : Type} `{SG : !StableGraph G Node Edge}.
Implicit Types sg : SecurityGraph G.

Definition co_resident_denies sg (host : NodeKey) : list Mitigation :=
  (fun cut => mkMitigation cut QuarantineWorkload []) <$>
  omap (fun '(node, labels) => quarantine_workload_link node labels) (co_resident_workloads sg host).

Definition co_resident_denies_in_scope sg (host : NodeKey) (scope : ActuationScope) : list Mitigation :=
  let denies := co_resident_denies sg host in
  if is_unscoped scope then denies else List.filter (fun deny => in_scope scope deny) denies.

Definition contain_node_in_scope sg (host : NodeKey) (scope : ActuationScope) : bool :=
  is_unscoped scope || negb (bool_decide (co_resident_denies_in_scope sg host scope = [])).

End Sweep.

(** ** The fleet *)

Record NodeFact := mkNodeFact {
  nf_name : string;
  nf_control_plane : bool;
  nf_schedulable : bool;
  nf_owned_by_protector : bool
}.

(** The fields of an observed Kubernetes node that are read. *)
Record K8sNode := mkK8sNode {
  kn_name : option string;
  kn_labels : option (gmap string string);
  kn_annotations : option (gmap string string);
  kn_taints : option (list string);
  kn_unschedulable : option bool
}.

Definition CONTROL_PLANE_LABEL : string := "node-role.kubernetes.io/control-plane".
Definition LEGACY_CONTROL_PLANE_LABEL : string := "node-role.kubernetes.io/master".

Definition is_control_plane (n : K8sNode) : bool :=
  let labelled :=
    match kn_labels n with
    | Some labels =>
        bool_decide (is_Some (labels !! CONTROL_PLANE_LABEL)) ||
        bool_decide (is_Some (labels !! LEGACY_CONTROL_PLANE_LABEL))
    | None => false
    end in
  let tainted :=
    match kn_taints n with
    | Some taints => existsb (fun key => bool_decide (key = CONTROL_PLANE_LABEL) ||
                                         bool_decide (key = LEGACY_CONTROL_PLANE_LABEL)) taints
    | None => false
    end in
  labelled || tainted.

Definition observe_node_facts (nodes : list K8sNode) : list NodeFact :=
  omap (fun n =>
    name ← kn_name n;
    Some (mkNodeFact name (is_control_plane n) (negb (default false (kn_unschedulable n)))
            (bool_decide ((annotations ← kn_annotations n; annotations !! CORDON_OWNER_ANNOTATION) =
                          Some CORDON_OWNER_VALUE)))) nodes.

(** ** The rails *)

Inductive RailRefusal := ControlPlane | OneNodeCap | WorkerFloor | Unlabelled | NotOwned | UnknownNode.

Definition metric_reason (r : RailRefusal) : string :=
  match r with
  | ControlPlane => "control-plane" | OneNodeCap => "one-node-cap" | WorkerFloor => "worker-floor"
  | Unlabelled => "unlabelled" | NotOwned => "not-owned" | UnknownNode => "unknown-node"
  end.

Definition WORKER_FLOOR : nat := 2.

Definition cordon_decision (target : NodeFact) (fleet : list NodeFact) : unit + RailRefusal :=
  if nf_control_plane target then inr ControlPlane
  else if existsb (fun n => negb (bool_decide (nf_name n = nf_name target)) &&
                            nf_owned_by_protector n && negb (nf_schedulable n)) fleet then inr OneNodeCap
  else if length (List.filter (fun n => negb (bool_decide (nf_name n = nf_name target)) &&
                            negb (nf_control_plane n) && nf_schedulable n) fleet) <? WORKER_FLOOR
  then inr WorkerFloor
  else inl tt.

Definition revert_decision (target : NodeFact) : unit + RailRefusal :=
  if nf_owned_by_protector target then inl tt else inr NotOwned.

Inductive ProposalOutcome := Proposed | Refuse (why : RailRefusal).

Definition evaluate_proposal (m : Mitigation) (armed in_scope : bool) (fleet : list NodeFact)
    : option ProposalOutcome :=
  if negb (bool_decide (m_action m = ContainNode)) then None
  else if negb armed || negb in_scope || negb (is_live_corroborated m) then None
  else
    match List.find (fun n => bool_decide (nf_name n = short_of (l_from (m_cut m)))) fleet with
    | None => Some (Refuse UnknownNode)
    | Some target =>
        Some (match cordon_decision target fleet with inl _ => Proposed | inr refusal => Refuse refusal end)
    end.

(** ** The cluster writes of live.rs

    Each call to the cluster is an effect; whether the node patch succeeds is
    the cluster's answer. *)

Inductive NodeEffect :=
  | PatchNode (host : string) (manifest : Json)
  | IsolationApply (m : Mitigation)
  | IsolationRevert (m : Mitigation).

Inductive Actuation := DryRun | Applied | Reverted.

Definition node_apply (patch_ok : bool) (m : Mitigation) (co_resident : list Mitigation)
    : Actuation * list NodeEffect :=
  match render_cordon m with
  | None => (DryRun, [])
  | Some manifest =>
      let patch := PatchNode (short_of (l_from (m_cut m))) manifest in
      if patch_ok then (Applied, patch :: (IsolationApply <$> co_resident)) else (DryRun, [patch])
  end.

Definition node_revert (patch_ok : bool) (m : Mitigation) (target : NodeFact) (co_resident : list Mitigation)
    : Actuation * list NodeEffect :=
  match revert_decision target with
  | inr _ => (DryRun, [])
  | inl _ =>
      match render_uncordon m with
      | None => (DryRun, [])
      | Some manifest =>
          let patch := PatchNode (short_of (l_from (m_cut m))) manifest in
          if patch_ok then (Reverted, patch :: (IsolationRevert <$> co_resident)) else (DryRun, [patch])
      end
  end.

(** [Engine::revert_contain_node]: [attached] tells whether a live node
    actuator was configured. *)
Definition revert_contain_node {G : Type} `{SG : !StableGraph G Node Edge} (attached patch_ok : bool)
    (node_facts : gmap string NodeFact) (m : Mitigation) (sg : SecurityGraph G) : list NodeEffect :=
  if attached then
    match node_facts !! short_of (l_from (m_cut m)) with
    | None => []
    | Some target => (node_revert patch_ok m target (co_resident_denies sg (l_from (m_cut m)))).2
    end
  else [].

(** ** The sweep *)

Section SweepFacts.
Context {G : Type} `{SGL : StableGraphLaws G Node Edge}.
Implicit Types sg : SecurityGraph G.

(** A workload placed on the host, with its key. *)
Definition placed_on sg (host : NodeKey) (k : NodeKey) (w : Workload) : Prop :=
  exists host_idx r, index_of sg host = Some host_idx /\ r ∈ sg_edges_in (inner sg) host_idx /\
    e_relation (er_weight r) = ScheduledOn /\ node sg (er_source r) = Some (NWorkload w) /\
    key_of sg (er_source r) = Some k.

Lemma is_scheduled_on_spec r : is_scheduled_on r = true <-> r = ScheduledOn.
Proof. destruct r; naive_solver. Qed.

Lemma co_resident_workloads_spec sg host k labels :
  (k, labels) ∈ co_resident_workloads sg host <-> exists w, placed_on sg host k w /\ labels = w_labels w.
Proof.
  unfold co_resident_workloads, placed_on. destruct (index_of sg host) as [h|]; [|rewrite elem_of_nil; naive_solver].
  rewrite elem_of_sort_by. unfold scheduled_on_host. split.
  - intros ([idx n] & Hn & Hk)%list_elem_of_omap.
    apply list_elem_of_omap in Hn as (r & [Hs Hr]%elem_of_filter_b & (n' & Hn & [= <- <-])%bind_Some).
    destruct n'; try done. apply bind_Some in Hk as (k' & Hk & [= <- <-]).
    apply is_scheduled_on_spec in Hs. eexists. split; [|done]. exists h, r. done.
  - intros (w & (h' & r & [= <-] & Hr & Hs & Hn & Hk) & ->).
    apply list_elem_of_omap. exists (er_source r, NWorkload w). split; [|by rewrite Hk].
    apply list_elem_of_omap. exists r. rewrite Hn. split; [|done]. apply elem_of_filter_b.
    by rewrite is_scheduled_on_spec.
Qed.

(** The self-referencing deny of one workload. *)
Definition workload_deny (k : NodeKey) (w : Workload) : Mitigation :=
  mkMitigation (mkLink k k QUARANTINE_WORKLOAD_RELATION None (w_labels w) (w_labels w)) QuarantineWorkload [].

Lemma co_resident_denies_spec sg host m :
  m ∈ co_resident_denies sg host <->
  exists k w, placed_on sg host k w /\ w_labels w <> ∅ /\ m = workload_deny k w.
Proof.
  unfold co_resident_denies. rewrite list_elem_of_fmap. setoid_rewrite list_elem_of_omap. split.
  - intros (cut & -> & [k labels] & (w & Hw & ->)%co_resident_workloads_spec & Hl).
    unfold quarantine_workload_link in Hl. case_bool_decide; [done|]. injection Hl as <-. eauto 10.
  - intros (k & w & Hw & Hl & ->). eexists. split; [reflexivity|]. exists (k, w_labels w).
    split; [apply co_resident_workloads_spec; eauto|]. unfold quarantine_workload_link.
    by rewrite bool_decide_eq_false_2.
Qed.

(** What the configured scope says of a workload endpoint. *)
Definition authorised (scope : ActuationScope) (k : NodeKey) (w : Workload) : Prop :=
  is_unscoped scope = true \/
  exists ns, workload_namespace k = Some ns /\
    (ns ∈ as_namespaces scope \/ exists l v, (l, v) ∈ as_labels scope /\ w_labels w !! l = Some v).

Lemma endpoint_in_scope_spec scope ns labels :
  endpoint_in_scope scope ns labels = true <->
  ns ∈ as_namespaces scope \/ exists l v, (l, v) ∈ as_labels scope /\ labels !! l = Some v.
Proof.
  unfold endpoint_in_scope. rewrite orb_true_iff, bool_decide_eq_true, existsb_exists.
  setoid_rewrite <- list_elem_of_In. split.
  - intros [H|([l v] & H & Hv)]; [by left|]. apply bool_decide_eq_true in Hv. eauto.
  - intros [H|(l & v & H & Hv)]; [by left|]. right. exists (l, v). by rewrite bool_decide_eq_true.
Qed.

Lemma deny_in_scope scope k w :
  is_unscoped scope = false -> is_Some (workload_namespace k) ->
  (in_scope scope (workload_deny k w) = true <-> authorised scope k w).
Proof.
  intros Hu [ns Hns]. unfold in_scope, authorised. unfold is_unscoped in *. rewrite Hu.
  unfold endpoints_within, workload_deny. simpl. rewrite Hns. simpl. rewrite !andb_true_iff, endpoint_in_scope_spec.
  naive_solver.
Qed.

Lemma workload_namespace_some w : is_Some (workload_namespace (node_key (NWorkload w))).
Proof.
  destruct (node_key_tail (NWorkload w)) as [rest ->]. unfold workload_namespace, kind_of, key_namespace.
  rewrite split_kind by done. destruct (split slash rest) eqn:E; [by apply split_nonempty in E|]. simpl. eauto.
Qed.

Lemma placed_key sg host k w : placed_on sg host k w -> k = node_key (NWorkload w).
Proof. intros (h & r & _ & _ & _ & Hn & Hk). unfold node, key_of in *. rewrite Hn in Hk. by injection Hk. Qed.

Lemma co_resident_denies_in_scope_spec sg host scope m :
  m ∈ co_resident_denies_in_scope sg host scope <->
  exists k w, placed_on sg host k w /\ w_labels w <> ∅ /\ authorised scope k w /\ m = workload_deny k w.
Proof.
  unfold co_resident_denies_in_scope. destruct (is_unscoped scope) eqn:Hu.
  - rewrite co_resident_denies_spec. unfold authorised. rewrite Hu. naive_solver.
  - rewrite elem_of_filter_b, co_resident_denies_spec. split.
    + intros [Hs (k & w & Hp & Hl & ->)]. exists k, w. pose proof (placed_key _ _ _ _ Hp). subst k.
      apply deny_in_scope in Hs; auto using workload_namespace_some.
    + intros (k & w & Hp & Hl & Ha & ->). pose proof (placed_key _ _ _ _ Hp). subst k. split; [|by eauto].
      apply deny_in_scope; auto using workload_namespace_some.
Qed.

(** The sweep around a contained node writes exactly one default-deny per
    labelled workload placed on it that the operator's scope authorises, by
    namespace or by label, and each of them renders to a policy in that
    workload's own namespace; the node itself counts as in scope just when no
    scope is configured or one of its workloads is authorised, so the gate and
    the sweep never disagree. *)
Theorem contain_sweep_scoped sg host scope default_hash :
  (forall m, m ∈ co_resident_denies_in_scope sg host scope <->
     exists k w, placed_on sg host k w /\ w_labels w <> ∅ /\ authorised scope k w /\ m = workload_deny k w) /\
  (forall m, m ∈ co_resident_denies_in_scope sg host scope ->
     m ∈ co_resident_denies sg host /\ is_Some (render_isolation default_hash m)) /\
  (contain_node_in_scope sg host scope = true <->
     is_unscoped scope = true \/
     exists k w, placed_on sg host k w /\ w_labels w <> ∅ /\ authorised scope k w).
Proof.
  split; [intros m; apply co_resident_denies_in_scope_spec|]. split.
  - intros m (k & w & Hp & Hl & _ & ->)%co_resident_denies_in_scope_spec. split.
    + apply co_resident_denies_spec. eauto.
    + unfold render_isolation. simpl. rewrite (placed_key _ _ _ _ Hp).
      destruct (workload_namespace_some w) as [ns ->]. simpl. rewrite bool_decide_eq_false_2 by done. eauto.
  - unfold contain_node_in_scope. rewrite orb_true_iff, negb_true_iff, bool_decide_eq_false. split.
    + intros [H|H]; [by left|]. right.
      destruct (co_resident_denies_in_scope sg host scope) as [|m l] eqn:E; [done|].
      assert (m ∈ co_resident_denies_in_scope sg host scope) as Hm by (rewrite E; by left).
      apply co_resident_denies_in_scope_spec in Hm. naive_solver.
    + intros [H|(k & w & Hp & Hl & Ha)]; [by left|]. right. intros E.
      assert (workload_deny k w ∈ co_resident_denies_in_scope sg host scope) as Hm
        by (apply co_resident_denies_in_scope_spec; eauto 10).
      rewrite E in Hm. by apply not_elem_of_nil in Hm.
Qed.

End SweepFacts.

(** ** The rails *)

Definition protector_cordoned (n : NodeFact) : bool := nf_owned_by_protector n && negb (nf_schedulable n).

Definition is_worker (n : NodeFact) : bool := negb (nf_control_plane n) && nf_schedulable n.

Definition other_than (target n : NodeFact) : bool := negb (bool_decide (nf_name n = nf_name target)).

Lemma cordon_decision_spec target fleet :
  cordon_decision target fleet = inl tt <->
  nf_control_plane target = false /\
  (forall n, n ∈ fleet -> protector_cordoned n = true -> nf_name n = nf_name target) /\
  2 <= length (List.filter (fun n => other_than target n && is_worker n) fleet).
Proof.
  unfold cordon_decision. destruct (nf_control_plane target); [naive_solver|].
  destruct (existsb _ fleet) eqn:E.
  - apply existsb_exists in E as (n & Hn & Hb).
    rewrite !andb_true_iff, !negb_true_iff, bool_decide_eq_false in Hb. destruct Hb as [[Hne Ho] Hs].
    split; [done|]. intros (_ & Hone & _). exfalso. apply Hne, Hone; [by apply list_elem_of_In|].
    unfold protector_cordoned. by rewrite Ho, Hs.
  - assert (forall n, n ∈ fleet -> protector_cordoned n = true -> nf_name n = nf_name target) as Hone.
    { intros n Hn%list_elem_of_In Hc. destruct (decide (nf_name n = nf_name target)); [done|].
      assert (existsb (fun n => negb (bool_decide (nf_name n = nf_name target)) &&
                nf_owned_by_protector n && negb (nf_schedulable n)) fleet = true) as H; [|by rewrite E in H].
      apply existsb_exists. exists n. split; [done|]. by rewrite bool_decide_eq_false_2, <- andb_assoc. }
    set (l := List.filter _ fleet). assert (l = List.filter (fun n => other_than target n && is_worker n) fleet) as <-.
    { apply filter_ext. intros n. unfold other_than, is_worker. by rewrite andb_assoc. }
    unfold WORKER_FLOOR. destruct (Nat.ltb_spec (length l) 2); (split; [|]); try done; try lia; naive_solver lia.
Qed.

(** A node cut is surfaced as actionable exactly when it is a node cut, its
    rung is armed, its scope and live corroboration hold, the host has been
    observed, is not part of the control plane, no other node carries
    protector's cordon, and at least two schedulable workers would remain; a
    host without an observed fact is always refused. *)
Theorem node_proposal_exact m armed in_scope fleet :
  (evaluate_proposal m armed in_scope fleet = Some Proposed <->
   m_action m = ContainNode /\ armed = true /\ in_scope = true /\ is_live_corroborated m = true /\
   exists target, List.find (fun n => bool_decide (nf_name n = short_of (l_from (m_cut m)))) fleet = Some target /\
     nf_control_plane target = false /\
     (forall n, n ∈ fleet -> protector_cordoned n = true -> nf_name n = nf_name target) /\
     2 <= length (List.filter (fun n => other_than target n && is_worker n) fleet)) /\
  (m_action m = ContainNode -> armed = true -> in_scope = true -> is_live_corroborated m = true ->
   (forall n, n ∈ fleet -> nf_name n <> short_of (l_from (m_cut m))) ->
   evaluate_proposal m armed in_scope fleet = Some (Refuse UnknownNode)).
Proof.
  unfold evaluate_proposal. split.
  - case_bool_decide as Ha; simpl; [|naive_solver].
    destruct armed, in_scope, (is_live_corroborated m); simpl; try naive_solver.
    destruct (List.find _ fleet) as [target|] eqn:Hf; [|naive_solver].
    destruct (cordon_decision target fleet) as [[]|why] eqn:Hc.
    + apply cordon_decision_spec in Hc. naive_solver.
    + split; [done|]. intros (_ & _ & _ & _ & t & [= <-] & Ht). apply cordon_decision_spec in Ht. by rewrite Hc in Ht.
  - intros -> -> -> -> Hn. simpl. destruct (List.find _ fleet) as [t|] eqn:Hf; [|done].
    apply find_some in Hf as [Hin Hb]. bools. apply list_elem_of_In in Hin. by apply Hn in Hin.
Qed.

(** The fleet as the cordon and uncordon patches leave it. *)
Definition patch_fleet (name : string) (cordon : bool) (fleet : list NodeFact) : list NodeFact :=
  (fun n => if bool_decide (nf_name n = name)
            then mkNodeFact (nf_name n) (nf_control_plane n) (negb cordon) cordon else n) <$> fleet.

Inductive fleet_step : list NodeFact -> list NodeFact -> Prop :=
  | step_cordon fleet target :
      target ∈ fleet -> cordon_decision target fleet = inl tt ->
      fleet_step fleet (patch_fleet (nf_name target) true fleet)
  | step_uncordon fleet target :
      target ∈ fleet -> revert_decision target = inl tt ->
      fleet_step fleet (patch_fleet (nf_name target) false fleet).

Record rails_ok (fleet : list NodeFact) : Prop := {
  ro_names : NoDup (nf_name <$> fleet);
  ro_one : forall a b, a ∈ fleet -> b ∈ fleet -> protector_cordoned a = true -> protector_cordoned b = true ->
    nf_name a = nf_name b;
  ro_no_control_plane : forall a, a ∈ fleet -> protector_cordoned a = true -> nf_control_plane a = false;
  ro_floor : (exists a, a ∈ fleet /\ protector_cordoned a = true) -> 2 <= length (List.filter is_worker fleet)
}.

Lemma patch_fleet_names name c fleet : nf_name <$> patch_fleet name c fleet = nf_name <$> fleet.
Proof.
  unfold patch_fleet. rewrite <- list_fmap_compose. apply list_fmap_ext. intros _ n _. simpl. by case_bool_decide.
Qed.

Lemma patch_fleet_elem name c fleet a :
  a ∈ patch_fleet name c fleet ->
  exists n, n ∈ fleet /\ nf_name a = nf_name n /\ nf_control_plane a = nf_control_plane n /\
    ((nf_name n = name /\ nf_schedulable a = negb c /\ nf_owned_by_protector a = c) \/ (nf_name n <> name /\ a = n)).
Proof. intros (n & -> & Hn)%list_elem_of_fmap. exists n. case_bool_decide; simpl; auto 10. Qed.

Lemma patch_fleet_cons name c n fleet :
  patch_fleet name c (n :: fleet) =
  (if bool_decide (nf_name n = name) then mkNodeFact (nf_name n) (nf_control_plane n) (negb c) c else n)
  :: patch_fleet name c fleet.
Proof. done. Qed.

Lemma workers_cons n fleet :
  List.filter is_worker (n :: fleet) =
  if is_worker n then n :: List.filter is_worker fleet else List.filter is_worker fleet.
Proof. done. Qed.

Lemma uncordon_workers name fleet :
  length (List.filter is_worker fleet) <= length (List.filter is_worker (patch_fleet name false fleet)).
Proof.
  induction fleet as [|n fleet IH]; [done|]. rewrite patch_fleet_cons, !workers_cons.
  set (a := List.filter is_worker fleet) in *. set (b := List.filter is_worker (patch_fleet name false fleet)) in *.
  case_bool_decide; [|destruct (is_worker n); simpl; lia].
  destruct n as [nm [] [] o]; simpl; lia.
Qed.

Lemma cordon_workers target fleet :
  List.filter is_worker (patch_fleet (nf_name target) true fleet) =
  List.filter (fun n => other_than target n && is_worker n) fleet.
Proof.
  induction fleet as [|n fleet IH]; [done|]. rewrite patch_fleet_cons, workers_cons, IH. cbn [List.filter].
  set (rest := List.filter _ fleet). unfold other_than. destruct (decide (nf_name n = nf_name target)) as [He|He].
  - rewrite !bool_decide_eq_true_2 by done. destruct n as [nm [] s o]; done.
  - by rewrite !bool_decide_eq_false_2.
Qed.

Lemma fleet_step_rails fleet fleet' : fleet_step fleet fleet' -> rails_ok fleet -> rails_ok fleet'.
Proof.
  intros [f target Ht Hc|f target Ht Hr] [Hn Hone Hcp Hfl].
  - apply cordon_decision_spec in Hc as (Hncp & Hother & Hw). split.
    + by rewrite patch_fleet_names.
    + intros a b Ha Hb Hca Hcb.
      assert (forall x, x ∈ patch_fleet (nf_name target) true f -> protector_cordoned x = true ->
                nf_name x = nf_name target) as H; [|by rewrite (H a), (H b)].
      intros x (n & Hin & Hnm & _ & [[<- _]|[Hne ->]])%patch_fleet_elem Hx; [done|by apply Hother].
    + intros a (n & Hin & Hnm & Hc & [[He _]|[Hne ->]])%patch_fleet_elem Hca; [|by apply Hcp].
      by rewrite Hc, (NoDup_fmap_eq nf_name f n target).
    + intros _. by rewrite cordon_workers.
  - split.
    + by rewrite patch_fleet_names.
    + intros a b (n & Hin & Hnm & _ & Ha)%patch_fleet_elem (n' & Hin' & Hnm' & _ & Hb)%patch_fleet_elem Hca Hcb.
      destruct Ha as [(_ & Hs & Ho)|[_ ->]]; [unfold protector_cordoned in Hca; by rewrite Ho in Hca|].
      destruct Hb as [(_ & Hs & Ho)|[_ ->]]; [unfold protector_cordoned in Hcb; by rewrite Ho in Hcb|]. by apply Hone.
    + intros a (n & Hin & Hnm & Hc & [(_ & Hs & Ho)|[Hne ->]])%patch_fleet_elem Hca; [|by apply Hcp].
      unfold protector_cordoned in Hca. by rewrite Ho in Hca.
    + intros (a & (n & Hin & Hnm & Hc & [(_ & Hs & Ho)|[Hne ->]])%patch_fleet_elem & Hca);
        [unfold protector_cordoned in Hca; by rewrite Ho in Hca|].
      etrans; [apply Hfl; eauto|apply uncordon_workers].
Qed.

(** Whatever sequence of allowed cordons and uncordons is carried out, at
    most one node carries protector's cordon, that node is never part of the
    control plane, and while it stands at least two schedulable workers remain. *)
Theorem fleet_rails_invariant fleet fleet' :
  rails_ok fleet -> rtc fleet_step fleet fleet' -> rails_ok fleet'.
Proof. intros Hok H. revert Hok. induction H as [|x y z Hs _ IH]; eauto using fleet_step_rails. Qed.

(** ** Uncordoning *)

Section RevertFacts.
Context {G : Type} `{SG : !StableGraph G Node Edge}.

(** A node is uncordoned only when an observed fact for exactly that host
    says protector owns the cordon: in every other case (no actuator, no fact,
    somebody else's cordon, another class of cut) nothing at all is written,
    and when the node patch fails no co-resident deny is lifted. *)
Theorem uncordon_owned_only attached patch_ok facts m (sg : SecurityGraph G) :
  let effects := revert_contain_node attached patch_ok facts m sg in
  let allowed := attached = true /\ m_action m = ContainNode /\
    exists target, facts !! short_of (l_from (m_cut m)) = Some target /\ nf_owned_by_protector target = true in
  (allowed -> exists manifest, render_uncordon m = Some manifest /\
     effects = PatchNode (short_of (l_from (m_cut m))) manifest ::
       (if patch_ok then IsolationRevert <$> co_resident_denies sg (l_from (m_cut m)) else [])) /\
  (~ allowed -> effects = []) /\
  (forall manifest, render_uncordon m = Some manifest ->
     json_path ["spec"; "unschedulable"] manifest = Some (JBool false) /\
     json_path ["metadata"; "annotations"] manifest = None).
Proof.
  intros effects allowed. unfold effects, revert_contain_node, node_revert, revert_decision, render_uncordon. split; [|split].
  - intros (-> & -> & target & -> & ->). simpl. eexists. split; [reflexivity|]. by destruct patch_ok.
  - intros Hn. destruct attached; [|done]. destruct (facts !! _) as [target|] eqn:Hf; [|done].
    destruct (nf_owned_by_protector target) eqn:Ho; [|done]. case_bool_decide as Ha; [|done].
    exfalso. apply Hn. repeat split; eauto.
  - case_bool_decide; simpl; [|done]. by intros ? [= <-].
Qed.

End RevertFacts.

(** ** Instances *)

(** A labelled web pod and an unlabelled helper on one node. *)
Definition shared_node : cluster :=
  default graph_new (build
    [NWorkload (mkWorkload "app" "web" "Pod" {["app" := "web"]} false Internet [] false [] []);
     NWorkload (mkWorkload "app" "helper" "Pod" ∅ false Internal [] false [] []);
     NHost (mkHost "node-1")]
    [(0, 2, ScheduledOn); (1, 2, ScheduledOn)]).

Definition app_scope : ActuationScope := mkScope {["app"]} [].

Lemma contain_sweep_scoped_witness :
  contain_node_in_scope shared_node "host/node-1" app_scope = true /\
  (exists k w, placed_on shared_node "host/node-1" k w /\ w_labels w <> ∅ /\ authorised app_scope k w) /\
  length (co_resident_denies_in_scope shared_node "host/node-1" app_scope) = 1 /\
  co_resident_denies_in_scope shared_node "host/node-1" (mkScope {["other"]} []) = [].
Proof.
  assert (contain_node_in_scope shared_node "host/node-1" app_scope = true) as H by (vm_compute; reflexivity).
  split; [exact H|]. split; [|split; vm_compute; reflexivity].
  apply (proj2 (proj2 (contain_sweep_scoped shared_node "host/node-1" app_scope length_hash))) in H.
  destruct H as [H|H]; [vm_compute in H; discriminate H|exact H].
Defined.

Definition three_workers : list NodeFact :=
  [mkNodeFact "cp" true true false; mkNodeFact "a" false true false; mkNodeFact "b" false true false;
   mkNodeFact "c" false true false].

Lemma three_workers_ok : rails_ok three_workers.
Proof.
  assert (forall a, a ∈ three_workers -> protector_cordoned a = false) as Hn.
  { intros a Ha. unfold three_workers in Ha. rewrite !elem_of_cons, elem_of_nil in Ha. naive_solver. }
  split; [|intros a b Ha _ Hc; by rewrite Hn in Hc|intros a Ha Hc; by rewrite Hn in Hc|].
  - simpl. repeat (apply NoDup_cons; split; [set_solver|]). constructor.
  - intros (a & Ha & Hc). by rewrite Hn in Hc.
Qed.

Lemma fleet_rails_invariant_witness :
  rails_ok three_workers /\
  rtc fleet_step three_workers (patch_fleet "a" true three_workers) /\
  rails_ok (patch_fleet "a" true three_workers) /\
  cordon_decision (mkNodeFact "b" false true false) (patch_fleet "a" true three_workers) = inr OneNodeCap.
Proof.
  assert (rtc fleet_step three_workers (patch_fleet "a" true three_workers)) as H.
  { apply rtc_once. apply (step_cordon three_workers (mkNodeFact "a" false true false)).
    - right. left.
    - vm_compute. reflexivity. }
  split; [exact three_workers_ok|]. split; [exact H|].
  split; [exact (fleet_rails_invariant three_workers _ three_workers_ok H)|vm_compute; reflexivity].
Defined.
