(* ===== verification/Backoff.v ===== *)
(** * Backing off a model that does not answer

    engine/src/engine/reason/backoff.rs: the per-entry exponential backoff and
    the global circuit breaker. A duration is its number of nanoseconds, an
    instant a number of nanoseconds from an arbitrary origin; machine integers
    are kept at their width and a Rust panic is [None]. *)

From S2P Require Import Prelude.
From Stdlib Require Import ZArith.
#[local] Open Scope Z_scope.

(** ** Machine arithmetic *)

Definition u64_max : Z := 2 ^ 64 - 1.
Definition u32_max : Z := 2 ^ 32 - 1.
Definition wrap64 (x : Z) : Z := x mod 2 ^ 64.

Definition nanos_per_sec : Z := 1000000000.
Definition from_secs (s : Z) : Z := s * nanos_per_sec.

(** The longest duration: [u64::MAX] seconds and a nanosecond short of one more. *)
Definition duration_max : Z := 2 ^ 64 * nanos_per_sec - 1.

(** [Duration::checked_mul] by a 32-bit factor, [Duration + Duration] (which
    panics past the longest duration) and [Duration / u32]. *)
Definition dur_checked_mul (d k : Z) : option Z := if d * k <=? duration_max then Some (d * k) else None.
Definition dur_add (a b : Z) : option Z := if a + b <=? duration_max then Some (a + b) else None.
Definition dur_div (d k : Z) : Z := d / k.

(** [1u64.checked_shl(shift)]. *)
Definition checked_shl_one (shift : Z) : option Z := if shift <? 64 then Some (Z.shiftl 1 shift) else None.

(** ** The schedule *)

Definition BASE : Z := from_secs 30.
Definition CAP : Z := from_secs 600.
Definition BREAKER_TRIP : Z := 3.
Definition BREAKER_COOLDOWN : Z := from_secs 120.

Definition mix (x : Z) : Z :=
  let x := wrap64 (x + 0x9E3779B97F4A7C15) in
  let x := wrap64 (Z.lxor x (Z.shiftr x 30) * 0xBF58476D1CE4E5B9) in
  let x := wrap64 (Z.lxor x (Z.shiftr x 27) * 0x94D049BB133111EB) in
  Z.lxor x (Z.shiftr x 31).

Definition delay (failures base cap seed : Z) : option Z :=
  if failures =? 0 then Some 0
  else
    let shift := Z.max 0 (failures - 1) in
    let factor := default u64_max (checked_shl_one shift) in
    let grown := Z.min (default cap (dur_checked_mul base (Z.min factor u32_max))) cap in
    let jitter_span := dur_div grown 8 in
    let jitter :=
      if jitter_span =? 0 then 0
      else mix (Z.lxor seed (Z.shiftl failures 32 mod 2 ^ 64)) mod Z.max (wrap64 jitter_span) 1 in
    delayed ← dur_add grown jitter;
    ceiling ← dur_add cap jitter_span;
    Some (Z.min delayed ceiling).

(** ** Per-entry backoff *)

Record EntryBackoff := mkBackoff { eb_failures : Z; eb_next_retry_at : option Z }.

Definition backoff_default : EntryBackoff := mkBackoff 0 None.

Definition is_backing_off (b : EntryBackoff) (now : Z) : bool :=
  match eb_next_retry_at b with Some at_ => now <? at_ | None => false end.

(** [u32::saturating_add(1)]. *)
Definition saturating_succ (n : Z) : Z := Z.min u32_max (n + 1).

Definition backoff_record_failure (b : EntryBackoff) (now seed : Z) : option EntryBackoff :=
  let failures := saturating_succ (eb_failures b) in
  d ← delay failures BASE CAP seed;
  Some (mkBackoff failures (Some (now + d))).

Definition backoff_record_success (b : EntryBackoff) : EntryBackoff := mkBackoff 0 None.

(** ** The global breaker *)

Record CircuitBreaker := mkBreaker { cb_consecutive_failures : Z; cb_open_until : option Z }.

Definition breaker_default : CircuitBreaker := mkBreaker 0 None.

Definition is_open (b : CircuitBreaker) (now : Z) : bool :=
  match cb_open_until b with Some until => now <? until | None => false end.

Definition breaker_record_failure (b : CircuitBreaker) (now : Z) : CircuitBreaker :=
  let failures := saturating_succ (cb_consecutive_failures b) in
  mkBreaker failures
    (if BREAKER_TRIP <=? failures then Some (now + BREAKER_COOLDOWN) else cb_open_until b).

Definition breaker_record_success (b : CircuitBreaker) : CircuitBreaker := mkBreaker 0 None.

(** ** The schedule is bounded *)

Lemma BASE_eq : BASE = 30000000000. Proof. done. Qed.
Lemma CAP_eq : CAP = 600000000000. Proof. done. Qed.
Lemma u32_max_eq : u32_max = 4294967295. Proof. done. Qed.
Lemma duration_max_eq : duration_max = 18446744073709551615999999999. Proof. done. Qed.

(** Decide arithmetic over the constants of the schedule. *)
Ltac schedule := rewrite ?BASE_eq, ?CAP_eq, ?u32_max_eq, ?duration_max_eq in *; lia.

Lemma wrap64_range x : 0 <= wrap64 x < 2 ^ 64.
Proof. apply Z.mod_pos_bound. lia. Qed.

(** What the delay grows through before jitter: doubling up to the cap. *)
Definition grown (failures : Z) : Z := Z.min (BASE * 2 ^ (failures - 1)) CAP.

Lemma grown_spec failures :
  1 <= failures ->
  Z.min (default CAP (dur_checked_mul BASE
    (Z.min (default u64_max (checked_shl_one (Z.max 0 (failures - 1)))) u32_max))) CAP = grown failures.
Proof.
  intros Hf. unfold grown. rewrite Z.max_r by lia. unfold checked_shl_one.
  assert (forall k, 0 <= k <= u32_max -> dur_checked_mul BASE k = Some (BASE * k)) as Hmul.
  { intros k Hk. unfold dur_checked_mul. rewrite (proj2 (Z.leb_le _ _)); [done|]. schedule. }
  destruct (Z.le_gt_cases (failures - 1) 5) as [Hs|Hl].
  - rewrite (proj2 (Z.ltb_lt _ _)) by lia. simpl. rewrite Z.shiftl_1_l.
    assert (2 ^ (failures - 1) <= 2 ^ 5) by (apply Z.pow_le_mono_r; lia).
    assert (0 <= 2 ^ (failures - 1)) by (apply Z.pow_nonneg; lia).
    change (2 ^ 5) with 32 in *. rewrite (Z.min_l (2 ^ (failures - 1))) by schedule. rewrite Hmul; [done|schedule].
  - set (factor := default u64_max _).
    assert (32 <= factor) as Hge.
    { unfold factor. destruct (Z.ltb_spec (failures - 1) 64); simpl; [|vm_compute; discriminate].
      rewrite Z.shiftl_1_l. change 32 with (2 ^ 5). apply Z.pow_le_mono_r; lia. }
    rewrite Hmul by schedule. simpl.
    assert (2 ^ 5 <= 2 ^ (failures - 1)) by (apply Z.pow_le_mono_r; lia).
    change (2 ^ 5) with 32 in *. rewrite !Z.min_r; [done| |]; schedule.
Qed.

Lemma grown_range failures : 1 <= failures -> BASE <= grown failures <= CAP.
Proof.
  intros Hf. unfold grown. assert (2 ^ 0 <= 2 ^ (failures - 1)) by (apply Z.pow_le_mono_r; lia).
  change (2 ^ 0) with 1 in *. schedule.
Qed.

Lemma delay_spec failures seed :
  1 <= failures ->
  exists jitter, 0 <= jitter < grown failures / 8 /\ delay failures BASE CAP seed = Some (grown failures + jitter).
Proof.
  intros Hf. unfold delay. rewrite (proj2 (Z.eqb_neq _ _)) by lia.
  cbv zeta. rewrite grown_spec by done. unfold dur_div. pose proof (grown_range failures Hf) as Hg.
  rewrite BASE_eq, CAP_eq in Hg.
  assert (1 <= grown failures / 8 <= 75000000000) as Hspan.
  { split; [apply Z.div_le_lower_bound; lia|apply Z.div_le_upper_bound; lia]. }
  rewrite (proj2 (Z.eqb_neq _ _)) by lia.
  assert (wrap64 (grown failures / 8) = grown failures / 8) as -> by (apply Z.mod_small; lia).
  rewrite Z.max_l by lia. set (jitter := mix _ mod _).
  assert (0 <= jitter < grown failures / 8) as Hj by (apply Z.mod_pos_bound; lia).
  exists jitter. split; [done|]. unfold dur_add. rewrite !(proj2 (Z.leb_le _ _)) by schedule. simpl. f_equal. schedule.
Qed.

(** The retry delay never panics and never escapes its band, for any number
    of failures and any jitter seed: nothing without failures, else 30 seconds
    doubled per failure up to ten minutes, plus a jitter below an eighth of
    that; so the wait is at least 30 seconds and below 675. *)
Theorem delay_bounds failures seed :
  0 <= failures <= u32_max ->
  exists d, delay failures BASE CAP seed = Some d /\
    (failures = 0 -> d = 0) /\
    (1 <= failures -> grown failures <= d < grown failures + grown failures / 8 /\
       from_secs 30 <= d < from_secs 675).
Proof.
  intros [H0 _]. destruct (Z.eq_dec failures 0) as [->|Hne].
  - exists 0. split; [done|]. split; [done|]. lia.
  - destruct (delay_spec failures seed ltac:(lia)) as (j & Hj & Hd). exists (grown failures + j).
    split; [done|]. split; [lia|]. intros Hf. split; [lia|].
    pose proof (grown_range failures Hf) as Hg. rewrite BASE_eq, CAP_eq in Hg.
    unfold from_secs, nanos_per_sec.
    assert (grown failures / 8 <= 75000000000) by (apply Z.div_le_upper_bound; lia). lia.
Qed.

Lemma delay_bounds_witness :
  exists d, delay 5 BASE CAP 42 = Some d /\ from_secs 480 <= d < from_secs 540.
Proof.
  destruct (delay_bounds 5 42 ltac:(vm_compute; split; discriminate)) as (d & Hd & _ & Hb).
  exists d. split; [exact Hd|]. destruct (Hb ltac:(lia)) as [Hr _].
  change (grown 5) with 480000000000 in Hr. change (480000000000 / 8) with 60000000000 in Hr. unfold from_secs, nanos_per_sec. lia.
Defined.
