(* ===== verification/AgentLiveness.v ===== *)
(** * Agent liveness

    engine/src/engine/state/agent_liveness.rs and agent_liveness/stall.rs: the
    per-node beacons and their freshness, the nodes the agent is expected on,
    the coverage of a pass and the stall edge over passes. *)

From Stdlib Require Import Sorting.Sorted.
From S2P Require Import Prelude Text ImageRef Attack Behavior Graph Snapshot Backoff.

#[local] Arguments String.append : simpl nomatch.

(** ** The store of beacons *)

Definition AGENT_COMPONENT_LABEL : string := "app.kubernetes.io/component".
Definition AGENT_COMPONENT_VALUE : string := "agent".

(** Instants are nanoseconds; [now.duration_since(at)] saturates at zero. *)
Record NodeReport := mkNodeReport { nr_at : Z; nr_probes_loaded : N; nr_probes_total : N; nr_signals : N }.

Record LiveNode := mkLiveNode { ln_probes_loaded : N; ln_probes_total : N; ln_signals : N }.

Abbreviation AgentLivenessStore := (gmap string NodeReport).

Definition MAX_NODES : nat := 4096.

Definition fresh (ttl now at_ : Z) : bool := (Z.max 0 (now - at_) <? ttl)%Z.

Definition retain_fresh (ttl now : Z) (inner : AgentLivenessStore) : AgentLivenessStore :=
  filter (fun kv => fresh ttl now (nr_at kv.2) = true) inner.

(** [min_by_key]: the first of the least. *)
Definition older (best : option (string * NodeReport)) (kv : string * NodeReport) : option (string * NodeReport) :=
  match best with
  | Some b => if (nr_at kv.2 <? nr_at b.2)%Z then Some kv else Some b
  | None => Some kv
  end.

Definition stalest (inner : AgentLivenessStore) : option (string * NodeReport) := foldl older None (btree_iter inner).

Definition liveness_record_at (max_nodes : nat) (ttl now : Z) (report : AgentReport) (inner : AgentLivenessStore) : AgentLivenessStore :=
  let inner := retain_fresh ttl now inner in
  let inner :=
    if (max_nodes <=? size inner) && negb (bool_decide (is_Some (inner !! ar_node report)))
    then match stalest inner with Some (oldest, _) => delete oldest inner | None => inner end
    else inner in
  <[ar_node report := mkNodeReport now (ar_probes_loaded report) (ar_probes_total report) (ar_signals_emitted report)]> inner.

Definition live_node (r : NodeReport) : LiveNode := mkLiveNode (nr_probes_loaded r) (nr_probes_total r) (nr_signals r).

(** The facts within the TTL, and the store they are read from, pruned. *)
Definition snapshot_at (ttl now : Z) (inner : AgentLivenessStore) : gmap string LiveNode * AgentLivenessStore :=
  let inner := retain_fresh ttl now inner in (live_node <$> inner, inner).

(** ** The expected nodes *)

Definition is_agent_pod (pod : Pod) : bool :=
  match om_labels (pod_meta pod) ≫= fun l => l !! AGENT_COMPONENT_LABEL with
  | Some v => bool_decide (v = AGENT_COMPONENT_VALUE)
  | None => false
  end.

Definition expected_agent_nodes (pods : list Pod) : gset string :=
  list_to_set (List.filter (fun n => negb (bool_decide (n = "")))
    (omap (fun p => pod_spec p ≫= sp_node_name) (List.filter is_agent_pod pods))).

(** ** Coverage *)

Inductive BlindReason := NotReporting | ProbesFailed.

Inductive NodeState :=
  | Healthy (signals : N)
  | DegradedProbes (loaded total : N)
  | Blind (reason : BlindReason)
  | OutOfScope.

#[export] Instance BlindReason_eq_dec : EqDecision BlindReason.
Proof. solve_decision. Defined.
#[export] Instance NodeState_eq_dec : EqDecision NodeState.
Proof. solve_decision. Defined.

Record NodeCoverage := mkCoverage { nc_node : string; nc_state : NodeState }.

Abbreviation RuntimeCoverage := (list NodeCoverage).

Definition state_is_blind (s : NodeState) : bool := match s with Blind _ => true | _ => false end.
Definition state_is_degraded (s : NodeState) : bool := match s with DegradedProbes _ _ => true | _ => false end.
Definition state_is_healthy (s : NodeState) : bool := match s with Healthy _ => true | _ => false end.
Definition expected_state (s : NodeState) : bool := match s with OutOfScope => false | _ => true end.

Definition count_states (p : NodeState -> bool) (c : RuntimeCoverage) : nat := length (List.filter (fun n => p (nc_state n)) c).

Definition expected_count : RuntimeCoverage -> nat := count_states expected_state.
Definition blind_nodes (c : RuntimeCoverage) : list string := nc_node <$> List.filter (fun n => state_is_blind (nc_state n)) c.
Definition degraded_nodes (c : RuntimeCoverage) : list string := nc_node <$> List.filter (fun n => state_is_degraded (nc_state n)) c.
Definition blind_count : RuntimeCoverage -> nat := count_states state_is_blind.
Definition degraded_count : RuntimeCoverage -> nat := count_states state_is_degraded.
Definition healthy_count : RuntimeCoverage -> nat := count_states state_is_healthy.

(** The sum of u64 counts, which wraps in a release build. *)
Definition agent_signals (c : RuntimeCoverage) : N :=
  (foldr N.add 0 (omap (fun n => match nc_state n with Healthy s => Some s | _ => None end) c) mod 2 ^ 64)%N.

Definition all_healthy (c : RuntimeCoverage) : bool :=
  (0 <? expected_count c) && forallb (fun n => state_is_healthy (nc_state n)) (List.filter (fun n => expected_state (nc_state n)) c).

Definition blind_node_set (c : RuntimeCoverage) : gset string := list_to_set (blind_nodes c).

Definition classify_node (live : option LiveNode) : NodeState :=
  match live with
  | None => Blind NotReporting
  | Some l =>
      if (ln_probes_loaded l =? 0)%N then Blind ProbesFailed
      else if (0 <? ln_probes_total l)%N && (ln_probes_loaded l <? ln_probes_total l)%N
      then DegradedProbes (ln_probes_loaded l) (ln_probes_total l)
      else Healthy (ln_signals l)
  end.

Definition node_leb (a b : NodeCoverage) : bool := str_leb (nc_node a) (nc_node b).

Definition derive_runtime_coverage (expected : gset string) (live : gmap string LiveNode) : RuntimeCoverage :=
  sort_by node_leb
    (((fun node => mkCoverage node (classify_node (live !! node))) <$> bset_iter expected) ++
     ((fun node => mkCoverage node OutOfScope) <$>
        List.filter (fun node => negb (bool_decide (node ∈ expected))) (btree_iter live).*1)).

(** ** The stall edge *)

Definition STALL_HOLD_PASSES : Z := 3.

Record CoverageAlert := mkAlert { ca_feed_label : string; ca_last_observation : option string; ca_message : string }.

Inductive CoverageState := CAbsent | Covered | CDegraded | Stalled (alert : CoverageAlert).

Record CoverageStallTracker := mkTracker { st_was_covering : bool; st_last_healthy_at : option Z; st_blind_passes : Z }.

Definition new_tracker : CoverageStallTracker := mkTracker false None 0.

(** Wall clock in nanoseconds; a clock that ran backwards reads as no time. *)
Definition last_observed_age (at_ now : Z) : string :=
  let secs := (Z.max 0 (now - at_) / 1000000000)%Z in
  let unit :=
    if (86400 <=? secs)%Z then pretty (secs / 86400)%Z +:+ "d"
    else if (3600 <=? secs)%Z then pretty (secs / 3600)%Z +:+ "h"
    else if (60 <=? secs)%Z then pretty (secs / 60)%Z +:+ "m"
    else pretty secs +:+ "s" in
  unit +:+ " ago".

Definition stall_alert (t : CoverageStallTracker) (expected : nat) (now : Z) : CoverageAlert :=
  mkAlert "Runtime" ((fun at_ => last_observed_age at_ now) <$> st_last_healthy_at t)
    ("runtime corroboration stalled — all " +:+ pretty expected +:+ " sensor node" +:+ (if expected =? 1 then "" else "s") +:+
     " went dark (was reporting); paths on these nodes are no longer being watched").

Definition stall_observe (t : CoverageStallTracker) (coverage : RuntimeCoverage) (now : Z) : CoverageState * CoverageStallTracker :=
  let expected := expected_count coverage in
  if expected =? 0 then (CAbsent, t)
  else if 0 <? healthy_count coverage then
    (if all_healthy coverage then Covered else CDegraded, mkTracker true (Some now) 0)
  else if negb (length (blind_nodes coverage) =? expected) then
    (CDegraded, mkTracker (st_was_covering t) (st_last_healthy_at t) 0)
  else if negb (st_was_covering t) then (CAbsent, t)
  else
    let t := mkTracker (st_was_covering t) (st_last_healthy_at t) (saturating_succ (st_blind_passes t)) in
    if (st_blind_passes t <? STALL_HOLD_PASSES)%Z then (CDegraded, t) else (Stalled (stall_alert t expected now), t).

(** ** What the store holds *)

Lemma fresh_anti ttl now now' at_ : (now <= now')%Z -> fresh ttl now' at_ = true -> fresh ttl now at_ = true.
Proof. unfold fresh. lia. Qed.

Section Store.
Variables (max_nodes : nat) (ttl : Z).
Hypothesis max_pos : 0 < max_nodes.

Abbreviation record := (liveness_record_at max_nodes ttl).

(** Beacons in the order they came. *)
Definition store_after (hist : list (Z * AgentReport)) : AgentLivenessStore := foldl (fun s b => record b.1 b.2 s) ∅ hist.

(** The last beacon of a node. *)
Definition last_report (hist : list (Z * AgentReport)) (node : string) : option NodeReport :=
  foldl (fun acc b => if bool_decide (ar_node b.2 = node)
    then Some (mkNodeReport b.1 (ar_probes_loaded b.2) (ar_probes_total b.2) (ar_signals_emitted b.2)) else acc) None hist.

(** The other nodes that reported no earlier. *)
Definition rivals (hist : list (Z * AgentReport)) (node : string) (at_ : Z) : gset string :=
  list_to_set ((fun b => ar_node b.2) <$> List.filter (fun b => negb (bool_decide (ar_node b.2 = node)) && (at_ <=? b.1)%Z) hist).

Lemma last_report_snoc hist t r node :
  last_report (hist ++ [(t, r)]) node =
  if bool_decide (ar_node r = node) then Some (mkNodeReport t (ar_probes_loaded r) (ar_probes_total r) (ar_signals_emitted r))
  else last_report hist node.
Proof. unfold last_report. by rewrite foldl_snoc. Qed.

Lemma rivals_spec hist node at_ k :
  k ∈ rivals hist node at_ <-> k <> node /\ exists t r, (t, r) ∈ hist /\ ar_node r = k /\ (at_ <= t)%Z.
Proof.
  unfold rivals. rewrite elem_of_list_to_set, list_elem_of_fmap. split.
  - intros ([t r] & -> & [H Hin]%elem_of_filter_b). simpl in H. bools. split; [done|]. exists t, r. split; [done|]. split; [done|lia].
  - intros (Hne & t & r & Hin & <- & Ht). exists (t, r). split; [done|]. apply elem_of_filter_b. simpl.
    split; [|done]. rewrite bool_decide_false by done. simpl. lia.
Qed.

Lemma retain_spec now inner node r : retain_fresh ttl now inner !! node = Some r <-> inner !! node = Some r /\ fresh ttl now (nr_at r) = true.
Proof. unfold retain_fresh. by rewrite map_lookup_filter_Some. Qed.

Lemma older_spec l : forall best,
  match foldl older best l with
  | Some b => (best = Some b \/ b ∈ l) /\ (forall c, best = Some c -> nr_at b.2 <= nr_at c.2)%Z /\ forall c, c ∈ l -> (nr_at b.2 <= nr_at c.2)%Z
  | None => best = None /\ l = []
  end.
Proof.
  induction l as [|x l IH] using rev_ind; intros best.
  - simpl. destruct best as [b|]; [|done]. split; [by left|]. split; [intros ? [= ->]; lia|]. intros c Hc. by apply not_elem_of_nil in Hc.
  - rewrite foldl_snoc. specialize (IH best). destruct (foldl older best l) as [b|] eqn:E; simpl.
    + destruct IH as (Hin & Hbest & Hall). destruct (Z.ltb_spec (nr_at x.2) (nr_at b.2)).
      * split; [right; apply elem_of_app; right; by left|]. split; [intros c Hc; specialize (Hbest c Hc); lia|].
        intros c [Hc| ->%list_elem_of_singleton]%elem_of_app; [specialize (Hall c Hc)|]; lia.
      * split; [destruct Hin; [by left|right; apply elem_of_app; by left]|]. split; [done|].
        intros c [Hc| ->%list_elem_of_singleton]%elem_of_app; [by apply Hall|lia].
    + destruct IH as [-> ->]. split; [right; by left|]. split; [done|]. intros c [Hc| ->%list_elem_of_singleton]%elem_of_app; [|lia].
      by apply not_elem_of_nil in Hc.
Qed.

Lemma stalest_spec inner :
  match stalest inner with
  | Some (k, b) => inner !! k = Some b /\ forall k' c, inner !! k' = Some c -> (nr_at b <= nr_at c)%Z
  | None => inner = ∅
  end.
Proof.
  unfold stalest. pose proof (older_spec (btree_iter inner) None) as H. destruct (foldl older None (btree_iter inner)) as [[k b]|].
  - destruct H as ([?|H1] & _ & H2); [done|]. split; [by apply btree_iter_elem|]. intros k' c Hc. by apply (H2 (k', c)), btree_iter_elem.
  - destruct H as [_ H]. apply map_eq. intros k. rewrite lookup_empty. destruct (inner !! k) as [r|] eqn:E; [|done].
    apply btree_iter_elem in E. rewrite H in E. by apply not_elem_of_nil in E.
Qed.

(** The store before the new beacon goes in, and what may be missing from it. *)
Definition make_room (now : Z) (node : string) (inner : AgentLivenessStore) : AgentLivenessStore :=
  let inner := retain_fresh ttl now inner in
  if (max_nodes <=? size inner) && negb (bool_decide (is_Some (inner !! node)))
  then match stalest inner with Some (oldest, _) => delete oldest inner | None => inner end
  else inner.

Lemma make_room_size now node inner : size inner <= max_nodes -> size (delete node (make_room now node inner)) < max_nodes.
Proof.
  intros Hsize. assert (size (retain_fresh ttl now inner) <= max_nodes) as Hr.
  { etrans; [|exact Hsize]. apply map_subseteq_size, map_filter_subseteq. }
  unfold make_room. set (m := retain_fresh ttl now inner) in *. destruct (Nat.leb_spec max_nodes (size m)).
  - destruct (m !! node) as [r|] eqn:E; simpl.
    + rewrite map_size_delete_Some by eauto. lia.
    + pose proof (stalest_spec m) as Hst. destruct (stalest m) as [[k b]|].
      * destruct Hst as [Hk _]. rewrite delete_id; [rewrite map_size_delete_Some by eauto; pose proof max_pos; lia|]. apply lookup_delete_None. by right.
      * rewrite Hst, map_size_empty in *. lia.
  - simpl. pose proof (map_subseteq_size _ _ (delete_subseteq m node)). lia.
Qed.

Lemma record_size now r inner : size inner <= max_nodes -> size (record now r inner) <= max_nodes.
Proof.
  intros Hs. pose proof (make_room_size now (ar_node r) inner Hs) as H. unfold liveness_record_at. fold (make_room now (ar_node r) inner).
  rewrite <- insert_delete_eq, map_size_insert_None by apply lookup_delete_eq. lia.
Qed.

(** Every other node keeps its report, unless it went stale or was the stalest
    of a full store that did not know the new node. *)
Lemma record_other now r inner node rep :
  node <> ar_node r -> record now r inner !! node = Some rep ->
  inner !! node = Some rep /\ fresh ttl now (nr_at rep) = true.
Proof.
  intros Hne. unfold liveness_record_at. fold (make_room now (ar_node r) inner). rewrite lookup_insert_ne by done.
  rewrite <- retain_spec. unfold make_room. destruct (_ && _); [|done].
  destruct (stalest _) as [[k b]|]; [|done]. by intros [_ H]%lookup_delete_Some.
Qed.

Lemma record_evicts now r inner node rep :
  node <> ar_node r -> inner !! node = Some rep -> fresh ttl now (nr_at rep) = true -> record now r inner !! node = None ->
  exists S : gset string, max_nodes <= size S + 1 /\ node ∉ S /\ ar_node r ∉ S /\
    forall k, k ∈ S -> exists c, inner !! k = Some c /\ (nr_at rep <= nr_at c)%Z.
Proof.
  intros Hne Hin Hf. unfold liveness_record_at. fold (make_room now (ar_node r) inner). rewrite lookup_insert_ne by done.
  assert (retain_fresh ttl now inner !! node = Some rep) as Hm by (by apply retain_spec).
  unfold make_room. destruct ((_ <=? _) && _) eqn:E; [|congruence]. apply andb_true_iff in E as [Hfull%Nat.leb_le Hnew%negb_true_iff%bool_decide_eq_false].
  pose proof (stalest_spec (retain_fresh ttl now inner)) as Hst. set (m := retain_fresh ttl now inner) in *.
  destruct (stalest m) as [[k b]|]; [|congruence]. destruct Hst as [Hk Hmin]. intros Hd.
  apply lookup_delete_None in Hd as [->|Hd]; [|congruence]. assert (b = rep) as -> by congruence.
  exists (dom (delete node m)). rewrite size_dom, map_size_delete_Some by eauto. split; [lia|]. split; [set_solver|]. split.
  - rewrite dom_delete. intros [H _]%elem_of_difference. apply elem_of_dom in H. done.
  - intros k' [c [_ Hc]%lookup_delete_Some]%elem_of_dom. exists c. split; [by apply retain_spec in Hc as [? _]|by apply (Hmin k')].
Qed.

Lemma last_report_in hist node r :
  last_report hist node = Some r -> exists b, (nr_at r, b) ∈ hist /\ ar_node b = node.
Proof.
  induction hist as [|[t b] hist IH] using rev_ind; [done|]. rewrite last_report_snoc. case_bool_decide as Hn.
  - intros [= <-]. exists b. split; [apply elem_of_app; right; by left|done].
  - intros (b' & Hb & Hn')%IH. exists b'. split; [apply elem_of_app; by left|done].
Qed.

Lemma rivals_mono hist b node at_ : rivals hist node at_ ⊆ rivals (hist ++ [b]) node at_.
Proof.
  intros k (Hne & t & r & Hin & H)%rivals_spec. apply rivals_spec. split; [done|]. exists t, r. split; [apply elem_of_app; by left|done].
Qed.

Lemma store_sound hist node r : store_after hist !! node = Some r -> last_report hist node = Some r.
Proof.
  revert node r. induction hist as [|[t b] hist IH] using rev_ind; intros node r; [done|].
  unfold store_after. rewrite foldl_snoc, last_report_snoc. fold (store_after hist). simpl. case_bool_decide as Hn.
  - subst. unfold liveness_record_at. by rewrite lookup_insert_eq.
  - intros H. apply IH. by eapply record_other.
Qed.

Lemma store_complete hist node r now :
  in_order hist -> (forall b, b ∈ hist -> b.1 <= now)%Z -> last_report hist node = Some r -> fresh ttl now (nr_at r) = true ->
  size (rivals hist node (nr_at r)) < max_nodes -> store_after hist !! node = Some r.
Proof.
  revert now. induction hist as [|[t b] hist IH] using rev_ind; intros now Hord Hnow Hlast Hfresh Hrivals; [done|].
  destruct (in_order_snoc _ _ Hord) as [Hord' Hle]. rewrite last_report_snoc in Hlast.
  assert ((t <= now)%Z) as Ht by (apply (Hnow (t, b)), elem_of_app; right; by left).
  pose proof (fresh_anti _ _ _ _ Ht Hfresh) as Hft. unfold store_after. rewrite foldl_snoc. fold (store_after hist). simpl.
  case_bool_decide as Hn.
  - injection Hlast as <-. subst. unfold liveness_record_at. by rewrite lookup_insert_eq.
  - assert (store_after hist !! node = Some r) as Hin.
    { apply (IH t); [done|intros c Hc; by apply Hle|done|done|]. pose proof (subseteq_size _ _ (rivals_mono hist (t, b) node (nr_at r))). lia. }
    destruct (record t b (store_after hist) !! node) as [r'|] eqn:E.
    { apply record_other in E as [E _]; [congruence|done]. }
    destruct (record_evicts _ _ _ _ _ (not_eq_sym Hn) Hin Hft E) as (S & HS & Hns & Hrs & HSspec).
    assert (S ∪ {[ar_node b]} ⊆ rivals (hist ++ [(t, b)]) node (nr_at r)) as Hsub%subseteq_size.
    { intros k [Hk| ->%elem_of_singleton]%elem_of_union; apply rivals_spec.
      - split; [by intros ->|]. destruct (HSspec k Hk) as (c & (b' & Hb & Hb')%store_sound%last_report_in & Hc).
        exists (nr_at c), b'. split; [apply elem_of_app; by left|done].
      - split; [done|]. exists t, b. split; [apply elem_of_app; right; by left|]. split; [done|].
        destruct (last_report_in _ _ _ Hlast) as (b' & Hb' & _). apply (Hle _ Hb'). }
    rewrite size_union, size_singleton in Hsub by set_solver. lia.
Qed.

Lemma store_bounded hist : size (store_after hist) <= max_nodes.
Proof.
  induction hist as [|[t b] hist IH] using rev_ind; [unfold store_after; simpl; rewrite map_size_empty; lia|]. unfold store_after. rewrite foldl_snoc. by apply record_size.
Qed.

Lemma liveness_snapshot_spec hist now :
  in_order hist -> (forall b, b ∈ hist -> b.1 <= now)%Z ->
  let live := (snapshot_at ttl now (store_after hist)).1 in
  size live <= max_nodes /\
  (forall node l, live !! node = Some l -> exists r, last_report hist node = Some r /\ fresh ttl now (nr_at r) = true /\ l = live_node r) /\
  forall node r, last_report hist node = Some r -> fresh ttl now (nr_at r) = true ->
    size (rivals hist node (nr_at r)) < max_nodes -> live !! node = Some (live_node r).
Proof.
  intros Hord Hnow live. subst live. cbn [fst snapshot_at]. split; [|split].
  - rewrite map_size_fmap. etrans; [apply map_subseteq_size, map_filter_subseteq|]. apply store_bounded.
  - intros node l (r & <- & [H1 H2]%retain_spec)%lookup_fmap_Some. exists r. split; [by apply store_sound|done].
  - intros node r Hl Hf Hr. rewrite lookup_fmap_Some. exists r. split; [done|]. apply retain_spec. split; [by eapply store_complete|done].
Qed.

(** A flood of other names within the TTL does push a reporter out: after one
    beacon and [max_nodes] later ones of other nodes it reads as not reporting. *)
Theorem flood_blinds_reporter t0 t1 r (others : list AgentReport) :
  NoDup (ar_node <$> others) -> length others = max_nodes -> ar_node r ∉ ar_node <$> others -> (t0 < t1)%Z -> (t1 - t0 < ttl)%Z ->
  let hist := (t0, r) :: (pair t1 <$> others) in
  (exists rep, last_report hist (ar_node r) = Some rep /\ fresh ttl t1 (nr_at rep) = true) /\
  (snapshot_at ttl t1 (store_after hist)).1 !! ar_node r = None.
Proof.
  intros Hnd Hlen Hr Ht Hw hist. assert (in_order hist) as Hord.
  { constructor; [|apply Forall_forall; intros b (o & -> & _)%list_elem_of_fmap; simpl; lia].
    clear. induction others as [|o l IH]; [constructor|]. constructor; [done|]. apply Forall_forall. intros b (o' & -> & _)%list_elem_of_fmap. simpl. lia. }
  assert (forall b, b ∈ hist -> (b.1 <= t1)%Z) as Hnow.
  { intros b [->|(o & -> & _)%list_elem_of_fmap]%elem_of_cons; simpl; lia. }
  destruct (liveness_snapshot_spec hist t1 Hord Hnow) as (Hsize & _ & Hlive).
  assert (forall l, (forall o, o ∈ l -> o ∈ others) -> last_report ((t0, r) :: (pair t1 <$> l)) (ar_node r) =
    Some (mkNodeReport t0 (ar_probes_loaded r) (ar_probes_total r) (ar_signals_emitted r))) as Hlast.
  { induction l as [|o l IH] using rev_ind; intros Hl; [unfold last_report; simpl; by rewrite bool_decide_true|].
    rewrite fmap_app, app_comm_cons. change (pair t1 <$> [o]) with [(t1, o)]. rewrite last_report_snoc, bool_decide_false.
    - apply IH. intros x Hx. apply Hl, elem_of_app. by left.
    - intros Heq. apply Hr. apply list_elem_of_fmap. exists o. split; [done|]. apply Hl, elem_of_app. right. by left. }
  specialize (Hlast others (fun _ H => H)). split.
  { eexists. split; [exact Hlast|]. unfold fresh. simpl. lia. }
  destruct (_ !! ar_node r) as [l|] eqn:E; [|done]. exfalso.
  set (live := (snapshot_at ttl t1 (store_after hist)).1) in *.
  assert ((list_to_set (ar_node <$> r :: others) : gset string) ⊆ dom live) as Hsub%subseteq_size.
  { intros k Hk%elem_of_list_to_set. apply elem_of_cons in Hk as [->|Hk]; [by apply elem_of_dom|].
    assert (exists rep, last_report hist k = Some rep /\ nr_at rep = t1) as (rep & Hrep & Hat).
    { assert (forall l, k ∈ ar_node <$> l -> exists rep, last_report ((t0, r) :: (pair t1 <$> l)) k = Some rep /\ nr_at rep = t1) as H; [|by apply H].
      clear Hk. intros l'. induction l' as [|o l' IH] using rev_ind; intros Hk; [by apply not_elem_of_nil in Hk|].
      rewrite fmap_app, app_comm_cons. change (pair t1 <$> [o]) with [(t1, o)]. rewrite last_report_snoc. case_bool_decide as Ho; [by eexists|].
      apply IH. rewrite fmap_app in Hk. apply elem_of_app in Hk as [Hk| ->%list_elem_of_singleton]; done. }
    assert (live !! k = Some (live_node rep)) as Hkl; [|by apply elem_of_dom; eauto].
    apply Hlive; [done|unfold fresh; lia|]. assert (rivals hist k (nr_at rep) ⊆ (list_to_set (ar_node <$> others) : gset string) ∖ {[k]}) as Hriv%subseteq_size.
    { intros x (Hne & t & b & Hin & <- & Hle)%rivals_spec. apply elem_of_difference. split; [|by apply not_elem_of_singleton].
      apply elem_of_list_to_set. apply elem_of_cons in Hin as [[= -> ->]|(o & [= -> ->] & Ho)%list_elem_of_fmap]; [lia|]. apply list_elem_of_fmap. eauto. }
    rewrite size_difference, size_singleton, size_list_to_set, length_fmap, Hlen in Hriv; [pose proof max_pos; lia|done|].
    intros x ->%elem_of_singleton. by apply elem_of_list_to_set. }
  rewrite size_dom, size_list_to_set, length_fmap in Hsub; [cbn [length] in Hsub; lia|]. by constructor.
Qed.

(** A snapshot never invents a beacon and never repeats a stale one, and a flood
    of made-up node names cannot blind it. Whatever beacons came in, by a clock
    that does not run backwards: the store holds at most [max_nodes] nodes; what a
    snapshot says of a node is that node's last beacon, still within the TTL;
    and a node whose last beacon is within the TTL is in the snapshot unless
    [max_nodes] other nodes reported at or after it. *)
Theorem liveness_snapshot_exact hist now :
  in_order hist -> (forall b, b ∈ hist -> b.1 <= now)%Z ->
  let live := (snapshot_at ttl now (store_after hist)).1 in
  size live <= max_nodes /\
  (forall node l, live !! node = Some l -> exists r, last_report hist node = Some r /\ fresh ttl now (nr_at r) = true /\ l = live_node r) /\
  forall node r, last_report hist node = Some r -> fresh ttl now (nr_at r) = true ->
    size (rivals hist node (nr_at r)) < max_nodes -> live !! node = Some (live_node r).
Proof. apply liveness_snapshot_spec. Qed.
End Store.

(** ** The coverage of a pass *)

Lemma blind_nodes_count c : length (blind_nodes c) = blind_count c.
Proof. unfold blind_nodes, blind_count, count_states. by rewrite length_fmap. Qed.

Lemma count_cons p n c : count_states p (n :: c) = (if p (nc_state n) then 1 else 0) + count_states p c.
Proof. unfold count_states. simpl. by destruct (p (nc_state n)). Qed.

Lemma count_split c : expected_count c = healthy_count c + degraded_count c + blind_count c.
Proof.
  unfold expected_count, healthy_count, degraded_count, blind_count. induction c as [|[n s] c IH]; [done|].
  rewrite !count_cons. destruct s; simpl; lia.
Qed.

Lemma count_zero p c : count_states p c = 0 <-> forall n, n ∈ c -> p (nc_state n) = false.
Proof.
  unfold count_states. split.
  - intros H%nil_length_inv n Hn. destruct (p (nc_state n)) eqn:E; [|done].
    assert (n ∈ List.filter (fun n => p (nc_state n)) c) as Hin by (by apply elem_of_filter_b). rewrite H in Hin. by apply not_elem_of_nil in Hin.
  - intros H. destruct (List.filter _ c) as [|n l] eqn:E; [done|]. assert (n ∈ n :: l) as Hn by (by left). rewrite <- E in Hn.
    apply elem_of_filter_b in Hn as [Hp Hn]. rewrite (H n Hn) in Hp. done.
Qed.

Lemma all_healthy_spec c : all_healthy c = true <-> 0 < expected_count c /\ healthy_count c = expected_count c.
Proof.
  unfold all_healthy. rewrite andb_true_iff, Nat.ltb_lt, forallb_elem. apply and_iff_compat_l. rewrite (count_split c).
  transitivity (degraded_count c = 0 /\ blind_count c = 0); [|lia]. unfold degraded_count, blind_count. rewrite !count_zero. split.
  - intros H. split; intros n Hn; specialize (H n); rewrite elem_of_filter_b in H; destruct (nc_state n) eqn:E; try done; (specialize (H (conj eq_refl Hn)); done).
  - intros [H1 H2] n [Hs Hn]%elem_of_filter_b. specialize (H1 n Hn). specialize (H2 n Hn). by destruct (nc_state n).
Qed.

Lemma derived_perm expected live :
  derive_runtime_coverage expected live ≡ₚ
    ((fun node => mkCoverage node (classify_node (live !! node))) <$> elements expected) ++
    ((fun node => mkCoverage node OutOfScope) <$> List.filter (fun node => negb (bool_decide (node ∈ expected))) (btree_iter live).*1).
Proof.
  unfold derive_runtime_coverage. rewrite sort_by_perm. apply Permutation_app_tail, fmap_Permutation, sort_by_perm.
Qed.

Lemma count_perm p (c c' : RuntimeCoverage) : c ≡ₚ c' -> count_states p c = count_states p c'.
Proof.
  unfold count_states. intros H. apply Permutation_length. induction H as [|n l l' _ IH|n m l|]; simpl; [done| | |by etrans].
  - destruct (p (nc_state n)); [by constructor|done].
  - destruct (p (nc_state n)), (p (nc_state m)); try done; constructor.
Qed.

Lemma count_fmap_all p (f : string -> NodeCoverage) l : (forall x, p (nc_state (f x)) = true) -> count_states p (f <$> l) = length l.
Proof. intros H. induction l as [|x l IH]; [done|]. rewrite fmap_cons, count_cons, H, IH. done. Qed.

Lemma count_app p c c' : count_states p (c ++ c') = count_states p c + count_states p c'.
Proof. induction c as [|n c IH]; [done|]. rewrite <- app_comm_cons, !count_cons, IH. lia. Qed.

Lemma classify_in_scope o : expected_state (classify_node o) = true.
Proof. unfold classify_node. repeat case_match; done. Qed.

Lemma classify_blind o : state_is_blind (classify_node o) = true <-> forall l, o = Some l -> ln_probes_loaded l = 0%N.
Proof.
  unfold classify_node. destruct o as [l|]; [|by split]. destruct (N.eqb_spec (ln_probes_loaded l) 0) as [H|H].
  - split; [|done]. by intros _ l' [= <-].
  - split; [|intros H'; by destruct (H (H' l eq_refl))]. by destruct (_ && _).
Qed.

Lemma classify_healthy o : state_is_healthy (classify_node o) = true <->
  exists l, o = Some l /\ (0 < ln_probes_loaded l)%N /\ (ln_probes_total l <= ln_probes_loaded l)%N.
Proof.
  unfold classify_node. destruct o as [l|]; [|split; [done|by intros (? & ? & _)]].
  destruct (N.eqb_spec (ln_probes_loaded l) 0) as [H|H]; [split; [done|intros (l' & [= <-] & ?); lia]|].
  destruct (N.ltb_spec 0 (ln_probes_total l)), (N.ltb_spec (ln_probes_loaded l) (ln_probes_total l)); simpl; split; try done;
    solve [intros (l' & [= <-] & ?); lia|intros _; exists l; split; [done|lia]].
Qed.

Lemma derived_elem expected live n :
  n ∈ derive_runtime_coverage expected live <->
    (nc_node n ∈ expected /\ nc_state n = classify_node (live !! nc_node n)) \/
    (nc_node n ∉ expected /\ is_Some (live !! nc_node n) /\ nc_state n = OutOfScope).
Proof.
  rewrite derived_perm, elem_of_app, !list_elem_of_fmap. apply ZifyClasses.or_morph.
  - split; [intros (k & -> & Hk%elem_of_elements); done|]. intros [Hk Hs]. exists (nc_node n). rewrite elem_of_elements, <- Hs. by destruct n.
  - split.
    + intros (k & -> & [Hne Hk]%elem_of_filter_b). bools. apply list_elem_of_fmap in Hk as ([k' l] & -> & Hl%btree_iter_elem). simpl. eauto.
    + intros (Hne & [l Hl] & Hs). exists (nc_node n). rewrite <- Hs, elem_of_filter_b, negb_true_iff, bool_decide_eq_false.
      split; [by destruct n|]. split; [done|]. apply list_elem_of_fmap. exists (nc_node n, l). split; [done|]. by apply btree_iter_elem.
Qed.

Lemma derived_nodup expected live : NoDup (nc_node <$> derive_runtime_coverage expected live).
Proof.
  rewrite derived_perm, fmap_app, <- !list_fmap_compose. apply NoDup_app.
  assert (forall l : list string, (nc_node ∘ (fun node => mkCoverage node OutOfScope)) <$> l = l) as H1 by (intros l; by apply list_fmap_id).
  assert (forall l : list string, (nc_node ∘ (fun node => mkCoverage node (classify_node (live !! node)))) <$> l = l) as H2 by (intros l; by apply list_fmap_id).
  rewrite H1, H2. split; [apply NoDup_elements|]. split.
  - intros k Hk%elem_of_elements [H _]%elem_of_filter_b. bools. done.
  - rewrite <- (list_fmap_id (List.filter _ _)). apply NoDup_fmap_filter. rewrite list_fmap_id. unfold btree_iter. rewrite sort_by_perm. apply NoDup_fst_map_to_list.
Qed.

Lemma derived_expected expected live : expected_count (derive_runtime_coverage expected live) = size expected.
Proof.
  unfold expected_count. rewrite (count_perm _ _ _ (derived_perm expected live)), count_app, count_fmap_all by (intros; apply classify_in_scope).
  rewrite (proj2 (count_zero _ _)); [rewrite Nat.add_0_r; done|]. by intros n (k & -> & _)%list_elem_of_fmap.
Qed.

(** The coverage of a pass is the expected nodes, each classified by its live
    beacon, and the reporters out of scope; one row a node, by name. A node that
    reports nothing fresh, or has no probe attached, is blind, and nothing else
    is: quiet is not blind, and a node the agent is not scheduled on is not. *)
Theorem coverage_exact expected live :
  let coverage := derive_runtime_coverage expected live in
  NoDup (nc_node <$> coverage) /\ StronglySorted (fun a b => node_leb a b = true) coverage /\
  (forall n, n ∈ coverage <->
    (nc_node n ∈ expected /\ nc_state n = classify_node (live !! nc_node n)) \/
    (nc_node n ∉ expected /\ is_Some (live !! nc_node n) /\ nc_state n = OutOfScope)) /\
  expected_count coverage = size expected /\
  healthy_count coverage + degraded_count coverage + blind_count coverage = size expected /\
  (forall node, node ∈ blind_node_set coverage <->
    node ∈ expected /\ forall l, live !! node = Some l -> ln_probes_loaded l = 0%N) /\
  (all_healthy coverage = true <-> expected <> ∅ /\ forall node, node ∈ expected ->
    exists l, live !! node = Some l /\ (0 < ln_probes_loaded l)%N /\ (ln_probes_total l <= ln_probes_loaded l)%N).
Proof.
  intros coverage. subst coverage. pose proof (derived_expected expected live) as Hn.
  split; [apply derived_nodup|]. split; [apply sort_by_sorted; unfold node_leb; eauto using str_leb_total, str_leb_trans|].
  split; [apply derived_elem|]. split; [done|]. split; [rewrite <- Hn, count_split; done|]. split.
  - intros node. unfold blind_node_set, blind_nodes. rewrite elem_of_list_to_set, list_elem_of_fmap. setoid_rewrite elem_of_filter_b.
    setoid_rewrite (derived_elem expected live). rewrite <- classify_blind. split.
    + intros (n & -> & Hb & [[Hin Hs]|(_ & _ & Hs)]); rewrite Hs in Hb; done.
    + intros [Hin Hb]. exists (mkCoverage node (classify_node (live !! node))). split; [done|]. split; [done|]. by left.
  - unfold all_healthy. rewrite andb_true_iff, Nat.ltb_lt, Hn, forallb_elem. setoid_rewrite elem_of_filter_b. setoid_rewrite derived_elem.
    apply ZifyClasses.and_morph.
    + destruct (decide (expected = ∅)) as [->|Hne]; [rewrite size_empty; split; [lia|done]|]. split; [done|]. intros _.
      destruct (set_choose_L _ Hne) as [x Hx]. assert ({[x]} ⊆ expected) as H%subseteq_size by set_solver. rewrite size_singleton in H. lia.
    + split.
      * intros H node Hin. apply classify_healthy. apply (H (mkCoverage node (classify_node (live !! node)))). split; [apply classify_in_scope|]. by left.
      * intros H n [Hs [[Hin ->]|(_ & _ & Hs')]]; [by apply classify_healthy, H|]. by rewrite Hs' in Hs.
Qed.

(** ** The stall edge over passes *)

Abbreviation Pass := (RuntimeCoverage * Z)%type.

Definition lit (p : Pass) : bool := 0 <? healthy_count p.1.
Definition in_view (p : Pass) : bool := 0 <? expected_count p.1.
Definition dark (p : Pass) : bool := in_view p && (blind_count p.1 =? expected_count p.1).

Definition tracker_after (passes : list Pass) : CoverageStallTracker :=
  foldl (fun t p => (stall_observe t p.1 p.2).2) new_tracker passes.

(** The passes at the end of [l] that were dark throughout. *)
Definition dark_run (l : list Pass) : nat := foldl (fun n p => if dark p then S n else 0) 0 l.

Lemma dark_run_spec l k : k <= dark_run l <-> exists pre run, l = pre ++ run /\ length run = k /\ forall p, p ∈ run -> dark p = true.
Proof.
  revert k. induction l as [|p l IH] using rev_ind; intros k.
  - simpl. split.
    + intros ->%Nat.le_0_r. exists [], []. split; [done|]. split; [done|]. intros p Hp. by apply not_elem_of_nil in Hp.
    + intros (pre & run & H & <- & _). by apply eq_sym, app_eq_nil in H as [_ ->].
  - unfold dark_run. rewrite foldl_snoc. fold (dark_run l). destruct k as [|k].
    { split; [|lia]. intros _. exists (l ++ [p]), []. rewrite app_nil_r. split; [done|]. split; [done|]. intros q Hq. by apply not_elem_of_nil in Hq. }
    split.
    + destruct (dark p) eqn:Hd; [|lia]. intros Hk%le_S_n. apply IH in Hk as (pre & run & -> & <- & Hrun).
      exists pre, (run ++ [p]). rewrite app_assoc, length_app, Nat.add_comm. split; [done|]. split; [done|].
      by intros q [Hq| ->%list_elem_of_singleton]%elem_of_app; [apply Hrun|].
    + intros (pre & run & H & Hlen & Hrun). destruct run as [|q run _] using rev_ind; [done|]. rewrite app_assoc in H.
      apply app_inj_tail in H as [-> ->]. rewrite (Hrun q) by (apply elem_of_app; right; by left).
      apply le_n_S, IH. exists pre, run. rewrite length_app, Nat.add_comm in Hlen. injection Hlen as Hlen. split; [done|]. split; [done|].
      intros x Hx. apply Hrun, elem_of_app. by left.
Qed.

Lemma dark_run_snoc l p : dark_run (l ++ [p]) = if dark p then S (dark_run l) else 0.
Proof. unfold dark_run. by rewrite foldl_snoc. Qed.

Lemma lit_view p : lit p = true -> in_view p = true.
Proof. unfold lit, in_view. rewrite (count_split p.1), !Nat.ltb_lt. lia. Qed.

Lemma lit_not_dark p : lit p = true -> dark p = false.
Proof.
  unfold lit, dark. rewrite (count_split p.1), Nat.ltb_lt. intros H. apply andb_false_iff. right. apply Nat.eqb_neq. lia.
Qed.

(** One pass, in these terms. *)
Lemma observe_spec t p :
  stall_observe t p.1 p.2 =
  if negb (in_view p) then (CAbsent, t)
  else if lit p then (if all_healthy p.1 then Covered else CDegraded, mkTracker true (Some p.2) 0)
  else if negb (dark p) then (CDegraded, mkTracker (st_was_covering t) (st_last_healthy_at t) 0)
  else if negb (st_was_covering t) then (CAbsent, t)
  else
    let t := mkTracker true (st_last_healthy_at t) (saturating_succ (st_blind_passes t)) in
    (if (st_blind_passes t <? STALL_HOLD_PASSES)%Z then CDegraded else Stalled (stall_alert t (expected_count p.1) p.2), t).
Proof.
  unfold stall_observe, dark, lit, in_view. rewrite blind_nodes_count. destruct (Nat.eqb_spec (expected_count p.1) 0) as [->|H]; [done|].
  replace (0 <? expected_count p.1) with true by (symmetry; apply Nat.ltb_lt; lia). cbn [negb andb].
  destruct (0 <? healthy_count p.1); [done|]. destruct (_ =? _); [|done]. cbn [negb]. destruct (st_was_covering t); [|done]. cbn [negb st_blind_passes].
  by destruct (_ <? _)%Z.
Qed.

Lemma tracker_spec l :
  tracker_after l = mkTracker (existsb lit l) (snd <$> last (List.filter lit l))
    (if existsb lit l then Z.min u32_max (Z.of_nat (dark_run (List.filter in_view l))) else 0).
Proof.
  induction l as [|p l IH] using rev_ind; [done|]. unfold tracker_after. rewrite foldl_snoc. fold (tracker_after l).
  rewrite observe_spec, IH, existsb_app, !List.filter_app. cbn [existsb List.filter]. rewrite orb_false_r.
  pose proof (lit_view p) as Hlv. pose proof (lit_not_dark p) as Hld. destruct (in_view p) eqn:Hv; cbn [negb].
  2: { destruct (lit p); [by discriminate Hlv|]. by rewrite orb_false_r, !app_nil_r. }
  rewrite (dark_run_snoc (List.filter in_view l) p). destruct (lit p) eqn:Hl.
  { cbn [snd]. rewrite last_snoc, orb_true_r, (Hld eq_refl). done. }
  rewrite !orb_false_r, !app_nil_r. destruct (dark p) eqn:Hd; cbn [negb snd st_was_covering st_last_healthy_at st_blind_passes].
  - destruct (existsb lit l); [|done]. cbn [negb snd st_blind_passes]. f_equal. unfold saturating_succ. pose proof u32_max_eq. lia.
  - by destruct (existsb lit l).
Qed.

Lemma last_dark passes p :
  in_view p = true ->
  (exists before run, List.filter in_view (passes ++ [p]) = before ++ run /\ length run = 3 /\
    (forall q, q ∈ run -> dark q = true) /\ exists q, q ∈ before /\ lit q = true) <->
  dark p = true /\ existsb lit passes = true /\ 2 <= dark_run (List.filter in_view passes).
Proof.
  intros Hv. rewrite List.filter_app. cbn [List.filter]. rewrite Hv, existsb_elem. split.
  - intros (before & run & H & Hlen & Hrun & q & Hq & Hl). destruct run as [|r run _] using rev_ind; [done|]. rewrite app_assoc in H.
    apply app_inj_tail in H as [H <-]. split; [apply Hrun, elem_of_app; right; by left|]. split.
    + exists q. split; [|done]. assert (q ∈ List.filter in_view passes) as Hin by (rewrite H; apply elem_of_app; by left).
      by apply elem_of_filter_b in Hin as [_ ?].
    + apply dark_run_spec. exists before, run. rewrite length_app, Nat.add_comm in Hlen. injection Hlen as Hlen. split; [done|]. split; [done|].
      intros x Hx. apply Hrun, elem_of_app. by left.
  - intros (Hd & (q & Hq & Hl) & (before & run & H & Hlen & Hrun)%dark_run_spec). exists before, (run ++ [p]).
    rewrite H, length_app, Hlen, app_assoc. split; [done|]. split; [done|]. split.
    + by intros x [Hx| ->%list_elem_of_singleton]%elem_of_app; [apply Hrun|].
    + exists q. split; [|done]. assert (q ∈ List.filter in_view passes) as Hin by (apply elem_of_filter_b; split; [by apply lit_view|done]).
      rewrite H in Hin. apply elem_of_app in Hin as [|Hin]; [done|]. apply Hrun in Hin. by rewrite (lit_not_dark q Hl) in Hin.
Qed.

Lemma all_healthy_lit p : all_healthy p.1 = true -> lit p = true.
Proof. intros [H1 H2]%all_healthy_spec. unfold lit. rewrite H2. by apply Nat.ltb_lt. Qed.

(** The stall edge, over any passes. Passes in which no node is expected are out
    of view and change nothing. The state is covered when every expected node is
    healthy; absent when none is expected, or when the fleet is dark and never
    was lit; stalled exactly when the last [STALL_HOLD_PASSES] passes in view are
    dark and the fleet was lit before them, and then the alert tells the age of
    the last lit pass; and degraded otherwise. *)
Theorem coverage_state_exact passes p :
  let state := (stall_observe (tracker_after passes) p.1 p.2).1 in
  (state = Covered <-> all_healthy p.1 = true) /\
  (state = CAbsent <-> in_view p = false \/ (dark p = true /\ forall q, q ∈ passes -> lit q = false)) /\
  ((exists alert, state = Stalled alert) <->
    in_view p = true /\ exists before run, List.filter in_view (passes ++ [p]) = before ++ run /\
      length run = 3 /\ (forall q, q ∈ run -> dark q = true) /\ exists q, q ∈ before /\ lit q = true) /\
  (forall alert, state = Stalled alert -> exists q, last (List.filter lit passes) = Some q /\
    alert = stall_alert (mkTracker true (Some q.2) 0) (expected_count p.1) p.2).
Proof.
  intros state. subst state. rewrite observe_spec, tracker_spec. cbn [st_was_covering st_last_healthy_at st_blind_passes].
  pose proof (all_healthy_lit p) as Hal. pose proof (lit_view p) as Hlv. pose proof (lit_not_dark p) as Hld.
  destruct (in_view p) eqn:Hv; cbn [negb fst]; [rewrite (last_dark passes p Hv)|naive_solver].
  destruct (lit p) eqn:Hl; cbn [fst].
  { rewrite (Hld eq_refl). destruct (all_healthy p.1); naive_solver. }
  assert (all_healthy p.1 = false) as Hh by (destruct (all_healthy p.1); [by discriminate Hal|done]). rewrite Hh.
  destruct (dark p) eqn:Hd; cbn [negb fst]; [|naive_solver].
  destruct (existsb lit passes) eqn:Hw; cbn [negb fst st_blind_passes].
  2: { rewrite existsb_false in Hw. split; [done|]. split; [split; [by right|done]|]. split; [|done]. split; [by intros []|by intros (_ & _ & ? & _)]. }
  assert (~ forall q, q ∈ passes -> lit q = false) as Hsome by (rewrite <- existsb_false; congruence).
  unfold saturating_succ, STALL_HOLD_PASSES. pose proof u32_max_eq as Hmax. rewrite Hmax.
  set (n := dark_run (List.filter in_view passes)). destruct (Z.ltb_spec (Z.min 4294967295 (Z.min 4294967295 (Z.of_nat n) + 1)) 3) as [Hn|Hn].
  - split; [done|]. split; [naive_solver|]. split; [|done]. split; [by intros []|]. intros (_ & _ & _ & ?). lia.
  - split; [done|]. split; [naive_solver|]. split; [split; [intros _; split; [done|split; [done|split; [done|lia]]]|eauto]|].
    intros alert [= <-]. destruct (last (List.filter lit passes)) as [q|] eqn:Hlast; [by exists q|].
    apply last_None in Hlast. apply existsb_elem in Hw as (q & Hq & Hlq). assert (q ∈ List.filter lit passes) as Hin by (by apply elem_of_filter_b).
    rewrite Hlast in Hin. by apply not_elem_of_nil in Hin.
Qed.

(** Two nodes beacon, one of them twice; both are live a second later. *)
Definition demo_beacons : list (Z * AgentReport) :=
  [(0%Z, mkAgentReport "n1" 4 4 0 None); (5%Z, mkAgentReport "n2" 0 4 0 None); (9%Z, mkAgentReport "n1" 4 4 7 None)].

Lemma liveness_snapshot_exact_witness :
  in_order demo_beacons /\
  (snapshot_at 90000000000 1000000000 (store_after MAX_NODES 90000000000 demo_beacons)).1 !! "n1" = Some (mkLiveNode 4 4 7).
Proof.
  assert (in_order demo_beacons) as Hord by (repeat constructor; vm_compute; discriminate).
  split; [exact Hord|].
  refine (proj2 (proj2 (liveness_snapshot_exact MAX_NODES 90000000000 _ demo_beacons 1000000000 Hord _)) "n1" (mkNodeReport 9 4 4 7) eq_refl eq_refl _).
  - unfold MAX_NODES. lia.
  - intros b Hb. repeat (apply elem_of_cons in Hb as [->|Hb]; [vm_compute; discriminate|]). by apply not_elem_of_nil in Hb.
  - assert (size (rivals demo_beacons "n1" (nr_at (mkNodeReport 9 4 4 7))) = 0) as -> by (vm_compute; reflexivity). unfold MAX_NODES. lia.
Defined.

(** A lit fleet that goes dark is stalled on the third dark pass. *)
Example stall_demo :
  let bright := [mkCoverage "n1" (Healthy 0)] in let out := [mkCoverage "n1" (Blind NotReporting)] in
  (fun p => (stall_observe (tracker_after p) out 200000000000).1) <$> [[]; [(bright, 0%Z)]; [(bright, 0%Z); (out, 1%Z); (out, 2%Z)]] =
  [CAbsent; CDegraded; Stalled (mkAlert "Runtime" (Some "3m ago")
     "runtime corroboration stalled — all 1 sensor node went dark (was reporting); paths on these nodes are no longer being watched")].
Proof. vm_compute. reflexivity. Qed.
