(* ===== verification/Ingest.v ===== *)
(** * Evidence ingest

    engine/src/engine/observe/runtime.rs, audit.rs and ingest_guard.rs: the
    windowed stores of runtime observations and audited secret reads, the two
    POST handlers behind their bearer token and rate limit, and the parser of
    audit events. *)

From Stdlib Require Import Sorting.Sorted.
From S2P Require Import Prelude Text Json ImageRef Attack Behavior Graph Snapshot Backoff AgentLiveness.

#[local] Arguments String.append : simpl nomatch.

(** ** A store of recent events *)

Definition MAX_EVENTS : nat := 4096.

Section Window.
Context {E : Type} (same : E -> E -> bool) (cap : nat) (ttl : Z).

(** The slot of a known signal takes the new time and keeps what it held. *)
Fixpoint refresh (now : Z) (e : E) (events : list (Z * E)) : option (list (Z * E)) :=
  match events with
  | [] => None
  | s :: rest => if same s.2 e then Some ((now, s.2) :: rest) else cons s <$> refresh now e rest
  end.

(** Whether the store changed, and the store. *)
Definition record_at (now : Z) (e : E) (events : list (Z * E)) : bool * list (Z * E) :=
  let events := List.filter (fun s => fresh ttl now s.1) events in
  match refresh now e events with
  | Some events => (false, events)
  | None =>
      let events := events ++ [(now, e)] in
      (true, if cap <? length events then drop (length events - cap) events else events)
  end.

Definition current_at (now : Z) (events : list (Z * E)) : list E := snd <$> List.filter (fun s => fresh ttl now s.1) events.

(** Each event by its own reading of the clock; whether any changed the store. *)
Definition record_all_at (batch : list (Z * E)) (events : list (Z * E)) : bool * list (Z * E) :=
  foldl (fun acc b => let '(changed, events) := record_at b.1 b.2 acc.2 in (acc.1 || changed, events)) (false, events) batch.
End Window.

(** ** Runtime observations *)

#[export] Instance Attribution_eq_dec : EqDecision Attribution.
Proof. solve_decision. Defined.
#[export] Instance AuditSecretRead_eq_dec : EqDecision AuditSecretRead.
Proof. solve_decision. Defined.

Definition same_signal (a b : RuntimeObservation) : bool :=
  bool_decide (ob_behavior a = ob_behavior b) && bool_decide (ob_attribution a = ob_attribution b).

Definition runtime_record_at : Z -> Z -> RuntimeObservation -> list (Z * RuntimeObservation) -> bool * list (Z * RuntimeObservation) :=
  record_at same_signal MAX_EVENTS.

Definition runtime_current_at : Z -> Z -> list (Z * RuntimeObservation) -> list RuntimeObservation := current_at.

Definition DEFAULT_RUNTIME_WINDOW_SECS : N := 1800.

Definition parse_runtime_window (raw : option string) : N :=
  match raw ≫= fun v => parse_u64 (trim v) with
  | Some s => if (0 <? s)%N then s else DEFAULT_RUNTIME_WINDOW_SECS
  | None => DEFAULT_RUNTIME_WINDOW_SECS
  end.

Inductive BehaviorIngest := Envelope (report : RuntimeReport) | Bare (observations : list RuntimeObservation).

Definition into_report (i : BehaviorIngest) : RuntimeReport :=
  match i with Envelope report => report | Bare observations => mkRuntimeReport observations None end.

Definition MAX_BATCH : nat := 1024.

(** What the handlers share with the engine: both stores, the beacons, and
    whether a wake is pending. *)
Record IngestWorld := mkIngestWorld {
  iw_events : list (Z * RuntimeObservation);
  iw_reads : list (Z * AuditSecretRead);
  iw_liveness : AgentLivenessStore;
  iw_woken : bool
}.

Section Handlers.
(** The TTLs of the two stores and of the beacons, and the clock as each record
    of a batch reads it. *)
Variables (ttl audit_ttl liveness_ttl : Z).

Definition record_batch (clock : nat -> Z) (observations : list RuntimeObservation) (events : list (Z * RuntimeObservation)) :
    bool * list (Z * RuntimeObservation) :=
  record_all_at same_signal MAX_EVENTS ttl (imap (fun i o => (clock i, o)) (take MAX_BATCH observations)) events.

Definition ingest_report (now : Z) (clock : nat -> Z) (report : RuntimeReport) (w : IngestWorld) : bool * IngestWorld :=
  let liveness := match rr_liveness report with
                  | Some beacon => liveness_record_at MAX_NODES liveness_ttl now beacon (iw_liveness w)
                  | None => iw_liveness w end in
  let '(changed, events) := record_batch clock (rr_observations report) (iw_events w) in
  (changed, mkIngestWorld events (iw_reads w) liveness (iw_woken w)).

(** A full wake channel already has a wake pending. *)
Definition wake (changed : bool) (w : IngestWorld) : IngestWorld :=
  mkIngestWorld (iw_events w) (iw_reads w) (iw_liveness w) (iw_woken w || changed).

Definition ingest_behavior (now : Z) (clock : nat -> Z) (payload : BehaviorIngest) (w : IngestWorld) : IngestWorld :=
  let '(changed, w) := ingest_report now clock (into_report payload) w in wake changed w.

(** ** Audited secret reads *)

Definition MAX_FIELD_LEN : nat := 512.

Definition bounded (s : string) : string := take_chars MAX_FIELD_LEN s.

Definition colon : Ascii.ascii := Ascii.ascii_of_nat 58.

Definition parse_service_account (username : string) : option (string * string) :=
  rest ← strip_prefix "system:serviceaccount:" username;
  '(ns, name) ← split_once colon rest;
  if bool_decide (ns = "") || bool_decide (name = "") then None else Some (bounded ns, bounded name).

(** A string field that is there and not empty, bounded. *)
Definition bounded_field (object_ref : Json) (key : string) : option string :=
  s ← json_get object_ref key ≫= as_str; if bool_decide (s = "") then None else Some (bounded s).

Definition READ_VERBS : list string := ["get"; "list"; "watch"].

Definition parse_audit_event (event : Json) : option AuditSecretRead :=
  verb ← json_get event "verb" ≫= as_str;
  if negb (bool_decide (verb ∈ READ_VERBS)) then None
  else
    object_ref ← json_get event "objectRef";
    resource ← json_get object_ref "resource" ≫= as_str;
    if negb (bool_decide (resource = "secrets")) then None
    else if match json_get object_ref "apiGroup" ≫= as_str with Some group => negb (bool_decide (group = "")) | None => false end then None
    else if negb (bool_decide ((json_get event "annotations" ≫= fun a => json_get a "authorization.k8s.io/decision" ≫= as_str) = Some "allow")) then None
    else
      username ← json_get event "user" ≫= fun u => json_get u "username" ≫= as_str;
      '(sa_namespace, sa_name) ← parse_service_account username;
      Some (mkAuditRead sa_namespace sa_name (bounded_field object_ref "namespace") (bounded_field object_ref "name") verb).

Definition MAX_EVENTS_PER_BODY : nat := 1024.

Definition parse_audit_body (body : Json) : list AuditSecretRead :=
  match json_get body "items" ≫= as_array with
  | Some items => omap parse_audit_event (take MAX_EVENTS_PER_BODY items)
  | None => option_list (parse_audit_event body)
  end.

Definition same_read (a b : AuditSecretRead) : bool := bool_decide (a = b).

Definition audit_record_at : Z -> Z -> AuditSecretRead -> list (Z * AuditSecretRead) -> bool * list (Z * AuditSecretRead) :=
  record_at same_read MAX_EVENTS.

Definition audit_current_at : Z -> Z -> list (Z * AuditSecretRead) -> list AuditSecretRead := current_at.

Definition ingest_audit (clock : nat -> Z) (body : Json) (w : IngestWorld) : IngestWorld :=
  let '(changed, reads) :=
    record_all_at same_read MAX_EVENTS audit_ttl (imap (fun i r => (clock i, r)) (parse_audit_body body)) (iw_reads w) in
  wake changed (mkIngestWorld (iw_events w) reads (iw_liveness w) (iw_woken w)).
End Handlers.

(** ** The guards *)

(** [IngestToken::from_env]: the contents of the mounted file, if the variable
    names one that can be read. *)
Definition token_from_env (contents : option string) : option string :=
  s ← contents; let token := trim s in if bool_decide (token = "") then None else Some token.

(** No token, no listener. *)
Definition require_token (token : option string) : string + string :=
  match token with Some t => inl t | None => inr "PROTECTOR_INGEST_TOKEN_FILE is not configured" end.

Section Guards.
(** [subtle]'s comparison of byte strings of one length. *)
Variable ct_eq : string -> string -> bool.

Definition token_matches (token presented : string) : bool :=
  if negb (String.length token =? String.length presented) then false else ct_eq token presented.

(** The value of the Authorization header, when it is there and is text. *)
Definition extract_bearer (authorization : option string) : option string :=
  value ← authorization;
  token ← (match strip_prefix "Bearer " value with Some t => Some t | None => strip_prefix "bearer " value end);
  let token := trim token in if bool_decide (token = "") then None else Some token.

Inductive Status := Ok200 | Unauthorized401 | TooMany429 | Unreadable4xx.

(** The rate limiter is a parameter: what it holds, and one decision for a peer. *)
Context {L Peer : Type} (allow : Peer -> Z -> L -> bool * L).

(** One request through the layers of the router. Layers added later run first:
    the bearer check is outside the rate limit, the handler inside both. A body
    the extractor refuses never reaches the handler. *)
Definition guarded {Body W} (handler : Body -> W -> W) (token : string) (authorization : option string) (peer : Peer) (now : Z)
    (body : option Body) (st : L * W) : Status * (L * W) :=
  let '(limiter, w) := st in
  match extract_bearer authorization with
  | Some presented =>
      if token_matches token presented then
        let '(allowed, limiter) := allow peer now limiter in
        if (allowed : bool)
        then match body with Some b => (Ok200, (limiter, handler b w)) | None => (Unreadable4xx, (limiter, w)) end
        else (TooMany429, (limiter, w))
      else (Unauthorized401, st)
  | None => (Unauthorized401, st)
  end.
End Guards.
