(* ===== verification/IngestFacts.v ===== *)
(** * What the ingest keeps and what it lets in

    The windowed stores hold exactly the signals seen within the window, the
    parser accepts exactly the allowed reads of secrets by service accounts, and
    nothing gets past the guards without the token. *)

From Stdlib Require Import Sorting.Sorted.
From stdpp Require Import sorting.
From S2P Require Import Prelude Text Json ImageRef Attack Behavior Graph Snapshot Backoff AgentLiveness Ingest.

#[local] Arguments String.append : simpl nomatch.

(** ** The window *)

Lemma elem_of_dropped {A} (x : A) n l : x ∈ drop n l -> x ∈ l.
Proof. intros H. rewrite <- (take_drop n l). apply elem_of_app. by right. Qed.

Lemma forallb_filter_id {A} (p : A -> bool) l : forallb p l = true -> List.filter p l = l.
Proof. induction l as [|x l IH]; [done|]. simpl. intros [-> H]%andb_true_iff. by rewrite IH. Qed.

Section Window.
Context {E : Type} (same : E -> E -> bool) (cap : nat) (ttl : Z).
Hypothesis same_refl : forall a, same a a = true.
Hypothesis same_sym : forall a b, same a b = true -> same b a = true.
Hypothesis same_trans : forall a b c, same a b = true -> same b c = true -> same a c = true.

Abbreviation Slots := (list (Z * E)).
Abbreviation record := (record_at same cap ttl).

Definition window_after (hist : Slots) : Slots := foldl (fun s b => (record b.1 b.2 s).2) [] hist.

(** When a signal was last recorded. *)
Definition last_seen (hist : Slots) (e : E) : option Z :=
  foldl (fun acc b => if same b.2 e then Some b.1 else acc) None hist.

(** A signal recorded within the window. *)
Definition seen_within (hist : Slots) (now : Z) (e : E) : Prop :=
  exists at_, last_seen hist e = Some at_ /\ fresh ttl now at_ = true.

(** Slots of different signals. *)
Definition distinct (l : list E) : Prop := StronglySorted (fun a b => same a b = false) l.

(** At no point more than [cap] signals are within the window. *)
Definition fits (hist : Slots) : Prop :=
  forall before t e after, hist = before ++ (t, e) :: after ->
  forall l, distinct l -> (forall x, x ∈ l -> seen_within (before ++ [(t, e)]) t x) -> length l <= cap.

Lemma last_seen_snoc hist t e x : last_seen (hist ++ [(t, e)]) x = if same e x then Some t else last_seen hist x.
Proof. unfold last_seen. by rewrite foldl_snoc. Qed.

Lemma last_seen_same hist a b : same a b = true -> last_seen hist a = last_seen hist b.
Proof.
  intros H. induction hist as [|[t e] hist IH] using rev_ind; [done|]. rewrite !last_seen_snoc, IH.
  assert (same e a = same e b) as ->; [|done]. apply eq_true_iff_eq. split; intros; eauto.
Qed.

Lemma last_seen_in hist e at_ : last_seen hist e = Some at_ -> exists x, (at_, x) ∈ hist /\ same x e = true.
Proof.
  induction hist as [|[t x] hist IH] using rev_ind; [done|]. rewrite last_seen_snoc. destruct (same x e) eqn:Hs.
  - intros [= <-]. exists x. split; [apply elem_of_app; right; by left|done].
  - intros (y & Hy & ?)%IH. exists y. split; [apply elem_of_app; by left|done].
Qed.

Lemma distinct_elem l a b : distinct l -> a ∈ l -> b ∈ l -> same a b = true -> a = b.
Proof.
  induction 1 as [|x l Hs IH Hall]; [intros H; by apply not_elem_of_nil in H|]. rewrite Forall_forall in Hall.
  intros [->|Ha]%elem_of_cons [->|Hb]%elem_of_cons Hsame; [done| | |by apply IH].
  - by rewrite (Hall b Hb) in Hsame.
  - apply same_sym in Hsame. by rewrite (Hall a Ha) in Hsame.
Qed.

Lemma distinct_filter (p : Z * E -> bool) (l : Slots) : distinct (l.*2) -> distinct ((List.filter p l).*2).
Proof.
  induction l as [|s l IH]; [done|]. simpl. intros [Hs Hall]%StronglySorted_inv. specialize (IH Hs). destruct (p s); [|done].
  constructor; [done|]. rewrite Forall_forall in *. intros x (s' & -> & [_ Hin]%elem_of_filter_b)%list_elem_of_fmap.
  apply Hall. apply list_elem_of_fmap. eauto.
Qed.

Lemma distinct_drop n (l : Slots) : distinct (l.*2) -> distinct ((drop n l).*2).
Proof.
  revert l. induction n as [|n IH]; intros [|s l]; [done..|]. simpl. intros [Hs _]%StronglySorted_inv. by apply IH.
Qed.

Lemma distinct_snoc l x : distinct l -> (forall a, a ∈ l -> same a x = false) -> distinct (l ++ [x]).
Proof.
  intros Hl Hx. apply ssorted_app; [done|repeat constructor|]. intros a b Ha ->%list_elem_of_singleton. by apply Hx.
Qed.

Lemma refresh_spec now e (l : Slots) :
  match refresh same now e l with
  | Some l' => exists pre t x post, l = pre ++ (t, x) :: post /\ l' = pre ++ (now, x) :: post /\ same x e = true /\
      forall s, s ∈ pre -> same s.2 e = false
  | None => forall s, s ∈ l -> same s.2 e = false
  end.
Proof.
  induction l as [|[t x] l IH]; simpl; [intros s H; by apply not_elem_of_nil in H|]. destruct (same x e) eqn:Hs.
  - exists [], t, x, l. repeat split; [done|]. intros s H. by apply not_elem_of_nil in H.
  - destruct (refresh same now e l) as [l'|]; simpl.
    + destruct IH as (pre & t' & x' & post & -> & -> & Hx & Hpre). exists ((t, x) :: pre), t', x', post.
      repeat split; [done|]. by intros s [->|H]%elem_of_cons; [|apply Hpre].
    + by intros s [->|H]%elem_of_cons; [|apply IH].
Qed.

(** The slots before a new one may be evicted for it. *)
Lemma record_cases now e (l : Slots) :
  let l' := List.filter (fun s => fresh ttl now s.1) l in
  (exists pre t x post, l' = pre ++ (t, x) :: post /\ same x e = true /\ (forall s, s ∈ pre -> same s.2 e = false) /\
     record now e l = (false, pre ++ (now, x) :: post)) \/
  ((forall s, s ∈ l' -> same s.2 e = false) /\
     record now e l = (true, drop (S (length l') - cap) (l' ++ [(now, e)]))).
Proof.
  intros l'. unfold record_at. fold l'. pose proof (refresh_spec now e l') as H. destruct (refresh same now e l') as [l2|].
  - left. destruct H as (pre & t & x & post & H1 & -> & H2 & H3). by exists pre, t, x, post.
  - right. split; [done|]. f_equal. rewrite length_app. cbn [length]. rewrite Nat.add_comm. cbn [Nat.add].
    destruct (Nat.ltb_spec cap (S (length l'))); [done|]. replace (S (length l') - cap) with 0 by lia. done.
Qed.

Lemma window_distinct hist : distinct ((window_after hist).*2).
Proof.
  induction hist as [|[t e] hist IH] using rev_ind; [constructor|]. unfold window_after. rewrite foldl_snoc. fold (window_after hist). simpl.
  pose proof (distinct_filter (fun s => fresh ttl t s.1) _ IH) as Hd.
  destruct (record_cases t e (window_after hist)) as [(pre & t' & x & post & Hl & _ & _ & ->)|[Hno ->]].
  - rewrite Hl, fmap_app in Hd. cbn [snd]. by rewrite fmap_app.
  - cbn [snd]. apply distinct_drop. rewrite fmap_app. apply distinct_snoc; [done|]. intros a (s & -> & Hs)%list_elem_of_fmap. by apply Hno.
Qed.

Lemma window_bounded hist : length (window_after hist) <= cap.
Proof.
  induction hist as [|[t e] hist IH] using rev_ind; [simpl; lia|]. unfold window_after. rewrite foldl_snoc. fold (window_after hist). simpl.
  destruct (record_cases t e (window_after hist)) as [(pre & t' & x & post & Hl & _ & _ & ->)|[Hno ->]]; cbn [snd].
  - assert (length (pre ++ (t', x) :: post) <= cap) as H.
    { rewrite <- Hl. etrans; [|exact IH]. apply List.filter_length_le. }
    rewrite length_app in *. exact H.
  - rewrite length_drop, length_app. cbn [length]. lia.
Qed.

(** A slot holds a signal and the time it was last recorded. *)
Lemma window_sound hist at_ x : (at_, x) ∈ window_after hist -> last_seen hist x = Some at_.
Proof.
  revert at_ x. induction hist as [|[t e] hist IH] using rev_ind; intros at_ x; [intros H; by apply not_elem_of_nil in H|].
  rewrite last_seen_snoc. unfold window_after. rewrite foldl_snoc. fold (window_after hist). simpl.
  pose proof (distinct_filter (fun s => fresh ttl t s.1) _ (window_distinct hist)) as Hd.
  assert (forall s, s ∈ List.filter (fun s => fresh ttl t s.1) (window_after hist) -> last_seen hist s.2 = Some s.1) as IH'.
  { intros [a y] [_ Hy]%elem_of_filter_b. by apply IH. }
  destruct (record_cases t e (window_after hist)) as [(pre & t' & y & post & Hl & Hy & Hpre & ->)|[Hno ->]]; cbn [snd].
  - rewrite Hl in IH', Hd. assert (forall s, s ∈ pre ++ post -> same e s.2 = false) as Hne.
    { intros s Hs. destruct (same e s.2) eqn:He; [|done]. apply elem_of_app in Hs as [Hs|Hs].
      - apply same_sym in He. by rewrite (Hpre s Hs) in He.
      - rewrite fmap_app, fmap_cons in Hd. apply StronglySorted_app in Hd as (_ & _ & [_ Hall]%StronglySorted_inv).
        rewrite Forall_forall in Hall. rewrite <- (Hall s.2); [symmetry; by eapply same_trans|]. apply list_elem_of_fmap. eauto. }
    rewrite elem_of_app, elem_of_cons. intros [H|[[= -> ->]|H]].
    + assert (same e x = false) as -> by (apply (Hne (at_, x)), elem_of_app; by left). apply (IH' (at_, x)), elem_of_app. by left.
    + by rewrite (same_sym _ _ Hy).
    + assert (same e x = false) as -> by (apply (Hne (at_, x)), elem_of_app; by right). apply (IH' (at_, x)), elem_of_app. right. by right.
  - intros H%elem_of_dropped. apply elem_of_app in H as [H|[= -> ->]%list_elem_of_singleton]; [|by rewrite same_refl].
    destruct (same e x) eqn:He; [|by apply (IH' (at_, x))]. apply same_sym in He. rewrite (Hno _ H : same x e = false) in He. done.
Qed.

(** While the window fits, the record of a new signal evicts nothing. *)
Lemma window_complete hist now x :
  fits hist -> in_order hist -> (forall b, b ∈ hist -> b.1 <= now)%Z -> seen_within hist now x ->
  exists at_ y, (at_, y) ∈ window_after hist /\ same y x = true.
Proof.
  revert now x. induction hist as [|[t e] hist IH] using rev_ind; intros now x Hfits Hord Hnow (at_ & Hl & Hf); [done|].
  destruct (in_order_snoc _ _ Hord) as [Hord' Hle].
  assert ((t <= now)%Z) as Ht by (apply (Hnow (t, e)), elem_of_app; right; by left).
  assert (fits hist) as Hfits'.
  { intros before t' e' after -> l. apply (Hfits before t' e' (after ++ [(t, e)])). by rewrite <- app_assoc. }
  assert (forall y, same e y = false -> seen_within (hist ++ [(t, e)]) t y ->
    exists a z, (a, z) ∈ List.filter (fun s => fresh ttl t s.1) (window_after hist) /\ same z y = true) as Hold.
  { intros y Hy (a & Ha & Hfa). rewrite last_seen_snoc, Hy in Ha.
    destruct (IH t y) as (a' & z & Hz & Hzy); [done|done|intros b Hb; by apply Hle|by exists a|]. exists a', z. split; [|done].
    apply elem_of_filter_b. split; [|done]. simpl. apply window_sound in Hz. rewrite (last_seen_same _ _ _ Hzy), Ha in Hz. by injection Hz as <-. }
  unfold window_after. rewrite foldl_snoc. fold (window_after hist). simpl.
  assert (seen_within (hist ++ [(t, e)]) t x) as Hx by (exists at_; split; [done|exact (fresh_anti _ _ _ _ Ht Hf)]).
  pose proof (distinct_filter (fun s => fresh ttl t s.1) _ (window_distinct hist)) as Hd.
  destruct (record_cases t e (window_after hist)) as [(pre & t' & y & post & Hfl & Hy & Hpre & ->)|[Hno ->]]; cbn [snd].
  - destruct (same e x) eqn:He.
    { exists t, y. split; [apply elem_of_app; right; by left|by eapply same_trans]. }
    destruct (Hold x He Hx) as (a & z & Hz & Hzx). rewrite Hfl in Hz. exists a, z. split; [|done].
    apply elem_of_app in Hz as [Hz|[[= -> ->]|Hz]%elem_of_cons]; [apply elem_of_app; by left| |apply elem_of_app; right; by right].
    apply same_sym in Hy. by rewrite (same_trans _ _ _ Hy Hzx) in He.
  - set (l' := List.filter (fun s => fresh ttl t s.1) (window_after hist)) in *.
    assert (S (length l') <= cap) as Hfit.
    { assert (distinct ((l' ++ [(t, e)]).*2)) as Hdl.
      { rewrite fmap_app. apply distinct_snoc; [done|]. intros a (s & -> & Hs)%list_elem_of_fmap. by apply Hno. }
      pose proof (Hfits hist t e [] eq_refl _ Hdl) as H. rewrite length_fmap, length_app, Nat.add_comm in H. apply H.
      intros y (s & -> & Hs)%list_elem_of_fmap. apply elem_of_app in Hs as [Hs| ->%list_elem_of_singleton]; unfold seen_within.
      - pose proof Hs as [Hsf Hsw]%elem_of_filter_b. exists s.1. split; [|done]. rewrite last_seen_snoc. destruct (same e s.2) eqn:He.
        + apply same_sym in He. by rewrite (Hno _ Hs) in He.
        + apply window_sound. by destruct s.
      - exists t. rewrite last_seen_snoc, same_refl. split; [done|]. unfold fresh in *. lia. }
    replace (S (length l') - cap) with 0 by lia. rewrite drop_0. destruct (same e x) eqn:He.
    { exists t, e. split; [apply elem_of_app; right; by left|done]. }
    destruct (Hold x He Hx) as (a & z & Hz & Hzx). exists a, z. split; [apply elem_of_app; by left|done].
Qed.

Lemma current_elem hist now x :
  x ∈ current_at ttl now (window_after hist) <-> exists at_, (at_, x) ∈ window_after hist /\ fresh ttl now at_ = true.
Proof.
  unfold current_at. rewrite list_elem_of_fmap. split.
  - intros ([a y] & -> & [Hf H]%elem_of_filter_b). by exists a.
  - intros (a & H & Hf). exists (a, x). split; [done|]. by apply elem_of_filter_b.
Qed.

Lemma record_changed now e l :
  (record now e l).1 = true <-> forall s, s ∈ l -> fresh ttl now s.1 = true -> same s.2 e = false.
Proof.
  destruct (record_cases now e l) as [(pre & t' & y & post & Hfl & Hy & _ & ->)|[Hno ->]]; cbn [fst].
  - split; [done|]. intros H. assert ((t', y) ∈ List.filter (fun s => fresh ttl now s.1) l) as [Hf Hin]%elem_of_filter_b.
    { rewrite Hfl. apply elem_of_app. right. by left. }
    by rewrite (H _ Hin Hf : same y e = false) in Hy.
  - split; [|done]. intros _ s Hs Hf. apply Hno. by apply elem_of_filter_b.
Qed.

(** What a window tells, of any equivalence of signals and any cap. It holds at
    most [cap] signals, each once, and each was recorded within the window; and
    as long as never more than [cap] signals were within it at a time, it holds
    every signal recorded within it, and a record wakes the engine exactly when
    its signal was not in the window. *)
Lemma window_spec hist now :
  in_order hist -> (forall b, b ∈ hist -> b.1 <= now)%Z ->
  let current := current_at ttl now (window_after hist) in
  length current <= cap /\ distinct current /\ (forall x, x ∈ current -> seen_within hist now x) /\
  (fits hist -> forall x, ((exists y, y ∈ current /\ same y x = true) <-> seen_within hist now x) /\
    ((record now x (window_after hist)).1 = true <-> ~ seen_within hist now x)).
Proof.
  intros Hord Hnow current. subst current. split; [|split; [|split]].
  - unfold current_at. rewrite length_fmap. etrans; [apply List.filter_length_le|apply window_bounded].
  - apply distinct_filter, window_distinct.
  - intros x (at_ & Hin & Hf)%current_elem. exists at_. split; [by apply window_sound|done].
  - intros Hfits x. assert ((exists y, y ∈ current_at ttl now (window_after hist) /\ same y x = true) <-> seen_within hist now x) as Hiff.
    { split.
      - intros (y & (at_ & Hin & Hf)%current_elem & Hy). exists at_. rewrite <- (last_seen_same _ _ _ Hy). split; [by apply window_sound|done].
      - intros Hs. destruct (window_complete hist now x Hfits Hord Hnow Hs) as (at_ & y & Hin & Hy). exists y. split; [|done].
        apply current_elem. exists at_. split; [done|]. destruct Hs as (a & Ha & Hf). apply window_sound in Hin.
        rewrite (last_seen_same _ _ _ Hy), Ha in Hin. by injection Hin as <-. }
    split; [done|]. rewrite record_changed, <- Hiff. split.
    + intros H (y & (at_ & Hin & Hf)%current_elem & Hy). rewrite (H _ Hin Hf : same y x = false) in Hy. done.
    + intros H [a y] Hin Hf. destruct (same y x) eqn:Hy; [|done]. destruct H. exists y. split; [|done]. apply current_elem. by exists a.
Qed.

(** A full window makes room by the order its signals came in, not by how
    recently they were seen. *)
Lemma flood_spec t now e first rest x :
  window_after e = first :: rest -> S (length rest) = cap -> (forall s, s ∈ first :: rest -> fresh ttl t s.1 = true) ->
  (forall s, s ∈ rest -> fresh ttl now s.1 = true) -> (t <= now)%Z -> fresh ttl now t = true ->
  (forall s, s ∈ first :: rest -> same s.2 x = false) ->
  window_after (e ++ [(t, first.2); (now, x)]) = rest ++ [(now, x)].
Proof.
  intros He Hlen Hft Hfn Ht Hfresh Hx. change [(t, first.2); (now, x)] with ([(t, first.2)] ++ [(now, x)]). rewrite app_assoc.
  unfold window_after. rewrite !foldl_snoc. fold (window_after e). rewrite He. cbn [fst snd].
  assert (record t first.2 (first :: rest) = (false, (t, first.2) :: rest)) as ->.
  { unfold record_at. rewrite forallb_filter_id by (apply forallb_elem; done). cbn [refresh snd]. by rewrite same_refl. }
  cbn [snd]. unfold record_at. rewrite forallb_filter_id.
  2: { apply forallb_elem. by intros s [->|Hs]%elem_of_cons; [|apply Hfn]. }
  pose proof (refresh_spec now x ((t, first.2) :: rest)) as H. destruct (refresh same now x ((t, first.2) :: rest)) as [l2|].
  - destruct H as (pre & t' & y & post & Hl & _ & Hy & _). assert ((t', y) ∈ (t, first.2) :: rest) as Hin by (rewrite Hl; apply elem_of_app; right; by left).
    apply elem_of_cons in Hin as [[= -> ->]|Hin]; [rewrite (Hx first ltac:(by left) : same first.2 x = false) in Hy; done|].
    rewrite (Hx (t', y) ltac:(by right) : same y x = false) in Hy. done.
  - cbn [snd]. rewrite <- app_comm_cons. cbn [length]. rewrite length_app. cbn [length]. destruct (Nat.ltb_spec cap (S (length rest + 1))); [|lia].
    replace (S (length rest + 1) - cap) with 1 by lia. done.
Qed.
End Window.

Lemma window_after_snoc {E} (same : E -> E -> bool) cap ttl h t e :
  window_after same cap ttl (h ++ [(t, e)]) = (record_at same cap ttl t e (window_after same cap ttl h)).2.
Proof. unfold window_after. by rewrite foldl_snoc. Qed.

(** A first sight of different signals is kept as it is. *)
Lemma window_first {E} (same : E -> E -> bool) cap ttl t (l : list E) :
  distinct same l -> length l <= cap -> (0 < ttl)%Z -> window_after same cap ttl (pair t <$> l) = pair t <$> l.
Proof.
  intros Hd Hlen Httl. assert (fresh ttl t t = true) as Hf by (unfold fresh; lia).
  induction l as [|e l IH] using rev_ind; [done|]. rewrite fmap_app. change (pair t <$> [e]) with [(t, e)]. rewrite window_after_snoc, IH.
  - unfold record_at. rewrite forallb_filter_id.
    2: { apply forallb_elem. by intros s (x & -> & _)%list_elem_of_fmap. }
    pose proof (refresh_spec same t e (pair t <$> l)) as H. destruct (refresh same t e (pair t <$> l)) as [l'|].
    + destruct H as (pre & t' & x & post & H & _ & Hx & _). assert ((t', x) ∈ pair t <$> l) as Hin by (rewrite H; apply elem_of_app; right; by left).
      apply list_elem_of_fmap in Hin as (y & [= -> ->] & Hy). by rewrite (StronglySorted_app_1_elem_of _ _ _ y e Hd Hy ltac:(by left)) in Hx.
    + cbn [snd]. rewrite length_app, length_fmap. rewrite length_app in Hlen. cbn [length] in *. by destruct (Nat.ltb_spec cap (length l + 1)); [lia|].
  - by eapply StronglySorted_app_1_l.
  - rewrite length_app in Hlen. lia.
Qed.

(** *** Batches *)

Section Batches.
Context {E : Type} (same : E -> E -> bool) (cap : nat) (ttl : Z).

Lemma record_all_spec hist batch :
  (record_all_at same cap ttl batch (window_after same cap ttl hist)).2 = window_after same cap ttl (hist ++ batch) /\
  ((record_all_at same cap ttl batch (window_after same cap ttl hist)).1 = true <->
    exists before t e after, batch = before ++ (t, e) :: after /\
      (record_at same cap ttl t e (window_after same cap ttl (hist ++ before))).1 = true).
Proof.
  induction batch as [|[t e] batch IH] using rev_ind.
  - rewrite app_nil_r. split; [done|]. split; [done|]. intros (before & t & e & after & H & _). by destruct before.
  - unfold record_all_at in *. rewrite foldl_snoc. destruct IH as [IH1 IH2].
    destruct (foldl _ (false, window_after same cap ttl hist) batch) as [c events]. cbn [fst snd] in *. subst events.
    destruct (record_at same cap ttl t e (window_after same cap ttl (hist ++ batch))) as [c' events'] eqn:Hr. cbn [fst snd]. split.
    + by rewrite app_assoc, window_after_snoc, Hr.
    + rewrite orb_true_iff, IH2. split.
      * intros [(before & t' & e' & after & -> & H)|H].
        { exists before, t', e', (after ++ [(t, e)]). by rewrite <- app_assoc. }
        exists batch, t, e, []. split; [done|]. by rewrite Hr.
      * intros (before & t' & e' & after & H & Hc). destruct after as [|z after _] using rev_ind.
        { apply app_inj_tail in H as [-> [= -> ->]]. rewrite Hr in Hc. by right. }
        left. rewrite app_comm_cons, app_assoc in H. apply app_inj_tail in H as [-> _]. by exists before, t', e', after.
Qed.
End Batches.

(** ** Runtime observations *)

Lemma same_signal_spec a b : same_signal a b = true <-> ob_behavior a = ob_behavior b /\ ob_attribution a = ob_attribution b.
Proof. unfold same_signal. by rewrite andb_true_iff, !bool_decide_eq_true. Qed.

Lemma same_signal_refl a : same_signal a a = true.
Proof. by apply same_signal_spec. Qed.
Lemma same_signal_sym a b : same_signal a b = true -> same_signal b a = true.
Proof. rewrite !same_signal_spec. naive_solver. Qed.
Lemma same_signal_trans a b c : same_signal a b = true -> same_signal b c = true -> same_signal a c = true.
Proof. rewrite !same_signal_spec. intros [-> ->] [-> ->]. done. Qed.

(** The observations of a request as the store sees them. *)
Definition accepted (clock : nat -> Z) (payload : BehaviorIngest) : list (Z * RuntimeObservation) :=
  imap (fun i o => (clock i, o)) (take MAX_BATCH (rr_observations (into_report payload))).

Lemma in_order_prefix {A} (l l' : list (Z * A)) : in_order (l ++ l') -> in_order l.
Proof. apply StronglySorted_app_1_l. Qed.

Lemma in_order_last {A} (before : list (Z * A)) t e after : in_order (before ++ (t, e) :: after) -> forall b, b ∈ before -> (b.1 <= t)%Z.
Proof. intros H b Hb. apply (StronglySorted_app_1_elem_of _ _ _ b (t, e) H Hb). by left. Qed.

Lemma fits_prefix {E} (same : E -> E -> bool) cap ttl h h' : fits same cap ttl (h ++ h') -> fits same cap ttl h.
Proof. intros H before t e after -> l. apply (H before t e (after ++ h')). by rewrite <- app_assoc. Qed.

(** C24: One POST to the behavior port, envelope or bare list. The store then holds,
    beside what was within the window already, the first [MAX_BATCH] of its
    observations; its beacon, if any, goes to the liveness store and wakes
    nobody; the audited reads are untouched. As long as the window is not
    flooded, the engine is woken exactly when one of those observations was not
    within the window as it came in, and reads, at any later time, exactly the
    signals recorded within the window, each once. *)
Theorem behavior_ingest_exact ttl liveness_ttl now clock payload hist w :
  iw_events w = window_after same_signal MAX_EVENTS ttl hist ->
  let batch := accepted clock payload in
  let w' := ingest_behavior ttl liveness_ttl now clock payload w in
  iw_events w' = window_after same_signal MAX_EVENTS ttl (hist ++ batch) /\ iw_reads w' = iw_reads w /\
  iw_liveness w' = match rr_liveness (into_report payload) with
    Some beacon => liveness_record_at MAX_NODES liveness_ttl now beacon (iw_liveness w) | None => iw_liveness w end /\
  (in_order (hist ++ batch) -> fits same_signal MAX_EVENTS ttl (hist ++ batch) ->
    (iw_woken w' = true <-> iw_woken w = true \/ exists before t o after,
      batch = before ++ (t, o) :: after /\ ~ seen_within same_signal ttl (hist ++ before) t o) /\
    forall later, (forall b, b ∈ hist ++ batch -> b.1 <= later)%Z ->
      let current := runtime_current_at ttl later (iw_events w') in
      distinct same_signal current /\
      forall o, (exists o', o' ∈ current /\ same_signal o' o = true) <-> seen_within same_signal ttl (hist ++ batch) later o).
Proof.
  intros Hw batch w'. subst w'. unfold ingest_behavior, ingest_report, record_batch. fold (accepted clock payload). fold batch. rewrite Hw.
  destruct (record_all_spec same_signal MAX_EVENTS ttl hist batch) as [H2 H1].
  destruct (record_all_at same_signal MAX_EVENTS ttl batch _) as [changed events]. cbn [fst snd wake iw_events iw_reads iw_liveness iw_woken] in *.
  subst events. split; [done|]. split; [done|]. split; [done|]. intros Hord Hfits. split.
  - rewrite orb_true_iff, H1. apply ZifyClasses.or_morph; [done|]. split.
    + intros (before & t & o & after & Hb & Hc). exists before, t, o, after. split; [done|]. intros Hs.
      rewrite Hb, app_assoc in Hord, Hfits.
      destruct (window_spec same_signal MAX_EVENTS ttl same_signal_refl same_signal_sym same_signal_trans (hist ++ before) t) as (_ & _ & _ & H);
        [by eapply in_order_prefix|by eapply in_order_last|]. apply (H (fits_prefix _ _ _ _ _ Hfits) o) in Hs; [done|done].
    + intros (before & t & o & after & Hb & Hc). exists before, t, o, after. split; [done|]. rewrite Hb, app_assoc in Hord, Hfits.
      destruct (window_spec same_signal MAX_EVENTS ttl same_signal_refl same_signal_sym same_signal_trans (hist ++ before) t) as (_ & _ & _ & H);
        [by eapply in_order_prefix|by eapply in_order_last|]. by apply (H (fits_prefix _ _ _ _ _ Hfits) o).
  - intros later Hlater.
    destruct (window_spec same_signal MAX_EVENTS ttl same_signal_refl same_signal_sym same_signal_trans (hist ++ batch) later Hord Hlater) as (_ & Hd & _ & H).
    split; [exact Hd|]. intros o. apply (H Hfits o).
Qed.

(** A flood of new signals drops one that was just seen again, for ones that
    were not: a full window makes room in the order the signals first came. *)
Theorem flood_drops_refreshed ttl t0 t1 t2 first rest x :
  distinct same_signal (first :: rest) -> length (first :: rest) = MAX_EVENTS ->
  (forall o, o ∈ first :: rest -> same_signal o x = false) -> (t0 <= t1)%Z -> (t1 <= t2)%Z -> (t2 - t0 < ttl)%Z -> (0 < ttl)%Z ->
  let hist := (pair t0 <$> first :: rest) ++ [(t1, first); (t2, x)] in
  seen_within same_signal ttl hist t2 first /\
  runtime_current_at ttl t2 (window_after same_signal MAX_EVENTS ttl hist) = rest ++ [x].
Proof.
  intros Hd Hlen Hx H01 H12 Hw Httl hist. subst hist.
  assert (forall t t', (t <= t')%Z -> (t' - t < ttl)%Z -> fresh ttl t' t = true) as Hf by (unfold fresh; lia).
  pose proof (window_first same_signal MAX_EVENTS ttl t0 (first :: rest) Hd ltac:(lia) Httl) as Hwin. split.
  - exists t1. split; [|apply Hf; lia]. change [(t1, first); (t2, x)] with ([(t1, first)] ++ [(t2, x)]). rewrite app_assoc, !last_seen_snoc.
    destruct (same_signal x first) eqn:E; [|by rewrite same_signal_refl]. apply same_signal_sym in E. by rewrite (Hx first ltac:(by left)) in E.
  - change [(t1, first); (t2, x)] with [(t1, (t0, first).2); (t2, x)].
    rewrite (flood_spec same_signal MAX_EVENTS ttl same_signal_refl t1 t2 (pair t0 <$> first :: rest) (t0, first) (pair t0 <$> rest) x).
    + unfold runtime_current_at, current_at. rewrite forallb_filter_id.
      * rewrite fmap_app, <- list_fmap_compose. simpl. f_equal. by apply list_fmap_id.
      * apply forallb_elem. intros s [(y & -> & _)%list_elem_of_fmap| ->%list_elem_of_singleton]%elem_of_app; apply Hf; simpl; lia.
    + exact Hwin.
    + by rewrite length_fmap.
    + intros s Hs. rewrite <- fmap_cons in Hs. apply list_elem_of_fmap in Hs as (y & -> & _). apply Hf; simpl; lia.
    + intros s (y & -> & _)%list_elem_of_fmap. apply Hf; simpl; lia.
    + done.
    + apply Hf; lia.
    + intros s Hs. rewrite <- fmap_cons in Hs. apply list_elem_of_fmap in Hs as (y & -> & Hy). by apply Hx.
Qed.

(** A quiet store takes in one observation and wakes the engine. *)
Definition demo_obs : RuntimeObservation := mkObs (ByNamespacedName "app" "web") None None None (LibraryLoaded "libssl.so.3").

Lemma behavior_ingest_exact_witness :
  let w' := ingest_behavior 1800 90 0 (fun _ => 5%Z) (Bare [demo_obs]) (mkIngestWorld [] [] ∅ false) in
  iw_events w' = window_after same_signal MAX_EVENTS 1800 [(5%Z, demo_obs)] /\ iw_reads w' = [].
Proof.
  destruct (behavior_ingest_exact 1800 90 0 (fun _ => 5%Z) (Bare [demo_obs]) [] (mkIngestWorld [] [] ∅ false) eq_refl) as (H1 & H2 & _).
  exact (conj H1 H2).
Defined.

(** ** Audited reads *)

Lemma service_account_spec username ns name :
  parse_service_account username = Some (ns, name) <-> exists ns' name', username = "system:serviceaccount:" +:+ ns' +:+ ":" +:+ name' /\
    no_char colon ns' = true /\ ns' <> "" /\ name' <> "" /\ ns = bounded ns' /\ name = bounded name'.
Proof.
  unfold parse_service_account. split.
  - destruct (strip_prefix _ username) as [rest|] eqn:Hp; [|done]. apply strip_prefix_app in Hp as ->. cbn [mbind option_bind].
    destruct (split_once colon rest) as [[ns' name']|] eqn:Hs; [|done]. cbn [mbind option_bind]. repeat case_bool_decide; try done. cbn [orb].
    intros [= <- <-]. apply split_once_spec in Hs as [-> Hc]. by exists ns', name'.
  - intros (ns' & name' & -> & Hc & Hns & Hname & -> & ->). rewrite (proj2 (strip_prefix_app _ _ _) eq_refl). cbn [mbind option_bind].
    change (ns' +:+ ":" +:+ name') with (ns' +:+ String colon name'). rewrite (split_once_app colon ns' name' Hc). cbn [mbind option_bind].
    by rewrite !bool_decide_false.
Qed.

(** The string at a path of keys. *)
Definition text_at (path : list string) (j : Json) : option string := pointer (Key <$> path) j ≫= as_str.

Lemma text_at_one k j : text_at [k] j = json_get j k ≫= as_str.
Proof. unfold text_at. simpl. by destruct (json_get j k). Qed.

Lemma text_at_two k k' j : text_at [k; k'] j = json_get j k ≫= fun o => json_get o k' ≫= as_str.
Proof. unfold text_at. simpl. destruct (json_get j k) as [o|]; [|done]. simpl. by destruct (json_get o k'). Qed.

Definition bounded_text (t : option string) : option string := t ≫= fun s => if bool_decide (s = "") then None else Some (bounded s).

(** The parser, with its early returns gathered. *)
Lemma parse_audit_flat event :
  parse_audit_event event =
  match text_at ["verb"] event, text_at ["user"; "username"] event ≫= parse_service_account with
  | Some verb, Some (ns, name) =>
      if bool_decide (verb ∈ READ_VERBS) && bool_decide (text_at ["objectRef"; "resource"] event = Some "secrets") &&
         bool_decide (default "" (text_at ["objectRef"; "apiGroup"] event) = "") &&
         bool_decide (text_at ["annotations"; "authorization.k8s.io/decision"] event = Some "allow")
      then Some (mkAuditRead ns name (bounded_text (text_at ["objectRef"; "namespace"] event)) (bounded_text (text_at ["objectRef"; "name"] event)) verb)
      else None
  | _, _ => None
  end.
Proof.
  rewrite text_at_one, !text_at_two. unfold parse_audit_event, bounded_text, bounded_field.
  destruct (json_get event "verb" ≫= as_str) as [verb|]; [|done]. cbn [mbind option_bind].
  destruct (bool_decide (verb ∈ READ_VERBS)); cbn [negb andb]; [|by repeat case_match].
  destruct (json_get event "objectRef") as [o|]; cbn [mbind option_bind]; [|by repeat case_match].
  destruct (json_get o "resource" ≫= as_str) as [res|]; cbn [mbind option_bind]; [|by repeat case_match].
  assert (bool_decide (Some res = Some "secrets") = bool_decide (res = "secrets")) as -> by (apply bool_decide_ext; naive_solver).
  destruct (bool_decide (res = "secrets")); cbn [negb andb]; [|by repeat case_match].
  assert (bool_decide (default "" (json_get o "apiGroup" ≫= as_str) = "") =
    negb match json_get o "apiGroup" ≫= as_str with Some group => negb (bool_decide (group = "")) | None => false end) as ->.
  { destruct (json_get o "apiGroup" ≫= as_str) as [g|]; cbn; [by rewrite negb_involutive|done]. }
  destruct (match json_get o "apiGroup" ≫= as_str with Some _ => _ | None => false end); cbn [negb andb]; [by repeat case_match|].
  destruct (bool_decide (_ = Some "allow")); cbn [negb andb]; [|by repeat case_match].
  destruct (json_get event "user" ≫= fun u => json_get u "username" ≫= as_str) as [username|]; [|done]. cbn [mbind option_bind].
  by destruct (parse_service_account username) as [[ns name]|].
Qed.

(** An audit event is a secret read exactly when it is an allowed get, list or
    watch of core secrets by a service account, whatever else the event holds;
    and then the read carries the account, the verb and the name and namespace
    of the secret where these are there and not empty, each cut at
    [MAX_FIELD_LEN] characters. *)
Theorem parse_audit_event_exact event r :
  parse_audit_event event = Some r <->
    asr_verb r ∈ READ_VERBS /\ text_at ["verb"] event = Some (asr_verb r) /\ text_at ["objectRef"; "resource"] event = Some "secrets" /\
    default "" (text_at ["objectRef"; "apiGroup"] event) = "" /\
    text_at ["annotations"; "authorization.k8s.io/decision"] event = Some "allow" /\
    (exists ns name, text_at ["user"; "username"] event = Some ("system:serviceaccount:" +:+ ns +:+ ":" +:+ name) /\
      no_char colon ns = true /\ ns <> "" /\ name <> "" /\ asr_sa_namespace r = bounded ns /\ asr_sa_name r = bounded name) /\
    (forall field key, (field, key) ∈ [(asr_secret_namespace r, "namespace"); (asr_secret_name r, "name")] ->
      field = match text_at ["objectRef"; key] event with Some s => if bool_decide (s = "") then None else Some (bounded s) | None => None end).
Proof.
  rewrite parse_audit_flat. split.
  - destruct (text_at ["verb"] event) as [verb|]; [|done]. destruct (text_at ["user"; "username"] event) as [username|] eqn:Hu; [|done]. cbn [mbind option_bind].
    destruct (parse_service_account username) as [[ns name]|] eqn:Hsa; [|done]. destruct (_ && _) eqn:Hc; [|done]. intros [= <-].
    bools. cbn [asr_verb asr_sa_namespace asr_sa_name asr_secret_namespace asr_secret_name]. apply service_account_spec in Hsa as (ns' & name' & -> & Hacct).
    do 5 (split; [done|]). split; [by exists ns', name'|].
    intros field key Hin. repeat (apply elem_of_cons in Hin as [[= -> ->]|Hin]; [done|]). by apply not_elem_of_nil in Hin.
  - intros (Hv & -> & Hr & Hg & Hd & (ns & name & -> & Hsa) & Hf). cbn [mbind option_bind].
    rewrite (proj2 (service_account_spec _ (asr_sa_namespace r) (asr_sa_name r))) by (by exists ns, name).
    rewrite !bool_decide_true by done. cbn [andb]. destruct r as [san sa sns sn v]. cbn [asr_verb asr_sa_namespace asr_sa_name asr_secret_namespace asr_secret_name] in *.
    rewrite (Hf sns "namespace") by (by left). rewrite (Hf sn "name") by (right; by left). done.
Qed.

(** ** The guards *)

Section Guards.
Variable ct_eq : string -> string -> bool.
(** [subtle] compares the bytes of two slices of one length. *)
Hypothesis ct_eq_spec : forall a b, String.length a = String.length b -> ct_eq a b = true <-> a = b.
Context {L Peer Body W : Type} (allow : Peer -> Z -> L -> bool * L) (handler : Body -> W -> W).

Lemma token_matches_spec token presented : token_matches ct_eq token presented = true <-> presented = token.
Proof.
  unfold token_matches. destruct (Nat.eqb_spec (String.length token) (String.length presented)) as [H|H]; cbn [negb].
  - rewrite (ct_eq_spec _ _ H). by split.
  - split; [done|]. by intros ->.
Qed.

Lemma extract_bearer_spec authorization t :
  extract_bearer authorization = Some t <->
    exists v, t <> "" /\ (authorization = Some ("Bearer " +:+ v) \/ authorization = Some ("bearer " +:+ v)) /\ t = trim v.
Proof.
  unfold extract_bearer. split.
  - destruct authorization as [value|]; [|done]. cbn [mbind option_bind]. destruct (strip_prefix "Bearer " value) as [v|] eqn:H1.
    + cbn [mbind option_bind]. case_bool_decide as Hne; [done|]. intros [= <-]. exists v. apply strip_prefix_app in H1 as ->. split; [done|]. split; [by left|done].
    + destruct (strip_prefix "bearer " value) as [v|] eqn:H2; [|done]. cbn [mbind option_bind]. case_bool_decide as Hne; [done|].
      intros [= <-]. exists v. apply strip_prefix_app in H2 as ->. split; [done|]. split; [by right|done].
  - intros (v & Hne & [-> | ->] & ->); cbn [mbind option_bind].
    + rewrite (proj2 (strip_prefix_app "Bearer " _ _) eq_refl). cbn [mbind option_bind]. by rewrite bool_decide_false.
    + change (strip_prefix "Bearer " ("bearer " +:+ v)) with (@None string). rewrite (proj2 (strip_prefix_app "bearer " _ _) eq_refl).
      cbn [mbind option_bind]. by rewrite bool_decide_false.
Qed.

(** A request: its Authorization header, its peer, the time and its body. *)
Record Request := mkRequest { rq_authorization : option string; rq_peer : Peer; rq_now : Z; rq_body : option Body }.

Definition request (token : string) (st : L * W) (r : Request) : L * W :=
  (guarded ct_eq allow handler token (rq_authorization r) (rq_peer r) (rq_now r) (rq_body r) st).2.

Definition bears (token : string) (r : Request) : bool := bool_decide (extract_bearer (rq_authorization r) = Some token).

Lemma guarded_spec token r st :
  guarded ct_eq allow handler token (rq_authorization r) (rq_peer r) (rq_now r) (rq_body r) st =
  if bears token r then
    let '(allowed, limiter) := allow (rq_peer r) (rq_now r) st.1 in
    if allowed then match rq_body r with Some b => (Ok200, (limiter, handler b st.2)) | None => (Unreadable4xx, (limiter, st.2)) end
    else (TooMany429, (limiter, st.2))
  else (Unauthorized401, st).
Proof.
  unfold guarded, bears. destruct st as [limiter w]. destruct (extract_bearer (rq_authorization r)) as [presented|] eqn:E.
  - destruct (decide (presented = token)) as [->|Hne].
    + rewrite bool_decide_true by done. by rewrite (proj2 (token_matches_spec token token) eq_refl).
    + rewrite bool_decide_false by congruence. destruct (token_matches ct_eq token presented) eqn:Hm; [|done].
      by apply token_matches_spec in Hm.
  - by rewrite bool_decide_false.
Qed.

(** Nothing gets in without the token. Whatever requests come, those that do not
    bear it, in a Bearer header, are refused with 401 and change nothing, neither
    the store nor the rate limiter: the state after all of them is the state
    after those that bear it. And each of these is refused by the limiter, is
    unreadable, or is handled: what is in the store came with the token. *)
Theorem only_token_enters token requests st :
  (forall r st, bears token r = false ->
     guarded ct_eq allow handler token (rq_authorization r) (rq_peer r) (rq_now r) (rq_body r) st = (Unauthorized401, st)) /\
  foldl (request token) st requests = foldl (request token) st (List.filter (bears token) requests) /\
  (exists bodies, (foldl (request token) st requests).2 = foldl (fun w b => handler b w) st.2 bodies /\
     forall b, b ∈ bodies -> exists r v, r ∈ requests /\ rq_body r = Some b /\ token <> "" /\
       (rq_authorization r = Some ("Bearer " +:+ v) \/ rq_authorization r = Some ("bearer " +:+ v)) /\ trim v = token).
Proof.
  split; [intros r st' H; by rewrite guarded_spec, H|]. split.
  - revert st. induction requests as [|r requests IH]; intros st; [done|]. simpl. destruct (bears token r) eqn:Hb; [apply IH|].
    unfold request at 2. rewrite guarded_spec, Hb. apply IH.
  - induction requests as [|r requests IH] using rev_ind.
    { exists []. split; [done|]. intros b Hb. by apply not_elem_of_nil in Hb. }
    destruct IH as (bodies & Hst & Hbodies). rewrite foldl_snoc. set (st' := foldl (request token) st requests) in *.
    assert (forall b, b ∈ bodies -> exists q v, q ∈ requests ++ [r] /\ rq_body q = Some b /\ token <> "" /\
      (rq_authorization q = Some ("Bearer " +:+ v) \/ rq_authorization q = Some ("bearer " +:+ v)) /\ trim v = token) as Hold.
    { intros b (q & v & Hq & H)%Hbodies. exists q, v. split; [apply elem_of_app; by left|done]. }
    unfold request. rewrite guarded_spec. destruct (bears token r) eqn:Hb; [|by exists bodies].
    destruct (allow (rq_peer r) (rq_now r) st'.1) as [[] limiter]; [|by exists bodies]. destruct (rq_body r) as [b|] eqn:Hbody; [|by exists bodies].
    exists (bodies ++ [b]). rewrite foldl_snoc, <- Hst. split; [done|]. intros b' [Hb'| ->%list_elem_of_singleton]%elem_of_app; [by apply Hold|].
    apply bool_decide_eq_true, extract_bearer_spec in Hb as (v & Hne & Hv & Htok). exists r, v. split; [apply elem_of_app; right; by left|].
    done.
Qed.
End Guards.

(** Two posts with the token and one without: only the two are taken in. *)
Definition demo_requests : list (Request (Peer := nat) (Body := nat)) :=
  [mkRequest (Some "Bearer s3cret ") 1 0 (Some 10); mkRequest (Some "Bearer guess") 2 0 (Some 11); mkRequest (Some "bearer s3cret") 1 0 (Some 12)].

Lemma only_token_enters_witness :
  (forall a b, String.length a = String.length b -> String.eqb a b = true <-> a = b) /\
  foldl (request String.eqb (fun _ _ l => (true, l)) (fun b w => w ++ [b]) "s3cret") (tt, []) demo_requests = (tt, [10; 12]) /\
  exists bodies, [10; 12] = foldl (fun w b => w ++ [b]) [] bodies.
Proof.
  assert (forall a b, String.length a = String.length b -> String.eqb a b = true <-> a = b) as H by (intros a b _; apply String.eqb_eq).
  split; [exact H|]. split; [reflexivity|].
  destruct (only_token_enters String.eqb H (fun (_ : nat) (_ : Z) (l : unit) => (true, l)) (fun b w => w ++ [b]) "s3cret" demo_requests (tt, []))
    as (_ & _ & bodies & Hb & _).
  exists bodies. exact Hb.
Defined.
