(* ===== verification/Auth.v ===== *)
(** * Dashboard access

    engine/src/engine/dashboard/auth: the claims of a token and the tier they
    are worth (claims.rs), the configuration and the verifier (mod.rs), the
    cached key store (jwks.rs) and the enforcing layer (enforce.rs). JWT decoding
    and the identity provider are parameters. Then what the gate lets through, how
    fast it asks the issuer for keys, and which tier a token or a grant is worth. *)

From Stdlib Require Import Sorting.Sorted.
From S2P Require Import Prelude Text Json ImageRef.

#[local] Arguments String.append : simpl nomatch.

(** ** Tiers *)

Inductive Tier := Redacted | Forensic | Raw.

#[export] Instance Tier_eq_dec : EqDecision Tier.
Proof. solve_decision. Defined.

Definition tier_rank (t : Tier) : nat := match t with Redacted => 0 | Forensic => 1 | Raw => 2 end.
Definition tier_default : Tier := Redacted.

Definition from_claim_str (value : string) : Tier :=
  let v := to_ascii_lowercase (trim value) in
  if bool_decide (v = "raw") then Raw else if bool_decide (v = "forensic") then Forensic else Redacted.

Definition parse_config (value : string) : option Tier :=
  let v := to_ascii_lowercase (trim value) in
  if bool_decide (v = "redacted") then Some Redacted
  else if bool_decide (v = "forensic") then Some Forensic
  else if bool_decide (v = "raw") then Some Raw else None.

(** ** Grants *)

Inductive GrantId := Email (id : string) | Sub (id : string).

#[export] Instance GrantId_eq_dec : EqDecision GrantId.
Proof. solve_decision. Defined.

Definition grant_parse (id : string) : GrantId := if contains_char at_char id then Email id else Sub id.

Definition grant_matches (g : GrantId) (sub : string) (email : option string) (email_verified : bool) : bool :=
  match g with
  | Sub id => bool_decide (id = sub)
  | Email id => email_verified && match email with Some email => eq_ignore_ascii_case email id | None => false end
  end.

Record TierGrants := mkGrants { tg_raw : list GrantId; tg_forensic : list GrantId }.

Definition no_grants : TierGrants := mkGrants [] [].

Definition add_grant (g : TierGrants) (tier : Tier) (ids : list string) : TierGrants :=
  let ids := grant_parse <$> ids in
  match tier with
  | Raw => mkGrants (tg_raw g ++ ids) (tg_forensic g)
  | Forensic => mkGrants (tg_raw g) (tg_forensic g ++ ids)
  | Redacted => g
  end.

Definition any_matches (ids : list GrantId) (sub : string) (email : option string) (email_verified : bool) : bool :=
  existsb (fun g => grant_matches g sub email email_verified) ids.

Definition grants_resolve (g : TierGrants) (sub : string) (email : option string) (email_verified : bool) : Tier :=
  if any_matches (tg_raw g) sub email email_verified then Raw
  else if any_matches (tg_forensic g) sub email email_verified then Forensic
  else Redacted.

(** ** Claims *)

Record Claims := mkClaims { cl_sub : string; cl_email : option string; cl_email_verified : bool; cl_extra : list (string * Json) }.

Definition dot : Ascii.ascii := Ascii.ascii_of_nat 46.

Definition claims_lookup (c : Claims) (path : string) : option Json :=
  let extra := JObj (cl_extra c) in
  match json_get extra path with
  | Some value => Some value
  | None => foldl (fun current segment => current ≫= fun j => json_get j segment) (Some extra) (split dot path)
  end.

Definition from_claims (c : Claims) (path : string) : Tier :=
  match claims_lookup c path ≫= as_str with
  | Some value => if bool_decide (trim value = "") then Redacted else from_claim_str value
  | None => Redacted
  end.

Definition recognized_claim (c : Claims) (path : string) : option Tier := (claims_lookup c path ≫= as_str) ≫= parse_config.

Definition from_claims_with_grants (c : Claims) (path : string) (grants : TierGrants) : Tier :=
  match recognized_claim c path with
  | Some tier => tier
  | None => grants_resolve grants (cl_sub c) (cl_email c) (cl_email_verified c)
  end.

(** ** Configuration *)

Inductive SigningAlgorithm := Rs256 | Es256.

#[export] Instance SigningAlgorithm_eq_dec : EqDecision SigningAlgorithm.
Proof. solve_decision. Defined.

Definition algorithm_parse (value : string) : option SigningAlgorithm :=
  let v := to_ascii_uppercase (trim value) in
  if bool_decide (v = "RS256") then Some Rs256 else if bool_decide (v = "ES256") then Some Es256 else None.

Record OidcConfig := mkOidc {
  oc_issuer : string; oc_audience : string; oc_tier_claim : string; oc_algorithm : SigningAlgorithm; oc_tier_grants : TierGrants
}.

Inductive ConfigError :=
  | MissingAudience
  | UnsupportedAlgorithm (value : string)
  | UnsupportedTier (value : string)
  | UnsupportedTierGrant (value : string)
  | MalformedTierGrants (value : string).

Definition semicolon : Ascii.ascii := Ascii.ascii_of_nat 59.
Definition equals : Ascii.ascii := Ascii.ascii_of_nat 61.
Definition comma : Ascii.ascii := Ascii.ascii_of_nat 44.

Definition grant_ids (ids : string) : list string :=
  List.filter (fun id => negb (bool_decide (id = ""))) (trim <$> split comma ids).

(** One entry of the list, with the whole list for the error it may name. *)
Definition parse_grant_entry (value entry : string) (g : TierGrants) : TierGrants + ConfigError :=
  let entry := trim entry in
  if bool_decide (entry = "") then inr (MalformedTierGrants value)
  else match split_once equals entry with
  | None => inr (MalformedTierGrants entry)
  | Some (tier_name, ids) =>
      match parse_config (trim tier_name) with
      | None => inr (UnsupportedTierGrant (trim tier_name))
      | Some tier =>
          match grant_ids ids with
          | [] => inr (MalformedTierGrants entry)
          | ids => inl (add_grant g tier ids)
          end
      end
  end.

Definition parse_tier_grants (value : string) : TierGrants + ConfigError :=
  foldl (fun acc entry => match acc with inl g => parse_grant_entry value entry g | inr e => inr e end) (inl no_grants) (split semicolon value).

(** The environment, as [std::env::var] reads it. *)
Section Env.
Variable env : string -> option string.

Definition non_empty_env (key : string) : option string :=
  value ← env key; let value := trim value in if bool_decide (value = "") then None else Some value.

Definition from_env : option OidcConfig + ConfigError :=
  match non_empty_env "PROTECTOR_DASHBOARD_OIDC_ISSUER" with
  | None => inl None
  | Some issuer =>
      match non_empty_env "PROTECTOR_DASHBOARD_OIDC_AUDIENCE" with
      | None => inr MissingAudience
      | Some audience =>
          let tier_claim := default "tier" (non_empty_env "PROTECTOR_DASHBOARD_OIDC_TIER_CLAIM") in
          match (match non_empty_env "PROTECTOR_DASHBOARD_OIDC_ALGORITHM" with
                 | Some name => match algorithm_parse name with Some a => inl a | None => inr (UnsupportedAlgorithm name) end
                 | None => inl Rs256 end) with
          | inr e => inr e
          | inl algorithm =>
              match (match non_empty_env "PROTECTOR_DASHBOARD_OIDC_TIER_GRANTS" with
                     | Some value => parse_tier_grants value | None => inl no_grants end) with
              | inr e => inr e
              | inl grants => inl (Some (mkOidc issuer audience tier_claim algorithm grants))
              end
          end
      end
  end.

Definition parse_min_tier (value : option string) : Tier + ConfigError :=
  match value ≫= fun v => let v := trim v in if bool_decide (v = "") then None else Some v with
  | None => inl tier_default
  | Some value => match parse_config value with Some t => inl t | None => inr (UnsupportedTier value) end
  end.

Definition configured_min_tier : Tier + ConfigError := parse_min_tier (non_empty_env "PROTECTOR_DASHBOARD_OIDC_MIN_TIER").

Definition login_redirect_of (config : OidcConfig) : string :=
  default (oc_issuer config) (non_empty_env "PROTECTOR_DASHBOARD_OIDC_LOGIN_URL").
End Env.

(** ** Where the token comes from *)

(** The headers of a request: the text of the first value of each name, where
    it is text. *)
Abbreviation HeaderMap := (gmap string string).

Definition bearer_token (value : string) : option string :=
  let value := trim value in
  rest ← (match strip_prefix "Bearer " value with Some r => Some r | None => strip_prefix "bearer " value end);
  let rest := trim rest in if bool_decide (rest = "") then None else Some rest.

Definition cookie_pair (name pair : string) : option string :=
  '(key, value) ← split_once equals pair;
  if bool_decide (trim key = name) && negb (bool_decide (trim value = "")) then Some (trim value) else None.

Definition cookie_value (headers : HeaderMap) (name : string) : option string :=
  cookies ← headers !! "cookie"; head (omap (cookie_pair name) (split semicolon cookies)).

Definition CF_ASSERTION_HEADER : string := "cf-access-jwt-assertion".
Definition CF_ASSERTION_COOKIE : string := "CF_Authorization".

Definition extract_token (headers : HeaderMap) : option string :=
  match headers !! "authorization" ≫= bearer_token with
  | Some bearer => Some bearer
  | None =>
      match headers !! CF_ASSERTION_HEADER ≫= fun v => let v := trim v in if bool_decide (v = "") then None else Some v with
      | Some assertion => Some assertion
      | None => cookie_value headers CF_ASSERTION_COOKIE
      end
  end.

(** ** The verifier *)

Inductive AuthError :=
  | MissingToken | MalformedToken | InvalidAlgorithm | InvalidSignature | InvalidIssuer | InvalidAudience | Expired | NotYetValid
  | UnknownKey | JwksUnreachable | OtherError.

#[export] Instance AuthError_eq_dec : EqDecision AuthError.
Proof. solve_decision. Defined.

(** jsonwebtoken's error kinds that the code tells apart. *)
Inductive JwtErrorKind :=
  | JInvalidSignature | JInvalidIssuer | JInvalidAudience | JExpiredSignature | JImmatureSignature | JInvalidAlgorithm | JInvalidAlgorithmName
  | JInvalidToken | JBase64 | JJson | JUtf8 | JMissingRequiredClaim | JInvalidClaimFormat | JAnyOther.

Definition from_jwt (k : JwtErrorKind) : AuthError :=
  match k with
  | JInvalidSignature => InvalidSignature
  | JInvalidIssuer => InvalidIssuer
  | JInvalidAudience => InvalidAudience
  | JExpiredSignature => Expired
  | JImmatureSignature => NotYetValid
  | JInvalidAlgorithm | JInvalidAlgorithmName => InvalidAlgorithm
  | JInvalidToken | JBase64 | JJson | JUtf8 | JMissingRequiredClaim | JInvalidClaimFormat => MalformedToken
  | JAnyOther => OtherError
  end.

Definition auth_status (e : AuthError) : N := match e with JwksUnreachable => 503 | _ => 401 end.

Record Identity := mkOidcIdentity { oi_subject : string; oi_tier : Tier; oi_email : option string }.

Record Validation := mkValidation {
  vd_algorithm : SigningAlgorithm; vd_issuers : list string; vd_audiences : list string; vd_required : list string;
  vd_validate_exp : bool; vd_validate_nbf : bool; vd_validate_aud : bool
}.

Definition build_validation (config : OidcConfig) : Validation :=
  mkValidation (oc_algorithm config) [oc_issuer config] [oc_audience config] ["iss"; "aud"; "exp"; "nbf"; "sub"] true true true.

(** ** The key store *)

Section Verifier.
(** jsonwebtoken: a key as published, its id, the decoding key it makes, the key
    id in a token's header, and decoding a token against a validation at a time. *)
Context {Jwk DecodingKey : Type}.
Variable key_id : Jwk -> option string.
Variable from_jwk : Jwk -> option DecodingKey.
Variable decode_header : string -> option (option string).
Variable decode : Z -> string -> DecodingKey -> Validation -> Claims + JwtErrorKind.

Abbreviation JwkSet := (list Jwk).

Record Cached := mkCached { jc_keys : JwkSet; jc_fetched_at : Z }.

Record JwksStore := mkJwks { js_cache : option Cached; js_last_refresh : option Z; js_ttl : Z; js_min_refresh_interval : Z }.

Definition jwks_new (ttl min_refresh_interval : Z) : JwksStore := mkJwks None None ttl min_refresh_interval.

Definition DEFAULT_TTL : Z := 300 * 1000000000.
Definition DEFAULT_MIN_REFRESH : Z := 5 * 1000000000.

(** [at.elapsed()] as of [now]. *)
Definition elapsed_since (at_ now : Z) : Z := Z.max 0 (now - at_).

Definition cached_fresh (ttl now : Z) (c : Cached) : bool := (elapsed_since (jc_fetched_at c) now <? ttl)%Z.

Definition find_key (set : JwkSet) (kid : option string) : option Jwk :=
  match kid with
  | Some kid => List.find (fun k => bool_decide (key_id k = Some kid)) set
  | None => match set with [only] => Some only | _ => None end
  end.

Definition decoding_key_from_jwk (jwk : Jwk) : DecodingKey + AuthError :=
  match from_jwk jwk with Some k => inl k | None => inr UnknownKey end.

(** What the issuer answers at a moment, if it answers; [done_at] is when. *)
Record Fetch := mkFetch { fe_answer : option JwkSet; fe_done_at : Z }.

(** The refresh, under its lock, at [now]. The boolean tells whether the issuer
    was asked. *)
Definition jwks_refresh (s : JwksStore) (kid : option string) (now : Z) (f : Fetch) : (Cached + AuthError) * JwksStore * bool :=
  let current := js_cache s in
  if match current with
     | Some c => cached_fresh (js_ttl s) now c && bool_decide (is_Some (find_key (jc_keys c) kid))
     | None => false end
  then (match current with Some c => inl c | None => inr JwksUnreachable end, s, false)
  else if match js_last_refresh s with Some last => (elapsed_since last now <? js_min_refresh_interval s)%Z | None => false end
  then (match current with Some c => inl c | None => inr JwksUnreachable end, s, false)
  else
    let s := mkJwks (js_cache s) (Some now) (js_ttl s) (js_min_refresh_interval s) in
    match fe_answer f with
    | None => (inr JwksUnreachable, s, true)
    | Some keys =>
        let c := mkCached keys (fe_done_at f) in
        (inl c, mkJwks (Some c) (js_last_refresh s) (js_ttl s) (js_min_refresh_interval s), true)
    end.

(** The published key a lookup resolves to. *)
Definition jwks_lookup (s : JwksStore) (kid : option string) (now : Z) (f : Fetch) : (Jwk + AuthError) * JwksStore * bool :=
  match (c ← js_cache s; if cached_fresh (js_ttl s) now c then find_key (jc_keys c) kid else None) with
  | Some jwk => (inl jwk, s, false)
  | None =>
      match jwks_refresh s kid now f with
      | (inl c, s, asked) => (match find_key (jc_keys c) kid with Some jwk => inl jwk | None => inr UnknownKey end, s, asked)
      | (inr e, s, asked) => (inr e, s, asked)
      end
  end.

Definition decoding_key (s : JwksStore) (kid : option string) (now : Z) (f : Fetch) : (DecodingKey + AuthError) * JwksStore * bool :=
  match jwks_lookup s kid now f with
  | (inl jwk, s, asked) => (decoding_key_from_jwk jwk, s, asked)
  | (inr e, s, asked) => (inr e, s, asked)
  end.

Definition verify_token (config : OidcConfig) (s : JwksStore) (token : string) (now : Z) (f : Fetch) : (Identity + AuthError) * JwksStore :=
  match decode_header token with
  | None => (inr MalformedToken, s)
  | Some kid =>
      match decoding_key s kid now f with
      | (inr e, s, _) => (inr e, s)
      | (inl key, s, _) =>
          match decode now token key (build_validation config) with
          | inr k => (inr (from_jwt k), s)
          | inl claims =>
              (inl (mkOidcIdentity (cl_sub claims) (from_claims_with_grants claims (oc_tier_claim config) (oc_tier_grants config)) (cl_email claims)), s)
          end
      end
  end.

Definition authenticate (config : OidcConfig) (s : JwksStore) (headers : HeaderMap) (now : Z) (f : Fetch) : (Identity + AuthError) * JwksStore :=
  match extract_token headers with
  | None => (inr MissingToken, s)
  | Some token => verify_token config s token now f
  end.

(** ** Enforcement *)

Record Enforcer := mkEnforcer { en_config : OidcConfig; en_login_redirect : string; en_min_tier : Tier }.

Definition enforcer_new (env : string -> option string) (config : OidcConfig) : Enforcer + ConfigError :=
  match configured_min_tier env with
  | inl min_tier => inl (mkEnforcer config (login_redirect_of env config) min_tier)
  | inr e => inr e
  end.

Definition identity_permitted (e : Enforcer) (i : Identity) : bool := (tier_rank (en_min_tier e) <=? tier_rank (oi_tier i))%nat.

Inductive RouteClass := Document | Api.

Definition prefers_json (headers : HeaderMap) : bool :=
  match headers !! "accept" with
  | Some accept => str_contains "application/json" accept && negb (str_contains "text/html" accept)
  | None => false
  end.

Definition route_class (path : string) (headers : HeaderMap) : RouteClass :=
  if starts_with "/api/" path || prefers_json headers then Api else Document.

Inductive Denial := DeniedAuth (e : AuthError) | Forbidden.

(** A response of the gate: its status, body and Location, and whether it
    carries [Cache-Control: no-store]. *)
Record Response := mkResponse { rs_status : N; rs_body : string; rs_location : option string; rs_no_store : bool }.

Definition quote : string := bytes [34].
Definition error_body (what : string) : string := "{" +:+ quote +:+ "error" +:+ quote +:+ ":" +:+ quote +:+ what +:+ quote +:+ "}".

Definition json_response (status : N) (body : string) : Response := mkResponse status body None false.
Definition bare (status : N) : Response := mkResponse status "" None false.

(** [HeaderValue::from_str]: visible ASCII, space, tab, or bytes above 127. *)
Definition header_byte (c : Ascii.ascii) : bool :=
  let b := Ascii.N_of_ascii c in ((32 <=? b)%N && negb (b =? 127)%N) || (b =? 9)%N.

Fixpoint header_value (s : string) : bool := match s with EmptyString => true | String c s => header_byte c && header_value s end.

Definition redirect (location : string) : Response :=
  if header_value location then mkResponse 302 "" (Some location) false else bare 401.

Definition no_store (r : Response) : Response := mkResponse (rs_status r) (rs_body r) (rs_location r) true.

Definition deny (denial : Denial) (class : RouteClass) (login : string) : Response :=
  no_store (match denial, class with
  | DeniedAuth JwksUnreachable, Api => json_response 503 (error_body "unavailable")
  | DeniedAuth JwksUnreachable, Document => bare 503
  | Forbidden, Api => json_response 403 (error_body "forbidden")
  | Forbidden, Document => bare 403
  | DeniedAuth _, Api => json_response 401 (error_body "unauthenticated")
  | DeniedAuth _, Document => redirect login
  end).

(** The gate passes the request on with its identity, or answers itself. *)
Definition enforce (e : Enforcer) (s : JwksStore) (path : string) (headers : HeaderMap) (now : Z) (f : Fetch) :
    (Identity + Response) * JwksStore :=
  let class := route_class path headers in
  match authenticate (en_config e) s headers now f with
  | (inl identity, s) => (if identity_permitted e identity then inl identity else inr (deny Forbidden class (en_login_redirect e)), s)
  | (inr error, s) => (inr (deny (DeniedAuth error) class (en_login_redirect e)), s)
  end.
End Verifier.

(** ** Tiers *)

(** A grant speaks of the bearer of these claims. *)
Definition speaks_of (g : GrantId) (c : Claims) : Prop :=
  match g with
  | Sub id => id = cl_sub c
  | Email id => cl_email_verified c = true /\ exists email, cl_email c = Some email /\ to_ascii_lowercase email = to_ascii_lowercase id
  end.

Lemma grant_matches_spec g c : grant_matches g (cl_sub c) (cl_email c) (cl_email_verified c) = true <-> speaks_of g c.
Proof.
  destruct g as [id|id]; simpl; [|by rewrite bool_decide_eq_true]. rewrite andb_true_iff. apply ZifyClasses.and_morph; [done|].
  destruct (cl_email c) as [email|]; [|by split; [|intros (? & ? & _)]]. unfold eq_ignore_ascii_case. rewrite bool_decide_eq_true. naive_solver.
Qed.

Lemma any_matches_spec ids c : any_matches ids (cl_sub c) (cl_email c) (cl_email_verified c) = true <-> exists g, g ∈ ids /\ speaks_of g c.
Proof. unfold any_matches. rewrite existsb_elem. by setoid_rewrite grant_matches_spec. Qed.

(** An entry of the configured value lists an identifier under a tier. *)
Definition entry_lists (entry : string) (tier : Tier) (id : string) : Prop :=
  exists name ids, split_once equals (trim entry) = Some (name, ids) /\ parse_config (trim name) = Some tier /\ id ∈ grant_ids ids.

Definition value_lists (value : string) (tier : Tier) (id : string) : Prop :=
  exists entry, entry ∈ split semicolon value /\ entry_lists entry tier id.

(** An entry names a tier and lists somebody. *)
Definition entry_ok (entry : string) : Prop := exists tier id, entry_lists entry tier id.

Definition grants_of (g : TierGrants) (tier : Tier) : list GrantId :=
  match tier with Raw => tg_raw g | Forensic => tg_forensic g | Redacted => [] end.

Lemma add_grant_of g tier ids tier' :
  grants_of (add_grant g tier ids) tier' = grants_of g tier' ++ (if bool_decide (tier' = tier /\ tier <> Redacted) then grant_parse <$> ids else []).
Proof. by destruct tier, tier'; simpl; rewrite ?app_nil_r. Qed.

Lemma parse_entry_spec value entry g :
  match parse_grant_entry value entry g with
  | inl g' => entry_ok entry /\ exists tier ids, g' = add_grant g tier ids /\ forall t id, entry_lists entry t id <-> t = tier /\ id ∈ ids
  | inr _ => ~ entry_ok entry
  end.
Proof.
  unfold parse_grant_entry, entry_ok, entry_lists. case_bool_decide as Ht.
  { rewrite Ht. intros (t & id & name & ids & H & _). done. }
  destruct (split_once equals (trim entry)) as [[name ids]|]; [|intros (t & id & n & i & H & _); done].
  destruct (parse_config (trim name)) as [tier|] eqn:Hp; [|intros (t & id & n & i & [= <- <-] & H & _); congruence].
  destruct (grant_ids ids) as [|id0 rest] eqn:Hids.
  { intros (t & id & n & i & [= <- <-] & _ & H). rewrite Hids in H. by apply not_elem_of_nil in H. }
  split.
  - exists tier, id0, name, ids. split; [done|]. split; [done|]. rewrite Hids. by left.
  - exists tier, (id0 :: rest). split; [done|]. intros t id. split.
    + intros (n & i & [= <- <-] & Hp' & H). rewrite Hids in H. split; [congruence|done].
    + intros [-> H]. exists name, ids. split; [done|]. split; [done|]. by rewrite Hids.
Qed.

(** The value parses exactly when every entry of it is well formed, and then
    grants what its entries list. *)
Lemma parse_tier_grants_spec value :
  match parse_tier_grants value with
  | inl g => (forall entry, entry ∈ split semicolon value -> entry_ok entry) /\
      forall tier gid, gid ∈ grants_of g tier <-> tier <> Redacted /\ exists id, value_lists value tier id /\ gid = grant_parse id
  | inr _ => exists entry, entry ∈ split semicolon value /\ ~ entry_ok entry
  end.
Proof.
  unfold parse_tier_grants, value_lists. generalize (split semicolon value) as entries. intros entries.
  induction entries as [|entry entries IH] using rev_ind.
  - split; [intros e H; by apply not_elem_of_nil in H|]. intros tier gid. split; [by destruct tier; intros H; apply not_elem_of_nil in H|].
    intros (_ & id & (e & H & _) & _). by apply not_elem_of_nil in H.
  - rewrite foldl_snoc. destruct (foldl _ _ entries) as [g|e].
    2: { destruct IH as (x & Hx & Hbad). exists x. split; [apply elem_of_app; by left|done]. }
    destruct IH as [Hok Hg]. pose proof (parse_entry_spec value entry g) as H. destruct (parse_grant_entry value entry g) as [g'|e].
    2: { exists entry. split; [apply elem_of_app; right; by left|done]. }
    destruct H as (Hentry & tier0 & ids & -> & Hlists). split.
    { by intros x [Hx| ->%list_elem_of_singleton]%elem_of_app; [apply Hok|]. }
    intros tier gid. rewrite add_grant_of, elem_of_app, Hg. split.
    + intros [(Hr & id & (x & Hx & Hl) & ->)|H].
      { split; [done|]. exists id. split; [|done]. exists x. split; [apply elem_of_app; by left|done]. }
      case_bool_decide as Hc; [|by apply not_elem_of_nil in H]. destruct Hc as [-> Hr]. apply list_elem_of_fmap in H as (id & -> & Hid).
      split; [done|]. exists id. split; [|done]. exists entry. split; [apply elem_of_app; right; by left|by apply Hlists].
    + intros (Hr & id & (x & [Hx| ->%list_elem_of_singleton]%elem_of_app & Hl) & ->).
      { left. split; [done|]. exists id. split; [|done]. by exists x. }
      right. apply Hlists in Hl as [-> Hid]. rewrite bool_decide_true by done. apply list_elem_of_fmap. eauto.
Qed.

Lemma resolve_rank g c k :
  (k <= tier_rank (grants_resolve g (cl_sub c) (cl_email c) (cl_email_verified c)) <->
   k = 0 \/ exists tier gid, k <= tier_rank tier /\ gid ∈ grants_of g tier /\ speaks_of gid c)%nat.
Proof.
  unfold grants_resolve. destruct (any_matches (tg_raw g) _ _ _) eqn:Hr; [apply any_matches_spec in Hr as (gid & Hin & Hs)|
    destruct (any_matches (tg_forensic g) _ _ _) eqn:Hf; [apply any_matches_spec in Hf as (gid & Hin & Hs)|]].
  - split; [|simpl; intros [->|(t & _ & Hk & _)]; [lia|destruct t; simpl in *; lia]]. intros Hk. right. by exists Raw, gid.
  - split; [intros Hk; right; by exists Forensic, gid|]. simpl. intros [->|([] & gid' & Hk & Hin' & Hs')]; simpl in *; [lia|lia|lia|].
    assert (any_matches (tg_raw g) (cl_sub c) (cl_email c) (cl_email_verified c) = true) as H by (apply any_matches_spec; eauto). congruence.
  - split; [simpl; intros Hk; left; lia|]. intros [->|([] & gid' & Hk & Hin' & Hs')]; simpl in *; [lia|lia| |].
    + assert (any_matches (tg_forensic g) (cl_sub c) (cl_email c) (cl_email_verified c) = true) as H by (apply any_matches_spec; eauto). congruence.
    + assert (any_matches (tg_raw g) (cl_sub c) (cl_email c) (cl_email_verified c) = true) as H by (apply any_matches_spec; eauto). congruence.
Qed.

(** The tier of a verified identity. A configured value of grants is taken only
    when every entry of it names a known tier and lists somebody. A tier claim
    that is one of the known tiers decides. Otherwise the tier is the highest
    under which the value lists the identity: by its subject, verbatim, for an
    identifier without an at sign, and for one with, by its email up to case, if
    the issuer verified the email. An identity nobody lists is [Redacted]. *)
Theorem tier_exact value grants c path :
  parse_tier_grants value = inl grants ->
  (forall entry, entry ∈ split semicolon value -> entry_ok entry) /\
  (forall v, (claims_lookup c path ≫= as_str) = Some v -> forall tier, parse_config v = Some tier -> from_claims_with_grants c path grants = tier) /\
  (recognized_claim c path = None -> forall tier, tier_rank tier <= tier_rank (from_claims_with_grants c path grants) <->
    tier = Redacted \/ exists tier' id, tier_rank tier <= tier_rank tier' /\ value_lists value tier' id /\
      (if contains_char at_char id then cl_email_verified c = true /\ exists email, cl_email c = Some email /\ to_ascii_lowercase email = to_ascii_lowercase id
       else id = cl_sub c)).
Proof.
  intros Hp. pose proof (parse_tier_grants_spec value) as H. rewrite Hp in H. destruct H as [Hok Hg]. split; [done|]. split.
  - intros v Hv tier Ht. unfold from_claims_with_grants, recognized_claim. by rewrite Hv; simpl; rewrite Ht.
  - intros Hn tier. unfold from_claims_with_grants. rewrite Hn, resolve_rank. split.
    + intros [H|(tier' & gid & Hk & (_ & id & Hl & ->)%Hg & Hs)]; [left; by destruct tier|]. right. exists tier', id. split; [done|]. split; [done|].
      unfold grant_parse in Hs. by destruct (contains_char at_char id).
    + intros [->|(tier' & id & Hk & Hl & Hs)]; [by left|]. destruct (decide (tier = Redacted)) as [->|Hne]; [by left|]. right.
      exists tier', (grant_parse id). split; [done|]. split; [apply Hg; split; [by destruct tier, tier'; simpl in *; try lia|by exists id]|].
      unfold grant_parse. by destruct (contains_char at_char id).
Qed.

(** ** The key store *)

Section Keys.
Context {Jwk DecodingKey : Type}.
Variable key_id : Jwk -> option string.
Variable from_jwk : Jwk -> option DecodingKey.

Abbreviation Store := (@JwksStore Jwk).
Abbreviation lookup_key := (jwks_lookup key_id).

(** One lookup: the key id asked for, the time, what the issuer would answer. *)
Record Lookup := mkLookup { lk_kid : option string; lk_now : Z; lk_fetch : @Fetch Jwk }.

Definition step (s : Store) (l : Lookup) : (Jwk + AuthError) * Store * bool := lookup_key s (lk_kid l) (lk_now l) (lk_fetch l).

Definition after (s : Store) (ls : list Lookup) : Store := foldl (fun s l => (step s l).1.2) s ls.

(** The lookups of a run that asked the issuer. *)
Fixpoint asking (s : Store) (ls : list Lookup) : list Lookup :=
  match ls with
  | [] => []
  | l :: ls => (if (step s l).2 then [l] else []) ++ asking (step s l).1.2 ls
  end.

(** The published key a cached set has for an id. *)
Lemma find_key_in set kid jwk : find_key key_id set kid = Some jwk -> jwk ∈ set /\ (forall k, kid = Some k -> key_id jwk = Some k).
Proof.
  unfold find_key. destruct kid as [kid|].
  - intros [Hin H]%find_elem. bools. split; [done|]. by intros k [= <-].
  - destruct set as [|only [|]]; [done| |done]. intros [= ->]. split; [by left|done].
Qed.

(** What one lookup does, by cases: it is served from a fresh set; or within the
    interval of the last attempt it makes do with the set it has; or it asks. *)
Lemma step_cases s l :
  let fresh_hit := exists c jwk, js_cache s = Some c /\ cached_fresh (js_ttl s) (lk_now l) c = true /\ find_key key_id (jc_keys c) (lk_kid l) = Some jwk /\
                     step s l = (inl jwk, s, false) in
  let throttled := exists last, js_last_refresh s = Some last /\ (elapsed_since last (lk_now l) < js_min_refresh_interval s)%Z in
  fresh_hit \/
  (throttled /\ step s l = (match js_cache s with
     | Some c => match find_key key_id (jc_keys c) (lk_kid l) with Some jwk => inl jwk | None => inr UnknownKey end
     | None => inr JwksUnreachable end, s, false)) \/
  (~ throttled /\ exists r s', step s l = (r, s', true) /\ js_last_refresh s' = Some (lk_now l) /\ js_ttl s' = js_ttl s /\
     js_min_refresh_interval s' = js_min_refresh_interval s /\
     match fe_answer (lk_fetch l) with
     | None => r = inr JwksUnreachable /\ js_cache s' = js_cache s
     | Some keys => js_cache s' = Some (mkCached keys (fe_done_at (lk_fetch l))) /\
         r = match find_key key_id keys (lk_kid l) with Some jwk => inl jwk | None => inr UnknownKey end
     end).
Proof.
  unfold step, jwks_lookup, jwks_refresh. destruct s as [cache last ttl interval]. cbn [js_cache js_last_refresh js_ttl js_min_refresh_interval].
  assert (forall b : Prop, (match last with Some t => (elapsed_since t (lk_now l) <? interval)%Z | None => false end) = true \/
    (match last with Some t => (elapsed_since t (lk_now l) <? interval)%Z | None => false end) = false) as Hthr.
  { intros _. destruct last; [destruct (_ <? _)%Z|]; auto. }
  destruct cache as [c|]; cbn [mbind option_bind].
  - destruct (cached_fresh ttl (lk_now l) c) eqn:Hf; cbn [andb]; [destruct (find_key key_id (jc_keys c) (lk_kid l)) as [jwk|] eqn:Hk|].
    + left. by exists c, jwk.
    + right. rewrite bool_decide_false by (by intros []). destruct (Hthr True) as [Ht|Ht]; rewrite Ht.
      * left. destruct last as [t|]; [|done]. split; [exists t; split; [done|lia]|]. by rewrite Hk.
      * right. split; [intros (t & -> & H); lia|]. destruct (fe_answer (lk_fetch l)) as [keys|]; eexists _, _; repeat split.
    + right. destruct (Hthr True) as [Ht|Ht]; rewrite Ht.
      * left. destruct last as [t|]; [|done]. split; [exists t; split; [done|lia]|done].
      * right. split; [intros (t & -> & H); lia|]. destruct (fe_answer (lk_fetch l)) as [keys|]; eexists _, _; repeat split.
  - right. destruct (Hthr True) as [Ht|Ht]; rewrite Ht.
    + left. destruct last as [t|]; [|done]. split; [exists t; split; [done|lia]|done].
    + right. split; [intros (t & -> & H); lia|]. destruct (fe_answer (lk_fetch l)) as [keys|]; eexists _, _; repeat split.
Qed.

Lemma step_policy s l : js_ttl (step s l).1.2 = js_ttl s /\ js_min_refresh_interval (step s l).1.2 = js_min_refresh_interval s.
Proof.
  destruct (step_cases s l) as [(c & jwk & _ & _ & _ & ->)|[(_ & ->)|(_ & r & s' & -> & _ & H1 & H2 & _)]]; done.
Qed.

(** The last attempt after a run, and what it asked. *)
Lemma asking_spaced s ls :
  StronglySorted (fun a b => (lk_now a <= lk_now b)%Z) ls ->
  (forall last l, js_last_refresh s = Some last -> l ∈ ls -> (last <= lk_now l)%Z) ->
  StronglySorted (fun a b => (lk_now a + js_min_refresh_interval s <= lk_now b)%Z) (asking s ls) /\
  (forall l, l ∈ asking s ls -> l ∈ ls /\ forall last, js_last_refresh s = Some last -> (last + js_min_refresh_interval s <= lk_now l)%Z).
Proof.
  revert s. induction ls as [|l ls IH]; intros s Hsort Hlast; [split; [constructor|intros l H; by apply not_elem_of_nil in H]|].
  apply StronglySorted_inv in Hsort as [Hsort Hall]. rewrite Forall_forall in Hall. cbn [asking].
  pose proof (step_policy s l) as [_ Hint].
  destruct (step_cases s l) as [(c & jwk & _ & _ & _ & Hstep)|[(_ & Hstep)|(Hno & r & s' & Hstep & Hlr & _)]]; rewrite Hstep in Hint |- *; cbn [fst snd app] in *.
  - destruct (IH s Hsort) as [H1 H2]; [intros last x Hx Hin; apply (Hlast last x Hx); by right|]. split; [done|].
    intros x Hx. destruct (H2 x Hx) as [? ?]. split; [by right|done].
  - destruct (IH s Hsort) as [H1 H2]; [intros last x Hx Hin; apply (Hlast last x Hx); by right|]. split; [done|].
    intros x Hx. destruct (H2 x Hx) as [? ?]. split; [by right|done].
  - destruct (IH s' Hsort) as [H1 H2]; [intros last x; rewrite Hlr; intros [= <-] Hin; by apply Hall|]. rewrite Hint in *.
    assert (forall last, js_last_refresh s = Some last -> (last + js_min_refresh_interval s <= lk_now l)%Z) as Hl.
    { intros last Hls. destruct (Z.le_gt_cases (last + js_min_refresh_interval s) (lk_now l)) as [|Hgt]; [done|]. destruct Hno. exists last. split; [done|].
      specialize (Hlast last l Hls ltac:(by left)). unfold elapsed_since. lia. }
    split.
    + constructor; [done|]. apply Forall_forall. intros x [_ Hx]%H2. by apply Hx.
    + intros x [->|Hx]%elem_of_cons; [split; [by left|done]|]. destruct (H2 x Hx) as [Hin Hx']. split; [by right|]. intros last Hls.
      specialize (Hx' _ Hlr). specialize (Hl last Hls). specialize (Hlast last l Hls ltac:(by left)). specialize (Hall x Hin).
      destruct (Z.le_gt_cases 0 (js_min_refresh_interval s)); lia.
Qed.

(** An issuer is never stampeded. Whatever key ids tokens carry, known or made
    up, and however the issuer answers or fails to, any two requests to it are at
    least the refresh interval apart. *)
Theorem fetches_spaced ttl interval ls :
  StronglySorted (fun a b => (lk_now a <= lk_now b)%Z) ls ->
  StronglySorted (fun a b => (lk_now a + interval <= lk_now b)%Z) (asking (jwks_new ttl interval) ls).
Proof. intros H. by apply (asking_spaced (jwks_new ttl interval) ls). Qed.

(** A set in the cache is one the issuer answered. *)
Lemma cache_answered s ls c :
  (forall c, js_cache s = Some c -> False) -> js_cache (after s ls) = Some c ->
  exists l, l ∈ ls /\ fe_answer (lk_fetch l) = Some (jc_keys c) /\ fe_done_at (lk_fetch l) = jc_fetched_at c.
Proof.
  intros Hs. revert c. induction ls as [|l ls IH] using rev_ind; intros c; [intros H; by apply Hs in H|].
  unfold after. rewrite foldl_snoc. fold (after s ls). intros Hc.
  assert (js_cache (after s ls) = Some c \/ (fe_answer (lk_fetch l) = Some (jc_keys c) /\ fe_done_at (lk_fetch l) = jc_fetched_at c)) as [H|H].
  { destruct (step_cases (after s ls) l) as [(c' & jwk & _ & _ & _ & E)|[(_ & E)|(_ & r & s' & E & _ & _ & _ & Ha)]]; rewrite E in Hc; cbn [fst snd] in Hc; [by left..|].
    destruct (fe_answer (lk_fetch l)) as [keys|]; destruct Ha as [H1 H2]; [|left; congruence]. right. rewrite H1 in Hc. by injection Hc as <-. }
  - destruct (IH c H) as (x & Hx & Ha). exists x. split; [apply elem_of_app; by left|done].
  - exists l. split; [apply elem_of_app; right; by left|done].
Qed.

(** The key a lookup resolves to, in any run: one of a set the issuer answered,
    in this run, under the key id asked for. *)
Lemma resolved_answered ttl interval ls l jwk s' asked :
  step (after (jwks_new ttl interval) ls) l = (inl jwk, s', asked) ->
  exists x keys, x ∈ ls ++ [l] /\ fe_answer (lk_fetch x) = Some keys /\ jwk ∈ keys /\ forall k, lk_kid l = Some k -> key_id jwk = Some k.
Proof.
  set (s := after (jwks_new ttl interval) ls).
  assert (forall c, js_cache s = Some c -> exists x, x ∈ ls ++ [l] /\ fe_answer (lk_fetch x) = Some (jc_keys c)) as Hcache.
  { intros c Hc. destruct (cache_answered (jwks_new ttl interval) ls c) as (x & Hx & Ha & _); [done|done|]. exists x. split; [apply elem_of_app; by left|done]. }
  destruct (step_cases s l) as [(c & j & Hc & _ & Hk & ->)|[(_ & ->)|(_ & r & s1 & -> & _ & _ & _ & Ha)]]; intros H.
  - injection H as <- _ _. apply find_key_in in Hk as [Hin Hid]. destruct (Hcache c Hc) as (x & Hx & Hax). by exists x, (jc_keys c).
  - destruct (js_cache s) as [c|]; [|done]. destruct (find_key key_id (jc_keys c) (lk_kid l)) as [j|] eqn:Hk; [|done].
    injection H as <- _ _. apply find_key_in in Hk as [Hin Hid]. destruct (Hcache c eq_refl) as (x & Hx & Hax). by exists x, (jc_keys c).
  - destruct (fe_answer (lk_fetch l)) as [keys|] eqn:Hf; [|destruct Ha; congruence]. destruct Ha as [_ Hr].
    rewrite Hr in H. destruct (find_key key_id keys (lk_kid l)) as [j|] eqn:Hk; [|done]. injection H as <- _ _. apply find_key_in in Hk as [Hin Hid].
    exists l, keys. split; [apply elem_of_app; right; by left|done].
Qed.

(** A cached key outlives its TTL for as long as the issuer stays away: the
    lookup that finds the set stale fails, and the ones after it, until the
    interval is over, resolve the stale key. *)
Theorem outage_serves_stale (s : Store) c jwk l l' :
  js_cache s = Some c -> find_key key_id (jc_keys c) (lk_kid l') = Some jwk ->
  cached_fresh (js_ttl s) (lk_now l) c = false -> (forall last, js_last_refresh s = Some last -> (js_min_refresh_interval s <= elapsed_since last (lk_now l))%Z) ->
  fe_answer (lk_fetch l) = None -> (lk_now l <= lk_now l' < lk_now l + js_min_refresh_interval s)%Z ->
  (step s l).1.1 = inr JwksUnreachable /\ (step (step s l).1.2 l').1.1 = inl jwk.
Proof.
  intros Hc Hk Hstale Hthr Hf Hnow.
  destruct (step_cases s l) as [(c' & j & Hc' & Hfr & _)|[((last & Hls & H) & _)|(_ & r & s' & E & Hlr & _ & Hint & Ha)]].
  - rewrite Hc in Hc'. injection Hc' as <-. congruence.
  - specialize (Hthr last Hls). lia.
  - rewrite Hf in Ha. destruct Ha as [-> Hcs]. rewrite E. cbn [fst snd]. split; [done|].
    destruct (step_cases s' l') as [(c' & j & Hc' & _ & Hk' & ->)|[(_ & ->)|(Hno & _)]]; cbn [fst].
    + rewrite Hcs, Hc in Hc'. injection Hc' as <-. rewrite Hk in Hk'. by injection Hk' as <-.
    + by rewrite Hcs, Hc, Hk.
    + destruct Hno. exists (lk_now l). split; [done|]. rewrite Hint. unfold elapsed_since. lia.
Qed.
End Keys.

(** ** The gate *)

Section Gate.
Context {Jwk DecodingKey : Type}.
Variable key_id : Jwk -> option string.
Variable from_jwk : Jwk -> option DecodingKey.
Variable decode_header : string -> option (option string).
Variable decode : Z -> string -> DecodingKey -> Validation -> Claims + JwtErrorKind.

(** What a decoded token is, in jsonwebtoken's documentation: signed by the key
    with the validation's algorithm, issued by one of its issuers, for one of its
    audiences, and within its times, where these are to be validated. *)
Variable signed : string -> DecodingKey -> SigningAlgorithm -> Prop.
Variables issued_by intended_for : string -> string -> Prop.
Variable in_time : Z -> string -> Prop.
Hypothesis decode_sound : forall now token key v claims, decode now token key v = inl claims ->
  signed token key (vd_algorithm v) /\ (exists iss, iss ∈ vd_issuers v /\ issued_by token iss) /\
  (vd_validate_aud v = true -> exists aud, aud ∈ vd_audiences v /\ intended_for token aud) /\
  (vd_validate_exp v = true -> vd_validate_nbf v = true -> in_time now token).

Variable e : Enforcer.

Record GateRequest := mkGateRequest { gq_path : string; gq_headers : HeaderMap; gq_now : Z; gq_fetch : @Fetch Jwk }.

Definition gate (s : @JwksStore Jwk) (r : GateRequest) : (Identity + Response) * @JwksStore Jwk :=
  enforce key_id from_jwk decode_header decode e s (gq_path r) (gq_headers r) (gq_now r) (gq_fetch r).

Definition gate_after (s : @JwksStore Jwk) (rs : list GateRequest) : @JwksStore Jwk := foldl (fun s r => (gate s r).2) s rs.

Definition lookup_of (r : GateRequest) : option (@Lookup Jwk) :=
  token ← extract_token (gq_headers r); kid ← decode_header token; Some (mkLookup kid (gq_now r) (gq_fetch r)).

Definition config_of : OidcConfig := en_config e.

(** A verified identity, and where it comes from. *)
Definition verified (s : @JwksStore Jwk) (r : GateRequest) (i : Identity) : Prop :=
  exists token kid jwk key claims, extract_token (gq_headers r) = Some token /\ decode_header token = Some kid /\
    (step key_id s (mkLookup kid (gq_now r) (gq_fetch r))).1.1 = inl jwk /\ from_jwk jwk = Some key /\
    decode (gq_now r) token key (build_validation config_of) = inl claims /\
    i = mkOidcIdentity (cl_sub claims) (from_claims_with_grants claims (oc_tier_claim config_of) (oc_tier_grants config_of)) (cl_email claims).

Lemma authenticate_spec s r :
  match authenticate key_id from_jwk decode_header decode config_of s (gq_headers r) (gq_now r) (gq_fetch r) with
  | (inl i, _) => verified s r i
  | (inr _, _) => forall i, ~ verified s r i
  end.
Proof.
  unfold authenticate, verified, verify_token, decoding_key. destruct (extract_token (gq_headers r)) as [token|]; [|by intros i (? & ? & ? & ? & ? & ? & _)].
  destruct (decode_header token) as [kid|] eqn:Hh; [|intros i (? & ? & ? & ? & ? & [= <-] & ? & _); congruence].
  change (jwks_lookup key_id s kid (gq_now r) (gq_fetch r)) with (step key_id s (mkLookup kid (gq_now r) (gq_fetch r))).
  destruct (step key_id s (mkLookup kid (gq_now r) (gq_fetch r))) as [[[jwk|err] s'] asked] eqn:Hs.
  2: { intros i (token' & kid' & jwk & key & claims & [= <-] & Hh' & Hl & _). rewrite Hh in Hh'. injection Hh' as <-. by rewrite Hs in Hl. }
  unfold decoding_key_from_jwk. destruct (from_jwk jwk) as [key|] eqn:Hk.
  2: { intros i (token' & kid' & jwk' & key & claims & [= <-] & Hh' & Hl & Hk' & _). rewrite Hh in Hh'. injection Hh' as <-.
    rewrite Hs in Hl. injection Hl as <-. congruence. }
  destruct (decode (gq_now r) token key (build_validation config_of)) as [claims|k] eqn:Hd.
  - by exists token, kid, jwk, key, claims; rewrite Hs.
  - intros i (token' & kid' & jwk' & key' & claims & [= <-] & Hh' & Hl & Hk' & Hd' & _). rewrite Hh in Hh'. injection Hh' as <-.
    rewrite Hs in Hl. injection Hl as <-. rewrite Hk in Hk'. injection Hk' as <-. congruence.
Qed.

Lemma gate_store s r : (gate s r).2 = match lookup_of r with Some l => (step key_id s l).1.2 | None => s end.
Proof.
  unfold gate, enforce, authenticate, lookup_of, verify_token, decoding_key. destruct (extract_token (gq_headers r)) as [token|]; [|done]. cbn [mbind option_bind].
  destruct (decode_header token) as [kid|]; [|done]. cbn [mbind option_bind].
  change (jwks_lookup key_id s kid (gq_now r) (gq_fetch r)) with (step key_id s (mkLookup kid (gq_now r) (gq_fetch r))).
  destruct (step key_id s (mkLookup kid (gq_now r) (gq_fetch r))) as [[[jwk|err] s'] asked]; [|done]. unfold decoding_key_from_jwk.
  destruct (from_jwk jwk); [|done]. by destruct (decode _ _ _ _).
Qed.

Lemma gate_after_lookups s rs : gate_after s rs = after key_id s (omap lookup_of rs).
Proof.
  induction rs as [|r rs IH] using rev_ind; [done|]. unfold gate_after. rewrite foldl_snoc. fold (gate_after s rs). rewrite gate_store, IH, omap_snoc.
  destruct (lookup_of r) as [l|]; [change (option_list (Some l)) with [l]; unfold after; by rewrite foldl_snoc|by rewrite app_nil_r].
Qed.

Lemma deny_spec denial class login :
  let r := deny denial class login in
  rs_no_store r = true /\ (rs_location r <> None -> class = Document /\ rs_status r = 302%N /\ rs_location r = Some login) /\
  rs_status r = match denial with
    | Forbidden => 403
    | DeniedAuth JwksUnreachable => 503
    | DeniedAuth _ => match class with Api => 401 | Document => if header_value login then 302 else 401 end
    end%N.
Proof. destruct denial as [[]|], class; simpl; unfold redirect; try destruct (header_value login); done. Qed.

Lemma deny_status denial class login : rs_status (deny denial class login) ∈ [302; 401; 403; 503]%N.
Proof.
  apply (bool_decide_eq_true_1 _). destruct denial as [[]|], class; try reflexivity; simpl; unfold redirect; by destruct (header_value login).
Qed.

(** C19: The dashboard is served exactly to verified identities of the least tier.
    After any requests since the start, a request is passed on exactly when it
    bears a token that decodes, under a key the lookup of its key id resolves to,
    with the pinned validation, and whose tier is at least the configured one;
    then the key is one the issuer answered, in this run, for that key id, and the
    token is signed by it with the configured algorithm, issued by the configured
    issuer for the configured audience, and within its times. Any other request
    is answered with a denial that is never cached and, on an API path, never a
    redirect; an unreachable issuer reads as 503 on every path. *)
Theorem dashboard_admits_exactly ttl interval rs r :
  let s := gate_after (jwks_new ttl interval) rs in
  (forall i, (gate s r).1 = inl i <-> verified s r i /\ tier_rank (en_min_tier e) <= tier_rank (oi_tier i)) /\
  (forall i, (gate s r).1 = inl i -> exists token kid jwk key x keys, extract_token (gq_headers r) = Some token /\ decode_header token = Some kid /\
    x ∈ rs ++ [r] /\ fe_answer (gq_fetch x) = Some keys /\ jwk ∈ keys /\ (forall k, kid = Some k -> key_id jwk = Some k) /\ from_jwk jwk = Some key /\
    signed token key (oc_algorithm config_of) /\ issued_by token (oc_issuer config_of) /\ intended_for token (oc_audience config_of) /\ in_time (gq_now r) token) /\
  (forall resp, (gate s r).1 = inr resp -> rs_no_store resp = true /\ rs_status resp ∈ [302; 401; 403; 503]%N /\
    (starts_with "/api/" (gq_path r) = true -> rs_location resp = None /\ rs_status resp <> 302%N) /\
    (rs_status resp = 503%N <-> (authenticate key_id from_jwk decode_header decode config_of s (gq_headers r) (gq_now r) (gq_fetch r)).1 = inr JwksUnreachable)).
Proof.
  intros s. assert (forall i, (gate s r).1 = inl i <-> verified s r i /\ tier_rank (en_min_tier e) <= tier_rank (oi_tier i)) as Hiff.
  { intros i. unfold gate, enforce. fold config_of. pose proof (authenticate_spec s r) as H. destruct (authenticate _ _ _ _ _ _ _ _ _) as [[i0|err] s'].
    - unfold identity_permitted. assert (forall j, verified s r j -> j = i0) as Huniq.
      { intros j (t & k & w & y & c & H1 & H2 & H3 & H4 & H5 & ->). destruct H as (t' & k' & w' & y' & c' & H1' & H2' & H3' & H4' & H5' & ->). congruence. }
      destruct (Nat.leb_spec (tier_rank (en_min_tier e)) (tier_rank (oi_tier i0))); cbn [fst]; split.
      + by intros [= <-].
      + by intros [->%Huniq _].
      + done.
      + intros [->%Huniq ?]. lia.
    - cbn [fst]. split; [done|]. intros [Hv _]. by apply H in Hv. }
  split; [done|]. split.
  - intros i [(token & kid & jwk & key & claims & Ht & Hh & Hl & Hk & Hd & _) _]%Hiff.
    destruct (decode_sound _ _ _ _ _ Hd) as (Hsig & (iss & ->%list_elem_of_singleton & Hiss) & Haud & Htime).
    destruct (Haud eq_refl) as (aud & ->%list_elem_of_singleton & Ha). specialize (Htime eq_refl eq_refl).
    destruct (step key_id s (mkLookup kid (gq_now r) (gq_fetch r))) as [[res s'] asked] eqn:Hs. cbn [fst] in Hl. subst res s.
    rewrite gate_after_lookups in Hs. apply resolved_answered in Hs as (x & keys & Hx & Hf & Hin & Hid).
    assert (exists q, q ∈ rs ++ [r] /\ gq_fetch q = lk_fetch x) as (q & Hq & Hqf).
    { apply elem_of_app in Hx as [(q & Hq & Hlq)%list_elem_of_omap| ->%list_elem_of_singleton].
      - exists q. split; [apply elem_of_app; by left|]. unfold lookup_of in Hlq. apply bind_Some in Hlq as (t & _ & Hlq).
        apply bind_Some in Hlq as (k & _ & [= <-]). done.
      - exists r. split; [apply elem_of_app; right; by left|done]. }
    exists token, kid, jwk, key, q, keys. rewrite Hqf. done.
  - intros resp. unfold gate, enforce. fold config_of.
    destruct (authenticate key_id from_jwk decode_header decode config_of s (gq_headers r) (gq_now r) (gq_fetch r)) as [[i|err] s'];
      [destruct (identity_permitted e i); [done|]|]; cbn [fst]; intros [= <-];
      (match goal with |- context [deny ?d ?c ?l] => destruct (deny_spec d c l) as (H1 & H2 & H3); pose proof (deny_status d c l) as H4; set (resp := deny d c l) in * end);
      (split; [exact H1|]); (split; [exact H4|]); rewrite H3;
      assert (starts_with "/api/" (gq_path r) = true -> route_class (gq_path r) (gq_headers r) = Api) as Hapi by (unfold route_class; by intros ->);
      assert (starts_with "/api/" (gq_path r) = true -> rs_location resp = None) as Hloc
        by (intros Hc%Hapi; destruct (rs_location resp) eqn:E; [destruct H2 as [H2 _]; congruence|done]).
    + split; [by intros Hp; split; [apply Hloc|]|done].
    + split.
      * intros Hp. split; [by apply Hloc|]. rewrite (Hapi Hp). by destruct err.
      * split; [|by intros [= ->]]. destruct err; try done; repeat case_match; done.
Qed.
End Gate.

(** ** A gate at work *)

Definition demo_decode_header (token : string) : option (option string) := if bool_decide (token = "good") then Some (Some "k1") else None.

Definition demo_decode (_ : Z) (token key : string) (v : Validation) : Claims + JwtErrorKind :=
  if bool_decide (token = "good" /\ key = "pub" /\ vd_issuers v = ["idp"] /\ vd_audiences v = ["protector"])
  then inl (mkClaims "alice" (Some "Alice@example.com") true []) else inr JInvalidSignature.

Definition demo_gate : Enforcer :=
  mkEnforcer (mkOidc "idp" "protector" "tier" Rs256 (mkGrants [Email "alice@example.com"] [])) "https://login" Forensic.

Definition demo_request (token : string) : GateRequest :=
  mkGateRequest "/api/graph.json" {["authorization" := "Bearer " +:+ token]} 1000000000 (mkFetch (Some [("k1", "pub")]) 1000000001).

Lemma demo_decode_sound now token key v claims : demo_decode now token key v = inl claims ->
  token = "good" /\ (exists iss, iss ∈ vd_issuers v /\ iss = "idp") /\
  (vd_validate_aud v = true -> exists aud, aud ∈ vd_audiences v /\ aud = "protector") /\ (vd_validate_exp v = true -> vd_validate_nbf v = true -> True).
Proof.
  unfold demo_decode. case_bool_decide as H; [|done]. destruct H as (-> & _ & Hi & Ha). intros _. split; [done|].
  split; [exists "idp"; rewrite Hi; split; [by left|done]|]. split; [|done]. intros _. exists "protector". rewrite Ha. split; [by left|done].
Qed.

Lemma dashboard_admits_exactly_witness :
  let g := gate (fun j : string * string => Some j.1) (fun j => Some j.2) demo_decode_header demo_decode demo_gate in
  let s := jwks_new 300 5 in
  (g s (demo_request "good")).1 = inl (mkOidcIdentity "alice" Raw (Some "Alice@example.com")) /\
  (exists token, extract_token (gq_headers (demo_request "good")) = Some token /\ token = "good") /\
  (exists resp, (g s (demo_request "bad")).1 = inr resp /\ rs_status resp = 401%N /\ rs_location resp = None).
Proof.
  intros g s.
  assert ((g s (demo_request "good")).1 = inl (mkOidcIdentity "alice" Raw (Some "Alice@example.com"))) as H1 by (vm_compute; reflexivity).
  split; [exact H1|]. split.
  - destruct (dashboard_admits_exactly (fun j : string * string => Some j.1) (fun j => Some j.2) demo_decode_header demo_decode (fun t _ _ => t = "good")
      (fun _ i => i = "idp") (fun _ a => a = "protector") (fun _ _ => True) demo_decode_sound demo_gate 300 5 [] (demo_request "good")) as (_ & H2 & _).
    destruct (H2 _ H1) as (token & kid & jwk & key & x & keys & Ht & _ & _ & _ & _ & _ & _ & Hs & _). exists token. exact (conj Ht Hs).
  - eexists. split; [vm_compute; reflexivity|]. split; reflexivity.
Defined.

Lemma tier_exact_witness :
  let c := mkClaims "svc-1" (Some "bob@example.com") true [] in
  let value := "raw=alice@example.com; forensic = bob@example.com , svc-2" in
  exists grants, parse_tier_grants value = inl grants /\ tier_rank Forensic <= tier_rank (from_claims_with_grants c "tier" grants).
Proof.
  intros c value. destruct (parse_tier_grants value) as [grants|e] eqn:Hp; [|vm_compute in Hp; discriminate Hp]. exists grants. split; [reflexivity|].
  destruct (tier_exact value grants c "tier" Hp) as (_ & _ & H). apply (H eq_refl Forensic). right. exists Forensic, "bob@example.com".
  split; [exact (le_n _)|]. split.
  - exists " forensic = bob@example.com , svc-2". split; [vm_compute; right; left|].
    exists "forensic ", " bob@example.com , svc-2". split; [vm_compute; reflexivity|]. split; [vm_compute; reflexivity|]. vm_compute. left.
  - vm_compute. split; [reflexivity|]. exists "bob@example.com". split; reflexivity.
Defined.

Lemma fetches_spaced_witness :
  let l now kid := mkLookup (Jwk := string) (Some kid) now (mkFetch None now) in
  let ls := [l 0%Z "a"; l 1%Z "b"; l 6%Z "c"] in
  StronglySorted (fun a b => (lk_now a <= lk_now b)%Z) ls /\
  asking (fun j => Some j) (jwks_new 300 5) ls = [l 0%Z "a"; l 6%Z "c"] /\
  StronglySorted (fun a b => (lk_now a + 5 <= lk_now b)%Z) (asking (fun j => Some j) (jwks_new 300 5) ls).
Proof.
  intros l ls. assert (StronglySorted (fun a b => (lk_now a <= lk_now b)%Z) ls) as H by (repeat constructor; vm_compute; discriminate).
  split; [exact H|]. split; [vm_compute; reflexivity|]. exact (fetches_spaced (fun j => Some j) 300 5 ls H).
Defined.

(** The scheme of a bearer token is taken in two spellings only. *)
Example bearer_spellings : bearer_token <$> ["Bearer t"; "bearer t"; "BEARER t"] = [Some "t"; Some "t"; None].
Proof. reflexivity. Qed.
