(* ===== verification/Verdicts.v ===== *)
(** * The verdict store

    engine/src/engine/reason/adjudicate/mod.rs (the verdict), surface.rs (the
    judged surface and its additions), state/recency.rs (posture and delta) and
    state/verdict_store.rs (the per-entry memory of the model's calls). The
    store's mutexes only serialize its callers, so an operation is a function
    of the store. *)

From S2P Require Import Prelude Text Backoff.
From Stdlib Require Import ZArith.

(** ** The verdict *)

Inductive Verdict :=
  | Confirmed
  | Exploitable (why : string)
  | Refuted (why : string)
  | Uncertain (why : string).

#[export] Instance Verdict_eq_dec : EqDecision Verdict.
Proof. solve_decision. Defined.

Definition is_confirmed (v : Verdict) : bool :=
  match v with Confirmed | Exploitable _ => true | _ => false end.

Definition promotes (v : Verdict) : bool := match v with Exploitable _ => true | _ => false end.

Definition verdict_label (v : Verdict) : string :=
  match v with
  | Confirmed => "confirmed" | Exploitable _ => "exploitable" | Refuted _ => "refuted"
  | Uncertain _ => "uncertain"
  end.

Definition summary (v : Verdict) : string :=
  match v with
  | Confirmed => "confirmed (live attack stands)"
  | Exploitable why => "exploitable — " +:+ why
  | Refuted why => "not exploitable — " +:+ why
  | Uncertain why => "uncertain — " +:+ why
  end.

Definition is_uncertain (v : Verdict) : bool := match v with Uncertain _ => true | _ => false end.

(** ** The judged surface *)

Record JudgedSurface := mkSurface {
  js_objectives : gset string; js_cves : gset string; js_secrets : gset string;
  js_posture : gset string; js_behaviors : gset string; js_downstream : gset string
}.

Definition from_lines (objectives cves secrets posture behaviors downstream : list string) : JudgedSurface :=
  mkSurface (list_to_set objectives) (list_to_set cves) (list_to_set secrets) (list_to_set posture)
    (list_to_set behaviors) (list_to_set downstream).

Record ChangesSince := mkChanges {
  ch_objectives : list string; ch_cves : list string; ch_secrets : list string;
  ch_posture : list string; ch_behaviors : list string; ch_downstream : list string
}.

Definition additions_since (cur : JudgedSurface) (baseline : option JudgedSurface) : ChangesSince :=
  match baseline with
  | None => mkChanges [] [] [] [] [] []
  | Some base =>
      let diff := fun (cur old : gset string) => bset_iter (cur ∖ old) in
      mkChanges (diff (js_objectives cur) (js_objectives base)) (diff (js_cves cur) (js_cves base))
        (diff (js_secrets cur) (js_secrets base)) (diff (js_posture cur) (js_posture base))
        (diff (js_behaviors cur) (js_behaviors base)) (diff (js_downstream cur) (js_downstream base))
  end.

Definition changes_is_empty (c : ChangesSince) : bool :=
  bool_decide (ch_objectives c = []) && bool_decide (ch_cves c = []) && bool_decide (ch_secrets c = []) &&
  bool_decide (ch_posture c = []) && bool_decide (ch_behaviors c = []) && bool_decide (ch_downstream c = []).

(** [additive] of the delta prompt (prompt.rs). *)
Definition additive (cur : JudgedSurface) (baseline : option JudgedSurface) : bool :=
  negb (bool_decide (is_Some baseline)) || negb (changes_is_empty (additions_since cur baseline)).

(** ** Recency *)

Inductive StoredPosture := Breach | Unknown | Safe | Awaiting.

Definition of_verdict (v : option Verdict) : StoredPosture :=
  match v with
  | None => Awaiting
  | Some (Confirmed | Exploitable _) => Breach
  | Some (Uncertain _) => Unknown
  | Some (Refuted _) => Safe
  end.

Definition rank (p : StoredPosture) : Z :=
  match p with Awaiting => 0 | Safe => 1 | Unknown => 2 | Breach => 3 end.

Inductive Delta := New | Escalated | DeEscalated | Unchanged | Restored.

#[export] Instance Delta_eq_dec : EqDecision Delta.
Proof. solve_decision. Defined.

Definition delta_from (prev now : StoredPosture) : Delta :=
  match Z.compare (rank now) (rank prev) with Gt => Escalated | Lt => DeEscalated | Eq => Unchanged end.

Record RecencyInfo := mkRecency { ri_delta : Delta; ri_age_secs : option Z }.

(** ** The per-entry cache *)

Definition DEFAULT_VERDICT_CACHE_SLOTS : nat := 32.
Definition MIN_VERDICT_CACHE_SLOTS : nat := 2.

Abbreviation VerdictLru := (list (string * Verdict)).

Fixpoint position_remove (fingerprint : string) (slots : VerdictLru) : option ((string * Verdict) * VerdictLru) :=
  match slots with
  | [] => None
  | s :: rest =>
      if bool_decide (s.1 = fingerprint) then Some (s, rest)
      else '(hit, rest') ← position_remove fingerprint rest; Some (hit, s :: rest')
  end.

Definition lru_get (slots : VerdictLru) (fingerprint : string) : option Verdict * VerdictLru :=
  match position_remove fingerprint slots with
  | None => (None, slots)
  | Some (hit, rest) => (Some hit.2, hit :: rest)
  end.

Definition lru_insert (slots : VerdictLru) (fingerprint : string) (v : Verdict) (cap : nat) : VerdictLru :=
  take (Nat.max cap 1)
    ((fingerprint, v) :: List.filter (fun s => negb (bool_decide (s.1 = fingerprint))) slots).

(** ** The store *)

Record VerdictBaseline := mkBaseline { vb_surface : JudgedSurface; vb_verdict : Verdict }.

Record VerdictEntry := mkEntry {
  ve_display : option Verdict;
  ve_restored : option string;
  ve_cached : VerdictLru;
  ve_baseline : option VerdictBaseline;
  ve_journaled : option string;
  ve_backoff : EntryBackoff;
  ve_first_seen : option Z;
  ve_prev_posture : option StoredPosture;
  ve_last_delta : option Delta;
  ve_restored_recency : bool;
  ve_decisive_at : option Z
}.

Definition entry_default : VerdictEntry :=
  mkEntry None None [] None None backoff_default None None None false None.

Definition entry_display_summary (e : VerdictEntry) : option string :=
  match ve_display e with Some v => Some (summary v) | None => ve_restored e end.

Definition saturating_since (now at_ : Z) : Z := Z.max 0 (now - at_).

Definition recency_info (e : VerdictEntry) (now : Z) : RecencyInfo :=
  mkRecency (default Unchanged (ve_last_delta e))
    (if ve_restored_recency e then None
     else (fun fs => (saturating_since now fs / nanos_per_sec)%Z) <$> ve_first_seen e).

Record VerdictStore := mkStore {
  vs_entries : gmap string VerdictEntry;
  vs_breaker : CircuitBreaker;
  vs_cache_slots : nat
}.

Definition with_cache_slots (slots : nat) : VerdictStore :=
  mkStore ∅ breaker_default (Nat.max slots MIN_VERDICT_CACHE_SLOTS).

Definition store_entry (s : VerdictStore) (entry : string) : VerdictEntry :=
  default entry_default (vs_entries s !! entry).

Definition update (s : VerdictStore) (entry : string) (f : VerdictEntry -> VerdictEntry) : VerdictStore :=
  mkStore (<[entry := f (store_entry s entry)]> (vs_entries s)) (vs_breaker s) (vs_cache_slots s).

Definition display_summary (s : VerdictStore) (entry : string) : option string :=
  vs_entries s !! entry ≫= entry_display_summary.

Definition or_insert {A} (o : option A) (a : A) : option A := Some (default a o).

Definition seed_restored (s : VerdictStore) (entry text : string) (restored_at : Z) : VerdictStore :=
  update s entry (fun e =>
    mkEntry (ve_display e) (Some text) (ve_cached e) (ve_baseline e) (ve_journaled e) (ve_backoff e)
      (or_insert (ve_first_seen e) restored_at) (or_insert (ve_prev_posture e) Awaiting)
      (or_insert (ve_last_delta e) Restored) true (ve_decisive_at e)).

Definition record_recency (s : VerdictStore) (entry : string) (posture : StoredPosture) (now : Z) : VerdictStore :=
  update s entry (fun e =>
    let first := negb (bool_decide (is_Some (ve_first_seen e))) && negb (ve_restored_recency e) in
    let '(delta, restored_recency) :=
      if first then (New, ve_restored_recency e)
      else if ve_restored_recency e then (Restored, false)
      else (match ve_prev_posture e with Some prev => delta_from prev posture | None => Unchanged end,
            ve_restored_recency e) in
    mkEntry (ve_display e) (ve_restored e) (ve_cached e) (ve_baseline e) (ve_journaled e) (ve_backoff e)
      (or_insert (ve_first_seen e) now) (Some posture) (Some delta) restored_recency (ve_decisive_at e)).

Definition recency_for (s : VerdictStore) (entry : string) (now : Z) : option RecencyInfo :=
  (fun e => recency_info e now) <$> vs_entries s !! entry.

Definition set_cached (e : VerdictEntry) (slots : VerdictLru) : VerdictEntry :=
  mkEntry (ve_display e) (ve_restored e) slots (ve_baseline e) (ve_journaled e) (ve_backoff e)
    (ve_first_seen e) (ve_prev_posture e) (ve_last_delta e) (ve_restored_recency e) (ve_decisive_at e).

(** A hit reorders the entry's slots; an unknown entry stays unknown. *)
Definition cached_for (s : VerdictStore) (entry fingerprint : string) : option Verdict * VerdictStore :=
  match vs_entries s !! entry with
  | None => (None, s)
  | Some e =>
      let '(hit, slots) := lru_get (ve_cached e) fingerprint in
      (hit, mkStore (<[entry := set_cached e slots]> (vs_entries s)) (vs_breaker s) (vs_cache_slots s))
  end.

Definition cache_decisive (s : VerdictStore) (entry fingerprint : string) (v : Verdict) : VerdictStore :=
  update s entry (fun e => set_cached e (lru_insert (ve_cached e) fingerprint v (vs_cache_slots s))).

Definition baseline_for (s : VerdictStore) (entry : string) : option VerdictBaseline :=
  vs_entries s !! entry ≫= ve_baseline.

Definition set_baseline (s : VerdictStore) (entry : string) (surface : JudgedSurface) (v : Verdict) : VerdictStore :=
  update s entry (fun e =>
    mkEntry (ve_display e) (ve_restored e) (ve_cached e) (Some (mkBaseline surface v)) (ve_journaled e)
      (ve_backoff e) (ve_first_seen e) (ve_prev_posture e) (ve_last_delta e) (ve_restored_recency e)
      (ve_decisive_at e)).

Definition set_backoff (e : VerdictEntry) (b : EntryBackoff) (decisive_at : option Z) : VerdictEntry :=
  mkEntry (ve_display e) (ve_restored e) (ve_cached e) (ve_baseline e) (ve_journaled e) b
    (ve_first_seen e) (ve_prev_posture e) (ve_last_delta e) (ve_restored_recency e) decisive_at.

Definition entry_backing_off (s : VerdictStore) (entry : string) (now : Z) : bool :=
  match vs_entries s !! entry with Some e => is_backing_off (ve_backoff e) now | None => false end.

Section Inconclusive.
Variable default_hash : string -> Z.

Definition jitter_seed (entry : string) : Z := default_hash entry.

Definition record_inconclusive (s : VerdictStore) (entry : string) (now : Z) : option VerdictStore :=
  let seed := jitter_seed entry in
  b ← backoff_record_failure (ve_backoff (store_entry s entry)) now seed;
  let s := update s entry (fun e => set_backoff e b (ve_decisive_at e)) in
  Some (mkStore (vs_entries s) (breaker_record_failure (vs_breaker s) now) (vs_cache_slots s)).

End Inconclusive.

Definition record_decisive (s : VerdictStore) (entry : string) (now : Z) : VerdictStore :=
  let s := update s entry (fun e => set_backoff e (backoff_record_success (ve_backoff e)) (Some now)) in
  mkStore (vs_entries s) (breaker_record_success (vs_breaker s)) (vs_cache_slots s).

Definition breaker_open (s : VerdictStore) (now : Z) : bool := is_open (vs_breaker s) now.

Definition verdict_fresh (s : VerdictStore) (entry : string) (now max_age : Z) : bool :=
  if breaker_open s now then false
  else match vs_entries s !! entry ≫= ve_decisive_at with
       | Some at_ => (saturating_since now at_ <=? max_age)%Z
       | None => false
       end.

Definition display_verdict (s : VerdictStore) (entry : string) : option Verdict :=
  vs_entries s !! entry ≫= ve_display.

Definition show_verdict (e : VerdictEntry) (v : Verdict) : VerdictEntry :=
  mkEntry (Some v) None (ve_cached e) (ve_baseline e) (ve_journaled e) (ve_backoff e) (ve_first_seen e)
    (ve_prev_posture e) (ve_last_delta e) (ve_restored_recency e) (ve_decisive_at e).

Definition set_display (s : VerdictStore) (entry : string) (v : Verdict) : VerdictStore :=
  update s entry (fun e => show_verdict e v).

(** The resolved verdict is read back from the entry just written. *)
Definition resolve_display (s : VerdictStore) (entry : string) (this_pass : Verdict)
    : option Verdict * VerdictStore :=
  let s' := update s entry (fun e =>
    let carry_forward :=
      is_uncertain this_pass &&
      match ve_display e with Some prior => negb (is_uncertain prior) | None => false end in
    if carry_forward then e else show_verdict e this_pass) in
  (display_verdict s' entry, s').

Definition journaled (s : VerdictStore) (entry : string) : option string := vs_entries s !! entry ≫= ve_journaled.

Definition set_journaled (s : VerdictStore) (entry text : string) : VerdictStore :=
  update s entry (fun e =>
    mkEntry (ve_display e) (ve_restored e) (ve_cached e) (ve_baseline e) (Some text) (ve_backoff e)
      (ve_first_seen e) (ve_prev_posture e) (ve_last_delta e) (ve_restored_recency e) (ve_decisive_at e)).

Definition retain_present (s : VerdictStore) (present : gset string) : VerdictStore :=
  mkStore (filter (fun kv => kv.1 ∈ present) (vs_entries s)) (vs_breaker s) (vs_cache_slots s).
