(* ===== verification/VerdictFacts.v ===== *)
(** * What the verdict store promises

    What is displayed never regresses on a model outage, only a fresh decisive
    answer with a closed breaker counts as fresh, and the cache keeps the
    states most recently used. *)

From S2P Require Import Prelude Text Backoff Verdicts.
From Stdlib Require Import ZArith.

Lemma store_entry_update s entry f entry' :
  store_entry (update s entry f) entry' =
  if decide (entry = entry') then f (store_entry s entry) else store_entry s entry'.
Proof. unfold store_entry, update. simpl. destruct (decide _) as [->|H]; by simplify_map_eq. Qed.

Lemma store_entry_breaker s b n entry : store_entry (mkStore (vs_entries s) b n) entry = store_entry s entry.
Proof. done. Qed.

(** A field of an entry read through the store. *)
Lemma entry_field {A} (f : VerdictEntry -> option A) s entry :
  f entry_default = None -> vs_entries s !! entry ≫= f = f (store_entry s entry).
Proof. intros Hd. unfold store_entry. by destruct (vs_entries s !! entry). Qed.

(** ** The displayed verdict *)

(** One pass's verdict for each of some entries, in order. *)
Definition resolve_all (s : VerdictStore) (passes : list (string * Verdict)) : VerdictStore :=
  foldl (fun s '(entry, v) => (resolve_display s entry v).2) s passes.

Lemma resolve_all_cons s entry v passes :
  resolve_all s ((entry, v) :: passes) = resolve_all (resolve_display s entry v).2 passes.
Proof. done. Qed.

Definition decisive (v : Verdict) : bool := negb (is_uncertain v).

(** The last decisive verdict, or else the last one. *)
Definition last_shown (history : list Verdict) : option Verdict :=
  match last (List.filter decisive history) with Some v => Some v | None => last history end.

Definition verdicts_of (entry : string) (passes : list (string * Verdict)) : list Verdict :=
  (List.filter (fun p => bool_decide (p.1 = entry)) passes).*2.

Lemma last_shown_one v : last_shown [v] = Some v.
Proof. unfold last_shown. simpl. unfold decisive. by destruct (is_uncertain v). Qed.

Lemma last_shown_snoc history v :
  last_shown (history ++ [v]) =
  match last_shown history with
  | Some prior => if is_uncertain v && decisive prior then Some prior else Some v
  | None => Some v
  end.
Proof.
  unfold last_shown. rewrite List.filter_app. simpl. unfold decisive at 2. destruct (is_uncertain v) eqn:Hv; simpl.
  - rewrite app_nil_r, last_snoc. destruct (last (List.filter decisive history)) as [p|] eqn:Hp.
    + assert (decisive p = true) as ->; [|done]. apply last_Some_elem_of, elem_of_filter_b in Hp. naive_solver.
    + destruct (last history) as [p|] eqn:Hl; [|done]. destruct (decisive p) eqn:Hd; [|done].
      apply last_Some in Hl as [l ->]. rewrite List.filter_app in Hp. simpl in Hp. by rewrite Hd, last_snoc in Hp.
  - rewrite last_snoc. by repeat case_match.
Qed.

Lemma resolve_display_entry s entry v entry' :
  ve_display (store_entry (resolve_display s entry v).2 entry') =
  if decide (entry = entry')
  then last_shown (option_list (ve_display (store_entry s entry')) ++ [v])
  else ve_display (store_entry s entry').
Proof.
  unfold resolve_display. cbn [snd]. rewrite store_entry_update. destruct (decide _) as [->|]; [|done].
  rewrite last_shown_snoc. destruct (ve_display (store_entry s entry')) as [p|] eqn:Hp; simpl.
  - unfold last_shown, decisive. simpl. destruct (is_uncertain p) eqn:Hu; simpl; rewrite ?Hu; simpl; by destruct (is_uncertain v).
  - by rewrite andb_false_r.
Qed.

Lemma last_shown_absorb history rest :
  last_shown (option_list (last_shown history) ++ rest) = last_shown (history ++ rest).
Proof.
  induction rest as [|v rest IH] using rev_ind.
  - rewrite !app_nil_r. destruct (last_shown history); [apply last_shown_one|done].
  - by rewrite !app_assoc, !last_shown_snoc, IH.
Qed.

(** What an entry displays is the last decisive verdict any pass gave it,
    whatever inconclusive passes followed, and an inconclusive verdict only
    when it never had a decisive one; passes over other entries change nothing,
    and the verdict returned for a pass is the one then on display. *)
Theorem display_last_decisive s passes entry :
  display_verdict (resolve_all s passes) entry =
    last_shown (option_list (display_verdict s entry) ++ verdicts_of entry passes) /\
  (forall v, (resolve_display s entry v).1 = display_verdict (resolve_display s entry v).2 entry) /\
  (verdicts_of entry passes <> [] ->
   display_summary (resolve_all s passes) entry = summary <$> display_verdict (resolve_all s passes) entry).
Proof.
  assert (forall passes, display_verdict (resolve_all s passes) entry =
    last_shown (option_list (display_verdict s entry) ++ verdicts_of entry passes)) as Hshow.
  { clear. intros passes. unfold display_verdict. rewrite !entry_field by done. revert s.
    induction passes as [|[e v] passes IH]; intros s.
    - simpl. rewrite app_nil_r. destruct (ve_display _) as [p|]; [symmetry; apply last_shown_one|done].
    - rewrite resolve_all_cons, IH, resolve_display_entry. unfold verdicts_of. cbn [List.filter fst]. destruct (decide (e = entry)) as [->|Hne].
      + rewrite bool_decide_eq_true_2 by done. simpl. by rewrite last_shown_absorb, <- app_assoc.
      + by rewrite bool_decide_eq_false_2. }
  split; [apply Hshow|]. split; [done|]. intros Hv.
  assert (is_Some (display_verdict (resolve_all s passes) entry)) as [v Hd].
  { rewrite Hshow. destruct (verdicts_of entry passes) as [|v l] using rev_ind; [done|].
    rewrite app_assoc, last_shown_snoc. repeat case_match; eauto. }
  unfold display_summary, display_verdict in *. destruct (vs_entries (resolve_all s passes) !! entry) as [e|]; [|done].
  simpl in *. unfold entry_display_summary. by rewrite Hd.
Qed.

Lemma display_last_decisive_witness :
  let passes := [("e", Refuted "benign"); ("f", Uncertain "down"); ("e", Uncertain "down")] in
  verdicts_of "e" passes <> [] /\
  display_summary (resolve_all (with_cache_slots 32) passes) "e" = Some "not exploitable — benign".
Proof.
  assert (verdicts_of "e" [("e", Refuted "benign"); ("f", Uncertain "down"); ("e", Uncertain "down")] <> []) as H
    by discriminate.
  split; [exact H|].
  rewrite (proj2 (proj2 (display_last_decisive (with_cache_slots 32) _ "e")) H). vm_compute. reflexivity.
Defined.

(** ** Freshness *)

(** Everything that writes the store, the model's answers first. *)
Inductive StoreEvent :=
  | EDecisive (entry : string) (now : Z)
  | EInconclusive (entry : string) (now : Z)
  | ELookup (entry fingerprint : string)
  | ECache (entry fingerprint : string) (v : Verdict)
  | EBaseline (entry : string) (surface : JudgedSurface) (v : Verdict)
  | EDisplay (entry : string) (v : Verdict)
  | ERecency (entry : string) (posture : StoredPosture) (now : Z)
  | ESeed (entry text : string) (at_ : Z)
  | EJournaled (entry text : string)
  | ERetain (present : gset string).

Section Freshness.
Variable default_hash : string -> Z.

Definition store_step (s : VerdictStore) (ev : StoreEvent) : option VerdictStore :=
  match ev with
  | EDecisive entry now => Some (record_decisive s entry now)
  | EInconclusive entry now => record_inconclusive default_hash s entry now
  | ELookup entry fp => Some (cached_for s entry fp).2
  | ECache entry fp v => Some (cache_decisive s entry fp v)
  | EBaseline entry surface v => Some (set_baseline s entry surface v)
  | EDisplay entry v => Some (resolve_display s entry v).2
  | ERecency entry posture now => Some (record_recency s entry posture now)
  | ESeed entry text at_ => Some (seed_restored s entry text at_)
  | EJournaled entry text => Some (set_journaled s entry text)
  | ERetain present => Some (retain_present s present)
  end.

Fixpoint store_run (s : VerdictStore) (trace : list StoreEvent) : option VerdictStore :=
  match trace with
  | [] => Some s
  | ev :: trace => s' ← store_step s ev; store_run s' trace
  end.

(** When the entry last answered decisively, unless it has left the cluster. *)
Definition decisive_step (entry : string) (at_ : option Z) (ev : StoreEvent) : option Z :=
  match ev with
  | EDecisive e now => if decide (e = entry) then Some now else at_
  | ERetain present => if decide (entry ∈ present) then at_ else None
  | _ => at_
  end.

(** The failures, over all entries, since the last decisive answer. *)
Definition failures_step (run : list Z) (ev : StoreEvent) : list Z :=
  match ev with
  | EDecisive _ _ => []
  | EInconclusive _ now => now :: run
  | _ => run
  end.

(** The model looks down: three failures in a row, the last one recent. *)
Definition model_down (run : list Z) (now : Z) : bool :=
  match run with
  | last :: _ => (3 <=? length run) && (now <? last + BREAKER_COOLDOWN)%Z
  | [] => false
  end.

Record tracks (s : VerdictStore) (at_ : string -> option Z) (run : list Z) : Prop := {
  tr_at : forall e, ve_decisive_at (store_entry s e) = at_ e;
  tr_failures : cb_consecutive_failures (vs_breaker s) = Z.min u32_max (Z.of_nat (length run));
  tr_open : forall now, breaker_open s now = model_down run now;
  tr_backoff : forall e, (0 <= eb_failures (ve_backoff (store_entry s e)))%Z
}.

(** An update that leaves the answer clock and the backoff alone. *)
Lemma tracks_update s at_ run entry f :
  (forall e, ve_decisive_at (f e) = ve_decisive_at e /\ ve_backoff (f e) = ve_backoff e) ->
  tracks s at_ run -> tracks (update s entry f) at_ run.
Proof.
  intros Hf [Ha Hr Ho Hb]. split; [|done|done|]; intros e; rewrite store_entry_update;
    (destruct (decide _) as [->|]; [|done]); destruct (Hf (store_entry s e)) as [Hd Hk];
    by rewrite ?Hd, ?Hk.
Qed.

Lemma cached_for_update s entry fp :
  exists f, (forall e, ve_decisive_at (f e) = ve_decisive_at e /\ ve_backoff (f e) = ve_backoff e) /\
    ((cached_for s entry fp).2 = s \/ (cached_for s entry fp).2 = update s entry f).
Proof.
  unfold cached_for. destruct (vs_entries s !! entry) as [e|] eqn:He.
  - exists (fun e => set_cached e (lru_get (ve_cached e) fp).2). split; [done|]. right.
    unfold update, store_entry. rewrite He. simpl. by destruct (lru_get (ve_cached e) fp).
  - exists id. auto.
Qed.

Lemma backoff_total b now seed :
  (0 <= eb_failures b)%Z -> exists b', backoff_record_failure b now seed = Some b' /\ (0 <= eb_failures b')%Z.
Proof.
  intros Hb. unfold backoff_record_failure, saturating_succ.
  destruct (delay_spec (Z.min u32_max (eb_failures b + 1)) seed) as (j & Hj & ->); [schedule|].
  simpl. eexists. split; [reflexivity|]. simpl. schedule.
Qed.

Lemma is_open_failure b now now' :
  is_open (breaker_record_failure b now) now' =
  if (BREAKER_TRIP <=? saturating_succ (cb_consecutive_failures b))%Z then (now' <? now + BREAKER_COOLDOWN)%Z
  else is_open b now'.
Proof. unfold is_open, breaker_record_failure. simpl. by destruct (_ <=? _)%Z. Qed.

Lemma store_step_tracks s at_ run ev :
  tracks s at_ run ->
  exists s', store_step s ev = Some s' /\
    tracks s' (fun e => decisive_step e (at_ e) ev) (failures_step run ev).
Proof.
  intros Ht. pose proof Ht as [Ha Hr Ho Hb]. destruct ev as [entry now|entry now|entry fp| | | | | | |present];
    cbn [store_step failures_step];
    try (eexists; split; [reflexivity|]; by apply tracks_update).
  - eexists. split; [reflexivity|]. unfold record_decisive. split; [| done|done|].
    + intros e. rewrite store_entry_breaker, store_entry_update. simpl. destruct (decide _); [done|apply Ha].
    + intros e. rewrite store_entry_breaker, store_entry_update. destruct (decide _); [done|apply Hb].
  - unfold record_inconclusive.
    destruct (backoff_total (ve_backoff (store_entry s entry)) now (jitter_seed default_hash entry) (Hb entry))
      as (b & -> & Hb0). cbn [mbind option_bind]. eexists. split; [reflexivity|]. split.
    + intros e. rewrite store_entry_breaker, store_entry_update. destruct (decide _) as [->|]; by rewrite <- Ha.
    + simpl. rewrite Hr. unfold saturating_succ. schedule.
    + intros now'. unfold breaker_open. simpl. rewrite is_open_failure, Hr. fold (breaker_open s now').
      rewrite Ho. unfold saturating_succ, BREAKER_TRIP. destruct run as [|t1 [|t2 run]]; simpl.
      * done.
      * done.
      * rewrite (proj2 (Z.leb_le _ _)); [done|]. schedule.
    + intros e. rewrite store_entry_breaker, store_entry_update. destruct (decide _); [done|apply Hb].
  - eexists. split; [reflexivity|]. destruct (cached_for_update s entry fp) as (f & Hf & [->| ->]); [done|].
    by apply tracks_update.
  - eexists. split; [reflexivity|]. unfold resolve_display. cbn [snd]. apply tracks_update; [|done].
    intros e. by destruct (_ && _).
  - eexists. split; [reflexivity|]. apply tracks_update; [|done]. intros e. cbv zeta.
    match goal with |- context [let '(_, _) := ?x in _] => by destruct x end.
  - eexists. split; [reflexivity|].
    assert (forall e, store_entry (retain_present s present) e =
              if decide (e ∈ present) then store_entry s e else entry_default) as Hre.
    { intros e. unfold store_entry, retain_present. simpl. rewrite map_lookup_filter.
      destruct (vs_entries s !! e) eqn:He; simpl; [|by destruct (decide _)].
      destruct (decide (e ∈ present)); [by rewrite option_guard_True|by rewrite option_guard_False]. }
    split; [|done|done|]; intros e; rewrite Hre; simpl; destruct (decide (e ∈ present)); [apply Ha|done|apply Hb|done].
Qed.

Lemma store_run_tracks s at_ run trace :
  tracks s at_ run ->
  exists s', store_run s trace = Some s' /\
    tracks s' (fun e => foldl (decisive_step e) (at_ e) trace) (foldl failures_step run trace).
Proof.
  revert s at_ run. induction trace as [|ev trace IH]; intros s at_ run Ht; simpl; [by eauto|].
  destruct (store_step_tracks s at_ run ev Ht) as (s' & -> & Ht'). simpl. by apply IH.
Qed.

(** An entry's verdict counts as fresh for a new automatic action exactly
    when the model itself answered for that entry, decisively, no longer ago
    than allowed and since the entry was last present, and the model does not
    look down (three failures in a row over any entries, the last within the
    cooldown); serving from the cache, displaying, restoring or journaling
    never refreshes it, and no sequence of these operations panics. *)
Theorem verdict_fresh_exact slots trace :
  exists s, store_run (with_cache_slots slots) trace = Some s /\
    (forall entry now max_age,
       verdict_fresh s entry now max_age = true <->
       model_down (foldl failures_step [] trace) now = false /\
       exists at_, foldl (decisive_step entry) None trace = Some at_ /\ (Z.max 0 (now - at_) <= max_age)%Z) /\
    (forall now, breaker_open s now = model_down (foldl failures_step [] trace) now).
Proof.
  destruct (store_run_tracks (with_cache_slots slots) (fun _ => None) [] trace) as (s & Hs & [Ha Hr Ho Hb]).
  { split; intros; unfold store_entry; simpl; rewrite ?lookup_empty; done. }
  exists s. split; [done|]. split; [|done]. intros entry now max_age. unfold verdict_fresh, saturating_since.
  rewrite Ho, entry_field, Ha by done. destruct (model_down _ now); [naive_solver|].
  destruct (foldl (decisive_step entry) None trace) as [t|]; [|naive_solver]. rewrite Z.leb_le. naive_solver.
Qed.

End Freshness.

(** ** The cache *)

Inductive LruOp := LGet (fingerprint : string) | LInsert (fingerprint : string) (v : Verdict).

Definition op_key (op : LruOp) : string := match op with LGet fp => fp | LInsert fp _ => fp end.

Definition lru_op (cap : nat) (slots : VerdictLru) (op : LruOp) : VerdictLru :=
  match op with LGet fp => (lru_get slots fp).2 | LInsert fp v => lru_insert slots fp v cap end.

Definition lru_run (cap : nat) (slots : VerdictLru) (ops : list LruOp) : VerdictLru :=
  foldl (lru_op cap) slots ops.

(** One slot per fingerprint, no more slots than the capacity. *)
Definition lru_ok (cap : nat) (slots : VerdictLru) : Prop := NoDup slots.*1 /\ length slots <= Nat.max cap 1.

Lemma position_remove_spec fp slots :
  match position_remove fp slots with
  | Some (hit, rest) => hit.1 = fp /\ exists pre post, slots = pre ++ hit :: post /\ rest = pre ++ post
  | None => fp ∉ slots.*1
  end.
Proof.
  induction slots as [|s slots IH]; simpl; [apply not_elem_of_nil|]. case_bool_decide as Hs.
  - split; [done|]. by exists [], slots.
  - destruct (position_remove fp slots) as [[hit rest]|]; simpl.
    + destruct IH as (Hh & pre & post & -> & ->). split; [done|]. by exists (s :: pre), post.
    + rewrite not_elem_of_cons. auto.
Qed.

Lemma lru_get_perm slots fp : (lru_get slots fp).2 ≡ₚ slots.
Proof.
  unfold lru_get. pose proof (position_remove_spec fp slots) as H.
  destruct (position_remove fp slots) as [[hit rest]|]; [|done]. destruct H as (_ & pre & post & -> & ->). simpl.
  by rewrite Permutation_middle.
Qed.

Lemma insert_rest fp (slots : VerdictLru) x :
  x ∈ List.filter (fun s => negb (bool_decide (s.1 = fp))) slots <-> x ∈ slots /\ x.1 <> fp.
Proof. rewrite elem_of_filter_b, negb_true_iff, bool_decide_eq_false. tauto. Qed.

Lemma lru_op_ok cap slots op : lru_ok cap slots -> lru_ok cap (lru_op cap slots op).
Proof.
  intros [Hn Hl]. destruct op as [fp|fp v]; simpl.
  - unfold lru_ok. by rewrite (lru_get_perm slots fp).
  - unfold lru_insert, lru_ok. rewrite length_take. split; [|lia].
    rewrite fmap_take. eapply sublist_NoDup; [|apply sublist_take]. simpl. apply NoDup_cons.
    split; [|by apply NoDup_fmap_filter]. intros (x & -> & [_ Hx]%insert_rest)%list_elem_of_fmap. done.
Qed.

(** Where a fingerprint sits: every slot before it was touched since. *)
Definition sits (fp : string) (v : Verdict) (touched : gset string) (slots : VerdictLru) : Prop :=
  exists pre post, slots = pre ++ (fp, v) :: post /\ forall x, x ∈ pre -> x.1 ∈ touched.

(** The verdict last inserted for a fingerprint. *)
Definition last_insert (fp : string) (v : Verdict) (op : LruOp) : Verdict :=
  match op with LInsert fp' v' => if decide (fp' = fp) then v' else v | LGet _ => v end.

Definition touch (fp : string) (touched : gset string) (op : LruOp) : gset string :=
  if decide (op_key op = fp) then touched else {[op_key op]} ∪ touched.

Lemma sits_length fp v (touched : gset string) slots pre post cap :
  lru_ok cap slots -> slots = pre ++ (fp, v) :: post -> (forall x, x ∈ pre -> x.1 ∈ touched) ->
  length pre <= size touched.
Proof.
  intros [Hn _] -> Hpre. rewrite <- (length_fmap fst pre).
  rewrite fmap_app in Hn. apply NoDup_app in Hn as (Hn & _ & _).
  rewrite <- (size_list_to_set (C := gset string) pre.*1) by done. apply subseteq_size.
  intros x Hx. apply elem_of_list_to_set, list_elem_of_fmap in Hx as (y & -> & Hy). auto.
Qed.

Lemma lru_op_sits cap fp v touched slots op :
  lru_ok cap slots -> sits fp v touched slots -> size (touch fp touched op) < Nat.max cap 1 ->
  sits fp (last_insert fp v op) (touch fp touched op) (lru_op cap slots op).
Proof.
  intros Hok (pre & post & -> & Hpre) Hsize. unfold touch in *. pose proof Hok as [Hn _].
  rewrite fmap_app, fmap_cons in Hn. apply NoDup_app in Hn as (Hnp & Hdis & Hnq).
  apply NoDup_cons in Hnq as [Hfp _]. simpl in *.
  destruct op as [k|k w]; simpl in *.
  - unfold lru_get. pose proof (position_remove_spec k (pre ++ (fp, v) :: post)) as H.
    destruct (position_remove k _) as [[hit rest]|].
    + destruct H as (Hk & pre' & post' & Heq & ->). simpl. destruct (decide (k = fp)) as [->|Hne].
      * exists [], (pre' ++ post'). split; [|by intros ? ?%not_elem_of_nil].
        assert (hit ∈ pre ++ (fp, v) :: post) as Hin by (rewrite Heq; set_solver).
        rewrite elem_of_app, elem_of_cons in Hin. destruct Hin as [Hin|[->|Hin]]; [|done|].
        -- exfalso. apply (Hdis fp); [|left]. rewrite <- Hk. by apply list_elem_of_fmap_2.
        -- exfalso. apply Hfp. rewrite <- Hk. by apply list_elem_of_fmap_2.
      * destruct hit as [hk hv]. simpl in Hk. subst hk.
        apply app_eq_app in Heq as (mid & [[-> Hm]|[-> Hm]]); destruct mid as [|m mid]; simpl in Hm; simplify_eq/=.
        -- exists ((k, hv) :: pre' ++ mid), post. split; [simpl; by rewrite <- ?app_assoc|].
           intros x [->|Hx]%elem_of_cons; [set_solver|]. apply elem_of_union_r, Hpre.
           rewrite elem_of_app in *. rewrite elem_of_cons. tauto.
        -- exists ((k, hv) :: pre), (mid ++ post'). split; [simpl; by rewrite <- ?app_assoc|].
           intros x [->|Hx]%elem_of_cons; [set_solver|]. by apply elem_of_union_r, Hpre.
    + exists pre, post. split; [done|]. intros x Hx. destruct (decide _); set_solver.
  - unfold lru_insert. rewrite List.filter_app. destruct (decide (k = fp)) as [->|Hne].
    + exists [], (take (Nat.max cap 1 - 1) (List.filter (fun s => negb (bool_decide (s.1 = fp))) (pre ++ (fp, v) :: post))).
      split; [|by intros ? ?%not_elem_of_nil]. rewrite List.filter_app.
      destruct (Nat.max cap 1) eqn:E; [lia|]. simpl. by rewrite Nat.sub_0_r.
    + simpl. rewrite bool_decide_eq_false_2 by done. simpl.
      set (front := List.filter _ pre). set (back := List.filter _ post).
      assert (forall x, x ∈ front -> x ∈ pre) as Hf by (intros x [_ Hx]%elem_of_filter_b; done).
      assert (forall x, x ∈ (k, w) :: front -> x.1 ∈ {[k]} ∪ touched) as Htouch.
      { intros x [->|Hx]%elem_of_cons; [set_solver|]. apply elem_of_union_r. auto. }
      exists ((k, w) :: front), (take (Nat.max cap 1 - S (S (length front))) back). split; [|done].
      change ((k, w) :: front ++ (fp, v) :: back) with (((k, w) :: front) ++ (fp, v) :: back).
      assert (length ((k, w) :: front) <= size ({[k]} ∪ touched)) as Hlen.
      { eapply (sits_length fp v _ (((k, w) :: front) ++ [(fp, v)]) _ [] (S (S (length front)))); [|done|done].
        split; [|rewrite length_app; simpl; lia]. rewrite fmap_app. apply NoDup_app. split; [|split].
        - simpl. apply NoDup_cons. split; [|by apply NoDup_fmap_filter].
          intros (x & -> & Hx)%list_elem_of_fmap. by apply insert_rest in Hx as [_ Hx].
        - simpl. intros x Hx ->%list_elem_of_singleton. apply elem_of_cons in Hx as [Hx|Hx]; [done|].
          apply list_elem_of_fmap in Hx as (y & Hy & Hin).
          apply (Hdis fp); [|left]. rewrite Hy. by apply list_elem_of_fmap_2, Hf.
        - apply NoDup_singleton. }
      rewrite take_app_ge by (simpl in *; lia). f_equal. simpl length in *.
      destruct (Nat.max cap 1 - S (length front)) as [|n] eqn:En; [simpl in *; lia|]. simpl. f_equal. f_equal. lia.
Qed.

Lemma lru_run_sits cap fp v touched slots ops :
  lru_ok cap slots -> sits fp v touched slots -> size (foldl (touch fp) touched ops) < Nat.max cap 1 ->
  sits fp (foldl (last_insert fp) v ops) (foldl (touch fp) touched ops) (lru_run cap slots ops).
Proof.
  assert (forall ops t, size t <= size (foldl (touch fp) t ops)) as Hmono.
  { clear. induction ops as [|op ops IH]; intros t; simpl; [done|]. etrans; [|apply IH]. unfold touch.
    destruct (decide _); [done|]. apply subseteq_size. set_solver. }
  revert v touched slots. induction ops as [|op ops IH]; intros v touched slots Hok Hs Hsize; simpl in *; [done|].
  apply IH; [by apply lru_op_ok| |done]. apply lru_op_sits; [done|done|]. eapply Nat.le_lt_trans; [apply Hmono|done].
Qed.

(** The verdict cache keeps a judged state that is still in use: it never
    holds two slots for a fingerprint nor more slots than its capacity, and a
    state just judged is still served, with the verdict last stored for it,
    after any lookups and insertions that touch fewer other fingerprints than
    the capacity. *)
Theorem lru_retains cap slots fp v ops :
  lru_ok cap slots ->
  lru_ok cap (lru_run cap slots ops) /\
  (size (foldl (touch fp) ∅ ops) < Nat.max cap 1 ->
   (lru_get (lru_run cap (lru_insert slots fp v cap) ops) fp).1 = Some (foldl (last_insert fp) v ops)).
Proof.
  intros Hok. split.
  - revert slots Hok. induction ops as [|op ops IH]; intros slots Hok; simpl; [done|]. by apply IH, lru_op_ok.
  - intros Hsize. pose proof (lru_op_ok cap slots (LInsert fp v) Hok) as Hok'. simpl in Hok'.
    assert (sits fp v ∅ (lru_insert slots fp v cap)) as Hs.
    { unfold lru_insert. destruct (Nat.max cap 1) eqn:E; [lia|].
      exists [], (take n (List.filter (fun s => negb (bool_decide (s.1 = fp))) slots)).
      split; [done|]. by intros ? ?%not_elem_of_nil. }
    pose proof (lru_run_sits cap fp v ∅ _ ops Hok' Hs Hsize) as (pre & post & Heq & _).
    assert (lru_ok cap (lru_run cap (lru_insert slots fp v cap) ops)) as [Hn _].
    { clear -Hok'. revert Hok'. generalize (lru_insert slots fp v cap). induction ops as [|op ops IH]; intros l Hl;
        simpl; [done|]. by apply IH, lru_op_ok. }
    unfold lru_get. pose proof (position_remove_spec fp (lru_run cap (lru_insert slots fp v cap) ops)) as H.
    destruct (position_remove fp _) as [[hit rest]|].
    + destruct H as (Hh & pre' & post' & Heq' & _). simpl. f_equal.
      assert (hit = (fp, foldl (last_insert fp) v ops)) as ->; [|done].
      apply (NoDup_fmap_eq fst _ _ _ Hn); [rewrite Heq'; set_solver|rewrite Heq; set_solver|done].
    + exfalso. apply H. rewrite Heq, fmap_app. set_solver.
Qed.

(** Evidence that flips between two states keeps hitting a two-slot cache. *)
Lemma lru_retains_witness :
  let ops := [LInsert "B" (Refuted "b"); LGet "A"; LInsert "B" (Refuted "b2"); LGet "B"] in
  lru_ok 2 [] /\ (lru_get (lru_run 2 (lru_insert [] "A" (Refuted "a") 2) ops) "A").1 = Some (Refuted "a").
Proof.
  assert (lru_ok 2 []) as Hok by (split; [constructor|simpl; lia]).
  split; [exact Hok|].
  apply (proj2 (lru_retains 2 [] "A" (Refuted "a")
    [LInsert "B" (Refuted "b"); LGet "A"; LInsert "B" (Refuted "b2"); LGet "B"] Hok)).
  vm_compute. repeat constructor.
Defined.
