(* ===== verification/Incident.v ===== *)
(** * The cut-choice contract (engine/src/engine/reason/adjudicate/incident/)

    menu.rs: the deterministic menu of cuts for a chain; parse.rs: the model's
    reply against it; guards.rs: the assessment/cuts consistency check; mod.rs:
    the bridge to the verdict. From engine/adj_pass.rs: the menu of an entry,
    the workloads on its paths, the attack set of the standing decisions and
    the replay lock of a restored decision. Then
    what a reply can become. *)

From S2P Require Import Prelude Text Json PetGraph Attack Behavior Classify Graph Chain Boundary Prove Respond Actuator Render.
From S2P Require Import Verdicts.

(** ** The menu *)

Record MenuLine := mkLine {
  ml_node : NodeKey;
  ml_action : ProposedAction;
  ml_cut : Link;
  ml_cut_signature : string;
  ml_blast_note : string
}.

Record Menu := mkMenu { mn_selectable : list MenuLine; mn_uncontainable : list NodeKey }.

Definition resolve (m : Menu) (n : NodeKey) : option ChosenCut :=
  (fun l => mkChosen (ml_node l) (ml_action l) (ml_cut l) (ml_cut_signature l)) <$>
  List.find (fun l => bool_decide (ml_node l = n)) (mn_selectable m).

Definition node_for (m : Menu) (normalized : string) : option NodeKey :=
  ml_node <$> List.find (fun l => bool_decide (ml_node l = normalized)) (mn_selectable m).

Definition menu_normalize (selectable : list MenuLine) (uncontainable : list NodeKey) : Menu :=
  let selectable :=
    dedup_by (fun a b => bool_decide (ml_node a = ml_node b))
      (sort_by (fun a b => str_leb (ml_node a) (ml_node b)) selectable) in
  let uncontainable := dedup_by (fun a b : string => bool_decide (a = b)) (sort_by str_leb uncontainable) in
  mkMenu selectable
    (List.filter (fun n => negb (existsb (fun l => bool_decide (ml_node l = n)) selectable)) uncontainable).

Definition blast_note (b : BlastRadius) : string :=
  if br_reachability_incomplete b then "blast radius: reachability not fully modeled"
  else if bool_decide (br_alive_collateral b = []) then "blast radius: no alive collateral"
  else "blast radius: " +:+ pretty (length (br_alive_collateral b)) +:+ " alive workload(s) affected".

Definition CONTAIN_NODE_NOTE : string :=
  "damage-limitation, not a clean sever: the cordon stops scheduler-driven spread, the co-resident denies stop lateral use of the node's other pods, and drain/reimage/rotate is a human act".

Definition CONTAIN_NODE_SELF_SEVERANCE_SUFFIX : string :=
  "; this node also hosts one of protector's OWN components — containing it will sever protector's own visibility/control of this node until a human intervenes".

Section Menu.
Context {G : Type} `{SG : !StableGraph G Node Edge}.
Implicit Types (sg : SecurityGraph G) (model_attack : gset NodeKey).

Definition boundary_break_holds (n : NodeKey) sg model_attack : bool :=
  match index_of sg n with Some idx => boundary_break sg idx model_attack | None => false end.

Definition escalate (n : NodeKey) (fallback : option (Link * ProposedAction)) sg model_attack
    : option (Link * ProposedAction) :=
  match (if boundary_break_holds n sg model_attack then contain_node_link sg n else None) with
  | Some cut => Some (cut, ContainNode)
  | None =>
      match fallback with
      | Some (cut, action) =>
          if is_additive_live action && is_reversible action then Some (cut, action) else None
      | None => None
      end
  end.

Definition contain_node_note (cut : Link) sg : string :=
  if self_severance sg (l_from cut) then CONTAIN_NODE_NOTE +:+ CONTAIN_NODE_SELF_SEVERANCE_SUFFIX
  else CONTAIN_NODE_NOTE.

Definition cut_blast_note (cut : Link) (action : ProposedAction) sg (health : HealthReport) : string :=
  if bool_decide (action = ContainNode) then contain_node_note cut sg
  else blast_note (predict_blast_radius (mkMitigation cut action []) sg health).

Definition menu_line (n : NodeKey) (cut : Link) (action : ProposedAction) sg (health : HealthReport) : MenuLine :=
  mkLine n action cut (cut_signature cut) (cut_blast_note cut action sg health).

(** The candidates of one chain, each with its resolved mechanism. *)
Definition menu_candidates (c : ProvenChain) sg model_attack : list (NodeKey * option (Link * ProposedAction)) :=
  (pc_entry c, escalate (pc_entry c) (containment_for c) sg model_attack) ::
  ((fun t => (qt_node t,
     escalate (qt_node t)
       ((fun cut => (cut, QuarantineWorkload)) <$> quarantine_workload_link (qt_node t) (qt_labels t))
       sg model_attack)) <$>
   List.filter (fun t => negb (bool_decide (qt_node t = pc_entry c))) (pc_quarantine_targets c)).

Definition build_menu (c : ProvenChain) sg (health : HealthReport) model_attack : Menu :=
  let candidates := menu_candidates c sg model_attack in
  menu_normalize
    (omap (fun '(n, resolved) => '(cut, action) ← resolved; Some (menu_line n cut action sg health)) candidates)
    (omap (fun '(n, resolved) => match resolved with None => Some n | Some _ => None end) candidates).

(** *** adj_pass.rs: the menu of one entry over all its chains *)

Definition entry_menu (chains : list ProvenChain) sg (health : HealthReport) model_attack : Menu :=
  let menus := (fun c => build_menu c sg health model_attack) <$> chains in
  menu_normalize (concat (mn_selectable <$> menus)) (concat (mn_uncontainable <$> menus)).

End Menu.

Definition downstream_workloads (entry : NodeKey) (chains : list ProvenChain) : list NodeKey :=
  sort_dedup id
    (List.filter (fun k => negb (bool_decide (k = entry)) && bool_decide (kind_of k = "workload"))
      (concat ((fun l => [l_from l; l_to l]) <$> concat (concat (pc_paths <$> chains))))).

Definition model_attack_set (decisions : gmap string IncidentDecision) : gset NodeKey :=
  list_to_set (concat ((fun d => cc_node <$> d_cuts d) <$>
    List.filter (fun d => bool_decide (d_assessment d = AAttack)) (btree_values decisions))).

(** ** The reply *)

Fixpoint find_char (c : Ascii.ascii) (s : string) : option nat :=
  match s with
  | EmptyString => None
  | String a s' => if Ascii.eqb a c then Some 0 else S <$> find_char c s'
  end.

Fixpoint rfind_char (c : Ascii.ascii) (s : string) : option nat :=
  match s with
  | EmptyString => None
  | String a s' =>
      match rfind_char c s' with
      | Some i => Some (S i)
      | None => if Ascii.eqb a c then Some 0 else None
      end
  end.

(** [&s[start..=end]] with both ends inside [s]: it panics, here [None], when
    the range is reversed. *)
Definition slice_inclusive (s : string) (start end_ : nat) : option string :=
  if start <=? S end_ then Some (String.substring start (S end_ - start) s) else None.

Definition open_brace : Ascii.ascii := Ascii.ascii_of_nat 123.
Definition close_brace : Ascii.ascii := Ascii.ascii_of_nat 125.

Definition parse_assessment (object : Json) : option Assessment :=
  match trim <$> as_str (json_index object "assessment") with
  | Some s =>
      if bool_decide (s = "attack") then Some AAttack
      else if bool_decide (s = "no_attack") then Some ANoAttack
      else if bool_decide (s = "uncertain") then Some AUncertain
      else None
  | None => None
  end.

Definition parse_contain (object : Json) : option (list string) :=
  match json_get object "contain" with
  | None => Some []
  | Some (JArr items) => mapM as_str items
  | Some _ => None
  end.

Definition normalize_reply (raw : string) : string :=
  let s := trim raw in
  let s := default s (strip_prefix "<<<" s) in
  let s := default s (strip_suffix ">>>" s) in
  trim s.

Section Parse.
Variable from_str : string -> option Json.

(** The outer [None] is a panic. *)
Definition extract_object (reply : string) : option (option Json) :=
  match find_char open_brace reply, rfind_char close_brace reply with
  | Some start, Some end_ => from_str <$> slice_inclusive reply start end_
  | _, _ => Some None
  end.

Definition is_hard_parse_failure (reply : string) : option bool :=
  (fun o => match o with Some _ => false | None => true end) <$> extract_object reply.

Definition decide_reply (object : Json) (menu : Menu) : IncidentDecision :=
  let reason := default "" (as_str (json_index object "reason")) in
  match parse_assessment object with
  | None => uncertain reason
  | Some assessment =>
      match parse_contain object with
      | None => uncertain reason
      | Some raw_contain =>
          match mapM (fun raw => node_for menu (normalize_reply raw)) raw_contain with
          | None => uncertain reason
          | Some nodes =>
              let nodes := sort_dedup id nodes in
              if negb (bool_decide (assessment = AAttack)) && negb (bool_decide (nodes = []))
              then uncertain reason
              else mkDecision assessment reason (omap (resolve menu) nodes)
          end
      end
  end.

Definition parse_incident_decision (reply : string) (menu : Menu) : option IncidentDecision :=
  match extract_object reply with
  | None => None
  | Some None => Some (uncertain "unparseable model reply")
  | Some (Some object) => Some (decide_reply object menu)
  end.

End Parse.

Definition guard_assessment_cuts_consistency (d : IncidentDecision) : IncidentDecision :=
  if bool_decide (d_assessment d = AAttack) || match d_cuts d with [] => true | _ => false end then d
  else uncertain "assessment/cuts inconsistency: a non-attack assessment named cuts".

Definition to_verdict (d : IncidentDecision) : Verdict :=
  match d_assessment d with
  | AAttack => Exploitable (d_reason d)
  | ANoAttack => Refuted (d_reason d)
  | AUncertain => Uncertain (d_reason d)
  end.

(** ** The replay lock of a restored decision (adj_pass.rs, journal.rs) *)

Record JournaledCut := mkJournaledCut { jc_node : string; jc_cut_signature : string }.

Record RestoredDecision := mkRestored {
  rd_fingerprint : string;
  rd_assessment : Assessment;
  rd_reason : string;
  rd_cuts : list JournaledCut
}.

Definition rearm_restored_decision (restored : RestoredDecision) (current_fingerprint : string)
    (current_menu : Menu) : option IncidentDecision :=
  if negb (bool_decide (rd_fingerprint restored = current_fingerprint)) then None
  else
    cuts ← mapM (fun cut =>
      resolved ← resolve current_menu (jc_node cut);
      if bool_decide (cc_cut_signature resolved = jc_cut_signature cut) then Some resolved else None)
      (rd_cuts restored);
    Some (mkDecision (rd_assessment restored) (rd_reason restored) cuts).

(** ** Menus *)

(** A line as the cut it resolves to. *)
Definition line_cut (l : MenuLine) : ChosenCut := mkChosen (ml_node l) (ml_action l) (ml_cut l) (ml_cut_signature l).

(** One line per node, in order, each under its cut's signature. *)
Record menu_ok (m : Menu) : Prop := {
  mo_ascend : keys_ascend ml_node (mn_selectable m);
  mo_signed : forall l, l ∈ mn_selectable m -> ml_cut_signature l = cut_signature (ml_cut l);
  mo_disjoint : forall n, n ∈ mn_uncontainable m -> n ∉ ml_node <$> mn_selectable m
}.

Lemma find_key {A} (key : A -> string) (l : list A) k :
  match List.find (fun x => bool_decide (key x = k)) l with
  | Some x => x ∈ l /\ key x = k
  | None => k ∉ key <$> l
  end.
Proof.
  destruct (List.find _ l) as [x|] eqn:E.
  - apply find_some in E as [H Hk]. apply bool_decide_eq_true in Hk. split; [by apply list_elem_of_In|done].
  - intros (x & -> & Hx%list_elem_of_In)%list_elem_of_fmap. apply (find_none _ _ E) in Hx.
    by rewrite bool_decide_eq_true_2 in Hx.
Qed.

Lemma resolve_spec m n cut :
  keys_ascend ml_node (mn_selectable m) ->
  resolve m n = Some cut <-> exists l, l ∈ mn_selectable m /\ ml_node l = n /\ cut = line_cut l.
Proof.
  intros Ha. unfold resolve. pose proof (find_key ml_node (mn_selectable m) n) as H.
  destruct (List.find _ _) as [x|]; simpl.
  - destruct H as [Hx Hk]. split; [intros [= <-]; by exists x|]. intros (l & Hl & Hn & ->).
    by rewrite (NoDup_fmap_eq ml_node _ x l (keys_ascend_nodup _ _ Ha) Hx Hl) by congruence.
  - split; [done|]. intros (l & Hl & <- & _). exfalso. by apply H, list_elem_of_fmap_2.
Qed.

Lemma resolve_elem m n cut : resolve m n = Some cut -> exists l, l ∈ mn_selectable m /\ ml_node l = n /\ cut = line_cut l.
Proof.
  unfold resolve. pose proof (find_key ml_node (mn_selectable m) n) as H.
  destruct (List.find _ _) as [x|]; simpl; [|done]. intros [= <-]. exists x. naive_solver.
Qed.

Lemma node_for_spec m s n : node_for m s = Some n <-> n = s /\ s ∈ ml_node <$> mn_selectable m.
Proof.
  unfold node_for. pose proof (find_key ml_node (mn_selectable m) s) as H. destruct (List.find _ _) as [x|]; simpl.
  - destruct H as [Hx <-]. split; [intros [= <-]; split; [done|by apply list_elem_of_fmap_2]|]. by intros [-> _].
  - naive_solver.
Qed.

Lemma menu_normalize_ascend sel unc : keys_ascend ml_node (mn_selectable (menu_normalize sel unc)).
Proof. apply (sort_dedup_ascend ml_node). Qed.

Lemma menu_normalize_sel sel unc l : l ∈ mn_selectable (menu_normalize sel unc) -> l ∈ sel.
Proof. apply (sort_dedup_in ml_node). Qed.

Lemma menu_normalize_nodes sel unc n :
  n ∈ ml_node <$> mn_selectable (menu_normalize sel unc) <-> n ∈ ml_node <$> sel.
Proof. apply (sort_dedup_key ml_node). Qed.

Lemma menu_normalize_unc sel unc n :
  n ∈ mn_uncontainable (menu_normalize sel unc) <-> n ∈ unc /\ n ∉ ml_node <$> sel.
Proof.
  rewrite <- (menu_normalize_nodes sel unc). unfold menu_normalize. simpl.
  rewrite elem_of_filter_b, negb_true_iff, (sort_dedup_id_elem unc n).
  fold (sort_dedup ml_node sel). rewrite <- not_true_iff_false, existsb_exists, list_elem_of_fmap.
  setoid_rewrite <- list_elem_of_In. setoid_rewrite bool_decide_eq_true. naive_solver.
Qed.

Section MenuFacts.
Context {G : Type} `{SG : !StableGraph G Node Edge}.
Implicit Types (sg : SecurityGraph G) (model_attack : gset NodeKey).

(** What a resolved mechanism is: the node cut on a proven boundary break, and
    otherwise the pod-scoped one, which must be live and reversible. *)
Lemma escalate_spec n fallback sg model_attack cut action :
  escalate n fallback sg model_attack = Some (cut, action) <->
  (boundary_break_holds n sg model_attack = true /\ contain_node_link sg n = Some cut /\ action = ContainNode) \/
  ((boundary_break_holds n sg model_attack = false \/ contain_node_link sg n = None) /\
   fallback = Some (cut, action) /\ is_additive_live action = true /\ is_reversible action = true).
Proof.
  unfold escalate. destruct (boundary_break_holds n sg model_attack); [destruct (contain_node_link sg n)|];
    try naive_solver; destruct fallback as [[c a]|]; try naive_solver;
    destruct (is_additive_live a) eqn:E1, (is_reversible a) eqn:E2; simpl; naive_solver congruence.
Qed.

Lemma build_menu_line c sg health model_attack l :
  l ∈ mn_selectable (build_menu c sg health model_attack) ->
  l = menu_line (ml_node l) (ml_cut l) (ml_action l) sg health /\
  (ml_node l, Some (ml_cut l, ml_action l)) ∈ menu_candidates c sg model_attack.
Proof.
  intros Hl%menu_normalize_sel. apply list_elem_of_omap in Hl as ([n [[cut action]|]] & Hc & Hl); [|done].
  injection Hl as <-. done.
Qed.

(** The cut-choice menu of a chain is canonical and complete: one line per
    node in ascending order, carrying that node's own resolved cut under its
    signature; every candidate, the entry and each other compromised workload
    of the chain, is either selectable or listed as not containable, never
    both; and a line offers the node cut exactly when the node's pod boundary
    is proven broken and its host known, any other line being a live,
    reversible, pod-scoped cut. *)
Theorem build_menu_exact c sg health model_attack :
  let m := build_menu c sg health model_attack in
  let candidates := menu_candidates c sg model_attack in
  menu_ok m /\
  (forall n, n ∈ ml_node <$> mn_selectable m <-> exists r, (n, Some r) ∈ candidates) /\
  (forall n, n ∈ mn_uncontainable m <-> n ∈ candidates.*1 /\ ~ exists r, (n, Some r) ∈ candidates) /\
  (forall l, l ∈ mn_selectable m ->
     (ml_node l, Some (ml_cut l, ml_action l)) ∈ candidates /\
     (ml_action l = ContainNode <->
        boundary_break_holds (ml_node l) sg model_attack = true /\ is_Some (contain_node_link sg (ml_node l))) /\
     (ml_action l <> ContainNode -> is_additive_live (ml_action l) = true /\ is_reversible (ml_action l) = true)).
Proof.
  intros m candidates.
  assert (forall n, n ∈ ml_node <$> omap (fun '(n, resolved) =>
            '(cut, action) ← resolved; Some (menu_line n cut action sg health)) candidates <->
          exists r, (n, Some r) ∈ candidates) as Hsel.
  { intros n. rewrite list_elem_of_fmap. setoid_rewrite list_elem_of_omap. split.
    - intros (l & -> & [n' [[cut action]|]] & Hc & [= <-]). eauto.
    - intros [[cut action] Hc]. exists (menu_line n cut action sg health). split; [done|].
      by exists (n, Some (cut, action)). }
  split; [split|split; [|split]].
  - apply menu_normalize_ascend.
  - intros l Hl. apply build_menu_line in Hl as [-> _]. done.
  - intros n [_ Hn]%menu_normalize_unc. contradict Hn. by apply menu_normalize_nodes in Hn.
  - intros n. rewrite <- Hsel. apply menu_normalize_nodes.
  - intros n. rewrite <- Hsel. etrans; [apply menu_normalize_unc|].
    rewrite list_elem_of_omap, (list_elem_of_fmap fst). split.
    + intros [([n' [?|]] & Hc & [= ->]) Hn]. split; [by exists (n, None)|done].
    + intros [([n' r] & -> & Hc) Hn]. split; [|done]. exists (n', r). split; [done|].
      destruct r as [r|]; [|done]. exfalso. by apply Hn, Hsel; exists r.
  - intros l Hl. pose proof (build_menu_line _ _ _ _ _ Hl) as [_ Hc]. split; [done|].
    assert (exists fallback, escalate (ml_node l) fallback sg model_attack = Some (ml_cut l, ml_action l)) as [f Hf].
    { unfold menu_candidates in Hc. apply elem_of_cons in Hc as [[= -> Hf]|(t & [= -> Hf] & _)%list_elem_of_fmap]; eauto. }
    apply escalate_spec in Hf as [(Hb & Hk & ->)|(Hno & -> & Ha & Hr)].
    + rewrite Hk. naive_solver.
    + split; [|done]. split; [intros He; by rewrite He in Ha|]. intros [Hb [k Hk]]. destruct Hno; congruence.
Qed.

Lemma entry_menu_ok chains sg health model_attack : menu_ok (entry_menu chains sg health model_attack).
Proof.
  split.
  - apply menu_normalize_ascend.
  - intros l Hl%menu_normalize_sel. apply elem_of_concat in Hl as (ls & Hls & Hl).
    apply list_elem_of_fmap in Hls as (m & -> & Hm). apply list_elem_of_fmap in Hm as (c & -> & _).
    apply build_menu_line in Hl as [-> _]. done.
  - intros n [_ Hn]%menu_normalize_unc. contradict Hn. by apply menu_normalize_nodes in Hn.
Qed.

End MenuFacts.

(** ** Replies *)

(** Every cut of a decision is one the menu resolved, each node once, and only
    an attack carries any. *)
Record grounded (m : Menu) (d : IncidentDecision) : Prop := {
  gr_cuts : forall cut, cut ∈ d_cuts d -> exists l, l ∈ mn_selectable m /\ cut = line_cut l;
  gr_once : NoDup (cc_node <$> d_cuts d);
  gr_attack : d_cuts d <> [] -> d_assessment d = AAttack
}.

Lemma uncertain_grounded m reason : grounded m (uncertain reason).
Proof. by split; [intros cut ?%not_elem_of_nil|constructor|]. Qed.

(** Cuts of a grounded decision are filed under their own signatures, as the
    ledger expects of its decisions. *)
Lemma grounded_signed m d cut :
  menu_ok m -> grounded m d -> cut ∈ d_cuts d -> cc_cut_signature cut = cut_signature (cc_cut cut).
Proof. intros [_ Hs _] [Hc _ _] Hcut. destruct (Hc cut Hcut) as (l & Hl & ->). by apply Hs. Qed.

Lemma resolve_nodes m (ns : list NodeKey) :
  (forall n, n ∈ ns -> n ∈ ml_node <$> mn_selectable m) -> cc_node <$> omap (resolve m) ns = ns.
Proof.
  induction ns as [|n ns IH]; intros H; [done|].
  assert (exists cut, resolve m n = Some cut /\ cc_node cut = n) as (cut & Hr & Hn).
  { specialize (H n ltac:(by left)). unfold resolve. pose proof (find_key ml_node (mn_selectable m) n) as Hf.
    destruct (List.find _ _) as [l|]; [|done]. eexists. split; [reflexivity|]. apply Hf. }
  simpl. rewrite Hr. simpl. rewrite Hn. f_equal. apply IH. intros n' Hn'. apply H. by right.
Qed.

Lemma mapM_node_for m raws ns :
  mapM (fun raw => node_for m (normalize_reply raw)) raws = Some ns ->
  ns = normalize_reply <$> raws /\ forall n, n ∈ ns -> n ∈ ml_node <$> mn_selectable m.
Proof.
  rewrite mapM_Some. induction 1 as [|raw n raws ns Hr _ [-> IH]]; [split; [done|]; by intros ? ?%not_elem_of_nil|].
  apply node_for_spec in Hr as [-> Hr]. split; [done|]. intros n [->|Hn]%elem_of_cons; auto.
Qed.

Lemma mapM_node_for_none m raws :
  mapM (fun raw => node_for m (normalize_reply raw)) raws = None <->
  exists raw, raw ∈ raws /\ normalize_reply raw ∉ ml_node <$> mn_selectable m.
Proof.
  rewrite mapM_None, Exists_exists.
  assert (forall raw, node_for m (normalize_reply raw) = None <->
            normalize_reply raw ∉ ml_node <$> mn_selectable m) as H; [|by setoid_rewrite H].
  intros raw. unfold node_for. pose proof (find_key ml_node (mn_selectable m) (normalize_reply raw)) as H.
  destruct (List.find _ _) as [l|]; simpl; [|naive_solver]. destruct H as [Hl Hk]. split; [done|].
  intros Hn. exfalso. apply Hn. rewrite <- Hk. by apply list_elem_of_fmap_2.
Qed.

Section ParseFacts.
Variable from_str : string -> option Json.

Lemma decide_reply_grounded object m : grounded m (decide_reply object m).
Proof.
  unfold decide_reply. destruct (parse_assessment object) as [a|]; [|apply uncertain_grounded].
  destruct (parse_contain object) as [raws|]; [|apply uncertain_grounded].
  destruct (mapM _ raws) as [ns|] eqn:Hns; [|apply uncertain_grounded].
  apply mapM_node_for in Hns as [_ Hns].
  destruct (negb _ && negb _) eqn:Hb; [apply uncertain_grounded|].
  assert (forall n, n ∈ sort_dedup id ns -> n ∈ ml_node <$> mn_selectable m) as Hin
    by (intros n Hn; apply Hns; by apply sort_dedup_id_elem).
  split; cbn [d_cuts d_assessment].
  - intros cut (n & _ & Hr)%list_elem_of_omap. apply resolve_elem in Hr. naive_solver.
  - rewrite resolve_nodes by done. rewrite <- (list_fmap_id (sort_dedup id ns)).
    apply (keys_ascend_nodup id), sort_dedup_ascend.
  - intros Hne. apply andb_false_iff in Hb as [Hb|Hb]; bools; [done|]. by rewrite Hb in Hne.
Qed.

(** A reply's decision is grounded in the menu and all-or-nothing. Whatever
    the model wrote, each cut is one the menu itself resolved, no node is cut
    twice, and only an attack cuts. One named node outside the menu, a
    malformed field, or a non-attack that names nodes yields the uncertain
    decision without cuts; otherwise the cuts are exactly the named nodes. *)
Theorem parse_grounded reply m d :
  parse_incident_decision from_str reply m = Some d ->
  grounded m d /\
  (forall object, extract_object from_str reply = Some (Some object) ->
     match parse_assessment object, parse_contain object with
     | Some a, Some raws =>
         let named := normalize_reply <$> raws in
         if bool_decide (Forall (fun n => n ∈ ml_node <$> mn_selectable m) named) &&
            (bool_decide (a = AAttack) || bool_decide (raws = []))
         then d_assessment d = a /\ (forall n, n ∈ cc_node <$> d_cuts d <-> n ∈ named)
         else d_assessment d = AUncertain /\ d_cuts d = []
     | _, _ => d_assessment d = AUncertain /\ d_cuts d = []
     end).
Proof.
  unfold parse_incident_decision. intros Hp.
  destruct (extract_object from_str reply) as [[object|]|] eqn:He; [|injection Hp as <-|done].
  2: { split; [apply uncertain_grounded|done]. }
  injection Hp as <-. split; [apply decide_reply_grounded|]. intros o [= <-]. unfold decide_reply.
  destruct (parse_assessment object) as [a|]; [|done]. destruct (parse_contain object) as [raws|]; [|done].
  destruct (mapM _ raws) as [ns|] eqn:Hns.
  - apply mapM_node_for in Hns as [Hraw Hin]. rewrite <- Hraw.
    rewrite (bool_decide_eq_true_2 (Forall _ ns)) by (by apply Forall_forall).
    assert (sort_dedup id ns = [] <-> raws = []) as Hnil.
    { split; intros H.
      - destruct raws as [|r raws]; [done|]. simplify_eq/=.
        assert (normalize_reply r ∈ sort_dedup id (normalize_reply r :: (normalize_reply <$> raws))) as Hx
          by (apply sort_dedup_id_elem; by left). rewrite H in Hx. by apply not_elem_of_nil in Hx.
      - by rewrite Hraw, H. }
    rewrite (bool_decide_ext _ _ Hnil). simpl. rewrite <- negb_orb.
    destruct (bool_decide (a = AAttack) || bool_decide (raws = [])); simpl; [|done]. split; [done|].
    intros n. rewrite resolve_nodes, sort_dedup_id_elem; [done|]. intros n' Hn'. apply Hin. by apply sort_dedup_id_elem.
  - apply mapM_node_for_none in Hns as (raw & Hr & Hn).
    rewrite bool_decide_eq_false_2; [done|]. rewrite Forall_forall. intros H. apply Hn, H. by apply list_elem_of_fmap_2.
Qed.

(** Reading a reply panics, instead of degrading to the uncertain decision,
    exactly on a reply whose last closing brace precedes its first opening one
    with something in between. *)
Theorem parse_panics_exactly reply m :
  (parse_incident_decision from_str reply m = None <->
     exists start end_, find_char open_brace reply = Some start /\
       rfind_char close_brace reply = Some end_ /\ S end_ < start) /\
  (is_hard_parse_failure from_str reply = None <-> parse_incident_decision from_str reply m = None) /\
  parse_incident_decision from_str "} I cannot decide {" m = None.
Proof.
  unfold parse_incident_decision, is_hard_parse_failure, extract_object, slice_inclusive. split; [|split].
  - destruct (find_char open_brace reply) as [i|]; [|naive_solver].
    destruct (rfind_char close_brace reply) as [j|]; [|naive_solver].
    destruct (Nat.leb_spec i (S j)); simpl; [destruct (from_str _)|]; split; try done; try naive_solver lia.
  - destruct (find_char open_brace reply) as [i|]; [|done].
    destruct (rfind_char close_brace reply) as [j|]; [|done].
    destruct (i <=? S j); simpl; [|done]. by destruct (from_str _).
  - done.
Qed.

End ParseFacts.

(** ** The replay lock *)

(** A decision restored from the journal is re-armed only when its
    fingerprint is the current one and every recorded cut resolves, against
    the current menu, to the very signature it was recorded under; then it
    carries the menu's own cuts for exactly the recorded nodes, in their
    order. Any miss re-arms nothing. *)
Theorem rearm_double_lock restored fp m d :
  (rearm_restored_decision restored fp m = Some d <->
   rd_fingerprint restored = fp /\ d_assessment d = rd_assessment restored /\ d_reason d = rd_reason restored /\
   Forall2 (fun jc cut => resolve m (jc_node jc) = Some cut /\ cc_cut_signature cut = jc_cut_signature jc)
     (rd_cuts restored) (d_cuts d)) /\
  (rearm_restored_decision restored fp m = Some d ->
     (forall cut, cut ∈ d_cuts d -> exists l, l ∈ mn_selectable m /\ cut = line_cut l) /\
     cc_node <$> d_cuts d = jc_node <$> rd_cuts restored).
Proof.
  assert (forall cuts, mapM (fun cut => resolved ← resolve m (jc_node cut);
            if bool_decide (cc_cut_signature resolved = jc_cut_signature cut) then Some resolved else None)
            (rd_cuts restored) = Some cuts <->
          Forall2 (fun jc cut => resolve m (jc_node jc) = Some cut /\ cc_cut_signature cut = jc_cut_signature jc)
            (rd_cuts restored) cuts) as Hm.
  { intros cuts. rewrite mapM_Some.
    split; intros HF; (eapply Forall2_impl; [exact HF|]); intros jc cut; simpl;
      (destruct (resolve m (jc_node jc)) as [r|]; simpl; [|naive_solver]); case_bool_decide; naive_solver. }
  assert (rearm_restored_decision restored fp m = Some d <->
   rd_fingerprint restored = fp /\ d_assessment d = rd_assessment restored /\ d_reason d = rd_reason restored /\
   Forall2 (fun jc cut => resolve m (jc_node jc) = Some cut /\ cc_cut_signature cut = jc_cut_signature jc)
     (rd_cuts restored) (d_cuts d)) as Hiff.
  { unfold rearm_restored_decision. case_bool_decide; simpl; [|naive_solver].
    rewrite <- Hm. destruct (mapM _ _) as [cuts|]; simpl; [|naive_solver].
    destruct d; simpl. naive_solver. }
  split; [exact Hiff|]. rewrite Hiff. intros (_ & _ & _ & HF). split.
  - intros cut (i & Hi)%list_elem_of_lookup. destruct (Forall2_lookup_r _ _ _ _ _ HF Hi) as (jc & _ & Hr & _).
    apply resolve_elem in Hr. naive_solver.
  - clear Hm Hiff. revert HF. generalize (rd_cuts restored) as jcs, (d_cuts d) as cuts. intros jcs cuts HF.
    induction HF as [|jc cut jcs cuts [Hr _] _ IH]; [done|]. rewrite !fmap_cons, IH. f_equal.
    apply resolve_elem in Hr as (l & _ & <- & ->). done.
Qed.

(** The attack set names exactly the nodes standing attacks contain. *)
Lemma model_attack_set_spec decisions n :
  n ∈ model_attack_set decisions <->
  exists entry d cut, decisions !! entry = Some d /\ d_assessment d = AAttack /\ cut ∈ d_cuts d /\ cc_node cut = n.
Proof.
  unfold model_attack_set. rewrite elem_of_list_to_set, elem_of_concat. setoid_rewrite list_elem_of_fmap.
  split.
  - intros (l & (d & -> & [Ha Hd]%elem_of_filter_b) & (cut & -> & Hc)%list_elem_of_fmap).
    apply btree_values_elem in Hd as [k Hk]. bools. eauto 10.
  - intros (k & d & cut & Hk & Ha & Hc & <-). exists (cc_node <$> d_cuts d). split; [|by apply list_elem_of_fmap_2].
    exists d. split; [done|]. apply elem_of_filter_b. rewrite bool_decide_eq_true. split; [done|].
    apply btree_values_elem. eauto.
Qed.

(** ** Instances *)

(** A menu offering one workload, and a reader that finds that workload named
    by every reply. *)
Definition web_link : Link :=
  mkLink "workload/app/Pod/web" "workload/app/Pod/web" QUARANTINE_RELATION None {["app" := "web"]} {["app" := "web"]}.

Definition web_menu : Menu :=
  menu_normalize [mkLine "workload/app/Pod/web" QuarantineEntry web_link (cut_signature web_link) "note"] [].

Definition attack_reader (s : string) : option Json :=
  Some (JObj [("assessment", JStr " attack "); ("reason", JStr "live shell");
              ("contain", JArr [JStr "<<<workload/app/Pod/web>>>"; JStr "workload/app/Pod/web"])]).

Lemma parse_grounded_witness :
  exists d, parse_incident_decision attack_reader "Sure: {}" web_menu = Some d /\
    grounded web_menu d /\ d_assessment d = AAttack /\ cc_node <$> d_cuts d = ["workload/app/Pod/web"].
Proof.
  destruct (parse_incident_decision attack_reader "Sure: {}" web_menu) as [d|] eqn:E.
  - exists d. split; [reflexivity|]. split; [exact (proj1 (parse_grounded attack_reader _ _ _ E))|].
    vm_compute in E. injection E as <-. split; reflexivity.
  - vm_compute in E. discriminate E.
Defined.

(** A menu that no longer offers the recorded cut re-arms nothing. *)
Example rearm_stale :
  let restored := mkRestored "fp" AAttack "live" [mkJournaledCut "workload/app/Pod/web" (cut_signature web_link)] in
  (exists d, rearm_restored_decision restored "fp" web_menu = Some d) /\
  rearm_restored_decision restored "other" web_menu = None /\
  rearm_restored_decision restored "fp" (mkMenu [] ["workload/app/Pod/web"]) = None.
Proof. split; [|split]; vm_compute; eauto. Qed.
