(* ===== verification/Evidence.v ===== *)
(** * Evidence as text

    engine/src/engine/reason/adjudicate/evidence.rs and redact/sanitize.rs: an
    entry's vulnerabilities, findings and behaviours as the capped, sanitized and
    budgeted lines the prompt carries and the guards check citations against. *)

From S2P Require Import Prelude Text ImageRef Attack Behavior Classify Asn PetGraph Graph.

#[local] Arguments String.append : simpl nomatch.

(** ** Untrusted text *)

(** The characters that could close a fence or add prompt structure. *)
Definition STRUCTURE : list Ascii.ascii := map Ascii.ascii_of_nat [60; 62; 123; 125; 96; 10; 13].

Definition structural (c : Ascii.ascii) : bool := existsb (Ascii.eqb c) STRUCTURE.

Definition space : Ascii.ascii := Ascii.ascii_of_nat 32.

Fixpoint sanitize (value : string) : string :=
  match value with
  | EmptyString => EmptyString
  | String c value => String (if structural c then space else c) (sanitize value)
  end.

Definition TITLE_CAP : nat := 120.
Definition ENTRY_FREETEXT_BUDGET : nat := 1200.

Definition cap_untrusted (value : string) (cap : nat) : string := sanitize (take_chars cap value).

(** The field with what is left of the budget, or nothing and no budget. *)
Definition take_from_budget (field : string) (budget : nat) : option string * nat :=
  let cost := chars field in
  if cost <=? budget then (Some field, budget - cost) else (None, 0).

(** One pass over a list that threads the budget. *)
Fixpoint map_budget {A} (render : A -> nat -> string * nat) (l : list A) (budget : nat) : list string * nat :=
  match l with
  | [] => ([], budget)
  | x :: l =>
      let '(line, budget) := render x budget in
      let '(lines, budget) := map_budget render l budget in (line :: lines, budget)
  end.

(** ** The benign tag *)

Definition BENIGN_OWN_ACTIVITY_TAG : string := "[benign observed — not a signal]".
Definition FORGED_TAG : string := "[attempted tag forgery, ignored]".

(** Each step drops a byte at least, so [String.length] rounds are enough. *)
Fixpoint collapse (fuel : nat) (prev_was_space : bool) (s : string) : string :=
  match fuel with
  | 0 => EmptyString
  | S fuel =>
      match strip_one white_space s with
      | Some rest => if prev_was_space then collapse fuel true rest else String space (collapse fuel true rest)
      | None => match s with EmptyString => EmptyString | String c s => String c (collapse fuel false s) end
      end
  end.

Definition collapse_whitespace_runs (text : string) : string := collapse (String.length text) false text.

(** The occurrences from the left, without overlap, of what [m] strips. *)
Fixpoint replace_matches (fuel : nat) (m : string -> option string) (to s : string) : string :=
  match fuel with
  | 0 => s
  | S fuel =>
      match m s with
      | Some rest => to +:+ replace_matches fuel m to rest
      | None => match s with EmptyString => EmptyString | String c s => String c (replace_matches fuel m to s) end
      end
  end.

(** [str::replace] of a pattern that is not empty. *)
Definition str_replace (from to s : string) : string := replace_matches (S (String.length s)) (strip_prefix from) to s.

Definition defang_tag_lookalike (text : string) : string :=
  str_replace BENIGN_OWN_ACTIVITY_TAG FORGED_TAG (collapse_whitespace_runs text).

(** ** Numbers *)

(** [format!("{:.prec$}")] of a float given by its bits, with [mant] bits of
    mantissa and [expo] of exponent, [prec] at least one: the exact value rounded to
    even at the last digit. *)
Fixpoint zeros (n : nat) : string := match n with 0 => EmptyString | S n => "0" +:+ zeros n end.

Definition pad_left (n : nat) (s : string) : string := zeros (n - String.length s) +:+ s.

(** The nearest integer to a quotient, the even one of two. *)
Definition round_even (num den : Z) : Z :=
  let q := (num / den)%Z in
  let r := (num mod den)%Z in
  if ((den <? 2 * r) || ((2 * r =? den) && Z.odd q))%Z then (q + 1)%Z else q.

Definition fmt_fixed (mant expo : Z) (prec : nat) (bits : Z) : string :=
  let sign := if (2 ^ (mant + expo) <=? bits)%Z then "-" else "" in
  let e := Z.land (Z.shiftr bits mant) (2 ^ expo - 1) in
  let f := Z.land bits (2 ^ mant - 1) in
  if (e =? 2 ^ expo - 1)%Z then (if (f =? 0)%Z then sign +:+ "inf" else "NaN")
  else
    let m := if (e =? 0)%Z then f else (f + 2 ^ mant)%Z in
    let ex := ((if e =? 0 then 1 else e) - (2 ^ (expo - 1) - 1) - mant)%Z in
    let q := round_even (m * 10 ^ Z.of_nat prec * 2 ^ Z.max ex 0) (2 ^ Z.max (- ex) 0) in
    let unit_ := (10 ^ Z.of_nat prec)%Z in
    sign +:+ pretty (q / unit_)%Z +:+ "." +:+ pad_left prec (pretty (q mod unit_)%Z).

Definition fmt_f64 : nat -> Z -> string := fmt_fixed 52 11.
Definition fmt_f32 : nat -> Z -> string := fmt_fixed 23 8.

(** [f64::total_cmp] as the order of these integers. *)
Definition total_key (bits : Z) : Z :=
  let i := if (bits <? 2 ^ 63)%Z then bits else (bits - 2 ^ 64)%Z in
  Z.lxor i (Z.shiftr (Z.shiftr i 63 mod 2 ^ 64) 1).

Definition NEG_INFINITY : Z := (4095 * 2 ^ 52)%Z.

(** ** Vulnerabilities *)

Definition with_title (line : string) (title : option string) (budget : nat) : string * nat :=
  match title with
  | None => (line, budget)
  | Some title =>
      match take_from_budget (cap_untrusted title TITLE_CAP) budget with
      | (Some title, budget) => (line +:+ " — " +:+ title, budget)
      | (None, budget) => (line, budget)
      end
  end.

Definition fix_note (v : Vulnerability) : string :=
  let cap s := cap_untrusted s TITLE_CAP in
  match cap <$> v_fixed_version v, cap <$> v_installed_version v with
  | Some fixed, Some installed => "fix available: " +:+ installed +:+ " to " +:+ fixed
  | Some fixed, None => "fix available: " +:+ fixed
  | None, _ => "no fix available"
  end.

(** What every line carries, whatever the budget. *)
Definition cve_structure (v : Vulnerability) : string :=
  sanitize (v_id v) +:+ " [severity: " +:+ severity_label (v_severity v) +:+ "] [reachability: " +:+
  reachability_label (v_reachability v) +:+ "] [" +:+ fix_note v +:+ "]" +:+
  match v_score v with Some score => " [cvss: " +:+ fmt_f64 1 score +:+ "]" | None => "" end +:+
  match v_epss v with Some epss => " [epss: " +:+ fmt_f32 2 epss +:+ "]" | None => "" end.

Definition cve_evidence_budgeted (v : Vulnerability) (budget : nat) : string * nat :=
  with_title (cve_structure v) (v_title v) budget.

Definition severity_rank (s : Severity) : Z := match s with Low => 0 | Medium => 1 | High => 2 | Critical => 3 end.

Definition worse_vuln (a b : Vulnerability) : bool :=
  let score v := total_key (default NEG_INFINITY (v_score v)) in
  let signal v := ((if v_fixed_version v then 1 else 0) + (if v_epss v then 1 else 0))%Z in
  match Z.compare (severity_rank (v_severity a)) (severity_rank (v_severity b)) with
  | Gt => true
  | Lt => false
  | Eq => match Z.compare (score a) (score b) with
          | Gt => true
          | Lt => false
          | Eq => (signal b <? signal a)%Z
          end
  end.

(** [dedup_by] with the survivor replaced by a worse duplicate. *)
Fixpoint keep_worst (kept : Vulnerability) (l : list Vulnerability) : list Vulnerability :=
  match l with
  | [] => [kept]
  | a :: l =>
      if bool_decide (v_id a = v_id kept) then keep_worst (if worse_vuln a kept then a else kept) l
      else kept :: keep_worst a l
  end.

Definition dedup_worst_per_id (vulns : list Vulnerability) : list Vulnerability :=
  match sort_by (fun a b => str_leb (v_id a) (v_id b)) vulns with
  | [] => []
  | v :: l => keep_worst v l
  end.

Definition is_loaded_at_runtime (v : Vulnerability) : bool := bool_decide (v_reachability v = LoadedAtRuntime).

(** ** Objectives *)

Definition objective_outcome (reach : string) (attack : AttackRef) : string :=
  if bool_decide (tactic attack = CredentialAccess) && (str_contains "MOUNTED" reach || str_contains "RBAC-GRANTED" reach)
  then "could read a credential store if exploited (Credential Access, " +:+ technique_id attack +:+ ")"
  else tactic_name (tactic attack) +:+ ": " +:+ technique attack.

(** ** Behaviours *)

Record BehaviorLine := mkBehaviorLine { bl_text : string; bl_kind : string; bl_benign : bool }.

Definition own_line (b : Behavior) : BehaviorLine :=
  mkBehaviorLine (ExecClass.annotated_summary b) (variant_label b) (negb (AlarmClass.is_alarming_now b)).

Definition internet_peer (b : Behavior) : option string :=
  match b with NetworkConnection peer true => Some peer | _ => None end.

Definition behavior_lines (behaviors : list Behavior) (asn : AsnDb) : list BehaviorLine :=
  match asn with
  | [] => own_line <$> behaviors
  | _ =>
      (own_line <$> List.filter (fun b => negb (bool_decide (is_Some (internet_peer b)))) behaviors) ++
      match internet_egress_line (omap internet_peer behaviors) asn with
      | Some line => [mkBehaviorLine line "connection" true]
      | None => []
      end
  end.

Definition render_line (l : BehaviorLine) (budget : nat) : string * nat :=
  let '(text, budget) := take_from_budget (cap_untrusted (bl_text l) TITLE_CAP) budget in
  let text := defang_tag_lookalike (default (bl_kind l +:+ " (free-text budget exhausted)") text) in
  (if bl_benign l then text +:+ " " +:+ BENIGN_OWN_ACTIVITY_TAG else text, budget).

Definition render_behavior_lines_budgeted (behaviors : list Behavior) (asn : AsnDb) (budget : nat) : list string * nat :=
  let '(out, budget) := map_budget render_line (behavior_lines behaviors asn) budget in (sort_dedup id out, budget).

Definition render_behavior_lines (behaviors : list Behavior) (asn : AsnDb) : list string :=
  (render_behavior_lines_budgeted behaviors asn ENTRY_FREETEXT_BUDGET).1.

(** ** Findings *)

Definition finding_evidence_budgeted (f : ScanFinding) (budget : nat) : string * nat :=
  with_title (sanitize (sf_id f) +:+ " [severity: " +:+ severity_label (sf_severity f) +:+ "]") (sf_title f) budget.

Definition finding_leb (a b : ScanFinding) : bool := str_leb (sf_id a) (sf_id b).

(** ** Citations *)

(** [line.split_whitespace().next()]. *)
Fixpoint until_space (fuel : nat) (s : string) : string :=
  match fuel with
  | 0 => EmptyString
  | S fuel =>
      match strip_one white_space s, s with
      | None, String c s => String c (until_space fuel s)
      | _, _ => EmptyString
      end
  end.

Definition first_token (line : string) : option string :=
  let line := trim_start line in
  if bool_decide (line = "") then None else Some (until_space (String.length line) line).

Definition cve_ids_of (cves : list string) : gset string := list_to_set (omap first_token cves).

(** ** An entry's evidence *)

Record EntryCoverage := mkCoverage { ec_cves : list string; ec_behavioral : bool }.

Section OnGraph.
Context {G : Type} `{SG : !StableGraph G Node Edge}.
Implicit Types sg : SecurityGraph G.

Definition entry_evidence_budgeted sg (entry_key : NodeKey) (budget : nat) : list string * list Behavior * nat :=
  let '(vulns, behaviors) := entry_evidence sg entry_key in
  let '(cves, budget) := map_budget cve_evidence_budgeted (dedup_worst_per_id vulns) budget in
  (cves, behaviors, budget).

(** [entry_evidence] of evidence.rs. *)
Definition evidence_lines sg (entry_key : NodeKey) : list string * list Behavior :=
  (entry_evidence_budgeted sg entry_key ENTRY_FREETEXT_BUDGET).1.

(** Filtered before duplicates are dropped. *)
Definition reachable_cve_lines_budgeted sg (entry_key : NodeKey) (budget : nat) : list string * list Behavior * nat :=
  let '(vulns, behaviors) := entry_evidence sg entry_key in
  let '(cves, budget) := map_budget cve_evidence_budgeted (dedup_worst_per_id (List.filter is_loaded_at_runtime vulns)) budget in
  (cves, behaviors, budget).

Definition reachable_cve_lines sg (entry_key : NodeKey) : list string * list Behavior :=
  (reachable_cve_lines_budgeted sg entry_key ENTRY_FREETEXT_BUDGET).1.

Definition entry_findings_budgeted sg (entry_key : NodeKey) (budget : nat) : list string * list string * nat :=
  let '(secrets, misconfigs, rbac) := entry_findings sg entry_key in
  let '(secret_lines, budget) := map_budget finding_evidence_budgeted (sort_by finding_leb secrets) budget in
  let '(posture_lines, budget) :=
    map_budget finding_evidence_budgeted (sort_by finding_leb misconfigs ++ sort_by finding_leb rbac) budget in
  (secret_lines, posture_lines, budget).

(** [entry_findings] of evidence.rs: the exposed secrets, then the posture. *)
Definition finding_lines sg (entry_key : NodeKey) : list string * list string :=
  (entry_findings_budgeted sg entry_key ENTRY_FREETEXT_BUDGET).1.

Definition entry_coverage sg (entry_key : NodeKey) : EntryCoverage :=
  let '(cves, behaviors) := evidence_lines sg entry_key in
  mkCoverage (bset_iter (cve_ids_of cves)) (match behaviors with [] => false | _ => true end).

End OnGraph.

(** A double 9.8, singles 0.9, 0.125 (to even) and 0.05, and the infinities. *)
Example fmt_demo :
  fmt_f64 1 4621706527598287258 = "9.8" /\ fmt_f32 2 1063675494 = "0.90" /\ fmt_f32 2 1040187392 = "0.12" /\
  fmt_f32 2 1028443341 = "0.05" /\ fmt_f64 1 NEG_INFINITY = "-inf" /\ fmt_f64 1 (NEG_INFINITY + 1) = "NaN".
Proof. by vm_compute. Qed.
