(* ===== verification/EvidenceFacts.v ===== *)
(** * What the evidence lines promise

    The facts of Evidence.v: what sanitizing removes, what the budgets bound,
    which duplicate survives, and who may carry the benign tag. *)

From Stdlib Require Import Sorting.Sorted.
From stdpp Require Import sorting.
From S2P Require Import Prelude Text ImageRef Attack Behavior Classify Asn PetGraph Graph Evidence.

#[local] Arguments String.append : simpl nomatch.

(** ** Sanitized text *)

Fixpoint clean (s : string) : bool :=
  match s with EmptyString => true | String c s => negb (structural c) && clean s end.

Lemma clean_app a b : clean (a +:+ b) = clean a && clean b.
Proof. induction a as [|c a IH]; [done|]. change (String c a +:+ b) with (String c (a +:+ b)). simpl. by rewrite IH, andb_assoc. Qed.

Lemma sanitize_clean s : clean (sanitize s) = true.
Proof. induction s as [|c s IH]; [done|]. simpl. rewrite IH. by destruct (structural c) eqn:H; [|rewrite H]. Qed.

Lemma sanitize_id s : clean s = true -> sanitize s = s.
Proof. induction s as [|c s IH]; simpl; [done|]. intros [H1%negb_true_iff H2]%andb_true_iff. by rewrite H1, IH. Qed.

Lemma structural_single c : structural c = true -> continuation c = false.
Proof. unfold structural. rewrite existsb_exists. intros (x & Hx & ->%Ascii.eqb_eq). by repeat destruct Hx as [<-|Hx]. Qed.

Lemma sanitize_chars s : chars (sanitize s) = chars s.
Proof.
  induction s as [|c s IH]; [done|]. simpl. rewrite IH. f_equal.
  destruct (structural c) eqn:H; [|done]. by rewrite (structural_single c H).
Qed.

Lemma cap_untrusted_spec value cap : clean (cap_untrusted value cap) = true /\ chars (cap_untrusted value cap) <= cap.
Proof.
  unfold cap_untrusted. split; [apply sanitize_clean|]. rewrite sanitize_chars.
  destruct (take_chars_spec cap value) as (_ & _ & -> & _). lia.
Qed.

(** ** The budget *)

Definition title_of (t : option string) : string := match t with Some t => " — " +:+ t | None => "" end.

Definition spent (titles : list (option string)) : nat := foldr (fun t n => match t with Some t => chars t | None => 0 end + n) 0 titles.

Lemma take_from_budget_spec field budget :
  let '(t, budget') := take_from_budget field budget in
  (t = Some field \/ t = None) /\ match t with Some t => chars t | None => 0 end + budget' <= budget.
Proof. unfold take_from_budget. destruct (Nat.leb_spec (chars field) budget); simpl; split; [by left|lia|by right|lia]. Qed.

Lemma with_title_spec line title budget :
  exists t, (with_title line title budget).1 = line +:+ title_of t /\
    match t with Some t => chars t | None => 0 end + (with_title line title budget).2 <= budget /\
    match t with Some t => chars t <= TITLE_CAP /\ clean t = true | None => True end.
Proof.
  unfold with_title. destruct title as [title|]; [|exists None; simpl; split; [by rewrite app_str_nil_r|split; [lia|done]]].
  destruct (cap_untrusted_spec title TITLE_CAP) as [Hc Hn]. pose proof (take_from_budget_spec (cap_untrusted title TITLE_CAP) budget) as H.
  destruct (take_from_budget (cap_untrusted title TITLE_CAP) budget) as [t budget']. destruct H as [[-> | ->] H].
  - exists (Some (cap_untrusted title TITLE_CAP)). simpl in *. done.
  - exists None. simpl in *. split; [by rewrite app_str_nil_r|done].
Qed.

(** A category's lines: each starts with all its structure, and the titles they
    carry are short, clean, and together within the budget. *)
Lemma map_budget_titles {A} (structure : A -> string) (title : A -> option string) l budget :
  let '(lines, budget') := map_budget (fun x => with_title (structure x) (title x)) l budget in
  exists titles, lines = zip_with (fun x t => structure x +:+ title_of t) l titles /\ length titles = length l /\
    spent titles + budget' <= budget /\ (forall t, Some t ∈ titles -> chars t <= TITLE_CAP /\ clean t = true).
Proof.
  revert budget. induction l as [|x l IH]; intros budget; simpl.
  - exists []. simpl. split; [done|]. split; [done|]. split; [lia|]. intros t Ht. by apply not_elem_of_nil in Ht.
  - destruct (with_title_spec (structure x) (title x) budget) as (t & H1 & H2 & H3).
    destruct (with_title (structure x) (title x) budget) as [line budget1]. simpl in *. specialize (IH budget1).
    destruct (map_budget _ l budget1) as [lines budget2]. destruct IH as (titles & -> & Hlen & Hs & Ht).
    exists (t :: titles). simpl. split; [by rewrite H1|]. split; [by rewrite Hlen|]. split; [lia|].
    intros t' [<- |Hin]%elem_of_cons; [done|by apply Ht].
Qed.

Lemma map_budget_length {A} (render : A -> nat -> string * nat) l budget : length (map_budget render l budget).1 = length l.
Proof.
  revert budget. induction l as [|x l IH]; intros budget; [done|]. simpl. destruct (render x budget) as [line budget1].
  specialize (IH budget1). destruct (map_budget render l budget1) as [lines budget2]. simpl in *. by rewrite IH.
Qed.

(** Each element is rendered with some budget, in place. *)
Lemma map_budget_zip {A} (render : A -> nat -> string * nat) l budget :
  exists rests, length rests = length l /\ (map_budget render l budget).1 = zip_with (fun x rest => (render x rest).1) l rests.
Proof.
  revert budget. induction l as [|x l IH]; intros budget; [by exists []|]. simpl. destruct (render x budget) as [line budget1] eqn:Hr.
  destruct (IH budget1) as (rests & Hlen & He). destruct (map_budget render l budget1) as [lines budget2]. simpl in *.
  exists (budget :: rests). simpl. by rewrite Hlen, He, Hr.
Qed.

Lemma map_budget_app {A} (render : A -> nat -> string * nat) l l' budget :
  (map_budget render (l ++ l') budget).1 = (map_budget render l budget).1 ++ (map_budget render l' (map_budget render l budget).2).1.
Proof.
  revert budget. induction l as [|x l IH]; intros budget; [done|]. simpl. destruct (render x budget) as [line budget1].
  specialize (IH budget1). destruct (map_budget render (l ++ l') budget1), (map_budget render l budget1). simpl in *. by rewrite IH.
Qed.

Lemma map_budget_elem {A} (render : A -> nat -> string * nat) l budget line :
  line ∈ (map_budget render l budget).1 -> exists x b, x ∈ l /\ line = (render x b).1.
Proof.
  revert budget. induction l as [|x l IH]; intros budget; simpl; [by intros ?%not_elem_of_nil|].
  destruct (render x budget) as [line0 budget1] eqn:Hr. specialize (IH budget1). destruct (map_budget render l budget1) as [lines budget2].
  simpl in *. intros [-> |Hl]%elem_of_cons.
  - exists x, budget. rewrite Hr. split; [by left|done].
  - destruct (IH Hl) as (y & b & Hy & ->). exists y, b. split; [by right|done].
Qed.

Lemma map_budget_complete {A} (render : A -> nat -> string * nat) l budget x :
  x ∈ l -> exists b, (render x b).1 ∈ (map_budget render l budget).1.
Proof.
  intros Hx. revert budget. induction Hx as [x l|x y l Hx IH]; intros budget; simpl.
  - destruct (render x budget) as [line0 budget1] eqn:Hr. destruct (map_budget render l budget1) as [lines budget2]. exists budget. rewrite Hr. by left.
  - destruct (render y budget) as [line0 budget1]. specialize (IH budget1). destruct (map_budget render l budget1) as [lines budget2].
    destruct IH as [b Hb]. exists b. by right.
Qed.

(** ** The worst duplicate *)

Definition badness (v : Vulnerability) : Z * Z * Z :=
  (severity_rank (v_severity v), total_key (default NEG_INFINITY (v_score v)),
   ((if v_fixed_version v then 1 else 0) + (if v_epss v then 1 else 0))%Z).

(** Lexicographic: [worse_vuln] is a strict weak order. *)
Lemma worse_vuln_lex a b : worse_vuln a b = true <->
  (let '(a1, a2, a3) := badness a in let '(b1, b2, b3) := badness b in
   b1 < a1 \/ b1 = a1 /\ (b2 < a2 \/ b2 = a2 /\ b3 < a3))%Z.
Proof.
  unfold worse_vuln, badness. destruct (Z.compare_spec (severity_rank (v_severity a)) (severity_rank (v_severity b))); [|naive_solver lia..].
  destruct (Z.compare_spec (total_key (default NEG_INFINITY (v_score a))) (total_key (default NEG_INFINITY (v_score b)))); [|naive_solver lia..].
  rewrite Z.ltb_lt. lia.
Qed.

Lemma not_worse_trans a b c : worse_vuln a b = false -> worse_vuln b c = false -> worse_vuln a c = false.
Proof.
  rewrite <- !not_true_iff_false, !worse_vuln_lex. destruct (badness a) as [[a1 a2] a3], (badness b) as [[b1 b2] b3], (badness c) as [[c1 c2] c3]. lia.
Qed.

Lemma worse_asym a b : worse_vuln a b = true -> worse_vuln b a = false.
Proof.
  rewrite <- not_true_iff_false, !worse_vuln_lex. destruct (badness a) as [[a1 a2] a3], (badness b) as [[b1 b2] b3]. lia.
Qed.

Lemma not_worse_refl a : worse_vuln a a = false.
Proof. rewrite <- not_true_iff_false, worse_vuln_lex. destruct (badness a) as [[a1 a2] a3]. lia. Qed.

Definition id_le (a b : Vulnerability) : Prop := str_leb (v_id a) (v_id b) = true.

Lemma keep_worst_spec l kept :
  StronglySorted id_le (kept :: l) ->
  StronglySorted (fun a b => id_le a b /\ v_id a <> v_id b) (keep_worst kept l) /\
  (forall v, v ∈ keep_worst kept l -> v ∈ kept :: l) /\
  (forall v, v ∈ kept :: l -> exists u, u ∈ keep_worst kept l /\ v_id u = v_id v /\ worse_vuln v u = false).
Proof.
  revert kept. induction l as [|a l IH]; intros kept Hs; simpl.
  - split; [by repeat constructor|]. split; [done|]. intros v ->%list_elem_of_singleton. exists kept. split; [by left|]. split; [done|apply not_worse_refl].
  - case_bool_decide as Hid.
    + set (k := if worse_vuln a kept then a else kept).
      assert (k = a \/ k = kept) as Hk by (unfold k; destruct (worse_vuln a kept); auto).
      assert (v_id k = v_id kept) as Hki by (destruct Hk as [-> | ->]; done).
      apply StronglySorted_inv in Hs as [Hs Hall]. apply StronglySorted_inv in Hs as [Hs Hal].
      destruct (IH k) as (I1 & I2 & I3).
      { constructor; [done|]. rewrite Forall_forall in *. intros x Hx. unfold id_le. rewrite Hki. apply Hall. by right. }
      split; [done|]. split.
      * intros v Hv%I2. apply elem_of_cons in Hv as [-> |Hv]; [|by right; right].
        destruct Hk as [-> | ->]; [right|]; by left.
      * assert (worse_vuln a k = false /\ worse_vuln kept k = false) as [Hak Hkk].
        { unfold k. destruct (worse_vuln a kept) eqn:Hw; [split; [apply not_worse_refl|by apply worse_asym]|split; [done|apply not_worse_refl]]. }
        destruct (I3 k) as (u & Hu & Hui & Huw); [by left|].
        intros v [-> |[-> |Hv]%elem_of_cons]%elem_of_cons.
        -- exists u. split; [done|]. split; [congruence|by eapply not_worse_trans].
        -- exists u. split; [done|]. split; [congruence|by eapply not_worse_trans].
        -- destruct (I3 v) as (u' & Hu'); [by right|]. by exists u'.
    + apply StronglySorted_inv in Hs as [Hs Hall]. destruct (IH a Hs) as (I1 & I2 & I3). split; [|split].
      * constructor; [done|]. rewrite Forall_forall in *. assert (id_le kept a) as Hka by (apply Hall; by left).
        intros x Hx%I2. specialize (Hall x Hx). split; [done|].
        intros He. apply Hid. apply StronglySorted_inv in Hs as [_ Hal]. rewrite Forall_forall in Hal.
        apply elem_of_cons in Hx as [-> |Hx]; [done|]. apply str_leb_antisym; [rewrite He; by apply Hal|done].
      * intros v [-> |Hv%I2]%elem_of_cons; [by left|by right].
      * intros v [-> |Hv]%elem_of_cons.
        -- exists kept. split; [by left|]. split; [done|apply not_worse_refl].
        -- destruct (I3 v Hv) as (u & Hu & ?). exists u. split; [by right|done].
Qed.

Lemma dedup_worst_spec vulns :
  StronglySorted (fun a b => id_le a b /\ v_id a <> v_id b) (dedup_worst_per_id vulns) /\
  (forall v, v ∈ dedup_worst_per_id vulns -> v ∈ vulns) /\
  (forall v, v ∈ vulns -> exists u, u ∈ dedup_worst_per_id vulns /\ v_id u = v_id v /\ worse_vuln v u = false).
Proof.
  unfold dedup_worst_per_id. set (leb := fun a b => str_leb (v_id a) (v_id b)).
  assert (StronglySorted id_le (sort_by leb vulns)) as Hs.
  { apply (sort_by_sorted leb); unfold leb; eauto using str_leb_total, str_leb_trans. }
  assert (forall x, x ∈ sort_by leb vulns <-> x ∈ vulns) as Hin by (intros; apply elem_of_sort_by).
  destruct (sort_by leb vulns) as [|v l].
  - split; [constructor|]. split; [by intros v ?%not_elem_of_nil|]. intros v Hv%Hin. by apply not_elem_of_nil in Hv.
  - destruct (keep_worst_spec l v Hs) as (H1 & H2 & H3). split; [done|]. split; [by intros x Hx%H2%Hin|]. intros x Hx%Hin. by apply H3.
Qed.

(** ** The benign tag *)

Definition open_bracket : Ascii.ascii := Ascii.ascii_of_nat 91.

Lemma starts_with_cons c p s : starts_with (String c p) (String c s) = starts_with p s.
Proof. unfold starts_with. simpl. by rewrite Ascii.eqb_refl. Qed.

Lemma starts_with_cons_ne a c p s : Ascii.eqb a c = false -> starts_with (String a p) (String c s) = false.
Proof. intros H. unfold starts_with. simpl. by rewrite H. Qed.

Definition TAG_REST : string := "benign observed — not a signal]".

(** What replacing puts in cannot be the start of a needle without a bracket. *)
Lemma replace_prefix fuel m to s p :
  to = String open_bracket (default "" (strip_prefix "[" to)) ->
  no_char open_bracket p = true -> starts_with p (replace_matches fuel m to s) = true -> starts_with p s = true.
Proof.
  intros Ht. revert s p. induction fuel as [|fuel IH]; intros s p Hp H; simpl in H; [done|].
  destruct p as [|a p]; [done|]. simpl in Hp. apply andb_true_iff in Hp as [Ha Hp].
  destruct (m s) as [rest|].
  - rewrite Ht in H. change (String open_bracket (default "" (strip_prefix "[" to)) +:+ replace_matches fuel m to rest) with
      (String open_bracket (default "" (strip_prefix "[" to) +:+ replace_matches fuel m to rest)) in H.
    unfold starts_with in H. simpl in H. by destruct (Ascii.eqb a open_bracket).
  - destruct s as [|c s]; [done|]. destruct (Ascii.eqb a c) eqn:Hac.
    + apply Ascii.eqb_eq in Hac as ->. rewrite starts_with_cons in *. by eapply IH.
    + unfold starts_with in H. simpl in H. by rewrite Hac in H.
Qed.

Lemma str_contains_forged s : str_contains BENIGN_OWN_ACTIVITY_TAG (FORGED_TAG +:+ s) = str_contains BENIGN_OWN_ACTIVITY_TAG s.
Proof. reflexivity. Qed.

Lemma replace_removes fuel s :
  String.length s < fuel -> str_contains BENIGN_OWN_ACTIVITY_TAG (replace_matches fuel (strip_prefix BENIGN_OWN_ACTIVITY_TAG) FORGED_TAG s) = false.
Proof.
  revert s. induction fuel as [|fuel IH]; intros s Hlen; [lia|]. cbn [replace_matches].
  destruct (strip_prefix BENIGN_OWN_ACTIVITY_TAG s) as [rest|] eqn:Hs.
  - rewrite str_contains_forged. apply IH. apply strip_prefix_app in Hs as ->. rewrite str_length_app in Hlen. simpl in Hlen. lia.
  - destruct s as [|c s]; [done|]. cbn [str_contains]. apply orb_false_iff. split; [|apply IH; simpl in Hlen; lia].
    apply not_true_iff_false. change BENIGN_OWN_ACTIVITY_TAG with (String open_bracket TAG_REST) at 1.
    destruct (Ascii.eqb open_bracket c) eqn:Hc; [|by rewrite starts_with_cons_ne].
    apply Ascii.eqb_eq in Hc as <-. rewrite starts_with_cons. intros H%replace_prefix; [|done..].
    change (strip_prefix TAG_REST s = None) in Hs. unfold starts_with in H. by rewrite Hs in H.
Qed.

Lemma defang_spec text : str_contains BENIGN_OWN_ACTIVITY_TAG (defang_tag_lookalike text) = false.
Proof. apply replace_removes. lia. Qed.

Lemma egress_never_alarms b peer : internet_peer b = Some peer -> AlarmClass.is_alarming_now b = false.
Proof. destruct b as [| ? [] | | | | | | | | |]; done. Qed.

(** The text of a line before any tag: the capped field if the rest of the
    budget pays for it, its kind if not, and in either case no tag. *)
Definition line_text (field kind : string) (rest : nat) : string :=
  defang_tag_lookalike (if chars (cap_untrusted field TITLE_CAP) <=? rest then cap_untrusted field TITLE_CAP
                        else kind +:+ " (free-text budget exhausted)").

Lemma line_text_untagged field kind rest : str_contains BENIGN_OWN_ACTIVITY_TAG (line_text field kind rest) = false.
Proof. apply defang_spec. Qed.

Lemma render_line_text l rest :
  (render_line l rest).1 =
    if bl_benign l then line_text (bl_text l) (bl_kind l) rest +:+ " " +:+ BENIGN_OWN_ACTIVITY_TAG else line_text (bl_text l) (bl_kind l) rest.
Proof. unfold render_line, take_from_budget, line_text. by destruct (_ <=? rest). Qed.

(** The behaviours that have a line each, and the peers that share one. *)
Definition own_lines (behaviors : list Behavior) (asn : AsnDb) : list Behavior :=
  match asn with [] => behaviors | _ => List.filter (fun b => match b with NetworkConnection _ true => false | _ => true end) behaviors end.

Definition pooled_peers (behaviors : list Behavior) (asn : AsnDb) : list string :=
  match asn with [] => [] | _ => omap (fun b => match b with NetworkConnection peer true => Some peer | _ => None end) behaviors end.

Lemma behavior_lines_split behaviors asn :
  behavior_lines behaviors asn = (own_line <$> own_lines behaviors asn) ++
    match internet_egress_line (pooled_peers behaviors asn) asn with Some line => [mkBehaviorLine line "connection" true] | None => [] end.
Proof.
  unfold behavior_lines, own_lines, pooled_peers. destruct asn as [|r asn]; [by rewrite app_nil_r|].
  assert (List.filter (fun b => negb (bool_decide (is_Some (internet_peer b)))) behaviors =
    List.filter (fun b => match b with NetworkConnection _ true => false | _ => true end) behaviors) as ->; [|done].
  induction behaviors as [|b l IH]; [done|]. simpl. rewrite IH. by destruct b as [| ? [] | | | | | | | | |].
Qed.

Lemma alarming_own_line behaviors asn b :
  b ∈ behaviors -> AlarmClass.is_alarming_now b = true -> b ∈ own_lines behaviors asn.
Proof.
  intros Hb Ha. unfold own_lines. destruct asn; [done|]. apply elem_of_filter_b. split; [|done].
  by destruct b as [| ? [] | | | | | | | | |].
Qed.

Lemma egress_some peers asn : peers <> [] <-> is_Some (internet_egress_line peers asn).
Proof.
  unfold internet_egress_line. case_bool_decide as H.
  - split; [|by intros []]. destruct peers as [|p peers]; [done|]. simpl in H. clear -H. set_solver.
  - split; [by eexists|]. by intros _ ->.
Qed.

Lemma rendered_elem behaviors asn budget line :
  line ∈ (render_behavior_lines_budgeted behaviors asn budget).1 <-> line ∈ (map_budget render_line (behavior_lines behaviors asn) budget).1.
Proof. unfold render_behavior_lines_budgeted. destruct (map_budget _ _ _) as [out b]. apply sort_dedup_id_elem. Qed.

Lemma rendered_nil behaviors asn budget : (render_behavior_lines_budgeted behaviors asn budget).1 = [] <-> behaviors = [].
Proof.
  split; [|by intros ->; unfold render_behavior_lines_budgeted, behavior_lines; destruct asn].
  intros Hn. destruct behaviors as [|b behaviors]; [done|exfalso].
  assert (exists l, l ∈ behavior_lines (b :: behaviors) asn) as [l Hl].
  { unfold behavior_lines. destruct asn as [|r asn]; [eexists; by left|]. destruct (internet_peer b) as [peer|] eqn:Hp.
    - assert (is_Some (internet_egress_line (omap internet_peer (b :: behaviors)) (r :: asn))) as [line ->].
      { unfold internet_egress_line. rewrite bool_decide_eq_false_2; [done|]. simpl. rewrite Hp. simpl. set_solver. }
      eexists. apply elem_of_app. right. by left.
    - exists (own_line b). apply elem_of_app. left. apply list_elem_of_fmap_2, elem_of_filter_b. split; [by rewrite Hp|by left]. }
  destruct (map_budget_complete render_line _ budget l Hl) as [budget' H]. apply rendered_elem in H. rewrite Hn in H. by apply not_elem_of_nil in H.
Qed.

(** C13: Line by line, what the tag says is true, and nothing an attacker can put
    in a path, a peer or a rule name forges it. Every behaviour has a line of its
    own, apart from the internet peers once a provider table is there, which
    share one; its text, the capped summary or the kind if the budget is spent,
    never contains the tag. The lines are these and no others: the text bare if
    the behaviour is alarming, followed by the tag if it is not, and the shared
    line always tagged, since no peer alarms. *)
Theorem benign_tag_authentic behaviors asn budget :
  let lines := (render_behavior_lines_budgeted behaviors asn budget).1 in
  let own := own_lines behaviors asn in
  let peers := pooled_peers behaviors asn in
  exists rests pooled,
    length rests = length own /\
    (forall b, b ∈ behaviors -> AlarmClass.is_alarming_now b = true -> b ∈ own) /\
    (forall i b rest, own !! i = Some b -> rests !! i = Some rest ->
      str_contains BENIGN_OWN_ACTIVITY_TAG (line_text (ExecClass.annotated_summary b) (variant_label b) rest) = false) /\
    str_contains BENIGN_OWN_ACTIVITY_TAG (line_text (default "" (internet_egress_line peers asn)) "connection" pooled) = false /\
    forall line, line ∈ lines <->
      (exists i b rest, own !! i = Some b /\ rests !! i = Some rest /\
        let text := line_text (ExecClass.annotated_summary b) (variant_label b) rest in
        line = if AlarmClass.is_alarming_now b then text else text +:+ " " +:+ BENIGN_OWN_ACTIVITY_TAG) \/
      (peers <> [] /\
        line = line_text (default "" (internet_egress_line peers asn)) "connection" pooled +:+ " " +:+ BENIGN_OWN_ACTIVITY_TAG).
Proof.
  intros lines own peers. destruct (map_budget_zip render_line (own_line <$> own) budget) as (rests & Hlen & Hz). rewrite length_fmap in Hlen.
  exists rests, (map_budget render_line (own_line <$> own) budget).2.
  split; [done|]. split; [intros b; apply alarming_own_line|]. split; [intros; apply line_text_untagged|]. split; [apply line_text_untagged|].
  intros line. unfold lines. rewrite rendered_elem, behavior_lines_split, map_budget_app, elem_of_app. fold own peers. rewrite Hz. apply Morphisms_Prop.or_iff_morphism.
  - rewrite zip_with_fmap_l, list_elem_of_lookup. setoid_rewrite lookup_zip_with_Some. setoid_rewrite render_line_text. simpl.
    split.
    + intros (i & b & rest & -> & Hb & Hr). exists i, b, rest. split; [done|]. split; [done|]. by destruct (AlarmClass.is_alarming_now b).
    + intros (i & b & rest & Hb & Hr & ->). exists i, b, rest. split; [by destruct (AlarmClass.is_alarming_now b)|done].
  - rewrite egress_some with (asn := asn). destruct (internet_egress_line peers asn) as [raw|]; simpl.
    + set (rest := (map_budget _ _ _).2). pose proof (render_line_text (mkBehaviorLine raw "connection" true) rest) as Hr.
      destruct (render_line _ rest) as [l r]. simpl in *. rewrite Hr, list_elem_of_singleton. split; [intros ->; split; [by eexists|done]|by intros [_ ->]].
    + split; [by intros ?%not_elem_of_nil|by intros [[] _]].
Qed.

(** ** An entry's lines *)

(** An id as scanners write it: not empty, with no blank and no structure. *)
Record plain_id (i : string) : Prop := {
  pi_nonempty : i <> "";
  pi_clean : clean i = true;
  pi_token : forall rest, first_token (i +:+ " " +:+ rest) = Some i
}.

Lemma cve_line_id v budget : plain_id (v_id v) -> first_token (cve_evidence_budgeted v budget).1 = Some (v_id v).
Proof.
  intros [_ Hc Ht]. unfold cve_evidence_budgeted. destruct (with_title_spec (cve_structure v) (v_title v) budget) as (t & -> & _).
  unfold cve_structure. rewrite (sanitize_id _ Hc), !app_str_assoc. change (" [severity: ") with (" " +:+ "[severity: ") at 1.
  rewrite !app_str_assoc. apply Ht.
Qed.

Lemma cve_ids_elem vulns budget i : (forall v, v ∈ vulns -> plain_id (v_id v)) ->
  i ∈ cve_ids_of (map_budget cve_evidence_budgeted vulns budget).1 <-> i ∈ v_id <$> vulns.
Proof.
  intros Hp. unfold cve_ids_of. rewrite elem_of_list_to_set, list_elem_of_omap. split.
  - intros (line & (v & b & Hv & ->)%map_budget_elem & Hi). rewrite cve_line_id in Hi by auto. injection Hi as <-. by apply list_elem_of_fmap_2.
  - intros (v & -> & Hv)%list_elem_of_fmap. destruct (map_budget_complete cve_evidence_budgeted vulns budget v Hv) as [b Hb].
    exists (cve_evidence_budgeted v b).1. split; [done|]. apply cve_line_id. auto.
Qed.

Section OnGraph.
Context {G : Type} `{SG : !StableGraph G Node Edge}.
Implicit Types sg : SecurityGraph G.

Definition vulns_of sg (k : NodeKey) : list Vulnerability := (Graph.entry_evidence sg k).1.
Definition behaviors_of sg (k : NodeKey) : list Behavior := (Graph.entry_evidence sg k).2.

Lemma evidence_lines_eq sg k :
  evidence_lines sg k = ((map_budget cve_evidence_budgeted (dedup_worst_per_id (vulns_of sg k)) ENTRY_FREETEXT_BUDGET).1, behaviors_of sg k).
Proof.
  unfold evidence_lines, entry_evidence_budgeted, vulns_of, behaviors_of. destruct (Graph.entry_evidence sg k) as [vulns behaviors].
  by destruct (map_budget _ _ _) as [cves b].
Qed.

Lemma reachable_cve_lines_eq sg k budget :
  (reachable_cve_lines_budgeted sg k budget).1 =
    ((map_budget cve_evidence_budgeted (dedup_worst_per_id (List.filter is_loaded_at_runtime (vulns_of sg k))) budget).1, behaviors_of sg k).
Proof.
  unfold reachable_cve_lines_budgeted, vulns_of, behaviors_of. destruct (Graph.entry_evidence sg k) as [vulns behaviors].
  by destruct (map_budget _ _ _) as [cves b].
Qed.

Lemma dedup_worst_nil vulns : dedup_worst_per_id vulns = [] <-> vulns = [].
Proof.
  destruct (dedup_worst_spec vulns) as (_ & H2 & H3). split; [|by intros ->].
  intros H. destruct vulns as [|v vulns]; [done|]. destruct (H3 v) as (u & Hu & _); [by left|]. rewrite H in Hu. by apply not_elem_of_nil in Hu.
Qed.

Lemma map_budget_nil {A} (render : A -> nat -> string * nat) l budget : (map_budget render l budget).1 = [] <-> l = [].
Proof. rewrite <- !length_zero_iff_nil, map_budget_length. done. Qed.

(** Some vulnerability of the node was seen loading. *)
Lemma reachable_nonempty sg k budget :
  (reachable_cve_lines_budgeted sg k budget).1.1 <> [] <-> exists v, v ∈ vulns_of sg k /\ v_reachability v = LoadedAtRuntime.
Proof.
  rewrite reachable_cve_lines_eq. simpl. rewrite map_budget_nil, dedup_worst_nil. split.
  - intros H. destruct (List.filter is_loaded_at_runtime (vulns_of sg k)) as [|v l] eqn:E; [done|].
    assert (v ∈ List.filter is_loaded_at_runtime (vulns_of sg k)) as [Hl Hv]%elem_of_filter_b by (rewrite E; by left).
    exists v. split; [done|]. by apply bool_decide_eq_true_1 in Hl.
  - intros (v & Hv & Hl) H. assert (v ∈ List.filter is_loaded_at_runtime (vulns_of sg k)) as Hin.
    { apply elem_of_filter_b. split; [by apply bool_decide_eq_true_2|done]. }
    rewrite H in Hin. by apply not_elem_of_nil in Hin.
Qed.

(** The ids of the full list are those of the node's vulnerabilities. *)
Lemma evidence_ids sg k i : (forall v, v ∈ vulns_of sg k -> plain_id (v_id v)) ->
  i ∈ cve_ids_of (evidence_lines sg k).1 <-> i ∈ v_id <$> vulns_of sg k.
Proof.
  intros Hp. destruct (dedup_worst_spec (vulns_of sg k)) as (_ & H2 & H3). rewrite evidence_lines_eq. simpl. rewrite cve_ids_elem by auto. split.
  - intros (v & -> & Hv)%list_elem_of_fmap. apply list_elem_of_fmap_2; auto.
  - intros (v & -> & Hv)%list_elem_of_fmap. destruct (H3 v Hv) as (u & Hu & <- & _). by apply list_elem_of_fmap_2.
Qed.

(** C38: The judge's field for a node: one line for each id one of whose instances was
    seen loading, the worst of those instances, in the order of the ids, and no
    instance that was not seen loading. Each line keeps its structured part; the
    titles are bounded one by one and together. *)
Theorem reachable_lines_exact sg k budget :
  exists shown titles,
    (reachable_cve_lines_budgeted sg k budget).1 =
      (zip_with (fun v t => cve_structure v +:+ title_of t) shown titles, behaviors_of sg k) /\ length titles = length shown /\
    StronglySorted (fun a b => str_leb (v_id a) (v_id b) = true /\ v_id a <> v_id b) shown /\
    (forall v, v ∈ shown -> v ∈ vulns_of sg k /\ v_reachability v = LoadedAtRuntime) /\
    (forall v, v ∈ vulns_of sg k -> v_reachability v = LoadedAtRuntime ->
       exists u, u ∈ shown /\ v_id u = v_id v /\ worse_vuln v u = false) /\
    (spent titles <= budget)%nat /\ (forall t, Some t ∈ titles -> (chars t <= TITLE_CAP)%nat /\ clean t = true).
Proof.
  rewrite reachable_cve_lines_eq. set (vs := List.filter is_loaded_at_runtime (vulns_of sg k)).
  assert (forall v, v ∈ vs <-> v ∈ vulns_of sg k /\ v_reachability v = LoadedAtRuntime) as Hvs.
  { intros v. unfold vs, is_loaded_at_runtime. rewrite elem_of_filter_b, bool_decide_eq_true. tauto. }
  destruct (dedup_worst_spec vs) as (H1 & H2 & H3).
  pose proof (map_budget_titles cve_structure v_title (dedup_worst_per_id vs) budget) as Hm.
  change (fun x => with_title (cve_structure x) (v_title x)) with cve_evidence_budgeted in Hm.
  destruct (map_budget cve_evidence_budgeted _ _) as [lines budget']. destruct Hm as (titles & -> & Hlen & Hs & Ht).
  exists (dedup_worst_per_id vs), titles. split; [done|]. split; [done|]. split; [done|]. split; [by intros v Hv%H2%Hvs|].
  split; [intros v Hv Hl; apply H3, Hvs; done|]. split; [lia|done].
Qed.

End OnGraph.

(** ** What the comments leave out *)

Definition long_write (c : string) : Behavior := FileWrite ("/data/" +:+ foldr (fun _ s => c +:+ s) "" (seq 0 120)).

(** The budget is spent in the order of observation, before the lines are sorted:
    once it runs out, the same behaviours in another order are other lines. *)
Theorem behavior_order_leaks : exists behaviors behaviors' : list Behavior,
  behaviors ≡ₚ behaviors' /\ render_behavior_lines behaviors [] <> render_behavior_lines behaviors' [].
Proof.
  exists ((long_write <$> ["a"; "b"; "c"; "d"; "e"; "f"; "g"; "h"; "i"; "j"]) ++ [FileWrite "/data/x"]),
    (FileWrite "/data/x" :: (long_write <$> ["a"; "b"; "c"; "d"; "e"; "f"; "g"; "h"; "i"; "j"])).
  split; [by rewrite Permutation_app_comm|]. apply (bool_decide_eq_false_1 _). by vm_compute.
Qed.

(** A score that is not a number is above every other. *)
Theorem nan_outranks a b : v_severity a = v_severity b -> v_score a = Some (2047 * 2 ^ 52 + 2 ^ 51)%Z ->
  (exists s, v_score b = Some s /\ (0 <= s <= 2047 * 2 ^ 52)%Z) -> worse_vuln a b = true.
Proof.
  intros Hs Ha (s & Hb & Hr). apply worse_vuln_lex. unfold badness. rewrite Hs, Ha, Hb. right. split; [done|]. left.
  change (total_key (default NEG_INFINITY (Some (2047 * 2 ^ 52 + 2 ^ 51)%Z))) with 9221120237041090560%Z. simpl.
  unfold total_key. assert ((s <? 2 ^ 63) = true)%Z as -> by lia.
  assert (Z.shiftr s 63 = 0)%Z as ->; [|rewrite Z.lxor_0_r; lia].
  rewrite Z.shiftr_div_pow2 by done. apply Z.div_small. lia.
Qed.

Definition demo_vuln (id : string) (r : Reachability) (score : option Z) (fixed : option string) : Vulnerability :=
  mkVuln id Critical false None [] r None (Some "1.0") fixed (Some "A<title>") None score.

(** The instance that loads is kept although another has the better score. *)
Example dedup_demo :
  let vs := [demo_vuln "CVE-2024-1" NotObserved (Some 4621706527598287258%Z) None; demo_vuln "CVE-2021-44228" LoadedAtRuntime None (Some "2.0");
             demo_vuln "CVE-2024-1" LoadedAtRuntime None None] in
  (map_budget cve_evidence_budgeted (dedup_worst_per_id (List.filter is_loaded_at_runtime vs)) 8).1 =
    ["CVE-2021-44228 [severity: critical] [reachability: loaded-at-runtime] [fix available: 1.0 to 2.0] — A title ";
     "CVE-2024-1 [severity: critical] [reachability: loaded-at-runtime] [no fix available]"] /\
  v_reachability <$> dedup_worst_per_id vs = [LoadedAtRuntime; NotObserved].
Proof. by vm_compute. Qed.

Lemma plain_id_demo : plain_id "CVE-2021-44228".
Proof. by split. Qed.
