(* ===== verification/Feeds.v ===== *)
(** * The exploit-intelligence feeds

    engine/src/engine/observe/feed_reload.rs, exploit_intel.rs and epss.rs: the
    files that say which vulnerabilities are exploited, how likely each is to be,
    and who announces an address; how they are read, kept current, and laid over
    the scans of a pass. A file that cannot be read is [None]; the JSON reader is
    an argument of the catalogue. *)

From S2P Require Import Prelude Text Json ImageRef PetGraph Attack Behavior Graph Snapshot Classify Asn Evidence.

#[local] Arguments String.append : simpl nomatch.

(** ** A feed, and the file it is kept current with *)

Class Feed (T : Type) := {
  feed_empty : T;
  feed_parse : string -> T;
  row_count : T -> nat;
  is_feed_empty : T -> bool
}.

(** What the reload machinery relies on. *)
Class FeedLaws (T : Type) `{F : !Feed T} : Prop := {
  feed_empty_rows : row_count (feed_empty : T) = 0;
  is_feed_empty_rows (t : T) : is_feed_empty t = true <-> row_count t = 0
}.

Section Reload.
Context {T : Type} `{F : !Feed T}.

Record ReloadableFeed := mkFeed { rf_current : T }.

Definition read_and_parse (file : option string) : option T := feed_parse <$> file.

Definition load_initial (file : option string) : ReloadableFeed := mkFeed (default feed_empty (read_and_parse file)).

Definition from_store (store : T) : ReloadableFeed := mkFeed store.

Definition snapshot (f : ReloadableFeed) : T := rf_current f.

Definition reload_once (f : ReloadableFeed) (file : option string) : bool * ReloadableFeed :=
  match read_and_parse file with
  | Some fresh =>
      if is_feed_empty fresh && negb (is_feed_empty (rf_current f)) then (false, f) else (true, mkFeed fresh)
  | None => (false, f)
  end.

(** The background task. *)
Definition reloads (f : ReloadableFeed) (files : list (option string)) : ReloadableFeed :=
  foldl (fun f file => (reload_once f file).2) f files.

End Reload.
Arguments ReloadableFeed : clear implicits.

Definition DEFAULT_RELOAD_SECS : N := 21600.

Definition parse_reload_interval (raw : option string) : N :=
  match (v ← raw; parse_u64 (trim v)) with
  | Some s => if (0 <? s)%N then s else DEFAULT_RELOAD_SECS
  | None => DEFAULT_RELOAD_SECS
  end.

(** ** Known exploited *)

Abbreviation KevCatalog := (gset string).

Section Kev.
Variable from_str : string -> option Json.

Definition kev_list (contents : string) : KevCatalog :=
  list_to_set (List.filter (fun l => negb (bool_decide (l = "")) && negb (starts_with "#" l)) (trim <$> lines contents)).

Definition kev_parse (contents : string) : KevCatalog :=
  match from_str contents with
  | Some (JObj root) =>
      match json_get (JObj root) "vulnerabilities" with
      | Some (JArr vulns) => list_to_set (omap (fun v => id ← json_get v "cveID"; as_str id) vulns)
      | _ => kev_list contents
      end
  | _ => kev_list contents
  end.

#[export] Instance kev_feed : Feed KevCatalog := {
  feed_empty := ∅; feed_parse := kev_parse; row_count := size; is_feed_empty c := bool_decide (c = ∅)
}.

End Kev.

Definition mark_vuln (kev : KevCatalog) (v : Vulnerability) : Vulnerability :=
  if bool_decide (v_id v ∈ kev)
  then mkVuln (v_id v) (v_severity v) true (v_epss v) (v_sources v) (v_reachability v) (v_pkg_name v) (v_installed_version v)
         (v_fixed_version v) (v_title v) (v_primary_link v) (v_score v)
  else v.

Definition mark_exploited (kev : KevCatalog) (images : list ImageVulnerabilities) : list ImageVulnerabilities :=
  (fun im => mkImageVulns (iv_image im) (mark_vuln kev <$> iv_vulnerabilities im)) <$> images.

(** ** Numbers read *)

(** The nearest float to [n / d], as bits without the sign. *)
Definition float_of_ratio (mant expo n d : Z) : Z :=
  if (n =? 0)%Z then 0%Z
  else
    let bias := (2 ^ (expo - 1) - 1)%Z in
    let l := (Z.log2 n - Z.log2 d)%Z in
    let e := if (n * 2 ^ Z.max (- l) 0 <? d * 2 ^ Z.max l 0)%Z then (l - 1)%Z else l in
    let e := Z.max e (1 - bias) in
    let s := (mant - e)%Z in
    let q := round_even (n * 2 ^ Z.max s 0) (d * 2 ^ Z.max (- s) 0) in
    Z.min ((e + bias - 1) * 2 ^ mant + q) ((2 ^ expo - 1) * 2 ^ mant).

Fixpoint span_digits (s : string) : string * string :=
  match s with
  | String c s' => if ((48 <=? Ascii.N_of_ascii c) && (Ascii.N_of_ascii c <=? 57))%N
                   then let '(d, r) := span_digits s' in (String c d, r) else ("", s)
  | EmptyString => ("", "")
  end.

Fixpoint decimal (s : string) (acc : Z) : Z :=
  match s with String c s => decimal s (acc * 10 + (Z.of_N (Ascii.N_of_ascii c) - 48))%Z | EmptyString => acc end.

Definition signed (s : string) : Z * string :=
  match strip_prefix "-" s, strip_prefix "+" s with
  | Some r, _ => (-1, r)%Z
  | None, Some r => (1, r)%Z
  | None, None => (1, s)%Z
  end.

(** [str::parse::<f32>], [str::parse::<f64>]: the bits. *)
Definition parse_float (mant expo : Z) (s : string) : option Z :=
  let '(sign, s) := signed s in
  let inf := ((2 ^ expo - 1) * 2 ^ mant)%Z in
  let neg := if (sign <? 0)%Z then (2 ^ (mant + expo))%Z else 0%Z in
  let low := to_ascii_lowercase s in
  if bool_decide (low = "inf") || bool_decide (low = "infinity") then Some (neg + inf)%Z
  else if bool_decide (low = "nan") then Some (neg + inf + 2 ^ (mant - 1))%Z
  else
    let '(whole, s) := span_digits s in
    let '(frac, s) := match strip_prefix "." s with Some r => span_digits r | None => ("", s) end in
    if bool_decide (whole = "") && bool_decide (frac = "") then None
    else
      exp ← (if bool_decide (s = "") then Some 0%Z
             else rest ← (match strip_prefix "e" s with Some r => Some r | None => strip_prefix "E" s end);
                  let '(esign, rest) := signed rest in
                  let '(digits, rest) := span_digits rest in
                  if bool_decide (digits = "") || negb (bool_decide (rest = "")) then None else Some (esign * decimal digits 0)%Z);
      let n := decimal (whole +:+ frac) 0 in
      let e := (exp - Z.of_nat (String.length frac))%Z in
      Some (neg + float_of_ratio mant expo (n * 10 ^ Z.max e 0) (10 ^ Z.max (- e) 0))%Z.

Definition parse_f32 : string -> option Z := parse_float 23 8.

(** In [0.0..=1.0], as bits: a positive up to one, or the negative zero. *)
Definition probability (bits : Z) : bool := ((bits <=? 127 * 2 ^ 23) || (bits =? 2 ^ 31))%Z.

(** ** Exploit prediction *)

Abbreviation EpssStore := (gmap string Z).

Definition Epss_MAX_LINE_LEN : nat := 256.
Definition MAX_FIELDS : nat := 8.
Definition comma : Ascii.ascii := Ascii.ascii_of_nat 44.
Definition dash : Ascii.ascii := Ascii.ascii_of_nat 45.

(** [str::splitn]: the last piece is the rest. *)
Fixpoint splitn (n : nat) (c : Ascii.ascii) (s : string) : list string :=
  match n with
  | 0 => []
  | 1 => [s]
  | S n => match split_once c s with Some (l, r) => l :: splitn n c r | None => [s] end
  end.

Fixpoint all_digits (s : string) : bool :=
  match s with String c s => ((48 <=? Ascii.N_of_ascii c) && (Ascii.N_of_ascii c <=? 57))%N && all_digits s | EmptyString => true end.

Definition is_cve_id (s : string) : bool :=
  match split dash s with
  | prefix :: y :: n :: _ =>
      eq_ignore_ascii_case prefix "CVE" && negb (bool_decide (y = "")) && all_digits y && negb (bool_decide (n = "")) && all_digits n
  | _ => false
  end.

Definition epss_row (line : string) : option (string * Z) :=
  let line := trim line in
  if bool_decide (line = "") || starts_with "#" line || (Epss_MAX_LINE_LEN <? String.length line) then None
  else match splitn MAX_FIELDS comma line with
       | cve :: fields =>
           let cve := trim cve in
           if negb (is_cve_id cve) then None
           else match fields with
                | epss :: _ => bits ← parse_f32 (trim epss); if probability bits then Some (cve, bits) else None
                | [] => None
                end
       | [] => None
       end.

Definition epss_parse (contents : string) : EpssStore :=
  foldl (fun scores r => <[r.1 := r.2]> scores) ∅ (omap epss_row (lines contents)).

#[export] Instance epss_feed : Feed EpssStore := {
  feed_empty := ∅; feed_parse := epss_parse; row_count := size; is_feed_empty s := bool_decide (s = ∅)
}.

Definition annotate_vuln (scores : EpssStore) (v : Vulnerability) : Vulnerability :=
  match scores !! v_id v with
  | Some score => mkVuln (v_id v) (v_severity v) (v_exploited_in_wild v) (Some score) (v_sources v) (v_reachability v) (v_pkg_name v)
                    (v_installed_version v) (v_fixed_version v) (v_title v) (v_primary_link v) (v_score v)
  | None => v
  end.

Definition annotate (scores : EpssStore) (images : list ImageVulnerabilities) : list ImageVulnerabilities :=
  if bool_decide (scores = ∅) then images
  else (fun im => mkImageVulns (iv_image im) (annotate_vuln scores <$> iv_vulnerabilities im)) <$> images.

(** The scans as a pass reads them (run_loop.rs). *)
Definition scans_now (kev : KevCatalog) (scores : EpssStore) (images : list ImageVulnerabilities) : list ImageVulnerabilities :=
  annotate scores (mark_exploited kev images).

(** ** Providers *)

#[export] Instance asn_feed : Feed AsnDb := {
  feed_empty := []; feed_parse := asn_parse; row_count := length; is_feed_empty db := match db with [] => true | _ => false end
}.

Example parse_f32_demo :
  parse_f32 <$> ["0.94334"; "1e0"; "1."; ".5"; "-0"; "inf"; "0.1e-1"; "1e-46"; "abc"; "."; "1e"; "3.4028236e38"] =
    [Some 1064402619%Z; Some 1065353216%Z; Some 1065353216%Z; Some 1056964608%Z; Some 2147483648%Z; Some 2139095040%Z; Some 1008981770%Z;
     Some 0%Z; None; None; None; Some 2139095040%Z].
Proof. vm_compute. reflexivity. Qed.

(** ** Any feed keeps what it last read well *)

Section Served.
Context {T : Type} `{FL : FeedLaws T}.

Lemma empty_is_empty : is_feed_empty (feed_empty : T) = true.
Proof. apply is_feed_empty_rows, feed_empty_rows. Qed.

Definition readable_rows (file : option string) : Prop := exists c, file = Some c /\ is_feed_empty (feed_parse c : T) = false.

(** What is served after any number of reads, the first at the start: the last file
    that could be read and had a row, and nothing if there was none. A file that
    cannot be read or has no row never takes rows away. *)
Lemma reloads_spec first files :
  let f := reloads (load_initial first : ReloadableFeed T) files in
  (exists pre c post, first :: files = pre ++ Some c :: post /\ is_feed_empty (feed_parse c : T) = false /\
     (forall file, file ∈ post -> ~ readable_rows file) /\ snapshot f = feed_parse c) \/
  ((forall file, file ∈ first :: files -> ~ readable_rows file) /\ is_feed_empty (snapshot f) = true).
Proof.
  simpl. induction files as [|file files IH] using rev_ind.
  - unfold load_initial, read_and_parse, reloads. destruct first as [c|]; simpl.
    + destruct (is_feed_empty (feed_parse c : T)) eqn:E; [right|left].
      * split; [|done]. intros file ->%list_elem_of_singleton (c' & [= <-] & Hc). congruence.
      * exists [], c, []. split; [done|]. split; [done|]. split; [by intros file ?%not_elem_of_nil|done].
    + right. split; [|apply empty_is_empty]. intros file ->%list_elem_of_singleton (c' & [=] & _).
  - unfold reloads in *. rewrite foldl_app. cbn [foldl]. set (f := foldl _ _ files) in *.
    assert (~ readable_rows file -> snapshot (reload_once f file).2 = snapshot f \/
              (is_feed_empty (snapshot f) = true /\ is_feed_empty (snapshot (reload_once f file).2) = true)) as Hskip.
    { intros Hn. unfold reload_once, read_and_parse. destruct file as [c|]; [|by left]. simpl.
      destruct (is_feed_empty (feed_parse c : T)) eqn:E; [|exfalso; apply Hn; by exists c]. simpl.
      destruct (is_feed_empty (rf_current f)) eqn:E'; simpl; [by right|by left]. }
    assert ((exists c, file = Some c /\ is_feed_empty (feed_parse c : T) = false) \/ ~ readable_rows file) as [(c & -> & Hr)|Hn].
    { destruct file as [c|]; [|right; by intros (? & [=] & _)]. destruct (is_feed_empty (feed_parse c : T)) eqn:E; [right|left; eauto].
      intros (c' & [= <-] & Hc). congruence. }
    + left. exists (first :: files), c, []. split; [done|]. split; [done|].
      split; [by intros file ?%not_elem_of_nil|]. unfold reload_once, read_and_parse. simpl. by rewrite Hr.
    + destruct (Hskip Hn) as [Hs|[He He']].
      * rewrite Hs. destruct IH as [(pre & c & post & Heq & Hc & Hpost & Hsnap)|[Hno Hemp]]; [left|right].
        -- exists pre, c, (post ++ [file]). split; [by rewrite app_comm_cons, Heq, <- app_assoc|]. split; [done|].
           split; [|done]. intros x [Hx| ->%list_elem_of_singleton]%elem_of_app; [by apply Hpost|done].
        -- split; [|done]. rewrite app_comm_cons. intros x [Hx| ->%list_elem_of_singleton]%elem_of_app; [by apply Hno|done].
      * right. split; [|done]. destruct IH as [(pre & c & post & _ & Hc & _ & Hsnap)|[Hno _]]; [congruence|].
        rewrite app_comm_cons. intros x [Hx| ->%list_elem_of_singleton]%elem_of_app; [by apply Hno|done].
Qed.

(** A feed serves the last file that could be read and had a row, whatever was read
    before and after; the answer of a reload says whether its file is now served. *)
Theorem feed_serves_last_good first files :
  let f := reloads (load_initial first : ReloadableFeed T) files in
  ((exists pre c post, first :: files = pre ++ Some c :: post /\ is_feed_empty (feed_parse c : T) = false /\
     (forall file, file ∈ post -> ~ readable_rows file) /\ snapshot f = feed_parse c) \/
   ((forall file, file ∈ first :: files -> ~ readable_rows file) /\ is_feed_empty (snapshot f) = true)) /\
  forall file, (reload_once f file).1 = true <-> exists c, file = Some c /\ snapshot (reload_once f file).2 = feed_parse c /\
    (is_feed_empty (feed_parse c : T) = false \/ is_feed_empty (snapshot f) = true).
Proof.
  intros f. split; [apply reloads_spec|]. intros file. unfold reload_once, read_and_parse, snapshot. destruct file as [c|]; simpl; [|naive_solver].
  destruct (is_feed_empty (feed_parse c)) eqn:E, (is_feed_empty (rf_current f)) eqn:E'; simpl; split; try done; try (intros _; exists c; by auto).
  intros (c' & [= <-] & _ & [?|?]); congruence.
Qed.

End Served.

#[export] Instance kev_laws from_str : FeedLaws KevCatalog (F := kev_feed from_str).
Proof. split; [by apply size_empty|]. intros t. simpl. rewrite bool_decide_eq_true. split; [by intros ->; apply size_empty|intros Hs; by apply leibniz_equiv, size_empty_inv]. Qed.

#[export] Instance epss_laws : FeedLaws EpssStore.
Proof. split; [apply map_size_empty|]. intros t. simpl. rewrite bool_decide_eq_true. by rewrite map_size_empty_iff. Qed.

#[export] Instance asn_laws : FeedLaws AsnDb.
Proof. split; [done|]. intros [|r t]; simpl; [done|]. split; [done|lia]. Qed.

(** ** What the feeds hold *)

Lemma epss_fold rows (m : EpssStore) k : foldl (fun scores r => <[r.1 := r.2]> scores) m rows !! k =
  match last (List.filter (fun r => bool_decide (r.1 = k)) rows) with Some r => Some r.2 | None => m !! k end.
Proof.
  induction rows as [|r rows IH] using rev_ind; [done|]. rewrite foldl_app. cbn [foldl]. rewrite List.filter_app. simpl.
  case_bool_decide as Hk.
  - by rewrite last_snoc, Hk, lookup_insert_eq.
  - by rewrite app_nil_r, lookup_insert_ne.
Qed.

Lemma probability_bits b : probability b = true <-> (b <= 1065353216 \/ b = 2147483648)%Z.
Proof. unfold probability. rewrite orb_true_iff, Z.leb_le, Z.eqb_eq. lia. Qed.

(** The score of an id is that of its last accepted row, and it is a probability. *)
Theorem epss_parse_exact contents k :
  epss_parse contents !! k = (r ← last (List.filter (fun r => bool_decide (r.1 = k)) (omap epss_row (lines contents))); Some r.2) /\
  forall b, epss_parse contents !! k = Some b -> is_cve_id k = true /\ (b <= 1065353216 \/ b = 2147483648)%Z.
Proof.
  assert (epss_parse contents !! k = (r ← last (List.filter (fun r => bool_decide (r.1 = k)) (omap epss_row (lines contents))); Some r.2)) as H.
  { unfold epss_parse. rewrite epss_fold. by destruct (last _). }
  split; [done|]. intros b Hb. rewrite H in Hb. apply bind_Some in Hb as (r & Hr & [= <-]).
  assert (r ∈ List.filter (fun r => bool_decide (r.1 = k)) (omap epss_row (lines contents))) as [Hk%bool_decide_eq_true_1 Hin]%elem_of_filter_b.
  { apply last_Some in Hr as [l ->]. apply elem_of_app. right. by left. }
  apply list_elem_of_omap in Hin as (line & _ & Hrow). unfold epss_row in Hrow. destruct (_ || _); [done|].
  destruct (splitn MAX_FIELDS comma (trim line)) as [|cve fields]; [done|]. destruct (is_cve_id (trim cve)) eqn:Hc; [|done]. simpl in Hrow.
  destruct fields as [|epss rest]; [done|]. apply bind_Some in Hrow as (bits & _ & Hrow). destruct (probability bits) eqn:Hp; [|done].
  injection Hrow as <-. simpl in *. subst k. split; [done|]. by apply probability_bits.
Qed.

Lemma annotate_eq scores images :
  annotate scores images = (fun im => mkImageVulns (iv_image im) (annotate_vuln scores <$> iv_vulnerabilities im)) <$> images.
Proof.
  unfold annotate. case_bool_decide as H; [|done]. rewrite H. rewrite <- (list_fmap_id images) at 1. apply list_fmap_ext. intros i im _.
  destruct im as [image vs]. simpl. f_equal. rewrite <- (list_fmap_id vs) at 1. apply list_fmap_ext. intros j v _. unfold annotate_vuln.
  by rewrite lookup_empty.
Qed.

(** A pass sees each scan it was given, in place, with the two feeds laid over each
    vulnerability: exploited if it was or the catalogue has its id, its likelihood the
    feed's if there is one, and nothing else changed. *)
Theorem scans_now_exact kev scores images :
  Forall2 (fun im im' => iv_image im' = iv_image im /\
    Forall2 (fun v v' => v' = mkVuln (v_id v) (v_severity v) (v_exploited_in_wild v || bool_decide (v_id v ∈ kev))
        (match scores !! v_id v with Some s => Some s | None => v_epss v end) (v_sources v) (v_reachability v) (v_pkg_name v)
        (v_installed_version v) (v_fixed_version v) (v_title v) (v_primary_link v) (v_score v))
      (iv_vulnerabilities im) (iv_vulnerabilities im'))
    images (scans_now kev scores images).
Proof.
  unfold scans_now. rewrite annotate_eq. unfold mark_exploited. rewrite <- list_fmap_compose. apply Forall2_fmap_r, Forall_Forall2_diag, Forall_true.
  intros im. simpl. split; [done|]. rewrite <- list_fmap_compose. apply Forall2_fmap_r, Forall_Forall2_diag, Forall_true.
  intros v. unfold compose, mark_vuln. destruct v as [i sev ex ep so re pk ins fx ti li sc]. simpl.
  case_bool_decide; simpl; unfold annotate_vuln; simpl; rewrite ?orb_true_r, ?orb_false_r; by destruct (scores !! i).
Qed.

(** ** What the comments leave out *)

Definition kev_json : string := "{" +:+ String (Ascii.ascii_of_nat 34) "vulnerabilities".

(** A catalogue cut off in the middle of its JSON is read as a list of lines, which
    is not empty: it takes the place of the good catalogue. *)
Theorem truncated_kev_replaces (from_str : string -> option Json) : from_str kev_json = None ->
  let f := from_store ({["CVE-2021-44228"]} : KevCatalog) in
  (reload_once (F := kev_feed from_str) f (Some kev_json)).1 = true /\
  "CVE-2021-44228" ∉ (snapshot (reload_once (F := kev_feed from_str) f (Some kev_json)).2 : KevCatalog).
Proof.
  intros H f. unfold reload_once, read_and_parse. simpl. unfold kev_parse. rewrite H.
  assert (kev_list kev_json = {[kev_json]}) as -> by (by apply (bool_decide_eq_true_1 _)).
  rewrite bool_decide_eq_false_2 by set_solver. simpl. split; [done|]. apply not_elem_of_singleton. by vm_compute.
Qed.

(** An id in lower case is accepted and kept, but scores no vulnerability. *)
Example epss_case :
  epss_parse "cve-2021-44228,0.5" !! "cve-2021-44228" = Some 1056964608%Z /\
  epss_parse "cve-2021-44228,0.5" !! "CVE-2021-44228" = None.
Proof. by vm_compute. Qed.

Lemma truncated_kev_replaces_witness :
  let f := from_store ({["CVE-2021-44228"]} : KevCatalog) in
  (reload_once (F := kev_feed (fun _ => None)) f (Some kev_json)).1 = true.
Proof. exact (proj1 (truncated_kev_replaces (fun _ => None) eq_refl)). Defined.
