(* ===== verification/Redact.v ===== *)
(** * What leaves the cluster

    engine/src/engine/redact/: the scrubbers, and notify.rs: the payloads of the
    breach notifier built with them. The decimal digits of Unicode, which the
    regular expression for ids means by [\d], are an argument. Then
    what the scrubbers promise: a scrubbed name does not survive, and a payload
    carries nothing else of the cluster. *)

From S2P Require Import Prelude Text Json ImageRef PetGraph Attack Behavior Asn Graph AgentLiveness Verdicts Evidence.
From S2P Require Import EvidenceFacts.

#[local] Arguments String.append : simpl nomatch.

(** ** redact/ *)

Definition REDACTED : string := "[redacted]".

(** Stable, the longest first. *)
Definition longer_first (a b : string) : bool := String.length b <=? String.length a.

Definition ordered_names (names : list string) : list string :=
  dedup_by (fun a b : string => bool_decide (a = b))
    (sort_by longer_first (List.filter (fun n => negb (bool_decide (n = ""))) (trim <$> names))).

Definition scrub_decision_names (text : string) (names : list string) : string :=
  foldl (fun out name => if str_contains name out then str_replace name REDACTED out else out) text (ordered_names names).

Section Cve.
(** One leading decimal digit of Unicode. *)
Variable strip_digit : string -> option string.

Fixpoint strip_digits (n : nat) (s : string) : option string :=
  match n with 0 => Some s | S n => rest ← strip_digit s; strip_digits n rest end.

(** As many digits as there are. *)
Fixpoint skip_digits (fuel : nat) (s : string) : string :=
  match fuel with
  | 0 => s
  | S fuel => match strip_digit s with Some rest => skip_digits fuel rest | None => s end
  end.

(** [(?i)CVE-\d{4}-\d{4,}] at the front. *)
Definition cve_token (s : string) : option string :=
  match s with
  | String c (String v (String e rest)) =>
      if bool_decide (to_ascii_uppercase (String c (String v (String e ""))) = "CVE") then
        rest ← strip_prefix "-" rest; rest ← strip_digits 4 rest; rest ← strip_prefix "-" rest; rest ← strip_digits 4 rest;
        Some (skip_digits (String.length rest) rest)
      else None
  | _ => None
  end.

Definition scrub_cve_tokens (text : string) : string := replace_matches (S (String.length text)) cve_token REDACTED text.

End Cve.

Definition attack_leb (a b : string * string * string) : bool :=
  match String.compare a.1.1 b.1.1, String.compare a.1.2 b.1.2 with
  | Lt, _ => true | Gt, _ => false
  | Eq, Lt => true | Eq, Gt => false
  | Eq, Eq => str_leb a.2 b.2
  end.

(** A [BTreeSet] of triples, in order. *)
Definition distinct_attacks (refs : list AttackRef) : list (string * string * string) :=
  dedup_by (fun a b : string * string * string => bool_decide (a = b))
    (sort_by attack_leb ((fun a => (tactic_id (tactic a), technique_id a, technique a)) <$> refs)).

Definition attack_json (a : string * string * string) : Json :=
  JObj [("tactic", JStr a.1.1); ("technique_id", JStr a.1.2); ("technique", JStr (sanitize a.2))].

Definition redacted_attack_outcome (refs : list AttackRef) (cap : nat) : list Json :=
  attack_json <$> take cap (distinct_attacks refs).

(** ** notify.rs *)

Definition ATTACK_CAP : nat := 16.

Inductive Enforcement := Armed | Shadow.

Definition from_armed (armed : bool) : Enforcement := if armed then Armed else Shadow.
Definition action_phrase (e : Enforcement) : string := match e with Armed => "isolated" | Shadow => "would isolate" end.
Definition enforcement_label (e : Enforcement) : string := match e with Armed => "armed" | Shadow => "shadow" end.

Record BreachNotice := mkNotice {
  bn_entry : string;
  bn_verdict : Verdict;
  bn_objectives : list (NodeKey * AttackRef);
  bn_enforcement : Enforcement;
  bn_reach : option string
}.

Definition decision_names (n : BreachNotice) : list string :=
  bn_entry n :: concat ((fun o => o.1 :: match rsplit_once slash o.1 with Some (_, bare) => [bare] | None => [] end) <$> bn_objectives n).

Section Payload.
Variable strip_digit : string -> option string.

Definition verdict_text (n : BreachNotice) : string :=
  scrub_cve_tokens strip_digit (scrub_decision_names (sanitize (summary (bn_verdict n))) (decision_names n)).

Definition attack_detail (n : BreachNotice) : list Json :=
  (fun o => attack_json (tactic_id (tactic o.2), technique_id o.2, technique o.2)) <$> take ATTACK_CAP (bn_objectives n).

Definition redacted_payload (n : BreachNotice) (verbose : bool) : Json :=
  JObj (
    [("decision", JStr (verdict_label (bn_verdict n)));
     ("entry", JStr (sanitize (bn_entry n)));
     ("attack", JArr (redacted_attack_outcome (snd <$> bn_objectives n) ATTACK_CAP));
     ("objectives_reached", JNum (Z.of_nat (length (bn_objectives n))));
     ("verdict", JStr (verdict_text n));
     ("enforcement", JStr (enforcement_label (bn_enforcement n)));
     ("message", JStr ("protector " +:+ action_phrase (bn_enforcement n) +:+ " " +:+ sanitize (bn_entry n) +:+ " (" +:+ verdict_text n +:+ ")"))] ++
    (if verbose then [("attack_detail", JArr (attack_detail n))] else []) ++
    match bn_reach n with Some reach => [("reach", JStr (sanitize reach))] | None => [] end).

End Payload.

Inductive CoverageEvent := Degraded | CoverageRestored.

Record CoverageNotice := mkCoverageNotice {
  cn_event : CoverageEvent; cn_expected : nat; cn_blind : nat; cn_last_observation : option string
}.

Definition redacted_coverage_payload (n : CoverageNotice) : Json :=
  let plural := if cn_expected n =? 1 then "" else "s" in
  let '(event, message) :=
    match cn_event n with
    | Degraded => ("runtime_coverage_degraded",
        "protector runtime coverage degraded — " +:+ pretty (cn_blind n) +:+ " of " +:+ pretty (cn_expected n) +:+ " sensor node" +:+ plural +:+
        " blind (protector's own sensors went dark; paths on these nodes are no longer watched)")
    | CoverageRestored => ("runtime_coverage_restored",
        "protector runtime coverage restored — " +:+ pretty (cn_expected n - cn_blind n) +:+ " of " +:+ pretty (cn_expected n) +:+
        " sensor node" +:+ plural +:+ " reporting again")
    end in
  JObj (
    [("event", JStr event); ("feed", JStr "Runtime"); ("blind", JNum (Z.of_nat (cn_blind n))); ("expected", JNum (Z.of_nat (cn_expected n)));
     ("message", JStr message)] ++
    match cn_event n, cn_last_observation n with Degraded, Some last => [("last_observation", JStr last)] | _, _ => [] end).

(** ** Names in text *)

Definition close_bracket : Ascii.ascii := Ascii.ascii_of_nat 93.

(** A name of Kubernetes, say: not empty, without brackets, and not a part of the
    word put in its place. *)
Record plain_name (n : string) : Prop := {
  pn_nonempty : n <> "";
  pn_open : no_char open_bracket n = true;
  pn_close : no_char close_bracket n = true;
  pn_word : str_contains n "redacted" = false
}.

Lemma str_contains_cons n c s : str_contains n (String c s) = starts_with n (String c s) || str_contains n s.
Proof. done. Qed.

Lemma starts_with_empty n : n <> "" -> starts_with n "" = false.
Proof. by destruct n. Qed.

Lemma starts_before c n a x : no_char c n = true -> starts_with n (a +:+ String c x) = true -> starts_with n a = true.
Proof.
  revert n. induction a as [|y a IH]; intros n Hn H.
  - destruct n as [|z n]; [done|]. simpl in Hn. apply andb_true_iff in Hn as [Hz _]. unfold starts_with in H. simpl in H.
    by destruct (Ascii.eqb z c).
  - destruct n as [|z n]; [done|]. change (String y a +:+ String c x) with (String y (a +:+ String c x)) in H.
    destruct (Ascii.eqb_spec z y) as [->|Hne].
    + rewrite starts_with_cons in *. simpl in Hn. apply andb_true_iff in Hn as [_ Hn]. by apply IH.
    + unfold starts_with in H. simpl in H. apply Ascii.eqb_neq in Hne. by rewrite Hne in H.
Qed.

Lemma contains_before c n a x : n <> "" -> no_char c n = true ->
  str_contains n (a +:+ String c x) = true -> str_contains n a = true \/ str_contains n x = true.
Proof.
  intros Hne Hn. induction a as [|y a IH].
  - change ("" +:+ String c x) with (String c x). rewrite str_contains_cons. intros [H|H]%orb_true_iff; [|by right].
    apply (starts_before c n "" x Hn) in H. by rewrite starts_with_empty in H.
  - change (String y a +:+ String c x) with (String y (a +:+ String c x)). rewrite !str_contains_cons. intros [H|H]%orb_true_iff.
    + left. change (String y (a +:+ String c x)) with (String y a +:+ String c x) in H. by rewrite (starts_before _ _ _ _ Hn H).
    + destruct (IH H) as [->|]; [left; by rewrite orb_true_r|by right].
Qed.

Lemma redacted_contains n x : plain_name n -> str_contains n (REDACTED +:+ x) = true -> str_contains n x = true.
Proof.
  intros [Hne Ho Hc Hw] H. change (REDACTED +:+ x) with ("" +:+ String open_bracket ("redacted" +:+ String close_bracket x)) in H.
  apply contains_before in H as [H|H]; [by destruct n| |done..]. apply contains_before in H as [H|H]; [congruence|done..].
Qed.

Lemma cons_contains fuel m n c s : plain_name n ->
  str_contains n (String c (replace_matches fuel m REDACTED s)) = true ->
  starts_with n (String c s) = true \/ str_contains n (replace_matches fuel m REDACTED s) = true.
Proof.
  intros [Hne Ho _ _]. rewrite str_contains_cons. intros [H|H]%orb_true_iff; [left|by right].
  destruct n as [|a n]; [done|]. destruct (Ascii.eqb a c) eqn:Hac.
  - apply Ascii.eqb_eq in Hac as ->. rewrite starts_with_cons in *. simpl in Ho. apply andb_true_iff in Ho as [_ Ho].
    by apply replace_prefix in H.
  - unfold starts_with in H. simpl in H. by rewrite Hac in H.
Qed.

Lemma str_contains_app_r n p s : str_contains n s = true -> str_contains n (p +:+ s) = true.
Proof. intros H. induction p as [|a p IH]; [done|]. change (String a p +:+ s) with (String a (p +:+ s)). by rewrite str_contains_cons, IH, orb_true_r. Qed.

(** Replacing never makes a name appear. *)
Lemma replace_contains fuel m n s : plain_name n -> (forall s rest, m s = Some rest -> exists p, s = p +:+ rest) ->
  str_contains n (replace_matches fuel m REDACTED s) = true -> str_contains n s = true.
Proof.
  intros Hn Hm. revert s. induction fuel as [|fuel IH]; intros s H; [done|]. cbn [replace_matches] in H.
  destruct (m s) as [rest|] eqn:Hs.
  - apply redacted_contains in H; [|done]. apply IH in H. destruct (Hm _ _ Hs) as [p ->]. by apply str_contains_app_r.
  - destruct s as [|c s]; [done|]. apply cons_contains in H as [H|H]; [|by rewrite str_contains_cons, (IH _ H), orb_true_r|done].
    by rewrite str_contains_cons, H.
Qed.

Lemma replace_gone fuel n s : plain_name n -> String.length s < fuel ->
  str_contains n (replace_matches fuel (strip_prefix n) REDACTED s) = false.
Proof.
  intros Hn. revert s. induction fuel as [|fuel IH]; intros s Hlen; [lia|]. apply not_true_iff_false. intros H. cbn [replace_matches] in H.
  destruct (strip_prefix n s) as [rest|] eqn:Hs.
  - apply redacted_contains in H; [|done]. rewrite IH in H; [done|]. apply strip_prefix_app in Hs as ->. rewrite str_length_app in Hlen.
    destruct n; [by destruct Hn|]. simpl in Hlen. lia.
  - destruct s as [|c s]; [destruct n; [by destruct Hn|done]|]. apply cons_contains in H as [H|H]; [|rewrite IH in H; [done|simpl in Hlen; lia]|done].
    unfold starts_with in H. by rewrite Hs in H.
Qed.

Lemma strip_prefix_suffix from s rest : strip_prefix from s = Some rest -> exists p, s = p +:+ rest.
Proof. intros ->%strip_prefix_app. eauto. Qed.

(** ** Scrubbed names *)

Lemma ordered_names_elem names n : n ∈ ordered_names names <-> n <> "" /\ n ∈ trim <$> names.
Proof.
  unfold ordered_names. set (f := List.filter _ _).
  assert (n ∈ f <-> n <> "" /\ n ∈ trim <$> names) as <-.
  { unfold f. by rewrite elem_of_filter_b, negb_true_iff, bool_decide_eq_false. }
  split.
  - intros H%elem_of_dedup_by. by apply elem_of_sort_by in H.
  - intros H. apply (elem_of_sort_by longer_first) in H.
    destruct (dedup_by_repr (fun a b : string => bool_decide (a = b)) ltac:(intros; by apply bool_decide_eq_true_2) n _ H) as (y & Hy & ->%bool_decide_eq_true_1). done.
Qed.

Lemma scrub_spec names text n : plain_name n -> Forall plain_name (ordered_names names) ->
  str_contains n (scrub_decision_names text names) = true -> str_contains n text = true /\ n ∉ ordered_names names.
Proof.
  intros Hn Hall. unfold scrub_decision_names. generalize dependent (ordered_names names). intros l.
  induction l as [|m l IH] using rev_ind; intros Hall; simpl; [intros H; split; [done|apply not_elem_of_nil]|].
  rewrite foldl_app. cbn [foldl]. apply Forall_app in Hall as [Hl Hm]. apply Forall_singleton in Hm. set (out := foldl _ text l) in *.
  destruct (str_contains m out) eqn:Hc; intros H.
  - unfold str_replace in H. pose proof H as H'. apply replace_contains in H; [|done|apply strip_prefix_suffix].
    destruct (IH Hl H) as [Ht Hni]. split; [done|]. intros [?| ->%list_elem_of_singleton]%elem_of_app; [done|].
    rewrite replace_gone in H'; [done|done|lia].
  - destruct (IH Hl H) as [Ht Hni]. split; [done|]. intros [?| ->%list_elem_of_singleton]%elem_of_app; [done|congruence].
Qed.

Section Cve.
Variable strip_digit : string -> option string.
Hypothesis strip_digit_suffix : forall s rest, strip_digit s = Some rest -> exists d, s = d +:+ rest.

Lemma strip_digits_suffix n s rest : strip_digits strip_digit n s = Some rest -> exists d, s = d +:+ rest.
Proof.
  revert s. induction n as [|n IH]; intros s H; simpl in H; [injection H as ->; by exists ""|].
  apply bind_Some in H as (r & Hr & H). destruct (strip_digit_suffix _ _ Hr) as [d ->], (IH _ H) as [d' ->]. exists (d +:+ d'). by rewrite app_str_assoc.
Qed.

Lemma skip_digits_suffix fuel s : exists d, s = d +:+ skip_digits strip_digit fuel s.
Proof.
  revert s. induction fuel as [|fuel IH]; intros s; simpl; [by exists ""|]. destruct (strip_digit s) as [r|] eqn:Hr; [|by exists ""].
  destruct (strip_digit_suffix _ _ Hr) as [d ->], (IH r) as [d' Hd]. exists (d +:+ d'). by rewrite app_str_assoc, <- Hd.
Qed.

Lemma cve_token_suffix s rest : cve_token strip_digit s = Some rest -> exists p, s = p +:+ rest.
Proof.
  unfold cve_token. destruct s as [|c [|v [|e s]]]; try done. case_bool_decide; [|done]. intros H'.
  apply bind_Some in H' as (r1 & H1 & H'). apply bind_Some in H' as (r2 & H2 & H'). apply bind_Some in H' as (r3 & H3 & H').
  apply bind_Some in H' as (r4 & H4 & [= <-]).
  apply strip_prefix_app in H1 as ->. destruct (strip_digits_suffix _ _ _ H2) as [d2 ->]. apply strip_prefix_app in H3 as ->.
  destruct (strip_digits_suffix _ _ _ H4) as [d4 ->]. destruct (skip_digits_suffix (String.length r4) r4) as [d5 Hd5].
  exists (String c (String v (String e ("-" +:+ d2 +:+ "-" +:+ d4 +:+ d5)))). simpl. do 4 f_equal.
  rewrite !app_str_assoc. f_equal. change ("-" +:+ ?x) with (String "-" x). cbn. f_equal. rewrite !app_str_assoc. f_equal. done.
Qed.

(** The verdict of a payload names none of what the decision is about: not the
    entry, not an objective's key and not the last part of one, however the model
    worded its reason, and the removal of vulnerability ids does not bring one back. *)
Theorem payload_names_nothing n name :
  Forall plain_name (ordered_names (decision_names n)) -> name ∈ trim <$> decision_names n ->
  plain_name name -> str_contains name (verdict_text strip_digit n) = false.
Proof.
  intros Hall Hin Hn. apply not_true_iff_false. intros H. unfold verdict_text, scrub_cve_tokens in H.
  apply replace_contains in H; [|done|apply cve_token_suffix]. apply scrub_spec in H as [_ H]; [|done..].
  apply H, ordered_names_elem. split; [by destruct Hn|done].
Qed.

End Cve.

(** An objective is named by its key and by the last part of it. *)
Lemma decision_names_elem n x : x ∈ decision_names n <->
  x = bn_entry n \/ exists k a, (k, a) ∈ bn_objectives n /\ (x = k \/ exists l, rsplit_once slash k = Some (l, x)).
Proof.
  unfold decision_names. rewrite elem_of_cons, elem_of_concat. split.
  - intros [H|(ls & ([k a] & -> & Hka)%list_elem_of_fmap & Hx)]; [by left|right]. exists k, a. split; [done|]. simpl in Hx.
    apply elem_of_cons in Hx as [H|Hx]; [by left|right]. destruct (rsplit_once slash k) as [[l b]|]; [|by apply not_elem_of_nil in Hx].
    apply list_elem_of_singleton in Hx as ->. eauto.
  - intros [H|(k & a & Hka & Hx)]; [by left|right].
    exists (k :: match rsplit_once slash k with Some (_, bare) => [bare] | None => [] end).
    split; [apply list_elem_of_fmap; by exists (k, a)|]. destruct Hx as [->|[l ->]]; [by left|right; by left].
Qed.

(** ** The shape of a payload *)

(** What the sink is sent, besides the verdict's text, the entry and the reach: how
    many objectives, and at most sixteen techniques, each of one of them and each
    once, in their order; two decisions that agree on these send the same. *)
Theorem payload_counts_only strip_digit n n' :
  bn_entry n = bn_entry n' -> bn_verdict n = bn_verdict n' -> bn_enforcement n = bn_enforcement n' -> bn_reach n = bn_reach n' ->
  length (bn_objectives n) = length (bn_objectives n') ->
  distinct_attacks (snd <$> bn_objectives n) = distinct_attacks (snd <$> bn_objectives n') ->
  verdict_text strip_digit n = verdict_text strip_digit n' ->
  redacted_payload strip_digit n false = redacted_payload strip_digit n' false /\
  (length (redacted_attack_outcome (snd <$> bn_objectives n) ATTACK_CAP) <= 16)%nat /\
  (forall j, j ∈ redacted_attack_outcome (snd <$> bn_objectives n) ATTACK_CAP ->
     exists k a, (k, a) ∈ bn_objectives n /\ j = attack_json (tactic_id (tactic a), technique_id a, technique a)).
Proof.
  intros H1 H2 H3 H4 H5 H6 H7. split; [|split].
  - unfold redacted_payload, redacted_attack_outcome. by rewrite H1, H2, H3, H4, H5, H6, H7.
  - unfold redacted_attack_outcome. rewrite length_fmap, length_take. unfold ATTACK_CAP. lia.
  - intros j (t & -> & Ht)%list_elem_of_fmap. apply elem_of_take in Ht as (i & Ht & _). apply list_elem_of_lookup_2 in Ht.
    unfold distinct_attacks in Ht. apply elem_of_dedup_by, elem_of_sort_by in Ht. apply list_elem_of_fmap in Ht as (a & -> & Ha).
    apply list_elem_of_fmap in Ha as ([k a'] & -> & Hka). by exists k, a'.
Qed.

(** ** Instances *)

Definition ascii_digit (s : string) : option string :=
  match s with
  | String c s => if ((48 <=? Ascii.N_of_ascii c) && (Ascii.N_of_ascii c <=? 57))%N then Some s else None
  | EmptyString => None
  end.

Lemma ascii_digit_suffix s rest : ascii_digit s = Some rest -> exists d, s = d +:+ rest.
Proof. destruct s as [|c s]; [done|]. simpl. destruct (_ && _); [|done]. intros [= ->]. by exists (String c ""). Qed.

Definition db_notice : BreachNotice :=
  mkNotice "workload/app/Pod/web" (Exploitable "cve-2021-44228 in web reaches secret/app/Secret/db-password (db-password) see <<<x>>>")
    [("secret/app/Secret/db-password", CREDENTIAL_ACCESS)] Shadow None.

Example db_payload :
  json_get (redacted_payload ascii_digit db_notice false) "message" =
    Some (JStr "protector would isolate workload/app/Pod/web (exploitable — [redacted] in web reaches [redacted] ([redacted]) see    x   )").
Proof. by vm_compute. Qed.

Lemma plain_name_dec n : bool_decide (n <> "") && no_char open_bracket n && no_char close_bracket n && negb (str_contains n "redacted") = true ->
  plain_name n.
Proof. rewrite !andb_true_iff, bool_decide_eq_true, negb_true_iff. intros [[[? ?] ?] ?]. by split. Qed.

Lemma db_names_plain : Forall plain_name (ordered_names (decision_names db_notice)).
Proof.
  assert (ordered_names (decision_names db_notice) = ["secret/app/Secret/db-password"; "workload/app/Pod/web"; "db-password"]) as -> by (by vm_compute).
  repeat constructor; apply plain_name_dec; reflexivity.
Qed.

Lemma payload_names_nothing_witness :
  "db-password" ∈ trim <$> decision_names db_notice /\ str_contains "db-password" (verdict_text ascii_digit db_notice) = false.
Proof.
  assert ("db-password" ∈ trim <$> decision_names db_notice) as H by (by apply (bool_decide_eq_true_1 _)).
  exact (conj H (payload_names_nothing ascii_digit ascii_digit_suffix db_notice "db-password" db_names_plain H
    (plain_name_dec "db-password" eq_refl))).
Defined.
