(* ===== verification/Findings.v ===== *)
(** * What a pass publishes

    engine/src/engine/state/evidence.rs, reach.rs and findings.rs: the evidence
    shown beside a chain, what an attacker gains on the entry, the rows of a pass
    and the handle readers take them from. Then
    the rows of a pass and the pushes its coverage register causes. *)

From S2P Require Import Prelude Text Json ImageRef PetGraph Attack Behavior Graph Snapshot Chain Objective Prove Respond.
From S2P Require Import Actuator ActuatorFacts Backoff AgentLiveness Verdicts Incident Evidence EvidenceFacts Feeds Redact.

#[local] Arguments String.append : simpl nomatch.

(** ** state/evidence.rs *)

(** The product of two f32 with the second [100.0], rounded to nearest even. *)
Definition f32_percent (bits : Z) : Z :=
  let sign := Z.land bits (2 ^ 31) in
  let e := Z.land (Z.shiftr bits 23) 255 in
  let f := Z.land bits (2 ^ 23 - 1) in
  if (e =? 255)%Z then bits
  else
    let m := if (e =? 0)%Z then f else (f + 2 ^ 23)%Z in
    let ex := ((if e =? 0 then 1 else e) - 127 - 23)%Z in
    (sign + float_of_ratio 23 8 (100 * m * 2 ^ Z.max ex 0) (2 ^ Z.max (- ex) 0))%Z.

(** [{:.0}]: the digits before the point, rounded at the point. *)
Definition fmt_f32_whole (bits : Z) : string :=
  let shown := fmt_f32 0 bits in
  match split_once (Ascii.ascii_of_nat 46) shown with Some (whole, _) => whole | None => shown end.

Record CveEvidence := mkCve {
  ce_id : string;
  ce_severity : string;
  ce_score : option string;
  ce_kev : bool;
  ce_epss : option string;
  ce_reachability : string;
  ce_fix : string;
  ce_title : option string
}.

Definition from_vuln (v : Vulnerability) : CveEvidence :=
  mkCve (v_id v) (severity_label (v_severity v)) (fmt_f64 1 <$> v_score v) (v_exploited_in_wild v)
    ((fun p => fmt_f32_whole (f32_percent p) +:+ "%") <$> v_epss v) (reachability_label (v_reachability v))
    match v_fixed_version v, v_installed_version v with
    | Some fixed, Some installed => "fix available: " +:+ installed +:+ " to " +:+ fixed
    | Some fixed, None => "fix available: " +:+ fixed
    | None, _ => "no fix available"
    end (v_title v).

Record FindingEvidence := mkFindingEvidence {
  fe_id : string; fe_severity : string; fe_category : option string; fe_title : option string
}.

Definition from_finding (f : ScanFinding) : FindingEvidence :=
  mkFindingEvidence (sf_id f) (severity_label (sf_severity f)) (sf_category f) (sf_title f).

Record EntryEvidence := mkEntryEvidence {
  ee_cves : list CveEvidence;
  ee_runtime : list Behavior;
  ee_exposed_secrets : list FindingEvidence;
  ee_misconfigs : list FindingEvidence;
  ee_rbac_findings : list FindingEvidence
}.

(** ** state/reach.rs *)

Inductive SecretPurpose :=
  | ServiceAccountToken | TlsPrivateKey | RegistryPull | CloudProviderCredential | DatabaseCredential | GenericOpaque.

#[export] Instance SecretPurpose_eq_dec : EqDecision SecretPurpose.
Proof. solve_decision. Defined.

Definition purpose_label (p : SecretPurpose) : string :=
  match p with
  | ServiceAccountToken => "service-account-token"
  | TlsPrivateKey => "tls-private-key"
  | RegistryPull => "registry-pull"
  | CloudProviderCredential => "cloud-provider-credential"
  | DatabaseCredential => "database-credential"
  | GenericOpaque => "generic-opaque"
  end.

(** The derived order: that of the constructors. *)
Definition purpose_rank (p : SecretPurpose) : nat :=
  match p with
  | ServiceAccountToken => 0 | TlsPrivateKey => 1 | RegistryPull => 2
  | CloudProviderCredential => 3 | DatabaseCredential => 4 | GenericOpaque => 5
  end.

Definition infer (name : string) : SecretPurpose :=
  let n := to_ascii_lowercase name in
  let has_any := existsb (fun w => str_contains w n) in
  if has_any ["token"] then ServiceAccountToken
  else if has_any ["tls"; "cert"] then TlsPrivateKey
  else if has_any ["registry"; "regcred"; "docker"; "pull-secret"] then RegistryPull
  else if has_any ["aws"; "gcp"; "azure"; "cloud"] then CloudProviderCredential
  else if has_any ["db"; "database"; "postgres"; "mysql"; "mongo"; "redis"; "sql"] then DatabaseCredential
  else GenericOpaque.

Record ReachAnnotation := mkReach {
  ra_secret_purposes : list SecretPurpose; ra_data_stores : nat; ra_capabilities : nat; ra_egress : bool
}.

Definition purpose_leb (a b : SecretPurpose) : bool := purpose_rank a <=? purpose_rank b.

Definition sort_purposes (l : list SecretPurpose) : list SecretPurpose :=
  dedup_by (fun a b => bool_decide (a = b)) (sort_by purpose_leb l).

Definition pluralize (count : nat) (singular plural : string) : string := if count =? 1 then singular else plural.

Definition join_and (items : list string) : string :=
  match items with
  | [] => ""
  | [only] => only
  | [a; b] => a +:+ " and " +:+ b
  | _ => join ", " (removelast items) +:+ ", and " +:+ List.last items ""
  end.

Definition reach_line (a : ReachAnnotation) : string :=
  let secrets :=
    match ra_secret_purposes a with
    | [] => []
    | ps => [join_and ((fun p => "a " +:+ purpose_label p +:+ " secret") <$> ps)]
    end in
  let reach :=
    (if 0 <? ra_data_stores a
     then [pretty (ra_data_stores a) +:+ " reachable " +:+ pluralize (ra_data_stores a) "data store" "data stores"] else []) ++
    (if 0 <? ra_capabilities a
     then [pretty (ra_capabilities a) +:+ " reachable " +:+ pluralize (ra_capabilities a) "RBAC capability" "RBAC capabilities"] else []) ++
    (if ra_egress a then ["an internet egress path"] else []) in
  match (secrets ++ match reach with [] => [] | _ => [join_and reach] end)%list with
  | [] => "if compromised, this workload grants the attacker no additional reach beyond itself"
  | clauses => "if compromised, this workload grants the attacker: " +:+ join "; " clauses
  end.

(** ** state/findings.rs *)

Record CutRow := mkCutRow { cr_node : string; cr_mechanism : string; cr_is_entry : bool; cr_blast_note : string }.

Record IncidentSummary := mkIncident { is_assessment : Assessment; is_cuts : list CutRow }.

Record PathStep := mkPathStep { ps_from : string; ps_relation : string; ps_to : string }.

Definition path_steps_of (links : list Link) : list PathStep := (fun l => mkPathStep (l_from l) (l_relation l) (l_to l)) <$> links.

Record Finding := mkFinding {
  f_entry : string;
  f_objective : string;
  f_attack : AttackRef;
  f_foothold : bool;
  f_corroborated : bool;
  f_disposition : string;
  f_cut : option string;
  f_breach_relevant : bool;
  f_verdict : option Verdict;
  f_path : list PathStep;
  f_paths : list (list PathStep);
  f_paths_truncated : bool;
  f_evidence : EntryEvidence;
  f_recency : option RecencyInfo;
  f_node : option string;
  f_incident : option IncidentSummary;
  f_reach : option string
}.

Definition AUTO_ELIGIBLE : string := "auto-eligible".

Definition classify_chain (c : ProvenChain) (action : option ProposedAction) : string :=
  let additive_primary := match action with Some a => is_additive_live a | None => false end in
  match (if negb additive_primary then entry_quarantine_reason c else None) with
  | Some reason => disposition reason
  | None =>
      match action with
      | None => "no-cut"
      | Some RemoveEscapePrimitive => "forbidden"
      | Some (RevokeRbacGrant | RemoveSecretMount | RebindIdentity) => "durable-fix PR"
      | Some QuarantineEntry => "quarantine entry (default-deny)"
      | Some QuarantineWorkload => "quarantine workload (default-deny)"
      | Some ContainNode => "quarantine node (cordon + default-deny)"
      | Some Unclassified => "unclassified"
      | Some DenyNetworkPath =>
          if negb (meets_action_bar c) then
            (if is_latent_foothold c then "latent foothold — propose" else "structural — propose")
          else if negb (pc_adjudicated c) then "vetoed — propose"
          else AUTO_ELIGIBLE
      end
  end.

Definition with_node (f : Finding) (node : option string) : Finding :=
  mkFinding (f_entry f) (f_objective f) (f_attack f) (f_foothold f) (f_corroborated f) (f_disposition f) (f_cut f) (f_breach_relevant f)
    (f_verdict f) (f_path f) (f_paths f) (f_paths_truncated f) (f_evidence f) (f_recency f) node (f_incident f) (f_reach f).

Definition with_reach (f : Finding) (reach : option string) : Finding :=
  mkFinding (f_entry f) (f_objective f) (f_attack f) (f_foothold f) (f_corroborated f) (f_disposition f) (f_cut f) (f_breach_relevant f)
    (f_verdict f) (f_path f) (f_paths f) (f_paths_truncated f) (f_evidence f) (f_recency f) (f_node f) (f_incident f) reach.

Definition with_verdict (f : Finding) (verdict : option Verdict) (recency : option RecencyInfo) : Finding :=
  mkFinding (f_entry f) (f_objective f) (f_attack f) (f_foothold f) (f_corroborated f) (f_disposition f) (f_cut f) (f_breach_relevant f)
    verdict (f_path f) (f_paths f) (f_paths_truncated f) (f_evidence f) recency (f_node f) (f_incident f) (f_reach f).

(** Only a single pod has one node. *)
Definition entry_node (pods : list Pod) (entry : string) : option string :=
  match split slash entry with
  | [prefix; ns; kind; name] =>
      if bool_decide (prefix = "workload") && bool_decide (kind = "Pod") then
        pod ← List.find (fun p => bool_decide (om_namespace (pod_meta p) = Some ns) && bool_decide (om_name (pod_meta p) = Some name)) pods;
        node ← (pod_spec pod ≫= sp_node_name);
        if bool_decide (node = "") then None else Some node
      else None
  | _ => None
  end.

Section OnGraph.
Context {G : Type} `{SG : !StableGraph G Node Edge}.
Implicit Types sg : SecurityGraph G.

Definition for_entry sg (entry : NodeKey) : EntryEvidence :=
  let '(vulns, runtime) := entry_evidence sg entry in
  let '(secrets, misconfigs, rbac) := entry_findings sg entry in
  mkEntryEvidence (from_vuln <$> vulns) runtime (from_finding <$> secrets) (from_finding <$> misconfigs) (from_finding <$> rbac).

Definition mounted_purposes sg (idx : nat) : list SecretPurpose :=
  omap (fun r => match e_relation (er_weight r), sg_node_weight (inner sg) (er_target r) with
                 | CanRead, Some (NSecret s) => Some (infer (sr_name s))
                 | _, _ => None
                 end) (sg_edges (inner sg) idx).

(** What a chain of the entry reaches. *)
Definition tally sg (a : nat * nat * bool) (c : ProvenChain) : nat * nat * bool :=
  let '(data_stores, capabilities, egress) := a in
  match index_of sg (pc_objective c) ≫= sg_node_weight (inner sg) with
  | Some (NWorkload w) => if w_persistent w then (S data_stores, capabilities, egress) else a
  | Some (NCapability _) => (data_stores, S capabilities, egress)
  | Some (NEndpoint e) => if bool_decide (ep_address e = "internet") then (data_stores, capabilities, true) else a
  | _ => a
  end.

Definition annotation sg (entry : NodeKey) (chains : list ProvenChain) : option ReachAnnotation :=
  idx ← index_of sg entry;
  match sg_node_weight (inner sg) idx with
  | Some (NWorkload _) =>
      let '(data_stores, capabilities, egress) :=
        foldl (tally sg) (0, 0, false) (List.filter (fun c => bool_decide (pc_entry c = entry)) chains) in
      Some (mkReach (sort_purposes (mounted_purposes sg idx)) data_stores capabilities egress)
  | _ => None
  end.

Definition summary_of (decision : IncidentDecision) (c : ProvenChain) sg (health : HealthReport) : IncidentSummary :=
  mkIncident (d_assessment decision)
    ((fun cut => mkCutRow (cc_node cut) (describe (cc_action cut)) (bool_decide (cc_node cut = pc_entry c))
                   (cut_blast_note (cc_cut cut) (cc_action cut) sg health)) <$> d_cuts decision).

Definition from_chain (c : ProvenChain) sg (decisions : gmap string IncidentDecision) (health : HealthReport) : Finding :=
  let containment := containment_for c in
  let path := path_steps_of (pc_links c) in
  mkFinding (pc_entry c) (pc_objective c) (pc_attack c) (bool_decide (is_Some (pc_foothold c))) (pc_corroborated c)
    (classify_chain c (snd <$> containment)) ((fun ca => cut_signature ca.1) <$> containment) (is_breach_relevant c)
    None path (match pc_paths c with [] => [path] | paths => path_steps_of <$> paths end) (pc_paths_truncated c)
    (for_entry sg (pc_entry c)) None None ((fun d => summary_of d c sg health) <$> decisions !! pc_entry c) None.

(** One reach line an entry, computed when the entry first comes. *)
Definition publish_step sg (pods : list Pod) (decisions : gmap string IncidentDecision) (health : HealthReport) (chains : list ProvenChain)
    (acc : gmap string (option string) * list Finding) (c : ProvenChain) : gmap string (option string) * list Finding :=
  let '(cache, rows) := acc in
  let reach := match cache !! pc_entry c with
               | Some line => line
               | None => reach_line <$> annotation sg (pc_entry c) chains
               end in
  (<[pc_entry c := reach]> cache,
   rows ++ [with_reach (with_node (from_chain c sg decisions health) (entry_node pods (pc_entry c))) reach]).

Definition publish_chains (chains : list ProvenChain) sg (pods : list Pod) (decisions : gmap string IncidentDecision)
    (health : HealthReport) : list Finding :=
  (foldl (publish_step sg pods decisions health chains) (∅, []) chains).2.

End OnGraph.

(** ** The handle *)

(** The bake of a pass; the counts are u64. *)
Record BakeStats := mkBake {
  bs_signals_by_variant : gmap string N; bs_resolved : N; bs_unresolved : N; bs_runtime_store : N; bs_corroborations : N
}.

Definition total_signals (b : BakeStats) : N := (foldr N.add 0 (btree_values (bs_signals_by_variant b)) mod 2 ^ 64)%N.

Inductive ModelHealth := MhUnknown | MhOk | MhTimeout.

#[export] Instance ModelHealth_eq_dec : EqDecision ModelHealth.
Proof. solve_decision. Defined.

(** The wire form, a [u8]. *)
Definition health_as_u8 (h : ModelHealth) : N := match h with MhUnknown => 0 | MhOk => 1 | MhTimeout => 2 end.
Definition health_from_u8 (v : N) : ModelHealth := match v with 1%N => MhOk | 2%N => MhTimeout | _ => MhUnknown end.

Record ReadinessConfig := mkReadinessConfig {
  rc_model_attached : bool;
  rc_kev_count : nat;
  rc_epss_count : nat;
  rc_journal_durable : bool;
  rc_armed : bool;
  rc_tuf_cache_age_secs : option Z;
  rc_unverifiable_spike : bool;
  rc_checking_images : nat
}.

Inductive CoverageEdge :=
  | Collapsed (blind expected : nat) (last_observation : option string)
  | Recovered (blind expected : nat).

Record Findings := mkFindings {
  fs_rows : list Finding;
  fs_verdicts : VerdictStore;
  fs_bake : BakeStats;
  fs_last_pass : option Z;
  fs_readiness : ReadinessConfig;
  fs_model_health : N;
  fs_runtime_coverage : RuntimeCoverage;
  fs_stall_tracker : CoverageStallTracker;
  fs_coverage_state : CoverageState
}.

Definition findings_new (verdicts : VerdictStore) : Findings :=
  mkFindings [] verdicts (mkBake ∅ 0 0 0 0) None (mkReadinessConfig false 0 0 false false None false 0) 0 [] new_tracker CAbsent.

Definition findings_replace (s : Findings) (rows : list Finding) : Findings :=
  mkFindings rows (fs_verdicts s) (fs_bake s) (fs_last_pass s) (fs_readiness s) (fs_model_health s) (fs_runtime_coverage s)
    (fs_stall_tracker s) (fs_coverage_state s).

Definition is_stalled (s : CoverageState) : bool := match s with Stalled _ => true | _ => false end.

(** The transition of the register, for the one push an edge is told by. *)
Definition coverage_edge (was now_ : CoverageState) (coverage : RuntimeCoverage) : option CoverageEdge :=
  match now_ with
  | Stalled alert =>
      if is_stalled was then None
      else Some (Collapsed (length (blind_nodes coverage)) (expected_count coverage) (ca_last_observation alert))
  | _ => if is_stalled was then Some (Recovered (length (blind_nodes coverage)) (expected_count coverage)) else None
  end.

Definition stamp_runtime_coverage_at (s : Findings) (live : gmap string LiveNode) (pods : list Pod) (now : Z)
    : option CoverageEdge * Findings :=
  let coverage := derive_runtime_coverage (expected_agent_nodes pods) live in
  let '(state, tracker) := stall_observe (fs_stall_tracker s) coverage now in
  (coverage_edge (fs_coverage_state s) state coverage,
   mkFindings (fs_rows s) (fs_verdicts s) (fs_bake s) (fs_last_pass s) (fs_readiness s) (fs_model_health s) coverage tracker state).

(** A row of an entry the model judges takes its verdict from the store. *)
Definition resolve_row (verdicts : VerdictStore) (now : Z) (f : Finding) : Finding :=
  if f_breach_relevant f then with_verdict f (display_verdict verdicts (f_entry f)) (recency_for verdicts (f_entry f) now) else f.

Definition findings_snapshot_at (s : Findings) (now : Z) : list Finding := resolve_row (fs_verdicts s) now <$> fs_rows s.

Definition mark_pass (s : Findings) (at_ : Z) : Findings :=
  mkFindings (fs_rows s) (fs_verdicts s) (fs_bake s) (Some at_) (fs_readiness s) (fs_model_health s) (fs_runtime_coverage s)
    (fs_stall_tracker s) (fs_coverage_state s).

Definition set_bake (s : Findings) (bake : BakeStats) : Findings :=
  mkFindings (fs_rows s) (fs_verdicts s) bake (fs_last_pass s) (fs_readiness s) (fs_model_health s) (fs_runtime_coverage s)
    (fs_stall_tracker s) (fs_coverage_state s).

Definition set_readiness_config (s : Findings) (config : ReadinessConfig) : Findings :=
  mkFindings (fs_rows s) (fs_verdicts s) (fs_bake s) (fs_last_pass s) config (fs_model_health s) (fs_runtime_coverage s)
    (fs_stall_tracker s) (fs_coverage_state s).

Definition set_model_health (s : Findings) (health : ModelHealth) : Findings :=
  mkFindings (fs_rows s) (fs_verdicts s) (fs_bake s) (fs_last_pass s) (fs_readiness s) (health_as_u8 health) (fs_runtime_coverage s)
    (fs_stall_tracker s) (fs_coverage_state s).

Definition model_health (s : Findings) : ModelHealth := health_from_u8 (fs_model_health s).

(** notify.rs: the push of an edge. *)
Definition notice_of_edge (e : CoverageEdge) : CoverageNotice :=
  match e with
  | Collapsed blind expected last => mkCoverageNotice Degraded expected blind last
  | Recovered blind expected => mkCoverageNotice CoverageRestored expected blind None
  end.

(** ** Rows *)

Section Rows.
Context {G : Type} `{SGL : StableGraphLaws G Node Edge}.
Implicit Types sg : SecurityGraph G.

(** The row of one chain. *)
Definition row sg (pods : list Pod) decisions health (chains : list ProvenChain) (c : ProvenChain) : Finding :=
  with_reach (with_node (from_chain c sg decisions health) (entry_node pods (pc_entry c))) (reach_line <$> annotation sg (pc_entry c) chains).

(** The cache of reach lines does not show. *)
Lemma publish_chains_rows chains sg pods decisions health :
  publish_chains chains sg pods decisions health = row sg pods decisions health chains <$> chains.
Proof.
  unfold publish_chains.
  assert (forall l (cache : gmap string (option string)) rows,
    (forall k line, cache !! k = Some line -> line = reach_line <$> annotation sg k chains) ->
    (foldl (publish_step sg pods decisions health chains) (cache, rows) l).2 = rows ++ (row sg pods decisions health chains <$> l)) as H.
  { induction l as [|c l IH]; intros cache rows Hc; [by rewrite app_nil_r|].
    cbn [foldl publish_step]. rewrite fmap_cons.
    assert (match cache !! pc_entry c with Some line => line | None => reach_line <$> annotation sg (pc_entry c) chains end =
      reach_line <$> annotation sg (pc_entry c) chains) as -> by (destruct (cache !! pc_entry c) eqn:E; [by apply Hc|done]).
    rewrite IH, <- app_assoc; [done|]. intros k line. destruct (decide (k = pc_entry c)) as [->|Hk].
    - rewrite lookup_insert_eq. by intros [= <-].
    - rewrite lookup_insert_ne by done. apply Hc. }
  by apply (H chains ∅ []).
Qed.

(** A row calls its cut auto-eligible exactly when the actuator, given that cut
    with this chain as its reason, an armed class, a scope that holds it and no
    collateral, applies it. *)
Lemma auto_eligible_spec c (active : EnabledActions) scope blast :
  (forall cut, is_enabled active DenyNetworkPath = true /\ in_scope scope (mkMitigation cut DenyNetworkPath [justification_of c]) = true) ->
  br_reachability_incomplete blast = false -> br_alive_collateral blast = [] ->
  classify_chain c (snd <$> containment_for c) = AUTO_ELIGIBLE <->
  exists cut, containment_for c = Some (cut, DenyNetworkPath) /\
    decide_cut (mkMitigation cut DenyNetworkPath [justification_of c]) active scope blast = AutoApply.
Proof.
  intros Hact Hb1 Hb2.
  assert (forall cut, decide_cut (mkMitigation cut DenyNetworkPath [justification_of c]) active scope blast = AutoApply <->
    meets_action_bar c && pc_adjudicated c = true) as Hd.
  { intros cut. unfold decide_cut. cbn [m_action is_reversible is_additive_live negb]. rewrite Hb1, Hb2. cbn [negb].
    rewrite bool_decide_eq_true_2 by done. cbn [negb]. destruct (Hact cut) as [-> ->]. cbn [negb].
    unfold is_live_corroborated, live_corroborating_entries, justification_of, meets_action_bar, is_breach_relevant.
    cbn [m_justifications List.filter j_corroborated j_promoted j_adjudicated j_breach_relevant j_entry].
    destruct (pc_corroborated c), (pc_promoted c), (pc_adjudicated c), (pc_exposed_entry c); cbn; try case_bool_decide; naive_solver. }
  unfold classify_chain. destruct (containment_for c) as [[cut a]|]; simpl.
  - assert (a <> DenyNetworkPath -> forall s, s <> AUTO_ELIGIBLE -> s = AUTO_ELIGIBLE <->
      exists cut', Some (cut, a) = Some (cut', DenyNetworkPath) /\
        decide_cut (mkMitigation cut' DenyNetworkPath [justification_of c]) active scope blast = AutoApply) as Hother by naive_solver.
    destruct a; simpl; [|destruct (entry_quarantine_reason c) as [[]|]; by apply Hother..].
    + split.
      * intros H. exists cut. split; [done|]. apply Hd. destruct (meets_action_bar c), (pc_adjudicated c), (is_latent_foothold c); done.
      * intros (cut' & [= <-] & [H1 H2]%Hd%andb_true_iff). by rewrite H1, H2.
  - destruct (entry_quarantine_reason c) as [[]|]; simpl; split; try done; intros (cut & [=] & _).
Qed.

(** What a reader sees of a pass: one row a chain, in order; a row of an exposed
    entry carries the verdict the store holds when it is read, the others none;
    it shows the evidence the judge is given, at least one path, the cut the
    response layer would make, and is auto-eligible exactly when the actuator
    would apply that cut for this chain alone. *)
Theorem findings_rows_exact chains sg pods decisions health s now i c active scope blast :
  chains !! i = Some c ->
  (forall cut, is_enabled active DenyNetworkPath = true /\ in_scope scope (mkMitigation cut DenyNetworkPath [justification_of c]) = true) ->
  br_reachability_incomplete blast = false -> br_alive_collateral blast = [] ->
  exists f, findings_snapshot_at (findings_replace s (publish_chains chains sg pods decisions health)) now !! i = Some f /\
    f_entry f = pc_entry c /\ f_objective f = pc_objective c /\ f_corroborated f = pc_corroborated c /\
    f_verdict f = (if pc_exposed_entry c then display_verdict (fs_verdicts s) (pc_entry c) else None) /\
    ee_cves (f_evidence f) = from_vuln <$> (entry_evidence sg (pc_entry c)).1 /\ ee_runtime (f_evidence f) = (entry_evidence sg (pc_entry c)).2 /\
    f_paths f <> [] /\ f_cut f = (fun ca => cut_signature ca.1) <$> containment_for c /\
    (f_disposition f = AUTO_ELIGIBLE <-> exists cut, containment_for c = Some (cut, DenyNetworkPath) /\
       decide_cut (mkMitigation cut DenyNetworkPath [justification_of c]) active scope blast = AutoApply).
Proof.
  intros Hc Hact Hb1 Hb2. pose proof (auto_eligible_spec c active scope blast Hact Hb1 Hb2) as Hd.
  exists (resolve_row (fs_verdicts s) now (row sg pods decisions health chains c)).
  split; [unfold findings_snapshot_at, findings_replace; cbn [fs_rows fs_verdicts]; by rewrite publish_chains_rows, !list_lookup_fmap, Hc|].
  unfold resolve_row, row. cbn [f_breach_relevant with_reach with_node from_chain]. unfold is_breach_relevant.
  assert (for_entry sg (pc_entry c) = mkEntryEvidence (from_vuln <$> (entry_evidence sg (pc_entry c)).1) (entry_evidence sg (pc_entry c)).2
    (from_finding <$> (entry_findings sg (pc_entry c)).1.1) (from_finding <$> (entry_findings sg (pc_entry c)).1.2)
    (from_finding <$> (entry_findings sg (pc_entry c)).2)) as He.
  { unfold for_entry. destruct (entry_evidence sg (pc_entry c)), (entry_findings sg (pc_entry c)) as [[??]?]. done. }
  destruct (pc_exposed_entry c); cbn; rewrite He; by destruct (pc_paths c).
Qed.

End Rows.

(** ** Pushes *)

(** A pass: its beacons, its pods and the clock. *)
Abbreviation stamp := (gmap string LiveNode * list Pod * Z)%type.

Definition stamp_coverage (p : stamp) : RuntimeCoverage := derive_runtime_coverage (expected_agent_nodes p.1.2) p.1.1.

(** The pushes of consecutive passes. *)
Fixpoint pushes (s : Findings) (passes : list stamp) : list (option CoverageEdge) :=
  match passes with
  | [] => []
  | p :: passes => let '(e, s) := stamp_runtime_coverage_at s p.1.1 p.1.2 p.2 in e :: pushes s passes
  end.

Definition is_collapse (e : CoverageEdge) : bool := match e with Collapsed _ _ _ => true | Recovered _ _ => false end.

Fixpoint alternates (collapse : bool) (edges : list CoverageEdge) : Prop :=
  match edges with
  | [] => True
  | e :: edges => is_collapse e = collapse /\ alternates (negb collapse) edges
  end.

Lemma stamp_cases s p : let '(e, s') := stamp_runtime_coverage_at s p.1.1 p.1.2 p.2 in
  match e with
  | Some (Collapsed b n l) => is_stalled (fs_coverage_state s) = false /\ is_stalled (fs_coverage_state s') = true /\
      b = n /\ n = expected_count (stamp_coverage p) /\ dark (stamp_coverage p, p.2) = true
  | Some (Recovered b n) => is_stalled (fs_coverage_state s) = true /\ is_stalled (fs_coverage_state s') = false /\
      b = length (blind_nodes (stamp_coverage p)) /\ n = expected_count (stamp_coverage p)
  | None => is_stalled (fs_coverage_state s') = is_stalled (fs_coverage_state s)
  end.
Proof.
  unfold stamp_runtime_coverage_at. fold (stamp_coverage p). pose proof (observe_spec (fs_stall_tracker s) (stamp_coverage p, p.2)) as Ho.
  cbn [fst snd] in Ho. destruct (stall_observe (fs_stall_tracker s) (stamp_coverage p) p.2) as [state tracker].
  cbn [fs_coverage_state]. unfold coverage_edge. destruct state as [| | |alert]; cbn [is_stalled]; try (destruct (is_stalled _) eqn:E; by rewrite ?E).
  destruct (is_stalled (fs_coverage_state s)) eqn:E; [done|]. rewrite blind_nodes_count.
  destruct (in_view _) eqn:Hv; cbn [negb] in Ho; [|done]. destruct (lit _) eqn:Hl; [by destruct (all_healthy _)|].
  destruct (dark _) eqn:Hdk; cbn [negb] in Ho; [|done]. split; [done|]. split; [done|]. unfold dark in Hdk. cbn [fst] in Hdk. revert Hdk. rewrite andb_true_iff, Nat.eqb_eq. naive_solver.
Qed.

(** While the register is stalled, the tracker has counted the hold. *)
Definition stall_held (s : Findings) : Prop :=
  is_stalled (fs_coverage_state s) = true ->
  st_was_covering (fs_stall_tracker s) = true /\ (STALL_HOLD_PASSES <= st_blind_passes (fs_stall_tracker s))%Z.

Lemma stamp_held s p : stall_held s -> stall_held (stamp_runtime_coverage_at s p.1.1 p.1.2 p.2).2 /\
  forall b n, (stamp_runtime_coverage_at s p.1.1 p.1.2 p.2).1 = Some (Recovered b n) -> dark (stamp_coverage p, p.2) = false.
Proof.
  intros Hs. unfold stamp_runtime_coverage_at. fold (stamp_coverage p). pose proof (observe_spec (fs_stall_tracker s) (stamp_coverage p, p.2)) as Ho.
  cbn [fst snd] in Ho. destruct (stall_observe (fs_stall_tracker s) (stamp_coverage p) p.2) as [state tracker].
  unfold stall_held. cbn [fst snd fs_coverage_state fs_stall_tracker]. pose proof (lit_not_dark (stamp_coverage p, p.2)) as Hld.
  destruct (in_view _) eqn:Hv; cbn [negb] in Ho.
  2: { injection Ho as -> ->. split; [done|]. intros b n _. unfold dark. by rewrite Hv. }
  destruct (lit _) eqn:Hl; [split; [by destruct (all_healthy _); injection Ho as -> ->|intros b n _; by apply Hld]|].
  destruct (dark _) eqn:Hdk; cbn [negb] in Ho; [|injection Ho as -> ->; done].
  destruct (st_was_covering _) eqn:Hw; cbn [negb] in Ho; injection Ho as -> ->.
  - split.
    + cbn [st_blind_passes st_was_covering]. destruct (_ <? _)%Z eqn:Hlt; [done|]. split; [done|]. lia.
    + intros b n. destruct (_ <? _)%Z eqn:Hlt; unfold coverage_edge; [|by destruct (is_stalled _)].
      destruct (is_stalled (fs_coverage_state s)) eqn:E; [|done]. destruct (Hs E) as [_ Hh]. revert Hlt Hh.
      unfold saturating_succ, STALL_HOLD_PASSES. cbn [st_blind_passes]. pose proof u32_max_eq. lia.
  - split; [done|]. intros b n. unfold coverage_edge. destruct (is_stalled (fs_coverage_state s)) eqn:E; [|done]. destruct (Hs E). congruence.
Qed.

(** The operator is pushed once for a collapse and once for what ends it, in turn,
    beginning with a collapse. A collapse is of a fleet all of whose expected
    nodes are blind; what ends it is a pass that is not dark: some expected node
    is no longer blind, or no node is expected any more. *)
Theorem coverage_pushes_alternate verdicts passes :
  let ps := pushes (findings_new verdicts) passes in
  length ps = length passes /\ alternates true (omap id ps) /\
  forall i p e, passes !! i = Some p -> ps !! i = Some (Some e) ->
    match e with
    | Collapsed b n _ => b = n /\ n = expected_count (stamp_coverage p) /\ dark (stamp_coverage p, p.2) = true
    | Recovered b n => b = length (blind_nodes (stamp_coverage p)) /\ n = expected_count (stamp_coverage p) /\ (b < n \/ n = 0)
    end.
Proof.
  assert (forall passes s, stall_held s ->
    length (pushes s passes) = length passes /\ alternates (negb (is_stalled (fs_coverage_state s))) (omap id (pushes s passes)) /\
    forall i p e, passes !! i = Some p -> pushes s passes !! i = Some (Some e) ->
      match e with
      | Collapsed b n _ => b = n /\ n = expected_count (stamp_coverage p) /\ dark (stamp_coverage p, p.2) = true
      | Recovered b n => b = length (blind_nodes (stamp_coverage p)) /\ n = expected_count (stamp_coverage p) /\ (b < n \/ n = 0)
      end) as H; [|apply (H passes (findings_new verdicts)); by intros [=]].
  clear passes. induction passes as [|p passes IH]; intros s Hs; [done|]. cbn [pushes].
  pose proof (stamp_cases s p) as Hc. destruct (stamp_held s p Hs) as [Hs' Hr].
  destruct (stamp_runtime_coverage_at s p.1.1 p.1.2 p.2) as [e s']. cbn [fst snd] in *.
  destruct (IH s' Hs') as (Hlen & Halt & Hall). split; [simpl; by rewrite Hlen|]. split.
  - destruct e as [[b n l|b n]|]; cbn [omap list_omap id].
    + destruct Hc as (E & E' & _). rewrite E' in Halt. rewrite E. done.
    + destruct Hc as (E & E' & _). rewrite E' in Halt. rewrite E. done.
    + by rewrite <- Hc.
  - intros [|i] q e0; [|by apply Hall]. intros [= <-] [= ->]. destruct e0 as [b n l|b n]; [naive_solver|].
    destruct Hc as (_ & _ & -> & ->). split; [done|]. split; [done|]. pose proof (Hr _ _ eq_refl) as Hd.
    unfold dark, in_view in Hd. cbn [fst] in Hd. rewrite blind_nodes_count. pose proof (count_split (stamp_coverage p)).
    destruct (Nat.ltb_spec 0 (expected_count (stamp_coverage p))); [|lia]. cbn [andb] in Hd. apply Nat.eqb_neq in Hd. lia.
Qed.

(** ** A fleet that is gone *)

Definition agent_pod (node : string) : Pod :=
  mkPod (mkMeta (Some node) (Some "protector") (Some {[AGENT_COMPONENT_LABEL := AGENT_COMPONENT_VALUE]}) None None)
    (Some (mkPodSpec [] None None None (Some node) None None)) None.

Definition beacons (healthy : bool) : gmap string LiveNode := if healthy then {["n1" := mkLiveNode 4 4 0]} else ∅.

(** One healthy pass, three dark ones, then the agents are deleted. *)
Definition deleted_fleet : list stamp :=
  [(beacons true, [agent_pod "n1"], 0%Z); (beacons false, [agent_pod "n1"], 60000000000%Z); (beacons false, [agent_pod "n1"], 120000000000%Z);
   (beacons false, [agent_pod "n1"], 180000000000%Z); (beacons false, [], 240000000000%Z)].

(** Deleting the agents of a stalled fleet pushes that the coverage is restored. *)
Theorem absence_reads_restored verdicts :
  pushes (findings_new verdicts) deleted_fleet =
    [None; None; None; Some (Collapsed 1 1 (Some "3m ago")); Some (Recovered 0 0)] /\
  json_get (redacted_coverage_payload (notice_of_edge (Recovered 0 0))) "message" =
    Some (JStr "protector runtime coverage restored — 0 of 0 sensor nodes reporting again").
Proof. split; by vm_compute. Qed.

Example percent_half : fmt_f32_whole (f32_percent 1056964608) = "50".
Proof. by vm_compute. Qed.
