(* ===== verification/Readiness.v ===== *)
(** * Readiness and the status strip

    engine/src/engine/state/readiness.rs: what each input of a decision is worth
    right now; dashboard/view_model/readiness.rs, strip.rs and props/status.rs:
    the rows as they are shown and the strip every view carries, with the tokens
    decided from it. *)

From S2P Require Import Prelude Text ImageRef AgentLiveness Findings.

#[local] Arguments String.append : simpl nomatch.

(** ** state/readiness.rs *)

Inductive InputState := Present | Absent | InDegraded | InBlind | InStalled.

#[export] Instance InputState_eq_dec : EqDecision InputState.
Proof. solve_decision. Defined.

Inductive NodeCoverageState := NcHealthy | NcDegraded | NcBlind | NcOutOfScope.

#[export] Instance NodeCoverageState_eq_dec : EqDecision NodeCoverageState.
Proof. solve_decision. Defined.

Record NodeCoverageRow := mkNodeRow { nr_node : string; nr_state : NodeCoverageState; nr_detail : string }.

Record ReadinessRow := mkReadinessRow {
  rr_id : string;
  rr_label : string;
  rr_state : InputState;
  rr_why : string;
  rr_enable : string;
  rr_detail : string;
  rr_weakens_decisions : bool;
  rr_nodes : list NodeCoverageRow
}.

Record Readiness := mkReadiness { rd_inputs : list ReadinessRow; rd_warming_up : bool; rd_model_judging : bool }.

Definition TUF_STALE_AFTER_SECS : Z := 604800.

Definition plural (n : N) : string := if (n =? 1)%N then "" else "s".
Definition plural_nat (n : nat) : string := plural (N.of_nat n).

Definition present_if (present : bool) : InputState := if present then Present else Absent.

Definition coverage_detail (count : nat) (noun : string) : string :=
  if count =? 0 then "not loaded — no " +:+ noun +:+ " evidence available"
  else pretty count +:+ " " +:+ noun +:+ (if count =? 1 then "" else "s") +:+ " loaded".

Definition humanize_age (secs : Z) : string :=
  if (86400 <=? secs)%Z then pretty (secs / 86400)%Z +:+ "d"
  else if (3600 <=? secs)%Z then pretty (secs / 3600)%Z +:+ "h"
  else if (60 <=? secs)%Z then pretty (secs / 60)%Z +:+ "m"
  else pretty secs +:+ "s".

Definition tuf_row (age_secs : option Z) (spike : bool) : InputState * string :=
  match age_secs with
  | None => (Absent, "no sigstore trust root fetched yet — signature verification hasn't populated the cache")
  | Some age =>
      let age_txt := humanize_age age in
      if (TUF_STALE_AFTER_SECS <=? age)%Z then
        (InDegraded, "trust root cache is " +:+ age_txt +:+ " old (stale) — refresh may be starved; genuine signatures may read unverifiable and blind downgrade detection")
      else if spike then
        (InDegraded, "cache " +:+ age_txt +:+ " old but a fleet-wide spike in unverifiable signatures this pass — the trust root may have drifted or is being starved")
      else (Present, "trust root cache " +:+ age_txt +:+ " old (fresh)")
  end.

Definition signature_verification_row (checking_images : nat) : InputState * string :=
  if checking_images =? 0 then (Present, "verification completing — no images stuck checking")
  else (InDegraded, "verification unavailable — " +:+ pretty checking_images +:+ " image" +:+ plural_nat checking_images +:+
          " stuck 'checking' (registry/Rekor/TUF unreachable or PROTECTOR_VERIFY_TIMEOUT too short); posture unknown, not clean").

Definition stalled_detail (alert : CoverageAlert) : string :=
  match ca_last_observation alert with
  | Some ago => "STALLED: " +:+ ca_message alert +:+ " (last observed " +:+ ago +:+ ")"
  | None => "STALLED: " +:+ ca_message alert
  end.

Definition node_row (n : NodeCoverage) : NodeCoverageRow :=
  let '(state, detail) :=
    match nc_state n with
    | Healthy signals =>
        if (signals =? 0)%N then (NcHealthy, "quiet — probes loaded, 0 signals this pass")
        else (NcHealthy, pretty signals +:+ " signal" +:+ plural signals +:+ " this pass, probes loaded")
    | DegradedProbes loaded total => (NcDegraded, "partial — " +:+ pretty loaded +:+ "/" +:+ pretty total +:+ " probes loaded")
    | Blind NotReporting => (NcBlind, "not reporting — no live sensor on this node")
    | Blind ProbesFailed => (NcBlind, "probes failed to load — agent up but blind")
    | OutOfScope => (NcOutOfScope, "agent not scheduled here")
    end in
  mkNodeRow (nc_node n) state detail.

Definition runtime_corroboration_row (runtime : RuntimeCoverage) : InputState * string :=
  let expected := expected_count runtime in
  let blind := blind_nodes runtime in
  let degraded := degraded_nodes runtime in
  if expected =? 0 then
    (Absent, "BLIND: no runtime sensor reporting — absence of a signal is not evidence of safety")
  else if length blind =? expected then
    (InBlind, "BLIND: all " +:+ pretty expected +:+ " expected node" +:+ plural_nat expected +:+ " dark (" +:+ join ", " blind +:+
       ") — corroboration has no live sensor")
  else if negb (length blind =? 0) then
    (InDegraded, "degraded — blind on " +:+ pretty (length blind) +:+ " of " +:+ pretty expected +:+ " node" +:+ plural_nat expected +:+ ": " +:+
       join ", " blind +:+ " (" +:+ pretty (healthy_count runtime) +:+ " healthy)")
  else if negb (length degraded =? 0) then
    (InDegraded, "degraded — probes partial on " +:+ pretty (length degraded) +:+ ": " +:+ join ", " degraded)
  else
    (Present, "healthy — all " +:+ pretty expected +:+ " node" +:+ plural_nat expected +:+ " reporting, probes loaded (" +:+
       pretty (agent_signals runtime) +:+ " signal" +:+ plural (agent_signals runtime) +:+ " this pass)").

Definition model_row (config : ReadinessConfig) (health : ModelHealth) : InputState * string :=
  if negb (rc_model_attached config) then (Absent, "no model configured — no exploitability calls are made")
  else match health with
       | MhOk => (Present, "attached · last call ok")
       | MhTimeout => (InDegraded, "attached · last call timed out (CPU model warming or endpoint down)")
       | MhUnknown => (InDegraded, "attached · no call yet this run (warming up)")
       end.

Definition RUNTIME_ID : string := "runtime-corroboration".

Definition derive_readiness (config : ReadinessConfig) (model_health : ModelHealth) (last_pass : option Z) (runtime : RuntimeCoverage)
    : Readiness :=
  let '(model_state, model_detail) := model_row config model_health in
  let '(runtime_state, runtime_detail) := runtime_corroboration_row runtime in
  let '(tuf_state, tuf_detail) := tuf_row (rc_tuf_cache_age_secs config) (rc_unverifiable_spike config) in
  let '(verify_state, verify_detail) := signature_verification_row (rc_checking_images config) in
  mkReadiness
    [ mkReadinessRow "model" "Model adjudicator" model_state
        "decides whether a proven chain is a real breach — without it, nothing is judged exploitable"
        "PROTECTOR_ENGINE_MODEL" model_detail true [];
      mkReadinessRow "kev" "KEV catalogue" (present_if (0 <? rc_kev_count config))
        "flags known-exploited CVEs so the model weighs active threats first"
        "PROTECTOR_KEV_FILE" (coverage_detail (rc_kev_count config) "known-exploited CVE id") true [];
      mkReadinessRow "epss" "EPSS feed" (present_if (0 <? rc_epss_count config))
        "exploit-prediction scores rank which CVEs are most likely to be hit next"
        "PROTECTOR_EPSS_FILE" (coverage_detail (rc_epss_count config) "EPSS score") true [];
      mkReadinessRow RUNTIME_ID "Runtime monitoring" runtime_state
        "live per-node behavioral signals (exec, secret reads, connections, alerts) confirm a path is being exploited right now — a blind node cannot corroborate"
        "deploy the agent DaemonSet (-> /behavior)" runtime_detail true (node_row <$> runtime);
      mkReadinessRow "journal" "Decision journal" (present_if (rc_journal_durable config))
        "durable verdicts survive a restart and back the would-have-acted aggregation — without it, history resets"
        "PROTECTOR_ENGINE_JOURNAL_PATH"
        (if rc_journal_durable config then "durable volume mounted" else "in-memory only — resets on restart") false [];
      mkReadinessRow "tuf-root" "Signature trust root" tuf_state
        "the sigstore TUF root verifies signatures; a stale/starved root turns genuine signatures unverifiable and mass-blinds signing detection"
        "PROTECTOR_TUF_CACHE" tuf_detail false [];
      mkReadinessRow "signature-verification" "Signature verification" verify_state
        "reads each image's signing posture; while verification can't complete (registry/Rekor/TUF unreachable or the per-image budget too short) those images stay 'checking' — posture unknown, not clean"
        "PROTECTOR_VERIFY_TIMEOUT" verify_detail false [];
      mkReadinessRow "arm-state" "Arm state" Present
        "shadow proposes cuts only; enforcing applies the reversible isolation automatically"
        "" (if rc_armed config then "enforcing (acting)" else "shadow (proposing only)") false [] ]
    (bool_decide (last_pass = None)) (rc_model_attached config && bool_decide (model_health = MhOk)).

Definition find_row (r : Readiness) (id : string) : option ReadinessRow := List.find (fun row => bool_decide (rr_id row = id)) (rd_inputs r).

(** The first row of an id, changed in place. *)
Fixpoint alter_row (id : string) (f : ReadinessRow -> ReadinessRow) (rows : list ReadinessRow) : list ReadinessRow :=
  match rows with
  | [] => []
  | row :: rows => if bool_decide (rr_id row = id) then f row :: rows else row :: alter_row id f rows
  end.

Definition stall_row (alert : CoverageAlert) (row : ReadinessRow) : ReadinessRow :=
  mkReadinessRow (rr_id row) (rr_label row) InStalled (rr_why row) (rr_enable row) (stalled_detail alert) (rr_weakens_decisions row) (rr_nodes row).

Definition with_coverage_stall (r : Readiness) (state : CoverageState) : Readiness :=
  match state with
  | Stalled alert => mkReadiness (alter_row RUNTIME_ID (stall_row alert) (rd_inputs r)) (rd_warming_up r) (rd_model_judging r)
  | _ => r
  end.

Definition model_attached (r : Readiness) : bool :=
  match find_row r "model" with Some row => negb (bool_decide (rr_state row = Absent)) | None => false end.

Definition unmet_count (r : Readiness) : nat :=
  length (List.filter (fun row => negb (bool_decide (rr_id row = "arm-state")) && negb (bool_decide (rr_state row = Present))) (rd_inputs r)).

Definition blind_nodes_of (r : Readiness) : gset string :=
  match find_row r RUNTIME_ID with
  | Some row => list_to_set (nr_node <$> List.filter (fun n => bool_decide (nr_state n = NcBlind)) (rr_nodes row))
  | None => ∅
  end.

(** What a reader of the findings handle sees. *)
Definition readiness_of (s : Findings) : Readiness :=
  with_coverage_stall
    (derive_readiness (fs_readiness s) (Findings.model_health s) (fs_last_pass s) (fs_runtime_coverage s)) (fs_coverage_state s).

(** ** dashboard/view_model/readiness.rs *)

Definition is_attention_gap (row : ReadinessRow) : bool := rr_weakens_decisions row && negb (bool_decide (rr_state row = Present)).

(** The gaps first, each group as the engine orders it. *)
Definition map_readiness (r : Readiness) : list ReadinessRow :=
  sort_by (fun a b => is_attention_gap a || negb (is_attention_gap b)) (rd_inputs r).

(** ** The strip *)

Record CoverageChip := mkChip { ch_label : string; ch_present : bool; ch_degraded : bool; ch_blind : bool; ch_stalled : bool }.

Record StatusStrip := mkStrip {
  ss_cluster : string;
  ss_armed : bool;
  ss_model_judging : bool;
  ss_warming_up : bool;
  ss_model_attached : bool;
  ss_coverage : list CoverageChip;
  ss_coverage_alert : option CoverageAlert;
  ss_breach_count : nat;
  ss_awaiting_count : nat;
  ss_uncertain_count : nat;
  ss_cleared_count : nat;
  ss_escalated_count : nat;
  ss_signing_regression_breach : nat;
  ss_signing_regression_uncertain : nat
}.

Definition COVERAGE_FEEDS : list (string * string) := [("kev", "KEV"); ("epss", "EPSS"); (RUNTIME_ID, "Runtime")].

Definition coverage_chip (label : string) (state : InputState) : CoverageChip :=
  mkChip label (bool_decide (state = Present)) (bool_decide (state = InDegraded)) (bool_decide (state = InBlind)) false.

Definition coverage_chips (r : Readiness) : list CoverageChip :=
  omap (fun '(id, label) => (fun row => coverage_chip label (rr_state row)) <$> find_row r id) COVERAGE_FEEDS.

Definition armed_from (r : Readiness) : bool :=
  match find_row r "arm-state" with Some row => starts_with "enforcing" (rr_detail row) | None => false end.

Definition status_strip (cluster : string) (r : Readiness) (breach awaiting uncertain cleared escalated : nat) : StatusStrip :=
  mkStrip cluster (armed_from r) (rd_model_judging r) (rd_warming_up r) (model_attached r) (coverage_chips r) None
    breach awaiting uncertain cleared escalated 0 0.

Definition with_signing_regressions (s : StatusStrip) (breach uncertain : nat) : StatusStrip :=
  mkStrip (ss_cluster s) (ss_armed s) (ss_model_judging s) (ss_warming_up s) (ss_model_attached s) (ss_coverage s) (ss_coverage_alert s)
    (ss_breach_count s) (ss_awaiting_count s) (ss_uncertain_count s) (ss_cleared_count s) (ss_escalated_count s) breach uncertain.

Definition coverage_stall_alert (state : CoverageState) : option CoverageAlert :=
  match state with Stalled alert => Some alert | _ => None end.

Definition stall_chip (alert : CoverageAlert) (c : CoverageChip) : CoverageChip :=
  if bool_decide (ch_label c = ca_feed_label alert) then mkChip (ch_label c) false false false true else c.

Definition strip_with_coverage_stall (s : StatusStrip) (alert : option CoverageAlert) : StatusStrip :=
  match alert with
  | Some alert =>
      mkStrip (ss_cluster s) (ss_armed s) (ss_model_judging s) (ss_warming_up s) (ss_model_attached s) (stall_chip alert <$> ss_coverage s)
        (Some alert) (ss_breach_count s) (ss_awaiting_count s) (ss_uncertain_count s) (ss_cleared_count s) (ss_escalated_count s)
        (ss_signing_regression_breach s) (ss_signing_regression_uncertain s)
  | None => s
  end.

Definition has_signing_regression (s : StatusStrip) : bool :=
  (0 <? ss_signing_regression_breach s) || (0 <? ss_signing_regression_uncertain s).

Definition model_is_up (s : StatusStrip) : bool := ss_model_judging s && negb (ss_warming_up s).

Definition fully_covered (s : StatusStrip) : bool :=
  model_is_up s && forallb (fun c => negb (ch_degraded c) && negb (ch_stalled c) && negb (ch_blind c)) (ss_coverage s).

Definition all_clear (s : StatusStrip) : bool :=
  fully_covered s && (ss_breach_count s =? 0) && (ss_awaiting_count s =? 0) && (ss_uncertain_count s =? 0) && negb (has_signing_regression s).

Definition watching (s : StatusStrip) : bool :=
  model_is_up s && (ss_breach_count s =? 0) && (ss_signing_regression_breach s =? 0) && negb (all_clear s).

Definition judging_state (s : StatusStrip) : string :=
  if all_clear s then "all-clear"
  else if watching s || (model_is_up s && has_signing_regression s) then "watching"
  else if model_is_up s then "judging"
  else if ss_warming_up s then "warming"
  else if negb (ss_model_attached s) then "no-model"
  else "blind".
