(* ===== verification/Guards.v ===== *)
(** * The judge and its guards

    engine/src/engine/reason/adjudicate/guards.rs, incident/guards.rs,
    model_call.rs and state/judgement.rs: what a model's reply must survive before
    it is a decision. The reader of JSON and the model's answers are arguments. *)

From S2P Require Import Prelude Text Json ImageRef PetGraph Attack Behavior Classify Graph Chain Prove Boundary.
From S2P Require Import Respond Verdicts Incident Evidence.

#[local] Arguments String.append : simpl nomatch.

(** ** Cited ids *)

(** U+2010 to U+2015 and U+2212. *)
Definition dashes : list string := map (fun n => bytes [226; 128; n]) (seq 144 6) ++ [bytes [226; 136; 146]].

Definition hyphen : Ascii.ascii := Ascii.ascii_of_nat 45.

Fixpoint normalize_from (fuel : nat) (prev_ws : bool) (s : string) : string :=
  match fuel with
  | 0 => EmptyString
  | S fuel =>
      match strip_one dashes s, strip_one white_space s with
      | Some rest, _ => String hyphen (normalize_from fuel false rest)
      | None, Some rest => if prev_ws then normalize_from fuel true rest else String hyphen (normalize_from fuel true rest)
      | None, None =>
          match s with EmptyString => EmptyString | String c s => String (to_upper_char c) (normalize_from fuel false s) end
      end
  end.

Definition normalize_cve_text (text : string) : string := normalize_from (String.length text) false text.

Definition is_digit (c : Ascii.ascii) : bool :=
  ((48 <=? Ascii.N_of_ascii c) && (Ascii.N_of_ascii c <=? 57))%N.

Fixpoint digits (s : string) : nat :=
  match s with String c s => if is_digit c then S (digits s) else 0 | EmptyString => 0 end.

Fixpoint str_drop (n : nat) (s : string) : string :=
  match n, s with S n, String _ s => str_drop n s | _, _ => s end.

Fixpoint str_take (n : nat) (s : string) : string :=
  match n, s with S n, String c s => String c (str_take n s) | _, _ => EmptyString end.

(** The id whose prefix ends where [rest] starts. *)
Definition cve_at (rest : string) : option string :=
  if (digits rest =? 4) && starts_with "-" (str_drop 4 rest)
  then let n := digits (str_drop 5 rest) in if 4 <=? n then Some ("CVE-" +:+ str_take (5 + n) rest) else None
  else None.

Fixpoint extract_cve_ids (text : string) : list string :=
  match text with
  | EmptyString => []
  | String _ tail =>
      match (rest ← strip_prefix "CVE-" text; cve_at rest) with Some cve => [cve] | None => [] end ++ extract_cve_ids tail
  end.

(** ** Guards on a verdict *)

Definition guard_exploitable (verdict : Verdict) (check : string -> option Verdict) : Verdict :=
  match verdict with
  | Exploitable reason => default verdict (check reason)
  | _ => verdict
  end.

Definition guard_fabricated_cve (verdict : Verdict) (real_ids : gset string) : Verdict :=
  let real_ids : gset string := set_map normalize_cve_text real_ids in
  guard_exploitable verdict (fun reason =>
    match List.filter (fun c => negb (bool_decide (c ∈ real_ids))) (extract_cve_ids (normalize_cve_text reason)) with
    | [] => None
    | fabricated => Some (Uncertain ("model cited CVE(s) not in the evidence (possible hallucination): " +:+ join ", " fabricated))
    end).

Definition claims_loaded (reason : string) : bool :=
  let lower := to_ascii_lowercase reason in
  str_contains "loaded-at-runtime" lower || str_contains "loaded at runtime" lower.

Definition guard_fabricated_reachability_tag (verdict : Verdict) (evidence_has_loaded : bool) : Verdict :=
  guard_exploitable verdict (fun reason =>
    if claims_loaded reason && negb evidence_has_loaded
    then Some (Uncertain "model asserted a [reachability: loaded-at-runtime] exploitation tag that no CVE in the evidence carries (fabricated reachability tag)")
    else None).

Definition corroborating_behavior (b : Behavior) : bool := AlarmClass.is_alarming_now b.

Definition guard_unsupported_exploitable (verdict : Verdict) (cves : list string) (behaviors : list Behavior)
    (has_exposed_secret : bool) : Verdict :=
  guard_exploitable verdict (fun _ =>
    let has_cve := match cves with [] => false | _ => true end in
    let has_corroborating := existsb corroborating_behavior behaviors in
    if has_cve || has_exposed_secret || has_corroborating then None
    else Some (Refuted "no exploitation evidence present (no CVE, no exposed secret, no runtime alert) — reachability is not a breach")).

(** ** Guards on a decision *)

Section OnGraph.
Context {G : Type} `{SG : !StableGraph G Node Edge}.
Implicit Types sg : SecurityGraph G.

Definition node_evidence sg (node : NodeKey) : list string * list Behavior * bool :=
  let '(cves, behaviors) := evidence_lines sg node in
  (cves, behaviors, match (finding_lines sg node).1 with [] => false | _ => true end).

Definition node_has_grounding sg (node : NodeKey) : bool :=
  let cves := (reachable_cve_lines sg node).1 in
  let '(_, behaviors, has_secret) := node_evidence sg node in
  negb (bool_decide (cves = [])) || has_secret || match behaviors with [] => false | _ => true end.

Definition guard_containment_grounding (decision : IncidentDecision) sg (entry : NodeKey) : IncidentDecision :=
  if existsb (fun c => negb (bool_decide (cc_node c = entry)) && negb (node_has_grounding sg (cc_node c))) (d_cuts decision)
  then uncertain "a contained downstream node carries no exploitation evidence in its own evidence block (fabricated containment grounding)"
  else decision.

Definition guard_fabrication (decision : IncidentDecision) sg (entry : NodeKey) (downstream : list NodeKey) : IncidentDecision :=
  if negb (bool_decide (d_assessment decision = AAttack)) then decision
  else
    let nodes := entry :: downstream in
    let cves := concat ((fun n => (node_evidence sg n).1.1) <$> nodes) in
    let evidence_has_loaded := existsb (fun n => negb (bool_decide ((reachable_cve_lines sg n).1 = []))) nodes in
    let verdict := guard_fabricated_cve (Exploitable (d_reason decision)) (cve_ids_of cves) in
    match guard_fabricated_reachability_tag verdict evidence_has_loaded with
    | Uncertain reason => uncertain reason
    | _ => decision
    end.

Definition guard_zero_anchor (decision : IncidentDecision) (cves : list string) (behaviors : list Behavior)
    (has_exposed_secret : bool) : IncidentDecision :=
  if negb (bool_decide (d_assessment decision = AAttack)) then decision
  else match guard_unsupported_exploitable (Exploitable (d_reason decision)) cves behaviors has_exposed_secret with
       | Refuted reason => mkDecision ANoAttack reason []
       | _ => decision
       end.

(** ** The judge *)

Definition downstream_backstop_evidence sg (downstream : list NodeKey) : list string * bool * list Behavior :=
  (concat ((fun n => (reachable_cve_lines sg n).1) <$> downstream),
   existsb (fun n => match (finding_lines sg n).1 with [] => false | _ => true end) downstream,
   concat ((fun n => (reachable_cve_lines sg n).2) <$> downstream)).

Section Reply.
Variable from_str : string -> option Json.

(** The two calls to the model, the second made only after a reply without an
    object. The outer [None] is the panic of the parser. *)
Definition chat_with_retry_on_hard_parse_failure (first second : option string) : option (option string) :=
  match first with
  | None => Some None
  | Some reply =>
      failed ← is_hard_parse_failure from_str reply;
      if negb failed then Some (Some reply)
      else match second with
           | None => Some (Some reply)
           | Some retry_reply =>
               retry_failed ← is_hard_parse_failure from_str retry_reply;
               Some (Some (if negb retry_failed then retry_reply else reply))
           end
  end.

Definition judge (entry : NodeKey) sg (downstream : list NodeKey) (menu : Menu) (first second : option string)
    : option (option string * IncidentDecision) :=
  let '(cves, behaviors) := evidence_lines sg entry in
  let has_exposed_secret := match (finding_lines sg entry).1 with [] => false | _ => true end in
  let '(downstream_cves, downstream_has_secret, downstream_behaviors) := downstream_backstop_evidence sg downstream in
  reply ← chat_with_retry_on_hard_parse_failure first second;
  match reply with
  | Some reply =>
      decision ← parse_incident_decision from_str reply menu;
      let decision := guard_containment_grounding decision sg entry in
      let decision := guard_fabrication decision sg entry downstream in
      let decision := guard_assessment_cuts_consistency decision in
      let decision := guard_zero_anchor decision (cves ++ downstream_cves) (behaviors ++ downstream_behaviors)
                        (has_exposed_secret || downstream_has_secret) in
      Some (Some reply, decision)
  | None => Some (None, uncertain "model unavailable")
  end.

End Reply.

(** ** The reach of an objective *)

Definition objective_reach sg (objective : NodeKey) : string :=
  match index_of sg objective with
  | None => "NETWORK"
  | Some idx =>
      let relations := (fun r => e_relation (er_weight r)) <$> sg_edges_in (inner sg) idx in
      let mounted := existsb (fun r => match r with CanRead => true | _ => false end) relations in
      let rbac := existsb (fun r => match r with CanDo _ _ => true | _ => false end) relations in
      match mounted, rbac with
      | true, true => "MOUNTED+RBAC-GRANTED"
      | true, false => "MOUNTED"
      | false, true => "RBAC-GRANTED"
      | false, false => "NETWORK"
      end
  end.

End OnGraph.

Definition ns_marker (entry objective : NodeKey) : string :=
  match key_namespace entry, key_namespace objective with
  | Some a, Some b => if bool_decide (a = b) then "same-ns" else "cross-ns"
  | _, _ => "cross-ns"
  end.

(** ** Fences *)

Definition fence (value : string) : string := "<<<" +:+ trim (sanitize value) +:+ ">>>".

Definition fence_list (values : list string) : string :=
  match values with [] => "<<<(none)>>>" | _ => fence (join ", " values) end.

(** ** The record of a judgement *)

Record Judgement := mkJudgement {
  jm_entry : string; jm_objectives : nat; jm_verdict : Verdict; jm_prompt : option string; jm_reply : option string
}.

Definition JUDGEMENT_CAP : nat := 64.

Definition judgement_record (rows : list Judgement) (j : Judgement) : list Judgement :=
  (if JUDGEMENT_CAP <=? length rows then drop 1 rows else rows) ++ [j].

Definition judgement_snapshot (rows : list Judgement) : list Judgement := reverse rows.

Definition record_judgement (journal : option (list Judgement)) (entry : NodeKey) (objectives : nat) (prompt reply : option string)
    (decision : IncidentDecision) : option (list Judgement) :=
  (fun rows => judgement_record rows (mkJudgement entry objectives (to_verdict decision) prompt reply)) <$> journal.
