(* ===== verification/GuardsFacts.v ===== *)
(** * What a judged attack rests on

    The facts of Guards.v: an attack leaves the judge only with evidence the graph
    holds, and is otherwise left as the parser read it. *)

From S2P Require Import Prelude Text Json ImageRef PetGraph Attack Behavior Classify Graph Chain Prove Boundary.
From S2P Require Import Respond Verdicts Incident Evidence EvidenceFacts Guards.

#[local] Arguments String.append : simpl nomatch.

(** ** The guards one by one *)

Lemma guard_fabricated_cve_spec reason ids :
  (guard_fabricated_cve (Exploitable reason) ids = Exploitable reason /\
   forall c, c ∈ extract_cve_ids (normalize_cve_text reason) -> exists i, i ∈ ids /\ normalize_cve_text i = c) \/
  ((exists why, guard_fabricated_cve (Exploitable reason) ids = Uncertain why) /\
   exists c, c ∈ extract_cve_ids (normalize_cve_text reason) /\ forall i, i ∈ ids -> normalize_cve_text i <> c).
Proof.
  unfold guard_fabricated_cve, guard_exploitable. set (f := List.filter _ _).
  assert (forall c, c ∈ f <-> c ∉ (set_map normalize_cve_text ids : gset string) /\ c ∈ extract_cve_ids (normalize_cve_text reason)) as Hf.
  { intros c. unfold f. by rewrite elem_of_filter_b, negb_true_iff, bool_decide_eq_false. }
  destruct f as [|c f']; [left|right]; simpl.
  - split; [done|]. intros c Hc. destruct (decide (c ∈ (set_map normalize_cve_text ids : gset string))) as [Hi|Hn].
    + apply elem_of_map in Hi as (i & -> & Hi). eauto.
    + assert (c ∈ []) as Hx by (by apply Hf). by apply not_elem_of_nil in Hx.
  - split; [eauto|]. exists c. assert (c ∈ c :: f') as [Hn Hc]%Hf by (by left). split; [done|].
    intros i Hi He. apply Hn, elem_of_map. eauto.
Qed.

Lemma guard_tag_spec v loaded :
  guard_fabricated_reachability_tag v loaded =
    match v with
    | Exploitable reason => if claims_loaded reason && negb loaded
        then Uncertain "model asserted a [reachability: loaded-at-runtime] exploitation tag that no CVE in the evidence carries (fabricated reachability tag)"
        else v
    | _ => v
    end.
Proof. destruct v; try done. simpl. by destruct (claims_loaded why && negb loaded). Qed.

Section OnGraph.
Context {G : Type} `{SG : !StableGraph G Node Edge}.
Implicit Types sg : SecurityGraph G.

(** *** The evidence of a node *)

Definition has_loaded sg (n : NodeKey) : Prop := exists v, v ∈ vulns_of sg n /\ v_reachability v = LoadedAtRuntime.
Definition has_secret sg (n : NodeKey) : Prop := (Graph.entry_findings sg n).1.1 <> [].

(** Something of its own that the model could have cited. *)
Definition evidenced sg (n : NodeKey) : Prop := has_loaded sg n \/ has_secret sg n \/ behaviors_of sg n <> [].

Lemma reachable_lines_loaded sg n : (reachable_cve_lines sg n).1 <> [] <-> has_loaded sg n.
Proof. apply reachable_nonempty. Qed.

Lemma reachable_cve_behaviors sg n : (reachable_cve_lines sg n).2 = behaviors_of sg n.
Proof. unfold reachable_cve_lines. by rewrite reachable_cve_lines_eq. Qed.

Lemma findings_secret sg n budget : (entry_findings_budgeted sg n budget).1.1 <> [] <-> has_secret sg n.
Proof.
  unfold entry_findings_budgeted, has_secret. destruct (Graph.entry_findings sg n) as [[secrets misconfigs] rbac]. simpl.
  pose proof (map_budget_nil finding_evidence_budgeted (sort_by finding_leb secrets) budget) as H.
  destruct (map_budget _ (sort_by finding_leb secrets) _) as [ls b]. destruct (map_budget _ _ b) as [ps b']. simpl in *.
  rewrite H, sort_by_nil. done.
Qed.

Lemma finding_lines_secret sg n : (finding_lines sg n).1 <> [] <-> has_secret sg n.
Proof. apply findings_secret. Qed.

Lemma not_nil_true {A} (l : list A) : match l with [] => false | _ => true end = true <-> l <> [].
Proof. destruct l; [split; [done|congruence]|done]. Qed.

Lemma node_has_grounding_spec sg n : node_has_grounding sg n = true <-> evidenced sg n.
Proof.
  unfold node_has_grounding, node_evidence, evidenced. rewrite evidence_lines_eq. rewrite <- finding_lines_secret, <- reachable_lines_loaded.
  rewrite !orb_true_iff, negb_true_iff, bool_decide_eq_false, !not_nil_true. tauto.
Qed.

Lemma containment_grounding_spec d sg entry :
  ((forall c, c ∈ d_cuts d -> cc_node c = entry \/ evidenced sg (cc_node c)) /\ guard_containment_grounding d sg entry = d) \/
  (~ (forall c, c ∈ d_cuts d -> cc_node c = entry \/ evidenced sg (cc_node c)) /\
   exists why, guard_containment_grounding d sg entry = uncertain why).
Proof.
  unfold guard_containment_grounding. destruct (existsb _ _) eqn:E; [right|left]; (split; [|eauto]).
  - apply existsb_exists in E as (c & Hc%list_elem_of_In & [Hn He]%andb_true_iff). intros H.
    apply negb_true_iff, bool_decide_eq_false in Hn. apply negb_true_iff in He. destruct (H c Hc) as [|Hg]; [done|].
    apply node_has_grounding_spec in Hg. congruence.
  - intros c Hc. destruct (decide (cc_node c = entry)) as [|Hn]; [by left|right]. apply node_has_grounding_spec.
    destruct (node_has_grounding sg (cc_node c)) eqn:Hg; [done|]. assert (true = false) as Hx; [|done]. rewrite <- E. symmetry.
    apply existsb_exists. exists c. split; [by apply list_elem_of_In|]. by rewrite bool_decide_eq_false_2, Hg.
Qed.

(** The ids a node's full list holds: those of its vulnerabilities, where these
    are plain. *)
Definition real_ids sg (nodes : list NodeKey) : gset string := cve_ids_of (concat ((fun n => (evidence_lines sg n).1) <$> nodes)).

Lemma real_ids_spec sg nodes i : (forall n v, n ∈ nodes -> v ∈ vulns_of sg n -> plain_id (v_id v)) ->
  i ∈ real_ids sg nodes <-> exists n v, n ∈ nodes /\ v ∈ vulns_of sg n /\ v_id v = i.
Proof.
  intros Hp. assert (i ∈ real_ids sg nodes <-> exists n, n ∈ nodes /\ i ∈ cve_ids_of (evidence_lines sg n).1) as ->.
  { unfold real_ids, cve_ids_of. rewrite elem_of_list_to_set, list_elem_of_omap. setoid_rewrite elem_of_concat. split.
    - intros (line & (ls & Hls & Hl) & Hi). apply list_elem_of_fmap in Hls as (n & -> & Hn). exists n. split; [done|].
      apply elem_of_list_to_set, list_elem_of_omap. eauto.
    - intros (n & Hn & Hi). apply elem_of_list_to_set, list_elem_of_omap in Hi as (line & Hl & Hi). exists line. split; [|done].
      exists (evidence_lines sg n).1. split; [by apply (list_elem_of_fmap_2 (fun n => (evidence_lines sg n).1))|done]. }
  split.
  - intros (n & Hn & Hi). apply evidence_ids in Hi; [|by eauto]. apply list_elem_of_fmap in Hi as (v & -> & Hv). eauto.
  - intros (n & v & Hn & Hv & <-). exists n. split; [done|]. apply evidence_ids; [by eauto|]. by apply list_elem_of_fmap_2.
Qed.

(** What the reason of an attack says is in the evidence. *)
Record cited_truly sg (nodes : list NodeKey) (reason : string) : Prop := {
  ct_ids : forall c, c ∈ extract_cve_ids (normalize_cve_text reason) -> exists i, i ∈ real_ids sg nodes /\ normalize_cve_text i = c;
  ct_loaded : claims_loaded reason = true -> exists n, n ∈ nodes /\ has_loaded sg n
}.

Lemma fabrication_spec d sg entry downstream : d_assessment d = AAttack ->
  (cited_truly sg (entry :: downstream) (d_reason d) /\ guard_fabrication d sg entry downstream = d) \/
  (~ cited_truly sg (entry :: downstream) (d_reason d) /\ exists why, guard_fabrication d sg entry downstream = uncertain why).
Proof.
  intros Ha. unfold guard_fabrication. rewrite bool_decide_eq_true_2 by done. cbn [negb].
  assert (concat ((fun n => (node_evidence sg n).1.1) <$> entry :: downstream) = concat ((fun n => (evidence_lines sg n).1) <$> entry :: downstream)) as ->.
  { f_equal. apply list_fmap_ext. intros i n _. unfold node_evidence. by destruct (evidence_lines sg n). }
  fold (real_ids sg (entry :: downstream)). set (loaded := existsb _ _).
  assert (loaded = true <-> exists n, n ∈ entry :: downstream /\ has_loaded sg n) as Hloaded.
  { unfold loaded. rewrite existsb_exists. setoid_rewrite negb_true_iff. setoid_rewrite bool_decide_eq_false. setoid_rewrite reachable_lines_loaded.
    split; intros (n & Hn & Hl); exists n; (split; [by apply list_elem_of_In|done]). }
  rewrite guard_tag_spec. destruct (guard_fabricated_cve_spec (d_reason d) (real_ids sg (entry :: downstream))) as [[-> Hids]|[[why ->] (c & Hc & Hno)]].
  - destruct (claims_loaded (d_reason d) && negb loaded) eqn:Hcl; [right|left].
    + apply andb_true_iff in Hcl as [Hcl Hl%negb_true_iff]. split; [|eauto]. intros [_ H2]. apply H2, Hloaded in Hcl. congruence.
    + split; [|done]. split; [done|]. intros Hc. rewrite Hc in Hcl. simpl in Hcl. apply negb_false_iff in Hcl. by apply Hloaded.
  - right. split; [|eauto]. intros [H1 _]. destruct (H1 c Hc) as (i & Hi & He). by apply (Hno i).
Qed.

(** Some anchor: a vulnerability of the entry, one seen loading downstream, an
    exposed secret, or a behaviour that alarms. *)
Definition anchored sg (entry : NodeKey) (downstream : list NodeKey) : Prop :=
  vulns_of sg entry <> [] \/ (exists n, n ∈ downstream /\ has_loaded sg n) \/
  (exists n, n ∈ entry :: downstream /\ has_secret sg n) \/
  (exists n b, n ∈ entry :: downstream /\ b ∈ behaviors_of sg n /\ AlarmClass.is_alarming_now b = true).

Definition anchor_cves sg entry downstream := (evidence_lines sg entry).1 ++ (downstream_backstop_evidence sg downstream).1.1.
Definition anchor_behaviors sg entry downstream := (evidence_lines sg entry).2 ++ (downstream_backstop_evidence sg downstream).2.
Definition anchor_secret sg entry downstream : bool :=
  match (finding_lines sg entry).1 with [] => false | _ => true end || (downstream_backstop_evidence sg downstream).1.2.

Lemma app_not_nil {A} (l l' : list A) : l ++ l' <> [] <-> l <> [] \/ l' <> [].
Proof. destruct l; simpl; [naive_solver|]. split; [by left|done]. Qed.

Lemma concat_not_nil {A B} (f : A -> list B) l : concat (f <$> l) <> [] <-> exists x, x ∈ l /\ f x <> [].
Proof.
  induction l as [|x l IH]; simpl; [split; [done|]; by intros (x & ?%not_elem_of_nil & _)|].
  rewrite app_not_nil, IH. setoid_rewrite elem_of_cons. naive_solver.
Qed.

Lemma anchored_spec sg entry downstream :
  match anchor_cves sg entry downstream with [] => false | _ => true end || anchor_secret sg entry downstream ||
    existsb corroborating_behavior (anchor_behaviors sg entry downstream) = true <-> anchored sg entry downstream.
Proof.
  unfold anchor_cves, anchor_secret, anchor_behaviors, anchored, downstream_backstop_evidence. simpl.
  rewrite !orb_true_iff, !not_nil_true, app_not_nil, concat_not_nil, evidence_lines_eq. cbn [fst snd].
  rewrite map_budget_nil, dedup_worst_nil, finding_lines_secret. setoid_rewrite reachable_lines_loaded.
  assert (existsb (fun n => match (finding_lines sg n).1 with [] => false | _ => true end) downstream = true <->
          exists n, n ∈ downstream /\ has_secret sg n) as ->.
  { rewrite existsb_exists. setoid_rewrite not_nil_true. setoid_rewrite finding_lines_secret. by setoid_rewrite list_elem_of_In. }
  assert (existsb corroborating_behavior (behaviors_of sg entry ++ concat ((fun n => (reachable_cve_lines sg n).2) <$> downstream)) = true <->
          exists n b, n ∈ entry :: downstream /\ b ∈ behaviors_of sg n /\ AlarmClass.is_alarming_now b = true) as ->.
  { rewrite existsb_exists. setoid_rewrite <- list_elem_of_In. setoid_rewrite elem_of_app. setoid_rewrite elem_of_concat. split.
    - intros (b & [Hb|(bs & (n & -> & Hn)%list_elem_of_fmap & Hb)] & Ha); [exists entry, b; split; [by left|done]|].
      exists n, b. split; [by right|]. split; [|done]. by rewrite reachable_cve_behaviors in Hb.
    - intros (n & b & [-> |Hn]%elem_of_cons & Hb & Ha); exists b; (split; [|done]); [by left|right].
      exists (reachable_cve_lines sg n).2. split; [by apply (list_elem_of_fmap_2 (fun n => (reachable_cve_lines sg n).2))|].
      by rewrite reachable_cve_behaviors. }
  setoid_rewrite elem_of_cons. naive_solver.
Qed.

Lemma zero_anchor_spec d sg entry downstream : d_assessment d = AAttack ->
  let d' := guard_zero_anchor d (anchor_cves sg entry downstream) (anchor_behaviors sg entry downstream) (anchor_secret sg entry downstream) in
  (anchored sg entry downstream /\ d' = d) \/ (~ anchored sg entry downstream /\ exists why, d' = mkDecision ANoAttack why []).
Proof.
  intros Ha. unfold guard_zero_anchor. rewrite bool_decide_eq_true_2 by done. unfold guard_unsupported_exploitable, guard_exploitable. cbn [negb].
  rewrite <- anchored_spec. destruct (_ || anchor_secret sg entry downstream || _); simpl; [by left|right]. split; [done|eauto].
Qed.

(** ** The judge *)

(** An attack the evidence of the graph supports: what it contains, what it
    cites, and that there is anything at all. *)
Record supported sg (entry : NodeKey) (downstream : list NodeKey) (d : IncidentDecision) : Prop := {
  su_contained : forall c, c ∈ d_cuts d -> cc_node c = entry \/ evidenced sg (cc_node c);
  su_cited : cited_truly sg (entry :: downstream) (d_reason d);
  su_anchored : anchored sg entry downstream
}.

Section Reply.
Variable from_str : string -> option Json.

Lemma parse_is_grounded reply m d : parse_incident_decision from_str reply m = Some d -> grounded m d.
Proof.
  unfold parse_incident_decision. destruct (extract_object from_str reply) as [[object|]|]; [|intros [= <-]; apply uncertain_grounded|done].
  intros [= <-]. by apply decide_reply_grounded.
Qed.

(** The reply a decision is read from: the first, unless it holds no object and
    the second does. *)
Lemma chat_spec first second r : chat_with_retry_on_hard_parse_failure from_str first second = Some r ->
  match first with
  | None => r = None
  | Some reply =>
      (is_hard_parse_failure from_str reply = Some false /\ r = Some reply) \/
      (is_hard_parse_failure from_str reply = Some true /\
       (r = Some reply \/ exists reply', second = Some reply' /\ is_hard_parse_failure from_str reply' = Some false /\ r = Some reply'))
  end.
Proof.
  unfold chat_with_retry_on_hard_parse_failure. destruct first as [reply|]; [|by intros [= <-]].
  intros (failed & Hf & H)%bind_Some. destruct failed; simpl in H; [|injection H as <-; by left]. right. split; [done|].
  destruct second as [reply'|]; [|injection H as <-; by left]. apply bind_Some in H as (f' & Hf' & [= <-]).
  destruct f'; simpl; [by left|right; eauto].
Qed.

Lemma judge_reads entry sg downstream menu first second r d :
  judge from_str entry sg downstream menu first second = Some (r, d) ->
  chat_with_retry_on_hard_parse_failure from_str first second = Some r /\
  match r with
  | None => d = uncertain "model unavailable"
  | Some reply => exists d0, parse_incident_decision from_str reply menu = Some d0 /\
      d = guard_zero_anchor (guard_assessment_cuts_consistency (guard_fabrication (guard_containment_grounding d0 sg entry) sg entry downstream))
            (anchor_cves sg entry downstream) (anchor_behaviors sg entry downstream) (anchor_secret sg entry downstream)
  end.
Proof.
  unfold judge. unfold anchor_cves, anchor_behaviors, anchor_secret. destruct (evidence_lines sg entry) as [cves behaviors].
  destruct (downstream_backstop_evidence sg downstream) as [[dc ds] db]. intros (r' & Hr & H)%bind_Some.
  destruct r' as [reply|]; [|by injection H as <- <-]. apply bind_Some in H as (d0 & Hd0 & [= <- <-]). split; [done|]. eauto.
Qed.

(** A reply that holds an object is judged. *)
Lemma judge_returns entry sg downstream menu reply second d0 :
  is_hard_parse_failure from_str reply = Some false -> parse_incident_decision from_str reply menu = Some d0 ->
  exists d, judge from_str entry sg downstream menu (Some reply) second = Some (Some reply, d).
Proof.
  intros Hf Hp. unfold judge. destruct (evidence_lines sg entry) as [cves behaviors], (downstream_backstop_evidence sg downstream) as [[dc ds] db].
  unfold chat_with_retry_on_hard_parse_failure. rewrite Hf. cbn [mbind option_bind negb]. rewrite Hp. cbn [mbind option_bind]. eauto.
Qed.

Lemma uncertain_passes why sg entry downstream cves behaviors secret :
  guard_zero_anchor (guard_assessment_cuts_consistency (guard_fabrication (uncertain why) sg entry downstream)) cves behaviors secret = uncertain why.
Proof. done. Qed.

Lemma consistency_id d : d_assessment d = AAttack \/ d_cuts d = [] -> guard_assessment_cuts_consistency d = d.
Proof.
  unfold guard_assessment_cuts_consistency. intros [H|H]; [by rewrite bool_decide_eq_true_2|]. rewrite H. by rewrite orb_true_r.
Qed.

Lemma judge_spec entry sg downstream menu first second r d :
  judge from_str entry sg downstream menu first second = Some (r, d) ->
  match r with
  | None => first = None /\ d = uncertain "model unavailable"
  | Some reply =>
      (first = Some reply \/ second = Some reply) /\ grounded menu d /\
      exists d0, parse_incident_decision from_str reply menu = Some d0 /\
        (d_assessment d0 <> AAttack -> d = d0) /\
        (d_assessment d0 = AAttack ->
           (supported sg entry downstream d0 /\ d = d0) \/
           (~ supported sg entry downstream d0 /\ d_assessment d <> AAttack /\ d_cuts d = []))
  end.
Proof.
  intros (Hchat%chat_spec & Hd)%judge_reads. destruct r as [reply|].
  2: { split; [|done]. destruct first as [f|]; [|done]. by destruct Hchat as [[_ ?]|[_ [?|(? & _ & _ & ?)]]]. }
  split; [destruct first as [f|]; [|done]; destruct Hchat as [[_ [= <-]]|[_ [[= <-]|(? & ? & _ & [= <-])]]]; by auto|].
  destruct Hd as (d0 & Hp & ->). pose proof (parse_is_grounded _ _ _ Hp) as Hg.
  destruct (decide (d_assessment d0 = AAttack)) as [Ha|Hna].
  - destruct (containment_grounding_spec d0 sg entry) as [[H1 ->]|[H1 [why ->]]].
    2: { rewrite uncertain_passes. split; [apply uncertain_grounded|]. exists d0. split; [done|]. split; [done|]. intros _. right.
         split; [by intros [? _ _]|done]. }
    destruct (fabrication_spec d0 sg entry downstream Ha) as [[H2 ->]|[H2 [why ->]]].
    2: { split; [apply uncertain_grounded|]. exists d0. split; [done|]. split; [done|]. intros _. right. split; [by intros [_ ? _]|done]. }
    rewrite consistency_id by auto.
    destruct (zero_anchor_spec d0 sg entry downstream Ha) as [[H3 ->]|[H3 [why ->]]].
    + split; [done|]. exists d0. split; [done|]. split; [done|]. left. by split.
    + split; [by split; [intros cut ?%not_elem_of_nil|constructor|]|]. exists d0. split; [done|]. split; [done|]. intros _. right.
      split; [by intros [_ _ ?]|done].
  - assert (d_cuts d0 = []) as Hc by (destruct (d_cuts d0) eqn:E; [done|]; exfalso; apply Hna, Hg; by rewrite E).
    destruct (containment_grounding_spec d0 sg entry) as [[_ ->]|[H1 _]]; [|exfalso; apply H1; rewrite Hc; by intros c ?%not_elem_of_nil].
    unfold guard_fabrication. rewrite bool_decide_eq_false_2 by done. cbn [negb]. rewrite consistency_id by auto.
    unfold guard_zero_anchor. rewrite bool_decide_eq_false_2 by done. cbn [negb]. split; [done|]. by exists d0.
Qed.

(** C6: What the model says is read from its first reply, or, if that holds no
    object, from its second; and the decision is then the one the parser read,
    save for an attack the graph does not support. An attack stands exactly if
    each contained node other than the entry has evidence of its own, each id and
    each loading it cites is in the evidence of the entry or of the downstream
    nodes, and there is an anchor; otherwise it is dropped with all its cuts. What
    is kept is grounded in the menu. *)
Theorem judge_exact entry sg downstream menu first second r d :
  judge from_str entry sg downstream menu first second = Some (r, d) ->
  match r with
  | None => first = None /\ d = uncertain "model unavailable"
  | Some reply =>
      (first = Some reply \/ second = Some reply) /\ grounded menu d /\
      exists d0, parse_incident_decision from_str reply menu = Some d0 /\
        (d_assessment d0 <> AAttack -> d = d0) /\
        (d_assessment d0 = AAttack ->
           (supported sg entry downstream d0 /\ d = d0) \/
           (~ supported sg entry downstream d0 /\ d_assessment d <> AAttack /\ d_cuts d = []))
  end.
Proof. apply judge_spec. Qed.

(** C7: An attack that leaves the judge is evidenced by the graph: it cuts only nodes
    of the menu, each the entry or a node with evidence of its own; every id its
    reason cites, however it is spelled, is that of a vulnerability of the entry or
    of a downstream node; if it speaks of loading, one of these was seen loading;
    and it never rests on reachability alone. *)
Theorem attack_evidenced entry sg downstream menu first second r d :
  judge from_str entry sg downstream menu first second = Some (r, d) -> d_assessment d = AAttack ->
  (forall n v, n ∈ entry :: downstream -> v ∈ vulns_of sg n -> plain_id (v_id v)) ->
  grounded menu d /\
  (forall c, c ∈ d_cuts d -> cc_node c = entry \/ evidenced sg (cc_node c)) /\
  (forall c, c ∈ extract_cve_ids (normalize_cve_text (d_reason d)) ->
     exists n v, n ∈ entry :: downstream /\ v ∈ vulns_of sg n /\ normalize_cve_text (v_id v) = c) /\
  (claims_loaded (d_reason d) = true -> exists n, n ∈ entry :: downstream /\ has_loaded sg n) /\
  anchored sg entry downstream.
Proof.
  intros Hj%judge_spec Ha Hp. destruct r as [reply|]; [|by destruct Hj as [_ ->]].
  destruct Hj as (_ & Hg & d0 & _ & Hother & Hattack). split; [done|].
  assert (supported sg entry downstream d) as [H1 [H2 H3] H4].
  { destruct (decide (d_assessment d0 = AAttack)) as [H0|H0]; [destruct (Hattack H0) as [[? ->]|(_ & ? & _)]; done|].
    rewrite (Hother H0) in Ha. done. }
  split; [done|]. split; [|done]. intros c (i & (n & v & Hn & Hv & <-)%(real_ids_spec _ _ _ Hp) & <-)%H2. eauto.
Qed.

End Reply.
End OnGraph.

(** ** Instances *)

Definition web_key : NodeKey := "workload/app/Pod/web".

Definition one_image (v : Vulnerability) : cluster :=
  default graph_new (build
    [NWorkload (sample_workload "web" Internet); NImage (mkImage "sha256:0" None TrustUnknown [v] [] None)] [(0, 1, RunsImage)]).

Definition loaded_vuln : Vulnerability := demo_vuln "CVE-2021-44228" LoadedAtRuntime None None.
Definition present_vuln : Vulnerability := demo_vuln "CVE-2021-44228" NotObserved None None.

Definition reader (reason : string) (s : string) : option Json :=
  Some (JObj [("assessment", JStr "attack"); ("reason", JStr reason); ("contain", JArr [JStr "workload/app/Pod/web"])]).

(** A true citation stands; a made-up id, or a made-up observation, does not,
    however it is spelled; a reply without an object is asked for once more. *)
Example judge_demo :
  let j sg reason := (fun rd => d_assessment rd.2) <$> judge (reader reason) web_key sg [] web_menu (Some "no object") (Some "{}") in
  j (one_image loaded_vuln) "cve 2021 44228 is loaded at runtime" = Some AAttack /\
  j (one_image loaded_vuln) "cve‑2014‑0160 is loaded" = Some AUncertain /\
  j (one_image present_vuln) "CVE-2021-44228 has the tag LOADED-AT-RUNTIME" = Some AUncertain /\
  j two_paths "the secret is reachable" = Some ANoAttack.
Proof. by vm_compute. Qed.

(** A vulnerability that was not seen loading is an anchor, although the judge's
    list of vulnerabilities, which holds only those that were, is empty. *)
Theorem unseen_cve_anchors :
  let sg := one_image present_vuln in
  (reachable_cve_lines sg web_key).1 = [] /\ behaviors_of sg web_key = [] /\ ~ has_secret sg web_key /\
  exists d, judge (reader "the secret is reachable") web_key sg [] web_menu (Some "{}") None = Some (Some "{}", d) /\ d_assessment d = AAttack.
Proof.
  split; [by vm_compute|]. split; [by vm_compute|]. split; [intros H; by vm_compute in H|]. eexists. split; [by vm_compute|done].
Qed.

Definition judged : option (option string * IncidentDecision) :=
  judge (reader "CVE-2021-44228 is loaded at runtime") web_key (one_image loaded_vuln) [] web_menu (Some "{}") None.

Definition web_attack : IncidentDecision :=
  mkDecision AAttack "CVE-2021-44228 is loaded at runtime" [mkChosen web_key QuarantineEntry web_link (cut_signature web_link)].

Lemma judged_eq : judged = Some (Some "{}", web_attack).
Proof. by vm_compute. Qed.

Lemma judge_exact_witness :
  judged = Some (Some "{}", web_attack) /\ grounded web_menu web_attack.
Proof.
  exact (conj judged_eq (proj1 (proj2 (judge_exact (reader "CVE-2021-44228 is loaded at runtime") web_key (one_image loaded_vuln) [] web_menu
    (Some "{}") None (Some "{}") web_attack judged_eq)))).
Defined.

Lemma web_plain n v : n ∈ [web_key] -> v ∈ vulns_of (one_image loaded_vuln) n -> plain_id (v_id v).
Proof.
  intros ->%list_elem_of_singleton Hv. assert (vulns_of (one_image loaded_vuln) web_key = [loaded_vuln]) as E by (by vm_compute).
  rewrite E in Hv. apply list_elem_of_singleton in Hv as ->. apply plain_id_demo.
Qed.

Lemma attack_evidenced_witness :
  judged = Some (Some "{}", web_attack) /\ anchored (one_image loaded_vuln) web_key [].
Proof.
  exact (conj judged_eq (proj2 (proj2 (proj2 (proj2 (attack_evidenced (reader "CVE-2021-44228 is loaded at runtime") web_key (one_image loaded_vuln) []
    web_menu (Some "{}") None (Some "{}") web_attack judged_eq eq_refl web_plain)))))).
Defined.
