(* ===== verification/AdjPass.v ===== *)
(** * The adjudication pass (engine/src/engine/adj_gate.rs and adj_pass.rs)

    Which entries the model is asked about, how its answers are folded into the
    engine's memory and how each entry's verdict is published. The prompt text,
    its hash and the judged surface (prompt.rs), the recorded coverage
    (evidence.rs) and the model are arguments; the order in which concurrent
    calls complete is the order of the results given to [fold_decisions]. *)

From S2P Require Import Prelude Text PetGraph Attack Behavior Classify Graph Chain Prove Boundary.
From S2P Require Import Respond Actuator Render Backoff Verdicts Incident.

(** What the gate needs of a prompt. *)
Record DeltaBuild := mkDelta { db_prompt : string; db_cache_key : string; db_surface : JudgedSurface }.

Record PendingEntry := mkPending {
  pe_entry_key : string;
  pe_entry : NodeKey;
  pe_objectives : list (NodeKey * AttackRef);
  pe_downstream : list NodeKey;
  pe_prompt : string;
  pe_fingerprint : string;
  pe_surface : JudgedSurface;
  pe_idxs : list nat;
  pe_menu : Menu
}.

(** ** The gate *)

Inductive AdjGate :=
  | Resolved (v : Verdict) (held : bool)
  | Skipped (v : Verdict)
  | Judge.

Definition must_reverify (v : Verdict) : bool := match v with Exploitable _ => true | _ => false end.

Definition classify_adjudication (s : VerdictStore) (p : PendingEntry) (is_additive : bool)
    (baseline : option VerdictBaseline) (now : Z) : AdjGate * VerdictStore :=
  let '(hit, s) := cached_for s (pe_entry_key p) (pe_fingerprint p) in
  let below s :=
    if breaker_open s now then Skipped (Uncertain "model unavailable (breaker open)")
    else if entry_backing_off s (pe_entry_key p) now then Skipped (Uncertain "model unavailable (backing off)")
    else Judge in
  let held s :=
    match baseline with
    | Some b =>
        if negb is_additive && negb (must_reverify (vb_verdict b))
        then (Resolved (vb_verdict b) true, cache_decisive s (pe_entry_key p) (pe_fingerprint p) (vb_verdict b))
        else (below s, s)
    | None => (below s, s)
    end in
  match hit with
  | Some v => if must_reverify v then held s else (Resolved v false, s)
  | None => held s
  end.

(** ** The pass *)

(** What the pass writes outside its memory. *)
Inductive PassEffect :=
  | FxIncident (entry : string) (objectives : nat) (assessment : Assessment) (reason : string)
      (cuts : list JournaledCut) (fingerprint : string)
  | FxBreach (entry : string) (objectives : nat) (verdict : string) (cves : list string) (behavioral : bool)
      (fingerprint : option string) (verdict_typed : option Verdict)
  | FxNotify (entry : string) (display : Verdict) (objectives : nat) (armed : bool)
  | FxModelHealth (ok : bool).

Record PassState := mkPass {
  ps_verdicts : VerdictStore;
  ps_decisions : gmap string IncidentDecision;
  ps_restored : gmap string RestoredDecision
}.

Definition with_verdicts (st : PassState) (s : VerdictStore) : PassState :=
  mkPass s (ps_decisions st) (ps_restored st).

Definition try_rearm_decision (st : PassState) (p : PendingEntry) : PassState :=
  if bool_decide (is_Some (ps_decisions st !! pe_entry_key p)) then st
  else
    match ps_restored st !! pe_entry_key p with
    | None => st
    | Some restored =>
        let remaining := delete (pe_entry_key p) (ps_restored st) in
        match rearm_restored_decision restored (pe_fingerprint p) (pe_menu p) with
        | Some d => mkPass (ps_verdicts st) (<[pe_entry_key p := d]> (ps_decisions st)) remaining
        | None => mkPass (ps_verdicts st) (ps_decisions st) remaining
        end
    end.

(** Group the breach-relevant chains by entry. *)
Definition breach_entries (chains : list ProvenChain) : list string :=
  sort_dedup id (pc_entry <$> List.filter is_breach_relevant chains).

Definition entry_idxs (chains : list ProvenChain) (entry : string) : list nat :=
  omap (fun '(i, c) => if is_breach_relevant c && bool_decide (pc_entry c = entry) then Some i else None)
    (imap pair chains).

Section Pass.
Context {G : Type} `{SG : !StableGraph G Node Edge}.
Variable default_hash : string -> Z.
Variable delta_prompt :
  NodeKey -> list (NodeKey * AttackRef) -> option JudgedSurface -> list NodeKey -> Menu -> DeltaBuild.
Variable entry_coverage : NodeKey -> list string * bool.
Implicit Types sg : SecurityGraph G.

(** *** Phase 1: classify *)

Definition prepare_pending (chains : list ProvenChain) sg (health : HealthReport) (model_attack : gset NodeKey)
    (s : VerdictStore) (entry : string) : PendingEntry * bool * option VerdictBaseline :=
  let idxs := entry_idxs chains entry in
  let own := omap (fun i => chains !! i) idxs in
  let objectives := sort_dedup fst ((fun c => (pc_objective c, pc_attack c)) <$> own) in
  let downstream := downstream_workloads entry own in
  let menu := entry_menu own sg health model_attack in
  let baseline := baseline_for s entry in
  let d := delta_prompt entry objectives (vb_surface <$> baseline) downstream menu in
  (mkPending entry entry objectives downstream (db_prompt d) (db_cache_key d) (db_surface d) idxs menu,
   additive (db_surface d) (vb_surface <$> baseline), baseline).

Definition classify_entry (chains : list ProvenChain) sg (health : HealthReport) (model_attack : gset NodeKey)
    (now : Z) (acc : PassState * list (PendingEntry * Verdict) * list PendingEntry) (entry : string)
    : PassState * list (PendingEntry * Verdict) * list PendingEntry :=
  let '(st, resolved, to_judge) := acc in
  let '(p, is_additive, baseline) := prepare_pending chains sg health model_attack (ps_verdicts st) entry in
  let st := try_rearm_decision st p in
  let '(gate, s) := classify_adjudication (ps_verdicts st) p is_additive baseline now in
  let st := with_verdicts st s in
  match gate with
  | Resolved v _ => (st, resolved ++ [(p, v)], to_judge)
  | Skipped v => (st, resolved ++ [(p, v)], to_judge)
  | Judge => (st, resolved, to_judge ++ [p])
  end.

Definition classify_entries (chains : list ProvenChain) sg (health : HealthReport) (now : Z) (st : PassState)
    : PassState * list (PendingEntry * Verdict) * list PendingEntry :=
  let model_attack := model_attack_set (ps_decisions st) in
  foldl (classify_entry chains sg health model_attack now) (st, [], []) (breach_entries chains).

(** *** Phase 3: fold each answer, in completion order *)

Definition fold_decision (now : Z) (acc : PassState * list (PendingEntry * Verdict) * list PassEffect)
    (result : PendingEntry * IncidentDecision)
    : option (PassState * list (PendingEntry * Verdict) * list PassEffect) :=
  let '(st, resolved, fx) := acc in
  let '(p, d) := result in
  let v := to_verdict d in
  if is_uncertain v then
    s ← record_inconclusive default_hash (ps_verdicts st) (pe_entry_key p) now;
    Some (with_verdicts st s, resolved ++ [(p, v)], fx ++ [FxModelHealth false])
  else
    let incident :=
      if bool_decide (ps_decisions st !! pe_entry_key p = Some d) then []
      else [FxIncident (pe_entry_key p) (length (pe_objectives p)) (d_assessment d) (d_reason d)
              ((fun c => mkJournaledCut (cc_node c) (cc_cut_signature c)) <$> d_cuts d) (pe_fingerprint p)] in
    let s := cache_decisive (ps_verdicts st) (pe_entry_key p) (pe_fingerprint p) v in
    let s := set_baseline s (pe_entry_key p) (pe_surface p) v in
    let s := record_decisive s (pe_entry_key p) now in
    Some (mkPass s (<[pe_entry_key p := d]> (ps_decisions st)) (ps_restored st),
          resolved ++ [(p, v)], fx ++ incident ++ [FxModelHealth true]).

Fixpoint fold_decisions (now : Z) (acc : PassState * list (PendingEntry * Verdict) * list PassEffect)
    (results : list (PendingEntry * IncidentDecision))
    : option (PassState * list (PendingEntry * Verdict) * list PassEffect) :=
  match results with
  | [] => Some acc
  | r :: results => acc ← fold_decision now acc r; fold_decisions now acc results
  end.

(** *** Phase 4: publish each entry, in entry order *)

Definition stamp_chain (display v : Verdict) (judgement : bool) (c : ProvenChain) : ProvenChain :=
  let adjudicated := if pc_corroborated c && negb (is_confirmed v) then false else pc_adjudicated c in
  let promoted := if negb (pc_corroborated c) && promotes v && judgement then true else pc_promoted c in
  mkChain (pc_entry c) (pc_objective c) (pc_attack c) (pc_foothold c) (pc_corroborated c) adjudicated promoted
    (pc_exposed_entry c) (Some (summary display)) (pc_links c) (pc_paths c) (pc_paths_truncated c)
    (pc_single_edge_cuts c) (pc_quarantine_targets c).

Definition publish_entry (now : Z) (active : EnabledActions)
    (acc : VerdictStore * list ProvenChain * list PassEffect) (outcome : string * (PendingEntry * Verdict))
    : VerdictStore * list ProvenChain * list PassEffect :=
  let '(s, chains, fx) := acc in
  let '(entry_key, (p, v)) := outcome in
  let '(shown, s) := resolve_display s entry_key v in
  let display := default v shown in
  let s := record_recency s entry_key (of_verdict (Some display)) now in
  let text := summary display in
  let '(s, journal) :=
    if negb (is_uncertain display) && negb (bool_decide (journaled s entry_key = Some text)) then
      let '(cves, behavioral) := entry_coverage (pe_entry p) in
      let decisive_now := negb (is_uncertain v) in
      (set_journaled s entry_key text,
       [FxBreach entry_key (length (pe_objectives p)) text cves behavioral
          (if decisive_now then Some (pe_fingerprint p) else None) (if decisive_now then Some v else None);
        FxNotify entry_key display (length (pe_objectives p)) (negb (enabled_is_empty active))])
    else (s, []) in
  let chains := foldl (fun chains i => alter (stamp_chain display v (ea_judgement active)) i chains) chains (pe_idxs p) in
  (s, chains, fx ++ journal).

Definition outcomes (resolved : list (PendingEntry * Verdict)) : list (string * (PendingEntry * Verdict)) :=
  btree_iter (foldl (fun m pv => <[pe_entry_key pv.1 := pv]> m) ∅ resolved).

(** *** The whole pass *)

Definition run_adjudication_pass (chains : list ProvenChain) sg (health : HealthReport) (active : EnabledActions)
    (complete : list PendingEntry -> list (PendingEntry * IncidentDecision)) (now : Z) (st : PassState)
    : option (PassState * list ProvenChain * list PassEffect) :=
  let '(st, resolved, to_judge) := classify_entries chains sg health now st in
  '(st, resolved, fx) ← fold_decisions now (st, resolved, []) (complete to_judge);
  let '(s, chains', fx) := foldl (publish_entry now active) (ps_verdicts st, chains, fx) (outcomes resolved) in
  let present : gset string := list_to_set (breach_entries chains) in
  Some (mkPass (retain_present s present) (filter (fun kv => kv.1 ∈ present) (ps_decisions st))
          (filter (fun kv => kv.1 ∈ present) (ps_restored st)), chains', fx).

End Pass.
