(* ===== verification/AdjFacts.v ===== *)
(** * What an adjudication pass promises

    The gate asks the model unless an answer still holds, a positive answer is
    never replayed, a chain is promoted only on an attack the model named in
    this very pass, and standing decisions change only on a fresh one. *)

From S2P Require Import Prelude Text PetGraph Attack Behavior Classify Graph Chain Prove Boundary.
From S2P Require Import Respond Actuator Render Backoff Verdicts VerdictFacts Incident AdjPass.

(** ** The gate *)

(** The cache has an answer for exactly this input that may be replayed. *)
Definition replays (s : VerdictStore) (p : PendingEntry) (v : Verdict) : Prop :=
  (cached_for s (pe_entry_key p) (pe_fingerprint p)).1 = Some v /\ must_reverify v = false.

(** Nothing was added since a decisive verdict that may be replayed. *)
Definition holds (is_additive : bool) (baseline : option VerdictBaseline) (v : Verdict) : Prop :=
  is_additive = false /\ must_reverify v = false /\ exists b, baseline = Some b /\ vb_verdict b = v.

Lemma cached_for_breaker s entry fp : vs_breaker (cached_for s entry fp).2 = vs_breaker s.
Proof. unfold cached_for. destruct (vs_entries s !! entry); [|done]. by destruct (lru_get _ _). Qed.

Lemma cached_for_backing_off s entry fp entry' now :
  entry_backing_off (cached_for s entry fp).2 entry' now = entry_backing_off s entry' now.
Proof.
  unfold cached_for, entry_backing_off. destruct (vs_entries s !! entry) as [e|] eqn:He; [|done].
  destruct (lru_get _ _). simpl. destruct (decide (entry = entry')) as [->|]; by simplify_map_eq.
Qed.

Lemma gate_spec s p is_additive baseline now :
  let replayed := exists v, replays s p v in
  let held := ~ replayed /\ exists v, holds is_additive baseline v in
  match (classify_adjudication s p is_additive baseline now).1 with
  | Resolved v false => replays s p v
  | Resolved v true => ~ replayed /\ holds is_additive baseline v
  | Skipped v => ~ replayed /\ ~ held /\ is_uncertain v = true /\
      (breaker_open s now = true \/ entry_backing_off s (pe_entry_key p) now = true)
  | Judge => ~ replayed /\ ~ held /\ breaker_open s now = false /\
      entry_backing_off s (pe_entry_key p) now = false
  end.
Proof.
  intros replayed held. unfold classify_adjudication.
  pose proof (cached_for_breaker s (pe_entry_key p) (pe_fingerprint p)) as Hbr.
  pose proof (cached_for_backing_off s (pe_entry_key p) (pe_fingerprint p)) as Hbo.
  destruct (cached_for s (pe_entry_key p) (pe_fingerprint p)) as [hit s'] eqn:Hc. simpl in Hbr, Hbo.
  assert (breaker_open s' now = breaker_open s now) as Ho by (unfold breaker_open; by rewrite Hbr).
  assert (replayed <-> exists v, hit = Some v /\ must_reverify v = false) as Hrep.
  { unfold replayed, replays. by rewrite Hc. }
  assert (~ replayed ->
    match (match baseline with
           | Some b => if negb is_additive && negb (must_reverify (vb_verdict b))
                       then Resolved (vb_verdict b) true
                       else if breaker_open s' now then Skipped (Uncertain "model unavailable (breaker open)")
                       else if entry_backing_off s' (pe_entry_key p) now
                       then Skipped (Uncertain "model unavailable (backing off)") else Judge
           | None => if breaker_open s' now then Skipped (Uncertain "model unavailable (breaker open)")
                     else if entry_backing_off s' (pe_entry_key p) now
                     then Skipped (Uncertain "model unavailable (backing off)") else Judge
           end) with
    | Resolved v false => replays s p v
    | Resolved v true => ~ replayed /\ holds is_additive baseline v
    | Skipped v => ~ replayed /\ ~ held /\ is_uncertain v = true /\
        (breaker_open s now = true \/ entry_backing_off s (pe_entry_key p) now = true)
    | Judge => ~ replayed /\ ~ held /\ breaker_open s now = false /\
        entry_backing_off s (pe_entry_key p) now = false
    end) as Htail.
  { intros Hn. rewrite Ho, Hbo.
    assert ((exists b, baseline = Some b /\ is_additive = false /\ must_reverify (vb_verdict b) = false) \/ ~ held)
      as [(b & -> & -> & Hb)|Hh].
    { destruct baseline as [b|]; [|right; unfold held, holds; naive_solver].
      destruct (decide (is_additive = false /\ must_reverify (vb_verdict b) = false)) as [[Ha Hb]|Hno];
        [left; eauto|right]. intros [_ (v & Ha & Hv & b' & [= <-] & <-)]. by apply Hno. }
    - rewrite Hb. simpl. split; [done|]. split; [done|]. split; [done|]. eauto.
    - assert (match baseline with Some b => negb is_additive && negb (must_reverify (vb_verdict b)) | None => false end
              = false) as Hf.
      { destruct baseline as [b|]; [|done]. apply not_true_is_false. intros [Ha Hm]%andb_true_iff. bools.
        apply Hh. split; [done|]. exists (vb_verdict b). unfold holds. eauto. }
      destruct baseline as [b|]; rewrite ?Hf; (destruct (breaker_open s now); [simpl; auto 10|]);
        (destruct (entry_backing_off s (pe_entry_key p) now); simpl; auto 10). }
  destruct hit as [v|]; [destruct (must_reverify v) eqn:Hv|].
  - assert (~ replayed) as Hn by (rewrite Hrep; intros (v' & [= <-] & Hv'); congruence). specialize (Htail Hn).
    destruct baseline as [b|]; [|exact Htail]. by destruct (negb _ && negb _).
  - simpl. split; [by rewrite Hc|done].
  - assert (~ replayed) as Hn by (rewrite Hrep; intros (v' & H & _); discriminate H). specialize (Htail Hn).
    destruct baseline as [b|]; [|exact Htail]. by destruct (negb _ && negb _).
Qed.

(** The re-judge gate, exactly. An exact-input hit is replayed; failing that,
    a decisive baseline to which nothing was added is; failing both, the model
    is left alone just when it looks down or this entry is backing off, with an
    uncertain verdict, and is asked otherwise. An exploitable verdict is never
    replayed by either route. *)
Theorem gate_exact s p is_additive baseline now :
  let replayed := exists v, replays s p v in
  let held := ~ replayed /\ exists v, holds is_additive baseline v in
  match (classify_adjudication s p is_additive baseline now).1 with
  | Resolved v false => replays s p v
  | Resolved v true => ~ replayed /\ holds is_additive baseline v
  | Skipped v => ~ replayed /\ ~ held /\ is_uncertain v = true /\
      (breaker_open s now = true \/ entry_backing_off s (pe_entry_key p) now = true)
  | Judge => ~ replayed /\ ~ held /\ breaker_open s now = false /\
      entry_backing_off s (pe_entry_key p) now = false
  end.
Proof. apply gate_spec. Qed.

(** What the gate resolves without the model never promotes. *)
Lemma gate_no_promotion s p is_additive baseline now :
  match (classify_adjudication s p is_additive baseline now).1 with
  | Resolved v _ | Skipped v => promotes v = false
  | Judge => True
  end.
Proof.
  pose proof (gate_spec s p is_additive baseline now) as H.
  destruct (classify_adjudication s p is_additive baseline now).1 as [v []|v|]; simpl in *; try done.
  - destruct H as [_ (_ & Hv & _)]. by destruct v.
  - destruct H as [_ Hv]. by destruct v.
  - destruct H as (_ & _ & Hv & _). by destruct v.
Qed.

(** ** Grouping by entry *)

Lemma breach_entries_spec chains e :
  e ∈ breach_entries chains <-> exists c, c ∈ chains /\ is_breach_relevant c = true /\ pc_entry c = e.
Proof.
  unfold breach_entries. rewrite sort_dedup_id_elem, list_elem_of_fmap. setoid_rewrite elem_of_filter_b. naive_solver.
Qed.

Lemma breach_entries_nodup chains : NoDup (breach_entries chains).
Proof. rewrite <- (list_fmap_id (breach_entries chains)). apply (keys_ascend_nodup id), sort_dedup_ascend. Qed.

Lemma entry_idxs_spec chains e i :
  i ∈ entry_idxs chains e <-> exists c, chains !! i = Some c /\ is_breach_relevant c = true /\ pc_entry c = e.
Proof.
  unfold entry_idxs. rewrite list_elem_of_omap. setoid_rewrite elem_of_lookup_imap. split.
  - intros ([j c] & (j' & c' & [= -> ->] & Hc) & Hi). destruct (_ && _) eqn:Hb; [|done]. injection Hi as ->. bools. eauto.
  - intros (c & Hc & Hb & <-). exists (i, c). split; [by eauto|]. by rewrite Hb, bool_decide_eq_true_2.
Qed.

Lemma NoDup_omap_fst {A} (p : A -> bool) (l : list (nat * A)) :
  NoDup l.*1 -> NoDup (omap (fun '(i, c) => if p c then Some i else None) l).
Proof.
  induction l as [|[i c] l IH]; simpl; [constructor|]. intros [Hi Hl]%NoDup_cons. destruct (p c); simpl; [|auto].
  apply NoDup_cons. split; [|auto]. intros ([j c'] & Hj & He)%list_elem_of_omap. apply Hi.
  destruct (p c'); [|done]. injection He as ->. by apply (list_elem_of_fmap_2 fst) in Hj.
Qed.

Lemma entry_idxs_nodup chains e : NoDup (entry_idxs chains e).
Proof.
  apply (NoDup_omap_fst (fun c => is_breach_relevant c && bool_decide (pc_entry c = e))).
  rewrite fmap_imap. change (NoDup (imap (fun i (_ : ProvenChain) => id i) chains)).
  rewrite imap_seq_0, list_fmap_id. apply NoDup_seq.
Qed.

(** Stamping the chains of some indices. *)
Lemma alter_all_lookup {A} (f : A -> A) idxs (l : list A) j :
  NoDup idxs -> foldl (fun l i => alter f i l) l idxs !! j = if decide (j ∈ idxs) then f <$> l !! j else l !! j.
Proof.
  revert l. induction idxs as [|i idxs IH]; intros l; simpl.
  - by intros _.
  - intros [Hi Hn]%NoDup_cons. rewrite IH by done.
    destruct (decide (j = i)) as [->|Hne]; [rewrite list_lookup_alter_eq|rewrite list_lookup_alter_ne by congruence];
      repeat case_decide; try done; exfalso; set_solver.
Qed.

(** ** Publishing *)

Section Publish.
Context {G : Type} `{SG : !StableGraph G Node Edge}.
Variable default_hash : string -> Z.
Variable delta_prompt :
  NodeKey -> list (NodeKey * AttackRef) -> option JudgedSurface -> list NodeKey -> Menu -> DeltaBuild.
Variable entry_coverage : NodeKey -> list string * bool.
Implicit Types sg : SecurityGraph G.

(** What the pass may have done to a chain: nothing, unless its entry got a
    verdict, which then is stamped. *)
Definition stamped (outs : list (string * (PendingEntry * Verdict))) (judgement : bool) (c c' : ProvenChain) : Prop :=
  (c' = c /\ (is_breach_relevant c = false \/ pc_entry c ∉ outs.*1)) \/
  (is_breach_relevant c = true /\ exists p v display, (pc_entry c, (p, v)) ∈ outs /\
     c' = stamp_chain display v judgement c).

Lemma stamp_chain_same display v judgement c :
  is_breach_relevant (stamp_chain display v judgement c) = is_breach_relevant c /\
  pc_entry (stamp_chain display v judgement c) = pc_entry c.
Proof. done. Qed.

Lemma publish_chains now active chains0 outs s fx s' chains' fx' :
  NoDup outs.*1 -> (forall k p v, (k, (p, v)) ∈ outs -> pe_idxs p = entry_idxs chains0 k) ->
  foldl (publish_entry entry_coverage now active) (s, chains0, fx) outs = (s', chains', fx') ->
  forall i, match chains0 !! i, chains' !! i with
            | Some c, Some c' => stamped outs (ea_judgement active) c c'
            | None, None => True
            | _, _ => False
            end.
Proof.
  revert s' chains' fx'. induction outs as [|[k [p v]] outs IH] using rev_ind; intros s' chains' fx' Hn Hidx Hf i; simpl in *.
  - injection Hf as _ <- _. destruct (chains0 !! i) as [c|]; [|done]. left. split; [done|]. right. apply not_elem_of_nil.
  - rewrite foldl_app in Hf. destruct (foldl _ _ outs) as [[s1 chains1] fx1] eqn:E.
    rewrite fmap_app in Hn. apply NoDup_app in Hn as (Hn & Hdis & _).
    assert (forall i, match chains0 !! i, chains1 !! i with
            | Some c, Some c' => stamped outs (ea_judgement active) c c' | None, None => True | _, _ => False end) as H1.
    { eapply IH; [done| |done]. intros k' p' v' H'. apply (Hidx _ _ v'). apply elem_of_app. by left. }
    assert (pe_idxs p = entry_idxs chains0 k) as Hp.
    { apply (Hidx k p v). apply elem_of_app. right. by left. }
    assert (exists display, chains' = foldl (fun chains i => alter (stamp_chain display v (ea_judgement active)) i chains)
              chains1 (pe_idxs p)) as [display ->].
    { simpl in Hf. unfold publish_entry in Hf. destruct (resolve_display s1 k v) as [shown s2].
      cbv zeta in Hf. destruct (if negb _ && negb _ then _ else _) as [s3 j]. injection Hf as _ <- _. eauto. }
    rewrite alter_all_lookup by (rewrite Hp; apply entry_idxs_nodup). rewrite Hp. specialize (H1 i).
    destruct (chains0 !! i) as [c|] eqn:Hc.
    + destruct (chains1 !! i) as [c1|] eqn:Hc1; [|done].
      assert (i ∈ entry_idxs chains0 k <-> is_breach_relevant c = true /\ pc_entry c = k) as Hi.
      { rewrite entry_idxs_spec, Hc. naive_solver. }
      destruct (decide (i ∈ entry_idxs chains0 k)) as [Hin|Hin]; simpl.
      * apply Hi in Hin as [Hb He]. assert (c1 = c) as ->.
        { destruct H1 as [[-> _]|(_ & p' & v' & d' & Ho & _)]; [done|]. exfalso.
          apply (Hdis k); [|simpl; by left]. apply (list_elem_of_fmap_2 fst) in Ho. by rewrite He in Ho. }
        right. split; [done|]. exists p, v, display. split; [|done]. rewrite He. apply elem_of_app. right. by left.
      * destruct H1 as [[-> Hno]|(Hb & p' & v' & d' & Ho & ->)].
        -- left. split; [done|]. rewrite Hi in Hin. rewrite fmap_app, elem_of_app. simpl.
           rewrite list_elem_of_singleton. destruct (is_breach_relevant c) eqn:Hb; [|by left]. right.
           destruct Hno as [?|Hno]; [done|]. naive_solver.
        -- right. split; [done|]. exists p', v', d'. split; [|done]. apply elem_of_app. by left.
    + destruct (chains1 !! i) eqn:Hc1; [done|]. by destruct (decide _).
Qed.

(** ** Classifying *)

(** Every entry classified so far sits in exactly one of the two lists. *)
Record classified (chains : list ProvenChain) (done_ : list string)
    (resolved : list (PendingEntry * Verdict)) (to_judge : list PendingEntry) : Prop := {
  cl_keys : (pe_entry_key ∘ fst <$> resolved) ++ (pe_entry_key <$> to_judge) ≡ₚ done_;
  cl_idxs : forall p, p ∈ resolved.*1 \/ p ∈ to_judge -> pe_idxs p = entry_idxs chains (pe_entry_key p);
  cl_no_promotion : forall p v, (p, v) ∈ resolved -> promotes v = false;
  cl_menus : forall p, p ∈ to_judge -> menu_ok (pe_menu p)
}.

Lemma classify_entries_spec chains sg health now st st' resolved to_judge :
  classify_entries delta_prompt chains sg health now st = (st', resolved, to_judge) ->
  classified chains (breach_entries chains) resolved to_judge.
Proof.
  unfold classify_entries. generalize (model_attack_set (ps_decisions st)) as ma, (breach_entries chains) as es.
  intros ma es. revert st' resolved to_judge.
  induction es as [|e es IH] using rev_ind; intros st' resolved to_judge Hf.
  - injection Hf as <- <- <-. split; [done| | |]; [intros p [H|H]|intros p v H|intros p H]; by apply not_elem_of_nil in H.
  - rewrite foldl_app in Hf. destruct (foldl _ _ es) as [[st1 r1] j1] eqn:E. destruct (IH _ _ _ eq_refl) as [Hk Hi Hp Hm].
    cbn [foldl] in Hf. unfold classify_entry in Hf.
    destruct (prepare_pending delta_prompt chains sg health ma (ps_verdicts st1) e) as [[p is_additive] baseline] eqn:Hprep.
    assert (pe_entry_key p = e /\ pe_idxs p = entry_idxs chains e) as [Hpe Hpi].
    { unfold prepare_pending in Hprep. by injection Hprep as <- _ _. }
    assert (menu_ok (pe_menu p)) as Hmenu by (unfold prepare_pending in Hprep; injection Hprep as <- _ _; apply entry_menu_ok).
    pose proof (gate_no_promotion (ps_verdicts (try_rearm_decision st1 p)) p is_additive baseline now) as Hg.
    destruct (classify_adjudication _ p is_additive baseline now) as [gate s]. simpl in Hg.
    assert (forall v, promotes v = false -> classified chains (es ++ [e]) (r1 ++ [(p, v)]) j1) as Hres.
    { intros v Hv. split.
      - rewrite fmap_app. simpl. rewrite Hpe, <- Hk. solve_Permutation.
      - intros q. rewrite fmap_app, elem_of_app. simpl. rewrite list_elem_of_singleton.
        intros [[Hq| ->]|Hq]; [apply Hi; by left|by rewrite Hpe|apply Hi; by right].
      - intros q w [Hq|Hq]%elem_of_app; [by eapply Hp|]. apply list_elem_of_singleton in Hq. by simplify_eq.
      - done. }
    destruct gate as [v held|v|]; cbv beta iota zeta in Hf; injection Hf as <- <- <-; [by apply Hres|by apply Hres|]. split.
    + rewrite fmap_app. simpl. rewrite Hpe, <- Hk. solve_Permutation.
    + intros q. rewrite elem_of_app, list_elem_of_singleton.
      intros [Hq|[Hq| ->]]; [apply Hi; by left|apply Hi; by right|by rewrite Hpe].
    + done.
    + intros q [Hq| ->%list_elem_of_singleton]%elem_of_app; auto.
Qed.

(** ** Folding *)

Definition answered (result : PendingEntry * IncidentDecision) : PendingEntry * Verdict :=
  (result.1, to_verdict result.2).

(** The decision an entry has after some answers: its last decisive one. *)
Definition decide_step (entry : string) (standing : option IncidentDecision)
    (result : PendingEntry * IncidentDecision) : option IncidentDecision :=
  if decide (pe_entry_key result.1 = entry)
  then if is_uncertain (to_verdict result.2) then standing else Some result.2 else standing.

Lemma fold_decisions_spec now results st resolved fx st' resolved' fx' :
  fold_decisions default_hash now (st, resolved, fx) results = Some (st', resolved', fx') ->
  resolved' = resolved ++ (answered <$> results) /\
  (forall e, ps_decisions st' !! e = foldl (decide_step e) (ps_decisions st !! e) results) /\
  ps_restored st' = ps_restored st.
Proof.
  revert st resolved fx. induction results as [|[p d] results IH]; intros st resolved fx Hf; simpl in Hf.
  - injection Hf as <- <- <-. by rewrite app_nil_r.
  - destruct (is_uncertain (to_verdict d)) eqn:Hu.
    + apply bind_Some in Hf as (acc & Ha & Hf). apply bind_Some in Ha as (s & _ & [= <-]).
      apply IH in Hf as (-> & Hd & Hr). split; [by rewrite <- app_assoc|]. split; [|done].
      intros e. rewrite Hd. cbn [foldl]. unfold decide_step at 3. simpl. rewrite Hu. by destruct (decide _).
    + cbn [mbind option_bind] in Hf. apply IH in Hf as (-> & Hd & Hr). split; [by rewrite <- app_assoc|]. split; [|done].
      intros e. rewrite Hd. cbn [foldl]. unfold decide_step at 3. simpl. rewrite Hu.
      destruct (decide _) as [<-|Hne]; by simplify_map_eq.
Qed.

(** Re-arming fills a gap or leaves the decisions alone. *)
Lemma try_rearm_spec st p e :
  (is_Some (ps_decisions st !! e) -> ps_decisions (try_rearm_decision st p) !! e = ps_decisions st !! e) /\
  (forall d, ps_decisions (try_rearm_decision st p) !! e = Some d ->
     ps_decisions st !! e = Some d \/
     (pe_entry_key p = e /\ exists r, ps_restored st !! e = Some r /\
        rearm_restored_decision r (pe_fingerprint p) (pe_menu p) = Some d)) /\
  (forall r, ps_restored (try_rearm_decision st p) !! e = Some r -> ps_restored st !! e = Some r).
Proof.
  unfold try_rearm_decision. case_bool_decide as Hs; [naive_solver|].
  destruct (ps_restored st !! pe_entry_key p) as [r|] eqn:Hr; [|naive_solver].
  assert (forall r0, delete (pe_entry_key p) (ps_restored st) !! e = Some r0 -> ps_restored st !! e = Some r0) as Hdel
    by (intros r0 [_ H]%lookup_delete_Some; done).
  destruct (rearm_restored_decision r _ _) as [d|] eqn:Hd; simpl; [|naive_solver].
  destruct (decide (pe_entry_key p = e)) as [<-|Hne].
  - split; [done|]. split; [|done]. intros d'. rewrite lookup_insert_eq. intros [= <-]. eauto.
  - split; [|split; [|done]]; rewrite lookup_insert_ne by done; auto.
Qed.

(** A decision held after classification stood before, or was re-armed. *)
Definition rearmed (st : PassState) (e : string) (d : IncidentDecision) : Prop :=
  exists r p, ps_restored st !! e = Some r /\ pe_entry_key p = e /\ menu_ok (pe_menu p) /\
    rearm_restored_decision r (pe_fingerprint p) (pe_menu p) = Some d.

Lemma classify_decisions chains sg health now st st' resolved to_judge e :
  classify_entries delta_prompt chains sg health now st = (st', resolved, to_judge) ->
  (is_Some (ps_decisions st !! e) -> ps_decisions st' !! e = ps_decisions st !! e) /\
  (forall d, ps_decisions st' !! e = Some d -> ps_decisions st !! e = Some d \/ rearmed st e d) /\
  (forall r, ps_restored st' !! e = Some r -> ps_restored st !! e = Some r).
Proof.
  unfold classify_entries. generalize (model_attack_set (ps_decisions st)) as ma, (breach_entries chains) as es.
  intros ma es. revert st' resolved to_judge.
  induction es as [|k es IH] using rev_ind; intros st' resolved to_judge Hf.
  - injection Hf as <- _ _. split; [done|]. split; [by left|done].
  - rewrite foldl_app in Hf. destruct (foldl _ _ es) as [[st1 r1] j1] eqn:E. destruct (IH _ _ _ eq_refl) as (H1 & H2 & H3).
    cbn [foldl] in Hf. unfold classify_entry in Hf.
    destruct (prepare_pending delta_prompt chains sg health ma (ps_verdicts st1) k) as [[p is_additive] baseline] eqn:Hprep.
    assert (menu_ok (pe_menu p)) as Hmenu by (unfold prepare_pending in Hprep; injection Hprep as <- _ _; apply entry_menu_ok).
    destruct (try_rearm_spec st1 p e) as (R1 & R2 & R3).
    destruct (classify_adjudication _ p is_additive baseline now) as [gate s].
    assert (ps_decisions st' = ps_decisions (try_rearm_decision st1 p) /\
            ps_restored st' = ps_restored (try_rearm_decision st1 p)) as [-> ->].
    { destruct gate; cbv beta iota zeta in Hf; by injection Hf as <- _ _. }
    split; [|split; [|by eauto]].
    + intros Hs. rewrite <- H1 by done. apply R1. by rewrite H1.
    + intros d Hd. destruct (R2 d Hd) as [Hd1|(Hk & r & Hr & Hre)]; [by apply H2|]. right.
      exists r, p. split; [by apply H3|]. done.
Qed.

Lemma decide_fold e standing (results : list (PendingEntry * IncidentDecision)) :
  NoDup (pe_entry_key ∘ fst <$> results) ->
  (forall p d, (p, d) ∈ results -> pe_entry_key p = e -> is_uncertain (to_verdict d) = false ->
     foldl (decide_step e) standing results = Some d) /\
  ((forall p d, (p, d) ∈ results -> pe_entry_key p = e -> is_uncertain (to_verdict d) = true) ->
     foldl (decide_step e) standing results = standing).
Proof.
  induction results as [|[q x] results IH] using rev_ind; intros Hn.
  { split; [by intros p d ?%not_elem_of_nil|done]. }
  rewrite fmap_app in Hn. apply NoDup_app in Hn as (Hn & Hdis & _). destruct (IH Hn) as [Hyes Hno].
  rewrite foldl_app. simpl. unfold decide_step at 1 3. simpl. split.
  - intros p d [Hin|[= -> ->]%list_elem_of_singleton]%elem_of_app Hk Hu; [|by rewrite decide_True, Hu].
    rewrite decide_False; [by eapply Hyes|]. intros Hq. apply (Hdis (pe_entry_key p)).
    + by apply (list_elem_of_fmap_2 (pe_entry_key ∘ fst)) in Hin.
    + simpl. rewrite Hk, <- Hq. by left.
  - intros Hu. rewrite Hno; [|intros; eapply Hu; [apply elem_of_app; by left|done]].
    destruct (decide _) as [Hq|]; [|done]. by rewrite (Hu q x) by (try apply elem_of_app; try right; try left; done).
Qed.

(** ** Outcomes *)

Lemma outcomes_lookup (l : list (PendingEntry * Verdict)) k pv :
  NoDup ((pe_entry_key ∘ fst) <$> l) ->
  foldl (fun (m : gmap string (PendingEntry * Verdict)) pv => <[pe_entry_key pv.1 := pv]> m) ∅ l !! k = Some pv <->
  pv ∈ l /\ pe_entry_key pv.1 = k.
Proof.
  induction l as [|x l IH] using rev_ind; intros Hn.
  - simpl. rewrite lookup_empty, elem_of_nil. naive_solver.
  - rewrite foldl_app. simpl. rewrite fmap_app in Hn. apply NoDup_app in Hn as (Hn & Hdis & _).
    rewrite elem_of_app, list_elem_of_singleton. destruct (decide (pe_entry_key x.1 = k)) as [<-|Hne].
    + rewrite lookup_insert_eq. split; [intros [= ->]; auto|]. intros [[Hin| ->] Hk]; [|done]. exfalso.
      apply (Hdis (pe_entry_key x.1)); [|simpl; by left]. rewrite <- Hk.
      by apply (list_elem_of_fmap_2 (pe_entry_key ∘ fst)).
    + rewrite lookup_insert_ne, IH by done. naive_solver.
Qed.

Lemma outcomes_spec l k p v :
  NoDup ((pe_entry_key ∘ fst) <$> l) -> (k, (p, v)) ∈ outcomes l <-> (p, v) ∈ l /\ pe_entry_key p = k.
Proof. intros Hn. unfold outcomes. by rewrite btree_iter_elem, outcomes_lookup. Qed.

Lemma outcomes_nodup l : NoDup (outcomes l).*1.
Proof.
  unfold outcomes, btree_iter. rewrite sort_by_perm. apply NoDup_fst_map_to_list.
Qed.

(** ** The pass *)

(** The verdict an entry got in a pass: the model's answer if it was asked, and
    otherwise the one the gate resolved. *)
Definition pass_verdict (judge : PendingEntry -> IncidentDecision) (resolved : list (PendingEntry * Verdict))
    (to_judge : list PendingEntry) (e : string) (v : Verdict) : Prop :=
  (exists p, p ∈ to_judge /\ pe_entry_key p = e /\ v = to_verdict (judge p)) \/
  (exists p, (p, v) ∈ resolved /\ pe_entry_key p = e).

Section Judged.
Variable judge : PendingEntry -> IncidentDecision.
Variable complete : list PendingEntry -> list (PendingEntry * IncidentDecision).
Hypothesis complete_all : forall l, complete l ≡ₚ (fun p => (p, judge p)) <$> l.

Lemma answered_all l : answered <$> complete l ≡ₚ (fun p => (p, to_verdict (judge p))) <$> l.
Proof. rewrite (complete_all l), <- list_fmap_compose. done. Qed.

Lemma all_resolved chains resolved to_judge :
  classified chains (breach_entries chains) resolved to_judge ->
  NoDup (pe_entry_key ∘ fst <$> resolved ++ (answered <$> complete to_judge)) /\
  (forall e v, (exists p, (p, v) ∈ resolved ++ (answered <$> complete to_judge) /\ pe_entry_key p = e) <->
     pass_verdict judge resolved to_judge e v) /\
  (forall p v, (p, v) ∈ resolved ++ (answered <$> complete to_judge) -> pe_idxs p = entry_idxs chains (pe_entry_key p)) /\
  (forall e, e ∈ breach_entries chains -> exists v, pass_verdict judge resolved to_judge e v).
Proof.
  intros [Hk Hi _ _].
  assert (pe_entry_key ∘ fst <$> resolved ++ (answered <$> complete to_judge) ≡ₚ breach_entries chains) as Hkeys.
  { rewrite fmap_app, answered_all, <- list_fmap_compose, <- Hk. done. }
  assert (forall p v, (p, v) ∈ resolved ++ (answered <$> complete to_judge) <->
            (p, v) ∈ resolved \/ (p ∈ to_judge /\ v = to_verdict (judge p))) as Hin.
  { intros p v. rewrite elem_of_app, answered_all, list_elem_of_fmap. naive_solver. }
  split; [rewrite Hkeys; apply breach_entries_nodup|]. split; [|split].
  - intros e v. unfold pass_verdict. setoid_rewrite Hin. naive_solver.
  - intros p v [H|[H _]]%Hin; [|by apply Hi; right]. apply Hi. left. by apply (list_elem_of_fmap_2 fst) in H.
  - intros e He. rewrite <- Hk, elem_of_app, !list_elem_of_fmap in He. unfold pass_verdict.
    destruct He as [([p v] & -> & Hp)|(p & -> & Hp)]; eauto 10.
Qed.

Lemma pass_stamps_chains_spec chains sg health active now st st1 resolved to_judge st' chains' fx :
  classify_entries delta_prompt chains sg health now st = (st1, resolved, to_judge) ->
  run_adjudication_pass default_hash delta_prompt entry_coverage chains sg health active complete now st =
    Some (st', chains', fx) ->
  forall i c, chains !! i = Some c ->
  exists c', chains' !! i = Some c' /\
    (is_breach_relevant c = false -> c' = c) /\
    (is_breach_relevant c = true -> exists v display,
       pass_verdict judge resolved to_judge (pc_entry c) v /\ c' = stamp_chain display v (ea_judgement active) c) /\
    (pc_promoted c' = true -> pc_promoted c = false ->
       ea_judgement active = true /\ pc_corroborated c = false /\
       exists p, p ∈ to_judge /\ pe_entry_key p = pc_entry c /\ d_assessment (judge p) = AAttack) /\
    (is_breach_relevant c = true -> pc_corroborated c = true -> pc_adjudicated c' = true ->
       exists v, pass_verdict judge resolved to_judge (pc_entry c) v /\ is_confirmed v = true).
Proof.
  intros Hcl Hrun i c Hc. unfold run_adjudication_pass in Hrun. rewrite Hcl in Hrun.
  apply bind_Some in Hrun as ([[st2 resolved2] fx2] & Hf & Hrun).
  apply fold_decisions_spec in Hf as (-> & _ & _).
  destruct (foldl _ _ (outcomes _)) as [[s chains2] fx3] eqn:Hp. injection Hrun as _ <- _.
  pose proof (classify_entries_spec _ _ _ _ _ _ _ _ Hcl) as Hclass.
  destruct (all_resolved _ _ _ Hclass) as (Hn & Hpv & Hidx & Hall).
  pose proof (publish_chains now active chains _ _ _ _ _ _ (outcomes_nodup _)
    (fun k p v H => eq_trans (Hidx p v (proj1 (proj1 (outcomes_spec _ k p v Hn) H)))
       (f_equal (entry_idxs chains) (proj2 (proj1 (outcomes_spec _ k p v Hn) H)))) Hp i) as Hst.
  rewrite Hc in Hst. destruct (chains2 !! i) as [c'|]; [|done]. exists c'. split; [done|].
  assert (is_breach_relevant c = true -> exists v display,
       pass_verdict judge resolved to_judge (pc_entry c) v /\ c' = stamp_chain display v (ea_judgement active) c) as Hbr.
  { intros Hb. destruct Hst as [[-> [Hno|Hno]]|(_ & p & v & display & Ho & ->)]; [congruence| |].
    - exfalso. destruct (Hall (pc_entry c)) as [v Hv].
      { apply breach_entries_spec. exists c. split; [by eapply list_elem_of_lookup_2|done]. }
      apply Hpv in Hv as (p & Hp2 & Hke). apply Hno.
      apply (list_elem_of_fmap_2' fst _ (pc_entry c, (p, v))); [|done]. by apply outcomes_spec.
    - exists v, display. split; [|done]. apply outcomes_spec in Ho; [|done]. apply Hpv. eauto. }
  assert (is_breach_relevant c = false -> c' = c) as Hint.
  { intros Hb. destruct Hst as [[-> _]|(Hb' & _)]; [done|congruence]. }
  split; [done|]. split; [done|]. split.
  - intros Hp1 Hp0. destruct (is_breach_relevant c) eqn:Hb; [|rewrite Hint in Hp1 by done; congruence].
    destruct (Hbr eq_refl) as (v & display & Hv & ->). simpl in Hp1.
    destruct (negb (pc_corroborated c) && promotes v && ea_judgement active) eqn:Hcond; [|congruence]. bools.
    split; [done|]. split; [done|]. destruct Hv as [(p & Hp2 & Hke & ->)|(p & Hp2 & Hke)].
    + exists p. split; [done|]. split; [done|]. unfold to_verdict in *. by destruct (d_assessment (judge p)).
    + exfalso. pose proof (cl_no_promotion _ _ _ _ Hclass p v Hp2). congruence.
  - intros Hb Hco Had. destruct (Hbr Hb) as (v & display & Hv & ->). exists v. split; [done|]. simpl in Had.
    rewrite Hco in Had. simpl in Had. by destruct (is_confirmed v).
Qed.

(** What a pass does to the chains, whatever order the model's answers come
    back in. Each chain keeps everything but its verdict text, its veto and its
    promotion, and an internal chain keeps those too. A chain is newly promoted
    only when the judgement class is armed, it is not already corroborated, and
    the model, asked about its entry in this very pass, named an attack; a
    corroborated chain stays unvetoed only when its entry's verdict of this pass
    affirms the attack. *)
Theorem pass_stamps_chains chains sg health active now st st1 resolved to_judge st' chains' fx :
  classify_entries delta_prompt chains sg health now st = (st1, resolved, to_judge) ->
  run_adjudication_pass default_hash delta_prompt entry_coverage chains sg health active complete now st =
    Some (st', chains', fx) ->
  forall i c, chains !! i = Some c ->
  exists c', chains' !! i = Some c' /\
    (is_breach_relevant c = false -> c' = c) /\
    (is_breach_relevant c = true -> exists v display,
       pass_verdict judge resolved to_judge (pc_entry c) v /\ c' = stamp_chain display v (ea_judgement active) c) /\
    (pc_promoted c' = true -> pc_promoted c = false ->
       ea_judgement active = true /\ pc_corroborated c = false /\
       exists p, p ∈ to_judge /\ pe_entry_key p = pc_entry c /\ d_assessment (judge p) = AAttack) /\
    (is_breach_relevant c = true -> pc_corroborated c = true -> pc_adjudicated c' = true ->
       exists v, pass_verdict judge resolved to_judge (pc_entry c) v /\ is_confirmed v = true).
Proof. apply pass_stamps_chains_spec. Qed.

Lemma decisions_follow_answers_spec chains sg health active now st st1 resolved to_judge st' chains' fx e :
  classify_entries delta_prompt chains sg health now st = (st1, resolved, to_judge) ->
  run_adjudication_pass default_hash delta_prompt entry_coverage chains sg health active complete now st =
    Some (st', chains', fx) ->
  (e ∉ breach_entries chains -> ps_decisions st' !! e = None) /\
  (e ∈ breach_entries chains ->
     (forall p, p ∈ to_judge -> pe_entry_key p = e -> d_assessment (judge p) <> AUncertain ->
        ps_decisions st' !! e = Some (judge p)) /\
     ((forall p, p ∈ to_judge -> pe_entry_key p = e -> d_assessment (judge p) = AUncertain) ->
        (is_Some (ps_decisions st !! e) -> ps_decisions st' !! e = ps_decisions st !! e) /\
        (forall d, ps_decisions st' !! e = Some d -> ps_decisions st !! e = Some d \/ rearmed st e d))).
Proof.
  intros Hcl Hrun. unfold run_adjudication_pass in Hrun. rewrite Hcl in Hrun.
  apply bind_Some in Hrun as ([[st2 resolved2] fx2] & Hf & Hrun).
  apply fold_decisions_spec in Hf as (_ & Hdec & _).
  destruct (foldl _ _ (outcomes _)) as [[s chains2] fx3]. injection Hrun as <- _ _. cbn [ps_decisions].
  rewrite map_lookup_filter, Hdec.
  pose proof (classify_entries_spec _ _ _ _ _ _ _ _ Hcl) as [Hk _ _ _].
  assert (NoDup (pe_entry_key ∘ fst <$> complete to_judge)) as Hn.
  { rewrite complete_all, <- list_fmap_compose. pose proof (breach_entries_nodup chains) as Hb.
    rewrite <- Hk in Hb. by apply NoDup_app in Hb as (_ & _ & Hb). }
  destruct (decide_fold e (ps_decisions st1 !! e) (complete to_judge) Hn) as [Hyes Hno].
  destruct (classify_decisions chains sg health now st st1 resolved to_judge e Hcl) as (Hkeep & Hfrom & _).
  assert (forall o : option IncidentDecision, e ∈ breach_entries chains ->
            (o ≫= (fun x => guard (e ∈ (list_to_set (breach_entries chains) : gset string)) ≫= fun _ => Some x)) = o) as Hin.
  { intros [d|] He; simpl; [|done]. rewrite option_guard_True by set_solver. done. }
  split.
  - intros He. destruct (foldl _ _ _); simpl; [|done]. rewrite option_guard_False by set_solver. done.
  - intros He. rewrite Hin by done. split.
    + intros p Hp Hke Hd. apply (Hyes p).
      * rewrite complete_all. by apply (list_elem_of_fmap_2 (fun p => (p, judge p))).
      * done.
      * unfold to_verdict. by destruct (d_assessment (judge p)).
    + intros Hu. rewrite Hno; [auto|]. intros p d Hp Hke. rewrite complete_all in Hp.
      apply list_elem_of_fmap in Hp as (p' & [= -> ->] & Hp). unfold to_verdict. by rewrite Hu.
Qed.

(** The standing cut decisions change only on a fresh decisive answer, in
    whatever order the answers come back. After a pass, an entry still present
    has the decision the model gave it in this pass if that was decisive, and
    otherwise, when skipped, replayed or inconclusive, exactly the one it had
    before, or, having had none, one re-armed through the replay lock; an entry
    that left has none. *)
Theorem decisions_follow_answers chains sg health active now st st1 resolved to_judge st' chains' fx e :
  classify_entries delta_prompt chains sg health now st = (st1, resolved, to_judge) ->
  run_adjudication_pass default_hash delta_prompt entry_coverage chains sg health active complete now st =
    Some (st', chains', fx) ->
  (e ∉ breach_entries chains -> ps_decisions st' !! e = None) /\
  (e ∈ breach_entries chains ->
     (forall p, p ∈ to_judge -> pe_entry_key p = e -> d_assessment (judge p) <> AUncertain ->
        ps_decisions st' !! e = Some (judge p)) /\
     ((forall p, p ∈ to_judge -> pe_entry_key p = e -> d_assessment (judge p) = AUncertain) ->
        (is_Some (ps_decisions st !! e) -> ps_decisions st' !! e = ps_decisions st !! e) /\
        (forall d, ps_decisions st' !! e = Some d -> ps_decisions st !! e = Some d \/ rearmed st e d))).
Proof. apply decisions_follow_answers_spec. Qed.

End Judged.

(** ** The pass always completes *)

Definition backoff_ok (s : VerdictStore) : Prop :=
  forall e, (0 <= eb_failures (ve_backoff (store_entry s e)))%Z.

Lemma backoff_ok_update s entry f :
  (forall e, ve_backoff (f e) = ve_backoff e) -> backoff_ok s -> backoff_ok (update s entry f).
Proof. intros Hf Hb e. rewrite store_entry_update. destruct (decide _) as [->|]; [rewrite Hf|]; apply Hb. Qed.

Lemma classify_adjudication_backoff s p a b now :
  backoff_ok s -> backoff_ok (classify_adjudication s p a b now).2.
Proof.
  intros Hb. unfold classify_adjudication.
  assert (backoff_ok (cached_for s (pe_entry_key p) (pe_fingerprint p)).2) as Hc.
  { destruct (cached_for_update s (pe_entry_key p) (pe_fingerprint p)) as (f & Hf & [->| ->]); [done|].
    apply backoff_ok_update; [|done]. intros e. apply Hf. }
  destruct (cached_for _ _ _) as [hit s']. simpl in Hc.
  destruct hit as [v|]; [destruct (must_reverify v); [|done]|]; (destruct b as [b|]; [|done]);
    (destruct (negb a && negb _); [|done]); simpl; apply backoff_ok_update; try done.
Qed.

Lemma try_rearm_verdicts st p : ps_verdicts (try_rearm_decision st p) = ps_verdicts st.
Proof. unfold try_rearm_decision. by repeat case_match. Qed.

Lemma classify_entries_backoff chains sg health now st :
  backoff_ok (ps_verdicts st) -> backoff_ok (ps_verdicts (classify_entries delta_prompt chains sg health now st).1.1).
Proof.
  intros Hb. unfold classify_entries. generalize (model_attack_set (ps_decisions st)) as ma, (breach_entries chains) as es.
  intros ma es. induction es as [|e es IH] using rev_ind; [done|]. rewrite foldl_app. cbn [foldl].
  destruct (foldl _ _ es) as [[st1 r1] j1]. unfold classify_entry.
  destruct (prepare_pending _ _ _ _ _ _ _) as [[p a] b].
  pose proof (classify_adjudication_backoff (ps_verdicts (try_rearm_decision st1 p)) p a b now) as Hc.
  rewrite try_rearm_verdicts in Hc at 1. specialize (Hc IH).
  destruct (classify_adjudication _ p a b now) as [gate s]. by destruct gate.
Qed.

Lemma fold_decision_total now st resolved fx r :
  backoff_ok (ps_verdicts st) ->
  exists st' resolved' fx', fold_decision default_hash now (st, resolved, fx) r = Some (st', resolved', fx') /\
    backoff_ok (ps_verdicts st').
Proof.
  intros Hb. destruct r as [p d]. unfold fold_decision. destruct (is_uncertain (to_verdict d)).
  - unfold record_inconclusive.
    destruct (backoff_total (ve_backoff (store_entry (ps_verdicts st) (pe_entry_key p))) now
      (jitter_seed default_hash (pe_entry_key p)) (Hb _)) as (b & -> & Hb'). cbn [mbind option_bind].
    eexists _, _, _. split; [reflexivity|]. intros e. cbn [ps_verdicts with_verdicts].
    rewrite store_entry_breaker, store_entry_update. destruct (decide _); [done|apply Hb].
  - eexists _, _, _. split; [reflexivity|]. cbn [ps_verdicts]. intros e. unfold record_decisive.
    rewrite store_entry_breaker, store_entry_update. destruct (decide _); [done|].
    apply backoff_ok_update; [done|]. by apply backoff_ok_update.
Qed.

Lemma fold_decisions_total now results st resolved fx :
  backoff_ok (ps_verdicts st) ->
  exists st' resolved' fx', fold_decisions default_hash now (st, resolved, fx) results = Some (st', resolved', fx') /\
    backoff_ok (ps_verdicts st').
Proof.
  revert st resolved fx. induction results as [|r results IH]; intros st resolved fx Hb; cbn [fold_decisions]; [by eauto 10|].
  destruct (fold_decision_total now st resolved fx r Hb) as (st1 & r1 & f1 & -> & Hb1). by apply IH.
Qed.

Lemma publish_entry_backoff now active acc outcome :
  backoff_ok acc.1.1 -> backoff_ok (publish_entry entry_coverage now active acc outcome).1.1.
Proof.
  destruct acc as [[s chains] fx], outcome as [k [p v]]. intros Hb. simpl in Hb. unfold publish_entry, resolve_display.
  assert (forall posture s, backoff_ok s -> backoff_ok (record_recency s k posture now)) as Hr.
  { intros posture s0 H0. apply backoff_ok_update; [|done]. intros e.
    by destruct (negb (bool_decide _) && _), (ve_restored_recency e). }
  match goal with |- context [update s k ?f] =>
    assert (backoff_ok (update s k f)) as Hd by (apply backoff_ok_update; [intros e; by destruct (_ && _)|done]) end.
  destruct (negb _ && negb _); [|by apply Hr].
  destruct (entry_coverage (pe_entry p)) as [cves behavioral]. by apply backoff_ok_update, Hr.
Qed.

Lemma publish_backoff now active outs acc :
  backoff_ok acc.1.1 -> backoff_ok (foldl (publish_entry entry_coverage now active) acc outs).1.1.
Proof. revert acc. induction outs as [|o outs IH]; intros acc Hb; [done|]. by apply IH, publish_entry_backoff. Qed.

Lemma retain_backoff s present : backoff_ok s -> backoff_ok (retain_present s present).
Proof.
  intros Hb e. specialize (Hb e). unfold store_entry, retain_present in *. cbn [vs_entries].
  destruct (filter _ (vs_entries s) !! e) as [x|] eqn:E; [|done].
  apply map_lookup_filter_Some in E as [E _]. by rewrite E in Hb.
Qed.

Lemma pass_total_spec chains sg health active complete now st :
  backoff_ok (ps_verdicts st) ->
  exists st' chains' fx, run_adjudication_pass default_hash delta_prompt entry_coverage chains sg health active complete
    now st = Some (st', chains', fx) /\ backoff_ok (ps_verdicts st').
Proof.
  intros Hb. unfold run_adjudication_pass. pose proof (classify_entries_backoff chains sg health now st Hb) as Hc.
  destruct (classify_entries _ _ _ _ _ _) as [[st1 resolved] to_judge]. simpl in Hc.
  destruct (fold_decisions_total now (complete to_judge) st1 resolved [] Hc) as (st2 & r2 & f2 & -> & Hb2). cbn [mbind option_bind].
  pose proof (publish_backoff now active (outcomes r2) (ps_verdicts st2, chains, f2) Hb2) as Hp.
  destruct (foldl _ _ _) as [[s chains'] fx]. eexists _, _, _. split; [reflexivity|]. by apply retain_backoff.
Qed.

(** A pass stamps the chains in place. *)
Lemma pass_length chains sg health active complete now st st' chains' fx :
  run_adjudication_pass default_hash delta_prompt entry_coverage chains sg health active complete now st =
    Some (st', chains', fx) -> length chains' = length chains.
Proof.
  unfold run_adjudication_pass. destruct (classify_entries _ _ _ _ _ _) as [[st1 resolved] to_judge]. intros Hrun.
  apply bind_Some in Hrun as ([[st2 resolved2] fx2] & _ & Hrun).
  destruct (foldl _ _ (outcomes resolved2)) as [[s chains2] fx3] eqn:E. injection Hrun as _ <- _.
  assert (forall outs acc, length (foldl (publish_entry entry_coverage now active) acc outs).1.2 = length acc.1.2) as H.
  { induction outs as [|[k [p v]] outs IH]; intros [[s0 c0] f0]; [done|]. cbn [foldl]. rewrite IH. clear.
    unfold publish_entry. destruct (resolve_display s0 k v) as [shown s1]. cbv zeta.
    destruct (if negb _ && negb _ then _ else _) as [s3 j]. simpl. generalize (pe_idxs p) as idxs.
    intros idxs. revert c0. induction idxs as [|i idxs IH]; intros c0; [done|]. simpl. by rewrite IH, length_alter. }
  specialize (H (outcomes resolved2) (ps_verdicts st2, chains, fx2)). by rewrite E in H.
Qed.

(** A pass over any proven chains, with any model answers in any order,
    returns: no clock, counter or delay arithmetic in it can panic. *)
Theorem pass_total chains sg health active complete now st :
  backoff_ok (ps_verdicts st) ->
  is_Some (run_adjudication_pass default_hash delta_prompt entry_coverage chains sg health active complete now st).
Proof. intros Hb. destruct (pass_total_spec chains sg health active complete now st Hb) as (? & ? & ? & -> & _). eauto. Qed.

End Publish.

(** ** The order of the journal *)

(** The [Incident] lines among a pass's effects, by entry. *)
Definition incident_lines (fx : list PassEffect) : list string :=
  omap (fun f => match f with FxIncident e _ _ _ _ _ => Some e | _ => None end) fx.

(** ** Instances *)

Definition toy_delta (entry : NodeKey) (_ : list (NodeKey * AttackRef)) (_ : option JudgedSurface)
    (_ : list NodeKey) (_ : Menu) : DeltaBuild :=
  mkDelta entry entry (from_lines [entry] [] [] [] [] []).

Definition toy_coverage (_ : NodeKey) : list string * bool := ([], false).

(** An exposed entry reaching an objective without any live signal. *)
Definition quiet_chain (entry : NodeKey) : ProvenChain :=
  mkChain entry "secret/app/db" CREDENTIAL_ACCESS None false true false true None [] [] false [] [].

Definition toy_judge (_ : PendingEntry) : IncidentDecision := mkDecision AAttack "live" [].

Definition in_order (l : list PendingEntry) : list (PendingEntry * IncidentDecision) :=
  (fun p => (p, toy_judge p)) <$> l.

Definition fresh_state : PassState := mkPass (with_cache_slots 32) ∅ ∅.

Definition judgement_armed : EnabledActions := mkEnabled ∅ true.

Definition toy_chains : list ProvenChain := [quiet_chain "workload/app/Pod/a"; quiet_chain "workload/app/Pod/b"].

Definition toy_pass (complete : list PendingEntry -> list (PendingEntry * IncidentDecision))
    : option (PassState * list ProvenChain * list PassEffect) :=
  run_adjudication_pass length_hash toy_delta toy_coverage toy_chains (graph_new : cluster) ∅ judgement_armed
    complete 0 fresh_state.

Lemma pass_stamps_chains_witness :
  exists st' chains' fx c', toy_pass in_order = Some (st', chains', fx) /\ chains' !! 0 = Some c' /\
    pc_promoted c' = true /\
    exists p, p ∈ (classify_entries toy_delta toy_chains (graph_new : cluster) ∅ 0 fresh_state).2 /\
      pe_entry_key p = "workload/app/Pod/a" /\ d_assessment (toy_judge p) = AAttack.
Proof.
  destruct (toy_pass in_order) as [[[st' chains'] fx]|] eqn:E; [|vm_compute in E; discriminate E].
  destruct (classify_entries toy_delta toy_chains (graph_new : cluster) ∅ 0 fresh_state)
    as [[st1 resolved] to_judge] eqn:Hcl.
  destruct (pass_stamps_chains length_hash toy_delta toy_coverage toy_judge in_order (fun l => reflexivity _)
    toy_chains (graph_new : cluster) ∅ judgement_armed 0 fresh_state st1 resolved to_judge st' chains' fx Hcl E
    0 (quiet_chain "workload/app/Pod/a") eq_refl) as (c' & Hc & _ & _ & Hprom & _).
  assert (pc_promoted c' = true) as Hp.
  { vm_compute in E. injection E as _ <- _. injection Hc as <-. reflexivity. }
  exists st', chains', fx, c'. split; [reflexivity|]. split; [exact Hc|]. split; [exact Hp|].
  apply (proj2 (Hprom Hp eq_refl)).
Defined.

Lemma decisions_follow_answers_witness :
  exists st' chains' fx p, toy_pass in_order = Some (st', chains', fx) /\
    ps_decisions st' !! "workload/app/Pod/a" = Some (toy_judge p).
Proof.
  destruct (toy_pass in_order) as [[[st' chains'] fx]|] eqn:E; [|vm_compute in E; discriminate E].
  destruct (classify_entries toy_delta toy_chains (graph_new : cluster) ∅ 0 fresh_state)
    as [[st1 resolved] to_judge] eqn:Hcl.
  destruct to_judge as [|p to_judge'] eqn:Hj; [vm_compute in Hcl; discriminate Hcl|].
  assert (pe_entry_key p = "workload/app/Pod/a") as Hk by (vm_compute in Hcl; injection Hcl as _ _ <- _; reflexivity).
  assert ("workload/app/Pod/a" ∈ breach_entries toy_chains) as He by (vm_compute; left).
  exists st', chains', fx, p. split; [reflexivity|].
  apply (proj1 (proj2 (decisions_follow_answers length_hash toy_delta toy_coverage toy_judge in_order
    (fun l => reflexivity _) toy_chains (graph_new : cluster) ∅ judgement_armed 0 fresh_state st1 resolved
    (p :: to_judge') st' chains' fx "workload/app/Pod/a" Hcl E) He) p); [left|exact Hk|discriminate].
Defined.

Lemma pass_total_witness :
  backoff_ok (ps_verdicts fresh_state) /\ is_Some (toy_pass (fun l => rev (in_order l))).
Proof.
  assert (backoff_ok (ps_verdicts fresh_state)) as H by (intros e; vm_compute; discriminate).
  split; [exact H|]. apply (pass_total length_hash toy_delta toy_coverage toy_chains (graph_new : cluster) ∅
    judgement_armed (fun l => rev (in_order l)) 0 fresh_state H).
Defined.

(** The journal's incident lines follow the order in which the model's
    answers arrive, not the order of the entries: the same pass with the same
    answers, completing in two orders, writes them in two orders, while the
    chains come out the same. *)
Theorem incident_lines_follow_completion :
  (fun r => incident_lines r.2) <$> toy_pass in_order = Some ["workload/app/Pod/a"; "workload/app/Pod/b"] /\
  (fun r => incident_lines r.2) <$> toy_pass (fun l => rev (in_order l)) =
    Some ["workload/app/Pod/b"; "workload/app/Pod/a"] /\
  (fun r => r.1.2) <$> toy_pass in_order = (fun r => r.1.2) <$> toy_pass (fun l => rev (in_order l)).
Proof. split; [|split]; vm_compute; reflexivity. Qed.
