(* ===== verification/Divergence.v ===== *)
(** * The shadow-bake comparator (engine/src/engine/cut_divergence.rs)

    For every entry with a decisive decision, how the model's cuts compare with
    the cuts determinism alone would have proposed. *)

From S2P Require Import Prelude Text PetGraph Attack Behavior Classify Graph Chain Prove Boundary.
From S2P Require Import Respond AdjPass AdjFacts.

Inductive DivergenceClass := Agree | ModelOverCut | ModelUnderCut | Mixed.

Record DivergenceRecord := mkDivergence {
  dv_entry : string;
  dv_class : DivergenceClass;
  dv_model_cuts : list string;
  dv_deterministic_cuts : list string
}.

Definition deterministic_targets (chains : list ProvenChain) : gset string :=
  foldl (fun targets c =>
    let targets :=
      match containment_for c with
      | Some (_, action) => if is_additive_live action && is_reversible action then {[pc_entry c]} ∪ targets else targets
      | None => targets
      end in
    foldl (fun targets t =>
      if bool_decide (qt_node t = pc_entry c) then targets
      else if bool_decide (is_Some (quarantine_workload_link (qt_node t) (qt_labels t)))
           then {[qt_node t]} ∪ targets else targets) targets (pc_quarantine_targets c)) ∅ chains.

Definition classify (model deterministic : gset string) : DivergenceClass :=
  if bool_decide (model = deterministic) then Agree
  else if bool_decide (deterministic ⊆ model) then ModelOverCut
  else if bool_decide (model ⊆ deterministic) then ModelUnderCut
  else Mixed.

Definition compute_divergence (chains : list ProvenChain) (decisions : gmap string IncidentDecision)
    : list DivergenceRecord :=
  omap (fun entry =>
    d ← decisions !! entry;
    model_cuts ← match d_assessment d with
                 | AAttack => Some (list_to_set (cc_node <$> d_cuts d) : gset string)
                 | ANoAttack => Some ∅
                 | AUncertain => None
                 end;
    let deterministic := deterministic_targets
      (List.filter (fun c => is_breach_relevant c && bool_decide (pc_entry c = entry)) chains) in
    Some (mkDivergence entry (classify model_cuts deterministic) (bset_iter model_cuts) (bset_iter deterministic)))
  (breach_entries chains).

(** ** What determinism would cut *)

(** Determinism proposes a live cut at this node for one of the chains. *)
Definition would_cut (chains : list ProvenChain) (n : NodeKey) : Prop :=
  exists c, c ∈ chains /\
    ((n = pc_entry c /\ exists cut action, containment_for c = Some (cut, action) /\
        is_additive_live action = true /\ is_reversible action = true) \/
     (n <> pc_entry c /\ exists t, t ∈ pc_quarantine_targets c /\ qt_node t = n /\ qt_labels t <> ∅)).

Lemma foldl_targets c ts (acc : gset string) n :
  n ∈ foldl (fun targets t =>
      if bool_decide (qt_node t = pc_entry c) then targets
      else if bool_decide (is_Some (quarantine_workload_link (qt_node t) (qt_labels t)))
           then {[qt_node t]} ∪ targets else targets) acc ts <->
  n ∈ acc \/ (n <> pc_entry c /\ exists t, t ∈ ts /\ qt_node t = n /\ qt_labels t <> ∅).
Proof.
  revert acc. induction ts as [|t ts IH]; intros acc; simpl.
  - split; [by left|]. intros [H|(_ & t & Ht & _)]; [done|by apply not_elem_of_nil in Ht].
  - rewrite IH. unfold quarantine_workload_link. setoid_rewrite elem_of_cons.
    repeat case_bool_decide; try set_solver; destruct (decide (n = qt_node t)) as [->|];
      rewrite ?elem_of_union, ?elem_of_singleton; naive_solver.
Qed.

Lemma deterministic_targets_spec chains n : n ∈ deterministic_targets chains <-> would_cut chains n.
Proof.
  unfold deterministic_targets, would_cut. induction chains as [|c chains IH] using rev_ind; simpl.
  - split; [set_solver|]. intros (c & Hc & _). by apply not_elem_of_nil in Hc.
  - rewrite foldl_app. cbn [foldl]. rewrite foldl_targets. setoid_rewrite elem_of_app.
    setoid_rewrite list_elem_of_singleton.
    destruct (containment_for c) as [[cut action]|] eqn:Hc; [destruct (is_additive_live action && is_reversible action) eqn:Ha|].
    + apply andb_true_iff in Ha as [Ha Hr]. rewrite elem_of_union, elem_of_singleton, IH. split.
      * intros [[->|(c' & Hc' & H)]|H]; [|by eauto 10|by eauto 10]. exists c. eauto 10.
      * intros (c' & [Hc'| ->] & H); [naive_solver|]. destruct H as [[-> _]|H]; [by left; left|by right].
    + rewrite IH. split; [intros [(c' & Hc' & H)|H]; eauto 10|].
      intros (c' & [Hc'| ->] & H); [naive_solver|]. destruct H as [[-> (cut' & a' & Heq & H1 & H2)]|H]; [|by right].
      rewrite Hc in Heq. injection Heq as <- <-. by rewrite H1, H2 in Ha.
    + rewrite IH. split; [intros [(c' & Hc' & H)|H]; eauto 10|].
      intros (c' & [Hc'| ->] & H); [naive_solver|]. destruct H as [[-> (cut' & a' & Heq & _)]|H]; [congruence|by right].
Qed.

(** The class against the two one-sided differences. *)
Lemma classify_spec (model deterministic : gset string) :
  let over := exists n, n ∈ model /\ n ∉ deterministic in
  let under := exists n, n ∈ deterministic /\ n ∉ model in
  match classify model deterministic with
  | Agree => ~ over /\ ~ under
  | ModelOverCut => over /\ ~ under
  | ModelUnderCut => ~ over /\ under
  | Mixed => over /\ under
  end.
Proof.
  assert (forall a b : gset string, a ⊆ b <-> ~ exists n, n ∈ a /\ n ∉ b) as Hsub.
  { intros a b. split; [set_solver|]. intros H n Hn. destruct (decide (n ∈ b)); [done|]. exfalso. eauto. }
  assert (forall a b : gset string, ~ a ⊆ b -> exists n, n ∈ a /\ n ∉ b) as Hnot.
  { intros a b H. destruct (set_choose_or_empty (a ∖ b)) as [[n Hn]|Hn]; [exists n; set_solver|]. exfalso. apply H. set_solver. }
  unfold classify. case_bool_decide as H1; [subst; set_solver|]. case_bool_decide as H2; [|case_bool_decide as H3].
  - split; [|by apply Hsub]. apply Hnot. intros H. apply H1. set_solver.
  - split; [by apply Hsub|by apply Hnot].
  - split; by apply Hnot.
Qed.

(** The comparator is exact. There is one record for each exposed entry whose
    decision is decisive, and none for an undecided one; it lists the nodes the
    model named and the nodes determinism alone would have cut on the same
    chains, and its class says precisely how the two sets compare: equal, the
    model's a strict superset, a strict subset, or neither. *)
Theorem divergence_exact chains decisions r :
  r ∈ compute_divergence chains decisions ->
  exists d, decisions !! dv_entry r = Some d /\ d_assessment d <> AUncertain /\
    (exists c, c ∈ chains /\ is_breach_relevant c = true /\ pc_entry c = dv_entry r) /\
    (forall n, n ∈ dv_model_cuts r <-> d_assessment d = AAttack /\ n ∈ cc_node <$> d_cuts d) /\
    (forall n, n ∈ dv_deterministic_cuts r <->
       would_cut (List.filter (fun c => is_breach_relevant c && bool_decide (pc_entry c = dv_entry r)) chains) n) /\
    let over := exists n, n ∈ dv_model_cuts r /\ n ∉ dv_deterministic_cuts r in
    let under := exists n, n ∈ dv_deterministic_cuts r /\ n ∉ dv_model_cuts r in
    match dv_class r with
    | Agree => ~ over /\ ~ under
    | ModelOverCut => over /\ ~ under
    | ModelUnderCut => ~ over /\ under
    | Mixed => over /\ under
    end.
Proof.
  unfold compute_divergence. intros (entry & He & Hr)%list_elem_of_omap.
  apply breach_entries_spec in He. apply bind_Some in Hr as (d & Hd & Hr). apply bind_Some in Hr as (model & Hm & [= <-]).
  cbn [dv_entry dv_class dv_model_cuts dv_deterministic_cuts]. exists d. split; [done|].
  split; [by intros Hu; rewrite Hu in Hm|]. split; [done|].
  split; [|split].
  - intros n. rewrite bset_iter_elem. destruct (d_assessment d); [| |done]; injection Hm as <-; [|set_solver].
    rewrite elem_of_list_to_set. naive_solver.
  - intros n. by rewrite bset_iter_elem, deterministic_targets_spec.
  - set (deterministic := deterministic_targets _). pose proof (classify_spec model deterministic) as Hs.
    destruct (classify model deterministic); cbv zeta in *; setoid_rewrite bset_iter_elem; exact Hs.
Qed.

(** Determinism would quarantine a second workload the model left alone. *)
Definition two_target_chain : ProvenChain :=
  mkChain "workload/app/Pod/web" "secret/app/db" CREDENTIAL_ACCESS None true true false true None [] [] false []
    [mkTarget "workload/app/Pod/db" {["app" := "db"]} ActivelyExploited].

Lemma divergence_exact_witness :
  exists r, r ∈ compute_divergence [two_target_chain]
      {["workload/app/Pod/web" := mkDecision ANoAttack "benign" []]} /\
    dv_class r = ModelUnderCut /\ would_cut [two_target_chain] "workload/app/Pod/db".
Proof.
  assert (exists r, r ∈ compute_divergence [two_target_chain]
      {["workload/app/Pod/web" := mkDecision ANoAttack "benign" []]} /\ dv_class r = ModelUnderCut /\
      dv_entry r = "workload/app/Pod/web" /\ "workload/app/Pod/db" ∈ dv_deterministic_cuts r)
    as (r & Hr & Hc & He & Hd) by (vm_compute; eexists; split; [left|split; [|split; [|left]]]; reflexivity).
  exists r. split; [exact Hr|]. split; [exact Hc|].
  destruct (divergence_exact _ _ _ Hr) as (d & _ & _ & _ & _ & H & _). rewrite He in H. apply (H "workload/app/Pod/db"), Hd.
Defined.
