(* ===== verification/PolicyLog.v ===== *)
(** * The admission decision log and the other rings

    engine/src/engine/policy_log.rs (the deduplicated ring of decisions),
    state/reversion.rs and state/divergence.rs (plain rings). Lists are oldest
    first; times and counts are 64-bit. *)

From S2P Require Import Prelude Text Backoff Divergence.

Record PolicyDecisionRecord := mkDecision {
  pd_policy : string; pd_decision : string; pd_subject : string; pd_image : string;
  pd_signature : string; pd_mesh : string; pd_namespace : string; pd_reason : string;
  pd_would_admit : bool; pd_count : Z; pd_at_ms : Z
}.

#[global] Instance PolicyDecisionRecord_eq_dec : EqDecision PolicyDecisionRecord.
Proof. solve_decision. Defined.

Definition decision_now (policy decision subject image signature mesh namespace reason : string) (now_ms : Z) :
    PolicyDecisionRecord :=
  mkDecision policy decision subject image signature mesh namespace reason true 1 now_ms.

Definition with_would_admit (r : PolicyDecisionRecord) (would_admit : bool) : PolicyDecisionRecord :=
  mkDecision (pd_policy r) (pd_decision r) (pd_subject r) (pd_image r) (pd_signature r) (pd_mesh r)
    (pd_namespace r) (pd_reason r) would_admit (pd_count r) (pd_at_ms r).

Definition dedup_key (r : PolicyDecisionRecord) : string * string * string :=
  (pd_subject r, pd_image r, pd_decision r).

Notation PolicyDecisionLog := (list PolicyDecisionRecord).

Definition LOG_CAP : nat := Z.to_nat 256.

Definition saturating_add64 (a b : Z) : Z := Z.min u64_max (a + b).

(** [VecDeque::remove(position(..))]: the matching row and the rest. *)
Definition take_row (k : string * string * string) (rows : PolicyDecisionLog) :
    option (PolicyDecisionRecord * PolicyDecisionLog) :=
  '(pos, r) ← list_find (fun r => dedup_key r = k) rows;
  Some (r, delete pos rows).

(** A full ring drops its oldest row before a push. *)
Definition push_capped {A} (cap : nat) (rows : list A) (r : A) : list A :=
  (if cap <=? length rows then drop 1 rows else rows) ++ [r].

Definition log_decision (rows : PolicyDecisionLog) (d : PolicyDecisionRecord) : PolicyDecisionLog :=
  match take_row (dedup_key d) rows with
  | Some (e, rest) =>
      rest ++ [mkDecision (pd_policy e) (pd_decision e) (pd_subject e) (pd_image e) (pd_signature d) (pd_mesh d)
                 (pd_namespace e) (pd_reason d) (pd_would_admit d) (saturating_add64 (pd_count e) 1)
                 (Z.max (pd_at_ms e) (pd_at_ms d))]
  | None => push_capped LOG_CAP rows d
  end.

Definition log_restore (rows : PolicyDecisionLog) (d : PolicyDecisionRecord) : PolicyDecisionLog :=
  match take_row (dedup_key d) rows with
  | Some (e, rest) =>
      rest ++ [mkDecision (pd_policy e) (pd_decision e) (pd_subject e) (pd_image e) (pd_signature e) (pd_mesh e)
                 (pd_namespace e) (pd_reason e) (pd_would_admit e) (saturating_add64 (pd_count e) (pd_count d))
                 (Z.max (pd_at_ms e) (pd_at_ms d))]
  | None => push_capped LOG_CAP rows d
  end.

Definition log_snapshot (rows : PolicyDecisionLog) : list PolicyDecisionRecord := rev rows.

Record DecisionTallies := mkTallies { t_admitted : Z; t_audited : Z; t_denied : Z }.

(** [+=] on 64 bits: [None] is an overflow, which panics in a checked build. *)
Definition add64 (a b : Z) : option Z := if (a + b <=? u64_max)%Z then Some (a + b)%Z else None.

Definition tally_row (t : option DecisionTallies) (r : PolicyDecisionRecord) : option DecisionTallies :=
  '(mkTallies a u d) ← t;
  if bool_decide (pd_decision r = "allow") then (fun a => mkTallies a u d) <$> add64 a (pd_count r)
  else if bool_decide (pd_decision r = "audit") then (fun u => mkTallies a u d) <$> add64 u (pd_count r)
  else if bool_decide (pd_decision r = "deny") then (fun d => mkTallies a u d) <$> add64 d (pd_count r)
  else Some (mkTallies a u d).

Definition tallies (rows : PolicyDecisionLog) : option DecisionTallies :=
  foldl tally_row (Some (mkTallies 0 0 0)) rows.

(** ** The plain rings *)

Record ReversionRecord := mkReversion { rv_cut : string; rv_reason : string; rv_at_ms : Z }.

Definition REVERSION_CAP : nat := 64.

Definition record_reversion : list ReversionRecord -> ReversionRecord -> list ReversionRecord :=
  push_capped REVERSION_CAP.

Record DivergenceRow := mkDivergenceRow {
  dr_entry : string; dr_class : DivergenceClass; dr_model_cuts : list string;
  dr_deterministic_cuts : list string; dr_at_ms : Z
}.

Definition DIVERGENCE_CAP : nat := Z.to_nat 256.

Definition record_divergence : list DivergenceRow -> DivergenceRow -> list DivergenceRow :=
  push_capped DIVERGENCE_CAP.

(** ** Lemmas *)

Lemma push_capped_length {A} cap (rows : list A) r : 0 < cap -> length rows <= cap -> length (push_capped cap rows r) <= cap.
Proof.
  intros Hc Hl. unfold push_capped. rewrite length_app. simpl. destruct (Nat.leb_spec cap (length rows)); [rewrite length_drop|]; lia.
Qed.

Lemma push_capped_suffix {A} cap (rows : list A) r :
  exists old, push_capped cap rows r = drop old (rows ++ [r]) /\ old <= 1.
Proof.
  unfold push_capped. destruct (Nat.leb_spec cap (length rows)) as [Hle|].
  - destruct rows as [|x rows]; [exists 0; simpl; split; [done|lia]|]. exists 1. simpl. rewrite drop_0. split; [done|lia].
  - exists 0. split; [done|lia].
Qed.

Lemma list_find_delete {A} (P : A -> Prop) `{forall x, Decision (P x)} l pos r :
  list_find P l = Some (pos, r) ->
  exists a b, l = a ++ r :: b /\ delete pos l = a ++ b /\ P r /\ (forall x, x ∈ a -> ~ P x).
Proof.
  intros Hf. apply list_find_Some in Hf as (Hl & Hr & Hfirst). exists (take pos l), (drop (S pos) l).
  split; [by rewrite take_drop_middle|]. split; [apply delete_take_drop|]. split; [done|].
  intros x (i & Hi & Hlt)%elem_of_take. by eapply Hfirst.
Qed.

Lemma take_row_some k rows e rest :
  take_row k rows = Some (e, rest) ->
  exists a b, rows = a ++ e :: b /\ rest = a ++ b /\ dedup_key e = k.
Proof.
  unfold take_row. intros ([pos r] & Hf & [= <- <-])%bind_Some.
  destruct (list_find_delete _ _ _ _ Hf) as (a & b & Hl & Hd & Hk & _). simpl in Hd. exists a, b. done.
Qed.

Lemma take_row_none k rows : take_row k rows = None <-> k ∉ dedup_key <$> rows.
Proof.
  unfold take_row. destruct (list_find _ rows) as [[pos r]|] eqn:E; simpl.
  - apply list_find_Some in E as (Hl & Hr & _). apply list_elem_of_lookup_2 in Hl. split; [done|].
    intros Hn. destruct Hn. apply list_elem_of_fmap. by exists r.
  - apply list_find_None in E. rewrite Forall_forall in E. split; [|done]. intros _ (r & -> & Hr)%list_elem_of_fmap.
    by apply (E r Hr).
Qed.

(** A log is well formed: bounded, one row per identity. *)
Record log_ok (rows : PolicyDecisionLog) : Prop := {
  lo_bound : length rows <= LOG_CAP;
  lo_keys : NoDup (dedup_key <$> rows)
}.

Lemma replace_row_ok k rows e rest r :
  log_ok rows -> take_row k rows = Some (e, rest) -> dedup_key r = k -> log_ok (rest ++ [r]).
Proof.
  intros [Hb Hk] (a & b & -> & -> & He)%take_row_some Hr.
  rewrite fmap_app, fmap_cons in Hk. split.
  - rewrite !length_app in *. simpl in *. lia.
  - rewrite !fmap_app. simpl. rewrite Hr, <- He.
    rewrite Permutation_app_comm. simpl. by rewrite Permutation_middle.
Qed.

Lemma push_row_ok rows r : log_ok rows -> dedup_key r ∉ dedup_key <$> rows -> log_ok (push_capped LOG_CAP rows r).
Proof.
  intros [Hb Hk] Hr. split; [apply push_capped_length; [unfold LOG_CAP; lia|done]|].
  unfold push_capped. rewrite fmap_app, list_fmap_singleton. apply NoDup_app. destruct (LOG_CAP <=? length rows).
  - split; [rewrite fmap_drop; eapply sublist_NoDup; [done|apply sublist_drop]|]. split; [|apply NoDup_singleton].
    rewrite fmap_drop. intros x Hx Hx'. apply list_elem_of_singleton in Hx' as ->. apply Hr. eapply elem_of_sublist; [exact Hx|apply sublist_drop].
  - split; [done|]. split; [|apply NoDup_singleton]. intros x Hx Hx'. by apply list_elem_of_singleton in Hx' as ->.
Qed.

Lemma log_decision_ok rows d : log_ok rows -> log_ok (log_decision rows d).
Proof.
  intros H. unfold log_decision. destruct (take_row _ rows) as [[e rest]|] eqn:E.
  - eapply replace_row_ok; [done|done|]. apply take_row_some in E as (a & b & _ & _ & <-). done.
  - apply push_row_ok; [done|]. by apply take_row_none.
Qed.

Lemma log_restore_ok rows d : log_ok rows -> log_ok (log_restore rows d).
Proof.
  intros H. unfold log_restore. destruct (take_row _ rows) as [[e rest]|] eqn:E.
  - eapply replace_row_ok; [done|done|]. apply take_row_some in E as (a & b & _ & _ & <-). done.
  - apply push_row_ok; [done|]. by apply take_row_none.
Qed.

(** ** What the log says *)

(** The latest decision recorded under an identity, and how often it was. *)
Definition latest (k : string * string * string) (ds : list PolicyDecisionRecord) : option PolicyDecisionRecord :=
  last (filter (fun d => dedup_key d = k) ds).

Definition occurrences (k : string * string * string) (ds : list PolicyDecisionRecord) : nat :=
  length (filter (fun d => dedup_key d = k) ds).

(** A row that stands for the decisions recorded under its identity. *)
Definition row_of (r : PolicyDecisionRecord) (ds : list PolicyDecisionRecord) : Prop :=
  pd_count r = Z.min u64_max (Z.of_nat (occurrences (dedup_key r) ds)) /\
  exists d, latest (dedup_key r) ds = Some d /\ pd_reason r = pd_reason d /\ pd_signature r = pd_signature d /\
    pd_mesh r = pd_mesh d /\ pd_would_admit r = pd_would_admit d /\ (pd_at_ms d <= pd_at_ms r)%Z.

Lemma occurrences_snoc k ds d :
  occurrences k (ds ++ [d]) = occurrences k ds + if decide (dedup_key d = k) then 1 else 0.
Proof. unfold occurrences. rewrite filter_app, filter_cons, filter_nil, length_app. by destruct (decide _). Qed.

Lemma latest_snoc k ds d :
  latest k (ds ++ [d]) = if decide (dedup_key d = k) then Some d else latest k ds.
Proof.
  unfold latest. rewrite filter_app, filter_cons, filter_nil. destruct (decide _); [by rewrite last_snoc|]. by rewrite app_nil_r.
Qed.

Lemma row_of_other r ds d : dedup_key d <> dedup_key r -> row_of r ds -> row_of r (ds ++ [d]).
Proof.
  intros Hne [Hc Hl]. unfold row_of. rewrite occurrences_snoc, latest_snoc. rewrite !decide_False by done.
  by rewrite Nat.add_0_r.
Qed.

(** The distinct identities recorded so far. *)
Definition identities_of (ds : list PolicyDecisionRecord) : gset (string * string * string) :=
  list_to_set (dedup_key <$> ds).

Definition fresh_decision (d : PolicyDecisionRecord) : Prop := pd_count d = 1%Z.

Lemma not_recorded k ds : k ∉ identities_of ds -> occurrences k ds = 0.
Proof.
  intros Hn. apply length_zero_iff_nil. destruct (filter (fun d => dedup_key d = k) ds) as [|x l] eqn:Ef; [done|].
  assert (x ∈ filter (fun d => dedup_key d = k) ds) as Hin by (rewrite Ef; left).
  apply list_elem_of_filter in Hin as [Hdk Hin]. destruct Hn. apply elem_of_list_to_set, list_elem_of_fmap. by exists x.
Qed.

Lemma row_of_recorded r ds : row_of r ds -> dedup_key r ∈ identities_of ds.
Proof.
  intros [_ (d & Hl & _)]. apply last_Some in Hl as (l & Hl).
  assert (d ∈ filter (fun x => dedup_key x = dedup_key r) ds) as Hin by (rewrite Hl; apply elem_of_app; right; left).
  apply list_elem_of_filter in Hin as [Hdk Hin]. apply elem_of_list_to_set, list_elem_of_fmap. by exists d.
Qed.

(** A recurrence, and a first occurrence. *)
Lemma row_of_refreshed e d ds :
  row_of e ds -> dedup_key e = dedup_key d ->
  row_of (mkDecision (pd_policy e) (pd_decision e) (pd_subject e) (pd_image e) (pd_signature d) (pd_mesh d)
            (pd_namespace e) (pd_reason d) (pd_would_admit d) (saturating_add64 (pd_count e) 1)
            (Z.max (pd_at_ms e) (pd_at_ms d))) (ds ++ [d]).
Proof.
  intros [Hc _] Hk. set (r := mkDecision _ _ _ _ _ _ _ _ _ _ _). assert (dedup_key r = dedup_key d) as Hr by exact Hk.
  unfold row_of. rewrite Hr, occurrences_snoc, latest_snoc, !decide_True by done.
  split; [simpl; rewrite Hc, Hk; unfold saturating_add64; lia|]. exists d. repeat (split; [done|]). simpl. lia.
Qed.

Lemma row_of_first d ds : fresh_decision d -> dedup_key d ∉ identities_of ds -> row_of d (ds ++ [d]).
Proof.
  intros Hd Hn. split.
  - rewrite occurrences_snoc, decide_True, not_recorded by done. rewrite Hd. vm_compute. reflexivity.
  - exists d. rewrite latest_snoc, decide_True by done. repeat (split; [done|]). lia.
Qed.

(** Without an eviction the log is exactly the recorded identities, each row
    standing for its decisions. *)
Lemma log_complete ds :
  Forall fresh_decision ds -> size (identities_of ds) <= LOG_CAP ->
  let rows := foldl log_decision [] ds in
  log_ok rows /\ (list_to_set (dedup_key <$> rows) = identities_of ds) /\ Forall (fun r => row_of r ds) rows /\
  (forall d, last ds = Some d -> dedup_key <$> last rows = Some (dedup_key d)).
Proof.
  induction ds as [|d ds IH] using rev_ind; intros Hf Hs.
  - simpl. split; [split; [unfold LOG_CAP; simpl; lia|constructor]|]. done.
  - apply Forall_app in Hf as [Hf Hd]. rewrite Forall_singleton in Hd.
    assert (identities_of (ds ++ [d]) = identities_of ds ∪ {[dedup_key d]}) as Hids.
    { unfold identities_of. rewrite fmap_app, list_fmap_singleton, list_to_set_app_L. simpl. by rewrite union_empty_r_L. }
    rewrite Hids in Hs. assert (size (identities_of ds) <= LOG_CAP) as Hs'.
    { etransitivity; [|exact Hs]. apply subseteq_size. set_solver. }
    destruct (IH Hf Hs') as (Hok & Hset & Hrows & _). rewrite foldl_app. simpl. set (rows := foldl log_decision [] ds) in *.
    split; [by apply log_decision_ok|]. unfold log_decision. destruct (take_row (dedup_key d) rows) as [[e rest]|] eqn:E.
    + apply take_row_some in E as (a & b & Hr & -> & Hk). rewrite Hids, <- Hset, Hr.
      rewrite Hr in Hrows. apply Forall_app in Hrows as [Ha Hb]. inversion_clear Hb as [|? ? He Hb'].
      assert (forall r, r ∈ a ++ b -> dedup_key d <> dedup_key r) as Hne.
      { intros r Hin Heq. destruct Hok as [_ Hnd]. rewrite Hr, fmap_app, fmap_cons in Hnd.
        rewrite <- Permutation_middle in Hnd. apply NoDup_cons in Hnd as [Hnd _]. apply Hnd.
        rewrite <- fmap_app. apply list_elem_of_fmap. exists r. by rewrite Hk, Heq. }
      set (r' := mkDecision _ _ _ _ _ _ _ _ _ _ _). assert (dedup_key r' = dedup_key d) as Hr' by exact Hk.
      split; [rewrite !fmap_app, list_fmap_singleton, fmap_cons, Hr', Hk, !list_to_set_app_L; simpl; clear; set_solver|]. split.
      * apply Forall_app. split.
        -- apply Forall_forall. intros r Hin. apply row_of_other; [by apply Hne|].
           apply elem_of_app in Hin as [Hin|Hin]; [eapply Forall_forall in Ha|eapply Forall_forall in Hb']; done.
        -- apply Forall_singleton. by apply row_of_refreshed.
      * intros d'. rewrite !last_snoc. intros [= <-]. cbn [fmap option_fmap option_map]. by rewrite Hr'.
    + apply take_row_none in E. assert (dedup_key d ∉ identities_of ds) as Hn by (rewrite <- Hset; set_solver).
      assert (length rows = size (identities_of ds)) as Hlen.
      { rewrite <- Hset, size_list_to_set by apply Hok. by rewrite length_fmap. }
      rewrite size_union, size_singleton in Hs by (by apply disjoint_singleton_r). unfold push_capped.
      destruct (Nat.leb_spec LOG_CAP (length rows)); [lia|]. rewrite Hids. split; [|split].
      * rewrite fmap_app, list_fmap_singleton, list_to_set_app_L, Hset. cbn [list_to_set]. by rewrite union_empty_r_L.
      * apply Forall_app. split.
        -- eapply Forall_impl; [exact Hrows|]. intros r Hrow. apply row_of_other; [|done].
           intros Heq. apply Hn. rewrite Heq. by apply row_of_recorded.
        -- apply Forall_singleton. by apply row_of_first.
      * intros d'. rewrite !last_snoc. by intros [= <-].
Qed.

(** The admission log is bounded with one row per (subject, image, decision)
    whatever is recorded or restored, and as long as the distinct identities fit
    it loses nothing: one row per identity, counting every occurrence, carrying
    the latest status and reason, the latest recorded one newest. *)
Theorem policy_log_exact (ds rs : list PolicyDecisionRecord) :
  log_ok (foldl log_decision (foldl log_restore [] rs) ds) /\
  (Forall fresh_decision ds -> size (identities_of ds) <= LOG_CAP ->
   let rows := foldl log_decision [] ds in
   list_to_set (dedup_key <$> rows) = identities_of ds /\ Forall (fun r => row_of r ds) rows /\
   (forall d, last ds = Some d -> dedup_key <$> hd_error (log_snapshot rows) = Some (dedup_key d))).
Proof.
  split.
  - assert (forall (f : PolicyDecisionLog -> PolicyDecisionRecord -> PolicyDecisionLog) l rows, (forall r d, log_ok r -> log_ok (f r d)) -> log_ok rows -> log_ok (foldl f rows l)) as Hfold.
    { intros f l. induction l as [|x l IH]; intros rows Hp Hok; [done|]. simpl. by apply IH; [|apply Hp]. }
    apply Hfold; [apply log_decision_ok|]. apply Hfold; [apply log_restore_ok|].
    split; [unfold LOG_CAP; simpl; lia|constructor].
  - intros Hf Hs rows. destruct (log_complete ds Hf Hs) as (_ & H1 & H2 & H3). split; [done|]. split; [done|].
    intros d Hd. specialize (H3 d Hd). fold rows in H3. unfold log_snapshot.
    destruct rows as [|r rows'] using rev_ind; [done|]. rewrite last_snoc in H3. by rewrite rev_app_distr.
Qed.

(** The log before a restart and the log replayed from what it journaled: each
    decision is journaled as it was recorded, with a count of one. *)
Definition replayed (ds : list PolicyDecisionRecord) : PolicyDecisionLog := foldl log_restore [] ds.

Definition web_allow (signature : string) (at_ms : Z) : PolicyDecisionRecord :=
  decision_now "admission" "allow" "Pod/web" "ghcr.io/org/app:1" signature "" "prod" "" at_ms.

(** Recording refreshes a row's status; replaying what was journaled keeps the
    oldest one, so a restart turns a verified image back into a would-fail. *)
Lemma restore_keeps_stale_status :
  let ds := [web_allow "would-fail" 1; web_allow "verified" 2] in
  pd_signature <$> foldl log_decision [] ds = ["verified"] /\ pd_signature <$> replayed ds = ["would-fail"].
Proof. vm_compute. done. Qed.
