(* ===== verification/Journal.v ===== *)
(** * The decision journal

    engine/src/engine/journal/mod.rs: an append-only file of one JSON line per
    decision, rolled once over [MAX_BYTES], replayed on boot. The JSON codec is
    a parameter with the contract [LineFormat]; what the file system does to a
    write is an argument of the append. *)

From S2P Require Import Prelude Text Json PetGraph Attack Behavior Classify Graph Chain Prove Boundary.
From S2P Require Import Respond Actuator Verdicts Incident Divergence ImageRef Posture PolicyLog.

#[local] Arguments String.append : simpl nomatch.

Definition MAX_BYTES : Z := 1024 * 1024.

Record EnrichmentCoverage := mkCoverage { ec_cves : list string; ec_behavioral : bool }.

Definition is_backed (c : EnrichmentCoverage) : bool :=
  negb (bool_decide (ec_cves c = [])) || ec_behavioral c.

Inductive JDecision :=
  | JBreach (entry : string) (objectives : nat) (verdict : string) (coverage : option EnrichmentCoverage)
      (fingerprint : option string) (verdict_typed : option Verdict)
  | JIncident (entry : string) (objectives : nat) (assessment : Assessment) (reason : string)
      (cuts : list JournaledCut) (fingerprint : string)
  | JCutDivergence (entry : string) (class : DivergenceClass) (model_cuts deterministic_cuts : list string)
  | JApply (cut : string)
  | JRevert (cut reason : string)
  | JAdmission (record : PolicyDecisionRecord)
  | JSigningBaseline (repo : string) (identities issuers : list string) (first_seen_ms : Z)
      (established log_corroborated : bool) (rank : PostureRank) (provenance_sources provenance_builders : list string).

Record JournalEntry := mkJEntry { je_at_ms : Z; je_decision : JDecision }.

(** ** UTF-8, which [fs::read_to_string] checks over the whole file *)

Inductive utf8_state := AtChar | Continue (lo hi : N) (more : nat).

Definition utf8_step (st : utf8_state) (a : Ascii.ascii) : option utf8_state :=
  let b := Ascii.N_of_ascii a in
  let within lo hi := (lo <=? b)%N && (b <=? hi)%N in
  match st with
  | AtChar =>
      if within 0%N 127%N then Some AtChar
      else if within 194%N 223%N then Some (Continue 128%N 191%N 0)
      else if within 224%N 224%N then Some (Continue 160%N 191%N 1)
      else if within 237%N 237%N then Some (Continue 128%N 159%N 1)
      else if within 225%N 239%N then Some (Continue 128%N 191%N 1)
      else if within 240%N 240%N then Some (Continue 144%N 191%N 2)
      else if within 241%N 243%N then Some (Continue 128%N 191%N 2)
      else if within 244%N 244%N then Some (Continue 128%N 143%N 2)
      else None
  | Continue lo hi more =>
      if within lo hi then Some (match more with 0 => AtChar | S more => Continue 128%N 191%N more end) else None
  end.

Fixpoint utf8_run (st : utf8_state) (s : string) : option utf8_state :=
  match s with EmptyString => Some st | String a s => utf8_step st a ≫= fun st => utf8_run st s end.

Definition valid_utf8 (s : string) : Prop := utf8_run AtChar s = Some AtChar.

#[global] Instance utf8_state_eq_dec : EqDecision utf8_state.
Proof. solve_decision. Defined.

(** ** Lines *)

Definition newline : Ascii.ascii := Ascii.ascii_of_nat 10.
Definition nl : string := String newline "".

(** [str::lines]: split at newlines, without a final empty line and without a
    trailing carriage return. *)
Definition lines (s : string) : list string :=
  let ls := split newline s in
  let ls := if bool_decide (last ls = Some "") then removelast ls else ls in
  (fun l => default l (strip_suffix (String (Ascii.ascii_of_nat 13) "") l)) <$> ls.

(** ** The volume and the journal *)

(** The active file and its one rolled generation; [None] is an absent file. *)
Record Volume := mkVolume { vol_active : option string; vol_rolled : option string }.

Record DecisionJournal := mkJournal { dj_path : bool; dj_disabled : bool; dj_volume : Volume }.

(** What the file system does to an append: it can refuse the rename, refuse
    the file, or stop after the first [n] bytes. *)
Inductive Io := IoOk | IoNoRename | IoNoOpen | IoTorn (n : nat).

Fixpoint str_take (n : nat) (s : string) : string :=
  match n, s with S n, String a s => String a (str_take n s) | _, _ => EmptyString end.

Definition file_size (f : option string) : Z := match f with Some c => Z.of_nat (String.length c) | None => 0 end.

Section Journal.
Variables (to_string : JournalEntry -> string) (from_str : string -> option JournalEntry).

Definition journal_disabled : DecisionJournal := mkJournal false false (mkVolume None None).

(** Opening probes the volume, creating the active file. *)
Definition journal_open (v : Volume) (writable : bool) : DecisionJournal :=
  if writable then mkJournal true false (mkVolume (Some (default "" (vol_active v))) (vol_rolled v))
  else mkJournal false false v.

Definition is_enabled (j : DecisionJournal) : bool := dj_path j && negb (dj_disabled j).

Definition rotate_if_needed (v : Volume) (io : Io) : option Volume :=
  let over_cap := match vol_active v with Some c => (MAX_BYTES <=? Z.of_nat (String.length c))%Z | None => false end in
  if over_cap then match io with IoNoRename => None | _ => Some (mkVolume None (vol_active v)) end
  else Some v.

(** The volume after the append, and whether it succeeded. *)
Definition try_append (v : Volume) (entry : JournalEntry) (io : Io) : Volume * bool :=
  let line := to_string entry +:+ nl in
  match rotate_if_needed v io with
  | None => (v, false)
  | Some v =>
      let append s := mkVolume (Some (default "" (vol_active v) +:+ s)) (vol_rolled v) in
      match io with
      | IoNoOpen => (v, false)
      | IoTorn n => (append (str_take n line), false)
      | _ => (append line, true)
      end
  end.

Definition journal_append (j : DecisionJournal) (entry : JournalEntry) (io : Io) : DecisionJournal :=
  if negb (dj_path j) || dj_disabled j then j
  else let '(v, ok) := try_append (dj_volume j) entry io in mkJournal true (negb ok) v.

Definition record_all (j : DecisionJournal) (entries : list (JournalEntry * Io)) : DecisionJournal :=
  foldl (fun j e => journal_append j e.1 e.2) j entries.

Definition replay_file (f : option string) : list JournalEntry :=
  match f with
  | Some contents =>
      if decide (valid_utf8 contents) then
        omap (fun line => let line := trim line in if bool_decide (line = "") then None else from_str line) (lines contents)
      else []
  | None => []
  end.

Definition replay (j : DecisionJournal) : list JournalEntry :=
  if dj_path j then replay_file (vol_rolled (dj_volume j)) ++ replay_file (vol_active (dj_volume j)) else [].
End Journal.

(** ** The codec's contract

    [serde_json] writes an object on one line, in UTF-8, and reads back what it
    wrote. *)
Class LineFormat (to_string : JournalEntry -> string) (from_str : string -> option JournalEntry) : Prop := {
  lf_roundtrip e : from_str (to_string e) = Some e;
  lf_object e : exists body, to_string e = "{" +:+ body +:+ "}";
  lf_one_line e : no_char newline (to_string e) = true;
  lf_utf8 e : valid_utf8 (to_string e)
}.

(** ** Lemmas *)

Lemma utf8_run_app st a b : utf8_run st (a +:+ b) = utf8_run st a ≫= fun st => utf8_run st b.
Proof. revert st. induction a as [|x a IH]; intros st; [done|]. simpl. destruct (utf8_step st x); simpl; [apply IH|done]. Qed.

Lemma valid_utf8_app a b : valid_utf8 a -> valid_utf8 b -> valid_utf8 (a +:+ b).
Proof. unfold valid_utf8. intros Ha Hb. by rewrite utf8_run_app, Ha. Qed.

(** A braced text has no blank ends. *)
Lemma trim_braced body : trim ("{" +:+ body +:+ "}") = "{" +:+ body +:+ "}".
Proof.
  assert (forall n s, strip_all n white_space ("{" +:+ s) = "{" +:+ s) as Hs by (intros [|n] s; reflexivity).
  assert (forall n s, strip_all n (map str_rev white_space) ("}" +:+ s) = "}" +:+ s) as He by (intros [|n] s; reflexivity).
  unfold trim, trim_start. rewrite Hs. unfold trim_end. rewrite !str_rev_append.
  change (str_rev "}") with "}". change (str_rev "{") with "{". rewrite app_str_assoc, He.
  rewrite !str_rev_append, str_rev_involutive. change (str_rev "}") with "}". change (str_rev "{") with "{".
  by rewrite app_str_assoc.
Qed.

Lemma strip_cr_braced body : strip_suffix (String (Ascii.ascii_of_nat 13) "") ("{" +:+ body +:+ "}") = None.
Proof.
  unfold strip_suffix. rewrite !str_rev_append. reflexivity.
Qed.

(** ** What a file of lines replays *)

Section Retention.
Context (to_string : JournalEntry -> string) (from_str : string -> option JournalEntry).
Context `{!LineFormat to_string from_str}.

Local Notation replay := (replay from_str).
Local Notation replay_file := (replay_file from_str).
Local Notation journal_append := (journal_append to_string).
Local Notation record_all := (record_all to_string).

Definition encode (es : list JournalEntry) : string := foldr (fun e acc => to_string e +:+ nl +:+ acc) "" es.

Definition line_size (e : JournalEntry) : Z := Z.of_nat (String.length (to_string e)) + 1.

Definition lines_size (es : list JournalEntry) : Z := foldr (fun e acc => line_size e + acc)%Z 0%Z es.

Lemma line_size_pos e : (0 < line_size e)%Z.
Proof. unfold line_size. lia. Qed.

Lemma lines_size_app a b : lines_size (a ++ b) = (lines_size a + lines_size b)%Z.
Proof. unfold lines_size. induction a as [|e a IH]; simpl; [done|]. rewrite IH. lia. Qed.

Lemma lines_size_nonneg es : (0 <= lines_size es)%Z.
Proof. unfold lines_size. induction es as [|e es IH]; simpl; [done|]. pose proof (line_size_pos e). lia. Qed.

Lemma encode_app a b : encode (a ++ b) = encode a +:+ encode b.
Proof. unfold encode. induction a as [|e a IH]; [done|]. cbn [foldr app]. by rewrite IH, !app_str_assoc. Qed.

Lemma encode_length es : Z.of_nat (String.length (encode es)) = lines_size es.
Proof.
  unfold encode, lines_size. induction es as [|e es IH]; [done|]. cbn [foldr]. rewrite !str_length_app. unfold line_size in *.
  change (String.length nl) with 1. lia.
Qed.

Lemma encode_utf8 es : valid_utf8 (encode es).
Proof.
  unfold encode. induction es as [|e es IH]; [done|]. cbn [foldr]. apply valid_utf8_app; [apply lf_utf8|].
  by apply (valid_utf8_app nl).
Qed.

Lemma split_encode es : split newline (encode es) = (to_string <$> es) ++ [""].
Proof.
  unfold encode. induction es as [|e es IH]; [done|]. cbn [foldr]. change (nl +:+ ?s) with (String newline s).
  rewrite split_app by apply lf_one_line. by rewrite IH.
Qed.

Lemma replay_encode es : replay_file (Some (encode es)) = es.
Proof.
  unfold Journal.replay_file. rewrite decide_True by apply encode_utf8. unfold lines. rewrite split_encode.
  rewrite last_snoc, bool_decide_true by done. rewrite removelast_last.
  induction es as [|e es IH]; [done|]. cbn [fmap list_fmap omap list_omap].
  destruct (lf_object e) as [body Hb]. rewrite Hb, strip_cr_braced. cbn [default]. rewrite trim_braced.
  case_bool_decide; [done|]. rewrite <- Hb, lf_roundtrip. by f_equal.
Qed.

(** ** What survives *)

(** The journal holds the entries [kept] of everything recorded: the rolled
    generation [r] then the active one [a]; whatever was dropped before them is
    covered by a rolled generation of at least [MAX_BYTES]. *)
Record holds (j : DecisionJournal) (all r a : list JournalEntry) (cap : Z) : Prop := {
  ho_on : is_enabled j = true;
  ho_active : dj_volume j = mkVolume (Some (encode a)) (match r with [] => None | _ => Some (encode r) end);
  ho_all : exists dropped, all = dropped ++ r ++ a /\ (dropped = [] \/ (MAX_BYTES <= lines_size r)%Z);
  ho_size : (lines_size a < MAX_BYTES + cap)%Z /\ (lines_size r < MAX_BYTES + cap)%Z
}.

Lemma append_holds j all r a cap e :
  holds j all r a cap -> (line_size e <= cap)%Z ->
  exists r' a', holds (journal_append j e IoOk) (all ++ [e]) r' a' cap.
Proof.
  intros [Hon Hv (dropped & Hall & Hd) [Hsa Hsr]] Hcap. unfold is_enabled in Hon. bools.
  assert (encode [e] = to_string e +:+ nl) as He by (unfold encode; simpl; done).
  pose proof (line_size_pos e) as Hpos.
  unfold Journal.journal_append, try_append, rotate_if_needed. rewrite H, H0, Hv. cbn [negb orb vol_active vol_rolled].
  rewrite encode_length. destruct (Z.leb_spec MAX_BYTES (lines_size a)) as [Hbig|Hsmall].
  - exists a, [e]. assert (a <> []) as Ha by (intros ->; vm_compute in Hbig; done). split; [done|..].
    + cbn [dj_volume vol_active vol_rolled]. rewrite He. by destruct a.
    + exists (dropped ++ r). rewrite Hall, !app_assoc. split; [done|]. by right.
    + simpl. unfold MAX_BYTES in *. lia.
  - exists r, (a ++ [e]). split; [done|..].
    + cbn [dj_volume vol_active vol_rolled default]. by rewrite encode_app, He.
    + exists dropped. rewrite Hall, <- !app_assoc. done.
    + rewrite lines_size_app. simpl. lia.
Qed.

Lemma record_all_holds es : forall j all r a cap,
  holds j all r a cap -> (forall e, e ∈ es -> (line_size e <= cap)%Z) ->
  exists r' a', holds (record_all j ((fun e => (e, IoOk)) <$> es)) (all ++ es) r' a' cap.
Proof.
  induction es as [|e es IH]; intros j all r a cap Hh Hc; simpl.
  - exists r, a. by rewrite app_nil_r.
  - destruct (append_holds _ _ _ _ _ e Hh ltac:(apply Hc; left)) as (r' & a' & Hh').
    destruct (IH _ _ _ _ _ Hh' ltac:(intros x Hx; apply Hc; by right)) as (r2 & a2 & H2).
    exists r2, a2. by rewrite <- app_assoc in H2.
Qed.

Lemma replay_holds j all r a cap : holds j all r a cap -> replay j = r ++ a.
Proof.
  intros [Hon Hv _ _]. unfold is_enabled in Hon. bools. unfold Journal.replay. rewrite H, Hv. cbn [vol_rolled vol_active].
  rewrite replay_encode. f_equal. destruct r as [|e r]; [done|]. apply replay_encode.
Qed.

Lemma holds_recent j old recent r a cap :
  holds j (old ++ recent) r a cap -> (lines_size recent <= MAX_BYTES)%Z ->
  exists kept, replay j = kept ++ recent /\ kept `suffix_of` old.
Proof.
  intros Hh Hs. rewrite (replay_holds _ _ _ _ _ Hh). destruct Hh as [_ _ (dropped & Hall & Hd) _].
  apply app_eq_inv in Hall as [(m & -> & Hm)|(m & -> & Hm)].
  - exists m. split; [done|]. by exists dropped.
  - destruct m as [|e m]; [exists []; split; [by rewrite Hm|by exists old; rewrite !app_nil_r]|]. exfalso.
    destruct Hd as [Hd|Hd]; [by destruct old|]. rewrite Hm, !lines_size_app in Hs.
    pose proof (lines_size_nonneg a). pose proof (line_size_pos e). pose proof (lines_size_nonneg m).
    unfold lines_size in Hs at 1. cbn [foldr] in Hs. fold (lines_size m) in Hs. lia.
Qed.

Definition empty_volume : Volume := mkVolume None None.

Lemma open_holds cap : (0 < cap)%Z -> holds (journal_open empty_volume true) [] [] [] cap.
Proof. intros Hc. split; [done|done|by exists []; auto|]. simpl. unfold MAX_BYTES in *. lia. Qed.

(** Nothing recent is ever lost to rotation, and the disk stays bounded.
    After any number of appends to a fresh journal the replay is what was
    recorded, in order, from some point on, and that point leaves at least the
    last [MAX_BYTES] of lines; each of the two files stays under [MAX_BYTES]
    and one line. *)
Theorem journal_retains old recent cap :
  (forall e, e ∈ old ++ recent -> (line_size e <= cap)%Z) -> (0 < cap)%Z -> (lines_size recent <= MAX_BYTES)%Z ->
  let j := record_all (journal_open empty_volume true) ((fun e => (e, IoOk)) <$> old ++ recent) in
  (exists kept, replay j = kept ++ recent /\ kept `suffix_of` old) /\
  (file_size (vol_active (dj_volume j)) < MAX_BYTES + cap)%Z /\
  (file_size (vol_rolled (dj_volume j)) < MAX_BYTES + cap)%Z.
Proof.
  intros Hc Hcap Hs j. destruct (record_all_holds _ _ _ _ _ _ (open_holds cap Hcap) Hc) as (r & a & Hh). fold j in Hh.
  split; [by eapply holds_recent|]. destruct Hh as [_ Hv _ [Ha Hr]]. rewrite Hv. cbn [vol_active vol_rolled file_size].
  rewrite encode_length. split; [done|]. destruct r; cbn [file_size]; [unfold MAX_BYTES; lia|]. by rewrite encode_length.
Qed.

(** ** A torn write *)

Lemma utf8_no_brace lo hi k : (128 <= lo)%N -> utf8_step (Continue lo hi k) (Ascii.ascii_of_nat 123) = None.
Proof.
  intros Hlo. unfold utf8_step. change (Ascii.N_of_ascii (Ascii.ascii_of_nat 123)) with 123%N. cbv zeta beta.
  destruct (N.leb_spec lo 123); [lia|done].
Qed.

Lemma utf8_continue s : forall st, (forall lo hi k, st = Continue lo hi k -> 128 <= lo)%N ->
  forall lo hi k, utf8_run st s = Some (Continue lo hi k) -> (128 <= lo)%N.
Proof.
  induction s as [|x s IH]; intros st Hst lo' hi' k' Hrun; simpl in Hrun; [injection Hrun as ->; by eapply Hst|].
  destruct (utf8_step st x) as [st'|] eqn:Es; [|done]. eapply IH; [|exact Hrun]. intros lo2 hi2 k2 ->.
  unfold utf8_step in Es. destruct st as [|l1 h1 k1]; crush; lia.
Qed.

Lemma str_take_prefix n s : exists r, s = str_take n s +:+ r.
Proof.
  revert n. induction s as [|x s IH]; intros [|n]; simpl; eauto. destruct (IH n) as [r Hr]. exists r. by rewrite <- Hr.
Qed.

Lemma omap_lines (es : list JournalEntry) : omap from_str (to_string <$> es) = es.
Proof. induction es as [|e es IH]; [done|]. cbn. rewrite lf_roundtrip. by f_equal. Qed.

Lemma replay_lines (ls : list string) :
  (forall l, l ∈ ls -> no_char newline l = true /\ exists body, l = "{" +:+ body +:+ "}") ->
  valid_utf8 (foldr (fun l acc => l +:+ nl +:+ acc) "" ls) ->
  replay_file (Some (foldr (fun l acc => l +:+ nl +:+ acc) "" ls)) = omap from_str ls.
Proof.
  intros Hl Hv. unfold Journal.replay_file. rewrite decide_True by done. unfold lines.
  assert (split newline (foldr (fun l acc => l +:+ nl +:+ acc) "" ls) = ls ++ [""]) as ->.
  { clear Hv. induction ls as [|l ls IH]; [done|]. cbn [foldr]. change (nl +:+ ?s) with (String newline s).
    rewrite split_app by (apply Hl; left). by rewrite IH by (intros l' Hl'; apply Hl; by right). }
  rewrite last_snoc, bool_decide_true by done. rewrite removelast_last. clear Hv.
  induction ls as [|l ls IH]; [done|]. cbn [fmap list_fmap omap list_omap].
  destruct (Hl l ltac:(left)) as (_ & body & ->). rewrite strip_cr_braced. cbn [default]. rewrite trim_braced.
  case_bool_decide; [done|]. rewrite IH by (intros l' Hl'; apply Hl; by right). done.
Qed.

(** C39: What a crash in the middle of a line costs. Cut between characters, the
    torn text is glued to the first line written after the restart, so that
    line is replayed only if the glued text happens to parse; cut inside a
    character, nothing of that file, before or after, is replayed. *)
Theorem torn_append a e0 n e es :
  let torn := str_take (S n) (to_string e0) in
  let contents := encode a +:+ torn +:+ encode (e :: es) in
  (valid_utf8 torn -> replay_file (Some contents) = a ++ option_list (from_str (torn +:+ to_string e)) ++ es) /\
  (~ valid_utf8 torn -> replay_file (Some contents) = []).
Proof.
  intros torn contents. destruct (lf_object e0) as [b0 Hb0].
  assert (exists t, torn = "{" +:+ t) as [t Ht] by (unfold torn; rewrite Hb0; simpl; eauto).
  destruct (str_take_prefix (S n) (to_string e0)) as [r Hr]. fold torn in Hr.
  split; intros Hv.
  - assert (contents = foldr (fun l acc => l +:+ nl +:+ acc) "" ((to_string <$> a) ++ [torn +:+ to_string e] ++ (to_string <$> es))) as Hc.
    { unfold contents, encode. rewrite !foldr_app, !foldr_fmap. cbn [foldr].
      clear. induction a as [|x a IH]; cbn [foldr]; rewrite ?app_str_assoc; [done|].
      rewrite !app_str_assoc in *. by rewrite IH. }
    rewrite Hc, replay_lines.
    + rewrite !omap_app. f_equal; [|f_equal].
      * apply omap_lines.
      * apply omap_lines.
    + intros l Hl. rewrite !elem_of_app, list_elem_of_singleton, !list_elem_of_fmap in Hl.
      destruct Hl as [(x & -> & _)|[->|(x & -> & _)]]; [split; [apply lf_one_line|apply lf_object]|..|split; [apply lf_one_line|apply lf_object]].
      pose proof (lf_one_line e0) as Hn. rewrite Hr, no_char_app in Hn. bools. split; [by rewrite no_char_app, H, lf_one_line|].
      destruct (lf_object e) as [b Hb]. exists (t +:+ "{" +:+ b). by rewrite Ht, Hb, !app_str_assoc.
    + rewrite <- Hc. unfold contents. apply valid_utf8_app; [apply encode_utf8|]. apply valid_utf8_app; [done|apply encode_utf8].
  - unfold Journal.replay_file. rewrite decide_False; [done|]. unfold contents, valid_utf8 in *.
    rewrite utf8_run_app. rewrite (encode_utf8 a). simpl. rewrite utf8_run_app.
    pose proof (lf_utf8 e0) as Hu. unfold valid_utf8 in Hu. rewrite Hr, utf8_run_app in Hu.
    destruct (utf8_run AtChar torn) as [[|lo hi k]|] eqn:E; [done| |done]. simpl.
    assert (128 <= lo)%N as Hlo by (by eapply utf8_continue; [|exact E]).
    unfold encode. cbn [foldr]. destruct (lf_object e) as [b ->].
    change (("{" +:+ ?x) +:+ ?y) with (String (Ascii.ascii_of_nat 123) (x +:+ y)). cbn [utf8_run]. by rewrite utf8_no_brace.
Qed.

(** A journal that failed once writes nothing more, and one without a
    writable volume neither writes nor replays: the engine runs in memory. *)
Theorem journal_fails_quiet j v es e io :
  dj_path j = true -> (io = IoNoOpen \/ exists n, io = IoTorn n) ->
  is_enabled (journal_append j e io) = false /\
  record_all (journal_append j e io) es = journal_append j e io /\
  replay (record_all (journal_open v false) es) = [].
Proof.
  intros Hp Hio. assert (forall j es, is_enabled j = false -> record_all j es = j) as Hoff.
  { intros j0 es0 Hd. induction es0 as [|x es0 IH]; [done|].
    change (record_all j0 (x :: es0)) with (record_all (journal_append j0 x.1 x.2) es0).
    replace (journal_append j0 x.1 x.2) with j0; [done|]. unfold Journal.journal_append, is_enabled in *.
    by destruct (dj_path j0), (dj_disabled j0). }
  assert (is_enabled (journal_append j e io) = false) as Hd.
  { unfold Journal.journal_append. rewrite Hp. simpl. destruct (dj_disabled j) eqn:E.
    - unfold is_enabled. by rewrite E, andb_false_r.
    - unfold try_append. destruct (rotate_if_needed _ io); [|done]. by destruct Hio as [->|[n ->]]. }
  split; [done|]. split; [by apply Hoff|]. by rewrite Hoff.
Qed.
End Retention.

(** ** A codec that meets the contract

    Any entry as a binary numeral behind a two-byte character, in braces. *)
Module BitCodec.

Definition verdict_code (v : Verdict) : nat * string :=
  match v with Confirmed => (0, "") | Exploitable w => (1, w) | Refuted w => (2, w) | Uncertain w => (3, w) end.
Definition verdict_decode (c : nat * string) : Verdict :=
  match c with (0, _) => Confirmed | (1, w) => Exploitable w | (2, w) => Refuted w | (_, w) => Uncertain w end.
Definition assessment_code (a : Assessment) : nat := match a with AAttack => 0 | ANoAttack => 1 | AUncertain => 2 end.
Definition assessment_decode (n : nat) : Assessment := match n with 0 => AAttack | 1 => ANoAttack | _ => AUncertain end.
Definition class_code (c : DivergenceClass) : nat := match c with Agree => 0 | ModelOverCut => 1 | ModelUnderCut => 2 | Mixed => 3 end.
Definition class_decode (n : nat) : DivergenceClass :=
  match n with 0 => Agree | 1 => ModelOverCut | 2 => ModelUnderCut | _ => Mixed end.
Definition rank_decode (n : nat) : PostureRank :=
  match n with 0 => Unsigned | 1 => Unverifiable | 2 => KeyBased | _ => Keyless end.

(** A tag and tuples of strings, numbers and flags. *)
Definition shape : Type :=
  nat * list string * list Z * list bool * list (list string) * option (list string * bool) * option string * option (nat * string).

Definition code (e : JournalEntry) : shape :=
  let mk tag strs nums flags lists := (tag, strs, je_at_ms e :: nums, flags, lists, None, None, None) : shape in
  match je_decision e with
  | JBreach entry objectives verdict coverage fingerprint typed =>
      (0, [entry; verdict], [je_at_ms e; Z.of_nat objectives], [], [],
       (fun c => (ec_cves c, ec_behavioral c)) <$> coverage, fingerprint, verdict_code <$> typed)
  | JIncident entry objectives a reason cuts fp =>
      mk 1 [entry; reason; fp] [Z.of_nat objectives; Z.of_nat (assessment_code a)] [] [jc_node <$> cuts; jc_cut_signature <$> cuts]
  | JCutDivergence entry class m d => mk 2 [entry] [Z.of_nat (class_code class)] [] [m; d]
  | JApply cut => mk 3 [cut] [] [] []
  | JRevert cut reason => mk 4 [cut; reason] [] [] []
  | JAdmission r =>
      mk 5 [pd_policy r; pd_decision r; pd_subject r; pd_image r; pd_signature r; pd_mesh r; pd_namespace r; pd_reason r]
        [pd_count r; pd_at_ms r] [pd_would_admit r] []
  | JSigningBaseline repo ids iss first est corr rank srcs bs =>
      mk 6 [repo] [first; Z.of_nat (rank_index rank)] [est; corr] [ids; iss; srcs; bs]
  end.

Definition decode (s : shape) : option JournalEntry :=
  match s with
  | (0, [entry; verdict], [at_ms; o], [], [], cov, fp, typed) =>
      Some (mkJEntry at_ms (JBreach entry (Z.to_nat o) verdict ((fun c => mkCoverage c.1 c.2) <$> cov) fp (verdict_decode <$> typed)))
  | (1, [entry; reason; fp], [at_ms; o; a], [], [ns; ss], _, _, _) =>
      Some (mkJEntry at_ms (JIncident entry (Z.to_nat o) (assessment_decode (Z.to_nat a)) reason (zip_with mkJournaledCut ns ss) fp))
  | (2, [entry], [at_ms; c], [], [m; d], _, _, _) => Some (mkJEntry at_ms (JCutDivergence entry (class_decode (Z.to_nat c)) m d))
  | (3, [cut], [at_ms], [], [], _, _, _) => Some (mkJEntry at_ms (JApply cut))
  | (4, [cut; reason], [at_ms], [], [], _, _, _) => Some (mkJEntry at_ms (JRevert cut reason))
  | (5, [p; d; s; i; sg; m; ns; r], [at_ms; count; t], [w], [], _, _, _) =>
      Some (mkJEntry at_ms (JAdmission (mkDecision p d s i sg m ns r w count t)))
  | (6, [repo], [at_ms; first; rank], [est; corr], [ids; iss; srcs; bs], _, _, _) =>
      Some (mkJEntry at_ms (JSigningBaseline repo ids iss first est corr (rank_decode (Z.to_nat rank)) srcs bs))
  | _ => None
  end.

Lemma cuts_zip cuts : zip_with mkJournaledCut (jc_node <$> cuts) (jc_cut_signature <$> cuts) = cuts.
Proof. induction cuts as [|[] cuts IH]; [done|]. cbn. by f_equal. Qed.

Lemma decode_code e : decode (code e) = Some e.
Proof.
  destruct e as [t d]. destruct d; simpl; rewrite ?Nat2Z.id; try done.
  - do 2 f_equal. f_equal; [by destruct coverage as [[]|]|by destruct verdict_typed as [[]|]].
  - do 2 f_equal. f_equal; [by destruct assessment|apply cuts_zip].
  - do 2 f_equal. by destruct class.
  - by destruct record.
  - do 2 f_equal. by destruct rank.
Qed.

Fixpoint bits (p : positive) : string :=
  match p with xH => "" | xO p => String (Ascii.ascii_of_nat 48) (bits p) | xI p => String (Ascii.ascii_of_nat 49) (bits p) end.

(** Read the numeral up to the closing brace. *)
Fixpoint unbits (s : string) : option positive :=
  match s with
  | EmptyString => None
  | String c s =>
      if Ascii.eqb c (Ascii.ascii_of_nat 125) then (if bool_decide (s = "") then Some xH else None)
      else if Ascii.eqb c (Ascii.ascii_of_nat 48) then xO <$> unbits s
      else if Ascii.eqb c (Ascii.ascii_of_nat 49) then xI <$> unbits s
      else None
  end.

Definition prefix : string := String (Ascii.ascii_of_nat 123) (String (Ascii.ascii_of_nat 195) (String (Ascii.ascii_of_nat 169) "")).

Definition to_string (e : JournalEntry) : string := prefix +:+ bits (countable.encode (code e)) +:+ "}".

Definition from_str (s : string) : option JournalEntry :=
  s ← strip_prefix prefix s; p ← unbits s; c ← countable.decode p; decode c.

Lemma unbits_bits p : unbits (bits p +:+ "}") = Some p.
Proof. induction p as [p IH|p IH|]; simpl; rewrite ?IH; done. Qed.

Lemma bits_plain p : no_char newline (bits p) = true /\ valid_utf8 (bits p).
Proof. unfold valid_utf8. induction p as [p [IH1 IH2]|p [IH1 IH2]|]; simpl; auto. Qed.

#[global] Instance bit_format : LineFormat to_string from_str.
Proof.
  split; intros e; unfold from_str, to_string; generalize (decode_code e); generalize (code e); intros c Hc.
  - rewrite (proj2 (strip_prefix_app _ _ _) eq_refl). cbn [mbind option_bind].
    rewrite unbits_bits. cbn [mbind option_bind]. rewrite countable.decode_encode. exact Hc.
  - generalize (countable.encode c). intros p. exists (String (Ascii.ascii_of_nat 195) (String (Ascii.ascii_of_nat 169) (bits p))). reflexivity.
  - rewrite !no_char_app. destruct (bits_plain (countable.encode c)) as [-> _]. reflexivity.
  - apply valid_utf8_app; [vm_compute; done|]. apply valid_utf8_app; [apply bits_plain|vm_compute; done].
Qed.
End BitCodec.

Definition applied (cut : string) : JournalEntry := mkJEntry 1 (JApply cut).

Lemma journal_retains_witness :
  let es := [applied "a"; applied "b"] in
  let j := record_all BitCodec.to_string (journal_open empty_volume true) ((fun e => (e, IoOk)) <$> es) in
  exists kept, replay BitCodec.from_str j = kept ++ [applied "b"] /\ kept `suffix_of` [applied "a"].
Proof.
  intros es j. destruct (journal_retains BitCodec.to_string BitCodec.from_str [applied "a"] [applied "b"] 100000) as [H _].
  - intros e He. simpl in He. repeat (apply elem_of_cons in He as [->|He]; [vm_compute; done|]). by apply not_elem_of_nil in He.
  - lia.
  - vm_compute. done.
  - exact H.
Defined.

Lemma torn_append_witness :
  replay_file BitCodec.from_str
    (Some (encode BitCodec.to_string [applied "a"] +:+ str_take 2 (BitCodec.to_string (applied "b")) +:+
           encode BitCodec.to_string [applied "c"])) = [].
Proof.
  apply (torn_append BitCodec.to_string BitCodec.from_str [applied "a"] (applied "b") 1 (applied "c") []).
  vm_compute. done.
Defined.

Lemma journal_fails_quiet_witness :
  is_enabled (journal_append BitCodec.to_string (journal_open empty_volume true) (applied "a") (IoTorn 3)) = false.
Proof.
  apply (journal_fails_quiet BitCodec.to_string BitCodec.from_str (journal_open empty_volume true) empty_volume [] (applied "a")
    (IoTorn 3) eq_refl). right. by exists 3.
Defined.

(** With this codec, one torn write loses the lines written before and after it. *)
Lemma torn_write_loses_file :
  let j := record_all BitCodec.to_string (journal_open empty_volume true) [(applied "a", IoOk); (applied "b", IoTorn 2)] in
  let j := record_all BitCodec.to_string (journal_open (dj_volume j) true) [(applied "c", IoOk); (applied "d", IoOk)] in
  replay BitCodec.from_str j = [].
Proof. vm_compute. reflexivity. Qed.
