(* ===== verification/SigningBaseline.v ===== *)
(** * The signing baseline: trust on first use, per repository

    engine/src/engine/state/signing_baseline.rs. Times are 64-bit milliseconds.
    A [HashMap] is iterated in an arbitrary order: [iter] is any enumeration of
    the map. *)

From S2P Require Import Prelude Text Json ImageRef Posture PolicyLog Journal.

Definition ESTABLISH_AGE_MS : Z := 24 * 60 * 60 * 1000.
Definition DEFAULT_MAX_REPOS : nat := Z.to_nat 4096.

Record SigningBaseline := mkSB {
  sb_identities : gset string;
  sb_issuers : gset string;
  sb_first_seen_ms : Z;
  sb_established : bool;
  sb_log_corroborated : bool;
  sb_rank : PostureRank;
  sb_provenance_sources : gset string;
  sb_provenance_builders : gset string;
  sb_last_updated_ms : Z
}.

#[global] Instance SigningBaseline_eq_dec : EqDecision SigningBaseline.
Proof. solve_decision. Defined.

Definition has_provenance (b : SigningBaseline) : bool :=
  negb (bool_decide (sb_provenance_builders b = ∅)) || negb (bool_decide (sb_provenance_sources b = ∅)).

Definition to_decision (b : SigningBaseline) (repo : string) : JDecision :=
  JSigningBaseline repo (bset_iter (sb_identities b)) (bset_iter (sb_issuers b)) (sb_first_seen_ms b)
    (sb_established b) (sb_log_corroborated b) (sb_rank b)
    (bset_iter (sb_provenance_sources b)) (bset_iter (sb_provenance_builders b)).

Record SigningBaselineStore := mkSBStore { st_baselines : gmap string SigningBaseline; st_max_repos : nat }.

Definition with_capacity (max_repos : nat) : SigningBaselineStore := mkSBStore ∅ (Nat.max max_repos 1).

Definition store_new : SigningBaselineStore := with_capacity DEFAULT_MAX_REPOS.

Definition store_get (s : SigningBaselineStore) (repo : string) : option SigningBaseline := st_baselines s !! repo.

(** [u64::saturating_sub] and the age test. *)
Definition saturating_sub (a b : Z) : Z := Z.max 0 (a - b).

Definition aged (first_seen_ms now_ms : Z) : bool := (ESTABLISH_AGE_MS <=? saturating_sub now_ms first_seen_ms)%Z.

(** [BTreeSet::insert]: the set, and whether it grew. *)
Definition set_insert (x : string) (s : gset string) : gset string * bool := ({[x]} ∪ s, negb (bool_decide (x ∈ s))).

(** [Iterator::min_by_key]: the first least element. *)
Fixpoint min_by_key {A} (key : A -> Z) (l : list A) : option A :=
  match l with
  | [] => None
  | x :: l' => match min_by_key key l' with
               | Some y => Some (if (key x <=? key y)%Z then x else y)
               | None => Some x
               end
  end.

Section Store.
Variable iter : gmap string SigningBaseline -> list (string * SigningBaseline).

Definition evict_if_full (s : SigningBaselineStore) : SigningBaselineStore :=
  let all := iter (st_baselines s) in
  if size (st_baselines s) <? st_max_repos s then s
  else
    let oldest l := fst <$> min_by_key (fun kb => sb_last_updated_ms kb.2) l in
    let victim := or_else (oldest (List.filter (fun kb => negb (sb_established kb.2)) all)) (oldest all) in
    match victim with
    | Some v => mkSBStore (delete v (st_baselines s)) (st_max_repos s)
    | None => s
    end.

(** The baseline after one more signed observation, and whether it changed. *)
Definition reobserve (e : SigningBaseline) (signer : Signer) (posture : SigningPosture) (now_ms : Z) : SigningBaseline * bool :=
  let '(identities, c1) := set_insert (signer_canonical_identity signer) (sb_identities e) in
  let '(issuers, c2) := match sg_issuer signer with
                        | Some issuer => set_insert issuer (sb_issuers e) | None => (sb_issuers e, false) end in
  let established := sb_established e || aged (sb_first_seen_ms e) now_ms in
  let c3 := negb (Bool.eqb established (sb_established e)) in
  let '(rank, c4) := match posture_rank posture with
                     | Some r => if rank_ltb (sb_rank e) r then (r, true) else (sb_rank e, false)
                     | None => (sb_rank e, false) end in
  (mkSB identities issuers (sb_first_seen_ms e) established (sb_log_corroborated e) rank
     (sb_provenance_sources e) (sb_provenance_builders e) now_ms, c1 || c2 || c3 || c4).

Definition first_observed (signer : Signer) (posture : SigningPosture) (now_ms : Z) : SigningBaseline :=
  mkSB {[signer_canonical_identity signer]} (match sg_issuer signer with Some i => {[i]} | None => ∅ end) now_ms
    false false (default rank_default (posture_rank posture)) ∅ ∅ now_ms.

(** The store and the repository to persist. *)
Definition observe (s : SigningBaselineStore) (image : string) (posture : SigningPosture) (now_ms : Z) :
    SigningBaselineStore * option string :=
  match posture_signer posture with
  | None => (s, None)
  | Some signer =>
      let repo := repo_key image in
      match st_baselines s !! repo with
      | Some e =>
          let '(b, changed) := reobserve e signer posture now_ms in
          (mkSBStore (<[repo := b]> (st_baselines s)) (st_max_repos s), if changed then Some repo else None)
      | None =>
          let s := evict_if_full s in
          (mkSBStore (<[repo := first_observed signer posture now_ms]> (st_baselines s)) (st_max_repos s), Some repo)
      end
  end.

Definition observe_provenance (s : SigningBaselineStore) (image : string) (posture : ProvenancePosture) (now_ms : Z) :
    SigningBaselineStore * option string :=
  match provenance_of posture with
  | None => (s, None)
  | Some p =>
      let repo := repo_key image in
      match st_baselines s !! repo with
      | None => (s, None)
      | Some e =>
          let '(sources, c1) := if nonempty (pv_source_repo p) then set_insert (pv_source_repo p) (sb_provenance_sources e)
                                else (sb_provenance_sources e, false) in
          let '(builders, c2) := if nonempty (pv_builder p) then set_insert (pv_builder p) (sb_provenance_builders e)
                                 else (sb_provenance_builders e, false) in
          if c1 || c2 then
            let b := mkSB (sb_identities e) (sb_issuers e) (sb_first_seen_ms e) (sb_established e) (sb_log_corroborated e)
                       (sb_rank e) sources builders now_ms in
            (mkSBStore (<[repo := b]> (st_baselines s)) (st_max_repos s), Some repo)
          else (s, None)
      end
  end.

Definition mark_corroborated (s : SigningBaselineStore) (repo : string) : SigningBaselineStore * bool :=
  match st_baselines s !! repo with
  | Some e =>
      if sb_log_corroborated e then (s, false)
      else
        let b := mkSB (sb_identities e) (sb_issuers e) (sb_first_seen_ms e) (sb_established e) true (sb_rank e)
                   (sb_provenance_sources e) (sb_provenance_builders e) (sb_last_updated_ms e) in
        (mkSBStore (<[repo := b]> (st_baselines s)) (st_max_repos s), true)
  | None => (s, false)
  end.

Definition upsert (s : SigningBaselineStore) (b : SigningBaseline) (repo : string) : SigningBaselineStore :=
  let s := match st_baselines s !! repo with Some _ => s | None => evict_if_full s end in
  mkSBStore (<[repo := b]> (st_baselines s)) (st_max_repos s).

(** ** The journal side *)

Section Codec.
Variables (to_string : JournalEntry -> string) (from_str : string -> option JournalEntry).

(** The clock and the file system, read once per line. *)
Definition persist (s : SigningBaselineStore) (j : DecisionJournal) (repo : string) (at_ms : Z) (io : Io) : DecisionJournal :=
  match st_baselines s !! repo with
  | Some b => journal_append to_string j (mkJEntry at_ms (to_decision b repo)) io
  | None => j
  end.

Definition compact_lines (s : SigningBaselineStore) : list JDecision :=
  (fun kb => to_decision kb.2 kb.1) <$> iter (st_baselines s).

Definition compact (s : SigningBaselineStore) (j : DecisionJournal) (tape : nat -> Z * Io) : DecisionJournal :=
  if bool_decide (st_baselines s = ∅) || negb (is_enabled j) then j
  else record_all to_string j (imap (fun n d => (mkJEntry (tape n).1 d, (tape n).2)) (compact_lines s)).

Definition restore_entry (s : SigningBaselineStore) (entry : JournalEntry) : SigningBaselineStore :=
  match je_decision entry with
  | JSigningBaseline repo identities issuers first_seen_ms established log_corroborated rank sources builders =>
      if bool_decide (repo = "") then s
      else upsert s (mkSB (list_to_set identities) (list_to_set issuers) first_seen_ms
                       (established || aged first_seen_ms (je_at_ms entry)) log_corroborated rank
                       (list_to_set sources) (list_to_set builders) (je_at_ms entry)) repo
  | _ => s
  end.

Definition restore (s : SigningBaselineStore) (j : DecisionJournal) : SigningBaselineStore :=
  foldl restore_entry s (replay from_str j).
End Codec.
End Store.

(** The snapshot the webhook reads; a poisoned lock reads as nothing. *)
Definition shared_publish (shared : option SigningBaselineStore) (s : SigningBaselineStore) : option SigningBaselineStore :=
  match shared with Some _ => Some s | None => None end.

Definition shared_get (shared : option SigningBaselineStore) (repo : string) : option SigningBaseline :=
  shared ≫= fun s => store_get s repo.

(** ** Lemmas *)

Lemma min_by_key_spec {A} (key : A -> Z) l x :
  min_by_key key l = Some x -> x ∈ l /\ forall y, y ∈ l -> (key x <= key y)%Z.
Proof.
  revert x. induction l as [|a l IH]; simpl; [done|]. intros x. destruct (min_by_key key l) as [b|] eqn:E.
  - destruct (IH b eq_refl) as [Hb Hle]. destruct (Z.leb_spec (key a) (key b)); intros [= <-].
    + split; [left|]. intros y [->|Hy]%elem_of_cons; [lia|]. specialize (Hle y Hy). lia.
    + split; [by right|]. intros y [->|Hy]%elem_of_cons; [lia|auto].
  - intros [= <-]. destruct l as [|b l]; [|simpl in E; by destruct (min_by_key key l)].
    split; [left|]. by intros y ->%list_elem_of_singleton.
Qed.

Lemma min_by_key_none {A} (key : A -> Z) l : min_by_key key l = None -> l = [].
Proof. destruct l as [|a l]; [done|]. simpl. by destruct (min_by_key key l). Qed.

Lemma rank_ltb_keyless r : rank_ltb Keyless r = false.
Proof. by destruct r. Qed.

(** A baseline as its journal line gives it back at [at_ms]. *)
Definition restored (b : SigningBaseline) (at_ms : Z) : SigningBaseline :=
  mkSB (sb_identities b) (sb_issuers b) (sb_first_seen_ms b) (sb_established b || aged (sb_first_seen_ms b) at_ms)
    (sb_log_corroborated b) (sb_rank b) (sb_provenance_sources b) (sb_provenance_builders b) at_ms.

Lemma list_to_set_bset (s : gset string) : list_to_set (bset_iter s) = s.
Proof. apply set_eq. intros x. by rewrite elem_of_list_to_set, bset_iter_elem. Qed.

(** ** What a baseline always is *)

(** What a journal line says a repository's signers were. *)
Definition line_identities (e : JournalEntry) : list string :=
  match je_decision e with JSigningBaseline _ identities _ _ _ _ _ _ _ => identities | _ => [] end.

(** The repository a journal line speaks of. *)
Definition line_repo (e : JournalEntry) : option string :=
  match je_decision e with JSigningBaseline repo _ _ _ _ _ _ _ _ => Some repo | _ => None end.

(** A full-state line of an engine that did not yet collapse release tags:
    learned from keyless signers under their raw identities, one per release,
    and otherwise as the lines of this engine are. *)
Definition raw_line (e : JournalEntry) : Prop :=
  match je_decision e with
  | JSigningBaseline _ identities _ first_seen_ms established _ rank _ _ =>
      identities <> [] /\ rank = Keyless /\ (first_seen_ms <= je_at_ms e)%Z /\
      (established = true -> (first_seen_ms + ESTABLISH_AGE_MS <= je_at_ms e)%Z)
  | _ => False
  end.

Section Baselines.
(** The lines older engines left in the journal. *)
Context (older : JournalEntry -> Prop).

(** Learned from keyless signers only; every identity in canonical form, or
    left raw by an older line of the repository; and established only once a
    day has passed since it was first seen. *)
Record baseline_ok (now_ms : Z) (repo : string) (b : SigningBaseline) : Prop := {
  bo_signed : sb_identities b <> ∅;
  bo_canonical : forall i, i ∈ sb_identities b ->
    canonical_identity i = i \/ exists e, older e /\ line_repo e = Some repo /\ i ∈ line_identities e;
  bo_rank : sb_rank b = Keyless;
  bo_seen : (sb_first_seen_ms b <= now_ms)%Z;
  bo_mature : sb_established b = true -> (sb_first_seen_ms b + ESTABLISH_AGE_MS <= now_ms)%Z
}.

Record store_ok (now_ms : Z) (s : SigningBaselineStore) : Prop := {
  so_cap : 0 < st_max_repos s;
  so_bound : size (st_baselines s) <= st_max_repos s;
  so_entries : forall repo b, st_baselines s !! repo = Some b -> baseline_ok now_ms repo b
}.
End Baselines.

(** What an update may do to a baseline it keeps. *)
Record grows (b b' : SigningBaseline) : Prop := {
  gr_identities : sb_identities b ⊆ sb_identities b';
  gr_issuers : sb_issuers b ⊆ sb_issuers b';
  gr_first : sb_first_seen_ms b' = sb_first_seen_ms b;
  gr_established : sb_established b = true -> sb_established b' = true;
  gr_corroborated : sb_log_corroborated b = true -> sb_log_corroborated b' = true;
  gr_rank : rank_ltb (sb_rank b') (sb_rank b) = false;
  gr_sources : sb_provenance_sources b ⊆ sb_provenance_sources b';
  gr_builders : sb_provenance_builders b ⊆ sb_provenance_builders b'
}.

Lemma rank_ltb_irrefl r : rank_ltb r r = false.
Proof. by destruct r. Qed.

Lemma baseline_grows_refl b : grows b b.
Proof. split; auto using rank_ltb_irrefl. Qed.

Lemma aged_spec first now : (first <= now)%Z -> aged first now = true <-> (first + ESTABLISH_AGE_MS <= now)%Z.
Proof. unfold aged, saturating_sub. rewrite Z.leb_le. lia. Qed.

Section BaselineFacts.
Context (older : JournalEntry -> Prop).

Lemma baseline_ok_later now now' repo b :
  (now <= now')%Z -> baseline_ok older now repo b -> baseline_ok older now' repo b.
Proof. intros Hn [H1 H2 H3 H4 H5]. split; auto; [lia|]. intros He. specialize (H5 He). lia. Qed.

Lemma store_ok_later now now' s : (now <= now')%Z -> store_ok older now s -> store_ok older now' s.
Proof. intros Hn [H1 H2 H3]. split; auto. intros repo b Hb. eapply baseline_ok_later; eauto. Qed.

Lemma reobserve_ok e signer posture now repo :
  baseline_ok older now repo e -> posture_signer posture = Some signer ->
  baseline_ok older now repo (reobserve e signer posture now).1 /\ grows e (reobserve e signer posture now).1 /\
  signer_canonical_identity signer ∈ sb_identities (reobserve e signer posture now).1.
Proof.
  intros [H1 H2 H3 H4 H5] Hs. unfold reobserve, set_insert.
  destruct posture as [sg| | | | |]; simplify_eq/=. rewrite H3, rank_ltb_keyless.
  destruct (sg_issuer signer) as [i|]; simpl; (split; [|split; [split; simpl; first [done|by intros ->|by rewrite H3|clear; set_solver]|clear; set_solver]]).
  all: split; simpl; auto; [set_solver|intros x; rewrite elem_of_union, elem_of_singleton; intros [->|Hx]; [left; apply canonical_idempotent|auto]|].
  all: rewrite orb_true_iff; intros [He|Ha]; [auto|by apply aged_spec in Ha].
Qed.

Lemma first_observed_ok signer posture now repo :
  posture_signer posture = Some signer ->
  baseline_ok older now repo (first_observed signer posture now) /\ sb_established (first_observed signer posture now) = false.
Proof.
  intros Hs. destruct posture as [sg| | | | |]; simplify_eq/=. split; [|done].
  split; simpl; [set_solver|intros i ->%elem_of_singleton; left; apply canonical_idempotent|done|lia|done].
Qed.

(** A baseline read back from its line, however it was away. *)
Lemma restored_ok t at_ms now repo b :
  (t <= at_ms)%Z -> (at_ms <= now)%Z -> baseline_ok older t repo b -> baseline_ok older now repo (restored b at_ms).
Proof.
  intros Ht Hn [H1 H2 H3 H4 H5]. split; simpl; auto; [lia|]. rewrite orb_true_iff. intros [He|Ha].
  - specialize (H5 He). lia.
  - apply aged_spec in Ha; lia.
Qed.
End BaselineFacts.

Section StoreFacts.
Context (iter : gmap string SigningBaseline -> list (string * SigningBaseline)).
Hypothesis iter_map : forall m, iter m ≡ₚ map_to_list m.
Context (older : JournalEntry -> Prop).
Hypothesis older_raw : forall e, older e -> raw_line e.

Lemma iter_elem m k b : (k, b) ∈ iter m <-> m !! k = Some b.
Proof. rewrite iter_map. apply elem_of_map_to_list. Qed.

(** A full store gives up exactly one entry; an established one only when
    every entry is established, and the longest untouched of the candidates. *)
Lemma evict_spec s :
  0 < st_max_repos s -> size (st_baselines s) <= st_max_repos s ->
  let s' := evict_if_full iter s in
  st_max_repos s' = st_max_repos s /\
  (size (st_baselines s) < st_max_repos s -> s' = s) /\
  (size (st_baselines s) = st_max_repos s -> exists v b,
    st_baselines s !! v = Some b /\ st_baselines s' = delete v (st_baselines s) /\
    (sb_established b = true -> forall k c, st_baselines s !! k = Some c -> sb_established c = true) /\
    (forall k c, st_baselines s !! k = Some c -> sb_established c = true \/ sb_established b = false) /\
    (forall k c, st_baselines s !! k = Some c -> sb_established c = sb_established b ->
      (sb_last_updated_ms b <= sb_last_updated_ms c)%Z)).
Proof.
  intros Hcap Hsz s'. unfold evict_if_full in s'. destruct (Nat.ltb_spec (size (st_baselines s)) (st_max_repos s)) as [Hlt|Hge].
  { subst s'. split; [done|]. split; [done|lia]. }
  assert (exists v b, st_baselines s !! v = Some b /\
    s' = mkSBStore (delete v (st_baselines s)) (st_max_repos s) /\
    (forall k c, st_baselines s !! k = Some c -> sb_established c = true \/ sb_established b = false) /\
    (forall k c, st_baselines s !! k = Some c -> sb_established c = sb_established b ->
      (sb_last_updated_ms b <= sb_last_updated_ms c)%Z)) as (v & b & Hv & -> & Hpref & Hold).
  { subst s'. destruct (min_by_key _ (List.filter _ (iter (st_baselines s)))) as [[v b]|] eqn:E1; simpl.
    - apply min_by_key_spec in E1 as [Hin Hmin]. apply elem_of_filter_b in Hin as [Hcold Hin].
      apply iter_elem in Hin. simpl in Hcold. apply negb_true_iff in Hcold. exists v, b. split; [done|]. split; [done|].
      split; [intros; by right|]. intros k c Hk Hc. apply (Hmin (k, c)). apply elem_of_filter_b.
      split; [simpl; by rewrite Hc, Hcold|by apply iter_elem].
    - apply min_by_key_none in E1. destruct (min_by_key _ (iter (st_baselines s))) as [[v b]|] eqn:E2; simpl.
      + apply min_by_key_spec in E2 as [Hin Hmin]. apply iter_elem in Hin.
        assert (forall k c, st_baselines s !! k = Some c -> sb_established c = true) as Hall.
        { intros k c Hk. destruct (sb_established c) eqn:Ec; [done|].
          assert ((k, c) ∈ List.filter (fun kb => negb (sb_established kb.2)) (iter (st_baselines s))) as Hx
            by (apply elem_of_filter_b; split; [simpl; by rewrite Ec|by apply iter_elem]).
          rewrite E1 in Hx. by apply not_elem_of_nil in Hx. }
        exists v, b. split; [done|]. split; [done|]. split; [intros k c Hk; left; eauto|].
        intros k c Hk _. apply (Hmin (k, c)). by apply iter_elem.
      + apply min_by_key_none in E2. assert (size (st_baselines s) = 0) as Hz.
        { apply map_size_empty_iff, map_eq. intros k. rewrite lookup_empty. destruct (_ !! k) as [c|] eqn:Ek; [|done].
          apply iter_elem in Ek. rewrite E2 in Ek. by apply not_elem_of_nil in Ek. }
        lia. }
  split; [done|]. split; [lia|]. intros _. exists v, b. split; [done|]. split; [done|].
  split; [|split; [done|done]]. intros Hb k c Hk. destruct (Hpref k c Hk); congruence.
Qed.

(** Room for one more, and what is left is as it was. *)
Lemma evict_room s :
  0 < st_max_repos s -> size (st_baselines s) <= st_max_repos s ->
  let s' := evict_if_full iter s in
  st_max_repos s' = st_max_repos s /\ size (st_baselines s') < st_max_repos s /\ st_baselines s' ⊆ st_baselines s.
Proof.
  intros Hcap Hsz s'. destruct (evict_spec s Hcap Hsz) as (Hm & Hno & Hfull). fold s' in Hm, Hno, Hfull.
  split; [done|]. destruct (decide (size (st_baselines s) < st_max_repos s)) as [Hlt|Hge].
  - by rewrite (Hno Hlt).
  - destruct (Hfull ltac:(lia)) as (v & b & Hv & -> & _). rewrite map_size_delete_Some by by exists b.
    split; [lia|apply delete_subseteq].
Qed.

Lemma put_ok now s repo b :
  store_ok older now s -> baseline_ok older now repo b -> is_Some (st_baselines s !! repo) \/ size (st_baselines s) < st_max_repos s ->
  store_ok older now (mkSBStore (<[repo := b]> (st_baselines s)) (st_max_repos s)).
Proof.
  intros [Hc Hb He] Hok Hroom. split; simpl; [done|..].
  - rewrite map_size_insert. destruct (st_baselines s !! repo) eqn:E; simpl; [done|]. destruct Hroom as [[? ?]|]; [done|lia].
  - intros r c. rewrite lookup_insert_Some. intros [[<- <-]|[_ Hr]]; eauto.
Qed.

Lemma evict_ok now s : store_ok older now s -> store_ok older now (evict_if_full iter s).
Proof.
  intros [Hc Hb He]. destruct (evict_room s Hc Hb) as (Hm & Hs & Hsub). split; [by rewrite Hm|rewrite Hm; lia|].
  intros r b Hr. eapply He. by eapply lookup_weaken.
Qed.

Lemma observe_ok now s image posture :
  store_ok older now s -> store_ok older now (observe iter s image posture now).1.
Proof.
  intros Hok. unfold observe. destruct (posture_signer posture) as [signer|] eqn:Es; [|done]. cbv zeta.
  destruct (st_baselines s !! repo_key image) as [e|] eqn:E.
  - destruct (reobserve_ok older e signer posture now _ (so_entries _ _ _ Hok _ _ E) Es) as [Hb _].
    destruct (reobserve e signer posture now) as [b ch]. simpl in *. apply put_ok; [done|done|]. left. by exists e.
  - simpl. pose proof (so_cap _ _ _ Hok). pose proof (so_bound _ _ _ Hok).
    destruct (evict_room s) as (Hm & Hs & _); [done|done|]. apply put_ok; [by apply evict_ok|by apply first_observed_ok|].
    right. by rewrite Hm.
Qed.

(** Provenance and corroboration touch one baseline, which only grows. *)
Lemma observe_provenance_put s image posture now :
  (observe_provenance s image posture now).1 = s \/
  exists e b, st_baselines s !! repo_key image = Some e /\
    (observe_provenance s image posture now).1 = mkSBStore (<[repo_key image := b]> (st_baselines s)) (st_max_repos s) /\
    grows e b /\ sb_identities b = sb_identities e /\ sb_rank b = sb_rank e /\ sb_established b = sb_established e.
Proof.
  unfold observe_provenance. destruct (provenance_of posture) as [p|]; [|by left]. cbv zeta.
  destruct (st_baselines s !! repo_key image) as [e|] eqn:E; [|by left].
  assert (forall (c : bool) x m, let r := if c then set_insert x m else (m, false) in m ⊆ r.1) as Hsub.
  { clear. intros [] x m; simpl; set_solver. }
  destruct (if nonempty (pv_source_repo p) then _ else _) as [sources c1] eqn:E1.
  destruct (if nonempty (pv_builder p) then _ else _) as [builders c2] eqn:E2.
  pose proof (Hsub (nonempty (pv_source_repo p)) (pv_source_repo p) (sb_provenance_sources e)) as H1. simpl in H1. rewrite E1 in H1.
  pose proof (Hsub (nonempty (pv_builder p)) (pv_builder p) (sb_provenance_builders e)) as H2. simpl in H2. rewrite E2 in H2.
  destruct (c1 || c2); [|by left]. right. exists e. eexists. split; [done|]. split; [reflexivity|].
  split; [|done]. split; simpl; auto using rank_ltb_irrefl.
Qed.

Lemma mark_corroborated_put s repo :
  (mark_corroborated s repo).1 = s \/
  exists e b, st_baselines s !! repo = Some e /\
    (mark_corroborated s repo).1 = mkSBStore (<[repo := b]> (st_baselines s)) (st_max_repos s) /\
    grows e b /\ sb_identities b = sb_identities e /\ sb_rank b = sb_rank e /\ sb_established b = sb_established e.
Proof.
  unfold mark_corroborated. destruct (st_baselines s !! repo) as [e|] eqn:E; [|by left].
  destruct (sb_log_corroborated e) eqn:Ec; [by left|]. right. exists e. eexists. split; [done|]. split; [reflexivity|].
  split; [|done]. split; simpl; auto using rank_ltb_irrefl.
Qed.

Lemma grown_ok now s repo e b :
  store_ok older now s -> st_baselines s !! repo = Some e -> grows e b ->
  sb_identities b = sb_identities e -> sb_rank b = sb_rank e -> sb_established b = sb_established e ->
  store_ok older now (mkSBStore (<[repo := b]> (st_baselines s)) (st_max_repos s)).
Proof.
  intros Hok He Hg H1 H2 H3. apply put_ok; [done| |left; by exists e].
  destruct (so_entries _ _ _ Hok _ _ He) as [B1 B2 B3 B4 B5]. pose proof (gr_first _ _ Hg) as Hf.
  split; rewrite ?H1, ?H2, ?H3, ?Hf; auto.
Qed.

Lemma upsert_ok now s b repo :
  store_ok older now s -> baseline_ok older now repo b -> store_ok older now (upsert iter s b repo).
Proof.
  intros Hok Hb. unfold upsert. destruct (st_baselines s !! repo) as [e|] eqn:E; [apply put_ok; [done|done|by left]|].
  destruct (evict_room s (so_cap _ _ _ Hok) (so_bound _ _ _ Hok)) as (Hm & Hs & _). apply put_ok; [by apply evict_ok|done|].
  right. by rewrite Hm.
Qed.

Lemma restore_line s b repo at_ms :
  repo <> "" -> restore_entry iter s (mkJEntry at_ms (to_decision b repo)) = upsert iter s (restored b at_ms) repo.
Proof. intros Hr. unfold restore_entry. simpl. rewrite bool_decide_false by done. by rewrite !list_to_set_bset. Qed.

(** What the engine can make of a fresh store, as time goes on: by observing,
    and by reading back the journal at boot, whose lines it wrote itself from
    some store of its own, or found there from an older engine. *)
Inductive reached : Z -> SigningBaselineStore -> Prop :=
  | reached_new now cap : reached now (with_capacity cap)
  | reached_observe now now' s image posture :
      reached now s -> (now <= now')%Z -> reached now' (observe iter s image posture now').1
  | reached_provenance now now' s image posture :
      reached now s -> (now <= now')%Z -> reached now' (observe_provenance s image posture now').1
  | reached_corroborated now now' s repo :
      reached now s -> (now <= now')%Z -> reached now' (mark_corroborated s repo).1
  | reached_own_line now s then_ms s0 repo b at_ms :
      reached now s -> reached then_ms s0 -> store_get s0 repo = Some b -> (then_ms <= at_ms)%Z -> (at_ms <= now)%Z ->
      reached now (restore_entry iter s (mkJEntry at_ms (to_decision b repo)))
  | reached_older_line now s e :
      reached now s -> older e -> (je_at_ms e <= now)%Z -> reached now (restore_entry iter s e).

Lemma raw_line_ok now s e :
  store_ok older now s -> older e -> (je_at_ms e <= now)%Z -> store_ok older now (restore_entry iter s e).
Proof.
  intros Hok He Hn. pose proof (older_raw e He) as Hraw. unfold restore_entry, raw_line in *.
  destruct (je_decision e) eqn:Ed; try done. destruct Hraw as (Hids & -> & Hseen & Hold).
  case_bool_decide; [done|]. apply upsert_ok; [done|]. split; simpl; [|..|done|lia|].
  - destruct identities; [done|]. set_solver.
  - intros i Hi%elem_of_list_to_set. right. exists e. unfold line_repo, line_identities. by rewrite Ed.
  - rewrite orb_true_iff. intros [H'|H']; [specialize (Hold H'); lia|]. apply aged_spec in H'; lia.
Qed.

Lemma reached_ok now s : reached now s -> store_ok older now s.
Proof.
  induction 1 as [now cap|now now' s image posture _ IH Hle|now now' s image posture _ IH Hle|now now' s repo _ IH Hle
    |now s t s0 repo b at_ms _ IH _ IH0 Hb Ht Hn|now s e _ IH He Hn];
    try (apply (store_ok_later _ _ now') in IH; [|done]).
  - split; simpl; [lia|rewrite map_size_empty; lia|]. intros r b Hr. by rewrite lookup_empty in Hr.
  - by apply observe_ok.
  - destruct (observe_provenance_put s image posture now') as [->|(e & b & He & -> & Hg & H1 & H2 & H3)]; [done|].
    by eapply grown_ok.
  - destruct (mark_corroborated_put s repo) as [->|(e & b & He & -> & Hg & H1 & H2 & H3)]; [done|]. by eapply grown_ok.
  - destruct (decide (repo = "")) as [->|Hr]; [exact IH|].
    rewrite restore_line by done. apply upsert_ok; [done|]. eapply restored_ok; [exact Ht|exact Hn|]. exact (so_entries _ _ _ IH0 _ _ Hb).
  - by apply raw_line_ok.
Qed.

Lemma reached_later now now' s : reached now s -> (now <= now')%Z -> reached now' s.
Proof. intros Hs Hn. exact (reached_provenance now now' s "" PAbsent Hs Hn). Qed.

(** The lines a restart may find: the engine's own, an older engine's, and
    those that speak of something else. *)
Definition written (now_ms : Z) (e : JournalEntry) : Prop :=
  (je_at_ms e <= now_ms)%Z /\
  ((exists then_ms s0 repo b, reached then_ms s0 /\ store_get s0 repo = Some b /\ (then_ms <= je_at_ms e)%Z /\
      je_decision e = to_decision b repo) \/
   older e \/ line_repo e = None).

Lemma restore_reached now es : forall s,
  reached now s -> Forall (written now) es -> reached now (foldl (restore_entry iter) s es).
Proof.
  induction es as [|e es IH]; intros s Hs Hes; [done|]. apply Forall_cons in Hes as [[Hn He] Hes]. simpl. apply IH; [|done].
  destruct He as [(t & s0 & repo & b & H0 & Hb & Ht & Hd)|[He|Hl]].
  - destruct e as [at_ms d]. simpl in *. subst d. by eapply reached_own_line.
  - by apply reached_older_line.
  - unfold restore_entry, line_repo in *. by destruct (je_decision e).
Qed.

(** C36: However a store was learned, and however often it was read back from the
    journal, it stays within its cap, and every baseline in it was taught by
    keyless signers only, in their version-free form unless an older engine's
    line of that repository left the raw one, and is established only if it has
    been known for a day: no burst of pushes, and no restart, matures a
    baseline sooner. *)
Theorem baseline_store_invariant now s :
  reached now s ->
  0 < st_max_repos s /\ size (st_baselines s) <= st_max_repos s /\
  forall repo b, store_get s repo = Some b ->
    sb_identities b <> ∅ /\ sb_rank b = Keyless /\
    (forall i, i ∈ sb_identities b ->
      canonical_identity i = i \/ exists e, older e /\ line_repo e = Some repo /\ i ∈ line_identities e) /\
    (sb_established b = true -> (sb_first_seen_ms b + 86400000 <= now)%Z).
Proof.
  intros H%reached_ok. destruct H as [Hc Hb He]. split; [done|]. split; [done|]. intros repo b Hr.
  destruct (He repo b Hr) as [H1 H2 H3 _ H5]. auto.
Qed.

(** One signing observation, exactly. Without a verified signer nothing is
    learned. With one, the repository's baseline holds the signer afterwards,
    having only grown if it was there and starting cold if it was not; every
    other baseline is untouched, except that a full store gives one up to a
    repository it did not know: the longest untouched cold one, an established
    one only when all are. When nothing is reported changed, the journal line
    is the same. *)
Theorem observe_learns now s image posture :
  store_ok older now s ->
  let repo := repo_key image in
  let s' := (observe iter s image posture now).1 in
  (posture_signer posture = None -> s' = s /\ (observe iter s image posture now).2 = None) /\
  (forall signer, posture_signer posture = Some signer ->
    (exists b', store_get s' repo = Some b' /\ signer_canonical_identity signer ∈ sb_identities b' /\
      match store_get s repo with
      | Some b => grows b b' /\ ((observe iter s image posture now).2 = None -> to_decision b' repo = to_decision b repo)
      | None => b' = first_observed signer posture now /\ sb_established b' = false
      end) /\
    (forall r b, r <> repo -> store_get s' r = Some b -> store_get s r = Some b) /\
    (forall r b, r <> repo -> store_get s r = Some b -> store_get s' r = Some b \/
      (store_get s repo = None /\ size (st_baselines s) = st_max_repos s /\
       (sb_established b = true -> forall k c, store_get s k = Some c -> sb_established c = true) /\
       (forall k c, store_get s k = Some c -> sb_established c = sb_established b ->
         (sb_last_updated_ms b <= sb_last_updated_ms c)%Z)))).
Proof.
  clear older_raw. intros Hok repo s'. subst s'. unfold observe, store_get. destruct (posture_signer posture) as [signer|] eqn:Es; [|done].
  split; [done|]. intros ? [= <-]. fold repo. cbv zeta. destruct (st_baselines s !! repo) as [e|] eqn:E.
  - destruct (reobserve_ok older e signer posture now _ (so_entries _ _ _ Hok _ _ E) Es) as (_ & Hg & Hin).
    pose proof (bo_rank _ _ _ _ (so_entries _ _ _ Hok _ _ E)) as Hrank.
    assert ((reobserve e signer posture now).2 = false -> to_decision (reobserve e signer posture now).1 repo = to_decision e repo) as Hsame.
    { clear Hg Hin. unfold reobserve, set_insert, to_decision. destruct posture as [sg| | | | |]; simplify_eq/=.
      rewrite Hrank, rank_ltb_keyless.
      destruct (sg_issuer signer) as [i|]; simpl; intros Hf; bools; destruct (sb_established e), (aged _ _); try done; simpl;
        repeat (rewrite subseteq_union_1_L by set_solver); done. }
    destruct (reobserve e signer posture now) as [b' ch]. simpl in *. split; [|split].
    + exists b'. rewrite lookup_insert_eq. split; [done|]. split; [done|]. split; [done|]. destruct ch; [done|]. intros _. by apply Hsame.
    + intros r b Hr. by rewrite lookup_insert_ne.
    + intros r b Hr Hb. left. by rewrite lookup_insert_ne.
  - pose proof (so_cap _ _ _ Hok) as Hcap. pose proof (so_bound _ _ _ Hok) as Hbound.
    destruct (evict_spec s Hcap Hbound) as (_ & Hno & Hfull). destruct (evict_room s Hcap Hbound) as (_ & _ & Hsub). simpl.
    destruct (first_observed_ok older signer posture now "" Es) as [_ Hcold]. split; [|split].
    + eexists. rewrite lookup_insert_eq. split; [done|]. split; [simpl; set_solver|done].
    + intros r b Hr. rewrite lookup_insert_ne by done. intros Hb. by eapply lookup_weaken.
    + intros r b Hr Hb. rewrite lookup_insert_ne by done.
      destruct (decide (size (st_baselines s) < st_max_repos s)) as [Hlt|Hge]; [left; by rewrite (Hno Hlt)|].
      destruct (Hfull ltac:(lia)) as (v & c & Hv & Hd & Hest & _ & Hold). destruct (decide (r = v)) as [->|Hne].
      * right. rewrite Hb in Hv. injection Hv as ->. split; [done|]. split; [lia|]. done.
      * left. rewrite Hd. by rewrite lookup_delete_ne.
Qed.
End StoreFacts.

(** ** Compaction, rotation and restart *)

Section Durability.
Context (iter : gmap string SigningBaseline -> list (string * SigningBaseline)).
Hypothesis iter_map : forall m, iter m ≡ₚ map_to_list m.
Context (to_string : JournalEntry -> string) (from_str : string -> option JournalEntry).
Context `{!LineFormat to_string from_str}.

(** The repositories a journal speaks of. *)
Definition line_repos (es : list JournalEntry) : gset string := list_to_set (omap line_repo es).

(** While every repository fits, an upsert evicts nothing. *)
Lemma upsert_room s b repo :
  0 < st_max_repos s -> size (dom (st_baselines s) ∪ {[repo]}) <= st_max_repos s ->
  upsert iter s b repo = mkSBStore (<[repo := b]> (st_baselines s)) (st_max_repos s).
Proof.
  intros Hc Hs. unfold upsert. destruct (st_baselines s !! repo) as [e|] eqn:E; [done|].
  assert (repo ∉ dom (st_baselines s)) as Hn by (by apply not_elem_of_dom).
  rewrite size_union, size_singleton, size_dom in Hs by (by apply disjoint_singleton_r).
  destruct (evict_spec iter iter_map s Hc ltac:(lia)) as (_ & Hno & _). rewrite Hno; [done|lia].
Qed.

Lemma restore_entry_room s e :
  0 < st_max_repos s -> size (dom (st_baselines s) ∪ line_repos [e]) <= st_max_repos s ->
  st_max_repos (restore_entry iter s e) = st_max_repos s /\
  dom (st_baselines (restore_entry iter s e)) ⊆ dom (st_baselines s) ∪ line_repos [e] /\
  (forall r, line_repo e <> Some r -> st_baselines (restore_entry iter s e) !! r = st_baselines s !! r).
Proof.
  intros Hc Hs. unfold restore_entry, line_repos, line_repo in *. destruct e as [t d]. simpl in *.
  destruct d; simpl in *; try (split; [done|]; split; [set_solver|done]).
  case_bool_decide as Hr; [split; [done|]; split; [set_solver|done]|].
  rewrite upsert_room; [|done|by rewrite union_empty_r_L in Hs]. simpl. split; [done|]. split; [rewrite dom_insert_L; set_solver|].
  intros r Hne. rewrite lookup_insert_ne; [done|]. congruence.
Qed.

Lemma restore_fold es : forall s,
  0 < st_max_repos s -> size (dom (st_baselines s) ∪ line_repos es) <= st_max_repos s ->
  let s' := foldl (restore_entry iter) s es in
  st_max_repos s' = st_max_repos s /\ dom (st_baselines s') ⊆ dom (st_baselines s) ∪ line_repos es /\
  (forall r, r ∉ line_repos es -> st_baselines s' !! r = st_baselines s !! r).
Proof.
  induction es as [|e es IH]; intros s Hc Hs; [split; [done|]; split; [set_solver|done]|].
  assert (line_repos (e :: es) = line_repos [e] ∪ line_repos es) as Hu.
  { unfold line_repos. simpl. destruct (line_repo e); simpl; set_solver. }
  rewrite Hu in *. destruct (restore_entry_room s e Hc) as (Hm & Hd & Hk).
  { etransitivity; [apply subseteq_size|exact Hs]. set_solver. }
  destruct (IH (restore_entry iter s e)) as (Hm' & Hd' & Hk'); [by rewrite Hm|rewrite Hm; etransitivity; [apply subseteq_size|exact Hs]; set_solver|].
  simpl. split; [congruence|]. split; [clear -Hd Hd'; set_solver|]. intros r Hr.
  rewrite Hk' by (clear -Hr; set_solver). apply Hk.
  intros Hl. apply Hr. unfold line_repos. simpl. rewrite Hl. simpl. set_solver.
Qed.

(** Restoring one full-state line per repository, in any order. *)
Lemma restore_lines (kbs : list (string * SigningBaseline)) (stamp : nat -> Z) : forall s,
  NoDup kbs.*1 -> Forall (fun kb => kb.1 <> "") kbs -> 0 < st_max_repos s ->
  size (dom (st_baselines s) ∪ list_to_set kbs.*1) <= st_max_repos s ->
  let es := imap (fun n kb => mkJEntry (stamp n) (to_decision kb.2 kb.1)) kbs in
  let s' := foldl (restore_entry iter) s es in
  st_max_repos s' = st_max_repos s /\
  (forall n k b, kbs !! n = Some (k, b) -> st_baselines s' !! k = Some (restored b (stamp n))) /\
  (forall k, k ∉ kbs.*1 -> st_baselines s' !! k = st_baselines s !! k).
Proof.
  revert stamp. induction kbs as [|[k b] kbs IH]; intros stamp s Hnd Hne Hc Hs; [done|].
  simpl in Hnd. apply NoDup_cons in Hnd as [Hk Hnd]. apply Forall_cons in Hne as [Hk0 Hne]. simpl in Hk0.
  rewrite imap_cons. cbn [foldl fst snd]. rewrite restore_line by done. simpl in Hs.
  rewrite upsert_room; [|done|etransitivity; [apply subseteq_size|exact Hs]; set_solver].
  destruct (IH (fun n => stamp (S n)) (mkSBStore (<[k := restored b (stamp 0)]> (st_baselines s)) (st_max_repos s))) as (Hm & Hin & Hout); [done|done|done|..].
  { simpl. rewrite dom_insert_L. etransitivity; [apply subseteq_size|exact Hs]. set_solver. }
  split; [done|]. split.
  - intros [|n] k' b' Hl; simpl in Hl; [|by eapply Hin]. simplify_eq/=. etransitivity; [by apply Hout|]. simpl. by rewrite lookup_insert_eq.
  - intros k' Hk'. simpl in Hk'. etransitivity; [apply Hout; set_solver|]. simpl. rewrite lookup_insert_ne by set_solver. done.
Qed.

Definition compaction (s : SigningBaselineStore) (stamp : nat -> Z) : list JournalEntry :=
  imap (fun n kb => mkJEntry (stamp n) (to_decision kb.2 kb.1)) (iter (st_baselines s)).

Definition all_ok (es : list JournalEntry) : list (JournalEntry * Io) := (fun e => (e, IoOk)) <$> es.

Lemma compact_records s j stamp :
  is_enabled j = true ->
  compact iter to_string s j (fun n => (stamp n, IoOk)) = record_all to_string j (all_ok (compaction s stamp)).
Proof.
  intros Hj. unfold compact, compaction, all_ok. rewrite Hj. simpl. case_bool_decide as He; simpl.
  - assert (iter (st_baselines s) = []) as ->; [|done]. rewrite He. apply Permutation_nil. by rewrite (iter_map ∅), map_to_list_empty.
  - f_equal. unfold compact_lines. rewrite imap_fmap, fmap_imap. done.
Qed.

Lemma replay_appended old recent cap :
  (forall e, e ∈ old ++ recent -> (line_size to_string e <= cap)%Z) -> (0 < cap)%Z ->
  (lines_size to_string recent <= MAX_BYTES)%Z ->
  let j := record_all to_string (journal_open empty_volume true) (all_ok (old ++ recent)) in
  is_enabled j = true /\ exists kept, replay from_str j = kept ++ recent /\ kept `suffix_of` old.
Proof.
  intros Hc Hcap Hs j.
  destruct (record_all_holds to_string _ _ _ _ _ _ (open_holds to_string cap Hcap) Hc) as (r & a & Hh).
  fold (all_ok (old ++ recent)) in Hh. fold j in Hh. split; [by eapply ho_on|].
  by eapply (holds_recent to_string from_str).
Qed.

(** A restart reads back a store the engine can hold: of the journal its
    predecessors wrote, at least the recent lines are there, and no others. *)
Lemma restart_reached older now capacity cap es :
  Forall (written iter older now) es ->
  (forall e, e ∈ es -> (line_size to_string e <= cap)%Z) -> (0 < cap)%Z ->
  reached iter older now
    (restore iter from_str (with_capacity capacity) (record_all to_string (journal_open empty_volume true) (all_ok es))).
Proof.
  intros Hes Hc Hcap. destruct (replay_appended es [] cap) as (_ & kept & Hrep & pre & Hpre);
    [intros e; rewrite app_nil_r; apply Hc|done|vm_compute; done|].
  rewrite app_nil_r in Hrep. unfold restore. rewrite app_nil_r in Hrep. rewrite Hrep. apply restore_reached; [constructor|].
  rewrite Hpre in Hes. by apply Forall_app in Hes as [_ H].
Qed.

(** An established baseline survives churn and restarts. After a compaction
    and any later traffic that fits in one rotation, a store restored from the
    journal holds every compacted baseline as it was, matured by the time it
    was away, and no repository the journal never spoke of. *)
Theorem compaction_survives s stamp old later cap :
  0 < st_max_repos s -> (forall repo, is_Some (store_get s repo) -> repo <> "") ->
  omap line_repo later = [] ->
  size (line_repos old ∪ dom (st_baselines s)) <= st_max_repos s ->
  (forall e, e ∈ old ++ compaction s stamp ++ later -> (line_size to_string e <= cap)%Z) -> (0 < cap)%Z ->
  (lines_size to_string (compaction s stamp ++ later) <= MAX_BYTES)%Z ->
  let before := record_all to_string (journal_open empty_volume true) (all_ok old) in
  let after := record_all to_string (compact iter to_string s before (fun n => (stamp n, IoOk))) (all_ok later) in
  let s' := restore iter from_str (with_capacity (st_max_repos s)) after in
  (forall repo b, store_get s repo = Some b -> exists n, store_get s' repo = Some (restored b (stamp n))) /\
  (forall repo, repo ∉ line_repos old -> store_get s repo = None -> store_get s' repo = None).
Proof.
  intros Hmax Hne Hlater Hsize Hc Hcap Hbytes before after s'.
  set (lines := compaction s stamp) in *.
  assert (after = record_all to_string (journal_open empty_volume true) (all_ok (old ++ lines ++ later))) as Hafter.
  { unfold after. rewrite compact_records.
    - unfold before, Journal.record_all, all_ok. by rewrite !fmap_app, !foldl_app.
    - unfold before. rewrite <- (app_nil_r old). eapply (replay_appended old [] cap); [|done|vm_compute; done].
      intros e He. rewrite app_nil_r in He. apply Hc. set_solver. }
  destruct (replay_appended old (lines ++ later) cap Hc Hcap Hbytes) as (_ & kept & Hrep & pre & Hpre).
  rewrite <- Hafter in Hrep. unfold s', restore. rewrite Hrep, !foldl_app.
  assert (line_repos kept ⊆ line_repos old) as Hsub.
  { rewrite Hpre. unfold line_repos. rewrite omap_app, list_to_set_app_L. set_solver. }
  assert (dom (st_baselines s) = list_to_set (iter (st_baselines s)).*1) as Hdom.
  { apply set_eq. intros r. rewrite elem_of_dom, elem_of_list_to_set, list_elem_of_fmap. split.
    - intros [b Hb]. exists (r, b). split; [done|]. by apply (iter_elem iter iter_map).
    - intros ([r' b] & -> & Hb). apply (iter_elem iter iter_map) in Hb. by exists b. }
  destruct (restore_fold kept (with_capacity (st_max_repos s))) as (Hm1 & Hd1 & Hk1).
  { simpl. lia. }
  { simpl. rewrite dom_empty_L. etransitivity; [apply subseteq_size|etransitivity; [exact Hsize|lia]]. set_solver. }
  set (s1 := foldl (restore_entry iter) _ kept) in *. simpl in Hm1, Hd1. rewrite dom_empty_L in Hd1.
  destruct (restore_lines (iter (st_baselines s)) stamp s1) as (Hm2 & Hin2 & Hout2).
  { rewrite iter_map. apply NoDup_fst_map_to_list. }
  { apply Forall_forall. intros [k b] Hkb. apply (iter_elem iter iter_map) in Hkb. apply Hne. by exists b. }
  { lia. }
  { rewrite <- Hdom. etransitivity; [apply subseteq_size|etransitivity; [exact Hsize|lia]]. set_solver. }
  fold (compaction s stamp) in Hm2, Hin2, Hout2. fold lines in Hm2, Hin2, Hout2. set (s2 := foldl (restore_entry iter) s1 lines) in *.
  assert (forall r, st_baselines (foldl (restore_entry iter) s2 later) !! r = st_baselines s2 !! r) as Hlast.
  { clear -Hlater. generalize s2. induction later as [|e later IH]; intros s3 r; [done|]. simpl in *.
    unfold line_repo in Hlater. destruct e as [t []]; simpl in *; try apply (IH Hlater). done. }
  unfold store_get. split.
  - intros repo b Hb. apply (iter_elem iter iter_map) in Hb. apply list_elem_of_lookup in Hb as [n Hn].
    exists n. rewrite Hlast. by eapply Hin2.
  - intros repo Hold Hnone. rewrite Hlast, Hout2.
    + rewrite Hk1 by set_solver. apply lookup_empty.
    + intros Hin. apply list_elem_of_fmap in Hin as ([r b] & -> & Hb). apply (iter_elem iter iter_map) in Hb. simpl in *. congruence.
Qed.
End Durability.

(** ** Witnesses *)

Definition ci_signed (tag : string) : SigningPosture :=
  Signed (mkSigner ("https://github.com/org/app/.github/workflows/r.yml@refs/tags/" +:+ tag) (Some "https://token.actions")).

Definition day_store : SigningBaselineStore :=
  (observe map_to_list (observe map_to_list (with_capacity 4) "ghcr.io/org/app:1" (ci_signed "v1") 1000).1
     "ghcr.io/org/app:2" (ci_signed "v2") 86401000).1.

Lemma day_store_reached older : reached map_to_list older 86401000 day_store.
Proof. apply (reached_observe _ _ 1000); [|lia]. apply (reached_observe _ _ 1000); [constructor|lia]. Qed.

(** A line of an engine that kept one identity per release. *)
Definition older_day : JournalEntry :=
  mkJEntry 86402000 (JSigningBaseline "ghcr.io/org/old"
    ["https://github.com/org/old/.github/workflows/r.yml@refs/tags/v1"; "https://github.com/org/old/.github/workflows/r.yml@refs/tags/v2"]
    ["https://token.actions"] 2000 false false Keyless [] []).

Lemma older_day_raw e : older_day = e -> raw_line e.
Proof. intros <-. unfold raw_line. simpl. split; [done|]. split; [done|]. split; [lia|done]. Qed.

(** What the journal of [day_store] holds after it and the older engine wrote. *)
Definition day_lines : list JournalEntry :=
  older_day :: ((fun kb => mkJEntry 86403000 (to_decision kb.2 kb.1)) <$> map_to_list (st_baselines day_store)).

Definition rebooted_store : SigningBaselineStore :=
  restore map_to_list BitCodec.from_str (with_capacity 4)
    (record_all BitCodec.to_string (journal_open empty_volume true) (all_ok day_lines)).

Lemma rebooted_store_reached : reached map_to_list (eq older_day) 86404000 rebooted_store.
Proof.
  apply (restart_reached map_to_list BitCodec.to_string BitCodec.from_str _ _ _ 1000000); [|..|lia].
  - constructor; [split; [simpl; lia|by right; left]|]. apply Forall_fmap, Forall_forall. intros [k b] Hkb. split; [simpl; lia|]. left.
    exists 86401000%Z, day_store, k, b. split; [apply day_store_reached|]. split; [by apply elem_of_map_to_list|]. simpl. split; [lia|done].
  - intros e He. vm_compute in He. apply list_elem_of_In in He. destruct He as [<-|[<-|[]]]; vm_compute; discriminate.
Qed.

Lemma baseline_store_invariant_witness :
  size (st_baselines rebooted_store) <= 4 /\
  (forall b, store_get rebooted_store "ghcr.io/org/app" = Some b -> sb_rank b = Keyless) /\
  is_Some (store_get rebooted_store "ghcr.io/org/app").
Proof.
  destruct (baseline_store_invariant map_to_list (fun m => Permutation_refl _) (eq older_day) older_day_raw
    86404000 rebooted_store rebooted_store_reached) as (_ & H1 & H2).
  split; [etransitivity; [exact H1|vm_compute; lia]|]. split; [intros b Hb; apply (H2 _ b Hb)|]. eexists. vm_compute. reflexivity.
Defined.

Lemma observe_learns_witness :
  store_get (observe map_to_list day_store "ghcr.io/org/job:1" (ci_signed "v1") 86402000).1 "ghcr.io/org/job" =
    Some (first_observed (mkSigner "https://github.com/org/app/.github/workflows/r.yml@refs/tags/v1" (Some "https://token.actions"))
            (ci_signed "v1") 86402000).
Proof.
  assert (store_ok (eq older_day) 86402000 day_store) as Hok.
  { eapply store_ok_later; [|eapply (reached_ok map_to_list (fun m => Permutation_refl _) _ older_day_raw), day_store_reached]. lia. }
  destruct (observe_learns map_to_list (fun m => Permutation_refl _) _ 86402000 day_store "ghcr.io/org/job:1" (ci_signed "v1") Hok) as [_ H].
  destruct (H _ eq_refl) as [(b' & Hb & _ & Hm) _]. destruct Hm as [-> _]. exact Hb.
Defined.

Lemma compaction_survives_witness :
  let s' := restore map_to_list BitCodec.from_str (with_capacity 4)
    (compact map_to_list BitCodec.to_string day_store (journal_open empty_volume true) (fun _ => (86403000%Z, IoOk))) in
  (fun b => (sb_established b, sb_rank b)) <$> store_get s' "ghcr.io/org/app" = Some (true, Keyless).
Proof.
  destruct (compaction_survives map_to_list (fun m => Permutation_refl _) BitCodec.to_string BitCodec.from_str
    day_store (fun _ => 86403000%Z) [] [] 1000000) as [H _].
  - vm_compute. lia.
  - intros repo [b Hb] ->. vm_compute in Hb. discriminate Hb.
  - reflexivity.
  - vm_compute. lia.
  - intros e He. vm_compute in He. apply list_elem_of_In in He. destruct He as [<-|[]]. vm_compute. discriminate.
  - lia.
  - vm_compute. discriminate.
  - intros s'. assert (exists b, store_get day_store "ghcr.io/org/app" = Some b /\ sb_established b = true /\ sb_rank b = Keyless) as (b & Hb & He & Hr)
      by (eexists; split; [vm_compute; reflexivity|split; vm_compute; reflexivity]).
    destruct (H _ _ Hb) as [n Hn]. unfold s'. etransitivity; [apply (f_equal (fmap _)), Hn|]. simpl. by rewrite He, Hr.
Defined.
