(* ===== verification/SigningDrift.v ===== *)
(** * Signing and provenance drift

    engine/src/engine/supply_chain: signing_drift.rs, provenance_drift.rs, the
    registry/log divergence of signing_rekor.rs and the trust-root spike of
    signing_trust.rs. Pure classifications of a fresh posture against the
    repository's baseline. *)

From S2P Require Import Prelude Text Json ImageRef Posture PolicyLog Journal SigningBaseline.

Inductive RegressionKind :=
  | RkUnsigned
  | RkInvalid
  | IdentityChange (new_identity : string) (new_issuer : option string)
  | Downgrade (to : PostureRank).

#[global] Instance RegressionKind_eq_dec : EqDecision RegressionKind.
Proof. solve_decision. Defined.

Definition kind_word (k : RegressionKind) : string :=
  match k with
  | RkUnsigned => "unsigned"
  | RkInvalid => "invalid"
  | IdentityChange _ _ => "identity"
  | Downgrade KeyBased => "downgrade-key-based"
  | Downgrade Unverifiable => "downgrade-unverifiable"
  | Downgrade _ => "downgrade"
  end.

Definition kind_fingerprint (k : RegressionKind) : string :=
  match k with IdentityChange new_identity _ => "identity:" +:+ new_identity | k => kind_word k end.

Inductive SigningDrift := Continuous | NewRepo | Regression (kind : RegressionKind) (established : bool).

#[global] Instance SigningDrift_eq_dec : EqDecision SigningDrift.
Proof. solve_decision. Defined.

Definition is_regression (d : SigningDrift) : bool := match d with Regression _ _ => true | _ => false end.

Definition would_block (d : SigningDrift) (posture : SigningPosture) : bool :=
  match posture with
  | InvalidSignature => true
  | _ => match d with Regression _ true => true | _ => false end
  end.

Definition classify (baseline : option SigningBaseline) (posture : SigningPosture) : SigningDrift :=
  match baseline with
  | None => match posture with Signed _ => NewRepo | _ => Continuous end
  | Some b =>
      match posture with
      | Checking => Continuous
      | SignedKeyBased | UnverifiableHere =>
          match posture_rank posture with
          | Some current => if rank_ltb current (sb_rank b) then Regression (Downgrade current) (sb_established b) else Continuous
          | None => Continuous
          end
      | Signed signer =>
          let current := signer_canonical_identity signer in
          if existsb (fun known => bool_decide (canonical_identity known = current)) (bset_iter (sb_identities b))
          then Continuous
          else Regression (IdentityChange (sg_identity signer) (sg_issuer signer)) (sb_established b)
      | NotSigned => Regression RkUnsigned (sb_established b)
      | InvalidSignature => Regression RkInvalid (sb_established b)
      end
  end.

(** ** Provenance *)

Inductive ProvenanceDrift :=
  | PContinuous
  | NewProvenance
  | PChange (new_source new_builder : string) (established : bool).

Definition classify_provenance_drift (baseline : option SigningBaseline) (posture : ProvenancePosture) : ProvenanceDrift :=
  match provenance_of posture, baseline with
  | None, _ => PContinuous
  | Some _, None => PContinuous
  | Some p, Some b =>
      if negb (has_provenance b) then NewProvenance
      else if bool_decide (pv_source_repo p ∈ sb_provenance_sources b) && bool_decide (pv_builder p ∈ sb_provenance_builders b)
      then PContinuous
      else PChange (pv_source_repo p) (pv_builder p) (sb_established b)
  end.

(** ** The transparency log and the trust root *)

Inductive RekorDivergence := RegistrySignedNotInLog | LogSignedRegistryUnsigned.

Definition divergence (posture : SigningPosture) (signed_in_log repo_corroborated : bool) : option RekorDivergence :=
  match posture with
  | NotSigned => if signed_in_log then Some LogSignedRegistryUnsigned else None
  | Signed _ => if negb signed_in_log && repo_corroborated then Some RegistrySignedNotInLog else None
  | _ => None
  end.

Definition SPIKE_MIN_IMAGES : nat := 4.

Definition is_unverifiable_spike (unverifiable total : nat) : bool :=
  (SPIKE_MIN_IMAGES <=? total) && (total <=? unverifiable * 2).

(** The freshest file of a directory listing: [None] entries could not be read,
    and only files count. Times are in seconds. *)
Definition tuf_cache_age_secs (listing : option (list (option (bool * option Z)))) (now : Z) : option Z :=
  entries ← listing;
  newest ← foldl (fun newest e =>
      match e with
      | Some (true, Some modified) =>
          Some (match newest with Some prev => if (modified <=? prev)%Z then prev else modified | None => modified end)
      | _ => newest
      end) None entries;
  Some (if (newest <=? now)%Z then now - newest else 0)%Z.

(** ** Lemmas *)

(** A signer the baseline knows, up to its release tag. *)
Definition known_signer (b : SigningBaseline) (s : Signer) : Prop :=
  exists known, known ∈ sb_identities b /\ canonical_identity known = signer_canonical_identity s.

Lemma known_signer_spec b s :
  existsb (fun known => bool_decide (canonical_identity known = signer_canonical_identity s)) (bset_iter (sb_identities b)) = true
  <-> known_signer b s.
Proof.
  rewrite existsb_elem. unfold known_signer. setoid_rewrite bset_iter_elem. setoid_rewrite bool_decide_eq_true. done.
Qed.

Lemma classify_signed b s :
  classify (Some b) (Signed s) = Continuous <-> known_signer b s.
Proof. rewrite <- known_signer_spec. simpl. by destruct (existsb _ _). Qed.

(** The postures that carry no signer. *)
Ltac drift_cases :=
  split; [intros H; simplify_eq/=; try done; repeat split; auto
         |match goal with |- _ /\ match ?kind with _ => _ end -> _ => intros [-> H]; destruct kind; destruct_and?; simplify_eq/=; try done; try congruence; by destruct_or? end].

(** When a fresh posture is a regression, and of which kind. A repository
    that was never seen signed never regresses; one that was regresses on no
    signature, a broken one, a signer it does not know up to the release tag,
    or a posture ranked below the best it ever had. *)
Theorem classify_exact baseline posture kind est :
  classify baseline posture = Regression kind est <->
  exists b, baseline = Some b /\ est = sb_established b /\
    match kind with
    | RkUnsigned => posture = NotSigned
    | RkInvalid => posture = InvalidSignature
    | IdentityChange i iss => posture = Signed (mkSigner i iss) /\ ~ known_signer b (mkSigner i iss)
    | Downgrade r => (posture = SignedKeyBased \/ posture = UnverifiableHere) /\
        posture_rank posture = Some r /\ rank_ltb r (sb_rank b) = true
    end.
Proof.
  destruct baseline as [b|]; [|split; [by destruct posture|naive_solver]].
  assert ((exists b', Some b = Some b' /\ est = sb_established b' /\
    match kind with
    | RkUnsigned => posture = NotSigned | RkInvalid => posture = InvalidSignature
    | IdentityChange i iss => posture = Signed (mkSigner i iss) /\ ~ known_signer b' (mkSigner i iss)
    | Downgrade r => (posture = SignedKeyBased \/ posture = UnverifiableHere) /\
        posture_rank posture = Some r /\ rank_ltb r (sb_rank b') = true end) <->
    est = sb_established b /\
    match kind with
    | RkUnsigned => posture = NotSigned | RkInvalid => posture = InvalidSignature
    | IdentityChange i iss => posture = Signed (mkSigner i iss) /\ ~ known_signer b (mkSigner i iss)
    | Downgrade r => (posture = SignedKeyBased \/ posture = UnverifiableHere) /\
        posture_rank posture = Some r /\ rank_ltb r (sb_rank b) = true end) as -> by naive_solver.
  destruct posture as [s| | | | |]; simpl.
  - destruct (existsb _ _) eqn:E.
    + split; [done|]. intros [_ H]. destruct kind; try naive_solver. destruct H as [[= ->] H]. apply known_signer_spec in E. done.
    + assert (~ known_signer b s) as Hn by (intros H%known_signer_spec; congruence). destruct s as [i iss]. simpl.
      split; [intros [= <- <-]; done|]. destruct kind; naive_solver.
  - destruct (rank_ltb KeyBased (sb_rank b)) eqn:E; drift_cases.
  - destruct (rank_ltb Unverifiable (sb_rank b)) eqn:E; drift_cases.
  - drift_cases.
  - drift_cases.
  - drift_cases.
Qed.

(** ** Drift against what the engine learned *)

Section Learned.
Context (iter : gmap string SigningBaseline -> list (string * SigningBaseline)).
Hypothesis iter_map : forall m, iter m ≡ₚ map_to_list m.
Context (older : JournalEntry -> Prop).
Hypothesis older_raw : forall e, older e -> raw_line e.

(** C27: Against an established baseline, learned by this process or read back
    from the journal, nothing but a known signer or a blip passes: every other
    posture, key-based and unverifiable ones included, blocks. Known is a signer
    that agrees with one of the baseline's identities up to the release tag, on
    whichever side the tag was left in: a baseline an older engine's line filled
    with one raw identity per release admits the next release too. Against a
    repository the store does not hold, or one still cold, only a broken
    signature blocks. *)
Theorem established_admits_exactly now s repo posture :
  reached iter older now s ->
  let drift := classify (store_get s repo) posture in
  match store_get s repo with
  | Some b =>
      if sb_established b
      then would_block drift posture = false <->
           posture = Checking \/ exists g, posture = Signed g /\
             exists known, known ∈ sb_identities b /\ canonical_identity known = canonical_identity (sg_identity g)
      else would_block drift posture = true <-> posture = InvalidSignature
  | None => would_block drift posture = true <-> posture = InvalidSignature
  end.
Proof.
  intros Hr. destruct (reached_ok iter iter_map older older_raw now s Hr) as [_ _ Hb]. unfold store_get.
  destruct (st_baselines s !! repo) as [b|] eqn:E; [|destruct posture; naive_solver].
  destruct (Hb repo b E) as [_ _ Hrank _ _]. destruct (sb_established b) eqn:Ee.
  - destruct posture as [g| | | | |]; simpl; rewrite ?Hrank, ?Ee; simpl; try (split; [done|naive_solver]); [|split; auto].
    destruct (existsb _ _) eqn:Ex; simpl.
    + apply known_signer_spec in Ex. split; [|done]. intros _. right. by exists g.
    + split; [done|]. intros [|(g' & [= <-] & Hg)]; [done|]. apply known_signer_spec in Hg. congruence.
  - destruct posture as [g| | | | |]; simpl; rewrite ?Hrank, ?Ee; simpl; try (split; done). by destruct (existsb _ _).
Qed.

(** What one observation of a running pod does to the gate. A new release of
    a workflow the baseline learned is never a regression, under any image of
    the repository. But a signer the gate blocks is learned by the very
    observation that flags it: from then on it is known, and admitted. *)
Theorem learning_admits now s image g :
  store_ok older now s ->
  let s' := (observe iter s image (Signed g) now).1 in
  (forall image' g', repo_key image' = repo_key image -> signer_canonical_identity g' = signer_canonical_identity g ->
     classify (store_get s' (repo_key image')) (Signed g') = Continuous) /\
  (forall b, store_get s (repo_key image) = Some b -> sb_established b = true -> ~ known_signer b g ->
     would_block (classify (store_get s (repo_key image)) (Signed g)) (Signed g) = true /\
     would_block (classify (store_get s' (repo_key image)) (Signed g)) (Signed g) = false).
Proof.
  intros Hok s'. assert (forall g', signer_canonical_identity g' = signer_canonical_identity g ->
      classify (store_get s' (repo_key image)) (Signed g') = Continuous) as Hcont.
  { intros g' Hg'. unfold s', observe, store_get. simpl. destruct (st_baselines s !! repo_key image) as [e|] eqn:E.
    - destruct (reobserve_ok older e g (Signed g) now _ (so_entries _ _ _ Hok _ _ E) eq_refl) as (Hb & _ & Hin).
      destruct (reobserve e g (Signed g) now) as [b' ch]. simpl in *. rewrite lookup_insert_eq. apply classify_signed.
      exists (signer_canonical_identity g). split; [done|]. rewrite Hg'. apply canonical_idempotent.
    - simpl. rewrite lookup_insert_eq. apply classify_signed. exists (signer_canonical_identity g). simpl.
      split; [set_solver|]. rewrite Hg'. apply canonical_idempotent. }
  split; [intros image' g' ->; apply Hcont|]. intros b Hb He Hk. split.
  - rewrite Hb. simpl. destruct (existsb _ _) eqn:Ex; [by apply known_signer_spec in Ex|]. simpl. by rewrite He.
  - by rewrite Hcont.
Qed.
End Learned.

(** The OIDC issuer plays no part in the classification. *)
Lemma issuer_change_continuous b i iss iss' :
  is_regression (classify (Some b) (Signed (mkSigner i iss))) = is_regression (classify (Some b) (Signed (mkSigner i iss'))).
Proof. simpl. unfold signer_canonical_identity. simpl. by destruct (existsb _ _). Qed.

(** A build change is flagged exactly when a verified build leaves the
    sources or the builders an existing baseline learned; a repository without
    either, and an image without provenance, never raise one. *)
Theorem provenance_drift_exact baseline posture source builder est :
  classify_provenance_drift baseline posture = PChange source builder est <->
  exists b, baseline = Some b /\ est = sb_established b /\ posture = PVerified (mkProvenance source builder) /\
    has_provenance b = true /\ (source ∉ sb_provenance_sources b \/ builder ∉ sb_provenance_builders b).
Proof.
  unfold classify_provenance_drift. split.
  - destruct posture as [[src bld]| | |], baseline as [b|]; simpl; try done. destruct (has_provenance b) eqn:Eh; simpl; [|done].
    intros H. exists b. case_bool_decide; case_bool_decide; simplify_eq/=; auto 10.
  - intros (b & -> & -> & -> & -> & H). simpl. case_bool_decide; case_bool_decide; simpl; try done. by destruct H.
Qed.

(** ** Witnesses *)

Definition fork_signer : Signer := mkSigner "https://github.com/evil/app/.github/workflows/r.yml@refs/tags/v1" None.

(** The third release of a workflow an older engine saw twice, and a key-based
    signature, against the store read back from its line. *)
Lemma established_admits_exactly_witness :
  let v3 := Signed (mkSigner "https://github.com/org/old/.github/workflows/r.yml@refs/tags/v3" None) in
  would_block (classify (store_get rebooted_store "ghcr.io/org/old") v3) v3 = false /\
  would_block (classify (store_get rebooted_store "ghcr.io/org/old") SignedKeyBased) SignedKeyBased = true.
Proof.
  intros v3.
  pose proof (fun posture => established_admits_exactly map_to_list (fun m => Permutation_refl _) (eq older_day) older_day_raw
    86404000 rebooted_store "ghcr.io/org/old" posture rebooted_store_reached) as H.
  assert (exists b, store_get rebooted_store "ghcr.io/org/old" = Some b /\ sb_established b = true /\
    existsb (fun known => bool_decide (canonical_identity known = canonical_identity "https://github.com/org/old/.github/workflows/r.yml@refs/tags/v3"))
      (bset_iter (sb_identities b)) = true) as (b & Hb & He & Hv)
    by (eexists; split; [vm_compute; reflexivity|split; vm_compute; reflexivity]).
  rewrite Hb in *. cbv beta iota zeta in H. rewrite He in H. split.
  - apply (H v3). right. eexists. split; [reflexivity|]. apply (proj1 (known_signer_spec _ _)). exact Hv.
  - destruct (would_block _ SignedKeyBased) eqn:E; [reflexivity|]. exfalso.
    destruct (proj1 (H SignedKeyBased) E) as [|(g & Hg & _)]; discriminate.
Defined.

Lemma learning_admits_witness :
  let s' := (observe map_to_list day_store "ghcr.io/org/app:evil" (Signed fork_signer) 86401000).1 in
  would_block (classify (store_get day_store "ghcr.io/org/app") (Signed fork_signer)) (Signed fork_signer) = true /\
  would_block (classify (store_get s' "ghcr.io/org/app") (Signed fork_signer)) (Signed fork_signer) = false.
Proof.
  destruct (learning_admits map_to_list (fun m => Permutation_refl _) (eq older_day) older_day_raw 86401000 day_store "ghcr.io/org/app:evil" fork_signer) as [_ H].
  - exact (reached_ok map_to_list (fun m => Permutation_refl _) _ older_day_raw _ _ (day_store_reached _)).
  - change "ghcr.io/org/app" with (repo_key "ghcr.io/org/app:evil").
    assert (exists b, store_get day_store (repo_key "ghcr.io/org/app:evil") = Some b) as [b E] by (eexists; vm_compute; reflexivity).
    apply (H b).
    + exact E.
    + vm_compute in E. injection E as <-. reflexivity.
    + intros Hk%known_signer_spec. vm_compute in E. injection E as <-. vm_compute in Hk. discriminate Hk.
Defined.
