(* ===== verification/Continuity.v ===== *)
(** * The signing-continuity gate

    engine/src/policies/signature/continuity.rs: scoped exceptions, identity
    pins and the gate the webhook consults. A pin's compiled regular expression
    is a predicate. *)

From S2P Require Import Prelude Text Json ImageRef Posture PolicyLog Journal SigningBaseline SigningDrift.

#[local] Arguments String.append : simpl nomatch.

(** ** Exceptions *)

Inductive ExceptionScope := ExRepo (repo : string) | ExImage (image : string).

#[global] Instance ExceptionScope_eq_dec : EqDecision ExceptionScope.
Proof. solve_decision. Defined.

Record SigningException := mkException { ex_scope : ExceptionScope; ex_fingerprint : string }.

#[global] Instance SigningException_eq_dec : EqDecision SigningException.
Proof. solve_decision. Defined.

Notation SigningExceptions := (list SigningException).

(** [str::split(['\n', ';'])] and [str::split_once(char::is_whitespace)]. *)
Definition semicolon : Ascii.ascii := Ascii.ascii_of_nat 59.

Definition split_entries (s : string) : list string := split newline s ≫= split semicolon.

Fixpoint split_once_white (s : string) : option (string * string) :=
  match strip_one white_space s with
  | Some rest => Some ("", rest)
  | None => match s with
            | String a s => prod_map (String a) id <$> split_once_white s
            | EmptyString => None
            end
  end.

Definition parse_exception (raw : string) : option SigningException :=
  let line := trim raw in
  if bool_decide (line = "") || starts_with "#" line then None
  else
    '(scope_tok, fingerprint) ← split_once_white line;
    let fingerprint := trim fingerprint in
    if bool_decide (fingerprint = "") then None
    else
      scope ← match strip_prefix "repo:" scope_tok with
              | Some repo => Some (ExRepo (trim repo))
              | None => (fun image => ExImage (trim image)) <$> strip_prefix "image:" scope_tok
              end;
      Some (mkException scope fingerprint).

Definition parse (spec : string) : SigningExceptions := omap parse_exception (split_entries spec).

(** A file that cannot be read contributes nothing. *)
Definition from_sources (file : option string) (env_spec : string) : SigningExceptions :=
  parse env_spec ++ match file with Some contents => parse contents | None => [] end.

Definition exception_covers (image : string) (fingerprint : string) (e : SigningException) : bool :=
  bool_decide (ex_fingerprint e = fingerprint) &&
  match ex_scope e with
  | ExImage ref => bool_decide (ref = image)
  | ExRepo r => bool_decide (r = repo_key image)
  end.

Definition accepts (es : SigningExceptions) (image : string) (kind : RegressionKind) : bool :=
  existsb (exception_covers image (kind_fingerprint kind)) es.

(** ** Pins *)

Record SigningPin := mkPin { pin_prefix : string; pin_identity : string -> bool }.

Definition pin_applies (p : SigningPin) (image : string) : bool :=
  starts_with (pin_prefix p) (normalize_registry_host image).

Definition pin_satisfied (p : SigningPin) (posture : SigningPosture) : bool :=
  match posture with Signed s => pin_identity p (sg_identity s) | _ => false end.

Definition pin_violation_kind (posture : SigningPosture) : RegressionKind :=
  match posture with
  | Signed s => IdentityChange (sg_identity s) (sg_issuer s)
  | InvalidSignature => RkInvalid
  | SignedKeyBased => Downgrade KeyBased
  | UnverifiableHere => Downgrade Unverifiable
  | _ => RkUnsigned
  end.

(** ** The gate *)

Record ContinuityGate := mkGate {
  cg_baseline : option SigningBaselineStore;
  cg_exceptions : SigningExceptions;
  cg_pins : list SigningPin;
  cg_max_images : nat
}.

(** The first pin that governs the image and is not satisfied. *)
Definition violated_pin (pins : list SigningPin) (image : string) (posture : SigningPosture) : option SigningPin :=
  List.find (fun pin => pin_applies pin image && negb (pin_satisfied pin posture)) pins.

Definition block_reason (g : ContinuityGate) (image : string) (posture : SigningPosture) : option string :=
  match violated_pin (cg_pins g) image posture with
  | Some _ =>
      if accepts (cg_exceptions g) image (pin_violation_kind posture) then None
      else Some ("pinned repo requires a trusted signer but " +:+ image +:+ " is " +:+ posture_status posture)
  | None =>
      let repo := repo_key image in
      let drift := classify (shared_get (cg_baseline g) repo) posture in
      if negb (would_block drift posture) then None
      else
        let kind := match drift with Regression kind _ => kind | _ => RkInvalid end in
        if accepts (cg_exceptions g) image kind then None
        else Some ("signing regression on " +:+ repo +:+ ": " +:+ posture_status posture +:+ " (" +:+ kind_word kind +:+ ")")
  end.

Section Gate.
Variables (ask : nat -> string -> SigningPosture) (clock : nat -> Z) (cache_ttl : Z).

Fixpoint evaluate_images (g : ContinuityGate) (images : list string) (s : ObsState SigningPosture) :
    list string * ObsState SigningPosture :=
  match images with
  | [] => ([], s)
  | image :: images =>
      let '(posture, s) := signing_observe ask clock cache_ttl image s in
      let '(blocked, s) := evaluate_images g images s in
      (match block_reason g image posture with Some reason => reason :: blocked | None => blocked end, s)
  end.

Definition gate_evaluate (g : ContinuityGate) (images : list string) (s : ObsState SigningPosture) :
    option string * ObsState SigningPosture :=
  let '(blocked, s) := evaluate_images g (take (cg_max_images g) (distinct_images images)) s in
  (match blocked with [] => None | _ => Some (join "; " blocked) end, s).
End Gate.

(** ** When an image is blocked *)

(** The drift an image shows, and whether it is one to block on. *)
Definition blocking_kind (g : ContinuityGate) (image : string) (posture : SigningPosture) : option RegressionKind :=
  if existsb (fun pin => pin_applies pin image && negb (pin_satisfied pin posture)) (cg_pins g)
  then Some (pin_violation_kind posture)
  else match classify (shared_get (cg_baseline g) (repo_key image)) posture with
       | Regression kind est => if est || bool_decide (posture = InvalidSignature) then Some kind else None
       | _ => if bool_decide (posture = InvalidSignature) then Some RkInvalid else None
       end.

Lemma violated_pin_some pins image posture :
  is_Some (violated_pin pins image posture) <->
  existsb (fun pin => pin_applies pin image && negb (pin_satisfied pin posture)) pins = true.
Proof.
  unfold violated_pin. rewrite existsb_exists. split.
  - intros [p Hp]. apply find_some in Hp as [H1 H2]. by exists p.
  - intros (p & Hin & Hp). destruct (List.find _ pins) eqn:E; [by eexists|].
    eapply List.find_none in E; [|exact Hin]. simpl in E. congruence.
Qed.

(** An image is refused exactly when it shows a drift to block on (a pin it
    violates, a broken signature, a regression of an established baseline) and
    no recorded exception names that image or its repository together with that
    very drift. A cold or unknown baseline alone refuses nothing. *)
Theorem block_reason_exact g image posture :
  (is_Some (block_reason g image posture) <->
    exists kind, blocking_kind g image posture = Some kind /\
      forall e, e ∈ cg_exceptions g -> ex_fingerprint e = kind_fingerprint kind ->
        ex_scope e <> ExImage image /\ ex_scope e <> ExRepo (repo_key image)) /\
  (cg_pins g = [] -> posture <> InvalidSignature ->
    (forall b, shared_get (cg_baseline g) (repo_key image) = Some b -> sb_established b = false) ->
    block_reason g image posture = None).
Proof.
  assert (forall kind, accepts (cg_exceptions g) image kind = false <->
    forall e, e ∈ cg_exceptions g -> ex_fingerprint e = kind_fingerprint kind ->
      ex_scope e <> ExImage image /\ ex_scope e <> ExRepo (repo_key image)) as Hacc.
  { intros kind. unfold accepts. rewrite existsb_false. unfold exception_covers. split.
    - intros H e He Hf. specialize (H e He). rewrite bool_decide_true in H by done. simpl in H.
      destruct (ex_scope e); bools; split; congruence.
    - intros H e He. case_bool_decide as Hf; [|done]. destruct (H e He Hf) as [H1 H2]. simpl.
      destruct (ex_scope e); apply bool_decide_false; congruence. }
  assert (block_reason g image posture = None <->
    forall kind, blocking_kind g image posture = Some kind -> accepts (cg_exceptions g) image kind = true) as Hnone.
  { unfold block_reason, blocking_kind. cbv zeta.
    destruct (violated_pin (cg_pins g) image posture) as [p|] eqn:Ep.
    - rewrite (proj1 (violated_pin_some _ _ _)) by by eexists. destruct (accepts _ _ _) eqn:Ea; [naive_solver|].
      split; [done|]. intros H. specialize (H _ eq_refl). congruence.
    - destruct (existsb _ (cg_pins g)) eqn:Ex; [apply violated_pin_some in Ex as [? ?]; congruence|].
      destruct (classify _ posture) as [| |kind est] eqn:Ed; destruct posture; try (destruct est);
        simpl; try (split; [intros _ k [=]|done]); (destruct (accepts _ _ _) eqn:Ea; [naive_solver|]);
        (split; [done|]); intros H; specialize (H _ eq_refl); congruence. }
  split.
  - rewrite <- not_eq_None_Some, Hnone. setoid_rewrite <- Hacc. split.
    + intros H. destruct (blocking_kind g image posture) as [kind|]; [|destruct H; by intros]. exists kind. split; [done|].
      apply not_true_iff_false. intros Ha. apply H. by intros k [= <-].
    + intros (kind & Hk & Ha) H. rewrite (H kind Hk) in Ha. done.
  - intros Hp Hi Hcold. apply Hnone. unfold blocking_kind. rewrite Hp. simpl. intros kind.
    destruct (shared_get _ _) as [b|] eqn:Eb.
    + rewrite (bool_decide_false _ Hi). destruct (classify (Some b) posture) as [| |k est] eqn:Ec; [done..|].
      assert (est = false) as ->; [|done]. rewrite <- (Hcold b eq_refl). clear -Ec.
      destruct posture; simpl in Ec; crush.
    + rewrite (bool_decide_false _ Hi). by destruct posture.
Qed.

(** ** The gate over a request *)

Section GateFacts.
Variables (ask : nat -> string -> SigningPosture) (clock : nat -> Z) (cache_ttl : Z).

Local Notation loop := (sweep_loop posture_is_resting ask clock cache_ttl).
Local Notation evaluate_images := (evaluate_images ask clock cache_ttl).
Local Notation gate_evaluate := (gate_evaluate ask clock cache_ttl).

Definition reason_of (g : ContinuityGate) (m : gmap string SigningPosture) (image : string) : option string :=
  m !! image ≫= block_reason g image.

Lemma evaluate_images_loop g images : forall m s,
  NoDup images ->
  evaluate_images g images s = (omap (reason_of g (loop images m s).1) images, (loop images m s).2).
Proof.
  induction images as [|i images IH]; intros m s Hnd; [done|]. apply NoDup_cons in Hnd as [Hi Hnd]. simpl.
  unfold signing_observe. destruct (Posture.observe posture_is_resting ask clock cache_ttl i s) as [p s1].
  rewrite (IH (<[i := p]> m) s1 Hnd). destruct (loop images (<[i := p]> m) s1) as [m' s'] eqn:E. simpl.
  destruct (sweep_loop_frame _ _ _ 0 _ _ _ _ _ _ E) as (_ & _ & _ & Hm & _).
  assert (reason_of g m' i = block_reason g i p) as -> by (unfold reason_of; by rewrite Hm, lookup_insert_eq).
  by destruct (block_reason g i p).
Qed.

Lemma join_nonempty l : match l with [] => None | _ => Some (join "; " l) end = None <-> l = [].
Proof. by destruct l. Qed.

(** The gate costs and sees what one capped sweep of the request's images
    does; it admits exactly when none of the observed images is blocked, and
    the images past the cap are admitted unseen. *)
Theorem gate_admits_exactly g images s :
  let '(m, s') := sweep posture_is_resting ask clock (cg_max_images g) cache_ttl images s in
  (gate_evaluate g images s).2 = s' /\
  ((gate_evaluate g images s).1 = None <-> forall i p, m !! i = Some p -> block_reason g i p = None) /\
  (forall extra, length (distinct_images images) = cg_max_images g ->
     gate_evaluate g (images ++ extra) s = gate_evaluate g images s).
Proof.
  destruct (sweep _ _ _ _ _ images s) as [m s'] eqn:E. unfold sweep in E.
  assert (NoDup (take (cg_max_images g) (distinct_images images))) as Hnd by apply NoDup_taken, distinct_images_NoDup.
  unfold Continuity.gate_evaluate. rewrite (evaluate_images_loop g _ ∅ s Hnd), E. simpl.
  destruct (sweep_loop_frame _ _ _ 0 _ _ _ _ _ _ E) as (_ & Hdom & _ & _ & _). split; [done|]. split.
  - rewrite join_nonempty. split.
    + intros Hnil i p Hi. assert (i ∈ take (cg_max_images g) (distinct_images images)) as Hin.
      { apply elem_of_dom_2 in Hi. rewrite Hdom in Hi. set_solver. }
      destruct (block_reason g i p) as [r|] eqn:Er; [|done]. exfalso.
      assert (r ∈ omap (reason_of g m) (take (cg_max_images g) (distinct_images images))) as Hr.
      { apply list_elem_of_omap. exists i. split; [done|]. unfold reason_of. by rewrite Hi. }
      rewrite Hnil in Hr. by apply not_elem_of_nil in Hr.
    + intros Hall. destruct (omap _ _) as [|r l] eqn:Eo; [done|]. exfalso.
      assert (r ∈ omap (reason_of g m) (take (cg_max_images g) (distinct_images images))) as Hr by (rewrite Eo; left).
      apply list_elem_of_omap in Hr as (i & _ & Hi). unfold reason_of in Hi. apply bind_Some in Hi as (p & Hp & Hb).
      rewrite (Hall i p Hp) in Hb. done.
  - intros extra Hlen. assert (exists tl, distinct_images (images ++ extra) = distinct_images images ++ tl) as [tl Htl].
    { unfold distinct_images. rewrite foldl_app. generalize (foldl (fun (acc : list string) (i : string) =>
        if existsb (fun d => bool_decide (d = i)) acc then acc else acc ++ [i]) [] images). intros l.
      revert l. induction extra as [|x extra IH]; intros l; simpl; [exists []; by rewrite app_nil_r|].
      destruct (existsb _ l); [apply IH|]. destruct (IH (l ++ [x])) as [tl ->]. exists (x :: tl). by rewrite <- app_assoc. }
    rewrite <- Hlen in E, Hnd. rewrite firstn_all in E, Hnd. rewrite Htl, <- Hlen, take_app_length, ?firstn_all.
    by rewrite (evaluate_images_loop g _ ∅ s Hnd), E.
Qed.
End GateFacts.

(** A pod whose last image is an unsigned substitute of an established
    repository passes the gate once the cap is spent on other images. *)
Lemma overflow_admitted :
  let ask := fun (_ : nat) (image : string) => if bool_decide (image = "ghcr.io/org/app:9") then NotSigned else ci_signed "v1" in
  let g := mkGate (Some day_store) [] [] 2 in
  (gate_evaluate ask (fun _ => 0%Z) 100 g ["ghcr.io/org/app:9"] obs_new).1 <> None /\
  (gate_evaluate ask (fun _ => 0%Z) 100 g ["a:1"; "b:1"; "ghcr.io/org/app:9"] obs_new).1 = None.
Proof. split; [vm_compute; discriminate|vm_compute; reflexivity]. Qed.

(** ** Writing an exception down *)

Definition render_exception (e : SigningException) : string :=
  match ex_scope e with ExRepo r => "repo:" +:+ r | ExImage i => "image:" +:+ i end +:+ " " +:+ ex_fingerprint e.

(** What a scope and a fingerprint must avoid to be read back. *)
Record plain_exception (e : SigningException) : Prop := {
  pe_one_line : no_char newline (render_exception e) = true;
  pe_one_entry : no_char semicolon (render_exception e) = true;
  pe_trimmed : trim (render_exception e) = render_exception e;
  pe_scope : match ex_scope e with ExRepo s | ExImage s => trim s = s /\ split_once_white (s +:+ " " +:+ ex_fingerprint e) = Some (s, ex_fingerprint e) end;
  pe_fingerprint : trim (ex_fingerprint e) = ex_fingerprint e /\ ex_fingerprint e <> ""
}.

Lemma split_white_cons a s : strip_one white_space (String a s) = None ->
  split_once_white (String a s) = prod_map (String a) id <$> split_once_white s.
Proof. intros H. cbn [split_once_white]. by rewrite H. Qed.

(** A scope word, of letters and a colon, is passed over by the splitter. *)
Fixpoint no_white_start (p : string) : bool :=
  match p with
  | EmptyString => true
  | String a p => (let n := Ascii.nat_of_ascii a in (33 <=? n) && (n <=? 126)) && no_white_start p
  end.

Lemma split_white_word p s l r :
  no_white_start p = true -> split_once_white s = Some (l, r) -> split_once_white (p +:+ s) = Some (p +:+ l, r).
Proof.
  intros Hp Hs. induction p as [|a p IH]; [done|]. cbn [no_white_start String.append] in *.
  apply andb_true_iff in Hp as [Ha Hp].
  rewrite split_white_cons, (IH Hp); [done|]. clear -Ha. destruct a as [[] [] [] [] [] [] [] []]; first [discriminate Ha|reflexivity].
Qed.

Lemma parse_render e : plain_exception e -> parse_exception (render_exception e) = Some e.
Proof.
  intros [_ _ Ht Hs [Hf Hne]]. unfold parse_exception. rewrite Ht. unfold render_exception. cbv zeta.
  destruct e as [[r|i] f]; cbn [ex_scope ex_fingerprint] in *; destruct Hs as [Hts Hsp].
  - match goal with |- (if ?b then _ else _) = _ => assert (b = false) as -> by done end.
    rewrite app_str_assoc, (split_white_word "repo:" _ _ _ eq_refl Hsp). cbn [mbind option_bind]. rewrite Hf, bool_decide_false by done.
    rewrite (proj2 (strip_prefix_app "repo:" _ _) eq_refl). cbn [mbind option_bind]. by rewrite Hts.
  - match goal with |- (if ?b then _ else _) = _ => assert (b = false) as -> by done end.
    rewrite app_str_assoc, (split_white_word "image:" _ _ _ eq_refl Hsp). cbn [mbind option_bind]. rewrite Hf, bool_decide_false by done.
    assert (strip_prefix "repo:" ("image:" +:+ i) = None) as -> by done.
    rewrite (proj2 (strip_prefix_app "image:" _ _) eq_refl). cbn [mbind option_bind fmap option_fmap option_map]. by rewrite Hts.
Qed.

Lemma split_join_char c (ls : list string) :
  ls <> [] -> Forall (fun l => no_char c l = true) ls -> split c (join (String c "") ls) = ls.
Proof.
  intros Hne Hl. induction Hl as [|l ls Hl Hls IH]; [done|]. destruct ls as [|l2 ls]; [by apply split_no_char|].
  change (join (String c "") (l :: l2 :: ls)) with (l +:+ String c (join (String c "") (l2 :: ls))).
  rewrite split_app by done. by rewrite IH.
Qed.

Lemma no_char_join c sep ls :
  no_char c sep = true -> Forall (fun l => no_char c l = true) ls -> no_char c (join sep ls) = true.
Proof.
  intros Hs Hl. induction Hl as [|l ls Hl Hls IH]; [done|]. destruct ls as [|l2 ls]; [done|].
  change (join sep (l :: l2 :: ls)) with (l +:+ sep +:+ join sep (l2 :: ls)). by rewrite !no_char_app, Hl, Hs, IH.
Qed.

(** Exceptions written one per line or separated by semicolons are read back
    as they were: the configuration has a faithful textual form. *)
Theorem exceptions_roundtrip es :
  es <> [] -> Forall plain_exception es ->
  parse (join ";" (render_exception <$> es)) = es /\ parse (join nl (render_exception <$> es)) = es.
Proof.
  intros Hne Hes.
  assert (Forall (fun l => no_char newline l = true) (render_exception <$> es)) as Hn.
  { apply Forall_fmap. eapply Forall_impl; [exact Hes|]. intros e He. apply He. }
  assert (Forall (fun l => no_char semicolon l = true) (render_exception <$> es)) as Hs.
  { apply Forall_fmap. eapply Forall_impl; [exact Hes|]. intros e He. apply He. }
  assert (render_exception <$> es <> []) as Hne' by (by destruct es).
  assert (omap parse_exception (render_exception <$> es) = es) as Hparse.
  { clear -Hes. induction Hes as [|e es He Hes IH]; [done|]. cbn [fmap list_fmap omap list_omap].
    rewrite (parse_render e He). by f_equal. }
  unfold parse, split_entries. split.
  - rewrite (split_no_char newline) by (apply no_char_join; done). cbn [mbind list_bind]. rewrite app_nil_r.
    change ";" with (String semicolon ""). by rewrite split_join_char.
  - unfold nl. rewrite (split_join_char newline) by done.
    assert ((render_exception <$> es) ≫= split semicolon = render_exception <$> es) as ->; [|done].
    clear -Hs. induction Hs as [|l ls Hl Hls IH]; [done|]. cbn [mbind list_bind]. rewrite (split_no_char semicolon l Hl). simpl. by f_equal.
Qed.

Definition accept_unsigned : SigningException := mkException (ExRepo "ghcr.io/org/app") "unsigned".
Definition accept_new_signer : SigningException := mkException (ExImage "ghcr.io/org/job:1") "identity:ci@example.org".

Lemma exceptions_roundtrip_witness :
  parse "repo:ghcr.io/org/app unsigned;image:ghcr.io/org/job:1 identity:ci@example.org" = [accept_unsigned; accept_new_signer].
Proof.
  apply (exceptions_roundtrip [accept_unsigned; accept_new_signer]); [discriminate|].
  repeat constructor; vm_compute; done.
Defined.
