(* ===== verification/Admission.v ===== *)
(** * The admission engine and its policies

    engine/src/policy.rs (decisions, enforcement scope, the ordered engine with
    its shadow what-if), policies/mesh.rs and policies/signature/mod.rs. The
    answers of the signature checker and of the posture observer, and the
    clocks, are arguments; a policy threads the state its caches keep. *)

From S2P Require Import Prelude Text Json ImageRef Posture PolicyLog Journal SigningBaseline SigningDrift Continuity.

#[local] Arguments String.append : simpl nomatch.

(** ** Requests and decisions *)

Record DynamicObject := mkObject {
  do_labels : option (gmap string string);
  do_annotations : option (gmap string string);
  do_data : Json
}.

Record AdmissionRequest := mkRequest {
  ar_kind : string;
  ar_name : string;
  ar_namespace : option string;
  ar_object : option DynamicObject
}.

Inductive Decision := Allow | Deny (reason : string) | Audit (reason : string).

#[global] Instance Decision_eq_dec : EqDecision Decision.
Proof. solve_decision. Defined.

Inductive ShadowVerdict := NotApplicable | Evaluated (passed enforced : bool) (reason : string).

Definition shadow_pass (enforced : bool) : ShadowVerdict := Evaluated true enforced "".
Definition shadow_fail (enforced : bool) (reason : string) : ShadowVerdict := Evaluated false enforced reason.

Definition shadow_status (v : ShadowVerdict) : string :=
  match v with
  | NotApplicable => ""
  | Evaluated true true _ => "verified"
  | Evaluated true false _ => "would-pass"
  | Evaluated false _ _ => "would-fail"
  end.

Definition shadow_would_admit (v : ShadowVerdict) : bool :=
  match v with Evaluated false _ _ => false | _ => true end.

(** ** The enforcement scope *)

Record EnforceScope := mkScope { es_namespaces : gset string; es_labels : list (string * string) }.

Definition enforces (s : EnforceScope) (req : AdmissionRequest) : bool :=
  match ar_namespace req with Some ns => bool_decide (ns ∈ es_namespaces s) | None => false end ||
  (if bool_decide (es_labels s = []) then false
   else match ar_object req ≫= do_labels with
        | Some labels => existsb (fun kv => bool_decide (labels !! kv.1 = Some kv.2)) (es_labels s)
        | None => false
        end).

Definition scope_decide (s : EnforceScope) (req : AdmissionRequest) (reason : string) : Decision :=
  if enforces s req then Deny reason else Audit reason.

Definition is_audit_only (s : EnforceScope) : bool :=
  bool_decide (es_namespaces s = ∅) && bool_decide (es_labels s = []).

(** ** The engine *)

(** The [Policy] trait over the state [W] of all policies. *)
Record Policy (W : Type) := mkPolicy {
  po_name : string;
  po_applies : AdmissionRequest -> bool;
  po_evaluate : AdmissionRequest -> W -> Decision * W;
  po_shadow_evaluate : AdmissionRequest -> W -> ShadowVerdict * W
}.

Arguments mkPolicy {W}.
Arguments po_name {W}.
Arguments po_applies {W}.
Arguments po_evaluate {W}.
Arguments po_shadow_evaluate {W}.

Record AdmissionSummary := mkAdmSummary {
  as_decision : string; as_reason : string; as_signature : string; as_mesh : string; as_would_admit : bool
}.

(** What the engine writes: the violations metered, the decision log and the
    journal, when they are attached. *)
Record AdmissionOutput := mkOutput {
  ao_violations : list (string * string);
  ao_decisions : option PolicyDecisionLog;
  ao_journal : option (list JDecision)
}.

Definition request_image (req : AdmissionRequest) : string :=
  match ar_object req with
  | None => ""
  | Some obj =>
      match json_get (json_index (do_data obj) "spec") "containers" ≫= as_array with
      | None => ""
      | Some containers =>
          default "" (find_map (fun c =>
            if bool_decide ((json_get c "name" ≫= as_str) = Some "linkerd-proxy") then None
            else json_get c "image" ≫= as_str) containers)
      end
  end.

Section AdmissionEngine.
Context {W : Type}.

Fixpoint shadow_what_if (policies : list (Policy W)) (req : AdmissionRequest) (s : AdmissionSummary) (w : W) :
    AdmissionSummary * W :=
  match policies with
  | [] => (s, w)
  | policy :: policies =>
      let '(verdict, w) := po_shadow_evaluate policy req w in
      let would_admit := as_would_admit s && shadow_would_admit verdict in
      let status := shadow_status verdict in
      let s := if bool_decide (po_name policy = "image-signature")
               then mkAdmSummary (as_decision s) (as_reason s) status (as_mesh s) would_admit
               else if bool_decide (po_name policy = "mesh-injection")
               then mkAdmSummary (as_decision s) (as_reason s) (as_signature s) status would_admit
               else mkAdmSummary (as_decision s) (as_reason s) (as_signature s) (as_mesh s) would_admit in
      shadow_what_if policies req s w
  end.

Definition meter_and_log (policy decision : string) (out : AdmissionOutput) : AdmissionOutput :=
  mkOutput (ao_violations out ++ [(policy, decision)]) (ao_decisions out) (ao_journal out).

Definition record_admission (req : AdmissionRequest) (s : AdmissionSummary) (now_ms : Z) (out : AdmissionOutput) : AdmissionOutput :=
  let record := with_would_admit
    (decision_now "admission" (as_decision s) (ar_kind req +:+ "/" +:+ ar_name req) (request_image req)
       (as_signature s) (as_mesh s) (default "" (ar_namespace req)) (as_reason s) now_ms) (as_would_admit s) in
  mkOutput (ao_violations out) ((fun rows => log_decision rows record) <$> ao_decisions out)
    ((fun lines => lines ++ [JAdmission record]) <$> ao_journal out).

Fixpoint decide_loop (policies : list (Policy W)) (req : AdmissionRequest) (now_ms : Z) (s : AdmissionSummary) (w : W)
    (out : AdmissionOutput) : Decision * W * AdmissionOutput :=
  match policies with
  | [] => (Allow, w, record_admission req s now_ms out)
  | policy :: policies =>
      if negb (po_applies policy req) then decide_loop policies req now_ms s w out
      else
        let '(outcome, w) := po_evaluate policy req w in
        match outcome with
        | Allow => decide_loop policies req now_ms s w out
        | Audit reason =>
            let s := if bool_decide (as_decision s = "allow")
                     then mkAdmSummary "audit" reason (as_signature s) (as_mesh s) (as_would_admit s) else s in
            decide_loop policies req now_ms s w (meter_and_log (po_name policy) "audit" out)
        | Deny reason =>
            let s := mkAdmSummary "deny" reason (as_signature s) (as_mesh s) (as_would_admit s) in
            (Deny ("[" +:+ po_name policy +:+ "] " +:+ reason), w,
             record_admission req s now_ms (meter_and_log (po_name policy) "deny" out))
        end
  end.

Definition engine_evaluate (policies : list (Policy W)) (req : AdmissionRequest) (now_ms : Z) (w : W) (out : AdmissionOutput) :
    Decision * W * AdmissionOutput :=
  let '(s, w) := shadow_what_if policies req (mkAdmSummary "allow" "" "" "" true) w in
  decide_loop policies req now_ms s w out.
End AdmissionEngine.

(** ** Mesh injection *)

Inductive MeshVerdict := MeshPass | Unmeshed (reason : string).

Definition pod_spec (obj : DynamicObject) : Json := json_index (do_data obj) "spec".

Definition pod_is_long_running (obj : DynamicObject) : bool :=
  match json_get (pod_spec obj) "restartPolicy" ≫= as_str with
  | None => true | Some policy => bool_decide (policy = "Always") end.

Definition pod_is_meshed (obj : DynamicObject) : bool :=
  existsb (fun field =>
    match json_get (pod_spec obj) field ≫= as_array with
    | Some containers => existsb (fun c => bool_decide ((json_get c "name" ≫= as_str) = Some "linkerd-proxy")) containers
    | None => false
    end) ["containers"; "initContainers"] ||
  match (a ← do_annotations obj; a !! "linkerd.io/inject") with
  | Some v => bool_decide (v = "enabled") || bool_decide (v = "ingress")
  | None => false
  end.

Definition mesh_verdict (req : AdmissionRequest) : MeshVerdict :=
  match ar_object req with
  | None => MeshPass
  | Some obj =>
      if negb (pod_is_long_running obj) || pod_is_meshed obj then MeshPass
      else Unmeshed "Pod is not Linkerd-meshed (no injected linkerd-proxy)"
  end.

Definition mesh_evaluate (scope : EnforceScope) (req : AdmissionRequest) : Decision :=
  match mesh_verdict req with MeshPass => Allow | Unmeshed reason => scope_decide scope req reason end.

Definition mesh_shadow_evaluate (scope : EnforceScope) (req : AdmissionRequest) : ShadowVerdict :=
  let enforced := enforces scope req in
  match mesh_verdict req with MeshPass => shadow_pass enforced | Unmeshed reason => shadow_fail enforced reason end.

Definition is_pod (req : AdmissionRequest) : bool := bool_decide (ar_kind req = "Pod").

Definition MeshInjectionPolicy {W} (scope : EnforceScope) : Policy W :=
  mkPolicy "mesh-injection" is_pod (fun req w => (mesh_evaluate scope req, w)) (fun req w => (mesh_shadow_evaluate scope req, w)).

(** ** Image signatures *)

Definition pod_images (obj : DynamicObject) : list string :=
  ["containers"; "initContainers"; "ephemeralContainers"] ≫= fun field =>
    match json_get (pod_spec obj) field ≫= as_array with
    | Some containers => omap (fun c => json_get c "image" ≫= as_str) containers
    | None => []
    end.

Definition more_severe (a b : Decision) : Decision :=
  let rank d := match d with Deny _ => 2 | Audit _ => 1 | Allow => 0 end in
  if rank a <? rank b then b else a.

(** A check answers, or fails with an error. *)
Definition Checked : Type := string + bool.
Definition is_ok (c : Checked) : bool := match c with inr _ => true | inl _ => false end.

Record SignaturePolicy := mkSigPolicy {
  sp_gated_prefixes : list string;
  sp_enforce : EnforceScope;
  sp_max_images : nat;
  sp_cache_ttl : Z;
  sp_continuity : option ContinuityGate
}.

(** The two caches a signature policy keeps: verdicts, and the shared observer. *)
Record SigState := mkSigState { ss_checked : ObsState Checked; ss_observed : ObsState SigningPosture }.

Definition gated (p : SignaturePolicy) (image : string) : bool :=
  let normalized := normalize_registry_host image in
  existsb (fun prefix => starts_with prefix normalized) (sp_gated_prefixes p).

Definition gated_images (p : SignaturePolicy) (obj : DynamicObject) : list string :=
  distinct_images (List.filter (gated p) (pod_images obj)).

Definition too_many (p : SignaturePolicy) (images : list string) : string :=
  "Pod references " +:+ pretty (N.of_nat (length images)) +:+ " gated images (max " +:+ pretty (N.of_nat (sp_max_images p)) +:+ ")".

Definition unsigned_reason (images : list string) : string := "unsigned or untrusted image(s): " +:+ join ", " images.

Section Signature.
Variables (check : nat -> string -> Checked) (check_clock : nat -> Z).
Variables (ask : nat -> string -> SigningPosture) (ask_clock : nat -> Z) (ask_ttl : Z).

Definition is_signed_cached (p : SignaturePolicy) (image : string) (w : SigState) : Checked * SigState :=
  let '(c, o) := Posture.observe is_ok check check_clock (sp_cache_ttl p) image (ss_checked w) in
  (c, mkSigState o (ss_observed w)).

(** The images in turn; an error where enforcing stops at once. *)
Fixpoint check_images (p : SignaturePolicy) (enforced : bool) (images unsigned : list string) (w : SigState) :
    (Decision + list string) * SigState :=
  match images with
  | [] => (inr unsigned, w)
  | image :: images =>
      let '(c, w) := is_signed_cached p image w in
      match c with
      | inr true => check_images p enforced images unsigned w
      | inr false => check_images p enforced images (unsigned ++ [image]) w
      | inl err =>
          if enforced then (inl (Deny ("could not verify signature for " +:+ image +:+ ": " +:+ err)), w)
          else check_images p enforced images unsigned w
      end
  end.

Definition gated_decision (p : SignaturePolicy) (req : AdmissionRequest) (obj : DynamicObject) (w : SigState) : Decision * SigState :=
  let images := gated_images p obj in
  if sp_max_images p <? length images then (scope_decide (sp_enforce p) req (too_many p images), w)
  else
    match check_images p (enforces (sp_enforce p) req) images [] w with
    | (inl d, w) => (d, w)
    | (inr [], w) => (Allow, w)
    | (inr unsigned, w) => (scope_decide (sp_enforce p) req (unsigned_reason unsigned), w)
    end.

Definition continuity_block (p : SignaturePolicy) (obj : DynamicObject) (w : SigState) : option string * SigState :=
  match sp_continuity p with
  | Some gate =>
      let '(r, o) := gate_evaluate ask ask_clock ask_ttl gate (pod_images obj) (ss_observed w) in
      (r, mkSigState (ss_checked w) o)
  | None => (None, w)
  end.

Definition sig_evaluate (p : SignaturePolicy) (req : AdmissionRequest) (w : SigState) : Decision * SigState :=
  match ar_object req with
  | None => (Allow, w)
  | Some obj =>
      let '(gated, w) := gated_decision p req obj w in
      match gated with
      | Deny _ => (gated, w)
      | _ =>
          let '(block, w) := continuity_block p obj w in
          (more_severe gated match block with Some reason => scope_decide (sp_enforce p) req reason | None => Allow end, w)
      end
  end.

Fixpoint shadow_images (p : SignaturePolicy) (images failed : list string) (w : SigState) : list string * SigState :=
  match images with
  | [] => (failed, w)
  | image :: images =>
      let '(c, w) := is_signed_cached p image w in
      match c with
      | inr true => shadow_images p images failed w
      | _ => shadow_images p images (failed ++ [image]) w
      end
  end.

Definition sig_shadow_evaluate (p : SignaturePolicy) (req : AdmissionRequest) (w : SigState) : ShadowVerdict * SigState :=
  match ar_object req with
  | None => (NotApplicable, w)
  | Some obj =>
      let enforced := enforces (sp_enforce p) req in
      let images := gated_images p obj in
      let continuity pass w :=
        match continuity_block p obj w with
        | (Some reason, w) => (shadow_fail enforced reason, w)
        | (None, w) => (pass, w)
        end in
      if bool_decide (images = []) then continuity NotApplicable w
      else if sp_max_images p <? length images then (shadow_fail enforced (too_many p images), w)
      else
        match shadow_images p images [] w with
        | ([], w) => continuity (shadow_pass enforced) w
        | (failed, w) => (shadow_fail enforced (unsigned_reason failed), w)
        end
  end.

Definition image_signature_policy (p : SignaturePolicy) : Policy SigState :=
  mkPolicy "image-signature" is_pod (sig_evaluate p) (sig_shadow_evaluate p).
End Signature.
