(* ===== verification/AdmissionFacts.v ===== *)
(** * What admission guarantees

    The engine against its policies' interface [PolicyStable], the two policies
    as instances of it, and the composed webhook. *)

From S2P Require Import Prelude Text Json ImageRef Posture PolicyLog Journal SigningBaseline SigningDrift Continuity Admission.

#[local] Arguments String.append : simpl nomatch.

(** ** The interface between the engine and a policy

    Under an invariant of the caches a policy's decision and its what-if are
    functions of the request, and neither evaluation breaks the invariant. *)
Class PolicyStable {W} (P : Policy W) (inv : W -> Prop) (verdict : AdmissionRequest -> Decision)
    (shadow : AdmissionRequest -> ShadowVerdict) : Prop := {
  ps_evaluate req w : inv w -> (po_evaluate P req w).1 = verdict req /\ inv (po_evaluate P req w).2;
  ps_shadow req w : inv w -> (po_shadow_evaluate P req w).1 = shadow req /\ inv (po_shadow_evaluate P req w).2
}.

Section EngineFacts.
Context {W : Type} (inv : W -> Prop).
Context (verdict : Policy W -> AdmissionRequest -> Decision) (shadow : Policy W -> AdmissionRequest -> ShadowVerdict).

(** The policies the decision loop consults, with what they say: the applicable
    ones up to and with the first denial. *)
Fixpoint consulted (policies : list (Policy W)) (req : AdmissionRequest) : list (string * Decision) :=
  match policies with
  | [] => []
  | P :: policies =>
      if po_applies P req then
        match verdict P req with
        | Deny r => [(po_name P, Deny r)]
        | d => (po_name P, d) :: consulted policies req
        end
      else consulted policies req
  end.

(** Their joint verdict, the strongest outcome and what is metered. *)
Definition joint_verdict (l : list (string * Decision)) : Decision :=
  match find_map (fun nd => match nd.2 with Deny r => Some ("[" +:+ nd.1 +:+ "] " +:+ r) | _ => None end) l with
  | Some r => Deny r | None => Allow end.

Definition strongest (l : list (string * Decision)) : string * string :=
  match find_map (fun nd => match nd.2 with Deny r => Some r | _ => None end) l with
  | Some r => ("deny", r)
  | None => match find_map (fun nd => match nd.2 with Audit r => Some r | _ => None end) l with
            | Some r => ("audit", r) | None => ("allow", "") end
  end.

Definition metered (l : list (string * Decision)) : list (string * string) :=
  omap (fun nd => match nd.2 with Allow => None | Deny _ => Some (nd.1, "deny") | Audit _ => Some (nd.1, "audit") end) l.

(** The what-if of every policy, applicable or not. *)
Definition shadow_admits (policies : list (Policy W)) (req : AdmissionRequest) : bool :=
  forallb (fun P => shadow_would_admit (shadow P req)) policies.

Definition status_under (name : string) (policies : list (Policy W)) (req : AdmissionRequest) (before : string) : string :=
  foldl (fun acc P => if bool_decide (po_name P = name) then shadow_status (shadow P req) else acc) before policies.

(** The row a request leaves. *)
Definition admission_row (policies : list (Policy W)) (req : AdmissionRequest) (now_ms : Z) : PolicyDecisionRecord :=
  let l := consulted policies req in
  with_would_admit (decision_now "admission" (strongest l).1 (ar_kind req +:+ "/" +:+ ar_name req) (request_image req)
    (status_under "image-signature" policies req "") (status_under "mesh-injection" policies req "")
    (default "" (ar_namespace req)) (strongest l).2 now_ms) (shadow_admits policies req).

Definition stable_policies (policies : list (Policy W)) : Prop :=
  forall P, P ∈ policies -> PolicyStable P inv (verdict P) (shadow P).

Lemma stable_cons P policies :
  stable_policies (P :: policies) -> PolicyStable P inv (verdict P) (shadow P) /\ stable_policies policies.
Proof. intros H. split; [apply H; left|]. intros Q HQ. apply H. by right. Qed.

Lemma shadow_what_if_spec policies req : forall s w, stable_policies policies -> inv w ->
  let '(s', w') := shadow_what_if policies req s w in
  inv w' /\ s' = mkAdmSummary (as_decision s) (as_reason s) (status_under "image-signature" policies req (as_signature s))
    (status_under "mesh-injection" policies req (as_mesh s)) (as_would_admit s && shadow_admits policies req).
Proof.
  induction policies as [|P policies IH]; intros s w Hst Hw; simpl; [split; [done|]; rewrite andb_true_r; by destruct s|].
  apply stable_cons in Hst as [HP Hst]. destruct (ps_shadow req w Hw) as [Hv Hw'].
  destruct (po_shadow_evaluate P req w) as [v w1]. simpl in Hv, Hw'. rewrite <- Hv. set (s1 := if bool_decide _ then _ else _).
  specialize (IH s1 w1 Hst Hw'). destruct (shadow_what_if policies req s1 w1) as [s' w'].
  destruct IH as (H1 & ->). split; [done|]. subst s1. rewrite andb_assoc.
  repeat case_bool_decide; simpl; try done. congruence.
Qed.

(** What the loop leaves, by the summary it started from: the reason already
    noted, if any, is kept unless a denial follows. *)
Definition carried (s : AdmissionSummary) (l : list (string * Decision)) : string * string :=
  if bool_decide (as_decision s = "allow") then strongest l
  else match find_map (fun nd => match nd.2 with Deny r => Some r | _ => None end) l with
       | Some r => ("deny", r) | None => (as_decision s, as_reason s) end.

Lemma decide_loop_spec policies req now_ms : forall s w out,
  stable_policies policies -> inv w -> (as_decision s = "allow" -> as_reason s = "") ->
  let l := consulted policies req in
  exists w', inv w' /\
    decide_loop policies req now_ms s w out =
    (joint_verdict l, w', record_admission req
       (mkAdmSummary (carried s l).1 (carried s l).2 (as_signature s) (as_mesh s) (as_would_admit s)) now_ms
       (mkOutput (ao_violations out ++ metered l) (ao_decisions out) (ao_journal out))).
Proof.
  induction policies as [|P policies IH]; intros s w out Hst Hw Hs; simpl.
  - exists w. split; [done|]. unfold carried, strongest, metered. simpl. rewrite app_nil_r. destruct out, s as [d r sg ms wa].
    simpl in *. case_bool_decide; [|done]. subst. by rewrite Hs.
  - apply stable_cons in Hst as [HP Hst]. destruct (po_applies P req); simpl; [|by apply IH].
    destruct (ps_evaluate req w Hw) as [Hv Hw']. destruct (po_evaluate P req w) as [outcome w1]. simpl in Hv, Hw'.
    rewrite <- Hv. destruct outcome as [|r|r].
    + destruct (IH s w1 out Hst Hw' Hs) as (w' & Hinv & ->). exists w'. done.
    + exists w1. split; [done|]. unfold joint_verdict, carried, strongest, metered, meter_and_log. simpl. by case_bool_decide.
    + set (s1 := if bool_decide _ then _ else _).
      assert (as_decision s1 <> "allow") as Hs1 by (subst s1; by case_bool_decide).
      destruct (IH s1 w1 (meter_and_log (po_name P) "audit" out) Hst Hw' (fun H => match Hs1 H with end)) as (w' & Hinv & ->).
      exists w'. split; [done|]. unfold joint_verdict, meter_and_log, metered. cbn [find_map snd omap list_omap ao_violations ao_decisions ao_journal].
      rewrite <- app_assoc. f_equal. f_equal.
      assert (carried s1 (consulted policies req) = carried s ((po_name P, Audit r) :: consulted policies req)) as ->.
      { unfold carried, strongest. rewrite (bool_decide_false _ Hs1). simpl. subst s1. case_bool_decide; simpl; by destruct (find_map _ _). }
      subst s1. by case_bool_decide.
Qed.

Lemma engine_verdict_spec policies req now_ms w out :
  stable_policies policies -> inv w ->
  let l := consulted policies req in
  exists w', inv w' /\
    engine_evaluate policies req now_ms w out =
    (joint_verdict l, w',
     mkOutput (ao_violations out ++ metered l)
       ((fun rows => log_decision rows (admission_row policies req now_ms)) <$> ao_decisions out)
       ((fun lines => lines ++ [JAdmission (admission_row policies req now_ms)]) <$> ao_journal out)).
Proof.
  intros Hst Hw l. unfold engine_evaluate.
  pose proof (shadow_what_if_spec policies req (mkAdmSummary "allow" "" "" "" true) w Hst Hw) as Hsh.
  destruct (shadow_what_if policies req _ w) as [s w1]. destruct Hsh as (Hw1 & ->).
  match goal with |- context [decide_loop policies req now_ms ?s w1 out] =>
    destruct (decide_loop_spec policies req now_ms s w1 out Hst Hw1 (fun _ => eq_refl)) as (w' & Hinv & ->) end.
  exists w'. done.
Qed.
(** C29: The API verdict is the first denial of the applicable policies in order,
    under its policy's name, and an admission otherwise; the shadow what-if,
    the log and the journal never change it. What is metered is what the
    consulted policies said, and the one recorded row carries the strongest of
    it with its first reason, beside the what-if status of every gate and
    whether all of them would admit. *)
Theorem engine_verdict_exact policies req now_ms w out :
  stable_policies policies -> inv w ->
  let l := consulted policies req in
  exists w', inv w' /\
    engine_evaluate policies req now_ms w out =
    (joint_verdict l, w',
     mkOutput (ao_violations out ++ metered l)
       ((fun rows => log_decision rows (admission_row policies req now_ms)) <$> ao_decisions out)
       ((fun lines => lines ++ [JAdmission (admission_row policies req now_ms)]) <$> ao_journal out)).
Proof. apply engine_verdict_spec. Qed.
End EngineFacts.

(** ** Mesh injection *)

#[global] Instance mesh_stable {W} scope (inv : W -> Prop) :
  PolicyStable (MeshInjectionPolicy scope) inv (mesh_evaluate scope) (mesh_shadow_evaluate scope).
Proof. split; done. Qed.

(** A long-running pod without the sidecar and without an opt-in. *)
Definition unmeshed (req : AdmissionRequest) : bool :=
  match ar_object req with Some obj => pod_is_long_running obj && negb (pod_is_meshed obj) | None => false end.

Lemma mesh_verdict_unmeshed req :
  mesh_verdict req = if unmeshed req then Unmeshed "Pod is not Linkerd-meshed (no injected linkerd-proxy)" else MeshPass.
Proof.
  unfold mesh_verdict, unmeshed. destruct (ar_object req) as [obj|]; [|done].
  by destruct (pod_is_long_running obj), (pod_is_meshed obj).
Qed.

Lemma mesh_deny scope req : (exists r, mesh_evaluate scope req = Deny r) <-> enforces scope req = true /\ unmeshed req = true.
Proof.
  unfold mesh_evaluate, scope_decide. rewrite mesh_verdict_unmeshed. destruct (unmeshed req), (enforces scope req); naive_solver.
Qed.

(** ** Image signatures, with whatever the caches hold

    A request asks the registry and reads the clock several times. The registry
    gives one answer per image for as long as the request lasts; the caches may
    hold anything else. *)

Section Answers.
Context {P : Type} (resting : P -> bool) (reg : string -> P) (clock : nat -> Z) (ttl : Z).

(** Whether an entry made at [c] is young enough at the [n]-th reading. *)
Definition fresh_at (c : Z) (n : nat) : bool := (elapsed c (clock n) <? ttl)%Z.

(** The answer a request gets for an image: the cached one while it is young,
    and else the registry's. *)
Definition answer (s : ObsState P) (i : string) : P :=
  match os_cache s !! i with
  | Some (p, c) => if fresh_at c (os_ticks s) then p else reg i
  | None => reg i
  end.

(** No entry runs out between two readings of the request, unless the
    registry would only repeat it. *)
Definition steady (s : ObsState P) : Prop :=
  forall i p c, os_cache s !! i = Some (p, c) ->
    p = reg i \/ forall n, os_ticks s <= n -> fresh_at c n = fresh_at c (os_ticks s).

(** What is left of it along the way: [f] is what is answered. *)
Definition answers (f : string -> P) (s : ObsState P) : Prop :=
  forall i, match os_cache s !! i with
  | Some (p, c) =>
      (p = f i /\ reg i = f i) \/ (p = f i /\ forall n, os_ticks s <= n -> fresh_at c n = true) \/
      (reg i = f i /\ forall n, os_ticks s <= n -> fresh_at c n = false)
  | None => reg i = f i
  end.

Lemma steady_answers s : steady s -> answers (answer s) s.
Proof.
  intros Hs i. unfold answer. destruct (os_cache s !! i) as [[p c]|] eqn:E; [|done].
  destruct (Hs i p c E) as [->|Hn]; [left; by destruct (fresh_at _ _)|right].
  destruct (fresh_at c (os_ticks s)) eqn:Ef; [left|right]; (split; [done|]); intros n Hle; by rewrite Hn.
Qed.

(** Time passes, and the registry's answers come to be kept. *)
Lemma answers_later f s calls n cache :
  answers f s -> os_ticks s <= n ->
  (forall i, cache !! i = os_cache s !! i \/ exists c, cache !! i = Some (reg i, c) /\ reg i = f i) ->
  answers f (mkObs cache calls n).
Proof.
  intros Hs Hn Hc i. simpl. destruct (Hc i) as [->|(c & -> & Hi)]; [|by left]. specialize (Hs i).
  destruct (os_cache s !! i) as [[p c]|]; [|done].
  destruct Hs as [H|[[H1 H2]|[H1 H2]]]; [by left|right; left|right; right]; (split; [done|]); intros m Hm; apply H2; lia.
Qed.

Lemma observe_sound f i s :
  answers f s -> let r := Posture.observe resting (fun _ => reg) clock ttl i s in r.1 = f i /\ answers f r.2.
Proof.
  intros Hs. assert (forall s', os_ticks s <= os_ticks s' -> os_cache s' = os_cache s -> reg i = f i ->
    let r := observe_fresh resting (fun _ => reg) clock i s' in r.1 = f i /\ answers f r.2) as Hf.
  { intros s' Ht Hc Hi. unfold observe_fresh. simpl. destruct (resting (reg i)); simpl; (split; [done|]).
    - apply (answers_later f s); [done|lia|]. intros j. rewrite Hc. destruct (decide (i = j)) as [<-|Hj].
      + right. eexists. by rewrite lookup_insert_eq.
      + left. by rewrite lookup_insert_ne.
    - apply (answers_later f s); [done|lia|]. intros j. left. by rewrite Hc. }
  unfold Posture.observe. pose proof (Hs i) as Hi. destruct (os_cache s !! i) as [[p c]|] eqn:E; [|by apply Hf]. simpl.
  fold (fresh_at c (os_ticks s)). destruct (fresh_at c (os_ticks s)) eqn:Ef; simpl.
  - split; [|by apply (answers_later f s); [done|lia|left]]. destruct Hi as [[H _]|[[H _]|[_ H]]]; [done..|]. rewrite H in Ef; [done|lia].
  - apply Hf; simpl; [lia|done|]. destruct Hi as [[_ H]|[[_ H]|[H _]]]; [done| |done]. rewrite H in Ef; [done|lia].
Qed.
End Answers.

Section SignatureFacts.
(** What the registry answers, and what the request is answered. *)
Variables (reg_chk chk : string -> Checked) (reg_post post : string -> SigningPosture).
Variables (check_clock ask_clock : nat -> Z) (ask_ttl : Z).

Local Notation is_signed_cached := (is_signed_cached (fun _ => reg_chk) check_clock).
Local Notation check_images := (check_images (fun _ => reg_chk) check_clock).
Local Notation gated_decision := (gated_decision (fun _ => reg_chk) check_clock).
Local Notation continuity_block := (continuity_block (fun _ => reg_post) ask_clock ask_ttl).
Local Notation shadow_images := (shadow_images (fun _ => reg_chk) check_clock).
Local Notation sig_evaluate := (sig_evaluate (fun _ => reg_chk) check_clock (fun _ => reg_post) ask_clock ask_ttl).
Local Notation sig_shadow_evaluate := (sig_shadow_evaluate (fun _ => reg_chk) check_clock (fun _ => reg_post) ask_clock ask_ttl).

Definition sig_inv (p : SignaturePolicy) (w : SigState) : Prop :=
  answers reg_chk check_clock (sp_cache_ttl p) chk (ss_checked w) /\ answers reg_post ask_clock ask_ttl post (ss_observed w).

Lemma is_signed_sound p i w :
  sig_inv p w -> (is_signed_cached p i w).1 = chk i /\ sig_inv p (is_signed_cached p i w).2.
Proof.
  intros [H1 H2]. unfold Admission.is_signed_cached.
  destruct (observe_sound is_ok reg_chk check_clock (sp_cache_ttl p) chk i _ H1) as [Hr Ho].
  destruct (Posture.observe _ _ _ _ i _) as [c o]. done.
Qed.

(** The verdict of the gate without its caches. *)
Fixpoint checked_verdict (enforced : bool) (images unsigned : list string) : Decision + list string :=
  match images with
  | [] => inr unsigned
  | image :: images =>
      match chk image with
      | inr true => checked_verdict enforced images unsigned
      | inr false => checked_verdict enforced images (unsigned ++ [image])
      | inl err =>
          if enforced then inl (Deny ("could not verify signature for " +:+ image +:+ ": " +:+ err))
          else checked_verdict enforced images unsigned
      end
  end.

Definition gated_verdict (p : SignaturePolicy) (req : AdmissionRequest) (obj : DynamicObject) : Decision :=
  let images := gated_images p obj in
  if sp_max_images p <? length images then scope_decide (sp_enforce p) req (too_many p images)
  else match checked_verdict (enforces (sp_enforce p) req) images [] with
       | inl d => d
       | inr [] => Allow
       | inr unsigned => scope_decide (sp_enforce p) req (unsigned_reason unsigned)
       end.

Definition continuity_verdict (p : SignaturePolicy) (obj : DynamicObject) : option string :=
  gate ← sp_continuity p;
  match omap (fun i => block_reason gate i (post i)) (take (cg_max_images gate) (distinct_images (pod_images obj))) with
  | [] => None | blocked => Some (join "; " blocked) end.

Definition sig_verdict (p : SignaturePolicy) (req : AdmissionRequest) : Decision :=
  match ar_object req with
  | None => Allow
  | Some obj =>
      match gated_verdict p req obj with
      | Deny r => Deny r
      | d => more_severe d match continuity_verdict p obj with Some r => scope_decide (sp_enforce p) req r | None => Allow end
      end
  end.

Definition sig_shadow (p : SignaturePolicy) (req : AdmissionRequest) : ShadowVerdict :=
  match ar_object req with
  | None => NotApplicable
  | Some obj =>
      let enforced := enforces (sp_enforce p) req in
      let images := gated_images p obj in
      let continuity pass := match continuity_verdict p obj with Some r => shadow_fail enforced r | None => pass end in
      if bool_decide (images = []) then continuity NotApplicable
      else if sp_max_images p <? length images then shadow_fail enforced (too_many p images)
      else match List.filter (fun i => negb (bool_decide (chk i = inr true))) images with
           | [] => continuity (shadow_pass enforced)
           | failed => shadow_fail enforced (unsigned_reason failed)
           end
  end.

Lemma check_images_sound p enforced images : forall unsigned w,
  sig_inv p w -> (check_images p enforced images unsigned w).1 = checked_verdict enforced images unsigned /\
    sig_inv p (check_images p enforced images unsigned w).2.
Proof.
  induction images as [|i images IH]; intros unsigned w Hw; [done|]. simpl. destruct (is_signed_sound p i w Hw) as [Hc Hw'].
  destruct (is_signed_cached p i w) as [c w1]. simpl in Hc, Hw'. subst c.
  destruct (chk i) as [err|[]]; [destruct enforced; [done|]|..]; by apply IH.
Qed.

Lemma shadow_images_sound p images : forall failed w,
  sig_inv p w ->
  (shadow_images p images failed w).1 = failed ++ List.filter (fun i => negb (bool_decide (chk i = inr true))) images /\
    sig_inv p (shadow_images p images failed w).2.
Proof.
  induction images as [|i images IH]; intros failed w Hw; [by rewrite app_nil_r|]. simpl. destruct (is_signed_sound p i w Hw) as [Hc Hw'].
  destruct (is_signed_cached p i w) as [c w1]. simpl in Hc, Hw'. subst c.
  destruct (chk i) as [err|[]]; [rewrite bool_decide_false by done|rewrite bool_decide_true by done|rewrite bool_decide_false by (intros [=])];
    simpl; [destruct (IH (failed ++ [i]) w1 Hw') as [-> ?]|by apply IH|destruct (IH (failed ++ [i]) w1 Hw') as [-> ?]];
    (split; [by rewrite <- app_assoc|done]).
Qed.

Lemma gate_images_sound gate images : forall s, answers reg_post ask_clock ask_ttl post s ->
  (evaluate_images (fun _ => reg_post) ask_clock ask_ttl gate images s).1 = omap (fun i => block_reason gate i (post i)) images /\
    answers reg_post ask_clock ask_ttl post (evaluate_images (fun _ => reg_post) ask_clock ask_ttl gate images s).2.
Proof.
  induction images as [|i images IH]; intros s Hs; [done|]. simpl. unfold signing_observe.
  destruct (observe_sound posture_is_resting reg_post ask_clock ask_ttl post i s Hs) as [Hp Hs'].
  destruct (Posture.observe _ _ _ _ i s) as [q s1]. simpl in Hp, Hs'. subst q. destruct (IH s1 Hs') as [Hb Hs2].
  destruct (evaluate_images _ _ _ gate images s1) as [blocked s2]. simpl in *. rewrite Hb. by destruct (block_reason gate i (post i)).
Qed.

Lemma continuity_sound p obj w :
  sig_inv p w -> (continuity_block p obj w).1 = continuity_verdict p obj /\ sig_inv p (continuity_block p obj w).2.
Proof.
  intros [H1 H2]. unfold Admission.continuity_block, continuity_verdict. destruct (sp_continuity p) as [gate|]; [|done].
  unfold gate_evaluate. destruct (gate_images_sound gate (take (cg_max_images gate) (distinct_images (pod_images obj))) _ H2) as [Hb Hs].
  destruct (evaluate_images _ _ _ gate _ _) as [blocked s]. cbn [fst snd] in *. subst blocked. split; [|by split]. cbn [mbind option_bind]. by destruct (omap _ _).
Qed.

Lemma gated_sound p req obj w :
  sig_inv p w -> (gated_decision p req obj w).1 = gated_verdict p req obj /\ sig_inv p (gated_decision p req obj w).2.
Proof.
  intros Hw. unfold Admission.gated_decision, gated_verdict. destruct (_ <? _); [done|].
  destruct (check_images_sound p (enforces (sp_enforce p) req) (gated_images p obj) [] w Hw) as [Hc Hw'].
  destruct (check_images _ _ _ _ w) as [c w']. simpl in Hc, Hw'. rewrite <- Hc. by destruct c as [|[]].
Qed.

#[global] Instance signature_stable p :
  PolicyStable (image_signature_policy (fun _ => reg_chk) check_clock (fun _ => reg_post) ask_clock ask_ttl p) (sig_inv p) (sig_verdict p) (sig_shadow p).
Proof.
  split; intros req w Hw; simpl.
  - unfold Admission.sig_evaluate, sig_verdict. destruct (ar_object req) as [obj|]; [|done].
    destruct (gated_sound p req obj w Hw) as [Hg Hw']. destruct (gated_decision p req obj w) as [g w1]. simpl in Hg, Hw'. rewrite <- Hg.
    destruct (continuity_sound p obj w1 Hw') as [Hc Hw2]. destruct (continuity_block p obj w1) as [b w2]. simpl in Hc, Hw2. subst b.
    by destruct g.
  - unfold Admission.sig_shadow_evaluate, sig_shadow. destruct (ar_object req) as [obj|]; [|done]. cbv zeta.
    case_bool_decide; [|destruct (_ <? _); [done|]].
    + destruct (continuity_sound p obj w Hw) as [Hc Hw2]. destruct (continuity_block p obj w) as [b w2]. simpl in Hc, Hw2.
      subst b. by destruct (continuity_verdict p obj).
    + destruct (shadow_images_sound p (gated_images p obj) [] w Hw) as [Hs Hw']. destruct (shadow_images p _ [] w) as [failed w1].
      simpl in Hs, Hw'. subst failed. destruct (List.filter _ _); [|done].
      destruct (continuity_sound p obj w1 Hw') as [Hc Hw2]. destruct (continuity_block p obj w1) as [b w2]. simpl in Hc, Hw2.
      subst b. by destruct (continuity_verdict p obj).
Qed.
End SignatureFacts.

(** ** What the signature gate admits *)

Section SignatureVerdict.
Variables (chk : string -> Checked) (post : string -> SigningPosture).

(** Everything the two gates ask of a request's images. *)
Definition images_pass (p : SignaturePolicy) (obj : DynamicObject) : Prop :=
  length (gated_images p obj) <= sp_max_images p /\
  (forall i, i ∈ gated_images p obj -> chk i = inr true) /\
  continuity_verdict post p obj = None.

Lemma checked_enforced images unsigned :
  match checked_verdict chk true images unsigned with
  | inl d => (exists r, d = Deny r) /\ exists i, i ∈ images /\ chk i <> inr true
  | inr l => (l = [] <-> unsigned = [] /\ forall i, i ∈ images -> chk i = inr true)
  end.
Proof.
  revert unsigned. induction images as [|i images IH]; intros unsigned; simpl; [set_solver|].
  destruct (chk i) as [err|[]] eqn:E.
  - split; [eauto|]. exists i. split; [left|congruence].
  - specialize (IH unsigned). destruct (checked_verdict chk true images unsigned) as [d|l].
    + destruct IH as [H1 (j & Hj & Hc)]. split; [done|]. exists j. split; [by right|done].
    + rewrite IH. setoid_rewrite elem_of_cons. naive_solver.
  - specialize (IH (unsigned ++ [i])). destruct (checked_verdict chk true images (unsigned ++ [i])) as [d|l].
    + destruct IH as [H1 (j & Hj & Hc)]. split; [done|]. exists j. split; [by right|done].
    + rewrite IH. split; [intros [H _]; by destruct unsigned|]. intros [_ H]. specialize (H i ltac:(left)). congruence.
Qed.

Lemma checked_audited images unsigned :
  checked_verdict chk false images unsigned = inr (unsigned ++ List.filter (fun i => bool_decide (chk i = inr false)) images).
Proof.
  revert unsigned. induction images as [|i images IH]; intros unsigned; simpl; [by rewrite app_nil_r|].
  destruct (chk i) as [err|[]] eqn:E; rewrite IH; [| |by rewrite <- app_assoc]; done.
Qed.

Lemma deny_or_not (d : Decision) : (exists r, d = Deny r) \/ (d = Allow \/ exists r, d = Audit r).
Proof. destruct d; eauto. Qed.

Lemma gated_enforced p req obj :
  enforces (sp_enforce p) req = true ->
  (gated_verdict chk p req obj = Allow <->
    length (gated_images p obj) <= sp_max_images p /\ forall i, i ∈ gated_images p obj -> chk i = inr true) /\
  (gated_verdict chk p req obj <> Allow -> exists r, gated_verdict chk p req obj = Deny r).
Proof.
  intros He. unfold gated_verdict, scope_decide. rewrite He. destruct (Nat.ltb_spec (sp_max_images p) (length (gated_images p obj))).
  { split; [|eauto]. split; [done|lia]. }
  pose proof (checked_enforced (gated_images p obj) []) as Hc. destruct (checked_verdict _ _ _ _) as [d|l].
  - destruct Hc as [[r ->] (i & Hi & Hn)]. split; [|eauto]. split; [done|]. intros [_ H1]. by destruct Hn; apply H1.
  - destruct l as [|x l]; (split; [|by eauto]); (split; [|]); try done.
    + intros _. split; [done|]. by apply Hc.
    + intros [_ H1]. discriminate (proj2 Hc (conj eq_refl H1)).
Qed.

Lemma signature_verdict_spec p req obj :
  ar_object req = Some obj ->
  (enforces (sp_enforce p) req = true -> ((exists r, sig_verdict chk post p req = Deny r) <-> ~ images_pass p obj)) /\
  (enforces (sp_enforce p) req = false -> ~ exists r, sig_verdict chk post p req = Deny r) /\
  (shadow_would_admit (sig_shadow chk post p req) = true <-> images_pass p obj).
Proof.
  intros Ho. unfold sig_verdict, sig_shadow, images_pass. rewrite Ho. split; [|split].
  - intros He. destruct (gated_enforced p req obj He) as [Hallow Hdeny].
    destruct (decide (gated_verdict chk p req obj = Allow)) as [Ha|Ha].
    + rewrite Ha. apply Hallow in Ha as [H1 H2]. unfold scope_decide. rewrite He.
      destruct (continuity_verdict post p obj) as [r|]; simpl; [|naive_solver].
      split; [intros _ (_ & _ & [=])|by eexists].
    + destruct (Hdeny Ha) as [r Hr]. rewrite Hr. split; [|eauto]. intros _ (H1 & H2 & _). apply Ha, Hallow. done.
  - intros He [r Hr]. unfold gated_verdict, scope_decide in Hr. rewrite He, checked_audited in Hr.
    destruct (_ <? _), (continuity_verdict post p obj), (List.filter (fun i => bool_decide (chk i = inr false)) (gated_images p obj)); simpl in Hr; discriminate.
  - assert (forall l, List.filter (fun i => negb (bool_decide (chk i = inr true))) l = [] <-> forall i, i ∈ l -> chk i = inr true) as Hf.
    { intros l. split.
      - intros Hl i Hi. destruct (decide (chk i = inr true)) as [|Hne]; [done|].
        assert (i ∈ List.filter (fun i => negb (bool_decide (chk i = inr true))) l) as Hx
          by (apply elem_of_filter_b; by rewrite bool_decide_false).
        rewrite Hl in Hx. by apply not_elem_of_nil in Hx.
      - intros Hl. destruct (List.filter _ l) as [|x l'] eqn:E; [done|].
        assert (x ∈ List.filter (fun i => negb (bool_decide (chk i = inr true))) l) as Hx by (rewrite E; left).
        apply elem_of_filter_b in Hx as [Hx Hin]. by rewrite (bool_decide_true _ (Hl x Hin)) in Hx. }
    cbv zeta. case_bool_decide as Hnil; [rewrite Hnil|].
    + destruct (continuity_verdict post p obj); simpl; split; try done; [intros (_ & _ & [=])|].
      intros _. split; [lia|]. split; [|done]. intros i Hi. by apply not_elem_of_nil in Hi.
    + destruct (Nat.ltb_spec (sp_max_images p) (length (gated_images p obj))); simpl; [split; [done|lia]|].
      specialize (Hf (gated_images p obj)). destruct (List.filter _ (gated_images p obj)) as [|x l]; simpl.
      * destruct (continuity_verdict post p obj); simpl; split; try done; [intros (_ & _ & [=])|]. intros _. split; [done|]. split; [by apply Hf|done].
      * split; [done|]. intros (_ & H2 & _). by apply Hf in H2.
Qed.
(** In enforced scope the signature policy refuses a pod exactly unless every
    gated image is verified, there are no more of them than the cap, and no
    image shows a blocking drift: an unreachable registry refuses. Outside it
    nothing is ever refused. A pod's what-if passes exactly when enforcement
    would admit it. *)
Theorem signature_verdict_exact p req obj :
  ar_object req = Some obj ->
  (enforces (sp_enforce p) req = true -> ((exists r, sig_verdict chk post p req = Deny r) <-> ~ images_pass p obj)) /\
  (enforces (sp_enforce p) req = false -> ~ exists r, sig_verdict chk post p req = Deny r) /\
  (shadow_would_admit (sig_shadow chk post p req) = true <-> images_pass p obj).
Proof. apply signature_verdict_spec. Qed.
End SignatureVerdict.

(** ** The webhook *)

Section Webhook.
Variables (reg_chk : string -> Checked) (reg_post : string -> SigningPosture).
Variables (check_clock ask_clock : nat -> Z) (ask_ttl : Z).
Variables (p : SignaturePolicy) (mesh_scope : EnforceScope).

Definition webhook : list (Policy SigState) :=
  [image_signature_policy (fun _ => reg_chk) check_clock (fun _ => reg_post) ask_clock ask_ttl p; MeshInjectionPolicy mesh_scope].

Definition webhook_verdict (chk : string -> Checked) (post : string -> SigningPosture) (P : Policy SigState) : AdmissionRequest -> Decision :=
  if bool_decide (po_name P = "image-signature") then sig_verdict chk post p else mesh_evaluate mesh_scope.

Definition webhook_shadow (chk : string -> Checked) (post : string -> SigningPosture) (P : Policy SigState) : AdmissionRequest -> ShadowVerdict :=
  if bool_decide (po_name P = "image-signature") then sig_shadow chk post p else mesh_shadow_evaluate mesh_scope.

Lemma webhook_stable chk post :
  stable_policies (sig_inv reg_chk chk reg_post post check_clock ask_clock ask_ttl p) (webhook_verdict chk post) (webhook_shadow chk post) webhook.
Proof.
  intros P HP. unfold webhook in HP. apply elem_of_cons in HP as [->|HP%list_elem_of_singleton]; [apply signature_stable|].
  subst P. apply mesh_stable.
Qed.

(** C11: The whole webhook refuses a request exactly when it is a pod with an
    object that fails the image gates inside their enforced scope, or runs
    unmeshed inside the mesh's. The caches may hold anything: an image's answer
    is the cached one while that is younger than the lifetime of its cache, and
    the registry's otherwise, provided that no entry on which the two differ
    runs out while the request is served. What was recorded before and what the
    other gate's what-if says make no difference. *)
Theorem webhook_denies_exactly req now_ms w out :
  steady reg_chk check_clock (sp_cache_ttl p) (ss_checked w) -> steady reg_post ask_clock ask_ttl (ss_observed w) ->
  let chk := answer reg_chk check_clock (sp_cache_ttl p) (ss_checked w) in
  let post := answer reg_post ask_clock ask_ttl (ss_observed w) in
  (exists r, (engine_evaluate webhook req now_ms w out).1.1 = Deny r) <->
  ar_kind req = "Pod" /\ exists obj, ar_object req = Some obj /\
    ((enforces (sp_enforce p) req = true /\ ~ images_pass chk post p obj) \/
     (enforces mesh_scope req = true /\ unmeshed req = true)).
Proof.
  intros Hc Ho chk post.
  destruct (engine_verdict_spec _ _ _ webhook req now_ms w out (webhook_stable chk post)) as (w' & _ & ->);
    [by split; apply steady_answers|]. clear Hc Ho.
  cbn [fst]. unfold webhook, consulted. cbn [po_applies po_name image_signature_policy MeshInjectionPolicy].
  change (webhook_verdict chk post _ req) with (sig_verdict chk post p req) at 1.
  change (webhook_verdict chk post (MeshInjectionPolicy mesh_scope) req) with (mesh_evaluate mesh_scope req).
  unfold is_pod. case_bool_decide as Hk; [|split; [by intros [r [=]]|by intros [? _]]].
  destruct (ar_object req) as [obj|] eqn:Ho.
  - destruct (signature_verdict_spec chk post p req obj Ho) as (He & Hn & _).
    assert ((exists r, sig_verdict chk post p req = Deny r) <-> enforces (sp_enforce p) req = true /\ ~ images_pass chk post p obj) as Hsig.
    { destruct (enforces (sp_enforce p) req); [specialize (He eq_refl)|specialize (Hn eq_refl)]; naive_solver. }
    pose proof (mesh_deny mesh_scope req) as Hmesh. unfold joint_verdict.
    destruct (deny_or_not (sig_verdict chk post p req)) as [[r Hr]|Hr].
    + rewrite Hr. simpl. split; [intros _|by eexists]. split; [done|]. exists obj. split; [done|]. left. apply Hsig. by exists r.
    + assert (~ (enforces (sp_enforce p) req = true /\ ~ images_pass chk post p obj)) as Hns.
      { rewrite <- Hsig. intros [r Hr']. rewrite Hr' in Hr. destruct Hr as [|[? ?]]; discriminate. }
      destruct Hr as [->|[r ->]]; simpl; (destruct (mesh_evaluate mesh_scope req) as [|r'|r'] eqn:Em; simpl;
        [split; [by intros [? ?]|]|split; [intros _|by eexists]|split; [by intros [? ?]|]]).
      all: try (intros (_ & obj' & [= <-] & [H|H]); [by apply Hns in H|apply Hmesh in H as [? ?]; discriminate]).
      all: split; [done|]; exists obj; split; [done|]; right; apply Hmesh; by eexists.
  - split; [|by intros (_ & ? & ? & _)]. unfold sig_verdict, mesh_evaluate, mesh_verdict. rewrite Ho. simpl. by intros [? ?].
Qed.
End Webhook.

(** ** Witnesses *)

Definition pod_of (containers : list Json) : DynamicObject :=
  mkObject None None (JObj [("spec", JObj [("containers", JArr containers)])]).

Definition container (name image : string) : Json := JObj [("name", JStr name); ("image", JStr image)].

Definition web_request : AdmissionRequest :=
  mkRequest "Pod" "web" (Some "public") (Some (pod_of [container "app" "ghcr.io/org/app:1"])).

Definition public_scope : EnforceScope := mkScope {["public"]} [].
Definition org_policy : SignaturePolicy := mkSigPolicy ["ghcr.io/org/"] public_scope 8 300 None.

(** The registry is unreachable. *)
Definition unreachable : string -> Checked := fun _ => inl "timeout".

Lemma signature_verdict_exact_witness :
  exists r, sig_verdict unreachable (fun _ => Checking) org_policy web_request = Deny r.
Proof.
  destruct (signature_verdict_exact unreachable (fun _ => Checking) org_policy web_request
    (pod_of [container "app" "ghcr.io/org/app:1"]) eq_refl) as [H _].
  apply H; [reflexivity|]. intros (_ & H2 & _).
  assert ("ghcr.io/org/app:1" ∈ gated_images org_policy (pod_of [container "app" "ghcr.io/org/app:1"])) as Hin by (vm_compute; left).
  specialize (H2 _ Hin). discriminate H2.
Defined.

Definition idle_state : SigState := mkSigState obs_new obs_new.

Lemma idle_sound chk post check_clock ask_clock ask_ttl p : sig_inv chk chk post post check_clock ask_clock ask_ttl p idle_state.
Proof. split; intros i; simpl; by rewrite lookup_empty. Qed.

(** The image was refused a moment ago; the registry would verify it by now. *)
Definition refused_state : SigState := mkSigState (mkObs {["ghcr.io/org/app:1" := (inr false, 0%Z)]} [] 0) obs_new.

Lemma refused_steady : steady (fun _ => inr true : Checked) (fun _ => 0%Z) 300 (ss_checked refused_state).
Proof. intros i q c _. right. done. Qed.

Lemma unasked_steady {P} (reg : string -> P) clock ttl : steady reg clock ttl obs_new.
Proof. intros i q c H. simpl in H. by rewrite lookup_empty in H. Qed.

Lemma engine_verdict_exact_witness :
  let signed := fun _ : string => inr true : Checked in
  let policies := webhook signed (fun _ => Checking) (fun _ => 0%Z) (fun _ => 0%Z) 300 org_policy public_scope in
  (engine_evaluate policies web_request 5 idle_state (mkOutput [] (Some []) None)).1.1 =
    Deny "[mesh-injection] Pod is not Linkerd-meshed (no injected linkerd-proxy)".
Proof.
  intros signed policies.
  destruct (engine_verdict_exact _ _ _ policies web_request 5 idle_state (mkOutput [] (Some []) None)
    (webhook_stable signed (fun _ => Checking) (fun _ => 0%Z) (fun _ => 0%Z) 300 org_policy public_scope signed (fun _ => Checking))
    (idle_sound _ _ _ _ _ _)) as (w' & _ & H).
  etransitivity; [exact (f_equal (fun r => r.1.1) H)|]. vm_compute. reflexivity.
Defined.

Lemma webhook_denies_exactly_witness :
  exists r, (engine_evaluate (webhook (fun _ => inr true) (fun _ => Checking) (fun _ => 0%Z) (fun _ => 0%Z) 300 org_policy (mkScope ∅ []))
    web_request 5 refused_state (mkOutput [] None None)).1.1 = Deny r.
Proof.
  apply (webhook_denies_exactly (fun _ => inr true) (fun _ => Checking) (fun _ => 0%Z) (fun _ => 0%Z) 300 org_policy (mkScope ∅ [])
    web_request 5 refused_state (mkOutput [] None None) refused_steady (unasked_steady _ _ _)).
  split; [reflexivity|]. eexists. split; [reflexivity|]. left. split; [reflexivity|]. intros (_ & H & _).
  assert ("ghcr.io/org/app:1" ∈ gated_images org_policy (pod_of [container "app" "ghcr.io/org/app:1"])) as Hin by (vm_compute; left).
  specialize (H _ Hin). discriminate H.
Defined.

(** A Deployment, which the mesh gate does not apply to, is still reported as
    one it would refuse: the what-if has no kind check. *)
Lemma deployment_shadow_fails :
  let req := mkRequest "Deployment" "web" (Some "public") (Some (pod_of [])) in
  po_applies (MeshInjectionPolicy (W := SigState) public_scope) req = false /\
  shadow_status (mesh_shadow_evaluate public_scope req) = "would-fail".
Proof. split; vm_compute; reflexivity. Qed.
