(* ===== verification/SigningSweep.v ===== *)
(** * The supply-chain sweeps

    engine/src/engine/supply_chain: signing_sweep.rs, provenance_sweep.rs,
    signing_rekor.rs, signing_baseline_strength.rs and mod.rs. A pass observes
    the running images, records their postures, flags drift against the
    baseline as it stood, learns, compacts, and publishes the snapshot the
    webhook reads. Posture maps are iterated in an arbitrary order; each row is
    stamped by its own clock reading. *)

From S2P Require Import Prelude Text Json ImageRef Posture PolicyLog Journal SigningBaseline SigningDrift Continuity.

#[local] Arguments String.append : simpl nomatch.

(** ** The running images *)

Record PodSpec := mkPodSpec {
  ps_containers : list (option string);
  ps_init_containers : option (list (option string));
  ps_ephemeral_containers : option (list (option string))
}.

Definition snapshot_images (pods : list (option PodSpec)) : list string :=
  pods ≫= fun spec => match spec with
    | None => []
    | Some s => omap id (ps_containers s) ++ omap id (default [] (ps_init_containers s)) ++
                omap id (default [] (ps_ephemeral_containers s))
    end.

(** ** The rows *)

Definition REGRESSION_SUBJECT_PREFIX : string := "SigningRegression/".
Definition EXCEPTION_SUBJECT_PREFIX : string := "SigningException/".
Definition PROVENANCE_SUBJECT_PREFIX : string := "Provenance/".
Definition PROVENANCE_CHANGE_SUBJECT_PREFIX : string := "ProvenanceChange/".
Definition STRENGTH_SUBJECT_PREFIX : string := "SigningStrength/".

(** A row without its stamp. *)
Notation Row := (Z -> PolicyDecisionRecord).

Definition record_rows (stamp : nat -> Z) (rows : list Row) (log : PolicyDecisionLog) : PolicyDecisionLog :=
  foldl log_decision log (imap (fun n r => r (stamp n)) rows).

Definition posture_reason (p : SigningPosture) : string :=
  match p with
  | Signed s => match sg_issuer s with
                | Some issuer => "signed by " +:+ sg_identity s +:+ " via " +:+ issuer
                | None => "signed by " +:+ sg_identity s end
  | SignedKeyBased => "signed with a key-based cosign signature (verified transparency-log inclusion, no Fulcio identity) — signer is opaque to keyless verification"
  | UnverifiableHere => "signature present but could not be verified against our trust root (transparency-log/TUF variance) — not a verification failure"
  | InvalidSignature => "signature present but genuinely fails to verify (tampered/broken chain)"
  | NotSigned => ""
  | Checking => "signing posture not yet known (registry/log unreachable)"
  end.

Definition posture_row (image : string) (p : SigningPosture) : Row :=
  decision_now "image-signature" "allow" ("Image/" +:+ image) image (posture_status p) "" "" (posture_reason p).

Definition before_of (known : option (gset string)) : string :=
  match opt_filter nonempty ((fun s => join ", " (bset_iter s)) <$> known) with Some s => s | None => "unknown" end.

Definition strength_word (established : bool) : string := if established then "established" else "cold".

Definition after_clause (k : RegressionKind) : string :=
  match k with
  | RkUnsigned => "now not signed (was signed)"
  | RkInvalid => "now invalid signature (was signed)"
  | IdentityChange i (Some issuer) => "signed by " +:+ i +:+ " via " +:+ issuer
  | IdentityChange i None => "signed by " +:+ i
  | Downgrade KeyBased => "now key-based signature, no keyless identity (was keyless-verified)"
  | Downgrade Unverifiable => "now unverifiable against our trust root (was keyless-verified)"
  | Downgrade _ => "now a weaker signing posture (was keyless-verified)"
  end.

Definition regression_reason (k : RegressionKind) (baseline : option SigningBaseline) : string :=
  after_clause k +:+ " | before: " +:+ before_of (sb_identities <$> baseline).

Definition regression_row (repo image : string) (k : RegressionKind) (established : bool) (baseline : option SigningBaseline) : Row :=
  decision_now "signing-regression" "allow" (REGRESSION_SUBJECT_PREFIX +:+ repo) image
    ("regression-" +:+ kind_word k +:+ "-" +:+ strength_word established) "" "" (regression_reason k baseline).

(** [replacen("regression-", "exception-", 1)] of a word that starts with it. *)
Definition exception_row (repo image : string) (k : RegressionKind) (established : bool) (baseline : option SigningBaseline) : Row :=
  decision_now "signing-exception" "allow" (EXCEPTION_SUBJECT_PREFIX +:+ repo) image
    ("exception-" +:+ kind_word k +:+ "-" +:+ strength_word established) "" "" (regression_reason k baseline).

Definition strength_row (repo : string) (b : SigningBaseline) : Row :=
  decision_now "signing-strength" "allow" (STRENGTH_SUBJECT_PREFIX +:+ repo) repo
    (if sb_log_corroborated b then "log-corroborated" else "local-only") "" ""
    ("first_seen:" +:+ pretty (Z.to_N (sb_first_seen_ms b))).

Definition dir_token (d : RekorDivergence) : string :=
  match d with RegistrySignedNotInLog => "registry" | LogSignedRegistryUnsigned => "log" end.

Definition divergence_clause (d : RekorDivergence) : string :=
  match d with
  | RegistrySignedNotInLog => "registry↔log divergence: the registry serves a signature the public transparency log has no entry for"
  | LogSignedRegistryUnsigned => "registry↔log divergence: the transparency log records a signature the registry now serves unsigned"
  end.

Definition divergence_row (repo image : string) (d : RekorDivergence) (baseline : option SigningBaseline) : Row :=
  let established := match baseline with Some b => sb_established b | None => false end in
  decision_now "signing-divergence" "allow" (REGRESSION_SUBJECT_PREFIX +:+ repo) image
    ("regression-divergence-" +:+ dir_token d +:+ "-" +:+ strength_word established) "" ""
    (divergence_clause d +:+ " | before: " +:+ before_of (sb_identities <$> baseline)).

Definition provenance_row (image : string) (p : ProvenancePosture) : Row :=
  decision_now "build-provenance" "allow" (PROVENANCE_SUBJECT_PREFIX +:+ image) image
    (match p with PVerified _ => "provenance-verified" | PUnverifiable => "provenance-unverifiable"
     | PAbsent => "no-provenance" | PChecking => "provenance-checking" end) "" ""
    (match p with
     | PVerified p => "built by " +:+ pv_builder p +:+ " from " +:+ pv_source_repo p
     | PUnverifiable => "provenance attestation present but not verified against our trust root (or carried no builder identity) — not a trusted build"
     | PAbsent => "" | PChecking => "build provenance not yet known (registry/log unreachable)" end).

Definition change_row (repo image source builder : string) (established : bool) (baseline : option SigningBaseline) : Row :=
  decision_now "provenance-change" "allow" (PROVENANCE_CHANGE_SUBJECT_PREFIX +:+ repo) image
    ("provenance-change-" +:+ strength_word established) "" ""
    ("built by " +:+ builder +:+ " from " +:+ source +:+ " | before: " +:+ before_of (sb_provenance_builders <$> baseline)).

(** ** Observing *)

Record Observer (P : Type) := mkObserver {
  ob_ask : nat -> string -> P;
  ob_clock : nat -> Z;
  ob_max_images : nat;
  ob_cache_ttl : Z
}.

Arguments ob_ask {P}.
Arguments ob_clock {P}.
Arguments ob_max_images {P}.
Arguments ob_cache_ttl {P}.

(** The postures of a pass; none without an observer or a running image. *)
Definition observe_pass {P} (is_resting : P -> bool) (observer : option (Observer P)) (pods : list (option PodSpec)) (o : ObsState P) :
    option (gmap string P) * ObsState P :=
  match observer with
  | None => (None, o)
  | Some ob =>
      let images := snapshot_images pods in
      if bool_decide (images = []) then (None, o)
      else let '(m, o) := sweep is_resting (ob_ask ob) (ob_clock ob) (ob_max_images ob) (ob_cache_ttl ob) images o in (Some m, o)
  end.

(** ** Detecting and learning *)

Definition regression_of (s : SigningBaselineStore) (es : SigningExceptions) (e : string * SigningPosture) : option Row :=
  let repo := repo_key e.1 in
  let baseline := store_get s repo in
  match classify baseline e.2 with
  | Regression kind established =>
      Some (if accepts es e.1 kind then exception_row repo e.1 kind established baseline
            else regression_row repo e.1 kind established baseline)
  | _ => None
  end.

Definition detect_regressions (s : SigningBaselineStore) (stamp : nat -> Z) (entries : list (string * SigningPosture))
    (es : SigningExceptions) (log : PolicyDecisionLog) : PolicyDecisionLog :=
  record_rows stamp (omap (regression_of s es) entries) log.

Definition change_of (s : SigningBaselineStore) (e : string * ProvenancePosture) : option Row :=
  let repo := repo_key e.1 in
  let baseline := store_get s repo in
  match classify_provenance_drift baseline e.2 with
  | PChange source builder established => Some (change_row repo e.1 source builder established baseline)
  | _ => None
  end.

Definition record_strengths (s : SigningBaselineStore) (stamp : nat -> Z) (entries : list (string * SigningPosture))
    (log : PolicyDecisionLog) : PolicyDecisionLog :=
  record_rows stamp (omap (fun e => let repo := repo_key e.1 in strength_row repo <$> store_get s repo) entries) log.

Section Sweeps.
Variable iter : gmap string SigningBaseline -> list (string * SigningBaseline).
Variables (entries_of : gmap string SigningPosture -> list (string * SigningPosture))
  (prov_entries_of : gmap string ProvenancePosture -> list (string * ProvenancePosture)).
Variable to_string : JournalEntry -> string.

Definition observe_all (s : SigningBaselineStore) (entries : list (string * SigningPosture)) (now_ms : Z) : SigningBaselineStore :=
  foldl (fun s e => (SigningBaseline.observe iter s e.1 e.2 now_ms).1) s entries.

(** What a pass threads: the decision log, the baselines and the journal. *)
Record SweepState := mkSweep { sw_log : PolicyDecisionLog; sw_store : SigningBaselineStore; sw_journal : DecisionJournal }.

(** The clocks and the file system of one pass: a stamp per row of each phase,
    the learning instant, and what each journal line meets. *)
Record SweepClock := mkClock { ck_row : nat -> Z; ck_now : Z; ck_tape : nat -> Z * Io }.

Definition learn_baselines (c : SweepClock) (entries : list (string * SigningPosture)) (w : SweepState) : SweepState :=
  let s := observe_all (sw_store w) entries (ck_now c) in
  mkSweep (sw_log w) s (compact iter to_string s (sw_journal w) (ck_tape c)).

(** [signing_sweep::sweep] over the postures its observer read; nothing happens
    without an observer or without running images. *)
Definition signing_pass (c : SweepClock) (es : SigningExceptions) (observed : option (gmap string SigningPosture)) (w : SweepState) : SweepState :=
  match observed with None => w | Some m =>
  let entries := entries_of m in
  let log := record_rows (ck_row c) ((fun e => posture_row e.1 e.2) <$> entries) (sw_log w) in
  let log := detect_regressions (sw_store w) (ck_row c) entries es log in
  let w := learn_baselines c entries (mkSweep log (sw_store w) (sw_journal w)) in
  mkSweep (record_strengths (sw_store w) (ck_row c) entries (sw_log w)) (sw_store w) (sw_journal w)
  end.

(** [signing_rekor::reconcile]: what the log says of an image, if it answers. *)
Definition reconcile_one (lookup : string -> option string -> option bool) (stamp : Z) (io : Z * Io) (w : SweepState) (e : string * SigningPosture) :
    SweepState :=
  match lookup e.1 (sg_identity <$> posture_signer e.2) with
  | None => w
  | Some signed_in_log =>
      let repo := repo_key e.1 in
      let w :=
        if negb (bool_decide (posture_signer e.2 = None)) && signed_in_log then
          let '(s, flipped) := mark_corroborated (sw_store w) repo in
          if flipped then
            mkSweep (match store_get s repo with Some b => log_decision (sw_log w) (strength_row repo b stamp) | None => sw_log w end)
              s (persist to_string s (sw_journal w) repo io.1 io.2)
          else w
        else w in
      let baseline := store_get (sw_store w) repo in
      let corroborated := match baseline with Some b => sb_log_corroborated b | None => false end in
      match divergence e.2 signed_in_log corroborated with
      | Some d => mkSweep (log_decision (sw_log w) (divergence_row repo e.1 d baseline stamp)) (sw_store w) (sw_journal w)
      | None => w
      end
  end.

Definition rekor_reconcile (lane : option (string -> option string -> option bool)) (c : SweepClock) (m : gmap string SigningPosture) (w : SweepState) : SweepState :=
  match lane with
  | None => w
  | Some lookup => foldl (fun w ne => reconcile_one lookup (ck_row c ne.1) (ck_tape c ne.1) w ne.2) w (imap pair (entries_of m))
  end.

(** [provenance_sweep::sweep]. *)
Definition learn_provenance (c : SweepClock) (entries : list (string * ProvenancePosture)) (w : SweepState) : SweepState :=
  foldl (fun w ne =>
    let '(s, changed) := SigningBaseline.observe_provenance (sw_store w) ne.2.1 ne.2.2 (ck_now c) in
    mkSweep (sw_log w) s (match changed with
                          | Some repo => persist to_string s (sw_journal w) repo (ck_tape c ne.1).1 (ck_tape c ne.1).2
                          | None => sw_journal w end)) w (imap pair entries).

Definition provenance_pass (c : SweepClock) (observed : option (gmap string ProvenancePosture)) (w : SweepState) : SweepState :=
  match observed with None => w | Some m =>
  let entries := prov_entries_of m in
  let log := record_rows (ck_row c) ((fun e => provenance_row e.1 e.2) <$> entries) (sw_log w) in
  let log := record_rows (ck_row c) (omap (change_of (sw_store w)) entries) log in
  learn_provenance c entries (mkSweep log (sw_store w) (sw_journal w))
  end.

(** [run_sweeps]: the three passes, the published snapshot and the health line
    (stuck images, and whether the trust root looks off). *)
Definition sweep_health (m : gmap string SigningPosture) : bool * nat :=
  let resting := List.filter posture_is_resting (entries_of m).*2 in
  (is_unverifiable_spike (length (List.filter (fun p => bool_decide (p = UnverifiableHere)) resting)) (length resting),
   ps_checking (posture_summary m)).

Definition run_sweeps (c1 c2 c3 : SweepClock) (es : SigningExceptions) (lane : option (string -> option string -> option bool))
    (signing : option (gmap string SigningPosture)) (prov : option (gmap string ProvenancePosture))
    (shared : option SigningBaselineStore) (w : SweepState) : SweepState * option SigningBaselineStore * (bool * nat) :=
  let map := default ∅ signing in
  let w := signing_pass c1 es signing w in
  let w := rekor_reconcile lane c2 map w in
  let w := provenance_pass c3 prov w in
  (w, shared_publish shared (sw_store w), sweep_health map).
End Sweeps.

(** ** Lemmas *)

Section SweepFacts.
Context (iter : gmap string SigningBaseline -> list (string * SigningBaseline)).
Hypothesis iter_map : forall m, iter m ≡ₚ map_to_list m.
Context (older : JournalEntry -> Prop).
Hypothesis older_raw : forall e, older e -> raw_line e.
Context (entries_of : gmap string SigningPosture -> list (string * SigningPosture)).
Hypothesis entries_map : forall m, entries_of m ≡ₚ map_to_list m.
Context (prov_entries_of : gmap string ProvenancePosture -> list (string * ProvenancePosture)) (to_string : JournalEntry -> string).

Local Notation run_sweeps := (run_sweeps iter entries_of prov_entries_of to_string).

(** A pass only ever learns: its store is one the engine can reach, and no
    baseline shrinks while there is room. *)
Definition extends (s s' : SigningBaselineStore) : Prop :=
  st_max_repos s' = st_max_repos s /\
  forall repo b, store_get s repo = Some b -> exists b', store_get s' repo = Some b' /\ sb_identities b ⊆ sb_identities b'.

Lemma extends_refl s : extends s s.
Proof. split; [done|]. intros repo b Hb. by exists b. Qed.

Lemma extends_trans a b c : extends a b -> extends b c -> extends a c.
Proof.
  intros [Hm H] [Hm' H']. split; [congruence|]. intros r x Hx. destruct (H r x Hx) as (y & Hy & Hs).
  destruct (H' r y Hy) as (z & Hz & Hs'). exists z. split; [done|set_solver].
Qed.

Lemma extends_put s repo e b :
  store_get s repo = Some e -> sb_identities e ⊆ sb_identities b ->
  extends s (mkSBStore (<[repo := b]> (st_baselines s)) (st_max_repos s)).
Proof.
  intros He Hs. split; [done|]. intros r x Hx. unfold store_get in *. simpl. destruct (decide (r = repo)) as [->|Hne].
  - rewrite lookup_insert_eq. exists b. split; [done|]. rewrite He in Hx. by injection Hx as <-.
  - rewrite lookup_insert_ne by done. by exists x.
Qed.

Lemma observe_provenance_extends s image p now : extends s (SigningBaseline.observe_provenance s image p now).1.
Proof.
  destruct (observe_provenance_put s image p now) as [->|(e & b & He & -> & _ & Hi & _)]; [apply extends_refl|].
  eapply extends_put; [exact He|]. by rewrite Hi.
Qed.

Lemma mark_corroborated_extends s repo : extends s (mark_corroborated s repo).1.
Proof.
  destruct (mark_corroborated_put s repo) as [->|(e & b & He & -> & _ & Hi & _)]; [apply extends_refl|].
  eapply extends_put; [exact He|]. by rewrite Hi.
Qed.

(** What the two later passes do to the store. *)
Lemma reconcile_one_store lookup stamp io w e :
  sw_store (reconcile_one to_string lookup stamp io w e) = sw_store w \/
  sw_store (reconcile_one to_string lookup stamp io w e) = (mark_corroborated (sw_store w) (repo_key e.1)).1.
Proof.
  unfold reconcile_one. destruct (lookup e.1) as [signed|]; [|by left]. cbv zeta.
  destruct (_ && signed) eqn:E; [|left; by destruct (divergence _ _ _)].
  destruct (mark_corroborated (sw_store w) (repo_key e.1)) as [s []] eqn:Em; [right|left]; by destruct (divergence _ _ _).
Qed.

Lemma rekor_reconcile_store lane c m now : forall w,
  reached iter older now (sw_store w) ->
  let w' := rekor_reconcile entries_of to_string lane c m w in
  reached iter older now (sw_store w') /\ extends (sw_store w) (sw_store w').
Proof.
  unfold rekor_reconcile. destruct lane as [lookup|]; [|intros w Hw; split; [done|apply extends_refl]].
  generalize (imap pair (entries_of m)). induction l as [|ne l IH]; intros w Hw; [split; [done|apply extends_refl]|]. simpl.
  set (w1 := reconcile_one _ _ _ _ w ne.2).
  assert (reached iter older now (sw_store w1) /\ extends (sw_store w) (sw_store w1)) as [Hr1 He1].
  { destruct (reconcile_one_store lookup (ck_row c ne.1) (ck_tape c ne.1) w ne.2) as [H|H]; unfold w1; rewrite H;
      [split; [done|apply extends_refl]|]. split; [by eapply reached_corroborated|apply mark_corroborated_extends]. }
  destruct (IH w1 Hr1) as [Hr He]. split; [done|by eapply extends_trans].
Qed.

Lemma learn_provenance_store c entries now w :
  reached iter older now (sw_store w) -> (now <= ck_now c)%Z ->
  let w' := learn_provenance to_string c entries w in
  reached iter older (ck_now c) (sw_store w') /\ extends (sw_store w) (sw_store w').
Proof.
  intros Hw Hn. assert (reached iter older (ck_now c) (sw_store w)) as Hw'.
  { by eapply reached_later. }
  clear Hw Hn. unfold learn_provenance. revert w Hw'. generalize (imap pair entries).
  induction l as [|ne l IH]; intros w Hw; [split; [done|apply extends_refl]|]. simpl.
  pose proof (observe_provenance_extends (sw_store w) ne.2.1 ne.2.2 (ck_now c)) as He.
  pose proof (reached_provenance iter older (ck_now c) (ck_now c) _ ne.2.1 ne.2.2 Hw ltac:(lia)) as Hr.
  destruct (SigningBaseline.observe_provenance _ _ _ _) as [s changed]. simpl in He, Hr.
  set (w1 := mkSweep _ s _). destruct (IH w1 Hr) as [Hr2 He2]. split; [done|by eapply extends_trans].
Qed.

(** Learning every entry: a signer that ran is known afterwards, as long as the
    repositories fit. *)
Lemma observe_all_store entries now : forall s,
  store_ok older now s -> size (dom (st_baselines s) ∪ list_to_set ((fun e => repo_key e.1) <$> entries)) <= st_max_repos s ->
  let s' := observe_all iter s entries now in
  store_ok older now s' /\ extends s s' /\
  forall i g, (i, Signed g) ∈ entries -> exists b, store_get s' (repo_key i) = Some b /\ signer_canonical_identity g ∈ sb_identities b.
Proof.
  induction entries as [|[i p] entries IH]; intros s Hok Hs; simpl.
  { split; [done|]. split; [apply extends_refl|]. intros i g Hi. by apply not_elem_of_nil in Hi. }
  assert (store_ok older now (SigningBaseline.observe iter s i p now).1) as Hok1 by (by apply observe_ok).
  set (s1 := (SigningBaseline.observe iter s i p now).1) in *.
  assert (extends s s1 /\ dom (st_baselines s1) ⊆ dom (st_baselines s) ∪ {[repo_key i]} /\
    forall g, p = Signed g -> exists b, store_get s1 (repo_key i) = Some b /\ signer_canonical_identity g ∈ sb_identities b)
    as (He1 & Hd1 & Hg1).
  { subst s1. unfold SigningBaseline.observe. destruct (posture_signer p) as [g|] eqn:Ep.
    - destruct (st_baselines s !! repo_key i) as [e|] eqn:E.
      + destruct (reobserve_ok older e g p now _ (so_entries _ _ _ Hok _ _ E) Ep) as (_ & Hg & Hin).
        destruct (reobserve e g p now) as [b ch]. simpl in *. split; [eapply extends_put; [exact E|apply Hg]|].
        split; [rewrite dom_insert_L; clear; set_solver|]. intros g' ->. injection Ep as ->. exists b. unfold store_get. simpl.
        by rewrite lookup_insert_eq.
      + assert (evict_if_full iter s = s) as ->.
        { assert (repo_key i ∉ dom (st_baselines s)) as Hn by (by apply not_elem_of_dom).
          destruct (evict_spec iter iter_map s (so_cap _ _ _ Hok) (so_bound _ _ _ Hok)) as (_ & Hno & _). apply Hno.
          rewrite <- size_dom. eapply Nat.lt_le_trans; [|exact Hs].
          apply subset_size. split; [clear; set_solver|]. intros Hsub. apply Hn, Hsub. clear. set_solver. }
        simpl. split; [|split; [rewrite dom_insert_L; clear; set_solver|]].
        * split; [done|]. intros r b Hr. exists b. split; [|done]. unfold store_get in *. simpl. rewrite lookup_insert_ne; [done|congruence].
        * intros g' ->. injection Ep as ->. eexists. unfold store_get. simpl. rewrite lookup_insert_eq. split; [done|].
          simpl. clear. set_solver.
    - simpl. split; [apply extends_refl|]. split; [clear; set_solver|]. intros g' ->. done. }
  destruct (IH s1 Hok1) as (Hok2 & He2 & Hg2).
  { rewrite (proj1 He1). etransitivity; [apply subseteq_size|exact Hs]. simpl. clear -Hd1. set_solver. }
  fold (observe_all iter s1 entries now). split; [done|]. split; [by eapply extends_trans|].
  intros j g [[= -> <-]|Hj]%elem_of_cons; [|by apply Hg2].
  destruct (Hg1 g eq_refl) as (b & Hb & Hin). destruct (proj2 He2 _ _ Hb) as (b' & Hb' & Hsub). exists b'. split; [done|]. by apply Hsub.
Qed.

Lemma observe_all_reached entries now now' s :
  reached iter older now s -> (now <= now')%Z -> reached iter older now' (observe_all iter s entries now').
Proof.
  intros Hr Hn. assert (reached iter older now' s) as Hr' by (by eapply reached_later).
  clear Hr Hn. unfold observe_all. revert s Hr'. induction entries as [|e entries IH]; intros s Hs; [done|]. simpl. apply IH.
  by eapply reached_observe.
Qed.

(** ** What a pass over the running pods publishes *)


(** The inventory and the gate never disagree on a regression. Over the same
    baseline and exceptions, and without pins, the gate refuses an image exactly
    when the sweep records an established regression of it on the loud channel,
    or its signature is broken and not excepted. *)
Theorem sweep_gate_agree s es max_images image posture :
  let g := mkGate (Some s) es [] max_images in
  is_Some (block_reason g image posture) <->
  (exists kind, regression_of s es (image, posture) =
     Some (regression_row (repo_key image) image kind true (store_get s (repo_key image)))) \/
  (posture = InvalidSignature /\ accepts es image RkInvalid = false).
Proof.
  intros g. unfold block_reason, regression_of, shared_get. cbn [cg_pins cg_baseline cg_exceptions g violated_pin List.find fst snd mbind option_bind].
  set (baseline := store_get s (repo_key image)). cbv zeta.
  assert (forall k k' e e', exception_row (repo_key image) image k e baseline <> regression_row (repo_key image) image k' e' baseline) as Hrow.
  { intros k k' e e' H. apply (f_equal (fun r => pd_policy (r 0%Z))) in H. discriminate H. }
  assert (forall k k' e, regression_row (repo_key image) image k e baseline = regression_row (repo_key image) image k' true baseline -> e = true) as Hcold.
  { intros k k' e H. destruct e; [done|]. exfalso. apply (f_equal (fun r => pd_signature (r 0%Z))) in H. simpl in H.
    assert (forall a b, "regression-" +:+ a +:+ "-" +:+ "cold" = "regression-" +:+ b +:+ "-" +:+ "established" -> False) as Hne.
    { intros a b Hab. apply (f_equal str_rev) in Hab. rewrite !str_rev_append in Hab. discriminate Hab. }
    by apply Hne in H. }
  destruct (classify baseline posture) as [| |kind est] eqn:Ec; cbn [would_block].
  - destruct posture; cbn [would_block negb];
      try (split; [intros [? H]; discriminate H|intros [(k & H)|[H _]]; discriminate H]).
    destruct (accepts es image RkInvalid) eqn:Ea.
    + split; [intros [? H]; discriminate H|intros [(k & H)|[_ H]]; discriminate H].
    + split; [by right|intros _; by eexists].
  - destruct posture; cbn [would_block negb];
      try (split; [intros [? H]; discriminate H|intros [(k & H)|[H _]]; discriminate H]).
    destruct baseline; discriminate Ec.
  - destruct (accepts es image kind) eqn:Ea.
    + split; [intros [? H]; destruct posture, est; discriminate H|]. intros [(k & [= H])|[-> Hx]]; [by apply Hrow in H|].
      exfalso. destruct baseline; [|done]. injection Ec as <- _. congruence.
    + destruct est.
      * split; [intros _; left; by exists kind|]. intros _. destruct posture; by eexists.
      * split.
        -- intros [r Hr]. destruct posture; try discriminate Hr. right. split; [done|]. destruct baseline; [|done]. by injection Ec as <- _.
        -- intros [(k & [= H])|[-> _]]; [by apply Hcold in H|by eexists].
Qed.
End SweepFacts.

Definition quiet_clock (now : Z) : SweepClock := mkClock (fun _ => now) now (fun _ => (now, IoOk)).

