(* ===== verification/Engine.v ===== *)
(** * One engine pass (engine/src/engine/mod.rs, [Engine::process])

    From a graph and a health report to the cuts applied and reverted. The
    observation adapters that build the graph, metrics, logging and the output
    snapshots are outside this step; what it writes to the cluster and to the
    journal is its trace. *)

From S2P Require Import Prelude Text PetGraph Attack Behavior Classify Graph Chain Prove Boundary.
From S2P Require Import Respond Actuator Render NodeContainment Backoff Verdicts Incident AdjPass Divergence.

Definition JUDGE_FRESHNESS_BOUND : Z := from_secs (15 * 60).

(** What a pass does, in order. *)
Inductive Effect :=
  | FxPass (f : PassEffect)
  | FxDivergence (r : DivergenceRecord)
  | FxApply (m : Mitigation)
  | FxJournalApply (cut : string)
  | FxContainNode (outcome : ProposalOutcome)
  | FxRevert (m : Mitigation)
  | FxNode (f : NodeEffect)
  | FxReversion (cut reason : string).

Record Engine := mkEngine {
  en_active : EnabledActions;
  en_scope : ActuationScope;
  en_pass : PassState;
  en_ledger : Ledger;
  en_actions : ActionLog;
  en_node_facts : gmap string NodeFact;
  en_node_actuator : bool
}.

(** [poll_break_glass]: an engaged switch narrows this pass to nothing armed. *)
Definition poll_break_glass (en : Engine) (engaged : bool) : EnabledActions :=
  if engaged then enabled_none else en_active en.

Definition gate_on_judge_freshness (verdicts : VerdictStore) (m : Mitigation) (decision : CutDecision) (now : Z)
    : CutDecision :=
  match decision with
  | AutoApply =>
      if existsb (fun entry => verdict_fresh verdicts entry now JUDGE_FRESHNESS_BOUND) (live_corroborating_entries m)
      then AutoApply
      else Propose "judge is degraded (breaker open, or no fresh decisive verdict within the trust window); held as a proposal until the model verifiably answers again"
  | _ => decision
  end.

Section Engine.
Context {G : Type} `{SG : !StableGraph G Node Edge}.
Variable default_hash : string -> Z.
Variable delta_prompt :
  NodeKey -> list (NodeKey * AttackRef) -> option JudgedSurface -> list NodeKey -> Menu -> DeltaBuild.
Variable entry_coverage : NodeKey -> list string * bool.
Implicit Types sg : SecurityGraph G.

(** The body of the loop over the active mitigations. *)
Definition actuate_one (verdicts : VerdictStore) (effective : EnabledActions) (scope : ActuationScope)
    sg (health : HealthReport) (fleet : list NodeFact) (now : Z)
    (acc : ActionLog * list BlastRadius * list Effect) (m : Mitigation)
    : ActionLog * list BlastRadius * list Effect :=
  let '(log, blasts, fx) := acc in
  let blast := predict_blast_radius m sg health in
  let decision := gate_on_judge_freshness verdicts m (decide_cut m effective scope blast) now in
  let '(log, applied) :=
    match decision with
    | AutoApply =>
        if log_is_active log m then (log, [])
        else (log_record log m (alive_workloads health), [FxApply m; FxJournalApply (m_signature m)])
    | _ => (log, [])
    end in
  let armed := is_enabled effective ContainNode in
  let scoped := if bool_decide (m_action m = ContainNode)
                then contain_node_in_scope sg (l_from (m_cut m)) scope else in_scope scope m in
  let proposal := option_list (FxContainNode <$> evaluate_proposal m armed scoped fleet) in
  (log, blasts ++ [blast], fx ++ applied ++ proposal).

(** The self-reverting loop; [patch_ok] is the cluster's answer to an uncordon. *)
Definition revert_one (attached patch_ok : bool) (facts : gmap string NodeFact) sg (r : Reversion) : list Effect :=
  (if bool_decide (m_action (rv_mitigation r) = ContainNode)
   then FxNode <$> revert_contain_node attached patch_ok facts (rv_mitigation r) sg
   else [FxRevert (rv_mitigation r)])
  ++ [FxReversion (m_signature (rv_mitigation r)) (rv_reason r)].

Definition refresh_node_facts (facts : gmap string NodeFact) (nodes : list K8sNode) : gmap string NodeFact :=
  if bool_decide (nodes = []) then facts
  else foldl (fun m f => <[nf_name f := f]> m) ∅ (observe_node_facts nodes).

(** From the reconciled ledger to the trace of applied and reverted cuts. *)
Definition actuate (en : Engine) (ledger : Ledger) (verdicts : VerdictStore) (effective : EnabledActions)
    (facts : gmap string NodeFact) (patch_ok : bool) sg (health : HealthReport) (now : Z)
    : ActionLog * list (Mitigation * BlastRadius) * list Effect :=
  let active_mitigations := btree_values ledger in
  let '(log, blasts, fx) :=
    foldl (actuate_one verdicts effective (en_scope en) sg health (btree_values facts) now)
      (en_actions en, [], []) active_mitigations in
  let justified : gset string := list_to_set (m_signature <$> btree_values ledger) in
  let '(log, reversions) := log_reconcile log health justified effective in
  (log, zip active_mitigations blasts,
   fx ++ concat (revert_one (en_node_actuator en) patch_ok facts sg <$> reversions)).

(** The inputs a pass observes. *)
Record Observed := mkObserved {
  ob_health : HealthReport;
  ob_nodes : list K8sNode;
  ob_break_glass : bool;
  ob_patch_ok : bool;
  ob_now : Z
}.

Definition process (complete : list PendingEntry -> list (PendingEntry * IncidentDecision))
    (en : Engine) (ob : Observed) sg : option (Engine * list (Mitigation * BlastRadius) * list Effect) :=
  let health := ob_health ob in
  chains ← prove sg;
  '(st, chains, pass_fx) ←
    run_adjudication_pass default_hash delta_prompt entry_coverage chains sg health (en_active en) complete
      (ob_now ob) (en_pass en);
  let decisions := ps_decisions st in
  let divergence := compute_divergence chains decisions in
  let '(ledger, _) := reconcile (en_ledger en) chains decisions in
  let facts := refresh_node_facts (en_node_facts en) (ob_nodes ob) in
  let effective := poll_break_glass en (ob_break_glass ob) in
  let '(log, preview, fx) :=
    actuate en ledger (ps_verdicts st) effective facts (ob_patch_ok ob) sg health (ob_now ob) in
  Some (mkEngine (en_active en) (en_scope en) st ledger log facts (en_node_actuator en), preview,
        (FxPass <$> pass_fx) ++ (FxDivergence <$> divergence) ++ fx).

End Engine.
