(* ===== verification/Restore.v ===== *)
(** * Boot: replaying the journal

    engine/src/engine/restore.rs ([Engine::replay_journal]) and the admission
    log's restore of run_loop.rs: what the engine remembers of its life before
    the restart. *)

From S2P Require Import Prelude Text PetGraph Attack Behavior Classify Graph Chain Prove Boundary.
From S2P Require Import Respond Actuator Render NodeContainment Backoff Verdicts VerdictFacts Incident AdjPass Divergence Engine.
From S2P Require Import ImageRef Posture PolicyLog Journal.

(** ** The replay *)

(** The in-memory views a boot fills; everything else starts empty. *)
Record Restored := mkViews {
  rs_verdicts : VerdictStore;
  rs_decisions : gmap string RestoredDecision;
  rs_reversions : list ReversionRecord;
  rs_divergence : list DivergenceRow;
  rs_last_pass : option Z
}.

Definition replay_entry (restored_at : Z) (r : Restored) (e : JournalEntry) : Restored :=
  match je_decision e with
  | JBreach key _ verdict _ fingerprint typed =>
      let v := seed_restored (rs_verdicts r) key verdict restored_at in
      let v := match fingerprint, typed with Some fp, Some t => cache_decisive v key fp t | _, _ => v end in
      mkViews v (rs_decisions r) (rs_reversions r) (rs_divergence r) (rs_last_pass r)
  | JRevert cut reason =>
      mkViews (rs_verdicts r) (rs_decisions r) (record_reversion (rs_reversions r) (mkReversion cut reason (je_at_ms e)))
        (rs_divergence r) (rs_last_pass r)
  | JIncident key _ assessment reason cuts fp =>
      mkViews (rs_verdicts r) (<[key := mkRestored fp assessment reason cuts]> (rs_decisions r)) (rs_reversions r)
        (rs_divergence r) (rs_last_pass r)
  | JCutDivergence key class m d =>
      mkViews (rs_verdicts r) (rs_decisions r) (rs_reversions r)
        (record_divergence (rs_divergence r) (mkDivergenceRow key class m d (je_at_ms e))) (rs_last_pass r)
  | JApply _ | JAdmission _ | JSigningBaseline _ _ _ _ _ _ _ _ _ => r
  end.

Definition replay_entries (restored_at : Z) (es : list JournalEntry) (r : Restored) : Restored :=
  match es with
  | [] => r
  | _ =>
      let latest := foldl (fun t e => Z.max t (je_at_ms e)) 0%Z es in
      let r := foldl (replay_entry restored_at) r es in
      if (0 <? latest)%Z
      then mkViews (rs_verdicts r) (rs_decisions r) (rs_reversions r) (rs_divergence r) (Some latest)
      else r
  end.

Section Replay.
Variable from_str : string -> option JournalEntry.

Definition replay_journal (restored_at : Z) (j : DecisionJournal) (r : Restored) : Restored :=
  replay_entries restored_at (replay from_str j) r.

Definition restore_admission_log (j : DecisionJournal) (log : PolicyDecisionLog) : PolicyDecisionLog :=
  foldl (fun log e => match je_decision e with JAdmission record => log_restore log record | _ => log end) log
    (replay from_str j).
End Replay.

(** The engine the run loop starts: the restored memory, and nothing standing. *)
Definition boot_views (slots : nat) : Restored := mkViews (with_cache_slots slots) ∅ [] [] None.

Definition booted (active : EnabledActions) (scope : ActuationScope) (node_actuator : bool) (r : Restored) : Engine :=
  mkEngine active scope (mkPass (rs_verdicts r) ∅ (rs_decisions r)) ∅ [] ∅ node_actuator.

(** ** What the lines of one kind say *)

Definition incident_of (key : string) (e : JournalEntry) : option RestoredDecision :=
  match je_decision e with
  | JIncident k _ assessment reason cuts fp => if bool_decide (k = key) then Some (mkRestored fp assessment reason cuts) else None
  | _ => None
  end.

Definition breach_of (key : string) (e : JournalEntry) : option (string * option (string * Verdict)) :=
  match je_decision e with
  | JBreach k _ verdict _ fp typed =>
      if bool_decide (k = key) then Some (verdict, match fp, typed with Some fp, Some t => Some (fp, t) | _, _ => None end) else None
  | _ => None
  end.

Definition reversion_of (e : JournalEntry) : option ReversionRecord :=
  match je_decision e with JRevert cut reason => Some (mkReversion cut reason (je_at_ms e)) | _ => None end.

(** A capped ring fed in order keeps the newest. *)
Lemma push_capped_fold {A} cap (rows l : list A) :
  0 < cap -> length rows <= cap ->
  exists old, foldl (push_capped cap) rows l = drop old (rows ++ l) /\ length (rows ++ l) - cap <= old /\
    (length (rows ++ l) <= cap -> old = 0) /\ old <= length (rows ++ l) - Nat.min cap (length (rows ++ l)).
Proof.
  intros Hc. revert rows. induction l as [|x l IH]; intros rows Hr; simpl.
  - exists 0. rewrite app_nil_r, drop_0. split; [done|]. lia.
  - destruct (IH (push_capped cap rows x) (push_capped_length cap rows x Hc Hr)) as (old & -> & H1 & H2 & H3).
    unfold push_capped in *. destruct (Nat.leb_spec cap (length rows)).
    + exists (S old). destruct rows as [|y rows]; [simpl in *; lia|]. simpl in *. rewrite drop_0 in *. rewrite <- app_assoc in *.
      split; [done|]. rewrite !length_app in *. simpl in *. lia.
    + exists old. rewrite <- app_assoc in *. split; [done|]. rewrite !length_app in *. simpl in *. lia.
Qed.

Lemma foldl_decisions restored_at es r key :
  rs_decisions (foldl (replay_entry restored_at) r es) !! key =
  match last (omap (incident_of key) es) with Some d => Some d | None => rs_decisions r !! key end.
Proof.
  induction es as [|e es IH] using rev_ind; [done|]. rewrite foldl_snoc, omap_snoc. unfold replay_entry at 1, incident_of at 2.
  destruct (je_decision e); simpl; rewrite ?app_nil_r; [apply IH| |apply IH..].
  case_bool_decide as Hk; simpl; [subst; by rewrite lookup_insert_eq, last_snoc|].
  by rewrite lookup_insert_ne, app_nil_r.
Qed.

Lemma foldl_reversions restored_at es r :
  rs_reversions (foldl (replay_entry restored_at) r es) =
  foldl (push_capped REVERSION_CAP) (rs_reversions r) (omap reversion_of es).
Proof.
  induction es as [|e es IH] using rev_ind; [done|]. rewrite foldl_snoc, omap_snoc, foldl_app, <- IH.
  unfold replay_entry at 1, reversion_of. by destruct (je_decision e).
Qed.

(** What the replay leaves in the store for an entry. *)
Definition shows (e : VerdictEntry) (b : string * option (string * Verdict)) : Prop :=
  ve_restored e = Some b.1 /\ forall fp v, b.2 = Some (fp, v) -> (lru_get (ve_cached e) fp).1 = Some v.

Lemma lru_insert_get slots fp v cap : (lru_get (lru_insert slots fp v cap) fp).1 = Some v.
Proof.
  unfold lru_insert. destruct (Nat.max cap 1) as [|n] eqn:E; [lia|]. unfold lru_get. cbn [take position_remove fst].
  by rewrite bool_decide_true.
Qed.

Lemma foldl_verdicts restored_at es r key b :
  last (omap (breach_of key) es) = Some b ->
  shows (store_entry (rs_verdicts (foldl (replay_entry restored_at) r es)) key) b.
Proof.
  induction es as [|e es IH] using rev_ind; [done|]. rewrite foldl_snoc, omap_snoc.
  unfold replay_entry at 1, breach_of at 2. destruct (je_decision e) as [k ? text ? fp typed| | | | | |];
    simpl; rewrite ?app_nil_r; try exact IH.
  case_bool_decide as Hk; simpl.
  - subst k. rewrite last_snoc. intros [= <-]. destruct fp as [fp|], typed as [v|]; simpl; unfold cache_decisive, seed_restored.
    all: repeat (rewrite store_entry_update, decide_True by done); split; [done|]; intros ? ? [=]. subst. apply lru_insert_get.
  - rewrite app_nil_r. intros Hb. destruct fp, typed; simpl; unfold cache_decisive, seed_restored;
      repeat (rewrite store_entry_update, decide_False by done); by apply IH.
Qed.

Lemma foldl_display restored_at es slots key :
  ve_display (store_entry (rs_verdicts (foldl (replay_entry restored_at) (boot_views slots) es)) key) = None.
Proof.
  induction es as [|e es IH] using rev_ind; [unfold store_entry; simpl; by rewrite lookup_empty|]. rewrite foldl_snoc.
  unfold replay_entry at 1. destruct (je_decision e) as [k ? text ? fp typed| | | | | |]; try exact IH. simpl.
  destruct fp, typed; simpl; unfold cache_decisive, seed_restored; rewrite ?store_entry_update; repeat destruct (decide _);
    subst; done.
Qed.

(** The freshness stamp aside, the replay is the fold of its entries. *)
Lemma replay_fold restored_at es r :
  let r' := replay_entries restored_at es r in
  let f := foldl (replay_entry restored_at) r es in
  rs_verdicts r' = rs_verdicts f /\ rs_decisions r' = rs_decisions f /\ rs_reversions r' = rs_reversions f.
Proof. destruct es; [done|]. unfold replay_entries. by case_match. Qed.

Section Restart.
Context (to_string : JournalEntry -> string) (from_str : string -> option JournalEntry).
Context `{!LineFormat to_string from_str}.

(** Reopening a journal that held loses nothing, and it holds on. *)
Lemma reopened_replay j all r a cap :
  holds to_string j all r a cap -> replay from_str (journal_open (dj_volume j) true) = replay from_str j.
Proof. intros [Hon Hv _ _]. unfold is_enabled in Hon. bools. unfold replay, journal_open. by rewrite H, Hv. Qed.

(** C28: A restart remembers. Whatever was journaled to a fresh volume, the engine
    that reopens it replays, of everything within the last [MAX_BYTES] of
    lines: for each entry its last cut-choice decision, staged verbatim; its
    last breach line, shown, and served again to the same fingerprint; and the
    newest [REVERSION_CAP] reversions in order. A decision of an older line is
    staged only when no newer line of its entry exists. *)
Theorem restart_remembers old recent cap slots restored_at :
  (forall e, e ∈ old ++ recent -> (line_size to_string e <= cap)%Z) -> (0 < cap)%Z ->
  (lines_size to_string recent <= MAX_BYTES)%Z ->
  let j := record_all to_string (journal_open empty_volume true) ((fun e => (e, IoOk)) <$> old ++ recent) in
  let r := replay_journal from_str restored_at (journal_open (dj_volume j) true) (boot_views slots) in
  (forall key d, last (omap (incident_of key) recent) = Some d -> rs_decisions r !! key = Some d) /\
  (forall key d, rs_decisions r !! key = Some d -> last (omap (incident_of key) (old ++ recent)) = Some d) /\
  (forall key text typed, last (omap (breach_of key) recent) = Some (text, typed) ->
     display_summary (rs_verdicts r) key = Some text /\
     forall fp v, typed = Some (fp, v) -> (cached_for (rs_verdicts r) key fp).1 = Some v) /\
  exists n, rs_reversions r = drop n (omap reversion_of (old ++ recent)) /\
    Nat.min REVERSION_CAP (length (omap reversion_of recent)) <= length (rs_reversions r) <= REVERSION_CAP.
Proof.
  intros Hc Hcap Hs j r. destruct (record_all_holds to_string _ _ _ _ _ _ (open_holds to_string cap Hcap) Hc) as (ra & aa & Hh).
  fold j in Hh. rewrite app_nil_l in Hh. destruct (holds_recent to_string from_str _ _ _ _ _ _ Hh Hs) as (kept & Hr & [gone Hgone]).
  destruct (replay_fold restored_at (kept ++ recent) (boot_views slots)) as (Ev & Ed & Ew).
  assert (r = replay_entries restored_at (kept ++ recent) (boot_views slots)) as Er.
  { unfold r, replay_journal. by rewrite (reopened_replay _ _ _ _ _ Hh), Hr. }
  split; [|split; [|split]].
  - intros key d Hd. by rewrite Er, Ed, foldl_decisions, omap_app, last_app, Hd.
  - intros key d. rewrite Er, Ed, foldl_decisions. subst old. intros Hd. destruct (last _) as [d'|] eqn:E; [|by simpl in Hd; rewrite lookup_empty in Hd].
    injection Hd as <-. by rewrite <- app_assoc, omap_app, last_app, E.
  - intros key text typed Hb. assert (last (omap (breach_of key) (kept ++ recent)) = Some (text, typed)) as Hl
      by (by rewrite omap_app, last_app, Hb).
    destruct (foldl_verdicts restored_at _ (boot_views slots) key _ Hl) as [Ht Hv].
    rewrite Er, Ev. split.
    + unfold display_summary. rewrite entry_field by done. unfold entry_display_summary. by rewrite foldl_display, Ht.
    + intros fp v ->. specialize (Hv fp v eq_refl). revert Hv. unfold cached_for, store_entry.
      destruct (vs_entries _ !! key) as [e|]; simpl; [|done]. by destruct (lru_get _ _).
  - rewrite Er, Ew, foldl_reversions. change (rs_reversions (boot_views slots)) with (@nil ReversionRecord).
    destruct (push_capped_fold REVERSION_CAP [] (omap reversion_of (kept ++ recent))) as (n & -> & H1 & _ & H3);
      [vm_compute; lia|simpl; lia|]. rewrite app_nil_l in *.
    exists (length (omap reversion_of gone) + n). subst old. rewrite <- app_assoc, (omap_app _ gone), length_drop.
    split; [by rewrite <- drop_drop, drop_app_length|]. rewrite omap_app, length_app in *. lia.
Qed.
End Restart.

Lemma restart_remembers_witness :
  let lost := mkJEntry 1 (JIncident "pod/default/web" 1 ANoAttack "calm" [] "fp-old") in
  let incident := mkJEntry 2 (JIncident "pod/default/web" 1 AAttack "an attack" [] "fp") in
  let breach := mkJEntry 3 (JBreach "pod/default/web" 1 "an attack" None (Some "fp") (Some (Refuted "calm"))) in
  let j := record_all BitCodec.to_string (journal_open empty_volume true) [(lost, IoOk); (incident, IoOk); (breach, IoOk)] in
  let r := replay_journal BitCodec.from_str 0 (journal_open (dj_volume j) true) (boot_views 32) in
  rs_decisions r !! "pod/default/web" = Some (mkRestored "fp" AAttack "an attack" []) /\
  display_summary (rs_verdicts r) "pod/default/web" = Some "an attack" /\
  (cached_for (rs_verdicts r) "pod/default/web" "fp").1 = Some (Refuted "calm").
Proof.
  intros lost incident breach j r.
  destruct (restart_remembers BitCodec.to_string BitCodec.from_str [lost] [incident; breach] 100000 32 0) as (Hd & _ & Hb & _).
  - intros e He. simpl in He. repeat (apply elem_of_cons in He as [->|He]; [vm_compute; done|]). by apply not_elem_of_nil in He.
  - lia.
  - vm_compute. done.
  - split; [by apply Hd|]. destruct (Hb "pod/default/web" "an attack" (Some ("fp", Refuted "calm")) eq_refl) as [Hs Hc].
    split; [exact Hs|]. by apply Hc.
Defined.
