(* ===== verification/EngineFacts.v ===== *)
(** * What an engine pass promises

    A cut goes live only through every gate at once, at most once, and never in
    the pass that reverts it; what stands after a pass is exactly what still
    has its reasons; break-glass lifts everything. *)

From S2P Require Import ImageRef Posture PolicyLog Journal Restore.
From S2P Require Import Prelude Text Json PetGraph Attack Behavior Classify Graph Chain Corroborate Objective Prove Boundary.
From S2P Require Import Respond Ledger Actuator ActuatorFacts Render NodeContainment Backoff Verdicts VerdictFacts.
From S2P Require Import Incident AdjPass AdjFacts Divergence Engine.

(** ** The judge-freshness gate *)

Definition judged_fresh (verdicts : VerdictStore) (m : Mitigation) (now : Z) : Prop :=
  exists e, e ∈ live_corroborating_entries m /\ verdict_fresh verdicts e now JUDGE_FRESHNESS_BOUND = true.

Lemma gate_auto verdicts m d now :
  gate_on_judge_freshness verdicts m d now = AutoApply <-> d = AutoApply /\ judged_fresh verdicts m now.
Proof.
  unfold gate_on_judge_freshness, judged_fresh. destruct d; [|naive_solver|naive_solver].
  destruct (existsb _ _) eqn:E.
  - apply existsb_exists in E as (e & He & Hf). split; [|done]. intros _. split; [done|]. exists e.
    split; [by apply list_elem_of_In|done].
  - split; [done|]. intros [_ (e & He & Hf)].
    assert (existsb (fun entry => verdict_fresh verdicts entry now JUDGE_FRESHNESS_BOUND) (live_corroborating_entries m)
            = true) as H; [|by rewrite E in H].
    apply existsb_exists. exists e. split; [by apply list_elem_of_In|done].
Qed.

(** ** The actuation loop *)

Section Loop.
Context {G : Type} `{SG : !StableGraph G Node Edge}.
Implicit Types sg : SecurityGraph G.

(** The decision a pass takes on one mitigation. *)
Definition goes_live (verdicts : VerdictStore) (effective : EnabledActions) (scope : ActuationScope) sg
    (health : HealthReport) (now : Z) (m : Mitigation) : Prop :=
  auto_gates m effective scope (predict_blast_radius m sg health) /\ judged_fresh verdicts m now.

Definition goes_live_b (verdicts : VerdictStore) (effective : EnabledActions) (scope : ActuationScope) sg
    (health : HealthReport) (now : Z) (m : Mitigation) : bool :=
  bool_decide (gate_on_judge_freshness verdicts m
    (decide_cut m effective scope (predict_blast_radius m sg health)) now = AutoApply).

Lemma goes_live_spec verdicts effective scope sg health now m :
  goes_live_b verdicts effective scope sg health now m = true <-> goes_live verdicts effective scope sg health now m.
Proof. unfold goes_live_b, goes_live. by rewrite bool_decide_eq_true, gate_auto, decide_auto_spec. Qed.

Lemma log_is_active_spec log m :
  log_is_active log m = true <-> m_signature m ∈ m_signature ∘ aa_mitigation <$> log.
Proof.
  unfold log_is_active. rewrite existsb_exists, list_elem_of_fmap. setoid_rewrite <- list_elem_of_In.
  setoid_rewrite bool_decide_eq_true. naive_solver.
Qed.

Lemma log_record_new log m alive : log_is_active log m = false -> log_record log m alive = log ++ [mkActive m alive].
Proof.
  intros Hn. unfold log_record. f_equal. apply not_true_iff_false in Hn. rewrite log_is_active_spec in Hn.
  induction log as [|a log IH]; simpl; [done|]. rewrite fmap_cons, not_elem_of_cons in Hn. destruct Hn as [Hne Hn].
  rewrite bool_decide_eq_false_2 by (intros He; by apply Hne). simpl. by rewrite IH.
Qed.

(** The cuts the loop newly applies: each live one whose signature is not
    already standing. Distinct signatures make it a filter. *)
Definition newly (live : Mitigation -> bool) (log : ActionLog) (ms : list Mitigation) : list Mitigation :=
  List.filter (fun m => live m && negb (log_is_active log m)) ms.

Definition applies (fx : list Effect) : list Mitigation :=
  omap (fun f => match f with FxApply m => Some m | _ => None end) fx.

Lemma applies_app fx1 fx2 : applies (fx1 ++ fx2) = applies fx1 ++ applies fx2.
Proof. apply omap_app. Qed.

(** One round of the loop. *)
Lemma actuate_step verdicts effective scope sg health fleet now log blasts fx m :
  let fires := goes_live_b verdicts effective scope sg health now m && negb (log_is_active log m) in
  let '(log', blasts', fx') := actuate_one verdicts effective scope sg health fleet now (log, blasts, fx) m in
  log' = log ++ (if fires then [mkActive m (alive_workloads health)] else []) /\
  blasts' = blasts ++ [predict_blast_radius m sg health] /\
  applies fx' = applies fx ++ (if fires then [m] else []) /\
  (forall m', FxRevert m' ∈ fx' -> FxRevert m' ∈ fx).
Proof.
  intros fires. unfold actuate_one. cbv zeta. set (proposal := option_list _).
  assert (applies proposal = [] /\ forall m', FxRevert m' ∉ proposal) as [Hp Hr].
  { unfold proposal. destruct (evaluate_proposal _ _ _ _); simpl; (split; [done|]); intros m';
      [by intros ?%list_elem_of_singleton|apply not_elem_of_nil]. }
  set (decision := gate_on_judge_freshness _ _ _ _).
  assert (goes_live_b verdicts effective scope sg health now m = bool_decide (decision = AutoApply)) as Hlive by done.
  assert ((fires = true /\ decision = AutoApply /\ log_is_active log m = false) \/
          (fires = false /\ (decision <> AutoApply \/ log_is_active log m = true))) as [(-> & -> & Hn)|(-> & Hn)].
  { unfold fires. rewrite Hlive. case_bool_decide; destruct (log_is_active log m); simpl; auto. }
  - rewrite Hn, log_record_new by done. split; [done|]. split; [done|].
    split; [rewrite applies_app; f_equal; change (m :: applies proposal = [m]); by rewrite Hp|].
    intros m'. rewrite !elem_of_app, !elem_of_cons, elem_of_nil. specialize (Hr m'). naive_solver.
  - assert (match decision with
            | AutoApply => if log_is_active log m then (log, [])
                           else (log_record log m (alive_workloads health), [FxApply m; FxJournalApply (m_signature m)])
            | _ => (log, [])
            end = (log, [])) as -> by (destruct decision; [|done|done]; destruct Hn as [Hn|Hn]; [done|by rewrite Hn]).
    cbn [app]. rewrite !app_nil_r. split; [done|]. split; [done|]. rewrite applies_app, Hp, app_nil_r. split; [done|].
    intros m'. rewrite elem_of_app. specialize (Hr m'). naive_solver.
Qed.

Lemma actuate_loop verdicts effective scope sg health fleet now ms log0 :
  NoDup (m_signature <$> ms) ->
  let live := goes_live_b verdicts effective scope sg health now in
  let '(log, blasts, fx) :=
    foldl (actuate_one verdicts effective scope sg health fleet now) (log0, [], []) ms in
  log = log0 ++ ((fun m => mkActive m (alive_workloads health)) <$> newly live log0 ms) /\
  blasts = ((fun m => predict_blast_radius m sg health) <$> ms) /\
  applies fx = newly live log0 ms /\
  (forall m, FxRevert m ∉ fx).
Proof.
  intros Hn live. induction ms as [|m ms IH] using rev_ind.
  - simpl. rewrite app_nil_r. repeat split. intros m. apply not_elem_of_nil.
  - rewrite fmap_app in Hn. apply NoDup_app in Hn as (Hn & Hdis & _). specialize (IH Hn). rewrite foldl_app.
    destruct (foldl _ _ ms) as [[log blasts] fx]. destruct IH as (-> & -> & Ha & Hr). cbn [foldl].
    pose proof (actuate_step verdicts effective scope sg health fleet now
      (log0 ++ ((fun m => mkActive m (alive_workloads health)) <$> newly live log0 ms))
      ((fun m => predict_blast_radius m sg health) <$> ms) fx m) as Hs. cbv zeta in Hs.
    destruct (actuate_one _ _ _ _ _ _ _ _ m) as [[log' blasts'] fx']. destruct Hs as (-> & -> & Ha' & Hr').
    assert (log_is_active (log0 ++ ((fun m => mkActive m (alive_workloads health)) <$> newly live log0 ms)) m =
            log_is_active log0 m) as Hact.
    { apply eq_true_iff_eq. rewrite !log_is_active_spec, fmap_app, elem_of_app. split; [|by left].
      intros [H|H]; [done|]. exfalso. rewrite <- list_fmap_compose in H.
      apply list_elem_of_fmap in H as (m' & Heq & [_ Hm']%elem_of_filter_b). apply (Hdis (m_signature m)).
      - rewrite Heq. by apply (list_elem_of_fmap_2 m_signature).
      - simpl. by left. }
    rewrite Hact, Ha in *. fold (live m).
    assert (newly live log0 (ms ++ [m]) = newly live log0 ms ++
              (if live m && negb (log_is_active log0 m) then [m] else [])) as Hnew.
    { unfold newly. rewrite List.filter_app. simpl. by destruct (_ && _). }
    rewrite Hnew, !fmap_app, <- app_assoc. split; [|split; [done|split; [done|]]].
    + f_equal. f_equal. by destruct (live m && _).
    + intros m' Hm'. by apply (Hr m'), Hr'.
Qed.

Lemma applies_elem fx m : m ∈ applies fx <-> FxApply m ∈ fx.
Proof.
  unfold applies. rewrite list_elem_of_omap. split; [intros (f & Hf & Hm); by destruct f; simplify_eq/=|eauto].
Qed.

Lemma alive_workloads_alive health key : key ∈ alive_workloads health -> health_of health key = Alive.
Proof.
  unfold alive_workloads. intros ([k h] & -> & [Ha Hk]%elem_of_filter_b)%list_elem_of_fmap. bools. simpl in *.
  apply btree_iter_elem in Hk. unfold health_of. by rewrite Hk.
Qed.

Lemma ledger_signatures l : ledger_ok l -> m_signature <$> btree_values l = (btree_iter l).*1.
Proof.
  intros Hok. unfold btree_values. rewrite <- list_fmap_compose.
  assert (forall kv, kv ∈ btree_iter l -> m_signature kv.2 = kv.1) as H.
  { intros [k m] Hkv%btree_iter_elem. simpl. by destruct (Hok k m Hkv). }
  revert H. induction (btree_iter l) as [|kv kvs IH]; intros H; [done|]. rewrite !fmap_cons. f_equal.
  - apply H. by left.
  - apply IH. intros kv' Hkv'. apply H. by right.
Qed.

Lemma ledger_signatures_nodup l : ledger_ok l -> NoDup (m_signature <$> btree_values l).
Proof.
  intros Hok. rewrite ledger_signatures by done. unfold btree_iter. rewrite sort_by_perm. apply NoDup_fst_map_to_list.
Qed.

(** The cuts the current ledger justifies. *)
Definition justified_cuts (l : Ledger) : gset string := list_to_set (m_signature <$> btree_values l).

Definition newly_live (en : Engine) (ledger : Ledger) (verdicts : VerdictStore) (effective : EnabledActions) sg
    (health : HealthReport) (now : Z) (m : Mitigation) : Prop :=
  (exists sig, ledger !! sig = Some m) /\ goes_live verdicts effective (en_scope en) sg health now m /\
  m_signature m ∉ m_signature ∘ aa_mitigation <$> en_actions en.

Lemma newly_live_spec en ledger verdicts effective sg health now m :
  m ∈ newly (goes_live_b verdicts effective (en_scope en) sg health now) (en_actions en) (btree_values ledger) <->
  newly_live en ledger verdicts effective sg health now m.
Proof.
  unfold newly, newly_live. rewrite elem_of_filter_b, andb_true_iff, goes_live_spec, negb_true_iff,
    <- not_true_iff_false, log_is_active_spec, btree_values_elem. tauto.
Qed.

Lemma newly_stands en ledger verdicts effective sg health now m :
  newly_live en ledger verdicts effective sg health now m ->
  still_stands health (justified_cuts ledger) effective (mkActive m (alive_workloads health)).
Proof.
  intros ((sig & Hs) & [[_ _ _ _ Ha _] _] & _). split; [|split]; simpl; [apply alive_workloads_alive|done|].
  unfold justified_cuts. rewrite elem_of_list_to_set. apply list_elem_of_fmap_2, btree_values_elem. eauto.
Qed.

Lemma revert_one_spec attached patch_ok facts sg r m :
  (FxRevert m ∈ revert_one attached patch_ok facts sg r <-> rv_mitigation r = m /\ m_action m <> ContainNode) /\
  FxApply m ∉ revert_one attached patch_ok facts sg r.
Proof.
  unfold revert_one. case_bool_decide as Ha.
  - rewrite !elem_of_app, !list_elem_of_fmap, !list_elem_of_singleton. naive_solver.
  - rewrite !elem_of_app, !list_elem_of_singleton. naive_solver.
Qed.

(** What one pass does to the cluster, exactly. *)
Record actuation (en : Engine) (ledger : Ledger) (verdicts : VerdictStore) (effective : EnabledActions) sg
    (health : HealthReport) (now : Z) (log' : ActionLog) (fx : list Effect) : Prop := {
  ac_apply : forall m, FxApply m ∈ fx <-> newly_live en ledger verdicts effective sg health now m;
  ac_revert : forall m, FxRevert m ∈ fx <-> m_action m <> ContainNode /\
    exists a, a ∈ en_actions en /\ aa_mitigation a = m /\
      ~ still_stands health (justified_cuts ledger) effective a;
  ac_log : forall a, a ∈ log' <->
    (a ∈ en_actions en /\ still_stands health (justified_cuts ledger) effective a) \/
    (exists m, newly_live en ledger verdicts effective sg health now m /\ a = mkActive m (alive_workloads health));
  ac_once : log_ok log'
}.

Lemma actuate_log_ok en ledger live health :
  log_ok (en_actions en) -> ledger_ok ledger ->
  log_ok (en_actions en ++ ((fun m => mkActive m (alive_workloads health)) <$> newly live (en_actions en) (btree_values ledger))).
Proof.
  intros Hlog Hl. unfold log_ok. rewrite fmap_app, <- list_fmap_compose. apply NoDup_app.
  split; [done|]. split.
  - intros sig Hs (m & -> & [Hf _]%elem_of_filter_b)%list_elem_of_fmap.
    apply andb_true_iff in Hf as [_ Hf]. apply negb_true_iff, not_true_iff_false in Hf. apply Hf.
    by apply log_is_active_spec.
  - apply NoDup_fmap_filter. by apply ledger_signatures_nodup.
Qed.

Lemma actuate_spec en ledger verdicts effective facts patch_ok sg health now :
  log_ok (en_actions en) -> ledger_ok ledger ->
  let '(log', preview, fx) := actuate en ledger verdicts effective facts patch_ok sg health now in
  actuation en ledger verdicts effective sg health now log' fx /\
  preview = (fun m => (m, predict_blast_radius m sg health)) <$> btree_values ledger.
Proof.
  intros Hlog Hl. unfold actuate.
  pose proof (actuate_loop verdicts effective (en_scope en) sg health (btree_values facts) now (btree_values ledger)
    (en_actions en) (ledger_signatures_nodup _ Hl)) as H. cbv zeta in H.
  pose proof (actuate_log_ok en ledger (goes_live_b verdicts effective (en_scope en) sg health now) health Hlog Hl) as Hok.
  destruct (foldl _ _ (btree_values ledger)) as [[log blasts] fx]. destruct H as (-> & -> & Happ & Hrev).
  fold (justified_cuts ledger).
  pose proof (log_reconcile_spec (en_actions en ++ ((fun m => mkActive m (alive_workloads health)) <$>
    newly (goes_live_b verdicts effective (en_scope en) sg health now) (en_actions en) (btree_values ledger)))
    health (justified_cuts ledger) effective) as Hrec.
  destruct (log_reconcile _ health (justified_cuts ledger) effective) as [keep reversions]. destruct Hrec as [-> ->].
  split; [split|].
  - intros m. rewrite elem_of_app, <- applies_elem, Happ, newly_live_spec. split; [|by left]. intros [H|H]; [done|].
    apply elem_of_concat in H as (l & (r & -> & _)%list_elem_of_fmap & H). by apply revert_one_spec in H.
  - intros m. rewrite elem_of_app, elem_of_concat. split.
    + intros [H|(l & (r & -> & Hr)%list_elem_of_fmap & H)]; [by apply Hrev in H|].
      apply revert_one_spec in H as [<- Ha]. split; [done|].
      apply list_elem_of_omap in Hr as (a & Hin & (why & Hw & ->)%fmap_Some). exists a. simpl.
      assert (~ still_stands health (justified_cuts ledger) effective a) as Hns
        by (rewrite <- revert_reason_none; congruence).
      split; [|done]. apply elem_of_app in Hin as [Hin|(m & -> & Hm)%list_elem_of_fmap]; [done|].
      exfalso. apply Hns. apply newly_live_spec in Hm. by eapply newly_stands.
    + intros (Ha & a & Hin & Hm & Hns). right. rewrite <- revert_reason_none in Hns.
      destruct (revert_reason health (justified_cuts ledger) effective a) as [why|] eqn:Hw; [|done].
      exists (revert_one (en_node_actuator en) patch_ok facts sg (mkReversion (aa_mitigation a) why)).
      split; [apply (list_elem_of_fmap_2 (revert_one (en_node_actuator en) patch_ok facts sg))|].
      * apply list_elem_of_omap. exists a. rewrite Hw. split; [apply elem_of_app; by left|done].
      * by apply revert_one_spec.
  - intros a. rewrite elem_of_filter_b, bool_decide_eq_true, revert_reason_none, elem_of_app, list_elem_of_fmap.
    setoid_rewrite newly_live_spec. split; [naive_solver|].
    intros [[Hin Hs]|(m & Hm & ->)]; [by auto|]. split; [by eapply newly_stands|]. right. eauto.
  - by apply NoDup_fmap_filter.
  - clear. induction (btree_values ledger) as [|m ms IH]; [done|]. simpl. f_equal. exact IH.
Qed.

End Loop.

(** ** The whole pass *)

(** The model's answer about an entry: one that cuts nothing (no reply, or one
    a guard turned down), or a reply as it is read against the entry's menu. *)
Definition answers_menu (from_str : string -> option Json) (judge : PendingEntry -> IncidentDecision) : Prop :=
  forall p, d_cuts (judge p) = [] \/ exists reply, parse_incident_decision from_str reply (pe_menu p) = Some (judge p).

Lemma answers_signed from_str judge p cut :
  answers_menu from_str judge -> menu_ok (pe_menu p) -> cut ∈ d_cuts (judge p) ->
  cc_cut_signature cut = cut_signature (cc_cut cut).
Proof.
  intros Hj Hm Hc. destruct (Hj p) as [Hn|(reply & Hr)]; [rewrite Hn in Hc; by apply not_elem_of_nil in Hc|].
  apply (grounded_signed (pe_menu p) (judge p)); [done| |done]. unfold parse_incident_decision in Hr.
  destruct (extract_object from_str reply) as [[object|]|]; [|injection Hr as Hr|done].
  - injection Hr as <-. apply (decide_reply_grounded from_str).
  - rewrite <- Hr. apply uncertain_grounded.
Qed.

Lemma rearm_signed r fp m d cut :
  menu_ok m -> rearm_restored_decision r fp m = Some d -> cut ∈ d_cuts d ->
  cc_cut_signature cut = cut_signature (cc_cut cut).
Proof.
  intros [Ha Hs _] Hr Hc. unfold rearm_restored_decision in Hr. destruct (negb _); [done|].
  apply bind_Some in Hr as (cuts & Hcuts & [= <-]). apply mapM_Some in Hcuts. simpl in Hc.
  apply list_elem_of_lookup in Hc as (i & Hi).
  destruct (Forall2_lookup_r _ _ _ _ _ Hcuts Hi) as (jc & _ & Hj). apply bind_Some in Hj as (cut' & Hres & Hif).
  case_bool_decide; [|done]. injection Hif as ->. apply resolve_spec in Hres as (l & Hl & _ & ->); [|done]. by apply Hs.
Qed.

(** What every pass can rely on. *)
Record engine_ok (en : Engine) : Prop := {
  eo_log : log_ok (en_actions en);
  eo_ledger : ledger_ok (en_ledger en);
  eo_decisions : decisions_ok (ps_decisions (en_pass en));
  eo_backoff : backoff_ok (ps_verdicts (en_pass en));
  eo_additive : forall a, a ∈ en_actions en ->
    is_additive_live (m_action (aa_mitigation a)) = true /\ is_reversible (m_action (aa_mitigation a)) = true;
  eo_justified : forall a, a ∈ en_actions en -> is_Some (en_ledger en !! m_signature (aa_mitigation a))
}.

(** An engine booted from any journal: nothing stands, and no entry is backing off. *)
Lemma boot_ok active scope slots jparse restored_at journal node_actuator :
  engine_ok (booted active scope node_actuator (replay_journal jparse restored_at journal (boot_views slots))).
Proof.
  split; simpl; [constructor|..].
  - intros sig m H. by rewrite lookup_empty in H.
  - intros e d cut H. by rewrite lookup_empty in H.
  - unfold replay_journal. destruct (replay_fold restored_at (replay jparse journal) (boot_views slots)) as [-> _].
    induction (replay jparse journal) as [|x l IH] using rev_ind; [intros e; unfold store_entry; simpl; by rewrite lookup_empty|].
    rewrite foldl_snoc. unfold replay_entry at 1. destruct (je_decision x) as [k ? text ? fp typed| | | | | |]; try exact IH.
    simpl. destruct fp, typed; repeat apply backoff_ok_update; done.
  - intros a H. by apply not_elem_of_nil in H.
  - intros a H. by apply not_elem_of_nil in H.
Qed.

Section Pass.
Context {G : Type} `{SGL : StableGraphLaws G Node Edge}.
Variable from_str : string -> option Json.
Variable default_hash : string -> Z.
Variable delta_prompt :
  NodeKey -> list (NodeKey * AttackRef) -> option JudgedSurface -> list NodeKey -> Menu -> DeltaBuild.
Variable entry_coverage : NodeKey -> list string * bool.
Implicit Types sg : SecurityGraph G.

Definition pass_judged (judge : PendingEntry -> IncidentDecision)
    (complete : list PendingEntry -> list (PendingEntry * IncidentDecision)) : Prop :=
  forall l, complete l ≡ₚ (fun p => (p, judge p)) <$> l.

Lemma process_spec complete en ob sg en' preview fx :
  process default_hash delta_prompt entry_coverage complete en ob sg = Some (en', preview, fx) ->
  exists chains chains' pfx afx, prove sg = Some chains /\
    run_adjudication_pass default_hash delta_prompt entry_coverage chains sg (ob_health ob) (en_active en) complete
      (ob_now ob) (en_pass en) = Some (en_pass en', chains', pfx) /\
    en_ledger en' = (reconcile (en_ledger en) chains' (ps_decisions (en_pass en'))).1 /\
    en_active en' = en_active en /\ en_scope en' = en_scope en /\
    actuate en (en_ledger en') (ps_verdicts (en_pass en')) (poll_break_glass en (ob_break_glass ob))
      (refresh_node_facts (en_node_facts en) (ob_nodes ob)) (ob_patch_ok ob) sg (ob_health ob) (ob_now ob)
      = (en_actions en', preview, afx) /\
    (forall m, (FxApply m ∈ fx <-> FxApply m ∈ afx) /\ (FxRevert m ∈ fx <-> FxRevert m ∈ afx)).
Proof.
  unfold process. intros H. apply bind_Some in H as (chains & Hp & H).
  apply bind_Some in H as ([[st chains'] pfx] & Hrun & H).
  destruct (reconcile _ _ _) as [ledger delta] eqn:Hrec. destruct (actuate _ _ _ _ _ _ _ _ _) as [[log prev] afx] eqn:Hact.
  injection H as <- <- <-. cbn [en_pass en_ledger en_active en_scope en_actions]. exists chains, chains', pfx, afx.
  split; [done|]. split; [done|]. split; [by rewrite Hrec|]. do 2 (split; [done|]). split; [done|].
  intros m. rewrite !elem_of_app, !list_elem_of_fmap. naive_solver.
Qed.

Lemma pass_decisions_ok judge complete chains sg health active now st st' chains' pfx :
  pass_judged judge complete -> answers_menu from_str judge -> decisions_ok (ps_decisions st) ->
  run_adjudication_pass default_hash delta_prompt entry_coverage chains sg health active complete now st =
    Some (st', chains', pfx) ->
  decisions_ok (ps_decisions st').
Proof.
  intros Hc Hj Hd Hrun e d cut He Hcut.
  destruct (classify_entries delta_prompt chains sg health now st) as [[st1 resolved] to_judge] eqn:Hcl.
  destruct (decisions_follow_answers_spec default_hash delta_prompt entry_coverage judge complete Hc chains sg health
    active now st st1 resolved to_judge st' chains' pfx e Hcl Hrun) as [Hno Hyes].
  destruct (decide (e ∈ breach_entries chains)) as [Hin|Hin]; [|rewrite (Hno Hin) in He; discriminate He].
  destruct (Hyes Hin) as [Hans Hold].
  destruct (decide (Exists (fun p => pe_entry_key p = e /\ d_assessment (judge p) <> AUncertain) to_judge)) as [Hx|Hx].
  - apply Exists_exists in Hx as (p & Hp & Hk & Hu). rewrite (Hans p Hp Hk Hu) in He. injection He as <-.
    apply (answers_signed from_str judge p); [done| |done].
    by apply (cl_menus _ _ _ _ (classify_entries_spec _ _ _ _ _ _ _ _ _ Hcl)).
  - destruct (Hold) as [_ Hfrom].
    { intros p Hp Hk. destruct (decide (d_assessment (judge p) = AUncertain)) as [Hu|Hu]; [exact Hu|].
      exfalso. apply Hx, Exists_exists. by exists p. }
    destruct (Hfrom d He) as [Hst|(r & p & _ & _ & Hm & Hr)]; [by eapply Hd|by eapply rearm_signed].
Qed.

(** One pass keeps everything the next one relies on, and its effects are
    exactly those of [actuation]. *)
Lemma process_ok judge complete en ob sg en' preview fx :
  pass_judged judge complete -> answers_menu from_str judge -> engine_ok en ->
  process default_hash delta_prompt entry_coverage complete en ob sg = Some (en', preview, fx) ->
  engine_ok en' /\
  actuation en (en_ledger en') (ps_verdicts (en_pass en')) (poll_break_glass en (ob_break_glass ob)) sg (ob_health ob)
    (ob_now ob) (en_actions en') fx.
Proof.
  intros Hc Hj [Hlog Hled Hdec Hbo Hadd Hjust] Hpr.
  destruct (process_spec _ _ _ _ _ _ _ Hpr) as (chains & chains' & pfx & afx & Hp & Hrun & Hl & _ & _ & Hact & Hfx).
  assert (decisions_ok (ps_decisions (en_pass en'))) as Hd' by (by eapply pass_decisions_ok).
  assert (ledger_ok (en_ledger en')) as Hl' by (rewrite Hl; by apply reconcile_ledger_ok).
  pose proof (actuate_spec en (en_ledger en') (ps_verdicts (en_pass en')) (poll_break_glass en (ob_break_glass ob))
    (refresh_node_facts (en_node_facts en) (ob_nodes ob)) (ob_patch_ok ob) sg (ob_health ob) (ob_now ob) Hlog Hl') as Hs.
  rewrite Hact in Hs. destruct Hs as [[Ha Hr Hlg Hon] _].
  assert (actuation en (en_ledger en') (ps_verdicts (en_pass en')) (poll_break_glass en (ob_break_glass ob)) sg
    (ob_health ob) (ob_now ob) (en_actions en') fx) as Hactn.
  { split; [intros m; rewrite (proj1 (Hfx m)); apply Ha|intros m; rewrite (proj2 (Hfx m)); apply Hr|done|done]. }
  split; [|done]. split; [done|done|done| | |].
  - destruct (pass_total_spec default_hash delta_prompt entry_coverage chains sg (ob_health ob) (en_active en) complete
      (ob_now ob) (en_pass en) Hbo) as (st' & c' & f' & Hrun' & Hb). rewrite Hrun in Hrun'. by injection Hrun' as <- _ _.
  - intros a [[Hin _]|(m & (_ & [[Hcl _ _ _ _ _] _] & _) & ->)]%Hlg; [by apply Hadd|]. simpl.
    by destruct Hcl as [->|[->| ->]].
  - intros a [[_ (_ & _ & Hj')]|(m & ((sig & Hs) & _) & ->)]%Hlg.
    + unfold justified_cuts in Hj'. apply elem_of_list_to_set, list_elem_of_fmap in Hj' as (m & -> & Hm).
      apply btree_values_elem in Hm as (sig & Hm). by destruct (Hl' sig m Hm) as [<- _].
    + simpl. by destruct (Hl' sig m Hs) as [<- _].
Qed.

Lemma process_total complete en ob sg :
  engine_ok en -> is_Some (process default_hash delta_prompt entry_coverage complete en ob sg).
Proof.
  intros [_ _ _ Hbo _ _]. unfold process.
  destruct (prove_with_spec sg default_recognizers) as (chains & Hp & _). unfold prove. rewrite Hp. cbn [mbind option_bind].
  destruct (pass_total_spec default_hash delta_prompt entry_coverage chains sg (ob_health ob) (en_active en) complete
    (ob_now ob) (en_pass en) Hbo) as (st' & c' & f' & -> & _). cbn [mbind option_bind].
  destruct (reconcile _ _ _), (actuate _ _ _ _ _ _ _ _ _) as [[? ?] ?]. eauto.
Qed.

(** C4: what an engine pass does to the cluster, exactly. It applies a cut just
    when the ledger holds it, every gate of the decision lets it through, a live
    entry of it has a fresh verdict, and it is not standing already; it reverts
    just the standing cuts that lost a reason to stand; the log then holds just
    what still stands and what was applied, one entry per cut; and no pass
    reverts what it applied. *)
Theorem engine_actuation_exact judge complete en ob sg en' preview fx :
  pass_judged judge complete -> answers_menu from_str judge -> engine_ok en ->
  process default_hash delta_prompt entry_coverage complete en ob sg = Some (en', preview, fx) ->
  let effective := poll_break_glass en (ob_break_glass ob) in
  actuation en (en_ledger en') (ps_verdicts (en_pass en')) effective sg (ob_health ob) (ob_now ob) (en_actions en') fx /\
  forall m, FxApply m ∈ fx -> exists a, a ∈ en_actions en' /\ aa_mitigation a = m /\
    still_stands (ob_health ob) (justified_cuts (en_ledger en')) effective a.
Proof.
  intros Hc Hj Hok Hp effective. destruct (process_ok _ _ _ _ _ _ _ _ Hc Hj Hok Hp) as [_ Ha]. split; [done|].
  intros m Hm%(ac_apply _ _ _ _ _ _ _ _ _ Ha). exists (mkActive m (alive_workloads (ob_health ob))).
  split; [|split; [done|by eapply newly_stands]]. apply (ac_log _ _ _ _ _ _ _ _ _ Ha). right. eauto.
Qed.

(** C5: break-glass. A pass that sees the switch engaged applies nothing, lifts
    every standing cut, and leaves nothing standing, whatever the model says. *)
Theorem break_glass_lifts_all judge complete en ob sg en' preview fx :
  pass_judged judge complete -> answers_menu from_str judge -> engine_ok en ->
  process default_hash delta_prompt entry_coverage complete en ob sg = Some (en', preview, fx) ->
  ob_break_glass ob = true ->
  (forall m, FxApply m ∉ fx) /\ (forall a, a ∈ en_actions en -> FxRevert (aa_mitigation a) ∈ fx) /\ en_actions en' = [].
Proof.
  intros Hc Hj Hok Hp Hb. destruct (process_ok _ _ _ _ _ _ _ _ Hc Hj Hok Hp) as [_ [Ha Hr Hl _]].
  unfold poll_break_glass in *. rewrite Hb in *.
  assert (forall a, ~ still_stands (ob_health ob) (justified_cuts (en_ledger en')) enabled_none a) as Hno.
  { intros a (_ & H & _). simpl in H. by apply not_elem_of_empty in H. }
  assert (forall m, ~ newly_live en (en_ledger en') (ps_verdicts (en_pass en')) enabled_none sg (ob_health ob) (ob_now ob) m)
    as Hnew.
  { intros m (_ & [[_ _ _ _ H _] _] & _). simpl in H. by apply not_elem_of_empty in H. }
  split; [intros m Hm; by apply (Hnew m), Ha|]. split.
  - intros a Hin. apply Hr. destruct (eo_additive _ Hok a Hin) as [Had _]. split; [|by eauto]. by destruct (m_action _).
  - destruct (en_actions en') as [|a l]; [done|]. exfalso.
    destruct (proj1 (Hl a) ltac:(by left)) as [[_ H]|(m & H & _)]; [by apply (Hno a)|by apply (Hnew m)].
Qed.

Lemma apply_end_to_end_spec judge complete en ob sg en' preview fx m :
  pass_judged judge complete -> answers_menu from_str judge -> engine_ok en ->
  process default_hash delta_prompt entry_coverage complete en ob sg = Some (en', preview, fx) -> FxApply m ∈ fx ->
  ob_break_glass ob = false /\
  auto_gates m (en_active en) (en_scope en) (predict_blast_radius m sg (ob_health ob)) /\
  m_signature m ∉ m_signature ∘ aa_mitigation <$> en_actions en /\
  exists chains c entry w objective attack p es st1 resolved to_judge,
    prove sg = Some chains /\ c ∈ chains /\
    sg_node_weight (inner sg) entry = Some (NWorkload w) /\ entry_exposed sg entry = true /\
    chain_justified sg entry objective attack p es c /\
    verdict_fresh (ps_verdicts (en_pass en')) (pc_entry c) (ob_now ob) JUDGE_FRESHNESS_BOUND = true /\
    classify_entries delta_prompt chains sg (ob_health ob) (ob_now ob) (en_pass en) = (st1, resolved, to_judge) /\
    ((pc_corroborated c = true /\ exists v, pass_verdict judge resolved to_judge (pc_entry c) v /\ is_confirmed v = true) \/
     (ea_judgement (en_active en) = true /\
        exists q, q ∈ to_judge /\ pe_entry_key q = pc_entry c /\ d_assessment (judge q) = AAttack)).
Proof.
  intros Hc Hj Hok Hp Hm. destruct (process_ok _ _ _ _ _ _ _ _ Hc Hj Hok Hp) as [_ [Ha _ _ _]].
  apply Ha in Hm as ((sig & Hs) & [Hg (e & He & Hf)] & Hns).
  assert (ob_break_glass ob = false) as Hb.
  { destruct (ob_break_glass ob) eqn:Hb; [|done]. exfalso. destruct Hg as [_ _ _ _ H _].
    by apply not_elem_of_empty in H. }
  unfold poll_break_glass in Hg. rewrite Hb in Hg. do 3 (split; [done|]).
  destruct (process_spec _ _ _ _ _ _ _ Hp) as (chains & chains' & pfx & afx & Hpr & Hrun & Hl & _).
  rewrite Hl in Hs.
  destruct (live_entry_provenance _ _ _ _ _ _ (eo_ledger _ Hok) Hs He) as (c' & Hin & <- & Hbr & Had & Hcp & _).
  destruct (classify_entries delta_prompt chains sg (ob_health ob) (ob_now ob) (en_pass en))
    as [[st1 resolved] to_judge] eqn:Hcl.
  apply list_elem_of_lookup in Hin as (i & Hi).
  pose proof (pass_stamps_chains_spec default_hash delta_prompt entry_coverage judge complete Hc chains sg (ob_health ob)
    (en_active en) (ob_now ob) (en_pass en) st1 resolved to_judge _ _ _ Hcl Hrun i) as Hst.
  destruct (chains !! i) as [c|] eqn:Hci.
  2: { exfalso. pose proof (pass_length _ _ _ _ _ _ _ _ _ _ _ _ _ Hrun) as Hlen.
       apply lookup_ge_None in Hci. apply lookup_lt_Some in Hi. lia. }
  destruct (Hst c eq_refl) as (c2 & Hc2 & Hint & Hstamp & Hprom & Hconf). rewrite Hi in Hc2. injection Hc2 as <-.
  assert (is_breach_relevant c = true) as Hbc.
  { destruct (is_breach_relevant c) eqn:E; [done|]. rewrite (Hint eq_refl) in Hbr. congruence. }
  destruct (Hstamp Hbc) as (v & display & _ & Hc'). rewrite Hc' in Had, Hcp, Hprom, Hconf, Hf. cbn [pc_entry stamp_chain] in Hf.
  destruct (prove_with_spec sg default_recognizers) as (chains2 & Hpr2 & Hjust & _).
  unfold prove in Hpr. rewrite Hpr in Hpr2. injection Hpr2 as <-.
  destruct (Hjust c (list_elem_of_lookup_2 _ _ _ Hci)) as (entry & w & objective & attack & p & es & Hw & _ & _ & Hcj).
  exists chains, c, entry, w, objective, attack, p, es, st1, resolved, to_judge.
  split; [done|]. split; [by eapply list_elem_of_lookup_2|]. split; [done|].
  split; [by rewrite <- (cj_exposed _ _ _ _ _ _ _ Hcj)|]. do 2 (split; [done|]). split; [done|].
  destruct (cj_unjudged _ _ _ _ _ _ _ Hcj) as (_ & Hp0 & _).
  destruct (pc_corroborated c) eqn:Hco; [left|right].
  - split; [done|]. apply Hconf; done.
  - destruct Hcp as [Hcp|Hcp]; [simpl in Hcp; congruence|]. destruct (Hprom Hcp Hp0) as (Hju & _ & Hq). done.
Qed.

(** C2: end to end. A cut that a pass applies is traced to a proof and to the
    model: break-glass was off, every gate held and it was not standing; and
    among the chains this pass proved on this graph there is one from an
    internet-facing entry, judged fresh with the breaker closed, that is either
    corroborated by runtime evidence for its own objective and affirmed by its
    entry's verdict of this pass, or, with the judgement class armed, promoted
    because the model, asked about that entry in this very pass, named an
    attack. *)
Theorem apply_end_to_end judge complete en ob sg en' preview fx m :
  pass_judged judge complete -> answers_menu from_str judge -> engine_ok en ->
  process default_hash delta_prompt entry_coverage complete en ob sg = Some (en', preview, fx) -> FxApply m ∈ fx ->
  ob_break_glass ob = false /\
  auto_gates m (en_active en) (en_scope en) (predict_blast_radius m sg (ob_health ob)) /\
  m_signature m ∉ m_signature ∘ aa_mitigation <$> en_actions en /\
  exists chains c entry w objective attack p es st1 resolved to_judge,
    prove sg = Some chains /\ c ∈ chains /\
    sg_node_weight (inner sg) entry = Some (NWorkload w) /\ entry_exposed sg entry = true /\
    chain_justified sg entry objective attack p es c /\
    verdict_fresh (ps_verdicts (en_pass en')) (pc_entry c) (ob_now ob) JUDGE_FRESHNESS_BOUND = true /\
    classify_entries delta_prompt chains sg (ob_health ob) (ob_now ob) (en_pass en) = (st1, resolved, to_judge) /\
    ((pc_corroborated c = true /\ exists v, pass_verdict judge resolved to_judge (pc_entry c) v /\ is_confirmed v = true) \/
     (ea_judgement (en_active en) = true /\
        exists q, q ∈ to_judge /\ pe_entry_key q = pc_entry c /\ d_assessment (judge q) = AAttack)).
Proof. apply apply_end_to_end_spec. Qed.

(** ** Every reachable engine *)

(** A pass over any graph, health, fleet, clock and switch, with any answers in
    any order. *)
Inductive engine_step : Engine -> Engine -> Prop :=
  | engine_pass judge complete en ob sg en' preview fx :
      pass_judged judge complete -> answers_menu from_str judge ->
      process default_hash delta_prompt entry_coverage complete en ob sg = Some (en', preview, fx) ->
      engine_step en en'.

(** C3: however many passes run after a boot from whatever journal, whatever they observe and whatever
    the model answers: the log keeps one entry per cut, only reversible
    additive ones, each still justified by the ledger; the ledger files each cut
    under its own signature with a justification; and the next pass completes. *)
Theorem engine_reachable_ok active scope slots jparse restored_at journal node_actuator en :
  rtc engine_step (booted active scope node_actuator (replay_journal jparse restored_at journal (boot_views slots))) en ->
  engine_ok en /\
  forall complete ob sg, is_Some (process default_hash delta_prompt entry_coverage complete en ob sg).
Proof.
  intros H. assert (engine_ok en) as Hok.
  { pose proof (boot_ok active scope slots jparse restored_at journal node_actuator) as H0. revert H0.
    induction H as [|x y z [judge complete en1 ob sg en' preview fx Hc Hj Hp] _ IH]; intros H0; [done|].
    apply IH. by destruct (process_ok _ _ _ _ _ _ _ _ Hc Hj H0 Hp). }
  split; [done|]. intros complete ob sg. by apply process_total.
Qed.

End Pass.

(** ** Instances *)

(** A model that answers every entry by containing the web pod. *)
Definition web_judge (p : PendingEntry) : IncidentDecision :=
  default (uncertain "no reply") (parse_incident_decision attack_reader "{}" (pe_menu p)).

Definition web_answers (l : list PendingEntry) : list (PendingEntry * IncidentDecision) :=
  (fun p => (p, web_judge p)) <$> l.

Lemma web_answers_menu : answers_menu attack_reader web_judge.
Proof.
  intros p. unfold web_judge. destruct (parse_incident_decision attack_reader "{}" (pe_menu p)) as [d|] eqn:E; [right|by left].
  by exists "{}".
Qed.

Definition web_engine : Engine :=
  booted (mkEnabled {[DenyNetworkPath]} true) (mkScope ∅ []) false
    (replay_journal BitCodec.from_str 0 (journal_open empty_volume true) (boot_views 32)).

Definition web_observed (break_glass : bool) : Observed := mkObserved ∅ [] break_glass true 0.

Definition web_pass (en : Engine) (break_glass : bool) : option (Engine * list (Mitigation * BlastRadius) * list Effect) :=
  process length_hash toy_delta toy_coverage web_answers en (web_observed break_glass) web_and_db.

Lemma web_answers_judged : pass_judged web_judge web_answers.
Proof. intros l. reflexivity. Qed.

Lemma web_engine_ok : engine_ok web_engine.
Proof. apply (boot_ok _ _ 32 BitCodec.from_str 0 (journal_open empty_volume true) false). Qed.

(** The first pass applies one cut, which then stands. *)
Lemma web_first_pass :
  exists en preview fx m, web_pass web_engine false = Some (en, preview, fx) /\ FxApply m ∈ fx /\
    aa_mitigation <$> en_actions en = [m].
Proof.
  destruct (web_pass web_engine false) as [[[en preview] fx]|] eqn:E; [|vm_compute in E; discriminate E].
  destruct (applies fx) as [|m ms] eqn:Ha.
  - exfalso. vm_compute in E. injection E as _ _ <-. vm_compute in Ha. discriminate Ha.
  - exists en, preview, fx, m. split; [reflexivity|]. split; [apply applies_elem; rewrite Ha; by left|].
    vm_compute in E. injection E as <- _ <-. vm_compute in Ha. injection Ha as <- _. vm_compute. reflexivity.
Qed.

Lemma engine_actuation_exact_witness :
  exists en preview fx m, web_pass web_engine false = Some (en, preview, fx) /\ FxApply m ∈ fx /\
    exists a, a ∈ en_actions en /\ aa_mitigation a = m.
Proof.
  destruct web_first_pass as (en & preview & fx & m & Hp & Hm & _). exists en, preview, fx, m.
  split; [exact Hp|]. split; [exact Hm|].
  destruct (engine_actuation_exact attack_reader length_hash toy_delta toy_coverage web_judge web_answers web_engine
    (web_observed false) web_and_db en preview fx web_answers_judged web_answers_menu web_engine_ok Hp) as [_ H].
  destruct (H m Hm) as (a & Ha & Hma & _). exists a. exact (conj Ha Hma).
Defined.

Lemma apply_end_to_end_witness :
  exists en preview fx m, web_pass web_engine false = Some (en, preview, fx) /\ FxApply m ∈ fx /\
    auto_gates m (en_active web_engine) (en_scope web_engine) (predict_blast_radius m web_and_db ∅).
Proof.
  destruct web_first_pass as (en & preview & fx & m & Hp & Hm & _). exists en, preview, fx, m.
  split; [exact Hp|]. split; [exact Hm|].
  exact (proj1 (proj2 (apply_end_to_end attack_reader length_hash toy_delta toy_coverage web_judge web_answers web_engine
    (web_observed false) web_and_db en preview fx m web_answers_judged web_answers_menu web_engine_ok Hp Hm))).
Defined.

Lemma web_step en en' preview fx b :
  web_pass en b = Some (en', preview, fx) ->
  engine_step attack_reader length_hash toy_delta toy_coverage (G := list_graph Node Edge) en en'.
Proof. intros H. eapply engine_pass; [exact web_answers_judged|exact web_answers_menu|exact H]. Qed.

Lemma engine_reachable_ok_witness :
  exists en preview fx, web_pass web_engine false = Some (en, preview, fx) /\ engine_ok en /\
    is_Some (web_pass en true).
Proof.
  destruct web_first_pass as (en & preview & fx & m & Hp & _). exists en, preview, fx. split; [exact Hp|].
  destruct (engine_reachable_ok attack_reader length_hash toy_delta toy_coverage (G := list_graph Node Edge)
    (mkEnabled {[DenyNetworkPath]} true) (mkScope ∅ []) 32 BitCodec.from_str 0 (journal_open empty_volume true) false
    en (rtc_once _ _ (web_step _ _ _ _ _ Hp)))
    as [Hok Ht].
  split; [exact Hok|]. apply (Ht web_answers (web_observed true) web_and_db).
Defined.

Lemma break_glass_lifts_all_witness :
  exists en en' preview fx m, web_pass en true = Some (en', preview, fx) /\ FxRevert m ∈ fx /\ en_actions en' = [].
Proof.
  destruct web_first_pass as (en & preview & fx & m & Hp & _ & Hs).
  assert (engine_ok en) as Hok.
  { exact (proj1 (process_ok attack_reader length_hash toy_delta toy_coverage web_judge web_answers web_engine
      (web_observed false) web_and_db en preview fx web_answers_judged web_answers_menu web_engine_ok Hp)). }
  destruct (process_total length_hash toy_delta toy_coverage web_answers en (web_observed true) web_and_db Hok)
    as ([[en' preview'] fx'] & Hp').
  destruct (break_glass_lifts_all attack_reader length_hash toy_delta toy_coverage web_judge web_answers en
    (web_observed true) web_and_db en' preview' fx' web_answers_judged web_answers_menu Hok Hp' eq_refl) as (_ & Hr & Hn).
  exists en, en', preview', fx', m. split; [exact Hp'|]. split; [|exact Hn].
  destruct (en_actions en) as [|a l]; [discriminate Hs|]. injection Hs as <- _. apply Hr. left.
Defined.
