(* ===== verification/Judged.v ===== *)
(** * The engine with its own judge

    The pass of Engine.v, whose prompt, coverage and answers were arguments, with
    those of Prompt.v, Evidence.v and Guards.v: what a cut the engine applies rests
    on, down to the evidence of the graph. Only the model's replies, the digest,
    the JSON reader and the provider table are left as arguments. *)

From S2P Require Import Prelude Text Json PetGraph Attack Behavior Classify Asn Graph Chain Prove Boundary.
From S2P Require Import Respond Ledger Actuator ActuatorFacts Render NodeContainment Backoff Verdicts Incident.
From S2P Require Import Evidence EvidenceFacts Guards GuardsFacts AdjPass AdjFacts Prompt PromptFacts Engine Journal Restore EngineFacts.

Section Judged.
Context {G : Type} `{SGL : StableGraphLaws G Node Edge}.
Implicit Types sg : SecurityGraph G.
Variable from_str : string -> option Json.
Variable default_hash : string -> Z.
Variable digest : string -> list Z.

(** The two replies the model would give to an entry's prompt. *)
Variable replies : PendingEntry -> option string * option string.

Definition ask sg (p : PendingEntry) : option (option string * IncidentDecision) :=
  judge from_str (pe_entry p) sg (pe_downstream p) (pe_menu p) (replies p).1 (replies p).2.

Definition coverage sg (k : NodeKey) : list string * bool :=
  let c := entry_coverage sg k in (Evidence.ec_cves c, Evidence.ec_behavioral c).

Definition judged_pass (asn : AsnDb) (complete : list PendingEntry -> list (PendingEntry * IncidentDecision)) (en : Engine)
    (ob : Observed) sg : option (Engine * list (Mitigation * BlastRadius) * list Effect) :=
  process default_hash (delta_prompt digest sg asn) (coverage sg) complete en ob sg.

(** Every question is answered by the judge. *)
Definition answered sg (answer : PendingEntry -> IncidentDecision) : Prop :=
  forall p, exists r, ask sg p = Some (r, answer p).

(** Judged answers are menu answers: what the engine's own invariants ask. *)
Lemma answered_menu sg answer : answered sg answer -> answers_menu from_str answer.
Proof.
  intros H p. destruct (H p) as [r Hr]. apply judge_spec in Hr. destruct r as [reply|].
  - destruct Hr as (_ & _ & d0 & Hp & Hother & Hattack). destruct (decide (d_assessment d0 = AAttack)) as [Ha|Ha].
    + destruct (Hattack Ha) as [[_ ->]|(_ & _ & ->)]; [right; eauto|by left].
    + rewrite (Hother Ha). right. eauto.
  - destruct Hr as [_ ->]. by left.
Qed.

(** An attack in the answers rests on the graph. *)
Record attack_rests_on sg (q : PendingEntry) (d : IncidentDecision) : Prop := {
  ar_menu : grounded (pe_menu q) d;
  ar_supported : supported sg (pe_entry q) (pe_downstream q) d
}.

Lemma answered_attack sg answer q : answered sg answer -> d_assessment (answer q) = AAttack -> attack_rests_on sg q (answer q).
Proof.
  intros H Ha. destruct (H q) as [r Hr]. apply judge_spec in Hr. destruct r as [reply|]; [|by destruct Hr as [_ E]; rewrite E in Ha].
  destruct Hr as (_ & Hg & d0 & _ & Hother & Hattack). split; [done|].
  destruct (decide (d_assessment d0 = AAttack)) as [H0|H0]; [destruct (Hattack H0) as [[? ->]|(_ & ? & _)]; done|].
  by rewrite (Hother H0) in Ha.
Qed.

(** C1: A cut the engine applies, with its own prompts and its own judge. Whatever the
    model replies, it is traced to a chain proved on this graph from an entry that
    faces the internet; and unless runtime evidence corroborates that chain and the
    pass's verdict affirms it, the model named an attack on the entry in this pass
    and that attack survived the guards: it cuts only what the menu offers, each
    node but the entry has evidence of its own, every cited id and every claimed
    loading is in the evidence of the entry or of the nodes downstream, and there is
    an anchor besides reachability. *)
Theorem evidenced_apply asn answer complete en ob sg en' preview fx m :
  answered sg answer -> pass_judged answer complete -> engine_ok en ->
  judged_pass asn complete en ob sg = Some (en', preview, fx) -> FxApply m ∈ fx ->
  ob_break_glass ob = false /\
  exists chains c entry w st1 resolved to_judge,
    prove sg = Some chains /\ c ∈ chains /\ sg_node_weight (inner sg) entry = Some (NWorkload w) /\ entry_exposed sg entry = true /\
    classify_entries (delta_prompt digest sg asn) chains sg (ob_health ob) (ob_now ob) (en_pass en) = (st1, resolved, to_judge) /\
    ((pc_corroborated c = true /\ exists v, pass_verdict answer resolved to_judge (pc_entry c) v /\ is_confirmed v = true) \/
     (ea_judgement (en_active en) = true /\ exists q, q ∈ to_judge /\ pe_entry_key q = pc_entry c /\
        d_assessment (answer q) = AAttack /\ attack_rests_on sg q (answer q))).
Proof.
  intros Ha Hc Hok Hp Hm.
  destruct (apply_end_to_end_spec from_str default_hash (delta_prompt digest sg asn) (coverage sg) answer complete en ob sg en' preview fx m
    Hc (answered_menu sg answer Ha) Hok Hp Hm) as (Hb & _ & _ & chains & c & entry & w & o & a & p & es & st1 & res & tj & H1 & H2 & H3 & H4 & _ & _ & H7 & H8).
  split; [done|]. exists chains, c, entry, w, st1, res, tj. do 5 (split; [done|]).
  destruct H8 as [H8|(Hj & q & Hq & Hk & Hatt)]; [by left|right]. split; [done|]. exists q. do 3 (split; [done|]). by apply answered_attack.
Qed.

End Judged.

(** ** Instances *)

(** A front door whose image loads a vulnerable library, next to a database. *)
Definition breached : cluster :=
  default graph_new (build
    [NWorkload (mkWorkload "app" "web" "Pod" {["app" := "web"]} false Internet [] false [] []);
     NWorkload (mkWorkload "app" "db" "Pod" {["app" := "db"]} false Internal [] true [] []);
     NImage (mkImage "sha256:0" None TrustUnknown [loaded_vuln] [] None)]
    [(0, 1, Reaches None Tcp); (0, 2, RunsImage)]).

Definition log4j_reader : string -> option Json := reader "CVE-2021-44228 is loaded at runtime".

Definition toy_digest (s : string) : list Z := repeat (Z.of_nat (String.length s) mod 256)%Z 32.

Definition web_replies (p : PendingEntry) : option string * option string := (Some "{}", None).

Definition breached_judge (p : PendingEntry) : IncidentDecision :=
  match ask log4j_reader web_replies breached p with Some (_, d) => d | None => uncertain "" end.

Definition breached_answers (l : list PendingEntry) : list (PendingEntry * IncidentDecision) := (fun p => (p, breached_judge p)) <$> l.

Lemma breached_answered : answered log4j_reader web_replies breached breached_judge.
Proof.
  intros p. destruct (judge_returns log4j_reader (pe_entry p) breached (pe_downstream p) (pe_menu p) "{}" None
    (decide_reply (default JNull (log4j_reader "")) (pe_menu p)) eq_refl eq_refl) as [d Hd].
  exists (Some "{}"). unfold breached_judge, ask, web_replies. cbn [fst snd]. by rewrite Hd.
Qed.

Lemma breached_applies :
  match judged_pass length_hash toy_digest [] breached_answers web_engine (web_observed false) breached with
  | Some (_, _, fx) => match applies fx with [] => false | _ => true end
  | None => false
  end = true.
Proof. by vm_compute. Qed.

Lemma evidenced_apply_witness :
  exists en preview fx m, judged_pass length_hash toy_digest [] breached_answers web_engine (web_observed false) breached = Some (en, preview, fx) /\
    FxApply m ∈ fx /\ ob_break_glass (web_observed false) = false.
Proof.
  pose proof breached_applies as H.
  destruct (judged_pass length_hash toy_digest [] breached_answers web_engine (web_observed false) breached) as [[[en preview] fx]|] eqn:E;
    [|discriminate H].
  destruct (applies fx) as [|m ms] eqn:Ha; [discriminate H|].
  assert (FxApply m ∈ fx) as Hm by (apply applies_elem; rewrite Ha; left).
  exists en, preview, fx, m. split; [reflexivity|]. split; [exact Hm|].
  exact (proj1 (evidenced_apply log4j_reader length_hash toy_digest web_replies [] breached_judge breached_answers web_engine
    (web_observed false) breached en preview fx m breached_answered (fun l => reflexivity _) web_engine_ok E Hm)).
Defined.
