(* ===== verification/View.v ===== *)
(** * The findings view

    engine/src/engine/dashboard/view_model/posture.rs, findings.rs and alerts.rs:
    the rows of a pass as they are shown, with the posture of their verdict, the
    merging of replicas and of fan-out and the order by urgency; mod.rs and
    dashboard/mod.rs: the strip every view carries, counted from those rows. *)

From S2P Require Import Prelude Text ImageRef Attack Behavior Classify Graph Feeds Respond Verdicts Guards AgentLiveness Render Findings Readiness.

#[local] Arguments String.append : simpl nomatch.

(** ** posture.rs *)

Module Posture.

Inductive Posture := Breach | Cleared | Uncertain | Awaiting.

#[global] Instance Posture_eq_dec : EqDecision Posture.
Proof. solve_decision. Defined.

Inductive LiveTag := Live | Judged | NoTag.

#[global] Instance LiveTag_eq_dec : EqDecision LiveTag.
Proof. solve_decision. Defined.

Inductive DeltaProps := New | Escalated | DeEscalated | Unchanged (age : option string) | Restored.

Definition token (p : Posture) : string :=
  match p with Breach => "breach" | Cleared => "cleared" | Uncertain => "uncertain" | Awaiting => "awaiting" end.

Definition is_cleared (p : Posture) : bool := bool_decide (p = Cleared).

Definition posture_of (v : option Verdict) : Posture :=
  match v with
  | None => Awaiting
  | Some (Verdicts.Confirmed | Verdicts.Exploitable _) => Breach
  | Some (Verdicts.Refuted _) => Cleared
  | Some (Verdicts.Uncertain _) => Uncertain
  end.

Definition live_tag_of (v : option Verdict) : LiveTag :=
  match v with
  | Some Verdicts.Confirmed => Live
  | Some (Verdicts.Exploitable _) => Judged
  | _ => NoTag
  end.

Definition human_age (secs : Z) : string :=
  if (secs <? 60)%Z then pretty secs +:+ "s"
  else if (secs <? 3600)%Z then pretty (secs / 60)%Z +:+ "m"
  else if (secs <? 86400)%Z then pretty (secs / 3600)%Z +:+ "h"
  else pretty (secs / 86400)%Z +:+ "d".

Definition delta_of (recency : option RecencyInfo) : DeltaProps :=
  match recency with
  | None => Unchanged None
  | Some info =>
      match ri_delta info with
      | Verdicts.New => New
      | Verdicts.Escalated => Escalated
      | Verdicts.DeEscalated => DeEscalated
      | Verdicts.Restored => Restored
      | Verdicts.Unchanged => Unchanged (human_age <$> ri_age_secs info)
      end
  end.

Definition is_escalated (d : DeltaProps) : bool := match d with Escalated => true | _ => false end.

End Posture.

(** ** alerts.rs *)

Record AlertProps := mkAlert {
  al_signal : string; al_kind : string; al_workload : string; al_recency : string; al_on_chain : option string
}.

Definition alarming_now_label (b : Behavior) : option (string * string) :=
  match b with
  | Alert rule => Some ("alert", "sensor rule fired: " +:+ rule)
  | _ =>
      match ExecClass.notable_exec b with
      | Some label => Some ("exec", "notable exec: " +:+ label +:+ " (" +:+ match b with ProcessExec path _ => path | _ => "" end +:+ ")")
      | None =>
          match AlarmClass.alarming_write b with
          | Some label => Some ("write", label +:+ ": " +:+ match b with FileWrite path => path | _ => "" end)
          | None =>
              (fun label => ("peer", "contacted " +:+ label +:+ " (" +:+ match b with NetworkConnection peer _ => peer | _ => "" end +:+ ")"))
                <$> PeerClass.foothold_peer b
          end
      end
  end.

Definition recency_of (f : Finding) : string :=
  match f_recency f ≫= ri_age_secs with
  | Some secs => Posture.human_age secs +:+ " ago"
  | None => "this pass"
  end.

Definition on_chain_of (f : Finding) : option string :=
  if negb (f_breach_relevant f) then None else Some (short_of (f_entry f) +:+ " → " +:+ short_of (f_objective f)).

Definition alarming_signals_of (f : Finding) : list AlertProps :=
  (fun '(kind, signal) => mkAlert signal kind (short_of (f_entry f)) (recency_of f) (on_chain_of f))
    <$> omap alarming_now_label (ee_runtime (f_evidence f)).

Definition blind_caveat_of (r : Readiness) : option string :=
  match bset_iter (blind_nodes_of r) with
  | [] => None
  | blind => Some ("no live runtime sensor on: " +:+ join ", " blind +:+
      " — a quiet view here is not an all-clear; absence of a signal is not evidence of safety")
  end.

Definition recency_rank (a : AlertProps) : nat := if bool_decide (al_recency a = "this pass") then 0 else 1.

(** [Ord::cmp] of the keys, one after the other. *)
Definition alert_cmp (a b : AlertProps) : comparison :=
  match Nat.compare (recency_rank a) (recency_rank b) with
  | Eq => match String.compare (al_workload a) (al_workload b) with
          | Eq => String.compare (al_signal a) (al_signal b)
          | c => c
          end
  | c => c
  end.

Definition leb_of {A} (cmp : A -> A -> comparison) (a b : A) : bool := match cmp a b with Gt => false | _ => true end.

Record AlertsView := mkAlertsView { av_alerts : list AlertProps; av_blind_caveat : option string }.

Definition alerts_view (findings : list Finding) (r : Readiness) : AlertsView :=
  mkAlertsView (sort_by (leb_of alert_cmp) (concat (alarming_signals_of <$> findings))) (blind_caveat_of r).

(** ** findings.rs *)

Definition FANOUT_THRESHOLD : nat := 8.

Definition node_kind_glyph (key : string) : string :=
  let kind := kind_of key in
  if bool_decide (kind = "workload") then "▢"
  else if bool_decide (kind = "secret") then "🔑"
  else if bool_decide (kind = "identity") then "👤"
  else if bool_decide (kind = "endpoint") then "→"
  else if bool_decide (kind = "image") then "▣"
  else if bool_decide (kind = "host") then "🖥"
  else if bool_decide (kind = "capability") then "⚡"
  else "•".

Definition entry_glyph (key : string) (foothold : bool) : string := if foothold then "🌐" else node_kind_glyph key.

Record BehaviorProps := mkBehaviorProps { bp_variant : string; bp_summary : string; bp_corroborating : bool }.

Definition behavior_props (b : Behavior) : BehaviorProps :=
  mkBehaviorProps (variant_label b) (Behavior.summary b) (is_alert b).

(** The evidence of a row, the runtime part split in two. *)
Record EvidenceProps := mkEvidenceProps {
  ep_cves : list CveEvidence;
  ep_corroborating : list BehaviorProps;
  ep_context : list BehaviorProps;
  ep_exposed_secrets : list FindingEvidence;
  ep_misconfigs : list FindingEvidence;
  ep_rbac_findings : list FindingEvidence
}.

Definition evidence_props (ev : EntryEvidence) : EvidenceProps :=
  mkEvidenceProps (ee_cves ev)
    (behavior_props <$> List.filter is_alert (ee_runtime ev))
    (behavior_props <$> List.filter (fun b => negb (is_alert b)) (ee_runtime ev))
    (ee_exposed_secrets ev) (ee_misconfigs ev) (ee_rbac_findings ev).

Record EvidenceSummary := mkEvidenceSummary { es_cve_count : nat; es_kev : bool; es_runtime_alerts : nat; es_exposed_secrets : nat }.

Definition evidence_summary (ev : EntryEvidence) : EvidenceSummary :=
  mkEvidenceSummary (length (ee_cves ev)) (existsb ce_kev (ee_cves ev)) (length (List.filter is_alert (ee_runtime ev)))
    (length (ee_exposed_secrets ev)).

Definition cut_row_props (c : CutRow) : CutRow :=
  mkCutRow (short_of (cr_node c)) (cr_mechanism c) (cr_is_entry c) (cr_blast_note c).

Record CutSetProps := mkCutSet { cs_assessment : string; cs_rows : list CutRow }.

Definition cut_set_props (incident : option IncidentSummary) : CutSetProps :=
  match incident with
  | None => mkCutSet "awaiting" []
  | Some s =>
      mkCutSet match is_assessment s with AAttack => "attack" | ANoAttack => "no-attack" | AUncertain => "uncertain" end
        (cut_row_props <$> is_cuts s)
  end.

Record HopProps := mkHop {
  hp_from : string; hp_from_glyph : string; hp_relation : string; hp_to : string; hp_to_glyph : string;
  hp_structural : bool; hp_is_cut : bool; hp_shared : bool
}.

Definition is_structural_relation (relation : string) : bool :=
  bool_decide (relation ∈ ["runs-as"; "runs-image"; "scheduled-on"]).

Definition hop_signature (h : PathStep) : string := ps_from h +:+ " -[" +:+ ps_relation h +:+ "]-> " +:+ ps_to h.

(** One hop; only the first one of a path starts at the entry. *)
Definition hop_props (cut : option string) (foothold shared : bool) (i : nat) (h : PathStep) : HopProps :=
  mkHop (short_of (ps_from h)) (if (i =? 0) && foothold then "🌐" else node_kind_glyph (ps_from h)) (ps_relation h)
    (short_of (ps_to h)) (node_kind_glyph (ps_to h)) (is_structural_relation (ps_relation h))
    (bool_decide (cut = Some (hop_signature h))) shared.

Definition path_props (path : list PathStep) (cut : option string) (foothold : bool) : list HopProps :=
  imap (hop_props cut foothold false) path.

(** The signatures on every path, when there is more than one. *)
Definition shared_signatures (source : list (list PathStep)) : gset string :=
  match source with
  | first :: ((_ :: _) as rest) =>
      foldl (fun (acc : gset string) p => acc ∩ list_to_set (hop_signature <$> p)) (list_to_set (hop_signature <$> first)) rest
  | _ => ∅
  end.

Definition multi_path_props (paths : list (list PathStep)) (representative : list PathStep) (cut : option string) (foothold : bool)
    : list (list HopProps) :=
  let source := match paths with [] => [representative] | _ => paths end in
  let shared := shared_signatures source in
  imap (fun i h => hop_props cut foothold (bool_decide (hop_signature h ∈ shared)) i h) <$> source.

(** FNV-1a on 64 bits. *)
Definition FNV_OFFSET : N := 14695981039346656037.
Definition FNV_PRIME : N := 1099511628211.

Fixpoint fnv1a (hash : N) (s : string) : N :=
  match s with
  | EmptyString => hash
  | String c s => fnv1a (N.land (N.lxor hash (Ascii.N_of_ascii c) * FNV_PRIME) (2 ^ 64 - 1)) s
  end.

Definition short_hash (s : string) : string := hex_digits 8 (Z.of_N (N.land (fnv1a FNV_OFFSET s) (2 ^ 32 - 1))).

Definition is_ascii_alnum (c : Ascii.ascii) : bool :=
  let n := Ascii.N_of_ascii c in
  ((48 <=? n) && (n <=? 57) || (65 <=? n) && (n <=? 90) || (97 <=? n) && (n <=? 122))%N.

(** One character of the slug for one of the key. *)
Fixpoint slug (s : string) : string :=
  match s with
  | EmptyString => EmptyString
  | String c s => if continuation c then slug s else String (if is_ascii_alnum c then c else Ascii.ascii_of_nat 45) (slug s)
  end.

Definition finding_id (entry : string) : string := "f-" +:+ slug entry +:+ "-" +:+ short_hash entry.

(** The verdict is shown in its debug form. *)
Record JudgementProps := mkJudgementProps { jp_prompt : option string; jp_reply : option string; jp_verdict : option Verdict }.

Definition judgement_props (entry : string) (judgements : list Judgement) : JudgementProps :=
  match List.find (fun j => bool_decide (jm_entry j = entry)) judgements with
  | Some j => mkJudgementProps (jm_prompt j) (jm_reply j) (Some (jm_verdict j))
  | None => mkJudgementProps None None None
  end.

Definition blind_node_caveat (f : Finding) (blind_nodes : gset string) : option string :=
  if f_corroborated f then None
  else
    node ← f_node f;
    if negb (bool_decide (node ∈ blind_nodes)) then None
    else Some ("runtime-blind on " +:+ node +:+ " — no live sensor here, so absence of a signal is not evidence of safety").

Record FindingProps := mkFindingProps {
  fp_id : string;
  fp_posture : Posture.Posture;
  fp_live_tag : Posture.LiveTag;
  fp_delta : Posture.DeltaProps;
  fp_entry_glyph : string;
  fp_entry : string;
  fp_foothold : bool;
  fp_objective : string;
  fp_fanout : option nat;
  fp_replicas : option nat;
  fp_evidence_summary : EvidenceSummary;
  fp_disposition : string;
  fp_verdict_summary : option string;
  fp_path : list HopProps;
  fp_paths : list (list HopProps);
  fp_paths_truncated : bool;
  fp_cut : option string;
  fp_cuts : CutSetProps;
  fp_evidence : EvidenceProps;
  fp_judgement : JudgementProps;
  fp_reach : option string;
  fp_blind_node_caveat : option string;
  fp_alerts : list AlertProps
}.

Definition finding_props (judgements : list Judgement) (blind_nodes : gset string) (f : Finding) : FindingProps :=
  mkFindingProps (finding_id (f_entry f)) (Posture.posture_of (f_verdict f)) (Posture.live_tag_of (f_verdict f))
    (Posture.delta_of (f_recency f)) (entry_glyph (f_entry f) (f_foothold f)) (short_of (f_entry f)) (f_foothold f)
    (short_of (f_objective f)) None None (evidence_summary (f_evidence f)) (f_disposition f) (Verdicts.summary <$> f_verdict f)
    (path_props (f_path f) (f_cut f) (f_foothold f)) (multi_path_props (f_paths f) (f_path f) (f_cut f) (f_foothold f))
    (f_paths_truncated f) (f_cut f) (cut_set_props (f_incident f)) (evidence_props (f_evidence f))
    (judgement_props (f_entry f) judgements) (f_reach f) (blind_node_caveat f blind_nodes) (alarming_signals_of f).

(** The row with another label, replica count or fan-out. *)
Definition relabel (r : FindingProps) (entry : string) (fanout replicas : option nat) : FindingProps :=
  mkFindingProps (fp_id r) (fp_posture r) (fp_live_tag r) (fp_delta r) (fp_entry_glyph r) entry (fp_foothold r) (fp_objective r)
    fanout replicas (fp_evidence_summary r) (fp_disposition r) (fp_verdict_summary r) (fp_path r) (fp_paths r) (fp_paths_truncated r)
    (fp_cut r) (fp_cuts r) (fp_evidence r) (fp_judgement r) (fp_reach r) (fp_blind_node_caveat r) (fp_alerts r).

Definition urgency_rank (f : FindingProps) : nat :=
  match fp_posture f, fp_live_tag f, fp_delta f with
  | Posture.Breach, Posture.Live, _ => 0
  | Posture.Breach, _, _ => 1
  | _, _, Posture.Escalated => 2
  | Posture.Uncertain, _, _ => 3
  | Posture.Awaiting, _, _ => 4
  | Posture.Cleared, _, _ => 5
  end.

Fixpoint count_where {A} (p : A -> bool) (l : list A) : nat :=
  match l with [] => 0 | x :: l => (if p x then 1 else 0) + count_where p l end.

(** The rows of an entry past the threshold become its first one. *)
Definition rows_of (entry : string) (rows : list FindingProps) : nat :=
  count_where (fun r => bool_decide (fp_entry r = entry)) rows.

Fixpoint keep_first (all : list FindingProps) (seen : gset string) (rows : list FindingProps) : list FindingProps :=
  match rows with
  | [] => []
  | r :: rows =>
      if FANOUT_THRESHOLD <? rows_of (fp_entry r) all then
        if bool_decide (fp_entry r ∈ seen) then keep_first all seen rows else r :: keep_first all ({[fp_entry r]} ∪ seen) rows
      else r :: keep_first all seen rows
  end.

Definition mark_fanout (all : list FindingProps) (r : FindingProps) : FindingProps :=
  let n := rows_of (fp_entry r) all in
  if FANOUT_THRESHOLD <? n then relabel r (fp_entry r) (Some n) (fp_replicas r) else r.

Definition collapse_fanout (rows : list FindingProps) : list FindingProps := mark_fanout rows <$> keep_first rows ∅ rows.

(** *** Replicas *)

Definition dash : Ascii.ascii := Ascii.ascii_of_nat 45.

Definition is_ascii_lower (c : Ascii.ascii) : bool := let n := Ascii.N_of_ascii c in ((97 <=? n) && (n <=? 122))%N.
Definition is_digit (c : Ascii.ascii) : bool := let n := Ascii.N_of_ascii c in ((48 <=? n) && (n <=? 57))%N.

Fixpoint all_bytes (p : Ascii.ascii -> bool) (s : string) : bool :=
  match s with EmptyString => true | String c s => p c && all_bytes p s end.

Definition is_mixed_hash (seg : string) (least most : nat) : bool :=
  (least <=? String.length seg) && (String.length seg <=? most) &&
  all_bytes (fun c => is_ascii_lower c || is_digit c) seg &&
  negb (all_bytes (fun c => negb (is_ascii_lower c)) seg) && negb (all_bytes (fun c => negb (is_digit c)) seg).

Definition is_pod_hash (seg : string) : bool := is_mixed_hash seg 5 5.
Definition is_replicaset_hash (seg : string) : bool := is_mixed_hash seg 5 10.

Definition stem_of (stem : string) (ok : bool) : option string := if negb (bool_decide (stem = "")) && ok then Some stem else None.

(** The last two dashes, [str::rsplitn(3, '-')]. *)
Definition two_hashes (pod_name : string) : option string :=
  '(rest, pod_hash) ← rsplit_once dash pod_name;
  '(stem, rs_hash) ← rsplit_once dash rest;
  stem_of stem (is_pod_hash pod_hash && is_replicaset_hash rs_hash).

Definition strip_replica_suffix (pod_name : string) : option string :=
  let once := fun ok => '(stem, tail) ← rsplit_once dash pod_name; stem_of stem (ok tail) in
  match once (fun tail => negb (bool_decide (tail = "")) && all_bytes is_digit tail) with
  | Some stem => Some stem
  | None =>
      match rsplit_once dash pod_name with
      | None => None
      | Some (rest, _) =>
          match rsplit_once dash rest with
          | None => None
          | Some _ => match two_hashes pod_name with Some stem => Some stem | None => once is_pod_hash end
          end
      end
  end.

Definition workload_group_key (short_entry : string) : option string :=
  match splitn 3 slash short_entry with
  | [ns; kind; pod_name] =>
      if negb (bool_decide (kind = "Pod")) || bool_decide (ns = "") || bool_decide (pod_name = "") then None
      else (fun workload => ns +:+ "/Pod/" +:+ workload) <$> strip_replica_suffix pod_name
  | _ => None
  end.

Definition group_of (r : FindingProps) : option string := workload_group_key (fp_entry r).

Definition group_size (rows : list FindingProps) (key : string) : nat :=
  count_where (fun r => bool_decide (group_of r = Some key)) rows.

Definition better (a b : FindingProps) : bool :=
  (urgency_rank a <? urgency_rank b) || ((urgency_rank a =? urgency_rank b) && str_ltb (fp_entry a) (fp_entry b)).

(** The first row of a group none of whose later rows is better. *)
Fixpoint best_from (best : nat * FindingProps) (i : nat) (key : string) (rows : list FindingProps) : nat * FindingProps :=
  match rows with
  | [] => best
  | r :: rows =>
      best_from (if bool_decide (group_of r = Some key) && better r best.2 then (i, r) else best) (S i) key rows
  end.

Fixpoint best_idx (i : nat) (key : string) (rows : list FindingProps) : option nat :=
  match rows with
  | [] => None
  | r :: rows => if bool_decide (group_of r = Some key) then Some (best_from (i, r) (S i) key rows).1 else best_idx (S i) key rows
  end.

Definition keep_row (all : list FindingProps) (i : nat) (r : FindingProps) : bool :=
  match group_of r with
  | Some key => if 2 <=? group_size all key then bool_decide (best_idx 0 key all = Some i) else true
  | None => true
  end.

Definition mark_replicas (all : list FindingProps) (r : FindingProps) : FindingProps :=
  match group_of r with
  | Some key =>
      let n := group_size all key in
      if 2 <=? n then
        relabel r match split_once slash key with
                  | Some (ns, rest) => match strip_prefix "Pod/" rest with Some workload => ns +:+ "/" +:+ workload | None => fp_entry r end
                  | None => fp_entry r
                  end (fp_fanout r) (Some n)
      else r
  | None => r
  end.

Definition collapse_pod_replicas (rows : list FindingProps) : list FindingProps :=
  mark_replicas rows <$> omap (fun '(i, r) => if keep_row rows i r then Some r else None) (imap pair rows).

Definition row_cmp (a b : FindingProps) : comparison :=
  match Nat.compare (urgency_rank a) (urgency_rank b) with
  | Eq => match String.compare (fp_entry a) (fp_entry b) with
          | Eq => String.compare (fp_objective a) (fp_objective b)
          | c => c
          end
  | c => c
  end.

Definition map_findings (findings : list Finding) (judgements : list Judgement) (blind_nodes : gset string) : list FindingProps :=
  sort_by (leb_of row_cmp)
    (collapse_fanout (collapse_pod_replicas (finding_props judgements blind_nodes <$> List.filter f_breach_relevant findings))).

(** ** mod.rs *)

Definition posture_count (p : Posture.Posture) (rows : list FindingProps) : nat :=
  length (List.filter (fun r => bool_decide (fp_posture r = p)) rows).

Definition strip_from_findings (cluster : string) (findings : list Finding) (judgements : list Judgement) (r : Readiness)
    : StatusStrip * list FindingProps :=
  let rows := map_findings findings judgements (blind_nodes_of r) in
  (status_strip cluster r (posture_count Posture.Breach rows) (posture_count Posture.Awaiting rows) (posture_count Posture.Uncertain rows)
     (posture_count Posture.Cleared rows) (length (List.filter (fun r => Posture.is_escalated (fp_delta r)) rows)), rows).
