(* ===== verification/SigningInventory.v ===== *)
(** * The signing inventory

    engine/src/engine/dashboard/view_model/signing_inventory.rs and
    props/signing.rs: the rows the sweeps left in the decision log, read back as
    the inventory of images, its banners and the counts of the strip. Rows come
    newest first. Then
    what the sweeps write is what it reads back, and how its enforcement column
    stands to the gate that enforces. *)

From S2P Require Import Prelude Text ImageRef Posture Behavior PolicyLog Journal SigningBaseline SigningDrift Continuity.
From S2P Require Import SigningSweep View.

#[local] Arguments String.append : simpl nomatch.

(** ** props/signing.rs *)

Inductive RowPosture := RpSigned | RpSignedKeyBased | RpUnverifiable | RpInvalid | RpNotSigned | RpChecking.

#[export] Instance RowPosture_eq_dec : EqDecision RowPosture.
Proof. solve_decision. Defined.

Definition row_posture_parse (word : string) : RowPosture :=
  if bool_decide (word = "signed") then RpSigned
  else if bool_decide (word = "signed-key-based") then RpSignedKeyBased
  else if bool_decide (word = "unverifiable") then RpUnverifiable
  else if bool_decide (word = "invalid-signature") then RpInvalid
  else if bool_decide (word = "not-signed") then RpNotSigned
  else RpChecking.

Definition row_posture_token (p : RowPosture) : string :=
  match p with
  | RpSigned => "signed" | RpSignedKeyBased => "signedkey" | RpUnverifiable => "unverifiable"
  | RpInvalid => "invalid" | RpNotSigned => "notsigned" | RpChecking => "checking"
  end.

Definition is_genuinely_invalid (p : RowPosture) : bool := bool_decide (p = RpInvalid).

Inductive SigningEnforcement := WouldAdmit | WouldBlock | EnfUncertain | ExceptionAccepted.

#[export] Instance SigningEnforcement_eq_dec : EqDecision SigningEnforcement.
Proof. solve_decision. Defined.

Definition for_image (posture : RowPosture) (regression : option bool) : SigningEnforcement :=
  if is_genuinely_invalid posture then WouldBlock
  else match regression with Some true => WouldBlock | Some false => EnfUncertain | None => WouldAdmit end.

Definition enforcement_token (e : SigningEnforcement) : string :=
  match e with WouldAdmit => "admit" | WouldBlock => "block" | EnfUncertain => "uncertain" | ExceptionAccepted => "exception" end.

Inductive RowProvenance := PrVerified | PrUnverifiable | PrAbsent | PrChecking.

#[export] Instance RowProvenance_eq_dec : EqDecision RowProvenance.
Proof. solve_decision. Defined.

Definition row_provenance_parse (word : string) : RowProvenance :=
  if bool_decide (word = "provenance-verified") then PrVerified
  else if bool_decide (word = "provenance-unverifiable") then PrUnverifiable
  else if bool_decide (word = "no-provenance") then PrAbsent
  else PrChecking.

Record ProvenanceProps := mkProvProps { pp_source_short : string; pp_source_full : string; pp_builder_short : string; pp_builder_full : string }.

Record SignerProps := mkSignerProps {
  sp_identity_short : string; sp_identity_full : string; sp_issuer_badge : string; sp_issuer_full : option string
}.

Record SigningRowProps := mkSigningRow {
  sr_dom_id : string;
  sr_image : string;
  sr_label : string;
  sr_posture : RowPosture;
  sr_signer : option SignerProps;
  sr_provenance : RowProvenance;
  sr_provenance_info : option ProvenanceProps;
  sr_detail : string;
  sr_enforcement : SigningEnforcement;
  sr_count : Z
}.

Inductive RepoStrength := LogCorroborated | LocalOnly | StrengthUnknown.

#[export] Instance RepoStrength_eq_dec : EqDecision RepoStrength.
Proof. solve_decision. Defined.

Definition repo_strength_parse (word : string) : RepoStrength :=
  if bool_decide (word = "log-corroborated") then LogCorroborated
  else if bool_decide (word = "local-only") then LocalOnly
  else StrengthUnknown.

Inductive BannerKind :=
  | BkUnsigned | BkInvalid | BkIdentityChange | BkDivergenceRegistrySigned | BkDivergenceLogSigned
  | BkDowngradeKeyBased | BkDowngradeUnverifiable.

#[export] Instance BannerKind_eq_dec : EqDecision BannerKind.
Proof. solve_decision. Defined.

(** An unknown word reads as an unsigned image. *)
Definition banner_kind_parse (word : string) : BannerKind :=
  if bool_decide (word = "invalid") then BkInvalid
  else if bool_decide (word = "identity") then BkIdentityChange
  else if bool_decide (word = "divergence-registry") then BkDivergenceRegistrySigned
  else if bool_decide (word = "divergence-log") then BkDivergenceLogSigned
  else if bool_decide (word = "downgrade-key-based") then BkDowngradeKeyBased
  else if bool_decide (word = "downgrade-unverifiable") then BkDowngradeUnverifiable
  else BkUnsigned.

Definition banner_kind_token (k : BannerKind) : string :=
  match k with
  | BkUnsigned => "unsigned" | BkInvalid => "invalid" | BkIdentityChange => "identity"
  | BkDivergenceRegistrySigned => "divergence-registry" | BkDivergenceLogSigned => "divergence-log"
  | BkDowngradeKeyBased => "downgrade-key-based" | BkDowngradeUnverifiable => "downgrade-unverifiable"
  end.

Record ProvenanceChangeProps := mkProvChange {
  pvc_dom_id : string; pvc_established : bool; pvc_before_builders : list string;
  pvc_after_builder : string; pvc_after_source : string; pvc_image : string
}.

Record ExceptionAcceptedProps := mkExcAccepted {
  ea_dom_id : string; ea_kind : BannerKind; ea_established : bool; ea_before_identities : list string;
  ea_after_identity : option string; ea_image : string
}.

Record SigningRegressionProps := mkRegProps {
  rg_dom_id : string; rg_kind : BannerKind; rg_established : bool; rg_before_identities : list string;
  rg_after_identity : option string; rg_after_issuer : option string; rg_image : string
}.

Record SigningRepoProps := mkRepoProps {
  rp_repo : string;
  rp_images : list SigningRowProps;
  rp_regression : option SigningRegressionProps;
  rp_exception : option ExceptionAcceptedProps;
  rp_provenance_change : option ProvenanceChangeProps;
  rp_strength : RepoStrength
}.

(** ** Which rows are of the inventory *)

Definition IMAGE_SUBJECT_PREFIX : string := "Image/".
Definition REGRESSION_SUBJECT_PREFIX : string := "SigningRegression/".
Definition EXCEPTION_SUBJECT_PREFIX : string := "SigningException/".
Definition STRENGTH_SUBJECT_PREFIX : string := "SigningStrength/".
Definition PROVENANCE_SUBJECT_PREFIX : string := "Provenance/".
Definition PROVENANCE_CHANGE_SUBJECT_PREFIX : string := "ProvenanceChange/".
Definition EXCEPTION_STATUS_PREFIX : string := "exception-".
Definition PROVENANCE_CHANGE_STATUS_PREFIX : string := "provenance-change-".
Definition REGRESSION_STATUS_PREFIX : string := "regression-".
Definition BEFORE_SEP : string := " | before: ".

Definition is_observation_row (r : PolicyDecisionRecord) : bool := starts_with IMAGE_SUBJECT_PREFIX (pd_subject r).
Definition is_regression_row (r : PolicyDecisionRecord) : bool := starts_with REGRESSION_SUBJECT_PREFIX (pd_subject r).
Definition is_exception_row (r : PolicyDecisionRecord) : bool := starts_with EXCEPTION_SUBJECT_PREFIX (pd_subject r).
Definition is_strength_row (r : PolicyDecisionRecord) : bool := starts_with STRENGTH_SUBJECT_PREFIX (pd_subject r).
Definition is_provenance_row (r : PolicyDecisionRecord) : bool := starts_with PROVENANCE_SUBJECT_PREFIX (pd_subject r).
Definition is_provenance_change_row (r : PolicyDecisionRecord) : bool := starts_with PROVENANCE_CHANGE_SUBJECT_PREFIX (pd_subject r).

Definition is_inventory_row (r : PolicyDecisionRecord) : bool :=
  is_observation_row r || is_regression_row r || is_exception_row r || is_strength_row r || is_provenance_row r ||
  is_provenance_change_row r.

(** ** Reading the words back *)

(** [str::split_once(&str)] and [str::split(&str)]; every piece takes at least a
    byte of the separator, so the length of the string bounds the rounds. *)
Fixpoint split_once_str (p s : string) : option (string * string) :=
  match strip_prefix p s with
  | Some r => Some (EmptyString, r)
  | None => match s with
            | EmptyString => None
            | String c s => (fun lr => (String c lr.1, lr.2)) <$> split_once_str p s
            end
  end.

Fixpoint split_str_fuel (fuel : nat) (p s : string) : list string :=
  match fuel with
  | 0 => [s]
  | S fuel => match split_once_str p s with Some (l, r) => l :: split_str_fuel fuel p r | None => [s] end
  end.

Definition split_str (p s : string) : list string := split_str_fuel (String.length s) p s.

Definition split_ref (image : string) : string * string :=
  match split_once at_char image with
  | Some (repo, digest) => (repo, digest)
  | None =>
      match rsplit_once slash image with
      | Some (path, seg) =>
          match split_once colon_char seg with
          | Some (name, tag) => (path +:+ "/" +:+ name, tag)
          | None => (image, "")
          end
      | None => match split_once colon_char image with Some (name, tag) => (name, tag) | None => (image, "") end
      end
  end.

Definition parse_signer_reason (reason : string) : option (string * option string) :=
  rest ← strip_prefix "signed by " reason;
  Some match split_once_str " via " rest with
       | Some (identity, issuer) => (identity, Some issuer)
       | None => (rest, None)
       end.

Definition short_identity (identity : string) : string :=
  match strip_prefix "https://github.com/" identity with
  | Some rest =>
      let repo_path := match split_once_str "/.github/" rest with Some (l, _) => l | None => rest end in
      match split slash repo_path with
      | org :: repo :: _ => if bool_decide (org = "") || bool_decide (repo = "") then identity else org +:+ "/" +:+ repo
      | _ => identity
      end
  | None => identity
  end.

Definition issuer_badge (issuer : string) : string :=
  let rest := match strip_prefix "https://" issuer with
              | Some r => r
              | None => match strip_prefix "http://" issuer with Some r => r | None => issuer end
              end in
  let host := match split_once slash rest with Some (h, _) => h | None => rest end in
  if bool_decide (host = "token.actions.githubusercontent.com") then "github actions"
  else if bool_decide (host = "accounts.google.com") then "google"
  else if bool_decide (host = "oauth2.sigstore.dev") then "sigstore"
  else host.

Definition signer_from_reason (reason : string) : option SignerProps :=
  '(identity, issuer) ← parse_signer_reason reason;
  Some (mkSignerProps (short_identity identity) identity (default "" (issuer_badge <$> issuer)) issuer).

Definition parse_provenance_reason (reason : string) : option (string * string) :=
  rest ← strip_prefix "built by " reason; rsplit_str " from " rest.

Definition short_source (source : string) : string :=
  match List.filter (fun s => negb (bool_decide (s = ""))) (split slash source) with
  | _ :: org :: repo :: _ => org +:+ "/" +:+ repo
  | _ => source
  end.

(** The first entry of a key stays. *)
Definition first_wins {V} (m : gmap string V) (kv : string * V) : gmap string V :=
  match m !! kv.1 with Some _ => m | None => <[kv.1 := kv.2]> m end.

Definition provenance_entry (r : PolicyDecisionRecord) : string * (RowProvenance * option ProvenanceProps) :=
  let posture := row_provenance_parse (pd_signature r) in
  (pd_image r,
   (posture,
    if bool_decide (posture = PrVerified) then
      '(builder, source) ← parse_provenance_reason (pd_reason r);
      Some (mkProvProps (short_source source) source (short_identity builder) builder)
    else None)).

Definition provenance_by_image (rows : list PolicyDecisionRecord) : gmap string (RowProvenance * option ProvenanceProps) :=
  foldl first_wins ∅ (provenance_entry <$> List.filter is_provenance_row rows).

Definition signing_dom_id (prefix key : string) : string := prefix +:+ "-" +:+ slug key +:+ "-" +:+ short_hash key.

Definition posture_attention (p : RowPosture) : nat :=
  match p with
  | RpInvalid => 0 | RpNotSigned => 1 | RpUnverifiable => 2 | RpChecking => 3 | RpSignedKeyBased => 4 | RpSigned => 5
  end.

(** [u8::MAX] for a group without images. *)
Definition group_attention (g : SigningRepoProps) : nat :=
  if bool_decide (is_Some (rp_regression g)) || bool_decide (is_Some (rp_provenance_change g)) then 0
  else match posture_attention <$> (sr_posture <$> rp_images g) with
       | [] => 255
       | r :: rs => S (foldl Nat.min r rs)
       end.

Definition dash_char : Ascii.ascii := Ascii.ascii_of_nat 45.

Definition strength_of_word (strength : string) : option bool :=
  if bool_decide (strength = "established") then Some true
  else if bool_decide (strength = "cold") then Some false
  else None.

(** The strength a regression row was recorded with. *)
Definition regressing_entry (r : PolicyDecisionRecord) : option (string * bool) :=
  token ← strip_prefix REGRESSION_STATUS_PREFIX (pd_signature r);
  '(_, strength) ← rsplit_once dash_char token;
  established ← strength_of_word strength;
  Some (pd_image r, established).

Definition regressing_images (rows : list PolicyDecisionRecord) : gmap string bool :=
  foldl first_wins ∅ (omap regressing_entry (List.filter is_regression_row rows)).

Definition excepted_images (rows : list PolicyDecisionRecord) : gset string :=
  list_to_set (pd_image <$> List.filter is_exception_row rows).

Definition signing_row (provenance : gmap string (RowProvenance * option ProvenanceProps)) (regressing : gmap string bool)
    (excepted : gset string) (r : PolicyDecisionRecord) : SigningRowProps :=
  let posture := row_posture_parse (pd_signature r) in
  let remainder := (split_ref (pd_image r)).2 in
  let '(provenance_posture, provenance_info) := default (PrAbsent, None) (provenance !! pd_image r) in
  mkSigningRow (signing_dom_id "si" (pd_image r)) (pd_image r)
    (if bool_decide (remainder = "") then pd_image r else remainder) posture
    (if bool_decide (posture = RpSigned) then signer_from_reason (pd_reason r) else None)
    provenance_posture provenance_info (pd_reason r)
    (if bool_decide (pd_image r ∈ excepted) then ExceptionAccepted else for_image posture (regressing !! pd_image r))
    (pd_count r).

(** ** Banners *)

(** [(after, before)] of a reason. *)
Definition split_before (reason : string) : string * list string :=
  let '(after, before) := match split_once_str BEFORE_SEP reason with Some lr => lr | None => (reason, "") end in
  (after, List.filter (fun s => negb (bool_decide (s = ""))) (trim <$> split_str ", " before)).

Definition parse_provenance_change (r : PolicyDecisionRecord) : option (string * ProvenanceChangeProps) :=
  repo ← strip_prefix PROVENANCE_CHANGE_SUBJECT_PREFIX (pd_subject r);
  strength ← strip_prefix PROVENANCE_CHANGE_STATUS_PREFIX (pd_signature r);
  established ← strength_of_word strength;
  let '(after, before) := split_before (pd_reason r) in
  let '(builder, source) := default ("", "") (parse_provenance_reason after) in
  Some (repo, mkProvChange (signing_dom_id "pc" repo) established before builder source (pd_image r)).

(** The kind and strength of a drift token. *)
Definition parse_drift_token (token : string) : option (BannerKind * bool) :=
  '(kind_word, strength) ← rsplit_once dash_char token;
  established ← strength_of_word strength;
  Some (banner_kind_parse kind_word, established).

Definition parse_regression (r : PolicyDecisionRecord) : option (string * SigningRegressionProps) :=
  repo ← strip_prefix REGRESSION_SUBJECT_PREFIX (pd_subject r);
  token ← strip_prefix REGRESSION_STATUS_PREFIX (pd_signature r);
  '(kind, established) ← parse_drift_token token;
  let '(after, before) := split_before (pd_reason r) in
  let signer := if bool_decide (kind = BkIdentityChange) then parse_signer_reason after else None in
  Some (repo, mkRegProps (signing_dom_id "sr" repo) kind established before (fst <$> signer) (signer ≫= snd) (pd_image r)).

Definition parse_exception (r : PolicyDecisionRecord) : option (string * ExceptionAcceptedProps) :=
  repo ← strip_prefix EXCEPTION_SUBJECT_PREFIX (pd_subject r);
  token ← strip_prefix EXCEPTION_STATUS_PREFIX (pd_signature r);
  '(kind, established) ← parse_drift_token token;
  let '(after, before) := split_before (pd_reason r) in
  let signer := if bool_decide (kind = BkIdentityChange) then parse_signer_reason after else None in
  Some (repo, mkExcAccepted (signing_dom_id "ex" repo) kind established before (fst <$> signer) (pd_image r)).

(** The first of each repository, in order. *)
Definition push_new {V} (out : list (string * V)) (kv : string * V) : list (string * V) :=
  if existsb (fun e => bool_decide (e.1 = kv.1)) out then out else out ++ [kv].

Definition regressions_by_repo (rows : list PolicyDecisionRecord) : list (string * SigningRegressionProps) :=
  foldl push_new [] (omap parse_regression (List.filter is_regression_row rows)).

Definition exceptions_by_repo (rows : list PolicyDecisionRecord) : list (string * ExceptionAcceptedProps) :=
  foldl push_new [] (omap parse_exception (List.filter is_exception_row rows)).

Definition provenance_changes_by_repo (rows : list PolicyDecisionRecord) : list (string * ProvenanceChangeProps) :=
  foldl push_new [] (omap parse_provenance_change (List.filter is_provenance_change_row rows)).

(** A word of no strength is skipped. *)
Definition strength_entry (r : PolicyDecisionRecord) : option (string * RepoStrength) :=
  repo ← strip_prefix STRENGTH_SUBJECT_PREFIX (pd_subject r);
  let strength := repo_strength_parse (pd_signature r) in
  if bool_decide (strength = StrengthUnknown) then None else Some (repo, strength).

Definition strengths_by_repo (rows : list PolicyDecisionRecord) : list (string * RepoStrength) :=
  foldl push_new [] (omap strength_entry (List.filter is_strength_row rows)).

Definition counts (rows : list PolicyDecisionRecord) : nat * nat :=
  foldl (fun '(established, cold) '(_, reg) => if rg_established reg then (S established, cold) else (established, S cold))
    (0, 0) (regressions_by_repo rows).

(** ** The groups *)

(** The first group of a repository is changed; without one the new group goes last. *)
Fixpoint alter_group (repo : string) (f : SigningRepoProps -> SigningRepoProps) (fresh : option SigningRepoProps)
    (groups : list SigningRepoProps) : list SigningRepoProps :=
  match groups with
  | [] => match fresh with Some g => [g] | None => [] end
  | g :: groups => if bool_decide (rp_repo g = repo) then f g :: groups else g :: alter_group repo f fresh groups
  end.

Definition bare_group (repo : string) : SigningRepoProps := mkRepoProps repo [] None None None StrengthUnknown.

Definition set_images (images : list SigningRowProps) (g : SigningRepoProps) : SigningRepoProps :=
  mkRepoProps (rp_repo g) images (rp_regression g) (rp_exception g) (rp_provenance_change g) (rp_strength g).
Definition set_regression (reg : SigningRegressionProps) (g : SigningRepoProps) : SigningRepoProps :=
  mkRepoProps (rp_repo g) (rp_images g) (Some reg) (rp_exception g) (rp_provenance_change g) (rp_strength g).
Definition set_exception (exc : ExceptionAcceptedProps) (g : SigningRepoProps) : SigningRepoProps :=
  mkRepoProps (rp_repo g) (rp_images g) (rp_regression g) (Some exc) (rp_provenance_change g) (rp_strength g).
Definition set_change (change : ProvenanceChangeProps) (g : SigningRepoProps) : SigningRepoProps :=
  mkRepoProps (rp_repo g) (rp_images g) (rp_regression g) (rp_exception g) (Some change) (rp_strength g).
Definition set_strength (strength : RepoStrength) (g : SigningRepoProps) : SigningRepoProps :=
  mkRepoProps (rp_repo g) (rp_images g) (rp_regression g) (rp_exception g) (rp_provenance_change g) strength.

Definition add_image (row_of : PolicyDecisionRecord -> SigningRowProps) (groups : list SigningRepoProps) (r : PolicyDecisionRecord)
    : list SigningRepoProps :=
  let repo := (split_ref (pd_image r)).1 in
  let row := row_of r in
  alter_group repo (fun g => set_images (rp_images g ++ [row]) g) (Some (set_images [row] (bare_group repo))) groups.

(** Each banner goes to the group of its repository, made if there is none. *)
Definition attach {V} (put : V -> SigningRepoProps -> SigningRepoProps) (groups : list SigningRepoProps) (kv : string * V)
    : list SigningRepoProps :=
  alter_group kv.1 (put kv.2) (Some (put kv.2 (bare_group kv.1))) groups.

Definition sort_images (g : SigningRepoProps) : SigningRepoProps :=
  set_images (sort_by (fun a b => posture_attention (sr_posture a) <=? posture_attention (sr_posture b)) (rp_images g)) g.

Definition row_in (rows : list PolicyDecisionRecord) : PolicyDecisionRecord -> SigningRowProps :=
  signing_row (provenance_by_image rows) (regressing_images rows) (excepted_images rows).

Definition inventory (rows : list PolicyDecisionRecord) : list SigningRepoProps :=
  let groups := foldl (add_image (row_in rows)) [] (List.filter is_observation_row rows) in
  let groups := foldl (attach set_regression) groups (regressions_by_repo rows) in
  let groups := foldl (attach set_exception) groups (exceptions_by_repo rows) in
  let groups := foldl (attach set_change) groups (provenance_changes_by_repo rows) in
  let groups := foldl (fun groups kv => alter_group kv.1 (set_strength kv.2) None groups) groups (strengths_by_repo rows) in
  sort_by (fun a b => group_attention a <=? group_attention b) (sort_images <$> groups).

(** ** Splitting at a separator *)

Lemma split_once_str_here a p r : split_once_str (String a p) (String a p +:+ r) = Some (EmptyString, r).
Proof.
  assert (strip_prefix (String a p) (String a p +:+ r) = Some r) as H by (by apply strip_prefix_app).
  change (String a p +:+ r) with (String a (p +:+ r)) in *. cbn [split_once_str]. by rewrite H.
Qed.

(** The first byte of the separator does not occur before it. *)
Lemma split_once_str_first a p s r :
  no_char a s = true -> split_once_str (String a p) (s +:+ String a p +:+ r) = Some (s, r).
Proof.
  induction s as [|c s IH]; intros Hs; [exact (split_once_str_here a p r)|].
  simpl in Hs. apply andb_true_iff in Hs as [Hc Hs]. change (String c s +:+ String a p +:+ r) with (String c (s +:+ String a p +:+ r)). cbn [split_once_str strip_prefix].
  destruct (Ascii.eqb_spec a c) as [->|_]; [by rewrite Ascii.eqb_refl in Hc|]. by rewrite (IH Hs).
Qed.

(** Nor does the second one, which is not the first. *)
Lemma split_once_str_second a b p s r :
  a <> b -> no_char b s = true -> split_once_str (String a (String b p)) (s +:+ String a (String b p) +:+ r) = Some (s, r).
Proof.
  intros Hab. induction s as [|c s IH]; intros Hs; [exact (split_once_str_here a (String b p) r)|].
  simpl in Hs. apply andb_true_iff in Hs as [Hc Hs]. change (String c s +:+ String a (String b p) +:+ r) with (String c (s +:+ String a (String b p) +:+ r)). cbn [split_once_str].
  assert (strip_prefix (String a (String b p)) (String c (s +:+ String a (String b p) +:+ r)) = None) as Hn.
  { cbn [strip_prefix]. destruct (Ascii.eqb_spec a c) as [->|_]; [|done]. destruct s as [|c' s]; simpl.
    - destruct (Ascii.eqb_spec b c) as [->|_]; [done|]. done.
    - simpl in Hs. apply andb_true_iff in Hs as [Hc' _]. destruct (Ascii.eqb_spec b c') as [->|_]; [|done]. by rewrite Ascii.eqb_refl in Hc'. }
  rewrite Hn, (IH Hs). done.
Qed.

Lemma split_once_str_absent a p s : no_char a s = true -> split_once_str (String a p) s = None.
Proof.
  induction s as [|c s IH]; intros Hs; [done|]. simpl in Hs. apply andb_true_iff in Hs as [Hc Hs]. cbn [split_once_str strip_prefix].
  destruct (Ascii.eqb_spec a c) as [->|_]; [by rewrite Ascii.eqb_refl in Hc|]. by rewrite (IH Hs).
Qed.

Lemma split_once_str_absent_second a b p s : a <> b -> no_char b s = true -> split_once_str (String a (String b p)) s = None.
Proof.
  intros Hab. induction s as [|c s IH]; intros Hs; [done|]. simpl in Hs. apply andb_true_iff in Hs as [Hc Hs]. cbn [split_once_str strip_prefix].
  assert (match s with EmptyString => None | String b' s' => if Ascii.eqb b b' then strip_prefix p s' else None end = None) as Hn.
  { destruct s as [|c' s]; [done|]. simpl in Hs. apply andb_true_iff in Hs as [Hc' _].
    destruct (Ascii.eqb_spec b c') as [->|_]; [|done]. by rewrite Ascii.eqb_refl in Hc'. }
  rewrite Hn, (IH Hs). by destruct (Ascii.eqb a c).
Qed.

Definition space : Ascii.ascii := Ascii.ascii_of_nat 32.
Definition bar : Ascii.ascii := Ascii.ascii_of_nat 124.

(** Enough rounds for the string at hand, whatever is left of them. *)
Lemma split_str_join l : Forall (fun s => no_char space s = true /\ s <> "") l -> l <> [] ->
  forall fuel, String.length (join ", " l) <= fuel -> split_str_fuel fuel ", " (join ", " l) = l.
Proof.
  induction l as [|s l IH]; [done|]. intros [[Hs Hne] Hl]%Forall_cons_1 _ fuel Hf. destruct l as [|s' l].
  - cbn [join]. destruct fuel as [|fuel]; [done|]. cbn [split_str_fuel].
    assert (split_once_str ", " s = None) as -> by (by apply (split_once_str_absent_second (Ascii.ascii_of_nat 44) space "" s)). done.
  - change (join ", " (s :: s' :: l)) with (s +:+ ", " +:+ join ", " (s' :: l)) in *.
    rewrite !str_length_app in Hf. change (String.length ", ") with 2 in Hf. destruct fuel as [|fuel]; [lia|]. cbn [split_str_fuel].
    assert (split_once_str ", " (s +:+ ", " +:+ join ", " (s' :: l)) = Some (s, join ", " (s' :: l))) as ->
      by (by apply (split_once_str_second (Ascii.ascii_of_nat 44) space "" s)). f_equal. apply IH; [done|done|]. lia.
Qed.

(** ** What the sweep writes is read back *)

(** The banner kind of a drift. *)
Definition banner_of (k : RegressionKind) : BannerKind :=
  match k with
  | RkUnsigned => BkUnsigned
  | RkInvalid => BkInvalid
  | IdentityChange _ _ => BkIdentityChange
  | Downgrade KeyBased => BkDowngradeKeyBased
  | Downgrade Unverifiable => BkDowngradeUnverifiable
  | Downgrade _ => BkUnsigned
  end.

(** An identity as Fulcio names one: no blank and no bar in it. *)
Definition plain_identity (s : string) : Prop :=
  no_char space s = true /\ no_char bar s = true /\ s <> "" /\ trim s = s.

Definition plain_kind (k : RegressionKind) : Prop :=
  match k with
  | IdentityChange i issuer => plain_identity i /\ match issuer with Some s => no_char bar s = true | None => True end
  | _ => True
  end.

Definition plain_baseline (baseline : option SigningBaseline) : Prop :=
  forall b, baseline = Some b -> forall s, s ∈ sb_identities b -> plain_identity s.

(** The identities a banner lists: those of the baseline, or a word for none. *)
Definition known_before (baseline : option SigningBaseline) : list string :=
  match bset_iter (default ∅ (sb_identities <$> baseline)) with [] => ["unknown"] | l => l end.

Lemma before_of_join baseline : plain_baseline baseline -> before_of (sb_identities <$> baseline) = join ", " (known_before baseline).
Proof.
  intros Hb. unfold before_of, known_before. destruct baseline as [b|]; [|vm_compute; reflexivity]. cbn [fmap option_fmap option_map default from_option]. unfold opt_filter, Posture.nonempty. change (id (sb_identities b)) with (sb_identities b).
  destruct (bset_iter (sb_identities b)) as [|s l] eqn:E; [done|].
  assert (s ∈ sb_identities b) as Hs by (apply bset_iter_elem; rewrite E; left).
  destruct (Hb b eq_refl s Hs) as (_ & _ & Hne & _). assert (join ", " (s :: l) <> "") as Hj by (destruct s; [done|]; by destruct l). by rewrite bool_decide_eq_false_2.
Qed.

(** A round over [split_before]: the clause has no bar, the identities are plain. *)
Lemma split_before_reason after baseline :
  no_char bar after = true -> plain_baseline baseline ->
  split_before (after +:+ " | before: " +:+ before_of (sb_identities <$> baseline)) = (after, known_before baseline).
Proof.
  intros Ha Hb. unfold split_before.
  assert (split_once_str BEFORE_SEP (after +:+ " | before: " +:+ before_of (sb_identities <$> baseline)) =
    Some (after, before_of (sb_identities <$> baseline))) as -> by (exact (split_once_str_second space bar " before: " after _ ltac:(done) Ha)).
  rewrite before_of_join by done. f_equal.
  assert (Forall plain_identity (known_before baseline)) as Hp.
  { unfold known_before. destruct (bset_iter _) as [|s l] eqn:E.
    - repeat constructor; done.
    - rewrite <- E. apply (proj2 (list.Forall_forall _ _)). intros x Hx%bset_iter_elem. destruct baseline as [b|]; [by apply (Hb b)|]. set_solver. }
  unfold split_str. rewrite split_str_join; [| |unfold known_before; by destruct (bset_iter _)|done].
  - induction Hp as [|s l (_ & _ & Hne & Ht) _ IH]; [done|]. rewrite fmap_cons. cbn [List.filter]. rewrite Ht, bool_decide_eq_false_2 by done.
    cbn [negb]. by rewrite IH.
  - eapply Forall_impl; [exact Hp|]. intros s (H1 & _ & H2 & _). done.
Qed.

Lemma drift_token_read k est :
  parse_drift_token (kind_word k +:+ "-" +:+ strength_word est) = Some (banner_of k, est).
Proof. destruct k as [| |i o|[]], est; by vm_compute. Qed.

Lemma after_clause_no_bar k : plain_kind k -> no_char bar (after_clause k) = true.
Proof.
  destruct k as [| |i [issuer|]|[]]; try (intros _; by vm_compute); intros [(_ & Hi & _) Ho]; cbn [after_clause].
  - by rewrite !no_char_app, Hi, Ho.
  - by rewrite !no_char_app, Hi.
Qed.

(** The signer an identity change names. *)
Definition change_signer (k : RegressionKind) : option (string * option string) :=
  match k with IdentityChange i issuer => Some (i, issuer) | _ => None end.

Lemma after_clause_read k : plain_kind k ->
  (if bool_decide (banner_of k = BkIdentityChange) then parse_signer_reason (after_clause k) else None) = change_signer k.
Proof.
  destruct k as [| |i issuer|[]]; try done. intros [(Hi & _ & _) _]. rewrite bool_decide_eq_true_2 by done.
  cbn [after_clause change_signer]. unfold parse_signer_reason. destruct issuer as [issuer|].
  - assert (strip_prefix "signed by " ("signed by " +:+ i +:+ " via " +:+ issuer) = Some (i +:+ " via " +:+ issuer)) as -> by (by apply strip_prefix_app).
    assert (split_once_str " via " (i +:+ " via " +:+ issuer) = Some (i, issuer)) as E by (exact (split_once_str_first space "via " i issuer Hi)).
    cbn [mbind option_bind]. by rewrite E.
  - assert (strip_prefix "signed by " ("signed by " +:+ i) = Some i) as -> by (by apply strip_prefix_app).
    assert (split_once_str " via " i = None) as E by (exact (split_once_str_absent space "via " i Hi)). cbn [mbind option_bind]. by rewrite E.
Qed.

(** A regression the sweep records is read back whole from its row in the
    decision log: the repository, the kind and strength, the identities the
    baseline knew in order, the new signer with its issuer, the image. *)
Theorem regression_round_trip repo image k est baseline now :
  plain_kind k -> plain_baseline baseline ->
  parse_regression (regression_row repo image k est baseline now) =
  Some (repo, mkRegProps (signing_dom_id "sr" repo) (banner_of k) est (known_before baseline)
                (fst <$> change_signer k) (change_signer k ≫= snd) image).
Proof.
  intros Hk Hb. unfold parse_regression, regression_row, decision_now. cbn [pd_subject pd_signature pd_reason pd_image].
  assert (strip_prefix REGRESSION_SUBJECT_PREFIX (SigningSweep.REGRESSION_SUBJECT_PREFIX +:+ repo) = Some repo) as -> by (by apply strip_prefix_app).
  assert (strip_prefix REGRESSION_STATUS_PREFIX ("regression-" +:+ kind_word k +:+ "-" +:+ strength_word est) =
    Some (kind_word k +:+ "-" +:+ strength_word est)) as -> by (by apply strip_prefix_app).
  cbn [mbind option_bind]. rewrite drift_token_read. cbn [mbind option_bind].
  unfold regression_reason. rewrite split_before_reason by (done || by apply after_clause_no_bar).
  by rewrite after_clause_read.
Qed.

(** ** The enforcement column and the gate *)

Lemma first_wins_lookup {V} (l : list (string * V)) k :
  foldl first_wins ∅ l !! k = snd <$> List.find (fun kv => bool_decide (kv.1 = k)) l.
Proof.
  assert (forall (m : gmap string V), foldl first_wins m l !! k =
    match m !! k with Some v => Some v | None => snd <$> List.find (fun kv => bool_decide (kv.1 = k)) l end) as H.
  { induction l as [|[k' v] l IH]; intros m; [simpl; by destruct (m !! k)|]. cbn [foldl]. rewrite IH. unfold first_wins. cbn [List.find fst snd].
    case_bool_decide as E.
    - subst k'. destruct (m !! k) eqn:Em; [by rewrite Em|by rewrite lookup_insert_eq].
    - destruct (m !! k') eqn:Em; [done|]. by rewrite lookup_insert_ne. }
  rewrite H, lookup_empty. done.
Qed.

Lemma excepted_elem rows image :
  image ∈ excepted_images rows <-> exists q, q ∈ rows /\ is_exception_row q = true /\ pd_image q = image.
Proof.
  unfold excepted_images. rewrite elem_of_list_to_set, list_elem_of_fmap. setoid_rewrite elem_of_filter_b. naive_solver.
Qed.

(** Where every regression row of an image reads alike, so does the column. *)
Lemma regressing_lookup rows image (v : option bool) :
  (forall q, q ∈ rows -> pd_image q = image -> is_regression_row q = true -> exists est, v = Some est /\ regressing_entry q = Some (image, est)) ->
  (is_Some v -> exists q, q ∈ rows /\ pd_image q = image /\ is_regression_row q = true) ->
  regressing_images rows !! image = v.
Proof.
  intros Hall Hex. unfold regressing_images. rewrite first_wins_lookup.
  destruct (List.find _ _) as [[k est]|] eqn:E; simpl.
  - apply find_some in E as [Hin Hk]. apply bool_decide_eq_true_1 in Hk. cbn [fst] in Hk. subst k.
    apply list_elem_of_In, list_elem_of_omap in Hin as (q & Hq%elem_of_filter_b & Hr). destruct Hq as [Hreg Hq].
    assert (pd_image q = image) as Hi.
    { unfold regressing_entry in Hr. apply bind_Some in Hr as (tok & _ & Hr). apply bind_Some in Hr as ([? ?] & _ & Hr).
      apply bind_Some in Hr as (e & _ & Hr). by injection Hr. }
    destruct (Hall q Hq Hi Hreg) as (est' & -> & Hr'). congruence.
  - destruct v as [est|]; [|done]. destruct (Hex ltac:(by eexists)) as (q & Hq & Hi & Hreg).
    destruct (Hall q Hq Hi Hreg) as (est' & [= <-] & Hr). exfalso.
    pose proof (find_none _ _ E (image, est)) as Hn. cbn [fst] in Hn. rewrite bool_decide_eq_true_2 in Hn by done. discriminate Hn.
    apply list_elem_of_In, list_elem_of_omap. exists q. split; [|done]. by apply elem_of_filter_b.
Qed.

(** A row of the log that says the same of the same image. *)
Definition says (q r : PolicyDecisionRecord) : Prop :=
  pd_image q = pd_image r /\ pd_subject q = pd_subject r /\ pd_signature q = pd_signature r.

Lemma regression_row_kinds repo image k est b t :
  is_regression_row (SigningSweep.regression_row repo image k est b t) = true /\
  is_exception_row (SigningSweep.regression_row repo image k est b t) = false /\
  is_regression_row (exception_row repo image k est b t) = false /\
  is_exception_row (exception_row repo image k est b t) = true.
Proof. repeat split; try (apply starts_with_app; by eexists). Qed.

Lemma regressing_entry_says q repo image k est b t :
  says q (SigningSweep.regression_row repo image k est b t) -> regressing_entry q = Some (image, est).
Proof.
  intros (Hi & _ & Hs). unfold regressing_entry. rewrite Hs, Hi. unfold SigningSweep.regression_row, decision_now. cbn [pd_signature pd_image].
  assert (strip_prefix REGRESSION_STATUS_PREFIX ("regression-" +:+ kind_word k +:+ "-" +:+ strength_word est) =
    Some (kind_word k +:+ "-" +:+ strength_word est)) as -> by (by apply strip_prefix_app).
  cbn [mbind option_bind]. destruct k as [| |i o|[]], est; by vm_compute.
Qed.

Lemma row_of_posture posture : row_posture_parse (posture_status posture) = RpInvalid <-> posture = InvalidSignature.
Proof. by destruct posture. Qed.

(** The enforcement column against the gate. Where the rows the log holds of
    an image are those this sweep recorded of it, the column says would-block
    exactly when the gate, over the baselines the sweep compared with, refuses the
    image; but a broken signature the operator has accepted, on which the sweep
    had no baseline to record an exception against, still reads would-block. *)
Theorem column_against_gate s es max_images rows image posture now :
  (forall q, q ∈ rows -> pd_image q = image -> is_regression_row q || is_exception_row q = true ->
     exists row, regression_of s es (image, posture) = Some row /\ says q (row 0%Z)) ->
  (forall row, regression_of s es (image, posture) = Some row -> exists q, q ∈ rows /\ says q (row 0%Z)) ->
  sr_enforcement (row_in rows (posture_row image posture now)) = WouldBlock <->
  is_Some (block_reason (mkGate (Some s) es [] max_images) image posture) \/
  (posture = InvalidSignature /\ store_get s (repo_key image) = None /\ accepts es image RkInvalid = true).
Proof.
  intros Hall Hex. unfold row_in, signing_row, posture_row, decision_now. cbn [pd_image pd_signature pd_reason pd_count].
  destruct (default _ _) as [pp pi]. cbn [sr_enforcement].
  unfold block_reason, shared_get. cbn [cg_pins cg_baseline cg_exceptions violated_pin List.find mbind option_bind].
  unfold regression_of in Hall, Hex. cbn [fst snd] in Hall, Hex. cbv zeta in Hall, Hex.
  destruct (classify (store_get s (repo_key image)) posture) as [| |kind est] eqn:Ec.
  3: destruct (accepts es image kind) eqn:Ea.
  3: { (* an accepted regression *)
    destruct (Hex _ eq_refl) as (q & Hq & Hi & Hsub & _). cbn in Hi.
    rewrite bool_decide_eq_true_2.
    2: { apply excepted_elem. exists q. split; [done|]. split; [|done]. unfold is_exception_row. rewrite Hsub. apply starts_with_app. by eexists. }
    assert (store_get s (repo_key image) <> None \/ posture <> InvalidSignature) as Hb
      by (destruct (store_get s (repo_key image)); [by left|by destruct posture]).
    split; [done|]. intros [[x Hx]|(-> & Hn & _)]; [|naive_solver]. by destruct (would_block _ _). }
  3: { (* a regression on the loud channel *)
    rewrite bool_decide_eq_false_2.
    2: { intros (q & Hq & He & Hi)%excepted_elem. destruct (Hall q Hq Hi ltac:(rewrite He; apply orb_true_r)) as (row & [= <-] & _ & Hsub & _).
         unfold is_exception_row in He. rewrite Hsub in He. destruct (regression_row_kinds (repo_key image) image kind est (store_get s (repo_key image)) 0) as (_ & Hx & _).
         unfold is_exception_row in Hx. congruence. }
    rewrite (regressing_lookup rows image (Some est)).
    2: { intros q Hq Hi Hreg. exists est. split; [done|]. destruct (Hall q Hq Hi ltac:(by rewrite Hreg)) as (row & [= <-] & Hs). by eapply regressing_entry_says. }
    2: { intros _. destruct (Hex _ eq_refl) as (q & Hq & Hs). exists q. split; [done|]. destruct Hs as (Hi & Hsub & _). split; [done|].
         unfold is_regression_row. rewrite Hsub. apply starts_with_app. by eexists. }
    assert (posture = InvalidSignature -> kind = RkInvalid /\ store_get s (repo_key image) <> None) as Hinv.
    { intros ->. destruct (store_get s (repo_key image)); [|done]. by injection Ec as <- _. }
    unfold for_image, is_genuinely_invalid. destruct posture, est; cbn; naive_solver. }
  all: rewrite bool_decide_eq_false_2 by
    (intros (q & Hq & He & Hi)%excepted_elem; destruct (Hall q Hq Hi ltac:(rewrite He; apply orb_true_r)) as (row & [=] & _));
  rewrite (regressing_lookup rows image None)
    by (done || (intros q Hq Hi Hreg; destruct (Hall q Hq Hi ltac:(by rewrite Hreg)) as (row & [=] & _)) || by intros [? [=]]).
  - destruct posture; cbn; try (split; [done|intros [[? [=]]|([=] & _)]]). destruct (store_get s (repo_key image)) eqn:Es; [done|].
    destruct (accepts es image RkInvalid); cbn; naive_solver.
  - destruct posture; cbn; try (split; [done|intros [[? [=]]|([=] & _)]]). by destruct (store_get s (repo_key image)).
Qed.

(** ** What the strip counts *)

Lemma push_new_nil {V} (out : list (string * V)) l : foldl push_new out l = [] <-> out = [] /\ l = [].
Proof.
  revert out. induction l as [|kv l IH]; intros out; cbn [foldl]; [naive_solver|]. rewrite IH. unfold push_new.
  destruct (existsb _ out) eqn:E; [|destruct out; naive_solver]. split; [|naive_solver]. intros [-> _]. discriminate E.
Qed.

(** The counts are nothing exactly when no row reads as a regression. *)
Lemma counts_none rows :
  counts rows = (0, 0) <-> forall q, q ∈ rows -> is_regression_row q = true -> parse_regression q = None.
Proof.
  unfold counts. transitivity (regressions_by_repo rows = []).
  - assert (forall (l : list (string * SigningRegressionProps)) a b,
      foldl (fun '(established, cold) '(_, reg) => if rg_established reg then (S established, cold) else (established, S cold)) (a, b) l = (0, 0) <->
      a = 0 /\ b = 0 /\ l = []) as H.
    { induction l as [|[k v] l IH]; intros a b; cbn [foldl]; [naive_solver|]. destruct (rg_established v); rewrite IH; naive_solver lia. }
    rewrite H. naive_solver.
  - unfold regressions_by_repo. rewrite push_new_nil. split.
    + intros [_ H] q Hq Hr. destruct (parse_regression q) as [p|] eqn:E; [|done].
      assert (p ∈ omap parse_regression (List.filter is_regression_row rows)) as Hp by (apply list_elem_of_omap; exists q; by rewrite elem_of_filter_b).
      rewrite H in Hp. by apply not_elem_of_nil in Hp.
    + intros H. split; [done|]. destruct (omap _ _) as [|p l] eqn:E; [done|].
      assert (p ∈ omap parse_regression (List.filter is_regression_row rows)) as Hp by (rewrite E; left).
      apply list_elem_of_omap in Hp as (q & [Hr Hq]%elem_of_filter_b & He). by rewrite (H q Hq Hr) in He.
Qed.

(** ** Where the column and the gate part *)

Definition tool_pass (m : gmap string SigningPosture) (w : SweepState) : SweepState :=
  signing_pass map_to_list map_to_list BitCodec.to_string (quiet_clock 86402000) [] (Some m) w.

Definition log_lane (m : gmap string SigningPosture) (in_log : bool) (w : SweepState) : SweepState :=
  rekor_reconcile map_to_list BitCodec.to_string (Some (fun _ _ => Some in_log)) (quiet_clock 86402000) m w.

Definition column_of (w : SweepState) (image : string) : list string :=
  enforcement_token <$> (sr_enforcement <$>
    List.filter (fun r => bool_decide (sr_image r = image)) (concat (rp_images <$> inventory (log_snapshot (sw_log w))))).

Definition gate_of (w : SweepState) : ContinuityGate := mkGate (Some (sw_store w)) [] [] 64.

Definition fork_runs : gmap string SigningPosture := {["ghcr.io/org/app:evil" := Signed fork_signer]}.
Definition app_runs : gmap string SigningPosture := {["ghcr.io/org/app:1" := ci_signed "v1"]}.
Definition day_sweep : SweepState := mkSweep [] day_store journal_disabled.

(** The row of a regression outlives it: the pass that flags a new signer learns
    it, so the gate admits the image from then on, while the column goes on to
    say would-block in later passes that flag nothing. *)
Theorem column_outlives_gate :
  let w := tool_pass fork_runs (tool_pass fork_runs day_sweep) in
  column_of w "ghcr.io/org/app:evil" = ["block"] /\ counts (log_snapshot (sw_log w)) = (1, 0) /\
  block_reason (gate_of w) "ghcr.io/org/app:evil" (Signed fork_signer) = None.
Proof. repeat split; by vm_compute. Qed.

(** A divergence from the transparency log is recorded as a regression, which the
    gate knows nothing of: the column says would-block of an image it admits. *)
Theorem divergence_column_blocks :
  let w := log_lane app_runs false (log_lane app_runs true (tool_pass app_runs day_sweep)) in
  column_of w "ghcr.io/org/app:1" = ["block"] /\ block_reason (gate_of w) "ghcr.io/org/app:1" (ci_signed "v1") = None.
Proof. repeat split; by vm_compute. Qed.

(** An image pinned by tag and digest is grouped under its tag, its banner under
    the repository: the group that shows the image has no banner. *)
Theorem tagged_digest_parted :
  (fun g => (rp_repo g, length (rp_images g), bool_decide (is_Some (rp_regression g)))) <$>
    inventory (log_snapshot (sw_log (tool_pass {["ghcr.io/org/app:1@sha256:ab" := NotSigned]} day_sweep))) =
  [("ghcr.io/org/app", 0, true); ("ghcr.io/org/app:1", 1, false)].
Proof. by vm_compute. Qed.

(** ** Witnesses *)

Lemma regression_round_trip_witness :
  (plain_kind (IdentityChange "https://a/b" (Some "https://issuer")) /\ plain_baseline None) /\
  parse_regression (regression_row "ghcr.io/org/app" "ghcr.io/org/app:2" (IdentityChange "https://a/b" (Some "https://issuer")) true None 5) =
  Some ("ghcr.io/org/app", mkRegProps (signing_dom_id "sr" "ghcr.io/org/app") BkIdentityChange true ["unknown"]
          (Some "https://a/b") (Some "https://issuer") "ghcr.io/org/app:2").
Proof.
  assert (plain_kind (IdentityChange "https://a/b" (Some "https://issuer"))) as Hk by (repeat split; vm_compute; congruence).
  assert (plain_baseline None) as Hb by (intros b [=]).
  exact (conj (conj Hk Hb) (regression_round_trip "ghcr.io/org/app" "ghcr.io/org/app:2" _ true None 5 Hk Hb)).
Defined.

(** A sweep that finds the image unsigned, and the log it leaves. *)
Definition unsigned_pass : SweepState := tool_pass {["ghcr.io/org/app:2" := NotSigned]} day_sweep.

Lemma column_against_gate_witness :
  is_Some (block_reason (gate_of day_sweep) "ghcr.io/org/app:2" NotSigned) /\
  sr_enforcement (row_in (log_snapshot (sw_log unsigned_pass)) (posture_row "ghcr.io/org/app:2" NotSigned 7)) = WouldBlock.
Proof.
  assert (is_Some (block_reason (gate_of day_sweep) "ghcr.io/org/app:2" NotSigned)) as Hg by (vm_compute; eauto).
  split; [exact Hg|].
  apply (column_against_gate day_store [] 64 (log_snapshot (sw_log unsigned_pass)) "ghcr.io/org/app:2" NotSigned 7).
  - intros q Hq Hi Hr. vm_compute in Hq. assert (exists row, regression_of day_store [] ("ghcr.io/org/app:2", NotSigned) = Some row) as [row Hrow]
      by (vm_compute; eauto).
    exists row. split; [exact Hrow|]. vm_compute in Hrow. injection Hrow as <-.
    repeat (apply elem_of_cons in Hq as [->|Hq]; [first [vm_compute in Hr; discriminate Hr|vm_compute in Hi; discriminate Hi|repeat split; vm_compute; reflexivity]|]).
    by apply not_elem_of_nil in Hq.
  - intros row Hrow. vm_compute in Hrow. injection Hrow as <-.
    eexists (mkDecision _ _ _ _ _ _ _ _ _ _ _). split; [vm_compute; right; left|]. repeat split; vm_compute; reflexivity.
  - left. exact Hg.
Defined.
