(* ===== verification/Report.v ===== *)
(** * The would-have-acted report

    engine/src/engine/state/report.rs: the journal folded into what the engine
    would have isolated, what it called an attack without a cut, and what it left
    alone, by the typed decision in effect at each breach line. Instants and
    durations are nanoseconds, stamps milliseconds in 64 bits. Then
    what each bucket holds, and that every entry with a line in the window is in
    exactly one of them. *)

From S2P Require Import Prelude Text Respond Incident Journal.

Definition DEFAULT_WINDOW_HOURS : Z := 24 * 7.
Definition DEFAULT_SHORT_LIVED_SECS : Z := 5 * 60.

Record WouldActEntry := mkWouldAct {
  wa_entry : string;
  wa_episodes : nat;
  wa_would_act_decisions : nat;
  wa_max_lifetime_secs : Z;
  wa_open : bool;
  wa_short_lived : bool;
  wa_coverage_gap : bool;
  wa_last_verdict : string;
  wa_contained_nodes : list string
}.

Record LeftAloneEntry := mkLeftAlone { la_entry : string; la_verdict : string }.
Record AttackNoCutEntry := mkAttackNoCut { an_entry : string; an_reason : string }.

Record Report := mkReport {
  rt_window_secs : Z;
  rt_short_lived_secs : Z;
  rt_decisions_in_window : nat;
  rt_journal_empty : bool;
  rt_would_act : list WouldActEntry;
  rt_left_alone : list LeftAloneEntry;
  rt_attack_no_cut : list AttackNoCutEntry
}.

(** The nodes named, not the rows. *)
Definition would_act_count (r : Report) : nat := size (list_to_set (rt_would_act r ≫= wa_contained_nodes) : gset string).
Definition left_alone_count (r : Report) : nat := length (rt_left_alone r).
Definition attack_no_cut_count (r : Report) : nat := length (rt_attack_no_cut r).
Definition short_lived_count (r : Report) : nat := length (List.filter wa_short_lived (rt_would_act r)).
Definition coverage_gap_count (r : Report) : nat := length (List.filter wa_coverage_gap (rt_would_act r)).

Definition is_coverage_gap (coverage : option EnrichmentCoverage) : bool :=
  match coverage with Some c => negb (is_backed c) | None => false end.

(** ** The typed decision in effect *)

Record IncidentPoint := mkPoint { ip_at : Z; ip_assessment : Assessment; ip_cuts : list JournaledCut; ip_reason : string }.

(** [Iterator::max_by_key] keeps the last of equals. *)
Definition later (best : option IncidentPoint) (p : IncidentPoint) : option IncidentPoint :=
  match best with
  | Some b => if (ip_at b <=? ip_at p)%Z then Some p else best
  | None => Some p
  end.

Definition incident_state_as_of (timeline : list IncidentPoint) (at_ms : Z) : option IncidentPoint :=
  foldl later None (List.filter (fun p => (ip_at p <=? at_ms)%Z) timeline).

(** ** Breach lines *)

Record Breach := mkBreachLine { br_at : Z; br_verdict : string; br_coverage : option EnrichmentCoverage }.

(** The decision that would isolate something at a breach line. *)
Definition would_act_at (timeline : list IncidentPoint) (b : Breach) : option IncidentPoint :=
  match incident_state_as_of timeline (br_at b) with
  | Some p => match ip_assessment p, ip_cuts p with
              | AAttack, _ :: _ => Some p
              | _, _ => None
              end
  | None => None
  end.

(** The run of would-act lines at the head, and what follows it. *)
Fixpoint run_of (timeline : list IncidentPoint) (decisions : list Breach) : list (Breach * IncidentPoint) * list Breach :=
  match decisions with
  | [] => ([], [])
  | b :: rest =>
      match would_act_at timeline b with
      | Some p => let '(run, rest) := run_of timeline rest in ((b, p) :: run, rest)
      | None => ([], decisions)
      end
  end.

Record Walk := mkWalk {
  wk_episodes : nat;
  wk_decisions : nat;
  wk_max_lifetime_ms : Z;
  wk_max_open : bool;
  wk_coverage_gap : bool;
  wk_last_reason : option string;
  wk_nodes : gset string
}.

Definition walk_start : Walk := mkWalk 0 0 0 false false None ∅.

Definition saturating_sub (a b : Z) : Z := Z.max 0 (a - b).

(** One episode; it is open when no line follows it. *)
Definition close_episode (now_ms : Z) (w : Walk) (start_ms : Z) (run : list (Breach * IncidentPoint)) (rest : list Breach) : Walk :=
  let '(end_ms, is_open) := match rest with b :: _ => (br_at b, false) | [] => (now_ms, true) end in
  let lifetime_ms := saturating_sub end_ms start_ms in
  mkWalk (S (wk_episodes w)) (wk_decisions w + length run)
    (if is_open then if negb (wk_max_open w) || (wk_max_lifetime_ms w <? lifetime_ms)%Z then lifetime_ms else wk_max_lifetime_ms w
     else if negb (wk_max_open w) && (wk_max_lifetime_ms w <? lifetime_ms)%Z then lifetime_ms else wk_max_lifetime_ms w)
    (is_open || wk_max_open w)
    (wk_coverage_gap w || existsb (fun bp => is_coverage_gap (br_coverage bp.1)) run)
    (match last run with Some bp => Some (ip_reason bp.2) | None => wk_last_reason w end)
    (wk_nodes w ∪ list_to_set (run ≫= fun bp => jc_node <$> ip_cuts bp.2)).

(** Every round drops a line at least: the length is enough. *)
Fixpoint walk_from (fuel : nat) (timeline : list IncidentPoint) (now_ms : Z) (w : Walk) (decisions : list Breach) : Walk :=
  match fuel with
  | 0 => w
  | S fuel =>
      match decisions with
      | [] => w
      | b :: tail =>
          match run_of timeline decisions with
          | ([], _) => walk_from fuel timeline now_ms w tail
          | (run, rest) => walk_from fuel timeline now_ms (close_episode now_ms w (br_at b) run rest) rest
          end
      end
  end.

Definition walk (timeline : list IncidentPoint) (now_ms : Z) (decisions : list Breach) : Walk :=
  walk_from (length decisions) timeline now_ms walk_start decisions.

(** ** The fold *)

Definition push_at {V} (m : gmap string (list V)) (kv : string * V) : gmap string (list V) :=
  <[kv.1 := default [] (m !! kv.1) ++ [kv.2]]> m.

Definition breach_of (e : JournalEntry) : option (string * Breach) :=
  match je_decision e with
  | JBreach entry _ verdict coverage _ _ => Some (entry, mkBreachLine (je_at_ms e) verdict coverage)
  | _ => None
  end.

Definition incident_of (e : JournalEntry) : option (string * IncidentPoint) :=
  match je_decision e with
  | JIncident entry _ assessment reason cuts _ => Some (entry, mkPoint (je_at_ms e) assessment cuts reason)
  | _ => None
  end.

Definition as_u64 (z : Z) : Z := (z mod 2 ^ 64)%Z.

(** An instant before the epoch has no milliseconds. *)
Definition epoch_ms (t : Z) : Z := if (t <? 0)%Z then 0 else as_u64 (t / 1000000).

(** What an entry's lines in the window come to. *)
Inductive Outcome := OWouldAct (w : WouldActEntry) | ONoCut (a : AttackNoCutEntry) | OLeft (l : LeftAloneEntry) | ONothing.

Definition outcome_of (timeline : list IncidentPoint) (now_ms short_lived : Z) (entry : string) (decisions : list Breach) : Outcome :=
  let w := walk timeline now_ms decisions in
  if 0 <? wk_episodes w then
    OWouldAct (mkWouldAct entry (wk_episodes w) (wk_decisions w) (wk_max_lifetime_ms w / 1000) (wk_max_open w)
      (negb (wk_max_open w) && (wk_max_lifetime_ms w <? as_u64 (short_lived / 1000000))%Z)
      (wk_coverage_gap w) (default "" (wk_last_reason w)) (bset_iter (wk_nodes w)))
  else match last decisions with
       | Some b =>
           match incident_state_as_of timeline (br_at b) with
           | Some (mkPoint _ AAttack [] reason) => ONoCut (mkAttackNoCut entry reason)
           | _ => OLeft (mkLeftAlone entry (br_verdict b))
           end
       | None => ONothing
       end.

Definition sustained_first (a b : WouldActEntry) : bool :=
  if Bool.eqb (wa_open a) (wa_open b) then
    (wa_max_lifetime_secs b <? wa_max_lifetime_secs a)%Z ||
    ((wa_max_lifetime_secs a =? wa_max_lifetime_secs b)%Z && str_leb (wa_entry a) (wa_entry b))
  else wa_open a.

Definition timelines (sorted : list JournalEntry) : gmap string (list IncidentPoint) := foldl push_at ∅ (omap incident_of sorted).

Definition in_window (window_start_ms : Z) (e : string * Breach) : bool := (window_start_ms <=? br_at e.2)%Z.

Definition outcomes (entries : list JournalEntry) (now window short_lived : Z) : list Outcome :=
  let sorted := sort_by (fun a b => (je_at_ms a <=? je_at_ms b)%Z) entries in
  let by_entry := foldl push_at ∅ (List.filter (in_window (epoch_ms (now - window))) (omap breach_of sorted)) in
  (fun '(entry, decisions) => outcome_of (default [] (timelines sorted !! entry)) (epoch_ms now) short_lived entry decisions)
    <$> btree_iter by_entry.

Definition aggregate_report (entries : list JournalEntry) (now window short_lived : Z) : Report :=
  let os := outcomes entries now window short_lived in
  let lines := omap breach_of entries in
  mkReport (window / 1000000000) (short_lived / 1000000000)
    (length (List.filter (in_window (epoch_ms (now - window))) lines)) (bool_decide (lines = []))
    (sort_by sustained_first (omap (fun o => match o with OWouldAct w => Some w | _ => None end) os))
    (sort_by (fun a b => str_leb (la_entry a) (la_entry b)) (omap (fun o => match o with OLeft l => Some l | _ => None end) os))
    (sort_by (fun a b => str_leb (an_entry a) (an_entry b)) (omap (fun o => match o with ONoCut a => Some a | _ => None end) os)).

(** The replayed journal over the default window. *)
Definition default_window_report (from_str : string -> option JournalEntry) (j : DecisionJournal) (now : Z) : Report :=
  aggregate_report (replay from_str j) now (DEFAULT_WINDOW_HOURS * 3600 * 1000000000) (DEFAULT_SHORT_LIVED_SECS * 1000000000).

(** ** One entry's lines *)

Section Episodes.
Variables (timeline : list IncidentPoint) (now_ms : Z).

Definition acts (b : Breach) : bool := bool_decide (is_Some (would_act_at timeline b)).

Lemma run_of_spec ds run rest : run_of timeline ds = (run, rest) ->
  ds = run.*1 ++ rest /\ Forall (fun bp => would_act_at timeline bp.1 = Some bp.2) run /\
  match rest with b :: _ => acts b = false | [] => True end.
Proof.
  revert run rest. induction ds as [|b ds IH]; intros run rest; cbn [run_of]; [by intros [= <- <-]|].
  destruct (would_act_at timeline b) as [p|] eqn:E.
  - destruct (run_of timeline ds) as [run' rest'] eqn:Er. intros [= <- <-]. destruct (IH _ _ eq_refl) as (-> & Hf & Hr). split; [done|].
    split; [by constructor|done].
  - intros [= <- <-]. split; [done|]. split; [constructor|]. unfold acts. rewrite E. by apply bool_decide_eq_false_2; intros [? [=]].
Qed.

Definition nodes_of (b : Breach) : list string :=
  match would_act_at timeline b with Some p => jc_node <$> ip_cuts p | None => [] end.

Definition reason_of (b : Breach) : option string := ip_reason <$> would_act_at timeline b.

(** What the walk has seen of some lines. *)
Record seen (w w' : Walk) (ds : list Breach) : Prop := {
  sn_decisions : wk_decisions w' = wk_decisions w + length (List.filter acts ds);
  sn_nodes : wk_nodes w' = wk_nodes w ∪ list_to_set (ds ≫= nodes_of);
  sn_episodes : (0 <? wk_episodes w') = (0 <? wk_episodes w) || existsb acts ds;
  sn_gap : wk_coverage_gap w' = wk_coverage_gap w || existsb (fun b => acts b && is_coverage_gap (br_coverage b)) ds;
  sn_reason : wk_last_reason w' = match last (omap reason_of ds) with Some r => Some r | None => wk_last_reason w end
}.

Lemma seen_trans w w' w'' ds ds' : seen w w' ds -> seen w' w'' ds' -> seen w w'' (ds ++ ds').
Proof.
  intros [] []. constructor.
  - rewrite List.filter_app, length_app. lia.
  - rewrite bind_app, list_to_set_app_L. set_solver.
  - rewrite existsb_app, sn_episodes1, sn_episodes0. by rewrite orb_assoc.
  - rewrite existsb_app, sn_gap1, sn_gap0. by rewrite orb_assoc.
  - rewrite omap_app, last_app, sn_reason1, sn_reason0. by destruct (last (omap reason_of ds')).
Qed.

Lemma seen_quiet w b : acts b = false -> seen w w [b].
Proof.
  intros Hb. assert (would_act_at timeline b = None) as Hn.
  { unfold acts in Hb. apply bool_decide_eq_false_1 in Hb. destruct (would_act_at timeline b) eqn:E; [|done]. destruct Hb. by eexists. }
  constructor; cbn; rewrite ?Hb, ?orb_false_r; try done.
  - unfold nodes_of. rewrite Hn. set_solver.
  - unfold reason_of. by rewrite Hn.
Qed.

Lemma acts_some b p : would_act_at timeline b = Some p -> acts b = true.
Proof. intros H. unfold acts. rewrite H. by apply bool_decide_eq_true_2. Qed.

Lemma run_facts run : Forall (fun bp => would_act_at timeline bp.1 = Some bp.2) run ->
  List.filter acts run.*1 = run.*1 /\ (run.*1 ≫= nodes_of) = (run ≫= fun bp => jc_node <$> ip_cuts bp.2) /\
  omap reason_of run.*1 = (fun bp => ip_reason bp.2) <$> run /\
  existsb (fun b => acts b && is_coverage_gap (br_coverage b)) run.*1 = existsb (fun bp => is_coverage_gap (br_coverage bp.1)) run.
Proof.
  induction 1 as [|[b p] run Hb _ (IH1 & IH2 & IH3 & IH4)]; [done|]. cbn [fst snd] in Hb. rewrite fmap_cons. cbn [fst List.filter existsb].
  rewrite (acts_some b p Hb), IH1, IH4. split; [done|]. split; [|split; [|done]].
  - rewrite !bind_cons, IH2. f_equal. unfold nodes_of. by rewrite Hb.
  - cbn [omap list_omap]. unfold reason_of at 1. rewrite Hb. cbn [fmap option_fmap option_map]. rewrite fmap_cons. by rewrite <- IH3.
Qed.

Lemma close_seen w start run rest :
  run <> [] -> Forall (fun bp => would_act_at timeline bp.1 = Some bp.2) run -> seen w (close_episode now_ms w start run rest) run.*1.
Proof.
  intros Hne Hf. destruct (run_facts run Hf) as (H1 & H2 & H3 & H4).
  unfold close_episode. destruct (match rest with b :: _ => (br_at b, false) | [] => (now_ms, true) end) as [end_ms is_open].
  constructor; cbn.
  - by rewrite H1, length_fmap.
  - by rewrite H2.
  - destruct run as [|[b p] run]; [done|]. apply Forall_cons_1 in Hf as [Hb _]. cbn. by rewrite (acts_some b p Hb), orb_true_r.
  - by rewrite H4.
  - rewrite H3, fmap_last. by destruct (last run).
Qed.

(** Open means that the last line would act. *)
Lemma walk_from_spec fuel : forall w ds, length ds <= fuel -> wk_max_open w = false ->
  seen w (walk_from fuel timeline now_ms w ds) ds /\
  wk_max_open (walk_from fuel timeline now_ms w ds) = match last ds with Some b => acts b | None => false end.
Proof.
  assert (forall w, seen w w []) as Hnil by (intros w; constructor; cbn; rewrite ?orb_false_r; try done; set_solver).
  induction fuel as [|fuel IH]; intros w ds Hl Ho.
  { destruct ds; [done|simpl in Hl; lia]. }
  cbn [walk_from]. destruct ds as [|b tail]; [done|]. destruct (run_of timeline (b :: tail)) as [run rest] eqn:Er.
  destruct (run_of_spec _ _ _ Er) as (Hds & Hf & Hr). destruct run as [|bp run].
  - simpl in Hds. subst rest. cbn beta iota in Hr. destruct (IH w tail ltac:(simpl in Hl; lia) Ho) as [Hs Hop].
    split; [change (b :: tail) with ([b] ++ tail); eapply seen_trans; [by apply seen_quiet|done]|].
    rewrite Hop. destruct tail as [|b' tail]; [simpl; by rewrite Hr|]. done.
  - set (w1 := close_episode now_ms w (br_at b) (bp :: run) rest).
    assert (seen w w1 (bp :: run).*1) as Hs1 by (by apply close_seen). rewrite Hds. rewrite Hds in Hl. rewrite length_app, length_fmap in Hl. simpl in Hl.
    destruct rest as [|r rest].
    + assert (walk_from fuel timeline now_ms w1 [] = w1) as -> by (by destruct fuel). rewrite app_nil_r. split; [done|].
      rewrite fmap_last. destruct (last (bp :: run)) as [[b' p]|] eqn:E; [|by apply last_None in E]. cbn.
      assert ((b', p) ∈ bp :: run) as Hin by (by apply last_Some_elem_of). rewrite list.Forall_forall in Hf. by rewrite (acts_some b' p (Hf _ Hin)).
    + destruct (IH w1 (r :: rest)) as [Hs2 Hop]; [simpl in *; lia|done|]. split; [by eapply seen_trans|]. rewrite Hop.
      rewrite last_app. destruct (last (r :: rest)) eqn:E; [done|]. by apply last_None in E.
Qed.

Lemma report_walk_spec ds :
  seen walk_start (walk timeline now_ms ds) ds /\
  wk_max_open (walk timeline now_ms ds) = match last ds with Some b => acts b | None => false end.
Proof. by apply walk_from_spec. Qed.

End Episodes.

(** ** The report *)

Lemma push_at_lookup {V} (l : list (string * V)) k :
  foldl push_at ∅ l !! k =
  match omap (fun kv => if bool_decide (kv.1 = k) then Some kv.2 else None) l with [] => None | vs => Some vs end.
Proof.
  induction l as [|[k' v] l IH] using rev_ind; [done|]. rewrite foldl_app, omap_app. cbn [foldl omap list_omap]. unfold push_at at 1. cbn [fst snd].
  case_bool_decide as E.
  - subst k'. rewrite lookup_insert_eq, IH. by destruct (omap _ l).
  - rewrite lookup_insert_ne, IH, app_nil_r by done. done.
Qed.

Section Outcomes.
Variables (entries : list JournalEntry) (now window short_lived : Z).

Definition in_order_of_time : list JournalEntry := sort_by (fun a b => (je_at_ms a <=? je_at_ms b)%Z) entries.

Definition of_entry {V} (entry : string) (l : list (string * V)) : list V :=
  omap (fun kv => if bool_decide (kv.1 = entry) then Some kv.2 else None) l.

(** The breach lines of an entry in the window, and its typed decisions ever. *)
Definition lines_of (entry : string) : list Breach :=
  of_entry entry (List.filter (in_window (epoch_ms (now - window))) (omap breach_of in_order_of_time)).

Definition timeline_of (entry : string) : list IncidentPoint := of_entry entry (omap incident_of in_order_of_time).

Lemma report_outcomes_spec o : o ∈ outcomes entries now window short_lived <->
  exists entry, lines_of entry <> [] /\ o = outcome_of (timeline_of entry) (epoch_ms now) short_lived entry (lines_of entry).
Proof.
  unfold outcomes. fold in_order_of_time. rewrite list_elem_of_fmap.
  assert (forall entry, default [] (timelines in_order_of_time !! entry) = timeline_of entry) as Ht.
  { intros entry. unfold timelines. rewrite push_at_lookup. unfold timeline_of, of_entry. by destruct (omap _ (omap _ _)). }
  assert (forall entry ds, (entry, ds) ∈ btree_iter (foldl push_at ∅ (List.filter (in_window (epoch_ms (now - window))) (omap breach_of in_order_of_time))) <->
    ds = lines_of entry /\ ds <> []) as Hb.
  { intros entry ds. rewrite btree_iter_elem, push_at_lookup. unfold lines_of, of_entry. destruct (omap _ (List.filter _ _)); naive_solver. }
  split.
  - intros ([entry ds] & -> & Hin). apply Hb in Hin as [-> Hne]. exists entry. by rewrite Ht.
  - intros (entry & Hne & ->). exists (entry, lines_of entry). rewrite Ht. split; [done|]. by apply Hb.
Qed.

(** The decision in effect at the last line in the window. *)
Definition last_state (entry : string) : option IncidentPoint :=
  b ← last (lines_of entry); incident_state_as_of (timeline_of entry) (br_at b).

Definition standing (entry : string) : bool := existsb (acts (timeline_of entry)) (lines_of entry).

Lemma outcome_cases entry : lines_of entry <> [] ->
  let ds := lines_of entry in let tl := timeline_of entry in
  match outcome_of tl (epoch_ms now) short_lived entry ds with
  | OWouldAct w =>
      standing entry = true /\ wa_entry w = entry /\ wa_would_act_decisions w = length (List.filter (acts tl) ds) /\
      wa_contained_nodes w = bset_iter (list_to_set (ds ≫= nodes_of tl)) /\
      wa_open w = match last ds with Some b => acts tl b | None => false end /\
      (wa_short_lived w = true -> wa_open w = false) /\
      wa_coverage_gap w = existsb (fun b => acts tl b && is_coverage_gap (br_coverage b)) ds
  | ONoCut a => standing entry = false /\ exists p, last_state entry = Some p /\ ip_assessment p = AAttack /\ a = mkAttackNoCut entry (ip_reason p)
  | OLeft l => standing entry = false /\ (forall p, last_state entry = Some p -> ip_assessment p <> AAttack) /\
      exists b, last ds = Some b /\ l = mkLeftAlone entry (br_verdict b)
  | ONothing => False
  end.
Proof.
  intros Hne ds tl. unfold outcome_of. fold ds tl. destruct (report_walk_spec tl (epoch_ms now) ds) as [[Hd Hn He Hg _] Ho].
  cbn [walk_start wk_episodes wk_decisions wk_nodes wk_coverage_gap] in *. rewrite He. unfold standing. fold ds tl.
  cbn [Nat.ltb Nat.leb orb]. destruct (existsb (acts tl) ds) eqn:Ea.
  - cbn. split; [done|]. split; [done|]. split; [by rewrite Hd|]. split; [rewrite Hn; by rewrite union_empty_l_L|]. split; [done|]. split; [|done].
    by destruct (wk_max_open _).
  - unfold last_state. fold ds tl. destruct (last ds) as [b|] eqn:El; [|by apply last_None in El].
    cbn [mbind option_bind]. assert (acts tl b = false) as Hb.
    { destruct (acts tl b) eqn:E; [|done]. rewrite <- Ea. symmetry. apply existsb_exists. exists b. split; [|done]. by apply list_elem_of_In, last_Some_elem_of. }
    unfold acts, would_act_at in Hb. destruct (incident_state_as_of tl (br_at b)) as [[at_ [] cuts reason]|] eqn:Es; cbn [ip_assessment ip_cuts] in Hb.
    + destruct cuts; [|by apply bool_decide_eq_false_1 in Hb; destruct Hb; eexists]. split; [done|]. by eexists.
    + split; [done|]. split; [by intros p [= <-]|]. by exists b.
    + split; [done|]. split; [by intros p [= <-]|]. by exists b.
    + split; [done|]. split; [done|]. by exists b.
Qed.

Definition report : Report := aggregate_report entries now window short_lived.

Lemma buckets :
  (forall w, w ∈ rt_would_act report <-> OWouldAct w ∈ outcomes entries now window short_lived) /\
  (forall l, l ∈ rt_left_alone report <-> OLeft l ∈ outcomes entries now window short_lived) /\
  (forall a, a ∈ rt_attack_no_cut report <-> ONoCut a ∈ outcomes entries now window short_lived).
Proof.
  unfold report, aggregate_report. cbn [rt_would_act rt_left_alone rt_attack_no_cut].
  repeat split; rewrite elem_of_sort_by, list_elem_of_omap; [intros ([] & H & [= <-])| |intros ([] & H & [= <-])| |intros ([] & H & [= <-])|]; try done; by eexists.
Qed.

(** What the report says of each entry with a breach line in the window, by
    the typed decision in effect at each such line. It is under would-act exactly
    when at some line that decision was an attack naming a node, with exactly the
    nodes and the lines of those decisions, open exactly when the last line is one
    of them, and never called short-lived while open; under attack-no-cut exactly
    when no line is and the last decision is an attack; and left alone, with the
    words of its last line, exactly when no line is and it is not. *)
Theorem report_exact :
  (forall w, w ∈ rt_would_act report ->
     let e := wa_entry w in let tl := timeline_of e in
     standing e = true /\ wa_would_act_decisions w = length (List.filter (acts tl) (lines_of e)) /\
     wa_contained_nodes w = bset_iter (list_to_set (lines_of e ≫= nodes_of tl)) /\
     wa_open w = match last (lines_of e) with Some b => acts tl b | None => false end /\
     (wa_short_lived w = true -> wa_open w = false) /\
     wa_coverage_gap w = existsb (fun b => acts tl b && is_coverage_gap (br_coverage b)) (lines_of e)) /\
  (forall e, standing e = true -> exists w, w ∈ rt_would_act report /\ wa_entry w = e) /\
  (forall a, a ∈ rt_attack_no_cut report <-> standing (an_entry a) = false /\
     exists p, last_state (an_entry a) = Some p /\ ip_assessment p = AAttack /\ an_reason a = ip_reason p) /\
  (forall l, l ∈ rt_left_alone report <-> standing (la_entry l) = false /\
     (forall p, last_state (la_entry l) = Some p -> ip_assessment p <> AAttack) /\
     exists b, last (lines_of (la_entry l)) = Some b /\ la_verdict l = br_verdict b).
Proof.
  destruct buckets as (Hw & Hl & Ha).
  assert (forall e, lines_of e <> [] -> outcome_of (timeline_of e) (epoch_ms now) short_lived e (lines_of e) ∈ outcomes entries now window short_lived) as Hin
    by (intros e He; apply report_outcomes_spec; by exists e).
  split; [|split; [|split]].
  - intros w (e & Hne & Ho)%Hw%report_outcomes_spec. pose proof (outcome_cases e Hne) as Hc. cbv zeta in Hc. rewrite <- Ho in Hc.
    destruct Hc as (H1 & <- & H2). done.
  - intros e He. assert (lines_of e <> []) as Hne by (intros E; unfold standing in He; by rewrite E in He).
    pose proof (outcome_cases e Hne) as Hc. pose proof (Hin e Hne) as Hi. cbv zeta in Hc.
    destruct (outcome_of _ _ _ _ _) as [w|a|l|]; [|destruct Hc; congruence..|done]. exists w. split; [by apply Hw|]. by destruct Hc as (_ & ? & _).
  - intros a. split.
    + intros (e & Hne & Ho)%Ha%report_outcomes_spec. pose proof (outcome_cases e Hne) as Hc. cbv zeta in Hc. rewrite <- Ho in Hc.
      destruct Hc as (H1 & p & H2 & H3 & ->). cbn. split; [done|]. by exists p.
    + intros (H1 & p & H2 & H3 & H4). assert (lines_of (an_entry a) <> []) as Hne by (intros E; unfold last_state in H2; by rewrite E in H2).
      pose proof (outcome_cases _ Hne) as Hc. pose proof (Hin _ Hne) as Hi. cbv zeta in Hc.
      destruct (outcome_of _ _ _ _ _) as [w|a'|l|]; [destruct Hc; congruence| |by destruct Hc as (_ & Hx & _); destruct (Hx p)|done].
      destruct Hc as (_ & p' & H2' & _ & ->). rewrite H2 in H2'. injection H2' as <-. apply Ha. destruct a as [ae ar]. cbn in *. by rewrite H4.
  - intros l. split.
    + intros (e & Hne & Ho)%Hl%report_outcomes_spec. pose proof (outcome_cases e Hne) as Hc. cbv zeta in Hc. rewrite <- Ho in Hc.
      destruct Hc as (H1 & H2 & b & H3 & ->). cbn. split; [done|]. split; [done|]. by exists b.
    + intros (H1 & H2 & b & H3 & H4). assert (lines_of (la_entry l) <> []) as Hne by (intros E; by rewrite E in H3).
      pose proof (outcome_cases _ Hne) as Hc. pose proof (Hin _ Hne) as Hi. cbv zeta in Hc.
      destruct (outcome_of _ _ _ _ _) as [w|a|l'|]; [destruct Hc; congruence|destruct Hc as (_ & p & Hp & Hat & _); by destruct (H2 p Hp)| |done].
      destruct Hc as (_ & _ & b' & H3' & ->). rewrite H3 in H3'. injection H3' as <-. apply Hl. destruct l as [le lv]. cbn in *. by rewrite H4.
Qed.

End Outcomes.

(** ** The longest episode *)

Definition attack_line (at_ms : Z) : JournalEntry := mkJEntry at_ms (JIncident "workload/a/Pod/w" 1 AAttack "why" [mkJournaledCut "workload/a/Pod/w" "s"] "f").
Definition clear_line (at_ms : Z) : JournalEntry := mkJEntry at_ms (JIncident "workload/a/Pod/w" 1 ANoAttack "no" [] "g").
Definition breach_line (at_ms : Z) : JournalEntry := mkJEntry at_ms (JBreach "workload/a/Pod/w" 1 "v" None None None).

(** A condition that held for five hours and came back a minute ago. *)
Definition came_back : list JournalEntry :=
  [attack_line 1000; breach_line 1000; clear_line 18001000; breach_line 18001000; attack_line 20000000; breach_line 20000000].

(** The lifetime of an open entry is that of its last episode, not the longest. *)
Theorem open_hides_longest :
  (fun w => (wa_episodes w, wa_max_lifetime_secs w, wa_open w)) <$>
    rt_would_act (report came_back (20060000 * 1000000) (604800 * 1000000000) (300 * 1000000000)) = [(2, 60%Z, true)].
Proof. by vm_compute. Qed.
