(* ===== verification/Mcp.v ===== *)
(** * The MCP server

    engine/src/engine/mcp/: tiering.rs (what a call may see), render.rs (an
    entry at a tier), tools.rs (the four tools), dispatch.rs (the choice of tool
    and tier), audit.rs and access_audit.rs (the record of what was disclosed)
    and the tool call of server.rs. The transport below is not modelled. Then
    what a call gets at each tier, and what no tier tells. *)

From S2P Require Import Prelude Text Json ImageRef PetGraph Attack Graph Snapshot Render AgentLiveness Auth Verdicts Evidence.
From S2P Require Import Redact Findings Readiness Guards PolicyLog Journal View SigningInventory.

#[local] Arguments String.append : simpl nomatch.

(** ** tiering.rs *)

Inductive EffectiveTier := ERedacted | EForensic | ERaw.

#[export] Instance EffectiveTier_eq_dec : EqDecision EffectiveTier.
Proof. solve_decision. Defined.

Definition eff_rank (t : EffectiveTier) : nat := match t with ERedacted => 0 | EForensic => 1 | ERaw => 2 end.
Definition eff_leb (a b : EffectiveTier) : bool := eff_rank a <=? eff_rank b.
Definition eff_min (a b : EffectiveTier) : EffectiveTier := if eff_leb a b then a else b.
Definition eff_str (t : EffectiveTier) : string := match t with ERedacted => "redacted" | EForensic => "forensic" | ERaw => "raw" end.
Definition is_disclosure (t : EffectiveTier) : bool := negb (eff_leb t ERedacted).

Definition from_claim (t : Tier) : EffectiveTier := match t with Redacted => ERedacted | Forensic => EForensic | Raw => ERaw end.

Definition clamp (requested : option Tier) (ceiling : Tier) : EffectiveTier :=
  match requested with None => from_claim ceiling | Some t => eff_min (from_claim t) (from_claim ceiling) end.

Definition capped_at (t cap : EffectiveTier) : EffectiveTier := eff_min t cap.

Definition parse_requested_tier (arg : option string) : option Tier :=
  match arg with
  | Some value => if bool_decide (trim value = "") then None else Some (from_claim_str (trim value))
  | None => None
  end.

(** ** audit.rs *)

Record AuditRecord := mkAudit { au_subject : string; au_entry : string; au_tool : string; au_tier : EffectiveTier; au_time : Z }.

(** ** render.rs *)

Definition MCP_ATTACK_CAP : nat := 8.

Definition S_ENTRY : string := "[redacted — workload identity; forensic tier required]".
Definition S_PATHS : string := "[redacted — proven path/topology; forensic tier required]".
Definition S_CVES : string := "[redacted — CVE inventory; forensic tier required]".
Definition S_JUDGEMENT : string := "[redacted — judgement prompt+reply; forensic tier required]".
Definition S_NODE : string := "[redacted — node name; forensic tier required]".
Definition S_OBJECTIVES : string := "[redacted — objective/secret names; raw tier required]".
Definition S_REASON : string := "[redacted — verdict reason; forensic tier required]".
Definition S_NODES : string := "[redacted — node names; forensic tier required]".
Definition S_IMAGES : string := "[redacted — image references; forensic tier required]".

Definition entry_ref (entry : string) : string := hex_digits 16 (Z.of_N (fnv1a FNV_OFFSET entry)).

Definition delta_label (d : Delta) : string :=
  match d with
  | New => "new" | Escalated => "escalated" | DeEscalated => "de-escalated" | Unchanged => "unchanged" | Restored => "restored"
  end.

(** [Option<T>] as JSON, and what serde makes of a count. *)
Definition json_opt {A} (f : A -> Json) (o : option A) : Json := match o with Some a => f a | None => JNull end.
Definition json_nat (n : nat) : Json := JNum (Z.of_nat n).

Record EntryData := mkEntryData {
  ed_entry : string;
  ed_verdict : option Verdict;
  ed_objectives : list string;
  ed_paths : list string;
  ed_cves : list (string * string * string * option string);
  ed_secret_names : list string;
  ed_attacks : list AttackRef;
  ed_blind : bool;
  ed_node : option string;
  ed_delta : option Delta;
  ed_corroborated : bool;
  ed_judgement : option Judgement;
  ed_reach : option string
}.

Definition path_chain (f : Finding) : string :=
  match f_path f with
  | [] => short_of (f_entry f)
  | step :: _ => join " -> " (short_of (ps_from step) :: ((fun s => short_of (ps_to s)) <$> f_path f))
  end.

(** A secret's key and its bare name. *)
Definition secret_names_of (key : string) : list string :=
  if bool_decide (kind_of key = "secret") then
    key :: match rsplit_once slash key with Some (_, bare) => [bare] | None => [] end
  else [].

(** The first of each, in order. *)
Definition distinct_by {A} (key : A -> string) (l : list A) : list A :=
  foldl (fun out x => if existsb (fun y => bool_decide (key y = key x)) out then out else out ++ [x]) [] l.

Definition cve_fields (c : CveEvidence) : string * string * string * option string :=
  (ce_id c, ce_severity c, ce_reachability c, ce_title c).

Definition secrets_of (group : list Finding) : gset string :=
  list_to_set (group ≫= fun f => secret_names_of (f_objective f) ++
    (f_path f ≫= fun step => secret_names_of (ps_from step) ++ secret_names_of (ps_to step))).

Definition from_group (entry : string) (group : list Finding) (judgement : option Judgement) (blind : bool) : EntryData :=
  mkEntryData entry
    (head (omap f_verdict group))
    (distinct_by id (f_objective <$> group))
    (path_chain <$> group)
    (distinct_by (fun c => c.1.1.1) (cve_fields <$> (group ≫= fun f => ee_cves (f_evidence f))))
    (bset_iter (secrets_of group))
    (f_attack <$> group)
    blind
    (head (omap f_node group))
    (ri_delta <$> head (omap f_recency group))
    (existsb f_corroborated group)
    judgement
    (head (omap f_reach group)).

Section Render.
(** One leading decimal digit of Unicode. *)
Variable strip_digit : string -> option string.

Definition scrub (text : string) (tier : EffectiveTier) (secret_names : list string) : string :=
  let out := sanitize text in
  let out := if eff_leb ERaw tier then out else scrub_decision_names out secret_names in
  if eff_leb EForensic tier then out else scrub_cve_tokens strip_digit out.

Definition reason_field (e : EntryData) (tier : EffectiveTier) : Json :=
  match ed_verdict e with
  | None => JStr "awaiting judgement"
  | Some v => if negb (eff_leb EForensic tier) then JStr S_REASON else JStr (scrub (Verdicts.summary v) tier (ed_secret_names e))
  end.

Definition node_field (e : EntryData) (tier : EffectiveTier) : Json :=
  if negb (ed_blind e) then JNull
  else if eff_leb EForensic tier then json_opt (fun n => JStr (sanitize n)) (ed_node e)
  else JStr S_NODE.

Definition entry_field (e : EntryData) (tier : EffectiveTier) : Json :=
  if eff_leb EForensic tier then JStr (scrub (ed_entry e) tier (ed_secret_names e)) else JStr S_ENTRY.

Definition objectives_field (e : EntryData) (tier : EffectiveTier) : Json :=
  if negb (eff_leb EForensic tier) then JStr S_OBJECTIVES
  else JArr ((fun o => JStr (scrub (short_of o) tier (ed_secret_names e))) <$> ed_objectives e).

Definition paths_field (e : EntryData) (tier : EffectiveTier) : Json :=
  if negb (eff_leb EForensic tier) then JStr S_PATHS
  else JArr ((fun p => JStr (scrub p tier (ed_secret_names e))) <$> ed_paths e).

Definition cves_field (e : EntryData) (tier : EffectiveTier) : Json :=
  if negb (eff_leb EForensic tier) then JStr S_CVES
  else JArr ((fun '(id, severity, reachability, title) =>
      JObj [("id", JStr (sanitize id)); ("severity", JStr (sanitize severity)); ("reachability", JStr (sanitize reachability));
            ("title", json_opt (fun t => JStr (sanitize t)) title)]) <$> ed_cves e).

Definition judgement_field (e : EntryData) (tier : EffectiveTier) : Json :=
  match ed_judgement e with
  | None => JNull
  | Some j =>
      if negb (eff_leb EForensic tier) then JStr S_JUDGEMENT
      else JObj [("prompt", json_opt (fun p => JStr (scrub p tier (ed_secret_names e))) (jm_prompt j));
                 ("reply", json_opt (fun r => JStr (scrub r tier (ed_secret_names e))) (jm_reply j))]
  end.

Definition render (e : EntryData) (tier : EffectiveTier) : Json :=
  JObj [("ref", JStr (entry_ref (ed_entry e)));
        ("verdict", JObj [("label", JStr (match ed_verdict e with Some v => verdict_label v | None => "awaiting" end));
                          ("reason", reason_field e tier)]);
        ("objective_count", json_nat (length (ed_objectives e)));
        ("techniques", JArr (redacted_attack_outcome (ed_attacks e) MCP_ATTACK_CAP));
        ("coverage", JObj [("runtime_blind", JBool (ed_blind e)); ("node", node_field e tier)]);
        ("freshness", JObj [("delta", JStr (match ed_delta e with Some d => delta_label d | None => "unknown" end));
                            ("corroborated", JBool (ed_corroborated e))]);
        ("entry", entry_field e tier);
        ("objectives", objectives_field e tier);
        ("paths", paths_field e tier);
        ("cve_ids", cves_field e tier);
        ("judgement", judgement_field e tier);
        ("reach", json_opt (fun r => JStr (sanitize r)) (ed_reach e))].

Record Withheld := mkWithheld { wh_kind : string; wh_count : nat; wh_unlock : string }.

Definition withheld_value (w : Withheld) : Json :=
  JObj [("kind", JStr (wh_kind w)); ("count", json_nat (wh_count w)); ("unlock", JStr (wh_unlock w))].

Definition manifest (tier : EffectiveTier) (withheld : list Withheld) : Json :=
  JObj [("tier", JStr (eff_str tier)); ("withheld", JArr (withheld_value <$> withheld))].

Definition sum_by {A} (f : A -> nat) (l : list A) : nat := foldr (fun x n => f x + n) 0 l.

Definition withheld_for (entries : list EntryData) (tier : EffectiveTier) : list Withheld :=
  let secrets := sum_by (fun e => length (ed_objectives e)) entries in
  mkWithheld "secret_values" secrets "never" ::
  (if negb (eff_leb ERaw tier) then [mkWithheld "secret_names" secrets "raw"; mkWithheld "objective_names" secrets "raw"] else []) ++
  (if negb (eff_leb EForensic tier) then
     [mkWithheld "entry" (length entries) "forensic";
      mkWithheld "paths" (sum_by (fun e => length (ed_paths e)) entries) "forensic";
      mkWithheld "cve_ids" (sum_by (fun e => length (ed_cves e)) entries) "forensic";
      mkWithheld "judgement" (length (List.filter (fun e => bool_decide (is_Some (ed_judgement e))) entries)) "forensic";
      mkWithheld "verdict_reason" (length (List.filter (fun e => bool_decide (is_Some (ed_verdict e))) entries)) "forensic"]
   else []).

(** ** state.rs and tools.rs *)

Record McpState := mkMcpState {
  ms_findings : Findings;
  ms_judgements : list Judgement;
  ms_policy_log : PolicyDecisionLog;
  ms_cluster : string
}.

Definition LIST_FINDINGS : string := "list_findings".
Definition EXPLAIN_VERDICT : string := "explain_verdict".
Definition GET_COVERAGE : string := "get_coverage".
Definition SIGNING_INVENTORY : string := "signing_inventory".
Definition BULK_SCOPE : string := "(all findings)".

Inductive ToolError := UnknownEntry | BadArguments (detail : string) | UnknownTool.

(** The findings of each entry an attacker could come in by, by entry. *)
Definition group_by_entry (findings : list Finding) : list (string * list Finding) :=
  btree_iter (foldl (fun m f => <[f_entry f := default [] (m !! f_entry f) ++ [f]]> m) ∅ (List.filter f_breach_relevant findings)).

Definition group_blind (blind : gset string) (group : list Finding) : bool :=
  existsb (fun f => match f_node f with Some n => bool_decide (n ∈ blind) | None => false end) group.

Definition judgement_for (judgements : list Judgement) (entry : string) : option Judgement :=
  List.find (fun j => bool_decide (jm_entry j = entry)) judgements.

Definition entry_data (st : McpState) (g : string * list Finding) : EntryData :=
  from_group g.1 g.2 (judgement_for (judgement_snapshot (ms_judgements st)) g.1)
    (group_blind (blind_nodes_of (readiness_of (ms_findings st))) g.2).

Definition mcp_groups (st : McpState) (now : Z) : list (string * list Finding) :=
  group_by_entry (findings_snapshot_at (ms_findings st) now).

Definition list_findings (st : McpState) (now : Z) (tier : EffectiveTier) : Json :=
  let entries := entry_data st <$> mcp_groups st now in
  JObj [("cluster", JStr (sanitize (ms_cluster st)));
        ("count", json_nat (length entries));
        ("findings", JArr ((fun e => render e tier) <$> entries));
        ("redaction", manifest tier (withheld_for entries tier))].

Definition explain_verdict (st : McpState) (now : Z) (entry_arg : string) (tier : EffectiveTier) : (Json * string) + ToolError :=
  match List.find (fun g => bool_decide (g.1 = entry_arg) || bool_decide (entry_ref g.1 = entry_arg)) (mcp_groups st now) with
  | None => inr UnknownEntry
  | Some g =>
      let data := entry_data st g in
      inl (JObj [("cluster", JStr (sanitize (ms_cluster st)));
                 ("finding", render data tier);
                 ("redaction", manifest tier (withheld_for [data] tier))], g.1)
  end.

Definition input_state_str (s : InputState) : string :=
  match s with Present => "present" | Absent => "absent" | InDegraded => "degraded" | InBlind => "blind" | InStalled => "stalled" end.

Definition node_state_str (s : NodeCoverageState) : string :=
  match s with NcHealthy => "healthy" | NcDegraded => "degraded" | NcBlind => "blind" | NcOutOfScope => "out-of-scope" end.

Definition coverage_nodes (tier : EffectiveTier) (row : ReadinessRow) : Json :=
  match rr_nodes row with
  | [] => JNull
  | nodes =>
      JObj [("count", json_nat (length nodes));
            ("nodes", if eff_leb EForensic tier then
                        JArr ((fun n => JObj [("node", JStr (sanitize (nr_node n))); ("state", JStr (node_state_str (nr_state n)));
                                              ("detail", JStr (sanitize (nr_detail n)))]) <$> nodes)
                      else JStr S_NODES)]
  end.

Definition get_coverage (st : McpState) (tier : EffectiveTier) : Json :=
  let readiness := readiness_of (ms_findings st) in
  let node_total := sum_by (fun r => length (rr_nodes r)) (rd_inputs readiness) in
  JObj [("cluster", JStr (sanitize (ms_cluster st)));
        ("last_pass_unix_secs", match fs_last_pass (ms_findings st) with
                                | Some t => if (t <? 0)%Z then JNull else JNum (t / 1000000000)
                                | None => JNull end);
        ("inputs", JArr ((fun row => JObj [("id", JStr (rr_id row)); ("label", JStr (rr_label row)); ("state", JStr (input_state_str (rr_state row)));
                                           ("detail", JStr (sanitize (rr_detail row))); ("weakens_decisions", JBool (rr_weakens_decisions row));
                                           ("coverage", coverage_nodes tier row)]) <$> rd_inputs readiness));
        ("redaction", manifest tier (if negb (eff_leb EForensic tier) then [mkWithheld "node_names" node_total "forensic"] else []))].

(** The observed images: their rows, and whether signed, unsigned or neither. *)
Definition observed_images (rows : list PolicyDecisionRecord) : list (string * PolicyDecisionRecord) :=
  omap (fun r => (fun image => (image, r)) <$> strip_prefix IMAGE_SUBJECT_PREFIX (pd_subject r)) rows.

Definition is_signed_word (w : string) : bool := bool_decide (w = "signed").
Definition is_unsigned_word (w : string) : bool := bool_decide (w = "not-signed") || bool_decide (w = "invalid-signature").

Definition signing_inventory_tool (st : McpState) (tier : EffectiveTier) : Json :=
  let rows := log_snapshot (ms_policy_log st) in
  let '(established, cold) := counts rows in
  let images := observed_images rows in
  let signed := count_where (fun ir => is_signed_word (pd_signature ir.2)) images in
  let unsigned := count_where (fun ir => is_unsigned_word (pd_signature ir.2)) images in
  let other := count_where (fun ir => negb (is_signed_word (pd_signature ir.2)) && negb (is_unsigned_word (pd_signature ir.2))) images in
  JObj [("cluster", JStr (sanitize (ms_cluster st)));
        ("images_observed", json_nat (signed + unsigned + other));
        ("images_signed", json_nat signed);
        ("images_unsigned", json_nat unsigned);
        ("images_other", json_nat other);
        ("regressions", JObj [("established", json_nat established); ("cold", json_nat cold)]);
        ("images", if eff_leb EForensic tier then
                     JArr ((fun ir => JObj [("ref", JStr (sanitize ir.1)); ("posture", JStr (sanitize (pd_signature ir.2)))]) <$> images)
                   else JStr S_IMAGES);
        ("redaction", manifest tier (if negb (eff_leb EForensic tier) then [mkWithheld "image_refs" (signed + unsigned + other) "forensic"] else []))].

(** ** dispatch.rs *)

Definition string_arg (args : option (list (string * Json))) (key : string) : option string :=
  args ≫= fun fields => json_get (JObj fields) key ≫= as_str.

(** [AuditRecord::now]: seconds since the epoch, none before it. *)
Definition audit (subject entry tool : string) (tier : EffectiveTier) (now : Z) : list AuditRecord :=
  if is_disclosure tier then [mkAudit subject entry tool tier (if (now <? 0)%Z then 0 else now / 1000000000)%Z] else [].

(** The answer and what goes to the sink. *)
Definition dispatch (st : McpState) (subject tool : string) (args : option (list (string * Json))) (ceiling : Tier) (now : Z)
    : (Json + ToolError) * list AuditRecord :=
  let requested := parse_requested_tier (string_arg args "tier") in
  let bulk := capped_at (clamp requested ceiling) EForensic in
  if bool_decide (tool = LIST_FINDINGS) then (inl (list_findings st now bulk), audit subject BULK_SCOPE LIST_FINDINGS bulk now)
  else if bool_decide (tool = EXPLAIN_VERDICT) then
    let tier := clamp requested ceiling in
    match string_arg args "entry" with
    | None => (inr (BadArguments "`entry` is required (string)"), [])
    | Some entry =>
        match explain_verdict st now entry tier with
        | inl (value, resolved) => (inl value, audit subject resolved EXPLAIN_VERDICT tier now)
        | inr e => (inr e, [])
        end
    end
  else if bool_decide (tool = GET_COVERAGE) then (inl (get_coverage st bulk), audit subject BULK_SCOPE GET_COVERAGE bulk now)
  else if bool_decide (tool = SIGNING_INVENTORY) then (inl (signing_inventory_tool st bulk), audit subject BULK_SCOPE SIGNING_INVENTORY bulk now)
  else (inr UnknownTool, []).

(** ** server.rs: the tool call

    A structured result, a structured error, or a protocol error. *)
Inductive CallResult := Structured (v : Json) | StructuredError (v : Json) | InvalidParams (message : string).

Definition call_tool (st : McpState) (identity : option Identity) (tool : string) (args : option (list (string * Json))) (now : Z)
    : CallResult * list AuditRecord :=
  match identity with
  | None => (StructuredError (JObj [("error", JStr "unauthenticated"); ("detail", JStr "no verified identity on the request")]), [])
  | Some i =>
      let '(answer, audited) := dispatch st (oi_subject i) tool args (oi_tier i) now in
      (match answer with
       | inl value => Structured value
       | inr UnknownEntry => StructuredError (JObj [("error", JStr "unknown_entry");
           ("detail", JStr "no such breach-relevant entry (validate against list_findings refs)")])
       | inr (BadArguments detail) => StructuredError (JObj [("error", JStr "bad_arguments"); ("detail", JStr detail)])
       | inr UnknownTool => InvalidParams "no such tool (the surface is exactly four read tools)"
       end, audited)
  end.

End Render.

(** ** access_audit.rs *)

Definition ACCESS_MAX_BYTES : Z := 1024 * 1024.
Definition MAX_RECORDS : nat := Z.to_nat 512.

(** A durable file that has not failed, and the ring, oldest first. *)
Record AccessAuditSink := mkSink { as_path : bool; as_disabled : bool; as_volume : Volume; as_ring : list AuditRecord }.

Definition push_bounded (ring : list AuditRecord) (r : AuditRecord) : list AuditRecord := push_capped MAX_RECORDS ring r.

Section Access.
Variables (to_string : AuditRecord -> string) (from_str : string -> option AuditRecord).

Definition replay_access_file (f : option string) : list AuditRecord :=
  match f with
  | Some contents =>
      if decide (valid_utf8 contents) then
        omap (fun line => let line := trim line in if bool_decide (line = "") then None else from_str line) (Journal.lines contents)
      else []
  | None => []
  end.

Definition replay_access (v : Volume) : list AuditRecord := replay_access_file (vol_rolled v) ++ replay_access_file (vol_active v).

Definition in_memory : AccessAuditSink := mkSink false false (mkVolume None None) [].

Definition open_sink (v : Volume) (writable : bool) : AccessAuditSink :=
  if writable then
    let v := mkVolume (Some (default "" (vol_active v))) (vol_rolled v) in
    mkSink true false v (foldl push_bounded [] (replay_access v))
  else in_memory.

Definition is_durable (s : AccessAuditSink) : bool := as_path s && negb (as_disabled s).

(** Newest first. *)
Definition access_records (s : AccessAuditSink) : list AuditRecord := rev (as_ring s).

Definition rotate_access (v : Volume) (io : Io) : option Volume :=
  if (match vol_active v with Some c => (ACCESS_MAX_BYTES <=? Z.of_nat (String.length c))%Z | None => false end)
  then match io with IoNoRename => None | _ => Some (mkVolume None (vol_active v)) end
  else Some v.

Definition append_access (v : Volume) (r : AuditRecord) (io : Io) : Volume * bool :=
  let line := to_string r +:+ nl in
  match rotate_access v io with
  | None => (v, false)
  | Some v =>
      let put s := mkVolume (Some (default "" (vol_active v) +:+ s)) (vol_rolled v) in
      match io with
      | IoNoOpen => (v, false)
      | IoTorn n => (put (str_take n line), false)
      | _ => (put line, true)
      end
  end.

Definition emit (s : AccessAuditSink) (r : AuditRecord) (io : Io) : AccessAuditSink :=
  let ring := push_bounded (as_ring s) r in
  if negb (as_path s) || as_disabled s then mkSink (as_path s) (as_disabled s) (as_volume s) ring
  else let '(v, ok) := append_access (as_volume s) r io in mkSink true (negb ok) v ring.

End Access.

#[local] Opaque entry_ref redacted_attack_outcome.

(** ** Tiers: a chain with its meet *)

Lemma eff_min_l a b : eff_leb (eff_min a b) a = true.
Proof. by destruct a, b. Qed.

Lemma eff_min_r a b : eff_leb (eff_min a b) b = true.
Proof. by destruct a, b. Qed.

Lemma eff_leb_trans a b c : eff_leb a b = true -> eff_leb b c = true -> eff_leb a c = true.
Proof. by destruct a, b, c. Qed.

Lemma clamp_ceiling requested ceiling : eff_leb (clamp requested ceiling) (from_claim ceiling) = true.
Proof. destruct requested as [[]|], ceiling; done. Qed.

Lemma clamp_requested t ceiling : eff_leb (clamp (Some t) ceiling) (from_claim t) = true.
Proof. by destruct t, ceiling. Qed.

(** ** A call *)

Section Calls.
Variable strip_digit : string -> option string.

(** What an answer of a tool is, and the scope it is recorded under. *)
Inductive answers (st : McpState) (args : option (list (string * Json))) (now : Z) (tier : EffectiveTier) : string -> string -> Json -> Prop :=
  | a_list : answers st args now tier LIST_FINDINGS BULK_SCOPE (list_findings strip_digit st now tier)
  | a_explain arg entry v :
      string_arg args "entry" = Some arg -> explain_verdict strip_digit st now arg tier = inl (v, entry) ->
      answers st args now tier EXPLAIN_VERDICT entry v
  | a_coverage : answers st args now tier GET_COVERAGE BULK_SCOPE (get_coverage st tier)
  | a_signing : answers st args now tier SIGNING_INVENTORY BULK_SCOPE (signing_inventory_tool st tier).

(** C20: What a call gets and what is recorded of it. The tier is within what the
    token grants and within what was asked for, and within forensic for every tool
    but the one that explains a single entry; an answer is that tool's at that
    tier; a refusal discloses and records nothing; and an answer above redacted is
    recorded exactly once, under the caller's subject, the tool, the tier and the
    entry that was resolved, while a redacted one is not recorded. *)
Theorem dispatch_exact st subject tool args ceiling now :
  let '(answer, audited) := dispatch strip_digit st subject tool args ceiling now in
  match answer with
  | inr e => audited = [] /\
      (e = UnknownTool <-> tool ∉ [LIST_FINDINGS; EXPLAIN_VERDICT; GET_COVERAGE; SIGNING_INVENTORY])
  | inl v => exists tier entry,
      eff_leb tier (from_claim ceiling) = true /\
      (forall t, parse_requested_tier (string_arg args "tier") = Some t -> eff_leb tier (from_claim t) = true) /\
      (tool <> EXPLAIN_VERDICT -> eff_leb tier EForensic = true) /\
      answers st args now tier tool entry v /\
      audited = if eff_leb tier ERedacted then [] else [mkAudit subject entry tool tier (if now <? 0 then 0 else now / 1000000000)%Z]
  end.
Proof.
  unfold dispatch. set (req := parse_requested_tier _). set (bulk := capped_at (clamp req ceiling) EForensic).
  assert (eff_leb bulk (from_claim ceiling) = true) as Hc by (eapply eff_leb_trans; [apply eff_min_l|apply clamp_ceiling]).
  assert (forall t, req = Some t -> eff_leb bulk (from_claim t) = true) as Hr
    by (intros t E; eapply eff_leb_trans; [apply eff_min_l|]; rewrite E; apply clamp_requested).
  assert (eff_leb bulk EForensic = true) as Hf by apply eff_min_r.
  assert (forall s e t tier, audit s e t tier now = if eff_leb tier ERedacted then [] else [mkAudit s e t tier (if now <? 0 then 0 else now / 1000000000)%Z]) as Ha
    by (intros s e t []; done).
  case_bool_decide as E1; [subst tool; exists bulk, BULK_SCOPE; rewrite Ha; repeat split; try done; constructor|].
  case_bool_decide as E2.
  { subst tool. destruct (string_arg args "entry") as [arg|] eqn:Earg; [|split; [done|]; split; [done|]; intros H; destruct H; set_solver].
    destruct (explain_verdict strip_digit st now arg (clamp req ceiling)) as [[v entry]|e] eqn:Ev.
    - exists (clamp req ceiling), entry. rewrite Ha. split; [apply clamp_ceiling|]. split; [intros t ->; apply clamp_requested|].
      split; [done|]. split; [by econstructor|done].
    - split; [done|]. split; [|intros H; destruct H; set_solver]. unfold explain_verdict in Ev. destruct (List.find _ _); naive_solver. }
  case_bool_decide as E3; [subst tool; exists bulk, BULK_SCOPE; rewrite Ha; repeat split; try done; constructor|].
  case_bool_decide as E4; [subst tool; exists bulk, BULK_SCOPE; rewrite Ha; repeat split; try done; constructor|].
  split; [done|]. split; [|done]. intros _. rewrite !elem_of_cons, elem_of_nil. naive_solver.
Qed.

(** ** What a redacted answer depends on *)

(** Nothing but this of an entry reaches a redacted answer. *)
Record RedactedView := mkRedactedView {
  rv_ref : string;
  rv_label : option string;
  rv_objectives : nat;
  rv_techniques : list Json;
  rv_blind : bool;
  rv_delta : option string;
  rv_corroborated : bool;
  rv_paths : nat;
  rv_cves : nat;
  rv_judged : bool;
  rv_reach : option string
}.

Definition redacted_view (e : EntryData) : RedactedView :=
  mkRedactedView (entry_ref (ed_entry e)) (verdict_label <$> ed_verdict e) (length (ed_objectives e))
    (redacted_attack_outcome (ed_attacks e) MCP_ATTACK_CAP) (ed_blind e) (delta_label <$> ed_delta e) (ed_corroborated e)
    (length (ed_paths e)) (length (ed_cves e)) (bool_decide (is_Some (ed_judgement e))) (sanitize <$> ed_reach e).

Lemma render_view e e' : redacted_view e = redacted_view e' -> render strip_digit e ERedacted = render strip_digit e' ERedacted.
Proof.
  intros H. pose proof (f_equal rv_ref H) as Hr. pose proof (f_equal rv_label H) as Hl. pose proof (f_equal rv_objectives H) as Ho.
  pose proof (f_equal rv_techniques H) as Ha. pose proof (f_equal rv_blind H) as Hb. pose proof (f_equal rv_delta H) as Hd.
  pose proof (f_equal rv_corroborated H) as Hc. pose proof (f_equal rv_judged H) as Hj. pose proof (f_equal rv_reach H) as Hre.
  clear H. cbn [redacted_view rv_ref rv_label rv_objectives rv_techniques rv_blind rv_delta rv_corroborated rv_judged rv_reach] in *. unfold render.
  rewrite Hr, Ho, Ha, Hb, Hc. unfold reason_field, node_field, entry_field, objectives_field, paths_field, cves_field, judgement_field.
  cbn [eff_leb eff_rank Nat.leb negb]. rewrite Hb.
  assert (forall (o o' : option string), sanitize <$> o = sanitize <$> o' ->
    json_opt (fun r => JStr (sanitize r)) o = json_opt (fun r => JStr (sanitize r)) o') as Hopt.
  { assert (forall o : option string, json_opt (fun r => JStr (sanitize r)) o = json_opt JStr (sanitize <$> o)) as Hm by (by intros [x|]). intros o o' Ho'. by rewrite !Hm, Ho'. }
  rewrite (Hopt _ _ Hre).
  assert (match ed_verdict e with Some v => verdict_label v | None => "awaiting" end =
    match ed_verdict e' with Some v => verdict_label v | None => "awaiting" end) as -> by (clear - Hl; destruct (ed_verdict e), (ed_verdict e'); cbn [fmap option_fmap option_map] in Hl; congruence).
  assert (match ed_delta e with Some d => delta_label d | None => "unknown" end =
    match ed_delta e' with Some d => delta_label d | None => "unknown" end) as -> by (clear - Hd; destruct (ed_delta e), (ed_delta e'); cbn [fmap option_fmap option_map] in Hd; congruence).
  assert (match ed_verdict e with Some _ => JStr S_REASON | None => JStr "awaiting judgement" end =
    match ed_verdict e' with Some _ => JStr S_REASON | None => JStr "awaiting judgement" end) as -> by (clear - Hl; destruct (ed_verdict e), (ed_verdict e'); cbn [fmap option_fmap option_map] in Hl; congruence).
  by destruct (ed_judgement e), (ed_judgement e').
Qed.

Lemma withheld_view es es' : redacted_view <$> es = redacted_view <$> es' -> withheld_for es ERedacted = withheld_for es' ERedacted.
Proof.
  intros H. unfold withheld_for. cbn [eff_leb eff_rank Nat.leb negb].
  assert (forall (f : RedactedView -> nat) (g : EntryData -> nat), (forall e, f (redacted_view e) = g e) ->
    sum_by g es = sum_by g es') as Hs.
  { intros f g Hg. assert (forall l, sum_by g l = sum_by f (redacted_view <$> l)) as Hm.
    { induction l as [|x l IH]; [done|]. rewrite fmap_cons. change (sum_by g (x :: l)) with (g x + sum_by g l). rewrite IH, <- Hg. done. }
    by rewrite !Hm, H. }
  assert (forall (f : RedactedView -> bool) (g : EntryData -> bool), (forall e, f (redacted_view e) = g e) ->
    length (List.filter g es) = length (List.filter g es')) as Hfl.
  { intros f g Hg. assert (forall l, length (List.filter g l) = length (List.filter f (redacted_view <$> l))) as Hm.
    { induction l as [|x l IH]; [done|]. rewrite fmap_cons. cbn [List.filter]. rewrite Hg. destruct (g x); cbn [length]; by rewrite IH. }
    by rewrite !Hm, H. }
  rewrite (Hs rv_objectives), (Hs rv_paths), (Hs rv_cves) by done. rewrite (Hfl rv_judged) by done.
  rewrite (Hfl (fun v => bool_decide (is_Some (rv_label v)))) by (intros e; simpl; by destruct (ed_verdict e)).
  by rewrite <- (length_fmap redacted_view es), H, length_fmap.
Qed.

(** Which entries an argument of [explain_verdict] names. *)
Definition named_by (arg : string) (g : string * list Finding) : bool :=
  bool_decide (g.1 = arg) || bool_decide (entry_ref g.1 = arg).

Lemma explain_view st st' now now' arg :
  ms_cluster st = ms_cluster st' ->
  redacted_view <$> (entry_data st <$> mcp_groups st now) = redacted_view <$> (entry_data st' <$> mcp_groups st' now') ->
  named_by arg <$> mcp_groups st now = named_by arg <$> mcp_groups st' now' ->
  match explain_verdict strip_digit st now arg ERedacted, explain_verdict strip_digit st' now' arg ERedacted with
  | inl (v, _), inl (v', _) => v = v'
  | inr e, inr e' => e = e'
  | _, _ => False
  end.
Proof.
  intros Hcl. unfold explain_verdict. change (fun g : string * list Finding => bool_decide (g.1 = arg) || bool_decide (entry_ref g.1 = arg)) with (named_by arg).
  generalize (mcp_groups st now) (mcp_groups st' now'). induction l as [|g l IH]; intros [|g' l'] Hv Hn; [done|by apply (f_equal length) in Hn..|].
  cbn [fmap list_fmap] in Hv, Hn. injection Hn as Hg Hn.
  assert (redacted_view (entry_data st g) = redacted_view (entry_data st' g') /\
    redacted_view <$> (entry_data st <$> l) = redacted_view <$> (entry_data st' <$> l')) as [Hh Ht]
    by (revert Hv; generalize (redacted_view (entry_data st g)) (redacted_view (entry_data st' g')); intros v v' Hv; by simplify_eq).
  cbn [List.find]. rewrite <- Hg. destruct (named_by arg g); [|by apply IH].
  rewrite Hcl, (render_view _ _ Hh), (withheld_view [entry_data st g] [entry_data st' g']); [done|]. rewrite !fmap_cons. by f_equal.
Qed.

(** C21: A caller granted only the redacted tier, whatever tier it asks for, gets
    the same list of findings, the same inventory and the same explanation of an
    argument that names the same entries, from any two states that agree on the
    redacted view of their entries and on their image counts: no name, path,
    vulnerability, reason, prompt or reply makes a difference to it, and nothing
    is recorded. *)
Theorem redacted_noninterference st st' subject args now now' arg :
  ms_cluster st = ms_cluster st' ->
  redacted_view <$> (entry_data st <$> mcp_groups st now) = redacted_view <$> (entry_data st' <$> mcp_groups st' now') ->
  counts (log_snapshot (ms_policy_log st)) = counts (log_snapshot (ms_policy_log st')) ->
  (fun ir => pd_signature ir.2) <$> observed_images (log_snapshot (ms_policy_log st)) =
    (fun ir => pd_signature ir.2) <$> observed_images (log_snapshot (ms_policy_log st')) ->
  dispatch strip_digit st subject LIST_FINDINGS args Redacted now = dispatch strip_digit st' subject LIST_FINDINGS args Redacted now' /\
  dispatch strip_digit st subject SIGNING_INVENTORY args Redacted now = dispatch strip_digit st' subject SIGNING_INVENTORY args Redacted now' /\
  (string_arg args "entry" = Some arg -> named_by arg <$> mcp_groups st now = named_by arg <$> mcp_groups st' now' ->
   dispatch strip_digit st subject EXPLAIN_VERDICT args Redacted now = dispatch strip_digit st' subject EXPLAIN_VERDICT args Redacted now') /\
  (forall tool, (dispatch strip_digit st subject tool args Redacted now).2 = []).
Proof.
  intros Hcl Hv Hn Hi. unfold dispatch. rewrite !bool_decide_eq_true_2 by done.
  rewrite !(bool_decide_eq_false_2 (SIGNING_INVENTORY = _)), !(bool_decide_eq_false_2 (EXPLAIN_VERDICT = _)) by done.
  assert (forall req, clamp req Redacted = ERedacted) as Hcr by (by intros [[]|]). rewrite !Hcr. change (capped_at ERedacted EForensic) with ERedacted.
  split; [|split; [|split]].
  3: { intros Harg Hnm. rewrite Harg. pose proof (explain_view st st' now now' arg Hcl Hv Hnm) as He.
       destruct (explain_verdict strip_digit st now arg ERedacted) as [[v ?]|?], (explain_verdict strip_digit st' now' arg ERedacted) as [[v' ?]|?];
         [by rewrite He|done..|by rewrite He]. }
  3: { intros tool. cbv zeta. rewrite ?Hcr. change (capped_at ERedacted EForensic) with ERedacted. repeat (case_bool_decide; [try done|]); [|done..].
       destruct (string_arg args "entry") as [a|]; [|done]. by destruct (explain_verdict _ _ _ _ _) as [[]|]. }
  - assert (list_findings strip_digit st now ERedacted = list_findings strip_digit st' now' ERedacted) as ->; [|done].
    unfold list_findings. set (es := entry_data st <$> mcp_groups st now) in *. set (es' := entry_data st' <$> mcp_groups st' now') in *.
    rewrite Hcl, (withheld_view es es' Hv). assert (length es = length es') as -> by (by rewrite <- (length_fmap redacted_view es), Hv, length_fmap).
    do 4 f_equal. f_equal. f_equal. clearbody es es'. clear - Hv. revert es' Hv. induction es as [|e es IH]; intros [|e' es'] H; [done|by apply (f_equal length) in H..|].
    rewrite !fmap_cons in *. assert (redacted_view e = redacted_view e' /\ redacted_view <$> es = redacted_view <$> es') as [Hh Ht]
      by (generalize dependent (redacted_view e); intros v Hv; generalize dependent (redacted_view e'); intros v' Hv'; by simplify_eq).
    f_equal; [|by apply IH].
    by apply render_view.
  - assert (signing_inventory_tool st ERedacted = signing_inventory_tool st' ERedacted) as ->; [|done].
    unfold signing_inventory_tool. rewrite Hcl, Hn. destruct (counts _) as [a b].
    assert (forall (p : string -> bool), count_where (fun ir => p (pd_signature ir.2)) (observed_images (log_snapshot (ms_policy_log st))) =
      count_where (fun ir => p (pd_signature ir.2)) (observed_images (log_snapshot (ms_policy_log st')))) as Hc.
    { intros p. assert (forall l : list (string * PolicyDecisionRecord), count_where (fun ir => p (pd_signature ir.2)) l = count_where p ((fun ir => pd_signature ir.2) <$> l)) as Hm.
      { induction l as [|x l IH]; [done|]. rewrite fmap_cons. cbn [count_where]. by rewrite IH. }
      by rewrite !Hm, Hi. }
    by rewrite (Hc is_signed_word), (Hc is_unsigned_word), (Hc (fun w => negb (is_signed_word w) && negb (is_unsigned_word w))).
Qed.

End Calls.

(** ** Secrets below the raw tier *)

(** Every string of a value. *)
Fixpoint json_strings (j : Json) : list string :=
  match j with
  | JStr s => [s]
  | JArr l => concat (json_strings <$> l)
  | JObj fields => concat ((fun kv => json_strings kv.2) <$> fields)
  | _ => []
  end.

Lemma scrub_below_raw strip_digit names text n :
  Forall plain_name (ordered_names names) -> n ∈ ordered_names names -> plain_name n ->
  str_contains n (scrub strip_digit text EForensic names) = false.
Proof.
  intros Hall Hin Hn. apply not_true_iff_false. intros H. unfold scrub in H. cbn [eff_leb eff_rank Nat.leb] in H.
  apply scrub_spec in H as [_ H]; done.
Qed.

(** The names kept back cover every secret that is an objective of the entry or a
    step of its shown path. *)
Lemma secrets_covered entry group judgement blind f key :
  f ∈ group -> (key = f_objective f \/ exists step, step ∈ f_path f /\ (key = ps_from step \/ key = ps_to step)) -> kind_of key = "secret" ->
  forall n, n ∈ secret_names_of key -> n ∈ ed_secret_names (from_group entry group judgement blind).
Proof.
  intros Hf Hk _ n Hn. cbn [from_group ed_secret_names]. apply bset_iter_elem. unfold secrets_of. apply elem_of_list_to_set, list_elem_of_bind.
  exists f. split; [|done]. apply elem_of_app. destruct Hk as [->|(step & Hs & Hk)]; [by left|]. right. apply list_elem_of_bind.
  exists step. split; [|done]. apply elem_of_app. destruct Hk as [->| ->]; [by left|by right].
Qed.

(** C22: At the forensic tier no string of five fields of an entry, its verdict's
    reason, its own name, its objectives, its paths and its judgement, holds the
    name of a secret that is an objective of it or on its shown path, neither its
    key nor its bare name, whatever a model wrote. The names are trimmed, not
    empty, without square brackets and no part of the word redacted, which is
    what the scrubber puts in their place; and an entry without a verdict says
    that it awaits judgement, whatever its secrets are called. The other fields, the
    titles of its vulnerabilities among them, are not scrubbed of names. *)
Theorem forensic_scrubs_secrets strip_digit entry group judgement blind f key n :
  let e := from_group entry group judgement blind in
  Forall plain_name (ordered_names (ed_secret_names e)) ->
  f ∈ group -> (key = f_objective f \/ exists step, step ∈ f_path f /\ (key = ps_from step \/ key = ps_to step)) -> kind_of key = "secret" ->
  n ∈ secret_names_of key -> trim n = n -> plain_name n ->
  forall field s,
    field ∈ [reason_field strip_digit e EForensic; entry_field strip_digit e EForensic; objectives_field strip_digit e EForensic;
             paths_field strip_digit e EForensic; judgement_field strip_digit e EForensic] ->
    s ∈ json_strings field -> str_contains n s = false \/ (ed_verdict e = None /\ s = "awaiting judgement").
Proof.
  intros e Hall Hf Hk Hsec Hn Ht Hp field s Hfield Hs.
  assert (n ∈ ordered_names (ed_secret_names e)) as Hin.
  { apply ordered_names_elem. split; [by destruct Hp|]. apply list_elem_of_fmap. exists n. split; [done|]. by apply (secrets_covered entry group judgement blind f key). }
  assert (forall text, str_contains n (scrub strip_digit text EForensic (ed_secret_names e)) = false) as Hscrub by (intros; by apply scrub_below_raw).
  assert (forall (l : list string) (g : string -> string) s, s ∈ json_strings (JArr ((fun x => JStr (scrub strip_digit (g x) EForensic (ed_secret_names e))) <$> l)) ->
    str_contains n s = false) as Harr.
  { intros l g t. cbn [json_strings]. induction l as [|x l IH]; [by intros ?%not_elem_of_nil|]. rewrite !fmap_cons. cbn [concat json_strings].
    intros [H|H]%elem_of_app; [|by apply IH]. apply list_elem_of_singleton in H as ->. apply Hscrub. }
  assert (forall o t, t ∈ json_strings (json_opt (fun p => JStr (scrub strip_digit p EForensic (ed_secret_names e))) o) -> str_contains n t = false) as Hopt.
  { intros [x|] t; [|by intros ?%not_elem_of_nil]. intros ->%list_elem_of_singleton. apply Hscrub. }
  unfold reason_field, entry_field, objectives_field, paths_field, judgement_field in Hfield. cbn [eff_leb eff_rank Nat.leb negb] in Hfield.
  rewrite !elem_of_cons, elem_of_nil in Hfield. destruct Hfield as [->|Hfield].
  { destruct (ed_verdict e); apply list_elem_of_singleton in Hs as ->; [left; apply Hscrub|by right]. }
  left. destruct Hfield as [->|[->|[->|[->|[]]]]].
  - apply list_elem_of_singleton in Hs as ->. apply Hscrub.
  - by apply (Harr (ed_objectives e) short_of).
  - by apply (Harr (ed_paths e) id).
  - destruct (ed_judgement e) as [j|]; [|by apply not_elem_of_nil in Hs]. cbn [json_strings fmap list_fmap concat snd] in Hs.
    rewrite app_nil_r in Hs. apply elem_of_app in Hs as [Hs|Hs]; by eapply Hopt.
Qed.

(** ** The record of disclosures *)

(** The sink remembers the last disclosures, newest first, whatever the volume does. *)
Theorem access_ring_exact to_string s rs :
  length (as_ring s) <= MAX_RECORDS ->
  access_records (foldl (fun s (ri : AuditRecord * Io) => emit to_string s ri.1 ri.2) s rs) =
  take MAX_RECORDS (rev (as_ring s ++ rs.*1)).
Proof.
  intros Hs. unfold access_records.
  assert (forall s, as_ring (foldl (fun s (ri : AuditRecord * Io) => emit to_string s ri.1 ri.2) s rs) = foldl push_bounded (as_ring s) rs.*1) as ->.
  { clear. induction rs as [|[r io] rs IH]; intros s; [done|]. rewrite fmap_cons. cbn [foldl fst snd]. rewrite IH. f_equal. unfold emit.
    destruct (negb (as_path s) || as_disabled s); [done|]. by destruct (append_access _ _ _ _). }
  assert (forall l ring, length ring <= MAX_RECORDS -> foldl push_bounded ring l = drop (length (ring ++ l) - MAX_RECORDS) (ring ++ l)) as H.
  { clear. unfold push_bounded. induction l as [|r l IH]; intros ring Hr; cbn [foldl].
    - rewrite app_nil_r. by replace (length ring - MAX_RECORDS) with 0 by lia.
    - assert (0 < MAX_RECORDS) as Hpos by (unfold MAX_RECORDS; lia).
      rewrite IH by (by apply push_capped_length). unfold push_capped. destruct (Nat.leb_spec MAX_RECORDS (length ring)).
      + destruct ring as [|x ring]; [cbn [length] in *; lia|]. cbn [drop skipn]. change (drop 0 ring) with ring. rewrite <- app_assoc. change ([r] ++ l) with (r :: l).
        assert (length ((x :: ring) ++ r :: l) - MAX_RECORDS = S (length (ring ++ r :: l) - MAX_RECORDS)) as -> by (rewrite !length_app; cbn [length] in *; lia). done.
      + by rewrite <- app_assoc. }
  rewrite H by done. by rewrite firstn_rev.
Qed.

(** ** Where a name gets out *)

Definition web : string := "workload/app/Pod/web".

(** A finding with one step to its objective. *)
Definition reaches (objective : string) : Finding :=
  mkFinding web objective CREDENTIAL_ACCESS false false "no-cut" None true None [mkPathStep web "can-read" objective]
    [[mkPathStep web "can-read" objective]] false (mkEntryEvidence [] [] [] [] []) None None None None.

Definition judged_store : VerdictStore := set_display (with_cache_slots 32) web (Exploitable "reads new-key").

Definition findings_state (objectives : list string) : Findings := findings_replace (findings_new judged_store) (reaches <$> objectives).

Definition mcp_state (objectives : list string) (prompt : string) : McpState :=
  mkMcpState (findings_state objectives) [mkJudgement web 1 (Exploitable "reads it") (Some prompt) None] [] "prod".

(** One sensor is expected and blind. *)
Definition blind_state : McpState :=
  mkMcpState (stamp_runtime_coverage_at (findings_new (with_cache_slots 32)) ∅ [agent_pod "node-a"] 0).2 [] [] "prod".

Definition mentions (n : string) (r : (Json + ToolError) * list AuditRecord) : bool :=
  match r.1 with inl v => existsb (str_contains n) (json_strings v) | inr _ => false end.

(** The coverage tool keeps the node names back at the redacted tier, and says
    them in the detail of the runtime row. *)
Theorem coverage_names_nodes :
  mentions "node-a" (dispatch ascii_digit blind_state "bob" GET_COVERAGE None Redacted 0) = true /\
  mentions S_NODES (dispatch ascii_digit blind_state "bob" GET_COVERAGE None Redacted 0) = true.
Proof. split; by vm_compute. Qed.

(** A prompt of an earlier pass is scrubbed of the secrets of this one: a secret
    that is no objective any more is named at the forensic tier. *)
Theorem old_prompt_names_secret :
  mentions "old-key" (dispatch ascii_digit (mcp_state ["secret/app/Secret/old-key"] "web can read old-key") "bob" EXPLAIN_VERDICT
    (Some [("entry", JStr web)]) Forensic 0) = false /\
  mentions "old-key" (dispatch ascii_digit (mcp_state ["secret/app/Secret/new-key"] "web can read old-key") "bob" EXPLAIN_VERDICT
    (Some [("entry", JStr web)]) Forensic 0) = true.
Proof. split; by vm_compute. Qed.

(** A title is sanitized and not scrubbed: what a report calls a vulnerability can
    spell the name of a secret of the entry, below the raw tier. *)
Definition titled : Finding :=
  let f := reaches "secret/app/Secret/db-key" in
  mkFinding (f_entry f) (f_objective f) (f_attack f) false false "no-cut" None true None (f_path f) [f_path f] false
    (mkEntryEvidence [mkCve "CVE-2024-1" "high" None false None "loaded" "no fix available" (Some "leaks db-key")] [] [] [] []) None None None None.

Theorem cve_title_names_secret :
  let e := from_group web [titled] None false in
  "db-key" ∈ ed_secret_names e /\
  existsb (str_contains "db-key") (json_strings (cves_field e EForensic)) = true /\
  existsb (str_contains "db-key") (json_strings (paths_field ascii_digit e EForensic)) = false.
Proof. split; [apply (bool_decide_unpack _); vm_compute; exact I|]. by vm_compute. Qed.

(** ** Witnesses *)

(** Two clusters that differ in a secret and in what the model was told. *)
Lemma redacted_noninterference_witness :
  dispatch ascii_digit (mcp_state ["secret/app/Secret/a"] "one") "bob" LIST_FINDINGS None Redacted 0 =
  dispatch ascii_digit (mcp_state ["secret/app/Secret/b"] "two") "bob" LIST_FINDINGS None Redacted 5.
Proof.
  apply (redacted_noninterference ascii_digit (mcp_state ["secret/app/Secret/a"] "one") (mcp_state ["secret/app/Secret/b"] "two") "bob" None 0 5 "").
  - reflexivity.
  - vm_compute. reflexivity.
  - reflexivity.
  - reflexivity.
Defined.

(** One entry with a secret the verdict, the prompt and the path name. *)
Definition told_group : list Finding := [with_verdict (reaches "secret/app/Secret/db-key") (Some (Exploitable "it reads db-key")) None].
Definition told_judgement : option Judgement := Some (mkJudgement web 1 Confirmed (Some "reads db-key") None).

Lemma forensic_scrubs_secrets_witness :
  str_contains "db-key" (default "" (head (json_strings (judgement_field ascii_digit (from_group web told_group told_judgement false) EForensic)))) = false.
Proof.
  destruct (forensic_scrubs_secrets ascii_digit web told_group told_judgement false
    (with_verdict (reaches "secret/app/Secret/db-key") (Some (Exploitable "it reads db-key")) None) "secret/app/Secret/db-key" "db-key")
    with (field := judgement_field ascii_digit (from_group web told_group told_judgement false) EForensic)
      (s := default "" (head (json_strings (judgement_field ascii_digit (from_group web told_group told_judgement false) EForensic)))) as [H|[H _]].
  - vm_compute. repeat (apply Forall_cons_2; [apply plain_name_dec; reflexivity|]). apply Forall_nil_2.
  - apply list_elem_of_here.
  - left. reflexivity.
  - reflexivity.
  - vm_compute. apply list_elem_of_further, list_elem_of_here.
  - reflexivity.
  - apply plain_name_dec. reflexivity.
  - do 4 apply list_elem_of_further. apply list_elem_of_here.
  - vm_compute. apply list_elem_of_here.
  - exact H.
  - discriminate H.
Defined.
