(* ===== verification/Dashboard.v ===== *)
(** * The dashboard

    engine/src/engine/dashboard/mod.rs: the handles every view reads, the strip
    they share, the queries of a request and the view of each tab;
    view_model/admission.rs, action.rs, access.rs and scope_preview.rs: those
    views. Routing, the page shell and serialization are not modelled. Then
    what the strip promises of the rows: none is hidden behind a calmer one, and
    what an all-clear means. *)

From S2P Require Import Prelude Text ImageRef Attack Behavior Graph Respond Actuator AgentLiveness Auth Verdicts Feeds.
From S2P Require Import Findings Readiness Guards Divergence PolicyLog Journal View SigningInventory Report Mcp.

#[local] Arguments String.append : simpl nomatch.

(** ** admission.rs *)

Inductive GateStatus := GsVerified | GsWouldPass | GsWouldFail | GsNotApplicable.

#[export] Instance GateStatus_eq_dec : EqDecision GateStatus.
Proof. solve_decision. Defined.

Definition gate_status_parse (word : string) : GateStatus :=
  if bool_decide (word = "verified") then GsVerified
  else if bool_decide (word = "would-pass") then GsWouldPass
  else if bool_decide (word = "would-fail") then GsWouldFail
  else GsNotApplicable.

Inductive AdmissionDecision := AdAllow | AdAudit | AdDeny | AdOther.

#[export] Instance AdmissionDecision_eq_dec : EqDecision AdmissionDecision.
Proof. solve_decision. Defined.

Definition admission_decision_parse (word : string) : AdmissionDecision :=
  if bool_decide (word = "allow") then AdAllow
  else if bool_decide (word = "audit") then AdAudit
  else if bool_decide (word = "deny") then AdDeny
  else AdOther.

Record DecisionRowProps := mkDecisionRow {
  dr_decision : AdmissionDecision; dr_subject : string; dr_image : string; dr_namespace : string;
  dr_mesh : GateStatus; dr_would_admit : bool; dr_reason : string; dr_count : Z
}.

Definition decision_row (r : PolicyDecisionRecord) : DecisionRowProps :=
  mkDecisionRow (admission_decision_parse (pd_decision r)) (pd_subject r) (pd_image r) (pd_namespace r)
    (gate_status_parse (pd_mesh r)) (pd_would_admit r) (pd_reason r) (pd_count r).

Record AdmissionView := mkAdmissionView {
  aw_admitted : Z; aw_audited : Z; aw_denied : Z; aw_total : Z; aw_signing : list SigningRepoProps; aw_rows : list DecisionRowProps
}.

Definition tally_of (d : AdmissionDecision) (rows : list DecisionRowProps) : Z :=
  foldl (fun n r => if bool_decide (dr_decision r = d) then (n + dr_count r)%Z else n) 0%Z rows.

(** The sums are u64 additions: [None] is a sum that overflows. *)
Definition u64_sum (a b : Z) : option Z := if (a + b <? 2 ^ 64)%Z then Some (a + b)%Z else None.

Definition admission_view (rows : list PolicyDecisionRecord) : option AdmissionView :=
  let decisions := decision_row <$> List.filter (fun r => negb (is_inventory_row r)) rows in
  let '(admitted, audited, denied) := (tally_of AdAllow decisions, tally_of AdAudit decisions, tally_of AdDeny decisions) in
  if (admitted <? 2 ^ 64)%Z && (audited <? 2 ^ 64)%Z && (denied <? 2 ^ 64)%Z then
    total ← u64_sum admitted audited; total ← u64_sum total denied;
    Some (mkAdmissionView admitted audited denied total (inventory rows) decisions)
  else None.

(** ** action.rs *)

Record WouldActProps := mkWouldActProps {
  wp_entry : string; wp_episodes : nat; wp_would_act_decisions : nat; wp_max_lifetime : string; wp_open : bool;
  wp_short_lived : bool; wp_coverage_gap : bool; wp_last_verdict : string
}.

Definition would_act_props (w : WouldActEntry) : WouldActProps :=
  mkWouldActProps (wa_entry w) (wa_episodes w) (wa_would_act_decisions w) (Posture.human_age (wa_max_lifetime_secs w)) (wa_open w)
    (wa_short_lived w) (wa_coverage_gap w) (wa_last_verdict w).

Definition age_since (at_ms now_ms : Z) : string := Posture.human_age (Z.max 0 (now_ms - at_ms) / 1000).

Record ReversionProps := mkReversionProps { rvp_cut : string; rvp_reason : string; rvp_age : string }.

Definition reversion_props (now_ms : Z) (r : PolicyLog.ReversionRecord) : ReversionProps :=
  mkReversionProps (rv_cut r) (rv_reason r) (age_since (rv_at_ms r) now_ms).

Record ActionView := mkActionView {
  cw_window_human : string;
  cw_journal_empty : bool;
  cw_decisions_in_window : nat;
  cw_would_act : list WouldActProps;
  cw_reversions : list ReversionProps;
  cw_left_alone : list LeftAloneEntry;
  cw_judgements : list Judgement;
  cw_would_act_count : nat;
  cw_short_lived_count : nat;
  cw_coverage_gap_count : nat;
  cw_left_alone_count : nat;
  cw_reverted_count : nat
}.

Definition action_build_at (report : Report) (reversions : list PolicyLog.ReversionRecord) (judgements : list Judgement) (now_ms : Z) : ActionView :=
  mkActionView (Posture.human_age (rt_window_secs report)) (rt_journal_empty report) (rt_decisions_in_window report)
    (would_act_props <$> rt_would_act report) (reversion_props now_ms <$> reversions) (rt_left_alone report) judgements
    (would_act_count report) (short_lived_count report) (coverage_gap_count report) (left_alone_count report) (length reversions).

(** ** access.rs *)

Definition WORKLOAD_IDENTITY_WITHHELD : string := S_ENTRY.

(** The tiers of the view are the tiers of a token. *)
Definition access_from_effective (t : EffectiveTier) : Tier := match t with ERedacted => Redacted | EForensic => Forensic | ERaw => Raw end.

Record AccessPullRow := mkPull { pl_when : string; pl_who : string; pl_tool : string; pl_tier : Tier; pl_target : string; pl_raw : bool }.

Definition redacted_target (entry : string) (caller : Tier) : string :=
  if bool_decide (entry = BULK_SCOPE) || (tier_rank Forensic <=? tier_rank caller) then entry else WORKLOAD_IDENTITY_WITHHELD.

Definition pull_row (caller : Tier) (now_secs : Z) (r : AuditRecord) : AccessPullRow :=
  mkPull (Posture.human_age (Z.max 0 (now_secs - au_time r)) +:+ " ago") (au_subject r) (au_tool r) (access_from_effective (au_tier r))
    (redacted_target (au_entry r) caller) (bool_decide (au_tier r = ERaw)).

Record TierRevealRow := mkReveal { tv_tier : Tier; tv_reveals : string; tv_withholds : string; tv_held : bool }.

Definition reveal_rows (caller : Tier) : list TierRevealRow :=
  let holds t := tier_rank t <=? tier_rank caller in
  [ mkReveal Redacted "verdicts, counts, technique IDs, coverage & freshness" "nothing cluster-specific is disclosed at this tier" (holds Redacted);
    mkReveal Forensic "judgement prompt+reply, CVE ids + reachability, proven paths, workload & node names" "secret names stay scrubbed" (holds Forensic);
    mkReveal Raw "secret names (per-entry only — never a bulk dump)" "secret VALUES — never; no tool has a read path to a value" (holds Raw) ].

Record AccessView := mkAccessView { xw_tier : Tier; xw_reveals : list TierRevealRow; xw_pulls : list AccessPullRow; xw_durable : bool }.

Definition access_build (caller : Tier) (records : list AuditRecord) (durable : bool) (now_secs : Z) : AccessView :=
  mkAccessView caller (reveal_rows caller) (pull_row caller now_secs <$> records) durable.

(** ** scope_preview.rs *)

Record FiringCutProps := mkFiringProps { fp_firing_cut : string; fp_firing_action : string; fp_alive_collateral : list string; fp_collateral_unknown : bool }.
Record HeldCutProps := mkHeldProps { hp_held_cut : string; hp_held_action : string }.

Record ScopePreviewView := mkScopeView {
  vw_candidate_namespaces : list string;
  vw_candidate_labels : list string;
  vw_candidate_is_empty : bool;
  vw_would_fire : list FiringCutProps;
  vw_held_out_of_scope : list HeldCutProps
}.

Definition scope_preview_build (standing : list (Mitigation * BlastRadius)) (namespaces : list string) (labels : list (string * string))
    : ScopePreviewView :=
  let preview := preview_scope standing (mkScope (list_to_set namespaces) labels) in
  mkScopeView namespaces ((fun kv => kv.1 +:+ "=" +:+ kv.2) <$> labels) (bool_decide (namespaces = []) && bool_decide (labels = []))
    ((fun f => mkFiringProps (fc_cut f) (describe (fc_action f)) (fc_alive_collateral f) (fc_collateral_unknown f)) <$> sp_would_fire preview)
    ((fun h => mkHeldProps (hc_cut h) (describe (hc_action h))) <$> sp_held_out_of_scope preview).

(** ** mod.rs *)

Inductive Tab := TFindings | TAlerts | TAction | TReadiness | TAdmission | TAccess.

(** Words of earlier tabs still resolve. *)
Definition tab_resolve (tab : option string) : Tab :=
  match tab with
  | Some w =>
      if bool_decide (w = "alerts") then TAlerts
      else if bool_decide (w ∈ ["action"; "trust"; "activity"]) then TAction
      else if bool_decide (w = "readiness") then TReadiness
      else if bool_decide (w = "admission") then TAdmission
      else if bool_decide (w = "access") then TAccess
      else TFindings
  | None => TFindings
  end.

Definition comma_char : Ascii.ascii := Ascii.ascii_of_nat 44.
Definition equals_char : Ascii.ascii := Ascii.ascii_of_nat 61.
Definition is_empty_str (s : string) : bool := bool_decide (s = "").

Definition query_namespaces (q : option string) : list string :=
  List.filter (fun s => negb (is_empty_str s)) (trim <$> split comma_char (default "" q)).

Definition query_labels (q : option string) : list (string * string) :=
  List.filter (fun kv => negb (is_empty_str kv.1) && negb (is_empty_str kv.2))
    ((fun kv => (trim kv.1, trim kv.2)) <$> omap (split_once equals_char) (split comma_char (default "" q))).

(** The handles, as they stand when a request reads them. *)
Record DashboardState := mkDashboard {
  ds_findings : Findings;
  ds_judgements : list Judgement;
  ds_reversions : list PolicyLog.ReversionRecord;
  ds_decision_journal : DecisionJournal;
  ds_policy_log : PolicyDecisionLog;
  ds_cluster : string;
  ds_mcp_audit : AccessAuditSink;
  ds_divergence : list DivergenceRow;
  ds_scope_preview : list (Mitigation * BlastRadius)
}.

(** The strip with the standing regressions and the stall of the sensors. *)
Definition overlay (d : DashboardState) (s : StatusStrip) : StatusStrip :=
  let '(breach, uncertain) := counts (log_snapshot (ds_policy_log d)) in
  strip_with_coverage_stall (with_signing_regressions s breach uncertain) (coverage_stall_alert (fs_coverage_state (ds_findings d))).

Definition findings_view (d : DashboardState) (now : Z) : StatusStrip * list FindingProps :=
  let '(strip, rows) := strip_from_findings (ds_cluster d) (findings_snapshot_at (ds_findings d) now)
                          (judgement_snapshot (ds_judgements d)) (readiness_of (ds_findings d)) in
  (overlay d strip, rows).

Definition dashboard_strip (d : DashboardState) (now : Z) : StatusStrip := (findings_view d now).1.

Definition dashboard_alerts (d : DashboardState) (now : Z) : StatusStrip * AlertsView :=
  (dashboard_strip d now, alerts_view (findings_snapshot_at (ds_findings d) now) (readiness_of (ds_findings d))).

Definition dashboard_readiness (d : DashboardState) (now : Z) : StatusStrip * list ReadinessRow :=
  (dashboard_strip d now, map_readiness (readiness_of (ds_findings d))).

Definition dashboard_action (from_str : string -> option JournalEntry) (d : DashboardState) (now : Z) : StatusStrip * ActionView :=
  (dashboard_strip d now,
   action_build_at (default_window_report from_str (ds_decision_journal d) now) (rev (ds_reversions d)) (judgement_snapshot (ds_judgements d))
     (epoch_ms now)).

Definition dashboard_admission (d : DashboardState) (now : Z) : StatusStrip * option AdmissionView :=
  (dashboard_strip d now, admission_view (log_snapshot (ds_policy_log d))).

(** Without a verified identity the caller has the least tier. *)
Definition dashboard_access (d : DashboardState) (identity : option Identity) (now : Z) : StatusStrip * AccessView :=
  (dashboard_strip d now,
   access_build match identity with Some i => oi_tier i | None => tier_default end (access_records (ds_mcp_audit d)) (is_durable (ds_mcp_audit d))
     (if now <? 0 then 0 else now / 1000000000)%Z).

Definition dashboard_divergence (d : DashboardState) : list DivergenceRow := rev (ds_divergence d).

Definition dashboard_scope_preview (d : DashboardState) (namespaces labels : option string) (now : Z) : StatusStrip * ScopePreviewView :=
  (dashboard_strip d now, scope_preview_build (ds_scope_preview d) (query_namespaces namespaces) (query_labels labels)).

(** ** Entries of pods *)

Definition three_parts (ns k n : string) : string := ns +:+ String slash (k +:+ String slash n).

(** The name of a row as entries are named: namespace, kind and name. *)
Definition plain_entry (e : string) : Prop :=
  exists ns k n, e = three_parts ns k n /\ no_char slash ns = true /\ no_char slash k = true /\ no_char slash n = true.

Lemma splitn_three ns k n : no_char slash ns = true -> no_char slash k = true -> splitn 3 slash (three_parts ns k n) = [ns; k; n].
Proof. intros Hns Hk. unfold three_parts. cbn [splitn]. by rewrite split_once_app, split_once_app by done. Qed.

Lemma rsplit_once_some c s l r : rsplit_once c s = Some (l, r) -> s = l +:+ String c r.
Proof.
  revert l r. induction s as [|a s IH]; intros l r; simpl; [done|].
  destruct (rsplit_once c s) as [[l' r']|]; [intros [= <- <-]; by rewrite (IH l' r')|].
  destruct (Ascii.eqb_spec a c) as [->|]; [by intros [= <- <-]|done].
Qed.

Lemma stem_prefix s stem : strip_replica_suffix s = Some stem -> exists tail, s = stem +:+ tail.
Proof.
  assert (forall ok, ('(stem', tail) ← rsplit_once dash s; stem_of stem' (ok tail)) = Some stem -> exists tail, s = stem +:+ tail) as H1.
  { intros ok. destruct (rsplit_once dash s) as [[l r]|] eqn:E; [|done]. apply rsplit_once_some in E as ->. cbn. unfold stem_of.
    destruct (_ && _); [intros [= <-]; eauto|done]. }
  assert (two_hashes s = Some stem -> exists tail, s = stem +:+ tail) as H2.
  { unfold two_hashes. destruct (rsplit_once dash s) as [[l r]|] eqn:E; [|done]. apply rsplit_once_some in E as ->. cbn.
    destruct (rsplit_once dash l) as [[l' r']|] eqn:E; [|done]. apply rsplit_once_some in E as ->. cbn. unfold stem_of.
    destruct (_ && _); [intros [= <-]; eexists; apply app_str_assoc|done]. }
  unfold strip_replica_suffix. destruct (mbind _ _) eqn:E; [intros [= ->]; exact (H1 (fun tail => negb (bool_decide (tail = "")) && all_bytes is_digit tail) E)|].
  destruct (rsplit_once dash s) as [[l r]|] eqn:E1; [|done]. destruct (rsplit_once dash l); [|done].
  destruct (two_hashes s) eqn:E2; [by intros [= ->]; apply H2|]. intros H. exact (H1 is_pod_hash H).
Qed.

(** The group of a plain entry. *)
Lemma group_plain e key : plain_entry e -> workload_group_key e = Some key ->
  exists ns w, key = ns +:+ "/Pod/" +:+ w /\ no_char slash ns = true /\ no_char slash w = true.
Proof.
  intros (ns & k & n & -> & Hns & Hk & Hn). unfold workload_group_key. rewrite splitn_three by done.
  destruct (_ || _); [done|]. destruct (strip_replica_suffix n) as [w|] eqn:Hw; [|done]. intros [= <-].
  exists ns, w. repeat split; [done|]. apply stem_prefix in Hw as [tail ->]. rewrite no_char_app in Hn. by apply andb_true_iff in Hn as [? _].
Qed.

(** ** Replicas *)

Lemma best_from_spec key rows : forall i j b k c, best_from (j, b) i key rows = (k, c) ->
  urgency_rank c <= urgency_rank b /\ (forall r, r ∈ rows -> group_of r = Some key -> urgency_rank c <= urgency_rank r) /\
  ((k, c) = (j, b) \/ exists m, k = i + m /\ rows !! m = Some c /\ group_of c = Some key).
Proof.
  induction rows as [|x rows IH]; intros i j b k c; cbn [best_from].
  - intros [= <- <-]. split; [done|]. split; [|by left]. intros r Hr. by apply not_elem_of_nil in Hr.
  - cbn [snd]. destruct (bool_decide (group_of x = Some key) && better x b) eqn:E; intros H; apply IH in H as (Hb & Hall & Hk).
    + apply andb_true_iff in E as [Eg Eb]. apply bool_decide_eq_true in Eg. unfold better in Eb.
      assert (urgency_rank x <= urgency_rank b) by (apply orb_true_iff in Eb as [Eb|Eb]; [|apply andb_true_iff in Eb as [Eb _]]; [apply Nat.ltb_lt in Eb|apply Nat.eqb_eq in Eb]; lia).
      split; [lia|]. split.
      * intros r [->|Hr]%elem_of_cons Hg; [done|by apply Hall].
      * right. destruct Hk as [[= -> ->]|(m & -> & Hm & Hg)]; [exists 0|exists (S m)]; repeat split; auto; lia.
    + split; [done|]. split.
      * intros r [->|Hr]%elem_of_cons Hg; [|by apply Hall]. apply andb_false_iff in E as [E|E]; [by apply bool_decide_eq_false in E|].
        unfold better in E. apply orb_false_iff in E as [E _]. apply Nat.ltb_ge in E. lia.
      * destruct Hk as [Hk|(m & -> & Hm & Hg)]; [by left|]. right. exists (S m). repeat split; auto; lia.
Qed.

(** The representative of a group: none of the group is more urgent. *)
Lemma best_idx_spec key rows : forall i, (exists r, r ∈ rows /\ group_of r = Some key) ->
  exists m c, best_idx i key rows = Some (i + m) /\ rows !! m = Some c /\ group_of c = Some key /\
    forall r, r ∈ rows -> group_of r = Some key -> urgency_rank c <= urgency_rank r.
Proof.
  induction rows as [|x rows IH]; intros i (r & Hr & Hg); [by apply not_elem_of_nil in Hr|]. cbn [best_idx].
  destruct (decide (group_of x = Some key)) as [Hx|Hx]; [rewrite bool_decide_true by done|rewrite bool_decide_false by done].
  - destruct (best_from (i, x) (S i) key rows) as [k c] eqn:E. apply best_from_spec in E as (Hb & Hall & Hk). cbn [fst].
    assert (forall r, r ∈ x :: rows -> group_of r = Some key -> urgency_rank c <= urgency_rank r) as H
      by (intros r' [->|Hr']%elem_of_cons ?; auto).
    destruct Hk as [[= -> ->]|(m & -> & Hm & Hgc)]; [exists 0, x|exists (S m), c]; repeat split; auto; f_equal; lia.
  - apply elem_of_cons in Hr as [->|Hr]; [done|]. destruct (IH (S i)) as (m & c & -> & Hm & Hgc & Hall); [by exists r|].
    exists (S m), c. split; [f_equal; lia|]. split; [done|]. split; [done|]. intros r' [->|Hr']%elem_of_cons ?; [by destruct Hx|auto].
Qed.

Lemma kept_elem rows r : r ∈ collapse_pod_replicas rows <-> exists i r0, rows !! i = Some r0 /\ keep_row rows i r0 = true /\ r = mark_replicas rows r0.
Proof.
  unfold collapse_pod_replicas. rewrite list_elem_of_fmap. setoid_rewrite list_elem_of_omap. split.
  - intros (r0 & -> & [i r1] & Hi & Hk). apply elem_of_lookup_imap in Hi as (j & r2 & [= -> ->] & Hj).
    exists j, r2. destruct (keep_row rows j r2) eqn:E; [|done]. injection Hk as <-. done.
  - intros (i & r0 & Hi & Hk & ->). exists r0. split; [done|]. exists (i, r0). rewrite Hk. split; [|done].
    apply elem_of_lookup_imap. eauto.
Qed.

(** Every row is kept or stands behind a kept one that is as urgent. *)
Lemma replicas_cover rows r : r ∈ rows ->
  exists i r0, rows !! i = Some r0 /\ keep_row rows i r0 = true /\ urgency_rank r0 <= urgency_rank r.
Proof.
  intros Hr. destruct (group_of r) as [key|] eqn:Hg.
  - destruct (best_idx_spec key rows 0) as (m & c & Hb & Hm & Hgc & Hall); [by exists r|].
    destruct (2 <=? group_size rows key) eqn:E.
    + exists m, c. repeat split; auto. unfold keep_row. by rewrite Hgc, E, Hb, bool_decide_true.
    + apply list_elem_of_lookup in Hr as [i Hi]. exists i, r. repeat split; auto. unfold keep_row. by rewrite Hg, E.
  - apply list_elem_of_lookup in Hr as [i Hi]. exists i, r. repeat split; auto. unfold keep_row. by rewrite Hg.
Qed.

Lemma mark_urgency rows r : urgency_rank (mark_replicas rows r) = urgency_rank r /\ fp_posture (mark_replicas rows r) = fp_posture r.
Proof. unfold mark_replicas. destruct (group_of r); [|done]. by destruct (2 <=? _). Qed.

(** A kept row keeps its label, or carries that of its group and is its representative. *)
Lemma mark_label rows i r : plain_entry (fp_entry r) -> keep_row rows i r = true ->
  (fp_entry (mark_replicas rows r) = fp_entry r) \/
  exists ns w, group_of r = Some (ns +:+ "/Pod/" +:+ w) /\ fp_entry (mark_replicas rows r) = ns +:+ String slash w /\
    no_char slash ns = true /\ no_char slash w = true /\ best_idx 0 (ns +:+ "/Pod/" +:+ w) rows = Some i.
Proof.
  intros Hp Hk. unfold mark_replicas, keep_row in *. destruct (group_of r) as [key|] eqn:Hg; [|by left].
  destruct (2 <=? group_size rows key); [|by left]. right. apply bool_decide_eq_true in Hk.
  destruct (group_plain _ _ Hp Hg) as (ns & w & -> & Hns & Hw). exists ns, w. repeat split; auto.
  change (ns +:+ "/Pod/" +:+ w) with (ns +:+ String slash ("Pod/" +:+ w)). rewrite split_once_app by done. reflexivity.
Qed.

Lemma plain_three e : plain_entry e -> length (split slash e) = 3.
Proof. intros (ns & k & n & -> & Hns & Hk & Hn). unfold three_parts. by rewrite !split_app, split_no_char by done. Qed.

Lemma two_parts ns w : no_char slash ns = true -> no_char slash w = true -> split slash (ns +:+ String slash w) = [ns; w].
Proof. intros Hns Hw. by rewrite split_app, split_no_char by done. Qed.

(** Where rows of one label are equally urgent, so are the kept ones. *)
Lemma kept_agree rows x y :
  (forall r, r ∈ rows -> plain_entry (fp_entry r)) ->
  (forall r s, r ∈ rows -> s ∈ rows -> fp_entry r = fp_entry s -> urgency_rank r = urgency_rank s) ->
  x ∈ collapse_pod_replicas rows -> y ∈ collapse_pod_replicas rows -> fp_entry x = fp_entry y -> urgency_rank x = urgency_rank y.
Proof.
  intros Hp Hs (i & r & Hi & Hki & ->)%kept_elem (j & s & Hj & Hkj & ->)%kept_elem. rewrite !(proj1 (mark_urgency _ _)).
  assert (r ∈ rows) as Hr by (by eapply list_elem_of_lookup_2). assert (s ∈ rows) as Hsr by (by eapply list_elem_of_lookup_2).
  destruct (mark_label rows i r (Hp r Hr) Hki) as [->|(ns & w & Hg & -> & Hns & Hw & Hb)],
    (mark_label rows j s (Hp s Hsr) Hkj) as [->|(ns' & w' & Hg' & -> & Hns' & Hw' & Hb')].
  - by apply Hs.
  - intros He. pose proof (plain_three _ (Hp r Hr)) as H3. by rewrite He, two_parts in H3.
  - intros He. pose proof (plain_three _ (Hp s Hsr)) as H3. by rewrite <-He, two_parts in H3.
  - intros He. apply (f_equal (split slash)) in He. rewrite !two_parts in He by done. injection He as -> ->. rewrite Hb in Hb'.
    injection Hb' as ->. rewrite Hi in Hj. by injection Hj as ->.
Qed.

(** ** Fan-out *)

Lemma mark_fanout_same all r : urgency_rank (mark_fanout all r) = urgency_rank r /\ fp_posture (mark_fanout all r) = fp_posture r.
Proof. unfold mark_fanout. by destruct (_ <? _). Qed.

Lemma keep_first_cover all rows : forall seen r, r ∈ rows -> fp_entry r ∉ seen -> exists x, x ∈ keep_first all seen rows /\ x ∈ rows /\ fp_entry x = fp_entry r.
Proof.
  induction rows as [|y rows IH]; intros seen r Hr Hs; [by apply not_elem_of_nil in Hr|]. cbn [keep_first].
  apply elem_of_cons in Hr as [->|Hr].
  - destruct (_ <? _); [rewrite bool_decide_false by done|]; (eexists; split; [left|]; split; [left|done]).
  - destruct (_ <? _).
    + destruct (bool_decide (fp_entry y ∈ seen)) eqn:E; [destruct (IH seen r Hr Hs) as (x & ? & ? & ?); exists x; repeat split; auto; by right|].
      destruct (decide (fp_entry y = fp_entry r)) as [He|He]; [exists y; repeat split; auto; left|].
      destruct (IH ({[fp_entry y]} ∪ seen) r Hr) as (x & ? & ? & ?); [set_solver|]. exists x; repeat split; auto; by right.
    + destruct (IH seen r Hr Hs) as (x & ? & ? & ?). exists x; repeat split; auto; by right.
Qed.

(** No row is hidden behind a calmer one. *)
Lemma collapse_cover rows r :
  (forall x, x ∈ rows -> plain_entry (fp_entry x)) ->
  (forall x y, x ∈ rows -> y ∈ rows -> fp_entry x = fp_entry y -> urgency_rank x = urgency_rank y) ->
  r ∈ rows -> exists x, x ∈ collapse_fanout (collapse_pod_replicas rows) /\ urgency_rank x <= urgency_rank r.
Proof.
  intros Hp Hs Hr. destruct (replicas_cover rows r Hr) as (i & r0 & Hi & Hk & Hu).
  set (all := collapse_pod_replicas rows). assert (mark_replicas rows r0 ∈ all) as Hin by (apply kept_elem; eauto).
  destruct (keep_first_cover all all ∅ _ Hin ltac:(set_solver)) as (x & Hx & Hxa & He).
  exists (mark_fanout all x). split; [by apply list_elem_of_fmap_2|].
  rewrite (proj1 (mark_fanout_same _ _)), (kept_agree rows _ _ Hp Hs Hxa Hin He), (proj1 (mark_urgency _ _)). done.
Qed.

(** ** The rows of a snapshot *)

Lemma shown_zero p rows : posture_count p rows = 0 <-> forall r, r ∈ rows -> fp_posture r <> p.
Proof.
  unfold posture_count. split.
  - intros H r Hr He. apply length_zero_iff_nil in H. assert (r ∈ List.filter (fun r => bool_decide (fp_posture r = p)) rows) as Hf
      by (apply elem_of_filter_b; split; [by apply bool_decide_eq_true_2|done]). rewrite H in Hf. by apply not_elem_of_nil in Hf.
  - intros H. destruct (List.filter _ rows) as [|r l] eqn:E; [done|].
    assert (r ∈ List.filter (fun r => bool_decide (fp_posture r = p)) rows) as [Hb Hr]%elem_of_filter_b by (rewrite E; left).
    apply bool_decide_eq_true in Hb. by destruct (H r Hr).
Qed.

Lemma cleared_only rows :
  posture_count Posture.Breach rows = 0 -> posture_count Posture.Awaiting rows = 0 -> posture_count Posture.Uncertain rows = 0 ->
  forall r, r ∈ rows -> 2 <= urgency_rank r /\ (Posture.is_escalated (fp_delta r) = false -> urgency_rank r = 5).
Proof.
  intros H1 H2 H3 r Hr. rewrite shown_zero in H1, H2, H3. specialize (H1 r Hr). specialize (H2 r Hr). specialize (H3 r Hr).
  unfold urgency_rank. destruct (fp_posture r); try done. destruct (fp_live_tag r), (fp_delta r); split; done || lia.
Qed.

Lemma none_escalated rows r :
  length (List.filter (fun r => Posture.is_escalated (fp_delta r)) rows) = 0 -> r ∈ rows -> Posture.is_escalated (fp_delta r) = false.
Proof.
  intros H Hr. apply length_zero_iff_nil in H. destruct (Posture.is_escalated (fp_delta r)) eqn:E; [|done].
  assert (r ∈ List.filter (fun r => Posture.is_escalated (fp_delta r)) rows) as Hx by (by apply elem_of_filter_b).
  rewrite H in Hx. by apply not_elem_of_nil in Hx.
Qed.

Lemma urgency_le r : urgency_rank r <= 5.
Proof. unfold urgency_rank. destruct (fp_posture r), (fp_live_tag r), (fp_delta r); lia. Qed.

(** Equally urgent: the verdict and the age of a row are those of its entry. *)
Lemma rows_agree js blind verdicts now f g :
  f_breach_relevant f = true -> f_breach_relevant g = true -> f_entry f = f_entry g ->
  urgency_rank (finding_props js blind (resolve_row verdicts now f)) = urgency_rank (finding_props js blind (resolve_row verdicts now g)).
Proof. intros Hf Hg He. unfold resolve_row. rewrite Hf, Hg. unfold urgency_rank. simpl. by rewrite He. Qed.

Lemma workload_short ns k n : key_workload ns k n = "workload" +:+ String slash (three_parts ns k n) /\
  short_of (key_workload ns k n) = three_parts ns k n.
Proof. by split. Qed.

Definition workload_entry (e : string) : Prop :=
  exists ns k n, e = key_workload ns k n /\ no_char slash ns = true /\ no_char slash k = true /\ no_char slash n = true.

Lemma workload_entry_short e : workload_entry e -> plain_entry (short_of e) /\ e = "workload" +:+ String slash (short_of e).
Proof. intros (ns & k & n & -> & Hns & Hk & Hn). split; [|done]. by exists ns, k, n. Qed.

(** Each finding of a snapshot is shown by a row as urgent as its own. *)
Lemma view_cover s now js blind f :
  (forall g, g ∈ fs_rows s -> f_breach_relevant g = true -> workload_entry (f_entry g)) ->
  f ∈ findings_snapshot_at s now -> f_breach_relevant f = true ->
  exists r, r ∈ map_findings (findings_snapshot_at s now) js blind /\ urgency_rank r <= urgency_rank (finding_props js blind f).
Proof.
  intros Hw Hf Hrel. set (rows := finding_props js blind <$> List.filter f_breach_relevant (findings_snapshot_at s now)).
  assert (forall x, x ∈ rows -> exists g, x = finding_props js blind (resolve_row (fs_verdicts s) now g) /\ g ∈ fs_rows s /\ f_breach_relevant g = true) as Hrows.
  { intros x (h & -> & [Hh Hin]%elem_of_filter_b)%list_elem_of_fmap. apply list_elem_of_fmap in Hin as (g & -> & Hg). exists g.
    repeat split; auto. unfold resolve_row in Hh. destruct (f_breach_relevant g) eqn:E; [done|]. by rewrite E in Hh. }
  assert (forall g, fp_entry (finding_props js blind (resolve_row (fs_verdicts s) now g)) = short_of (f_entry g)) as Hent
    by (intros g; unfold resolve_row; by destruct (f_breach_relevant g)).
  destruct (collapse_cover rows (finding_props js blind f)) as (x & Hx & Hu).
  - intros x (g & -> & Hg & Hr)%Hrows. rewrite Hent. by apply workload_entry_short, Hw.
  - intros x y (g & -> & Hg & Hr)%Hrows (h & -> & Hh & Hr')%Hrows. rewrite !Hent. intros He. apply rows_agree; [done..|].
    rewrite (proj2 (workload_entry_short _ (Hw g Hg Hr))), (proj2 (workload_entry_short _ (Hw h Hh Hr'))). by rewrite He.
  - apply list_elem_of_fmap_2. by apply elem_of_filter_b.
  - exists x. split; [|done]. unfold map_findings. by rewrite sort_by_perm.
Qed.

(** ** The all-clear *)

Lemma runtime_chip config health last rc : exists kev epss,
  coverage_chips (derive_readiness config health last rc) = [kev; epss; coverage_chip "Runtime" (runtime_corroboration_row rc).1].
Proof.
  unfold derive_readiness. destruct (model_row _ _), (runtime_corroboration_row rc) as [st dt], (tuf_row _ _), (signature_verification_row _).
  by eexists _, _.
Qed.

Lemma stalled_chip config health last rc alert : exists kev epss,
  coverage_chips (with_coverage_stall (derive_readiness config health last rc) (Stalled alert)) = [kev; epss; coverage_chip "Runtime" InStalled].
Proof.
  unfold derive_readiness. destruct (model_row _ _), (runtime_corroboration_row rc) as [st dt], (tuf_row _ _), (signature_verification_row _).
  by eexists _, _.
Qed.

(** The sensors report, all of them and whole, where the row is neither blind nor degraded. *)
Lemma runtime_row_covered rc : (runtime_corroboration_row rc).1 <> InBlind -> (runtime_corroboration_row rc).1 <> InDegraded ->
  expected_count rc = 0 \/ (blind_nodes rc = [] /\ degraded_nodes rc = []).
Proof.
  unfold runtime_corroboration_row. destruct (Nat.eqb_spec (expected_count rc) 0); [by left|]. cbn zeta.
  destruct (_ =? expected_count rc); [done|]. destruct (Nat.eqb_spec (length (blind_nodes rc)) 0) as [Hb|]; [|done]. cbn [negb].
  destruct (Nat.eqb_spec (length (degraded_nodes rc)) 0) as [Hd|]; [|done]. intros _ _. right. by split; apply length_zero_iff_nil.
Qed.

Lemma readiness_model s :
  rd_model_judging (readiness_of s) = (rc_model_attached (fs_readiness s) && bool_decide (Findings.model_health s = MhOk)) /\
  rd_warming_up (readiness_of s) = bool_decide (fs_last_pass s = None).
Proof.
  unfold readiness_of, derive_readiness. destruct (model_row _ _), (runtime_corroboration_row _), (tuf_row _ _), (signature_verification_row _).
  by destruct (fs_coverage_state s).
Qed.

(** The strip of a dashboard, field by field. *)
Lemma strip_fields d now :
  let s := ds_findings d in let strip := dashboard_strip d now in
  let rows := map_findings (findings_snapshot_at s now) (judgement_snapshot (ds_judgements d)) (blind_nodes_of (readiness_of s)) in
  ss_model_judging strip = (rc_model_attached (fs_readiness s) && bool_decide (Findings.model_health s = MhOk)) /\
  ss_warming_up strip = bool_decide (fs_last_pass s = None) /\
  ss_breach_count strip = posture_count Posture.Breach rows /\ ss_awaiting_count strip = posture_count Posture.Awaiting rows /\
  ss_uncertain_count strip = posture_count Posture.Uncertain rows /\
  ss_escalated_count strip = length (List.filter (fun r => Posture.is_escalated (fp_delta r)) rows) /\
  (ss_signing_regression_breach strip, ss_signing_regression_uncertain strip) = counts (log_snapshot (ds_policy_log d)) /\
  ss_coverage strip = match coverage_stall_alert (fs_coverage_state s) with
                      | Some a => stall_chip a <$> coverage_chips (readiness_of s)
                      | None => coverage_chips (readiness_of s)
                      end.
Proof.
  cbn zeta. unfold dashboard_strip, findings_view, overlay, strip_from_findings. cbn [fst snd].
  destruct (counts _) as [b u]. destruct (readiness_model (ds_findings d)) as [<- <-].
  destruct (coverage_stall_alert _); by repeat split.
Qed.

Lemma refuted_of f js blind : urgency_rank (finding_props js blind f) = 5 -> exists why, f_verdict f = Some (Refuted why).
Proof.
  unfold urgency_rank. cbn. destruct (Posture.delta_of (f_recency f)), (f_verdict f) as [[|?|why|?]|]; cbn; try done; by exists why.
Qed.

Lemma breach_urgent f js blind : Posture.posture_of (f_verdict f) = Posture.Breach -> urgency_rank (finding_props js blind f) < 2.
Proof. unfold urgency_rank. cbn. intros ->. destruct (Posture.live_tag_of _); lia. Qed.

(** C23: The all-clear of the dashboard: the model is attached, answered its last
    call and a pass has run; no expected sensor is blind or partial and the
    coverage is not stalled; no regression of a signature stands; no finding an
    attacker could come in by reads as a breach, and when nothing is marked
    escalated the model refuted every one of them. *)
Theorem all_clear_honest d now :
  let s := ds_findings d in
  (forall g, g ∈ fs_rows s -> f_breach_relevant g = true -> workload_entry (f_entry g)) ->
  all_clear (dashboard_strip d now) = true ->
  (rc_model_attached (fs_readiness s) = true /\ Findings.model_health s = MhOk /\ fs_last_pass s <> None) /\
  (forall a, fs_coverage_state s = Stalled a -> ca_feed_label a <> "Runtime") /\
  ((forall a, fs_coverage_state s <> Stalled a) ->
    expected_count (fs_runtime_coverage s) = 0 \/
    (blind_nodes (fs_runtime_coverage s) = [] /\ degraded_nodes (fs_runtime_coverage s) = [])) /\
  (forall q, q ∈ log_snapshot (ds_policy_log d) -> is_regression_row q = true -> parse_regression q = None) /\
  forall f, f ∈ findings_snapshot_at s now -> f_breach_relevant f = true ->
    Posture.posture_of (f_verdict f) <> Posture.Breach /\
    (ss_escalated_count (dashboard_strip d now) = 0 -> exists why, f_verdict f = Some (Refuted why)).
Proof.
  cbn zeta. intros Hw H. destruct (strip_fields d now) as (Hj & Hwm & Hb & Ha & Hu & He & Hc & Hcov).
  unfold all_clear, fully_covered, model_is_up, has_signing_regression in H. rewrite !andb_true_iff, !negb_true_iff in H.
  destruct H as (((([[H1 H2] H3] & H4) & H5) & H6) & [H7 H8]%orb_false_iff).
  rewrite Hj in H1. apply andb_true_iff in H1 as [H1 ->%bool_decide_eq_true]. rewrite Hwm in H2. apply bool_decide_eq_false in H2.
  apply Nat.eqb_eq in H4, H5, H6. rewrite Hb in H4. rewrite Ha in H5. rewrite Hu in H6. rewrite Hcov in H3.
  split; [done|]. split; [|split; [|split]].
  - intros a Hst Hl. rewrite Hst in H3. unfold readiness_of in H3. rewrite Hst in H3.
    destruct (stalled_chip (fs_readiness (ds_findings d)) (Findings.model_health (ds_findings d)) (fs_last_pass (ds_findings d))
      (fs_runtime_coverage (ds_findings d)) a) as (kev & epss & Hchips). cbn [coverage_stall_alert] in H3. rewrite Hchips in H3.
    assert (stall_chip a (coverage_chip "Runtime" InStalled) = mkChip "Runtime" false false false true) as Hs
      by (unfold stall_chip; by rewrite bool_decide_true by done).
    cbn [fmap list_fmap forallb] in H3. rewrite Hs in H3. cbn in H3. by rewrite !andb_false_r in H3.
  - intros Hst. unfold readiness_of in H3. destruct (runtime_chip (fs_readiness (ds_findings d)) (Findings.model_health (ds_findings d))
      (fs_last_pass (ds_findings d)) (fs_runtime_coverage (ds_findings d))) as (kev & epss & Hchips).
    apply runtime_row_covered; destruct (fs_coverage_state (ds_findings d)); try (by destruct (Hst alert));
      cbn [coverage_stall_alert with_coverage_stall] in H3; rewrite Hchips in H3; intros E; rewrite E in H3; cbn in H3; by rewrite !andb_false_r in H3.
  - apply counts_none. rewrite <- Hc. apply Nat.ltb_ge in H7, H8. f_equal; lia.
  - intros f Hf Hrel. set (js := judgement_snapshot (ds_judgements d)) in *. set (blind := blind_nodes_of (readiness_of (ds_findings d))) in *.
    destruct (view_cover (ds_findings d) now js blind f Hw Hf Hrel) as (r & Hr & Hle). destruct (cleared_only _ H4 H5 H6 r Hr) as [H2r H5r]. split.
    + intros Hp. apply (breach_urgent f js blind) in Hp. lia.
    + rewrite He. intros Hesc. apply (refuted_of f js blind). specialize (H5r (none_escalated _ r Hesc Hr)).
      pose proof (urgency_le (finding_props js blind f)). lia.
Qed.

(** ** A calm dashboard *)

(** One entry refuted, one sensor whole, the model up. *)
Definition calm_findings : Findings :=
  let s := findings_replace (findings_new (set_display (with_cache_slots 32) web (Refuted "no way out"))) [reaches "secret/app/Secret/db-key"] in
  let s := set_model_health (set_readiness_config (mark_pass s 5) (mkReadinessConfig true 1 1 true false None false 0)) MhOk in
  (stamp_runtime_coverage_at s (beacons true) [agent_pod "n1"] 0).2.

Definition dashboard_of (s : Findings) : DashboardState :=
  mkDashboard s [] [] (mkJournal false false (mkVolume None None)) [] "prod" in_memory [] [].

Definition calm_row : Finding := resolve_row (fs_verdicts calm_findings) 9 (reaches "secret/app/Secret/db-key").

Lemma all_clear_honest_witness : exists why, f_verdict calm_row = Some (Refuted why).
Proof.
  refine (proj2 (proj2 (proj2 (proj2 (proj2 (all_clear_honest (dashboard_of calm_findings) 9 _ _)))) calm_row _ _) _).
  - intros g Hg _. apply list_elem_of_singleton in Hg as ->. exists "app", "Pod", "web". repeat split.
  - vm_compute. reflexivity.
  - apply list_elem_of_here.
  - reflexivity.
  - vm_compute. reflexivity.
Defined.

(** ** Where replicas are not told *)

(** The pods of a DaemonSet are one group only when its name has a dash. *)
Theorem daemonset_not_grouped :
  strip_replica_suffix "node-agent-x7k2p" = Some "node-agent" /\ strip_replica_suffix "fluentd-x7k2p" = None.
Proof. split; by vm_compute. Qed.

Definition pod_reaches (objective : string) : Finding :=
  mkFinding "workload/app/Pod/db-0" objective CREDENTIAL_ACCESS false false "no-cut" None true None [mkPathStep "workload/app/Pod/db-0" "can-read" objective]
    [] false (mkEntryEvidence [] [] [] [] []) None None None None.

(** One pod that reaches two secrets is shown as two replicas that reach the first. *)
Theorem objectives_read_replicas :
  (fun r => (fp_entry r, fp_objective r, fp_replicas r)) <$>
    map_findings [pod_reaches "secret/app/Secret/a"; pod_reaches "secret/app/Secret/b"] [] ∅ = [("app/db", "app/Secret/a", Some 2)].
Proof. by vm_compute. Qed.
