(* ===== verification/Agent.v ===== *)
(** * The node agent

    src/agent: the events the kernel programs write (common/src/lib.rs,
    protector-agent-ebpf/src/main.rs) and what the agent makes of them:
    observer.rs (decoding and attribution), pod.rs (control groups), linkage.rs
    with behavior/src/elf.rs, coalesce.rs, reporter.rs and the loop of main.rs.
    Integers are [N], bytes are strings, and the byte order is little-endian.
    What a helper of the kernel, the file system or the engine answers is an
    argument of the step. *)

From S2P Require Import Prelude Text Posture Behavior Enrich Evidence Ingest Journal.

#[local] Arguments String.append : simpl nomatch.

(** ** Bytes *)

Fixpoint le_bytes (n : nat) (v : N) : string :=
  match n with 0 => EmptyString | S n => String (Ascii.ascii_of_N (v mod 256)) (le_bytes n (v / 256)) end.

Fixpoint le_value (s : string) : N :=
  match s with EmptyString => 0 | String a s => Ascii.N_of_ascii a + 256 * le_value s end%N.

Definition sub_bytes (off len : nat) (s : string) : string := String.substring off len s.
Definition field (off len : nat) (s : string) : N := le_value (sub_bytes off len s).

(** [String::from_utf8_lossy]: each maximal piece that no character starts with
    becomes one replacement character. *)
Definition REPLACEMENT : string := bytes [239; 191; 189].

Fixpoint lossy (st : utf8_state) (pending s : string) : string :=
  match s with
  | EmptyString => if bool_decide (pending = "") then "" else REPLACEMENT
  | String a s =>
      match utf8_step st a with
      | Some AtChar => pending +:+ String a (lossy AtChar "" s)
      | Some st => lossy st (pending +:+ String a "") s
      | None =>
          if bool_decide (pending = "") then REPLACEMENT +:+ lossy AtChar "" s
          else REPLACEMENT +:+
               match utf8_step AtChar a with
               | Some AtChar => String a (lossy AtChar "" s)
               | Some st => lossy st (String a "") s
               | None => REPLACEMENT +:+ lossy AtChar "" s
               end
      end
  end.

Definition from_utf8_lossy : string -> string := lossy AtChar "".

(** ** common/src/lib.rs *)

Definition KIND_CONNECT : N := 1.
Definition KIND_FILE_OPEN : N := 2.
Definition KIND_LIBRARY_LOAD : N := 3.
Definition KIND_EXEC : N := 4.
Definition KIND_PRIV_CHANGE : N := 5.
Definition KIND_FILE_WRITE : N := 6.
Definition KIND_PTRACE_ATTACH : N := 7.
Definition KIND_MODULE_LOAD : N := 8.
Definition PATH_CAP : nat := 256.

Record EventHeader := mkHeader { eh_kind : N; eh_pid : N; eh_cgroup_id : N }.
Record ConnEvent := mkConn { cn_header : EventHeader; cn_daddr : N; cn_dport : N }.
Record FileEvent := mkFile { fl_header : EventHeader; fl_len : N; fl_path : string }.
Record ExecEvent := mkExec { ex_header : EventHeader; ex_len : N; ex_path : string; ex_exe_anon_inode : N }.
Record PrivEvent := mkPriv { pv_header : EventHeader; pv_old_uid : N; pv_new_uid : N }.

(** The [repr(C)] layouts: the sizes, and the bytes up to the padding. *)
Definition HEADER_SIZE : nat := 16.
Definition CONN_SIZE : nat := 24.
Definition FILE_SIZE : nat := 280.
Definition EXEC_SIZE : nat := 280.
Definition PRIV_SIZE : nat := 24.

Fixpoint zeros (n : nat) : string := match n with 0 => EmptyString | S n => String Ascii.zero (zeros n) end.

Definition header_bytes (h : EventHeader) : string := le_bytes 4 (eh_kind h) +:+ le_bytes 4 (eh_pid h) +:+ le_bytes 8 (eh_cgroup_id h).
Definition conn_bytes (e : ConnEvent) : string :=
  header_bytes (cn_header e) +:+ le_bytes 4 (cn_daddr e) +:+ le_bytes 2 (cn_dport e) +:+ zeros 2.
Definition file_bytes (e : FileEvent) : string := header_bytes (fl_header e) +:+ le_bytes 4 (fl_len e) +:+ fl_path e +:+ zeros 4.
Definition exec_bytes (e : ExecEvent) : string :=
  header_bytes (ex_header e) +:+ le_bytes 4 (ex_len e) +:+ ex_path e +:+ le_bytes 1 (ex_exe_anon_inode e) +:+ zeros 3.
Definition priv_bytes (e : PrivEvent) : string := header_bytes (pv_header e) +:+ le_bytes 4 (pv_old_uid e) +:+ le_bytes 4 (pv_new_uid e).

Definition DEDUP_WINDOW_NS : N := 1000000000.

Definition should_coalesce (last_ns now_ns window_ns : N) : bool := (last_ns <=? now_ns)%N && (now_ns - last_ns <? window_ns)%N.

(** ** The kernel programs *)

(** An insertion into a full map evicts the coldest key. *)
Class LruInsert := lru_insert : forall {K : Type} {E : EqDecision K} {C : Countable K}, K -> N -> gmap K N -> gmap K N.

Class LruLaws `{L : !LruInsert} : Prop :=
  lru_keeps : forall (K : Type) (E : EqDecision K) (C : Countable K) (k k' : K) (v v' : N) (m : gmap K N),
    lru_insert k v m !! k' = Some v' -> k' = k /\ v' = v \/ k' <> k /\ m !! k' = Some v'.

Section Kernel.
Context `{L : !LruInsert}.

(** One gate for the four maps: whether to emit, the map after. *)
Definition allow {K} `{Countable K} (key : K) (now : N) (seen : gmap K N) : bool * gmap K N :=
  match seen !! key with
  | Some last => if should_coalesce last now DEDUP_WINDOW_NS then (false, seen) else (true, <[key := now]> seen)
  | None => (true, lru_insert key now seen)
  end.

(** The task of an event, the clock, and whether the ring has a slot left for the
    program, and for the second one where two are on the hook. *)
Record Task := mkTask { tk_pid : N; tk_cgroup : N; tk_now : N; tk_room : bool; tk_room_second : bool }.

Definition second (t : Task) : Task := mkTask (tk_pid t) (tk_cgroup t) (tk_now t) (tk_room_second t) (tk_room_second t).

(** What the reads of a file give: a failed one is [None], a string read gives
    its count and its buffer. *)
Record KInode := mkInode { ki_ino : option N; ki_magic : option N; ki_nlink : option N }.
Record KFile := mkKFile { kf_inode : option KInode; kf_flags : option N; kf_name : option (nat -> Z * string); kf_d_path : nat -> Z * string }.
Record KBinprm := mkBinprm { kb_filename : option (nat -> Z * string); kb_file : option KFile }.

Inductive Hook :=
  | HSocketConnect (family : option N) (daddr port_be : N)
  | HFileOpen (file : option KFile)
  | HMmapFile (file : option KFile) (prot : N)
  | HTaskFixSetuid (new_uid old_uid : option N)
  | HBprmCheck (bprm : option KBinprm)
  | HPtraceAccessCheck (mode : N)
  | HKernelLoadData (id : N).

Record KState := mkK {
  k_conn_seen : gmap (N * N * N) N;
  k_write_seen : gmap (N * N) N;
  k_credential_read_seen : gmap (N * N) N;
  k_ptrace_seen : gmap N N;
  k_events : list string;
  k_drops : N;
  k_coalesced : N
}.

Definition AF_INET : N := 2.
Definition TMPFS_MAGIC : N := 16914836.
Definition PROT_EXEC : N := 4.
Definition O_ACCMODE : N := 3.
Definition O_CREAT : N := 64.
Definition O_TRUNC : N := 512.
Definition PTRACE_MODE_ATTACH : N := 2.
Definition LOADING_MODULE : N := 2.
Definition CREDENTIAL_BASENAME_CAP : nat := 48.

Definition SENSITIVE_CREDENTIAL_BASENAMES : list string :=
  ["shadow"; "gshadow"; "sudoers"; "authorized_keys"; "id_rsa"; "id_dsa"; "id_ecdsa"; "id_ed25519"; "credentials";
   "application_default_credentials.json"; "azureProfile.json"; "accessTokens.json"; "msal_token_cache.json"].

Definition make_header (kind : N) (t : Task) : EventHeader := mkHeader kind (tk_pid t) (tk_cgroup t).

(** A full ring counts the loss. *)
Definition put (t : Task) (b : string) (s : KState) : KState :=
  if tk_room t then mkK (k_conn_seen s) (k_write_seen s) (k_credential_read_seen s) (k_ptrace_seen s) (k_events s ++ [b]) (k_drops s) (k_coalesced s)
  else mkK (k_conn_seen s) (k_write_seen s) (k_credential_read_seen s) (k_ptrace_seen s) (k_events s) (k_drops s + 1)%N (k_coalesced s).

Definition coalesced (ok : bool) (s : KState) : KState :=
  mkK (k_conn_seen s) (k_write_seen s) (k_credential_read_seen s) (k_ptrace_seen s) (k_events s) (k_drops s) (k_coalesced s + if ok then 0 else 1)%N.

Definition swap_u16 (v : N) : N := (v mod 256 * 256 + v / 256)%N.

Definition try_connect (family : option N) (daddr port_be : N) (t : Task) (s : KState) : KState :=
  if negb (bool_decide (family = Some AF_INET)) then s
  else
    let dport := swap_u16 port_be in
    let '(ok, seen) := allow (tk_pid t, daddr, dport) (tk_now t) (k_conn_seen s) in
    let s := coalesced ok (mkK seen (k_write_seen s) (k_credential_read_seen s) (k_ptrace_seen s) (k_events s) (k_drops s) (k_coalesced s)) in
    if ok then put t (conn_bytes (mkConn (make_header KIND_CONNECT t) daddr dport)) s else s.

Definition is_write_open (flags : N) : bool :=
  negb (N.land flags O_ACCMODE =? 0)%N || negb (N.land flags (N.lor O_CREAT O_TRUNC) =? 0)%N.

(** The count of a string read, if it read one, as a length within the buffer. *)
Definition read_len (n : Z) : option N := if (n <=? 0)%Z then None else Some (if (n <? Z.of_nat PATH_CAP)%Z then Z.to_N n else N.of_nat PATH_CAP).

Definition emit_file_path (f : KFile) (kind : N) (t : Task) (s : KState) : KState :=
  let '(n, path) := kf_d_path f PATH_CAP in
  match read_len n with Some len => put t (file_bytes (mkFile (make_header kind t) len path)) s | None => s end.

Definition emit_lib_name (f : KFile) (t : Task) (s : KState) : KState :=
  match kf_name f with
  | Some read =>
      let '(n, path) := read PATH_CAP in
      match read_len n with Some len => put t (file_bytes (mkFile (make_header KIND_LIBRARY_LOAD t) len path)) s | None => s end
  | None => s
  end.

Definition is_tmpfs (f : KFile) : bool := bool_decide ((kf_inode f ≫= ki_magic) = Some TMPFS_MAGIC).
Definition inode_ino (f : KFile) : option N := kf_inode f ≫= ki_ino.

Definition is_sensitive_credential_basename (f : KFile) : bool :=
  match kf_name f with
  | Some read =>
      let '(n, buf) := read CREDENTIAL_BASENAME_CAP in
      if (n <=? 0)%Z then false
      else
        let len := Nat.pred (Nat.min (Z.to_nat n) CREDENTIAL_BASENAME_CAP) in
        existsb (fun want => bool_decide (want = sub_bytes 0 len buf)) SENSITIVE_CREDENTIAL_BASENAMES
  | None => false
  end.

(** A file without an inode number is not held back. *)
Definition try_file_open (file : option KFile) (t : Task) (s : KState) : KState :=
  match file with
  | None => s
  | Some f =>
      if is_tmpfs f then emit_file_path f KIND_FILE_OPEN t s
      else if is_sensitive_credential_basename f then
        match inode_ino f with
        | Some ino =>
            let '(ok, seen) := allow (tk_pid t, ino) (tk_now t) (k_credential_read_seen s) in
            let s := coalesced ok (mkK (k_conn_seen s) (k_write_seen s) seen (k_ptrace_seen s) (k_events s) (k_drops s) (k_coalesced s)) in
            if ok then emit_file_path f KIND_FILE_OPEN t s else s
        | None => emit_file_path f KIND_FILE_OPEN t s
        end
      else s
  end.

Definition try_file_write (file : option KFile) (t : Task) (s : KState) : KState :=
  match file with
  | None => s
  | Some f =>
      match kf_flags f with
      | None => s
      | Some flags =>
          if negb (is_write_open flags) then s
          else match inode_ino f with
               | Some ino =>
                   let '(ok, seen) := allow (tk_pid t, ino) (tk_now t) (k_write_seen s) in
                   let s := coalesced ok (mkK (k_conn_seen s) seen (k_credential_read_seen s) (k_ptrace_seen s) (k_events s) (k_drops s) (k_coalesced s)) in
                   if ok then emit_file_path f KIND_FILE_WRITE t s else s
               | None => emit_file_path f KIND_FILE_WRITE t s
               end
      end
  end.

Definition try_mmap_file (file : option KFile) (prot : N) (t : Task) (s : KState) : KState :=
  match file with
  | None => s
  | Some f => if (N.land prot PROT_EXEC =? 0)%N then s else emit_lib_name f t s
  end.

Definition try_fix_setuid (new_uid old_uid : option N) (t : Task) (s : KState) : KState :=
  match new_uid, old_uid with
  | Some new, Some old =>
      if negb ((new =? 0)%N && negb (old =? 0)%N) then s else put t (priv_bytes (mkPriv (make_header KIND_PRIV_CHANGE t) old new)) s
  | _, _ => s
  end.

Definition exe_is_anon_inode (b : KBinprm) : bool :=
  match kb_file b ≫= kf_inode with
  | Some inode => bool_decide (ki_nlink inode = Some 0%N) || bool_decide (ki_magic inode = Some TMPFS_MAGIC)
  | None => false
  end.

Definition emit_exec_path (b : KBinprm) (exe_anon_inode : bool) (t : Task) (s : KState) : KState :=
  match kb_filename b with
  | Some read =>
      let '(n, path) := read PATH_CAP in
      match read_len n with
      | Some len => put t (exec_bytes (mkExec (make_header KIND_EXEC t) len path (if exe_anon_inode then 1 else 0)%N)) s
      | None => s
      end
  | None => s
  end.

Definition emit_fact (kind : N) (t : Task) (s : KState) : KState := put t (header_bytes (make_header kind t)) s.

Definition try_ptrace_access_check (mode : N) (t : Task) (s : KState) : KState :=
  if (N.land mode PTRACE_MODE_ATTACH =? 0)%N then s
  else
    let '(ok, seen) := allow (tk_pid t) (tk_now t) (k_ptrace_seen s) in
    let s := coalesced ok (mkK (k_conn_seen s) (k_write_seen s) (k_credential_read_seen s) seen (k_events s) (k_drops s) (k_coalesced s)) in
    if ok then emit_fact KIND_PTRACE_ATTACH t s else s.

(** What the programs do at a hook; two are on the opening of a file, and each
    reserves a slot of its own. *)
Definition on_hook (h : Hook) (t : Task) (s : KState) : KState :=
  match h with
  | HSocketConnect family daddr port_be => try_connect family daddr port_be t s
  | HFileOpen file => try_file_write file (second t) (try_file_open file t s)
  | HMmapFile file prot => try_mmap_file file prot t s
  | HTaskFixSetuid new_uid old_uid => try_fix_setuid new_uid old_uid t s
  | HBprmCheck bprm => match bprm with Some b => emit_exec_path b (exe_is_anon_inode b) t s | None => s end
  | HPtraceAccessCheck mode => try_ptrace_access_check mode t s
  | HKernelLoadData id => if (id =? LOADING_MODULE)%N then emit_fact KIND_MODULE_LOAD t s else s
  end.

Definition k_boot : KState := mkK ∅ ∅ ∅ ∅ [] 0 0.
End Kernel.

(** ** observer.rs: decoding *)

Record EventAttr := mkAttr { at_pid : N; at_cgroup_id : N }.

Inductive RawEvent :=
  | RConnect (attr : EventAttr) (daddr dport : N)
  | RFileRead (attr : EventAttr) (path : string)
  | RLibraryLoad (attr : EventAttr) (name : string)
  | RPrivChange (attr : EventAttr) (old_uid new_uid : N)
  | RExec (attr : EventAttr) (path : string) (exe_anon_inode : bool)
  | RFileWrite (attr : EventAttr) (path : string)
  | RPtraceAttach (attr : EventAttr)
  | RModuleLoad (attr : EventAttr).

Definition attr_of (e : RawEvent) : EventAttr :=
  match e with
  | RConnect a _ _ | RFileRead a _ | RLibraryLoad a _ | RPrivChange a _ _ | RExec a _ _ | RFileWrite a _ | RPtraceAttach a | RModuleLoad a => a
  end.

Definition nul : Ascii.ascii := Ascii.zero.

(** The path of an event: its first bytes, without what the kernel pads. *)
Definition event_path (len : N) (path : string) : string :=
  trim_end_matches nul (from_utf8_lossy (sub_bytes 0 (Nat.min (N.to_nat len) PATH_CAP) path)).

Definition nonempty_path (path : string) (make : string -> RawEvent) : option RawEvent :=
  if bool_decide (path = "") then None else Some (make path).

Definition decode (data : string) : option RawEvent :=
  let size := String.length data in
  if size <? HEADER_SIZE then None
  else
    let kind := field 0 4 data in
    let attr := mkAttr (field 4 4 data) (field 8 8 data) in
    let path := event_path (field 16 4 data) (sub_bytes 20 PATH_CAP data) in
    if (kind =? KIND_CONNECT)%N then if size <? CONN_SIZE then None else Some (RConnect attr (field 16 4 data) (field 20 2 data))
    else if (kind =? KIND_FILE_OPEN)%N then if size <? FILE_SIZE then None else nonempty_path path (RFileRead attr)
    else if (kind =? KIND_LIBRARY_LOAD)%N then if size <? FILE_SIZE then None else nonempty_path (last_segment slash path) (RLibraryLoad attr)
    else if (kind =? KIND_PRIV_CHANGE)%N then if size <? PRIV_SIZE then None else Some (RPrivChange attr (field 16 4 data) (field 20 4 data))
    else if (kind =? KIND_EXEC)%N then
      if size <? EXEC_SIZE then None else nonempty_path path (fun p => RExec attr p (negb (field 276 1 data =? 0)%N))
    else if (kind =? KIND_FILE_WRITE)%N then if size <? FILE_SIZE then None else nonempty_path path (RFileWrite attr)
    else if (kind =? KIND_PTRACE_ATTACH)%N then Some (RPtraceAttach attr)
    else if (kind =? KIND_MODULE_LOAD)%N then Some (RModuleLoad attr)
    else None.

(** The octets of an address, in the order of the network. *)
Definition octets (daddr : N) : N * N * N * N :=
  (daddr mod 256, daddr / 256 mod 256, daddr / 65536 mod 256, daddr / 16777216 mod 256)%N.

Definition is_private (o : N * N * N * N) : bool :=
  let '(a, b, _, _) := o in
  (a =? 10)%N || ((a =? 172)%N && (16 <=? b)%N && (b <=? 31)%N) || ((a =? 192)%N && (b =? 168)%N).
Definition is_loopback (o : N * N * N * N) : bool := let '(a, _, _, _) := o in (a =? 127)%N.
Definition is_link_local (o : N * N * N * N) : bool := let '(a, b, _, _) := o in (a =? 169)%N && (b =? 254)%N.

Definition ip_text (o : N * N * N * N) : string :=
  let '(a, b, c, d) := o in pretty a +:+ "." +:+ pretty b +:+ "." +:+ pretty c +:+ "." +:+ pretty d.

Definition into_behavior (e : RawEvent) : Behavior :=
  match e with
  | RConnect _ daddr dport =>
      let ip := octets daddr in
      NetworkConnection (ip_text ip +:+ ":" +:+ pretty dport) (negb (is_private ip || is_loopback ip || is_link_local ip))
  | RFileRead _ path => FileRead path
  | RLibraryLoad _ name => LibraryLoaded name
  | RPrivChange _ old_uid new_uid => PrivilegeChange old_uid new_uid
  | RExec _ path exe_anon_inode => ProcessExec path exe_anon_inode
  | RFileWrite _ path => FileWrite path
  | RPtraceAttach _ => PtraceAttach
  | RModuleLoad _ => ModuleLoad
  end.

(** ** pod.rs *)

Inductive PodAttribution := PodOf (uid : string) | NotAPod | Unreadable.

#[export] Instance PodAttribution_eq_dec : EqDecision PodAttribution.
Proof. solve_decision. Defined.

(** The pod a segment of a control group path names. *)
Definition segment_uid (seg : string) : option string :=
  match (rest ← strip_suffix ".slice" seg; idx ← find_str "-pod" rest;
         let uid := sub_bytes (idx + 4) (String.length rest) rest in
         if bool_decide (uid = "") then None else Some (str_replace "_" "-" uid)) with
  | Some uid => Some uid
  | None => uid ← strip_prefix "pod" seg; if bool_decide (uid = "") || no_char (Ascii.ascii_of_nat 45) uid then None else Some uid
  end.

Definition parse_pod_uid (cgroup_path : string) : option string := find_map segment_uid (split slash cgroup_path).

Definition classify_cgroup (cgroup : option string) : PodAttribution :=
  match cgroup with
  | None => Unreadable
  | Some text => match parse_pod_uid text with Some uid => PodOf uid | None => NotAPod end
  end.

Abbreviation CgroupTable := (gmap N string).

Definition cgroup_lookup (table : CgroupTable) (cgroup_id : N) : option string := if (cgroup_id =? 0)%N then None else table !! cgroup_id.

Definition build_cgroup_table (entries : list (N * string)) : CgroupTable :=
  foldl (fun table '(id, path) =>
    if (id =? 0)%N then table else match parse_pod_uid path with Some uid => <[id := uid]> table | None => table end) ∅ entries.

(** A directory as the walk reads it: its name, its inode if its metadata can be
    read, and its directories if it can be listed. *)
Inductive Dir := mkDir (name : string) (ino : option N) (children : option (list Dir)).

Definition MAX_DEPTH : nat := 12.

(** One round takes a directory off the stack. *)
Fixpoint scan_walk (fuel : nat) (entries : list (N * string)) (stack : list (string * option (list Dir) * nat)) : list (N * string) :=
  match fuel, stack with
  | S fuel, (path, children, depth) :: stack =>
      if MAX_DEPTH <? depth then scan_walk fuel entries stack
      else
        let dirs := default [] children in
        let here := fun '(mkDir name ino grand) => (path +:+ "/" +:+ name, ino, grand) in
        scan_walk fuel
          (entries ++ omap (fun d => let '(p, ino, _) := here d in (fun i => (i, p)) <$> ino) dirs)
          (rev ((fun d => let '(p, _, grand) := here d in (p, grand, S depth)) <$> dirs) ++ stack)
  | _, _ => entries
  end.

Fixpoint dir_size (d : Dir) : nat :=
  let '(mkDir _ _ children) := d in
  S match children with Some ds => (fix sizes ds := match ds with [] => 0 | d :: ds => dir_size d + sizes ds end) ds | None => 0 end.

Definition scan_cgroupfs (root : string) (children : option (list Dir)) : CgroupTable :=
  build_cgroup_table (scan_walk (dir_size (mkDir root None children)) [] [(root, children, 0)]).

Definition resolve_attribution (table : CgroupTable) (cgroup_id pid : N) (read_cgroup : N -> option string) : PodAttribution :=
  match cgroup_lookup table cgroup_id with
  | Some uid => PodOf uid
  | None => classify_cgroup (read_cgroup pid)
  end.

(** ** elf.rs and linkage.rs *)

Definition USIZE : N := 18446744073709551616.

Definition read_uint (width : N) (s : string) (off : N) (le : bool) : option N :=
  if (USIZE <=? off + width)%N then None
  else if (N.of_nat (String.length s) <? off + width)%N then None
  else let b := sub_bytes (N.to_nat off) (N.to_nat width) s in Some (le_value (if le then b else str_rev b)).

Definition PT_INTERP : N := 3.

(** The entries from [i] on. *)
Fixpoint scan_headers (n : nat) (i phoff phentsize : N) (s : string) (le : bool) : option bool :=
  match n with
  | 0 => Some true
  | S n =>
      let entry := (phoff + i * phentsize)%N in
      if (USIZE <=? entry)%N then None
      else p_type ← read_uint 4 s entry le;
           if (p_type =? PT_INTERP)%N then Some false else scan_headers n (i + 1) phoff phentsize s le
  end.

Definition ELF_MAGIC : string := bytes [127; 69; 76; 70].

(** Byte order, and the place and width of the table offset, the place of the
    size and of the count of its entries. *)
Definition elf_layout (s : string) : option (bool * (N * N) * N * N) :=
  if (String.length s <? 20) || negb (bool_decide (sub_bytes 0 4 s = ELF_MAGIC)) then None
  else
    let class := field 4 1 s in
    let data := field 5 1 s in
    le ← (if (data =? 1)%N then Some true else if (data =? 2)%N then Some false else None);
    if (class =? 2)%N then Some (le, (32, 8), 54, 56)%N
    else if (class =? 1)%N then Some (le, (28, 4), 42, 44)%N
    else None.

Definition elf_static_linkage (s : string) : option bool :=
  '(le, (phoff_off, phoff_width), phentsize_off, phnum_off) ← elf_layout s;
  phoff ← read_uint phoff_width s phoff_off le;
  phentsize ← read_uint 2 s phentsize_off le;
  phnum ← read_uint 2 s phnum_off le;
  if (phoff =? 0)%N || (phnum =? 0)%N || (phentsize <? 4)%N then None
  else scan_headers (N.to_nat phnum) 0 phoff phentsize s le.

Definition ELF_HEAD_CAP : nat := 4096.

Definition read_exe_head (exe : option string) : option string := sub_bytes 0 ELF_HEAD_CAP <$> exe.

Definition classify_linkage (read_head : N -> option string) (pid : N) : option bool := read_head pid ≫= elf_static_linkage.

Definition linkage_behavior (static_linkage : bool) : Behavior := ImageLinkage static_linkage.

(** ** observer.rs: attribution *)

Definition ATTRIB_QUEUE : nat := 4096.
Definition PID_CACHE_CAP : nat := 8192.
Definition SOURCE : string := "protector-agent".

(** The drain hands over what it can decode while the queue has room. *)
Definition drain_event (data : string) (queue : list RawEvent) : list RawEvent :=
  match decode data with
  | Some raw => if length queue <? ATTRIB_QUEUE then queue ++ [raw] else queue
  | None => queue
  end.

Record Worker := mkWorker {
  wk_table : CgroupTable;
  wk_fallback_cache : gmap N PodAttribution;
  wk_linkage_reported : gset string;
  wk_host_events : N;
  wk_unresolved : N;
  wk_signals : N
}.

(** What /proc holds while an event is attributed, and the stamp of the clock. *)
Record Proc := mkProc { pr_cgroup : N -> option string; pr_exe : N -> option string; pr_now_ms : option N }.

Definition resolve (table : CgroupTable) (cache : gmap N PodAttribution) (attr : EventAttr) (read_cgroup : N -> option string) :
    PodAttribution * gmap N PodAttribution :=
  match cgroup_lookup table (at_cgroup_id attr) with
  | Some uid => (PodOf uid, cache)
  | None =>
      match cache !! at_pid attr with
      | Some cached => (cached, cache)
      | None =>
          let attribution := resolve_attribution table (at_cgroup_id attr) (at_pid attr) read_cgroup in
          let cache := if PID_CACHE_CAP <=? size cache then ∅ else cache in
          (attribution, <[at_pid attr := attribution]> cache)
      end
  end.

Definition is_exec (e : RawEvent) : bool := match e with RExec _ _ _ => true | _ => false end.

Definition worker_obs (uid : string) (p : Proc) (b : Behavior) : RuntimeObservation := mkObs (ByPodUid uid) (Some SOURCE) (pr_now_ms p) None b.

(** One event: what is sent on, and the worker after it. *)
Definition attribute_event (p : Proc) (raw : RawEvent) (w : Worker) : list RuntimeObservation * Worker :=
  let attr := attr_of raw in
  let '(attribution, cache) := resolve (wk_table w) (wk_fallback_cache w) attr (pr_cgroup p) in
  match attribution with
  | NotAPod => ([], mkWorker (wk_table w) cache (wk_linkage_reported w) (wk_host_events w + 1)%N (wk_unresolved w) (wk_signals w))
  | Unreadable => ([], mkWorker (wk_table w) cache (wk_linkage_reported w) (wk_host_events w) (wk_unresolved w + 1)%N (wk_signals w))
  | PodOf uid =>
      let obs := worker_obs uid p (into_behavior raw) in
      if is_exec raw && negb (bool_decide (uid ∈ wk_linkage_reported w)) then
        let reported := if PID_CACHE_CAP <=? size (wk_linkage_reported w) then ∅ else wk_linkage_reported w in
        let linkage := match classify_linkage (fun pid => read_exe_head (pr_exe p pid)) (at_pid attr) with
                       | Some static_linkage => [worker_obs uid p (linkage_behavior static_linkage)]
                       | None => []
                       end in
        (obs :: linkage, mkWorker (wk_table w) cache ({[uid]} ∪ reported) (wk_host_events w) (wk_unresolved w) (wk_signals w + 1 + N.of_nat (length linkage))%N)
      else ([obs], mkWorker (wk_table w) cache (wk_linkage_reported w) (wk_host_events w) (wk_unresolved w) (wk_signals w + 1)%N)
  end.

Definition rescan (table : CgroupTable) (w : Worker) : Worker :=
  mkWorker table (wk_fallback_cache w) (wk_linkage_reported w) (wk_host_events w) (wk_unresolved w) (wk_signals w).

Definition worker_start (table : CgroupTable) : Worker := mkWorker table ∅ ∅ 0 0 0.

(** ** coalesce.rs *)

Definition attribution_token (a : Attribution) : string :=
  match a with
  | ByPodUid pod_uid => "uid:" +:+ pod_uid
  | ByNamespacedName namespace pod => "ns:" +:+ namespace +:+ "/" +:+ pod
  end.

Definition UNIT_SEPARATOR : string := bytes [31].

Definition coalesce_key (obs : RuntimeObservation) : string :=
  attribution_token (ob_attribution obs) +:+ UNIT_SEPARATOR +:+ fingerprint_key (ob_behavior obs).

Record Coalescer := mkCoalescer { co_buffer : gmap string RuntimeObservation; co_max_size : nat }.

Definition coalescer_new (max_size : nat) : Coalescer := mkCoalescer ∅ (Nat.max max_size 1).

Section Coalesce.
(** The order a HashMap drains in. *)
Variable order : gmap string RuntimeObservation -> list RuntimeObservation.

Definition coalescer_drain (c : Coalescer) : list RuntimeObservation * Coalescer := (order (co_buffer c), mkCoalescer ∅ (co_max_size c)).

Definition offer (obs : RuntimeObservation) (c : Coalescer) : list RuntimeObservation * Coalescer :=
  if is_alert (ob_behavior obs) then ([obs], c)
  else
    let key := coalesce_key obs in
    match co_buffer c !! key with
    | Some _ => ([], c)
    | None =>
        let '(flushed, c) := if co_max_size c <=? size (co_buffer c) then coalescer_drain c else ([], c) in
        (flushed, mkCoalescer (<[key := obs]> (co_buffer c)) (co_max_size c))
    end.

Definition coalescer_is_empty (c : Coalescer) : bool := bool_decide (co_buffer c = ∅).

(** ** reporter.rs *)

Definition RERESOLVE_AFTER_401S : N := 3.
Definition U32_MAX : N := 4294967295.

(** The token file, if one is configured, as it reads; and the variable. *)
Definition ingest_token (file : option (option string)) (inline : option string) : option string :=
  let keep v := let t := trim v in if bool_decide (t = "") then None else Some t in
  match file with
  | Some (Some contents) => keep contents
  | Some None => None
  | None => inline ≫= keep
  end.

Inductive Answer := Accepted | Unauthorized | OtherStatus | Unreachable.

Record Reporter := mkReporter { rp_token : option string; rp_consecutive_401s : N; rp_delivered_total : N; rp_rejected_total : N }.

(** [source] is what the token source gives now. *)
Definition on_unauthorized (source : option string) (r : Reporter) : Reporter :=
  let n := N.min (rp_consecutive_401s r + 1) U32_MAX in
  mkReporter (if (n =? RERESOLVE_AFTER_401S)%N then source else rp_token r) n (rp_delivered_total r) (rp_rejected_total r).

Definition saturating_u64 (a b : N) : N := N.min (a + b) (USIZE - 1).

(** A request: the bearer it carries and the report. *)
Definition Request : Type := option string * RuntimeReport.

Definition send (source : option string) (answer : Answer) (report : RuntimeReport) (r : Reporter) : option Request * nat * Reporter :=
  if bool_decide (rr_observations report = []) && bool_decide (rr_liveness report = None) then (None, 0, r)
  else
    let n := length (rr_observations report) in
    let req := Some (rp_token r, report) in
    match answer with
    | Accepted => (req, n, mkReporter (rp_token r) 0 (saturating_u64 (rp_delivered_total r) (N.of_nat n)) (rp_rejected_total r))
    | Unauthorized =>
        (req, 0, on_unauthorized source (mkReporter (rp_token r) (rp_consecutive_401s r) (rp_delivered_total r) (saturating_u64 (rp_rejected_total r) 1)))
    | OtherStatus => (req, 0, mkReporter (rp_token r) (rp_consecutive_401s r) (rp_delivered_total r) (saturating_u64 (rp_rejected_total r) 1))
    | Unreachable => (req, 0, r)
    end.

Definition reporter_new (source : option string) : Reporter := mkReporter source 0 0 0.

(** ** main.rs *)

Definition AGENT_MAX_BATCH : nat := 512.
Definition DEFAULT_DEBOUNCE_MS : N := 3000.

Definition parse_debounce_window (raw : option string) : N :=
  match raw ≫= fun v => parse_u64 (trim v) with
  | Some ms => if (0 <? ms)%N then ms else DEFAULT_DEBOUNCE_MS
  | None => DEFAULT_DEBOUNCE_MS
  end.

Definition build_agent_report (node : string) (probes : N * N) (signals : N) (now_ms : option N) : AgentReport :=
  mkAgentReport node probes.1 probes.2 signals now_ms.

Record Flusher := mkFlusher { ag_coalescer : Coalescer; ag_reporter : Reporter; ag_reported_since_tick : nat }.

(** What wakes the loop. *)
Inductive Wake := WObservation (obs : RuntimeObservation) | WWindow | WHeartbeat (probes : N * N) (now_ms : option N) | WClosed.

Definition set_node (node : option string) (obs : RuntimeObservation) : RuntimeObservation :=
  mkObs (ob_attribution obs) (ob_source obs) (ob_observed_at_ms obs) node (ob_behavior obs).

(** One turn: what it posts, and the flusher after it. *)
Definition flush_turn (node : option string) (source : option string) (answer : Answer) (w : Wake) (f : Flusher) : option Request * Flusher :=
  let post report c :=
    let '(req, n, r) := send source answer report (ag_reporter f) in
    (req, mkFlusher c r (ag_reported_since_tick f + n)) in
  match w with
  | WObservation obs =>
      let '(immediate, c) := offer (set_node node obs) (ag_coalescer f) in
      if bool_decide (immediate = []) then (None, mkFlusher c (ag_reporter f) (ag_reported_since_tick f))
      else post (mkRuntimeReport immediate None) c
  | WWindow =>
      if coalescer_is_empty (ag_coalescer f) then (None, f)
      else let '(batch, c) := coalescer_drain (ag_coalescer f) in post (mkRuntimeReport batch None) c
  | WHeartbeat probes now_ms =>
      let '(req, r) :=
        match node with
        | Some node =>
            let '(req, _, r) := send source answer
              (mkRuntimeReport [] (Some (build_agent_report node probes (N.of_nat (ag_reported_since_tick f)) now_ms))) (ag_reporter f) in
            (req, r)
        | None => (None, ag_reporter f)
        end in
      (req, mkFlusher (ag_coalescer f) r 0)
  | WClosed =>
      let '(batch, c) := coalescer_drain (ag_coalescer f) in
      let '(req, _, r) := send source answer (mkRuntimeReport batch None) (ag_reporter f) in
      (req, mkFlusher c r (ag_reported_since_tick f))
  end.

Definition flusher_start (source : option string) : Flusher := mkFlusher (coalescer_new AGENT_MAX_BATCH) (reporter_new source) 0.
End Coalesce.
