(* ===== verification/Model.v ===== *)
(** * The model endpoint (engine/src/engine/model.rs)

    What is sent to the model, what of its answer is read, and which endpoints may
    be given the graph at all. What the endpoint answers, and the decoding of its
    JSON, are arguments. An address is parsed as the standard library parses it.
    Then what the endpoint gate takes for a host, and what lets it pass. *)

From S2P Require Import Prelude Text Json ImageRef Posture Asn Agent.

#[local] Arguments String.append : simpl nomatch.

(** ** Configuration *)

Definition DEFAULT_MODEL_CONCURRENCY : N := 8.
Definition DEFAULT_MODEL_TIMEOUT_SECS : N := 120.
Definition DEFAULT_KEEPWARM_SECS : N := 240.
Definition KEEPWARM_RESIDENCY_SECS : N := 600.
Definition MAX_COMPLETION_TOKENS : Z := 1024.
Definition MAX_RESPONSE_BYTES : N := 256 * 1024.
Definition DEFAULT_MODEL_NAME : string := "qwen2.5:3b".

Definition parse_model_concurrency (raw : option string) : N :=
  match raw ≫= fun s => parse_u64 (trim s) with
  | Some n => if (0 <? n)%N then n else DEFAULT_MODEL_CONCURRENCY
  | None => DEFAULT_MODEL_CONCURRENCY
  end.

Definition timeout_secs (raw : option string) : N := default DEFAULT_MODEL_TIMEOUT_SECS (raw ≫= parse_u64).

Definition parse_keepwarm_interval (raw : option string) : option N :=
  let secs := default DEFAULT_KEEPWARM_SECS (raw ≫= fun s => parse_u64 (trim s)) in
  if (0 <? secs)%N then Some secs else None.

Definition keep_warm_plan (config : option (string * string)) (interval : option N) : option (string * string * N) :=
  '(endpoint, model) ← config; interval ← interval; Some (endpoint, model, interval).

(** ** A call *)

Definition user_message (content : string) : Json := JArr [JObj [("role", JStr "user"); ("content", JStr content)]].

Definition chat_body (model prompt : string) : Json :=
  JObj [("model", JStr model); ("temperature", JNum 0); ("max_tokens", JNum MAX_COMPLETION_TOKENS); ("messages", user_message prompt)].

Definition keep_warm_body (model : string) : Json :=
  JObj [("model", JStr model); ("temperature", JNum 0); ("max_tokens", JNum 1); ("keep_alive", JNum (Z.of_N KEEPWARM_RESIDENCY_SECS));
        ("messages", user_message "ping")].

(** The pieces of a body as they arrive; one that cannot be read is [None]. *)
Fixpoint bounded_body (buf : string) (chunks : list (option string)) : option string :=
  match chunks with
  | [] => Some buf
  | None :: _ => None
  | Some chunk :: chunks => if (MAX_RESPONSE_BYTES <? N.of_nat (String.length buf + String.length chunk))%N then None else bounded_body (buf +:+ chunk) chunks
  end.

(** What an endpoint answers, if it does: its status, the pieces of its body. *)
Record ChatResponse := mkChatResponse { rs_status : N; rs_chunks : list (option string) }.

Definition is_success (r : ChatResponse) : bool := (200 <=? rs_status r)%N && (rs_status r <? 300)%N.

(** [value[i]] of an array. *)
Definition json_elem (i : nat) (j : Json) : Json := default JNull (as_array j ≫= fun l => l !! i).

Definition completion (j : Json) : option string :=
  as_str (json_index (json_index (json_elem 0 (json_index j "choices")) "message") "content").

Definition chat (from_slice : string -> option Json) (response : option ChatResponse) : option string :=
  response ← response;
  if negb (is_success response) then None
  else bytes ← bounded_body "" (rs_chunks response); json ← from_slice bytes; completion json.

Definition keep_warm (response : option ChatResponse) : bool := match response with Some r => is_success r | None => false end.

(** ** Addresses, as [str::parse::<IpAddr>] reads them *)

Definition hex_digit (a : Ascii.ascii) : option N :=
  let n := Ascii.N_of_ascii a in
  if (48 <=? n)%N && (n <=? 57)%N then Some (n - 48)%N
  else if (97 <=? n)%N && (n <=? 102)%N then Some (n - 87)%N
  else if (65 <=? n)%N && (n <=? 70)%N then Some (n - 55)%N
  else None.

(** The digits at the head: how many, their value, what follows. *)
Fixpoint read_hex (s : string) (count : nat) (acc : N) : nat * N * string :=
  match s with
  | String a rest => match hex_digit a with Some d => read_hex rest (S count) (acc * 16 + d) | None => (count, acc, s) end
  | EmptyString => (count, acc, s)
  end.

(** A group: one to four hexadecimal digits. *)
Definition read_group (s : string) : option (N * string) :=
  let '(count, v, rest) := read_hex s 0 0 in if (count =? 0)%nat || (4 <? count)%nat then None else Some (v, rest).

Definition is_dec (a : Ascii.ascii) : bool := let n := Ascii.N_of_ascii a in (48 <=? n)%N && (n <=? 57)%N.

Fixpoint take_dec (s : string) : string * string :=
  match s with
  | String a rest => if is_dec a then let '(d, r) := take_dec rest in (String a d, r) else (EmptyString, s)
  | EmptyString => (EmptyString, s)
  end.

Definition read_octet (s : string) : option (N * string) := let '(d, rest) := take_dec s in (fun v => (v, rest)) <$> (if bool_decide (d = "") then None else parse_octet d).

Definition read_char (c : Ascii.ascii) (s : string) : option string :=
  match s with String a rest => if Ascii.eqb a c then Some rest else None | EmptyString => None end.

(** Four octets, and what follows them. *)
Definition read_ipv4_addr (s : string) : option (N * N * string) :=
  '(a, s) ← read_octet s; s ← read_char dot_char s; '(b, s) ← read_octet s; s ← read_char dot_char s;
  '(c, s) ← read_octet s; s ← read_char dot_char s; '(d, s) ← read_octet s;
  Some (a * 256 + b, c * 256 + d, s)%N.

(** A separator before any group but the first. *)
Definition separated (first : bool) (s : string) : option string := if first then Some s else read_char colon_char s.

(** At most [limit] groups, an address of four octets standing for two: the
    groups, whether they end in such an address, what follows. *)
Fixpoint read_groups (limit : nat) (first : bool) (s : string) : list N * bool * string :=
  match limit with
  | 0 => ([], false, s)
  | S limit =>
      match (if (1 <=? limit)%nat then separated first s ≫= read_ipv4_addr else None) with
      | Some (hi, lo, rest) => ([hi; lo], true, rest)
      | None =>
          match separated first s ≫= read_group with
          | Some (g, rest) => let '(gs, v4, rest) := read_groups limit false rest in (g :: gs, v4, rest)
          | None => ([], false, s)
          end
      end
  end.

Definition read_ipv6_addr (s : string) : option (list N * string) :=
  let '(head, head_v4, rest) := read_groups 8 true s in
  if (length head =? 8)%nat then Some (head, rest)
  else if head_v4 then None
  else
    rest ← read_char colon_char rest; rest ← read_char colon_char rest;
    let '(tail, _, rest) := read_groups (8 - (length head + 1)) true rest in
    Some (head ++ replicate (8 - length head - length tail) 0%N ++ tail, rest).

Inductive IpAddr := V4 (octets : N * N * N * N) | V6 (segments : list N).

Definition v4_octets (a : N) : N * N * N * N := (a / 16777216, a / 65536 mod 256, a / 256 mod 256, a mod 256)%N.

Definition parse_ip (s : string) : option IpAddr :=
  match parse_ipv4 s with
  | Some a => Some (V4 (v4_octets a))
  | None => '(segments, rest) ← read_ipv6_addr s; if bool_decide (rest = "") then Some (V6 segments) else None
  end.

(** ** The endpoint gate *)

Definition external_opt_in (var : option string) : bool :=
  match var with Some v => bool_decide (to_ascii_lowercase (trim v) ∈ ["1"; "true"; "yes"; "on"]) | None => false end.

(** The part up to the first of [stops]. *)
Fixpoint up_to (stops : list Ascii.ascii) (s : string) : string :=
  match s with
  | EmptyString => EmptyString
  | String a s => if existsb (Ascii.eqb a) stops then EmptyString else String a (up_to stops s)
  end.

Definition slash_char : Ascii.ascii := Ascii.ascii_of_nat 47.
Definition question_char : Ascii.ascii := Ascii.ascii_of_nat 63.
Definition hash_char : Ascii.ascii := Ascii.ascii_of_nat 35.
Definition rbracket_char : Ascii.ascii := Ascii.ascii_of_nat 93.

(** What follows the first "://", or the whole. *)
Fixpoint after_scheme (s : string) : option string :=
  match strip_prefix "://" s with
  | Some r => Some r
  | None => match s with String _ s => after_scheme s | EmptyString => None end
  end.

Definition endpoint_host (endpoint : string) : option string :=
  let rest := default endpoint (after_scheme endpoint) in
  let authority := up_to [slash_char; question_char; hash_char] rest in
  let host_port := match rsplit_once at_char authority with Some (_, r) => r | None => authority end in
  host ← match strip_prefix "[" host_port with
         | Some rest => fst <$> split_once rbracket_char rest
         | None => Some (up_to [colon_char] host_port)
         end;
  let host := trim_end_matches dot_char host in
  if bool_decide (host = "") then None else Some (to_ascii_lowercase host).

Definition CLUSTER_SUFFIXES : list string := [".svc"; ".svc.cluster.local"; ".cluster.local"].

Definition v6_in_cluster (segments : list N) : bool :=
  bool_decide (segments = [0; 0; 0; 0; 0; 0; 0; 1]%N) ||
  match segments with
  | g :: _ => (N.land g 65024 =? 64512)%N || (N.land g 65472 =? 65152)%N
  | [] => false
  end.

Definition host_is_in_cluster (host : string) : bool :=
  match parse_ip host with
  | Some (V4 o) => is_loopback o || is_private o || is_link_local o
  | Some (V6 segments) => v6_in_cluster segments
  | None =>
      bool_decide (host = "localhost") || no_char dot_char host ||
      existsb (fun suffix => match strip_suffix suffix host with Some _ => true | None => false end) CLUSTER_SUFFIXES
  end.

Inductive EndpointError := NoHost (endpoint : string) | NotInCluster (host : string).

Definition validate_in_cluster_endpoint (endpoint : string) (allow_external : bool) : EndpointError + unit :=
  if allow_external then inr tt
  else match endpoint_host endpoint with
       | None => inl (NoHost endpoint)
       | Some host => if host_is_in_cluster host then inr tt else inl (NotInCluster host)
       end.

(** The endpoint and the name of the model, from the variables. *)
Definition model_config (endpoint allow_external name : option string) : option (string * string) :=
  endpoint ← endpoint;
  if bool_decide (endpoint = "") then None
  else match validate_in_cluster_endpoint endpoint (external_opt_in allow_external) with
       | inl _ => None
       | inr _ => Some (endpoint, default DEFAULT_MODEL_NAME name)
       end.

(** ** What the gate takes for the host *)

(** A URL in its parts: with or without a scheme, the host bare or in brackets
    and with any number of dots at its end. *)
Record Url := mkUrl {
  ur_scheme : option string; ur_userinfo : option string; ur_bracketed : bool; ur_host : string; ur_dots : nat;
  ur_port : option string; ur_tail : string
}.

Fixpoint dots (n : nat) : string := match n with 0 => EmptyString | S n => String dot_char (dots n) end.

Definition render_host (u : Url) : string :=
  if ur_bracketed u then "[" +:+ ur_host u +:+ dots (ur_dots u) +:+ "]" else ur_host u +:+ dots (ur_dots u).

Definition render_rest (u : Url) : string :=
  match ur_userinfo u with Some i => i +:+ String at_char "" | None => "" end +:+ render_host u +:+
  match ur_port u with Some p => String colon_char p | None => "" end +:+ ur_tail u.

Definition render_url (u : Url) : string :=
  match ur_scheme u with Some s => s +:+ "://" +:+ render_rest u | None => render_rest u end.

Definition path_stops : list Ascii.ascii := [slash_char; question_char; hash_char].

Definition free_of (cs : list Ascii.ascii) (s : string) : Prop := forall c, c ∈ cs -> no_char c s = true.

(** No part holds the characters that end it, and the dots are all counted. *)
Record url_wf (u : Url) : Prop := {
  uw_scheme : match ur_scheme u with Some s => no_char colon_char s = true | None => after_scheme (render_rest u) = None end;
  uw_userinfo : forall i, ur_userinfo u = Some i -> free_of path_stops i;
  uw_host : if ur_bracketed u then free_of (at_char :: rbracket_char :: path_stops) (ur_host u)
            else free_of (at_char :: colon_char :: path_stops) (ur_host u) /\ strip_prefix "[" (ur_host u) = None;
  uw_some : ur_host u <> "";
  uw_dots : trim_end_matches dot_char (ur_host u) = ur_host u;
  uw_port : forall p, ur_port u = Some p -> free_of (at_char :: path_stops) p;
  uw_tail : ur_tail u = "" \/ exists c t, ur_tail u = String c t /\ c ∈ path_stops
}.

Lemma up_to_free stops s t : free_of stops s -> up_to stops (s +:+ t) = s +:+ up_to stops t.
Proof.
  induction s as [|a s IH]; intros Hf; [done|]. cbn [String.append up_to].
  assert (existsb (Ascii.eqb a) stops = false) as ->.
  { apply existsb_false. intros c Hc. specialize (Hf c Hc). cbn in Hf. apply andb_true_iff in Hf as [Hf _]. by apply negb_true_iff in Hf. }
  f_equal. apply IH. intros c Hc. specialize (Hf c Hc). cbn in Hf. by apply andb_true_iff in Hf as [_ ?].
Qed.

Lemma up_to_stop stops c t : c ∈ stops -> up_to stops (String c t) = "".
Proof. intros Hc. cbn [up_to]. rewrite (proj2 (existsb_elem _ _)); [done|]. exists c. split; [done|]. apply Ascii.eqb_refl. Qed.

Lemma after_scheme_app s r : no_char colon_char s = true -> after_scheme (s +:+ "://" +:+ r) = Some r.
Proof.
  induction s as [|a s IH]; intros Hs; [done|].
  cbn in Hs. apply andb_true_iff in Hs as [Ha Hs]. specialize (IH Hs). revert IH. generalize ("://" +:+ r) as t. intros t IH.
  change (String a s +:+ t) with (String a (s +:+ t)). cbn [after_scheme]. rewrite IH. cbn [strip_prefix].
  destruct (Ascii.eqb_spec (Ascii.Ascii false true false true true true false false) a) as [<-|]; [done|]. done.
Qed.

Lemma free_app cs a b : free_of cs a -> free_of cs b -> free_of cs (a +:+ b).
Proof. intros Ha Hb c Hc. by rewrite no_char_app, (Ha c Hc), (Hb c Hc). Qed.

Lemma free_cons cs a s : existsb (Ascii.eqb a) cs = false -> free_of cs s -> free_of cs (String a s).
Proof.
  intros Ha Hs c Hc. cbn. rewrite (Hs c Hc), andb_true_r. apply negb_true_iff. rewrite existsb_false in Ha. by apply Ha.
Qed.

Lemma free_sub cs ds s : ds ⊆ cs -> free_of cs s -> free_of ds s.
Proof. intros Hsub Hs c Hc. by apply Hs, Hsub. Qed.

Lemma free_dots cs n : existsb (Ascii.eqb dot_char) cs = false -> free_of cs (dots n).
Proof. intros Hc. induction n as [|n IH]; [by intros c _|]. by apply free_cons. Qed.

Lemma trim_dots s n : trim_end_matches dot_char (s +:+ dots n) = trim_end_matches dot_char s.
Proof.
  induction s as [|a s IH]; [|cbn [String.append trim_end_matches]; by rewrite IH].
  induction n as [|n IH]; [done|]. cbn in *. by rewrite IH.
Qed.

(** What is left once the scheme, the path and the user are gone. *)
Lemma host_port_render u : url_wf u ->
  let rest := default (render_url u) (after_scheme (render_url u)) in
  let authority := up_to path_stops rest in
  match rsplit_once at_char authority with Some (_, r) => r | None => authority end =
    render_host u +:+ match ur_port u with Some p => String colon_char p | None => "" end.
Proof.
  intros [Hs Hi Hh Hne Hd Hp Ht] rest authority.
  assert (rest = render_rest u) as Hrest.
  { unfold rest, render_url. destruct (ur_scheme u) as [s|]; [by rewrite after_scheme_app|by rewrite Hs]. }
  set (port := match ur_port u with Some p => String colon_char p | None => "" end).
  set (user := match ur_userinfo u with Some i => i +:+ String at_char "" | None => "" end).
  assert (free_of path_stops user) as Hu.
  { unfold user. destruct (ur_userinfo u) as [i|]; [|by intros c _]. apply free_app; [by apply Hi|]. apply free_cons; [done|by intros c _]. }
  assert (free_of (at_char :: path_stops) port) as Hport.
  { unfold port. destruct (ur_port u) as [p|]; [|by intros c _]. apply free_cons; [done|by apply Hp]. }
  assert (free_of (at_char :: path_stops) (render_host u)) as Hhost.
  { unfold render_host. destruct (ur_bracketed u).
    - apply free_cons; [done|]. apply free_app; [eapply free_sub; [|exact Hh]; clear; set_solver|]. apply free_app; [by apply free_dots|].
      apply free_cons; [done|by intros c _].
    - apply free_app; [eapply free_sub; [|apply Hh]; clear; set_solver|by apply free_dots]. }
  assert (authority = user +:+ render_host u +:+ port) as ->.
  { unfold authority. rewrite Hrest. unfold render_rest. fold user port.
    rewrite !up_to_free by (done || (eapply free_sub; [|eassumption]; clear; set_solver)).
    do 2 f_equal. destruct Ht as [->|(c & t & -> & Hc)]; [|rewrite up_to_stop by done]; by rewrite app_str_nil_r. }
  assert (no_char at_char (render_host u +:+ port) = true) as Hat by (apply (free_app _ _ _ Hhost Hport); left).
  unfold user. destruct (ur_userinfo u) as [i|].
  - rewrite app_str_assoc. change (String at_char "" +:+ ?x) with (String at_char x). by rewrite rsplit_once_app.
  - cbn [String.append]. by rewrite (proj2 (rsplit_once_none at_char _)).
Qed.

(** The host of a URL is the host it is written with, lowercased, whatever the
    scheme, the user, the brackets, the dots at its end, the port and the path. *)
Lemma endpoint_host_render u : url_wf u -> endpoint_host (render_url u) = Some (to_ascii_lowercase (ur_host u)).
Proof.
  intros Hu. unfold endpoint_host. change [slash_char; question_char; hash_char] with path_stops. cbv zeta. rewrite (host_port_render u Hu).
  destruct Hu as [_ _ Hh Hne Hd _ _]. unfold render_host. set (port := match ur_port u with Some p => String colon_char p | None => "" end).
  destruct (ur_bracketed u).
  - rewrite !app_str_assoc. change (strip_prefix "[" ("[" +:+ ?x)) with (Some x). cbn match.
    change ("]" +:+ port) with (String rbracket_char port). rewrite <- app_str_assoc, split_once_app.
    + cbn [fmap option_fmap option_map mbind option_bind fst]. by rewrite trim_dots, Hd, bool_decide_eq_false_2.
    + rewrite no_char_app, (Hh rbracket_char ltac:(right; left)). apply (free_dots [rbracket_char]); [done|left].
  - destruct Hh as [Hh Hb]. rewrite app_str_assoc.
    assert (strip_prefix "[" (ur_host u +:+ dots (ur_dots u) +:+ port) = None) as ->.
    { destruct (ur_host u) as [|a h]; [done|]. cbn [strip_prefix String.append] in Hb |- *.
      match goal with |- context [Ascii.eqb ?x a] => by destruct (Ascii.eqb x a) end. }
    cbn [mbind option_bind]. rewrite <- app_str_assoc, up_to_free.
    + assert (up_to [colon_char] port = "") as -> by (unfold port; destruct (ur_port u); [|done]; apply up_to_stop; left).
      by rewrite app_str_nil_r, trim_dots, Hd, bool_decide_eq_false_2.
    + apply free_app; [eapply free_sub; [|exact Hh]; clear; set_solver|by apply free_dots].
Qed.

(** ** Which hosts are in the cluster *)

(** The texts of an address: a group is one to four hexadecimal digits, the
    groups are eight, with colons between them, or fewer around one double colon
    that stands for the zeros left out, and the last two may be written as four
    octets. *)
Fixpoint hex_value (t : string) (acc : N) : option N :=
  match t with
  | EmptyString => Some acc
  | String a t => d ← hex_digit a; hex_value t (acc * 16 + d)%N
  end.

Definition group_text (g : N) (t : string) : Prop := 1 <= String.length t <= 4 /\ hex_value t 0 = Some g.

Definition in_range (o : N * N * N * N) : Prop := let '(a, b, c, d) := o in (a < 256 /\ b < 256 /\ c < 256 /\ d < 256)%N.

Inductive groups_text : bool -> list N -> string -> Prop :=
  | groups_one quad g t : group_text g t -> groups_text quad [g] t
  | groups_quad a b c d : in_range (a, b, c, d) -> groups_text true [a * 256 + b; c * 256 + d]%N (ip_text (a, b, c, d))
  | groups_more quad g t gs s : group_text g t -> groups_text quad gs s -> groups_text quad (g :: gs) (t +:+ ":" +:+ s).

Definition some_groups (quad : bool) (gs : list N) (s : string) : Prop := (gs = [] /\ s = "") \/ groups_text quad gs s.

Definition ipv6_text (segments : list N) (s : string) : Prop :=
  (length segments = 8 /\ groups_text true segments s) \/
  exists head tail sh st, some_groups false head sh /\ some_groups true tail st /\ length head + length tail <= 7 /\
    segments = head ++ replicate (8 - length head - length tail) 0%N ++ tail /\ s = sh +:+ "::" +:+ st.

(** Where a number ends, and where a run of groups does. *)
Definition ends_hex (s : string) : Prop := match s with String a _ => hex_digit a = None | EmptyString => True end.
Definition ends_dec (s : string) : Prop := match s with String a _ => is_dec a = false | EmptyString => True end.
Definition ends_groups (s : string) : Prop := s = "" \/ exists r, s = "::" +:+ r.

Lemma read_hex_sound s : forall count acc, let '(count', v, rest) := read_hex s count acc in
  exists t, s = t +:+ rest /\ hex_value t acc = Some v /\ count' = count + String.length t /\ ends_hex rest.
Proof.
  induction s as [|a s IH]; intros count acc; cbn [read_hex]; [exists ""; repeat split; (done || (cbn; lia))|].
  destruct (hex_digit a) as [d|] eqn:Ed; [|exists ""; repeat split; (done || (cbn; lia))].
  specialize (IH (S count) (acc * 16 + d)%N). destruct (read_hex s _ _) as [[count' v] rest]. destruct IH as (t & -> & Hv & -> & Hr).
  exists (String a t). cbn. rewrite Ed. repeat split; (done || lia).
Qed.

Lemma read_hex_complete t rest : forall count acc v, hex_value t acc = Some v -> ends_hex rest ->
  read_hex (t +:+ rest) count acc = (count + String.length t, v, rest).
Proof.
  induction t as [|a t IH]; intros count acc v Hv Hr.
  - injection Hv as <-. rewrite Nat.add_0_r. destruct rest as [|x rest]; [done|]. cbn in *. by rewrite Hr.
  - cbn in Hv |- *. destruct (hex_digit a) as [d|]; [|done]. cbn in Hv. rewrite (IH _ _ _ Hv Hr). do 2 f_equal. lia.
Qed.

Lemma read_group_sound s g rest : read_group s = Some (g, rest) -> exists t, group_text g t /\ s = t +:+ rest.
Proof.
  unfold read_group. pose proof (read_hex_sound s 0 0) as H. destruct (read_hex s 0 0) as [[count v] r]. destruct H as (t & -> & Hv & -> & _).
  destruct (Nat.eqb_spec (0 + String.length t) 0); [done|]. destruct (Nat.ltb_spec 4 (0 + String.length t)); [done|]. intros [= <- <-].
  exists t. split; [|done]. split; [lia|done].
Qed.

Lemma read_group_complete g t rest : group_text g t -> ends_hex rest -> read_group (t +:+ rest) = Some (g, rest).
Proof.
  intros [Hl Hv] Hr. unfold read_group. rewrite (read_hex_complete t rest 0 0 g Hv Hr).
  destruct (Nat.eqb_spec (0 + String.length t) 0); [lia|]. by destruct (Nat.ltb_spec 4 (0 + String.length t)); [lia|].
Qed.

(** The bytes of a group are none of an address's separators. *)
Lemma hex_value_free t : forall acc v, hex_value t acc = Some v -> free_of [dot_char; colon_char] t.
Proof.
  induction t as [|a t IH]; intros acc v H c Hc; [done|]. cbn in H |- *. destruct (hex_digit a) as [d|] eqn:Ed; [|done]. rewrite (IH _ _ H c Hc), andb_true_r.
  apply negb_true_iff. destruct (Ascii.eqb_spec a c) as [->|]; [|done]. exfalso.
  apply elem_of_cons in Hc as [->| ->%list_elem_of_singleton]; by vm_compute in Ed.
Qed.

(** *** Four octets *)

Definition digit_list : list Ascii.ascii := (fun n => Ascii.ascii_of_N n) <$> [48; 49; 50; 51; 52; 53; 54; 55; 56; 57]%N.

Lemma digit_listed a : is_dec a = true -> a ∈ digit_list.
Proof. destruct a as [[] [] [] [] [] [] [] []]; intros H; try discriminate H; apply (bool_decide_eq_true_1 _); vm_compute; reflexivity. Qed.

Definition octet_texts : list string :=
  a ← digit_list; [String a ""] ++ (b ← digit_list; [String a (String b "")] ++ (c ← digit_list; [String a (String b (String c ""))])).

Lemma octet_texts_read : Forall (fun s => match parse_octet s with Some v => (v < 256)%N /\ s = pretty v | None => True end) octet_texts.
Proof.
  assert (forallb (fun s => match parse_octet s with Some v => (v <? 256)%N && String.eqb s (pretty v) | None => true end) octet_texts = true) as H
    by (vm_compute; reflexivity).
  apply Forall_forall. intros s Hs. rewrite forallb_forall in H. specialize (H s (proj1 (list_elem_of_In _ _) Hs)).
  destruct (parse_octet s) as [v|]; [|done]. apply andb_true_iff in H as [H1%N.ltb_lt H2%String.eqb_eq]. done.
Qed.

Lemma digits_dec bound s : forall acc v, digits_value bound s acc = Some v -> forall a, no_char a s = false -> is_dec a = true.
Proof.
  induction s as [|c s IH]; intros acc v H a Ha; [done|]. cbn [digits_value] in H. destruct (N.leb_spec 48 (Ascii.N_of_ascii c)) as [Hl|]; [|done].
  destruct (N.ltb_spec (Ascii.N_of_ascii c - 48) 10) as [Hu|]; [|done]. cbn [andb] in H. destruct (_ <? bound)%N; [|done]. cbn in Ha.
  apply andb_false_iff in Ha as [Ha|Ha]; [|by eapply IH]. apply negb_false_iff, Ascii.eqb_eq in Ha as <-.
  unfold is_dec. apply andb_true_iff. rewrite !N.leb_le. lia.
Qed.

Lemma octet_sound p v : parse_octet p = Some v -> (v < 256)%N /\ p = pretty v.
Proof.
  intros H. assert (p ∈ octet_texts) as Hin; [|pose proof octet_texts_read as Ht; rewrite Forall_forall in Ht; specialize (Ht p Hin); by rewrite H in Ht].
  destruct p as [|a p]; [done|]. unfold parse_octet in H. destruct (Nat.ltb_spec 3 (String.length (String a p))) as [|Hl]; [done|]. cbn [orb] in H.
  destruct (_ && _); [done|]. pose proof (digits_dec _ _ _ _ H) as Hd. cbn [String.length] in Hl.
  assert (forall x y s, no_char x (y +:+ String x s) = false) as Hn.
  { intros x y s. induction y as [|z y IH]; cbn; [by rewrite Ascii.eqb_refl|]. cbn in IH. by rewrite IH, andb_false_r. }
  pose proof (Hd a (Hn a "" p)) as Ha%digit_listed. unfold octet_texts. apply list_elem_of_bind. exists a. split; [|done].
  destruct p as [|b p]; [by left|]. pose proof (Hd b (Hn b (String a "") p)) as Hb%digit_listed. right. apply list_elem_of_bind. exists b. split; [|done].
  destruct p as [|c p]; [by left|]. pose proof (Hd c (Hn c (String a (String b "")) p)) as Hc%digit_listed. right. apply list_elem_of_bind. exists c. split; [|done].
  destruct p; [by left|cbn in Hl; lia].
Qed.

(** Every octet in decimal is read back, and is its own lowercase. *)
Lemma octet_text a : (a < 256)%N ->
  parse_octet (pretty a) = Some a /\ no_char dot_char (pretty a) = true /\ to_ascii_lowercase (pretty a) = pretty a /\
  take_dec (pretty a) = (pretty a, "") /\ pretty a <> "" /\ free_of [dot_char; colon_char] (pretty a).
Proof.
  assert (forallb (fun a => bool_decide (parse_octet (pretty a) = Some a /\ no_char dot_char (pretty a) = true /\ to_ascii_lowercase (pretty a) = pretty a /\
    take_dec (pretty a) = (pretty a, "") /\ pretty a <> "" /\ no_char colon_char (pretty a) = true)) (N.of_nat <$> seq 0 256) = true) as H
    by (vm_compute; reflexivity).
  intros Ha. rewrite forallb_forall in H. specialize (H a). apply bool_decide_eq_true in H as (H1 & H2 & H3 & H4 & H5 & H6).
  - do 5 (split; [done|]). intros c [->| ->%list_elem_of_singleton]%elem_of_cons; done.
  - apply list_elem_of_In, list_elem_of_fmap. exists (N.to_nat a). rewrite N2Nat.id. split; [done|]. apply elem_of_seq. lia.
Qed.

Lemma take_dec_sound s : s = (take_dec s).1 +:+ (take_dec s).2.
Proof. induction s as [|a s IH]; [done|]. cbn [take_dec]. destruct (is_dec a); [|done]. destruct (take_dec s) as [d r]. cbn in *. by rewrite IH at 1. Qed.

Lemma take_dec_app d r : take_dec d = (d, "") -> ends_dec r -> take_dec (d +:+ r) = (d, r).
Proof.
  intros Hd Hr. induction d as [|a d IH]; [destruct r as [|x r]; [done|]; cbn in *; by rewrite Hr|].
  cbn in Hd |- *. destruct (is_dec a); [|done]. destruct (take_dec d) as [d' r'] eqn:E. injection Hd as -> ->. by rewrite (IH eq_refl).
Qed.

Lemma read_octet_sound s v rest : read_octet s = Some (v, rest) -> (v < 256)%N /\ s = pretty v +:+ rest.
Proof.
  unfold read_octet. pose proof (take_dec_sound s) as Hs. destruct (take_dec s) as [d r]. cbn in Hs. case_bool_decide; [done|].
  destruct (parse_octet d) as [w|] eqn:E; [|done]. intros [= -> ->]. by apply octet_sound in E as [? ->].
Qed.

Lemma read_octet_complete a rest : (a < 256)%N -> ends_dec rest -> read_octet (pretty a +:+ rest) = Some (a, rest).
Proof.
  intros Ha Hr. destruct (octet_text a Ha) as (Hp & _ & _ & Ht & Hne & _). unfold read_octet. rewrite (take_dec_app _ _ Ht Hr), bool_decide_eq_false_2 by done. by rewrite Hp.
Qed.

Lemma read_char_sound c s rest : read_char c s = Some rest -> s = String c rest.
Proof. destruct s as [|a s]; [done|]. cbn. destruct (Ascii.eqb_spec a c) as [->|]; [|done]. by intros [= ->]. Qed.

Lemma read_ipv4_sound s hi lo rest : read_ipv4_addr s = Some (hi, lo, rest) ->
  exists a b c d, in_range (a, b, c, d) /\ hi = (a * 256 + b)%N /\ lo = (c * 256 + d)%N /\ s = ip_text (a, b, c, d) +:+ rest.
Proof.
  unfold read_ipv4_addr. destruct (read_octet s) as [[a s1]|] eqn:E1; [|done]. apply read_octet_sound in E1 as [Ha ->]. cbn [mbind option_bind].
  destruct (read_char dot_char s1) as [s2|] eqn:E2; [|done]. apply read_char_sound in E2 as ->. cbn [mbind option_bind].
  destruct (read_octet s2) as [[b s3]|] eqn:E3; [|done]. apply read_octet_sound in E3 as [Hb ->]. cbn [mbind option_bind].
  destruct (read_char dot_char s3) as [s4|] eqn:E4; [|done]. apply read_char_sound in E4 as ->. cbn [mbind option_bind].
  destruct (read_octet s4) as [[c s5]|] eqn:E5; [|done]. apply read_octet_sound in E5 as [Hc ->]. cbn [mbind option_bind].
  destruct (read_char dot_char s5) as [s6|] eqn:E6; [|done]. apply read_char_sound in E6 as ->. cbn [mbind option_bind].
  destruct (read_octet s6) as [[d s7]|] eqn:E7; [|done]. apply read_octet_sound in E7 as [Hd ->]. intros [= <- <- <-].
  exists a, b, c, d. repeat split; try done. unfold ip_text. by rewrite !app_str_assoc.
Qed.

Lemma read_ipv4_complete a b c d rest : in_range (a, b, c, d) -> ends_dec rest ->
  read_ipv4_addr (ip_text (a, b, c, d) +:+ rest) = Some (a * 256 + b, c * 256 + d, rest)%N.
Proof.
  intros (Ha & Hb & Hc & Hd) Hr. unfold read_ipv4_addr, ip_text. rewrite !app_str_assoc.
  rewrite (read_octet_complete a) by done. cbn [mbind option_bind String.append read_char]. rewrite Ascii.eqb_refl. cbn [mbind option_bind].
  rewrite (read_octet_complete b) by done. cbn [mbind option_bind String.append read_char]. rewrite Ascii.eqb_refl. cbn [mbind option_bind].
  rewrite (read_octet_complete c) by done. cbn [mbind option_bind String.append read_char]. rewrite Ascii.eqb_refl. cbn [mbind option_bind].
  by rewrite (read_octet_complete d).
Qed.

(** A group is not the head of four octets. *)
Lemma read_ipv4_group g t rest : group_text g t -> ends_groups rest \/ (exists r, rest = ":" +:+ r) -> read_ipv4_addr (t +:+ rest) = None.
Proof.
  intros [_ Ht] Hr. destruct (read_ipv4_addr (t +:+ rest)) as [[[hi lo] r]|] eqn:E; [exfalso|done].
  apply read_ipv4_sound in E as (a & b & c & d & (Ha & _) & _ & _ & E). unfold ip_text in E. rewrite !app_str_assoc in E.
  destruct (octet_text a Ha) as (_ & _ & _ & _ & _ & Hf). apply hex_value_free in Ht.
  pose proof (f_equal (up_to [dot_char; colon_char]) E) as Eu. rewrite !up_to_free in Eu by done.
  change (up_to [dot_char; colon_char] ("." +:+ _)) with "" in Eu. rewrite app_str_nil_r in Eu.
  assert (up_to [dot_char; colon_char] rest = "") as Er by (destruct Hr as [[->|[x ->]]|[x ->]]; done).
  rewrite Er, app_str_nil_r in Eu. subst t. apply (inj (String.append _)) in E. destruct Hr as [[->|[x ->]]|[x ->]]; discriminate.
Qed.

Lemma octets_back a b c d : in_range (a, b, c, d) -> v4_octets (((a * 256 + b) * 256 + c) * 256 + d) = (a, b, c, d).
Proof.
  intros (Ha & Hb & Hc & Hd). unfold v4_octets.
  assert (((((a * 256 + b) * 256 + c) * 256 + d) / 16777216 = a)%N) as -> by (symmetry; apply (N.div_unique _ _ _ ((b * 256 + c) * 256 + d)); lia).
  assert (((((a * 256 + b) * 256 + c) * 256 + d) / 65536 = a * 256 + b)%N) as -> by (symmetry; apply (N.div_unique _ _ _ (c * 256 + d)); lia).
  assert (((((a * 256 + b) * 256 + c) * 256 + d) / 256 = (a * 256 + b) * 256 + c)%N) as -> by (symmetry; apply (N.div_unique _ _ _ d); lia).
  repeat f_equal; symmetry; [apply (N.mod_unique _ _ a)|apply (N.mod_unique _ _ (a * 256 + b))|apply (N.mod_unique _ _ ((a * 256 + b) * 256 + c))]; lia.
Qed.

Lemma parse_ipv4_sound s v : parse_ipv4 s = Some v -> exists o, in_range o /\ s = ip_text o /\ v4_octets v = o.
Proof.
  unfold parse_ipv4. pose proof (join_split dot_char s) as Hs. destruct (split dot_char s) as [|a [|b [|c [|d [|]]]]]; try done.
  destruct (parse_octet a) as [a'|] eqn:Ea; [|done]. destruct (parse_octet b) as [b'|] eqn:Eb; [|done].
  destruct (parse_octet c) as [c'|] eqn:Ec; [|done]. destruct (parse_octet d) as [d'|] eqn:Ed; [|done].
  apply octet_sound in Ea as [Ha ->], Eb as [Hb ->], Ec as [Hc ->], Ed as [Hd ->]. cbn [mbind option_bind]. intros [= <-].
  exists (a', b', c', d'). split; [done|]. split; [by rewrite <- Hs|]. by apply octets_back.
Qed.

Lemma ip_text_free o : in_range o -> no_char colon_char (ip_text o) = true.
Proof.
  destruct o as [[[a b] c] d]. intros (Ha & Hb & Hc & Hd). unfold ip_text. rewrite !no_char_app.
  destruct (octet_text a Ha) as (_ & _ & _ & _ & _ & Fa), (octet_text b Hb) as (_ & _ & _ & _ & _ & Fb),
    (octet_text c Hc) as (_ & _ & _ & _ & _ & Fc), (octet_text d Hd) as (_ & _ & _ & _ & _ & Fd).
  by rewrite Fa, Fb, Fc, Fd by (right; left).
Qed.

Lemma ip_text_parse o : in_range o -> parse_ip (ip_text o) = Some (V4 o).
Proof.
  destruct o as [[[a b] c] d]. intros Ho. pose proof Ho as (Ha & Hb & Hc & Hd).
  destruct (octet_text a Ha) as (Pa & Da & _), (octet_text b Hb) as (Pb & Db & _), (octet_text c Hc) as (Pc & Dc & _), (octet_text d Hd) as (Pd & Dd & _).
  unfold parse_ip, parse_ipv4, ip_text. assert (forall x, "." +:+ x = String dot_char x) as Hdot by done.
  rewrite !Hdot, !split_app, split_no_char by done. rewrite Pa, Pb, Pc, Pd. cbn [mbind option_bind]. by rewrite octets_back.
Qed.

(** *** Groups *)

Lemma groups_quad_true quad gs s : groups_text quad gs s -> groups_text true gs s.
Proof. induction 1; by constructor. Qed.

Lemma ends_groups_hex s : ends_groups s -> ends_hex s /\ ends_dec s.
Proof. by intros [->|[r ->]]. Qed.

Definition sep (first : bool) (s : string) : string := if first then s else ":" +:+ s.

Lemma separated_sep first s : separated first (sep first s) = Some s.
Proof. by destruct first. Qed.

Lemma separated_sound first s s' : separated first s = Some s' -> s = sep first s'.
Proof. destruct first; [by intros [= ->]|]. cbn. apply read_char_sound. Qed.

Lemma read_groups_end limit first s : ends_groups s -> read_groups limit first s = ([], false, s).
Proof.
  intros Hs. destruct limit as [|limit]; [done|]. cbn [read_groups].
  assert (separated first s ≫= read_ipv4_addr = None /\ separated first s ≫= read_group = None) as [H1 H2].
  { destruct Hs as [->|[r ->]], first; split; reflexivity. }
  rewrite H1, H2. by destruct (1 <=? limit).
Qed.

Lemma read_groups_complete quad gs t : groups_text quad gs t -> forall limit first rest, ends_groups rest -> length gs <= limit ->
  exists v4, read_groups limit first (sep first t +:+ rest) = (gs, v4, rest) /\ (quad = false -> v4 = false).
Proof.
  assert (forall first a b, sep first a +:+ b = sep first (a +:+ b)) as Hsep by (by intros []).
  induction 1 as [quad g t Hg|a b c d Ho|quad g t gs s Hg Hgs IH]; intros limit first rest Hr Hl; rewrite Hsep.
  - exists false. split; [|done]. destruct limit as [|limit]; [cbn in Hl; lia|]. cbn [read_groups]. rewrite separated_sep. cbn [mbind option_bind].
    rewrite (read_ipv4_group g) by auto. rewrite (read_group_complete g) by (done || by apply ends_groups_hex).
    rewrite (read_groups_end limit false rest Hr). by destruct (1 <=? limit).
  - exists true. split; [|done]. destruct limit as [|[|limit]]; [cbn in Hl; lia..|]. cbn [read_groups Nat.leb]. rewrite separated_sep. cbn [mbind option_bind].
    by rewrite read_ipv4_complete by (done || by apply ends_groups_hex).
  - destruct limit as [|limit]; [cbn in Hl; lia|]. destruct (IH limit false rest Hr) as (v4 & E & Hv); [cbn in Hl; lia|]. exists v4. split; [|done].
    cbn [read_groups]. rewrite separated_sep. cbn [mbind option_bind]. rewrite app_str_assoc, app_str_assoc.
    rewrite (read_ipv4_group g) by eauto. rewrite (read_group_complete g) by done.
    change (":" +:+ (s +:+ rest)) with (sep false s +:+ rest). rewrite E. by destruct (1 <=? limit).
Qed.

Lemma read_groups_sound limit : forall first s gs v4 rest, read_groups limit first s = (gs, v4, rest) ->
  length gs <= limit /\ ((gs = [] /\ v4 = false /\ s = rest) \/ exists t, groups_text v4 gs t /\ s = sep first t +:+ rest).
Proof.
  induction limit as [|limit IH]; intros first s gs v4 rest; cbn [read_groups]; [intros [= <- <- <-]; auto|].
  destruct (if 1 <=? limit then _ else None) as [[[hi lo] r]|] eqn:E4.
  - intros [= <- <- <-]. destruct (Nat.leb_spec 1 limit); [|done]. destruct (separated first s) as [s'|] eqn:Es; [|done]. cbn in E4.
    apply separated_sound in Es as ->. apply read_ipv4_sound in E4 as (a & b & c & d & Ho & -> & -> & ->). split; [cbn; lia|]. right.
    exists (ip_text (a, b, c, d)). split; [by constructor|]. by destruct first.
  - destruct (separated first s) as [s'|] eqn:Es; [|intros [= <- <- <-]; split; [cbn; lia|auto]]. cbn [mbind option_bind]. apply separated_sound in Es as ->.
    destruct (read_group s') as [[g r]|] eqn:Eg; [|intros [= <- <- <-]; split; [cbn; lia|auto]]. apply read_group_sound in Eg as (t & Hg & ->).
    destruct (read_groups limit false r) as [[gs' v4'] r'] eqn:Er. intros [= <- <- <-]. apply IH in Er as [Hl Hr]. split; [cbn; lia|]. right.
    destruct Hr as [(-> & -> & ->)|(t' & Hgs & ->)].
    + exists t. split; [by constructor|]. by destruct first.
    + exists (t +:+ ":" +:+ t'). split; [by constructor|]. destruct first; cbn [sep]; by rewrite !app_str_assoc.
Qed.

Lemma read_ipv6_exact segs s : read_ipv6_addr s = Some (segs, "") <-> ipv6_text segs s.
Proof.
  unfold read_ipv6_addr. split.
  - destruct (read_groups 8 true s) as [[hd v4] rest] eqn:Eh. apply read_groups_sound in Eh as [Hlh Hh].
    destruct (Nat.eqb_spec (length hd) 8) as [H8|H8].
    { intros [= <- ->]. left. split; [done|]. destruct Hh as [(-> & _)|(t & Ht & ->)]; [done|]. cbn [sep]. rewrite app_str_nil_r. by eapply groups_quad_true. }
    destruct v4; [done|]. destruct (read_char colon_char rest) as [r1|] eqn:E1; [|done]. apply read_char_sound in E1 as ->. cbn [mbind option_bind].
    destruct (read_char colon_char r1) as [r2|] eqn:E2; [|done]. apply read_char_sound in E2 as ->. cbn [mbind option_bind].
    destruct (read_groups (8 - (length hd + 1)) true r2) as [[tl v] r3] eqn:Et. apply read_groups_sound in Et as [Hl Ht]. intros [= <- ->]. right.
    assert (exists sh, some_groups false hd sh /\ s = sh +:+ String colon_char (String colon_char r2)) as (sh & Hsh & ->).
    { destruct Hh as [(-> & _ & ->)|(t & Hh & ->)]; [by exists ""; split; [left|]|]. exists t. split; [by right|done]. }
    assert (some_groups true tl r2) as Hst.
    { destruct Ht as [(-> & _ & ->)|(t & Ht & ->)]; [by left|]. right. cbn [sep]. rewrite app_str_nil_r. by eapply groups_quad_true. }
    exists hd, tl, sh, r2. split; [done|]. split; [done|]. split; [lia|done].
  - intros [[H8 Hg]|(hd & tl & sh & st & Hh & Ht & Hl & -> & ->)].
    + destruct (read_groups_complete true segs s Hg 8 true "") as (v4 & E & _); [by left|lia|]. cbn [sep] in E. rewrite app_str_nil_r in E. rewrite E.
      by rewrite (proj2 (Nat.eqb_eq _ _) H8).
    + assert (read_groups 8 true (sh +:+ "::" +:+ st) = (hd, false, "::" +:+ st)) as ->.
      { destruct Hh as [[-> ->]|Hh]; [apply read_groups_end; right; by eexists|].
        destruct (read_groups_complete false hd sh Hh 8 true ("::" +:+ st)) as (v4 & E & Hv); [right; by eexists|lia|]. cbn [sep] in E. by rewrite E, Hv. }
      destruct (Nat.eqb_spec (length hd) 8); [lia|]. cbn [String.append read_char]. rewrite Ascii.eqb_refl. cbn [mbind option_bind read_char].
      rewrite Ascii.eqb_refl. cbn [mbind option_bind].
      assert (exists v, read_groups (8 - (length hd + 1)) true st = (tl, v, "")) as [v ->].
      { destruct Ht as [[-> ->]|Ht]; [exists false; apply read_groups_end; by left|].
        destruct (read_groups_complete true tl st Ht (8 - (length hd + 1)) true "") as (v & E & _); [by left|lia|]. cbn [sep] in E. rewrite app_str_nil_r in E. by exists v. }
      done.
Qed.

Lemma ipv6_colon segs s : ipv6_text segs s -> no_char colon_char s = false.
Proof.
  intros [[H8 Hg]|(hd & tl & sh & st & _ & _ & _ & _ & ->)].
  - destruct Hg as [| |quad g t gs s Hg Hgs]; [done..|]. rewrite !no_char_app. by destruct (no_char colon_char t).
  - rewrite !no_char_app. by destruct (no_char colon_char sh).
Qed.

(** An address is read as what it is the text of, and nothing else is read. *)
Lemma parse_ip_exact s :
  (forall o, parse_ip s = Some (V4 o) <-> in_range o /\ s = ip_text o) /\
  (forall segs, parse_ip s = Some (V6 segs) <-> ipv6_text segs s).
Proof.
  split.
  - intros o. split; [|intros [Ho ->]; by apply ip_text_parse]. unfold parse_ip. destruct (parse_ipv4 s) as [v|] eqn:E.
    + apply parse_ipv4_sound in E as (o' & Ho & -> & Hv). rewrite Hv. by intros [= ->].
    + destruct (read_ipv6_addr s) as [[segs rest]|]; [|done]. cbn [mbind option_bind]. by case_bool_decide.
  - intros segs. rewrite <- read_ipv6_exact. unfold parse_ip. destruct (parse_ipv4 s) as [v|] eqn:E.
    + apply parse_ipv4_sound in E as (o & Ho & -> & _). split; [done|]. intros H%read_ipv6_exact%ipv6_colon. by rewrite ip_text_free in H.
    + destruct (read_ipv6_addr s) as [[segs' rest]|]; [|done]. cbn [mbind option_bind]. case_bool_decide; naive_solver.
Qed.

(** *** In-cluster addresses *)

(** Loopback, a private range or link-local, by their numbers: 127/8, 10/8,
    172.16/12, 192.168/16, 169.254/16. *)
Definition local_v4 (o : N * N * N * N) : Prop :=
  let '(a, b, _, _) := o in
  (a = 127 \/ a = 10 \/ (a = 172 /\ 16 <= b < 32) \/ (a = 192 /\ b = 168) \/ (a = 169 /\ b = 254))%N.

(** ::1, fc00::/7 and fe80::/10. *)
Definition local_v6 (segments : list N) : Prop :=
  segments = [0; 0; 0; 0; 0; 0; 0; 1]%N \/
  exists g rest, segments = g :: rest /\ (64512 <= g < 65024 \/ 65152 <= g < 65216)%N.

Lemma local_v4_exact o : in_range o -> is_loopback o || is_private o || is_link_local o = true <-> local_v4 o.
Proof.
  destruct o as [[[a b] c] d]. intros _. unfold is_loopback, is_private, is_link_local, local_v4.
  rewrite !orb_true_iff, !andb_true_iff, !N.eqb_eq, !N.leb_le. lia.
Qed.

Lemma group_bound g t : group_text g t -> (g < 65536)%N.
Proof.
  assert (forall a d, hex_digit a = Some d -> (d < 16)%N) as Hd.
  { intros a d. unfold hex_digit. destruct (N.leb_spec 48 (Ascii.N_of_ascii a)), (N.leb_spec (Ascii.N_of_ascii a) 57),
      (N.leb_spec 97 (Ascii.N_of_ascii a)), (N.leb_spec (Ascii.N_of_ascii a) 102), (N.leb_spec 65 (Ascii.N_of_ascii a)), (N.leb_spec (Ascii.N_of_ascii a) 70);
      intros [= <-]; lia. }
  assert (forall t acc v k, hex_value t acc = Some v -> (acc < k)%N -> (v < k * 16 ^ N.of_nat (String.length t))%N) as Hv.
  { intros t'. induction t' as [|a t' IH]; intros acc v k; cbn [hex_value String.length]; [intros [= <-]; lia|].
    destruct (hex_digit a) as [d|] eqn:E; [|done]. cbn [mbind option_bind]. intros H Ha. specialize (Hd a d E).
    apply (IH _ _ (k * 16)%N) in H; [|lia]. rewrite Nat2N.inj_succ, N.pow_succ_r'. lia. }
  intros [[_ Hl] H]. apply (Hv _ _ _ 1%N) in H; [|lia].
  assert (16 ^ N.of_nat (String.length t) <= 16 ^ 4)%N as Hp by (apply N.pow_le_mono_r; lia). change (16 ^ 4)%N with 65536%N in Hp. lia.
Qed.

Lemma groups_bound quad gs s : groups_text quad gs s -> Forall (fun g => (g < 65536)%N) gs.
Proof.
  induction 1 as [quad g t Hg%group_bound|a b c d (? & ? & ? & ?)|quad g t gs s Hg%group_bound _ IH]; repeat constructor; try done; lia.
Qed.

Lemma ipv6_bound segs s : ipv6_text segs s -> Forall (fun g => (g < 65536)%N) segs.
Proof.
  intros [[_ Hg%groups_bound]|(hd & tl & sh & st & Hh & Ht & _ & -> & _)]; [done|]. rewrite !Forall_app. split; [|split].
  - destruct Hh as [[-> _]|Hh%groups_bound]; [constructor|done].
  - apply Forall_replicate. lia.
  - destruct Ht as [[-> _]|Ht%groups_bound]; [constructor|done].
Qed.

(** A mask of the high bits sees the high bits only. *)
Lemma land_high g m : N.land g (m * 64) = (N.land (g / 64) m * 64)%N.
Proof.
  change 64%N with (2 ^ 6)%N. rewrite <- N.shiftr_div_pow2, <- !N.shiftl_mul_pow2. apply N.bits_inj. intros n. rewrite N.land_spec.
  destruct (N.ltb_spec n 6) as [H|H].
  - by rewrite !N.shiftl_spec_low, andb_false_r.
  - rewrite !N.shiftl_spec_high', N.land_spec, N.shiftr_spec' by done. by rewrite N.sub_add.
Qed.

Lemma local_v6_exact segs s : ipv6_text segs s -> v6_in_cluster segs = true <-> local_v6 segs.
Proof.
  intros Hs%ipv6_bound. unfold v6_in_cluster, local_v6. rewrite orb_true_iff, bool_decide_eq_true. apply Morphisms_Prop.or_iff_morphism; [done|].
  destruct segs as [|g rest]; [split; [done|by intros (? & ? & ? & _)]|]. apply Forall_cons in Hs as [Hg _]. cbv beta in Hg.
  assert (forallb (fun q => Bool.eqb ((N.land q 1016 =? 1008)%N || (N.land q 1023 =? 1018)%N)
    (((1008 <=? q) && (q <? 1016) || (1018 <=? q) && (q <? 1019))%N)) (N.of_nat <$> seq 0 1024) = true) as H by (vm_compute; reflexivity).
  rewrite forallb_forall in H. pose proof (N.div_mod g 64 ltac:(done)) as Hq. pose proof (N.mod_lt g 64 ltac:(done)) as Hr. specialize (H (g / 64)%N).
  rewrite eqb_true_iff in H. pose proof (land_high g 1016) as L1. pose proof (land_high g 1023) as L2. 
  change (1016 * 64)%N with 65024%N in L1. change (1023 * 64)%N with 65472%N in L2. rewrite L1, L2.
  assert (In (g / 64)%N (N.of_nat <$> seq 0 1024)) as Hin.
  { apply list_elem_of_In, list_elem_of_fmap. exists (N.to_nat (g / 64)). rewrite N2Nat.id. split; [done|]. apply elem_of_seq.
    clear H L1 L2. revert Hq Hr. generalize (g / 64)%N (g mod 64)%N. intros q r Hq Hr. split; [lia|]. change (0 + 1024) with (N.to_nat 1024). lia. }
  specialize (H Hin). apply (f_equal (fun b => b = true)) in H. cbv beta in H.
  rewrite orb_true_iff, !N.eqb_eq. assert (((N.land (g / 64) 1016 = 1008 \/ N.land (g / 64) 1023 = 1018)%N) <->
    (1008 <= g / 64 < 1016 \/ 1018 <= g / 64 < 1019)%N) as Hb.
  { rewrite <- !N.eqb_eq, <- orb_true_iff. rewrite H, orb_true_iff, !andb_true_iff, !N.leb_le, !N.ltb_lt. done. }
  assert ((N.land (g / 64) 1016 * 64 = 64512 \/ N.land (g / 64) 1023 * 64 = 65152)%N <-> (64512 <= g < 65024 \/ 65152 <= g < 65216)%N) as Hg64.
  { clear H L1 L2 Hin. revert Hb Hq Hr. generalize (N.land (g / 64) 1016) (N.land (g / 64) 1023) (g / 64)%N (g mod 64)%N. intros x y q r Hb Hq Hr. lia. }
  rewrite Hg64. split; [intros Hm; by exists g, rest|]. by intros (? & ? & [= -> ->] & Hm).
Qed.

(** C33: The endpoint gate, exactly, for every endpoint in URL form: whatever the
    scheme, user, brackets, dots at the end, port and path, the host passes when
    it is the text of an IPv4 address that is loopback, private or link-local,
    or the text of an IPv6 address that is loopback, unique local or link-local,
    or is no address at all and is localhost, one label, or under a cluster
    suffix; and never otherwise. The opt-in lets everything pass. *)
Theorem endpoint_gate_exact u : url_wf u ->
  let host := to_ascii_lowercase (ur_host u) in
  (validate_in_cluster_endpoint (render_url u) false = inr tt <->
    (exists o, in_range o /\ host = ip_text o /\ local_v4 o) \/
    (exists segments, ipv6_text segments host /\ local_v6 segments) \/
    ((forall o, in_range o -> host <> ip_text o) /\ (forall segments, ~ ipv6_text segments host) /\
     (host = "localhost" \/ no_char dot_char host = true \/
      exists suffix name, suffix ∈ [".svc"; ".svc.cluster.local"; ".cluster.local"] /\ host = name +:+ suffix))) /\
  validate_in_cluster_endpoint (render_url u) true = inr tt.
Proof.
  intros Hu host. split; [|done]. transitivity (host_is_in_cluster host = true).
  { unfold validate_in_cluster_endpoint. rewrite (endpoint_host_render u Hu). fold host. by destruct (host_is_in_cluster _). }
  destruct (parse_ip_exact host) as [H4 H6]. unfold host_is_in_cluster. destruct (parse_ip host) as [[o|segs]|] eqn:E.
  - destruct (proj1 (H4 o) eq_refl) as [Ho Eh]. rewrite (local_v4_exact o Ho). split; [intros Hl; left; by exists o|].
    intros [(o' & Ho' & Eh' & Hl)|[(segs & Hs & _)|(Hn & _)]].
    + assert (V4 o = V4 o') as [= ->]; [|done]. pose proof (ip_text_parse o' Ho') as Hp. rewrite <- Eh', E in Hp. by injection Hp as ->.
    + apply H6 in Hs. discriminate Hs.
    + by destruct (Hn o Ho).
  - pose proof (proj1 (H6 segs) eq_refl) as Hs. rewrite (local_v6_exact segs host Hs). split; [intros Hl; right; left; by exists segs|].
    intros [(o & Ho & Eh & _)|[(segs' & Hs' & Hl)|(_ & Hn & _)]].
    + assert (Some (V6 segs) = Some (V4 o)) as [=] by (by apply H4).
    + apply H6 in Hs'. by injection Hs' as ->.
    + by destruct (Hn segs).
  - rewrite !orb_true_iff, bool_decide_eq_true, existsb_elem. split.
    + intros Hname. right; right. split; [intros o Ho Eh; assert (None = Some (V4 o)) as [=] by (by apply H4)|].
      split; [intros segs Hs; assert (None = Some (V6 segs)) as [=] by (by apply H6)|].
      destruct Hname as [[->|Hdot]|(s & Hs & H)]; [by left|by right; left|right; right].
      destruct (strip_suffix s host) as [r|] eqn:Er; [|done]. exists s, r. split; [done|]. by apply strip_suffix_app.
    + intros [(o & Ho & Eh & _)|[(segs & Hs & _)|(_ & _ & Hname)]].
      * assert (None = Some (V4 o)) as [=] by (by apply H4).
      * assert (None = Some (V6 segs)) as [=] by (by apply H6).
      * destruct Hname as [->|[Hdot|(s & r & Hs & Er)]]; [by left; left|by left; right|right]. exists s. split; [done|].
        apply strip_suffix_app in Er. by rewrite Er.
Qed.

(** ** What is read of an answer *)

Lemma bounded_from chunks : forall buf b, (N.of_nat (String.length buf) <= MAX_RESPONSE_BYTES)%N ->
  bounded_body buf chunks = Some b <-> exists cs, chunks = Some <$> cs /\ b = buf +:+ String.concat "" cs /\ (N.of_nat (String.length b) <= MAX_RESPONSE_BYTES)%N.
Proof.
  induction chunks as [|[c|] chunks IH]; intros buf b Hb; cbn [bounded_body].
  - split; [intros [= <-]; exists []; cbn [fmap list_fmap String.concat]; by rewrite app_str_nil_r|]. intros ([|? cs] & Hc & -> & _); [|done]. cbn. by rewrite app_str_nil_r.
  - assert (forall cs, buf +:+ String.concat "" (c :: cs) = (buf +:+ c) +:+ String.concat "" cs) as Hcat.
    { intros [|x cs]; [cbn; by rewrite !app_str_nil_r|]. change (String.concat "" (c :: x :: cs)) with (c +:+ "" +:+ String.concat "" (x :: cs)). by rewrite !app_str_assoc. }
    rewrite <- str_length_app. destruct (N.ltb_spec MAX_RESPONSE_BYTES (N.of_nat (String.length (buf +:+ c)))) as [Hl|Hl].
    + split; [done|]. intros ([|x cs] & Hc & -> & Hlen); [done|]. injection Hc as <- _. rewrite Hcat, str_length_app in Hlen. lia.
    + rewrite IH by done. split; intros (cs & Hc & -> & Hlen).
      * exists (c :: cs). rewrite Hc, Hcat. done.
      * destruct cs as [|x cs]; [done|]. injection Hc as <- Hc. exists cs. by rewrite <- Hcat.
  - split; [done|]. intros ([|? cs] & Hc & _); done.
Qed.

(** What is read of an answer: the text of the first choice, of a success whose body
    arrived whole and within the cap, and nothing of any other. *)
Theorem chat_exact from_slice response text : chat from_slice response = Some text <->
  exists status chunks json, response = Some (mkChatResponse status (Some <$> chunks)) /\ (200 <= status < 300)%N /\
    (N.of_nat (String.length (String.concat "" chunks)) <= MAX_RESPONSE_BYTES)%N /\ from_slice (String.concat "" chunks) = Some json /\ completion json = Some text.
Proof.
  unfold chat. destruct response as [[status chunks]|]; cbn [mbind option_bind]; [|split; [done|by intros (? & ? & ? & ? & _)]].
  unfold is_success. cbn [rs_status rs_chunks].
  assert ((200 <=? status)%N && (status <? 300)%N = true <-> (200 <= status < 300)%N) as Hs by (rewrite andb_true_iff, N.leb_le, N.ltb_lt; done).
  destruct ((200 <=? status)%N && (status <? 300)%N); cbn [negb].
  - split.
    + destruct (bounded_body "" chunks) as [b|] eqn:Eb; [|done]. apply bounded_from in Eb as (cs & -> & -> & Hl); [|cbn [String.length]; lia]. cbn [mbind option_bind].
      change ("" +:+ ?x) with x in *. destruct (from_slice (String.concat "" cs)) as [j|] eqn:Ej; [|done]. cbn [mbind option_bind]. intros Hc. exists status, cs, j. naive_solver.
    + intros (st & cs & j & [= -> ->] & _ & Hl & Ej & Hc). assert (bounded_body "" (Some <$> cs) = Some (String.concat "" cs)) as ->.
      { apply bounded_from; [cbn [String.length]; lia|]. by exists cs. }
      cbn [mbind option_bind]. rewrite Ej. done.
  - split; [done|]. intros (st & cs & j & [= -> ->] & Hst & _). by apply Hs in Hst.
Qed.

(** ** What passes for a host *)

(** A number without dots is an address by the URL standard (134744072 is 8.8.8.8),
    which also ends a host at a backslash and takes one slash for two; the gate
    reads another host in each, and each passes. *)
Theorem outside_passes_gate :
  validate_in_cluster_endpoint "http://134744072/v1" false = inr tt /\
  endpoint_host "http://evil.com\@ollama.svc/v1" = Some "ollama.svc" /\ validate_in_cluster_endpoint "http://evil.com\@ollama.svc/v1" false = inr tt /\
  endpoint_host "http:/evil.com/x://ollama.svc/" = Some "ollama.svc" /\ validate_in_cluster_endpoint "http:/evil.com/x://ollama.svc/" false = inr tt /\
  validate_in_cluster_endpoint "http://8.8.8.8/v1" false = inl (NotInCluster "8.8.8.8") /\
  validate_in_cluster_endpoint "http://evil.com/v1" false = inl (NotInCluster "evil.com").
Proof. vm_compute. repeat split. Qed.

(** An address of the pods' own range, in brackets and with a dot too many. *)
Definition ula_url : Url := mkUrl (Some "http") (Some "user:p@ss") true "fd00::10.0.0.1" 1 (Some "11434") "/v1/chat".

Lemma ula_url_wf : url_wf ula_url.
Proof.
  assert (forall cs s, forallb (fun c => no_char c s) cs = true -> free_of cs s) as Hf
    by (intros cs s H c Hc; rewrite forallb_forall in H; by apply H, list_elem_of_In).
  split; cbn [ula_url ur_scheme ur_userinfo ur_host ur_port ur_tail ur_bracketed]; [reflexivity|intros i [= <-]; by apply Hf|by apply Hf|done|reflexivity|
    intros p [= <-]; by apply Hf|]. right. exists slash_char, "v1/chat". split; [reflexivity|left].
Qed.

Lemma endpoint_gate_exact_witness :
  validate_in_cluster_endpoint "http://user:p@ss@[fd00::10.0.0.1.]:11434/v1/chat" false = inr tt /\
  validate_in_cluster_endpoint "http://user:p@ss@[fd00::10.0.0.1.]:11434/v1/chat" true = inr tt.
Proof.
  destruct (endpoint_gate_exact ula_url ula_url_wf) as [H Hopt]. split; [|exact Hopt]. apply H. right. left.
  exists [64768; 0; 0; 0; 0; 0; 2560; 1]%N. split.
  - right. exists [64768%N], [2560; 1]%N, "fd00", "10.0.0.1". split; [right; constructor; split; [vm_compute; lia|reflexivity]|].
    split; [right; exact (groups_quad 10 0 0 1 ltac:(repeat split; lia))|]. split; [cbn; lia|]. split; reflexivity.
  - right. exists 64768%N, [0; 0; 0; 0; 0; 2560; 1]%N. split; [reflexivity|lia].
Defined.
