(* ===== verification/AgentFacts.v ===== *)
(** * The node agent, proved

    What the kernel programs put in the ring is read back as it was written and
    attributed to its pod; a repeat is held back only after a first; what the
    loop receives reaches the engine, at most once a window and never cut; and
    where a signal is lost or put to another pod. *)

From S2P Require Import Prelude Text Posture Behavior Classify Enrich Evidence Ingest IngestFacts Journal Agent.

#[local] Arguments String.append : simpl nomatch.

(** ** Bytes *)

Lemma le_length n v : String.length (le_bytes n v) = n.
Proof. revert v. induction n; intros v; simpl; [done|]. by rewrite IHn. Qed.

Lemma le_read n v : (v < 256 ^ N.of_nat n)%N -> le_value (le_bytes n v) = v.
Proof.
  revert v. induction n as [|n IH]; intros v Hv; cbn [le_bytes le_value].
  - change (256 ^ N.of_nat 0)%N with 1%N in Hv. lia.
  - rewrite Nat2N.inj_succ, N.pow_succ_r' in Hv. rewrite Ascii.N_ascii_embedding by (apply N.mod_lt; lia).
    rewrite IH by (apply N.Div0.div_lt_upper_bound; lia). pose proof (N.div_mod v 256). lia.
Qed.

Lemma sub_skip a n len s : String.length a = n -> sub_bytes n len (a +:+ s) = sub_bytes 0 len s.
Proof. intros <-. unfold sub_bytes. induction a as [|c a IH]; simpl; [done|]. exact IH. Qed.

Lemma sub_take a s : sub_bytes 0 (String.length a) (a +:+ s) = a.
Proof. unfold sub_bytes. induction a as [|c a IH]; simpl; [by destruct s|]. by rewrite IH. Qed.

(** The bytes of a piece, wherever it stands. *)
Lemma sub_at pre a post off len : String.length pre = off -> String.length a = len -> sub_bytes off len (pre +:+ a +:+ post) = a.
Proof. intros Hp <-. by rewrite sub_skip, sub_take. Qed.

Lemma field_at pre n v post off : String.length pre = off -> (v < 256 ^ N.of_nat n)%N -> field off n (pre +:+ le_bytes n v +:+ post) = v.
Proof. intros Hp Hv. unfold field. rewrite (sub_at pre (le_bytes n v) post off n) by (done || apply le_length). by apply le_read. Qed.

Lemma zeros_length n : String.length (zeros n) = n.
Proof. induction n; simpl; congruence. Qed.

(** ** The layouts *)

Definition fits_header (h : EventHeader) : Prop := (eh_kind h < 2 ^ 32 /\ eh_pid h < 2 ^ 32 /\ eh_cgroup_id h < 2 ^ 64)%N.

Lemma header_length h : String.length (header_bytes h) = HEADER_SIZE.
Proof. unfold header_bytes. by rewrite !str_length_app, !le_length. Qed.

Lemma header_read h rest : fits_header h ->
  field 0 4 (header_bytes h +:+ rest) = eh_kind h /\ field 4 4 (header_bytes h +:+ rest) = eh_pid h /\
  field 8 8 (header_bytes h +:+ rest) = eh_cgroup_id h.
Proof.
  intros (Hk & Hp & Hc). unfold header_bytes. rewrite !app_str_assoc. split; [|split].
  - by apply (field_at "").
  - by apply (field_at (le_bytes 4 (eh_kind h))).
  - rewrite <- (app_str_assoc (le_bytes 4 _)). apply field_at; [|done]. by rewrite str_length_app, !le_length.
Qed.

Lemma decode_conn e : fits_header (cn_header e) -> eh_kind (cn_header e) = KIND_CONNECT -> (cn_daddr e < 2 ^ 32)%N -> (cn_dport e < 2 ^ 16)%N ->
  decode (conn_bytes e) = Some (RConnect (mkAttr (eh_pid (cn_header e)) (eh_cgroup_id (cn_header e))) (cn_daddr e) (cn_dport e)).
Proof.
  intros Hh Hk Hd Hp. unfold decode, conn_bytes.
  assert (String.length (header_bytes (cn_header e) +:+ le_bytes 4 (cn_daddr e) +:+ le_bytes 2 (cn_dport e) +:+ zeros 2) = CONN_SIZE) as ->
    by (by rewrite !str_length_app, header_length, !le_length, zeros_length).
  destruct (header_read (cn_header e) (le_bytes 4 (cn_daddr e) +:+ le_bytes 2 (cn_dport e) +:+ zeros 2) Hh) as (-> & -> & ->).
  rewrite Hk. cbn -[field header_bytes le_bytes zeros].
  rewrite (field_at (header_bytes (cn_header e)) 4) by (done || apply header_length).
  rewrite <- (app_str_assoc (header_bytes _)). rewrite (field_at _ 2); [done|by rewrite str_length_app, header_length, le_length|done].
Qed.

(** The part the four file events share: header, length and path. *)
Lemma path_read h len path tail : String.length path = PATH_CAP -> (len < 2 ^ 32)%N ->
  let data := header_bytes h +:+ le_bytes 4 len +:+ path +:+ tail in
  field 16 4 data = len /\ sub_bytes 20 PATH_CAP data = path /\ String.length data = 276 + String.length tail.
Proof.
  intros Hp Hl data. subst data. split; [|split].
  - apply field_at; [apply header_length|done].
  - rewrite <- (app_str_assoc (header_bytes h)). apply sub_at; [by rewrite str_length_app, header_length, le_length|done].
  - rewrite !str_length_app, header_length, le_length, Hp. done.
Qed.

Lemma decode_file e : fits_header (fl_header e) -> String.length (fl_path e) = PATH_CAP -> (fl_len e < 2 ^ 32)%N ->
  let attr := mkAttr (eh_pid (fl_header e)) (eh_cgroup_id (fl_header e)) in
  let path := event_path (fl_len e) (fl_path e) in
  (eh_kind (fl_header e) = KIND_FILE_OPEN -> decode (file_bytes e) = nonempty_path path (RFileRead attr)) /\
  (eh_kind (fl_header e) = KIND_LIBRARY_LOAD -> decode (file_bytes e) = nonempty_path (last_segment slash path) (RLibraryLoad attr)) /\
  (eh_kind (fl_header e) = KIND_FILE_WRITE -> decode (file_bytes e) = nonempty_path path (RFileWrite attr)).
Proof.
  intros Hh Hp Hl attr path. unfold decode, file_bytes.
  destruct (path_read (fl_header e) (fl_len e) (fl_path e) (zeros 4) Hp Hl) as (E1 & E2 & E3).
  destruct (header_read (fl_header e) (le_bytes 4 (fl_len e) +:+ fl_path e +:+ zeros 4) Hh) as (-> & -> & ->).
  rewrite E1, E2, E3. rewrite zeros_length. fold attr path. split; [|split]; intros ->; reflexivity.
Qed.

Lemma decode_exec e : fits_header (ex_header e) -> eh_kind (ex_header e) = KIND_EXEC ->
  String.length (ex_path e) = PATH_CAP -> (ex_len e < 2 ^ 32)%N -> (ex_exe_anon_inode e < 2 ^ 8)%N ->
  decode (exec_bytes e) = nonempty_path (event_path (ex_len e) (ex_path e))
    (fun p => RExec (mkAttr (eh_pid (ex_header e)) (eh_cgroup_id (ex_header e))) p (negb (ex_exe_anon_inode e =? 0)%N)).
Proof.
  intros Hh Hk Hp Hl Ha. unfold decode, exec_bytes. set (tail := le_bytes 1 (ex_exe_anon_inode e) +:+ zeros 3).
  destruct (path_read (ex_header e) (ex_len e) (ex_path e) tail Hp Hl) as (E1 & E2 & E3).
  destruct (header_read (ex_header e) (le_bytes 4 (ex_len e) +:+ ex_path e +:+ tail) Hh) as (-> & -> & ->).
  rewrite E1, E2, E3, Hk.
  assert (field 276 1 (header_bytes (ex_header e) +:+ le_bytes 4 (ex_len e) +:+ ex_path e +:+ tail) = ex_exe_anon_inode e) as ->.
  { rewrite <- (app_str_assoc (le_bytes 4 _)), <- (app_str_assoc (header_bytes _)). apply (field_at _ 1); [|done].
    by rewrite !str_length_app, header_length, le_length, Hp. }
  reflexivity.
Qed.

Lemma decode_priv e : fits_header (pv_header e) -> eh_kind (pv_header e) = KIND_PRIV_CHANGE -> (pv_old_uid e < 2 ^ 32)%N -> (pv_new_uid e < 2 ^ 32)%N ->
  decode (priv_bytes e) = Some (RPrivChange (mkAttr (eh_pid (pv_header e)) (eh_cgroup_id (pv_header e))) (pv_old_uid e) (pv_new_uid e)).
Proof.
  intros Hh Hk Ho Hn. unfold decode, priv_bytes.
  assert (String.length (header_bytes (pv_header e) +:+ le_bytes 4 (pv_old_uid e) +:+ le_bytes 4 (pv_new_uid e)) = PRIV_SIZE) as ->
    by (by rewrite !str_length_app, header_length, !le_length).
  destruct (header_read (pv_header e) (le_bytes 4 (pv_old_uid e) +:+ le_bytes 4 (pv_new_uid e)) Hh) as (-> & -> & ->).
  rewrite Hk. cbn -[field header_bytes le_bytes].
  rewrite (field_at (header_bytes (pv_header e)) 4) by (done || apply header_length).
  assert (field 20 4 (header_bytes (pv_header e) +:+ le_bytes 4 (pv_old_uid e) +:+ le_bytes 4 (pv_new_uid e)) = pv_new_uid e) as ->; [|done].
  rewrite <- (app_str_assoc (header_bytes _)). unfold field.
  rewrite sub_skip by (by rewrite str_length_app, header_length, le_length).
  assert (sub_bytes 0 4 (le_bytes 4 (pv_new_uid e)) = le_bytes 4 (pv_new_uid e)) as -> by (by vm_compute). by apply le_read.
Qed.

Lemma decode_fact h : fits_header h ->
  let attr := mkAttr (eh_pid h) (eh_cgroup_id h) in
  (eh_kind h = KIND_PTRACE_ATTACH -> decode (header_bytes h) = Some (RPtraceAttach attr)) /\
  (eh_kind h = KIND_MODULE_LOAD -> decode (header_bytes h) = Some (RModuleLoad attr)).
Proof.
  intros Hh attr. unfold decode. rewrite header_length.
  assert (header_bytes h = header_bytes h +:+ "") as E by (unfold header_bytes; by rewrite !app_str_assoc).
  rewrite E. destruct (header_read h "" Hh) as (-> & -> & ->). split; intros ->; reflexivity.
Qed.

(** ** What a hook puts in the ring *)

Section Hooks.
Context `{L : !LruInsert}.

(** The attribution of an event is its task's. *)
Definition task_attr (t : Task) : EventAttr := mkAttr (tk_pid t) (tk_cgroup t).

Definition fits_task (t : Task) : Prop := (tk_pid t < 2 ^ 32 /\ tk_cgroup t < 2 ^ 64)%N.

(** A string read gives as much of its buffer as it was asked for. *)
Definition reads (read : nat -> Z * string) (n : Z) (buf : string) : Prop := read PATH_CAP = (n, buf) /\ String.length buf = PATH_CAP.

(** What the kernel lets be observed at a hook. *)
Inductive senses (t : Task) : Hook -> RawEvent -> Prop :=
  | s_connect daddr port_be : senses t (HSocketConnect (Some AF_INET) daddr port_be) (RConnect (task_attr t) daddr (swap_u16 port_be))
  | s_read f n buf len path :
      is_tmpfs f = true \/ is_sensitive_credential_basename f = true ->
      reads (kf_d_path f) n buf -> read_len n = Some len -> path = event_path len buf -> path <> "" ->
      senses t (HFileOpen (Some f)) (RFileRead (task_attr t) path)
  | s_write f flags n buf len path :
      kf_flags f = Some flags -> is_write_open flags = true ->
      reads (kf_d_path f) n buf -> read_len n = Some len -> path = event_path len buf -> path <> "" ->
      senses t (HFileOpen (Some f)) (RFileWrite (task_attr t) path)
  | s_library f prot read n buf len name :
      N.land prot PROT_EXEC <> 0%N -> kf_name f = Some read -> reads read n buf -> read_len n = Some len ->
      name = last_segment slash (event_path len buf) -> name <> "" ->
      senses t (HMmapFile (Some f) prot) (RLibraryLoad (task_attr t) name)
  | s_priv old : old <> 0%N -> senses t (HTaskFixSetuid (Some 0%N) (Some old)) (RPrivChange (task_attr t) old 0)
  | s_exec b read n buf len path :
      kb_filename b = Some read -> reads read n buf -> read_len n = Some len -> path = event_path len buf -> path <> "" ->
      senses t (HBprmCheck (Some b)) (RExec (task_attr t) path (exe_is_anon_inode b))
  | s_ptrace mode : N.land mode PTRACE_MODE_ATTACH <> 0%N -> senses t (HPtraceAccessCheck mode) (RPtraceAttach (task_attr t))
  | s_module : senses t (HKernelLoadData LOADING_MODULE) (RModuleLoad (task_attr t)).

(** The reads of a hook fill their buffers and give values of their width. *)
Definition file_fits (f : KFile) : Prop :=
  String.length (kf_d_path f PATH_CAP).2 = PATH_CAP /\ (forall read, kf_name f = Some read -> String.length (read PATH_CAP).2 = PATH_CAP).

Definition hook_fits (h : Hook) : Prop :=
  match h with
  | HSocketConnect _ daddr port_be => (daddr < 2 ^ 32 /\ port_be < 2 ^ 16)%N
  | HFileOpen (Some f) | HMmapFile (Some f) _ => file_fits f
  | HTaskFixSetuid (Some new) (Some old) => (new < 2 ^ 32 /\ old < 2 ^ 32)%N
  | HBprmCheck (Some b) => forall read, kb_filename b = Some read -> String.length (read PATH_CAP).2 = PATH_CAP
  | _ => True
  end.

(** What a gate holds back: a repeat of a key within the window. *)
Definition held (t : Task) (h : Hook) (raw : RawEvent) (s : KState) : Prop :=
  match h, raw with
  | HSocketConnect _ _ _, RConnect _ daddr dport => (allow (tk_pid t, daddr, dport) (tk_now t) (k_conn_seen s)).1 = false
  | HFileOpen (Some f), RFileRead _ _ =>
      is_tmpfs f = false /\ exists ino, inode_ino f = Some ino /\ (allow (tk_pid t, ino) (tk_now t) (k_credential_read_seen s)).1 = false
  | HFileOpen (Some f), RFileWrite _ _ => exists ino, inode_ino f = Some ino /\ (allow (tk_pid t, ino) (tk_now t) (k_write_seen s)).1 = false
  | HPtraceAccessCheck _, RPtraceAttach _ => (allow (tk_pid t) (tk_now t) (k_ptrace_seen s)).1 = false
  | _, _ => False
  end.

(** From [s] to [s'] the ring gains events that read back as [P], none without room. *)
Definition adds (t : Task) (s s' : KState) (P : RawEvent -> Prop) : Prop :=
  exists evs, k_events s' = k_events s ++ evs /\ (tk_room t = false -> evs = []) /\
    (tk_room t = true -> forall raw, raw ∈ omap decode evs <-> P raw).

Lemma adds_same t s s' : k_events s' = k_events s -> adds t s s' (fun _ => False).
Proof. intros E. exists []. rewrite app_nil_r. split; [done|]. split; [done|]. intros _ raw. split; [by intros ?%not_elem_of_nil|done]. Qed.

Lemma adds_put t b s : adds t s (put t b s) (fun raw => decode b = Some raw).
Proof.
  unfold put. destruct (tk_room t) eqn:E.
  - exists [b]. split; [done|]. split; [by rewrite E|]. intros _ raw. cbn [omap list_omap]. destruct (decode b); [|split; [by intros ?%not_elem_of_nil|done]].
    rewrite list_elem_of_singleton. naive_solver.
  - exists []. cbn [k_events]. rewrite app_nil_r. split; [done|]. split; [done|]. by rewrite E.
Qed.

Lemma adds_trans t s1 s2 s3 P Q : adds t s1 s2 P -> adds t s2 s3 Q -> adds t s1 s3 (fun raw => P raw \/ Q raw).
Proof.
  intros (e1 & H1 & N1 & D1) (e2 & H2 & N2 & D2). exists (e1 ++ e2). rewrite H2, H1, app_assoc. split; [done|]. split.
  - intros Hr. by rewrite N1, N2.
  - intros Hr raw. rewrite omap_app, elem_of_app, D1, D2 by done. done.
Qed.

Lemma adds_iff t s s' P Q : adds t s s' P -> (forall raw, P raw <-> Q raw) -> adds t s s' Q.
Proof. intros (e & H & N & D) HPQ. exists e. split; [done|]. split; [done|]. intros Hr raw. by rewrite D. Qed.

(** A gated emission: the maps and counts change in between. *)
Lemma adds_via t s s1 s' P : k_events s1 = k_events s -> adds t s1 s' P -> adds t s s' P.
Proof. intros E (e & H & N & D). exists e. by rewrite <- E. Qed.

Lemma nonempty_some p make raw : nonempty_path p make = Some raw <-> p <> "" /\ raw = make p.
Proof. unfold nonempty_path. case_bool_decide; naive_solver. Qed.

Lemma read_len_fits n len : read_len n = Some len -> (len < 2 ^ 32)%N.
Proof.
  unfold read_len. change (Z.of_nat PATH_CAP) with 256%Z. destruct (Z.leb_spec n 0); [done|].
  destruct (Z.ltb_spec n 256); intros [= <-]; [|done]. change (2 ^ 32)%N with 4294967296%N. lia.
Qed.

Lemma file_path_adds f kind t s make :
  fits_task t -> String.length (kf_d_path f PATH_CAP).2 = PATH_CAP ->
  (kind = KIND_FILE_OPEN /\ make = RFileRead (task_attr t) \/ kind = KIND_FILE_WRITE /\ make = RFileWrite (task_attr t)) ->
  adds t s (emit_file_path f kind t s)
    (fun raw => exists n buf len path, reads (kf_d_path f) n buf /\ read_len n = Some len /\ path = event_path len buf /\ path <> "" /\ raw = make path).
Proof.
  intros [Hp Hc] Hb Hk. unfold emit_file_path. destruct (kf_d_path f PATH_CAP) as [n buf] eqn:E. cbn [snd] in Hb.
  destruct (read_len n) as [len|] eqn:El.
  - eapply adds_iff; [apply adds_put|]. intros raw. pose proof (read_len_fits _ _ El) as Hl.
    destruct (decode_file (mkFile (make_header kind t) len buf)) as (D1 & _ & D2); [by destruct Hk as [[-> _]|[-> _]]|done|done|].
    cbn [fl_header fl_len fl_path make_header eh_kind eh_pid eh_cgroup_id] in D1, D2.
    assert (decode (file_bytes (mkFile (make_header kind t) len buf)) = nonempty_path (event_path len buf) make) as ->
      by (destruct Hk as [[-> ->]|[-> ->]]; [by apply D1|by apply D2]).
    rewrite nonempty_some. unfold reads. rewrite E. split.
    + intros [Hn ->]. by exists n, buf, len, (event_path len buf).
    + intros (n' & buf' & len' & path & [[= <- <-] _] & Hl' & -> & Hn & ->). rewrite El in Hl'. by injection Hl' as <-.
  - eapply adds_iff; [by apply adds_same|]. intros raw. split; [done|]. intros (n' & buf' & len' & path & [E' _] & Hl' & _). rewrite E in E'. naive_solver.
Qed.

Lemma adds_gate t s s1 s' ok (P : RawEvent -> Prop) :
  k_events s1 = k_events s -> adds t s1 (if ok : bool then s' else s1) (fun raw => ok = true /\ P raw) ->
  adds t s (if ok then s' else s1) (fun raw => P raw /\ ok <> false).
Proof. intros E H. eapply adds_iff; [by eapply adds_via|]. intros raw. destruct ok; naive_solver. Qed.

Lemma adds_if t s s' (ok : bool) P : adds t s s' P -> adds t s (if ok then s' else s) (fun raw => ok = true /\ P raw).
Proof. intros H. destruct ok; [eapply adds_iff; [done|]|eapply adds_iff; [by apply adds_same|]]; naive_solver. Qed.

Lemma swap_fits v : (v < 2 ^ 16)%N -> (swap_u16 v < 2 ^ 16)%N.
Proof.
  unfold swap_u16. change (2 ^ 16)%N with 65536%N. intros Hv. pose proof (N.mod_lt v 256). assert (v / 256 < 256)%N by (apply N.Div0.div_lt_upper_bound; lia). lia.
Qed.

Lemma connect_adds family daddr port_be t s : fits_task t -> (daddr < 2 ^ 32)%N -> (port_be < 2 ^ 16)%N ->
  let h := HSocketConnect family daddr port_be in adds t s (try_connect family daddr port_be t s) (fun raw => senses t h raw /\ ~ held t h raw s).
Proof.
  intros [Hp Hc] Hd Hb h. unfold try_connect. destruct (decide (family = Some AF_INET)) as [->|Hf].
  - rewrite bool_decide_true by done. cbn [negb]. destruct (allow _ _ _) as [ok seen] eqn:E.
    eapply adds_iff; [apply (adds_gate t s _ _ ok (fun raw => raw = RConnect (task_attr t) daddr (swap_u16 port_be))); [done|]|].
    + apply adds_if. eapply adds_iff; [apply adds_put|]. intros raw. rewrite decode_conn; [naive_solver|done..|by apply swap_fits].
    + intros raw. split.
      * intros [-> Hok]. split; [constructor|]. cbn. by rewrite E.
      * intros [Hs Hh]. inversion Hs; subst. cbn in Hh. rewrite E in Hh. done.
  - rewrite bool_decide_false by done. eapply adds_iff; [by apply adds_same|]. intros raw. split; [done|]. intros [Hs _]. inversion Hs. by subst.
Qed.

Lemma file_open_adds f t s : fits_task t -> file_fits f ->
  let h := HFileOpen (Some f) in
  adds t s (try_file_open (Some f) t s) (fun raw => (exists p, raw = RFileRead (task_attr t) p) /\ senses t h raw /\ ~ held t h raw s) /\
  k_write_seen (try_file_open (Some f) t s) = k_write_seen s.
Proof.
  intros Ht [Hb _] h. pose (P := fun raw : RawEvent => exists n buf len path,
    reads (kf_d_path f) n buf /\ read_len n = Some len /\ path = event_path len buf /\ path <> "" /\ raw = RFileRead (task_attr t) path).
  assert (forall s, adds t s (emit_file_path f KIND_FILE_OPEN t s) P) as He by (intros s0; apply file_path_adds; auto).
  assert (forall s k, k_write_seen (emit_file_path f k t s) = k_write_seen s) as Hw.
  { intros s0 k. unfold emit_file_path. destruct (kf_d_path _ _), (read_len _); [|done]. unfold put. by destruct (tk_room t). }
  assert (forall raw, is_tmpfs f = true \/ is_sensitive_credential_basename f = true ->
    ((exists p, raw = RFileRead (task_attr t) p) /\ senses t h raw) <-> P raw) as Hs.
  { intros raw Hc. split.
    - intros [[p ->] H]. inversion H; subst. unfold P. eauto 10.
    - intros (n & buf & len & path & ? & ? & ? & ? & ->). split; [by eexists|]. by econstructor. }
  clearbody P. unfold try_file_open. destruct (is_tmpfs f) eqn:Et; [split; [|apply Hw]|].
  { eapply adds_iff; [apply He|]. intros raw. rewrite <- Hs by (by left). split; [|naive_solver]. intros ([p ->] & H). split; [by exists p|].
    split; [done|]. cbn. rewrite Et. by intros [??]. }
  destruct (is_sensitive_credential_basename f) eqn:Ec.
  2: { split; [|done]. eapply adds_iff; [by apply adds_same|]. intros raw. split; [done|]. intros ((p & ->) & H & _). inversion H; subst.
    match goal with Hor : _ \/ _ |- _ => destruct Hor; congruence end. }
  destruct (inode_ino f) as [ino|] eqn:Ei.
  - destruct (allow _ _ _) as [ok seen] eqn:E. split; [|by destruct ok; [rewrite Hw|]].
    eapply adds_iff; [apply (adds_gate t s _ _ ok P); [done|apply adds_if, He]|]. intros raw. cbv beta. rewrite <- Hs by (by right). split.
    + intros [([p ->] & H) Hok]. split; [by exists p|]. split; [done|]. cbn. rewrite Et, Ei. intros (_ & ? & [= <-] & Hf). by rewrite E in Hf.
    + intros ([p ->] & H & Hh). split; [by split; [exists p|]|]. intros Hok. apply Hh. cbn. rewrite Et, Ei. split; [done|]. exists ino. by rewrite E.
  - split; [|apply Hw]. eapply adds_iff; [apply He|]. intros raw. rewrite <- Hs by (by right). split; [|naive_solver]. intros ([p ->] & H).
    split; [by exists p|]. split; [done|]. cbn. rewrite Ei. naive_solver.
Qed.

Lemma file_write_adds f t s : fits_task t -> file_fits f ->
  let h := HFileOpen (Some f) in
  adds t s (try_file_write (Some f) t s) (fun raw => (exists p, raw = RFileWrite (task_attr t) p) /\ senses t h raw /\ ~ held t h raw s).
Proof.
  intros Ht [Hb _] h. pose (P := fun raw : RawEvent => exists n buf len path,
    reads (kf_d_path f) n buf /\ read_len n = Some len /\ path = event_path len buf /\ path <> "" /\ raw = RFileWrite (task_attr t) path).
  assert (forall s, adds t s (emit_file_path f KIND_FILE_WRITE t s) P) as He by (intros s0; apply file_path_adds; auto).
  unfold try_file_write. destruct (kf_flags f) as [flags|] eqn:Ef.
  2: { eapply adds_iff; [by apply adds_same|]. intros raw. split; [done|]. intros ((p & ->) & H & _). inversion H. congruence. }
  destruct (is_write_open flags) eqn:Ew; cbn [negb].
  2: { eapply adds_iff; [by apply adds_same|]. intros raw. split; [done|]. intros ((p & ->) & H & _). inversion H. congruence. }
  assert (forall raw, ((exists p, raw = RFileWrite (task_attr t) p) /\ senses t h raw) <-> P raw) as Hs.
  { intros raw. split.
    - intros [[p ->] H]. inversion H; subst. unfold P. eauto 10.
    - intros (n & buf & len & path & ? & ? & ? & ? & ->). split; [by eexists|]. by econstructor. }
  clearbody P. destruct (inode_ino f) as [ino|] eqn:Ei.
  - destruct (allow _ _ _) as [ok seen] eqn:E.
    eapply adds_iff; [apply (adds_gate t s _ _ ok P); [done|apply adds_if, He]|]. intros raw. cbv beta. rewrite <- Hs. split.
    + intros [([p ->] & H) Hok]. split; [by exists p|]. split; [done|]. cbn. rewrite Ei. intros (? & [= <-] & Hf). by rewrite E in Hf.
    + intros ([p ->] & H & Hh). split; [by split; [exists p|]|]. intros Hok. apply Hh. cbn. exists ino. by rewrite E.
  - eapply adds_iff; [apply He|]. intros raw. rewrite <- Hs. split; [|naive_solver]. intros ([p ->] & H).
    split; [by exists p|]. split; [done|]. cbn. rewrite Ei. naive_solver.
Qed.

(** Two readings of one string are one. *)
Ltac reading :=
  match goal with
  | R : reads ?r ?n ?b, E : ?x = Some ?r, E' : ?x = Some ?r', C : ?r' PATH_CAP = (?n', ?b'), Q : read_len ?n = Some ?l |- _ =>
      let H := fresh in
      assert (H : r = r') by congruence; subst r; destruct R as [R _]; rewrite C in R; injection R as -> ->; rewrite ?Q in *; simplify_eq
  end.

(** A hook that lets nothing be observed leaves the ring as it is. *)
Lemma senses_nothing t h s : (forall raw, ~ senses t h raw) -> adds t s s (fun raw => senses t h raw /\ ~ held t h raw s).
Proof. intros Hn. eapply adds_iff; [by apply adds_same|]. intros raw. specialize (Hn raw). naive_solver. Qed.

Lemma mmap_adds f prot t s : fits_task t -> file_fits f ->
  let h := HMmapFile (Some f) prot in adds t s (try_mmap_file (Some f) prot t s) (fun raw => senses t h raw /\ ~ held t h raw s).
Proof.
  intros Ht Hf h. pose proof (senses_nothing t h s) as Hnone. subst h.
  unfold try_mmap_file. destruct (N.eqb_spec (N.land prot PROT_EXEC) 0) as [Hx|Hx]; [apply Hnone; intros raw H; by inversion H|].
  unfold emit_lib_name. destruct (kf_name f) as [read|] eqn:En; [|apply Hnone; intros raw H; inversion H; congruence].
  destruct Hf as [_ Hf]. specialize (Hf read En). destruct (read PATH_CAP) as [n buf] eqn:Er. cbn [snd] in Hf.
  destruct (read_len n) as [len|] eqn:El; [|apply Hnone; intros raw H; inversion H; subst; by reading].
  eapply adds_iff; [apply adds_put|]. intros raw. pose proof (read_len_fits _ _ El) as Hl. destruct Ht as [Hp Hc].
  destruct (decode_file (mkFile (make_header KIND_LIBRARY_LOAD t) len buf)) as (_ & D & _); [done..|].
  rewrite D by done. rewrite nonempty_some. split.
  + intros [Hn ->]. split; [by econstructor|]. by intros [].
  + intros [H _]. inversion H; subst. by reading.
Qed.

Lemma exec_adds b t s : fits_task t -> hook_fits (HBprmCheck (Some b)) ->
  let h := HBprmCheck (Some b) in adds t s (emit_exec_path b (exe_is_anon_inode b) t s) (fun raw => senses t h raw /\ ~ held t h raw s).
Proof.
  intros Ht Hf h. pose proof (senses_nothing t h s) as Hnone. subst h. cbn [hook_fits] in Hf.
  destruct (kb_filename b) as [read|] eqn:En; unfold emit_exec_path; rewrite En; [|apply Hnone; intros raw H; inversion H; congruence].
  specialize (Hf read eq_refl). destruct (read PATH_CAP) as [n buf] eqn:Er. cbn [snd] in Hf.
  destruct (read_len n) as [len|] eqn:El; [|apply Hnone; intros raw H; inversion H; subst; by reading].
  eapply adds_iff; [apply adds_put|]. intros raw. pose proof (read_len_fits _ _ El) as Hl. destruct Ht as [Hp Hc].
  rewrite decode_exec; [|done..|by destruct (exe_is_anon_inode b)]. cbn [ex_exe_anon_inode ex_header ex_len ex_path]. rewrite nonempty_some.
  assert (negb ((if exe_is_anon_inode b then 1 else 0) =? 0)%N = exe_is_anon_inode b) as -> by (by destruct (exe_is_anon_inode b)). split.
  + intros [Hn ->]. split; [by econstructor|]. by intros [].
  + intros [H _]. inversion H; subst. by reading.
Qed.

Lemma ptrace_adds mode t s : fits_task t ->
  let h := HPtraceAccessCheck mode in adds t s (try_ptrace_access_check mode t s) (fun raw => senses t h raw /\ ~ held t h raw s).
Proof.
  intros Ht h. pose proof (senses_nothing t h s) as Hnone. subst h.
  unfold try_ptrace_access_check. destruct (N.eqb_spec (N.land mode PTRACE_MODE_ATTACH) 0) as [Hx|Hx]; [apply Hnone; intros raw H; by inversion H|].
  destruct (allow _ _ _) as [ok seen] eqn:E.
  eapply adds_iff; [apply (adds_gate t s _ _ ok (fun raw => raw = RPtraceAttach (task_attr t))); [done|]|].
  + apply adds_if. eapply adds_iff; [apply adds_put|]. intros raw. destruct Ht as [Hpid Hcg]. rewrite (proj1 (decode_fact (make_header KIND_PTRACE_ATTACH t) ltac:(done))) by done. naive_solver.
  + intros raw. split.
    * intros [-> Hok]. split; [by constructor|]. cbn. by rewrite E.
    * intros [Hs Hh]. inversion Hs; subst. cbn in Hh. rewrite E in Hh. done.
Qed.

(** The slot an event takes: writes are the second program's. *)
Definition room_for (t : Task) (raw : RawEvent) : bool := match raw with RFileWrite _ _ => tk_room_second t | _ => tk_room t end.

Lemma room_senses t h raw : senses t h raw -> (forall f, h <> HFileOpen f) -> room_for t raw = tk_room t.
Proof. intros Hs Hh. destruct Hs as [| f | f | | | | |]; try done; by destruct (Hh (Some f)). Qed.

Lemma senses_second t h raw : senses (second t) h raw <-> senses t h raw.
Proof.
  assert (forall t t', task_attr t = task_attr t' -> senses t h raw -> senses t' h raw) as H; [|by split; apply H].
  intros t1 t2 E. destruct 1; rewrite E; by econstructor.
Qed.

(** A hook with one program. *)
Lemma one_program t h s : (forall f, h <> HFileOpen f) -> adds t s (on_hook h t s) (fun raw => senses t h raw /\ ~ held t h raw s) ->
  exists evs, k_events (on_hook h t s) = k_events s ++ evs /\ (tk_room t = false -> tk_room_second t = false \/ (forall f, h <> HFileOpen f) -> evs = []) /\
    forall raw, raw ∈ omap decode evs <-> room_for t raw = true /\ senses t h raw /\ ~ held t h raw s.
Proof.
  intros Hh (evs & E & N & D). exists evs. split; [done|]. split; [by intros H _; apply N|]. intros raw. destruct (tk_room t) eqn:Er.
  - rewrite D by done. split; [|by intros [_ H]]. intros [H1 H2]. split; [|done]. by rewrite (room_senses t h raw H1 Hh).
  - rewrite (N eq_refl). split; [by intros ?%not_elem_of_nil|]. intros (Hr & H1 & _). rewrite (room_senses t h raw H1 Hh) in Hr. congruence.
Qed.

(** C31: Sensing: what a hook leaves in the ring reads back as exactly what the
    kernel lets be observed there, attributed to the task at hand, less the
    repeats a gate holds back and what the ring had no slot for when its program
    asked for one; a full ring gains nothing. *)
Theorem sensing_exact t h s : fits_task t -> hook_fits h ->
  exists evs, k_events (on_hook h t s) = k_events s ++ evs /\ (tk_room t = false -> tk_room_second t = false \/ (forall f, h <> HFileOpen f) -> evs = []) /\
    forall raw, raw ∈ omap decode evs <-> room_for t raw = true /\ senses t h raw /\ ~ held t h raw s.
Proof.
  intros Ht Hf. pose proof (senses_nothing t h s) as Hnone.
  destruct h as [family daddr port_be|[f|]|file prot|new old|bprm|mode|id];
    [apply one_program; [done|]| |exists []; rewrite app_nil_r; split; [done|]; split; [done|]; intros raw; split; [by intros ?%not_elem_of_nil|intros (_ & H & _); by inversion H]|apply one_program; [done|]..];
    [| |destruct file as [f|]| |destruct bprm as [b|]| |]; cbn [on_hook hook_fits] in *.
  - destruct Hf. by apply connect_adds.
  - destruct (file_open_adds f t s Ht Hf) as [Ho Hw]. pose proof (file_write_adds f (second t) (try_file_open (Some f) t s) Ht Hf) as Hwr. cbv zeta in *.
    destruct Ho as (e1 & E1 & N1 & D1), Hwr as (e2 & E2 & N2 & D2). exists (e1 ++ e2). rewrite E2, E1, app_assoc. split; [done|].
    cbn [second tk_room] in N2, D2. split; [intros H1 [H2|Hx]; [by rewrite N1, N2|by destruct (Hx (Some f))]|]. intros raw. rewrite omap_app, elem_of_app.
    assert (raw ∈ omap decode e1 <-> tk_room t = true /\ (exists p, raw = RFileRead (task_attr t) p) /\ senses t (HFileOpen (Some f)) raw /\ ~ held t (HFileOpen (Some f)) raw s) as ->.
    { destruct (tk_room t); [rewrite D1 by done; naive_solver|rewrite N1 by done]. split; [by intros ?%not_elem_of_nil|by intros [? _]]. }
    assert (raw ∈ omap decode e2 <-> tk_room_second t = true /\ (exists p, raw = RFileWrite (task_attr t) p) /\ senses t (HFileOpen (Some f)) raw /\ ~ held t (HFileOpen (Some f)) raw s) as ->.
    { destruct (tk_room_second t); [rewrite D2 by done; rewrite senses_second|rewrite N2 by done; split; [by intros ?%not_elem_of_nil|by intros [? _]]].
      assert (forall p, held (second t) (HFileOpen (Some f)) (RFileWrite (task_attr t) p) (try_file_open (Some f) t s) <->
        held t (HFileOpen (Some f)) (RFileWrite (task_attr t) p) s) as Hh by (intros p; cbn [held second tk_pid tk_now]; by rewrite Hw).
      split; [intros ([p ->] & H & Hn); rewrite Hh in Hn|intros (_ & [p ->] & H & Hn); rewrite <- Hh in Hn]; eauto. }
    split; [intros [(Hr & [p ->] & H)|(Hr & [p ->] & H)]; done|]. intros (Hr & H & Hn). inversion H; subst; [left|right]; eauto.
  - by apply mmap_adds.
  - apply Hnone. intros raw H. inversion H.
  - destruct new as [new|], old as [old|]; cbn [try_fix_setuid]; try (apply Hnone; intros raw H; by inversion H).
    destruct (N.eqb_spec new 0) as [->|Hnew], (N.eqb_spec old 0) as [->|Hold]; cbn [negb andb]; try (apply Hnone; intros raw H; by inversion H; subst).
    eapply adds_iff; [apply adds_put|]. intros raw. destruct Ht as [Hpid Hcg], Hf as [Hn Ho]. rewrite decode_priv by done. split.
    + intros [= <-]. split; [by constructor|]. by intros [].
    + intros [H _]. by inversion H; subst.
  - by apply exec_adds.
  - apply Hnone. intros raw H. inversion H.
  - by apply ptrace_adds.
  - destruct (N.eqb_spec id LOADING_MODULE) as [->|Hx]; [|apply Hnone; intros raw H; by inversion H].
    eapply adds_iff; [apply adds_put|]. intros raw. destruct Ht as [Hpid Hcg]. rewrite (proj2 (decode_fact (make_header KIND_MODULE_LOAD t) ltac:(done))) by done. split.
    + intros [= <-]. split; [by constructor|]. by intros [].
    + intros [H _]. by inversion H; subst.
Qed.
End Hooks.

(** ** The gates *)

Section Gate.
Context `{L : !LruInsert, !LruLaws} {K : Type} `{Countable K}.

(** What a gate answers to keys at instants, one after the other. *)
Fixpoint gate_run (ops : list (K * N)) (seen : gmap K N) : list bool :=
  match ops with
  | [] => []
  | (key, now) :: ops => let '(ok, seen) := allow key now seen in ok :: gate_run ops seen
  end.

Lemma allow_keeps (key k : K) now t seen : (allow key now seen).2 !! k = Some t ->
  k = key /\ t = now /\ (allow key now seen).1 = true \/ seen !! k = Some t.
Proof.
  unfold allow. destruct (seen !! key) as [last|] eqn:E.
  - destruct (should_coalesce last now DEDUP_WINDOW_NS); cbn [fst snd]; [by right|]. intros [[-> ->]|[? ?]]%lookup_insert_Some; [left|right]; done.
  - cbn [fst snd]. intros [(-> & ->)|(? & ?)]%lru_keeps; [left|right]; done.
Qed.

(** A gate holds an event back only after it let one of the same key pass less
    than the window before, whatever the map evicts in between. *)
Theorem held_after_first ops i key now :
  ops !! i = Some (key, now) -> gate_run ops ∅ !! i = Some false ->
  exists j t, j < i /\ ops !! j = Some (key, t) /\ gate_run ops ∅ !! j = Some true /\ (t <= now < t + DEDUP_WINDOW_NS)%N.
Proof.
  assert (forall ops seen i key now, ops !! i = Some (key, now) -> gate_run ops seen !! i = Some false ->
    (exists j t, j < i /\ ops !! j = Some (key, t) /\ gate_run ops seen !! j = Some true /\ (t <= now < t + DEDUP_WINDOW_NS)%N) \/
    exists t, seen !! key = Some t /\ (t <= now < t + DEDUP_WINDOW_NS)%N) as Hgen.
  2: { intros Ho Hr. destruct (Hgen ops ∅ i key now Ho Hr) as [?|(t & Ht & _)]; [done|]. by rewrite lookup_empty in Ht. }
  clear ops i key now. induction ops as [|[k t] ops IH]; intros seen i key now Ho Hr; [done|].
  cbn [gate_run] in *. destruct (allow k t seen) as [ok seen'] eqn:E. destruct i as [|i].
  - injection Ho as -> ->. injection Hr as ->. right. unfold allow in E. destruct (seen !! key) as [last|]; [|done].
    destruct (should_coalesce last now DEDUP_WINDOW_NS) eqn:Es; [|done]. exists last. split; [done|]. unfold should_coalesce in Es.
    apply andb_true_iff in Es as [E1%N.leb_le E2%N.ltb_lt]. lia.
  - destruct (IH seen' i key now Ho Hr) as [(j & t' & Hj & Hoj & Hrj & Ht)|(t' & Hs & Ht)].
    + left. exists (S j), t'. split; [lia|]. done.
    + pose proof (allow_keeps k key t t' seen) as Ha. rewrite E in Ha. destruct (Ha Hs) as [(-> & -> & Hok)|Hs'].
      * left. exists 0, t. cbn in Hok. subst ok. split; [lia|]. done.
      * right. by exists t'.
Qed.
End Gate.

(** ** Linkage *)

Lemma sub_app off len s t : off + len <= String.length s -> sub_bytes off len (s +:+ t) = sub_bytes off len s.
Proof.
  unfold sub_bytes. revert off len. induction s as [|c s IH]; intros off len Hl; simpl in *.
  - assert (off = 0) as -> by lia. assert (len = 0) as -> by lia. by destruct t.
  - destruct off as [|off]; [|apply IH; lia]. destruct len as [|len]; [done|]. f_equal. apply IH. lia.
Qed.

Lemma read_uint_app w s t off le v : read_uint w s off le = Some v -> read_uint w (s +:+ t) off le = Some v.
Proof.
  unfold read_uint. destruct (USIZE <=? off + w)%N; [done|]. destruct (N.ltb_spec (N.of_nat (String.length s)) (off + w)) as [|Hl]; [done|].
  destruct (N.ltb_spec (N.of_nat (String.length (s +:+ t))) (off + w)); [rewrite str_length_app in *; lia|]. by rewrite sub_app by lia.
Qed.

Definition entry_type (phoff phentsize : N) (s : string) (le : bool) (i : N) : option N :=
  let entry := (phoff + i * phentsize)%N in if (USIZE <=? entry)%N then None else read_uint 4 s entry le.

Lemma scan_spec n i phoff phentsize s le b :
  scan_headers n i phoff phentsize s le = Some b <->
  if b : bool then forall j, (i <= j < i + N.of_nat n)%N -> exists ty, entry_type phoff phentsize s le j = Some ty /\ ty <> PT_INTERP
  else exists k, (i <= k < i + N.of_nat n)%N /\ entry_type phoff phentsize s le k = Some PT_INTERP /\
         forall j, (i <= j < k)%N -> exists ty, entry_type phoff phentsize s le j = Some ty /\ ty <> PT_INTERP.
Proof.
  revert i. induction n as [|n IH]; intros i; cbn [scan_headers].
  - destruct b; split; [intros _ j ?; lia|done|done|intros (k & ? & _); lia].
  - assert ((if (USIZE <=? phoff + i * phentsize)%N then None
      else p_type ← read_uint 4 s (phoff + i * phentsize)%N le; if (p_type =? PT_INTERP)%N then Some false else scan_headers n (i + 1) phoff phentsize s le) =
      (p_type ← entry_type phoff phentsize s le i; if (p_type =? PT_INTERP)%N then Some false else scan_headers n (i + 1) phoff phentsize s le)) as ->
      by (unfold entry_type; by destruct (USIZE <=? _)%N).
    destruct (entry_type phoff phentsize s le i) as [ty|] eqn:E; cbn [mbind option_bind].
    2: { split; [done|]. destruct b; [intros Ha; destruct (Ha i ltac:(lia)) as (? & ? & _); congruence|].
         intros (k & Hk & Hi & Ha). destruct (decide (k = i)) as [->|]; [congruence|]. destruct (Ha i ltac:(lia)) as (? & ? & _). congruence. }
    destruct (N.eqb_spec ty PT_INTERP) as [->|Hty].
    + destruct b; split; try done.
      * intros Ha. destruct (Ha i ltac:(lia)) as (ty & ? & ?). congruence.
      * intros _. exists i. split; [lia|]. split; [done|]. intros j ?. lia.
    + rewrite IH. destruct b; split.
      * intros Ha j Hj. destruct (decide (j = i)) as [->|]; [by exists ty|]. apply Ha. lia.
      * intros Ha j Hj. apply Ha. lia.
      * intros (k & Hk & Hi & Ha). exists k. split; [lia|]. split; [done|]. intros j Hj. destruct (decide (j = i)) as [->|]; [by exists ty|]. apply Ha. lia.
      * intros (k & Hk & Hi & Ha). destruct (decide (k = i)) as [->|]; [congruence|]. exists k. split; [lia|]. split; [done|]. intros j Hj. apply Ha. lia.
Qed.

(** The program headers of an executable: offset, size, count and byte order. *)
Definition elf_table (s : string) : option (bool * N * N * N) :=
  '(le, (phoff_off, phoff_width), phentsize_off, phnum_off) ← elf_layout s;
  phoff ← read_uint phoff_width s phoff_off le;
  phentsize ← read_uint 2 s phentsize_off le;
  phnum ← read_uint 2 s phnum_off le;
  if (phoff =? 0)%N || (phnum =? 0)%N || (phentsize <? 4)%N then None else Some (le, phoff, phentsize, phnum).

Lemma elf_split s : elf_static_linkage s = '(le, phoff, phentsize, phnum) ← elf_table s; scan_headers (N.to_nat phnum) 0 phoff phentsize s le.
Proof.
  unfold elf_static_linkage, elf_table. destruct (elf_layout s) as [[[[le [po pw]] pe] pn]|]; [|done]. cbn [mbind option_bind].
  destruct (read_uint pw s po le) as [phoff|]; [|done]. cbn [mbind option_bind]. destruct (read_uint 2 s pe le) as [phentsize|]; [|done].
  cbn [mbind option_bind]. destruct (read_uint 2 s pn le) as [phnum|]; [|done]. cbn [mbind option_bind]. by destruct (_ || _).
Qed.

Lemma layout_app s t x : elf_layout s = Some x -> elf_layout (s +:+ t) = Some x.
Proof.
  unfold elf_layout. destruct (Nat.ltb_spec (String.length s) 20) as [|Hl]; [done|].
  destruct (Nat.ltb_spec (String.length (s +:+ t)) 20) as [Hl'|]; [rewrite str_length_app in Hl'; lia|]. cbn [orb].
  unfold field. rewrite !sub_app by lia. done.
Qed.

Lemma table_app s t x : elf_table s = Some x -> elf_table (s +:+ t) = Some x.
Proof.
  unfold elf_table. destruct (elf_layout s) as [[[[le [po pw]] pe] pn]|] eqn:El; [|done]. rewrite (layout_app _ _ _ El). cbn [mbind option_bind].
  destruct (read_uint pw s po le) as [phoff|] eqn:E1; [|done]. rewrite (read_uint_app _ _ _ _ _ _ E1). cbn [mbind option_bind].
  destruct (read_uint 2 s pe le) as [phentsize|] eqn:E2; [|done]. rewrite (read_uint_app _ _ _ _ _ _ E2). cbn [mbind option_bind].
  destruct (read_uint 2 s pn le) as [phnum|] eqn:E3; [|done]. by rewrite (read_uint_app _ _ _ _ _ _ E3).
Qed.

Lemma entry_app phoff phentsize s t le i ty : entry_type phoff phentsize s le i = Some ty -> entry_type phoff phentsize (s +:+ t) le i = Some ty.
Proof. unfold entry_type. destruct (USIZE <=? _)%N; [done|]. apply read_uint_app. Qed.

Lemma elf_app s t b : elf_static_linkage s = Some b -> elf_static_linkage (s +:+ t) = Some b.
Proof.
  rewrite !elf_split. destruct (elf_table s) as [[[[le phoff] phentsize] phnum]|] eqn:Et; [|done]. rewrite (table_app _ _ _ Et). cbn [mbind option_bind].
  rewrite !scan_spec. destruct b.
  - intros Ha j Hj. destruct (Ha j Hj) as (ty & Hty & Hn). exists ty. split; [by apply entry_app|done].
  - intros (k & Hk & Hi & Ha). exists k. split; [done|]. split; [by apply entry_app|]. intros j Hj. destruct (Ha j Hj) as (ty & Hty & Hn).
    exists ty. split; [by apply entry_app|done].
Qed.

Lemma sub_split n s : exists t, s = sub_bytes 0 n s +:+ t.
Proof.
  unfold sub_bytes. revert n. induction s as [|c s IH]; intros n; [exists ""; by destruct n|]. destruct n as [|n]; [by exists (String c s)|].
  simpl. destruct (IH n) as [t Ht]. exists t. by rewrite <- Ht.
Qed.

(** C32: Linkage from the head of an executable is that of the whole one, and it is
    exact: dynamic when a program header names an interpreter, static when none
    of them does, and nothing when one before that cannot be read. *)
Theorem linkage_exact exe pid b :
  (classify_linkage (fun pid => read_exe_head (exe pid)) pid = Some b -> exists file, exe pid = Some file /\ elf_static_linkage file = Some b) /\
  forall file, elf_static_linkage file = Some b <->
    exists le phoff phentsize phnum, elf_table file = Some (le, phoff, phentsize, phnum) /\
      if b : bool then forall j, (j < phnum)%N -> exists ty, entry_type phoff phentsize file le j = Some ty /\ ty <> PT_INTERP
      else exists k, (k < phnum)%N /\ entry_type phoff phentsize file le k = Some PT_INTERP /\
             forall j, (j < k)%N -> exists ty, entry_type phoff phentsize file le j = Some ty /\ ty <> PT_INTERP.
Proof.
  split.
  - unfold classify_linkage, read_exe_head. destruct (exe pid) as [file|]; [|done]. cbn. intros He. exists file. split; [done|].
    destruct (sub_split ELF_HEAD_CAP file) as [t Ht]. rewrite Ht. by apply elf_app.
  - intros file. rewrite elf_split. split.
    + destruct (elf_table file) as [[[[le phoff] phentsize] phnum]|]; [|done]. cbn [mbind option_bind]. rewrite scan_spec, N2Nat.id.
      intros Hs. exists le, phoff, phentsize, phnum. split; [done|]. destruct b; [intros j Hj; apply Hs; lia|].
      destruct Hs as (k & Hk & Hi & Ha). exists k. split; [lia|]. split; [done|]. intros j Hj. apply Ha. lia.
    + intros (le & phoff & phentsize & phnum & -> & Hs). cbn [mbind option_bind]. rewrite scan_spec, N2Nat.id. destruct b; [intros j Hj; apply Hs; lia|].
      destruct Hs as (k & Hk & Hi & Ha). exists k. split; [lia|]. split; [done|]. intros j Hj. apply Ha. lia.
Qed.

(** ** What the loop receives reaches the engine *)

Definition unit_sep : Ascii.ascii := Ascii.ascii_of_nat 31.

(** The agent attributes by pod, and the identity of a pod holds no separator. *)
Definition by_pod (obs : RuntimeObservation) : Prop := exists uid, ob_attribution obs = ByPodUid uid /\ no_char unit_sep uid = true.

Lemma key_separates a b : by_pod a -> by_pod b -> coalesce_key a = coalesce_key b ->
  ob_attribution a = ob_attribution b /\ fingerprint_key (ob_behavior a) = fingerprint_key (ob_behavior b).
Proof.
  intros (u & Ea & Hu) (v & Eb & Hv). unfold coalesce_key. rewrite Ea, Eb. cbn [attribution_token]. intros E.
  change UNIT_SEPARATOR with (String unit_sep "") in E. rewrite !app_str_assoc in E.
  apply (f_equal (strip_prefix "uid:")) in E.
  assert (forall s, strip_prefix "uid:" ("uid:" +:+ s) = Some s) as Hs by (intros s; by apply strip_prefix_app). rewrite !Hs in E.
  injection E as E. apply (f_equal (split_once unit_sep)) in E.
  change (String unit_sep "" +:+ ?x) with (String unit_sep x) in E. rewrite !split_once_app in E by done. by injection E as -> ->.
Qed.

Section Loop.
Variable order : gmap string RuntimeObservation -> list RuntimeObservation.
Hypothesis order_perm : forall m, order m ≡ₚ (map_to_list m).*2.
Variable node : option string.

(** A turn: what the token source gives, what the engine answers, what woke it. *)
Definition turn : Type := option string * Answer * Wake.

Fixpoint agent_run (turns : list turn) (f : Flusher) : list (option Request) * Flusher :=
  match turns with
  | [] => ([], f)
  | (source, answer, w) :: turns =>
      let '(req, f) := flush_turn order node source answer w f in
      let '(reqs, f) := agent_run turns f in (req :: reqs, f)
  end.

Definition received (turns : list turn) : list RuntimeObservation :=
  omap (fun tn => match tn.2 with WObservation obs => Some (set_node node obs) | _ => None end) turns.

(** What a request carries. *)
Definition carried (req : option Request) : list RuntimeObservation := match req with Some (_, report) => rr_observations report | None => [] end.

(** The buffer: at most the cap, each observation under its own key, calm, and of [seen]. *)
Definition buffer_ok (seen : list RuntimeObservation) (c : Coalescer) : Prop :=
  co_max_size c = AGENT_MAX_BATCH /\ size (co_buffer c) <= AGENT_MAX_BATCH /\
  forall k o, co_buffer c !! k = Some o -> coalesce_key o = k /\ is_alert (ob_behavior o) = false /\ o ∈ seen.

Lemma elem_of_order m o : o ∈ order m <-> exists k, m !! k = Some o.
Proof.
  rewrite order_perm, list_elem_of_fmap. split.
  - intros ([k v] & -> & Hk). exists k. by apply elem_of_map_to_list in Hk.
  - intros (k & Hk). exists (k, o). split; [done|]. by apply elem_of_map_to_list.
Qed.

Lemma order_keys m : (forall k o, m !! k = Some o -> coalesce_key o = k) -> NoDup (coalesce_key <$> order m).
Proof.
  intros Hk. assert (coalesce_key <$> order m ≡ₚ (map_to_list m).*1) as ->.
  - rewrite order_perm, <- list_fmap_compose. apply Permutation_refl'. apply list_fmap_ext. intros i [k o] Hi. simpl.
    apply Hk. by apply elem_of_map_to_list, list_elem_of_lookup_2 with i.
  - apply NoDup_fst_map_to_list.
Qed.

Lemma order_length m : length (order m) = size m.
Proof. by rewrite order_perm, length_fmap, length_map_to_list. Qed.

(** A batch: short enough for the engine to read whole, no two alike, all of [seen]. *)
Definition batch_ok (seen batch : list RuntimeObservation) : Prop :=
  length batch <= AGENT_MAX_BATCH /\ NoDup (coalesce_key <$> batch) /\ forall o, o ∈ batch -> o ∈ seen.

Lemma drain_ok seen c : buffer_ok seen c -> batch_ok seen (coalescer_drain order c).1 /\ buffer_ok seen (coalescer_drain order c).2.
Proof.
  intros (Hm & Hs & Hk). split.
  - split; [cbn; by rewrite order_length|]. split; [apply order_keys; intros k o Ho; by destruct (Hk k o Ho)|].
    intros o (k & Ho)%elem_of_order. by apply Hk in Ho as (_ & _ & ?).
  - split; [done|]. cbn. split; [rewrite map_size_empty; lia|]. intros k o Ho. by rewrite lookup_empty in Ho.
Qed.

Lemma buffer_seen seen seen' c : buffer_ok seen c -> seen ⊆ seen' -> buffer_ok seen' c.
Proof. intros (Hm & Hs & Hk) Hsub. split; [done|]. split; [done|]. intros k o Ho. destruct (Hk k o Ho) as (? & ? & ?). auto. Qed.

Lemma offer_ok seen obs c : buffer_ok seen c -> obs ∈ seen ->
  let '(out, c') := offer order obs c in
  batch_ok seen out /\ buffer_ok seen c' /\
  (is_alert (ob_behavior obs) = true -> out = [obs]) /\
  (is_alert (ob_behavior obs) = false -> exists o, co_buffer c' !! coalesce_key obs = Some o) /\
  (forall k o, co_buffer c !! k = Some o -> co_buffer c' !! k = Some o \/ o ∈ out).
Proof.
  intros Hc Hin. unfold offer. destruct (is_alert (ob_behavior obs)) eqn:Ea.
  - split; [split; [cbn; unfold AGENT_MAX_BATCH; lia|]; split; [apply NoDup_singleton|by intros o ->%list_elem_of_singleton]|]. split; [done|]. split; [done|]. split; [done|]. by left.
  - destruct (co_buffer c !! coalesce_key obs) as [o|] eqn:El.
    + split; [split; [cbn; lia|]; split; [apply NoDup_nil_2|by intros o' ?%not_elem_of_nil]|]. split; [done|]. split; [done|]. split; [by intros _; exists o|]. by left.
    + assert (forall buf, size buf < AGENT_MAX_BATCH -> (forall k o, buf !! k = Some o -> coalesce_key o = k /\ is_alert (ob_behavior o) = false /\ o ∈ seen) ->
        buffer_ok seen (mkCoalescer (<[coalesce_key obs := obs]> buf) (co_max_size c))) as Hins.
      { intros buf Hlt Hb. split; [apply Hc|]. cbn. split; [rewrite map_size_insert; destruct (buf !! _); cbn; lia|]. intros k o [[<- <-]|[_ Ho]]%lookup_insert_Some; [done|by apply Hb]. }
      destruct Hc as (Hm & Hsz & Hk). rewrite Hm. destruct (Nat.leb_spec AGENT_MAX_BATCH (size (co_buffer c))) as [Hf|Hf].
      * destruct (drain_ok seen c (conj Hm (conj Hsz Hk))) as [Hb _]. cbn [coalescer_drain fst snd] in Hb |- *. split; [done|]. split; [apply (Hins ∅); [unfold AGENT_MAX_BATCH; rewrite map_size_empty; lia|intros k o Ho; by rewrite lookup_empty in Ho]|].
        split; [done|]. split; [intros _; exists obs; cbn [co_buffer]; by rewrite lookup_insert_eq|]. intros k o Ho. right. apply elem_of_order. by exists k.
      * split; [split; [cbn; lia|]; split; [apply NoDup_nil_2|by intros o' ?%not_elem_of_nil]|]. split; [by apply Hins|].
        split; [done|]. split; [intros _; exists obs; cbn [co_buffer]; by rewrite lookup_insert_eq|]. intros k o Ho. left. cbn.
        rewrite lookup_insert_ne; [done|]. intros <-. congruence.
Qed.

(** One turn: what it posts is of what was received, its alert or the drained buffer. *)
Lemma turn_ok seen source answer w f :
  buffer_ok seen (ag_coalescer f) ->
  let seen' := seen ++ match w with WObservation obs => [set_node node obs] | _ => [] end in
  let '(req, f') := flush_turn order node source answer w f in
  batch_ok seen' (carried req) /\ buffer_ok seen' (ag_coalescer f') /\
  (forall obs, w = WObservation obs -> is_alert (ob_behavior obs) = true -> carried req = [set_node node obs]) /\
  (forall obs, w = WObservation obs -> is_alert (ob_behavior obs) = false -> exists o, co_buffer (ag_coalescer f') !! coalesce_key (set_node node obs) = Some o) /\
  (forall k o, co_buffer (ag_coalescer f) !! k = Some o -> co_buffer (ag_coalescer f') !! k = Some o \/ o ∈ carried req) /\
  (w = WWindow \/ w = WClosed -> co_buffer (ag_coalescer f') = ∅).
Proof.
  intros Hb seen'. assert (seen ⊆ seen') as Hsub by (intros x ?; apply elem_of_app; by left).
  assert (forall report r, exists q n r', send source answer report r = (q, n, r') /\ carried q = rr_observations report) as Hsend.
  { intros report r. unfold send. destruct (bool_decide (rr_observations report = [])) eqn:E; cbn [andb].
    - destruct (bool_decide (rr_liveness report = None)); [|destruct answer]; eexists _, _, _; (split; [reflexivity|]); apply bool_decide_eq_true in E; cbn [carried]; congruence.
    - destruct answer; eexists _, _, _; by split. }
  assert (batch_ok seen' []) as Hnil by (split; [cbn; lia|]; split; [apply NoDup_nil_2|by intros o ?%not_elem_of_nil]).
  unfold flush_turn. destruct w as [obs| |probes now_ms|].
  - pose proof (offer_ok seen' (set_node node obs) (ag_coalescer f) (buffer_seen _ _ _ Hb Hsub) ltac:(apply elem_of_app; right; by left)) as Ho.
    destruct (offer order (set_node node obs) (ag_coalescer f)) as [out c]. destruct Ho as (Ho1 & Ho2 & Ho3 & Ho4 & Ho5).
    destruct (bool_decide (out = [])) eqn:E.
    + apply bool_decide_eq_true in E as ->. cbn. repeat (split; [done|]). split; [intros obs' [= <-] Ha; by specialize (Ho3 Ha)|].
      split; [by intros obs' [= <-]|]. split; [done|]. by intros [|].
    + destruct (Hsend (mkRuntimeReport out None) (ag_reporter f)) as (q & n & r & -> & Hq). cbn in Hq |- *. rewrite Hq.
      split; [done|]. split; [done|]. split; [by intros obs' [= <-]|]. split; [by intros obs' [= <-]|]. split; [done|]. by intros [|].
  - unfold coalescer_is_empty. destruct (bool_decide (co_buffer (ag_coalescer f) = ∅)) eqn:E.
    + apply bool_decide_eq_true in E. cbn. split; [done|]. split; [by eapply buffer_seen|]. do 2 (split; [done|]). split; [by left|done].
    + destruct (drain_ok seen (ag_coalescer f) Hb) as [Hd1 Hd2]. destruct (coalescer_drain order (ag_coalescer f)) as [batch c] eqn:Ed. cbn [fst snd] in *.
      destruct (Hsend (mkRuntimeReport batch None) (ag_reporter f)) as (q & n & r & -> & Hq). cbn in Hq |- *. rewrite Hq.
      unfold coalescer_drain in Ed. injection Ed as <- <-.
      split; [destruct Hd1 as (? & ? & ?); split; [done|]; split; [done|]; auto|]. split; [by eapply buffer_seen|]. do 2 (split; [done|]).
      split; [intros k o Ho; right; apply elem_of_order; by exists k|done].
  - destruct node as [nd|].
    + destruct (Hsend (mkRuntimeReport [] (Some (build_agent_report nd probes (N.of_nat (ag_reported_since_tick f)) now_ms))) (ag_reporter f)) as (q & n & r & -> & Hq).
      cbn in Hq |- *. rewrite Hq. split; [done|]. split; [by eapply buffer_seen|]. do 2 (split; [done|]). split; [by left|]. by intros [|].
    + cbn. split; [done|]. split; [by eapply buffer_seen|]. do 2 (split; [done|]). split; [by left|]. by intros [|].
  - destruct (drain_ok seen (ag_coalescer f) Hb) as [Hd1 Hd2]. destruct (coalescer_drain order (ag_coalescer f)) as [batch c] eqn:Ed. cbn [fst snd] in *.
    destruct (Hsend (mkRuntimeReport batch None) (ag_reporter f)) as (q & n & r & -> & Hq). cbn in Hq |- *. rewrite Hq.
    unfold coalescer_drain in Ed. injection Ed as <- <-.
    split; [destruct Hd1 as (? & ? & ?); split; [done|]; split; [done|]; auto|]. split; [by eapply buffer_seen|]. do 2 (split; [done|]).
    split; [intros k o Ho; right; apply elem_of_order; by exists k|done].
Qed.

Lemma received_cons tn turns : received (tn :: turns) =
  match tn.2 with WObservation obs => [set_node node obs] | _ => [] end ++ received turns.
Proof. unfold received. cbn [omap list_omap]. by destruct (tn.2). Qed.

(** Every request of a run is of what was received up to it. *)
Lemma run_ok turns : forall seen f, buffer_ok seen (ag_coalescer f) ->
  (forall req, req ∈ (agent_run turns f).1 -> batch_ok (seen ++ received turns) (carried req)) /\
  buffer_ok (seen ++ received turns) (ag_coalescer (agent_run turns f).2).
Proof.
  induction turns as [|[[source answer] w] turns IH]; intros seen f Hb; cbn [agent_run].
  - rewrite app_nil_r. cbn. split; [by intros req ?%not_elem_of_nil|done].
  - pose proof (turn_ok seen source answer w f Hb) as Ht. destruct (flush_turn order node source answer w f) as [req f1]. destruct Ht as (Hq & Hb1 & _).
    destruct (IH _ _ Hb1) as [IH1 IH2]. destruct (agent_run turns f1) as [reqs f2]. cbn [fst snd] in *. rewrite received_cons, app_assoc. split; [|done].
    intros r [->|Hr]%elem_of_cons; [|by apply IH1]. destruct Hq as (? & ? & Hs). split; [done|]. split; [done|]. intros o Ho. apply elem_of_app. left. by apply Hs.
Qed.

(** Once an observation is in the buffer, it stays or is posted, and is posted by
    the next turn of the window. *)
Lemma buffered_posted turns : forall seen f k o, buffer_ok seen (ag_coalescer f) -> co_buffer (ag_coalescer f) !! k = Some o ->
  (exists tn, tn ∈ turns /\ (tn.2 = WWindow \/ tn.2 = WClosed)) ->
  exists req, req ∈ (agent_run turns f).1 /\ o ∈ carried req.
Proof.
  induction turns as [|[[source answer] w] turns IH]; intros seen f k o Hb Hk (tn & Htn & Hw); [by apply not_elem_of_nil in Htn|]. cbn [agent_run].
  pose proof (turn_ok seen source answer w f Hb) as Ht. destruct (flush_turn order node source answer w f) as [req f1].
  destruct Ht as (_ & Hb1 & _ & _ & Hkeep & Hend). destruct (agent_run turns f1) as [reqs f2] eqn:Er. cbn [fst].
  destruct (Hkeep k o Hk) as [Hk1|Ho]; [|exists req; split; [left|done]].
  apply elem_of_cons in Htn as [->|Htn]; [by rewrite (Hend Hw), lookup_empty in Hk1|].
  destruct (IH _ f1 k o Hb1 Hk1) as (r & Hr & Ho); [by exists tn|]. rewrite Er in Hr. exists r. split; [by right|done].
Qed.

Lemma agent_run_app t1 t2 f : agent_run (t1 ++ t2) f =
  let '(r1, f1) := agent_run t1 f in let '(r2, f2) := agent_run t2 f1 in (r1 ++ r2, f2).
Proof.
  revert f. induction t1 as [|[[source answer] w] t1 IH]; intros f; cbn [agent_run app]; [by destruct (agent_run t2 f)|].
  destruct (flush_turn order node source answer w f) as [req f0]. rewrite IH. destruct (agent_run t1 f0) as [r1 f1]. by destruct (agent_run t2 f1).
Qed.

Lemma start_ok source : buffer_ok [] (ag_coalescer (flusher_start source)).
Proof. split; [done|]. cbn. split; [rewrite map_size_empty; lia|]. intros k o Ho. by rewrite lookup_empty in Ho. Qed.

Lemma run_length turns : forall f, length (agent_run turns f).1 = length turns.
Proof.
  induction turns as [|[[s a] w] turns IH]; intros f; [done|]. cbn [agent_run]. destruct (flush_turn order node s a w f) as [req f1].
  specialize (IH f1). destruct (agent_run turns f1). cbn in *. by rewrite IH.
Qed.

(** The turn of an observation within a run. *)
Lemma run_at before tn after f :
  let f0 := (agent_run before f).2 in
  let out := flush_turn order node tn.1.1 tn.1.2 tn.2 f0 in
  (agent_run (before ++ tn :: after) f).1 = (agent_run before f).1 ++ out.1 :: (agent_run after out.2).1.
Proof.
  cbv zeta. rewrite agent_run_app. destruct (agent_run before f) as [r0 f0], tn as [[s a] w]. cbn [agent_run]. cbn [fst snd].
  destruct (flush_turn order node s a w f0) as [req f1]. cbn [fst snd]. by destruct (agent_run after f1).
Qed.

(** C30: From sensor to engine: an observation the loop receives is posted. An alert
    goes out at once and alone; any other is represented, at the latest by the
    next turn of the window, by one of the same pod and fingerprint. A request
    holds nothing that was not received, no two of a kind, and no more than the
    engine takes in whole. *)
Theorem sensor_to_engine source before tn obs after :
  let turns := before ++ tn :: after in
  let reqs := (agent_run turns (flusher_start source)).1 in
  tn.2 = WObservation obs ->
  (forall o, o ∈ received turns -> by_pod o) ->
  (exists tn, tn ∈ after /\ (tn.2 = WWindow \/ tn.2 = WClosed)) ->
  (exists req o, req ∈ reqs /\ o ∈ carried req /\ ob_attribution o = ob_attribution obs /\
     fingerprint_key (ob_behavior o) = fingerprint_key (ob_behavior obs)) /\
  (is_alert (ob_behavior obs) = true -> exists req, reqs !! length before = Some req /\ carried req = [set_node node obs]) /\
  (forall req, req ∈ reqs ->
     (forall o, o ∈ carried req -> o ∈ received turns) /\ NoDup (coalesce_key <$> carried req) /\
     forall clock liveness, (accepted clock (Envelope (mkRuntimeReport (carried req) liveness))).*2 = carried req).
Proof.
  intros turns reqs Htn Hpod Hend.
  destruct (run_ok turns [] (flusher_start source) (start_ok source)) as [Hall _]. fold reqs in Hall. cbn [app] in Hall.
  destruct (run_ok before [] (flusher_start source) (start_ok source)) as [_ Hb]. cbn [app] in Hb.
  assert (set_node node obs ∈ received turns) as Hobs.
  { unfold received, turns. apply list_elem_of_omap. exists tn. split; [apply elem_of_app; right; left|by rewrite Htn]. }
  pose proof (run_at before tn after (flusher_start source)) as Hrun. cbv zeta in Hrun.
  change (agent_run (before ++ tn :: after) (flusher_start source)).1 with reqs in Hrun. rewrite Htn in Hrun.
  set (f0 := (agent_run before (flusher_start source)).2) in *.
  pose proof (turn_ok _ tn.1.1 tn.1.2 (WObservation obs) f0 Hb) as Ht. cbv zeta in Ht.
  destruct (flush_turn order node tn.1.1 tn.1.2 (WObservation obs) f0) as [req f1]. cbn [fst snd] in Hrun.
  destruct Ht as (_ & Hb1 & Hal & Hmu & _ & _). split; [|split].
  - destruct (is_alert (ob_behavior obs)) eqn:Ea.
    + exists req, (set_node node obs). rewrite (Hal obs eq_refl Ea). split; [rewrite Hrun; apply elem_of_app; right; left|]. split; [left|done].
    + destruct (Hmu obs eq_refl Ea) as [o Ho]. destruct (buffered_posted after _ f1 _ o Hb1 Ho Hend) as (r & Hr & Hor).
      assert (r ∈ reqs) as Hrq by (rewrite Hrun; apply elem_of_app; right; by right).
      exists r, o. split; [done|]. split; [done|]. destruct Hb1 as (_ & _ & Hk). destruct (Hk _ _ Ho) as (Hkey & _ & _).
      apply (key_separates o (set_node node obs)); [|by apply Hpod|done]. apply Hpod. by apply (Hall r Hrq).
  - intros Ha. exists req. split; [|by apply Hal]. rewrite Hrun. rewrite list_lookup_middle; [done|]. by rewrite run_length.
  - intros r Hr. destruct (Hall r Hr) as (Hl & Hn & Hs). split; [done|]. split; [done|]. intros clock liveness. unfold accepted. cbn [into_report rr_observations].
    rewrite take_ge by (unfold AGENT_MAX_BATCH, MAX_BATCH in *; lia). rewrite fmap_imap. apply list_eq. intros i. rewrite list_lookup_imap. by destruct (carried r !! i).
Qed.
End Loop.

(** The entries of a map, as a drain. *)
Definition entries_order (m : gmap string RuntimeObservation) : list RuntimeObservation := (map_to_list m).*2.

Definition pod_obs (uid : string) (b : Behavior) : RuntimeObservation := mkObs (ByPodUid uid) (Some SOURCE) (Some 1%N) None b.

Lemma sensor_to_engine_witness :
  (exists req o, req ∈ (agent_run entries_order (Some "node-a") [(None, Accepted, WWindow); (None, Unreachable, WObservation (pod_obs "3f5e" PtraceAttach)); (None, Accepted, WWindow)]
      (flusher_start None)).1 /\
     o ∈ carried req /\ ob_attribution o = ByPodUid "3f5e" /\ fingerprint_key (ob_behavior o) = "ptrace-attach") /\ True.
Proof.
  split; [|exact I].
  refine (proj1 (sensor_to_engine entries_order (fun m => Permutation_refl _) (Some "node-a") None [(None, Accepted, WWindow)]
    (None, Unreachable, WObservation (pod_obs "3f5e" PtraceAttach)) (pod_obs "3f5e" PtraceAttach) [(None, Accepted, WWindow)] eq_refl _ _)).
  - vm_compute. intros o Ho. apply list_elem_of_singleton in Ho as ->. exists "3f5e". by split.
  - exists (None, Accepted, WWindow). split; [left|by left].
Defined.

(** ** Where a signal is lost *)

(** The window keeps one connection within the cluster of a pod, whatever its peer:
    a contact with the metadata service after another connection is not posted,
    though the engine holds the two apart and takes the second for a foothold. *)
Theorem metadata_contact_dropped :
  let db := pod_obs "3f5e" (into_behavior (RConnect (mkAttr 7 9) 84148234 5432)) in
  let imds := pod_obs "3f5e" (into_behavior (RConnect (mkAttr 7 9) 4272553641 80)) in
  PeerClass.foothold_peer (ob_behavior imds) <> None /\ same_signal db imds = false /\
  carried (nth 0 (agent_run entries_order None [(None, Accepted, WObservation imds); (None, Accepted, WWindow)] (flusher_start None)).1 None) = [] /\
  carried (nth 1 (agent_run entries_order None [(None, Accepted, WObservation imds); (None, Accepted, WWindow)] (flusher_start None)).1 None) = [imds] /\
  carried (nth 2 (agent_run entries_order None [(None, Accepted, WObservation db); (None, Accepted, WObservation imds); (None, Accepted, WWindow)] (flusher_start None)).1 None) = [db].
Proof. vm_compute. repeat split; congruence. Qed.

(** Reports sent one after the other, the token source and the answers at each. *)
Fixpoint send_run (answer : option string -> Answer) (sends : list (option string * RuntimeReport)) (r : Reporter) : list (option Request) * Reporter :=
  match sends with
  | [] => ([], r)
  | (source, report) :: sends =>
      let '(req, _, r) := send source (answer (rp_token r)) report r in
      let '(reqs, r) := send_run answer sends r in (req :: reqs, r)
  end.

Definition accepts_only (secret : string) (token : option string) : Answer := if bool_decide (token = Some secret) then Accepted else Unauthorized.

(** A secret that reaches the token source after the third refusal of a run is
    never used: every request after it carries the token of before and is refused. *)
Theorem rotation_wedges secret sends r :
  (RERESOLVE_AFTER_401S <= rp_consecutive_401s r)%N -> rp_token r <> Some secret ->
  rp_token (send_run (accepts_only secret) sends r).2 = rp_token r /\
  rp_delivered_total (send_run (accepts_only secret) sends r).2 = rp_delivered_total r /\
  forall token report, Some (token, report) ∈ (send_run (accepts_only secret) sends r).1 -> token = rp_token r.
Proof.
  revert r. induction sends as [|[source report] sends IH]; intros r Hn Ht; cbn [send_run].
  - split; [done|]. split; [done|]. by intros token report ?%not_elem_of_nil.
  - unfold accepts_only at 1 3 5. rewrite bool_decide_eq_false_2 by done. unfold send.
    destruct (bool_decide (rr_observations report = []) && bool_decide (rr_liveness report = None)); cbv beta iota.
    + specialize (IH r Hn Ht). destruct (send_run _ sends r) as [reqs r']. cbn [fst snd] in *. destruct IH as (E1 & E2 & E3).
      split; [done|]. split; [done|]. intros token rep [[=]|H]%elem_of_cons. by apply (E3 token rep).
    + unfold on_unauthorized. cbn [rp_token rp_consecutive_401s rp_delivered_total rp_rejected_total].
      unfold RERESOLVE_AFTER_401S, U32_MAX in *. destruct (N.eqb_spec (N.min (rp_consecutive_401s r + 1) 4294967295) 3) as [?|_]; [lia|].
      set (r1 := mkReporter _ _ _ _).
      destruct (IH r1) as (E1 & E2 & E3); [cbn; lia|done|]. destruct (send_run _ sends r1) as [reqs r']. cbn [fst snd] in *.
      split; [done|]. split; [done|]. intros token rep [[= -> ->]|H]%elem_of_cons; [done|]. by apply (E3 token rep).
Qed.

(** A process outside the table keeps the answer its number first had: a number the
    kernel gives again is put to the pod of the process before it, and one read
    before it joined its pod stays a host's. *)
Theorem fallback_outlives_process :
  let at_cgroup path := mkProc (fun _ => Some path) (fun _ => None) None in
  let old := "0::/kubepods/besteffort/pod3f5e-1/c1" in
  let new := "0::/kubepods/besteffort/pod77aa-2/c2" in
  let e := RPtraceAttach (mkAttr 7 0) in
  let after first := (attribute_event (at_cgroup new) e (attribute_event (at_cgroup first) e (worker_start ∅)).2).1 in
  after new = [worker_obs "77aa-2" (at_cgroup new) PtraceAttach] /\
  after old = [worker_obs "3f5e-1" (at_cgroup new) PtraceAttach] /\
  after "0::/system.slice/containerd.service" = [].
Proof. vm_compute. auto. Qed.

(** A slice of the host whose name holds the mark of a pod is read as one. *)
Theorem host_slice_reads_as_pod :
  classify_cgroup (Some "0::/machine.slice/machine-podman.slice/libpod-1.scope") = PodOf "man" /\
  classify_cgroup (Some "0::/machine.slice/libpod-1.scope") = NotAPod.
Proof. vm_compute. auto. Qed.

(** ** The scan reaches every directory *)

Fixpoint stack_size (stack : list (string * option (list Dir) * nat)) : nat :=
  match stack with [] => 0 | (path, children, _) :: stack => dir_size (mkDir path None children) + stack_size stack end.

Lemma stack_size_app a b : stack_size (a ++ b) = stack_size a + stack_size b.
Proof. induction a as [|[[p c] d] a IH]; [done|]. cbn [app stack_size]. rewrite IH. lia. Qed.

Lemma stack_size_rev a : stack_size (rev a) = stack_size a.
Proof. induction a as [|[[p c] d] a IH]; [done|]. cbn [rev]. rewrite stack_size_app, IH. cbn [stack_size]. lia. Qed.

(** What lies below a directory. *)
Definition below (children : option (list Dir)) : nat := stack_size ((fun '(mkDir name _ grand) => (name, grand, 0)) <$> default [] children).

Lemma dir_size_below path ino children : dir_size (mkDir path ino children) = S (below children).
Proof.
  destruct children as [ds|]; [|done]. unfold below. change (default [] (Some ds)) with ds. cbn [dir_size]. f_equal.
  induction ds as [|[name i grand] ds IH]; [done|]. cbn [fmap list_fmap stack_size]. rewrite <- IH. reflexivity.
Qed.

(** A round of the walk takes a directory off what is left. *)
Lemma scan_enough n : forall m entries stack, stack_size stack <= n -> stack_size stack <= m -> scan_walk n entries stack = scan_walk m entries stack.
Proof.
  induction n as [|n IH]; intros m entries [|[[path children] depth] stack] Hn Hm; try (by destruct m); cbn [stack_size] in *; rewrite dir_size_below in *; [lia|].
  destruct m as [|m]; [lia|]. cbn [scan_walk]. destruct (MAX_DEPTH <? depth); [apply IH; lia|].
  apply IH; rewrite stack_size_app, stack_size_rev.
  all: match goal with |- stack_size ?s + _ <= _ => assert (stack_size s = below children) as -> end; [|lia].
  all: unfold below; induction (default [] children) as [|[name i grand] ds IHd]; [done|]; cbn [fmap list_fmap stack_size]; by rewrite IHd, !dir_size_below.
Qed.

(** Ten directories deep the scan still finds its pod, and one past the depth not. *)
Fixpoint nest (n : nat) (d : Dir) : Dir := match n with 0 => d | S n => mkDir "d" None (Some [nest n d]) end.

Theorem scan_finds :
  let pod := mkDir "pod3f5e-1" (Some 77%N) None in
  let scan n := scan_cgroupfs "/sys/fs/cgroup" (Some [nest n pod]) !! 77%N in
  scan 0 = Some "3f5e-1" /\ scan MAX_DEPTH = Some "3f5e-1" /\ scan (S MAX_DEPTH) = None /\ scan_cgroupfs "/sys/fs/cgroup" None = ∅.
Proof. vm_compute. auto. Qed.

(** ** Witnesses *)

(** A map that evicts nothing. *)
#[local] Instance roomy : LruInsert := fun K E C k v m => <[k := v]> m.

#[local] Instance roomy_laws : LruLaws.
Proof. intros K E C k k' v v' m Hk. unfold lru_insert, roomy in Hk. apply lookup_insert_Some in Hk as [[-> ->]|[? ?]]; [left|right]; auto. Qed.

Definition a_task : Task := mkTask 7 42 1000 true true.

Lemma sensing_exact_witness :
  exists evs, k_events (on_hook (HSocketConnect (Some AF_INET) 84148234 14357) a_task k_boot) = [] ++ evs /\
    (tk_room a_task = false -> tk_room_second a_task = false \/ (forall f, HSocketConnect (Some AF_INET) 84148234 14357 <> HFileOpen f) -> evs = []) /\
    forall raw, raw ∈ omap decode evs <-> room_for a_task raw = true /\
       senses a_task (HSocketConnect (Some AF_INET) 84148234 14357) raw /\ ~ held a_task (HSocketConnect (Some AF_INET) 84148234 14357) raw k_boot.
Proof. apply (sensing_exact a_task (HSocketConnect (Some AF_INET) 84148234 14357) k_boot); split; reflexivity. Defined.

Lemma held_after_first_witness :
  exists j t, j < 2 /\ [(7, 0); (9, 1); (7, 999999999)]%N !! j = Some (7%N, t) /\
    gate_run [(7, 0); (9, 1); (7, 999999999)]%N ∅ !! j = Some true /\ (t <= 999999999 < t + DEDUP_WINDOW_NS)%N.
Proof. apply (held_after_first [(7, 0); (9, 1); (7, 999999999)]%N 2 7%N 999999999%N); reflexivity. Defined.

Definition secret_only (sends : list (option string)) : Reporter :=
  (send_run (accepts_only "new") ((fun s => (s, mkRuntimeReport [pod_obs "3f5e" PtraceAttach] None)) <$> sends) (reporter_new (Some "old"))).2.

(** A secret that reaches the source by the third refusal is picked up; one refusal
    later it is not. *)
Theorem rotation_by_the_third :
  rp_delivered_total (secret_only [Some "old"; Some "old"; Some "new"; Some "new"]) = 1%N /\
  rp_consecutive_401s (secret_only [Some "old"; Some "old"; Some "old"; Some "new"]) = 4%N /\
  rp_token (secret_only [Some "old"; Some "old"; Some "old"; Some "new"]) = Some "old".
Proof. vm_compute. auto. Qed.
