(* ===== verification/Preflight.v ===== *)
(** * The load-time check of kernel offsets

    src/agent: the table of offsets (common/src/offsets.rs), the reader of the
    kernel's type information (protector-agent/src/preflight/btf.rs), the check
    (preflight/mod.rs) and the probes it lets attach
    (observer/ebpf/preflight_gate.rs, observer.rs). Bytes are strings; sizes are
    those of a 64-bit agent, where no sum of two 32-bit words overflows; the sum of
    offsets of a release build wraps. Then what an attached probe may rely on. *)

From S2P Require Import Prelude Text ImageRef Posture Behavior Enrich Evidence Ingest Journal Agent AgentFacts.

#[local] Arguments String.append : simpl nomatch.

(** ** offsets.rs *)

Record FieldOffset := mkFieldOffset { fo_struct : string; fo_field : string; fo_offset : N }.

Definition FIELD_OFFSETS : list FieldOffset := [
  mkFieldOffset "file" "f_inode" 32; mkFieldOffset "file" "f_flags" 40; mkFieldOffset "file" "f_path" 64;
  mkFieldOffset "path" "dentry" 8; mkFieldOffset "dentry" "d_name" 32; mkFieldOffset "qstr" "name" 8;
  mkFieldOffset "inode" "i_sb" 40; mkFieldOffset "inode" "i_ino" 64; mkFieldOffset "inode" "i_nlink" 72;
  mkFieldOffset "super_block" "s_magic" 96; mkFieldOffset "cred" "uid" 8; mkFieldOffset "kuid_t" "val" 0;
  mkFieldOffset "linux_binprm" "file" 64; mkFieldOffset "linux_binprm" "filename" 96].

Definition LOADING_MODULE_ENUM : string := "kernel_load_data_id".
Definition LOADING_MODULE_VARIANT : string := "LOADING_MODULE".
Definition LOADING_MODULE_VALUE : N := 2.

(** [None] is the panic. *)
Definition offset_of_table (kernel_struct field : string) : option N :=
  fo_offset <$> find_map (fun e => if bool_decide (fo_struct e = kernel_struct) && bool_decide (fo_field e = field) then Some e else None) FIELD_OFFSETS.

(** ** btf.rs *)

Inductive BtfParseError := TooShort | BadMagic | Truncated.

Definition BTF_MAGIC : N := 60319.
Definition BTF_HEADER_LEN : nat := 24.
Definition BTF_INT : N := 1.
Definition BTF_ARRAY : N := 3.
Definition BTF_STRUCT : N := 4.
Definition BTF_UNION : N := 5.
Definition BTF_ENUM : N := 6.
Definition BTF_TYPEDEF : N := 8.
Definition BTF_VOLATILE : N := 9.
Definition BTF_CONST : N := 10.
Definition BTF_RESTRICT : N := 11.
Definition BTF_FUNC_PROTO : N := 13.
Definition BTF_VAR : N := 14.
Definition BTF_DATASEC : N := 15.
Definition BTF_DECL_TAG : N := 17.
Definition BTF_ENUM64 : N := 19.

(** The byte order: little or not. *)
Definition endian_value (le : bool) (b : string) : N := le_value (if le then b else str_rev b).

(** The word at [off]; [None] when the bytes end before it does. *)
Definition u32_at (le : bool) (buf : string) (off : nat) : option N :=
  if String.length buf <? off + 4 then None else Some (endian_value le (sub_bytes off 4 buf)).

Definition as_signed (width : Z) (v : N) : Z := if (Z.of_N v <? 2 ^ (width - 1))%Z then Z.of_N v else (Z.of_N v - 2 ^ width)%Z.

Record Member := mkMember { mb_name : string; mb_type_id : N; mb_byte_offset : N }.
Record EnumVariant := mkVariant { ev_name : string; ev_value : Z }.

Inductive Decoded :=
  | DStruct (members : list Member)
  | DUnion (members : list Member)
  | DEnum (variants : list EnumVariant)
  | DForward (type_id : N)
  | DOpaque.

Record RawType := mkRawType { rt_name : string; rt_kind : Decoded }.

Abbreviation RawBtf := (list RawType).

(** The bytes up to the first NUL from [offset], or to the end. *)
Fixpoint until_nul (s : string) : string :=
  match s with EmptyString => EmptyString | String a s => if Ascii.eqb a nul then EmptyString else String a (until_nul s) end.

Definition string_at (strings : string) (offset : N) : string :=
  from_utf8_lossy (until_nul (sub_bytes (N.to_nat offset) (String.length strings) strings)).

Fixpoint members_at (n base : nat) (kind_flag le : bool) (strings buf : string) : option (list Member) :=
  match n with
  | 0 => Some []
  | S n =>
      m_name ← u32_at le buf base; m_type ← u32_at le buf (base + 4); m_off ← u32_at le buf (base + 8);
      let bit_offset := if kind_flag then N.land m_off 16777215 else m_off in
      ms ← members_at n (base + 12) kind_flag le strings buf;
      Some (mkMember (string_at strings m_name) m_type (bit_offset / 8) :: ms)
  end.

Fixpoint variants_at (n base : nat) (le : bool) (strings buf : string) : option (list EnumVariant) :=
  match n with
  | 0 => Some []
  | S n =>
      v_name ← u32_at le buf base; v_val ← u32_at le buf (base + 4);
      vs ← variants_at n (base + 8) le strings buf;
      Some (mkVariant (string_at strings v_name) (as_signed 32 v_val) :: vs)
  end.

Fixpoint variants64_at (n base : nat) (le : bool) (strings buf : string) : option (list EnumVariant) :=
  match n with
  | 0 => Some []
  | S n =>
      v_name ← u32_at le buf base; lo ← u32_at le buf (base + 4); hi ← u32_at le buf (base + 8);
      vs ← variants64_at n (base + 12) le strings buf;
      Some (mkVariant (string_at strings v_name) (as_signed 64 (N.lor (N.shiftl hi 32) lo)) :: vs)
  end.

(** What follows the twelve bytes of a type: what it decodes to, how long it is. *)
Definition type_body (kind : N) (kind_flag : bool) (vlen : nat) (extra : N) (le : bool) (strings buf : string) : option (Decoded * nat) :=
  if (kind =? BTF_STRUCT)%N || (kind =? BTF_UNION)%N then
    if String.length buf <? 12 + vlen * 12 then None
    else ms ← members_at vlen 12 kind_flag le strings buf; Some (if (kind =? BTF_STRUCT)%N then DStruct ms else DUnion ms, vlen * 12)
  else if (kind =? BTF_ENUM)%N then
    if String.length buf <? 12 + vlen * 8 then None else vs ← variants_at vlen 12 le strings buf; Some (DEnum vs, vlen * 8)
  else if (kind =? BTF_ENUM64)%N then
    if String.length buf <? 12 + vlen * 12 then None else vs ← variants64_at vlen 12 le strings buf; Some (DEnum vs, vlen * 12)
  else if (kind =? BTF_TYPEDEF)%N || (kind =? BTF_CONST)%N || (kind =? BTF_RESTRICT)%N || (kind =? BTF_VOLATILE)%N then Some (DForward extra, 0)
  else if (kind =? BTF_INT)%N then Some (DOpaque, 4)
  else if (kind =? BTF_ARRAY)%N then Some (DOpaque, 12)
  else if (kind =? BTF_FUNC_PROTO)%N then if String.length buf <? 12 + vlen * 8 then None else Some (DOpaque, vlen * 8)
  else if (kind =? BTF_DATASEC)%N then if String.length buf <? 12 + vlen * 12 then None else Some (DOpaque, vlen * 12)
  else if (kind =? BTF_VAR)%N || (kind =? BTF_DECL_TAG)%N then Some (DOpaque, 4)
  else Some (DOpaque, 0).

(** One type, and the bytes after it. *)
Definition parse_type (le : bool) (strings buf : string) : option (RawType * string) :=
  name_off ← u32_at le buf 0; info ← u32_at le buf 4; extra ← u32_at le buf 8;
  '(decoded, more) ← type_body (N.land (N.shiftr info 24) 31) (N.land (N.shiftr info 31) 1 =? 1)%N (N.to_nat (N.land info 65535)) extra le strings buf;
  if String.length buf <? 12 + more then None
  else Some (mkRawType (string_at strings name_off) decoded, sub_bytes (12 + more) (String.length buf) buf).

(** A round reads at least twelve bytes. *)
Fixpoint parse_types (fuel : nat) (le : bool) (strings buf : string) : option (list RawType) :=
  match buf, fuel with
  | EmptyString, _ => Some []
  | _, 0 => None
  | _, S fuel => '(t, rest) ← parse_type le strings buf; ts ← parse_types fuel le strings rest; Some (t :: ts)
  end.

Definition btf_parse (data : string) : BtfParseError + RawBtf :=
  if String.length data <? BTF_HEADER_LEN then inl TooShort
  else
    let magic := sub_bytes 0 2 data in
    let endian := if (endian_value true magic =? BTF_MAGIC)%N then Some true
                  else if (endian_value false magic =? BTF_MAGIC)%N then Some false else None in
    match endian with
    | None => inl BadMagic
    | Some le =>
        let word off := N.to_nat (endian_value le (sub_bytes off 4 data)) in
        let type_start := word 4 + word 8 in
        let type_end := type_start + word 12 in
        let str_start := word 4 + word 16 in
        let str_end := str_start + word 20 in
        if (String.length data <? type_end) || (String.length data <? str_end) then inl Truncated
        else
          let strings := sub_bytes str_start (word 20) data in
          match parse_types (word 12) le strings (sub_bytes type_start (word 12) data) with
          | Some types => inr types
          | None => inl Truncated
          end
    end.

Definition decoded (btf : RawBtf) (type_id : N) : option Decoded :=
  if (type_id =? 0)%N then None else rt_kind <$> btf !! N.to_nat (type_id - 1).

Definition AGGREGATE_HOPS : nat := 16.

Fixpoint resolve_hops (n : nat) (btf : RawBtf) (type_id : N) : option N :=
  match n with
  | 0 => None
  | S n =>
      match decoded btf type_id with
      | Some (DStruct _) | Some (DUnion _) => Some type_id
      | Some (DForward to) => resolve_hops n btf to
      | _ => None
      end
  end.

Definition resolve_to_aggregate (btf : RawBtf) (type_id : N) : option N := resolve_hops AGGREGATE_HOPS btf type_id.

(** The number of a type in the table, from its place. *)
Definition type_no (i : nat) : N := N.of_nat (S i).

Definition enum_id (btf : RawBtf) (name : string) : option N :=
  find_map (fun '(i, t) => match rt_kind t with DEnum _ => if bool_decide (rt_name t = name) then Some (type_no i) else None | _ => None end) (imap pair btf).

Definition aggregate_id (btf : RawBtf) (name : string) : option N :=
  find_map (fun '(i, t) =>
    if negb (bool_decide (rt_name t = name)) then None
    else match rt_kind t with
         | DStruct _ | DUnion _ => Some (type_no i)
         | DForward _ => resolve_to_aggregate btf (type_no i)
         | _ => None
         end) (imap pair btf).

Definition MAX_MEMBER_RECURSION : nat := 16.

Definition members_of (btf : RawBtf) (type_id : N) : option (list Member) :=
  match decoded btf type_id with Some (DStruct ms) | Some (DUnion ms) => Some ms | _ => None end.

Fixpoint member_offset_bounded (budget : nat) (btf : RawBtf) (type_id : N) (field : string) : option N :=
  match budget with
  | 0 => None
  | S budget =>
      ms ← members_of btf type_id;
      find_map (fun m =>
        if bool_decide (mb_name m = field) then Some (mb_byte_offset m)
        else if bool_decide (mb_name m = "") then
          inner_id ← resolve_to_aggregate btf (mb_type_id m);
          inner_off ← member_offset_bounded budget btf inner_id field;
          Some ((mb_byte_offset m + inner_off) mod 2 ^ 32)%N
        else None) ms
  end.

Definition member_offset : RawBtf -> N -> string -> option N := member_offset_bounded MAX_MEMBER_RECURSION.

Definition struct_field_offset (btf : RawBtf) (struct_name field : string) : option N :=
  id ← aggregate_id btf struct_name; member_offset btf id field.

Definition enum_value (btf : RawBtf) (enum_name variant : string) : option Z :=
  id ← enum_id btf enum_name;
  match decoded btf id with
  | Some (DEnum variants) => find_map (fun v => if bool_decide (ev_name v = variant) then Some (ev_value v) else None) variants
  | _ => None
  end.

(** ** preflight/mod.rs *)

Record FieldMismatch := mkFieldMismatch { fm_struct : string; fm_field : string; fm_expected : N; fm_actual : option N }.
Record EnumMismatch := mkEnumMismatch { em_enum : string; em_variant : string; em_expected : Z; em_actual : option Z }.
Record PreflightReport := mkPreflight { pf_fields : list FieldMismatch; pf_enum : option EnumMismatch }.

Definition struct_ok (r : PreflightReport) (kernel_struct : string) : bool :=
  negb (existsb (fun m => bool_decide (fm_struct m = kernel_struct)) (pf_fields r)).

Definition preflight_clean (r : PreflightReport) : bool := bool_decide (pf_fields r = []) && match pf_enum r with None => true | Some _ => false end.

Definition fail_closed : PreflightReport :=
  mkPreflight ((fun e => mkFieldMismatch (fo_struct e) (fo_field e) (fo_offset e) None) <$> FIELD_OFFSETS)
    (Some (mkEnumMismatch LOADING_MODULE_ENUM LOADING_MODULE_VARIANT (Z.of_N LOADING_MODULE_VALUE) None)).

Definition preflight_check (btf : RawBtf) : PreflightReport :=
  mkPreflight
    (omap (fun e => let actual := struct_field_offset btf (fo_struct e) (fo_field e) in
       if bool_decide (actual = Some (fo_offset e)) then None else Some (mkFieldMismatch (fo_struct e) (fo_field e) (fo_offset e) actual)) FIELD_OFFSETS)
    (let actual := enum_value btf LOADING_MODULE_ENUM LOADING_MODULE_VARIANT in
     if bool_decide (actual = Some (Z.of_N LOADING_MODULE_VALUE)) then None
     else Some (mkEnumMismatch LOADING_MODULE_ENUM LOADING_MODULE_VARIANT (Z.of_N LOADING_MODULE_VALUE) actual)).

Definition check_bytes (data : string) : PreflightReport :=
  match btf_parse data with inr btf => preflight_check btf | inl _ => fail_closed end.

(** ** preflight_gate.rs and observer.rs *)

Definition STRUCT_DEPS : list (string * list string) := [
  ("file_open", ["file"; "inode"; "super_block"; "path"; "dentry"; "qstr"]);
  ("file_write", ["file"; "inode"; "path"]);
  ("mmap_file", ["file"; "path"; "dentry"; "qstr"]);
  ("fix_setuid", ["cred"; "kuid_t"]);
  ("bprm_check", ["linux_binprm"; "file"; "inode"; "super_block"])].

Definition struct_deps (probe : string) : list string :=
  default [] (find_map (fun '(name, deps) => if bool_decide (name = probe) then Some deps else None) STRUCT_DEPS).

(** What the read of /sys/kernel/btf/vmlinux gives. *)
Definition load_preflight (vmlinux : option string) : PreflightReport := match vmlinux with Some b => check_bytes b | None => fail_closed end.

Definition FENTRY_PROBES : list (string * string) := [
  ("file_open", "security_file_open"); ("file_write", "security_file_open"); ("mmap_file", "security_mmap_file");
  ("fix_setuid", "security_task_fix_setuid"); ("bprm_check", "security_bprm_check");
  ("ptrace_access_check", "security_ptrace_access_check"); ("kernel_load_data", "security_kernel_load_data")].

(** The probes that attach, and how many were to. [attach_one] is what the loader
    says of a probe at its hook, [has_btf] whether it has type information at all. *)
Definition attach_fentry (has_btf : bool) (vmlinux : option string) (attach_one : string -> string -> bool) : list string * nat :=
  let attempted := length FENTRY_PROBES in
  if negb has_btf then ([], attempted)
  else
    let preflight := load_preflight vmlinux in
    (omap (fun '(name, func) =>
       if existsb (fun s => negb (struct_ok preflight s)) (struct_deps name) then None
       else if attach_one name func then Some name else None) FENTRY_PROBES, attempted).

(** ** What the programs read (protector-agent-ebpf)

    The kernel fields a program reads, function by function, and the offsets it
    was compiled with (vmlinux.rs). *)

Definition BINDINGS : list (string * string * N) := [
  ("file", "f_inode", 32); ("file", "f_flags", 40); ("file", "f_path", 64); ("path", "dentry", 8); ("dentry", "d_name", 32); ("qstr", "name", 8);
  ("inode", "i_sb", 40); ("inode", "i_ino", 64); ("inode", "i_nlink", 72); ("super_block", "s_magic", 96); ("cred", "uid", 8); ("kuid_t", "val", 0);
  ("linux_binprm", "file", 64); ("linux_binprm", "filename", 96)]%N.

Definition inode_of_reads : list (string * string) := [("file", "f_inode")].
Definition superblock_magic_reads : list (string * string) := [("inode", "i_sb"); ("super_block", "s_magic")].
Definition is_tmpfs_reads : list (string * string) := inode_of_reads ++ superblock_magic_reads.
Definition inode_ino_reads : list (string * string) := inode_of_reads ++ [("inode", "i_ino")].
(** What [bpf_d_path] is handed: the path inside a file, with its dentry. *)
Definition emit_file_path_reads : list (string * string) := [("file", "f_path"); ("path", "dentry")].
Definition emit_lib_name_reads : list (string * string) := [("file", "f_path"); ("path", "dentry"); ("dentry", "d_name"); ("qstr", "name")].
Definition credential_basename_reads : list (string * string) := [("file", "f_path"); ("path", "dentry"); ("dentry", "d_name"); ("qstr", "name")].
Definition exe_is_anon_inode_reads : list (string * string) :=
  [("linux_binprm", "file")] ++ inode_of_reads ++ [("inode", "i_nlink")] ++ superblock_magic_reads.
Definition emit_exec_path_reads : list (string * string) := [("linux_binprm", "filename")].

(** The reads of each program; the two that are not here read arguments only. *)
Definition probe_reads (probe : string) : list (string * string) :=
  if bool_decide (probe = "file_open") then is_tmpfs_reads ++ emit_file_path_reads ++ credential_basename_reads ++ inode_ino_reads
  else if bool_decide (probe = "file_write") then [("file", "f_flags")] ++ inode_ino_reads ++ emit_file_path_reads
  else if bool_decide (probe = "mmap_file") then emit_lib_name_reads
  else if bool_decide (probe = "fix_setuid") then [("cred", "uid"); ("kuid_t", "val")]
  else if bool_decide (probe = "bprm_check") then exe_is_anon_inode_reads ++ emit_exec_path_reads
  else [].

(** ** Where a field is *)

(** The named fields of an aggregate with their places, those of anonymous
    members no more than [n] levels down at the exact sum. *)
Fixpoint layout (n : nat) (btf : RawBtf) (id : N) : list (string * N) :=
  match n with
  | 0 => []
  | S n =>
      default [] (members_of btf id) ≫= fun m =>
        if bool_decide (mb_name m = "")
        then match resolve_to_aggregate btf (mb_type_id m) with
             | Some inner => (fun fo => (fo.1, mb_byte_offset m + fo.2)%N) <$> layout n btf inner
             | None => []
             end
        else [(mb_name m, mb_byte_offset m)]
  end.

(** The aggregates a name stands for. *)
Definition named (btf : RawBtf) (s : string) : list N :=
  omap (fun it => if bool_decide (rt_name it.2 = s) then resolve_to_aggregate btf (type_no it.1) else None) (imap pair btf).

(** The layout a node gives a structure that it has under one name only. *)
Definition node_layout (btf : RawBtf) (s : string) : list (string * N) :=
  match named btf s with [id] => layout MAX_MEMBER_RECURSION btf id | _ => [] end.

(** A node that names each structure once, each of its fields once, and has them
    within the four gigabytes an offset can say. *)
Definition plain_node (btf : RawBtf) : Prop :=
  Forall (fun s => length (named btf s) <= 1 /\ NoDup (node_layout btf s).*1 /\ Forall (fun o => o < 2 ^ 32)%N (node_layout btf s).*2)
    (BINDINGS.*1.*1).

(** The field is a member, or one of an anonymous member [d - 1] levels down. *)
Inductive located (btf : RawBtf) : N -> string -> N -> nat -> Prop :=
  | l_here id ms m field : members_of btf id = Some ms -> m ∈ ms -> mb_name m = field -> located btf id field (mb_byte_offset m) 1
  | l_inside id ms m inner field off d :
      members_of btf id = Some ms -> m ∈ ms -> mb_name m = "" -> resolve_to_aggregate btf (mb_type_id m) = Some inner ->
      located btf inner field off d -> located btf id field ((mb_byte_offset m + off) mod 2 ^ 32) (S d).

Lemma member_sound btf field n : forall id off, member_offset_bounded n btf id field = Some off -> exists d, d <= n /\ located btf id field off d.
Proof.
  induction n as [|n IH]; intros id off H; [done|]. cbn [member_offset_bounded] in H.
  destruct (members_of btf id) as [ms|] eqn:Em; [|done]. apply find_map_some in H as (m & Hm & H). case_bool_decide as Hf.
  - injection H as <-. exists 1. split; [lia|]. by eapply l_here.
  - case_bool_decide as He; [|done]. destruct (resolve_to_aggregate btf (mb_type_id m)) as [inner|] eqn:Er; [|done]. cbn in H.
    destruct (member_offset_bounded n btf inner field) as [o|] eqn:Eo; [|done]. injection H as <-.
    destruct (IH inner o Eo) as (d & Hd & Hl). exists (S d). split; [lia|]. by eapply l_inside.
Qed.

Lemma member_complete btf id field off d : located btf id field off d -> forall n, d <= n -> is_Some (member_offset_bounded n btf id field).
Proof.
  induction 1 as [id ms m field Em Hm Hf|id ms m inner field off d Em Hm He Er Hl IH]; intros [|n] Hn; try lia; cbn [member_offset_bounded]; rewrite Em; cbn [mbind option_bind].
  all: destruct (find_map _ ms) as [o|] eqn:E; [done|]; rewrite find_map_none in E; specialize (E m Hm).
  - by rewrite bool_decide_eq_true_2 in E.
  - case_bool_decide; [done|]. rewrite bool_decide_eq_true_2 in E by done. destruct (IH n ltac:(lia)) as [o Ho]. rewrite Er in E. cbn [mbind option_bind] in E. by rewrite Ho in E.
Qed.

(** An offset the reader gives is that of a member of the named structure or of
    an anonymous one inside it, and it gives one whenever there is such a member no
    more than sixteen levels down. *)
Theorem field_offset_located btf struct_name field id : aggregate_id btf struct_name = Some id ->
  (forall off, struct_field_offset btf struct_name field = Some off -> exists d, d <= MAX_MEMBER_RECURSION /\ located btf id field off d) /\
  (forall off d, located btf id field off d -> d <= MAX_MEMBER_RECURSION -> is_Some (struct_field_offset btf struct_name field)).
Proof.
  intros Ha. unfold struct_field_offset. rewrite Ha. cbn [mbind option_bind]. split.
  - intros off. apply member_sound.
  - intros off d Hl Hd. by apply (member_complete btf id field off d Hl).
Qed.

(** Without the wrap, what the reader gives is a place of the layout. *)
Lemma layout_sound btf field n : field <> "" -> forall id off, member_offset_bounded n btf id field = Some off ->
  exists t, (field, t) ∈ layout n btf id /\ ((t < 2 ^ 32)%N -> off = t).
Proof.
  intros Hne. induction n as [|n IH]; intros id off H; [done|]. cbn [member_offset_bounded] in H. cbn [layout].
  destruct (members_of btf id) as [ms|] eqn:Em; [|done]. apply find_map_some in H as (m & Hm & H). cbn [default]. case_bool_decide as Hf.
  - injection H as <-. exists (mb_byte_offset m). split; [|done]. apply list_elem_of_bind. exists m. split; [|done].
    rewrite bool_decide_eq_false_2 by congruence. subst field. by left.
  - case_bool_decide as He; [|done]. destruct (resolve_to_aggregate btf (mb_type_id m)) as [inner|] eqn:Er; [|done]. cbn [mbind option_bind] in H.
    destruct (member_offset_bounded n btf inner field) as [o|] eqn:Eo; [|done]. injection H as <-.
    destruct (IH inner o Eo) as (t & Ht & Hto). exists (mb_byte_offset m + t)%N. split.
    + apply list_elem_of_bind. exists m. split; [|done]. rewrite bool_decide_eq_true_2 by done. rewrite Er. apply list_elem_of_fmap. by exists (field, t).
    + intros Hlt. rewrite Hto by lia. by apply N.mod_small.
Qed.

Lemma layout_complete btf field n : forall id t, (field, t) ∈ layout n btf id -> is_Some (member_offset_bounded n btf id field).
Proof.
  induction n as [|n IH]; intros id t Ht; cbn [layout] in Ht; [by apply not_elem_of_nil in Ht|]. cbn [member_offset_bounded].
  destruct (members_of btf id) as [ms|]; cbn [default] in Ht; [|by apply not_elem_of_nil in Ht]. cbn [mbind option_bind].
  apply list_elem_of_bind in Ht as (m & Hm & Hin). destruct (find_map _ ms) as [o|] eqn:E; [done|]. rewrite find_map_none in E.
  specialize (E m Hin). destruct (decide (mb_name m = "")) as [He|He]; [rewrite !(bool_decide_eq_true_2 (mb_name m = "") He) in *|rewrite !(bool_decide_eq_false_2 (mb_name m = "") He) in *].
  - destruct (resolve_to_aggregate btf (mb_type_id m)) as [inner|]; [|by apply not_elem_of_nil in Hm].
    apply list_elem_of_fmap in Hm as ([f t'] & [= -> _] & Hm). case_bool_decide; [done|]. cbn [mbind option_bind] in E.
    destruct (IH inner t' Hm) as [o Ho]. by rewrite Ho in E.
  - apply list_elem_of_singleton in Hm as [= -> _]. by rewrite bool_decide_eq_true_2 in E.
Qed.

Lemma aggregate_named btf s : aggregate_id btf s = head (named btf s).
Proof.
  unfold aggregate_id, named.
  assert (forall l, (forall i t, (i, t) ∈ l -> btf !! i = Some t) ->
    find_map (fun '(i, t) => if negb (bool_decide (rt_name t = s)) then None
      else match rt_kind t with DStruct _ | DUnion _ => Some (type_no i) | DForward _ => resolve_to_aggregate btf (type_no i) | _ => None end) l =
    head (omap (fun it => if bool_decide (rt_name it.2 = s) then resolve_to_aggregate btf (type_no it.1) else None) l)) as Hl.
  { induction l as [|[i t] l IH]; intros Hin; [done|]. specialize (IH (fun j u Hj => Hin j u ltac:(by right))). specialize (Hin i t ltac:(by left)).
    assert (decoded btf (type_no i) = Some (rt_kind t)) as Hd.
    { unfold decoded, type_no. destruct (N.eqb_spec (N.of_nat (S i)) 0); [lia|].
      assert (N.to_nat (N.of_nat (S i) - 1) = i) as -> by lia. by rewrite Hin. }
    cbn [find_map omap list_omap fst snd]. case_bool_decide; cbn [negb]; [|done].
    unfold resolve_to_aggregate, AGGREGATE_HOPS in *. cbn [resolve_hops]. rewrite Hd. destruct (rt_kind t); try done.
    cbn [resolve_hops]. destruct (match decoded btf type_id with Some (DStruct _) | Some (DUnion _) => _ | _ => _ end); done. }
  apply Hl. intros i t Hit. apply elem_of_lookup_imap in Hit as (j & u & [= -> ->] & Hj). done.
Qed.

(** On a plain node the reader finds a field where it is. *)
Lemma plain_offset btf s field off : plain_node btf -> (s, field, off) ∈ BINDINGS ->
  struct_field_offset btf s field = Some off <-> (field, off) ∈ node_layout btf s.
Proof.
  intros Hp Hb. unfold plain_node in Hp. rewrite Forall_forall in Hp. destruct (Hp s) as (Hlen & Hnd & Hsmall).
  { apply list_elem_of_fmap. exists (s, field). split; [done|]. apply list_elem_of_fmap. by exists (s, field, off). }
  assert (field <> "") as Hne.
  { assert (Forall (fun b => b.1.2 <> "") BINDINGS) as Hall by (repeat constructor; discriminate). rewrite Forall_forall in Hall. exact (Hall _ Hb). }
  unfold struct_field_offset, node_layout in *. rewrite aggregate_named. destruct (named btf s) as [|id [|id' l]]; [|cbn [head mbind option_bind]|cbn in Hlen; lia].
  { split; [done|]. by intros ?%not_elem_of_nil. }
  unfold member_offset. rewrite Forall_forall in Hsmall. rename Hsmall into Hs.
  assert (forall t, (field, t) ∈ layout MAX_MEMBER_RECURSION btf id -> (t < 2 ^ 32)%N) as Hlt.
  { intros t Ht. apply Hs. apply list_elem_of_fmap. by exists (field, t). }
  assert (forall t t', (field, t) ∈ layout MAX_MEMBER_RECURSION btf id -> (field, t') ∈ layout MAX_MEMBER_RECURSION btf id -> t = t') as Huniq.
  { intros t t' H1 H2. apply list_elem_of_lookup in H1 as [i Hi], H2 as [j Hj].
    assert (i = j) as ->; [|congruence]. eapply NoDup_lookup; [exact Hnd|rewrite list_lookup_fmap, Hi|rewrite list_lookup_fmap, Hj]; done. }
  split.
  - intros H. destruct (layout_sound btf field _ Hne id off H) as (t & Ht & Hto). by rewrite (Hto (Hlt t Ht)).
  - intros H. destruct (layout_complete btf field _ id off H) as [o Ho]. rewrite Ho. f_equal.
    destruct (layout_sound btf field _ Hne id o Ho) as (t & Ht & Hto). rewrite (Hto (Hlt t Ht)). by eapply Huniq.
Qed.

(** ** What attaches *)

Lemma untrusted_none (l : list FieldOffset) s :
  (forall m, m ∈ ((fun e => mkFieldMismatch (fo_struct e) (fo_field e) (fo_offset e) None) <$> l : list FieldMismatch) -> bool_decide (fm_struct m = s) = false) <->
  forall e, e ∈ l -> fo_struct e <> s.
Proof.
  split.
  - intros H e He Hs. specialize (H _ (list_elem_of_fmap_2 _ _ _ He)). cbn [fm_struct] in H. by rewrite bool_decide_eq_true_2 in H.
  - intros H m (e & -> & He)%list_elem_of_fmap. apply bool_decide_eq_false_2. by apply H.
Qed.

Lemma checked_ok btf (l : list FieldOffset) s :
  (forall m, m ∈ omap (fun e => let actual := struct_field_offset btf (fo_struct e) (fo_field e) in
     if bool_decide (actual = Some (fo_offset e)) then None else Some (mkFieldMismatch (fo_struct e) (fo_field e) (fo_offset e) actual)) l ->
     bool_decide (fm_struct m = s) = false) <->
  forall e, e ∈ l -> fo_struct e = s -> struct_field_offset btf (fo_struct e) (fo_field e) = Some (fo_offset e).
Proof.
  split.
  - intros H e He Hs. destruct (decide (struct_field_offset btf (fo_struct e) (fo_field e) = Some (fo_offset e))) as [?|Hne]; [done|].
    specialize (H (mkFieldMismatch (fo_struct e) (fo_field e) (fo_offset e) (struct_field_offset btf (fo_struct e) (fo_field e)))).
    cbn [fm_struct] in H. rewrite bool_decide_eq_true_2 in H by done. discriminate H. apply list_elem_of_omap. exists e. split; [done|]. cbv zeta.
    by rewrite bool_decide_eq_false_2.
  - intros H m (e & He & Hm)%list_elem_of_omap. cbv zeta in Hm. case_bool_decide as Hx; [done|]. injection Hm as <-. cbn [fm_struct].
    apply bool_decide_eq_false_2. intros Hs. by apply Hx, H.
Qed.

Lemma struct_ok_iff vmlinux s : struct_ok (load_preflight vmlinux) s = true <->
  forall e, e ∈ FIELD_OFFSETS -> fo_struct e = s -> exists data btf, vmlinux = Some data /\ btf_parse data = inr btf /\
    struct_field_offset btf (fo_struct e) (fo_field e) = Some (fo_offset e).
Proof.
  unfold struct_ok. rewrite negb_true_iff, existsb_false. destruct vmlinux as [data|]; cbn [load_preflight].
  1: unfold check_bytes; destruct (btf_parse data) as [err|btf] eqn:Ep.
  2: { unfold preflight_check. cbn [pf_fields]. rewrite checked_ok. split; intros H e He Hs; [exists data, btf; auto|].
       destruct (H e He Hs) as (d & b & [= <-] & Hb & Ho). congruence. }
  all: unfold fail_closed; cbn [pf_fields]; rewrite untrusted_none; split; intros H e He Hs; [by destruct (H e He)|].
  all: destruct (H e He Hs) as (d & b & Hd & Hb & _); congruence.
Qed.

Lemma attach_checked has_btf vmlinux attach_one probe :
  probe ∈ (attach_fentry has_btf vmlinux attach_one).1 <->
  has_btf = true /\ (exists func, (probe, func) ∈ FENTRY_PROBES /\ attach_one probe func = true) /\
  forall e, e ∈ FIELD_OFFSETS -> fo_struct e ∈ struct_deps probe ->
    exists data btf, vmlinux = Some data /\ btf_parse data = inr btf /\ struct_field_offset btf (fo_struct e) (fo_field e) = Some (fo_offset e).
Proof.
  unfold attach_fentry. destruct has_btf; cbn [negb]; [|split; [by intros ?%not_elem_of_nil|by intros [? _]]]. cbn [fst].
  rewrite list_elem_of_omap.
  assert (existsb (fun s => negb (struct_ok (load_preflight vmlinux) s)) (struct_deps probe) = false <->
    forall e, e ∈ FIELD_OFFSETS -> fo_struct e ∈ struct_deps probe ->
      exists data btf, vmlinux = Some data /\ btf_parse data = inr btf /\ struct_field_offset btf (fo_struct e) (fo_field e) = Some (fo_offset e)) as Hd.
  { rewrite existsb_false. setoid_rewrite negb_false_iff. setoid_rewrite struct_ok_iff. naive_solver. }
  split.
  - intros ([name func] & Hp & H). destruct (existsb _ (struct_deps name)) eqn:E; [done|]. destruct (attach_one name func) eqn:Ea; [|done].
    injection H as ->. split; [done|]. split; [by exists func|]. by apply Hd.
  - intros (_ & (func & Hp & Ha) & H). exists (probe, func). split; [done|]. apply Hd in H. by rewrite H, Ha.
Qed.

(** The table holds the compiled offsets, and the dependencies of a probe are the
    structures its program reads. *)
Lemma table_bindings : (fun e => (fo_struct e, fo_field e, fo_offset e)) <$> FIELD_OFFSETS = BINDINGS.
Proof. reflexivity. Qed.

Lemma deps_reads probe func s : (probe, func) ∈ FENTRY_PROBES -> s ∈ struct_deps probe <-> exists f, (s, f) ∈ probe_reads probe.
Proof.
  assert (forallb (fun p => forallb (fun s => bool_decide (s ∈ (probe_reads p).*1)) (struct_deps p) &&
    forallb (fun s => bool_decide (s ∈ struct_deps p)) (probe_reads p).*1) FENTRY_PROBES.*1 = true) as H by (vm_compute; reflexivity).
  intros Hp. rewrite forallb_forall in H. specialize (H probe). rewrite andb_true_iff, !forallb_forall in H.
  destruct H as [H1 H2]; [apply list_elem_of_In, list_elem_of_fmap; by exists (probe, func)|]. split.
  - intros Hs%list_elem_of_In%H1%bool_decide_eq_true. apply list_elem_of_fmap in Hs as ([s' f] & -> & Hf). by exists f.
  - intros [f Hf]. apply (bool_decide_eq_true_1 _), H2, list_elem_of_In, list_elem_of_fmap. by exists (s, f).
Qed.

Lemma reads_bound probe s f : (s, f) ∈ probe_reads probe -> exists off, (s, f, off) ∈ BINDINGS.
Proof.
  intros H. assert ((s, f) ∈ BINDINGS.*1) as Hb.
  { assert (forall l, forallb (fun r => bool_decide (r ∈ BINDINGS.*1)) l = true -> (s, f) ∈ l -> (s, f) ∈ BINDINGS.*1) as Hl.
    { intros l Hl Hin. rewrite forallb_forall in Hl. by apply (bool_decide_eq_true_1 _), Hl, list_elem_of_In. }
    unfold probe_reads in H. repeat (case_bool_decide; [eapply Hl; [|exact H]; vm_compute; reflexivity|]). by apply not_elem_of_nil in H. }
  apply list_elem_of_fmap in Hb as ([[s' f'] off] & [= -> ->] & Hb). by exists off.
Qed.


(** ** Reading back what is written *)

Definition word_bytes (le : bool) (w : N) : string := if le then le_bytes 4 w else str_rev (le_bytes 4 w).

Fixpoint words_bytes (le : bool) (ws : list N) : string :=
  match ws with [] => EmptyString | w :: ws => word_bytes le w +:+ words_bytes le ws end.

(** A type as the format lays it out: three words and what its kind appends. *)
Record BtfType := mkBtfType { bt_name_off : N; bt_kind : N; bt_flag : bool; bt_vlen : nat; bt_extra : N; bt_payload : list N }.

Definition payload_words (kind : N) (vlen : nat) : nat :=
  if (kind =? BTF_STRUCT)%N || (kind =? BTF_UNION)%N || (kind =? BTF_ENUM64)%N || (kind =? BTF_DATASEC)%N then vlen * 3
  else if (kind =? BTF_ENUM)%N || (kind =? BTF_FUNC_PROTO)%N then vlen * 2
  else if (kind =? BTF_INT)%N || (kind =? BTF_VAR)%N || (kind =? BTF_DECL_TAG)%N then 1
  else if (kind =? BTF_ARRAY)%N then 3 else 0.

Definition info_word (t : BtfType) : N := ((if bt_flag t then 2 ^ 31 else 0) + bt_kind t * 2 ^ 24 + N.of_nat (bt_vlen t))%N.

Definition type_bytes (le : bool) (t : BtfType) : string := words_bytes le (bt_name_off t :: info_word t :: bt_extra t :: bt_payload t).

Definition type_wf (t : BtfType) : Prop :=
  (bt_name_off t < 2 ^ 32)%N /\ (bt_kind t < 32)%N /\ (N.of_nat (bt_vlen t) < 2 ^ 16)%N /\ (bt_extra t < 2 ^ 32)%N /\
  length (bt_payload t) = payload_words (bt_kind t) (bt_vlen t) /\ Forall (fun w => w < 2 ^ 32)%N (bt_payload t).

(** What the words of a payload say. *)
Fixpoint said_members (flag : bool) (strings : string) (ws : list N) : list Member :=
  match ws with
  | name :: ty :: off :: ws =>
      mkMember (string_at strings name) ty ((if flag then N.land off 16777215 else off) / 8) :: said_members flag strings ws
  | _ => []
  end.

Fixpoint said_variants (strings : string) (ws : list N) : list EnumVariant :=
  match ws with name :: v :: ws => mkVariant (string_at strings name) (as_signed 32 v) :: said_variants strings ws | _ => [] end.

Fixpoint said_variants64 (strings : string) (ws : list N) : list EnumVariant :=
  match ws with
  | name :: lo :: hi :: ws => mkVariant (string_at strings name) (as_signed 64 (N.lor (N.shiftl hi 32) lo)) :: said_variants64 strings ws
  | _ => []
  end.

Definition said (strings : string) (t : BtfType) : RawType :=
  mkRawType (string_at strings (bt_name_off t))
    (if (bt_kind t =? BTF_STRUCT)%N then DStruct (said_members (bt_flag t) strings (bt_payload t))
     else if (bt_kind t =? BTF_UNION)%N then DUnion (said_members (bt_flag t) strings (bt_payload t))
     else if (bt_kind t =? BTF_ENUM)%N then DEnum (said_variants strings (bt_payload t))
     else if (bt_kind t =? BTF_ENUM64)%N then DEnum (said_variants64 strings (bt_payload t))
     else if (bt_kind t =? BTF_TYPEDEF)%N || (bt_kind t =? BTF_CONST)%N || (bt_kind t =? BTF_RESTRICT)%N || (bt_kind t =? BTF_VOLATILE)%N
          then DForward (bt_extra t) else DOpaque).

Fixpoint types_bytes (le : bool) (ts : list BtfType) : string := match ts with [] => EmptyString | t :: ts => type_bytes le t +:+ types_bytes le ts end.

(** A whole blob: the magic, a version and flags, the five words of the header,
    the types and then their names. *)
Definition btf_bytes (le : bool) (version flags : Ascii.ascii) (ts : list BtfType) (strings : string) : string :=
  let types := types_bytes le ts in
  let tl := N.of_nat (String.length types) in
  (if le then le_bytes 2 BTF_MAGIC else str_rev (le_bytes 2 BTF_MAGIC)) +:+ String version (String flags "") +:+
  words_bytes le [24; 0; tl; tl; N.of_nat (String.length strings)]%N +:+ types +:+ strings.

Lemma str_rev_length s : String.length (str_rev s) = String.length s.
Proof. induction s as [|a s IH]; [done|]. rewrite str_rev_cons, str_length_app, IH. cbn. lia. Qed.

Lemma word_length le w : String.length (word_bytes le w) = 4.
Proof. unfold word_bytes. destruct le; [apply le_length|]. rewrite str_rev_length. apply le_length. Qed.

Lemma words_length le ws : String.length (words_bytes le ws) = 4 * length ws.
Proof. induction ws as [|w ws IH]; [done|]. cbn [words_bytes length]. rewrite str_length_app, word_length, IH. lia. Qed.

Lemma word_read le w : (w < 2 ^ 32)%N -> endian_value le (word_bytes le w) = w.
Proof. intros Hw. unfold endian_value, word_bytes. destruct le; [by apply le_read|]. rewrite str_rev_involutive. by apply le_read. Qed.

(** The words of a piece, wherever it stands. *)
Lemma word_at le pre ws post i w : ws !! i = Some w -> Forall (fun w => w < 2 ^ 32)%N ws ->
  u32_at le (pre +:+ words_bytes le ws +:+ post) (String.length pre + 4 * i) = Some w.
Proof.
  intros Hi Hall. rewrite Forall_lookup in Hall. pose proof (Hall i w Hi) as Hw.
  destruct (list_elem_of_split_length ws i w Hi) as (w1 & w2 & -> & ->).
  assert (words_bytes le (w1 ++ w :: w2) = words_bytes le w1 +:+ word_bytes le w +:+ words_bytes le w2) as ->.
  { clear. induction w1 as [|x w1 IH]; [done|]. cbn [app words_bytes]. by rewrite IH, app_str_assoc. }
  unfold u32_at. rewrite !app_str_assoc. destruct (Nat.ltb_spec (String.length (pre +:+ words_bytes le w1 +:+ word_bytes le w +:+ words_bytes le w2 +:+ post)) (String.length pre + 4 * length w1 + 4)) as [H|_].
  - rewrite !str_length_app, words_length, word_length in H. lia.
  - f_equal. rewrite <- (app_str_assoc pre). rewrite (sub_at (pre +:+ words_bytes le w1) (word_bytes le w)).
    + by apply word_read.
    + by rewrite str_length_app, words_length.
    + apply word_length.
Qed.

(** The words before a piece, as what stands before it. *)
Lemma words_shift le pre ws1 ws2 post : pre +:+ words_bytes le (ws1 ++ ws2) +:+ post = (pre +:+ words_bytes le ws1) +:+ words_bytes le ws2 +:+ post.
Proof.
  rewrite app_str_assoc. f_equal. induction ws1 as [|x ws1 IH]; [done|]. cbn [app words_bytes]. by rewrite !app_str_assoc, IH.
Qed.

Lemma word_here le pre ws post i w n : ws !! i = Some w -> Forall (fun w => w < 2 ^ 32)%N ws -> n = String.length pre + 4 * i ->
  u32_at le (pre +:+ words_bytes le ws +:+ post) n = Some w.
Proof. intros Hi Hw ->. by apply word_at. Qed.

Lemma members_said le flag strings post n : forall pre ws, length ws = n * 3 -> Forall (fun w => w < 2 ^ 32)%N ws ->
  members_at n (String.length pre) flag le strings (pre +:+ words_bytes le ws +:+ post) = Some (said_members flag strings ws).
Proof.
  induction n as [|n IH]; intros pre [|a [|b [|c ws]]] Hl Hw; try (cbn in Hl; lia); [done|]. cbn [members_at].
  rewrite (word_here le pre _ post 0 a (String.length pre)), (word_here le pre _ post 1 b (String.length pre + 4)), (word_here le pre _ post 2 c (String.length pre + 8)) by (done || lia). cbn [mbind option_bind].
  specialize (IH (pre +:+ words_bytes le [a; b; c]) ws). rewrite str_length_app, words_length in IH.
  change (a :: b :: c :: ws) with ([a; b; c] ++ ws) in *. rewrite words_shift. cbn [length app Nat.mul Nat.add] in *. rewrite IH; [done|lia|].
  by repeat apply Forall_cons_1 in Hw as [_ Hw].
Qed.

Lemma variants_said le strings post n : forall pre ws, length ws = n * 2 -> Forall (fun w => w < 2 ^ 32)%N ws ->
  variants_at n (String.length pre) le strings (pre +:+ words_bytes le ws +:+ post) = Some (said_variants strings ws).
Proof.
  induction n as [|n IH]; intros pre [|a [|b ws]] Hl Hw; try (cbn in Hl; lia); [done|]. cbn [variants_at].
  rewrite (word_here le pre _ post 0 a (String.length pre)), (word_here le pre _ post 1 b (String.length pre + 4)) by (done || lia). cbn [mbind option_bind].
  specialize (IH (pre +:+ words_bytes le [a; b]) ws). rewrite str_length_app, words_length in IH.
  change (a :: b :: ws) with ([a; b] ++ ws) in *. rewrite words_shift. cbn [length app Nat.mul Nat.add] in *. rewrite IH; [done|lia|].
  by repeat apply Forall_cons_1 in Hw as [_ Hw].
Qed.

Lemma variants64_said le strings post n : forall pre ws, length ws = n * 3 -> Forall (fun w => w < 2 ^ 32)%N ws ->
  variants64_at n (String.length pre) le strings (pre +:+ words_bytes le ws +:+ post) = Some (said_variants64 strings ws).
Proof.
  induction n as [|n IH]; intros pre [|a [|b [|c ws]]] Hl Hw; try (cbn in Hl; lia); [done|]. cbn [variants64_at].
  rewrite (word_here le pre _ post 0 a (String.length pre)), (word_here le pre _ post 1 b (String.length pre + 4)), (word_here le pre _ post 2 c (String.length pre + 8)) by (done || lia). cbn [mbind option_bind].
  specialize (IH (pre +:+ words_bytes le [a; b; c]) ws). rewrite str_length_app, words_length in IH.
  change (a :: b :: c :: ws) with ([a; b; c] ++ ws) in *. rewrite words_shift. cbn [length app Nat.mul Nat.add] in *. rewrite IH; [done|lia|].
  by repeat apply Forall_cons_1 in Hw as [_ Hw].
Qed.

Lemma sub_length off len s : String.length (sub_bytes off len s) = Nat.min len (String.length s - off).
Proof.
  unfold sub_bytes. revert off len. induction s as [|c s IH]; intros [|off] [|len]; cbn [String.substring String.length]; rewrite ?IH; cbn [String.length]; lia.
Qed.

Lemma sub_after a s n : String.length s <= n -> sub_bytes (String.length a) n (a +:+ s) = s.
Proof.
  intros Hn. rewrite sub_skip by done. unfold sub_bytes. revert n Hn. induction s as [|c s IH]; intros [|n] Hn; cbn in *; [done..|lia|]. by rewrite IH by lia.
Qed.

(** The three parts of the information word. *)
Lemma info_read t : type_wf t ->
  (info_word t < 2 ^ 32)%N /\ N.land (N.shiftr (info_word t) 24) 31 = bt_kind t /\ (N.land (N.shiftr (info_word t) 31) 1 =? 1)%N = bt_flag t /\
  N.to_nat (N.land (info_word t) 65535) = bt_vlen t.
Proof.
  intros (_ & Hk & Hv & _).
  assert (forall w a n, N.land (N.shiftr w a) (N.ones n) = ((w / 2 ^ a) mod 2 ^ n)%N) as Hbits by (intros; by rewrite N.land_ones, N.shiftr_div_pow2).
  rewrite (Hbits _ _ 5%N : N.land (N.shiftr (info_word t) 24) 31 = _), (Hbits _ _ 1%N : N.land (N.shiftr (info_word t) 31) 1 = _).
  rewrite (N.land_ones _ 16 : N.land (info_word t) 65535 = _). clear Hbits. unfold info_word.
  assert (exists k v f, bt_kind t = k /\ N.of_nat (bt_vlen t) = v /\ (if bt_flag t then 2 ^ 31 else 0)%N = (f * 2147483648)%N /\ f = N.b2n (bt_flag t)) as
    (k & v & f & Ek & Ev & Ef & Eb) by (eexists _, _, (N.b2n (bt_flag t)); by destruct (bt_flag t)).
  rewrite Ek, Ev, Ef in *. change (2 ^ 16)%N with 65536%N in *. change (2 ^ 24)%N with 16777216%N. change (2 ^ 31)%N with 2147483648%N.
  change (2 ^ 5)%N with 32%N. change (2 ^ 1)%N with 2%N. change (2 ^ 32)%N with 4294967296%N.
  assert (f < 2)%N as Hf by (rewrite Eb; by destruct (bt_flag t)).
  set (w := (f * 2147483648 + k * 16777216 + v)%N).
  assert (w / 16777216 = f * 128 + k)%N as -> by (symmetry; apply (N.div_unique _ _ _ v); lia).
  assert (w / 2147483648 = f)%N as -> by (symmetry; apply (N.div_unique _ _ _ (k * 16777216 + v)); lia).
  assert (w mod 65536 = v)%N as -> by (symmetry; apply (N.mod_unique _ _ (f * 32768 + k * 256)); lia).
  split; [lia|]. split; [symmetry; apply (N.mod_unique _ _ (f * 4)); lia|]. split; [|by rewrite <- Ev, Nat2N.id].
  rewrite N.mod_small by done. rewrite Eb. by destruct (bt_flag t).
Qed.

Lemma type_bytes_length le t : type_wf t -> String.length (type_bytes le t) = 12 + 4 * payload_words (bt_kind t) (bt_vlen t).
Proof. intros (_ & _ & _ & _ & Hl & _). unfold type_bytes. rewrite words_length. cbn [length]. lia. Qed.

(** The body of a type is what its payload says, and it is all of it. *)
Lemma body_said le strings t rest : type_wf t ->
  type_body (bt_kind t) (bt_flag t) (bt_vlen t) (bt_extra t) le strings (type_bytes le t +:+ rest) =
  Some (rt_kind (said strings t), 4 * payload_words (bt_kind t) (bt_vlen t)).
Proof.
  intros Ht. pose proof (type_bytes_length le t Ht) as Hlen. destruct Ht as (_ & Hk & _ & _ & Hl & Hw).
  assert (type_bytes le t +:+ rest = words_bytes le [bt_name_off t; info_word t; bt_extra t] +:+ words_bytes le (bt_payload t) +:+ rest) as E.
  { unfold type_bytes. cbn [words_bytes]. by rewrite !app_str_assoc. }
  pose proof (members_said le (bt_flag t) strings rest (bt_vlen t) (words_bytes le [bt_name_off t; info_word t; bt_extra t]) (bt_payload t)) as Hm.
  pose proof (variants_said le strings rest (bt_vlen t) (words_bytes le [bt_name_off t; info_word t; bt_extra t]) (bt_payload t)) as Hv.
  pose proof (variants64_said le strings rest (bt_vlen t) (words_bytes le [bt_name_off t; info_word t; bt_extra t]) (bt_payload t)) as Hv64.
  rewrite words_length in Hm, Hv, Hv64. cbn [length Nat.mul Nat.add] in Hm, Hv, Hv64. rewrite <- E in Hm, Hv, Hv64. clear E.
  unfold type_body, said. cbn [rt_kind]. rewrite !str_length_app, Hlen. unfold payload_words in *.
  remember (bt_kind t) as k eqn:Ek. clear Ek.
  repeat match goal with |- context [(k =? ?c)%N] => destruct (N.eqb_spec k c) as [->|?] end.
  all: cbn -[Nat.mul Nat.add Nat.ltb members_at variants_at variants64_at said_members said_variants said_variants64] in *.
  all: rewrite ?(proj2 (Nat.ltb_ge _ _)) by lia.
  all: rewrite ?Hm, ?Hv, ?Hv64 by (done || lia); cbn [mbind option_bind]; f_equal; f_equal; lia.
Qed.

Lemma parse_type_said le strings t rest : type_wf t -> parse_type le strings (type_bytes le t +:+ rest) = Some (said strings t, rest).
Proof.
  intros Ht. pose proof (info_read t Ht) as (Hi & Hk & Hf & Hv). pose proof (type_bytes_length le t Ht) as Hlen. pose proof (body_said le strings t rest Ht) as Hb.
  unfold parse_type.
  assert (Forall (fun w => w < 2 ^ 32)%N (bt_name_off t :: info_word t :: bt_extra t :: bt_payload t)) as Hw
    by (destruct Ht as (? & ? & ? & ? & ? & ?); by repeat constructor).
  pose proof (word_here le "" (bt_name_off t :: info_word t :: bt_extra t :: bt_payload t) rest 0 (bt_name_off t) 0 eq_refl Hw eq_refl) as E0.
  pose proof (word_here le "" (bt_name_off t :: info_word t :: bt_extra t :: bt_payload t) rest 1 (info_word t) 4 eq_refl Hw eq_refl) as E1.
  pose proof (word_here le "" (bt_name_off t :: info_word t :: bt_extra t :: bt_payload t) rest 2 (bt_extra t) 8 eq_refl Hw eq_refl) as E2.
  change (words_bytes le (bt_name_off t :: info_word t :: bt_extra t :: bt_payload t)) with (type_bytes le t) in *.
  change ("" +:+ ?x) with x in *. rewrite E0, E1, E2. cbn [mbind option_bind]. rewrite Hk, Hf, Hv, Hb. cbn [mbind option_bind].
  rewrite str_length_app, Hlen, (proj2 (Nat.ltb_ge _ _)) by lia. rewrite <- Hlen at 1.
  rewrite sub_after by lia. done.
Qed.

Lemma parse_types_said le strings ts : forall fuel, Forall type_wf ts -> length ts <= fuel ->
  parse_types fuel le strings (types_bytes le ts) = Some (said strings <$> ts).
Proof.
  induction ts as [|t ts IH]; intros fuel Hts Hf; cbn [types_bytes fmap list_fmap]; [by destruct fuel|].
  apply Forall_cons_1 in Hts as [Ht Hts]. destruct fuel as [|fuel]; [cbn in Hf; lia|].
  pose proof (parse_type_said le strings t (types_bytes le ts) Ht) as E. pose proof (type_bytes_length le t Ht) as Hlen.
  cbn [parse_types]. destruct (type_bytes le t +:+ types_bytes le ts) as [|a s] eqn:Es.
  - apply (f_equal String.length) in Es. rewrite str_length_app, Hlen in Es. cbn [String.length] in Es. lia.
  - rewrite E. cbn [mbind option_bind]. rewrite IH; [done|done|cbn in Hf; lia].
Qed.

Lemma types_bytes_length le ts : Forall type_wf ts -> length ts <= String.length (types_bytes le ts).
Proof.
  induction 1 as [|t ts Ht _ IH]; [done|]. cbn [types_bytes length]. rewrite str_length_app, type_bytes_length by done. lia.
Qed.

(** More rounds than bytes change nothing: the reader ends of itself. *)
Lemma parse_type_shorter le strings buf t rest : parse_type le strings buf = Some (t, rest) -> String.length rest + 12 <= String.length buf.
Proof.
  unfold parse_type. destruct (u32_at le buf 0), (u32_at le buf 4), (u32_at le buf 8); try done. cbn [mbind option_bind].
  destruct (type_body _ _ _ _ _ _ _) as [[d more]|]; [|done]. cbn [mbind option_bind].
  destruct (Nat.ltb_spec (String.length buf) (12 + more)) as [|Hlt]; [done|]. intros [= _ <-]. rewrite sub_length. lia.
Qed.

Lemma parse_types_enough le strings n : forall m buf, String.length buf <= n -> String.length buf <= m -> parse_types n le strings buf = parse_types m le strings buf.
Proof.
  induction n as [|n IH]; intros m [|a buf] Hn Hm; try (by destruct m); [cbn in Hn; lia|]. destruct m as [|m]; [cbn in Hm; lia|]. cbn [parse_types].
  destruct (parse_type le strings (String a buf)) as [[t rest]|] eqn:E; [|done]. cbn [mbind option_bind]. apply parse_type_shorter in E.
  cbn in Hn, Hm, E. by rewrite (IH m rest) by lia.
Qed.

(** Type information in either byte order is read back as it was written, every
    kind at its length: names, members with their offsets, signed values of both
    widths, and what a see-through type stands for. *)
Theorem btf_round_trip le version flags ts strings : Forall type_wf ts ->
  (N.of_nat (String.length (types_bytes le ts)) < 2 ^ 32)%N -> (N.of_nat (String.length strings) < 2 ^ 32)%N ->
  btf_parse (btf_bytes le version flags ts strings) = inr (said strings <$> ts).
Proof.
  intros Hts Htl Hsl. unfold btf_bytes.
  set (types := types_bytes le ts) in *. set (tl := N.of_nat (String.length types)) in *. set (sl := N.of_nat (String.length strings)) in *.
  set (magic := if le then le_bytes 2 BTF_MAGIC else str_rev (le_bytes 2 BTF_MAGIC)). set (vf := String version (String flags "")).
  set (ws := [24; 0; tl; tl; sl]%N). set (data := magic +:+ vf +:+ words_bytes le ws +:+ types +:+ strings).
  assert (String.length magic = 2) as Hmagic by (unfold magic; by destruct le).
  assert (Forall (fun w => w < 2 ^ 32)%N ws) as Hws by (unfold ws; by repeat constructor).
  assert (data = (magic +:+ vf) +:+ words_bytes le ws +:+ types +:+ strings) as Ed by (unfold data; by rewrite app_str_assoc).
  assert (forall i w, ws !! i = Some w -> endian_value le (sub_bytes (4 + 4 * i) 4 data) = w) as Hword.
  { intros i w Hi. pose proof (word_here le (magic +:+ vf) ws (types +:+ strings) i w (4 + 4 * i) Hi Hws) as H. rewrite <- Ed in H.
    unfold u32_at in H. destruct (_ <? _); [|]; specialize (H ltac:(rewrite str_length_app, Hmagic; done)); congruence. }
  assert (String.length data = 24 + String.length types + String.length strings) as Hlen.
  { rewrite Ed, !str_length_app, words_length, Hmagic. unfold ws, vf. cbn [length String.length]. lia. }
  assert (sub_bytes 24 (String.length types) data = types) as Ht.
  { rewrite Ed, <- (app_str_assoc (magic +:+ vf)). apply sub_at; [|done]. rewrite !str_length_app, words_length, Hmagic. done. }
  assert (sub_bytes (24 + String.length types) (String.length strings) data = strings) as Hs.
  { rewrite Ed, <- (app_str_assoc (magic +:+ vf)), <- app_str_assoc. rewrite <- (app_str_nil_r strings) at 2. apply sub_at; [|done].
    rewrite !str_length_app, words_length, Hmagic. done. }
  assert (sub_bytes 0 2 data = magic) as Hm by (rewrite <- Hmagic; apply sub_take).
  unfold btf_parse. rewrite Hlen, (proj2 (Nat.ltb_ge _ BTF_HEADER_LEN)) by (unfold BTF_HEADER_LEN; lia). rewrite Hm.
  assert ((if (endian_value true magic =? BTF_MAGIC)%N then Some true else if (endian_value false magic =? BTF_MAGIC)%N then Some false else None) = Some le) as ->
    by (unfold magic; by destruct le).
  pose proof (Hword 0 24%N eq_refl) as W0. pose proof (Hword 1 0%N eq_refl) as W1. pose proof (Hword 2 tl eq_refl) as W2.
  pose proof (Hword 3 tl eq_refl) as W3. pose proof (Hword 4 sl eq_refl) as W4. cbn [Nat.mul Nat.add] in W0, W1, W2, W3, W4.
  cbv zeta. rewrite W0, W1, W2, W3, W4. unfold tl, sl. rewrite !Nat2N.id. change (N.to_nat 24 + N.to_nat 0) with 24. change (N.to_nat 24) with 24.
  rewrite Ht, Hs. rewrite !(proj2 (Nat.ltb_ge _ _)) by lia. cbn [orb].
  unfold types. rewrite (parse_types_said le strings ts); [done|done|by apply types_bytes_length].
Qed.

(** ** A node of the fleet *)

Fixpoint name_table (names : list string) : string := match names with [] => EmptyString | n :: names => n +:+ String nul (name_table names) end.

Fixpoint name_at (n : string) (names : list string) (at_ : N) : N :=
  match names with [] => at_ | x :: names => if bool_decide (x = n) then at_ else name_at n names (at_ + N.of_nat (String.length x) + 1) end.

Definition fleet_names : list string := [""; "file"; "f_inode"; "f_flags"; "f_path"; "path"; "dentry"; "d_name"; "qstr"; "name"; "inode"; "i_sb"; "i_ino";
  "i_nlink"; "super_block"; "s_magic"; "cred"; "uid"; "kuid_t"; "val"; "linux_binprm"; "filename"; LOADING_MODULE_ENUM; LOADING_MODULE_VARIANT].

Definition fleet_struct (kind : N) (name : string) (ms : list (string * N * N)) : BtfType :=
  mkBtfType (name_at name fleet_names 0) kind false (length ms) 0 (ms ≫= fun '(m, ty, off) => [name_at m fleet_names 0; ty; off * 8]%N).

(** The structures the probes read, [ino] the offset of an inode's number. *)
Definition fleet_types (ino : N) : list BtfType := [
  fleet_struct BTF_UNION "" [("i_nlink", 0, 0)]%N;
  fleet_struct BTF_STRUCT "file" [("f_inode", 0, 32); ("f_flags", 0, 40); ("f_path", 3, 64)]%N;
  fleet_struct BTF_STRUCT "path" [("dentry", 0, 8)]%N;
  fleet_struct BTF_STRUCT "dentry" [("d_name", 5, 32)]%N;
  fleet_struct BTF_STRUCT "qstr" [("name", 0, 8)]%N;
  fleet_struct BTF_STRUCT "inode" [("i_sb", 0, 40); ("i_ino", 0, ino); ("", 1, 72)]%N;
  fleet_struct BTF_STRUCT "super_block" [("s_magic", 0, 96)]%N;
  fleet_struct BTF_STRUCT "cred" [("uid", 10, 8)]%N;
  fleet_struct BTF_STRUCT "" [("val", 0, 0)]%N;
  mkBtfType (name_at "kuid_t" fleet_names 0) BTF_TYPEDEF false 0 9 [];
  fleet_struct BTF_STRUCT "linux_binprm" [("file", 0, 64); ("filename", 0, 96)]%N;
  mkBtfType (name_at LOADING_MODULE_ENUM fleet_names 0) BTF_ENUM false 1 4 [name_at LOADING_MODULE_VARIANT fleet_names 0; 2]%N].

Definition fleet_btf (le : bool) (ino : N) : string := btf_bytes le (Ascii.ascii_of_nat 1) nul (fleet_types ino) (name_table fleet_names).

(** Everything attaches on a node of the fleet, in either byte order; one moved field
    of an inode takes away the probes that read inodes and no other; and a node
    whose type information cannot be read keeps those that read no structure. *)
Theorem fleet_attaches :
  preflight_clean (check_bytes (fleet_btf true 64)) = true /\
  (attach_fentry true (Some (fleet_btf false 64)) (fun _ _ => true)).1 = FENTRY_PROBES.*1 /\
  (attach_fentry true (Some (fleet_btf true 80)) (fun _ _ => true)).1 = ["mmap_file"; "fix_setuid"; "ptrace_access_check"; "kernel_load_data"] /\
  (attach_fentry true None (fun _ _ => true)).1 = ["ptrace_access_check"; "kernel_load_data"] /\
  check_bytes "not type information" = fail_closed.
Proof. vm_compute. auto. Qed.

Lemma btf_round_trip_witness : btf_parse (fleet_btf true 64) = inr (said (name_table fleet_names) <$> fleet_types 64).
Proof.
  apply (btf_round_trip true (Ascii.ascii_of_nat 1) nul (fleet_types 64) (name_table fleet_names)); [|vm_compute; reflexivity..].
  apply Forall_forall. intros t Ht. unfold fleet_types in Ht. repeat (apply elem_of_cons in Ht as [->|Ht]; [by repeat constructor|]). by apply not_elem_of_nil in Ht.
Defined.

Definition fleet_80 : RawBtf := said (name_table fleet_names) <$> fleet_types 80.

Lemma fleet_parse : btf_parse (fleet_btf true 80) = inr fleet_80.
Proof. vm_compute. reflexivity. Qed.

Lemma fleet_plain data btf : Some (fleet_btf true 80) = Some data -> btf_parse data = inr btf -> plain_node btf.
Proof. intros [= <-]. rewrite fleet_parse. intros [= <-]. apply (bool_decide_unpack _). vm_compute. exact I. Qed.

Lemma fleet_library s read : (s, read) ∈ probe_reads "mmap_file" -> forall f off, (s, f, off) ∈ BINDINGS -> (f, off) ∈ node_layout fleet_80 s.
Proof.
  intros Hr f off Hb.
  assert (Forall (fun b => (b.1.2, b.2) ∈ node_layout fleet_80 b.1.1) (List.filter (fun b => bool_decide (b.1.1 ∈ (probe_reads "mmap_file").*1)) BINDINGS)) as H
    by (apply (bool_decide_unpack _); vm_compute; exact I).
  rewrite Forall_forall in H. apply (H (s, f, off)). apply elem_of_filter_b. split; [|done]. apply bool_decide_eq_true, list_elem_of_fmap. by exists (s, read).
Qed.

Lemma fleet_moved off btf : ("inode", "i_ino", off) ∈ BINDINGS -> btf_parse (fleet_btf true 80) = inr btf -> ("i_ino", off) ∉ node_layout btf "inode".
Proof.
  intros Hb. rewrite fleet_parse. intros [= <-] H.
  assert (Forall (fun b => b.1 = ("inode", "i_ino") -> (b.1.2, b.2) ∉ node_layout fleet_80 "inode") BINDINGS) as Hall by (apply (bool_decide_unpack _); vm_compute; exact I).
  rewrite Forall_forall in Hall. exact (Hall _ Hb eq_refl H).
Qed.


Lemma field_offset_located_witness :
  (forall off, struct_field_offset (said (name_table fleet_names) <$> fleet_types 64) "inode" "i_nlink" = Some off ->
     exists d, d <= MAX_MEMBER_RECURSION /\ located (said (name_table fleet_names) <$> fleet_types 64) 6 "i_nlink" off d) /\
  (forall off d, located (said (name_table fleet_names) <$> fleet_types 64) 6 "i_nlink" off d -> d <= MAX_MEMBER_RECURSION ->
     is_Some (struct_field_offset (said (name_table fleet_names) <$> fleet_types 64) "inode" "i_nlink")).
Proof. apply (field_offset_located (said (name_table fleet_names) <$> fleet_types 64) "inode" "i_nlink" 6%N). vm_compute. reflexivity. Defined.

(** ** What the cap does not bound *)

(** How often the search is entered. *)
Fixpoint member_calls (budget : nat) (btf : RawBtf) (type_id : N) (field : string) : nat :=
  match budget with
  | 0 => 1
  | S budget =>
      match members_of btf type_id with
      | Some ms => S (foldr (fun m acc =>
          if bool_decide (mb_name m = field) then 0
          else if bool_decide (mb_name m = "") then
            match resolve_to_aggregate btf (mb_type_id m) with
            | Some inner_id =>
                match member_offset_bounded budget btf inner_id field with
                | Some _ => member_calls budget btf inner_id field
                | None => member_calls budget btf inner_id field + acc
                end
            | None => acc
            end
          else acc) 0 ms)
      | None => 1
      end
  end.

(** A structure of [k] anonymous members of itself. *)
Definition self_struct (k : nat) : RawBtf := [mkRawType "file" (DStruct (replicate k (mkMember "" 1 0)))].

Lemma self_absent k field n : field <> "" -> member_offset_bounded n (self_struct k) 1 field = None.
Proof.
  intros Hf. induction n as [|n IH]; [done|]. cbn [member_offset_bounded members_of]. change (decoded (self_struct k) 1) with (Some (DStruct (replicate k (mkMember "" 1 0)))).
  cbn [mbind option_bind]. apply find_map_none. intros m ->%elem_of_replicate_inv. cbn [mb_name mb_type_id mb_byte_offset].
  rewrite bool_decide_eq_false_2 by done. rewrite bool_decide_eq_true_2 by done. change (resolve_to_aggregate (self_struct k) 1) with (Some 1%N). cbn [mbind option_bind]. by rewrite IH.
Qed.

(** The search of a field that such a structure lacks ends with nothing, after more
    calls than [k] to the depth of the cap. *)
Theorem self_reference_calls k field n : field <> "" ->
  member_offset_bounded n (self_struct k) 1 field = None /\ k ^ n <= member_calls n (self_struct k) 1 field.
Proof.
  intros Hf. split; [by apply self_absent|]. induction n as [|n IH]; [done|]. cbn [member_calls].
  change (members_of (self_struct k) 1) with (Some (replicate k (mkMember "" 1 0))). cbv beta iota. rewrite Nat.pow_succ_r'.
  pose proof (self_absent k field n Hf) as Ha.
  assert (forall l, foldr (fun m acc => if bool_decide (mb_name m = field) then 0 else if bool_decide (mb_name m = "") then
      match resolve_to_aggregate (self_struct k) (mb_type_id m) with
      | Some inner_id => match member_offset_bounded n (self_struct k) inner_id field with
                         | Some _ => member_calls n (self_struct k) inner_id field
                         | None => member_calls n (self_struct k) inner_id field + acc
                         end
      | None => acc end else acc) 0 (replicate l (mkMember "" 1 0)) = l * member_calls n (self_struct k) 1 field) as Hfold.
  { induction l as [|l IHl]; [done|]. cbn [replicate foldr]. rewrite IHl. cbn [mb_name mb_type_id].
    rewrite bool_decide_eq_false_2 by done. rewrite bool_decide_eq_true_2 by done. change (resolve_to_aggregate (self_struct k) 1) with (Some 1%N). cbv iota. rewrite Ha. lia. }
  rewrite Hfold. nia.
Qed.

(** Nine anonymous structures at the largest offset, one in the other: the sum
    passes four gigabytes, and the field reads as if it were where the table has it. *)
Definition far_btf : RawBtf :=
  mkRawType "file" (DStruct [mkMember "" 2 536870911]) ::
  ((fun i => mkRawType "" (DStruct [mkMember "" (N.of_nat i + 3) 536870911])) <$> seq 0 7) ++ [mkRawType "" (DStruct [mkMember "f_inode" 0 40])].

Theorem offset_wraps : struct_field_offset far_btf "file" "f_inode" = Some 32%N.
Proof. vm_compute. reflexivity. Qed.
