(* ===== verification/Reports.v ===== *)
(** * Scanner and mesh reports

    engine/src/engine/observe: what a trivy-operator report (trivy.rs,
    trivy_secret.rs, trivy_config.rs, trivy_rbac.rs) and a Linkerd policy object
    (linkerd.rs) become, with the readers they share (mod.rs), and the health of a
    workload from the status of its pod (health.rs). The clock, the
    decoding of a label selector and the bits of a JSON number as a float are
    arguments. Then what a report can put in a finding. *)

From S2P Require Import Prelude Text Json ImageRef PetGraph Behavior Graph Snapshot Adapters Respond Actuator.

#[local] Arguments String.append : simpl nomatch.

(** ** Maps filled in order *)

(** The last element of a kind. *)
Lemma last_that {A} (f : A -> bool) l : (exists x, x ∈ l /\ f x = true) ->
  exists before x after, l = before ++ x :: after /\ f x = true /\ forall y, y ∈ after -> f y = false.
Proof.
  induction l as [|x l IH] using rev_ind; intros (y & Hy & Hf); [by apply not_elem_of_nil in Hy|]. destruct (f x) eqn:Ex.
  - exists l, x, []. split; [done|]. split; [done|]. by intros z ?%not_elem_of_nil.
  - apply elem_of_app in Hy as [Hy|Hy]; [|apply list_elem_of_singleton in Hy as ->; congruence].
    destruct (IH (ex_intro _ y (conj Hy Hf))) as (b & z & a & -> & Hz & Ha). exists b, z, (a ++ [x]). split; [by rewrite <- app_assoc|]. split; [done|].
    intros w [Hw| ->%list_elem_of_singleton]%elem_of_app; [by apply Ha|done].
Qed.

(** A map into which each element of a list may insert holds at a key what the last
    element to insert there put. *)
Lemma insert_last {A K V} `{Countable K} (f : A -> option (K * V)) (g : gmap K V -> A -> gmap K V) :
  (forall m x, g m x = match f x with Some kv => <[kv.1 := kv.2]> m | None => m end) ->
  forall l k v, foldl g ∅ l !! k = Some v <->
    exists before x after, l = before ++ x :: after /\ f x = Some (k, v) /\ forall y, y ∈ after -> forall v', f y <> Some (k, v').
Proof.
  intros Hg l k v. induction l as [|x l IH] using rev_ind; [cbn; rewrite lookup_empty; split; [done|]; intros ([|] & ? & ? & ? & _); done|].
  rewrite foldl_app. cbn [foldl]. rewrite Hg.
  assert ((forall v', f x <> Some (k, v')) -> (foldl g ∅ l !! k = Some v <->
    exists before y after, l ++ [x] = before ++ y :: after /\ f y = Some (k, v) /\ forall z, z ∈ after -> forall v', f z <> Some (k, v'))) as Hskip.
  { intros Hx. rewrite IH. split.
    - intros (b & y & a & -> & Hy & Ha). exists b, y, (a ++ [x]). split; [by rewrite <- app_assoc|]. split; [done|].
      intros z [Hz| ->%list_elem_of_singleton]%elem_of_app; [by apply Ha|done].
    - intros (b & y & a & Heq & Hy & Ha). destruct a as [|z a _] using rev_ind.
      + apply app_inj_tail in Heq as [_ ->]. by destruct (Hx v).
      + rewrite app_comm_cons, app_assoc in Heq. apply app_inj_tail in Heq as [-> ->]. exists b, y, a. split; [done|]. split; [done|].
        intros w Hw. apply Ha, elem_of_app. by left. }
  destruct (f x) as [[k' v']|] eqn:Ef; cbn [fst snd]; [|by apply Hskip].
  destruct (decide (k' = k)) as [->|Hne]; [|rewrite lookup_insert_ne by done; apply Hskip; congruence].
  rewrite lookup_insert_eq. split.
  - intros [= ->]. exists l, x, []. split; [done|]. split; [done|]. by intros y ?%not_elem_of_nil.
  - intros (b & y & a & Heq & Hy & Ha). destruct a as [|z a _] using rev_ind.
    + apply app_inj_tail in Heq as [_ ->]. congruence.
    + rewrite app_comm_cons, app_assoc in Heq. apply app_inj_tail in Heq as [_ ->]. destruct (Ha z) with v'; [apply elem_of_app; right; left|done].
Qed.

(** A custom object: its metadata and the rest. *)
Record DynamicObject := mkDynamic { dy_name : option string; dy_namespace : option string; dy_labels : option (gmap string string); dy_data : Json }.

Definition as_bool (j : Json) : option bool := match j with JBool b => Some b | _ => None end.

Definition get_str (j : Json) (key : string) : option string := json_get j key ≫= as_str.

(** ** mod.rs *)

Definition opt_str (value : Json) (key : string) : option string :=
  s ← get_str value key; if bool_decide (s = "") then None else Some s.

Definition report_severity (label : string) : Severity :=
  if bool_decide (label = "CRITICAL") then Critical
  else if bool_decide (label = "HIGH") then High
  else if bool_decide (label = "MEDIUM") then Medium
  else Low.

Definition image_ref (report : Json) : option string :=
  artifact ← json_get report "artifact"; repository ← get_str artifact "repository";
  let base := match json_get report "registry" ≫= fun r => get_str r "server" with
              | Some server => server +:+ "/" +:+ repository
              | None => repository
              end in
  Some (match get_str artifact "tag" with Some tag => base +:+ ":" +:+ tag | None => base end).

Definition report_resource (o : DynamicObject) : option WorkloadRef :=
  labels ← dy_labels o; kind ← labels !! "trivy-operator.resource.kind"; name ← labels !! "trivy-operator.resource.name";
  namespace ← match labels !! "trivy-operator.resource.namespace" with Some ns => Some ns | None => dy_namespace o end;
  Some (mkWorkloadRef namespace kind name).

Section Reports.
(** The clock at the reading, and a number as a float. *)
Variable now : Z.
Variable as_f64 : Json -> option Z.
Variable from_selector : Json -> option LabelSelector.

Definition scan_finding (value : Json) (source id_key title_fallback : string) : option ScanFinding :=
  if bool_decide ((json_get value "success" ≫= as_bool) = Some true) then None
  else
    id ← opt_str value id_key;
    Some (mkScan id (report_severity (default "LOW" (get_str value "severity"))) (opt_str value "category")
            (match opt_str value "title" with Some t => Some t | None => opt_str value title_fallback end)
            (opt_str value "target") [mkProv source now]).

(** The entries of an array that parse. *)
Definition entries {A} (report : Json) (key : string) (parse : Json -> option A) : list A :=
  match json_get report key ≫= as_array with Some items => omap parse items | None => [] end.

(** ** The four trivy reports *)

Definition trivy_vulnerability (v : Json) : option Vulnerability :=
  id ← get_str v "vulnerabilityID";
  Some (mkVuln id (report_severity (default "LOW" (get_str v "severity"))) false None [mkProv "trivy" now] ReachUnknown
          (opt_str v "resource") (opt_str v "installedVersion") (opt_str v "fixedVersion") (opt_str v "title") (opt_str v "primaryLink")
          (json_get v "score" ≫= as_f64)).

Definition trivy_from_report (report : Json) : option ImageVulnerabilities :=
  image ← image_ref report; Some (mkImageVulns image (entries report "vulnerabilities" trivy_vulnerability)).

Definition trivy_parse_report (o : DynamicObject) : option ImageVulnerabilities := json_get (dy_data o) "report" ≫= trivy_from_report.

Definition secret_from_report (report : Json) : option ImageScanFindings :=
  image ← image_ref report;
  Some (mkImageScan image (entries report "secrets" (fun v => scan_finding v "trivy-exposed-secret" "ruleID" "match"))).

Definition secret_parse_report (o : DynamicObject) : option ImageScanFindings := json_get (dy_data o) "report" ≫= secret_from_report.

Definition config_parse_report (o : DynamicObject) : option WorkloadFindings :=
  resource ← report_resource o; report ← json_get (dy_data o) "report";
  Some (mkWorkloadFindings resource (entries report "checks" (fun v => scan_finding v "trivy-config-audit" "checkID" "description"))).

Definition rbac_parse_report (o : DynamicObject) : option RbacFindings :=
  resource ← report_resource o; report ← json_get (dy_data o) "report";
  Some (mkRbacFindings (wr_namespace resource) (entries report "checks" (fun v => scan_finding v "trivy-rbac" "checkID" "description"))).

(** ** linkerd.rs *)

Definition dy_ns (o : DynamicObject) : string := default "default" (dy_namespace o).

Definition parse_port (value : Json) : option N :=
  match value with
  | JNum n => if (0 <=? n)%Z && (n <? 65536)%Z then Some (Z.to_N n) else None
  | JStr s => parse_uint 65536 s
  | _ => None
  end.

Definition parse_server (o : DynamicObject) : option LinkerdServer :=
  name ← dy_name o; spec ← json_get (dy_data o) "spec"; selector ← json_get spec "podSelector"; selector ← from_selector selector;
  Some (mkServer (dy_ns o) name selector (json_get spec "port" ≫= parse_port)).

Definition auth_client (ns : string) (r : Json) : option AuthClient :=
  name ← get_str r "name";
  let kind := default "" (get_str r "kind") in
  if bool_decide (kind = "MeshTLSAuthentication") then Some (MeshTls name)
  else if bool_decide (kind = "ServiceAccount") then Some (AuthServiceAccount (default ns (get_str r "namespace")) name)
  else None.

Definition parse_authz_policy (o : DynamicObject) : option LinkerdAuthzPolicy :=
  let ns := dy_ns o in
  spec ← json_get (dy_data o) "spec"; target ← json_get spec "targetRef";
  Some (mkAuthz ns (if bool_decide (get_str target "kind" = Some "Server") then get_str target "name" else None)
          (entries spec "requiredAuthenticationRefs" (auth_client ns))).

Definition parse_mtls_auth (o : DynamicObject) : option LinkerdMeshTlsAuth :=
  name ← dy_name o;
  let ns := dy_ns o in
  spec ← json_get (dy_data o) "spec";
  Some (mkMtls ns name (entries spec "identityRefs" (fun r =>
    if bool_decide (get_str r "kind" = Some "ServiceAccount") then n ← get_str r "name"; Some (mkSaRef (default ns (get_str r "namespace")) n) else None))).

(** ** What a report can put in a finding *)

(** The object with these members alone. *)
Definition restrict (keys : list string) (j : Json) : Json :=
  match j with JObj fields => JObj (List.filter (fun kv => bool_decide (kv.1 ∈ keys)) fields) | _ => j end.

Lemma restrict_get keys key j : key ∈ keys -> json_get (restrict keys j) key = json_get j key.
Proof.
  intros Hk. destruct j as [| | | | |fields]; try done. cbn. f_equal. induction fields as [|[k v] fields IH]; [done|]. cbn.
  destruct (bool_decide_reflect (k = key)) as [->|Hne].
  - rewrite bool_decide_eq_true_2 by done. cbn. by rewrite bool_decide_eq_true_2.
  - destruct (bool_decide (k ∈ keys)); cbn; [|done]. by rewrite bool_decide_eq_false_2.
Qed.

(** What is read of an entry. *)
Definition finding_fields (id_key title_fallback : string) : list string := ["success"; id_key; "severity"; "category"; "title"; title_fallback; "target"].

Lemma finding_restricted v source id_key title_fallback :
  scan_finding (restrict (finding_fields id_key title_fallback) v) source id_key title_fallback = scan_finding v source id_key title_fallback.
Proof using now.
  unfold scan_finding, opt_str, get_str. rewrite !restrict_get; [done|unfold finding_fields; rewrite !elem_of_cons; auto 12..].
Qed.

(** The secret itself reaches no finding: what an exposed-secret report becomes
    is a function of its image and of the seven named fields of its entries, so two
    reports that differ in anything else of an entry, the raw secret among it,
    become the same findings. *)
Theorem exposed_secret_noninterference report report' items items' :
  image_ref report = image_ref report' ->
  json_get report "secrets" = Some (JArr items) -> json_get report' "secrets" = Some (JArr items') ->
  restrict (finding_fields "ruleID" "match") <$> items = restrict (finding_fields "ruleID" "match") <$> items' ->
  secret_from_report report = secret_from_report report'.
Proof using now.
  intros Hi E E' Hr. unfold secret_from_report, entries. rewrite <- Hi, E, E'. cbn [mbind option_bind as_array].
  destruct (image_ref report) as [image|]; [|done]. cbn [mbind option_bind]. do 2 f_equal.
  assert (forall l : list Json, (omap (fun v => scan_finding v "trivy-exposed-secret" "ruleID" "match") l : list ScanFinding) =
    omap (fun v => scan_finding v "trivy-exposed-secret" "ruleID" "match") (restrict (finding_fields "ruleID" "match") <$> l : list Json)) as Hl.
  { intros l. induction l as [|v l IH]; [done|]. cbn [omap list_omap fmap list_fmap]. by rewrite finding_restricted, IH. }
  by rewrite (Hl items), (Hl items'), Hr.
Qed.

(** Every finding of a check report is of a check that did not pass, under its own
    id, at a severity of the four bands. *)
Theorem config_findings_failed o w f : config_parse_report o = Some w -> f ∈ wf_findings w ->
  exists report items v, json_get (dy_data o) "report" = Some report /\ json_get report "checks" = Some (JArr items) /\ v ∈ items /\
    (json_get v "success" ≫= as_bool) <> Some true /\ get_str v "checkID" = Some (sf_id f) /\ sf_id f <> "" /\
    sf_sources f = [mkProv "trivy-config-audit" now].
Proof using now.
  unfold config_parse_report. destruct (report_resource o) as [r|]; [|done]. cbn [mbind option_bind]. destruct (json_get (dy_data o) "report") as [report|]; [|done].
  cbn [mbind option_bind]. intros [= <-]. cbn [wf_findings]. unfold entries. destruct (json_get report "checks") as [[| | | |items|]|] eqn:Ec; cbn [mbind option_bind as_array]; try by intros ?%not_elem_of_nil.
  intros (v & Hv & Hf)%list_elem_of_omap. exists report, items, v. split; [done|]. split; [done|]. split; [done|].
  unfold scan_finding in Hf. case_bool_decide as Hs; [done|]. split; [done|]. destruct (opt_str v "checkID") as [id|] eqn:Eo; [|done].
  injection Hf as <-. cbn [sf_id sf_sources]. unfold opt_str in Eo. destruct (get_str v "checkID") as [s|]; [|done]. cbn [mbind option_bind] in Eo.
  case_bool_decide as Hid; [done|]. by injection Eo as ->.
Qed.
End Reports.

(** A report with a key in it, and the same without. *)
Definition leaky (raw : string) : Json :=
  JObj [("artifact", JObj [("repository", JStr "app"); ("tag", JStr "1.0")]);
        ("secrets", JArr [JObj [("ruleID", JStr "aws-access-key-id"); ("severity", JStr "CRITICAL"); ("raw", JStr raw); ("match", JStr "key = ****")]])].

Lemma exposed_secret_noninterference_witness : secret_from_report 5 (leaky "AKIA1234") = secret_from_report 5 (leaky "").
Proof. eapply (exposed_secret_noninterference 5 (leaky "AKIA1234") (leaky "")); reflexivity. Defined.

Theorem secret_report_example : secret_from_report 5 (leaky "AKIA1234") =
  Some (mkImageScan "app:1.0" [mkScan "aws-access-key-id" Critical None (Some "key = ****") None [mkProv "trivy-exposed-secret" 5]]).
Proof. vm_compute. reflexivity. Qed.

(** ** health.rs *)

(** What is read of a pod's status: its phase, the reason each container waits for,
    if it waits for one, and its conditions. *)
Record ServingStatus := mkServing { sv_phase : option string; sv_waiting : list (option string); sv_conditions : list (string * string) }.

Definition pod_health (status : option ServingStatus) : Health :=
  match status with
  | None => Halted
  | Some st =>
      match sv_phase st with
      | None => Halted
      | Some phase =>
          if bool_decide (phase ∈ ["Failed"; "Pending"; "Unknown"]) then Halted
          else if bool_decide (phase = "Succeeded") then Alive
          else if bool_decide (phase = "Running") then
            if existsb (fun r => bool_decide (r = Some "CrashLoopBackOff")) (sv_waiting st) then Degraded
            else if existsb (fun c => bool_decide (c = ("Ready", "True"))) (sv_conditions st) then Alive else Degraded
          else Degraded
      end
  end.

(** A pod: its name, its namespace and its status. *)
Abbreviation ObservedPod := (option string * option string * option ServingStatus)%type.

Definition pod_node (p : ObservedPod) : option NodeKey :=
  (fun name => node_key (workload_node (default "default" p.1.2) name)) <$> p.1.1.

Definition assess (pods : list ObservedPod) : HealthReport :=
  foldl (fun report p => match pod_node p with Some key => <[key := pod_health p.2]> report | None => report end) ∅ pods.

Definition health_counts (r : HealthReport) : nat * nat * nat :=
  let count h := length (List.filter (fun kv => bool_decide (kv.2 = h)) (map_to_list r)) in (count Alive, count Degraded, count Halted).

Lemma assess_last pods key h : assess pods !! key = Some h <->
  exists before p after, pods = before ++ p :: after /\ (pod_node p = Some key /\ pod_health p.2 = h) /\ forall q, q ∈ after -> pod_node q <> Some key.
Proof.
  unfold assess. rewrite (insert_last (fun p => (fun k => (k, pod_health p.2)) <$> pod_node p)).
  - split; intros (b & p & a & -> & Hp & Ha); exists b, p, a; (split; [done|]); (split; [|intros q Hq; specialize (Ha q Hq)]).
    + destruct (pod_node p) as [k|]; [|done]. by injection Hp as -> ->.
    + intros Hq2. apply (Ha (pod_health q.2)). by rewrite Hq2.
    + by destruct Hp as [-> ->].
    + intros v. destruct (pod_node q); [|done]. intros [= -> _]. by apply Ha.
  - intros m p. by destruct (pod_node p).
Qed.

(** What a guard sees of a workload: the health of its last pod observed, and alive
    when none was. *)
Theorem assess_exact pods key h : health_of (assess pods) key = h <->
  (exists before p after, pods = before ++ p :: after /\ (pod_node p = Some key /\ pod_health p.2 = h) /\ forall q, q ∈ after -> pod_node q <> Some key) \/
  (h = Alive /\ forall q, q ∈ pods -> pod_node q <> Some key).
Proof.
  rewrite <- assess_last. unfold health_of.
  assert (assess pods !! key = None <-> forall q, q ∈ pods -> pod_node q <> Some key) as Hnone.
  { split.
    - intros E q Hq Hk. destruct (last_that (fun q => bool_decide (pod_node q = Some key)) pods) as (b & p & a & -> & Hp & Ha).
      + exists q. split; [done|]. by apply bool_decide_eq_true.
      + apply bool_decide_eq_true in Hp. assert (assess (b ++ p :: a) !! key = Some (pod_health p.2)) as E'; [|congruence]. apply assess_last.
        exists b, p, a. split; [done|]. split; [done|]. intros x Hx. apply Ha in Hx. by apply bool_decide_eq_false in Hx.
    - intros Hno. destruct (assess pods !! key) as [h'|] eqn:E; [|done]. apply assess_last in E as (b & p & a & -> & [Hp _] & _).
      destruct (Hno p); [apply elem_of_app; right; left|done]. }
  rewrite <- Hnone. destruct (assess pods !! key) as [h'|]; cbn; split.
  - intros ->. by left.
  - by intros [[= ->]|[_ ?]].
  - intros <-. by right.
  - by intros [?|[-> _]].
Qed.
