(* ===== verification/Boot.v ===== *)
(** * What the process starts with

    engine/src/main.rs: the operating posture read from the environment, what it
    arms and what it refuses to start with; and notify.rs: whether the breach
    notifier is on, and what it then posts where. The environment is an argument.
    Then what a posture that starts can and cannot arm. *)

From S2P Require Import Prelude Text Json ImageRef Posture Journal PetGraph Attack Behavior Graph Respond Actuator Verdicts AgentLiveness Evidence EvidenceFacts Redact.
From S2P Require Import Feeds Admission Continuity Asn Agent Model Reports.

#[local] Arguments String.append : simpl nomatch.

(** ** The environment *)

Definition comma : Ascii.ascii := Ascii.ascii_of_nat 44.
Definition semicolon : Ascii.ascii := Ascii.ascii_of_nat 59.
Definition equals_char : Ascii.ascii := Ascii.ascii_of_nat 61.

Section Environment.
Variable env : string -> option string.

Definition env_or (key default_ : string) : string := default default_ (env key).

Definition env_parse (key : string) (default_ : N) : N := default default_ (env key ≫= parse_u64).

Definition env_set (key default_ : string) : gset string :=
  list_to_set (List.filter (fun s => negb (bool_decide (s = ""))) (trim <$> split comma (env_or key default_))).

Definition env_pairs (key : string) : list (string * string) :=
  (fun kv => (trim kv.1, trim kv.2)) <$> omap (split_once equals_char) (split comma (env_or key "")).

(** ** The posture *)

Record OperatingPosture := mkPosture { op_enforce : bool; op_namespaces : gset string; op_labels : list (string * string); op_rung : ArmingRung }.

Inductive PostureError := BadMode (mode : string) | EmptyScope | NodeWithoutEnforce.

#[export] Instance ArmingRung_eq_dec : EqDecision ArmingRung.
Proof. solve_decision. Defined.

Definition posture_from_env : PostureError + OperatingPosture :=
  let mode := to_ascii_lowercase (trim (env_or "PROTECTOR_MODE" "audit")) in
  match (if bool_decide (mode = "enforce") then Some true else if bool_decide (mode = "audit") || bool_decide (mode = "") then Some false else None) with
  | None => inl (BadMode mode)
  | Some enforce =>
      let namespaces := env_set "PROTECTOR_ENFORCE_SCOPE_NAMESPACES" "" in
      let labels := env_pairs "PROTECTOR_ENFORCE_SCOPE_LABELS" in
      if enforce && bool_decide (namespaces = ∅) && bool_decide (labels = []) then inl EmptyScope
      else
        let rung := rung_from_name (env_or "PROTECTOR_ENFORCE_RUNG" "edge-cut") in
        if bool_decide (rung = NodeRung) && negb enforce then inl NodeWithoutEnforce
        else inr (mkPosture enforce namespaces labels rung)
  end.

Definition gated_prefixes : list string :=
  List.filter (fun s => negb (bool_decide (s = ""))) (trim <$> split comma (env_or "PROTECTOR_GATED_PREFIXES" "")).

(** Prefixes are not gated without a signer to trust. *)
Definition identity_gate : option (list string * string) :=
  let identity_regexp := env_or "PROTECTOR_IDENTITY_REGEXP" "" in
  if negb (bool_decide (gated_prefixes = [])) && bool_decide (trim identity_regexp = "") then None else Some (gated_prefixes, identity_regexp).

(** [new_pin] compiles a regular expression, if it is one. *)
Definition signing_pins (new_pin : string -> string -> option SigningPin) : list SigningPin :=
  omap (fun entry =>
    '(prefix, regexp) ← split_once equals_char entry;
    let prefix := trim prefix in let regexp := trim regexp in
    if bool_decide (prefix = "") || bool_decide (regexp = "") then None else new_pin prefix regexp) (split semicolon (env_or "PROTECTOR_SIGNING_PINS" "")).

(** ** The notifier *)

Record BreachNotifier := mkNotifier { bn_url : option string; bn_verbose : bool }.

Definition notifier_disabled : BreachNotifier := mkNotifier None false.

Definition is_truthy (value : string) : bool := bool_decide (to_ascii_lowercase (trim value) ∈ ["1"; "true"; "yes"; "on"]).

Definition DEFAULT_NOTIFY_TIMEOUT_SECS : N := 5.

Definition notify_timeout : N := default DEFAULT_NOTIFY_TIMEOUT_SECS (env "PROTECTOR_ENGINE_NOTIFY_TIMEOUT_SECS" ≫= fun s => parse_u64 (trim s)).

(** [has_client] is whether a bounded client can be built. *)
Definition notifier_new (has_client : N -> bool) (url : string) (verbose : bool) : BreachNotifier :=
  if bool_decide (trim url = "") then notifier_disabled
  else match validate_in_cluster_endpoint (trim url) (external_opt_in (env "PROTECTOR_ALLOW_EXTERNAL_NOTIFY")) with
       | inl _ => notifier_disabled
       | inr _ => if has_client notify_timeout then mkNotifier (Some (trim url)) verbose else notifier_disabled
       end.

Definition notifier_from_env (has_client : N -> bool) : BreachNotifier :=
  match env "PROTECTOR_ENGINE_NOTIFY_URL" with
  | Some url =>
      if bool_decide (trim url = "") then notifier_disabled
      else notifier_new has_client url (match env "PROTECTOR_ENGINE_NOTIFY_VERBOSE" with Some v => is_truthy v | None => false end)
  | None => notifier_disabled
  end.
End Environment.

Definition notifier_is_enabled (n : BreachNotifier) : bool := match bn_url n with Some _ => true | None => false end.

(** What is posted, and where. *)
Definition notify (strip_digit : string -> option string) (n : BreachNotifier) (notice : BreachNotice) : option (string * Json) :=
  (fun url => (url, redacted_payload strip_digit notice (bn_verbose n))) <$> bn_url n.

Definition notify_coverage (n : BreachNotifier) (notice : CoverageNotice) : option (string * Json) :=
  (fun url => (url, redacted_coverage_payload notice)) <$> bn_url n.

(** ** What a posture arms *)

Definition webhook_scope (p : OperatingPosture) : EnforceScope :=
  if op_enforce p then Admission.mkScope (op_namespaces p) (op_labels p) else Admission.mkScope ∅ [].

Definition engine_arming (p : OperatingPosture) : EnabledActions * ActuationScope :=
  if op_enforce p then (enabled_actions (op_rung p), Actuator.mkScope (op_namespaces p) (op_labels p)) else (enabled_none, Actuator.mkScope ∅ []).

(** ** Registry credentials (policies/signature/auth.rs) *)

Definition DOCKER_IO_KEY : string := "docker.io".

Definition is_docker_io_host (host : string) : bool := bool_decide (host ∈ ["docker.io"; "index.docker.io"; "registry-1.docker.io"]).

Definition canonical_registry_key (raw : string) : string :=
  let no_scheme := default raw (after_scheme raw) in
  let host := to_ascii_lowercase (up_to [slash_char] no_scheme) in
  if is_docker_io_host host then DOCKER_IO_KEY else host.

Definition image_registry_key (image : string) : string :=
  match split_once slash_char image with
  | Some (host, _) =>
      if contains_char dot_char host || contains_char colon_char host || bool_decide (host = "localhost")
      then canonical_registry_key host else DOCKER_IO_KEY
  | None => DOCKER_IO_KEY
  end.

Section Registry.
(** The base64 decoder and the JSON decoder. *)
Variable base64_decode : string -> option string.
Variable from_str : string -> option Json.

Definition entry_creds (entry : Json) : option (string * string) :=
  match json_get entry "username" ≫= as_str, json_get entry "password" ≫= as_str with
  | Some user, Some pass => Some (user, pass)
  | _, _ =>
      auth ← json_get entry "auth"; auth ← as_str auth; decoded ← base64_decode auth;
      if bool_decide (valid_utf8 decoded) then split_once colon_char decoded else None
  end.

Abbreviation Credentials := (gmap string (string * string)).

Definition auths_map (auths : list (string * Json)) : Credentials :=
  foldl (fun map '(key, entry) => match entry_creds entry with Some creds => <[canonical_registry_key key := creds]> map | None => map end) ∅ auths.

(** The contents of the mounted file, if it can be read. *)
Definition parse_docker_config (contents : option string) : Credentials :=
  match (data ← contents; json ← from_str data; auths ← json_get json "auths"; match auths with JObj fields => Some fields | _ => None end) with
  | Some auths => auths_map auths
  | None => ∅
  end.

Record RegistryAuth := mkRegistryAuth { ra_env_override : option (string * string); ra_entries : Credentials }.

(** [file] is the contents of the file a variable names, if one does. *)
Definition registry_auth_from_env (env : string -> option string) (file : string -> option string) : RegistryAuth :=
  mkRegistryAuth
    (match env "PROTECTOR_REGISTRY_USERNAME", env "PROTECTOR_REGISTRY_PASSWORD" with Some user, Some pass => Some (user, pass) | _, _ => None end)
    (match env "PROTECTOR_REGISTRY_AUTH_FILE" with Some path => parse_docker_config (file path) | None => ∅ end).

(** The credentials an image's registry is asked with; none is anonymous. *)
Definition for_image (r : RegistryAuth) (image : string) : option (string * string) :=
  match ra_env_override r with Some creds => Some creds | None => ra_entries r !! image_registry_key image end.

(** The last entry of a host that holds credentials. *)
Lemma auths_map_lookup auths host creds : auths_map auths !! host = Some creds <->
  exists before key entry after, auths = before ++ (key, entry) :: after /\ canonical_registry_key key = host /\ entry_creds entry = Some creds /\
    forall key' entry', (key', entry') ∈ after -> canonical_registry_key key' = host -> entry_creds entry' = None.
Proof.
  unfold auths_map. rewrite (insert_last (fun '(key, entry) => (fun c => (canonical_registry_key key, c)) <$> entry_creds entry)).
  - split.
    + intros (b & [k e] & a & -> & He & Ha). exists b, k, e, a. split; [done|]. destruct (entry_creds e) as [c|]; [|done]. injection He as -> ->.
      split; [done|]. split; [done|]. intros k' e' H Hk. specialize (Ha _ H). cbn in Ha. destruct (entry_creds e') as [c'|]; [|done]. by destruct (Ha c'); rewrite <- Hk.
    + intros (b & k & e & a & -> & <- & He & Ha). exists b, (k, e), a. split; [done|]. rewrite He. split; [done|]. intros [k' e'] H c'.
      destruct (entry_creds e') as [c|] eqn:Ec; [|done]. intros [= Hk _]. specialize (Ha _ _ H Hk). congruence.
  - intros m [k e]. by destruct (entry_creds e).
Qed.

(** Credentials go to their own registry: without the global override, an image
    is asked for with exactly the credentials of the last entry of the mounted
    file whose host is the image's, Docker Hub under all its names being one host,
    and with none when there is no such entry. *)
Theorem credentials_to_their_host env file path data fields image creds :
  env "PROTECTOR_REGISTRY_USERNAME" = None \/ env "PROTECTOR_REGISTRY_PASSWORD" = None ->
  env "PROTECTOR_REGISTRY_AUTH_FILE" = Some path -> file path = Some data -> (from_str data ≫= fun j => json_get j "auths") = Some (JObj fields) ->
  for_image (registry_auth_from_env env file) image = Some creds <->
  exists before key entry after, fields = before ++ (key, entry) :: after /\ canonical_registry_key key = image_registry_key image /\
    entry_creds entry = Some creds /\
    forall key' entry', (key', entry') ∈ after -> canonical_registry_key key' = image_registry_key image -> entry_creds entry' = None.
Proof.
  intros He Hp Hf Hj. unfold registry_auth_from_env, for_image. rewrite Hp, Hf. cbn [ra_env_override ra_entries].
  assert (match env "PROTECTOR_REGISTRY_USERNAME", env "PROTECTOR_REGISTRY_PASSWORD" with Some user, Some pass => Some (user, pass) | _, _ => None end = None) as ->.
  { destruct He as [-> | ->]; [done|]. by destruct (env "PROTECTOR_REGISTRY_USERNAME"). }
  unfold parse_docker_config. cbn [mbind option_bind]. destruct (from_str data) as [json|]; [|done]. cbn [mbind option_bind] in Hj |- *. rewrite Hj. cbn [mbind option_bind].
  apply auths_map_lookup.
Qed.
End Registry.

(** ** What starts, and what it arms *)

Definition mode_of (env : string -> option string) : string := to_ascii_lowercase (trim (env_or env "PROTECTOR_MODE" "audit")).
Definition rung_of (env : string -> option string) : ArmingRung := rung_from_name (env_or env "PROTECTOR_ENFORCE_RUNG" "edge-cut").
Definition scope_set (p : OperatingPosture) : Prop := op_namespaces p <> ∅ \/ op_labels p <> [].

Lemma posture_starts env p : posture_from_env env = inr p <->
  p = mkPosture (bool_decide (mode_of env = "enforce")) (env_set env "PROTECTOR_ENFORCE_SCOPE_NAMESPACES" "") (env_pairs env "PROTECTOR_ENFORCE_SCOPE_LABELS") (rung_of env) /\
  (mode_of env = "enforce" /\ scope_set p \/ (mode_of env = "audit" \/ mode_of env = "") /\ rung_of env <> NodeRung).
Proof.
  unfold posture_from_env, scope_set. fold (mode_of env) (rung_of env).
  set (ns := env_set env _ _). set (ls := env_pairs env _). generalize (mode_of env) as mode, (rung_of env) as rung, ns, ls. clear. intros mode rung ns ls.
  destruct (bool_decide_reflect (mode = "enforce")) as [->|Hm].
  - destruct (bool_decide_reflect (ns = ∅)), (bool_decide_reflect (ls = [])); cbn [andb negb]; rewrite ?andb_false_r.
    1: { split; [done|]. intros (-> & [(_ & [|])|([|] & _)]); done. }
    all: split; [intros [= <-]; split; [done|]; left; split; [done|]; cbn [op_namespaces op_labels]; auto|by intros (-> & _)].
  - assert (bool_decide (mode = "audit") || bool_decide (mode = "") = true <-> mode = "audit" \/ mode = "") as Ha by (rewrite orb_true_iff, !bool_decide_eq_true; done).
    destruct (bool_decide (mode = "audit") || bool_decide (mode = "")); cbn [andb negb].
    + rewrite andb_true_r. destruct (bool_decide_reflect (rung = NodeRung)) as [->|Hr].
      * split; [done|]. intros (_ & [(? & _)|(_ & ?)]); done.
      * split; [intros [= <-]; split; [done|]; right; split; [by apply Ha|done]|by intros (-> & _)].
    + split; [done|]. intros (_ & [(? & _)|(? & _)]); [done|]. by apply Ha in H.
Qed.

(** The actions of a rung, the narrower before the wider. *)
Definition rung_actions (r : ArmingRung) : list ProposedAction :=
  match r with
  | EdgeCut => [DenyNetworkPath]
  | Quarantine => [DenyNetworkPath; QuarantineEntry; QuarantineWorkload]
  | NodeRung => [DenyNetworkPath; QuarantineEntry; QuarantineWorkload; ContainNode]
  end.

Lemma rung_enables r a : is_enabled (enabled_actions r) a = bool_decide (a ∈ rung_actions r).
Proof. by destruct r, a. Qed.

(** C26: Nothing is armed but what was set: a process that starts has its mode, and
    under enforce a scope that is not empty; it acts and denies under enforce
    alone, up to its rung, on endpoints and pods of that one scope, never on a
    judgement alone; a node is contained only under enforce at the node rung. *)
Theorem boot_arms_exactly env p : posture_from_env env = inr p ->
  (op_enforce p = true <-> mode_of env = "enforce") /\ (op_enforce p = true -> scope_set p) /\
  ea_judgement (engine_arming p).1 = false /\
  (forall a, is_enabled (engine_arming p).1 a = true <-> op_enforce p = true /\ a ∈ rung_actions (rung_of env)) /\
  (forall m blast, decide_cut m (engine_arming p).1 (engine_arming p).2 blast = AutoApply ->
     op_enforce p = true /\ m_action m ∈ rung_actions (rung_of env) /\ endpoints_within (Actuator.mkScope (op_namespaces p) (op_labels p)) m = true) /\
  (forall req, enforces (webhook_scope p) req = true <-> op_enforce p = true /\ enforces (Admission.mkScope (op_namespaces p) (op_labels p)) req = true).
Proof.
  intros Hp%posture_starts. destruct Hp as (-> & Hs). unfold engine_arming, webhook_scope. cbn [op_enforce op_namespaces op_labels op_rung].
  set (ns := env_set env _ _) in *. set (ls := env_pairs env _) in *. unfold scope_set in *. cbn [op_namespaces op_labels] in *.
  destruct (bool_decide_reflect (mode_of env = "enforce")) as [Hm|Hm]; cbn [fst snd ea_judgement enabled_none].
  - assert (ns <> ∅ \/ ls <> []) as Hset by (destruct Hs as [[_ ?]|[[E|E] _]]; [done|rewrite E in Hm; done..]).
    split; [done|]. split; [done|]. split; [by destruct (rung_of env)|]. split; [intros a; rewrite rung_enables, bool_decide_eq_true; tauto|].
    split; [|intros req; tauto]. intros m blast H. unfold decide_cut in H. rewrite rung_enables in H.
    destruct (negb _); [done|]. destruct (negb _); [done|]. destruct (br_reachability_incomplete blast); [done|]. destruct (negb (bool_decide (br_alive_collateral blast = []))); [done|].
    destruct (negb (is_live_corroborated m)); [done|]. destruct (bool_decide_reflect (m_action m ∈ rung_actions (rung_of env))) as [Ha|]; [|done].
    cbn [negb] in H. split; [done|]. split; [done|]. unfold in_scope in H. cbn [as_namespaces as_labels] in H.
    destruct (bool_decide_reflect (ns = ∅)), (bool_decide_reflect (ls = [])); cbn [andb] in H; [by destruct Hset|..]; by destruct (endpoints_within _ m).
  - split; [done|]. split; [done|]. split; [done|]. split; [intros a; split; [by destruct a|by intros [? _]]|].
    split; [|intros req; split; [|by intros [? _]]].
    + intros m blast H. unfold decide_cut in H. replace (is_enabled enabled_none (m_action m)) with false in H by (by destruct (m_action m)).
      destruct (negb _); [done|]. destruct (negb _); [done|]. destruct (br_reachability_incomplete blast); [done|]. destruct (negb (bool_decide (br_alive_collateral blast = []))); [done|].
      by destruct (negb (is_live_corroborated m)).
    + unfold enforces. cbn [es_namespaces es_labels]. by destruct (ar_namespace req).
Qed.

(** ** The notifier *)

Theorem notifier_posts_within env has_client strip_digit notice url payload :
  notify strip_digit (notifier_from_env env has_client) notice = Some (url, payload) ->
  exists raw, env "PROTECTOR_ENGINE_NOTIFY_URL" = Some raw /\ url = trim raw /\ url <> "" /\
    (external_opt_in (env "PROTECTOR_ALLOW_EXTERNAL_NOTIFY") = true \/ exists host, endpoint_host url = Some host /\ host_is_in_cluster host = true) /\
    exists verbose, payload = redacted_payload strip_digit notice verbose.
Proof.
  unfold notify, notifier_from_env. destruct (env "PROTECTOR_ENGINE_NOTIFY_URL") as [raw|]; [|done].
  case_bool_decide as Hr; [done|]. unfold notifier_new. rewrite bool_decide_eq_false_2 by done. unfold validate_in_cluster_endpoint.
  destruct (external_opt_in (env "PROTECTOR_ALLOW_EXTERNAL_NOTIFY")) eqn:Eo.
  - destruct (has_client _); [|done]. cbn. intros [= <- <-]. exists raw. split; [done|]. split; [done|]. split; [done|]. split; [by left|eauto].
  - destruct (endpoint_host (trim raw)) as [h|] eqn:Eh; [|done]. destruct (host_is_in_cluster h) eqn:Ei; [|done]. destruct (has_client _); [|done].
    cbn. intros [= <- <-]. exists raw. split; [done|]. split; [done|]. split; [done|]. split; [right; eauto|eauto].
Qed.

Definition toy_env (mode ns rung : string) : string -> option string := fun key =>
  if bool_decide (key = "PROTECTOR_MODE") then Some mode else if bool_decide (key = "PROTECTOR_ENFORCE_SCOPE_NAMESPACES") then Some ns
  else if bool_decide (key = "PROTECTOR_ENFORCE_RUNG") then Some rung else None.

(** The refusals, and the safe start of an empty environment. *)
Theorem boot_refusals :
  posture_from_env (fun _ => None) = inr (mkPosture false ∅ [] EdgeCut) /\
  posture_from_env (toy_env "enforce" " , " "quarantine") = inl EmptyScope /\
  posture_from_env (toy_env "audit" "payments" "node") = inl NodeWithoutEnforce /\
  posture_from_env (toy_env "enforced" "payments" "node") = inl (BadMode "enforced") /\
  posture_from_env (toy_env " Enforce " "payments" "node") = inr (mkPosture true {["payments"]} [] NodeRung).
Proof. vm_compute. auto 6. Qed.

Lemma boot_arms_exactly_witness :
  (op_enforce (mkPosture true {["payments"]} [] NodeRung) = true <-> mode_of (toy_env " Enforce " "payments" "node") = "enforce") /\ True.
Proof. split; [|exact I]. refine (proj1 (boot_arms_exactly (toy_env " Enforce " "payments" "node") (mkPosture true {["payments"]} [] NodeRung) _)). vm_compute. reflexivity. Defined.

Definition two_orgs : list (string * Json) :=
  [("ghcr.io/payments", JObj [("username", JStr "payments-bot"); ("password", JStr "p1")]);
   ("ghcr.io/web", JObj [("username", JStr "web-bot"); ("password", JStr "p2")]);
   ("https://index.docker.io/v1/", JObj [("username", JStr "hub"); ("password", JStr "p3")])].

Definition registry_env : string -> option string := fun key => if bool_decide (key = "PROTECTOR_REGISTRY_AUTH_FILE") then Some "/creds" else None.

Lemma credentials_to_their_host_witness :
  for_image (registry_auth_from_env (fun _ => None) (fun _ => Some (JObj [("auths", JObj two_orgs)])) registry_env (fun _ => Some "{}")) "redis:16" = Some ("hub", "p3") <->
  exists before key entry after, two_orgs = before ++ (key, entry) :: after /\ canonical_registry_key key = image_registry_key "redis:16" /\
    entry_creds (fun _ => None) entry = Some ("hub", "p3") /\
    forall key' entry', (key', entry') ∈ after -> canonical_registry_key key' = image_registry_key "redis:16" -> entry_creds (fun _ => None) entry' = None.
Proof.
  apply (credentials_to_their_host (fun _ => None) (fun _ => Some (JObj [("auths", JObj two_orgs)])) registry_env (fun _ => Some "{}") "/creds" "{}" two_orgs "redis:16" ("hub", "p3"));
    [left|..]; reflexivity.
Defined.

(** Entries of one host for different paths are one: an image is asked for with the
    credentials of another path. *)
Theorem path_entries_collapse :
  for_image (registry_auth_from_env (fun _ => None) (fun _ => Some (JObj [("auths", JObj two_orgs)])) registry_env (fun _ => Some "{}")) "ghcr.io/payments/app:1" =
    Some ("web-bot", "p2") /\
  for_image (registry_auth_from_env (fun _ => None) (fun _ => Some (JObj [("auths", JObj two_orgs)])) registry_env (fun _ => Some "{}")) "library/redis" = Some ("hub", "p3") /\
  for_image (registry_auth_from_env (fun _ => None) (fun _ => Some (JObj [("auths", JObj two_orgs)])) registry_env (fun _ => Some "{}")) "quay.io/web/app" = None.
Proof. vm_compute. auto. Qed.

(** ** The transparency-log lane (policies/signature/rekor.rs) *)

Definition REKOR_DEFAULT_URL : string := "https://rekor.sigstore.dev".

Definition env_truthy (env : string -> option string) (key : string) : bool := match env key with Some v => is_truthy v | None => false end.

(** The times are in seconds. *)
Record RekorConfig := mkRekorConfig { rk_enabled : bool; rk_base_url : string; rk_timeout : N; rk_cache_ttl : N; rk_max_response_bytes : N }.

Definition trim_end_slashes (s : string) : string := str_rev (strip_all (String.length s) ["/"] (str_rev s)).

Definition rekor_config_from_env (env : string -> option string) : RekorConfig :=
  mkRekorConfig (env_truthy env "PROTECTOR_REKOR_ENABLE")
    (default REKOR_DEFAULT_URL (u ← env "PROTECTOR_REKOR_URL"; let u := trim_end_slashes u in if bool_decide (u = "") then None else Some u))
    (env_parse env "PROTECTOR_REKOR_TIMEOUT" 5) (env_parse env "PROTECTOR_REKOR_CACHE_TTL" 3600) (env_parse env "PROTECTOR_REKOR_MAX_BYTES" 1048576).

Inductive QueryKey := KeyHash (hash : string) | KeyEmail (email : string).

Definition query_key (image : string) (identity : option string) : option QueryKey :=
  let email := match identity with
               | Some id => if contains_char at_char id && negb (starts_with "http://" id) && negb (starts_with "https://" id) then Some (KeyEmail id) else None
               | None => None
               end in
  match split_once at_char image with
  | Some (_, digest) => if starts_with "sha256:" digest then Some (KeyHash digest) else email
  | None => email
  end.

Definition query_body (key : QueryKey) : Json := match key with KeyHash hash => JObj [("hash", JStr hash)] | KeyEmail email => JObj [("email", JStr email)] end.

Section Rekor.
(** The JSON decoder, and what the log answers to a query, if it does: its status and
    the pieces of its body, one that cannot be read being [None]. *)
Variable from_str : string -> option Json.
Variable post : string -> Json -> option ChatResponse.

Fixpoint rekor_body (max : N) (buf : string) (chunks : list (option string)) : option string :=
  match chunks with
  | [] => if bool_decide (valid_utf8 buf) then Some buf else None
  | None :: _ => None
  | Some chunk :: chunks => if (max <? N.of_nat (String.length buf + String.length chunk))%N then None else rekor_body max (buf +:+ chunk) chunks
  end.

(** A body that is not an array of strings is no answer. *)
Definition entry_uuids (json : Json) : option (list string) := as_array json ≫= mapM as_str.

(** [HttpRekorClient::lookup]: whether the log holds an entry. *)
Definition http_lookup (config : RekorConfig) (image : string) (identity : option string) : option bool :=
  key ← query_key image identity;
  response ← post (rk_base_url config +:+ "/api/v1/index/retrieve") (query_body key);
  if negb (is_success response) then None
  else text ← rekor_body (rk_max_response_bytes config) "" (rs_chunks response); json ← from_str text; uuids ← entry_uuids json;
       Some (negb (bool_decide (uuids = []))).

(** [RekorLane::lookup], over any client; the clock is read before the client is asked
    and again when it answered. The flag says whether it was asked. *)
Abbreviation RekorCache := (gmap string (bool * Z)).

Definition lane_lookup (client : string -> option string -> option bool) (ttl now answered : Z) (image : string) (identity : option string) (cache : RekorCache) :
    option bool * RekorCache * bool :=
  match (c ← cache !! image; if (now - c.2 <? ttl)%Z then Some c.1 else None) with
  | Some history => (Some history, cache, false)
  | None => match client image identity with Some history => (Some history, <[image := (history, answered)]> cache, true) | None => (None, cache, true) end
  end.

(** [build_rekor_lane]: a client only where the lane is enabled. *)
Definition build_rekor_lane (env : string -> option string) : option RekorConfig :=
  let config := rekor_config_from_env env in if rk_enabled config then Some config else None.

(** ** What the lane takes for an answer *)

Lemma rekor_body_pieces max chunks : forall buf b, (N.of_nat (String.length buf) <= max)%N -> rekor_body max buf chunks = Some b ->
  (exists cs, chunks = Some <$> cs /\ b = buf +:+ String.concat "" cs) /\ (N.of_nat (String.length b) <= max)%N.
Proof.
  induction chunks as [|[c|] chunks IH]; intros buf b Hb H; cbn [rekor_body] in H; [|..].
  - destruct (bool_decide _); [|done]. injection H as <-. split; [|done]. exists []. by rewrite app_str_nil_r.
  - rewrite <- str_length_app in H. destruct (N.ltb_spec max (N.of_nat (String.length (buf +:+ c)))) as [|Hl]; [done|].
    apply IH in H as ((cs & -> & ->) & Hm); [|done]. split; [|done]. exists (c :: cs). split; [done|]. rewrite app_str_assoc. f_equal.
    by destruct cs; [cbn; rewrite app_str_nil_r|].
  - done.
Qed.

(** That the log has no entry is said by the log alone: only a success whose whole
    body, within the cap, is an empty array of entries reads as no entry; nothing else
    the endpoint or its absence can produce does. *)
Theorem not_in_log_exact config image identity : http_lookup config image identity = Some false ->
  exists key status cs json, query_key image identity = Some key /\
    post (rk_base_url config +:+ "/api/v1/index/retrieve") (query_body key) = Some (mkChatResponse status (Some <$> cs)) /\
    (200 <= status < 300)%N /\ (N.of_nat (String.length (String.concat "" cs)) <= rk_max_response_bytes config)%N /\
    from_str (String.concat "" cs) = Some json /\ json = JArr [].
Proof.
  unfold http_lookup. intros (key & Hk & H)%bind_Some. apply bind_Some in H as ([status chunks] & Hp & H). destruct (is_success _) eqn:Es; [|done].
  cbn [negb] in H. apply bind_Some in H as (text & Hb & H). apply bind_Some in H as (json & Hj & H). apply bind_Some in H as (uuids & Hu & [= H]).
  apply negb_false_iff, bool_decide_eq_true in H as ->. apply rekor_body_pieces in Hb as ((cs & Hc & ->) & Hl); [|cbn; lia].
  cbn [rs_chunks] in Hc. subst chunks. change ("" +:+ String.concat "" cs) with (String.concat "" cs) in *. exists key, status, cs, json.
  split; [done|]. split; [done|]. split; [|split; [done|split; [done|]]].
  - unfold is_success in Es. cbn [rs_status] in Es. apply andb_true_iff in Es as [E1%N.leb_le E2%N.ltb_lt]. lia.
  - unfold entry_uuids in Hu. apply bind_Some in Hu as (items & Ha & Hm). destruct items as [|x items]; [|apply mapM_Some_1 in Hm; inversion Hm].
    destruct json; try done. by injection Ha as ->.
Qed.

(** What the lane asks and keeps: within the time to live of an answer for an image it
    gives that answer and asks nothing; else it asks, keeps a definite answer and
    keeps nothing of a failure. *)
Theorem lane_lookup_exact client ttl now answered image identity cache :
  match cache !! image with
  | Some (history, at_) =>
      (now - at_ < ttl)%Z -> lane_lookup client ttl now answered image identity cache = (Some history, cache, false)
  | None => True
  end /\
  ((forall history at_, cache !! image = Some (history, at_) -> (ttl <= now - at_)%Z) ->
   lane_lookup client ttl now answered image identity cache =
     (client image identity, match client image identity with Some history => <[image := (history, answered)]> cache | None => cache end, true)).
Proof.
  unfold lane_lookup. destruct (cache !! image) as [[history at_]|] eqn:E; cbn [mbind option_bind fst snd].
  - split; [intros H; by rewrite (proj2 (Z.ltb_lt _ _) H)|]. intros H. specialize (H _ _ eq_refl).
    rewrite (proj2 (Z.ltb_ge _ _) H). by destruct (client image identity).
  - split; [done|]. intros _. by destruct (client image identity).
Qed.
End Rekor.

(** Off unless switched on. *)
Theorem rekor_lane_off env : env_truthy env "PROTECTOR_REKOR_ENABLE" = false -> build_rekor_lane env = None.
Proof. unfold build_rekor_lane, rekor_config_from_env. cbn [rk_enabled]. by intros ->. Qed.

(** The cache is keyed by the image alone: an image signed anew by another identity is
    given the history of the one before. *)
Theorem other_identity_served : forall client,
  lane_lookup client 3600 10 10 "ghcr.io/org/app:1" (Some "mallory@evil.example") {["ghcr.io/org/app:1" := (true, 0%Z)]} =
    (Some true, {["ghcr.io/org/app:1" := (true, 0%Z)]}, false) /\
  query_key "ghcr.io/org/app:1" (Some "mallory@evil.example") = Some (KeyEmail "mallory@evil.example").
Proof. intros client. vm_compute. done. Qed.
