(* ===== verification/Kube.v ===== *)
(** * The actuators and the cluster they write to

    engine/src/engine/respond/actuator/kube.rs (the two live actuators), mod.rs
    (the dry run) and run_loop.rs ([build_actuator]). The cluster is what
    protector owns of its policies, by kind, namespace and name; whether the API
    takes a call is an argument, a refused call is logged and answered [DryRun].
    Then how the objects in the cluster stand to the log of applied cuts. *)

From S2P Require Import Prelude Text Json PetGraph Attack Behavior Classify Graph Chain Prove Boundary Respond Ledger Actuator ActuatorFacts Render.
From S2P Require Import NodeContainment Backoff Verdicts VerdictFacts Incident AdjPass AdjFacts Divergence ImageRef Posture PolicyLog Journal Engine Restore EngineFacts.

(** ** The choice of the actuator *)

Inductive ActuatorKind := DryRunActuator | KubeActuator | IsolationActuator.

Definition build_actuator (env : string -> option string) (active : EnabledActions) : ActuatorKind :=
  if enabled_is_empty active then DryRunActuator
  else
    let selector := trim (default "" (env "PROTECTOR_ENGINE_ACTUATOR")) in
    if bool_decide (selector ∈ ["networkpolicy"; "net"]) then IsolationActuator
    else if bool_decide (selector ∈ ["adminnetworkpolicy"; "anp"]) then KubeActuator
    else DryRunActuator.

(** ** The calls *)

Abbreviation ObjectKey := (string * option string * string)%type.
Abbreviation Objects := (gmap ObjectKey Json).

Definition np_key (namespace name : string) : ObjectKey := ("NetworkPolicy", Some namespace, name).
Definition anp_key (name : string) : ObjectKey := ("AdminNetworkPolicy", None, name).

Section Calls.
Variable default_hash : string -> Z.
(** Whether a manifest can be read as an object of the API. *)
Variable from_value : Json -> bool.

(** A forced server-side apply sets what the manifest says. *)
Definition patch_object (ok : bool) (key : ObjectKey) (manifest : Json) (c : Objects) : Actuation * Objects :=
  if negb (from_value manifest) then (DryRun, c)
  else if ok then (Applied, <[key := manifest]> c) else (DryRun, c).

(** Deleting what is not there is an error of the API. *)
Definition delete_object (ok : bool) (key : ObjectKey) (c : Objects) : Actuation * Objects :=
  if ok && bool_decide (is_Some (c !! key)) then (Reverted, delete key c) else (DryRun, c).

Definition apply_isolation (ok : bool) (m : Mitigation) (c : Objects) : Actuation * Objects :=
  match render_isolation default_hash m, workload_namespace (l_from (m_cut m)) with
  | Some manifest, Some ns => patch_object ok (np_key ns (object_name default_hash "protector-isolate" m)) manifest c
  | _, _ => (DryRun, c)
  end.

Definition revert_isolation (ok : bool) (m : Mitigation) (c : Objects) : Actuation * Objects :=
  match workload_namespace (l_from (m_cut m)) with
  | Some ns => delete_object ok (np_key ns (object_name default_hash "protector-isolate" m)) c
  | None => (DryRun, c)
  end.

Definition actuator_apply (kind : ActuatorKind) (ok : bool) (m : Mitigation) (c : Objects) : Actuation * Objects :=
  match kind with
  | DryRunActuator => (DryRun, c)
  | IsolationActuator => apply_isolation ok m c
  | KubeActuator =>
      if bool_decide (m_action m = QuarantineEntry) then apply_isolation ok m c
      else match render_deny default_hash m with
           | Some manifest => patch_object ok (anp_key (object_name default_hash "protector-deny" m)) manifest c
           | None => (DryRun, c)
           end
  end.

Definition actuator_revert (kind : ActuatorKind) (ok : bool) (m : Mitigation) (c : Objects) : Actuation * Objects :=
  match kind with
  | DryRunActuator => (DryRun, c)
  | IsolationActuator => revert_isolation ok m c
  | KubeActuator =>
      if bool_decide (m_action m = QuarantineEntry) then revert_isolation ok m c
      else delete_object ok (anp_key (object_name default_hash "protector-deny" m)) c
  end.

(** What one step of a pass writes; the answer of the actuator is dropped. *)
Definition perform (kind : ActuatorKind) (ok : Mitigation -> bool) (c : Objects) (f : Effect) : Objects :=
  match f with
  | FxApply m => (actuator_apply kind (ok m) m c).2
  | FxRevert m => (actuator_revert kind (ok m) m c).2
  | FxNode (IsolationApply m) => (apply_isolation (ok m) m c).2
  | FxNode (IsolationRevert m) => (revert_isolation (ok m) m c).2
  | _ => c
  end.

Definition perform_all (kind : ActuatorKind) (ok : Mitigation -> bool) (fx : list Effect) (c : Objects) : Objects :=
  foldl (perform kind ok) c fx.

(** ** What a cut is in the cluster *)

Definition isolation_object (m : Mitigation) : option (ObjectKey * Json) :=
  manifest ← render_isolation default_hash m; ns ← workload_namespace (l_from (m_cut m));
  Some (np_key ns (object_name default_hash "protector-isolate" m), manifest).

Definition object_of (kind : ActuatorKind) (m : Mitigation) : option (ObjectKey * Json) :=
  match kind with
  | DryRunActuator => None
  | IsolationActuator => isolation_object m
  | KubeActuator =>
      if bool_decide (m_action m = QuarantineEntry) then isolation_object m
      else (fun manifest => (anp_key (object_name default_hash "protector-deny" m), manifest)) <$> render_deny default_hash m
  end.

Definition reverted_key (kind : ActuatorKind) (m : Mitigation) : option ObjectKey :=
  let isolated := (fun ns => np_key ns (object_name default_hash "protector-isolate" m)) <$> workload_namespace (l_from (m_cut m)) in
  match kind with
  | DryRunActuator => None
  | IsolationActuator => isolated
  | KubeActuator => if bool_decide (m_action m = QuarantineEntry) then isolated else Some (anp_key (object_name default_hash "protector-deny" m))
  end.

Lemma object_reverted kind m k j : object_of kind m = Some (k, j) -> reverted_key kind m = Some k.
Proof.
  assert (isolation_object m = Some (k, j) ->
    (fun ns => np_key ns (object_name default_hash "protector-isolate" m)) <$> workload_namespace (l_from (m_cut m)) = Some k) as Hi.
  { unfold isolation_object. destruct (render_isolation _ m); [|done]. destruct (workload_namespace _); [|done]. by intros [= <- _]. }
  destruct kind; [done| |by apply Hi]. cbn [object_of reverted_key]. case_bool_decide; [by apply Hi|].
  intros (? & _ & [= -> _])%fmap_Some. done.
Qed.

(** Keys come from hashes: equal keys, equal hashes. *)
Lemma reverted_name kind m k : reverted_key kind m = Some k ->
  k.2 = object_name default_hash (if bool_decide (k.1.1 = "NetworkPolicy") then "protector-isolate" else "protector-deny") m.
Proof.
  assert ((fun ns => np_key ns (object_name default_hash "protector-isolate" m)) <$> workload_namespace (l_from (m_cut m)) = Some k ->
    k.2 = object_name default_hash (if bool_decide (k.1.1 = "NetworkPolicy") then "protector-isolate" else "protector-deny") m) as Hi
    by (intros (ns & _ & ->)%fmap_Some; done).
  destruct kind; [done| |exact Hi]. cbn [reverted_key]. destruct (bool_decide (m_action m = QuarantineEntry)); [exact Hi|]. by intros [= <-].
Qed.

Lemma reverted_hash kind m m' k : (forall s, (0 <= default_hash s < 2 ^ 64)%Z) ->
  reverted_key kind m = Some k -> reverted_key kind m' = Some k -> default_hash (m_signature m) = default_hash (m_signature m').
Proof.
  intros Hh H%reverted_name H'%reverted_name.
  apply (proj1 (object_name_identity default_hash (if bool_decide (k.1.1 = "NetworkPolicy") then "protector-isolate" else "protector-deny") m m' Hh)). congruence.
Qed.

(** ** Writes *)

Abbreviation Write := (ObjectKey * option Json)%type.

Definition write_one (c : Objects) (w : Write) : Objects := match w.2 with Some j => <[w.1 := j]> c | None => delete w.1 c end.

Definition write_of (kind : ActuatorKind) (ok : Mitigation -> bool) (f : Effect) : option Write :=
  match f with
  | FxApply m => '(k, j) ← object_of kind m; if from_value j && ok m then Some (k, Some j) else None
  | FxRevert m => k ← reverted_key kind m; if ok m then Some (k, None) else None
  | _ => None
  end.

Lemma delete_write ok key c : (delete_object ok key c).2 = if ok then delete key c else c.
Proof.
  unfold delete_object. destruct ok; [|done]. cbn [andb]. case_bool_decide as H; [done|]. symmetry. apply delete_id.
  by destruct (c !! key) eqn:E; [destruct H; eauto|].
Qed.

Lemma patch_write ok key j c : (patch_object ok key j c).2 = if from_value j && ok then <[key := j]> c else c.
Proof. unfold patch_object. by destruct (from_value j), ok. Qed.

Lemma perform_write kind ok c f : (forall nf, f <> FxNode nf) ->
  perform kind ok c f = match write_of kind ok f with Some w => write_one c w | None => c end.
Proof.
  assert (forall m, (apply_isolation (ok m) m c).2 =
    match ('(k, j) ← isolation_object m; if from_value j && ok m then Some (k, Some j) else None) with Some w => write_one c w | None => c end) as Hai.
  { intros m. unfold apply_isolation, isolation_object. destruct (render_isolation _ m) as [j|]; [|done]. cbn [mbind option_bind].
    destruct (workload_namespace _) as [ns|]; [|done]. cbn [mbind option_bind]. rewrite patch_write. by destruct (from_value j && ok m). }
  assert (forall m, (revert_isolation (ok m) m c).2 =
    match (k ← (fun ns => np_key ns (object_name default_hash "protector-isolate" m)) <$> workload_namespace (l_from (m_cut m)); if ok m then Some (k, None) else None)
    with Some w => write_one c w | None => c end) as Hri.
  { intros m. unfold revert_isolation. destruct (workload_namespace _) as [ns|]; [|done]. cbn [fmap option_fmap option_map mbind option_bind].
    rewrite delete_write. by destruct (ok m). }
  intros Hn. destruct f as [| |m| | |m|nf|]; try done; [| |by destruct (Hn nf)]; cbn [perform write_of].
  - destruct kind; [done| |apply Hai]. cbn [actuator_apply object_of]. case_bool_decide; [apply Hai|].
    destruct (render_deny _ m) as [j|]; [|done]. cbn [fmap option_fmap option_map mbind option_bind]. rewrite patch_write. by destruct (from_value j && ok m).
  - destruct kind; [done| |apply Hri]. cbn [actuator_revert reverted_key]. case_bool_decide; [apply Hri|].
    cbn [mbind option_bind]. rewrite delete_write. by destruct (ok m).
Qed.

Lemma perform_all_writes kind ok fx c : (forall nf, FxNode nf ∉ fx) -> perform_all kind ok fx c = foldl write_one c (omap (write_of kind ok) fx).
Proof.
  unfold perform_all. revert c. induction fx as [|f fx IH]; intros c Hn; [done|]. cbn [foldl omap list_omap].
  rewrite perform_write by (intros nf ->; apply (Hn nf); left). destruct (write_of kind ok f); cbn [foldl]; apply IH; intros nf H; apply (Hn nf); by right.
Qed.

(** Writes that agree on a key decide it. *)
Lemma writes_lookup ws c k : (forall v v', (k, v) ∈ ws -> (k, v') ∈ ws -> v = v') ->
  (forall v, (k, v) ∈ ws -> foldl write_one c ws !! k = v) /\ ((forall v, (k, v) ∉ ws) -> foldl write_one c ws !! k = c !! k).
Proof.
  assert (forall c w, write_one c w !! k = if bool_decide (w.1 = k) then w.2 else c !! k) as Hw.
  { intros c0 [k' v]. unfold write_one. cbn [fst snd]. case_bool_decide as E; [subst|]; destruct v.
    - apply lookup_insert_eq. - apply lookup_delete_eq. - by apply lookup_insert_ne. - by apply lookup_delete_ne. }
  induction ws as [|w ws IH] using rev_ind; intros Hf; [split; [intros v H; by apply elem_of_nil in H|done]|].
  destruct IH as [IH1 IH2]; [intros v v' H H'; apply Hf; apply elem_of_app; by left|].
  rewrite foldl_snoc, Hw. destruct w as [k' v0]. cbn [fst snd]. case_bool_decide as E; [subst k'|].
  - split.
    + intros v H. apply Hf; [apply elem_of_app; right; left|done].
    + intros H. destruct (H v0). apply elem_of_app; right; left.
  - split.
    + intros v [H|[= -> ->]%list_elem_of_singleton]%elem_of_app; [by apply IH1|done].
    + intros H. apply IH2. intros v Hv. apply (H v), elem_of_app. by left.
Qed.

(** ** The log and the cluster *)

(** The objects in the cluster are those of the cuts that stand. *)
Definition mirrors (kind : ActuatorKind) (log : ActionLog) (c : Objects) : Prop :=
  forall k j, c !! k = Some j <-> exists a, a ∈ log /\ object_of kind (aa_mitigation a) = Some (k, j).

Section Passes.
Context {G : Type} `{SGL : StableGraphLaws G Node Edge}.
Variable from_str : string -> option Json.
Variable delta_prompt : NodeKey -> list (NodeKey * AttackRef) -> option JudgedSurface -> list NodeKey -> Menu -> DeltaBuild.
Variable entry_coverage : NodeKey -> list string * bool.
Variable kind : ActuatorKind.
Variable sigs : gset string.
Implicit Types sg : SecurityGraph G.

(** A pass of the engine and its writes; a [reliable] one has every call taken. The
    cuts of a run are among [sigs]. *)
Inductive cluster_step (reliable : bool) : Engine * Objects -> Engine * Objects -> Prop :=
  | cluster_pass judge complete en ob sg en' preview fx ok c :
      (forall sig, is_Some (en_ledger en' !! sig) -> sig ∈ sigs) -> pass_judged judge complete -> answers_menu from_str judge ->
      process default_hash delta_prompt entry_coverage complete en ob sg = Some (en', preview, fx) ->
      (reliable = true -> forall m, ok m = true) ->
      cluster_step reliable (en, c) (en', perform_all kind ok fx c).

Lemma loop_no_node verdicts effective scope sg health fleet now nf ms acc :
  FxNode nf ∉ acc.2 -> FxNode nf ∉ (foldl (actuate_one verdicts effective scope sg health fleet now) acc ms).2.
Proof.
  revert acc. induction ms as [|m ms IH]; intros [[log blasts] fx] Hn; [done|]. cbn [foldl]. apply IH. unfold actuate_one. cbv zeta.
  assert (forall l' (o : option ProposalOutcome), FxNode nf ∉ l' -> FxNode nf ∉ fx ++ l' ++ option_list (FxContainNode <$> o)) as H.
  { intros l' o Hl. rewrite !elem_of_app. intros [?|[?|Ho]]; [done..|]. destruct o; [by apply list_elem_of_singleton in Ho|by apply elem_of_nil in Ho]. }
  destruct (gate_on_judge_freshness _ _ _ _); [destruct (log_is_active log m)|..]; cbn [snd]; apply H; rewrite ?elem_of_cons, elem_of_nil; naive_solver.
Qed.

(** No pass lifts a node: nothing in the log contains one. *)
Lemma process_no_node complete judge en ob sg en' preview fx nf :
  pass_judged judge complete -> answers_menu from_str judge -> engine_ok en ->
  process default_hash delta_prompt entry_coverage complete en ob sg = Some (en', preview, fx) -> FxNode nf ∉ fx.
Proof.
  intros Hc Hj Hok Hp. pose proof (process_ok _ _ _ _ _ _ _ _ _ _ _ _ Hc Hj Hok Hp) as [[_ Hl' _ _ _ _] _].
  unfold process in Hp. apply bind_Some in Hp as (chains & _ & Hp). apply bind_Some in Hp as ([[st chains'] pfx] & _ & Hp).
  destruct (reconcile _ _ _) as [ledger delta]. destruct (actuate _ _ _ _ _ _ _ _ _) as [[log prev] afx] eqn:Hact.
  injection Hp as <- <- <-. cbn [en_ledger] in Hl'. rewrite !elem_of_app, !list_elem_of_fmap. intros [(? & ? & _)|[(? & ? & _)|H]]; [done..|]. revert H.
  unfold actuate in Hact. set (facts := refresh_node_facts _ _) in *. set (effective := poll_break_glass _ _) in *.
  pose proof (actuate_loop (ps_verdicts st) effective (en_scope en) sg (ob_health ob) (btree_values facts) (ob_now ob) (btree_values ledger)
    (en_actions en) (ledger_signatures_nodup _ Hl')) as Hlog. cbv zeta in Hlog.
  pose proof (loop_no_node (ps_verdicts st) effective (en_scope en) sg (ob_health ob) (btree_values facts) (ob_now ob) nf (btree_values ledger)
    (en_actions en, [], []) (not_elem_of_nil _)) as Hno.
  destruct (foldl _ _ (btree_values ledger)) as [[log1 blasts] fx1]. destruct Hlog as (-> & _). cbn [snd] in Hno.
  match type of Hact with context [log_reconcile ?l ?h ?j ?e] => pose proof (log_reconcile_spec l h j e) as Hrec; destruct (log_reconcile l h j e) as [keep reversions] end.
  destruct Hrec as [_ ->]. injection Hact as _ _ <-. rewrite elem_of_app, elem_of_concat. intros [H|(l & (r & -> & Hr)%list_elem_of_fmap & H)]; [done|].
  apply list_elem_of_omap in Hr as (a & Ha & (why & _ & ->)%fmap_Some). unfold revert_one in H. cbn [rv_mitigation] in H.
  assert (m_action (aa_mitigation a) <> ContainNode) as Hnode.
  { apply elem_of_app in Ha as [Ha|(m & -> & Hm)%list_elem_of_fmap].
    - destruct (eo_additive _ Hok a Ha) as [Had _]. by destruct (m_action _).
    - apply newly_live_spec in Hm as (_ & [[Hcl _ _ _ _ _] _] & _). cbn. by destruct Hcl as [->|[->| ->]]. }
  rewrite bool_decide_eq_false_2 in H by done. rewrite elem_of_app, !list_elem_of_singleton in H. by destruct H.
Qed.

(** ** One pass *)

Hypothesis hash_range : forall s, (0 <= default_hash s < 2 ^ 64)%Z.

(** What a pass leaves at a key its own cut names, whatever is refused. *)
Lemma pass_writes judge complete en ob sg en' preview fx ok c :
  pass_judged judge complete -> answers_menu from_str judge -> engine_ok en ->
  process default_hash delta_prompt entry_coverage complete en ob sg = Some (en', preview, fx) ->
  perform_all kind ok fx c = foldl write_one c (omap (write_of kind ok) fx) /\
  forall k v, (k, v) ∈ omap (write_of kind ok) fx <->
    (exists m j, FxApply m ∈ fx /\ object_of kind m = Some (k, j) /\ from_value j = true /\ ok m = true /\ v = Some j) \/
    (exists m, FxRevert m ∈ fx /\ reverted_key kind m = Some k /\ ok m = true /\ v = None).
Proof.
  intros Hc Hj Hok Hp. split; [apply perform_all_writes; intros nf; by eapply process_no_node|].
  intros k v. rewrite list_elem_of_omap. split.
  - intros (f & Hf & Hw). destruct f as [| |m| | |m| |]; try done; cbn [write_of] in Hw; apply bind_Some in Hw.
    + left. destruct Hw as ([k' j] & Ho & Hw). destruct (from_value j) eqn:Ev, (ok m) eqn:Eo; try done. injection Hw as <- <-. exists m, j. done.
    + right. destruct Hw as (k' & Ho & Hw). destruct (ok m) eqn:Eo; [|done]. injection Hw as <- <-. exists m. done.
  - intros [(m & j & Hf & Ho & Hv & Hk & ->)|(m & Hf & Ho & Hk & ->)].
    + exists (FxApply m). split; [done|]. cbn [write_of]. by rewrite Ho; cbn [mbind option_bind]; rewrite Hv, Hk.
    + exists (FxRevert m). split; [done|]. cbn [write_of]. by rewrite Ho; cbn [mbind option_bind]; rewrite Hk.
Qed.

Hypothesis hash_separates : forall s s', s ∈ sigs -> s' ∈ sigs -> default_hash s = default_hash s' -> s = s'.

Definition within (en : Engine) : Prop := forall a, a ∈ en_actions en -> m_signature (aa_mitigation a) ∈ sigs.

(** What a pass finds standing and what it adds never share a key. *)
Lemma keys_apart judge complete en ob sg en' preview fx m a k :
  pass_judged judge complete -> answers_menu from_str judge -> engine_ok en -> within en ->
  process default_hash delta_prompt entry_coverage complete en ob sg = Some (en', preview, fx) ->
  (forall sig, is_Some (en_ledger en' !! sig) -> sig ∈ sigs) -> FxApply m ∈ fx ->
  reverted_key kind m = Some k -> a ∈ en_actions en -> reverted_key kind (aa_mitigation a) <> Some k.
Proof.
  intros Hc Hj Hok Hw Hp Hs Hm Hk Ha Hka. destruct (process_ok _ _ _ _ _ _ _ _ _ _ _ _ Hc Hj Hok Hp) as [Hok' [Happ _ _ _]].
  apply Happ in Hm as ((sig & Hsig) & _ & Hn). pose proof (reverted_hash _ _ _ _ hash_range Hk Hka) as Hh.
  destruct (eo_ledger _ Hok' sig m Hsig) as [Heq _]. change (m_signature m = sig) in Heq. apply hash_separates in Hh; [|apply Hs; rewrite Heq; eauto|by apply Hw].
  apply Hn. rewrite Hh. by apply (list_elem_of_fmap_2 (m_signature ∘ aa_mitigation)).
Qed.

Lemma applied_same judge complete en ob sg en' preview fx m m' k :
  pass_judged judge complete -> answers_menu from_str judge -> engine_ok en ->
  process default_hash delta_prompt entry_coverage complete en ob sg = Some (en', preview, fx) ->
  (forall sig, is_Some (en_ledger en' !! sig) -> sig ∈ sigs) -> FxApply m ∈ fx -> FxApply m' ∈ fx ->
  reverted_key kind m = Some k -> reverted_key kind m' = Some k -> m = m'.
Proof.
  intros Hc Hj Hok Hp Hs Hm Hm' Hk Hk'. destruct (process_ok _ _ _ _ _ _ _ _ _ _ _ _ Hc Hj Hok Hp) as [Hok' [Happ _ _ _]].
  pose proof (reverted_hash _ _ _ _ hash_range Hk Hk') as Hh.
  apply Happ in Hm as ((sig & Hsig) & _), Hm' as ((sig' & Hsig') & _).
  destruct (eo_ledger _ Hok' _ _ Hsig) as [He _], (eo_ledger _ Hok' _ _ Hsig') as [He' _].
  change (m_signature m = sig) in He. change (m_signature m' = sig') in He'.
  apply hash_separates in Hh; [|apply Hs; rewrite He; eauto|apply Hs; rewrite He'; eauto]. congruence.
Qed.

Lemma writes_agree judge complete en ob sg en' preview fx ok k v v' :
  pass_judged judge complete -> answers_menu from_str judge -> engine_ok en -> within en ->
  process default_hash delta_prompt entry_coverage complete en ob sg = Some (en', preview, fx) ->
  (forall sig, is_Some (en_ledger en' !! sig) -> sig ∈ sigs) ->
  (k, v) ∈ omap (write_of kind ok) fx -> (k, v') ∈ omap (write_of kind ok) fx -> v = v'.
Proof.
  intros Hc Hj Hok Hw Hp Hs. destruct (pass_writes _ _ _ _ _ _ _ _ ok ∅ Hc Hj Hok Hp) as [_ Hws]. rewrite !Hws.
  destruct (process_ok _ _ _ _ _ _ _ _ _ _ _ _ Hc Hj Hok Hp) as [Hok' [Happ Hrev _ _]].
  assert (forall m m' j, FxApply m ∈ fx -> object_of kind m = Some (k, j) -> FxRevert m' ∈ fx -> reverted_key kind m' = Some k -> False) as Hd.
  { intros m m' j Hm Ho Hm' Hk'. apply Hrev in Hm' as (_ & a & Ha & <- & _).
    eapply (keys_apart judge complete en ob sg en' preview fx m a k); eauto using object_reverted. }
  intros [(m & j & Hm & Ho & _ & _ & ->)|(m & Hm & Ho & _ & ->)] [(m' & j' & Hm' & Ho' & _ & _ & ->)|(m' & Hm' & Ho' & _ & ->)];
    [|by destruct (Hd _ _ _ Hm Ho Hm' Ho')|by destruct (Hd _ _ _ Hm' Ho' Hm Ho)|done].
  enough (m = m') as -> by congruence.
  eapply (applied_same judge complete en ob sg en' preview fx m m' k); eauto using object_reverted.
Qed.

Hypothesis objects_read : forall m k j, object_of kind m = Some (k, j) -> from_value j = true.

Lemma same_entry (log : ActionLog) a a' k : ActuatorFacts.log_ok log -> (forall a, a ∈ log -> m_signature (aa_mitigation a) ∈ sigs) -> a ∈ log -> a' ∈ log ->
  reverted_key kind (aa_mitigation a) = Some k -> reverted_key kind (aa_mitigation a') = Some k -> a = a'.
Proof.
  intros Hok Hw Ha Ha' Hk Hk'. eapply (NoDup_fmap_eq (m_signature ∘ aa_mitigation)); [exact Hok|done..|].
  apply hash_separates; [by apply Hw..|]. by eapply reverted_hash.
Qed.

Lemma mirror_step judge complete en ob sg en' preview fx ok c :
  pass_judged judge complete -> answers_menu from_str judge -> engine_ok en -> within en ->
  process default_hash delta_prompt entry_coverage complete en ob sg = Some (en', preview, fx) ->
  (forall sig, is_Some (en_ledger en' !! sig) -> sig ∈ sigs) -> (forall m, ok m = true) ->
  mirrors kind (en_actions en) c -> mirrors kind (en_actions en') (perform_all kind ok fx c).
Proof.
  intros Hc Hj Hok Hw Hp Hs Hall Hm k j. destruct (pass_writes _ _ _ _ _ _ _ _ ok c Hc Hj Hok Hp) as [-> Hws].
  destruct (process_ok _ _ _ _ _ _ _ _ _ _ _ _ Hc Hj Hok Hp) as [Hok' [Happ Hrev Hlog _]].
  destruct (writes_lookup (omap (write_of kind ok) fx) c k) as [Hin Hout]; [intros v v'; by apply (writes_agree judge complete en ob sg en' preview fx ok k v v')|].
  destruct (decide (k ∈ (omap (write_of kind ok) fx).*1)) as [Hk|Hk].
  - apply list_elem_of_fmap in Hk as ([k' v] & -> & Hk). cbn [fst] in *. rewrite (Hin v Hk). apply Hws in Hk as [(m & j' & Hf & Ho & _ & _ & ->)|(m & Hf & Ho & _ & ->)].
    + assert (mkActive m (alive_workloads (ob_health ob)) ∈ en_actions en') as Hnew by (apply Hlog; right; exists m; split; [by apply Happ|done]).
      split; [intros [= <-]; eauto|]. intros (a & Ha & Hoa).
      enough (a = mkActive m (alive_workloads (ob_health ob))) as -> by (cbn in Hoa; congruence).
      eapply (same_entry (en_actions en')); [exact (eo_log _ Hok')|intros b Hb; apply Hs; by apply (eo_justified _ Hok')|done..| |]; by eapply object_reverted.
    + split; [done|]. intros (a & Ha & Hoa). exfalso. apply object_reverted in Hoa. apply Hrev in Hf as (_ & a' & Ha' & <- & Hns).
      apply Hlog in Ha as [[Ha Hst]|(m & Hnl & ->)].
      * enough (a = a') as -> by done. eapply (same_entry (en_actions en)); [exact (eo_log _ Hok)|exact Hw|done..].
      * eapply (keys_apart judge complete en ob sg en' preview fx m a' k'); [done..|by apply Happ|exact Hoa|done|done].
  - rewrite Hout by (intros v Hv; apply Hk; by apply (list_elem_of_fmap_2 fst) in Hv). rewrite (Hm k j). split.
    + intros (a & Ha & Ho). exists a. split; [|done]. apply Hlog. left. split; [done|].
      apply revert_reason_none. destruct (revert_reason _ _ _ a) as [why|] eqn:Hns; [|done]. exfalso. apply Hk. change k with (k, @None Json).1. apply (list_elem_of_fmap_2 fst), Hws. right. exists (aa_mitigation a).
      split; [|split; [by eapply object_reverted|done]]. apply Hrev. split; [|exists a; rewrite <- revert_reason_none, Hns; done]. destruct (eo_additive _ Hok a Ha) as [Had _]. by destruct (m_action _).
    + intros (a & Ha & Ho). apply Hlog in Ha as [[Ha _]|(m & Hnl & ->)]; [eauto|]. exfalso. apply Hk. change k with (k, Some j).1.
      apply (list_elem_of_fmap_2 fst), Hws. left. exists m, j. split; [by apply Happ|]. split; [exact Ho|]. eauto using objects_read.
Qed.

(** ** Every run *)

Lemma run_mirrors s s' : rtc (cluster_step true) s s' ->
  engine_ok s.1 /\ within s.1 /\ mirrors kind (en_actions s.1) s.2 -> engine_ok s'.1 /\ within s'.1 /\ mirrors kind (en_actions s'.1) s'.2.
Proof.
  induction 1 as [|x y z [judge complete en ob sg en' preview fx ok c Hs Hc Hj Hp Hall] _ IH]; [done|]. cbn [fst snd] in *.
  intros (Hok & Hw & Hm). apply IH. destruct (process_ok _ _ _ _ _ _ _ _ _ _ _ _ Hc Hj Hok Hp) as [Hok' _].
  split; [done|]. split; [intros a Ha; apply Hs; by apply (eo_justified _ Hok')|].
  by eapply (mirror_step judge complete en ob sg en' preview fx ok c); eauto.
Qed.

(** C25: The cluster holds exactly the objects of the cuts that stand. After any number
    of passes whose calls the API takes, from a boot over an empty cluster, an
    object is there just when the log holds its cut; and a pass that sees the
    break-glass switch leaves none. *)
Theorem cluster_mirrors_log active scope slots jparse restored_at journal node_actuator en c :
  rtc (cluster_step true) (booted active scope node_actuator (replay_journal jparse restored_at journal (boot_views slots)), ∅) (en, c) ->
  mirrors kind (en_actions en) c /\
  forall en' c' judge complete ob sg preview fx ok, (forall sig, is_Some (en_ledger en' !! sig) -> sig ∈ sigs) -> (forall m, ok m = true) ->
    pass_judged judge complete -> answers_menu from_str judge ->
    process default_hash delta_prompt entry_coverage complete en ob sg = Some (en', preview, fx) ->
    ob_break_glass ob = true -> c' = perform_all kind ok fx c -> c' = ∅.
Proof.
  intros H%run_mirrors; cbn [fst snd] in *.
  - destruct H as (Hok & Hw & Hm). split; [done|]. intros en' c' judge complete ob sg preview fx ok Hs Hall Hc Hj Hp Hb ->.
    assert (mirrors kind (en_actions en') (perform_all kind ok fx c)) as Hm' by (by apply (mirror_step judge complete en ob sg en' preview fx ok c)).
    destruct (process_ok _ _ _ _ _ _ _ _ _ _ _ _ Hc Hj Hok Hp) as [_ [_ _ Hlog _]]. unfold poll_break_glass in Hlog. rewrite Hb in Hlog.
    apply map_eq. intros k. rewrite lookup_empty. destruct (perform_all kind ok fx c !! k) as [j|] eqn:E; [|done].
    apply Hm' in E as (a & Ha & _). apply Hlog in Ha as [[_ (_ & Ha & _)]|(m & (_ & [[_ _ _ _ Ha _] _] & _) & ->)]; by apply not_elem_of_empty in Ha.
  - split; [apply boot_ok|]. split; [intros a Ha; by apply elem_of_nil in Ha|]. intros k j. rewrite lookup_empty. split; [done|].
    intros (a & Ha & _). by apply elem_of_nil in Ha.
Qed.

(** What a refusal costs: a delete that was refused leaves the object and no entry of
    it; an apply that was refused leaves an entry and no object, and while the
    entry stands no pass asks again. *)
Theorem refused_calls_forgotten judge complete en ob sg en' preview fx ok c :
  pass_judged judge complete -> answers_menu from_str judge -> engine_ok en -> within en ->
  process default_hash delta_prompt entry_coverage complete en ob sg = Some (en', preview, fx) ->
  (forall sig, is_Some (en_ledger en' !! sig) -> sig ∈ sigs) -> mirrors kind (en_actions en) c ->
  (forall m k j, FxRevert m ∈ fx -> object_of kind m = Some (k, j) -> ok m = false ->
     perform_all kind ok fx c !! k = Some j /\ forall a, a ∈ en_actions en' -> reverted_key kind (aa_mitigation a) <> Some k) /\
  (forall m k j, FxApply m ∈ fx -> object_of kind m = Some (k, j) -> ok m = false ->
     perform_all kind ok fx c !! k = None /\ (exists a, a ∈ en_actions en' /\ aa_mitigation a = m) /\
     forall judge' complete' ob' sg' en2 preview' fx', pass_judged judge' complete' -> answers_menu from_str judge' ->
       process default_hash delta_prompt entry_coverage complete' en' ob' sg' = Some (en2, preview', fx') -> FxApply m ∉ fx').
Proof.
  intros Hc Hj Hok Hw Hp Hs Hm. destruct (pass_writes _ _ _ _ _ _ _ _ ok c Hc Hj Hok Hp) as [-> Hws].
  destruct (process_ok _ _ _ _ _ _ _ _ _ _ _ _ Hc Hj Hok Hp) as [Hok' [Happ Hrev Hlog _]].
  assert (forall k, (forall v, (k, v) ∉ omap (write_of kind ok) fx) -> foldl write_one c (omap (write_of kind ok) fx) !! k = c !! k) as Hun.
  { intros k Hk. apply (writes_lookup (omap (write_of kind ok) fx) c k); [|done]. intros v v' Hv. by destruct (Hk v). }
  split; intros m k j Hf Ho Hno; pose proof (object_reverted _ _ _ _ Ho) as Hk.
  - pose proof Hf as (Hna & a & Ha & <- & Hns)%Hrev. split.
    + rewrite Hun; [apply Hm; eauto|]. intros v [(m' & j' & Hf' & Ho' & _)|(m' & Hf' & Ho' & Hyes & _)]%Hws.
      * eapply (keys_apart judge complete en ob sg en' preview fx m' a k); eauto using object_reverted.
      * apply Hrev in Hf' as (_ & a' & Ha' & <- & _). enough (a = a') as -> by congruence.
        eapply (same_entry (en_actions en)); [exact (eo_log _ Hok)|exact Hw|done..].
    + intros a' Ha' Hk'. apply Hlog in Ha' as [[Ha' Hst]|(m' & Hnl & ->)].
      * enough (a' = a) as -> by done. eapply (same_entry (en_actions en)); [exact (eo_log _ Hok)|exact Hw|done..].
      * eapply (keys_apart judge complete en ob sg en' preview fx m' a k); [done..|by apply Happ|exact Hk'|done|done].
  - assert (mkActive m (alive_workloads (ob_health ob)) ∈ en_actions en') as Hin by (apply Hlog; right; exists m; split; [by apply Happ|done]).
    split; [|split; [by eexists|]].
    + rewrite Hun.
      * destruct (c !! k) as [j'|] eqn:E; [|done]. apply Hm in E as (a & Ha & Hoa). exfalso.
        eapply (keys_apart judge complete en ob sg en' preview fx m a k); eauto using object_reverted.
      * intros v [(m' & j' & Hf' & Ho' & _ & Hyes & _)|(m' & Hf' & Ho' & _)]%Hws.
        -- enough (m = m') as -> by congruence. eapply (applied_same judge complete en ob sg en' preview fx m m' k); eauto using object_reverted.
        -- apply Hrev in Hf' as (_ & a' & Ha' & <- & _). eapply (keys_apart judge complete en ob sg en' preview fx m a' k); eauto.
    + intros judge' complete' ob' sg' en2 preview' fx' Hc' Hj' Hp' Hm2.
      destruct (process_ok _ _ _ _ _ _ _ _ _ _ _ _ Hc' Hj' Hok' Hp') as [_ [Happ' _ _ _]]. apply Happ' in Hm2 as (_ & _ & Hn).
      apply Hn. exact (list_elem_of_fmap_2 (m_signature ∘ aa_mitigation) _ _ Hin).
Qed.

(** ** What a restart leaves *)

(** An engine that starts with nothing armed lifts nothing: its log starts empty, so
    it neither applies nor deletes, whatever stands in the cluster; and the actuator
    it is given is the dry run. *)
Theorem disarmed_start_lifts_nothing env reliable scope slots jparse restored_at journal node_actuator c en c' :
  rtc (cluster_step reliable) (booted enabled_none scope node_actuator (replay_journal jparse restored_at journal (boot_views slots)), c) (en, c') ->
  c' = c /\ en_actions en = [] /\ build_actuator env enabled_none = DryRunActuator.
Proof.
  intros H. enough (engine_ok en /\ en_active en = enabled_none /\ en_actions en = [] /\ c' = c) as (_ & _ & ? & ?) by done.
  set (s := (_, c)) in H. set (s' := (en, c')) in H.
  assert (engine_ok s.1 /\ en_active s.1 = enabled_none /\ en_actions s.1 = [] /\ s.2 = c) as H0 by (split; [apply boot_ok|done]).
  change (engine_ok s'.1 /\ en_active s'.1 = enabled_none /\ en_actions s'.1 = [] /\ s'.2 = c). clearbody s s'. revert H0.
  induction H as [|x y z [judge complete en1 ob sg en2 preview fx ok c1 _ Hc Hj Hp _] _ IH]; [done|]. intros (Hok & Ha & Hn & Hx). apply IH. cbn [fst snd] in *. subst c1.
  destruct (process_ok _ _ _ _ _ _ _ _ _ _ _ _ Hc Hj Hok Hp) as [Hok' [Happ Hrev Hlog _]].
  destruct (process_spec _ _ _ _ _ _ _ _ _ _ Hp) as (_ & _ & _ & _ & _ & _ & _ & Ha' & _).
  assert (forall m, FxApply m ∉ fx) as Hno.
  { intros m (_ & [[_ _ _ _ He _] _] & _)%Happ. unfold poll_break_glass in He. rewrite Ha in He. destruct (ob_break_glass ob); by apply not_elem_of_empty in He. }
  split; [done|]. split; [by rewrite Ha'|]. split.
  - destruct (en_actions en2) as [|a l]; [done|]. exfalso. destruct (proj1 (Hlog a) ltac:(by left)) as [[Hin _]|(m & Hm & _)]; [rewrite Hn in Hin; by apply elem_of_nil in Hin|].
    apply (Hno m). by apply Happ.
  - destruct (pass_writes _ _ _ _ _ _ _ _ ok c Hc Hj Hok Hp) as [-> Hws]. destruct (omap (write_of kind ok) fx) as [|[k v] ws] eqn:E; [done|]. exfalso.
    destruct (proj1 (Hws k v) ltac:(by left)) as [(m & j & Hm & _)|(m & Hm & _)]; [by apply (Hno m)|].
    apply Hrev in Hm as (_ & a & Hin & _). rewrite Hn in Hin. by apply elem_of_nil in Hin.
Qed.
End Passes.
End Calls.

(** The quarantine of a workload passes every gate of the rung that arms it, and the
    deny actuator has no object for it: it is logged as applied and nothing is. *)
Theorem deny_actuator_skips_quarantine default_hash from_value m ok c : m_action m = QuarantineWorkload ->
  Actuator.is_enabled (enabled_actions Quarantine) (m_action m) = true /\ is_additive_live (m_action m) = true /\
  actuator_apply default_hash from_value KubeActuator ok m c = (DryRun, c).
Proof. intros Hm. unfold actuator_apply, render_deny. by rewrite Hm. Qed.

(** ** Instances *)

Definition web_cut : string := "workload/app/Pod/web -[reaches/Tcp]-> workload/app/Pod/db".

(** The isolation that stands after the first pass, and what the switch leaves. *)
Lemma cluster_mirrors_log_witness :
  exists en preview fx, web_pass web_engine false = Some (en, preview, fx) /\
    mirrors length_hash IsolationActuator (en_actions en) (perform_all length_hash (fun _ => true) IsolationActuator (fun _ => true) fx ∅) /\
    perform_all length_hash (fun _ => true) IsolationActuator (fun _ => true) fx ∅ <> ∅.
Proof.
  destruct (web_pass web_engine false) as [[[en preview] fx]|] eqn:E; [|vm_compute in E; discriminate E].
  exists en, preview, fx. split; [reflexivity|].
  assert (forall sig, is_Some (en_ledger en !! sig) -> sig ∈ ({[web_cut]} : gset string)) as Hs.
  { intros sig [m Hm%elem_of_map_to_list]. apply elem_of_singleton.
    assert (((map_to_list (en_ledger en)).*1) = [web_cut]) as Hl'.
    { clear -E. assert (match web_pass web_engine false with Some (e, _, _) => (map_to_list (en_ledger e)).*1 | None => [] end = [web_cut]) as H by (vm_compute; reflexivity).
      rewrite E in H. exact H. }
    apply (list_elem_of_fmap_2 fst) in Hm. rewrite Hl' in Hm. apply list_elem_of_singleton in Hm. exact Hm. }
  split.
  - refine (proj1 (cluster_mirrors_log length_hash (fun _ => true) attack_reader toy_delta toy_coverage (G := list_graph Node Edge) IsolationActuator {[web_cut]}
      (fun s => Z.mod_pos_bound _ (2 ^ 64) eq_refl)
      (fun s s' Hs Hs' _ => eq_trans (proj1 (elem_of_singleton s web_cut) Hs) (eq_sym (proj1 (elem_of_singleton s' web_cut) Hs'))) (fun _ _ _ _ => eq_refl)
      (mkEnabled {[DenyNetworkPath]} true) (mkScope ∅ []) 32 BitCodec.from_str 0 (journal_open empty_volume true) false en _ _)).
    apply rtc_once. eapply cluster_pass; [exact Hs|exact web_answers_judged|exact web_answers_menu|exact E|reflexivity].
  - intros Hn. assert (match web_pass web_engine false with
      Some (_, _, f) => map_to_list (perform_all length_hash (fun _ => true) IsolationActuator (fun _ => true) f ∅) | None => [] end <> []) as H
      by (vm_compute; discriminate).
    rewrite E, Hn in H. apply H. reflexivity.
Defined.
