(* ===== verification/RunLoop.v ===== *)
(** * The loop that drives the engine

    engine/src/engine/run_loop.rs: the wakes of the loop ([wait_for_wake], the
    channels and the reading of the snapshot in [run_watch]) with what wakes it:
    the reflectors, the two ingests and the poller of break_glass.rs; and what is
    served behind which gate ([build_dashboard_auth], [build_mcp_verifier]). The
    contents of a store are a count of its changes; what a pass does with what it
    read is Engine.v. Then that no change is left unread, that the loop comes to
    rest, and when it does not. *)

From stdpp Require Import functions.
From S2P Require Import Prelude Text Auth.

(** ** Channels and stores *)

(** The four receivers of the loop, in the order it drains them. *)
Inductive Chan := CChange | CRuntime | CAudit | CBreakGlass.

(** What a pass reads: the store of each watched kind, and the two evidence stores. *)
Inductive Source :=
  | SPods | SNetworkPolicies | SServices | SSecrets | SRoles | SRoleBindings | SClusterRoles | SClusterRoleBindings
  | SIngresses | SIngressClasses | SRuntimeEvents | SAuditEvents | SNodes.

#[export] Instance Chan_eq_dec : EqDecision Chan.
Proof. solve_decision. Defined.
#[export] Instance Source_eq_dec : EqDecision Source.
Proof. solve_decision. Defined.

Definition DRAIN_ORDER : list Chan := [CChange; CRuntime; CAudit; CBreakGlass].

Definition READ_ORDER : list Source :=
  [SPods; SNetworkPolicies; SServices; SSecrets; SRoles; SRoleBindings; SClusterRoles; SClusterRoleBindings;
   SIngresses; SIngressClasses; SRuntimeEvents; SAuditEvents; SNodes].

Definition capacity (c : Chan) : nat := match c with CBreakGlass => 1 | _ => 64 end.

Definition channel_of (s : Source) : Chan :=
  match s with SRuntimeEvents => CRuntime | SAuditEvents => CAudit | _ => CChange end.

(** A bounded channel of pings; it is closed when every sender is gone. *)
Record Channel := mkChannel { ch_queued : nat; ch_open : bool }.

(** [try_send]: a full channel drops the ping. *)
Definition try_send (c : Chan) (ch : Channel) : Channel :=
  if ch_open ch then mkChannel (Nat.min (capacity c) (S (ch_queued ch))) true else ch.

(** [recv] answers a ping, or that the channel is closed and empty. *)
Definition recv_ready (ch : Channel) : bool := (0 <? ch_queued ch) || negb (ch_open ch).

(** ** The state

    [lp_unsent] counts the pings a producer still owes for what it did;
    [lp_silent] says that a list was swapped into a store and that nothing was
    pinged for that store, and nothing read of it, since. *)

Inductive Phase := Waiting | Draining (rest : list Chan) | Reading (rest : list Source) | Stopped.

Record Loop := mkLoop {
  lp_channels : Chan -> Channel;
  lp_phase : Phase;
  lp_data : Source -> nat;
  lp_unsent : Source -> nat;
  lp_seen : Source -> nat;
  lp_flag : bool;
  lp_polled : bool;
  lp_seen_flag : option bool;
  lp_passes : nat;
  lp_silent : Source -> bool
}.

Definition loop_start (flag : bool) : Loop :=
  mkLoop (fun _ => mkChannel 0 true) Waiting (fun _ => 0) (fun _ => 0) (fun _ => 0) flag flag None 0 (fun _ => false).

Definition set_channel (c : Chan) (ch : Channel) (st : Loop) : Loop :=
  mkLoop (<[c := ch]> (lp_channels st)) (lp_phase st) (lp_data st) (lp_unsent st) (lp_seen st) (lp_flag st) (lp_polled st) (lp_seen_flag st) (lp_passes st) (lp_silent st).
Definition set_phase (p : Phase) (st : Loop) : Loop :=
  mkLoop (lp_channels st) p (lp_data st) (lp_unsent st) (lp_seen st) (lp_flag st) (lp_polled st) (lp_seen_flag st) (lp_passes st) (lp_silent st).

Definition take_ping (c : Chan) (st : Loop) : Loop :=
  set_channel c (mkChannel (pred (ch_queued (lp_channels st c))) (ch_open (lp_channels st c))) st.

(** ** What happens around the loop *)

Inductive Event :=
  | Update (s : Source)
  | Touch (s : Source)
  | Swap (s : Source)
  | Ping (s : Source)
  | SetFlag (b : bool)
  | Poll
  | ServerGone (c : Chan).

(** An ingest changes its store first and pings after, and so does a reflector
    with an object that was applied or deleted. While a reflector lists, at the
    start and whenever its watch was lost, the objects it pings for are only
    collected, and an error pings too ([Touch]); the list takes the place of the
    store when it is complete, and the stream of touched objects says nothing of
    that ([Swap]). The poller pings when its sample of the flag differs from the
    one before; an ingest whose task ends drops the last sender of its channel. The
    loop keeps a sender of the change channel, and the poller never ends. *)
Definition happens (e : Event) (st : Loop) : option Loop :=
  match e with
  | Update s =>
      if ch_open (lp_channels st (channel_of s))
      then Some (mkLoop (lp_channels st) (lp_phase st) (<[s := S (lp_data st s)]> (lp_data st)) (<[s := S (lp_unsent st s)]> (lp_unsent st))
                   (lp_seen st) (lp_flag st) (lp_polled st) (lp_seen_flag st) (lp_passes st) (<[s := false]> (lp_silent st)))
      else None
  | Touch s =>
      if bool_decide (channel_of s = CChange)
      then Some (mkLoop (lp_channels st) (lp_phase st) (lp_data st) (<[s := S (lp_unsent st s)]> (lp_unsent st))
                   (lp_seen st) (lp_flag st) (lp_polled st) (lp_seen_flag st) (lp_passes st) (<[s := false]> (lp_silent st)))
      else None
  | Swap s =>
      if bool_decide (channel_of s = CChange)
      then Some (mkLoop (lp_channels st) (lp_phase st) (<[s := S (lp_data st s)]> (lp_data st)) (lp_unsent st)
                   (lp_seen st) (lp_flag st) (lp_polled st) (lp_seen_flag st) (lp_passes st) (<[s := true]> (lp_silent st)))
      else None
  | Ping s =>
      match lp_unsent st s with
      | O => None
      | S n =>
          let c := channel_of s in
          Some (mkLoop (<[c := try_send c (lp_channels st c)]> (lp_channels st)) (lp_phase st) (lp_data st) (<[s := n]> (lp_unsent st))
                  (lp_seen st) (lp_flag st) (lp_polled st) (lp_seen_flag st) (lp_passes st) (<[s := false]> (lp_silent st)))
      end
  | SetFlag b =>
      Some (mkLoop (lp_channels st) (lp_phase st) (lp_data st) (lp_unsent st) (lp_seen st) b (lp_polled st) (lp_seen_flag st) (lp_passes st) (lp_silent st))
  | Poll =>
      if bool_decide (lp_flag st = lp_polled st) then Some st
      else
        Some (mkLoop (<[CBreakGlass := try_send CBreakGlass (lp_channels st CBreakGlass)]> (lp_channels st)) (lp_phase st) (lp_data st) (lp_unsent st)
                (lp_seen st) (lp_flag st) (lp_flag st) (lp_seen_flag st) (lp_passes st) (lp_silent st))
  | ServerGone c =>
      if bool_decide (c ∈ [CRuntime; CAudit]) && forallb (fun s => negb (bool_decide (channel_of s = c)) || (lp_unsent st s =? 0)) READ_ORDER
      then Some (set_channel c (mkChannel (ch_queued (lp_channels st c)) false) st)
      else None
  end.

(** ** The loop *)

(** One step of the loop, or nothing while it blocks; [pick] chooses among the
    receivers that are ready. *)
Definition turn (pick : nat) (st : Loop) : option Loop :=
  match lp_phase st with
  | Waiting =>
      let ready := List.filter (fun c => recv_ready (lp_channels st c)) DRAIN_ORDER in
      c ← ready !! (pick mod length ready)%nat;
      if (0 <? ch_queued (lp_channels st c)) then Some (set_phase (Draining DRAIN_ORDER) (take_ping c st))
      else if bool_decide (c = CChange) then Some (set_phase Stopped st)
      else Some (set_phase (Draining DRAIN_ORDER) st)
  | Draining (c :: rest) =>
      if (0 <? ch_queued (lp_channels st c)) then Some (take_ping c st) else Some (set_phase (Draining rest) st)
  | Draining [] => Some (set_phase (Reading READ_ORDER) st)
  | Reading (s :: rest) =>
      Some (mkLoop (lp_channels st) (Reading rest) (lp_data st) (lp_unsent st) (<[s := lp_data st s]> (lp_seen st)) (lp_flag st) (lp_polled st)
              (lp_seen_flag st) (lp_passes st) (<[s := false]> (lp_silent st)))
  | Reading [] =>
      Some (mkLoop (lp_channels st) Waiting (lp_data st) (lp_unsent st) (lp_seen st) (lp_flag st) (lp_polled st) (Some (lp_flag st)) (S (lp_passes st)) (lp_silent st))
  | Stopped => None
  end.

Inductive loop_step : Loop -> Loop -> Prop :=
  | step_around e st st' : happens e st = Some st' -> loop_step st st'
  | step_loop pick st st' : turn pick st = Some st' -> loop_step st st'.

(** The loop on its own, its choices given; a loop that blocks stays. *)
Fixpoint turns (picks : list nat) (st : Loop) : Loop :=
  match picks with
  | [] => st
  | p :: ps => match turn p st with Some st' => turns ps st' | None => st end
  end.

(** ** What is served, behind which gate *)

Inductive AuthMode := Oidc | EdgeOnly.

(** Nothing is served on a configuration that is wrong. *)
Definition build_dashboard_auth (env : string -> option string) : option (option Enforcer * AuthMode) :=
  match from_env env with
  | inl (Some config) => match enforcer_new env config with inl enforcer => Some (Some enforcer, Oidc) | inr _ => None end
  | inl None => Some (None, EdgeOnly)
  | inr _ => None
  end.

Definition build_mcp_verifier (env : string -> option string) : option OidcConfig :=
  match from_env env with inl (Some config) => Some config | _ => None end.

(** ** No change is left unread *)

Lemma fn_at {A B} `{EqDecision A} (f : A -> B) a b x : (<[a := b]> f) x = if decide (a = x) then b else f x.
Proof. done. Qed.

(** A change is read, or something will bring the loop to read it. *)
Definition covered (st : Loop) (s : Source) : Prop :=
  lp_seen st s = lp_data st s \/ 0 < lp_unsent st s \/ 0 < ch_queued (lp_channels st (channel_of s)) \/
  (exists rest, lp_phase st = Draining rest) \/ (exists rest, lp_phase st = Reading rest /\ s ∈ rest).

Record loop_ok (st : Loop) : Prop := {
  lo_open : ch_open (lp_channels st CChange) = true /\ ch_open (lp_channels st CBreakGlass) = true;
  lo_unsent : forall s, 0 < lp_unsent st s -> ch_open (lp_channels st (channel_of s)) = true;
  lo_bounded : forall c, ch_queued (lp_channels st c) <= capacity c;
  lo_runs : lp_phase st <> Stopped;
  lo_covered : forall s, covered st s \/ lp_silent st s = true
}.

Lemma all_sources s : s ∈ READ_ORDER.
Proof. unfold READ_ORDER. rewrite !elem_of_cons. destruct s; auto 15. Qed.

Lemma try_send_queued c ch : ch_open ch = true -> 0 < ch_queued (try_send c ch) /\ ch_queued (try_send c ch) <= capacity c /\ ch_open (try_send c ch) = true.
Proof. intros E. unfold try_send. rewrite E. cbn [ch_queued ch_open]. unfold capacity. split; [destruct c; lia|]. split; [lia|done]. Qed.

Lemma happens_ok e st st' : loop_ok st -> happens e st = Some st' -> loop_ok st'.
Proof.
  intros [[Ho1 Ho2] Hu Hb Hr Hc] H. destruct e as [s|s|s|s|b| |c]; cbn [happens] in H.
  - destruct (ch_open (lp_channels st (channel_of s))) eqn:E; [|done]. injection H as <-. split; cbn; [done|..|done|done|].
    + intros s'. rewrite fn_at. case_decide; [by subst|apply Hu].
    + intros s'. unfold covered. cbn. rewrite !fn_at. case_decide; [left; right; left; lia|]. specialize (Hc s'). unfold covered in Hc. tauto.
  - case_bool_decide as Ec; [|done]. injection H as <-. split; cbn; [done|..|done|done|].
    + intros s'. rewrite fn_at. case_decide; [subst; by rewrite Ec|apply Hu].
    + intros s'. unfold covered. cbn. rewrite !fn_at. case_decide; [left; right; left; lia|]. specialize (Hc s'). unfold covered in Hc. tauto.
  - case_bool_decide as Ec; [|done]. injection H as <-. split; cbn; [done|done|done|done|].
    intros s'. unfold covered. cbn. rewrite !fn_at. case_decide; [by right|]. specialize (Hc s'). unfold covered in Hc. tauto.
  - destruct (lp_unsent st s) as [|n] eqn:En; [done|]. injection H as <-. assert (ch_open (lp_channels st (channel_of s)) = true) as Eo by (apply Hu; rewrite En; lia).
    destruct (try_send_queued (channel_of s) _ Eo) as (Hq & Hcap & Hop). split; cbn.
    + rewrite !fn_at. split; case_decide as Ec; rewrite ?Ec in *; done.
    + intros s' Hs'. rewrite fn_at in Hs'. rewrite fn_at. destruct (decide (channel_of s = channel_of s')) as [Ec|Ec]; [done|].
      destruct (decide (s = s')) as [->|]; [done|by apply Hu].
    + intros c. rewrite fn_at. case_decide as Ec; [by subst|apply Hb].
    + done.
    + intros s'. unfold covered. cbn. rewrite !fn_at. destruct (decide (channel_of s = channel_of s')) as [Ec|Ec]; [tauto|].
      destruct (decide (s = s')) as [->|]; [done|]. specialize (Hc s'). unfold covered in Hc. tauto.
  - injection H as <-. by split.
  - case_bool_decide; injection H as <-; [by split|]. destruct (try_send_queued CBreakGlass _ Ho2) as (Hq & Hcap & Hop). split; cbn.
    + by rewrite !fn_at.
    + intros s' Hs'. rewrite fn_at. case_decide; [done|by apply Hu].
    + intros c. rewrite fn_at. case_decide as Ec; [by subst|apply Hb].
    + done.
    + intros s'. specialize (Hc s'). unfold covered in *. cbn. rewrite fn_at. case_decide as Ec; [by destruct s'|tauto].
  - case_bool_decide as Hin; [|done]. cbn [andb] in H. destruct (forallb _ READ_ORDER) eqn:Ef; [|done]. injection H as <-. split; cbn.
    + rewrite !fn_at. split; case_decide as Ec; subst; try done; rewrite !elem_of_cons, elem_of_nil in Hin; naive_solver.
    + intros s' Hs'. rewrite fn_at. case_decide as Ec; [|by apply Hu]. exfalso. rewrite forallb_elem in Ef. specialize (Ef s' (all_sources s')).
      rewrite bool_decide_eq_true_2 in Ef by done. apply Nat.eqb_eq in Ef. lia.
    + intros c'. rewrite fn_at. case_decide as Ec; [subst; apply Hb|apply Hb].
    + done.
    + intros s'. specialize (Hc s'). unfold covered in *. cbn. rewrite fn_at. case_decide as Ec; [subst; tauto|tauto].
Qed.

Lemma ready_queued st c pick : (List.filter (fun c => recv_ready (lp_channels st c)) DRAIN_ORDER) !! pick = Some c -> recv_ready (lp_channels st c) = true.
Proof. intros H%list_elem_of_lookup_2. by apply elem_of_filter_b in H as []. Qed.

Lemma take_ping_ok st c p : loop_ok st -> (exists rest, p = Draining rest) -> loop_ok (set_phase p (take_ping c st)).
Proof.
  intros [[Ho1 Ho2] Hu Hb Hr Hc] [rest ->]. split; cbn.
  - rewrite !fn_at. by repeat case_decide; subst.
  - intros s Hs. rewrite fn_at. case_decide as Ec; [subst; by apply Hu|by apply Hu].
  - intros c'. rewrite fn_at. case_decide as Ec; [subst c'; cbn; specialize (Hb c); lia|apply Hb].
  - done.
  - intros s. left; right; right; right; left. by eexists.
Qed.

Lemma wake_turn_ok pick st st' : loop_ok st -> turn pick st = Some st' -> loop_ok st'.
Proof.
  intros Hok H. pose proof Hok as [Ho Hu Hb Hr Hc]. unfold turn in H. destruct (lp_phase st) as [|[|c rest]|[|s rest]|] eqn:Ep; [| | | | |done].
  - apply bind_Some in H as (c & Hl & H). apply ready_queued in Hl. destruct (0 <? ch_queued (lp_channels st c)) eqn:Eq.
    + injection H as <-. apply take_ping_ok; [done|by eexists].
    + unfold recv_ready in Hl. rewrite Eq in Hl. cbn in Hl. case_bool_decide as Ec; [subst c; by destruct Ho as [E _]; rewrite E in Hl|].
      injection H as <-. split; try done. intros s. left; right; right; right; left. by eexists.
  - injection H as <-. split; try done. intros s. left; right; right; right; right. exists READ_ORDER. split; [done|apply all_sources].
  - destruct (0 <? ch_queued (lp_channels st c)); injection H as <-.
    + assert (take_ping c st = set_phase (Draining (c :: rest)) (take_ping c st)) as -> by (unfold take_ping, set_channel, set_phase; cbn; by rewrite Ep).
      apply take_ping_ok; [done|by eexists].
    + split; try done. intros s. left; right; right; right; left. by eexists.
  - injection H as <-. split; try done. intros s. specialize (Hc s). unfold covered in *. cbn. rewrite Ep in Hc.
    destruct Hc as [[?|[?|[?|[[? ?]|(? & [= <-] & ?%elem_of_nil)]]]]|?]; try done; tauto.
  - injection H as <-. split; try done. intros s'. specialize (Hc s'). unfold covered in *. cbn. rewrite Ep in Hc. rewrite !fn_at. case_decide as Es; [subst; by left; left|].
    destruct Hc as [[?|[?|[?|[[? ?]|(? & [= <-] & [Hs|Hs]%elem_of_cons)]]]]|?]; [tauto..|done| | |by right]; [congruence|]. left; right; right; right; right. eauto.
Qed.

Lemma reachable_ok flag st : rtc loop_step (loop_start flag) st -> loop_ok st.
Proof.
  assert (loop_ok (loop_start flag)) as H0 by (split; cbn; [done|intros s Hs; lia|intros c; lia|done|intros s; by left; left]).
  intros H. revert H0. induction H as [|x y z [e a b H|pick a b H] _ IH]; [done| |]; intros H0; apply IH; [by eapply happens_ok|by eapply wake_turn_ok].
Qed.

(** ** The loop comes to rest *)

(** Pings weigh more than a whole pass. *)
Definition pings (st : Loop) : nat := sum_list ((fun c => ch_queued (lp_channels st c)) <$> DRAIN_ORDER).

Definition PASS_TURNS : nat := length DRAIN_ORDER + length READ_ORDER + 3.

Definition phase_turns (p : Phase) : nat :=
  match p with
  | Waiting | Stopped => 0
  | Draining rest => length rest + length READ_ORDER + 2
  | Reading rest => S (length rest)
  end.

Definition turns_left (st : Loop) : nat := pings st * PASS_TURNS + phase_turns (lp_phase st).

Definition phase_ok (p : Phase) : Prop := match p with Draining rest => length rest <= length DRAIN_ORDER | Reading rest => length rest <= length READ_ORDER | _ => True end.

Lemma pings_take c st : 0 < ch_queued (lp_channels st c) -> S (pings (take_ping c st)) = pings st.
Proof.
  intros H. unfold pings, take_ping, set_channel. cbn. rewrite !fn_at.
  destruct c; repeat (case_decide; try congruence); cbn; lia.
Qed.

(** Each turn of a loop whose channels are open brings it nearer to its rest. *)
Lemma turn_nearer pick st st' : (forall c, ch_open (lp_channels st c) = true) -> turn pick st = Some st' ->
  turns_left st' < turns_left st /\ (forall c, ch_open (lp_channels st' c) = true) /\
  lp_data st' = lp_data st /\ lp_unsent st' = lp_unsent st.
Proof.
  intros Ho H. assert (forall c p, (forall c', ch_open (lp_channels (set_phase p (take_ping c st)) c') = true)) as Hto.
  { intros c p c'. cbn. rewrite fn_at. case_decide; [subst; apply Ho|apply Ho]. }
  unfold turn in H. destruct (lp_phase st) as [|[|c rest]|[|s rest]|] eqn:Ep; [| | | | |done].
  - apply bind_Some in H as (c & Hl & H). apply ready_queued in Hl. unfold recv_ready in Hl. rewrite (Ho c), orb_false_r in Hl.
    rewrite Hl in H. injection H as <-. apply Nat.ltb_lt in Hl. split; [|split; [apply Hto|done]].
    unfold turns_left. rewrite Ep. cbn [lp_phase set_phase]. change (pings (set_phase (Draining DRAIN_ORDER) (take_ping c st))) with (pings (take_ping c st)).
    rewrite <- (pings_take c st Hl). unfold PASS_TURNS. cbn. lia.
  - injection H as <-. split; [|done]. unfold turns_left. rewrite Ep. cbn. unfold pings. cbn. lia.
  - destruct (Nat.ltb_spec 0 (ch_queued (lp_channels st c))) as [Hq|Hq]; injection H as <-.
    + split; [|split; [apply (Hto c (lp_phase st))|done]]. unfold turns_left. cbn [lp_phase take_ping set_channel]. rewrite <- (pings_take c st Hq).
      unfold PASS_TURNS. cbn [length DRAIN_ORDER READ_ORDER]. lia.
    + split; [|done]. unfold turns_left. rewrite Ep. unfold pings. cbn. lia.
  - injection H as <-. split; [|done]. unfold turns_left. rewrite Ep. unfold pings. cbn. lia.
  - injection H as <-. split; [|done]. unfold turns_left. rewrite Ep. unfold pings. cbn. lia.
Qed.

Definition blocks (st : Loop) : Prop := forall pick, turn pick st = None.

Lemma turn_blocks pick st : lp_phase st <> Stopped -> turn pick st = None ->
  lp_phase st = Waiting /\ (forall c, recv_ready (lp_channels st c) = false) /\ blocks st.
Proof.
  intros Hr H. assert (lp_phase st = Waiting /\ List.filter (fun c => recv_ready (lp_channels st c)) DRAIN_ORDER = []) as [Ep Hf].
  { unfold turn in H. destruct (lp_phase st) as [|[|c rest]|[|s rest]|] eqn:Ep; try done; [|by destruct (0 <? _)].
    split; [done|]. destruct (List.filter _ _) as [|c cs] eqn:Ef; [done|]. exfalso.
    destruct (lookup_lt_is_Some_2 (c :: cs) (pick mod length (c :: cs))) as [c' Hc']; [apply Nat.mod_upper_bound; cbn; lia|].
    rewrite Hc' in H. cbn [mbind option_bind] in H. destruct (0 <? _); [done|]. by case_bool_decide. }
  split; [done|]. split; [|intros p; unfold turn; by rewrite Ep, Hf]. intros c. apply not_true_iff_false. intros E.
  assert (c ∈ List.filter (fun c => recv_ready (lp_channels st c)) DRAIN_ORDER) as Hin.
  { apply elem_of_filter_b. split; [done|]. unfold DRAIN_ORDER. rewrite !elem_of_cons. destruct c; auto. }
  rewrite Hf in Hin. by apply elem_of_nil in Hin.
Qed.

Lemma turns_rest picks st : turns_left st <= length picks -> (forall c, ch_open (lp_channels st c) = true) -> loop_ok st ->
  lp_phase (turns picks st) = Waiting /\ (forall c, recv_ready (lp_channels (turns picks st) c) = false) /\ blocks (turns picks st) /\ loop_ok (turns picks st) /\
  lp_data (turns picks st) = lp_data st /\ lp_unsent (turns picks st) = lp_unsent st.
Proof.
  revert st. induction picks as [|p ps IH]; intros st Hl Ho Hok; cbn [turns].
  - destruct (turn 0 st) as [st'|] eqn:E; [pose proof (turn_nearer _ _ _ Ho E) as [? _]; cbn [length] in Hl; lia|].
    apply turn_blocks in E as (? & ? & ?); [done|apply Hok].
  - destruct (turn p st) as [st'|] eqn:E.
    + pose proof (turn_nearer _ _ _ Ho E) as (Hn & Ho' & <- & <-). apply IH; [cbn [length] in Hl; lia|done|by eapply wake_turn_ok].
    + apply turn_blocks in E as (? & ? & ?); [done|apply Hok].
Qed.

(** The loop swaps nothing. *)
Lemma turns_silent picks st s : lp_silent st s = false -> lp_silent (turns picks st) s = false.
Proof.
  revert st. induction picks as [|p ps IH]; intros st Hs; cbn [turns]; [done|]. destruct (turn p st) as [st'|] eqn:E; [|done]. apply IH.
  unfold turn in E. destruct (lp_phase st) as [|[|c rest]|[|s' rest]|]; try (by injection E as <-); [| |by injection E as <-; cbn; rewrite fn_at; case_decide|done].
  - apply bind_Some in E as (c & _ & E). destruct (0 <? _); [|case_bool_decide]; by injection E as <-.
  - destruct (0 <? _); by injection E as <-.
Qed.

(** C35: Which changes are read. In any state the loop, its producers, its poller and
    its clients can reach, every change of a store was read, or a ping to send, a
    ping that waits, a drain or a read to come covers it, unless a whole list was
    swapped into the store and nothing was pinged for it since. And once every ping
    was sent and while every channel is open, the loop on its own blocks after at
    most [turns_left] turns, however its receivers are chosen; then every store has
    been read as it is, but for those that were swapped in silence. *)
Theorem no_change_unread flag st : rtc loop_step (loop_start flag) st ->
  (forall s, covered st s \/ lp_silent st s = true) /\
  ((forall s, lp_unsent st s = 0) -> (forall c, ch_open (lp_channels st c) = true) ->
   forall picks, turns_left st <= length picks ->
     blocks (turns picks st) /\ lp_data (turns picks st) = lp_data st /\
     forall s, lp_silent st s = false -> lp_seen (turns picks st) s = lp_data st s).
Proof.
  intros Hok%reachable_ok. split; [apply lo_covered, Hok|]. intros Hu Ho picks Hl.
  destruct (turns_rest picks st Hl Ho Hok) as (Hp & Hz & Hb & Hok' & Hd & Hus). split; [done|]. split; [done|]. intros s Hs.
  destruct (lo_covered _ Hok' s) as [[H|[H|[H|[[rest H]|(rest & H & _)]]]]|H].
  - by rewrite H, Hd.
  - rewrite Hus, Hu in H. lia.
  - specialize (Hz (channel_of s)). unfold recv_ready in Hz. apply orb_false_iff in Hz as [Hz _]. apply Nat.ltb_ge in Hz. lia.
  - congruence.
  - congruence.
  - by rewrite turns_silent in H.
Qed.

(** ** When it does not *)

(** Turns that complete a pass. *)
Lemma pass_completes st : lp_phase st <> Stopped -> lp_phase st <> Waiting ->
  exists picks, lp_phase (turns picks st) = Waiting /\ lp_passes (turns picks st) = S (lp_passes st) /\
    forall c, ch_open (lp_channels (turns picks st) c) = ch_open (lp_channels st c).
Proof.
  remember (turns_left st) as n eqn:En. revert st En. induction (lt_wf n) as [n _ IH]. intros st -> Hs Hw.
  destruct (turn 0 st) as [st'|] eqn:E.
  2: { unfold turn in E. destruct (lp_phase st) as [|[|c rest]|[|s rest]|]; try done. by destruct (0 <? _). }
  destruct (lp_phase st) as [|[|c rest]|[|s rest]|] eqn:Ep; try done; pose proof E as E'; unfold turn in E'; rewrite Ep in E'.
  - injection E' as <-. destruct (IH (turns_left (set_phase (Reading READ_ORDER) st))) with (st := set_phase (Reading READ_ORDER) st) as (ps & H); try done.
    { unfold turns_left. rewrite Ep. unfold pings. cbn. lia. }
    exists (0 :: ps). cbn [turns]. by rewrite E.
  - destruct (Nat.ltb_spec 0 (ch_queued (lp_channels st c))) as [Hq|Hq]; injection E' as <-.
    + destruct (IH (turns_left (take_ping c st))) with (st := take_ping c st) as (ps & H1 & H2 & H3); [|done|cbn; congruence..|].
      { unfold turns_left. cbn [lp_phase take_ping set_channel]. rewrite <- (pings_take c st Hq). unfold PASS_TURNS. cbn. lia. }
      exists (0 :: ps). cbn [turns]. rewrite E. split; [done|]. split; [done|]. intros c'. rewrite H3. cbn. rewrite fn_at. case_decide; [by subst|done].
    + destruct (IH (turns_left (set_phase (Draining rest) st))) with (st := set_phase (Draining rest) st) as (ps & H); try done.
      { unfold turns_left. rewrite Ep. unfold pings. cbn. lia. }
      exists (0 :: ps). cbn [turns]. by rewrite E.
  - injection E' as <-. exists [0]. cbn [turns]. by rewrite E.
  - match type of E' with Some ?x = _ => destruct (IH (turns_left x)) with (st := x) as (ps & H); try done end.
    { unfold turns_left. rewrite Ep. unfold pings. cbn. lia. }
    injection E' as <-. exists (0 :: ps). cbn [turns]. by rewrite E.
Qed.

Lemma turns_app ps qs st : ~ blocks (turns ps st) -> turns (ps ++ qs) st = turns qs (turns ps st).
Proof.
  revert st. induction ps as [|p ps IH]; intros st Hn; [done|]. cbn [turns app] in *.
  destruct (turn p st) as [st'|] eqn:E; [by apply IH|]. exfalso. apply Hn.
  destruct (lp_phase st) eqn:Ep; [apply (turn_blocks p st); [congruence|done]|..]; intros q; revert E; unfold turn; rewrite Ep; try done.
Qed.

Lemma closed_runs st c : loop_ok st -> ch_open (lp_channels st c) = false -> ~ blocks st.
Proof.
  intros Hok Hc Hb. destruct (turn_blocks 0 st (lo_runs _ Hok) (Hb 0)) as (_ & Hn & _). specialize (Hn c). unfold recv_ready in Hn.
  by rewrite Hc, orb_true_r in Hn.
Qed.

Lemma turns_ok picks st : loop_ok st -> loop_ok (turns picks st).
Proof. revert st. induction picks as [|p ps IH]; intros st H; cbn [turns]; [done|]. destruct (turn p st) eqn:E; [|done]. apply IH. by eapply wake_turn_ok. Qed.

(** One more pass of a loop that cannot block. *)
Lemma closed_passes st c : loop_ok st -> ch_open (lp_channels st c) = false ->
  exists picks, lp_passes (turns picks st) = S (lp_passes st) /\ ch_open (lp_channels (turns picks st) c) = false.
Proof.
  intros Hok Hc. pose proof (lo_runs _ Hok) as Hr. destruct (lp_phase st) as [| | |] eqn:Ep; [|..].
  2-4: destruct (pass_completes st) as (ps & _ & Hp & Ho); [congruence..|]; exists ps; by rewrite Ho.
  destruct (turn 0 st) as [st'|] eqn:E; [|destruct (closed_runs st c Hok Hc); by apply (turn_blocks 0 st); [congruence|]].
  pose proof (wake_turn_ok _ _ _ Hok E) as Hok'. assert (lp_phase st' = Draining DRAIN_ORDER /\ lp_passes st' = lp_passes st /\
    forall c, ch_open (lp_channels st' c) = ch_open (lp_channels st c)) as (Ep' & Hpa & Ho').
  { unfold turn in E. rewrite Ep in E. apply bind_Some in E as (c' & _ & E). destruct (0 <? _).
    - injection E as <-. split; [done|]. split; [done|]. intros c2. cbn. rewrite fn_at. case_decide; [by subst|done].
    - case_bool_decide; injection E as <-; [|done]. by destruct (lo_runs _ Hok'). }
  destruct (pass_completes st') as (ps & _ & Hp & Ho); [congruence..|]. exists (0 :: ps). cbn [turns]. rewrite E, Ho, Hp, Hpa. by rewrite Ho'.
Qed.

(** An ingest whose task has ended, for want of its token or of its port, leaves a
    receiver that always answers: from then on the loop never blocks, and makes pass
    after pass though nothing happens. *)
Theorem dead_ingest_spins flag st c k : rtc loop_step (loop_start flag) st -> ch_open (lp_channels st c) = false ->
  exists picks, lp_passes (turns picks st) = lp_passes st + k /\ ~ blocks (turns picks st).
Proof.
  intros Hok%reachable_ok Hc. enough (exists picks, lp_passes (turns picks st) = lp_passes st + k /\ ch_open (lp_channels (turns picks st) c) = false) as (ps & ? & ?).
  { exists ps. split; [done|]. eapply closed_runs; [by apply turns_ok|done]. }
  induction k as [|k (ps & Hp & Ho)]; [exists []; split; [cbn; lia|done]|].
  destruct (closed_passes (turns ps st) c) as (qs & Hq & Hoq); [by apply turns_ok|done|]. exists (ps ++ qs).
  rewrite turns_app by (eapply closed_runs; [by apply turns_ok|done]). split; [lia|done].
Qed.

(** ** The break-glass flag *)

Definition flag_covered (st : Loop) : Prop :=
  lp_seen_flag st = Some (lp_flag st) \/ 0 < ch_queued (lp_channels st CBreakGlass) \/
  (exists rest, lp_phase st = Draining rest) \/ (exists rest, lp_phase st = Reading rest).

Lemma turn_flag pick st st' : turn pick st = Some st' -> lp_phase st' <> Stopped -> flag_covered st -> flag_covered st' /\ lp_flag st' = lp_flag st.
Proof.
  unfold turn, flag_covered. intros H Hs Hc. destruct (lp_phase st) as [|[|c rest]|[|s rest]|] eqn:Ep; [| | | | |done].
  - apply bind_Some in H as (c & _ & H). destruct (0 <? _); [|case_bool_decide]; injection H as <-; cbn in *; eauto 6. done.
  - injection H as <-. cbn. eauto 6.
  - destruct (0 <? _); injection H as <-; cbn; rewrite ?Ep; eauto 6.
  - injection H as <-. cbn. auto.
  - injection H as <-. cbn. eauto 6.
Qed.

(** A change of the flag that the poller samples is read by a pass: when the loop
    rests, the last pass saw the flag as it is. *)
Theorem sampled_flag_read flag st st1 picks : rtc loop_step (loop_start flag) st ->
  lp_flag st <> lp_polled st -> happens Poll st = Some st1 -> (forall c, ch_open (lp_channels st1 c) = true) -> turns_left st1 <= length picks ->
  blocks (turns picks st1) /\ lp_seen_flag (turns picks st1) = Some (lp_flag st).
Proof.
  intros Hok%reachable_ok Hf Hp Ho Hl. pose proof (happens_ok _ _ _ Hok Hp) as Hok1.
  destruct (turns_rest picks st1 Hl Ho Hok1) as (Hw & Hz & Hb & _). split; [done|].
  assert (flag_covered st1 /\ lp_flag st1 = lp_flag st) as [Hc <-].
  { cbn [happens] in Hp. rewrite bool_decide_eq_false_2 in Hp by done. injection Hp as <-. split; [|done]. right. left. cbn. rewrite fn_at.
    rewrite decide_True by done. by apply try_send_queued, Hok. }
  assert (flag_covered (turns picks st1) /\ lp_flag (turns picks st1) = lp_flag st1) as [Hc' <-].
  { clear Hl Hw Hz Hb Ho Hp. revert st1 Hok1 Hc. induction picks as [|p ps IH]; intros st1 Hok1 Hc; cbn [turns]; [done|].
    destruct (turn p st1) as [st'|] eqn:E; [|done]. pose proof (wake_turn_ok _ _ _ Hok1 E) as Hok'.
    destruct (turn_flag _ _ _ E (lo_runs _ Hok') Hc) as [Hc' <-]. by apply IH. }
  destruct Hc' as [?|[Hq|[[? ?]|[? ?]]]]; [done| |congruence..]. specialize (Hz CBreakGlass). unfold recv_ready in Hz.
  apply orb_false_iff in Hz as [Hz _]. apply Nat.ltb_ge in Hz. lia.
Qed.

Fixpoint follow (trace : list (Event + nat)) (st : Loop) : option Loop :=
  match trace with
  | [] => Some st
  | inl e :: trace => happens e st ≫= follow trace
  | inr pick :: trace => turn pick st ≫= follow trace
  end.

Lemma follow_reaches trace st st' : follow trace st = Some st' -> rtc loop_step st st'.
Proof.
  revert st. induction trace as [|[e|p] trace IH]; intros st H; cbn [follow] in H.
  - by injection H as <-.
  - apply bind_Some in H as (st1 & H1 & H). eapply rtc_l; [by eapply step_around|by apply IH].
  - apply bind_Some in H as (st1 & H1 & H). eapply rtc_l; [by eapply step_loop|by apply IH].
Qed.

(** One pass, from a ping to the next block. *)
Definition one_pass : list (Event + nat) := replicate 20 (inr 0).

(** The flag is engaged, and the engine reverts; it is cleared, and a pass for another
    reason sees that, and may arm again; it is engaged anew before the next sample:
    the poller sees no edge, nothing is pending, and the loop rests on a pass that saw
    the flag clear. *)
Definition blip : list (Event + nat) :=
  [inl (SetFlag true); inl Poll] ++ one_pass ++ [inl (SetFlag false); inl (Update SPods); inl (Ping SPods)] ++ one_pass ++ [inl (SetFlag true)].

Theorem flag_blip_unseen : exists st, rtc loop_step (loop_start false) st /\ blocks st /\ happens Poll st = Some st /\
  (forall s, lp_unsent st s = 0) /\ lp_flag st = true /\ lp_seen_flag st = Some false.
Proof.
  destruct (follow blip (loop_start false)) as [st|] eqn:E; [|vm_compute in E; discriminate E].
  exists st. split; [by eapply follow_reaches|]. vm_compute in E. injection E as <-.
  split; [intros pick; reflexivity|]. split; [reflexivity|]. split; [intros []; reflexivity|]. done.
Qed.

(** A reflector lists its first pod: the pass its ping starts reads an empty store,
    the list is swapped in after it, and the loop rests on what it read. *)
Definition first_list : list (Event + nat) := [inl (Touch SPods); inl (Ping SPods)] ++ one_pass ++ [inl (Swap SPods)].

Theorem swapped_list_unread : exists st, rtc loop_step (loop_start false) st /\ blocks st /\ (forall s, lp_unsent st s = 0) /\
  (forall c, ch_open (lp_channels st c) = true) /\ lp_data st SPods = 1 /\ lp_seen st SPods = 0.
Proof.
  destruct (follow first_list (loop_start false)) as [st|] eqn:E; [|vm_compute in E; discriminate E].
  exists st. split; [by eapply follow_reaches|]. vm_compute in E. injection E as <-.
  split; [intros pick; reflexivity|]. split; [intros []; reflexivity|]. split; [intros []; reflexivity|]. done.
Qed.

Lemma no_change_unread_witness :
  exists st, follow [inl (Update SPods); inl (Ping SPods); inl (Update SRuntimeEvents); inr 0; inl (Ping SRuntimeEvents)] (loop_start false) = Some st /\
    turns_left st = 39 /\ lp_seen (turns (replicate 39 0) st) SRuntimeEvents = 1.
Proof.
  destruct (follow [inl (Update SPods); inl (Ping SPods); inl (Update SRuntimeEvents); inr 0; inl (Ping SRuntimeEvents)] (loop_start false)) as [st|] eqn:E;
    [|vm_compute in E; discriminate E].
  exists st. split; [reflexivity|]. split; [vm_compute in E; injection E as <-; reflexivity|].
  destruct (no_change_unread false st (follow_reaches _ _ _ E)) as [_ H].
  rewrite (proj2 (proj2 (H ltac:(vm_compute in E; injection E as <-; intros []; reflexivity) ltac:(vm_compute in E; injection E as <-; intros []; reflexivity)
    (replicate 39 0) ltac:(vm_compute in E; injection E as <-; apply Nat.leb_le; reflexivity))) SRuntimeEvents
    ltac:(vm_compute in E; injection E as <-; reflexivity)).
  vm_compute in E. injection E as <-. reflexivity.
Defined.

(** ** What is served *)

(** The dashboard is without a gate only where no issuer is configured, and says so;
    with one, either every request passes a gate of that very configuration, or
    nothing is served. The MCP server always has one. *)
Theorem served_behind env : 
  (forall mode, build_dashboard_auth env = Some (None, mode) <-> non_empty_env env "PROTECTOR_DASHBOARD_OIDC_ISSUER" = None /\ mode = EdgeOnly) /\
  (forall e mode, build_dashboard_auth env = Some (Some e, mode) <->
     mode = Oidc /\ exists config, from_env env = inl (Some config) /\ enforcer_new env config = inl e) /\
  (forall config, build_mcp_verifier env = Some config <-> from_env env = inl (Some config)).
Proof.
  assert (from_env env = inl None <-> non_empty_env env "PROTECTOR_DASHBOARD_OIDC_ISSUER" = None) as Hi.
  { unfold from_env. destruct (non_empty_env env "PROTECTOR_DASHBOARD_OIDC_ISSUER"); [|done].
    repeat match goal with |- context [match ?x with _ => _ end] => destruct x end; naive_solver. }
  unfold build_dashboard_auth, build_mcp_verifier. split; [intros mode; transitivity (from_env env = inl None /\ mode = EdgeOnly); [|by rewrite Hi]|split; [intros e mode|intros config]];
    clear Hi; (destruct (from_env env) as [[config'|]|e']; [destruct (enforcer_new env config') eqn:E|..]);
    (split; [intros H; try done; simplify_eq; eauto|intros H; destruct_and?; repeat match goal with H : exists _, _ |- _ => destruct H end; destruct_and?; simplify_eq; try done; congruence]).
Qed.
